(* ===== verification/_CoqProject ===== *)
-Q . S2P
Prelude.v
Slots.v
Times.v
Cliques.v
Traversal.v
OrdMap.v
Keys.v
KeyFacts.v
Wire.v
WireFacts.v
MipState.v
MipStore.v
Rationals.v
MipStoreFacts.v
Versioning.v
Models.v
Sequencer.v
SequencerFacts.v
SequencerUpdate.v
SequencerSafety.v
Ledger.v
Formats.v
FormatFacts.v
WireSamples.v
BlockFormats.v
BlockFormatFacts.v
Denunciations.v
DenunciationFacts.v
ChainFormats.v
PoolExports.v
DenunciationPool.v
DenunciationPoolFacts.v
History.v
SpecLedger.v
LedgerView.v
HistoryFacts.v
SpecLedgerFacts.v
LedgerRefine.v
DatastoreScan.v
ScanCorrect.v
LedgerCorrect.v
Storage.v
StorageRefs.v
EndorsementPool.v
EndorsementPoolFacts.v
OperationPool.v
OperationPoolFacts.v
PoolWorker.v
PoolThreads.v
PoolSystem.v
Pools.v
Blocks.v
BlocksState.v
ConsensusState.v
Graph.v
Verifications.v
Process.v
Invariant.v
HeaderCheck.v
Insertion.v
Processing.v
Prune.v
Commands.v
EntryPoints.v
Init.v
InitCorrect.v
Samples.v
Consensus.v
Factory.v
FactoryFacts.v
FactoryBlocks.v
Factories.v
Database.v
DatabaseFacts.v
Streaming.v
StreamingFacts.v
Executed.v
ExecutedFacts.v
Finalization.v
StateDb.v
