(* ===== verification/Prelude.v ===== *)
(** * A verification library for the Massa node

    The Massa node keeps a block graph with several threads: in each thread a slot
    every period, a block refers to one parent per thread, and blocks that cannot
    be executed together are incompatible.  Consensus lists the maximal cliques of
    compatible blocks, elects the heaviest one (the blockclique) and finalises
    the blocks that all cliques agree on.  Execution follows consensus through a
    sequence of slots.  Blocks, operations and endorsements live in a storage
    shared by all modules.  Network upgrades are voted by the blocks themselves.

    ** The files and the code

    - [Prelude]: machine integers, the [outcome] type of fallible code ([Ok], [Err],
      [Panic], [OutOfFuel]), loops, sets iterated in an unspecified order
      ([SetIter]), orders, tactics and hints.
    - [Slots], [Times]: massa-models/src/slot.rs and timeslots.rs, massa-time.  A slot
      is related to its rank in the single sequence of all slots.
    - [Models]: identifiers, headers, blocks (massa-models).
    - [Wire], [WireFacts], [Keys], [KeyFacts], [Formats], [FormatFacts], [WireSamples],
      [BlockFormats], [BlockFormatFacts]: serializers and deserializers as functions on
      bytes (massa-serialization, massa-hash, massa-signature and the [Serializer] and
      [Deserializer] implementations of massa-models and massa-ledger-exports), keys of
      the database, addresses, signed objects, headers and blocks.  The class [Wire]
      says that what is written is read again and that what is read is well formed,
      [Canonical] that bytes are read in one way only; a format is proved from its parts.
    - [Denunciations], [DenunciationFacts]: massa-models/src/denunciation.rs.
      [ChainFormats]: the theorems about formats, evaluated on a small chain.
    - [PoolExports], [DenunciationPool], [DenunciationPoolFacts],
      [EndorsementPool], [EndorsementPoolFacts], [OperationPool], [OperationPoolFacts]: the
      three pools of massa-pool-worker, over the storage.
    - [PoolWorker]: their threads, with a buffer each, and their controller (worker.rs and
      controller_impl.rs).  [PoolThreads]: the steps of a thread, proved against the class
      [PoolLaws] of what a pool ensures; [PoolSystem]: the three pools have these laws, and
      the invariant of the whole; [Pools]: its runs, and the theorems, evaluated on one.
    - [Factory]: the two threads of massa-factory-worker (lib.rs, block_factory.rs and
      endorsement_factory.rs) with [Block::new_verifiable] of massa-models.
      [FactoryFacts]: the slots that they choose; [FactoryBlocks]: what
      they make from the state of the pools; [Factories]: the theorems, evaluated on the pools
      of [Pools].
    - [Database]: massa-db-worker/src/massa_db.rs and massa-db-exports, over the class [RocksDB].
      [DatabaseFacts]: its content, its hash and its history, after each call and in
      runs.  [Streaming]: the loop of massa-bootstrap/src/server.rs that streams it and the
      client that writes it; [StreamingFacts]: what a stream has sent, and
      the invariant of a server and its client.
    - [Executed]: the lists of massa-executed-ops; [ExecutedFacts]: they are tables kept under a prefix of the database.
      [Finalization]: the parts of massa-final-state/src/final_state.rs
      that hold them, and their runs; [StateDb]: the theorems about the state on disk, evaluated
      on a database in memory.
    - [Storage], [StorageRefs]: massa-storage.  The shared indexes and the owner
      counters are one value, a [Storage] instance is its sets of references; and what
      calls leave of the stored objects.
    - [Cliques], [Traversal]: massa-consensus-worker/src/state/clique_computation.rs
      and the depth-first traversals of blocks_state.rs and mod.rs.
    - [Blocks], [BlocksState]: block statuses and their transitions (block_status.rs,
      blocks_state.rs).
    - [ConsensusState], [Graph], [Verifications], [Process], [Prune], [Commands],
      [Init]: the files mod.rs, graph.rs, verifications.rs, process.rs, prune.rs,
      process_commands.rs, tick.rs, stats.rs of massa-consensus-worker/src/state,
      and worker/main_loop.rs, worker/init.rs and worker/mod.rs.  The functions on
      [&mut self] take and return the state; messages to other modules are recorded
      in the state with the answer of the channel.
    - [Invariant], [HeaderCheck], [Insertion], [Processing], [EntryPoints],
      [InitCorrect]: the invariant of the block graph and that every step keeps it;
      [Consensus]: the resulting theorems, evaluated on the network of [Samples].
    - [OrdMap], [MipState], [MipStore], [Rationals], [MipStoreFacts],
      [Versioning]: network upgrades (massa-versioning/src/versioning.rs).
    - [Sequencer], [SequencerFacts], [SequencerUpdate],
      [SequencerSafety]: the sequence of slots to execute
      (massa-execution-worker/src/slot_sequencer.rs).
    - [Ledger], [History], [SpecLedger]: amounts and changes (massa-models/src/
      amount.rs, types.rs), ledger entries and changes (massa-ledger-exports),
      deferred credits, and the history of executed slots and the speculative ledger
      of massa-execution-worker (active_history.rs, speculative_ledger.rs).  A call of
      the ledger takes and returns its state, and an error carries the state left.
      [LedgerView], [HistoryFacts], [SpecLedgerFacts], [LedgerRefine]:
      the ledger that layers of changes stand for, the abstract operations on it,
      and its coins.
    - [DatastoreScan], [ScanCorrect]: the listing of the keys
      of a datastore (datastore_scan.rs and massa-models/src/datastore.rs);
      [LedgerCorrect]: the theorems about the ledger, evaluated on a small one.

    The manifest lists the main definitions with the lines that they translate; a helper
    that its caller was split into has its lines within those of the caller.

    ** What the theorems show

    - Consensus.  A worker starts in a consistent state; on a consistent node every
      command and every slot tick returns, without panic, in a consistent state; in
      every run final blocks stay final, as long as no active block is marked invalid, a command
      that discards even a final block.  After a tick no block waits for a slot that is
      reached and drawn.  The check of a header accepts only
      headers with the listed properties and reports exactly its incompatibilities.
      Adding a block lists exactly the maximal cliques of the extended graph.  The
      blockclique is the heaviest clique, and final and stale blocks are exactly those of
      the definition.  The processing loop ends.
    - Block statuses.  Every transition follows the table; the indexes always hold
      exactly the blocks of their status; promotion numbers the dependency tree in
      order.
    - Storage.  Every call returns, and the objects stored are exactly those some
      live instance refers to.
    - Formats.  A well-formed block is written and read again.  Whatever bytes are received,
      a block that is read has parents, endorsements, denunciations and operations
      within the limits, and the identifier of its content.  A valid denunciation is a proof that the owner of the key signed
      the bytes of two different objects for a place, under unforgeability and no collisions.  Keys of the ledger are within their bound.
    - Pools.  In every interleaving of the threads, the calls of the controller and the
      changes that the rest of the program makes to the storage, every step returns and the
      pools hold in the storage what they list, if the selector answers.  A block gets operations within its
      size, its gas and its number, exactly the endorsements of its parent, and denunciations that
      are genuine, not expired and not known as executed.  Pools stay within their
      bounds, the threads publish when idle, and two signatures for a place are denounced.
    - Factories.  There is always a next slot, and none is processed twice, whatever the clock
      does: no two blocks of a run are of one slot, and no two endorsements of one slot and
      index.  On the pools above, a block that is drawn for a key of the wallet is produced
      from what the pools answer, and from nothing of those that do not answer in time; its bytes are read by the
      deserializer of [BlockFormats], which other nodes run; and every index that is drawn is endorsed once, and
      the pools told unless their channels are full.
    - State on disk.  After any run the database holds what was written and the hash of its
      content.  A client that bootstraps has the entries of the server, and their hash, when the
      stream ends, whatever slots are finalized meanwhile and wherever it resumes, if entries fit in
      a part, and the stream of a server that is left alone ends.  What is
      executed is remembered, in the database and in memory, until it expires, also by a node
      that restarts.
    - Upgrades.  The check of a received state is exact; a proposal is locked in
      exactly when half of the considered blocks announce it; a node that lags answers
      the same versions for the slots of its lag, within the activation delay; merging stores never downgrades and adopts a
      later store; a shutdown leaves the store consistent.
    - Sequencer.  On well-formed notifications no call panics; final slots are
      executed once, in order, and never again; the candidate executions always
      agree with the sequence, because the cursor is rolled back exactly to the
      first change.
    - Ledger.  The speculative ledger, with its changes over the history over the final
      ledger, refines a plain map of entries with one operation per call; coins,
      those locked for storage included, are conserved by any sequence of calls;
      snapshots, the history and finality are invisible to the reads; the scan of
      a datastore is exact.  Searches in the history return the newest answer, and
      slots and cycles are found where they are.
    - Slots and times.  The arithmetic respects ranks, at the width of the machine;
      conversions to and from time, keys and cycles are inverse of each other.

    ** Bounds and fuel

    Loops that are not structural take fuel, computed from their input by the
    definition itself: two to the number of vertices for the clique search, the number of
    children links for traversals, the ranks between two slots for the sequencer, the
    number of keys and updates for the merges of the scan.  The loop of a stream is given the
    number of entries and three.
    Theorems show that the result is never [OutOfFuel].

    ** Parameters

    The draws of the selector, the answers of the protocol channel, signatures and
    hashes ([Ed25519], [HashFn]), varints, bit vectors and base 58 of external crates
    ([Varint], [BitVecs], [Base58]), the answers that the pools get from the other
    modules ([PoolChannels], the same throughout a run) and the order by score ([ScoreSort]), vote ratios of the [num] crate, the metadata of executed blocks, the
    database of the crate rocksdb ([RocksDB], whose laws [RocksLaws] say that it reads and iterates what was
    written, and that the disk does not fail) and the hash of an entry ([EntryHash], of a fixed
    length), the reads of the final ledger ([LedgerController], whose laws [ledger_laws] and
    [keys_law] say that it answers for a map of entries) and the time read from the
    clock are arguments of the definitions.  The order in which
    a hash map is iterated is the class [SetIter], of which nothing is known but
    that it lists each element once.

    ** Not modelled

    Cryptography, the network protocol, the messages and sessions of bootstrap, the
    virtual machine, the APIs and the command line are input and output
    or wrappers of external libraries.  Proof of stake, the pool of messages, deferred calls and
    the ledger on disk put their changes in the batch of a slot, which is an argument of its
    finalization, as are the cycles of proof of stake, of which only the write of the hash of a cycle is modelled; snapshots and interpolated slots are left out with them.  Of the modelled parts: the invariant of
    the graph is not stated for [prune], because an insertion can leave an active
    block that is not after the latest final block of its thread, and the start
    from a bootstrap graph is modelled without a theorem, because it trusts the
    graph it receives.  The theorems about the ledger take that updates in the
    history are to entries that exist ([history_anchored]), which the operations
    keep. *)

From Stdlib Require Export NArith Lia.
From stdpp Require Export prelude gmap sorting strings.

Open Scope N_scope.

(** ** Machine integers

    A [u8], [u32], [u64] of the source is an [N]; the width of an operation is
    an explicit argument, the number of bits.  [checked_*] return [None] where
    the Rust method does, [saturating_*] clamp, and [wrapping_*] are the plain
    operators of the release profile (the workspace sets no overflow checks). *)

Definition u8_max : N := 255.
Definition u32_max : N := 4294967295.
Definition u64_max : N := 18446744073709551615.

Definition checked_add (max a b : N) : option N :=
  if a + b <=? max then Some (a + b) else None.
Definition checked_sub (a b : N) : option N :=
  if b <=? a then Some (a - b) else None.
Definition checked_mul (max a b : N) : option N :=
  if a * b <=? max then Some (a * b) else None.
Definition checked_div (a b : N) : option N :=
  if b =? 0 then None else Some (a / b).
Definition checked_rem (a b : N) : option N :=
  if b =? 0 then None else Some (a mod b).

Definition saturating_add (max a b : N) : N := N.min max (a + b).
(** [N] subtraction truncates at zero, as [saturating_sub] does. *)
Definition saturating_sub (a b : N) : N := a - b.
Definition saturating_mul (max a b : N) : N := N.min max (a * b).

Definition wrapping_add (max a b : N) : N := (a + b) mod (max + 1).
Definition wrapping_mul (max a b : N) : N := (a * b) mod (max + 1).
Definition wrapping_sub (max a b : N) : N := (max + 1 + a - b) mod (max + 1).

(** [x as u8]: the low byte. *)
Definition as_u8 (a : N) : N := a mod 256.

(** ** Outcomes of a Rust call

    [Ok] and [Err] are the two sides of a [Result]; [Panic] is an unwinding
    ([panic!], [expect], [unwrap], an index out of range); [OutOfFuel] is the
    artefact of a loop modelled with fuel, and the termination theorems show
    that it is never returned. *)

Inductive outcome (E A : Type) : Type :=
| Ok (a : A)
| Err (e : E)
| Panic (why : string)
| OutOfFuel.
Arguments Ok {_ _} _.
Arguments Err {_ _} _.
Arguments Panic {_ _} _%_string.
Arguments OutOfFuel {_ _}.

#[export] Instance outcome_ret {E} : MRet (outcome E) := λ A a, Ok a.
#[export] Instance outcome_bind {E} : MBind (outcome E) := λ A B f m,
  match m with
  | Ok a => f a
  | Err e => Err e
  | Panic w => Panic w
  | OutOfFuel => OutOfFuel
  end.
#[export] Instance outcome_fmap {E} : FMap (outcome E) := λ A B f m,
  match m with
  | Ok a => Ok (f a)
  | Err e => Err e
  | Panic w => Panic w
  | OutOfFuel => OutOfFuel
  end.

(** [o.ok_or(e)] *)
Definition ok_or {E A} (e : E) (o : option A) : outcome E A :=
  match o with Some a => Ok a | None => Err e end.
(** [o.expect(msg)], [o.unwrap()] and indexing *)
Definition expect {E A} (why : string) (o : option A) : outcome E A :=
  match o with Some a => Ok a | None => Panic why end.
(** [r.map_err(f)] *)
Definition map_err {E E' A} (f : E → E') (m : outcome E A) : outcome E' A :=
  match m with
  | Ok a => Ok a
  | Err e => Err (f e)
  | Panic w => Panic w
  | OutOfFuel => OutOfFuel
  end.
(** [r.expect(msg)] on a [Result] *)
Definition expect_ok {E E' A} (why : string) (m : outcome E A) : outcome E' A :=
  match m with
  | Ok a => Ok a
  | Err _ => Panic why
  | Panic w => Panic w
  | OutOfFuel => OutOfFuel
  end.

Definition is_ok {E A} (m : outcome E A) : bool :=
  match m with Ok _ => true | _ => false end.

(** A loop over a list whose body may fail. *)
Fixpoint foldM {E A B} (f : B → A → outcome E B) (l : list A) (b : B) : outcome E B :=
  match l with
  | [] => Ok b
  | a :: l => b' ← f b a; foldM f l b'
  end.

(** The range [0..n]. *)
Definition range (n : N) : list N := N.of_nat <$> seq 0 (N.to_nat n).

(** [v[i]] and [v[i] = x] on a vector: out of range panics. *)
Definition idx {E A} (l : list A) (i : N) : outcome E A :=
  expect "index out of bounds" (l !! N.to_nat i).
Definition idx_set {E A} (l : list A) (i : N) (x : A) : outcome E (list A) :=
  if i <? N.of_nat (length l) then Ok (<[N.to_nat i := x]> l)
  else Panic "index out of bounds".

Lemma range_split n pre i post :
  range n = pre ++ i :: post → i = N.of_nat (length pre) ∧ i < n.
Proof.
  intros Heq. assert (range n !! length pre = Some i) as Hi.
  { rewrite Heq, lookup_app_r, Nat.sub_diag by lia. done. }
  unfold range in Hi. rewrite list_lookup_fmap in Hi.
  apply fmap_Some in Hi as (k & [-> Hk]%lookup_seq & ->). lia.
Qed.

Lemma length_range n : length (range n) = N.to_nat n.
Proof. unfold range. by rewrite length_fmap, length_seq. Qed.

Section outcome_lemmas.
Context {E : Type}.

Lemma elem_of_range n i : i ∈ range n ↔ i < n.
Proof.
  unfold range. rewrite list_elem_of_fmap. split.
  - intros (k & -> & Hk%elem_of_seq). lia.
  - intros Hi. exists (N.to_nat i). rewrite elem_of_seq. lia.
Qed.

Lemma idx_Ok {A} (l : list A) i a : idx (E := E) l i = Ok a ↔ l !! N.to_nat i = Some a.
Proof. unfold idx, expect. destruct (l !! N.to_nat i); naive_solver. Qed.

Lemma idx_total {A} (l : list A) i :
  i < N.of_nat (length l) → ∃ a, idx (E := E) l i = Ok a ∧ l !! N.to_nat i = Some a.
Proof.
  intros Hi. destruct (lookup_lt_is_Some_2 l (N.to_nat i)) as [a Ha]; [lia|].
  exists a. by rewrite idx_Ok.
Qed.

Lemma idx_set_Ok {A} (l : list A) i a l' :
  idx_set (E := E) l i a = Ok l' ↔ i < N.of_nat (length l) ∧ l' = <[N.to_nat i := a]> l.
Proof. unfold idx_set. destruct (N.ltb_spec i (N.of_nat (length l))); naive_solver lia. Qed.

Lemma outcome_bind_Ok {A B} (f : A → outcome E B) (m : outcome E A) b :
  m ≫= f = Ok b ↔ ∃ a, m = Ok a ∧ f a = Ok b.
Proof. destruct m; cbn; naive_solver. Qed.

Lemma outcome_bind_assoc {A B C} (m : outcome E A) (f : A → outcome E B) (g : B → outcome E C) :
  (m ≫= f) ≫= g = m ≫= λ a, f a ≫= g.
Proof. by destruct m. Qed.

Lemma outcome_bind_ext {A B} (m : outcome E A) (f g : A → outcome E B) :
  (∀ a, f a = g a) → m ≫= f = m ≫= g.
Proof. intros Hfg. destruct m; cbn; [apply Hfg|done..]. Qed.

Lemma ok_or_Ok {A} (e : E) (o : option A) a : ok_or e o = Ok a ↔ o = Some a.
Proof. destruct o; cbn; naive_solver. Qed.

Lemma expect_Ok {A} w (o : option A) a : @expect E A w o = Ok a ↔ o = Some a.
Proof. destruct o; cbn; naive_solver. Qed.

Lemma map_err_Ok {E' A} (f : E' → E) (m : outcome E' A) a :
  map_err f m = Ok a ↔ m = Ok a.
Proof. destruct m; cbn; naive_solver. Qed.

Lemma expect_ok_Ok {E' A} w (m : outcome E' A) a :
  @expect_ok E' E A w m = Ok a ↔ m = Ok a.
Proof. destruct m; cbn; naive_solver. Qed.

Lemma foldM_app {A B} (g : B → A → outcome E B) l1 l2 b :
  foldM g (l1 ++ l2) b = foldM g l1 b ≫= foldM g l2.
Proof.
  revert b; induction l1 as [|a l1 IH]; intros b; cbn; [done|].
  destruct (g b a); cbn; [apply IH|done..].
Qed.

(** The invariant rule of a loop: [P] holds of the elements done so far. *)
Lemma foldM_inv {A B} (P : list A → B → Prop) (g : B → A → outcome E B) l b b' :
  P [] b →
  (∀ pre a post c c', l = pre ++ a :: post → P pre c → g c a = Ok c' →
     P (pre ++ [a]) c') →
  foldM g l b = Ok b' → P l b'.
Proof.
  intros H0 Hstep.
  assert (∀ post pre c, l = pre ++ post → P pre c →
            foldM g post c = Ok b' → P l b') as Hgen; [|by apply (Hgen l [])].
  induction post as [|a post IH]; intros pre c Hl HP Hf; cbn in Hf.
  - injection Hf as <-. by rewrite Hl, app_nil_r.
  - apply outcome_bind_Ok in Hf as (c' & Hg & Hf).
    apply (IH (pre ++ [a]) c'); [by rewrite <-app_assoc|by eapply Hstep|done].
Qed.

Lemma foldM_tt {A} (g : unit → A → outcome E unit) l :
  (∀ x, x ∈ l → g tt x = Ok tt) → foldM g l tt = Ok tt.
Proof.
  induction l as [|x l IH]; intros Hg; [done|]. cbn. rewrite (Hg x) by left. cbn.
  apply IH. intros y Hy. apply Hg. by right.
Qed.

(** The same rule, together with the fact that the loop runs to its end. *)
Lemma foldM_total {A B} (P : list A → B → Prop) (g : B → A → outcome E B) l b :
  P [] b →
  (∀ pre a post c, l = pre ++ a :: post → P pre c →
     ∃ c', g c a = Ok c' ∧ P (pre ++ [a]) c') →
  ∃ b', foldM g l b = Ok b' ∧ P l b'.
Proof.
  intros H0 Hstep.
  assert (∀ post pre c, l = pre ++ post → P pre c →
            ∃ b', foldM g post c = Ok b' ∧ P l b') as Hgen; [|by apply (Hgen l [])].
  induction post as [|a post IH]; intros pre c Hl HP; cbn.
  - exists c. by rewrite Hl, app_nil_r.
  - destruct (Hstep pre a post c Hl HP) as (c' & -> & HP'); cbn.
    apply (IH (pre ++ [a]) c'); [by rewrite <-app_assoc|done].
Qed.
End outcome_lemmas.

(** ** Calls that return

    [returns Q R m]: the call neither panics nor runs out of fuel, its value
    satisfies [Q] and its error satisfies [R]. *)

Definition returns {E A} (Q : A → Prop) (R : E → Prop) (m : outcome E A) : Prop :=
  match m with
  | Ok a => Q a
  | Err e => R e
  | _ => False
  end.

Section returns.
Context {E : Type}.
Implicit Types (R : E → Prop).

Lemma returns_bind {A B} (Q : B → Prop) R (P : A → Prop) (m : outcome E A)
    (f : A → outcome E B) :
  returns P R m → (∀ a, P a → returns Q R (f a)) → returns Q R (m ≫= f).
Proof. destruct m; cbn; auto. Qed.

Lemma returns_mono {A} (P Q : A → Prop) R (m : outcome E A) :
  returns P R m → (∀ a, P a → Q a) → returns Q R m.
Proof. destruct m; cbn; auto. Qed.

Lemma returns_no_err {A} (Q : A → Prop) R (m : outcome E A) :
  returns Q (λ _, False) m → returns Q R m.
Proof. by destruct m. Qed.

Lemma returns_foldM {A B} (P : list A → B → Prop) R (g : B → A → outcome E B) l b :
  P [] b →
  (∀ pre a post c, l = pre ++ a :: post → P pre c → returns (P (pre ++ [a])) R (g c a)) →
  returns (P l) R (foldM g l b).
Proof.
  intros H0 Hstep.
  assert (∀ post pre c, l = pre ++ post → P pre c → returns (P l) R (foldM g post c)) as Hgen;
    [|by apply (Hgen l [])].
  induction post as [|a post IH]; intros pre c Hl HP; cbn.
  - by rewrite Hl, app_nil_r.
  - eapply returns_bind; [by eapply Hstep|]. intros c' HP'.
    apply (IH (pre ++ [a])); [by rewrite <-app_assoc|done].
Qed.

Lemma returns_map_err {A E'} (Q : A → Prop) (R : E → Prop) (f : E' → E) (m : outcome E' A) :
  returns Q (λ e, R (f e)) m → returns Q R (map_err f m).
Proof using. by destruct m. Qed.

Lemma returns_idx {A} (Q : A → Prop) R (l : list A) i :
  i < N.of_nat (length l) → (∀ a, l !! N.to_nat i = Some a → Q a) → returns Q R (idx l i).
Proof. intros Hi HQ. destruct (idx_total (E := E) l i Hi) as (a & -> & Ha). by apply HQ. Qed.

Lemma returns_idx_set {A} (Q : list A → Prop) R (l : list A) i a :
  i < N.of_nat (length l) → Q (<[N.to_nat i := a]> l) → returns Q R (idx_set l i a).
Proof.
  intros Hi HQ. unfold idx_set. by destruct (N.ltb_spec i (N.of_nat (length l))); [|lia].
Qed.
End returns.

(** Takes apart hypotheses that say a composed call returned [Ok]. *)
Ltac inv_ok_step :=
  match goal with
  | H : mbind _ _ = Ok _ |- _ => apply outcome_bind_Ok in H as (? & ? & ?)
  | H : ok_or _ _ = Ok _ |- _ => apply ok_or_Ok in H
  | H : expect _ _ = Ok _ |- _ => apply expect_Ok in H
  | H : map_err _ _ = Ok _ |- _ => apply map_err_Ok in H
  | H : expect_ok _ _ = Ok _ |- _ => apply expect_ok_Ok in H
  | H : mret _ = Ok _ |- _ => unfold mret, outcome_ret in H
  | H : Ok _ = Ok _ |- _ => injection H as H; try subst
  | H : Err _ = Ok _ |- _ => discriminate H
  | H : Panic _ = Ok _ |- _ => discriminate H
  | H : OutOfFuel = Ok _ |- _ => discriminate H
  end.
Ltac inv_ok := repeat inv_ok_step.

(** ** Facts on the machine operations *)

Section machine_lemmas.
Implicit Types (m a b c : N).

Lemma checked_add_Some m a b c :
  checked_add m a b = Some c ↔ a + b ≤ m ∧ c = a + b.
Proof. unfold checked_add. destruct (N.leb_spec (a + b) m); naive_solver lia. Qed.
Lemma checked_sub_Some a b c : checked_sub a b = Some c ↔ b ≤ a ∧ c = a - b.
Proof. unfold checked_sub. destruct (N.leb_spec b a); naive_solver lia. Qed.
Lemma checked_mul_Some m a b c :
  checked_mul m a b = Some c ↔ a * b ≤ m ∧ c = a * b.
Proof. unfold checked_mul. destruct (N.leb_spec (a * b) m); naive_solver lia. Qed.
Lemma checked_div_Some a b c : checked_div a b = Some c ↔ b ≠ 0 ∧ c = a / b.
Proof. unfold checked_div. destruct (N.eqb_spec b 0); naive_solver. Qed.
Lemma checked_rem_Some a b c : checked_rem a b = Some c ↔ b ≠ 0 ∧ c = a mod b.
Proof. unfold checked_rem. destruct (N.eqb_spec b 0); naive_solver. Qed.

Lemma checked_add_None m a b : checked_add m a b = None ↔ m < a + b.
Proof. unfold checked_add. destruct (N.leb_spec (a + b) m); naive_solver lia. Qed.
Lemma checked_sub_None a b : checked_sub a b = None ↔ a < b.
Proof. unfold checked_sub. destruct (N.leb_spec b a); naive_solver lia. Qed.
Lemma checked_mul_None m a b : checked_mul m a b = None ↔ m < a * b.
Proof. unfold checked_mul. destruct (N.leb_spec (a * b) m); naive_solver lia. Qed.

Lemma wrapping_add_small m a b : a + b ≤ m → wrapping_add m a b = a + b.
Proof. intros. unfold wrapping_add. apply N.mod_small. lia. Qed.
Lemma wrapping_sub_small m a b : b ≤ a → a ≤ m → wrapping_sub m a b = a - b.
Proof.
  intros. unfold wrapping_sub.
  replace (m + 1 + a - b) with ((a - b) + 1 * (m + 1)) by lia.
  rewrite N.Div0.mod_add. apply N.mod_small. lia.
Qed.
End machine_lemmas.

(** Turns facts [checked_op .. = Some _] and [= None] into arithmetic. *)
Ltac inv_checked :=
  repeat match goal with
  | H : checked_add _ _ _ = Some _ |- _ => apply checked_add_Some in H as [? ->]
  | H : checked_sub _ _ = Some _ |- _ => apply checked_sub_Some in H as [? ->]
  | H : checked_mul _ _ _ = Some _ |- _ => apply checked_mul_Some in H as [? ->]
  | H : checked_div _ _ = Some _ |- _ => apply checked_div_Some in H as [? ->]
  | H : checked_rem _ _ = Some _ |- _ => apply checked_rem_Some in H as [? ->]
  | H : checked_add _ _ _ = None |- _ => apply checked_add_None in H
  | H : checked_sub _ _ = None |- _ => apply checked_sub_None in H
  | H : checked_mul _ _ _ = None |- _ => apply checked_mul_None in H
  end.

(** Rewrites a checked operation of the goal whose side condition [lia] proves. *)
Ltac solve_checked :=
  repeat match goal with
  | |- context [checked_add ?m ?a ?b] =>
      rewrite (proj2 (checked_add_Some m a b (a + b))) by (split; [lia|done]); cbn
  | |- context [checked_sub ?a ?b] =>
      rewrite (proj2 (checked_sub_Some a b (a - b))) by (split; [lia|done]); cbn
  | |- context [checked_mul ?m ?a ?b] =>
      rewrite (proj2 (checked_mul_Some m a b (a * b))) by (split; [nia|done]); cbn
  | |- context [checked_div ?a ?b] =>
      rewrite (proj2 (checked_div_Some a b (a / b))) by (split; [lia|done]); cbn
  | |- context [checked_rem ?a ?b] =>
      rewrite (proj2 (checked_rem_Some a b (a mod b))) by (split; [lia|done]); cbn
  end.

(** ** Iteration over hash sets

    The iteration order of a Rust [HashSet] or [HashMap] is unspecified.  A
    definition that iterates takes the order as this class: some function that
    lists each element of the set once.  Theorems hold for every instance;
    [elements_iter] is the one the concrete evaluations use. *)

Class SetIter (K : Type) `{Countable K} := {
  set_iter : gset K → list K;
  set_iter_perm s : set_iter s ≡ₚ elements s
}.
#[global] Hint Mode SetIter ! - - : typeclass_instances.

Definition elements_iter {K} `{Countable K} : SetIter K :=
  {| set_iter := elements; set_iter_perm s := Permutation_refl (elements s) |}.

Section set_iter.
Context {K : Type} `{SetIter K}.
Implicit Types (s : gset K).

Lemma elem_of_set_iter s x : x ∈ set_iter s ↔ x ∈ s.
Proof. by rewrite set_iter_perm, elem_of_elements. Qed.
Lemma NoDup_set_iter s : NoDup (set_iter s).
Proof. rewrite set_iter_perm. apply NoDup_elements. Qed.
Lemma list_to_set_iter s : list_to_set (set_iter s) = s.
Proof. apply set_eq. intros x. by rewrite elem_of_list_to_set, elem_of_set_iter. Qed.
Lemma length_set_iter s : length (set_iter s) = size s.
Proof. by rewrite set_iter_perm. Qed.
End set_iter.

(** [map.iter()] of a hash map, in the order of its keys' iteration. *)
Definition map_iter {K V} `{SetIter K} (m : gmap K V) : list (K * V) :=
  omap (λ k, pair k <$> m !! k) (set_iter (dom m)).

Lemma elem_of_map_iter {K V} `{SetIter K} (m : gmap K V) k v :
  (k, v) ∈ map_iter m ↔ m !! k = Some v.
Proof.
  unfold map_iter. rewrite list_elem_of_omap. split.
  - intros (k' & _ & Hk). apply fmap_Some in Hk as (v' & Hv & Heq). congruence.
  - intros Hv. exists k. rewrite elem_of_set_iter, elem_of_dom, Hv. eauto.
Qed.

(** [.collect()] of pairs into a map: a later pair replaces an earlier one. *)
Definition collect_map {K V} `{Countable K} (l : list (K * V)) : gmap K V :=
  foldl (λ m p, <[p.1 := p.2]> m) ∅ l.

Lemma fst_map_iter {K V} `{SetIter K} (m : gmap K V) : (map_iter m).*1 = set_iter (dom m).
Proof.
  unfold map_iter.
  assert (∀ x, x ∈ set_iter (dom m) → is_Some (m !! x)) as Hd
    by (intros x; by rewrite elem_of_set_iter, elem_of_dom).
  induction (set_iter (dom m)) as [|x l IH]; [done|]. cbn.
  destruct (Hd x ltac:(by left)) as [v ->]. cbn. f_equal. apply IH. intros y Hy.
  apply Hd. by right.
Qed.
Lemma NoDup_fst_map_iter {K V} `{SetIter K} (m : gmap K V) : NoDup (map_iter m).*1.
Proof. rewrite fst_map_iter. apply NoDup_set_iter. Qed.
Lemma length_map_iter {K V} `{SetIter K} (m : gmap K V) : length (map_iter m) = size m.
Proof. by rewrite <-(length_fmap fst), fst_map_iter, length_set_iter, size_dom. Qed.

(** ** Total orders

    [Ord] is the comparison a Rust type derives; tuples compare
    lexicographically.  [sort_unstable] of a vector is the merge sort by that
    order: equal elements are indistinguishable, so the result is the same. *)

Class Ord (A : Type) := cmp : A → A → comparison.

Class OrdLaws (A : Type) `{Ord A} := {
  cmp_eq : ∀ a b : A, cmp a b = Eq ↔ a = b;
  cmp_opp : ∀ a b : A, cmp b a = CompOpp (cmp a b);
  cmp_lt_trans : ∀ a b c : A, cmp a b = Lt → cmp b c = Lt → cmp a c = Lt }.

Definition cmp_le {A} `{Ord A} (a b : A) : Prop := cmp a b ≠ Gt.

#[export] Instance cmp_le_dec {A} `{Ord A} : RelDecision (@cmp_le A _).
Proof. intros a b. unfold cmp_le. apply _. Defined.

Definition sort_unstable {A} `{Ord A} (l : list A) : list A := merge_sort cmp_le l.

Definition key_le {A} (key : A → N) (a b : A) : Prop := (key a <= key b)%N.

#[export] Instance key_le_dec {A} (key : A → N) : RelDecision (key_le key).
Proof. intros a b. unfold key_le. apply _. Defined.

(** [sort_unstable_by_key]: here the order of elements of equal key is one
    choice among those Rust allows. *)
Definition sort_unstable_by_key {A} (key : A → N) (l : list A) : list A :=
  merge_sort (key_le key) l.

(** [sort_unstable_by_key(|x| Reverse(key(x)))] *)
Definition key_ge {A} (key : A → N) (a b : A) : Prop := (key b <= key a)%N.

#[export] Instance key_ge_dec {A} (key : A → N) : RelDecision (key_ge key).
Proof. intros a b. unfold key_ge. apply _. Defined.

Definition sort_unstable_by_key_rev {A} (key : A → N) (l : list A) : list A :=
  merge_sort (key_ge key) l.

#[export] Instance N_ord : Ord N := N.compare.
#[export] Instance pair_ord {A B} `{Ord A, Ord B} : Ord (A * B) := λ x y,
  match cmp x.1 y.1 with Eq => cmp x.2 y.2 | c => c end.

#[export] Instance N_ord_laws : OrdLaws N.
Proof.
  split; unfold cmp, N_ord.
  - apply N.compare_eq_iff.
  - intros a b. apply N.compare_antisym.
  - intros a b c. rewrite !N.compare_lt_iff. lia.
Qed.

#[export] Instance pair_ord_laws {A B} `{OrdLaws A, OrdLaws B} : OrdLaws (A * B).
Proof.
  split; unfold cmp, pair_ord.
  - intros [a b] [a' b']; cbn. destruct (cmp a a') eqn:Ha.
    + apply cmp_eq in Ha as ->. rewrite cmp_eq. naive_solver.
    + split; [done|]. intros [= -> ->]. by rewrite (proj2 (cmp_eq a' a') eq_refl) in Ha.
    + split; [done|]. intros [= -> ->]. by rewrite (proj2 (cmp_eq a' a') eq_refl) in Ha.
  - intros [a b] [a' b']; cbn. rewrite (cmp_opp a a'), (cmp_opp b b').
    by destruct (cmp a a').
  - intros [a b] [a' b'] [a2 b2]; cbn.
    destruct (cmp a a') eqn:E1; [apply cmp_eq in E1 as ->| |done];
      (destruct (cmp a' a2) eqn:E2; [apply cmp_eq in E2 as <-| |done]).
    + apply cmp_lt_trans.
    + done.
    + by rewrite E1.
    + by rewrite (cmp_lt_trans _ _ _ E1 E2).
Qed.

Section ord.
Context {A : Type} `{OrdLaws A}.

#[export] Instance cmp_le_total : Total (@cmp_le A _).
Proof. intros a b. unfold cmp_le. rewrite (cmp_opp a b). destruct (cmp a b); cbn; auto. Qed.

#[export] Instance cmp_le_trans : Transitive (@cmp_le A _).
Proof.
  intros a b c. unfold cmp_le. intros Hab Hbc.
  destruct (cmp a b) eqn:E1; [apply cmp_eq in E1 as ->; done| |done].
  destruct (cmp b c) eqn:E2; [apply cmp_eq in E2 as <-; by rewrite E1| |done].
  by rewrite (cmp_lt_trans _ _ _ E1 E2).
Qed.

Lemma cmp_le_antisym a b : cmp_le a b → cmp_le b a → a = b.
Proof.
  unfold cmp_le. rewrite (cmp_opp a b). destruct (cmp a b) eqn:Hc; cbn; try done.
  intros _ _. by apply cmp_eq.
Qed.

Lemma sort_unstable_perm (l : list A) : sort_unstable l ≡ₚ l.
Proof using. apply merge_sort_Permutation. Qed.

Lemma sort_unstable_sorted (l : list A) : StronglySorted cmp_le (sort_unstable l).
Proof. apply StronglySorted_merge_sort; apply _. Qed.

Lemma elem_of_sort_unstable (l : list A) x : x ∈ sort_unstable l ↔ x ∈ l.
Proof using. by rewrite sort_unstable_perm. Qed.
End ord.

Lemma sort_unstable_by_key_perm {A} (key : A → N) l : sort_unstable_by_key key l ≡ₚ l.
Proof. apply merge_sort_Permutation. Qed.
Lemma sort_unstable_by_key_rev_perm {A} (key : A → N) l :
  sort_unstable_by_key_rev key l ≡ₚ l.
Proof. apply merge_sort_Permutation. Qed.

(** ** The tactics and hints the components share *)

Create HintDb massa.
Lemma size_list_to_set_le {A} `{Countable A} (l : list A) :
  (size (list_to_set l : gset A) ≤ length l)%nat.
Proof.
  induction l as [|x l IH]; cbn; [by rewrite size_empty|].
  rewrite size_union_alt, size_singleton.
  transitivity (S (size (list_to_set l : gset A))); [apply le_n_S, subseteq_size; set_solver|lia].
Qed.
Lemma length_omap_le {A B} (f : A → option B) l : (length (omap f l) ≤ length l)%nat.
Proof. induction l as [|x l IH]; cbn; [done|]. destruct (f x); cbn; lia. Qed.

Lemma mapM_Ok {E A B} (f : A → outcome E B) (g : A → B) l :
  (∀ x, x ∈ l → f x = Ok (g x)) → mapM f l = Ok (g <$> l).
Proof.
  induction l as [|x l IH]; intros Hf; [done|]. cbn. rewrite (Hf x) by left. cbn.
  by rewrite IH by (intros y Hy; apply Hf; by right).
Qed.

#[export] Hint Resolve NoDup_set_iter : massa.
#[export] Hint Rewrite @elem_of_set_iter @elem_of_map_iter using typeclasses eauto : massa.

(** [set_solver] on the plain set facts only: quantified hypotheses, which make
    its search diverge, are dropped first. *)
Ltac set_basic :=
  repeat match goal with
  | H : ∀ _, _ |- _ => clear H
  | H : set_Forall _ _ |- _ => clear H
  end; set_solver.

Lemma set_Forall_iff {K} `{Countable K} (P Q : K → Prop) (X : gset K) :
  (∀ x, x ∈ X → P x ↔ Q x) → set_Forall P X ↔ set_Forall Q X.
Proof. intros Hiff. unfold set_Forall. naive_solver. Qed.
