(* ===== verification/Slots.v ===== *)
(** * Slots

    [massa-models/src/slot.rs]: the [Slot] record, its order, the arithmetic on
    slots (next, previous, distance, skip), the cycle boundaries and the
    fixed-size sortable key.  A slot is related to its rank [slot_index] in the
    single sequence of all slots, which is what the arithmetic has to respect. *)

From S2P Require Import Prelude.

Open Scope N_scope.

(** The errors of [massa-time/src/error.rs] and of [massa-models/src/error.rs]
    that the modelled code returns. *)
Inductive TimeError : Type :=
| ConversionError
| TimeErrorOverflow
| CheckedOperationError (what : string).

Inductive ModelsError : Type :=
| PeriodOverflowError
| ThreadOverflowError
| TimeOverflowError
| ModelsTimeError (e : TimeError)
| AmountParseError (what : string)
| BufferError (what : string)
| ModelsSerializeError (what : string)
| ErrorRaised (what : string).

Record Slot : Type := MkSlot { period : N; thread : N }.

#[export] Instance slot_eq_dec : EqDecision Slot.
Proof. solve_decision. Defined.
#[export] Instance slot_countable : Countable Slot :=
  inj_countable' (λ s, (period s, thread s)) (λ p, MkSlot p.1 p.2)
    (λ s, match s with MkSlot _ _ => eq_refl end).

(** [Ord for Slot]: the lexicographic order on [(period, thread)]. *)
Definition slot_cmp (a b : Slot) : comparison :=
  match period a ?= period b with
  | Eq => thread a ?= thread b
  | c => c
  end.
Definition slot_lt (a b : Slot) : bool :=
  match slot_cmp a b with Lt => true | _ => false end.
Definition slot_le (a b : Slot) : bool :=
  match slot_cmp a b with Gt => false | _ => true end.

(** [Option<Slot>] comparison, where [None] is below every [Some]. *)
Definition opt_slot_lt (a b : option Slot) : bool :=
  match a, b with
  | _, None => false
  | None, Some _ => true
  | Some a, Some b => slot_lt a b
  end.

Definition new_last_of_cycle (cycle periods_per_cycle thread_count : N)
    : outcome ModelsError Slot :=
  p ← ok_or PeriodOverflowError (checked_mul u64_max cycle periods_per_cycle);
  p ← ok_or PeriodOverflowError
        (checked_add u64_max p (saturating_sub periods_per_cycle 1));
  Ok (MkSlot p (saturating_sub thread_count 1)).

Definition new_first_of_cycle (cycle periods_per_cycle : N)
    : outcome ModelsError Slot :=
  p ← ok_or PeriodOverflowError (checked_mul u64_max cycle periods_per_cycle);
  Ok (MkSlot p 0).

Definition slot_min : Slot := MkSlot 0 0.
Definition slot_max (thread_count : N) : Slot :=
  MkSlot u64_max (saturating_sub thread_count 1).

(** [/] panics on a zero divisor. *)
Definition get_cycle (s : Slot) (periods_per_cycle : N) : outcome ModelsError N :=
  expect "attempt to divide by zero" (checked_div (period s) periods_per_cycle).

(** [%] panics on a zero divisor. *)
Definition is_last_of_cycle (s : Slot) (periods_per_cycle thread_count : N)
    : outcome ModelsError bool :=
  r ← expect "attempt to calculate the remainder with a divisor of zero"
        (checked_rem (period s) periods_per_cycle);
  Ok ((r =? saturating_sub periods_per_cycle 1)
      && (thread s =? saturating_sub thread_count 1)).

(** [is_multiple_of]: only zero is a multiple of zero. *)
Definition is_multiple_of (a b : N) : bool :=
  if b =? 0 then a =? 0 else a mod b =? 0.

Definition is_first_of_cycle (s : Slot) (periods_per_cycle : N) : bool :=
  is_multiple_of (period s) periods_per_cycle && (thread s =? 0).

(** [u64::to_be_bytes] and [u64::from_be_bytes], on [n] bytes. *)
Fixpoint to_be_bytes (n : nat) (x : N) : list N :=
  match n with
  | O => []
  | S n => x / 256 ^ N.of_nat n mod 256 :: to_be_bytes n x
  end.
Definition from_be_bytes (l : list N) : N :=
  foldl (λ acc b, acc * 256 + b) 0 l.

Definition to_bytes_key (s : Slot) : list N :=
  to_be_bytes 8 (period s) ++ [thread s].
Definition from_bytes_key (buffer : list N) : Slot :=
  MkSlot (from_be_bytes (take 8 buffer)) (default 0 (buffer !! 8%nat)).

Definition get_next_slot (s : Slot) (thread_count : N) : outcome ModelsError Slot :=
  if thread_count <=? saturating_add u8_max (thread s) 1 then
    p ← ok_or PeriodOverflowError (checked_add u64_max (period s) 1);
    Ok (MkSlot p 0)
  else
    t ← ok_or ThreadOverflowError (checked_add u8_max (thread s) 1);
    Ok (MkSlot (period s) t).

Definition get_prev_slot (s : Slot) (thread_count : N) : outcome ModelsError Slot :=
  match checked_sub (thread s) 1 with
  | Some t => Ok (MkSlot (period s) t)
  | None =>
      p ← ok_or PeriodOverflowError (checked_sub (period s) 1);
      Ok (MkSlot p (saturating_sub thread_count 1))
  end.

(** [self.slots_since(s)] *)
Definition slots_since (self s : Slot) (thread_count : N) : outcome ModelsError N :=
  if slot_lt self s then Err PeriodOverflowError
  else
    n ← ok_or PeriodOverflowError
          (checked_mul u64_max (period self - period s) thread_count);
    n ← ok_or PeriodOverflowError (checked_add u64_max n (thread self));
    Ok (saturating_sub n (thread s)).

Definition skip (self : Slot) (n thread_count : N) : outcome ModelsError Slot :=
  q ← expect "attempt to divide by zero" (checked_div n thread_count);
  res_period ← ok_or PeriodOverflowError (checked_add u64_max (period self) q);
  r ← expect "attempt to calculate the remainder with a divisor of zero"
        (checked_rem n thread_count);
  res_thread ← ok_or ThreadOverflowError (checked_add u64_max (thread self) r);
  if thread_count <=? res_thread then
    res_period ← ok_or PeriodOverflowError (checked_add u64_max res_period 1);
    Ok (MkSlot res_period (as_u8 (res_thread - thread_count)))
  else Ok (MkSlot res_period (as_u8 res_thread)).

(** ** Well-formed slots and their rank *)

(** A slot of a chain with [tc] threads whose fields fit their widths. *)
Definition slot_ok (tc : N) (s : Slot) : Prop :=
  period s ≤ u64_max ∧ thread s < tc.
(** What the configuration guarantees of the number of threads. *)
Definition threads_ok (tc : N) : Prop := 0 < tc ∧ tc ≤ u8_max.

Definition slot_index (tc : N) (s : Slot) : N := period s * tc + thread s.

Section slot_facts.
Context (tc : N).
Implicit Types (s a b : Slot).

Lemma slot_eta s : MkSlot (period s) (thread s) = s.
Proof. by destruct s. Qed.

Lemma slot_index_inj a b :
  thread a < tc → thread b < tc → slot_index tc a = slot_index tc b → a = b.
Proof.
  destruct a as [p t], b as [q u]; unfold slot_index; cbn. intros Ha Hb Heq.
  assert (p = q) as -> by nia. f_equal. lia.
Qed.

Lemma slot_cmp_index a b :
  thread a < tc → thread b < tc →
  slot_cmp a b = (slot_index tc a ?= slot_index tc b).
Proof.
  intros Ha Hb. unfold slot_cmp, slot_index.
  destruct (N.compare_spec (period a) (period b)) as [E|E|E]; symmetry.
  - rewrite E. destruct (N.compare_spec (thread a) (thread b)).
    + apply N.compare_eq_iff. lia.
    + apply N.compare_lt_iff. lia.
    + apply N.compare_gt_iff. lia.
  - apply N.compare_lt_iff. nia.
  - apply N.compare_gt_iff. nia.
Qed.

Lemma slot_le_iff a b :
  slot_le a b = true ↔ period a < period b ∨ period a = period b ∧ thread a ≤ thread b.
Proof.
  unfold slot_le, slot_cmp. destruct (N.compare_spec (period a) (period b)) as [->|?|?];
    [destruct (N.compare_spec (thread a) (thread b))|..]; split; intros; done || lia.
Qed.

Lemma slot_lt_iff a b :
  slot_lt a b = true ↔ period a < period b ∨ period a = period b ∧ thread a < thread b.
Proof.
  unfold slot_lt, slot_cmp. destruct (N.compare_spec (period a) (period b)) as [->|?|?];
    [destruct (N.compare_spec (thread a) (thread b))|..]; split; intros; done || lia.
Qed.

Lemma slot_lt_index a b :
  thread a < tc → thread b < tc →
  slot_lt a b = true ↔ slot_index tc a < slot_index tc b.
Proof.
  intros Ha Hb. unfold slot_lt. rewrite slot_cmp_index by done.
  destruct (N.compare_spec (slot_index tc a) (slot_index tc b)); split; lia || done.
Qed.

Lemma slot_lt_false_index a b :
  thread a < tc → thread b < tc →
  slot_lt a b = false ↔ slot_index tc b ≤ slot_index tc a.
Proof.
  intros Ha Hb. rewrite <-not_true_iff_false, slot_lt_index by done. lia.
Qed.

Lemma slots_since_index self s :
  thread self < tc → thread s < tc → slot_index tc self ≤ u64_max →
  slots_since self s tc =
    if slot_lt self s then Err PeriodOverflowError
    else Ok (slot_index tc self - slot_index tc s).
Proof.
  intros Ht Hs Hmax. unfold slots_since.
  destruct (slot_lt self s) eqn:E; [done|].
  apply slot_lt_false_index in E; [|done..]. unfold slot_index in *.
  assert (period s ≤ period self) by nia.
  assert ((period self - period s) * tc + thread self ≤ u64_max).
  { rewrite N.mul_sub_distr_r. lia. }
  solve_checked. unfold saturating_sub. f_equal.
  rewrite N.mul_sub_distr_r. nia.
Qed.

Lemma get_next_slot_index s s' :
  threads_ok tc → thread s < tc → get_next_slot s tc = Ok s' →
  slot_index tc s' = slot_index tc s + 1 ∧ thread s' < tc ∧ period s' ≤ N.max (period s) u64_max.
Proof.
  intros [H0 H8] Ht. unfold get_next_slot, saturating_add, u8_max, slot_index in *.
  destruct (N.leb_spec tc (N.min 255 (thread s + 1))); intros; inv_ok; inv_checked; cbn.
  - assert (tc = thread s + 1) by lia. nia.
  - lia.
Qed.

Lemma get_next_slot_total s :
  threads_ok tc → slot_ok tc s →
  get_next_slot s tc =
    if (period s =? u64_max) && (thread s =? tc - 1) then Err PeriodOverflowError
    else Ok (if thread s =? tc - 1 then MkSlot (period s + 1) 0
             else MkSlot (period s) (thread s + 1)).
Proof.
  intros [H0 H8] [Hp Ht]. unfold get_next_slot, saturating_add, u8_max in *.
  destruct (N.leb_spec tc (N.min 255 (thread s + 1))).
  - assert (thread s = tc - 1) as -> by lia. rewrite N.eqb_refl, andb_true_r.
    unfold checked_add. destruct (N.eqb_spec (period s) u64_max) as [->|];
      [done|]. destruct (N.leb_spec (period s + 1) u64_max); [done|lia].
  - assert ((thread s =? tc - 1) = false) as -> by (apply N.eqb_neq; lia).
    rewrite andb_false_r. solve_checked. done.
Qed.

Lemma get_prev_slot_index s s' :
  threads_ok tc → thread s < tc → get_prev_slot s tc = Ok s' →
  slot_index tc s' + 1 = slot_index tc s ∧ thread s' < tc ∧ period s' ≤ period s.
Proof.
  intros [H0 H8] Ht. unfold get_prev_slot, saturating_sub, slot_index.
  destruct (checked_sub (thread s) 1) eqn:E; intros; inv_ok; inv_checked; cbn; [lia|].
  assert (thread s = 0) as -> by lia. nia.
Qed.

Lemma skip_index s n s' :
  threads_ok tc → thread s < tc → n ≤ u64_max → skip s n tc = Ok s' →
  slot_index tc s' = slot_index tc s + n ∧ slot_ok tc s'.
Proof.
  intros [H0 H8] Ht Hn. unfold skip, slot_ok, slot_index, u8_max in *.
  intros H. inv_ok. inv_checked.
  pose proof (N.div_mod n tc ltac:(lia)). pose proof (N.mod_lt n tc ltac:(lia)).
  unfold as_u8 in *.
  destruct (N.leb_spec tc (thread s + n mod tc)); inv_ok; inv_checked; cbn;
    rewrite N.mod_small by lia; nia.
Qed.
End slot_facts.

(** ** Big-endian bytes *)

Section be_bytes.
Lemma length_to_be_bytes n x : length (to_be_bytes n x) = n.
Proof. by induction n as [|n IH]; cbn; [|rewrite IH]. Qed.

Lemma to_be_bytes_bounded n x : Forall (λ b, b < 256) (to_be_bytes n x).
Proof. induction n; cbn; constructor; [apply N.mod_lt; lia|done]. Qed.

Lemma from_be_bytes_snoc l b : from_be_bytes (l ++ [b]) = from_be_bytes l * 256 + b.
Proof. unfold from_be_bytes. by rewrite foldl_app. Qed.

Lemma foldl_be_shift l a b :
  foldl (λ acc b, acc * 256 + b) (a + b) l
  = a * 256 ^ N.of_nat (length l) + foldl (λ acc b, acc * 256 + b) b l.
Proof.
  revert a b; induction l as [|c l IH]; intros a b; cbn [foldl length]; [lia|].
  replace ((a + b) * 256 + c) with (a * 256 + (b * 256 + c)) by lia.
  rewrite IH, Nat2N.inj_succ, N.pow_succ_r'. lia.
Qed.

Lemma from_be_bytes_cons b l :
  from_be_bytes (b :: l) = b * 256 ^ N.of_nat (length l) + from_be_bytes l.
Proof.
  unfold from_be_bytes; cbn [foldl].
  replace (0 * 256 + b) with (b + 0) by lia. apply foldl_be_shift.
Qed.

Lemma from_to_be_bytes n x : from_be_bytes (to_be_bytes n x) = x mod 256 ^ N.of_nat n.
Proof.
  induction n as [|n IH]; [by rewrite N.mod_1_r|].
  cbn [to_be_bytes]. rewrite from_be_bytes_cons, length_to_be_bytes, IH.
  rewrite Nat2N.inj_succ, N.pow_succ_r', (N.mul_comm 256), N.Div0.mod_mul_r. lia.
Qed.

Lemma to_be_bytes_mod n x : to_be_bytes n (x mod 256 ^ N.of_nat n) = to_be_bytes n x.
Proof.
  assert (∀ m k, (m ≤ k)%nat → to_be_bytes m (x mod 256 ^ N.of_nat k) = to_be_bytes m x)
    as Hgen; [|by apply Hgen].
  induction m as [|m IH]; intros k Hk; cbn; [done|]. f_equal; [|apply IH; lia].
  replace (N.of_nat k) with (N.of_nat m + (1 + (N.of_nat (k - m - 1)))) by lia.
  rewrite N.pow_add_r, N.Div0.mod_mul_r, (N.mul_comm (256 ^ N.of_nat m)).
  rewrite N.div_add by (apply N.pow_nonzero; lia).
  rewrite (N.div_small (x mod _)) by (apply N.mod_lt, N.pow_nonzero; lia).
  rewrite N.add_0_l, N.pow_add_r, N.pow_1_r, N.Div0.mod_mul_r.
  rewrite N.mul_comm, N.Div0.mod_add. by rewrite N.Div0.mod_mod.
Qed.

Lemma from_be_bytes_bound l :
  Forall (λ b, b < 256) l → from_be_bytes l < 256 ^ N.of_nat (length l).
Proof.
  induction 1 as [|b l Hb Hl IH]; [cbn; lia|].
  rewrite from_be_bytes_cons. cbn [length]. rewrite Nat2N.inj_succ, N.pow_succ_r'.
  nia.
Qed.
End be_bytes.

(** The order of byte strings the database sorts its keys with. *)
Fixpoint bytes_cmp (a b : list N) : comparison :=
  match a, b with
  | [], [] => Eq
  | [], _ => Lt
  | _, [] => Gt
  | x :: a, y :: b => match x ?= y with Eq => bytes_cmp a b | c => c end
  end.

Lemma bytes_cmp_be a b :
  length a = length b → Forall (λ b, b < 256) a → Forall (λ b, b < 256) b →
  bytes_cmp a b = (from_be_bytes a ?= from_be_bytes b).
Proof.
  revert b; induction a as [|x a IH]; intros [|y b] Hlen Ha Hb; try done.
  apply Forall_cons in Ha as [Hx Ha]. apply Forall_cons in Hb as [Hy Hb].
  injection Hlen as Hlen. cbn [bytes_cmp]. rewrite !from_be_bytes_cons, Hlen.
  pose proof (from_be_bytes_bound a Ha). pose proof (from_be_bytes_bound b Hb).
  rewrite Hlen in *. symmetry.
  destruct (N.compare_spec x y) as [->|E|E].
  - rewrite IH by done. destruct (N.compare_spec (from_be_bytes a) (from_be_bytes b)).
    + apply N.compare_eq_iff; lia.
    + apply N.compare_lt_iff; lia.
    + apply N.compare_gt_iff; lia.
  - apply N.compare_lt_iff; nia.
  - apply N.compare_gt_iff; nia.
Qed.

Lemma bytes_cmp_app a b c d :
  length a = length b →
  bytes_cmp (a ++ c) (b ++ d) = match bytes_cmp a b with Eq => bytes_cmp c d | r => r end.
Proof.
  revert b; induction a as [|x a IH]; intros [|y b] Hlen; try done.
  injection Hlen as Hlen. cbn. destruct (x ?= y); [by apply IH|done..].
Qed.

(** ** Properties of slots *)

(** On a slot of a chain with [tc] threads, [get_next_slot] fails exactly at
    the last slot of the last period; otherwise it returns the slot of the next
    rank, and [get_prev_slot] takes it back to the slot it came from. *)
Theorem get_next_slot_correct (tc : N) (s : Slot) :
  threads_ok tc → slot_ok tc s →
  if slot_index tc s =? slot_index tc (slot_max tc)
  then get_next_slot s tc = Err PeriodOverflowError
  else ∃ s', get_next_slot s tc = Ok s' ∧ slot_ok tc s'
             ∧ slot_index tc s' = slot_index tc s + 1
             ∧ get_prev_slot s' tc = Ok s.
Proof.
  intros Htc Hs. pose proof (get_next_slot_total tc s Htc Hs) as Heq.
  destruct Htc as [H0 H8], Hs as [Hp Ht].
  assert ((slot_index tc s =? slot_index tc (slot_max tc))
          = (period s =? u64_max) && (thread s =? tc - 1)) as ->.
  { unfold slot_index, slot_max, saturating_sub; cbn [period thread].
    apply eq_true_iff_eq. rewrite andb_true_iff, !N.eqb_eq. nia. }
  destruct ((period s =? u64_max) && (thread s =? tc - 1)) eqn:E; [done|].
  eexists; split; [exact Heq|]. unfold slot_ok, slot_index, get_prev_slot, u8_max in *.
  destruct (N.eqb_spec (thread s) (tc - 1)) as [Et|Et]; cbn.
  - rewrite andb_true_r, N.eqb_neq in E. split_and!; try lia; try nia.
    cbn. unfold saturating_sub. solve_checked.
    rewrite N.add_sub, <-Et, slot_eta. done.
  - split_and!; try lia. solve_checked. by rewrite N.add_sub, slot_eta.
Qed.

Lemma get_next_slot_correct_witness :
  threads_ok 32 ∧ slot_ok 32 (MkSlot 10 31)
  ∧ ∃ s', get_next_slot (MkSlot 10 31) 32 = Ok s' ∧ slot_ok 32 s'
          ∧ slot_index 32 s' = slot_index 32 (MkSlot 10 31) + 1
          ∧ get_prev_slot s' 32 = Ok (MkSlot 10 31).
Proof.
  assert (threads_ok 32) as Ht by (vm_compute; intuition discriminate).
  assert (slot_ok 32 (MkSlot 10 31)) as Hs by (vm_compute; intuition discriminate).
  split; [exact Ht|]. split; [exact Hs|].
  exact (get_next_slot_correct 32 (MkSlot 10 31) Ht Hs).
Defined.

(** [skip] advances by exactly [n] slots and [slots_since] measures it: from a
    slot of the chain, a skip of [n] succeeds whenever the rank stays below the
    last slot's, its result is [n] ranks further, and [slots_since] the origin
    gives [n] back. *)
Theorem skip_slots_since (tc : N) (s : Slot) (n : N) :
  threads_ok tc → slot_ok tc s → slot_index tc s + n ≤ u64_max →
  ∃ s', skip s n tc = Ok s' ∧ slot_ok tc s'
        ∧ slot_index tc s' = slot_index tc s + n
        ∧ slots_since s' s tc = Ok n.
Proof.
  intros Htc Hs Hn.
  assert (∃ s', skip s n tc = Ok s') as [s' Hskip].
  { destruct Htc as [H0 H8], Hs as [Hp Ht]. unfold skip, slot_index, u8_max in *.
    pose proof (N.div_mod n tc ltac:(lia)). pose proof (N.mod_lt n tc ltac:(lia)).
    assert (∀ x, x * tc ≤ u64_max → x ≤ u64_max) as Htc1 by (intros; nia).
    assert (period s + n / tc ≤ u64_max).
    { apply Htc1. revert H. generalize (n / tc) (n mod tc). intros. subst. nia. }
    assert (thread s + n mod tc ≤ u64_max) by (unfold u64_max; lia).
    solve_checked. destruct (N.leb_spec tc (thread s + n mod tc)) as [Hge|]; [|eauto].
    assert (period s + n / tc + 1 ≤ u64_max).
    { apply Htc1. revert H Hge. generalize (n / tc) (n mod tc). intros. subst. nia. }
    solve_checked. eauto. }
  destruct (skip_index tc s n s') as [Hidx Hok]; [done|apply Hs|lia|done|].
  exists s'. split_and!; [done|done|done|].
  rewrite slots_since_index; [|apply Hok|apply Hs|lia].
  assert (slot_lt s' s = false) as ->
    by (apply (slot_lt_false_index tc); [apply Hok|apply Hs|lia]).
  f_equal. lia.
Qed.

Lemma skip_slots_since_witness :
  ∃ s', skip (MkSlot 10 3) 62 32 = Ok s' ∧ slot_ok 32 s'
        ∧ slot_index 32 s' = slot_index 32 (MkSlot 10 3) + 62
        ∧ slots_since s' (MkSlot 10 3) 32 = Ok 62.
Proof.
  apply (skip_slots_since 32 (MkSlot 10 3) 62);
    [vm_compute; intuition discriminate..|vm_compute; discriminate].
Defined.

(** The binary key of a slot is faithful and sortable: reading a key back
    gives the slot, and the byte order of two keys is the order of the slots. *)
Theorem bytes_key_roundtrip_sorted (a b : Slot) :
  period a ≤ u64_max → thread a ≤ u8_max → period b ≤ u64_max → thread b ≤ u8_max →
  from_bytes_key (to_bytes_key a) = a
  ∧ length (to_bytes_key a) = 9%nat
  ∧ bytes_cmp (to_bytes_key a) (to_bytes_key b) = slot_cmp a b.
Proof.
  intros Ha Ha' Hb Hb'. unfold from_bytes_key, to_bytes_key.
  assert (∀ x, x ≤ u64_max → from_be_bytes (to_be_bytes 8 x) = x) as Hrt.
  { intros x Hx. rewrite from_to_be_bytes. apply N.mod_small.
    change (256 ^ N.of_nat 8) with 18446744073709551616. unfold u64_max in Hx. lia. }
  split_and!.
  - rewrite take_app_length', lookup_app_r by (by rewrite length_to_be_bytes).
    rewrite length_to_be_bytes, Hrt by done. cbn. apply slot_eta.
  - by rewrite length_app, length_to_be_bytes.
  - rewrite bytes_cmp_app by (by rewrite !length_to_be_bytes).
    rewrite bytes_cmp_be by (rewrite ?length_to_be_bytes; auto using to_be_bytes_bounded).
    rewrite !Hrt by done. unfold slot_cmp. cbn.
    destruct (period a ?= period b); [|done..]. by destruct (thread a ?= thread b).
Qed.

Lemma bytes_key_roundtrip_sorted_witness :
  from_bytes_key (to_bytes_key (MkSlot 10 5)) = MkSlot 10 5
  ∧ length (to_bytes_key (MkSlot 10 5)) = 9%nat
  ∧ bytes_cmp (to_bytes_key (MkSlot 10 5)) (to_bytes_key (MkSlot 300 1))
    = slot_cmp (MkSlot 10 5) (MkSlot 300 1).
Proof.
  apply (bytes_key_roundtrip_sorted (MkSlot 10 5) (MkSlot 300 1)); vm_compute; discriminate.
Defined.

(** The cycle boundaries agree: with a positive cycle length, the slots from
    [new_first_of_cycle c] to [new_last_of_cycle c] are exactly those whose
    [get_cycle] is [c], and [is_first_of_cycle], [is_last_of_cycle] recognise
    the two ends. *)
Theorem cycle_boundaries (tc ppc c : N) (first last s : Slot) :
  threads_ok tc → 0 < ppc → slot_ok tc s →
  new_first_of_cycle c ppc = Ok first → new_last_of_cycle c ppc tc = Ok last →
  (get_cycle s ppc = Ok c ↔ slot_le first s = true ∧ slot_le s last = true)
  ∧ (get_cycle s ppc = Ok c → is_first_of_cycle s ppc = true ↔ s = first)
  ∧ (get_cycle s ppc = Ok c → is_last_of_cycle s ppc tc = Ok true ↔ s = last).
Proof.
  intros [H0 H8] Hppc [Hp Ht] Hf Hl.
  unfold new_first_of_cycle, new_last_of_cycle, saturating_sub in *.
  inv_ok; inv_checked. destruct s as [p t]; cbn in *.
  pose proof (N.div_mod p ppc ltac:(lia)) as Hdm.
  pose proof (N.mod_lt p ppc ltac:(lia)) as Hlt.
  unfold get_cycle, is_first_of_cycle, is_last_of_cycle, is_multiple_of, saturating_sub;
    cbn [period thread].
  rewrite (proj2 (N.eqb_neq ppc 0)) by lia. solve_checked.
  assert (p / ppc = c ↔ c * ppc ≤ p ≤ c * ppc + (ppc - 1)) as Hc.
  { split.
    - intros <-. revert Hdm Hlt. generalize (p / ppc) (p mod ppc). intros; subst; lia.
    - intros. symmetry. apply (N.div_unique p ppc c (p - c * ppc)); lia. }
  split_and!.
  - transitivity (p / ppc = c); [naive_solver|]. rewrite Hc.
    rewrite !slot_le_iff; cbn. lia.
  - intros [=Hcy]. rewrite andb_true_iff, !N.eqb_eq. split.
    + intros [? ->]. f_equal. nia.
    + intros [= -> ->]. split; [|done]. rewrite Hcy in Hdm. nia.
  - intros [=Hcy]. transitivity (p mod ppc = ppc - 1 ∧ t = tc - 1).
    { rewrite <-!N.eqb_eq, <-andb_true_iff. split; [by intros [=]|by intros ->]. }
    split; [intros [? ->]; f_equal; nia|]. intros [= -> ->]. split; [|done].
    rewrite Hcy in Hdm. nia.
Qed.

Lemma cycle_boundaries_witness :
  get_cycle (MkSlot 767 31) 128 = Ok 5
  ∧ (is_last_of_cycle (MkSlot 767 31) 128 32 = Ok true ↔ MkSlot 767 31 = MkSlot 767 31).
Proof.
  split; [reflexivity|].
  apply (cycle_boundaries 32 128 5 (MkSlot 640 0) (MkSlot 767 31) (MkSlot 767 31));
    try reflexivity; vm_compute; intuition discriminate.
Defined.
