(* ===== verification/Times.v ===== *)
(** * Time and slots

    [massa-time/src/lib.rs]: the checked and saturating operations of
    [MassaTime], milliseconds since the epoch in a [u64].
    [massa-models/src/timeslots.rs]: the correspondence of slots and instants.
    Slot [(p, t)] starts at [genesis + p * t0 + t * (t0 / thread_count)]; the
    module warns that it assumes [thread_count >= 1], [t0 >= 1] and that
    [thread_count] divides [t0], which [clock_ok] states. *)

From S2P Require Import Prelude Slots.

Open Scope N_scope.

Notation MassaTime := N (only parsing).

Module Time.
Definition EPSILON : MassaTime := 1.
Definition max : MassaTime := u64_max.
Definition saturating_sub (a t : MassaTime) : MassaTime := Prelude.saturating_sub a t.
Definition saturating_add (a t : MassaTime) : MassaTime := Prelude.saturating_add u64_max a t.
Definition saturating_mul (a : MassaTime) (n : N) : MassaTime :=
  Prelude.saturating_mul u64_max a n.
Definition checked_sub (a t : MassaTime) : outcome TimeError MassaTime :=
  ok_or (CheckedOperationError "subtraction error") (Prelude.checked_sub a t).
Definition checked_add (a t : MassaTime) : outcome TimeError MassaTime :=
  ok_or (CheckedOperationError "addition error") (Prelude.checked_add u64_max a t).
Definition checked_div_time (a t : MassaTime) : outcome TimeError N :=
  ok_or (CheckedOperationError "division error") (Prelude.checked_div a t).
Definition checked_div_u64 (a : MassaTime) (n : N) : outcome TimeError MassaTime :=
  ok_or (CheckedOperationError "division error") (Prelude.checked_div a n).
Definition checked_mul (a : MassaTime) (n : N) : outcome TimeError MassaTime :=
  ok_or (CheckedOperationError "multiplication error") (Prelude.checked_mul u64_max a n).
Definition checked_rem_time (a t : MassaTime) : outcome TimeError MassaTime :=
  ok_or (CheckedOperationError "remainder error") (Prelude.checked_rem a t).
Definition checked_rem_u64 (a : MassaTime) (n : N) : outcome TimeError MassaTime :=
  ok_or (CheckedOperationError "remainder error") (Prelude.checked_rem a n).
Definition abs_diff (a t : MassaTime) : MassaTime := if a <=? t then t - a else a - t.
End Time.

(** [.map_err(|_| ModelsError::TimeOverflowError)?] *)
Definition or_time_overflow {A} : outcome TimeError A → outcome ModelsError A :=
  map_err (λ _, TimeOverflowError).
(** [?] on a [TimeError] in a function that returns [ModelsError] *)
Definition lift_time {A} : outcome TimeError A → outcome ModelsError A :=
  map_err ModelsTimeError.

Definition slot_count_in_range (a b : Slot) (thread_count : N) : outcome ModelsError N :=
  d ← ok_or TimeOverflowError (checked_sub (period b) (period a));
  d ← ok_or TimeOverflowError (checked_mul u64_max d thread_count);
  d ← ok_or TimeOverflowError (checked_add u64_max d (thread b));
  ok_or TimeOverflowError (checked_sub d (thread a)).

Section timeslots.
Context (thread_count : N) (t0 genesis_timestamp : MassaTime).

Definition get_block_slot_timestamp (slot : Slot) : outcome ModelsError MassaTime :=
  inter ← or_time_overflow (Time.checked_div_u64 t0 thread_count);
  base ← or_time_overflow (Time.checked_mul inter (thread slot));
  shift ← or_time_overflow (Time.checked_mul t0 (period slot));
  t ← or_time_overflow (Time.checked_add genesis_timestamp base);
  or_time_overflow (Time.checked_add t shift).

Definition get_latest_block_slot_at_timestamp (timestamp : MassaTime)
    : outcome ModelsError (option Slot) :=
  match Time.checked_sub timestamp genesis_timestamp with
  | Ok time_since_genesis =>
      r ← lift_time (Time.checked_rem_time time_since_genesis t0);
      inter ← lift_time (Time.checked_div_u64 t0 thread_count);
      th ← lift_time (Time.checked_div_time r inter);
      p ← lift_time (Time.checked_div_time time_since_genesis t0);
      Ok (Some (MkSlot p (as_u8 th)))
  | _ => Ok None
  end.

(** One end of a range: the body that [time_range_to_slot_range] repeats for
    its start and its end. *)
Definition time_to_slot_bound (t : MassaTime) : outcome ModelsError Slot :=
  inter_slot ← lift_time (Time.checked_div_u64 t0 thread_count);
  d ← lift_time (Time.checked_add (Time.saturating_sub t genesis_timestamp) inter_slot);
  slot_number ← lift_time
    (Time.checked_div_time (Time.saturating_sub d Time.EPSILON) inter_slot);
  p ← ok_or TimeOverflowError (checked_div slot_number thread_count);
  th ← ok_or TimeOverflowError (checked_rem slot_number thread_count);
  th ← ok_or ThreadOverflowError (if th <=? u8_max then Some th else None);
  Ok (MkSlot p th).

Definition time_range_to_slot_range (start_time end_time : option MassaTime)
    : outcome ModelsError (option Slot * option Slot) :=
  start_slot ← match start_time with
               | None => Ok None
               | Some t => s ← time_to_slot_bound t; Ok (Some s)
               end;
  end_slot ← match end_time with
             | None => Ok None
             | Some t => s ← time_to_slot_bound t; Ok (Some s)
             end;
  Ok (start_slot, end_slot).

Definition get_closest_slot_to_timestamp (timestamp : MassaTime)
    : outcome ModelsError Slot :=
  latest ← expect_ok "called Result::unwrap() on an Err value"
             (get_latest_block_slot_at_timestamp timestamp);
  match latest with
  | None => Ok (MkSlot 0 0)
  | Some latest_past_slot =>
      t_latest ← expect_ok "t_latest computation failed"
                   (get_block_slot_timestamp latest_past_slot);
      let delta_t := Time.saturating_sub timestamp t_latest in
      twice ← expect_ok "delta_t should be multiplicate by 2" (Time.checked_mul delta_t 2);
      inter ← expect_ok "thread_count should not be 0"
                (Time.checked_div_u64 t0 thread_count);
      if twice <=? inter then Ok latest_past_slot
      else Ok match get_next_slot latest_past_slot thread_count with
              | Ok s => s
              | _ => latest_past_slot
              end
  end.

(** The assumption the module states of its parameters. *)
Definition clock_ok : Prop :=
  threads_ok thread_count ∧ 0 < t0 ∧ t0 mod thread_count = 0
  ∧ t0 ≤ u64_max ∧ genesis_timestamp ≤ u64_max.
(** The time between two consecutive slots. *)
Definition inter_slot : N := t0 / thread_count.
(** The start of a slot, by its rank. *)
Definition slot_start (s : Slot) : N :=
  genesis_timestamp + slot_index thread_count s * inter_slot.
End timeslots.

Section timeslots_facts.
Context (tc : N) (t0 gt : MassaTime) (Hok : clock_ok tc t0 gt).
Implicit Types (s : Slot) (t : MassaTime).
Local Notation inter := (inter_slot tc t0).
Local Notation start := (slot_start tc t0 gt).

Lemma clock_inter : 0 < inter ∧ t0 = inter * tc.
Proof using Hok.
  destruct Hok as ([H0 H8] & H1 & H2 & H3 & H4). unfold inter_slot.
  pose proof (N.div_mod t0 tc ltac:(lia)) as Hdm. rewrite H2 in Hdm.
  revert Hdm. generalize (t0 / tc). intros. split; nia.
Qed.

Lemma slot_start_eq s : start s = gt + inter * thread s + t0 * period s.
Proof using Hok.
  destruct clock_inter as [_ Heq]. unfold slot_start, slot_index.
  revert Heq. generalize (inter_slot tc t0). intros ? ->. lia.
Qed.

Lemma get_block_slot_timestamp_eq s :
  start s ≤ u64_max → get_block_slot_timestamp tc t0 gt s = Ok (start s).
Proof using Hok.
  intros Hle. pose proof Hok as ([H0 H8] & _). rewrite slot_start_eq in *.
  unfold get_block_slot_timestamp, Time.checked_div_u64, Time.checked_mul, Time.checked_add.
  solve_checked. fold (inter_slot tc t0). solve_checked. done.
Qed.

Lemma get_block_slot_timestamp_inv s t :
  get_block_slot_timestamp tc t0 gt s = Ok t → t = start s ∧ start s ≤ u64_max.
Proof using Hok.
  pose proof Hok as ([H0 H8] & _). rewrite slot_start_eq.
  unfold get_block_slot_timestamp, or_time_overflow, Time.checked_div_u64,
    Time.checked_mul, Time.checked_add. intros. inv_ok. inv_checked.
  fold (inter_slot tc t0) in *. lia.
Qed.

(** The slot of rank [k]. *)
Lemma slot_of_rank k s :
  thread s < tc → slot_index tc s = k ↔ s = MkSlot (k / tc) (k mod tc).
Proof using Hok.
  pose proof Hok as ([H0 H8] & _). intros Hs. unfold slot_index. split.
  - intros <-. destruct s as [p th]; cbn in *.
    rewrite N.div_add_l, N.div_small, N.add_0_r by lia. f_equal.
    rewrite N.add_comm, N.Div0.mod_add, N.mod_small; lia.
  - intros ->; cbn. pose proof (N.div_mod k tc ltac:(lia)). lia.
Qed.

Lemma slot_index_of_rank k : slot_index tc (MkSlot (k / tc) (k mod tc)) = k.
Proof using Hok.
  pose proof Hok as ([H0 H8] & _). apply slot_of_rank; [|done]. apply N.mod_lt. lia.
Qed.

Lemma get_latest_block_slot_at_timestamp_eq t :
  get_latest_block_slot_at_timestamp tc t0 gt t =
    Ok (if t <? gt then None
        else Some (MkSlot ((t - gt) / inter / tc) ((t - gt) / inter mod tc))).
Proof using Hok.
  pose proof Hok as ([H0 H8] & Ht0 & _). destruct clock_inter as [Hi Heq].
  unfold get_latest_block_slot_at_timestamp, lift_time, Time.checked_sub,
    Time.checked_rem_time, Time.checked_div_time, Time.checked_div_u64.
  destruct (N.ltb_spec t gt) as [Hlt|Hge].
  { by rewrite (proj2 (checked_sub_None t gt)). }
  solve_checked. fold (inter_slot tc t0). solve_checked.
  set (d := t - gt). revert Heq Hi. generalize (inter_slot tc t0). intros i -> Hi.
  rewrite N.Div0.div_div.
  assert (d mod (i * tc) / i = d / i mod tc) as ->.
  { rewrite N.Div0.mod_mul_r, (N.mul_comm i).
    rewrite N.div_add by lia. rewrite N.div_small by (apply N.mod_lt; lia). lia. }
  unfold as_u8. pose proof (N.mod_lt (d / i) tc ltac:(lia)).
  by rewrite (N.mod_small _ 256) by (unfold u8_max in H8; lia).
Qed.

Lemma time_to_slot_bound_eq t :
  (t - gt) + inter ≤ u64_max →
  time_to_slot_bound tc t0 gt t =
    let k := (t - gt + inter - 1) / inter in Ok (MkSlot (k / tc) (k mod tc)).
Proof using Hok.
  pose proof Hok as ([H0 H8] & _). destruct clock_inter as [Hi Heq]. intros Hle.
  unfold time_to_slot_bound, lift_time, Time.checked_div_u64, Time.checked_add,
    Time.checked_div_time, Time.saturating_sub, saturating_sub, Time.EPSILON.
  solve_checked. fold (inter_slot tc t0). solve_checked.
  set (k := (t - gt + inter - 1) / inter).
  pose proof (N.mod_lt k tc ltac:(lia)). destruct (N.leb_spec (k mod tc) u8_max); [done|lia].
Qed.
End timeslots_facts.

(** ** Properties of the slot clock *)

Section clock_lemmas.
Context (tc : N) (t0 gt : MassaTime) (Hok : clock_ok tc t0 gt).
Implicit Types (s : Slot) (t : MassaTime).
Local Notation inter := (inter_slot tc t0).
Local Notation start := (slot_start tc t0 gt).

Lemma latest_slot_iff s t :
  thread s < tc →
  get_latest_block_slot_at_timestamp tc t0 gt t = Ok (Some s) ↔
  start s ≤ t < start s + inter.
Proof using Hok.
  intros Hs. rewrite (get_latest_block_slot_at_timestamp_eq tc t0 gt Hok).
  destruct (clock_inter tc t0 gt Hok) as [Hi _]. unfold slot_start.
  destruct (N.ltb_spec t gt) as [Hlt|Hge]; [split; [done|nia]|].
  transitivity ((t - gt) / inter = slot_index tc s).
  { rewrite (eq_comm _ (slot_index tc s)), (slot_of_rank tc t0 gt Hok) by done.
    split; [by intros [= <-]|by intros ->]. }
  pose proof (N.div_mod (t - gt) inter ltac:(lia)) as Hdm.
  pose proof (N.mod_lt (t - gt) inter ltac:(lia)) as Hlt.
  split.
  - intros <-. revert Hdm Hlt. generalize ((t - gt) / inter) ((t - gt) mod inter).
    intros. lia.
  - intros. symmetry. apply (N.div_unique _ _ _ (t - gt - slot_index tc s * inter)); lia.
Qed.

(** Rounding up: the ranks from [time_to_slot_bound t] on are those of the
    slots that start at [t] or later. *)
Lemma ceil_rank_le t k :
  (t - gt + inter - 1) / inter ≤ k ↔ t ≤ gt + k * inter.
Proof using Hok.
  destruct (clock_inter tc t0 gt Hok) as [Hi _].
  pose proof (N.div_mod (t - gt + inter - 1) inter ltac:(lia)) as Hdm.
  pose proof (N.mod_lt (t - gt + inter - 1) inter ltac:(lia)) as Hlt.
  revert Hdm Hlt.
  generalize ((t - gt + inter - 1) / inter) ((t - gt + inter - 1) mod inter).
  intros q r Hdm Hlt. split; intros Hle.
  - assert (q * inter ≤ k * inter) by nia. lia.
  - destruct (N.le_gt_cases q k) as [|Hk]; [done|].
    assert ((k + 1) * inter ≤ q * inter) by nia. lia.
Qed.

Lemma time_to_slot_bound_le s b t :
  thread s < tc → time_to_slot_bound tc t0 gt t = Ok b →
  slot_index tc b ≤ slot_index tc s ↔ t ≤ start s.
Proof using Hok.
  intros Hs Hb. pose proof Hok as ([H0 H8] & _).
  assert (t - gt + inter ≤ u64_max) as Hle.
  { unfold time_to_slot_bound, lift_time, Time.checked_div_u64, Time.checked_add,
      Time.saturating_sub, saturating_sub in Hb. inv_ok. inv_checked.
    by fold (inter_slot tc t0) in *. }
  rewrite (time_to_slot_bound_eq tc t0 gt Hok) in Hb by done. cbn in Hb. injection Hb as <-.
  rewrite (slot_index_of_rank tc t0 gt Hok). apply ceil_rank_le.
Qed.

Lemma time_to_slot_bound_thread b t :
  time_to_slot_bound tc t0 gt t = Ok b → thread b < tc.
Proof using Hok.
  pose proof Hok as ([H0 H8] & _). unfold time_to_slot_bound, lift_time. intros. inv_ok.
  match goal with H : (if ?c then _ else _) = Some _ |- _ => destruct c; simplify_eq end.
  inv_checked. cbn. apply N.mod_lt. lia.
Qed.

(** The closest slot is always computed, when twice [t0] is a time. *)
Lemma closest_slot_total t :
  t ≤ u64_max → 2 * t0 ≤ u64_max → ∃ s, get_closest_slot_to_timestamp tc t0 gt t = Ok s.
Proof using Hok.
  intros Ht H2. pose proof Hok as ([H0 H8] & _). destruct (clock_inter tc t0 gt Hok) as [Hi Heq].
  unfold get_closest_slot_to_timestamp. rewrite (get_latest_block_slot_at_timestamp_eq tc t0 gt Hok).
  destruct (N.ltb_spec t gt) as [|Hge]; cbn [expect_ok mbind outcome_bind]; [by eexists|].
  set (s := MkSlot _ _). assert (thread s < tc) as Hs by (apply N.mod_lt; lia).
  destruct (proj1 (latest_slot_iff s t Hs)) as [Hlo Hhi].
  { rewrite (get_latest_block_slot_at_timestamp_eq tc t0 gt Hok). by destruct (N.ltb_spec t gt); [lia|]. }
  rewrite (get_block_slot_timestamp_eq tc t0 gt Hok) by lia. cbn [expect_ok mbind outcome_bind].
  assert (inter ≤ t0) as Hit by nia.
  unfold Time.checked_mul, Time.checked_div_u64, Time.saturating_sub, saturating_sub. solve_checked.
  cbn [expect_ok mbind outcome_bind]. case_match; by eexists.
Qed.
End clock_lemmas.

(** Slots and instants correspond: before the genesis timestamp there is no
    latest slot, and from then on the latest slot at [t] is [s] exactly when [t]
    lies between the timestamp of [s] (included) and one inter-slot time later. *)
Theorem latest_slot_at_timestamp_correct (tc : N) (t0 gt : MassaTime) (s : Slot) (t ts : MassaTime) :
  clock_ok tc t0 gt → thread s < tc →
  get_block_slot_timestamp tc t0 gt s = Ok ts →
  (get_latest_block_slot_at_timestamp tc t0 gt t = Ok None ↔ t < gt)
  ∧ (get_latest_block_slot_at_timestamp tc t0 gt t = Ok (Some s) ↔
     ts ≤ t < ts + inter_slot tc t0).
Proof.
  intros Hok Hs Hts. split.
  - rewrite (get_latest_block_slot_at_timestamp_eq tc t0 gt Hok).
    destruct (N.ltb_spec t gt); split; done || lia.
  - destruct (get_block_slot_timestamp_inv tc t0 gt Hok s ts Hts) as [-> _].
    by apply latest_slot_iff.
Qed.

Lemma latest_slot_at_timestamp_correct_witness :
  get_block_slot_timestamp 32 16000 1000 (MkSlot 2 3) = Ok 34500
  ∧ get_latest_block_slot_at_timestamp 32 16000 1000 34999 = Ok (Some (MkSlot 2 3)).
Proof.
  split; [reflexivity|].
  apply (latest_slot_at_timestamp_correct 32 16000 1000 (MkSlot 2 3) 34999 34500);
    [vm_compute; intuition discriminate..|reflexivity|vm_compute; intuition discriminate].
Defined.

(** A time range and the slot range it is turned into select the same slots:
    a slot lies in the range of [time_range_to_slot_range (Some a) (Some b)]
    (start included, end excluded) exactly when it starts in [a, b). *)
Theorem time_range_to_slot_range_correct
    (tc : N) (t0 gt : MassaTime) (a b ts : MassaTime) (sa sb s : Slot) :
  clock_ok tc t0 gt → thread s < tc →
  get_block_slot_timestamp tc t0 gt s = Ok ts →
  time_range_to_slot_range tc t0 gt (Some a) (Some b) = Ok (Some sa, Some sb) →
  slot_le sa s = true ∧ slot_lt s sb = true ↔ a ≤ ts < b.
Proof.
  intros Hok Hs Hts Hr.
  destruct (get_block_slot_timestamp_inv tc t0 gt Hok s ts Hts) as [-> _].
  unfold time_range_to_slot_range in Hr. inv_ok. simplify_eq.
  match goal with
  | Ha : time_to_slot_bound _ _ _ a = Ok ?x, Hb : time_to_slot_bound _ _ _ b = Ok ?y |- _ =>
      pose proof (time_to_slot_bound_thread tc t0 gt Hok _ _ Ha);
      pose proof (time_to_slot_bound_thread tc t0 gt Hok _ _ Hb);
      apply (time_to_slot_bound_le tc t0 gt Hok s) in Ha; [|done];
      apply (time_to_slot_bound_le tc t0 gt Hok s) in Hb; [|done]
  end.
  rewrite (slot_lt_index tc) by done.
  assert (∀ x y, slot_le x y = negb (slot_lt y x)) as Hneg.
  { intros x y. apply eq_true_iff_eq.
    rewrite negb_true_iff, <-not_true_iff_false, slot_le_iff, slot_lt_iff. lia. }
  rewrite Hneg, negb_true_iff, (slot_lt_false_index tc) by done. lia.
Qed.

Lemma time_range_to_slot_range_correct_witness :
  slot_le (MkSlot 0 2) (MkSlot 1 1) = true ∧ slot_lt (MkSlot 1 1) (MkSlot 1 2) = true.
Proof.
  apply (time_range_to_slot_range_correct 3 30 100 115 145 140 (MkSlot 0 2) (MkSlot 1 2)
           (MkSlot 1 1));
    [vm_compute; intuition discriminate..|reflexivity|reflexivity
    |vm_compute; intuition discriminate].
Defined.
