(* ===== verification/Cliques.v ===== *)
(** * Maximal cliques of compatible blocks

    [massa-consensus-worker/src/state/clique_computation.rs]: the iterative
    Bron-Kerbosch enumeration with pivots on the incompatibility graph [gi_head].
    A clique is a set of pairwise compatible vertices, that is an independent
    set of [gi_head].  The stack is a list with its top first; the loop has fuel,
    and [compute_max_cliques] gives it [2 ^ |gi_head|] rounds, which
    [compute_max_cliques_correct] shows to be enough. *)

From S2P Require Import Prelude.

Open Scope N_scope.

Section cliques.
Context {K : Type} `{SetIter K} {E : Type}.
Implicit Types (gi : gmap K (gset K)) (r p x M : gset K) (u v : K).

(** A stack entry [(r, p, x)]. *)
Record frame : Type := Frame { fr_r : gset K; fr_p : gset K; fr_x : gset K }.

(** [&gi_head[u] | {u}]; indexing a missing key panics. *)
Definition closed_neighbours gi u : outcome E (gset K) :=
  n ← expect "key not found in gi_head" (gi !! u);
  Ok (n ∪ {[u]}).

(** [iter.max_by_key(f)]: the last element of greatest key. *)
Definition keep_max (best : option (K * nat)) u (k : nat) : option (K * nat) :=
  match best with
  | Some (_, kb) => if (k <? kb)%nat then best else Some (u, k)
  | None => Some (u, k)
  end.
Fixpoint max_by_key (f : K → outcome E nat) (l : list K) (best : option (K * nat))
    : outcome E (option K) :=
  match l with
  | [] => Ok (fst <$> best)
  | u :: l =>
      k ← f u;
      max_by_key f l (keep_max best u k)
  end.

(** The pivot of the GPX scheme. *)
Definition pivot gi p x : outcome E K :=
  b ← max_by_key (λ u, n ← closed_neighbours gi u; Ok (size (p ∖ n)))
        (set_iter (p ∪ x)) None;
  expect "called Option::unwrap() on a None value" b.

(** The [for u_i in u_set] loop: pushes one frame per vertex. *)
Fixpoint push_children gi r p x (us : list K) (stack : list frame)
    : outcome E (list frame) :=
  match us with
  | [] => Ok stack
  | u_i :: us =>
      let p := p ∖ {[u_i]} in
      comp_n_u_i ← closed_neighbours gi u_i;
      push_children gi r p (x ∪ {[u_i]}) us
        (Frame (r ∪ {[u_i]}) (p ∖ comp_n_u_i) (x ∖ comp_n_u_i) :: stack)
  end.

(** The [while let Some(..) = stack.pop()] loop. *)
Fixpoint cliques_loop (fuel : nat) gi (stack : list frame) (max_cliques : list (gset K))
    : outcome E (list (gset K)) :=
  match stack with
  | [] => Ok max_cliques
  | Frame r p x :: stack =>
      match fuel with
      | O => OutOfFuel
      | S fuel =>
          if decide (p = ∅ ∧ x = ∅) then cliques_loop fuel gi stack (max_cliques ++ [r])
          else
            u_p ← pivot gi p x;
            n ← closed_neighbours gi u_p;
            stack ← push_children gi r p x (set_iter (p ∩ n)) stack;
            cliques_loop fuel gi stack max_cliques
      end
  end.

Definition compute_max_cliques gi : outcome E (list (gset K)) :=
  cliques_loop (2 ^ size gi)%nat gi [Frame ∅ (dom gi) ∅] [].

(** ** Specification *)

(** [u] and [v] are recorded as incompatible. *)
Definition incompatible gi u v : Prop := v ∈ gi !!! u.
(** The graph is undirected on its vertices. *)
Definition graph_sym gi : Prop :=
  ∀ u v, u ∈ dom gi → v ∈ dom gi → incompatible gi u v → incompatible gi v u.
(** [v] is compatible with every vertex of [M]. *)
Definition compat_with gi v M : Prop := set_Forall (λ c, v ≠ c → ¬ incompatible gi v c) M.
(** Pairwise compatible vertices of the graph. *)
Definition is_clique gi M : Prop := M ⊆ dom gi ∧ set_Forall (λ v, compat_with gi v M) M.
Definition is_max_clique gi M : Prop :=
  is_clique gi M ∧ set_Forall (λ v, v ∉ M → ¬ compat_with gi v M) (dom gi).

#[global] Instance incompatible_dec gi u v : Decision (incompatible gi u v).
Proof. unfold incompatible. apply _. Defined.
#[global] Instance compat_with_dec gi v M : Decision (compat_with gi v M).
Proof. unfold compat_with. apply _. Defined.
#[global] Instance is_clique_dec gi M : Decision (is_clique gi M).
Proof. unfold is_clique. apply _. Defined.
#[global] Instance is_max_clique_dec gi M : Decision (is_max_clique gi M).
Proof. unfold is_max_clique. apply _. Defined.

(** ** The invariant of the search *)

Record frame_ok gi (f : frame) : Prop := {
  fo_dom : fr_r f ∪ fr_p f ∪ fr_x f ⊆ dom gi;
  fo_rp : fr_r f ## fr_p f;
  fo_rx : fr_r f ## fr_x f;
  fo_px : fr_p f ## fr_x f;
  fo_clique : is_clique gi (fr_r f);
  fo_ext : ∀ v, v ∈ dom gi → v ∉ fr_r f →
    v ∈ fr_p f ∪ fr_x f ↔ compat_with gi v (fr_r f)
}.

(** The frame whose subtree has to report [M]. *)
Definition resp M (f : frame) : Prop := fr_r f ⊆ M ∧ M ⊆ fr_r f ∪ fr_p f.
#[local] Instance resp_dec M f : Decision (resp M f).
Proof. unfold resp. apply _. Defined.
Definition count_resp M (l : list frame) : nat := length (filter (resp M) l).
Definition count_set M (l : list (gset K)) : nat := length (filter (λ c, c = M) l).
Arguments count_resp : simpl never.
Arguments count_set : simpl never.

(** Each round pops a frame of weight [2 ^ |p|] and pushes frames of a smaller
    total weight. *)
Definition weight (l : list frame) : nat := sum_list_with (λ f, 2 ^ size (fr_p f))%nat l.

Lemma closed_neighbours_ok gi u :
  u ∈ dom gi → closed_neighbours gi u = Ok (gi !!! u ∪ {[u]}).
Proof.
  intros [n Hn]%elem_of_dom. unfold closed_neighbours. by rewrite Hn, lookup_total_alt, Hn.
Qed.

Lemma compat_with_union gi v M1 M2 :
  compat_with gi v (M1 ∪ M2) ↔ compat_with gi v M1 ∧ compat_with gi v M2.
Proof. unfold compat_with, set_Forall. set_solver. Qed.

Lemma compat_with_mono gi v M1 M2 :
  M1 ⊆ M2 → compat_with gi v M2 → compat_with gi v M1.
Proof. intros Hsub Hc c Hin. by apply Hc, Hsub. Qed.

Lemma frame_ok_shift gi r p x u :
  u ∈ p → frame_ok gi (Frame r p x) → frame_ok gi (Frame r (p ∖ {[u]}) (x ∪ {[u]})).
Proof.
  intros Hu [Hd Hrp Hrx Hpx Hc He]; cbn in *.
  split; cbn; [set_basic..|done|].
  intros v Hv Hr. rewrite <-He by done. destruct (decide (v = u)); set_basic.
Qed.

Lemma frame_ok_child gi r p x u :
  graph_sym gi → u ∈ p → frame_ok gi (Frame r p x) →
  frame_ok gi (Frame (r ∪ {[u]}) (p ∖ {[u]} ∖ (gi !!! u ∪ {[u]})) (x ∖ (gi !!! u ∪ {[u]}))).
Proof.
  intros Hsym Hu [Hd Hrp Hrx Hpx Hc He]; cbn in *.
  assert (u ∈ dom gi) as Hud by set_basic. assert (u ∉ r) as Hur by set_basic.
  assert (compat_with gi u r) as Hcu by (apply He; set_basic).
  split; cbn; [set_basic..| |].
  - destruct Hc as [Hcd Hcc]. split; [set_basic|].
    intros v [Hv| ->%elem_of_singleton]%elem_of_union; rewrite compat_with_union.
    + split; [by apply Hcc|]. intros c ->%elem_of_singleton _ Hi.
      apply (Hcu v Hv); [by intros ->|]. apply Hsym; [by apply Hcd|done|done].
    + split; [done|]. by intros c ->%elem_of_singleton.
  - intros v Hv Hvr.
    assert (v ≠ u) as Hvu by set_basic. assert (v ∉ r) as Hvr' by set_basic.
    rewrite compat_with_union, <-He by done.
    assert (compat_with gi v {[u]} ↔ v ∉ gi !!! u) as ->; [|set_basic].
    split.
    + intros Hcv Hi. apply (Hcv u); [by apply elem_of_singleton|done|]. by apply Hsym.
    + intros Hni c ->%elem_of_singleton _ Hi. apply Hni. by apply Hsym.
Qed.

Lemma resp_child gi M r p x u :
  is_max_clique gi M → u ∈ p → frame_ok gi (Frame r p x) →
  resp M (Frame (r ∪ {[u]}) (p ∖ {[u]} ∖ (gi !!! u ∪ {[u]})) (x ∖ (gi !!! u ∪ {[u]})))
  ↔ resp M (Frame r p x) ∧ u ∈ M.
Proof.
  intros [[Hd Hc] _] Hu [Hd' Hrp _ _ _ _]; cbn in *. unfold resp; cbn. split.
  - set_basic.
  - intros [[Hr HM] HuM]. split; [set_basic|]. intros c Hcm.
    destruct (decide (c = u)) as [->|Hne]; [set_basic|].
    assert (c ∉ gi !!! u) by (by apply (Hc u HuM c)). set_basic.
Qed.

Lemma resp_shift gi M r p x u :
  u ∈ p → frame_ok gi (Frame r p x) →
  resp M (Frame r (p ∖ {[u]}) (x ∪ {[u]})) ↔ resp M (Frame r p x) ∧ u ∉ M.
Proof.
  intros Hu [Hd' Hrp _ _ _ _]; cbn in *. unfold resp; cbn. split.
  - set_basic.
  - intros [[Hr HM] Hn]. split; [done|]. intros c Hc.
    destruct (decide (c = u)) as [->|]; [done|set_basic].
Qed.

Lemma count_resp_cons M f l :
  count_resp M (f :: l) = ((if decide (resp M f) then 1 else 0) + count_resp M l)%nat.
Proof. unfold count_resp. rewrite filter_cons. by case_decide. Qed.
Lemma count_resp_app M l1 l2 :
  count_resp M (l1 ++ l2) = (count_resp M l1 + count_resp M l2)%nat.
Proof. unfold count_resp. by rewrite filter_app, length_app. Qed.
Lemma weight_cons f l : weight (f :: l) = (2 ^ size (fr_p f) + weight l)%nat.
Proof. done. Qed.
Lemma weight_app l1 l2 : weight (l1 ++ l2) = (weight l1 + weight l2)%nat.
Proof. apply sum_list_with_app. Qed.

(** What the inner loop pushes: well-formed frames, of less weight than the
    frame they replace, exactly one of them responsible for each maximal clique
    below that frame that meets [us]. *)
Lemma push_children_spec gi us : ∀ r p x stack,
  graph_sym gi → NoDup us → (∀ u, u ∈ us → u ∈ p) → frame_ok gi (Frame r p x) →
  ∃ new, push_children gi r p x us stack = Ok (new ++ stack)
    ∧ Forall (frame_ok gi) new
    ∧ (weight new + 1 ≤ 2 ^ size p)%nat
    ∧ ∀ M, is_max_clique gi M →
        count_resp M new =
          (if decide (resp M (Frame r p x) ∧ Exists (λ u, u ∈ M) us) then 1 else 0)%nat.
Proof.
  induction us as [|u us IH]; intros r p x stack Hsym Hnd Hin Hok; cbn [push_children].
  { exists []. split_and!; [done|constructor| |].
    - cbn. pose proof (Nat.pow_nonzero 2 (size p)). lia.
    - intros M HM. rewrite decide_False; [done|]. intros [_ Hex]. by inversion Hex. }
  apply NoDup_cons in Hnd as [Hu Hnd].
  assert (u ∈ p) as Hup by (apply Hin; by left).
  rewrite closed_neighbours_ok by (destruct Hok as [Hd _ _ _ _ _]; set_basic). cbn.
  set (child := Frame (r ∪ {[u]}) (p ∖ {[u]} ∖ (gi !!! u ∪ {[u]})) (x ∖ (gi !!! u ∪ {[u]}))).
  destruct (IH r (p ∖ {[u]}) (x ∪ {[u]}) (child :: stack)) as (new & -> & Hnew & Hw & Hc);
    [done|done| |by apply frame_ok_shift|].
  { intros v Hv. apply elem_of_difference. split; [apply Hin; by right|].
    by intros ->%elem_of_singleton. }
  assert (size p = S (size (p ∖ {[u]}))) as Hsz.
  { rewrite size_difference, size_singleton by set_basic.
    assert (size p ≠ 0)%nat; [|lia]. intros ->%size_empty_iff%leibniz_equiv. set_basic. }
  exists (new ++ [child]). split_and!.
  - by rewrite <-app_assoc.
  - apply Forall_app. split; [done|]. apply Forall_singleton. by apply frame_ok_child.
  - rewrite weight_app. unfold weight at 2. cbn [sum_list_with fr_p child].
    rewrite Hsz. cbn [Nat.pow].
    assert (2 ^ size (p ∖ {[u]} ∖ (gi !!! u ∪ {[u]})) ≤ 2 ^ size (p ∖ {[u]}))%nat; [|lia].
    apply Nat.pow_le_mono_r; [lia|]. apply subseteq_size. set_basic.
  - intros M HM. rewrite count_resp_app, count_resp_cons, Hc by done.
    change (count_resp M []) with 0%nat. subst child.
    pose proof (resp_child gi M r p x u HM Hup Hok) as Hrc.
    pose proof (resp_shift gi M r p x u Hup Hok) as Hrs.
    pose proof (Exists_cons (λ u, u ∈ M) u us) as Hex.
    destruct (decide (u ∈ M)); repeat case_decide; done || tauto.
Qed.

Lemma max_by_key_spec (f : K → outcome E nat) l best :
  (∀ u, u ∈ l → ∃ n, f u = Ok n) → l ≠ [] ∨ is_Some best →
  ∃ u, max_by_key f l best = Ok (Some u) ∧ (u ∈ l ∨ fst <$> best = Some u).
Proof.
  revert best; induction l as [|v l IH]; intros best Hf Hne; cbn.
  { destruct Hne as [?|[[b k] ->]]; [done|]. exists b. auto. }
  destruct (Hf v) as [k ->]; [by left|]. cbn.
  destruct (IH (keep_max best v k)) as (u & -> & Hu); unfold keep_max in *.
  - intros u Hu. apply Hf. by right.
  - right. destruct best as [[b kb]|]; [|eauto]. destruct (k <? kb)%nat; eauto.
  - exists u. split; [done|]. destruct Hu as [Hu|Hu]; [left; by right|].
    destruct best as [[b kb]|]; [destruct (k <? kb)%nat|]; cbn in *; simplify_eq;
      auto using list_elem_of_here.
Qed.

Lemma pivot_spec gi p x :
  p ∪ x ⊆ dom gi → p ∪ x ≠ ∅ → ∃ u, pivot gi p x = Ok u ∧ u ∈ p ∪ x.
Proof.
  intros Hd Hne. unfold pivot.
  edestruct (max_by_key_spec
    (λ u, n ← closed_neighbours gi u; Ok (size (p ∖ n))) (set_iter (p ∪ x)) None)
    as (u & -> & Hu).
  - intros u Hu%elem_of_set_iter. rewrite closed_neighbours_ok by set_basic. cbn. eauto.
  - left. intros Hnil. apply Hne. apply leibniz_equiv, size_empty_iff.
    by rewrite <-length_set_iter, Hnil.
  - exists u. split; [done|]. destruct Hu as [Hu|Hu]; [|done]. by apply elem_of_set_iter.
Qed.

(** A maximal clique below a frame meets the pivot's closed neighbourhood. *)
Lemma pivot_meets gi M r p x u :
  is_max_clique gi M → frame_ok gi (Frame r p x) → resp M (Frame r p x) → u ∈ p ∪ x →
  ∃ v, v ∈ p ∩ (gi !!! u ∪ {[u]}) ∧ v ∈ M.
Proof.
  intros [[Hd Hc] Hmax] [Hd' Hrp Hrx Hpx _ He] [Hr HM] Hu; cbn in *.
  destruct (set_choose_or_empty (M ∩ (p ∩ (gi !!! u ∪ {[u]})))) as [[v Hv]|Hemp];
    [exists v; set_basic|exfalso].
  assert (u ∉ M) as HuM by set_basic.
  apply (Hmax u); [set_basic|done|]. intros c Hcm Hne Hi. unfold incompatible in Hi.
  destruct (decide (c ∈ r)) as [Hcr|Hcr]; [|set_basic].
  assert (compat_with gi u r) as Hcu by (apply He; set_basic).
  by apply (Hcu c Hcr).
Qed.

Lemma leaf_max_clique gi r :
  frame_ok gi (Frame r ∅ ∅) → is_max_clique gi r.
Proof.
  intros [_ _ _ _ Hc He]; cbn in *. split; [done|]. intros v Hv Hr Hcv.
  apply (He v Hv Hr) in Hcv. set_basic.
Qed.

Lemma cliques_loop_spec gi : graph_sym gi → ∀ fuel stack acc,
  Forall (frame_ok gi) stack → (weight stack ≤ fuel)%nat →
  ∃ l, cliques_loop fuel gi stack acc = Ok (acc ++ l)
    ∧ Forall (is_max_clique gi) l
    ∧ ∀ M, is_max_clique gi M → count_set M l = count_resp M stack.
Proof.
  intros Hsym. induction fuel as [|fuel IH]; intros stack acc Hst Hw.
  { destruct stack as [|[r p x] stack]; cbn [cliques_loop].
    - exists []. by rewrite app_nil_r.
    - rewrite weight_cons in Hw; cbn in Hw. pose proof (Nat.pow_nonzero 2 (size p)). lia. }
  destruct stack as [|[r p x] stack]; cbn [cliques_loop].
  { exists []. by rewrite app_nil_r. }
  apply Forall_cons in Hst as [Hf Hst]. rewrite weight_cons in Hw; cbn [fr_p] in Hw.
  pose proof (Nat.pow_nonzero 2 (size p)) as Hpos. case_decide as Hleaf.
  - destruct Hleaf as [-> ->]. pose proof (leaf_max_clique gi r Hf) as Hr.
    destruct (IH stack (acc ++ [r]) Hst) as (l & -> & Hl & Hc); [lia|].
    exists (r :: l). rewrite <-app_assoc. split_and!; [done|by constructor|].
    intros M HM. unfold count_set. rewrite filter_cons, count_resp_cons, <-Hc by done.
    assert (resp M (Frame r ∅ ∅) ↔ r = M) as Hiff.
    { unfold resp; cbn. split; [set_basic|intros ->; set_basic]. }
    unfold count_set. repeat case_decide; cbn; tauto || done.
  - destruct (pivot_spec gi p x) as (u & -> & Hu); cbn.
    { destruct Hf as [Hd _ _ _ _ _]; set_basic. }
    { intros Hemp. apply Hleaf. split; set_basic. }
    rewrite closed_neighbours_ok by (destruct Hf as [Hd _ _ _ _ _]; set_basic). cbn.
    destruct (push_children_spec gi (set_iter (p ∩ (gi !!! u ∪ {[u]}))) r p x stack)
      as (new & -> & Hnew & Hwn & Hcn); [done|apply NoDup_set_iter| |done|].
    { intros v Hv%elem_of_set_iter. set_basic. }
    cbn. destruct (IH (new ++ stack) acc) as (l & -> & Hl & Hc).
    { by apply Forall_app. }
    { rewrite weight_app. lia. }
    exists l. split_and!; [done|done|]. intros M HM.
    rewrite Hc, count_resp_app, count_resp_cons, Hcn by done. f_equal.
    assert (resp M (Frame r p x) → Exists (λ u, u ∈ M) (set_iter (p ∩ (gi !!! u ∪ {[u]}))));
      [|repeat case_decide; done || tauto].
    intros Hr. destruct (pivot_meets gi M r p x u HM Hf Hr Hu) as (v & Hv & HvM).
    apply Exists_exists. exists v. by rewrite elem_of_set_iter.
Qed.
End cliques.
Arguments frame K {_ _}.

Lemma count_set_NoDup {K} `{Countable K} (l : list (gset K)) :
  (∀ M, M ∈ l → count_set M l = 1%nat) → NoDup l.
Proof.
  induction l as [|x l IH]; intros Hc; [constructor|].
  assert (x ∉ l) as Hx.
  { intros Hin. specialize (Hc x ltac:(by left)). unfold count_set in Hc.
    rewrite filter_cons_True in Hc by done. cbn in Hc.
    assert (x ∈ filter (λ c, c = x) l) as Hf by (by apply list_elem_of_filter).
    destruct (filter (λ c, c = x) l); [set_basic|done]. }
  constructor; [done|]. apply IH. intros M HM. specialize (Hc M ltac:(by right)).
  unfold count_set in *. rewrite filter_cons_False in Hc; [done|]. by intros ->.
Qed.

Lemma compute_max_cliques_spec {K E} `{SetIter K} (gi : gmap K (gset K)) :
  graph_sym gi →
  ∃ l, compute_max_cliques gi = @Ok E _ l ∧ NoDup l
       ∧ ∀ M, M ∈ l ↔ is_max_clique gi M.
Proof.
  intros Hsym.
  destruct (cliques_loop_spec (E := E) gi Hsym (2 ^ size gi)%nat [Frame ∅ (dom gi) ∅] [])
    as (l & Hl & Hmax & Hc).
  { apply Forall_singleton. split; cbn; [set_basic..| |].
    - split; [set_basic|]. by intros v Hv%not_elem_of_empty.
    - intros v Hv _. split; [|set_basic]. by intros _ c Hc%not_elem_of_empty. }
  { unfold weight; cbn. rewrite size_dom. lia. }
  assert (∀ M, is_max_clique gi M → count_set M l = 1%nat) as Hone.
  { intros M HM. rewrite Hc, count_resp_cons by done. rewrite decide_True; [done|].
    destruct HM as [[Hd _] _]. split; cbn; set_basic. }
  rewrite Forall_forall in Hmax. exists l. split_and!; [done| |].
  - apply count_set_NoDup. intros M HM. by apply Hone, Hmax.
  - intros M. split; [apply Hmax|]. intros HM%Hone. unfold count_set in HM.
    destruct (filter (λ c, c = M) l) as [|c l'] eqn:Hf; [done|].
    assert (c ∈ filter (λ c, c = M) l) as Hin by (rewrite Hf; by left).
    by apply list_elem_of_filter in Hin as [-> ?].
Qed.

(** C37. [compute_max_cliques] terminates without panicking on every symmetric
    incompatibility graph and returns each maximal set of pairwise compatible
    blocks exactly once, and nothing else, whatever the iteration order. *)
Theorem compute_max_cliques_correct {K E} `{SetIter K} (gi : gmap K (gset K)) :
  graph_sym gi →
  ∃ l, compute_max_cliques gi = @Ok E _ l ∧ NoDup l
       ∧ ∀ M, M ∈ l ↔ is_max_clique gi M.
Proof. apply compute_max_cliques_spec. Qed.

Lemma compute_max_cliques_correct_witness :
  ∃ l, @compute_max_cliques nat _ _ elements_iter unit
         {[1%nat := {[2%nat]}; 2%nat := {[1%nat]}; 3%nat := ∅]} = Ok l
       ∧ NoDup l
       ∧ ∀ M, M ∈ l ↔ is_max_clique {[1%nat := {[2%nat]}; 2%nat := {[1%nat]}; 3%nat := ∅]} M.
Proof.
  apply (@compute_max_cliques_correct nat unit _ _ elements_iter).
  assert (∀ gi : gmap nat (gset nat), graph_sym gi ↔
    set_Forall (λ u, set_Forall (λ v, v ∈ gi !!! u → u ∈ gi !!! v) (dom gi)) (dom gi)) as Hdec
    by (intros; unfold graph_sym, incompatible, set_Forall; naive_solver).
  apply Hdec. apply (bool_decide_unpack _). vm_compute. exact I.
Defined.

(** ** Editing the incompatibility graph

    [graph_add] and [graph_remove] state what the edits of [gi_head] made when a
    block enters or leaves the graph come to. *)

Section graph_edits.
Context {K : Type} `{Countable K}.
Implicit Types (gi : gmap K (gset K)) (inc C M : gset K) (b u v : K).

Definition graph_add gi b inc : gmap K (gset K) :=
  <[b := inc]> (map_imap (λ u n, Some (if decide (u ∈ inc) then n ∪ {[b]} else n)) gi).
Definition graph_remove gi b : gmap K (gset K) := (λ n, n ∖ {[b]}) <$> delete b gi.

(** An undirected graph without loops whose edges stay inside its vertices. *)
Record graph_ok gi : Prop := {
  go_sym : graph_sym gi;
  go_irrefl : ∀ u, u ∉ gi !!! u;
  go_closed : ∀ u, gi !!! u ⊆ dom gi
}.

Lemma incompatible_dom gi u v : incompatible gi u v → u ∈ dom gi.
Proof.
  unfold incompatible. rewrite lookup_total_alt, elem_of_dom.
  destruct (gi !! u); [eauto|set_solver].
Qed.
Lemma graph_ok_sym gi u v : graph_ok gi → incompatible gi u v ↔ incompatible gi v u.
Proof.
  intros [Hs _ Hc].
  assert (∀ u v, incompatible gi u v → incompatible gi v u); [|naive_solver].
  intros a c Hi. apply Hs; [by eapply incompatible_dom|by eapply Hc|done].
Qed.

Lemma dom_graph_add gi b inc : dom (graph_add gi b inc) = {[b]} ∪ dom gi.
Proof.
  unfold graph_add. rewrite dom_insert_L. f_equal. apply set_eq. intros u.
  rewrite !elem_of_dom, map_lookup_imap. by destruct (gi !! u).
Qed.
Lemma graph_add_incompatible gi b inc u v :
  b ∉ dom gi → inc ⊆ dom gi → graph_ok gi →
  incompatible (graph_add gi b inc) u v ↔
  if decide (u = b) then v ∈ inc
  else if decide (v = b) then u ∈ inc else incompatible gi u v.
Proof.
  intros Hb Hinc [_ _ Hc]. unfold incompatible, graph_add. rewrite lookup_total_alt.
  case_decide as Hub.
  { subst u. by rewrite lookup_insert_eq. }
  rewrite lookup_insert_ne, map_lookup_imap by done.
  assert (b ∉ gi !!! u) as Hbu by (intros Hin; apply Hb; by eapply Hc).
  rewrite lookup_total_alt in *. destruct (gi !! u) as [n|] eqn:Hu; cbn in *.
  - repeat case_decide; set_basic.
  - assert (u ∉ inc) by (intros Hin%Hinc%elem_of_dom; rewrite Hu in Hin; by destruct Hin).
    case_decide; set_basic.
Qed.

Lemma dom_graph_remove gi b : dom (graph_remove gi b) = dom gi ∖ {[b]}.
Proof. unfold graph_remove. by rewrite dom_fmap_L, dom_delete_L. Qed.
Lemma graph_remove_incompatible gi b u v :
  graph_ok gi →
  incompatible (graph_remove gi b) u v ↔ u ≠ b ∧ v ≠ b ∧ incompatible gi u v.
Proof.
  intros Hok. unfold incompatible, graph_remove.
  rewrite !lookup_total_alt, lookup_fmap, lookup_delete.
  case_decide as Hub; [subst; set_basic|].
  destruct (gi !! u); cbn; set_basic.
Qed.

Lemma graph_ok_empty : graph_ok ∅.
Proof. split; [intros u v Hu; set_solver| |]; intros u; rewrite lookup_total_empty; set_solver. Qed.

Lemma graph_ok_add gi b inc :
  b ∉ dom gi → inc ⊆ dom gi → graph_ok gi → graph_ok (graph_add gi b inc).
Proof.
  intros Hb Hinc Hok. pose proof (graph_add_incompatible gi b inc) as Hi.
  unfold incompatible in Hi. split.
  - intros u v _ _. unfold incompatible. rewrite !Hi by done.
    pose proof (graph_ok_sym gi u v Hok) as Hsym.
    repeat case_decide; subst; unfold incompatible in *; tauto.
  - intros u. rewrite Hi by done. destruct Hok as [_ Hir _].
    repeat case_decide; subst; unfold incompatible; [set_basic|apply Hir].
  - intros u v. rewrite Hi, dom_graph_add by done. destruct Hok as [_ _ Hc].
    specialize (Hc u). repeat case_decide; subst; unfold incompatible; set_basic.
Qed.

Lemma graph_ok_remove gi b : graph_ok gi → graph_ok (graph_remove gi b).
Proof.
  intros Hok. pose proof (graph_remove_incompatible gi b) as Hi. unfold incompatible in Hi.
  split.
  - intros u v _ _. unfold incompatible. rewrite !Hi by done.
    pose proof (graph_ok_sym gi u v Hok) as Hsym. unfold incompatible in *. tauto.
  - intros u. rewrite Hi by done. destruct Hok as [_ Hir _]. naive_solver.
  - intros u v. rewrite Hi, dom_graph_remove by done. destruct Hok as [_ _ Hc].
    specialize (Hc u). set_basic.
Qed.

(** ** Cliques under graph edits *)

(** What the clique optimisation routine does to a clique. *)
Definition grow b inc C : gset K := if decide (inc ## C) then C ∪ {[b]} else C.

Lemma grow_inj b inc C1 C2 :
  b ∉ C1 → b ∉ C2 → grow b inc C1 ⊆ grow b inc C2 → C1 ⊆ C2.
Proof.
  intros H1 H2 Hs c Hc. assert (c ≠ b) as Hcb by (intros ->; done).
  assert (c ∈ grow b inc C2) as Hg by (apply Hs; unfold grow; case_decide; set_basic).
  unfold grow in Hg. case_decide; set_basic.
Qed.

Section add_vertex.
Context gi b inc (Hok : graph_ok gi) (Hb : b ∉ dom gi) (Hinc : inc ⊆ dom gi).
Local Notation gi' := (graph_add gi b inc).

Lemma compat_with_add v C :
  v ≠ b → b ∉ C → compat_with gi' v C ↔ compat_with gi v C.
Proof using Hok Hb Hinc.
  intros Hv HC. unfold compat_with. apply set_Forall_iff. intros c Hc.
  rewrite graph_add_incompatible by done. rewrite decide_False by done.
  rewrite decide_False; [done|]. by intros ->.
Qed.

Lemma compat_with_new C : b ∉ C → compat_with gi' b C ↔ inc ## C.
Proof using Hok Hb Hinc.
  intros HC.
  assert (∀ c, incompatible gi' b c ↔ c ∈ inc) as Hi.
  { intros c. rewrite graph_add_incompatible by done. by rewrite decide_True. }
  split.
  - intros Hc c Hci HcC. apply (Hc c HcC); [by intros ->|by apply Hi].
  - intros Hd c HcC _ Hci%Hi. by apply (Hd c).
Qed.

Lemma compat_with_singleton_new v : v ≠ b → compat_with gi' v {[b]} ↔ v ∉ inc.
Proof using Hok Hb Hinc.
  intros Hv. unfold compat_with. rewrite set_Forall_singleton, graph_add_incompatible by done.
  rewrite decide_False, decide_True by done. tauto.
Qed.

Lemma is_clique_not_new C : is_clique gi C → b ∉ C.
Proof using Hb. intros [Hd _] HbC. by apply Hb, Hd. Qed.

Lemma is_clique_add C : b ∉ C → is_clique gi' C ↔ is_clique gi C.
Proof using Hok Hb Hinc.
  intros HbC. unfold is_clique. rewrite dom_graph_add.
  assert (C ⊆ {[b]} ∪ dom gi ↔ C ⊆ dom gi) as -> by set_solver.
  apply and_iff_compat_l. apply set_Forall_iff. intros c Hc.
  apply compat_with_add; [by intros ->|done].
Qed.

Lemma is_clique_add_new C :
  b ∉ C → is_clique gi' (C ∪ {[b]}) ↔ is_clique gi C ∧ inc ## C.
Proof using Hok Hb Hinc.
  intros HbC. rewrite <-is_clique_add by done. unfold is_clique. rewrite dom_graph_add. split.
  - intros [Hd Hall]. split_and!; [set_basic| |].
    + intros v Hv. apply (compat_with_mono gi' v C (C ∪ {[b]})); [|apply Hall]; set_basic.
    + apply compat_with_new; [done|].
      apply (compat_with_mono gi' b C (C ∪ {[b]})); [|apply Hall]; set_basic.
  - intros [[Hd Hall] Hdis]. split; [set_basic|].
    intros v [Hv| ->%elem_of_singleton]%elem_of_union; apply compat_with_union.
    + split; [by apply Hall|]. apply compat_with_singleton_new; [by intros ->|set_basic].
    + split; [by apply compat_with_new|]. by intros c ->%elem_of_singleton.
Qed.

Lemma grow_is_clique C : is_clique gi C → is_clique gi' (grow b inc C).
Proof using Hok Hb Hinc.
  intros HC. pose proof (is_clique_not_new C HC). unfold grow. case_decide.
  - by apply is_clique_add_new.
  - by apply is_clique_add.
Qed.

(** The routine keeps a maximal clique maximal. *)
Lemma grow_is_max_clique C : is_max_clique gi C → is_max_clique gi' (grow b inc C).
Proof using Hok Hb Hinc.
  intros [HC Hmax]. pose proof (is_clique_not_new C HC) as HbC.
  split; [by apply grow_is_clique|]. rewrite dom_graph_add.
  intros v Hv Hvg Hcv. unfold grow in *. case_decide as Hd.
  - assert (v ∈ dom gi ∧ v ∉ C ∧ v ≠ b) as (Hvd & HvC & Hvb) by set_basic.
    apply (Hmax v Hvd HvC). apply compat_with_union in Hcv as [Hcv _].
    by apply compat_with_add in Hcv.
  - destruct (decide (v = b)) as [->|Hvb].
    + by apply Hd, compat_with_new.
    + apply (Hmax v); [set_basic|done|]. by apply compat_with_add in Hcv.
Qed.

(** When every incompatibility of the new vertex is inherited from a vertex it is
    compatible with, the routine reaches every maximal clique. *)
Lemma max_clique_is_grown D (parents : gset K) :
  parents ## inc →
  (∀ v, v ∈ inc ↔ ∃ q, q ∈ parents ∧ incompatible gi q v) →
  is_max_clique gi' D → ∃ C, is_max_clique gi C ∧ D = grow b inc C.
Proof using Hok Hb Hinc.
  intros Hpi Hinh [HD Hmax]. rewrite dom_graph_add in Hmax.
  destruct (decide (b ∈ D)) as [HbD|HbD].
  - set (C := D ∖ {[b]}).
    assert (D = C ∪ {[b]}) as HDC.
    { apply set_eq. intros c. destruct (decide (c = b)); set_basic. }
    assert (b ∉ C) as HbC by set_basic.
    rewrite HDC in HD. apply is_clique_add_new in HD as [HC Hd]; [|done].
    exists C. split; [split; [done|]|by rewrite HDC; unfold grow; rewrite decide_True].
    intros v Hv HvC Hcv. assert (v ≠ b) as Hvb by (intros ->; done).
    apply (Hmax v); [set_basic|set_basic|]. rewrite HDC. apply compat_with_union.
    split; [by apply compat_with_add|]. apply compat_with_singleton_new; [done|].
    intros (q & Hq & Hqv)%Hinh.
    assert (q ∈ C) as HqC.
    { assert (q ∈ dom gi) as Hqd by (by eapply incompatible_dom).
      assert (q ≠ b) as Hqb by (intros ->; done).
      apply dec_stable. intros HqC. apply (Hmax q); [set_basic|set_basic|].
      rewrite HDC. apply compat_with_union. split.
      - apply compat_with_add; [done..|]. intros c Hc _ Hqc.
        apply (Hd c); [apply Hinh; eauto|done].
      - apply compat_with_singleton_new; [done|]. intros Hqi. by apply (Hpi q). }
    apply (Hcv q HqC); [|by apply graph_ok_sym].
    intros ->. by destruct Hok as [_ Hir _]; apply (Hir q).
  - assert (is_clique gi D) as HDg by (by apply is_clique_add).
    exists D. split.
    + split; [done|]. intros v Hv HvD Hcv. assert (v ≠ b) as Hvb by (intros ->; done).
      apply (Hmax v); [set_basic|done|]. by apply compat_with_add.
    + unfold grow. rewrite decide_False; [done|]. intros Hd.
      apply (Hmax b); [set_basic|done|]. by apply compat_with_new.
Qed.

End add_vertex.

Lemma is_clique_remove gi b C :
  graph_ok gi → is_clique gi C → is_clique (graph_remove gi b) (C ∖ {[b]}).
Proof.
  intros Hok [Hd Hc]. split; [rewrite dom_graph_remove; set_basic|].
  intros v [Hv Hvb]%elem_of_difference c [Hcc Hcb]%elem_of_difference Hne Hi.
  apply graph_remove_incompatible in Hi as (_ & _ & Hi); [|done]. by apply (Hc v Hv c).
Qed.

(** Two cliques of a list, neither inside the other. *)
Definition antichain (l : list (gset K)) : Prop :=
  ∀ i j C D, l !! i = Some C → l !! j = Some D → C ⊆ D → i = j.

Lemma max_cliques_antichain gi (l : list (gset K)) :
  NoDup l → (∀ C, C ∈ l → is_max_clique gi C) → antichain l.
Proof.
  intros Hnd Hmax i j C D HC HD Hsub.
  assert (C = D) as ->; [|by eapply NoDup_lookup].
  apply set_eq. intros v. split; [apply Hsub|]. intros Hv. apply dec_stable. intros HvC.
  assert (is_max_clique gi C) as [_ HmC] by (apply Hmax; by eapply list_elem_of_lookup_2).
  assert (is_max_clique gi D) as [[HdD HcD] _] by (apply Hmax; by eapply list_elem_of_lookup_2).
  apply (HmC v); [by apply HdD|done|]. intros c Hc. apply (HcD v Hv c). by apply Hsub.
Qed.

(** Every clique lies in a maximal one. *)
Lemma clique_extends gi C :
  graph_ok gi → is_clique gi C → ∃ M, is_max_clique gi M ∧ C ⊆ M.
Proof.
  intros Hok. remember (size (dom gi ∖ C)) as n eqn:Hn. revert C Hn.
  induction (lt_wf n) as [n _ IH]. intros C -> HC.
  destruct (decide (is_max_clique gi C)) as [HM|HM]; [by exists C|].
  assert (¬ set_Forall (λ v, v ∉ C → ¬ compat_with gi v C) (dom gi)) as Hex
    by (intros Hall; by apply HM).
  apply not_set_Forall_Exists in Hex as (v & Hv & Hnv); [|apply _].
  assert (v ∉ C ∧ compat_with gi v C) as [HvC Hcv].
  { cbn in Hnv. split; apply dec_stable; tauto. }
  destruct (IH (size (dom gi ∖ (C ∪ {[v]}))) ltac:(apply subset_size; set_basic)
              (C ∪ {[v]}) eq_refl) as (M & HM' & Hsub).
  - destruct HC as [Hd Hc]. split; [set_basic|].
    intros c [Hcc| ->%elem_of_singleton]%elem_of_union; apply compat_with_union.
    + split; [by apply Hc|]. intros v' ->%elem_of_singleton Hne Hi.
      apply (Hcv c Hcc); [done|]. by apply graph_ok_sym.
    + split; [done|]. by intros c ->%elem_of_singleton.
  - exists M. split; [done|set_basic].
Qed.
End graph_edits.

(** [l] lists each maximal clique exactly once. *)
Definition lists_max_cliques {K} `{Countable K} (gi : gmap K (gset K)) (l : list (gset K)) : Prop :=
  NoDup l ∧ ∀ C, C ∈ l ↔ is_max_clique gi C.

(** If the listed cliques are exactly the maximal ones and every incompatibility of
    the new vertex is inherited from vertices it is compatible with, adding the
    vertex to each clique it is compatible with lists the maximal cliques of the
    extended graph. *)
Lemma grow_lists_max_cliques {K} `{Countable K}
    (gi : gmap K (gset K)) (b : K) (inc parents : gset K) (cliques : list (gset K)) :
  graph_ok gi → b ∉ dom gi → inc ⊆ dom gi → parents ## inc →
  (∀ v, v ∈ inc ↔ ∃ q, q ∈ parents ∧ incompatible gi q v) →
  lists_max_cliques gi cliques →
  lists_max_cliques (graph_add gi b inc) (grow b inc <$> cliques).
Proof.
  intros Hok Hb Hinc Hpi Hinh [Hnd0 Hm0]. split.
  - apply NoDup_fmap_2_strong; [|done]. intros C D HC%Hm0 HD%Hm0 Heq.
    assert (b ∉ C) by (eapply (is_clique_not_new gi b); [done|apply HC]).
    assert (b ∉ D) by (eapply (is_clique_not_new gi b); [done|apply HD]).
    apply set_eq. intros v. split; revert v; apply (grow_inj b inc); by rewrite ?Heq.
  - intros D. rewrite list_elem_of_fmap. split.
    + intros (C & -> & HC%Hm0). by apply grow_is_max_clique.
    + intros HD. destruct (max_clique_is_grown gi b inc Hok Hb Hinc D parents)
        as (C & HC & ->); [done..|]. exists C. by rewrite Hm0.
Qed.
