(* ===== verification/Traversal.v ===== *)
(** * Worklist traversals

    The loops of consensus that walk the graph of blocks share one shape: pop an
    item, skip it if it was visited, otherwise mark it and push its successors.
    This file has what their proofs share: the loop invariant, which gives the
    set of reachable items at the end, and the measure that bounds the rounds. *)

From S2P Require Import Prelude.

(** ** Sums over maps *)

Section map_sum.
Context {K V : Type} `{Countable K}.
Implicit Types (m : gmap K V) (f : V → nat).

Definition map_sum f m : nat := map_fold (λ _ v n, (f v + n)%nat) 0%nat m.

Lemma map_sum_delete f m x v :
  m !! x = Some v → map_sum f m = (f v + map_sum f (delete x m))%nat.
Proof.
  intros Hx. unfold map_sum.
  rewrite (map_fold_delete_L (λ _ v n, (f v + n)%nat) 0%nat x v m); [done| |done].
  intros. lia.
Qed.

Lemma map_sum_insert f m x v :
  m !! x = None → map_sum f (<[x := v]> m) = (f v + map_sum f m)%nat.
Proof.
  intros Hx. rewrite (map_sum_delete f (<[x := v]> m) x v) by apply lookup_insert_eq.
  by rewrite delete_insert_id.
Qed.

(** The part of the sum outside a set. *)
Definition sum_outside f m (visited : gset K) : nat :=
  map_sum f (filter (λ '(k, _), k ∉ visited) m).

Lemma sum_outside_empty f m : sum_outside f m ∅ = map_sum f m.
Proof. unfold sum_outside. rewrite map_filter_id; [done|]. set_solver. Qed.

Lemma sum_outside_visit f m visited x v :
  m !! x = Some v → x ∉ visited →
  sum_outside f m visited = (f v + sum_outside f m (visited ∪ {[x]}))%nat.
Proof.
  intros Hm Hx. unfold sum_outside.
  rewrite (map_sum_delete f _ x v) by (by apply map_lookup_filter_Some). do 2 f_equal.
  apply map_eq. intros y. destruct (decide (x = y)) as [<-|Hne].
  - rewrite lookup_delete_eq. symmetry. apply map_lookup_filter_None. right. set_solver.
  - rewrite lookup_delete_ne by done. apply option_eq. intros w.
    rewrite !map_lookup_filter_Some. set_solver.
Qed.

Lemma sum_outside_other f m visited x :
  m !! x = None → sum_outside f m (visited ∪ {[x]}) = sum_outside f m visited.
Proof.
  intros Hm. unfold sum_outside. f_equal. apply map_eq. intros y. apply option_eq. intros w.
  rewrite !map_lookup_filter_Some. split; [set_solver|].
  intros [Hy Hv]. split; [done|]. assert (y ≠ x) by (intros ->; congruence). set_solver.
Qed.

Lemma sum_outside_le f m visited x :
  x ∉ visited → (sum_outside f m (visited ∪ {[x]}) ≤ sum_outside f m visited)%nat.
Proof.
  intros Hx. destruct (m !! x) as [v|] eqn:Hm.
  - rewrite (sum_outside_visit f m visited x v Hm Hx). lia.
  - by rewrite sum_outside_other.
Qed.

(** Sums of maps that agree but at one key. *)
Definition value_at f m (x : K) : nat := from_option f 0%nat (m !! x).

Lemma map_sum_delete_at f m x : map_sum f m = (value_at f m x + map_sum f (delete x m))%nat.
Proof.
  unfold value_at. destruct (m !! x) as [v|] eqn:Hx; cbn; [by apply map_sum_delete|].
  by rewrite delete_id.
Qed.

Lemma map_sum_zero f m : (∀ x, value_at f m x = 0%nat) → map_sum f m = 0%nat.
Proof.
  induction m as [|x v m Hx IH] using map_ind; intros Hz; [unfold map_sum; by rewrite map_fold_empty|].
  rewrite map_sum_insert by done.
  pose proof (Hz x) as Hxv. unfold value_at in Hxv. rewrite lookup_insert_eq in Hxv. cbn in Hxv.
  rewrite Hxv, IH; [done|]. intros y. destruct (decide (x = y)) as [<-|Hne].
  - unfold value_at. by rewrite Hx.
  - specialize (Hz y). unfold value_at in *. by rewrite lookup_insert_ne in Hz.
Qed.

Lemma map_sum_ext f m m' : (∀ x, value_at f m' x = value_at f m x) → map_sum f m' = map_sum f m.
Proof.
  revert m'. induction m as [|x v m Hx IH] using map_ind; intros m' Heq.
  - unfold map_sum at 2. rewrite map_fold_empty. apply map_sum_zero. intros y. by rewrite Heq.
  - rewrite (map_sum_delete_at f m' x), Heq, map_sum_insert by done.
    unfold value_at at 1. rewrite lookup_insert_eq. cbn. f_equal. apply IH. intros y.
    destruct (decide (x = y)) as [<-|Hne].
    + unfold value_at. by rewrite lookup_delete_eq, Hx.
    + specialize (Heq y). unfold value_at in *.
      by rewrite lookup_delete_ne, Heq, lookup_insert_ne by done.
Qed.

Lemma map_sum_change f m m' x :
  (∀ y, y ≠ x → value_at f m' y = value_at f m y) →
  (map_sum f m' + value_at f m x = map_sum f m + value_at f m' x)%nat.
Proof.
  intros Heq. rewrite (map_sum_delete_at f m' x), (map_sum_delete_at f m x).
  rewrite (map_sum_ext f (delete x m) (delete x m')); [lia|]. intros y.
  destruct (decide (x = y)) as [<-|Hne].
  - unfold value_at. by rewrite !lookup_delete_eq.
  - unfold value_at in *. rewrite !lookup_delete_ne by done. by apply Heq.
Qed.

Lemma map_sum_size f m : (∀ v, f v ≤ 1)%nat → (map_sum f m ≤ size m)%nat.
Proof.
  intros Hf. induction m as [|x v m Hx IH] using map_ind; [unfold map_sum; by rewrite map_fold_empty|].
  rewrite map_sum_insert, map_size_insert_None by done. specialize (Hf v). lia.
Qed.
End map_sum.

(** ** Reachability *)

Section traversal.
Context {K : Type} `{Countable K} (succ : K → list K).
Implicit Types (roots stack : list K) (visited : gset K).

Definition edge (x y : K) : Prop := y ∈ succ x.
Definition reach roots (x : K) : Prop := ∃ r, r ∈ roots ∧ rtc edge r x.

Record trav_inv roots stack visited : Prop := {
  ti_visited : ∀ x, x ∈ visited → reach roots x;
  ti_stack : ∀ x, x ∈ stack → reach roots x;
  ti_closed : ∀ x y, x ∈ visited → edge x y → y ∈ visited ∨ y ∈ stack;
  ti_roots : ∀ x, x ∈ roots → x ∈ visited ∨ x ∈ stack }.

Lemma trav_init roots stack : (∀ x, x ∈ stack ↔ x ∈ roots) → trav_inv roots stack ∅.
Proof.
  intros Hs. split.
  - set_solver.
  - intros x Hx%Hs. by exists x.
  - set_solver.
  - intros x Hx. right. by apply Hs.
Qed.

Lemma trav_skip roots x stack visited :
  trav_inv roots (x :: stack) visited → x ∈ visited → trav_inv roots stack visited.
Proof.
  intros [Hv Hs Hc Hr] Hx. split; [done|set_solver| |].
  - intros y z Hy He. destruct (Hc y z Hy He) as [|[->|]%elem_of_cons]; auto.
  - intros y Hy. destruct (Hr y Hy) as [|[->|]%elem_of_cons]; auto.
Qed.

(** The successors may be pushed in any order and at either end. *)
Lemma trav_push roots x stack stack' visited :
  trav_inv roots (x :: stack) visited →
  (∀ y, y ∈ stack' ↔ y ∈ succ x ∨ y ∈ stack) →
  trav_inv roots stack' (visited ∪ {[x]}).
Proof.
  intros [Hv Hs Hc Hr] Hs'.
  assert (reach roots x) as Hx by (apply Hs; by left).
  split.
  - intros y [Hy| ->%elem_of_singleton]%elem_of_union; auto.
  - intros y [Hy|Hy]%Hs'; [|apply Hs; by right].
    destruct Hx as (r & Hr' & Hrx). exists r. split; [done|]. by eapply rtc_r.
  - intros y z [Hy| ->%elem_of_singleton]%elem_of_union He.
    + destruct (Hc y z Hy He) as [|[->|]%elem_of_cons];
        [left; set_solver|left; set_solver|right; apply Hs'; auto].
    + right. apply Hs'. by left.
  - intros y Hy. destruct (Hr y Hy) as [|[->|]%elem_of_cons];
      [left; set_solver|left; set_solver|right; apply Hs'; auto].
Qed.

Lemma trav_done roots visited :
  trav_inv roots [] visited → ∀ x, x ∈ visited ↔ reach roots x.
Proof.
  intros [Hv _ Hc Hr] x. split; [apply Hv|]. intros (r & Hin & Hrx).
  assert (r ∈ visited) as Hrv by (destruct (Hr r Hin) as [|?%elem_of_nil]; done).
  clear Hin. induction Hrx as [|a b c He _ IH]; [done|]. apply IH.
  destruct (Hc a b Hrv He) as [|?%elem_of_nil]; done.
Qed.
End traversal.

(** ** Sums over sets *)

Section set_sum.
Context {K : Type} `{Countable K}.
Implicit Types (f : K → N) (X Y : gset K).

Fixpoint list_sum f (l : list K) : N :=
  match l with
  | [] => 0%N
  | x :: l => (f x + list_sum f l)%N
  end.
Definition set_sum f X : N := list_sum f (elements X).

#[export] Instance list_sum_proper f : Proper ((≡ₚ) ==> (=)) (list_sum f).
Proof. induction 1; cbn; lia. Qed.

Lemma set_sum_perm f X l : l ≡ₚ elements X → list_sum f l = set_sum f X.
Proof. intros Hl. unfold set_sum. by rewrite Hl. Qed.

Lemma set_sum_iter `{!SetIter K} f X : list_sum f (set_iter X) = set_sum f X.
Proof. apply set_sum_perm, set_iter_perm. Qed.

Lemma list_sum_ext f g l : (∀ x, x ∈ l → f x = g x) → list_sum f l = list_sum g l.
Proof.
  induction l as [|x l IH]; intros Hfg; cbn; [done|].
  rewrite IH, Hfg; [done|by left|]. intros y Hy. apply Hfg. by right.
Qed.

Lemma set_sum_ext f g X : (∀ x, x ∈ X → f x = g x) → set_sum f X = set_sum g X.
Proof. intros Hfg. apply list_sum_ext. intros x Hx%elem_of_elements. by apply Hfg. Qed.

Lemma set_sum_empty f : set_sum f ∅ = 0%N.
Proof. unfold set_sum. by rewrite elements_empty. Qed.

Lemma set_sum_insert f X x : x ∉ X → set_sum f (X ∪ {[x]}) = (f x + set_sum f X)%N.
Proof.
  intros Hx. unfold set_sum. rewrite union_comm_L, elements_union_singleton by done. done.
Qed.

Lemma set_sum_delete f X x : x ∈ X → set_sum f X = (f x + set_sum f (X ∖ {[x]}))%N.
Proof.
  intros Hx. rewrite <-set_sum_insert by set_solver. f_equal.
  apply set_eq. intros y. destruct (decide (y = x)); set_solver.
Qed.

Lemma set_sum_mono f X Y : X ⊆ Y → (set_sum f X <= set_sum f Y)%N.
Proof.
  revert X. induction Y as [|y Y Hy IH] using set_ind_L; intros X HX.
  { assert (X = ∅) as -> by set_solver. lia. }
  rewrite (union_comm_L _ Y), set_sum_insert by done.
  destruct (decide (y ∈ X)) as [HyX|HyX].
  - rewrite (set_sum_delete f X y) by done. specialize (IH (X ∖ {[y]}) ltac:(set_solver)). lia.
  - specialize (IH X ltac:(set_solver)). lia.
Qed.

Lemma set_sum_pos f X x : x ∈ X → (f x <= set_sum f X)%N.
Proof. intros Hx. rewrite (set_sum_delete f X x Hx). lia. Qed.
End set_sum.
