(* ===== verification/OrdMap.v ===== *)
(** * Ordered maps

    A [BTreeMap] of the source as the list of its entries in increasing key
    order, with the operations the components use and the lemmas that relate
    them to lookups.  Iteration, the first and the last entry are those of the
    list. *)

From S2P Require Import Prelude.

Open Scope N_scope.

(** ** Lexicographic orders *)

#[export] Instance list_ord {A} `{Ord A} : Ord (list A) :=
  fix go (x y : list A) : comparison :=
    match x, y with
    | [], [] => Eq
    | [], _ :: _ => Lt
    | _ :: _, [] => Gt
    | a :: x, b :: y => match cmp a b with Eq => go x y | c => c end
    end.

Lemma cmp_refl {A} `{OrdLaws A} (a : A) : cmp a a = Eq.
Proof. by apply cmp_eq. Qed.

#[export] Instance list_ord_laws {A} `{OrdLaws A} : OrdLaws (list A).
Proof.
  split; unfold cmp, list_ord.
  - intros x. induction x as [|a x IH]; intros [|b y]; try done.
    destruct (cmp a b) eqn:Hc.
    + apply cmp_eq in Hc as ->. rewrite IH. naive_solver.
    + split; [done|]. intros [= -> ->]. by rewrite cmp_refl in Hc.
    + split; [done|]. intros [= -> ->]. by rewrite cmp_refl in Hc.
  - intros x. induction x as [|a x IH]; intros [|b y]; try done.
    rewrite (cmp_opp a b). destruct (cmp a b); cbn; auto.
  - intros x. induction x as [|a x IH]; intros [|b y] [|c z]; try done.
    destruct (cmp a b) eqn:Hab; [apply cmp_eq in Hab as ->| |done].
    + destruct (cmp b c) eqn:Hbc; [apply IH|done..].
    + intros _. destruct (cmp b c) eqn:Hbc; [apply cmp_eq in Hbc as <-; by rewrite Hab| |done].
      by rewrite (cmp_lt_trans _ _ _ Hab Hbc).
Qed.

(** ** Operations *)

Definition cmp_lt {A} `{Ord A} (a b : A) : Prop := cmp a b = Lt.
#[export] Instance cmp_lt_dec {A} `{Ord A} : RelDecision (@cmp_lt A _).
Proof. intros a b. unfold cmp_lt. apply _. Defined.

Section ops.
Context {K V : Type} `{Ord K}.
Implicit Types (l : list (K * V)) (k : K) (v : V).

(** Strictly increasing keys. *)
Definition bt_sorted l : Prop := StronglySorted cmp_lt l.*1.

Fixpoint bt_get k l : option V :=
  match l with
  | [] => None
  | (k', v) :: l => match cmp k k' with Eq => Some v | Lt => None | Gt => bt_get k l end
  end.

Fixpoint bt_insert k v l : list (K * V) :=
  match l with
  | [] => [(k, v)]
  | (k', v') :: l =>
      match cmp k k' with
      | Lt => (k, v) :: (k', v') :: l
      | Eq => (k', v) :: l
      | Gt => (k', v') :: bt_insert k v l
      end
  end.

Fixpoint bt_remove k l : list (K * V) :=
  match l with
  | [] => []
  | (k', v') :: l =>
      match cmp k k' with
      | Lt => (k', v') :: l
      | Eq => l
      | Gt => (k', v') :: bt_remove k l
      end
  end.

(** [BTreeMap::from] of an array, [append], and [collect] of an iterator. *)
Definition bt_append l other : list (K * V) := foldl (λ l '(k, v), bt_insert k v l) l other.
Definition bt_from other : list (K * V) := bt_append [] other.
End ops.

(** ** Lookups *)

Section laws.
Context {K V : Type} `{OrdLaws K}.
Implicit Types (l : list (K * V)) (k : K) (v : V).

Lemma cmp_gt_lt (a b : K) : cmp a b = Gt ↔ cmp b a = Lt.
Proof. rewrite (cmp_opp a b). by destruct (cmp a b). Qed.
Lemma cmp_lt_irrefl (a : K) : ¬ cmp_lt a a.
Proof. unfold cmp_lt. by rewrite cmp_refl. Qed.

Lemma bt_sorted_cons k v l :
  bt_sorted ((k, v) :: l) ↔ bt_sorted l ∧ ∀ k' v', (k', v') ∈ l → cmp_lt k k'.
Proof.
  unfold bt_sorted. rewrite fmap_cons, StronglySorted_cons, Forall_forall. cbn.
  split.
  - intros [Hk Hs]. split; [done|]. intros k' v' Hin. apply Hk.
    by apply (list_elem_of_fmap_2' fst l (k', v')).
  - intros [Hs Hk]. split; [|done]. intros k' ([k0 v'] & -> & Hin)%list_elem_of_fmap. by eapply Hk.
Qed.

Lemma bt_get_below k l :
  (∀ k' v', (k', v') ∈ l → cmp_lt k k') → bt_get k l = None.
Proof.
  destruct l as [|[k' v'] l]; [done|]. intros Hl. cbn.
  by rewrite (Hl k' v' ltac:(by left)).
Qed.

Lemma elem_of_bt k v l : bt_sorted l → (k, v) ∈ l ↔ bt_get k l = Some v.
Proof.
  induction l as [|[k' v'] l IH]; intros Hs; [cbn; split; [by intros ?%elem_of_nil|done]|].
  apply bt_sorted_cons in Hs as [Hs Hk]. specialize (IH Hs). cbn.
  rewrite elem_of_cons. destruct (cmp k k') eqn:Hc.
  - apply cmp_eq in Hc as ->. split; [|naive_solver].
    intros [[= ->]|Hin]; [done|]. by destruct (cmp_lt_irrefl k' (Hk _ _ Hin)).
  - split; [|done]. intros [[= -> ->]|Hin]; [by rewrite cmp_refl in Hc|].
    pose proof (cmp_lt_trans _ _ _ Hc (Hk _ _ Hin)) as Hkk. by destruct (cmp_lt_irrefl k Hkk).
  - rewrite IH. split; [|naive_solver]. intros [[= -> ->]|?]; [|done].
    by rewrite cmp_refl in Hc.
Qed.

Lemma elem_of_bt_insert k v l k' v' :
  (k', v') ∈ bt_insert k v l → (k', v') = (k, v) ∨ (k', v') ∈ l.
Proof.
  induction l as [|[k0 v0] l IH]; cbn; [by intros ->%list_elem_of_singleton; left|].
  destruct (cmp k k0) eqn:Hc; rewrite ?elem_of_cons.
  - apply cmp_eq in Hc as <-. tauto.
  - tauto.
  - intros [?|?%IH]; tauto.
Qed.
Lemma elem_of_bt_remove k l k' v' : (k', v') ∈ bt_remove k l → (k', v') ∈ l.
Proof.
  induction l as [|[k0 v0] l IH]; cbn; [done|].
  destruct (cmp k k0) eqn:Hc; rewrite ?elem_of_cons; tauto.
Qed.

Lemma bt_sorted_insert k v l : bt_sorted l → bt_sorted (bt_insert k v l).
Proof.
  induction l as [|[k0 v0] l IH]; intros Hs; cbn.
  { apply bt_sorted_cons. split; [done|]. by intros ?? ?%elem_of_nil. }
  apply bt_sorted_cons in Hs as [Hs Hk]. destruct (cmp k k0) eqn:Hc; apply bt_sorted_cons.
  - by split.
  - split; [by apply bt_sorted_cons|]. intros k' v' [[= -> ->]|Hin]%elem_of_cons; [done|].
    eapply cmp_lt_trans; [done|by eapply Hk].
  - split; [by apply IH|]. intros k' v' [[= -> ->]|Hin]%elem_of_bt_insert; [by apply cmp_gt_lt|].
    by eapply Hk.
Qed.
Lemma bt_sorted_remove k l : bt_sorted l → bt_sorted (bt_remove k l).
Proof.
  induction l as [|[k0 v0] l IH]; intros Hs; cbn; [done|].
  pose proof Hs as [Hs' Hk]%bt_sorted_cons. destruct (cmp k k0); [done|done|].
  apply bt_sorted_cons. split; [by apply IH|]. intros k' v' ?%elem_of_bt_remove. by eapply Hk.
Qed.

Lemma bt_get_insert_eq k v l : bt_get k (bt_insert k v l) = Some v.
Proof.
  induction l as [|[k0 v0] l IH]; cbn; [by rewrite cmp_refl|].
  destruct (cmp k k0) eqn:Hc; cbn; rewrite ?Hc, ?cmp_refl; done.
Qed.
Lemma bt_get_insert_ne k k' v l :
  k ≠ k' → bt_sorted l → bt_get k' (bt_insert k v l) = bt_get k' l.
Proof.
  intros Hne. induction l as [|[k0 v0] l IH]; intros Hs; cbn.
  { destruct (cmp k' k) eqn:Hc; [by apply cmp_eq in Hc|done..]. }
  apply bt_sorted_cons in Hs as [Hs Hk]. destruct (cmp k k0) eqn:Hc; cbn.
  - apply cmp_eq in Hc as <-. destruct (cmp k' k) eqn:Hc'; [by apply cmp_eq in Hc'|done..].
  - destruct (cmp k' k) eqn:Hc'; [by apply cmp_eq in Hc'| |done].
    by rewrite (cmp_lt_trans _ _ _ Hc' Hc).
  - destruct (cmp k' k0); [done|done|]. by apply IH.
Qed.
Lemma bt_get_remove_eq k l : bt_sorted l → bt_get k (bt_remove k l) = None.
Proof.
  induction l as [|[k0 v0] l IH]; intros Hs; cbn; [done|].
  apply bt_sorted_cons in Hs as [Hs Hk]. destruct (cmp k k0) eqn:Hc; cbn; rewrite ?Hc; auto.
  apply cmp_eq in Hc as ->. by apply bt_get_below.
Qed.
Lemma bt_get_remove_ne k k' l :
  k ≠ k' → bt_sorted l → bt_get k' (bt_remove k l) = bt_get k' l.
Proof.
  intros Hne. induction l as [|[k0 v0] l IH]; intros Hs; cbn; [done|].
  apply bt_sorted_cons in Hs as [Hs Hk]. destruct (cmp k k0) eqn:Hc; cbn.
  - apply cmp_eq in Hc as <-. destruct (cmp k' k) eqn:Hc'; [by apply cmp_eq in Hc'| |done].
    apply bt_get_below. intros ?? Hin. by eapply cmp_lt_trans; [|eapply Hk].
  - done.
  - destruct (cmp k' k0); [done|done|]. by apply IH.
Qed.

(** The entries are determined by the lookups. *)
Lemma bt_ext l1 l2 :
  bt_sorted l1 → bt_sorted l2 → (∀ k, bt_get k l1 = bt_get k l2) → l1 = l2.
Proof.
  intros Hs1 Hs2 Hg.
  assert (∀ x, x ∈ l1 ↔ x ∈ l2) as Hin.
  { intros [k v]. by rewrite !elem_of_bt, Hg by done. }
  clear Hg. revert l2 Hs2 Hin. induction l1 as [|[k v] l1 IH]; intros l2 Hs2 Hin.
  { destruct l2 as [|x l2]; [done|]. destruct (proj1 (elem_of_nil x)). apply Hin. by left. }
  destruct l2 as [|[k' v'] l2].
  { destruct (proj1 (elem_of_nil (k, v))). apply Hin. by left. }
  apply bt_sorted_cons in Hs1 as [Hs1 Hk1]. apply bt_sorted_cons in Hs2 as [Hs2 Hk2].
  assert ((k, v) = (k', v')) as [= <- <-].
  { destruct (proj1 (elem_of_cons _ _ _) (proj1 (Hin (k, v)) ltac:(by left))) as [?|H1]; [done|].
    destruct (proj1 (elem_of_cons _ _ _) (proj2 (Hin (k', v')) ltac:(by left))) as [?|H2]; [done|].
    pose proof (cmp_lt_trans _ _ _ (Hk1 _ _ H2) (Hk2 _ _ H1)) as Hkk.
    by destruct (cmp_lt_irrefl k Hkk). }
  f_equal. apply IH; [done..|]. intros [k0 v0]. specialize (Hin (k0, v0)).
  rewrite !elem_of_cons in Hin. split; intros Hx.
  - destruct (proj1 Hin ltac:(by right)) as [[= -> ->]|?]; [|done].
    by destruct (cmp_lt_irrefl k (Hk1 _ _ Hx)).
  - destruct (proj2 Hin ltac:(by right)) as [[= -> ->]|?]; [|done].
    by destruct (cmp_lt_irrefl k (Hk2 _ _ Hx)).
Qed.

(** Inserting above every key appends. *)
Lemma bt_insert_above k v l :
  (∀ k' v', (k', v') ∈ l → cmp_lt k' k) → bt_insert k v l = l ++ [(k, v)].
Proof.
  induction l as [|[k0 v0] l IH]; intros Hl; [done|]. cbn.
  rewrite (proj2 (cmp_gt_lt k k0) (Hl k0 v0 ltac:(by left))). f_equal. apply IH.
  intros ???. eapply Hl. by right.
Qed.

Lemma bt_sorted_snoc k v l :
  bt_sorted (l ++ [(k, v)]) → bt_sorted l ∧ l ++ [(k, v)] = bt_insert k v l.
Proof.
  intros Hs. unfold bt_sorted in *. rewrite fmap_app, StronglySorted_app in Hs.
  destruct Hs as (Hlt & Hs & _). split; [done|]. symmetry. apply bt_insert_above.
  intros k' v' Hin. apply Hlt; [by apply (list_elem_of_fmap_2' fst l (k', v'))|by left].
Qed.

Lemma bt_sorted_append l other : bt_sorted l → bt_sorted (bt_append l other).
Proof.
  unfold bt_append. revert l. induction other as [|[k v] other IH]; intros l Hs; cbn; [done|].
  by apply IH, bt_sorted_insert.
Qed.
Lemma bt_sorted_nil : bt_sorted (@nil (K * V)).
Proof using. constructor. Qed.

Lemma elem_of_bt_append k v l other :
  (k, v) ∈ bt_append l other → (k, v) ∈ l ∨ (k, v) ∈ other.
Proof.
  unfold bt_append. revert l. induction other as [|[k0 v0] other IH]; intros l; cbn; [by left|].
  intros [[->|?]%elem_of_bt_insert|?]%IH; [right; by left|by left|right; by right].
Qed.

Lemma bt_get_append k l other :
  bt_sorted l → bt_sorted other →
  bt_get k (bt_append l other) = match bt_get k other with Some v => Some v | None => bt_get k l end.
Proof.
  unfold bt_append. revert l. induction other as [|[k0 v0] other IH]; intros l Hl Ho; [done|].
  apply bt_sorted_cons in Ho as [Ho Hk]. cbn. rewrite IH by (done || by apply bt_sorted_insert).
  destruct (cmp k k0) eqn:Hc.
  - apply cmp_eq in Hc as ->. rewrite (bt_get_below k0 other) by done. by rewrite bt_get_insert_eq.
  - rewrite (bt_get_below k other) by (intros ???; by eapply cmp_lt_trans; [|eapply Hk]).
    apply bt_get_insert_ne; [|done]. intros ->. by rewrite cmp_refl in Hc.
  - destruct (bt_get k other); [done|]. apply bt_get_insert_ne; [|done].
    intros ->. by rewrite cmp_refl in Hc.
Qed.

Lemma bt_append_nil l : bt_sorted l → bt_append [] l = l.
Proof.
  intros Hs. apply bt_ext; [apply bt_sorted_append, bt_sorted_nil|done|]. intros k.
  rewrite bt_get_append by (done || apply bt_sorted_nil). by destruct (bt_get k l).
Qed.
End laws.

#[export] Hint Extern 1 (bt_sorted (bt_insert _ _ _)) => apply bt_sorted_insert : massa.
#[export] Hint Extern 1 (bt_sorted (bt_remove _ _)) => apply bt_sorted_remove : massa.
#[export] Hint Extern 1 (bt_sorted (bt_append _ _)) => apply bt_sorted_append : massa.
#[export] Hint Extern 1 (bt_sorted []) => apply bt_sorted_nil : massa.

(** An order read through an injective view. *)
Lemma ord_laws_via {A B} `{Ord A, OrdLaws B} (f : A → B) :
  (∀ a b, f a = f b → a = b) → (∀ a b : A, cmp a b = cmp (f a) (f b)) → OrdLaws A.
Proof.
  intros Hinj Hf. split; intros *; rewrite ?Hf.
  - rewrite cmp_eq. split; [apply Hinj|congruence].
  - apply cmp_opp.
  - apply cmp_lt_trans.
Qed.
