(* ===== verification/Keys.v ===== *)
(** * Keys and ranges of keys

    [massa-models/src/datastore.rs]: keys are bytes in lexicographic order, and a
    query selects those with a prefix and between two bounds.

    A [BTreeSet] of keys is a [gset] and a [BTreeMap] with keys is a [gmap]; iterating
    them is listing their elements in order. *)

From S2P Require Import Prelude OrdMap.

Open Scope N_scope.

Local Notation Key := (list N) (only parsing).

Inductive Bound (K : Type) : Type :=
  | Included (k : K)
  | Excluded (k : K)
  | Unbounded.
Arguments Included {_} _.
Arguments Excluded {_} _.
Arguments Unbounded {_}.

(** ** Ranges of keys *)

Definition after_start {K} `{Ord K} (b : Bound K) (k : K) : bool :=
  match b with
  | Included a => bool_decide (cmp_le a k)
  | Excluded a => bool_decide (cmp_lt a k)
  | Unbounded => true
  end.
Definition before_end {K} `{Ord K} (b : Bound K) (k : K) : bool :=
  match b with
  | Included a => bool_decide (cmp_le k a)
  | Excluded a => bool_decide (cmp_lt k a)
  | Unbounded => true
  end.
(** [contains] of a pair of bounds *)
Definition in_range {K} `{Ord K} (r : Bound K * Bound K) (k : K) : bool := after_start r.1 k && before_end r.2 k.

(** How much of a prefix is kept in the end of its range: up to the last byte that
    can be increased. *)
Definition n_keep (prefix : Key) : nat :=
  default 0%nat (head (omap (λ '(i, v), if v <? 255 then Some (S i) else None) (rev (imap pair prefix)))).
Definition increase_last (l : Key) : Key :=
  match rev l with [] => [] | v :: r => rev (v + 1 :: r) end.
Definition get_prefix_bounds (prefix : Key) : Bound Key * Bound Key :=
  if decide (prefix = []) then (Unbounded, Unbounded)
  else
    let prefix_end := increase_last (take (n_keep prefix) prefix) in
    (Included prefix, if decide (prefix_end = []) then Unbounded else Excluded prefix_end).

Definition key_max (a b : Key) : Key := if decide (cmp_le a b) then b else a.
Definition key_min (a b : Key) : Key := if decide (cmp_le a b) then a else b.

Definition intersect_start (a b : Bound Key) : Bound Key :=
  match a, b with
  | Included a, Included b => Included (key_max a b)
  | Included a, Excluded b => if decide (cmp_lt b a) then Included a else Excluded b
  | Excluded a, Included b => if decide (cmp_lt a b) then Included b else Excluded a
  | Excluded a, Excluded b => Excluded (key_max a b)
  | Unbounded, other => other
  | other, Unbounded => other
  end.
Definition intersect_end (a b : Bound Key) : Bound Key :=
  match a, b with
  | Included a, Included b => Included (key_min a b)
  | Included a, Excluded b => if decide (cmp_lt a b) then Included a else Excluded b
  | Excluded a, Included b => if decide (cmp_lt b a) then Included b else Excluded a
  | Excluded a, Excluded b => Excluded (key_min a b)
  | Unbounded, other => other
  | other, Unbounded => other
  end.
Definition range_intersection (r1 r2 : Bound Key * Bound Key) : option (Bound Key * Bound Key) :=
  let start := intersect_start r1.1 r2.1 in
  let end_ := intersect_end r1.2 r2.2 in
  match start, end_ with
  | Included a, Included b => if decide (cmp_lt b a) then None else Some (start, end_)
  | Included a, Excluded b => if decide (cmp_le b a) then None else Some (start, end_)
  | Excluded a, Included b => if decide (cmp_le b a) then None else Some (start, end_)
  | Excluded a, Excluded b => if decide (cmp_le b a) then None else Some (start, end_)
  | _, _ => Some (start, end_)
  end.

(** ** Queries from outside *)

Definition is_too_long (max : N) (k : Key) : bool := max <? N.of_nat (length k).
Definition clean_start (max : N) (b : Bound Key) : Bound Key :=
  match b with
  | Unbounded => Unbounded
  | Excluded k => Excluded (take (N.to_nat max) k)
  | Included k => if is_too_long max k then Excluded (take (N.to_nat max) k) else Included k
  end.
Definition clean_end (max : N) (b : Bound Key) : Bound Key :=
  match b with
  | Unbounded => Unbounded
  | Included k => Included (take (N.to_nat max) k)
  | Excluded k => if is_too_long max k then Included (take (N.to_nat max) k) else Excluded k
  end.
(** The prefix, the bounds and the count to use, or an error when more keys are asked
    for than a query may return. *)
Definition cleanup_datastore_key_range_query (prefix : Key) (start_bound end_bound : Bound Key) (count : option N)
    (max_datastore_key_length : N) (max_datastore_query_config : option N)
    : outcome string (Key * Bound Key * Bound Key * option N) :=
  let count := match count with Some _ => count | None => max_datastore_query_config end in
  let too_many := match count, max_datastore_query_config with
                  | Some cnt, Some max_cnt => max_cnt <? cnt
                  | _, _ => false
                  end in
  if too_many then Err "max item count in datastore key query exceeded"
  else if is_too_long max_datastore_key_length prefix
  then Ok ([], Excluded [], Excluded [], count)
  else Ok (prefix, clean_start max_datastore_key_length start_bound, clean_end max_datastore_key_length end_bound,
           count).

(** ** Ordered iteration *)

Definition sorted_keys (s : gset Key) : list Key := sort_unstable (elements s).
(** [range(r)] on the keys of a map *)
Definition range_keys {A} (r : Bound Key * Bound Key) (d : gmap Key A) : gset Key :=
  filter (λ k, in_range r k = true) (dom d).
(** The entries of a map in key order. *)
Definition sorted_entries {A} (d : gmap Key A) : list (Key * A) :=
  omap (λ k, pair k <$> d !! k) (sorted_keys (dom d)).
