(* ===== verification/KeyFacts.v ===== *)
(** * Ranges of keys

    The intersection of two ranges holds exactly the keys of both, the range of a
    prefix exactly the keys with that prefix, and cleaning a query does not change
    what it selects.  Ordered iterations are determined by their elements. *)

From S2P Require Import Prelude OrdMap Keys.

Open Scope N_scope.

Section order.
Context {A : Type} `{OrdLaws A}.
Implicit Types (a b c : A).

Lemma cmp_lt_not_le a b : cmp_lt a b ↔ ¬ cmp_le b a.
Proof using All. unfold cmp_lt, cmp_le. rewrite (cmp_opp a b). destruct (cmp a b); cbn; naive_solver. Qed.
Lemma cmp_lt_le a b : cmp_lt a b → cmp_le a b.
Proof using All. unfold cmp_lt, cmp_le. by intros ->. Qed.
Lemma cmp_le_lt_or_eq a b : cmp_le a b → cmp_lt a b ∨ a = b.
Proof using All. unfold cmp_lt, cmp_le. destruct (cmp a b) eqn:Hc; [apply cmp_eq in Hc|..]; tauto. Qed.
Lemma cmp_lt_le_trans a b c : cmp_lt a b → cmp_le b c → cmp_lt a c.
Proof using All. intros Hab [Hbc|<-]%cmp_le_lt_or_eq; [by eapply cmp_lt_trans|done]. Qed.
Lemma cmp_le_lt_trans a b c : cmp_le a b → cmp_lt b c → cmp_lt a c.
Proof using All. intros [Hab| ->]%cmp_le_lt_or_eq Hbc; [by eapply cmp_lt_trans|done]. Qed.
Lemma cmp_le_refl a : cmp_le a a.
Proof using All. unfold cmp_le. by rewrite cmp_refl. Qed.
Lemma cmp_lt_or_le a b : cmp_lt a b ∨ cmp_le b a.
Proof using All. destruct (decide (cmp_le b a)); [by right|left; by apply cmp_lt_not_le]. Qed.

(** Strictly sorted lists are determined by their elements. *)
Lemma sorted_ext (l l' : list A) :
  StronglySorted cmp_lt l → StronglySorted cmp_lt l' → (∀ x, x ∈ l ↔ x ∈ l') → l = l'.
Proof using All.
  revert l'. induction l as [|a l IH]; intros [|b l'] Hl Hl' Heq; [done| | |].
  - exfalso. apply (not_elem_of_nil b), Heq. left.
  - exfalso. apply (not_elem_of_nil a), Heq. left.
  - apply StronglySorted_cons in Hl as [Ha Hl]. apply StronglySorted_cons in Hl' as [Hb Hl'].
    rewrite Forall_forall in Ha, Hb.
    assert (a = b) as ->.
    { destruct (proj1 (elem_of_cons _ _ _) (proj1 (Heq a) ltac:(left))) as [|Hal]; [done|].
      destruct (proj1 (elem_of_cons _ _ _) (proj2 (Heq b) ltac:(left))) as [|Hbl]; [done|].
      destruct (cmp_lt_irrefl a). eapply cmp_lt_trans; [by apply Ha|by apply Hb]. }
    f_equal. apply IH; [done..|]. intros x. split; intros Hx.
    + destruct (proj1 (elem_of_cons _ _ _) (proj1 (Heq x) ltac:(by right))) as [->|]; [|done].
      by destruct (cmp_lt_irrefl b (Ha b Hx)).
    + destruct (proj1 (elem_of_cons _ _ _) (proj2 (Heq x) ltac:(by right))) as [->|]; [|done].
      by destruct (cmp_lt_irrefl b (Hb b Hx)).
Qed.

Lemma sorted_NoDup (l : list A) : StronglySorted cmp_lt l → NoDup l.
Proof using All.
  induction 1 as [|a l Hl IH Ha]; constructor; [|done].
  intros Hin. rewrite Forall_forall in Ha. by destruct (cmp_lt_irrefl a (Ha a Hin)).
Qed.
Lemma sorted_filter (P : A → Prop) `{∀ x, Decision (P x)} (l : list A) :
  StronglySorted cmp_lt l → StronglySorted cmp_lt (filter P l).
Proof using.
  induction 1 as [|a l Hl IH Ha]; [constructor|]. rewrite filter_cons. case_decide; [|done].
  constructor; [done|]. rewrite Forall_forall in *. intros x [_ Hx]%list_elem_of_filter. by apply Ha.
Qed.
End order.

Section keys.
Local Notation Key := (list N) (only parsing).
Implicit Types (k : Key) (s : gset Key).

Lemma elem_of_sorted_keys s k : k ∈ sorted_keys s ↔ k ∈ s.
Proof using. unfold sorted_keys. by rewrite elem_of_sort_unstable, elem_of_elements. Qed.

Lemma sorted_sorted_keys s : StronglySorted cmp_lt (sorted_keys s).
Proof using.
  assert (NoDup (sorted_keys s)) as Hnd.
  { unfold sorted_keys. rewrite (sort_unstable_perm (elements s)). apply NoDup_elements. }
  pose proof (sort_unstable_sorted (elements s)) as Hs. fold (sorted_keys s) in Hs.
  induction Hs as [|a l Hl IH Ha]; [constructor|]. apply NoDup_cons in Hnd as [Hni Hnd].
  constructor; [by apply IH|]. rewrite Forall_forall in *. intros x Hx.
  destruct (cmp_le_lt_or_eq a x (Ha x Hx)) as [| ->]; [done|done].
Qed.

Lemma sorted_keys_unique s (l : list Key) :
  StronglySorted cmp_lt l → (∀ k, k ∈ l ↔ k ∈ s) → l = sorted_keys s.
Proof using.
  intros Hl Heq. apply sorted_ext; [done|apply sorted_sorted_keys|]. intros k. by rewrite Heq, elem_of_sorted_keys.
Qed.

(** ** Ranges *)

Lemma after_start_intersect a b k :
  after_start (intersect_start a b) k = after_start a k && after_start b k.
Proof using.
  apply eq_bool_prop_intro. rewrite andb_True.
  destruct a as [a|a|], b as [b|b|]; cbn; rewrite ?bool_decide_spec; try tauto.
  - unfold key_max. case_decide as Hd; split; try tauto.
    + intros Hk. split; [by etrans|done].
    + intros Hk. split; [done|]. etrans; [|exact Hk]. by apply cmp_lt_le, cmp_lt_not_le.
  - case_decide as Hd; cbn; rewrite bool_decide_spec; split; try tauto.
    + intros Hk. split; [done|]. by eapply cmp_lt_le_trans.
    + intros Hk. split; [|done]. destruct (cmp_lt_or_le b a) as [|Hle]; [done|].
      etrans; [exact Hle|]. by apply cmp_lt_le.
  - case_decide as Hd; cbn; rewrite bool_decide_spec; split; try tauto.
    + intros Hk. split; [by eapply cmp_lt_le_trans|done].
    + intros Hk. split; [done|]. destruct (cmp_lt_or_le a b) as [|Hle]; [done|].
      etrans; [exact Hle|]. by apply cmp_lt_le.
  - unfold key_max. case_decide as Hd; split; try tauto.
    + intros Hk. split; [by eapply cmp_le_lt_trans|done].
    + intros Hk. split; [done|]. eapply cmp_lt_trans; [|exact Hk]. by apply cmp_lt_not_le.
Qed.

Lemma before_end_intersect a b k :
  before_end (intersect_end a b) k = before_end a k && before_end b k.
Proof using.
  apply eq_bool_prop_intro. rewrite andb_True.
  destruct a as [a|a|], b as [b|b|]; cbn; rewrite ?bool_decide_spec; try tauto.
  - unfold key_min. case_decide as Hd; split; try tauto.
    + intros Hk. split; [done|by etrans].
    + intros Hk. split; [|done]. etrans; [exact Hk|]. by apply cmp_lt_le, cmp_lt_not_le.
  - case_decide as Hd; cbn; rewrite bool_decide_spec; split; try tauto.
    + intros Hk. split; [done|]. by eapply cmp_le_lt_trans.
    + intros Hk. split; [|done]. destruct (cmp_lt_or_le a b) as [|Hle]; [done|].
      etrans; [|exact Hle]. by apply cmp_lt_le.
  - case_decide as Hd; cbn; rewrite bool_decide_spec; split; try tauto.
    + intros Hk. split; [by eapply cmp_le_lt_trans|done].
    + intros Hk. split; [done|]. destruct (cmp_lt_or_le b a) as [|Hle]; [done|].
      etrans; [|exact Hle]. by apply cmp_lt_le.
  - unfold key_min. case_decide as Hd; split; try tauto.
    + intros Hk. split; [done|by eapply cmp_lt_le_trans].
    + intros Hk. split; [|done]. eapply cmp_lt_trans; [exact Hk|]. by apply cmp_lt_not_le.
Qed.

(** The intersection holds the keys of both ranges; it is [None] only if there is
    none. *)
Lemma range_intersection_spec r1 r2 k :
  in_range r1 k && in_range r2 k
  = match range_intersection r1 r2 with Some r => in_range r k | None => false end.
Proof using.
  transitivity (in_range (intersect_start r1.1 r2.1, intersect_end r1.2 r2.2) k).
  { unfold in_range. cbn. rewrite after_start_intersect, before_end_intersect.
    destruct (after_start r1.1 k), (before_end r1.2 k), (after_start r2.1 k); done. }
  unfold range_intersection.
  destruct (intersect_start r1.1 r2.1) as [a|a|], (intersect_end r1.2 r2.2) as [b|b|];
    try done; case_decide as Hd; try done; unfold in_range; cbn;
    apply not_true_iff_false; rewrite andb_true_iff, !bool_decide_eq_true; intros [H1 H2].
  - apply (cmp_lt_irrefl a). eapply cmp_le_lt_trans; [exact H1|]. by eapply cmp_le_lt_trans.
  - apply (cmp_lt_irrefl k). eapply cmp_lt_le_trans; [exact H2|]. by etrans.
  - apply (cmp_lt_irrefl k). eapply cmp_le_lt_trans; [exact H2|]. by eapply cmp_le_lt_trans.
  - apply (cmp_lt_irrefl k). eapply cmp_lt_le_trans; [exact H2|]. etrans; [exact Hd|]. by apply cmp_lt_le.
Qed.

(** ** Prefixes *)

Definition is_bytes k : Prop := Forall (λ b, b < 256) k.

(** The bytes that can not be increased end a prefix. *)
Lemma split_max p :
  is_bytes p → (∃ q v m, p = q ++ v :: replicate m 255 ∧ v < 255) ∨ p = replicate (length p) 255.
Proof using.
  induction 1 as [|x p Hx Hp IH]; [by right|]. destruct IH as [(q & v & m & -> & Hv)|IH].
  - left. by exists (x :: q), v, m.
  - destruct (decide (x < 255)) as [Hlt|Hge].
    + left. exists [], x, (length p). by rewrite <- IH.
    + right. cbn. rewrite <- IH. f_equal. lia.
Qed.

Lemma omap_imap_max m i :
  omap (λ '(i, v), if v <? 255 then Some (S i) else None) (rev (imap (λ j v, (i + j, v)%nat) (replicate m 255)))
  = [].
Proof using.
  revert i. induction m as [|m IH]; intros i; [done|]. cbn.
  rewrite omap_app. cbn. rewrite app_nil_r.
  etrans; [|apply (IH (S i))]. do 2 f_equal. apply imap_ext. intros j v _. cbn. f_equal. lia.
Qed.
Lemma n_keep_max m : n_keep (replicate m 255) = 0%nat.
Proof using. unfold n_keep. change (@pair nat N) with (λ j (v : N), (0 + j, v)%nat). by rewrite omap_imap_max. Qed.
Lemma n_keep_split q v m : v < 255 → n_keep (q ++ v :: replicate m 255) = S (length q).
Proof using.
  intros Hv. unfold n_keep. rewrite imap_app. cbn. rewrite rev_app_distr. cbn. rewrite !omap_app.
  pose proof (omap_imap_max m (length q + 1)) as Hm.
  erewrite (imap_ext _ (λ j v, (length q + 1 + j, v)%nat)), Hm.
  - cbn. rewrite (proj2 (N.ltb_lt v 255) Hv). cbn. lia.
  - intros j w _. cbn. f_equal. lia.
Qed.

Lemma increase_last_snoc q v : increase_last (q ++ [v]) = q ++ [v + 1].
Proof using. unfold increase_last. rewrite rev_app_distr. cbn. by rewrite rev_involutive. Qed.

Lemma prefix_end_split q v m :
  v < 255 → increase_last (take (n_keep (q ++ v :: replicate m 255)) (q ++ v :: replicate m 255)) = q ++ [v + 1].
Proof using.
  intros Hv. rewrite n_keep_split by done. rewrite (cons_middle v q).
  rewrite (assoc_L (++)), take_app_length' by (rewrite length_app; cbn; lia). apply increase_last_snoc.
Qed.

Lemma cmp_le_cons (a b : N) k k' : cmp_le (a :: k) (b :: k') ↔ a < b ∨ a = b ∧ cmp_le k k'.
Proof using.
  unfold cmp_le at 1, cmp, list_ord. cbn -[N.compare]. change (cmp a b) with (N.compare a b).
  destruct (N.compare_spec a b); fold (cmp k k'); unfold cmp_le; naive_solver lia.
Qed.
Lemma cmp_lt_cons (a b : N) k k' : cmp_lt (a :: k) (b :: k') ↔ a < b ∨ a = b ∧ cmp_lt k k'.
Proof using.
  unfold cmp_lt at 1, cmp, list_ord. cbn -[N.compare]. change (cmp a b) with (N.compare a b).
  destruct (N.compare_spec a b); fold (cmp k k'); unfold cmp_lt; naive_solver lia.
Qed.

Lemma cmp_le_max m k : is_bytes k → cmp_le (replicate m 255) k ↔ replicate m 255 `prefix_of` k.
Proof using.
  intros Hk. revert m. induction Hk as [|b k Hb Hk IH]; intros [|m]; cbn [replicate].
  - split; [intros _; apply prefix_nil|done].
  - split; [done|]. intros Hp%prefix_nil_inv. done.
  - split; [intros _; apply prefix_nil|done].
  - rewrite cmp_le_cons, IH. split.
    + intros [Hlt|[<- Hp]]; [lia|by apply prefix_cons].
    + intros Hp. right. split; [by eapply prefix_cons_inv_1|by eapply prefix_cons_inv_2].
Qed.

Lemma prefix_range q v m k :
  is_bytes k → v < 255 →
  cmp_le (q ++ v :: replicate m 255) k ∧ cmp_lt k (q ++ [v + 1])
  ↔ (q ++ v :: replicate m 255) `prefix_of` k.
Proof using.
  intros Hk Hv. revert k Hk. induction q as [|x q IH]; intros [|b k] Hk; cbn [app].
  1,3: split; [by intros [? _]|by intros ?%prefix_nil_inv].
  - apply Forall_cons in Hk as [Hb Hk]. rewrite cmp_le_cons, cmp_lt_cons, cmp_le_max by done. split.
    + intros [H1 H2]. destruct H2 as [H2|[_ H2]]; [|by destruct k].
      assert (v = b) as <- by lia. destruct H1 as [|[_ H1]]; [lia|by apply prefix_cons].
    + intros Hp. pose proof (prefix_cons_inv_1 _ _ _ _ Hp) as <-. apply prefix_cons_inv_2 in Hp.
      split; [by right|left; lia].
  - apply Forall_cons in Hk as [Hb Hk]. rewrite cmp_le_cons, cmp_lt_cons. split.
    + intros [H1 H2]. assert (x = b) as <- by lia. apply prefix_cons, (IH k Hk).
      split; [destruct H1 as [|[_ H1]]|destruct H2 as [|[_ H2]]]; by try lia.
    + intros Hp. pose proof (prefix_cons_inv_1 _ _ _ _ Hp) as <-. apply prefix_cons_inv_2, (IH k Hk) in Hp.
      destruct Hp as [H1 H2]. split; right; done.
Qed.

(** The range of a prefix holds the keys that have the prefix. *)
Lemma get_prefix_bounds_spec p k :
  is_bytes p → is_bytes k → in_range (get_prefix_bounds p) k = true ↔ p `prefix_of` k.
Proof using.
  intros Hp Hk. unfold get_prefix_bounds. case_decide as Hnil.
  { subst p. split; [intros _; apply prefix_nil|done]. }
  destruct (split_max p Hp) as [(q & v & m & -> & Hv)|Heq].
  - rewrite prefix_end_split by done. cbn zeta. rewrite decide_False by (by destruct q).
    unfold in_range. cbn. rewrite andb_true_iff, !bool_decide_eq_true. by apply prefix_range.
  - rewrite Heq, n_keep_max. cbn. rewrite decide_True by done. unfold in_range. cbn.
    rewrite andb_true_r, bool_decide_eq_true. by apply cmp_le_max.
Qed.

(** ** Queries from outside *)

(** A key that is not longer than the truncation of another compares to both alike. *)
Lemma cmp_truncate n k long :
  (length k <= n)%nat → (n < length long)%nat →
  (cmp_lt long k ↔ cmp_lt (take n long) k) ∧ (cmp_le long k ↔ cmp_lt (take n long) k).
Proof using.
  revert n long. induction k as [|b k IH]; intros n [|a long] Hk Hl; cbn in *; [lia| |lia|].
  - destruct n; split; split; intros H; exfalso; unfold cmp_lt, cmp_le in H; cbn in H; done.
  - destruct n as [|n]; [lia|]. cbn. rewrite !cmp_lt_cons, cmp_le_cons.
    destruct (IH n long) as [-> ->]; [lia..|done].
Qed.

Lemma clean_start_spec max b k :
  (length k <= N.to_nat max)%nat → after_start (clean_start max b) k = after_start b k.
Proof using.
  intros Hk. destruct b as [a|a|]; cbn; [| |done]; unfold is_too_long.
  - destruct (N.ltb_spec max (N.of_nat (length a))); [|done]. cbn.
    destruct (cmp_truncate (N.to_nat max) k a) as [_ H2]; [lia..|]. by apply bool_decide_ext.
  - destruct (decide (length a <= N.to_nat max)%nat); [by rewrite take_ge|].
    destruct (cmp_truncate (N.to_nat max) k a) as [H1 _]; [lia..|]. by apply bool_decide_ext.
Qed.
Lemma clean_end_spec max b k :
  (length k <= N.to_nat max)%nat → before_end (clean_end max b) k = before_end b k.
Proof using.
  intros Hk. assert (∀ x y : Key, cmp_le x y ↔ ¬ cmp_lt y x) as Hle.
  { intros x y. rewrite cmp_lt_not_le. split; [tauto|]. apply dec_stable. }
  destruct b as [a|a|]; cbn; [| |done]; unfold is_too_long.
  - destruct (decide (length a <= N.to_nat max)%nat); [by rewrite take_ge|].
    destruct (cmp_truncate (N.to_nat max) k a) as [H1 _]; [lia..|]. apply bool_decide_ext. by rewrite !Hle, H1.
  - destruct (N.ltb_spec max (N.of_nat (length a))); [|done]. cbn.
    destruct (cmp_truncate (N.to_nat max) k a) as [_ H2]; [lia..|]. apply bool_decide_ext.
    by rewrite Hle, <- H2, cmp_lt_not_le.
Qed.

(** Cleaning a query does not change the keys it selects. *)
Lemma cleanup_query_spec prefix lo hi count max cfg prefix' lo' hi' count' k :
  cleanup_datastore_key_range_query prefix lo hi count max cfg = Ok (prefix', lo', hi', count') →
  (length k <= N.to_nat max)%nat →
  (prefix' `prefix_of` k ∧ in_range (lo', hi') k = true ↔ prefix `prefix_of` k ∧ in_range (lo, hi) k = true)
  ∧ count' = match count with Some _ => count | None => cfg end
  ∧ ∀ n m, count' = Some n → cfg = Some m → n ≤ m.
Proof using.
  unfold cleanup_datastore_key_range_query. intros Hq Hk.
  set (cnt := match count with Some _ => count | None => cfg end) in *.
  destruct (match cnt, cfg with Some cnt, Some max_cnt => max_cnt <? cnt | _, _ => false end) eqn:Hc; [done|].
  assert (∀ n m, cnt = Some n → cfg = Some m → n ≤ m) as Hcnt.
  { intros n m Hn Hm. rewrite Hn, Hm in Hc. by apply N.ltb_ge in Hc. }
  destruct (is_too_long max prefix) eqn:Hl; simplify_eq; (split; [|done]).
  - apply N.ltb_lt in Hl. split.
    + intros [_ Hr]. unfold in_range in Hr. cbn in Hr. rewrite andb_true_iff, !bool_decide_eq_true in Hr.
      destruct Hr as [_ Hr]. by destruct k.
    + intros [Hp%prefix_length _]. lia.
  - unfold in_range. cbn. by rewrite clean_start_spec, clean_end_spec.
Qed.
End keys.

(** ** Entries in order *)

Section entries.
Context {A : Type}.
Local Notation Key := (list N) (only parsing).
Implicit Types (d : gmap Key A).

Lemma fst_sorted_entries d : (sorted_entries d).*1 = sorted_keys (dom d).
Proof using.
  unfold sorted_entries.
  assert (∀ l, (∀ k, k ∈ l → k ∈ dom d) → (omap (λ k, pair k <$> d !! k) l).*1 = l) as Hl.
  { induction l as [|k l IH]; intros Hin; [done|]. cbn.
    destruct (proj1 (elem_of_dom d k) (Hin k ltac:(left))) as [x ->]. cbn. f_equal. apply IH.
    intros k' Hk'. apply Hin. by right. }
  apply Hl. intros k. by rewrite elem_of_sorted_keys.
Qed.
Lemma elem_of_sorted_entries d k x : (k, x) ∈ sorted_entries d ↔ d !! k = Some x.
Proof using.
  unfold sorted_entries. rewrite list_elem_of_omap. split.
  - intros (k' & _ & Heq). apply fmap_Some in Heq as (y & Hy & [= -> ->]). done.
  - intros Hk. exists k. rewrite elem_of_sorted_keys, Hk. split; [by eapply elem_of_dom_2|done].
Qed.
Lemma sorted_entries_sorted d : StronglySorted cmp_lt (sorted_entries d).*1.
Proof using. rewrite fst_sorted_entries. apply sorted_sorted_keys. Qed.
Lemma sorted_entries_empty : sorted_entries (∅ : gmap Key A) = [].
Proof using. unfold sorted_entries. by rewrite dom_empty_L. Qed.
End entries.

(** ** Loops over entries with distinct keys *)

(** What is read of the state at a key after a loop depends on the entry of that key
    only. *)
Lemma foldl_reads_list {S K W R : Type} `{EqDecision K} (f : S → K * W → S) (read : S → R)
    (g : R → W → R) (k : K) :
  (∀ s kw, read (f s kw) = if decide (k = kw.1) then g (read s) kw.2 else read s) →
  ∀ l s, NoDup l.*1 →
    (∀ w, (k, w) ∈ l → read (foldl f s l) = g (read s) w)
    ∧ (k ∉ l.*1 → read (foldl f s l) = read s).
Proof.
  intros Hf l. induction l as [|[k' w'] l IH]; intros m Hnd; cbn [foldl].
  { split; [by intros w ?%elem_of_nil|done]. }
  apply NoDup_cons in Hnd as [Hni Hnd]. destruct (IH (f m (k', w')) Hnd) as [IH1 IH2]. split.
  - intros w [[= -> ->]|Hw]%elem_of_cons.
    + rewrite IH2 by done. rewrite Hf. by rewrite decide_True.
    + rewrite (IH1 w Hw), Hf, decide_False; [done|]. intros ->. apply Hni.
      by apply (list_elem_of_fmap_2' fst l (k', w)).
  - intros Hk. cbn in Hk. rewrite IH2 by (intros ?; apply Hk; by right).
    rewrite Hf, decide_False; [done|]. intros ->. apply Hk. by left.
Qed.
