(* ===== verification/Wire.v ===== *)
(** * Serializers and deserializers

    [massa-serialization/src/lib.rs] and [massa-models/src/serialization.rs]: the
    serializers of numbers, options, ratios, byte strings, sequences, texts and
    addresses of machines, from which the formats of all messages are built.

    A serializer appends to a buffer or fails; here it returns what it appends.  A
    deserializer is a parser of the crate [nom]: it returns a value and the rest of
    the input, or an error.  Nothing reads what an error says, so it is [None].  The
    combinators of [nom] that the code uses are written out.

    Numbers have the variable-length format of the crate [unsigned-varint], which
    is the class [Varint]; sequences of bits are those of the crate [bitvec], the class
    [BitVecs].  A [String] is its UTF-8 bytes. *)

From S2P Require Import Prelude Slots OrdMap Keys.

Open Scope N_scope.

Notation Bytes := (list N) (only parsing).

Inductive SerializeError : Type :=
  | NumberTooBig (what : string)
  | SerializeGeneralError (what : string)
  | StringTooBig (what : string).

Definition Serializer (A : Type) : Type := A → outcome SerializeError Bytes.
Definition Parser (A : Type) : Type := Bytes → option (A * Bytes).

(** ** Combinators *)

Definition pmap {A B} (f : A → B) (p : Parser A) : Parser B := λ input,
  '(x, rest) ← p input; Some (f x, rest).
Definition map_opt {A B} (f : A → option B) (p : Parser A) : Parser B := λ input,
  '(x, rest) ← p input; y ← f x; Some (y, rest).
Definition alt {A} (p q : Parser A) : Parser A := λ input,
  match p input with Some r => Some r | None => q input end.
Definition take_bytes (n : N) : Parser Bytes := λ input,
  if n <=? N.of_nat (length input) then Some (take (N.to_nat n) input, drop (N.to_nat n) input) else None.
Definition take_byte : Parser N := λ input, match input with [] => None | b :: rest => Some (b, rest) end.
(** [tag] of one byte *)
Definition tag (b : N) : Parser N := λ input,
  match input with [] => None | b' :: rest => if b' =? b then Some (b, rest) else None end.
Definition preceded {A B} (p : Parser A) (q : Parser B) : Parser B := λ input,
  '(_, rest) ← p input; q rest.
Definition pair_of {A B} (p : Parser A) (q : Parser B) : Parser (A * B) := λ input,
  '(x, rest) ← p input; '(y, rest) ← q rest; Some ((x, y), rest).
Definition length_data (p : Parser N) : Parser Bytes := λ input,
  '(n, rest) ← p input; take_bytes n rest.
Fixpoint count {A} (n : nat) (p : Parser A) : Parser (list A) := λ input,
  match n with
  | O => Some ([], input)
  | S n => '(x, rest) ← p input; '(l, rest) ← count n p rest; Some (x :: l, rest)
  end.
Definition length_count {A} (p : Parser N) (q : Parser A) : Parser (list A) := λ input,
  '(n, rest) ← p input; count (N.to_nat n) q rest.

(** What is appended by calls one after the other, up to the first that fails. *)
Definition write_seq : list (outcome SerializeError Bytes) → outcome SerializeError Bytes :=
  foldr (λ m acc, b ← m; bs ← acc; Ok (b ++ bs)) (Ok []).

(** ** Numbers *)

Inductive uint : Type := U16 | U32 | U64 | U128.
Definition uint_max (t : uint) : N :=
  match t with
  | U16 => 65535
  | U32 => u32_max
  | U64 => u64_max
  | U128 => 340282366920938463463374607431768211455
  end.

(** [unsigned_varint::encode] and [unsigned_varint::nom] *)
Class Varint : Type := {
  varint_encode : uint → N → Bytes;
  varint_nom : uint → Parser N }.

(** [into_vec] and [try_from_vec] of a [BitVec<u8>] of the crate [bitvec] *)
Class BitVecs : Type := {
  bits_into_vec : list bool → Bytes;
  bits_of_vec : Bytes → list bool }.

Section serializers.
Context `{!Varint}.

Definition VarIntSerializer (t : uint) : Serializer N := λ value, Ok (varint_encode t value).
Definition VarIntDeserializer (t : uint) (range : Bound N * Bound N) : Parser N := λ input,
  '(value, rest) ← varint_nom t input;
  if in_range range value then Some (value, rest) else None.

(** ** Options, truth values and ratios *)

Definition OptionSerializer {T} (data_serializer : Serializer T) : Serializer (option T) := λ opt_value,
  match opt_value with
  | Some value => write_seq [Ok [49]; data_serializer value]
  | None => Ok [48]
  end.
Definition OptionDeserializer {T} (data_deserializer : Parser T) : Parser (option T) :=
  alt (pmap (λ _, None) (tag 48)) (preceded (tag 49) (pmap Some data_deserializer)).

Definition BoolSerializer : Serializer bool := λ value, Ok [if (value : bool) then 1 else 0].
Definition BoolDeserializer : Parser bool := λ input,
  match input with
  | [] => None
  | first :: rest => if first =? 1 then Some (true, rest) else if first =? 0 then Some (false, rest) else None
  end.

(** A [Ratio] is its reduced numerator and denominator. *)
Definition ratio_new (numer denom : N) : N * N := (numer / N.gcd numer denom, denom / N.gcd numer denom).
Definition RatioSerializer (data_serializer : Serializer N) : Serializer (N * N) := λ value,
  write_seq [data_serializer value.1; data_serializer value.2].
Definition RatioDeserializer (data_deserializer : Parser N) : Parser (N * N) :=
  map_opt (λ '(numer, denom), if denom =? 0 then None else Some (ratio_new numer denom))
    (pair_of data_deserializer data_deserializer).

(** ** Sequences *)

Definition VecU8Serializer : Serializer Bytes := λ value,
  let len := N.of_nat (length value) in
  if len <=? u64_max then write_seq [VarIntSerializer U64 len; Ok value]
  else Err (NumberTooBig "too many entries data in VecU8").
Definition VecU8Deserializer (range : Bound N * Bound N) : Parser Bytes :=
  length_data (VarIntDeserializer U64 range).

Definition VecSerializer {T} (data_serializer : Serializer T) : Serializer (list T) := λ value,
  write_seq (VarIntSerializer U64 (N.of_nat (length value)) :: (data_serializer <$> value)).
Definition VecDeserializer {T} (data_deserializer : Parser T) (range : Bound N * Bound N) : Parser (list T) :=
  length_count (VarIntDeserializer U64 range) data_deserializer.

(** A [PreHashSet] is written in the order of its iteration. *)
Definition PreHashSetSerializer {T} `{Countable T} `{!SetIter T} (data_serializer : Serializer T)
    : Serializer (gset T) := λ value,
  write_seq (VarIntSerializer U64 (N.of_nat (size value)) :: (data_serializer <$> set_iter value)).
Definition PreHashSetDeserializer {T} `{Countable T} (data_deserializer : Parser T) (range : Bound N * Bound N)
    : Parser (gset T) :=
  pmap list_to_set (length_count (VarIntDeserializer U64 range) data_deserializer).

(** ** Texts *)

(** [String::from_utf8] accepts the well-formed sequences of the Unicode standard. *)
Definition continuation (b : N) : bool := (128 <=? b) && (b <=? 191).
Fixpoint is_utf8 (s : Bytes) : bool :=
  match s with
  | [] => true
  | a :: s1 =>
      if a <=? 127 then is_utf8 s1
      else match s1 with
      | [] => false
      | b :: s2 =>
          if (194 <=? a) && (a <=? 223) then continuation b && is_utf8 s2
          else match s2 with
          | [] => false
          | c :: s3 =>
              if (224 <=? a) && (a <=? 239) then
                continuation b && ((224 <? a) || (160 <=? b)) && (negb (a =? 237) || (b <=? 159))
                && continuation c && is_utf8 s3
              else match s3 with
              | [] => false
              | d :: s4 =>
                  (240 <=? a) && (a <=? 244)
                  && continuation b && ((240 <? a) || (144 <=? b)) && ((a <? 244) || (b <=? 143))
                  && continuation c && continuation d && is_utf8 s4
              end
          end
      end
  end.

(** The length has a type with [max] as its maximum. *)
Definition StringSerializer (max : N) (length_serializer : Serializer N) : Serializer Bytes := λ value,
  let len := N.of_nat (length value) in
  if len <=? max then write_seq [length_serializer len; Ok value]
  else Err (StringTooBig "The string is too big to be serialized").
Definition StringDeserializer (length_deserializer : Parser N) : Parser Bytes :=
  map_opt (λ data, if is_utf8 data then Some data else None) (length_data length_deserializer).

(** ** Sequences of bits *)

Context `{!BitVecs}.

Definition BitVecSerializer : Serializer (list bool) := λ value,
  let n_entries := N.of_nat (length value) in
  if n_entries <=? u32_max then
    write_seq [VarIntSerializer U32 n_entries; Ok (bits_into_vec value)]
  else Err (NumberTooBig "too many entries when serializing a `BitVec<u8>`").
Definition BitVecDeserializer : Parser (list bool) := λ input,
  '(n_entries, rest) ← VarIntDeserializer U32 (Included 0, Included u32_max) input;
  let bits_u8_len := (n_entries + 7) / 8 in
  if N.of_nat (length rest) <? bits_u8_len then None
  else
    let rng_seed := take (N.to_nat n_entries) (bits_of_vec (take (N.to_nat bits_u8_len) rest)) in
    if N.of_nat (length rng_seed) =? n_entries then Some (rng_seed, drop (N.to_nat bits_u8_len) rest) else None.

(** ** Addresses of machines *)

(** The octets of the address. *)
Inductive IpAddr : Type := V4 (octets : Bytes) | V6 (octets : Bytes).

Definition IpAddrSerializer : Serializer IpAddr := λ value,
  match value with
  | V4 octets => write_seq [Ok [4]; Ok octets]
  | V6 octets => write_seq [Ok [6]; Ok octets]
  end.
Definition IpAddrDeserializer : Parser IpAddr :=
  alt (preceded (tag 4) (pmap V4 (take_bytes 4))) (preceded (tag 6) (pmap V6 (take_bytes 16))).

(** ** Numbers of few bytes *)

(** [to_be_bytes_min] and [from_be_bytes_min] of a number of [size] bytes: the bytes that
    [max_value] needs. *)
Definition leading_zeros (size : nat) (n : N) : N := 8 * N.of_nat size - N.size n.
Definition be_bytes_min_length (size : nat) (max_value : N) : nat := size - N.to_nat (leading_zeros size max_value / 8).
Definition to_be_bytes_min (size : nat) (self max_value : N) : outcome ModelsError Bytes :=
  if max_value <? self then Err (ModelsSerializeError "integer out of bounds")
  else Ok (drop (N.to_nat (leading_zeros size max_value / 8)) (to_be_bytes size self)).
Definition from_be_bytes_min (size : nat) (buffer : Bytes) (max_value : N) : outcome ModelsError (N * nat) :=
  let read_bytes := be_bytes_min_length size max_value in
  if (length buffer <? read_bytes)%nat then Err (ModelsSerializeError "unexpected buffer END")
  else
    let res := from_be_bytes (replicate (size - read_bytes) 0 ++ take read_bytes buffer) in
    if max_value <? res then Err (ModelsSerializeError "integer outside of bounds") else Ok (res, read_bytes).
End serializers.

Arguments VarIntSerializer : simpl never.
Arguments VarIntDeserializer : simpl never.
Arguments OptionSerializer : simpl never.
Arguments OptionDeserializer : simpl never.
Arguments BoolSerializer : simpl never.
Arguments BoolDeserializer : simpl never.
Arguments RatioSerializer : simpl never.
Arguments RatioDeserializer : simpl never.
Arguments VecU8Serializer : simpl never.
Arguments VecU8Deserializer : simpl never.
Arguments VecSerializer : simpl never.
Arguments VecDeserializer : simpl never.
Arguments PreHashSetSerializer : simpl never.
Arguments PreHashSetDeserializer : simpl never.
Arguments StringSerializer : simpl never.
Arguments StringDeserializer : simpl never.
Arguments BitVecSerializer : simpl never.
Arguments BitVecDeserializer : simpl never.
Arguments IpAddrSerializer : simpl never.
Arguments IpAddrDeserializer : simpl never.
#[global] Typeclasses Opaque
  VarIntSerializer VarIntDeserializer OptionSerializer OptionDeserializer BoolSerializer
  BoolDeserializer RatioSerializer RatioDeserializer VecU8Serializer VecU8Deserializer VecSerializer
  VecDeserializer PreHashSetSerializer PreHashSetDeserializer StringSerializer StringDeserializer
  BitVecSerializer BitVecDeserializer IpAddrSerializer IpAddrDeserializer.
