(* ===== verification/WireFacts.v ===== *)
(** * What is written is read back

    [Wire S D P]: the serializer [S] writes every value of [P] so that the
    deserializer [D] reads it back and leaves what follows, and [D] returns only values
    of [P], which depend only on what it reads.  [Canonical S D]: what [D] reads is what [S] writes, so that a value has
    one representation. *)

From S2P Require Import Prelude Slots OrdMap Keys KeyFacts Wire.

Open Scope N_scope.

(** What the documentation of [unsigned-varint] says: seven bits of the number per byte,
    the others zero when they are the last; numbers of the type are read back, and an
    encoding that is not minimal is an error. *)
Class VarintLaws `{!Varint} : Prop := {
  varint_bytes : ∀ t n, n ≤ uint_max t → is_bytes (varint_encode t n);
  varint_length : ∀ t n, n ≤ uint_max t → N.of_nat (length (varint_encode t n)) = N.max 1 ((N.size n + 6) / 7);
  varint_small : ∀ t n, n < 128 → varint_encode t n = [n];
  varint_read : ∀ t n rest, n ≤ uint_max t → varint_nom t (varint_encode t n ++ rest) = Some (n, rest);
  varint_minimal : ∀ t i n rest, is_bytes i → varint_nom t i = Some (n, rest) →
    n ≤ uint_max t ∧ i = varint_encode t n ++ rest }.

(** [D] reads a value at the beginning of [i], whatever follows. *)
Definition reads {A} (D : Parser A) (i : Bytes) (x : A) (rest : Bytes) : Prop :=
  ∃ b, i = b ++ rest ∧ ∀ rest', D (b ++ rest') = Some (x, rest').

Class Wire {A} (S : Serializer A) (D : Parser A) (P : A → Prop) : Prop := {
  wire_read : ∀ x, P x → ∃ b, S x = Ok b ∧ is_bytes b ∧ ∀ rest, D (b ++ rest) = Some (x, rest);
  wire_valid : ∀ i x rest, is_bytes i → D i = Some (x, rest) → P x ∧ reads D i x rest }.
Arguments wire_read {_} S D P {_}.
Arguments wire_valid {_} S D P {_}.

Class Canonical {A} (S : Serializer A) (D : Parser A) : Prop :=
  canonical : ∀ i x rest, is_bytes i → D i = Some (x, rest) → ∃ b, S x = Ok b ∧ i = b ++ rest.

(** ** Rules *)

Lemma in_range_included (a b n : N) : in_range (Included a, Included b) n = true ↔ a ≤ n ∧ n ≤ b.
Proof. unfold in_range. cbn. rewrite andb_true_iff, !bool_decide_eq_true. unfold cmp_le, cmp, N_ord. by rewrite <-!N.compare_le_iff. Qed.
Lemma in_range_excluded (a b n : N) : in_range (Included a, Excluded b) n = true ↔ a ≤ n ∧ n < b.
Proof.
  unfold in_range. cbn. rewrite andb_true_iff, !bool_decide_eq_true. unfold cmp_le, cmp_lt, cmp, N_ord.
  by rewrite <-N.compare_le_iff, N.compare_lt_iff.
Qed.

Lemma is_bytes_app a b : is_bytes (a ++ b) ↔ is_bytes a ∧ is_bytes b.
Proof. apply Forall_app. Qed.
Lemma is_bytes_cons x b : is_bytes (x :: b) ↔ x < 256 ∧ is_bytes b.
Proof. unfold is_bytes. by rewrite Forall_cons. Qed.
Lemma is_bytes_nil : is_bytes [].
Proof. constructor. Qed.
#[export] Hint Resolve is_bytes_nil : core.
Lemma is_bytes_take n b : is_bytes b → is_bytes (take n b).
Proof. apply Forall_take. Qed.

(** Replaces the next serializer by what it writes, from a reading lemma [H]. *)
Ltac wire_write H :=
  let b := fresh "b" in let HS := fresh "HS" in let Hb := fresh "Hb" in let HD := fresh "HD" in
  destruct H as (b & HS & Hb & HD); rewrite HS; cbn [mbind outcome_bind].
(** The end of a sequence: what was written is read back. *)
Ltac wire_reads :=
  eexists; split; [reflexivity|]; split;
  [rewrite ?app_nil_r, ?is_bytes_app, ?is_bytes_cons, ?is_bytes_app; split_and?; auto using is_bytes_nil; try done; try lia
  |let rest := fresh "rest" in intros rest; rewrite ?app_nil_r, <-?app_assoc].

Lemma bind_pair_Some {A B C} (m : option (A * B)) (f : A → B → option C) c :
  ('(x, r) ← m; f x r) = Some c ↔ ∃ x r, m = Some (x, r) ∧ f x r = Some c.
Proof. destruct m as [[x r]|]; cbn; naive_solver. Qed.

(** Decomposes a successful parse. *)
Ltac parse_inv H :=
  first
    [ match type of H with
      | (Some _ ≫= _) = Some _ => progress cbn [mbind option_bind] in H; parse_inv H
      | (None ≫= _) = Some _ => discriminate H
      end
    | match type of H with (_ ≫= _) = Some _ => apply bind_pair_Some in H as (? & ? & ? & H); parse_inv H end
    | match type of H with
      | Some _ = Some _ => injection H; clear H; intros; simplify_eq
      | None = Some _ => discriminate H
      | context [match ?x with _ => _ end] => destruct x eqn:?; parse_inv H
      | _ => idtac
      end ].

Lemma wire_ext {A} (S : Serializer A) (D : Parser A) (P Q : A → Prop) :
  (∀ x, P x ↔ Q x) → Wire S D P → Wire S D Q.
Proof. intros HPQ [Hr Hv]. split; [intros x ?%HPQ; auto|]. intros i x rest Hi Hx. rewrite <- HPQ. eauto. Qed.

Lemma wire_eq {A} (S S' : Serializer A) (D : Parser A) (P : A → Prop) :
  (∀ x, S' x = S x) → Wire S D P → Wire S' D P.
Proof. intros HS [Hr Hv]. split; [|done]. intros x Hx. rewrite HS. auto. Qed.
Lemma canonical_eq {A} (S S' : Serializer A) (D : Parser A) :
  (∀ x, S' x = S x) → Canonical S D → Canonical S' D.
Proof. intros HS HC i x rest Hi Hx. rewrite HS. eauto. Qed.

(** A canonical format depends only on what it reads. *)
Lemma wire_of_canonical {A} (S : Serializer A) (D : Parser A) (P : A → Prop) :
  Canonical S D →
  (∀ x, P x → ∃ b, S x = Ok b ∧ is_bytes b ∧ ∀ rest, D (b ++ rest) = Some (x, rest)) →
  (∀ i x rest, is_bytes i → D i = Some (x, rest) → P x) → Wire S D P.
Proof.
  intros HC Hr Hv. split; [done|]. intros i x rest Hi Hx. pose proof (Hv _ _ _ Hi Hx) as HP. split; [done|].
  destruct (HC _ _ _ Hi Hx) as (b & HS & ->). destruct (Hr x HP) as (b' & HS' & _ & HD).
  rewrite HS in HS'. injection HS' as <-. by exists b.
Qed.

(** A format through a conversion. *)
Lemma wire_map {A B} (S : Serializer A) (D : Parser A) (P : A → Prop) (f : A → B) (g : B → A) (Q : B → Prop) :
  Wire S D P → (∀ y, Q y → P (g y) ∧ f (g y) = y) → (∀ x, P x → Q (f x)) →
  Wire (λ y, S (g y)) (pmap f D) Q.
Proof.
  intros [Hr Hv] HQ HP. split.
  - intros y [Hy Hfg]%HQ. destruct (Hr _ Hy) as (b & HS & Hb & HD). exists b. split; [done|]. split; [done|].
    intros rest. unfold pmap. rewrite HD. cbn. by rewrite Hfg.
  - unfold pmap. intros i y rest Hi Hy. parse_inv Hy. edestruct Hv as (? & b & -> & HD); [done..|].
    split; [auto|]. exists b. split; [done|]. intros rest'. by rewrite HD.
Qed.
Lemma canonical_map {A B} (S : Serializer A) (D : Parser A) (P : A → Prop) (f : A → B) (g : B → A) :
  Wire S D P → Canonical S D → (∀ x, P x → g (f x) = x) → Canonical (λ y, S (g y)) (pmap f D).
Proof.
  intros [_ Hv] Hc Hgf i y rest Hi Hy. unfold pmap in Hy. parse_inv Hy.
  rewrite Hgf; [eauto|]. edestruct Hv; eauto.
Qed.

Lemma take_bytes_app n b rest : N.of_nat (length b) = n → take_bytes n (b ++ rest) = Some (b, rest).
Proof.
  intros <-. unfold take_bytes. rewrite length_app. rewrite (proj2 (N.leb_le _ _)) by lia.
  by rewrite Nat2N.id, take_app_length, drop_app_length.
Qed.
Lemma take_bytes_Some n i b rest :
  take_bytes n i = Some (b, rest) → i = b ++ rest ∧ N.of_nat (length b) = n.
Proof.
  unfold take_bytes. case_match eqn:Hn; [|done]. apply N.leb_le in Hn. intros [= <- <-].
  rewrite take_drop, length_take. split; [done|lia].
Qed.

(** A fixed number of bytes. *)
Lemma wire_bytes n : Wire (λ v, Ok v) (take_bytes n) (λ v, is_bytes v ∧ N.of_nat (length v) = n).
Proof.
  split.
  - intros v [Hv Hn]. exists v. split; [done|]. split; [done|]. intros rest. by apply take_bytes_app.
  - intros i v rest Hi [-> Hn]%take_bytes_Some. apply is_bytes_app in Hi as [Hv _].
    split; [done|]. exists v. split; [done|]. intros rest'. by apply take_bytes_app.
Qed.
Lemma canonical_bytes n : Canonical (λ v, Ok v) (take_bytes n).
Proof. intros i v rest _ [-> _]%take_bytes_Some. eauto. Qed.

(** From parses of known formats, in order, to what is known of their results. *)
Ltac parse_valid :=
  repeat match goal with
  | Hi : is_bytes ?i, H : ?D ?i = Some (?x, ?r) |- _ =>
      let b := fresh "b" in let E := fresh "E" in let HD := fresh "HD" in
      pose proof (wire_valid _ D _ i x r Hi H) as [? (b & E & HD)]; clear H; subst i;
      apply is_bytes_app in Hi as [? Hi]
  end.
(** The bytes read by several parses. *)
Ltac parse_steps :=
  repeat first
    [ match goal with HD : ∀ rest, ?D (?b ++ rest) = Some _ |- context [?D (?b ++ ?r)] => rewrite HD end
    | match goal with E : ?c = _ |- context [if ?c then _ else _] => rewrite E end
    | progress cbn [mbind option_bind] ].
Ltac parse_end :=
  eexists; split; [rewrite ?app_assoc; reflexivity|];
  let r := fresh "rest" in intros r; rewrite <-?app_assoc; parse_steps.

(** From parses of known canonical formats to the bytes that were read. *)
Ltac parse_canonical :=
  repeat match goal with
  | Hi : is_bytes ?i, H : ?D ?i = Some (?x, ?r) |- _ =>
      let b := fresh "b" in let HS := fresh "HS" in let E := fresh "E" in
      destruct (canonical (D := D) i x r Hi H) as (b & HS & E); clear H; subst i;
      apply is_bytes_app in Hi as [? Hi]; cbn beta in HS;
      try match type of HS with Ok _ = Ok _ => injection HS as <- end
  end.
Ltac canonical_end :=
  repeat match goal with HS : _ = Ok _ |- _ => rewrite HS; clear HS; cbn [mbind outcome_bind] end;
  eexists; split; [reflexivity|by rewrite ?app_nil_r, <-?app_assoc].

#[export] Instance byte_wire : Wire (λ b, Ok [b]) take_byte (λ b, b < 256).
Proof.
  split.
  - intros b Hb. exists [b]. rewrite is_bytes_cons. auto.
  - intros [|b i] x rest Hi Hx; [done|]. apply is_bytes_cons in Hi as [? _]. injection Hx as <- <-.
    split; [done|]. by exists [b].
Qed.
#[export] Instance byte_canonical : Canonical (λ b, Ok [b]) take_byte.
Proof. intros [|b i] x rest _ Hx; [done|]. injection Hx as <- <-. by exists [b]. Qed.

Lemma wire_pair {A B} (SA : Serializer A) (DA : Parser A) PA (SB : Serializer B) (DB : Parser B) PB :
  Wire SA DA PA → Wire SB DB PB →
  Wire (λ x, write_seq [SA x.1; SB x.2]) (pair_of DA DB) (λ x, PA x.1 ∧ PB x.2).
Proof.
  intros WA WB. split.
  - intros [a b] [Ha Hb]. cbn in Ha, Hb |- *.
    wire_write (wire_read SA DA PA a Ha). wire_write (wire_read SB DB PB b Hb). wire_reads.
    unfold pair_of. rewrite HD. cbn. by rewrite HD0.
  - unfold pair_of. intros i x rest Hi Hx. parse_inv Hx. parse_valid. split; [done|]. by parse_end.
Qed.
Lemma canonical_pair {A B} (SA : Serializer A) (DA : Parser A) (SB : Serializer B) (DB : Parser B) :
  Canonical SA DA → Canonical SB DB → Canonical (λ x, write_seq [SA x.1; SB x.2]) (pair_of DA DB).
Proof.
  intros CA CB i x rest Hi Hx. unfold pair_of in Hx. parse_inv Hx. parse_canonical. cbn. canonical_end.
Qed.

Section formats.
Context `{!Varint} `{!VarintLaws}.

(** ** Numbers *)

#[export] Instance VarInt_wire t range :
  Wire (VarIntSerializer t) (VarIntDeserializer t range) (λ n, n ≤ uint_max t ∧ in_range range n = true).
Proof using All.
  unfold VarIntDeserializer. split.
  - intros n [Hn Hr]. eexists. split; [reflexivity|]. split; [by apply varint_bytes|].
    intros rest. rewrite varint_read by done. cbn. by rewrite Hr.
  - intros i n rest Hi Hx. parse_inv Hx. edestruct varint_minimal as [? ->]; [done..|].
    split; [done|]. eexists. split; [done|]. intros rest'. rewrite varint_read by done. cbn. by rewrite Heqb.
Qed.
#[export] Instance VarInt_canonical t range : Canonical (VarIntSerializer t) (VarIntDeserializer t range).
Proof using All.
  intros i n rest Hi Hx. unfold VarIntDeserializer in Hx. parse_inv Hx.
  edestruct varint_minimal as [? ->]; [done..|]. by eexists.
Qed.

(** ** Options, truth values and ratios *)

#[export] Instance Option_wire {T} (S : Serializer T) (D : Parser T) P :
  Wire S D P → Wire (OptionSerializer S) (OptionDeserializer D) (λ o, ∀ x, o = Some x → P x).
Proof using.
  intros W. split.
  - intros [x|] Hx; unfold OptionSerializer; cbn.
    + wire_write (wire_read S D P x (Hx x eq_refl)). wire_reads.
      unfold OptionDeserializer, alt, preceded, pmap. cbn. by rewrite HD.
    + by wire_reads.
  - unfold OptionDeserializer, alt, preceded, pmap, tag. intros i x rest Hi Hx.
    destruct i as [|b i]; [done|]. apply is_bytes_cons in Hi as [_ Hi]. cbn in Hx.
    destruct (N.eqb_spec b 48) as [->|]; cbn in Hx; [simplify_eq; split; [done|by exists [48]]|].
    destruct (N.eqb_spec b 49) as [->|]; cbn in Hx; [|done]. parse_inv Hx. parse_valid.
    split; [naive_solver|]. eexists (49 :: _). split; [done|]. intros rest'. cbn. by rewrite HD.
Qed.
#[export] Instance Option_canonical {T} (S : Serializer T) (D : Parser T) :
  Canonical S D → Canonical (OptionSerializer S) (OptionDeserializer D).
Proof using.
  unfold OptionDeserializer, alt, preceded, pmap, tag. intros C i x rest Hi Hx.
  destruct i as [|b i]; [done|]. apply is_bytes_cons in Hi as [_ Hi]. cbn in Hx.
  destruct (N.eqb_spec b 48) as [->|]; cbn in Hx; [simplify_eq; by eexists|].
  destruct (N.eqb_spec b 49) as [->|]; cbn in Hx; [|done]. parse_inv Hx. parse_canonical. unfold OptionSerializer. cbn. canonical_end.
Qed.

#[export] Instance Bool_wire : Wire BoolSerializer BoolDeserializer (λ _, True).
Proof using.
  split; [intros []; eexists; (split; [reflexivity|]); (split; [repeat constructor; lia|done])|].
  unfold BoolDeserializer. intros [|b i] x rest Hi Hx; [done|]. split; [done|].
  destruct (N.eqb_spec b 1) as [->|]; [|destruct (N.eqb_spec b 0) as [->|]]; simplify_eq; by eexists [_].
Qed.
#[export] Instance Bool_canonical : Canonical BoolSerializer BoolDeserializer.
Proof using.
  unfold BoolDeserializer. intros [|b i] x rest Hi Hx; [done|].
  destruct (N.eqb_spec b 1), (N.eqb_spec b 0); simplify_eq; by eexists.
Qed.

Lemma ratio_new_reduced n d : N.gcd n d = 1 → ratio_new n d = (n, d).
Proof using. unfold ratio_new. intros ->. by rewrite !N.div_1_r. Qed.
Lemma ratio_new_gcd n d : d ≠ 0 → N.gcd (ratio_new n d).1 (ratio_new n d).2 = 1 ∧ (ratio_new n d).2 ≠ 0.
Proof using.
  intros Hd. unfold ratio_new. cbn. assert (N.gcd n d ≠ 0) as Hg by (intros ?%N.gcd_eq_0; lia).
  split; [by apply N.gcd_div_gcd|]. intros Hlt%N.div_small_iff; [|done].
  assert (N.gcd n d <= d); [|lia]. apply N.divide_pos_le; [lia|]. apply N.gcd_divide_r.
Qed.

#[export] Instance Ratio_wire (S : Serializer N) (D : Parser N) P :
  Wire S D P → (∀ m n, P m → n ≤ m → P n) →
  Wire (RatioSerializer S) (RatioDeserializer D) (λ r, P r.1 ∧ P r.2 ∧ N.gcd r.1 r.2 = 1 ∧ r.2 ≠ 0).
Proof using.
  intros W Hdown. unfold RatioDeserializer, map_opt, pair_of. split.
  - intros [n d] (Hn & Hd & Hg & Hd0). unfold RatioSerializer. cbn in *.
    wire_write (wire_read S D P n Hn). wire_write (wire_read S D P d Hd). wire_reads.
    rewrite HD. cbn. rewrite HD0. cbn. rewrite (proj2 (N.eqb_neq d 0)) by done. cbn. by rewrite ratio_new_reduced.
  - intros i r rest Hi Hx. parse_inv Hx.
    match goal with HD : _ = Some (n, _, _) |- _ => parse_inv HD end. parse_valid. apply N.eqb_neq in Heqb as Hd0.
    destruct (ratio_new_gcd n n0 Hd0) as [? ?]. assert (N.gcd n n0 ≠ 0) by (intros ?%N.gcd_eq_0; lia).
    split; [|by parse_end]. split_and!; [apply (Hdown n)|apply (Hdown n0)|done|done];
      first [done | cbn; apply N.Div0.div_le_upper_bound; nia].
Qed.

(** ** Sequences *)

Lemma wire_length_data (SN : Serializer N) (DN : Parser N) (PN : N → Prop) :
  Wire SN DN PN →
  Wire (λ v, write_seq [SN (N.of_nat (length v)); Ok v]) (length_data DN)
    (λ v, is_bytes v ∧ PN (N.of_nat (length v))).
Proof using.
  intros W. unfold length_data. split.
  - intros v [Hv Hn]. cbn. wire_write (wire_read SN DN PN _ Hn). wire_reads.
    rewrite HD. cbn. by apply take_bytes_app.
  - intros i v rest Hi Hx. parse_inv Hx. parse_valid. apply take_bytes_Some in Hx as [-> <-].
    apply is_bytes_app in Hi as [? ?]. split; [done|]. parse_end. by apply take_bytes_app.
Qed.
Lemma canonical_length_data (SN : Serializer N) (DN : Parser N) :
  Canonical SN DN → Canonical (λ v, write_seq [SN (N.of_nat (length v)); Ok v]) (length_data DN).
Proof using.
  intros C i v rest Hi Hx. unfold length_data in Hx. parse_inv Hx. parse_canonical.
  apply take_bytes_Some in Hx as [-> <-]. cbn. canonical_end.
Qed.

#[export] Instance VecU8_wire range :
  Wire VecU8Serializer (VecU8Deserializer range)
    (λ v, is_bytes v ∧ N.of_nat (length v) ≤ u64_max ∧ in_range range (N.of_nat (length v)) = true).
Proof using All.
  destruct (wire_length_data _ _ _ (VarInt_wire U64 range)) as [Hr Hv]. split; [|exact Hv].
  intros v Hx. unfold VecU8Serializer. rewrite (proj2 (N.leb_le _ _)) by apply Hx. by apply Hr.
Qed.
#[export] Instance VecU8_canonical range : Canonical VecU8Serializer (VecU8Deserializer range).
Proof using All.
  intros i v rest Hi Hx. destruct (wire_valid _ _ _ i v rest Hi Hx) as [(_ & Hlen & _) _].
  unfold VecU8Serializer. rewrite (proj2 (N.leb_le _ _)) by done.
  by apply (canonical_length_data _ _ (VarInt_canonical U64 range)).
Qed.

Section repeated.
Context {T : Type} (S : Serializer T) (D : Parser T) (P : T → Prop) `{!Wire S D P}.

Lemma count_read l : Forall P l →
  ∃ b, write_seq (S <$> l) = Ok b ∧ is_bytes b ∧ ∀ rest, count (length l) D (b ++ rest) = Some (l, rest).
Proof using All.
  induction 1 as [|x l Hx Hl IH]; cbn.
  - by exists [].
  - wire_write (wire_read S D P x Hx). wire_write IH. wire_reads. rewrite HD. cbn. by rewrite HD0.
Qed.
Lemma count_valid n i l rest : is_bytes i → count n D i = Some (l, rest) →
  length l = n ∧ Forall P l ∧ reads (count n D) i l rest.
Proof using All.
  revert i l. induction n as [|n IH]; intros i l Hi Hx; cbn in Hx.
  { simplify_eq. split; [done|]. split; [done|]. by exists []. }
  parse_inv Hx. parse_valid. match goal with HC : count n D _ = _ |- _ => apply IH in HC as (? & ? & ? & -> & HD'); [|done] end. cbn.
  split; [lia|]. split; [by constructor|by parse_end].
Qed.
Lemma count_canonical `{!Canonical S D} n i l rest : is_bytes i → count n D i = Some (l, rest) →
  ∃ b, write_seq (S <$> l) = Ok b ∧ i = b ++ rest.
Proof using All.
  revert i l. induction n as [|n IH]; intros i l Hi Hx; cbn in Hx; [simplify_eq; by exists []|].
  parse_inv Hx. parse_canonical. match goal with HC : count n D _ = _ |- _ => apply IH in HC as (? & HS' & ->); [|done] end.
  cbn. rewrite HS. cbn. rewrite HS'. eexists. split; [reflexivity|]. by rewrite <-app_assoc.
Qed.

(** Their number, then the elements. *)
Lemma wire_length_count (SN : Serializer N) (DN : Parser N) (PN : N → Prop) :
  Wire SN DN PN →
  Wire (λ l, write_seq (SN (N.of_nat (length l)) :: (S <$> l))) (length_count DN D)
    (λ l, Forall P l ∧ PN (N.of_nat (length l))).
Proof using All.
  intros WN. unfold length_count. split.
  - intros l (Hl & Hn). cbn [write_seq foldr]. wire_write (wire_read SN DN PN _ Hn).
    wire_write (count_read l Hl). wire_reads. rewrite HD. cbn. by rewrite Nat2N.id.
  - intros i l rest Hi Hx. parse_inv Hx. parse_valid. apply count_valid in Hx as (Hn & ? & ? & -> & HD'); [|done].
    rewrite Hn, N2Nat.id. split; [done|]. by parse_end.
Qed.
Lemma canonical_length_count `{!Canonical S D} (SN : Serializer N) (DN : Parser N) :
  Canonical SN DN → Canonical (λ l, write_seq (SN (N.of_nat (length l)) :: (S <$> l))) (length_count DN D).
Proof using All.
  intros CN i l rest Hi Hx. unfold length_count in Hx. parse_inv Hx. parse_canonical.
  pose proof (count_valid _ _ _ _ Hi Hx) as (Hn & _). apply count_canonical in Hx as (b' & HS' & ->); [|done].
  rewrite Hn, N2Nat.id. cbn [write_seq foldr]. rewrite HS. cbn [mbind outcome_bind].
  rewrite HS'. eexists. split; [reflexivity|]. by rewrite <-app_assoc.
Qed.

#[export] Instance Vec_wire range :
  Wire (VecSerializer S) (VecDeserializer D range)
    (λ l, Forall P l ∧ N.of_nat (length l) ≤ u64_max ∧ in_range range (N.of_nat (length l)) = true).
Proof using All. apply (wire_length_count _ _ _ (VarInt_wire U64 range)). Qed.
#[export] Instance Vec_canonical `{!Canonical S D} range : Canonical (VecSerializer S) (VecDeserializer D range).
Proof using All. apply (canonical_length_count _ _ (VarInt_canonical U64 range)). Qed.

(** A set is written without repetition, and read whatever the order. *)
#[export] Instance PreHashSet_wire `{Countable T} `{!SetIter T} range :
  (∀ n m, in_range range n = true → m ≤ n → in_range range m = true) →
  Wire (PreHashSetSerializer S) (PreHashSetDeserializer D range)
    (λ s, set_Forall P s ∧ N.of_nat (size s) ≤ u64_max ∧ in_range range (N.of_nat (size s)) = true).
Proof using All.
  intros Hdown. unfold PreHashSetDeserializer, pmap, length_count. split.
  - intros s (Hs & Hn). unfold PreHashSetSerializer. cbn [write_seq foldr].
    wire_write (wire_read (VarIntSerializer U64) (VarIntDeserializer U64 range) _ _ Hn).
    assert (Forall P (set_iter s)) as Hl by (apply Forall_forall; intros x ?%elem_of_set_iter; auto).
    wire_write (count_read _ Hl). wire_reads. rewrite HD. cbn. rewrite Nat2N.id.
    rewrite <- length_set_iter, HD0. cbn. by rewrite list_to_set_iter.
  - intros i s rest Hi Hx. parse_inv Hx. match goal with HC : _ = Some (x, rest) |- _ => parse_inv HC end. parse_valid.
    match goal with HC : count _ _ _ = _ |- _ => apply count_valid in HC as (Hn & ? & ? & -> & HD'); [|done] end.
    pose proof (size_list_to_set_le x) as Hle. destruct_and!. cbn [uint_max] in *.
    split; [|by parse_end]. split_and!; [|lia|eapply Hdown; [eassumption|lia]].
    intros y Hy%elem_of_list_to_set. by eapply Forall_forall.
Qed.
End repeated.

(** ** Texts *)

#[export] Instance String_wire max (SN : Serializer N) (DN : Parser N) (PN : N → Prop) :
  Wire SN DN PN → (∀ n, PN n → n ≤ max) →
  Wire (StringSerializer max SN) (StringDeserializer DN)
    (λ v, is_bytes v ∧ PN (N.of_nat (length v)) ∧ is_utf8 v = true).
Proof using.
  intros W Hmax. destruct (wire_length_data _ _ _ W) as [Hr Hv]. unfold StringDeserializer, map_opt. split.
  - intros v (Hb & Hn & Hu). unfold StringSerializer. rewrite (proj2 (N.leb_le _ _)) by auto.
    wire_write (Hr v (conj Hb Hn)). wire_reads. rewrite HD. cbn. by rewrite Hu.
  - intros i v rest Hi Hx. parse_inv Hx.
    match goal with HL : length_data _ _ = _ |- _ => destruct (Hv _ _ _ Hi HL) as [[? ?] (b & -> & HD)] end. split; [done|].
    exists b. split; [done|]. intros rest'. rewrite HD. cbn. by rewrite Heqb.
Qed.
#[export] Instance String_canonical max (SN : Serializer N) (DN : Parser N) (PN : N → Prop) :
  Wire SN DN PN → Canonical SN DN → (∀ n, PN n → n ≤ max) → Canonical (StringSerializer max SN) (StringDeserializer DN).
Proof using.
  intros W C Hmax i v rest Hi Hx. unfold StringDeserializer, map_opt in Hx. parse_inv Hx.
  match goal with HL : length_data _ _ = _ |- _ =>
    destruct (@wire_valid _ _ _ _ (wire_length_data _ _ _ W) _ _ _ Hi HL) as [[_ Hn] _] end.
  unfold StringSerializer. rewrite (proj2 (N.leb_le _ _)) by auto. by eapply canonical_length_data.
Qed.

(** ** Addresses of machines *)

#[export] Instance IpAddr_wire :
  Wire IpAddrSerializer IpAddrDeserializer
    (λ a, match a with
          | V4 o => is_bytes o ∧ N.of_nat (length o) = 4
          | V6 o => is_bytes o ∧ N.of_nat (length o) = 16
          end).
Proof using.
  unfold IpAddrDeserializer, alt, preceded, pmap, tag. split.
  - intros [o|o] [Ho Hn]; wire_reads; cbn; by rewrite take_bytes_app.
  - intros [|b i] a rest Hi Hx; cbn in Hx; [done|]. apply is_bytes_cons in Hi as [_ Hi].
    destruct (N.eqb_spec b 4) as [->|]; cbn in Hx; [|destruct (N.eqb_spec b 6) as [->|]; cbn in Hx; [|done]].
    all: destruct (take_bytes _ i) as [[]|] eqn:Ht; cbn in Hx; simplify_eq.
    all: apply take_bytes_Some in Ht as [-> Hn]; apply is_bytes_app in Hi as [? _].
    all: split; [done|]; eexists (_ :: _); (split; [reflexivity|]); intros rest'; cbn; by rewrite take_bytes_app.
Qed.
#[export] Instance IpAddr_canonical : Canonical IpAddrSerializer IpAddrDeserializer.
Proof using.
  unfold IpAddrDeserializer, alt, preceded, pmap, tag. intros [|b i] a rest Hi Hx; cbn in Hx; [done|].
  destruct (N.eqb_spec b 4) as [->|]; cbn in Hx; [|destruct (N.eqb_spec b 6) as [->|]; cbn in Hx; [|done]].
  all: destruct (take_bytes _ i) as [[]|] eqn:Ht; cbn in Hx; simplify_eq.
  all: apply take_bytes_Some in Ht as [-> Hn]; eexists; (split; [reflexivity|]); cbn; by rewrite app_nil_r.
Qed.
End formats.

(** ** Sequences of bits *)

(** What the documentation of [bitvec] says: a sequence is kept in the bytes it needs, and
    is the beginning of the sequence of the bits of these bytes. *)
Class BitVecLaws `{!BitVecs} : Prop := {
  bits_into_bytes : ∀ l, is_bytes (bits_into_vec l);
  length_into_vec : ∀ l, N.of_nat (length (bits_into_vec l)) = (N.of_nat (length l) + 7) / 8;
  length_of_vec : ∀ v, length (bits_of_vec v) = (8 * length v)%nat;
  bits_prefix : ∀ l, take (length l) (bits_of_vec (bits_into_vec l)) = l }.

#[export] Instance BitVec_wire `{!Varint} `{!VarintLaws} `{!BitVecs} `{!BitVecLaws} :
  Wire BitVecSerializer BitVecDeserializer (λ l, N.of_nat (length l) ≤ u32_max).
Proof.
  unfold BitVecDeserializer. split.
  - intros l Hl. unfold BitVecSerializer. rewrite (proj2 (N.leb_le _ _)) by done. cbn [write_seq foldr].
    assert (in_range (Included 0, Included u32_max) (N.of_nat (length l)) = true) as Hr.
    { apply in_range_included. split; [apply N.le_0_l|done]. }
    wire_write (wire_read (VarIntSerializer U32) (VarIntDeserializer U32 (Included 0, Included u32_max)) _ _ (conj Hl Hr)).
    wire_reads; [apply bits_into_bytes|]. rewrite HD. cbn. rewrite length_app, <- length_into_vec.
    rewrite (proj2 (N.ltb_ge _ _)) by lia. rewrite !Nat2N.id, take_app_length, drop_app_length, bits_prefix.
    by rewrite N.eqb_refl.
  - intros i l rest Hi Hx. parse_inv Hx. parse_valid. rename x0 into i. apply N.ltb_ge in Heqb.
    pose proof Heqb0 as Hl%N.eqb_eq. split; [rewrite Hl; tauto|].
    assert (length (take (N.to_nat ((x + 7) / 8)) i) = N.to_nat ((x + 7) / 8)) as Hm by (rewrite length_take; lia).
    eexists. split; [rewrite <-(take_drop (N.to_nat ((x + 7) / 8)) i) at 1; by rewrite app_assoc|].
    intros rest'. rewrite <-app_assoc, HD. cbn [mbind option_bind]. rewrite length_app, Hm.
    rewrite (proj2 (N.ltb_ge _ _)) by lia. rewrite take_app_length', drop_app_length' by done. by rewrite Heqb0.
Qed.

(** ** Numbers of few bytes *)

Lemma to_be_bytes_app (k m : nat) (x : N) :
  to_be_bytes (k + m) x = to_be_bytes k (x / 256 ^ N.of_nat m) ++ to_be_bytes m x.
Proof.
  induction k as [|k IH]; [done|]. cbn [to_be_bytes Nat.add app]. rewrite IH. f_equal.
  rewrite N.Div0.div_div, <- N.pow_add_r. do 3 f_equal. lia.
Qed.
Lemma to_be_bytes_0 (k : nat) : to_be_bytes k 0 = replicate k 0.
Proof. induction k as [|k IH]; cbn; [done|]. by rewrite IH, N.Div0.div_0_l. Qed.

(** The bytes that are not written are zero. *)
Lemma be_bytes_min_bound (size : nat) (max_value : N) :
  max_value < 256 ^ N.of_nat size →
  max_value < 256 ^ N.of_nat (be_bytes_min_length size max_value)
  ∧ (N.to_nat (leading_zeros size max_value / 8) + be_bytes_min_length size max_value = size)%nat.
Proof.
  intros Hmax. unfold be_bytes_min_length, leading_zeros.
  assert (N.size max_value ≤ 8 * N.of_nat size) as Hsz.
  { destruct (N.eq_dec max_value 0) as [->|Hne]; [cbn; lia|]. rewrite N.size_log2 by done. apply N.le_succ_l.
    apply N.log2_lt_pow2; [lia|]. rewrite N.pow_mul_r. done. }
  assert (8 * ((8 * N.of_nat size - N.size max_value) / 8) ≤ 8 * N.of_nat size - N.size max_value) as Hd
    by (apply N.Div0.mul_div_le).
  set (q := (8 * N.of_nat size - N.size max_value) / 8) in *. split; [|lia].
  eapply N.lt_le_trans; [apply N.size_gt|]. change 256 with (2 ^ 8). rewrite <- N.pow_mul_r.
  apply N.pow_le_mono_r; lia.
Qed.

(** A number up to [max_value] is written in the bytes that [max_value] needs, and read
    back. *)
Lemma be_bytes_min_spec (size : nat) (x max_value : N) rest :
  x ≤ max_value → max_value < 256 ^ N.of_nat size →
  ∃ b, to_be_bytes_min size x max_value = Ok b ∧ length b = be_bytes_min_length size max_value
       ∧ from_be_bytes_min size (b ++ rest) max_value = Ok (x, length b).
Proof.
  intros Hx Hmax. destruct (be_bytes_min_bound size max_value Hmax) as [Hlt Hlen].
  set (m := be_bytes_min_length size max_value) in *. set (k := N.to_nat (leading_zeros size max_value / 8)) in *.
  exists (to_be_bytes m x). unfold to_be_bytes_min, from_be_bytes_min. fold m k.
  rewrite length_to_be_bytes, length_app, length_to_be_bytes.
  rewrite (proj2 (N.ltb_ge _ _)) by done. rewrite (proj2 (Nat.ltb_ge _ _)) by lia.
  split_and!; [|done|].
  - rewrite <- Hlen, to_be_bytes_app. f_equal. rewrite drop_app_length'; [done|]. by rewrite length_to_be_bytes.
  - rewrite take_app_length' by (by rewrite length_to_be_bytes).
    replace (size - m)%nat with k by lia. rewrite <- to_be_bytes_0.
    replace 0 with (x / 256 ^ N.of_nat m) by (apply N.div_small; lia).
    rewrite <- to_be_bytes_app, Hlen, from_to_be_bytes, N.mod_small by lia.
    by rewrite (proj2 (N.ltb_ge _ _)) by lia.
Qed.
