(* ===== verification/MipState.v ===== *)
(** * The state of a network upgrade

    [massa-versioning/src/versioning.rs], the part about one MIP (Massa
    improvement proposal): its description [MipInfo], the deployment state
    machine [ComponentState], and [MipState], the state with the history of its
    changes.

    The vote ratios are values of the [num] crate, the interface [VoteRatio]. *)

From S2P Require Import Prelude Slots Times OrdMap.

Open Scope N_scope.

(** ** Ratios *)

(** [Ratio<u64>], compared by value: [ratio_new] panics ([None]) on a zero
    denominator. *)
Class VoteRatio := {
  ratio : Type;
  ratio_eq_dec :: EqDecision ratio;
  ratio_ord :: Ord ratio;
  ratio_zero : ratio;
  ratio_new : N → N → option ratio }.

(** What [num] documents of it. *)
Class VoteRatioLaws `{VoteRatio} : Prop := {
  ratio_ord_laws :: OrdLaws ratio;
  ratio_new_total : ∀ n d, is_Some (ratio_new n d) ↔ d ≠ 0;
  ratio_new_cmp : ∀ n d r n' d' r', ratio_new n d = Some r → ratio_new n' d' = Some r' →
    cmp r r' = (n * d' ?= n' * d);
  ratio_zero_eq : ratio_new 0 1 = Some ratio_zero }.

(** ** The description of a MIP *)

Inductive MipComponent : Type :=
| CAddress | CKeyPair | CBlock | CVM | CFinalStateHashKind | CExecution | CFinalState
| CNonexhaustive.

(** The discriminants. *)
Definition component_id (c : MipComponent) : N :=
  match c with
  | CAddress => 0 | CKeyPair => 1 | CBlock => 2 | CVM => 3 | CFinalStateHashKind => 4
  | CExecution => 5 | CFinalState => 6 | CNonexhaustive => 7
  end.

#[export] Instance MipComponent_eq_dec : EqDecision MipComponent.
Proof. solve_decision. Defined.
#[export] Instance component_ord : Ord MipComponent :=
  λ a b, component_id a ?= component_id b.
#[export] Instance component_ord_laws : OrdLaws MipComponent.
Proof. apply (ord_laws_via component_id); [by intros [] []|done]. Qed.

Record MipInfo : Type := MkMipInfo {
  mi_name : list N;
  mi_version : N;
  mi_components : list (MipComponent * N);
  mi_start : N;
  mi_timeout : N;
  mi_activation_delay : N }.

(** [impl Ord for MipInfo]: by start, timeout, delay, name, version, components. *)
Definition mip_info_key (i : MipInfo)
    : N * (N * (N * (list N * (N * list (MipComponent * N))))) :=
  (mi_start i, (mi_timeout i, (mi_activation_delay i, (mi_name i, (mi_version i, mi_components i))))).
#[export] Instance mip_info_ord : Ord MipInfo :=
  λ a b, cmp (mip_info_key a) (mip_info_key b).
#[export] Instance mip_info_ord_laws : OrdLaws MipInfo.
Proof.
  apply (ord_laws_via mip_info_key); [|done].
  intros [] [] [=]; cbn in *; by subst.
Qed.
#[export] Instance MipInfo_eq_dec : EqDecision MipInfo.
Proof. solve_decision. Defined.

(** ** The deployment state machine *)

Section mip_state.
Context `{!VoteRatio}.

Inductive ComponentState : Type :=
| Error
| Defined
| Started (vote_ratio : ratio)
| LockedIn (at_ : N)
| Active (at_ : N)
| Failed.

#[export] Instance ComponentState_eq_dec : EqDecision ComponentState.
Proof. solve_decision. Defined.

Inductive ComponentStateTypeId : Type :=
| TError | TDefined | TStarted | TLockedIn | TActive | TFailed.
#[export] Instance ComponentStateTypeId_eq_dec : EqDecision ComponentStateTypeId.
Proof using. solve_decision. Defined.

Definition type_id (s : ComponentState) : ComponentStateTypeId :=
  match s with
  | Error => TError
  | Defined => TDefined
  | Started _ => TStarted
  | LockedIn _ => TLockedIn
  | Active _ => TActive
  | Failed => TFailed
  end.

(** [ComponentStateTypeId as u32]. *)
Definition type_id_u32 (t : ComponentStateTypeId) : N :=
  match t with
  | TError => 0 | TDefined => 1 | TStarted => 2 | TLockedIn => 3 | TActive => 4 | TFailed => 5
  end.

Definition component_is_final (s : ComponentState) : bool :=
  match s with Active _ | Failed | Error => true | _ => false end.

Record Advance : Type := MkAdvance {
  start_timestamp : N;
  timeout : N;
  activation_delay : N;
  threshold : ratio;
  now : N }.

(** [VERSIONING_THRESHOLD_TRANSITION_ACCEPTED] is 50/100: [threshold >= 50/100]. *)
Definition threshold_accepted (r : ratio) : bool :=
  match ratio_new 50 100 with
  | Some t => bool_decide (cmp_le t r)
  | None => false
  end.

Definition component_on_advance (s : ComponentState) (input : Advance) : ComponentState :=
  match s with
  | Error => Error
  | Defined =>
      if timeout input <=? now input then Failed
      else if start_timestamp input <=? now input then Started ratio_zero
      else Defined
  | Started _ =>
      if timeout input <=? now input then Failed
      else if threshold_accepted (threshold input) then LockedIn (now input)
      else Started (threshold input)
  | LockedIn at_ =>
      if Time.saturating_add at_ (activation_delay input) <? now input then Active (now input)
      else LockedIn at_
  | Active at_ => Active at_
  | Failed => Failed
  end.

(** ** The state with its history *)

Record AdvanceLW : Type := MkAdvanceLW { lw_threshold : ratio; lw_now : N }.
Definition advance_lw_key (a : AdvanceLW) : N * ratio := (lw_now a, lw_threshold a).
#[export] Instance advance_lw_ord : Ord AdvanceLW :=
  λ a b, cmp (advance_lw_key a) (advance_lw_key b).
#[export] Instance advance_lw_ord_laws `{!VoteRatioLaws} : OrdLaws AdvanceLW.
Proof. apply (ord_laws_via advance_lw_key); [|done]. intros [] [] [=]; cbn in *; by subst. Qed.
#[export] Instance AdvanceLW_eq_dec : EqDecision AdvanceLW.
Proof. solve_decision. Defined.

Definition from_advance (a : Advance) : AdvanceLW := MkAdvanceLW (threshold a) (now a).

Record MipState : Type := MkMipState {
  state : ComponentState;
  history : list (AdvanceLW * ComponentStateTypeId) }.
#[export] Instance MipState_eq_dec : EqDecision MipState.
Proof. solve_decision. Defined.

Definition mip_new (defined : N) : MipState :=
  MkMipState Defined [(MkAdvanceLW ratio_zero defined, TDefined)].

Definition reset_from (m : MipState) : option MipState :=
  match history m with
  | (advance, TDefined) :: _ => Some (mip_new (lw_now advance))
  | _ => None
  end.

Definition is_started (s : ComponentState) : bool :=
  match s with Started _ => true | _ => false end.

Definition is_forward (m : MipState) (t : N) : bool :=
  match last (history m) with
  | Some (adv, _) => lw_now adv <? t
  | None => false
  end.

Definition on_advance (m : MipState) (input : Advance) : MipState :=
  if is_forward m (now input) then
    let st := component_on_advance (state m) input in
    if decide (st = state m) then m
    else
      MkMipState st
        (if is_started st && is_started (state m) then history m
         else bt_insert (from_advance input) (type_id st) (history m))
  else m.

Inductive IsConsistentError : Type :=
| EmptyHistory
| AtError
| InvalidHistory (t : ComponentStateTypeId)
| NonConsistent (a b : ComponentState)
| InvalidInfo.

Definition set_advance (a : AdvanceLW) (msg : Advance) : Advance :=
  MkAdvance (start_timestamp msg) (timeout msg) (activation_delay msg) (lw_threshold a) (lw_now a).

(** The replay of the history, with the last message sent. *)
Definition replay_step (acc : MipState * Advance) (entry : AdvanceLW * ComponentStateTypeId)
    : MipState * Advance :=
  let msg := set_advance entry.1 acc.2 in (on_advance acc.1 msg, msg).

Definition is_consistent_with (m : MipState) (mip_info : MipInfo)
    : outcome IsConsistentError unit :=
  if decide (state m = Error) then Err AtError
  else if mi_timeout mip_info <=? mi_start mip_info then Err InvalidInfo
  else
    match history m with
    | [] => Err EmptyHistory
    | (initial, initial_id) :: rest =>
        if decide (initial_id ≠ TDefined) then Err (InvalidHistory initial_id)
        else if (mi_start mip_info <? lw_now initial) || (mi_timeout mip_info <? lw_now initial)
        then Err (InvalidHistory initial_id)
        else
          let '(vsh, msg) := foldl replay_step
            (mip_new (lw_now initial),
             MkAdvance (mi_start mip_info) (mi_timeout mip_info) (mi_activation_delay mip_info)
               ratio_zero (lw_now initial)) rest in
          let vsh :=
            match state vsh, state m with
            | Started t, Started t2 =>
                if decide (t2 ≠ t)
                then on_advance vsh (set_advance (MkAdvanceLW t2 (Time.saturating_add (now msg) 1)) msg)
                else vsh
            | _, _ => vsh
            end in
          if decide (vsh = m) then Ok tt else Err (NonConsistent (state m) (state vsh))
    end.

Inductive StateAtError : Type :=
| BeforeInitialState (t : ComponentStateTypeId) (ts : N)
| AtEmptyHistory
| Unpredictable.

(** The scan for the bounds: the last entry at or before [ts], and whether an
    entry at or after it was met. *)
Fixpoint scan_bounds (ts : N) (h : list (AdvanceLW * ComponentStateTypeId))
    (lower : option (AdvanceLW * ComponentStateTypeId))
    : option (AdvanceLW * ComponentStateTypeId) * option (AdvanceLW * ComponentStateTypeId) :=
  match h with
  | [] => (lower, None)
  | e :: h =>
      let lower := if lw_now e.1 <=? ts then Some e else lower in
      if ts <=? lw_now e.1 then (lower, Some e) else scan_bounds ts h lower
  end.

Definition state_at (m : MipState) (ts start timeout activation_delay : N)
    : outcome StateAtError ComponentStateTypeId :=
  match head (history m), last (history m) with
  | Some first, Some lst =>
      if ts <? lw_now first.1 then Err (BeforeInitialState first.2 ts)
      else
        match (if lw_now lst.1 <? ts then (Some lst, None)
               else scan_bounds ts (history m) None) with
        | (Some (_, st_id_1), Some _) => Ok st_id_1
        | (Some (adv, st_id), None) =>
            if bool_decide (st_id = TStarted) && negb (threshold_accepted (lw_threshold adv))
               && (ts <? timeout)
            then Err Unpredictable
            else Ok (type_id (component_on_advance (state m)
                      (MkAdvance start timeout activation_delay (lw_threshold adv) ts)))
        | _ => Err AtEmptyHistory
        end
  | _, _ => Err AtEmptyHistory
  end.

Definition activation_at (m : MipState) (mip_info : MipInfo) : option N :=
  match state m with
  | LockedIn at_ => Some (Time.saturating_add at_ (mi_activation_delay mip_info))
  | _ => None
  end.

Definition mip_is_final (m : MipState) : bool := component_is_final (state m).
End mip_state.

(** ** Reachable states *)

Section reachable.
Context `{!VoteRatio, !VoteRatioLaws}.
Implicit Types (m : MipState) (i : MipInfo).

(** The messages sent for a MIP carry its times. *)
Definition advance_of i (r : ratio) (t : N) : Advance :=
  MkAdvance (mi_start i) (mi_timeout i) (mi_activation_delay i) r t.

Inductive mip_reachable i (defined : N) : MipState → Prop :=
| mr_new : mip_reachable i defined (mip_new defined)
| mr_advance m r t : mip_reachable i defined m →
    mip_reachable i defined (on_advance m (advance_of i r t)).

Definition last_now m : N := from_option (λ e, lw_now e.1) 0 (last (history m)).

(** The history is in order of time, starts at [Defined] and ends at the state. *)
Record history_ok (defined : N) m : Prop := {
  ho_sorted : StronglySorted N.lt ((λ e, lw_now e.1) <$> history m);
  ho_head : head (history m) = Some (MkAdvanceLW ratio_zero defined, TDefined);
  ho_last : snd <$> last (history m) = Some (type_id (state m));
  ho_state : state m ≠ Error;
  ho_at : ∀ t, state m = LockedIn t ∨ state m = Active t → last_now m = t;
  ho_active : ∀ e, e ∈ history m → e.2 = TActive → last (history m) = Some e }.

Lemma is_forward_iff m t : history m ≠ [] → is_forward m t = true ↔ last_now m < t.
Proof using.
  unfold is_forward, last_now. destruct (last (history m)) as [[adv ?]|] eqn:Hl; cbn.
  - intros _. apply N.ltb_lt.
  - by apply last_None in Hl.
Qed.

Lemma sorted_last (h : list (AdvanceLW * ComponentStateTypeId)) e x :
  StronglySorted N.lt ((λ e, lw_now e.1) <$> h) → last h = Some e → x ∈ h →
  lw_now x.1 <= lw_now e.1.
Proof using.
  intros Hs Hl Hx. apply last_Some in Hl as [h' ->].
  rewrite fmap_app, StronglySorted_app in Hs. destruct Hs as (Hs & _ & _).
  apply elem_of_app in Hx as [Hx|Hx].
  - apply N.lt_le_incl, Hs; [by apply (list_elem_of_fmap_2' _ _ x)|by left].
  - by apply list_elem_of_singleton in Hx as ->.
Qed.

(** A change of state is appended to the history. *)
Lemma history_append m input t :
  StronglySorted N.lt ((λ e, lw_now e.1) <$> history m) → is_forward m (now input) = true →
  bt_insert (from_advance input) t (history m) = history m ++ [(from_advance input, t)].
Proof.
  intros Hs Hf. apply bt_insert_above. intros k v Hin. unfold is_forward in Hf.
  destruct (last (history m)) as [[adv ?]|] eqn:Hl; [|done]. apply N.ltb_lt in Hf.
  pose proof (sorted_last _ _ _ Hs Hl Hin) as Hle. cbn in Hle.
  unfold cmp_lt, cmp, advance_lw_ord, cmp, pair_ord, cmp, N_ord. cbn.
  by rewrite (proj2 (N.compare_lt_iff _ _)) by lia.
Qed.

Lemma sorted_snoc (l : list N) x :
  StronglySorted N.lt l → (∀ y, last l = Some y → y < x) → StronglySorted N.lt (l ++ [x]).
Proof using.
  intros Hs Hx. apply StronglySorted_app. split_and!; [|done|repeat constructor].
  intros y z Hy ->%list_elem_of_singleton.
  destruct (last l) as [w|] eqn:Hl; [|apply last_None in Hl as ->; by apply elem_of_nil in Hy].
  specialize (Hx w eq_refl). apply last_Some in Hl as [l' ->].
  apply StronglySorted_app in Hs as (Hs & _ & _). apply elem_of_app in Hy as [Hy|Hy].
  - etrans; [apply Hs; [done|by left]|done].
  - by apply list_elem_of_singleton in Hy as ->.
Qed.

(** The three ways a message acts: it changes nothing, it updates the vote ratio,
    or it changes the state, which is recorded. *)
Inductive advance_view m input : MipState → Prop :=
| av_same : (last_now m < now input → component_on_advance (state m) input = state m) →
    advance_view m input m
| av_vote r : last_now m < now input → state m = Started r → threshold input ≠ r →
    now input < timeout input → threshold_accepted (threshold input) = false →
    advance_view m input (MkMipState (Started (threshold input)) (history m))
| av_change : last_now m < now input → component_on_advance (state m) input ≠ state m →
    is_started (component_on_advance (state m) input) && is_started (state m) = false →
    advance_view m input
      (MkMipState (component_on_advance (state m) input)
         (history m ++ [(from_advance input, type_id (component_on_advance (state m) input))])).

Lemma on_advance_view defined m input :
  history_ok defined m → advance_view m input (on_advance m input).
Proof.
  intros [Hs Hh _ _ _ _]. assert (history m ≠ []) as Hne by (intros Heq; by rewrite Heq in Hh).
  unfold on_advance. destruct (is_forward m (now input)) eqn:Hf.
  2: { apply av_same. intros Hlt%is_forward_iff; [congruence|done]. }
  pose proof Hf as Hlt%is_forward_iff; [|done].
  case_decide as Hst; [by apply av_same|].
  destruct (is_started _ && _) eqn:Hb.
  - apply andb_true_iff in Hb as [Hb Hb2]. destruct (state m) as [| |r|?|?|] eqn:Hm; try done.
    revert Hst Hb. cbn. destruct (timeout input <=? now input) eqn:H1; [done|].
    destruct (threshold_accepted (threshold input)) eqn:H2; [done|].
    intros Hst _. apply N.leb_gt in H1. eapply av_vote; [done|done|congruence|lia|done].
  - rewrite history_append by done. by apply av_change.
Qed.

Lemma on_advance_history_ok defined m input :
  history_ok defined m → history_ok defined (on_advance m input).
Proof.
  intros Hok. destruct (on_advance_view defined m input Hok) as [|r Hlt Hm|Hlt];
    [done| |]; destruct Hok as [Hs Hh Hl Hst Hat Hac].
  - split; cbn; [done|done| |done| |done]; [by rewrite Hl, Hm|naive_solver].
  - split; cbn.
    + rewrite fmap_app. apply sorted_snoc; [done|]. intros y. rewrite fmap_last.
      unfold last_now in Hlt. destruct (last (history m)) as [e|]; [|done]. by intros [= <-].
    + by destruct (history m).
    + by rewrite last_snoc.
    + intros He. destruct (state m); cbn in He; repeat case_match; done.
    + unfold last_now. cbn. rewrite last_snoc. cbn. intros t Ht.
      destruct (state m); cbn in *; repeat case_match; naive_solver.
    + intros e [He| ->%list_elem_of_singleton]%elem_of_app He2; rewrite last_snoc; [|done].
      rewrite (Hac e He He2) in Hl. cbn in Hl. rewrite He2 in Hl. injection Hl as Hl.
      destruct (state m) eqn:Hm; by cbn in *.
Qed.

Lemma mip_new_history_ok defined : history_ok defined (mip_new defined).
Proof using.
  split; cbn; [repeat constructor|done..|naive_solver|by intros e ->%list_elem_of_singleton].
Qed.

Lemma mip_reachable_history_ok i defined m : mip_reachable i defined m → history_ok defined m.
Proof. induction 1; [apply mip_new_history_ok|by apply on_advance_history_ok]. Qed.

(** ** The replay of a history *)

(** The replay forgets the votes of a MIP that is not locked in. *)
Definition forget_votes (s : ComponentState) : ComponentState :=
  match s with Started _ => Started ratio_zero | s => s end.

(** The votes recorded in the state are those of a later message before the
    timeout. *)
Definition votes_ok i m : Prop :=
  ∀ r, state m = Started r →
    r = ratio_zero ∨ (threshold_accepted r = false ∧ last_now m + 1 < mi_timeout i).

Definition replay i (defined : N) (h : list (AdvanceLW * ComponentStateTypeId)) : MipState * Advance :=
  foldl replay_step (mip_new defined, advance_of i ratio_zero defined) h.

Record replays i defined m : Prop := {
  rp_ok : history_ok defined m;
  rp_votes : votes_ok i m;
  rp_replay : replay i defined (tail (history m))
    = (MkMipState (forget_votes (state m)) (history m),
       advance_of i (from_option (λ e, lw_threshold e.1) ratio_zero (last (history m))) (last_now m)) }.

Lemma forget_votes_advance s input :
  component_on_advance (forget_votes s) input = component_on_advance s input.
Proof using. by destruct s. Qed.
Lemma is_started_forget s : is_started (forget_votes s) = is_started s.
Proof using. by destruct s. Qed.

(** A change of state does not depend on the votes and leaves none. *)
Lemma change_forgets m input :
  let st := component_on_advance (state m) input in
  st ≠ state m → is_started st && is_started (state m) = false →
  forget_votes st = st ∧ st ≠ forget_votes (state m).
Proof using.
  cbn zeta. destruct (state m); cbn; repeat case_match; cbn; intros; split; congruence.
Qed.

Lemma replay_change i defined m r t :
  let st := component_on_advance (state m) (advance_of i r t) in
  history_ok defined m → last_now m < t → st ≠ state m →
  is_started st && is_started (state m) = false →
  on_advance (MkMipState (forget_votes (state m)) (history m)) (advance_of i r t)
  = MkMipState st (history m ++ [(MkAdvanceLW r t, type_id st)]).
Proof.
  cbn zeta. intros [Hs Hh _ _ _ _] Hlt Hst Hb.
  assert (history m ≠ []) as Hne by (intros Heq; by rewrite Heq in Hh).
  unfold on_advance. cbn [state now advance_of].
  assert (is_forward (MkMipState (forget_votes (state m)) (history m)) t = true) as Hf
    by (by apply is_forward_iff). rewrite Hf.
  rewrite forget_votes_advance, is_started_forget, Hb.
  rewrite decide_False by (by apply (change_forgets m (advance_of i r t))).
  by rewrite history_append.
Qed.

Lemma replays_step i defined m r t :
  replays i defined m → replays i defined (on_advance m (advance_of i r t)).
Proof.
  intros [Hok Hv Hr]. pose proof (on_advance_history_ok defined m (advance_of i r t) Hok) as Hok'.
  destruct (on_advance_view defined m (advance_of i r t) Hok) as [|r0 Hlt Hm Hne Hto Hth|Hlt Hst Hb].
  - done.
  - split; [done| |].
    + intros r1 [= <-]. right. cbn in *. unfold last_now in *. cbn. split; [done|lia].
    + cbn. by rewrite Hr, Hm.
  - destruct (change_forgets _ _ Hst Hb) as [Hfv Hne].
    split; [done| |]; cbn [history state]; set (st := component_on_advance _ _) in *.
    + intros r1 Hr1. cbn in Hr1. left. rewrite Hr1 in Hfv. by injection Hfv.
    + rewrite Hfv. pose proof (replay_change i defined m r t Hok Hlt Hst Hb) as Hrc.
      unfold last_now. cbn [history]. rewrite last_snoc.
      assert (tail (history m ++ [(from_advance (advance_of i r t), type_id st)])
        = tail (history m) ++ [(from_advance (advance_of i r t), type_id st)]) as ->.
      { destruct Hok as [_ Hhd _ _ _ _]. by destruct (history m). }
      unfold replay in *. rewrite foldl_snoc, Hr. unfold replay_step. cbn [fst snd].
      change (set_advance _ _) with (advance_of i r t). by rewrite Hrc.
Qed.

Lemma mip_reachable_replays i defined m : mip_reachable i defined m → replays i defined m.
Proof.
  induction 1; [|by apply replays_step]. split; [apply mip_new_history_ok| |done].
  by intros r.
Qed.

Lemma replay_reachable i defined h :
  mip_reachable i defined (replay i defined h).1
  ∧ ∃ r t, (replay i defined h).2 = advance_of i r t.
Proof using.
  unfold replay. induction h as [|e h IH] using rev_ind; cbn.
  - split; [apply mr_new|by eexists _, _].
  - rewrite foldl_snoc. destruct (foldl _ _ h) as [m msg]. destruct IH as [Hm (r & t & Hmsg)].
    cbn in *. rewrite Hmsg. split; [apply (mr_advance _ _ _ (lw_threshold e.1) (lw_now e.1)), Hm|].
    by exists (lw_threshold e.1), (lw_now e.1).
Qed.

(** The comparison of the replayed state with the recorded one. *)
Definition align_votes (vsh : MipState) (msg : Advance) m : MipState :=
  match state vsh, state m with
  | Started t, Started t2 =>
      if decide (t2 ≠ t)
      then on_advance vsh (set_advance (MkAdvanceLW t2 (Time.saturating_add (now msg) 1)) msg)
      else vsh
  | _, _ => vsh
  end.

Lemma align_votes_reachable i defined h m :
  mip_reachable i defined
    (align_votes (replay i defined h).1 (replay i defined h).2 m).
Proof using.
  destruct (replay_reachable i defined h) as [Hm (r & t & Hmsg)]. unfold align_votes.
  destruct (state _); try done. destruct (state m); try done. case_decide; [|done].
  rewrite Hmsg. by apply (mr_advance i defined _ vote_ratio0).
Qed.

Lemma align_votes_replays i defined m :
  mi_timeout i ≤ u64_max → replays i defined m →
  align_votes (replay i defined (tail (history m))).1 (replay i defined (tail (history m))).2 m = m.
Proof.
  intros Hto [Hok Hv Hr]. rewrite Hr. unfold align_votes. cbn [fst snd state].
  destruct (state m) as [| |r|?|?|] eqn:Hm; cbn [forget_votes];
    try (by destruct m; cbn in Hm; subst).
  case_decide as Hne.
  2: { subst r. rewrite <-Hm. by destruct m. }
  destruct (Hv r Hm) as [?|[Hth Hlt]]; [done|].
  change (now (advance_of i _ (last_now m))) with (last_now m).
  change (set_advance _ _) with (advance_of i r (Time.saturating_add (last_now m) 1)).
  replace (Time.saturating_add (last_now m) 1) with (last_now m + 1)
    by (unfold Time.saturating_add, saturating_add; lia).
  destruct Hok as [_ Hh _ _ _ _]. assert (history m ≠ []) as Hhn by (intros Heq; by rewrite Heq in Hh).
  unfold on_advance. cbn [state now advance_of component_on_advance timeout threshold history].
  rewrite (proj2 (is_forward_iff (MkMipState (Started ratio_zero) (history m)) (last_now m + 1) Hhn))
    by (unfold last_now; cbn; lia).
  rewrite (proj2 (N.leb_gt _ _) Hlt), Hth. rewrite decide_False by congruence. cbn.
  destruct m; cbn in *; by subst.
Qed.

(** The check of consistency accepts exactly the states a node can reach by
    advancing the MIP from its definition. *)
Lemma is_consistent_with_spec i m :
  mi_timeout i ≤ u64_max →
  is_consistent_with m i = Ok tt ↔
    mi_start i < mi_timeout i ∧ ∃ defined, defined ≤ mi_start i ∧ mip_reachable i defined m.
Proof.
  intros Hto. unfold is_consistent_with. split.
  - case_decide; [done|]. destruct (N.leb_spec (mi_timeout i) (mi_start i)); [done|].
    destruct (history m) as [|[initial id0] h] eqn:Hh; [done|]. case_decide; [done|].
    destruct (N.ltb_spec (mi_start i) (lw_now initial)); [done|].
    destruct (mi_timeout i <? lw_now initial); [done|]. cbn [orb].
    change (foldl replay_step _ h) with (replay i (lw_now initial) h).
    pose proof (align_votes_reachable i (lw_now initial) h m) as Hal.
    destruct (replay i (lw_now initial) h) as [vsh msg]. cbn [fst snd] in Hal.
    fold (align_votes vsh msg m). case_decide as Heq; [|done]. intros _. rewrite Heq in Hal.
    split; [done|]. by exists (lw_now initial).
  - intros (Hlt & defined & Hd & Hr%mip_reachable_replays).
    pose proof (align_votes_replays i defined m Hto Hr) as Hal. destruct Hr as [[_ Hh _ Hst _ _] _ _].
    rewrite decide_False by done. rewrite (proj2 (N.leb_gt _ _) Hlt).
    destruct (history m) as [|e h]; [done|]. injection Hh as ->. cbn [lw_now].
    rewrite decide_False by tauto. rewrite (proj2 (N.ltb_ge _ _) Hd).
    rewrite (proj2 (N.ltb_ge _ _)) by lia. cbn [orb].
    change (foldl replay_step _ h) with (replay i defined h). cbn [tail] in Hal.
    destruct (replay i defined h) as [vsh msg]. cbn [fst snd] in Hal.
    fold (align_votes vsh msg m). by rewrite decide_True.
Qed.

(** ** The state at a time *)

(** Later messages only append later entries to the history. *)
Lemma on_advance_extends defined m r i t ts :
  history_ok defined m → ts < t →
  ∃ h, history (on_advance m (advance_of i r t)) = history m ++ h
    ∧ Forall (λ e, ts < lw_now e.1) h.
Proof.
  intros Hok Ht. destruct (on_advance_view defined m (advance_of i r t) Hok); cbn.
  - exists []. by rewrite app_nil_r.
  - exists []. by rewrite app_nil_r.
  - eexists. split; [done|]. by repeat constructor.
Qed.

Definition run_mip i m (msgs : list (ratio * N)) : MipState :=
  foldl (λ m '(r, t), on_advance m (advance_of i r t)) m msgs.

Lemma run_mip_extends defined i m msgs ts :
  history_ok defined m → Forall (λ x, ts < x.2) msgs →
  history_ok defined (run_mip i m msgs)
  ∧ ∃ h, history (run_mip i m msgs) = history m ++ h ∧ Forall (λ e, ts < lw_now e.1) h.
Proof.
  intros Hok Hts. revert m Hok. induction Hts as [|[r t] msgs Ht _ IH]; intros m Hok; cbn.
  - split; [done|]. exists []. by rewrite app_nil_r.
  - destruct (on_advance_extends defined m r i t ts Hok Ht) as (h1 & Hh1 & Hf1).
    destruct (IH (on_advance m (advance_of i r t))) as [Hok' (h2 & Hh2 & Hf2)];
      [by apply on_advance_history_ok|].
    split; [done|]. exists (h1 ++ h2). split; [|by apply Forall_app].
    etrans; [exact Hh2|]. by rewrite Hh1, app_assoc.
Qed.

Lemma scan_bounds_app ts h1 e h2 lower :
  Forall (λ e, lw_now e.1 < ts) h1 → ts ≤ lw_now e.1 →
  scan_bounds ts (h1 ++ e :: h2) lower
  = (if lw_now e.1 <=? ts then Some e else match last h1 with Some e => Some e | None => lower end,
     Some e).
Proof using.
  intros Hf1 He. revert lower. induction Hf1 as [|e1 h1 He1 _ IH]; intros lower.
  - cbn. by rewrite (proj2 (N.leb_le _ _) He).
  - cbn [app scan_bounds]. rewrite (proj2 (N.leb_le (lw_now e1.1) ts)) by lia.
    rewrite (proj2 (N.leb_gt ts (lw_now e1.1))) by lia. rewrite IH. f_equal. case_match; [done|].
    rewrite last_cons. by destruct (last h1).
Qed.

(** The scan finds the last entry at or before [ts]. *)
Lemma scan_bounds_spec ts h1 e h2 :
  StronglySorted N.lt ((λ e, lw_now e.1) <$> h1 ++ e :: h2) →
  lw_now e.1 ≤ ts → Forall (λ e, ts < lw_now e.1) h2 → h2 ≠ [] ∨ lw_now e.1 = ts →
  ∃ e', scan_bounds ts (h1 ++ e :: h2) None = (Some e, Some e').
Proof using.
  intros Hs He Hf Hor. rewrite fmap_app, StronglySorted_app in Hs. destruct Hs as (Hs & _ & _).
  assert (Forall (λ x, lw_now x.1 < lw_now e.1) h1) as Hf1.
  { apply Forall_forall. intros x Hx. apply Hs; [by apply (list_elem_of_fmap_2' _ _ x)|by left]. }
  destruct (decide (lw_now e.1 = ts)) as [Heq|Hne].
  - exists e. rewrite scan_bounds_app by (try eapply Forall_impl; eauto; cbn; lia).
    by rewrite (proj2 (N.leb_le _ _) He).
  - destruct Hor as [Hor|?]; [|done]. destruct Hf as [|e2 h2 He2 Hf]; [done|].
    exists e2. rewrite (cons_middle e h1), app_assoc.
    rewrite scan_bounds_app; [|apply Forall_app; split; [|repeat constructor; lia]|lia].
    + rewrite (proj2 (N.leb_gt _ _)) by lia. by rewrite last_snoc.
    + eapply Forall_impl; [exact Hf1|]. cbn. lia.
Qed.

Lemma split_at_time ts (h : list (AdvanceLW * ComponentStateTypeId)) e0 :
  StronglySorted N.lt ((λ e, lw_now e.1) <$> e0 :: h) → lw_now e0.1 ≤ ts →
  ∃ h1 e h2, e0 :: h = h1 ++ e :: h2 ∧ lw_now e.1 ≤ ts ∧ Forall (λ e, ts < lw_now e.1) h2.
Proof using.
  revert e0. induction h as [|e1 h IH]; intros e0 Hs He0; [by exists [], e0, []|].
  rewrite fmap_cons, StronglySorted_cons in Hs. destruct Hs as [_ Hs].
  destruct (N.le_gt_cases (lw_now e1.1) ts) as [Hle|Hgt].
  - destruct (IH e1 Hs Hle) as (h1 & e & h2 & -> & ? & ?). by exists (e0 :: h1), e, h2.
  - exists [], e0, (e1 :: h). split_and!; [done|done|]. constructor; [done|].
    rewrite fmap_cons, StronglySorted_cons, Forall_fmap in Hs. destruct Hs as [Hs _].
    eapply Forall_impl; [exact Hs|]. cbn. lia.
Qed.

Lemma entry_unique (h : list (AdvanceLW * ComponentStateTypeId)) x y :
  StronglySorted N.lt ((λ e, lw_now e.1) <$> h) → x ∈ h → y ∈ h → lw_now x.1 = lw_now y.1 → x = y.
Proof using.
  induction h as [|e h IH]; intros Hs Hx Hy Heq; [by apply elem_of_nil in Hx|].
  rewrite fmap_cons, StronglySorted_cons, Forall_fmap, Forall_forall in Hs. destruct Hs as [Hf Hs].
  apply elem_of_cons in Hx as [->|Hx], Hy as [->|Hy]; [done| | |by apply IH].
  - specialize (Hf y Hy). cbn in Hf. lia.
  - specialize (Hf x Hx). cbn in Hf. lia.
Qed.

(** Within the history, the answer is the last entry at or before [ts]. *)
Lemma state_at_entry defined m ts start timeout d :
  history_ok defined m → defined ≤ ts → ts ≤ last_now m →
  ∃ e, e ∈ history m ∧ lw_now e.1 ≤ ts
    ∧ (∀ x, x ∈ history m → lw_now x.1 ≤ ts → lw_now x.1 ≤ lw_now e.1)
    ∧ state_at m ts start timeout d = Ok e.2.
Proof using.
  intros [Hs Hh _ _ _ _] Hd Hle. unfold state_at. rewrite Hh.
  destruct (history m) as [|e0 h] eqn:Hm; [done|]. injection Hh as ->.
  destruct (split_at_time ts h _ Hs Hd) as (h1 & e & h2 & Heq & He & Hf). rewrite Heq in *.
  destruct (last (h1 ++ e :: h2)) as [lst|] eqn:Hl; [|by apply last_None in Hl; destruct h1].
  unfold last_now in Hle. rewrite Hm, Hl in Hle. cbn in Hle.
  exists e. split_and!; [apply elem_of_app; right; by left|done| |].
  - intros x [Hx|[->|Hx]%elem_of_cons]%elem_of_app Hxt; [|done|].
    + rewrite fmap_app, StronglySorted_app in Hs. apply N.lt_le_incl, Hs; [|by left].
      by apply (list_elem_of_fmap_2' _ _ x).
    + rewrite Forall_forall in Hf. specialize (Hf x Hx). cbn in Hf. lia.
  - cbn [fst lw_now]. rewrite (proj2 (N.ltb_ge _ _) Hd), (proj2 (N.ltb_ge _ _) Hle).
    destruct (scan_bounds_spec ts h1 e h2 Hs He Hf) as (e' & ->); [|by destruct e].
    destruct h2; [right|by left]. rewrite last_snoc in Hl. injection Hl as <-. lia.
Qed.

Lemma defined_le_last defined m : history_ok defined m → defined ≤ last_now m.
Proof using.
  intros Hok. pose proof (ho_head _ _ Hok) as Hhd. unfold last_now.
  destruct (last (history m)) as [e|] eqn:Hl; [|by apply last_None in Hl; rewrite Hl in Hhd].
  apply (sorted_last _ _ (MkAdvanceLW ratio_zero defined, TDefined) (ho_sorted _ _ Hok) Hl).
  destruct (history m); [done|]. injection Hhd as ->. by left.
Qed.

(** The history answers what the state was. *)
Lemma state_at_recorded defined i m1 m2 h ts d :
  history_ok defined m1 → history_ok defined m2 →
  history m2 = history m1 ++ h → Forall (λ e, ts < lw_now e.1) h →
  last_now m1 ≤ ts → ts ≤ last_now m2 →
  state_at m2 ts (mi_start i) (mi_timeout i) d = Ok (type_id (state m1)).
Proof using.
  intros Hok1 Hok2 Hh Hf H1 H2.
  pose proof (defined_le_last defined m1 Hok1) as Hd.
  destruct (state_at_entry defined m2 ts (mi_start i) (mi_timeout i) d Hok2 ltac:(lia) H2)
    as (e & He & Hle & Hmax & ->). f_equal.
  pose proof (ho_last _ _ Hok1) as Hl1. unfold last_now in H1.
  destruct (last (history m1)) as [l1|] eqn:Hl; [|done]. injection Hl1 as <-. f_equal.
  assert (e ∈ history m1) as He1.
  { rewrite Hh in He. apply elem_of_app in He as [He|He]; [done|].
    rewrite Forall_forall in Hf. specialize (Hf e He). cbn in Hf. lia. }
  pose proof (last_Some_elem_of _ _ Hl) as Hl1.
  apply (entry_unique (history m1)); [apply Hok1|done|done|].
  pose proof (sorted_last _ _ e (ho_sorted _ _ Hok1) Hl He1).
  specialize (Hmax l1). rewrite Hh, elem_of_app in Hmax. specialize (Hmax (or_introl Hl1) H1). lia.
Qed.

Lemma run_mip_reachable i defined m msgs :
  mip_reachable i defined m → mip_reachable i defined (run_mip i m msgs).
Proof using.
  revert m. induction msgs as [|[r t] msgs IH]; intros m Hm; [done|]. cbn. by apply IH, mr_advance.
Qed.

Lemma run_mip_history_ok i defined m msgs :
  history_ok defined m → history_ok defined (run_mip i m msgs).
Proof.
  revert m. induction msgs as [|[r t] msgs IH]; intros m Hm; [done|].
  by apply IH, on_advance_history_ok.
Qed.

Lemma last_now_run defined i m msgs max :
  history_ok defined m → last_now m ≤ max → Forall (λ t, t ≤ max) msgs.*2 →
  last_now (run_mip i m msgs) ≤ max.
Proof.
  revert m. induction msgs as [|[r t] msgs IH]; intros m Hok Hm Hf; [done|].
  apply Forall_cons in Hf as [Ht Hf]. apply IH; [by apply on_advance_history_ok| |done].
  destruct (on_advance_view defined m (advance_of i r t) Hok); [done|done|].
  unfold last_now. cbn. by rewrite last_snoc.
Qed.

(** The state only moves forward. *)
Lemma component_on_advance_mono s input :
  type_id_u32 (type_id s) ≤ type_id_u32 (type_id (component_on_advance s input)).
Proof using. destruct s; cbn; repeat case_match; cbn; lia. Qed.

Lemma on_advance_mono m input :
  type_id_u32 (type_id (state m)) ≤ type_id_u32 (type_id (state (on_advance m input))).
Proof using.
  unfold on_advance. destruct (is_forward _ _); [|done]. case_decide; [done|].
  apply component_on_advance_mono.
Qed.

Lemma run_mip_mono i m msgs :
  type_id_u32 (type_id (state m)) ≤ type_id_u32 (type_id (state (run_mip i m msgs))).
Proof using.
  revert m. induction msgs as [|[r t] msgs IH]; intros m; [done|]. etrans; [|apply IH].
  apply on_advance_mono.
Qed.
End reachable.
