(* ===== verification/MipStore.v ===== *)
(** * The store of network upgrades

    [massa-versioning/src/versioning.rs], [MipStoreRaw] and the queries of
    [MipStore]: the MIPs in order of their start, the statistics of the versions
    announced by the last blocks, and what the node answers about the version of
    the network.

    The lock around the store is left out: one call is one definition.  Reading
    from and writing to the database is not modelled here. *)

From S2P Require Import Prelude Slots Times OrdMap MipState.

Open Scope N_scope.

#[export] Instance MipComponent_countable : Countable MipComponent.
Proof.
  apply (inj_countable component_id (λ n, match n with
    | 0 => Some CAddress | 1 => Some CKeyPair | 2 => Some CBlock | 3 => Some CVM
    | 4 => Some CFinalStateHashKind | 5 => Some CExecution | 6 => Some CFinalState
    | _ => Some CNonexhaustive end)). by intros [].
Defined.

(** [iter.find_map(f)] *)
Definition find_map {A B} (f : A → option B) (l : list A) : option B := head (omap f l).

Section mip_store.
Context `{!VoteRatio}.

Record MipStatsConfig : Type := MkMipStatsConfig {
  block_count_considered : N;
  warn_announced_version_ratio : ratio }.

Record MipStoreStats : Type := MkMipStoreStats {
  stats_config : MipStatsConfig;
  latest_announcements : list N;
  network_version_counters : gmap N N }.

Definition stats_new (config : MipStatsConfig) : MipStoreStats := MkMipStoreStats config [] ∅.
Definition stats_reset (st : MipStoreStats) : MipStoreStats :=
  MkMipStoreStats (stats_config st) [] ∅.

Record MipStoreRaw : Type := MkMipStoreRaw {
  store : list (MipInfo * MipState);
  stats : MipStoreStats }.
Implicit Types (s : MipStoreRaw).

(** ** The version of the network *)

Definition get_network_version_current s : N :=
  default 0 (find_map (λ '(k, v), match state v with
                                  | Active _ => Some (mi_version k)
                                  | _ => None
                                  end) (reverse (store s))).

(** Whether a MIP counts as active at [ts]. *)
Definition active_at (k : MipInfo) (v : MipState) (ts : N) : bool :=
  match state v with
  | Active at_ => at_ <=? ts
  | LockedIn at_ => Time.saturating_add at_ (mi_activation_delay k) <? ts
  | _ => false
  end.

Definition get_network_version_active_at s (ts : N) : N :=
  default 0 (find_map (λ '(k, v), if active_at k v ts then Some (mi_version k) else None)
               (reverse (store s))).

Definition get_network_version_to_announce_at s (ts : N) : option N :=
  find_map (λ '(k, v), match state v with
                       | Started _ => Some (mi_version k)
                       | LockedIn at_ =>
                           if ts <=? Time.saturating_add at_ (mi_activation_delay k)
                           then Some (mi_version k) else None
                       | _ => None
                       end) (reverse (store s)).

Definition get_network_version_to_announce s : option N :=
  find_map (λ '(k, v), match state v with
                       | Started _ | LockedIn _ => Some (mi_version k)
                       | _ => None
                       end) (reverse (store s)).

(** ** The versions of a component *)

Definition get_latest_component_version_at s (component : MipComponent) (ts : N) : N :=
  default 0 (find_map (λ '(mi, ms),
    match bt_get component (mi_components mi), state ms with
    | Some version, (Active _ | LockedIn _) =>
        match state_at ms ts (mi_start mi) (mi_timeout mi) (mi_activation_delay mi) with
        | Ok TActive => Some version
        | _ => None
        end
    | _, _ => None
    end) (reverse (store s))).

Definition get_all_active_component_versions s (component : MipComponent) : list N :=
  0 :: omap (λ '(mi, ms), match state ms with
                          | Active _ => bt_get component (mi_components mi)
                          | _ => None
                          end) (store s).

Definition get_all_component_versions s (component : MipComponent)
    : list (N * ComponentStateTypeId) :=
  bt_from ((0, TActive) ::
    omap (λ '(mi, ms), (λ v, (v, type_id (state ms))) <$> bt_get component (mi_components mi))
      (store s)).

Definition get_mip_status s : list (MipInfo * ComponentStateTypeId) :=
  bt_from ((λ '(mi, ms), (mi, type_id (state ms))) <$> store s).

(** ** Statistics *)

(** [Ratio::new] of the votes. *)
Definition vote_ratio {E} (count considered : N) : outcome E ratio :=
  expect "denominator == 0" (ratio_new count considered).

Definition advance_states_on_updated_stats {E} s (slot_timestamp : N) : outcome E MipStoreRaw :=
  entries ← mapM (λ '(mi, ms),
      if mip_is_final ms then Ok (mi, ms)
      else
        let network_version_count :=
          default 0 (network_version_counters (stats s) !! mi_version mi) in
        r ← vote_ratio network_version_count (block_count_considered (stats_config (stats s)));
        Ok (mi, on_advance ms (MkAdvance (mi_start mi) (mi_timeout mi) (mi_activation_delay mi)
                                 r slot_timestamp)))
    (store s);
  Ok (MkMipStoreRaw entries (stats s)).

(** The oldest announcement leaves when the window is full; [VecDeque::pop_front]. *)
Definition pop_announcement (st : MipStoreStats) : option N * list N :=
  if block_count_considered (stats_config st) <=? N.of_nat (length (latest_announcements st))
  then (head (latest_announcements st), tail (latest_announcements st))
  else (None, latest_announcements st).

(** One announcement: the new statistics and the count the warning is about. *)
Definition count_announcement (st : MipStoreStats) (announced : N) : MipStoreStats * N :=
  let '(removed, announcements) := pop_announcement st in
  let count := match network_version_counters st !! announced with
               | Some v => saturating_add u64_max v 1
               | None => 1
               end in
  let counters := <[announced := count]> (network_version_counters st) in
  let '(counters, count) :=
    match removed with
    | Some v =>
        match counters !! v with
        | Some c =>
            let c := saturating_sub c 1 in
            (if c =? 0 then delete v counters else <[v := c]> counters, c)
        | None => (counters, count)
        end
    | None => (counters, count)
    end in
  (MkMipStoreStats (stats_config st) (announcements ++ [announced]) counters, count).

(** Whether the user is warned that an unknown version is announced. *)
Definition announcement_warning {E} s (announced count : N) : outcome E bool :=
  if announced =? 0 then Ok false
  else
    r ← vote_ratio count (block_count_considered (stats_config (stats s)));
    Ok (bool_decide (cmp_lt (warn_announced_version_ratio (stats_config (stats s))) r)
        && match last (store s) with
           | Some (mi, _) => mi_version mi <? announced
           | None => false
           end).

Definition update_network_version_stats {E} s (slot_timestamp : N)
    (network_versions : option (N * option N)) : outcome E (bool * MipStoreRaw) :=
  '(warned, s) ←
    match network_versions with
    | Some (_, announced) =>
        let announced := default 0 announced in
        let '(st, count) := count_announcement (stats s) announced in
        let s := MkMipStoreRaw (store s) st in
        warned ← announcement_warning s announced count;
        Ok (warned, s)
    | None => Ok (false, s)
    end;
  s ← advance_states_on_updated_stats s slot_timestamp;
  Ok (warned, s).

(** ** Merging another store *)

Inductive UpdateWithError : Type :=
| UNonConsistent (i : MipInfo) (m : MipState) (e : IsConsistentError)
| UDowngrade (i : MipInfo) (a b : ComponentState)
| UOverlapping (i j : MipInfo)
| UInvalidActivationDelay (i : MipInfo) (d min : N).

(** [T0.saturating_mul(PERIODS_PER_CYCLE)] *)
Definition VERSIONING_ACTIVATION_DELAY_MIN : N := Time.saturating_mul 16000 128.

Record merge : Type := MkMerge {
  component_versions : gmap MipComponent N;
  names : gset (list N);
  to_update : list (MipInfo * MipState);
  to_add : list (MipInfo * MipState) }.

Definition add_components (i : MipInfo) (cv : gmap MipComponent N) : gmap MipComponent N :=
  foldl (λ cv '(c, v), <[c := v]> cv) cv (mi_components i).

Definition component_version_compatible (i : MipInfo) (cv : gmap MipComponent N) : bool :=
  forallb (λ '(c, v), default 0 (cv !! c) <? v) (mi_components i).

(** A MIP that the node does not know. *)
Definition merge_new s (acc : merge) (i : MipInfo) (m : MipState) : outcome UpdateWithError merge :=
  let last_info := match last (to_add acc) with
                   | Some (mi, _) => Some mi
                   | None => fst <$> last (store s)
                   end in
  match last_info with
  | Some lst =>
      if mi_activation_delay i <? VERSIONING_ACTIVATION_DELAY_MIN
      then Err (UInvalidActivationDelay i (mi_activation_delay i) VERSIONING_ACTIVATION_DELAY_MIN)
      else if (mi_timeout lst <? mi_start i) && (mi_start i <? mi_timeout i)
              && (mi_version lst <? mi_version i) && bool_decide (mi_name i ∉ names acc)
              && component_version_compatible i (component_versions acc)
      then Ok (MkMerge (add_components i (component_versions acc)) (names acc ∪ {[mi_name i]})
                 (to_update acc) (bt_insert i m (to_add acc)))
      else Err (UOverlapping i lst)
  | None =>
      Ok (MkMerge (component_versions acc) (names acc ∪ {[mi_name i]}) (to_update acc)
            (bt_insert i m (to_add acc)))
  end.

Definition merge_entry s (acc : merge) (entry : MipInfo * MipState) : outcome UpdateWithError merge :=
  let '(i, m) := entry in
  _ ← map_err (UNonConsistent i m) (is_consistent_with m i);
  match bt_get i (store s) with
  | Some orig =>
      if mip_is_final orig then Ok acc
      else if type_id_u32 (type_id (state orig)) <=? type_id_u32 (type_id (state m))
      then Ok (MkMerge (component_versions acc) (names acc) (bt_insert i m (to_update acc)) (to_add acc))
      else Err (UDowngrade i (state orig) (state m))
  | None => merge_new s acc i m
  end.

(** The updated infos, the unknown MIPs and the new store. *)
Definition update_with s (other : MipStoreRaw)
    : outcome UpdateWithError (list MipInfo * list (MipInfo * MipState) * MipStoreRaw) :=
  acc ← foldM (merge_entry s) (store other)
          (MkMerge (foldl (λ cv e, add_components e.1 cv) ∅ (store s))
             (list_to_set (mi_name ∘ fst <$> store s)) [] []);
  Ok ((to_update acc).*1, to_add acc,
      MkMipStoreRaw (bt_append (store s) (to_update acc)) (stats s)).

(** [MipStoreRaw::try_from] of an array. *)
Definition try_from (value : list (MipInfo * MipState)) (cfg : MipStatsConfig)
    : outcome UpdateWithError MipStoreRaw :=
  '(_, added, s) ← update_with (MkMipStoreRaw [] (stats_new cfg))
                     (MkMipStoreRaw (bt_from value) (stats_new cfg));
  Ok (MkMipStoreRaw (bt_append (store s) added) (stats s)).

(** ** Network shutdown *)

Inductive ShutdownError : Type :=
| ShutdownModels (e : ModelsError)
| ShutdownNonConsistent (i : MipInfo) (st : ComponentState) (a b : N).

Definition in_range (a b t : N) : bool := (a <=? t) && (t <=? b).

Definition is_consistent_with_shutdown_period s (shutdown_start shutdown_end : Slot)
    (thread_count t0 genesis_timestamp : N) : outcome ShutdownError unit :=
  a ← map_err ShutdownModels
        (get_block_slot_timestamp thread_count t0 genesis_timestamp shutdown_start);
  b ← map_err ShutdownModels
        (get_block_slot_timestamp thread_count t0 genesis_timestamp shutdown_end);
  foldM (λ _ '(i, m),
      if mip_is_final m then Ok tt
      else if in_range a b (mi_start i) || in_range a b (mi_timeout i)
      then Err (ShutdownNonConsistent i (state m) a b)
      else Ok tt)
    (store s) tt.

Definition shift_info (i : MipInfo) (offset : N) : MipInfo :=
  let start := Time.saturating_add (mi_start i) offset in
  MkMipInfo (mi_name i) (mi_version i) (mi_components i) start
    (Time.saturating_add start (Time.saturating_sub (mi_timeout i) (mi_start i)))
    (mi_activation_delay i).

(** The offset, fixed by the first MIP that is moved. *)
Definition shift_offset (next_valid_start : N) (i : MipInfo) (offset : option N) : N :=
  match offset with
  | Some o => o
  | None => Time.saturating_sub next_valid_start (mi_start i)
  end.

Definition shutdown_entry (a b next_valid_start : N)
    (acc : option N * list (MipInfo * MipState)) (entry : MipInfo * MipState)
    : outcome ModelsError (option N * list (MipInfo * MipState)) :=
  let '(offset, new_store) := acc in
  let '(i, m) := entry in
  match state m with
  | Defined =>
      if in_range a b (mi_start i) then
        let o := shift_offset next_valid_start i offset in
        Ok (Some o, bt_insert (shift_info i o) m new_store)
      else Ok (offset, bt_insert i m new_store)
  | Started _ | LockedIn _ =>
      let o := shift_offset next_valid_start i offset in
      m ← ok_or (ErrorRaised "Unable to reset state") (reset_from m);
      Ok (Some o, bt_insert (shift_info i o) m new_store)
  | _ => Ok (offset, bt_insert i m new_store)
  end.

Definition update_for_network_shutdown s (shutdown_start shutdown_end : Slot)
    (thread_count t0 genesis_timestamp : N) : outcome ModelsError MipStoreRaw :=
  a ← get_block_slot_timestamp thread_count t0 genesis_timestamp shutdown_start;
  b ← get_block_slot_timestamp thread_count t0 genesis_timestamp shutdown_end;
  next_slot ← get_next_slot shutdown_end thread_count;
  next_valid_start ← get_block_slot_timestamp thread_count t0 genesis_timestamp next_slot;
  '(_, new_store) ← foldM (shutdown_entry a b next_valid_start) (store s) (None, []);
  Ok (MkMipStoreRaw new_store (stats_reset (stats s))).
End mip_store.
