(* ===== verification/Rationals.v ===== *)
(** * Rationals as vote ratios

    The interface [VoteRatio] holds of the rational numbers: the instance on
    which the theorems about network upgrades are evaluated. *)

From Stdlib Require Import QArith Qcanon.
From S2P Require Import Prelude OrdMap MipState.

Open Scope N_scope.

Definition fraction (n d : N) : Q := Z.of_N n # N.succ_pos (d - 1).

#[export] Instance rational_ratio : VoteRatio := {|
  ratio := Qc;
  ratio_eq_dec := Qc_eq_dec;
  ratio_ord := Qccompare;
  ratio_zero := Q2Qc 0;
  ratio_new n d := if d =? 0 then None else Some (Q2Qc (fraction n d)) |}.

Lemma compare_fraction n d n' d' :
  d ≠ 0 → d' ≠ 0 → Qccompare (Q2Qc (fraction n d)) (Q2Qc (fraction n' d')) = (n * d' ?= n' * d).
Proof.
  intros Hd Hd'. unfold Qccompare, Q2Qc, this. rewrite !Qred_correct. unfold Qcompare, fraction. cbn.
  rewrite <-!N2Z.inj_pos, !N.succ_pos_spec, <-!N2Z.inj_mul, N2Z.inj_compare.
  by rewrite !N.sub_1_r, !N.succ_pred by done.
Qed.

#[export] Instance rational_ratio_laws : VoteRatioLaws.
Proof.
  split; cbn.
  - split; unfold cmp, ratio_ord; cbn.
    + intros a b. symmetry. apply Qceq_alt.
    + intros a b. unfold Qccompare. symmetry. apply Qcompare_antisym.
    + intros a b c. rewrite <-!Qclt_alt. apply Qclt_trans.
  - intros n d. destruct (N.eqb_spec d 0); split; done || by eexists.
  - intros n d r n' d' r'. destruct (N.eqb_spec d 0); [done|]. destruct (N.eqb_spec d' 0); [done|].
    intros [= <-] [= <-]. by apply compare_fraction.
  - done.
Qed.
