(* ===== verification/MipStoreFacts.v ===== *)
(** * What the store of network upgrades guarantees

    The invariant of the announcement statistics, the exactness of the
    consistency check, the acceptance threshold, the agreement of nodes on the
    version of the network, the merge of stores and the shift at a shutdown. *)

From S2P Require Import Prelude Slots Times OrdMap MipState MipStore Rationals.

Open Scope N_scope.

(** ** The announcement statistics *)

Definition occurrences (v : N) (l : list N) : N := N.of_nat (length (filter (λ x, x = v) l)).

Lemma occurrences_cons v x l :
  occurrences v (x :: l) = (if decide (x = v) then 1 else 0) + occurrences v l.
Proof. unfold occurrences. rewrite filter_cons. case_decide; cbn [length]; lia. Qed.
Lemma occurrences_app v l1 l2 : occurrences v (l1 ++ l2) = occurrences v l1 + occurrences v l2.
Proof. unfold occurrences. rewrite filter_app, length_app. lia. Qed.
Lemma occurrences_le v l : occurrences v l ≤ N.of_nat (length l).
Proof. unfold occurrences. pose proof (length_filter (λ x, x = v) l). lia. Qed.

Lemma occurrences_perm v l l' : l ≡ₚ l' → occurrences v l = occurrences v l'.
Proof. intros Hp. unfold occurrences. by rewrite Hp. Qed.

(** [m] counts the elements of [l], without zero entries. *)
Definition counts (m : gmap N N) (l : list N) : Prop :=
  ∀ v, m !! v = if occurrences v l =? 0 then None else Some (occurrences v l).

Lemma counts_perm m l l' : l ≡ₚ l' → counts m l → counts m l'.
Proof. intros Hp Hc v. by rewrite Hc, (occurrences_perm v l l'). Qed.
Lemma counts_default m l v : counts m l → default 0 (m !! v) = occurrences v l.
Proof. intros Hc. rewrite Hc. destruct (N.eqb_spec (occurrences v l) 0); cbn; lia. Qed.
Lemma counts_push m l a : counts m l → counts (<[a := occurrences a l + 1]> m) (a :: l).
Proof.
  intros Hc v. rewrite occurrences_cons. case_decide as Ha.
  - subst v. rewrite lookup_insert_eq, (proj2 (N.eqb_neq _ _)) by lia. f_equal. lia.
  - by rewrite lookup_insert_ne, N.add_0_l by done.
Qed.
Lemma counts_pop m l r :
  counts m (r :: l) →
  m !! r = Some (occurrences r l + 1)
  ∧ counts (if occurrences r l =? 0 then delete r m else <[r := occurrences r l]> m) l.
Proof.
  intros Hc. split.
  - rewrite Hc, occurrences_cons, decide_True by done.
    rewrite (proj2 (N.eqb_neq _ _)) by lia. f_equal. lia.
  - intros v. destruct (decide (r = v)) as [<-|Hv].
    + destruct (N.eqb_spec (occurrences r l) 0); [by rewrite lookup_delete_eq|by rewrite lookup_insert_eq].
    + transitivity (m !! v); [|by rewrite Hc, occurrences_cons, decide_False, N.add_0_l by done].
      destruct (_ =? 0); [by rewrite lookup_delete_ne|by rewrite lookup_insert_ne].
Qed.

Section stats.
Context `{!VoteRatio, !VoteRatioLaws}.
Implicit Types (st : MipStoreStats) (s : MipStoreRaw).

(** The counters count the announcements of the window. *)
Record stats_ok st : Prop := {
  so_counts : counts (network_version_counters st) (latest_announcements st);
  so_window : N.of_nat (length (latest_announcements st)) ≤ block_count_considered (stats_config st) }.

Lemma stats_new_ok cfg : stats_ok (stats_new cfg).
Proof using. split; cbn; [done|lia]. Qed.
Lemma stats_reset_ok st : stats_ok (stats_reset st).
Proof using. split; cbn; [done|lia]. Qed.

(** The window after an announcement. *)
Definition window st (announced : N) : list N := (pop_announcement st).2 ++ [announced].

Lemma window_length st a :
  stats_ok st → 0 < block_count_considered (stats_config st) →
  N.of_nat (length (window st a)) ≤ block_count_considered (stats_config st).
Proof using.
  intros [_ Hw] Hp. unfold window, pop_announcement.
  destruct (N.leb_spec (block_count_considered (stats_config st))
    (N.of_nat (length (latest_announcements st)))); rewrite length_app; cbn [snd length].
  - destruct (latest_announcements st); cbn in *; lia.
  - lia.
Qed.

Lemma count_announcement_ok st a :
  stats_ok st → 0 < block_count_considered (stats_config st) < u64_max →
  stats_ok (count_announcement st a).1
  ∧ latest_announcements (count_announcement st a).1 = window st a
  ∧ stats_config (count_announcement st a).1 = stats_config st.
Proof using.
  intros Hok Hp. pose proof Hok as [Hc Hw]. pose proof (window_length st a Hok ltac:(lia)) as Hwl.
  unfold count_announcement, window in *. destruct (pop_announcement st) as [removed ann] eqn:Hpop.
  assert (latest_announcements st = match removed with Some r => r :: ann | None => ann end) as Hann.
  { revert Hpop. unfold pop_announcement. destruct (_ <=? _) eqn:Hle; [|by intros [= <- <-]].
    apply N.leb_le in Hle. destruct (latest_announcements st); cbn in *; [lia|by intros [= <- <-]]. }
  assert (match network_version_counters st !! a with
          | Some v => saturating_add u64_max v 1 | None => 1 end
          = occurrences a (latest_announcements st) + 1) as ->.
  { rewrite Hc. pose proof (occurrences_le a (latest_announcements st)).
    destruct (N.eqb_spec (occurrences a (latest_announcements st)) 0) as [->|]; [done|].
    unfold saturating_add. lia. }
  apply (counts_push _ _ a) in Hc. rewrite Hann in *. destruct removed as [r|]; cbn [fst snd] in *.
  - apply (counts_perm _ _ (r :: ann ++ [a])) in Hc; [|solve_Permutation].
    apply counts_pop in Hc as [-> Hc]. unfold saturating_sub. rewrite N.add_sub.
    split_and!; [|done|done]. by split.
  - split_and!; [|done|done]. split; [|done]. eapply counts_perm, Hc. solve_Permutation.
Qed.

(** ** One slot *)

(** The votes for a version, as a ratio of the window. *)
Definition votes st (version : N) : ratio :=
  default ratio_zero (ratio_new (occurrences version (latest_announcements st))
                        (block_count_considered (stats_config st))).

Definition advance_entry st (ts : N) (e : MipInfo * MipState) : MipInfo * MipState :=
  (e.1, on_advance e.2 (advance_of e.1 (votes st (mi_version e.1)) ts)).

Lemma on_advance_final m input : mip_is_final m = true → on_advance m input = m.
Proof using.
  unfold mip_is_final, on_advance. intros Hf.
  assert (component_on_advance (state m) input = state m) as -> by (by destruct (state m)).
  by rewrite decide_True; destruct (is_forward m (now input)).
Qed.

Lemma advance_states_spec {E} s ts :
  stats_ok (stats s) → 0 < block_count_considered (stats_config (stats s)) →
  advance_states_on_updated_stats s ts
  = @Ok E _ (MkMipStoreRaw (advance_entry (stats s) ts <$> store s) (stats s)).
Proof.
  intros [Hc _] Hp. unfold advance_states_on_updated_stats.
  rewrite (mapM_Ok _ (advance_entry (stats s) ts)); [done|].
  intros [mi ms] _. unfold advance_entry. cbn [fst snd]. destruct (mip_is_final ms) eqn:Hf.
  - by rewrite on_advance_final.
  - rewrite (counts_default _ _ _ Hc). unfold vote_ratio, votes.
    destruct (proj2 (ratio_new_total (occurrences (mi_version mi) (latest_announcements (stats s)))
      (block_count_considered (stats_config (stats s)))) ltac:(lia)) as [r ->]. done.
Qed.

Lemma announcement_warning_total {E} s a c :
  0 < block_count_considered (stats_config (stats s)) →
  ∃ w, announcement_warning s a c = @Ok E _ w.
Proof.
  intros Hp. unfold announcement_warning. destruct (a =? 0); [by eexists|].
  destruct (proj2 (ratio_new_total c (block_count_considered (stats_config (stats s)))) ltac:(lia))
    as [r Hr]. unfold vote_ratio. rewrite Hr. by eexists.
Qed.

(** The statistics after the versions of a slot are noted. *)
Definition noted st (versions : option (N * option N)) : MipStoreStats :=
  match versions with
  | Some (_, a) => (count_announcement st (default 0 a)).1
  | None => st
  end.

Lemma noted_ok st versions :
  stats_ok st → 0 < block_count_considered (stats_config st) < u64_max →
  stats_ok (noted st versions) ∧ stats_config (noted st versions) = stats_config st.
Proof using.
  intros Hok Hp. destruct versions as [[? a]|]; [|done]. cbn.
  by destruct (count_announcement_ok st (default 0 a) Hok Hp) as (? & _ & ?).
Qed.

Lemma update_stats_spec {E} s ts versions :
  stats_ok (stats s) → 0 < block_count_considered (stats_config (stats s)) < u64_max →
  ∃ w, update_network_version_stats s ts versions
    = @Ok E _ (w, MkMipStoreRaw (advance_entry (noted (stats s) versions) ts <$> store s)
                    (noted (stats s) versions)).
Proof.
  intros Hok Hp. destruct (noted_ok (stats s) versions Hok Hp) as [Hok' Hcfg].
  unfold update_network_version_stats. destruct versions as [[cur a]|]; cbn [noted] in *.
  - destruct (count_announcement (stats s) (default 0 a)) as [st c]. cbn [fst] in *.
    destruct (announcement_warning_total (E := E) (MkMipStoreRaw (store s) st) (default 0 a) c) as [w Hw];
      [cbn; rewrite Hcfg; lia|].
    exists w. cbn zeta. rewrite Hw. cbn [mbind outcome_bind].
    by rewrite advance_states_spec by (cbn; rewrite ?Hcfg; done || lia).
  - exists false. cbn [mbind outcome_bind]. by rewrite advance_states_spec by (done || lia).
Qed.

Lemma threshold_accepted_iff n d r :
  ratio_new n d = Some r → threshold_accepted r = true ↔ d ≤ 2 * n.
Proof.
  intros Hr. unfold threshold_accepted.
  destruct (proj2 (ratio_new_total 50 100) ltac:(done)) as [h Hh]. rewrite Hh, bool_decide_eq_true.
  unfold cmp_le. rewrite (ratio_new_cmp _ _ _ _ _ _ Hh Hr).
  rewrite N.compare_le_iff. lia.
Qed.

Lemma votes_accepted st v :
  0 < block_count_considered (stats_config st) →
  threshold_accepted (votes st v) = true
  ↔ block_count_considered (stats_config st) ≤ 2 * occurrences v (latest_announcements st).
Proof.
  intros Hp. unfold votes.
  destruct (proj2 (ratio_new_total (occurrences v (latest_announcements st))
    (block_count_considered (stats_config st))) ltac:(lia)) as [r Hr].
  rewrite Hr. by apply threshold_accepted_iff.
Qed.

Lemma advance_started m i r0 r t :
  history m ≠ [] → last_now m < t → state m = Started r0 → t < mi_timeout i →
  state (on_advance m (advance_of i r t)) = if threshold_accepted r then LockedIn t else Started r.
Proof using.
  intros Hh Hlt Hm Ht. unfold on_advance. change (now (advance_of i r t)) with t.
  rewrite (proj2 (is_forward_iff m _ Hh) Hlt), Hm. cbn -[decide].
  rewrite (proj2 (N.leb_gt _ _) Ht). destruct (threshold_accepted r); [done|].
  case_decide as Heq; [by rewrite Hm|done].
Qed.

(** ** Agreement on the version *)

(** A final state stays. *)
Lemma run_mip_final i m msgs : mip_is_final m = true → run_mip i m msgs = m.
Proof using.
  intros Hf. induction msgs as [|[r t] msgs IH]; [done|]. cbn.
  by rewrite on_advance_final.
Qed.

Lemma on_advance_locked m i at_ r t :
  history m ≠ [] → last_now m < t → state m = LockedIn at_ →
  if Time.saturating_add at_ (mi_activation_delay i) <? t
  then state (on_advance m (advance_of i r t)) = Active t
  else on_advance m (advance_of i r t) = m.
Proof using.
  intros Hh Hlt Hm. unfold on_advance. change (now (advance_of i r t)) with t.
  rewrite (proj2 (is_forward_iff m _ Hh) Hlt), Hm. cbn -[decide].
  destruct (_ <? t); [done|]. by rewrite decide_True.
Qed.

(** A locked MIP becomes active at the first slot past its activation time. *)
Lemma run_locked defined m i at_ msgs :
  history_ok defined m → state m = LockedIn at_ →
  StronglySorted N.lt msgs.*2 → Forall (λ t, last_now m < t) msgs.*2 →
  let due := Time.saturating_add at_ (mi_activation_delay i) in
  (state (run_mip i m msgs) = LockedIn at_ ∧ Forall (λ t, t ≤ due) msgs.*2)
  ∨ ∃ t0, state (run_mip i m msgs) = Active t0 ∧ due < t0
      ∧ Forall (λ t, due < t → t0 ≤ t) msgs.*2.
Proof using.
  intros Hok Hm. cbn zeta. set (due := Time.saturating_add at_ (mi_activation_delay i)).
  assert (history m ≠ []) as Hh.
  { intros He. pose proof (ho_head _ _ Hok) as Hhd. by rewrite He in Hhd. }
  induction msgs as [|[r t] msgs IH]; cbn [fmap list_fmap snd]; intros Hs Hf; [left; by split|].
  apply Forall_cons in Hf as [Ht Hf]. apply StronglySorted_cons in Hs as [Hft Hs].
  pose proof (on_advance_locked m i at_ r t Hh Ht Hm) as Ha. fold due in Ha.
  cbn [run_mip foldl]. destruct (N.ltb_spec due t) as [Hd|Hd].
  - right. exists t. pose proof (run_mip_final i (on_advance m (advance_of i r t)) msgs
      ltac:(unfold mip_is_final; by rewrite Ha)) as Hrun.
    unfold run_mip in Hrun. rewrite Hrun. split_and!; [done|done|]. constructor; [lia|].
    eapply Forall_impl; [exact Hft|]. cbn. lia.
  - rewrite Ha. destruct (IH Hs Hf) as [[H1 H2]|(t0 & H1 & H2 & H3)].
    + left. split; [done|]. by constructor.
    + right. exists t0. split_and!; [done|done|]. constructor; [lia|done].
Qed.

Lemma state_on_advance m input :
  state (on_advance m input) = state m
  ∨ state (on_advance m input) = component_on_advance (state m) input.
Proof using.
  unfold on_advance. destruct (is_forward _ _); [|by left]. case_decide; [by left|]. by right.
Qed.

(** No slot of the span is past the activation of a MIP locked in during it. *)
Definition within_delay i (ts : list N) : Prop :=
  ∀ t t', t ∈ ts → t' ∈ ts → t' ≤ Time.saturating_add t (mi_activation_delay i).

(** A MIP that is not locked in at the start of the span is not active in it. *)
Lemma run_pending m i msgs :
  (state m = Defined ∨ ∃ r, state m = Started r) → within_delay i msgs.*2 →
  match state (run_mip i m msgs) with
  | LockedIn t => t ∈ msgs.*2
  | Active _ => False
  | _ => True
  end.
Proof.
  intros Hm. induction msgs as [|[r t] msgs IH] using rev_ind; intros Hw.
  { cbn. destruct Hm as [->|[r ->]]; done. }
  assert (within_delay i msgs.*2) as Hw'.
  { intros t1 t2 H1 H2. apply Hw; rewrite fmap_app; set_solver. }
  specialize (IH Hw'). unfold run_mip in *. rewrite foldl_snoc.
  set (m' := foldl _ m msgs) in *. assert (t ∈ (msgs ++ [(r, t)]).*2) as Hin.
  { rewrite fmap_app. apply elem_of_app. right. by left. }
  destruct (state_on_advance m' (advance_of i r t)) as [->| ->].
  - destruct (state m'); [done..| |done|done]. rewrite fmap_app. set_solver.
  - destruct (state m') as [| |r'|at_|at_|]; cbn; [done|by repeat case_match| | |done|done].
    + destruct (_ <=? _); [done|]. by destruct (threshold_accepted r).
    + rewrite fmap_app in *. assert (at_ ∈ msgs.*2 ++ [(r, t)].*2) by (apply elem_of_app; by left).
      destruct (N.ltb_spec (Time.saturating_add at_ (mi_activation_delay i)) t) as [Hlt|]; [|done].
      pose proof (Hw at_ t ltac:(done) Hin). lia.
Qed.

(** What a node answers about a slot does not depend on how far it has got. *)
Lemma active_at_run defined m i msgs ts :
  history_ok defined m → StronglySorted N.lt msgs.*2 → Forall (λ t, last_now m < t) msgs.*2 →
  within_delay i msgs.*2 → ts ∈ msgs.*2 →
  active_at i (run_mip i m msgs) ts = active_at i m ts.
Proof.
  intros Hok Hs Hf Hw Hts.
  destruct (mip_is_final m) eqn:Hfin; [by rewrite run_mip_final|].
  destruct (state m) as [| |r|at_|at_|] eqn:Hm; unfold mip_is_final in Hfin; rewrite Hm in Hfin;
    try done.
  - pose proof (run_pending m i msgs (or_introl Hm) Hw) as Hp. unfold active_at. rewrite Hm.
    destruct (state (run_mip i m msgs)); try done. apply N.ltb_ge. by apply Hw.
  - pose proof (run_pending m i msgs (or_intror (ex_intro _ r Hm)) Hw) as Hp. unfold active_at.
    rewrite Hm. destruct (state (run_mip i m msgs)); try done. apply N.ltb_ge. by apply Hw.
  - unfold active_at. rewrite Hm.
    destruct (run_locked defined m i at_ msgs Hok Hm Hs Hf) as [[-> _]|(t0 & -> & Hd & Hfa)]; [done|].
    rewrite Forall_forall in Hfa. specialize (Hfa ts Hts).
    destruct (N.ltb_spec (Time.saturating_add at_ (mi_activation_delay i)) ts) as [Hlt|Hge].
    + apply N.leb_le. by apply Hfa.
    + apply N.leb_gt. lia.
Qed.

(** The time-based query and the one on the history agree. *)
Lemma state_at_active defined m i ts :
  history_ok defined m → last_now m ≤ u64_max → defined ≤ ts →
  match state m with
  | Active _ | LockedIn _ =>
      state_at m ts (mi_start i) (mi_timeout i) (mi_activation_delay i) = Ok TActive
  | _ => False
  end ↔ active_at i m ts = true.
Proof.
  intros Hok Hmax Hd. pose proof Hok as [Hs Hh Hl Hst Hat Hac].
  destruct (last (history m)) as [lst|] eqn:Hlst; [|done]. cbn in Hl. injection Hl as Hl.
  assert (last_now m = lw_now lst.1) as Hln by (unfold last_now; by rewrite Hlst).
  unfold active_at. destruct (decide (last_now m < ts)) as [Hlt|Hge].
  - assert (state_at m ts (mi_start i) (mi_timeout i) (mi_activation_delay i)
      = if bool_decide (lst.2 = TStarted) && negb (threshold_accepted (lw_threshold lst.1))
           && (ts <? mi_timeout i)
        then Err Unpredictable
        else Ok (type_id (component_on_advance (state m)
               (MkAdvance (mi_start i) (mi_timeout i) (mi_activation_delay i) (lw_threshold lst.1) ts))))
      as ->.
    { unfold state_at. rewrite Hh, Hlst. cbn [fst lw_now]. rewrite (proj2 (N.ltb_ge _ _) Hd).
      rewrite (proj2 (N.ltb_lt _ _)) by lia. by destruct lst. }
    rewrite Hl. destruct (state m) as [| |r|at_|at_|] eqn:Hm; cbn; try done.
    + destruct (_ <? ts) eqn:?; cbn; [naive_solver|]. split; [intros [=]|done].
    + rewrite N.leb_le. rewrite (Hat at_) in Hlt by (by right). split; [lia|done].
  - destruct (state_at_entry defined m ts (mi_start i) (mi_timeout i) (mi_activation_delay i)
      Hok Hd ltac:(lia)) as (e & He & Hle & Hmx & ->).
    assert (e.2 = TActive → lst = e) as Hlast.
    { intros HeA. pose proof (Hac e He HeA) as Hx. by injection Hx. }
    destruct (state m) as [| |r|at_|at_|] eqn:Hm; try done.
    + split; [|intros Hlt%N.ltb_lt].
      * intros [= HeA]. rewrite (Hlast HeA) in Hl. by rewrite HeA in Hl.
      * pose proof (Hat at_ (or_introl eq_refl)). unfold Time.saturating_add, saturating_add in Hlt. lia.
    + pose proof (Hat at_ (or_intror eq_refl)). rewrite N.leb_le. split.
      * intros [= HeA]. rewrite (Hlast HeA) in Hln. lia.
      * intros Hat_. f_equal. transitivity lst.2; [f_equal|done].
        apply (entry_unique (history m)); [done|done|by apply last_Some_elem_of|].
        pose proof (sorted_last _ _ e Hs Hlst He).
        pose proof (Hmx lst (last_Some_elem_of _ _ Hlst) ltac:(lia)). lia.
Qed.

(** ** Runs of slots *)

(** The final slots of a node, each with the versions of its block. *)
Definition slot_run {E} s (slots : list (N * option (N * option N))) : outcome E MipStoreRaw :=
  foldM (λ s '(ts, versions),
           '(_, s) ← update_network_version_stats s ts versions; Ok s) slots s.

Definition advanced (ts : list N) (e e' : MipInfo * MipState) : Prop :=
  e'.1 = e.1 ∧ ∃ msgs, msgs.*2 = ts ∧ e'.2 = run_mip e.1 e.2 msgs.

Lemma slot_run_spec {E} s slots :
  stats_ok (stats s) → 0 < block_count_considered (stats_config (stats s)) < u64_max →
  ∃ s', slot_run s slots = @Ok E _ s' ∧ stats_ok (stats s')
    ∧ stats_config (stats s') = stats_config (stats s)
    ∧ Forall2 (advanced slots.*1) (store s) (store s').
Proof.
  revert s. induction slots as [|[ts versions] slots IH]; intros s Hok Hp; cbn [slot_run foldM].
  - exists s. split_and!; [done..|]. apply Forall_Forall2_diag, Forall_forall. intros e _.
    split; [done|]. by exists [].
  - destruct (update_stats_spec (E := E) s ts versions Hok Hp) as [w ->].
    destruct (noted_ok (stats s) versions Hok Hp) as [Hok' Hcfg]. cbn [mbind outcome_bind].
    destruct (IH (MkMipStoreRaw (advance_entry (noted (stats s) versions) ts <$> store s)
      (noted (stats s) versions)) Hok') as (s' & Hs' & Hok2 & Hcfg2 & Hall); [cbn; by rewrite Hcfg|].
    exists s'. split_and!; [done|done|by rewrite Hcfg2|]. cbn [store] in Hall.
    rewrite Forall2_fmap_l in Hall. eapply Forall2_impl; [exact Hall|].
    intros e e' [H1 (msgs & H2 & H3)]. split; [done|].
    exists ((votes (noted (stats s) versions) (mi_version e.1), ts) :: msgs). by rewrite fmap_cons, H2.
Qed.

Lemma Forall2_with {A B} (P : A → Prop) (R : A → B → Prop) l k :
  Forall P l → Forall2 R l k → Forall2 (λ x y, P x ∧ R x y) l k.
Proof using.
  intros HP HR. induction HR as [|x y l k Hxy _ IH]; [constructor|].
  apply Forall_cons in HP as [Hx HP]. constructor; [done|by apply IH].
Qed.

Lemma find_map_reverse_ext {A B C} (f : A → option C) (g : B → option C) l l' :
  Forall2 (λ x y, f x = g y) l l' → find_map f (reverse l) = find_map g (reverse l').
Proof using.
  intros Hf%Forall2_reverse. unfold find_map. f_equal.
  induction Hf as [|x y l1 l2 Hxy _ IH]; [done|]. cbn. rewrite Hxy. by destruct (g y); rewrite IH.
Qed.

(** The span of slots by which one node is ahead of another. *)
Record lag_ok (ts : list N) (e : MipInfo * MipState) : Prop := {
  lk_reachable : ∃ defined, mip_reachable e.1 defined e.2;
  lk_max : last_now e.2 ≤ u64_max;
  lk_later : Forall (λ t, last_now e.2 < t) ts;
  lk_delay : within_delay e.1 ts }.

Lemma advanced_active ts e e' t :
  StronglySorted N.lt ts → lag_ok ts e → advanced ts e e' → t ∈ ts →
  active_at e'.1 e'.2 t = active_at e.1 e.2 t.
Proof.
  intros Hs [[d Hr%mip_reachable_history_ok] _ Hl Hw] [-> (msgs & <- & ->)] Ht.
  by apply (active_at_run d).
Qed.

Lemma advanced_component ts e e' t c :
  StronglySorted N.lt ts → Forall (λ t, t ≤ u64_max) ts → lag_ok ts e → advanced ts e e' → t ∈ ts →
  let at_time (x : MipInfo * MipState) := let '(mi, ms) := x in
    match bt_get c (mi_components mi), state ms with
    | Some version, (Active _ | LockedIn _) =>
        match state_at ms t (mi_start mi) (mi_timeout mi) (mi_activation_delay mi) with
        | Ok TActive => Some version
        | _ => None
        end
    | _, _ => None
    end in
  at_time e' = at_time e.
Proof.
  intros Hs Hmax Hlag Hadv Ht. pose proof (advanced_active ts e e' t Hs Hlag Hadv Ht) as Hact.
  destruct Hlag as [[d Hr%mip_reachable_history_ok] Hm Hl Hw].
  destruct e as [i m], e' as [i' m'], Hadv as [[= ->] (msgs & <- & [= ->])]. cbn in *.
  destruct (bt_get c (mi_components i)); [|done].
  assert (d < t) as Hd.
  { pose proof (defined_le_last d m Hr). rewrite Forall_forall in Hl. specialize (Hl t Ht). cbn in *. lia. }
  pose proof (state_at_active d m i t Hr Hm ltac:(lia)) as H1.
  pose proof (run_mip_history_ok i d m msgs Hr) as Hok'.
  pose proof (state_at_active d (run_mip i m msgs) i t Hok' (last_now_run d i m msgs _ Hr Hm Hmax)
    ltac:(lia)) as H2.
  rewrite Hact in H2. rewrite <-H1 in H2. clear H1 Hact.
  destruct (state m), (state (run_mip i m msgs)); try done; try tauto;
    repeat match goal with |- context [state_at ?a ?b ?c ?d ?e] =>
      destruct (state_at a b c d e) as [[]| | |] end; naive_solver.
Qed.
End stats.

(** ** Merging and moving network upgrades

    Facts about [update_with], [try_from] and [update_for_network_shutdown] of
    the store of network upgrades. *)

Section merge.
Context `{!VoteRatio, !VoteRatioLaws}.
Implicit Types (s : MipStoreRaw) (acc : merge) (i : MipInfo) (m : MipState).

(** ** The loop of [update_with] *)

(** What a known MIP becomes, given the state of the other store. *)
Definition merged_state (known received : option MipState) : option MipState :=
  match known, received with
  | Some m, Some m' => if mip_is_final m then Some m else Some m'
  | o, _ => o
  end.

Record merge_inv s (pre : list (MipInfo * MipState)) acc : Prop := {
  mg_sorted_u : bt_sorted (to_update acc);
  mg_sorted_a : bt_sorted (to_add acc);
  mg_update : ∀ i, bt_get i (to_update acc) =
    match bt_get i (store s), bt_get i pre with
    | Some m, Some m' => if mip_is_final m then None else Some m'
    | _, _ => None
    end;
  mg_add : ∀ i, bt_get i (to_add acc) =
    match bt_get i (store s) with Some _ => None | None => bt_get i pre end;
  mg_consistent : ∀ i m, bt_get i pre = Some m → is_consistent_with m i = Ok tt;
  mg_forward : ∀ i m m', bt_get i (store s) = Some m → bt_get i pre = Some m' →
    mip_is_final m = false → type_id_u32 (type_id (state m)) ≤ type_id_u32 (type_id (state m')) }.

Lemma bt_get_insert_case {V} (k k' : MipInfo) (v : V) l :
  bt_sorted l → bt_get k' (bt_insert k v l) = if decide (k' = k) then Some v else bt_get k' l.
Proof using.
  intros Hs. case_decide as Hk; [subst; apply bt_get_insert_eq|by apply bt_get_insert_ne].
Qed.

Lemma merge_new_returns s acc i m :
  returns (λ acc', to_update acc' = to_update acc ∧ to_add acc' = bt_insert i m (to_add acc))
    (λ _, True) (merge_new s acc i m).
Proof using. unfold merge_new. repeat case_match; done. Qed.

Lemma is_consistent_with_safe m i :
  returns (λ _, True) (λ _, True) (is_consistent_with m i).
Proof using. unfold is_consistent_with. repeat case_match; done. Qed.

Lemma merge_entry_returns s pre acc i m :
  bt_sorted pre → bt_get i pre = None → merge_inv s pre acc →
  returns (merge_inv s (bt_insert i m pre)) (λ _, True) (merge_entry s acc (i, m)).
Proof.
  intros Hpre Hnew [H1 H2 H3 H4 H5 H6]. unfold merge_entry.
  pose proof (is_consistent_with_safe m i) as Hsafe.
  destruct (is_consistent_with m i) as [[]|e|why|] eqn:Hc; cbn [map_err mbind outcome_bind]; try done.
  assert (∀ k m', bt_get k (bt_insert i m pre) = Some m' → is_consistent_with m' k = Ok tt) as Hcons.
  { intros k m'. rewrite bt_get_insert_case by done. case_decide; [by intros [= <-]; subst|apply H5]. }
  destruct (bt_get i (store s)) as [orig|] eqn:Horig; [destruct (mip_is_final orig) eqn:Hf|].
  - split; try done; intros k; rewrite bt_get_insert_case by done; case_decide; subst; try done.
    + by rewrite H3, Horig, Hnew, Hf.
    + by rewrite H4, Horig.
    + intros m0 m'. rewrite Horig. congruence.
    + apply H6.
  - destruct (N.leb_spec (type_id_u32 (type_id (state orig))) (type_id_u32 (type_id (state m)))); [|done].
    split; cbn [to_update to_add]; try done; auto with massa; intros k;
      rewrite ?bt_get_insert_case by done; case_decide; subst; try done.
    + by rewrite Horig, Hf.
    + by rewrite H4, Horig.
    + intros m0 m'. rewrite Horig. by intros [= <-] [= <-].
    + apply H6.
  - eapply returns_mono; [apply merge_new_returns|]. intros acc' [Hu Ha].
    split; rewrite ?Hu, ?Ha; try done; auto with massa; intros k;
      rewrite ?bt_get_insert_case by done; case_decide; subst; try done.
    + by rewrite H3, Horig.
    + by rewrite Horig.
    + intros m0 m'. by rewrite Horig.
    + apply H6.
Qed.

Lemma update_with_returns s other :
  bt_sorted (store s) → bt_sorted (store other) →
  returns (λ '(updated, added, s'),
      stats s' = stats s
      ∧ (∀ i, bt_get i (store s') = merged_state (bt_get i (store s)) (bt_get i (store other)))
      ∧ (∀ i, bt_get i added =
           match bt_get i (store s) with Some _ => None | None => bt_get i (store other) end)
      ∧ (∀ i m, bt_get i (store other) = Some m → is_consistent_with m i = Ok tt)
      ∧ (∀ i m m', bt_get i (store s) = Some m → bt_get i (store other) = Some m' →
           mip_is_final m = false →
           type_id_u32 (type_id (state m)) ≤ type_id_u32 (type_id (state m')))
      ∧ bt_sorted (store s') ∧ bt_sorted added)
    (λ _, True) (update_with s other).
Proof.
  intros Hs Ho. unfold update_with. eapply returns_bind.
  - apply (returns_foldM (merge_inv s)).
    + split; cbn; auto with massa; try done; intros i; by destruct (bt_get i (store s)).
    + intros pre [i m] post acc Hl Hinv.
      assert (bt_sorted (pre ++ [(i, m)])) as Hp.
      { rewrite Hl in Ho. unfold bt_sorted in *.
        rewrite (cons_middle (i, m)), app_assoc, (fmap_app _ (pre ++ [(i, m)])), StronglySorted_app in Ho.
        apply Ho. }
      apply bt_sorted_snoc in Hp as [Hp Heq]. rewrite Heq. apply merge_entry_returns; [done| |done].
      destruct (bt_get i pre) as [m0|] eqn:Hg; [|done]. exfalso.
      apply elem_of_bt in Hg; [|done]. rewrite Hl in Ho. unfold bt_sorted in Ho.
      rewrite fmap_app, StronglySorted_app in Ho. destruct Ho as (Hlt & _).
      apply (cmp_lt_irrefl i), Hlt; [by apply (list_elem_of_fmap_2' fst pre (i, m0))|by left].
  - intros acc [H1 H2 H3 H4 H5 H6]. cbn. split_and!; auto with massa; try done.
    intros i. rewrite bt_get_append, H3 by done. unfold merged_state.
    destruct (bt_get i (store s)) as [m|]; [|done]. destruct (bt_get i (store other)); [|done].
    by destruct (mip_is_final m).
Qed.

(** ** A store ahead of ours *)

Lemma merge_entry_known s acc i m orig :
  is_consistent_with m i = Ok tt → bt_get i (store s) = Some orig →
  type_id_u32 (type_id (state orig)) ≤ type_id_u32 (type_id (state m)) →
  ∃ acc', merge_entry s acc (i, m) = Ok acc'.
Proof using.
  intros Hc Hg Hle. unfold merge_entry. rewrite Hc, Hg. cbn [map_err mbind outcome_bind].
  destruct (mip_is_final orig); [by eexists|]. rewrite (proj2 (N.leb_le _ _) Hle). by eexists.
Qed.

(** A MIP a node can hold: its times are in order and its state is reachable. *)
Definition mip_ok (e : MipInfo * MipState) : Prop :=
  mi_start e.1 < mi_timeout e.1 ∧ mi_timeout e.1 ≤ u64_max
  ∧ ∃ defined, defined ≤ mi_start e.1 ∧ mip_reachable e.1 defined e.2.

Lemma mip_ok_consistent e : mip_ok e → is_consistent_with e.2 e.1 = Ok tt.
Proof. intros (H1 & H2 & H3). by apply is_consistent_with_spec. Qed.
Lemma mip_ok_advanced ts e e' : mip_ok e → advanced ts e e' → mip_ok e'.
Proof using.
  intros (H1 & H2 & d & Hd & Hr) [Hi (msgs & _ & Hm)]. unfold mip_ok. rewrite Hi, Hm.
  split_and!; [done|done|]. exists d. split; [done|by apply run_mip_reachable].
Qed.

Lemma advanced_get ts l l' i :
  Forall2 (advanced ts) l l' →
  match bt_get i l, bt_get i l' with
  | Some m, Some m' => advanced ts (i, m) (i, m')
  | None, None => True
  | _, _ => False
  end.
Proof using.
  induction 1 as [|[k m] [k' m'] l l' [Hk Hm] _ IH]; [done|]. cbn in Hk. subst k'. cbn.
  destruct (cmp i k) eqn:Hc; [|done|done]. apply cmp_eq in Hc as ->. by split.
Qed.

Lemma update_with_advanced s other ts :
  bt_sorted (store s) → bt_sorted (store other) → Forall mip_ok (store s) →
  Forall2 (advanced ts) (store s) (store other) →
  ∃ updated, update_with s other = Ok (updated, [], MkMipStoreRaw (store other) (stats s)).
Proof.
  intros Hs Ho Hmip Hadv. pose proof (update_with_returns s other Hs Ho) as Hret.
  assert (∃ r, update_with s other = Ok r) as [[[updated added] s'] Hr].
  { unfold update_with.
    match goal with |- context [foldM ?f ?l ?b] =>
      destruct (foldM_total (λ _ _, True) f l b) as (acc & -> & _) end; [done| |by eexists].
    intros pre [i m] post c Hl _. pose proof (advanced_get ts _ _ i Hadv) as Hg.
    assert (bt_get i (store other) = Some m) as Hm.
    { apply elem_of_bt; [done|]. rewrite Hl. apply elem_of_app. right. by left. }
    rewrite Hm in Hg. destruct (bt_get i (store s)) as [m0|] eqn:Hg0; [|done].
    assert (mip_ok (i, m0)) as Hok.
    { rewrite Forall_forall in Hmip. apply Hmip. by apply elem_of_bt. }
    destruct (merge_entry_known s c i m m0) as [acc' ->]; [|done| |by exists acc'].
    - exact (mip_ok_consistent _ (mip_ok_advanced _ _ _ Hok Hg)).
    - destruct Hg as [_ (msgs & _ & Heq)]. cbn in Heq. rewrite Heq. apply run_mip_mono. }
  rewrite Hr in Hret |- *. cbn in Hret. destruct Hret as (H1 & H2 & H3 & _ & _ & H4 & H5).
  exists updated. f_equal. f_equal; [f_equal|].
  - apply bt_ext; [done|apply bt_sorted_nil|]. intros i. rewrite H3. cbn.
    pose proof (advanced_get ts _ _ i Hadv) as Hg.
    destruct (bt_get i (store s)); [done|]. by destruct (bt_get i (store other)).
  - destruct s' as [st' stats']. cbn in *. rewrite H1. f_equal. apply bt_ext; [done|done|].
    intros i. rewrite H2. pose proof (advanced_get ts _ _ i Hadv) as Hg. unfold merged_state.
    destruct (bt_get i (store s)) as [m|], (bt_get i (store other)) as [m'|]; try done.
    destruct (mip_is_final m) eqn:Hf; [|done]. destruct Hg as [_ (msgs & _ & Heq)]. cbn in Heq.
    by rewrite Heq, run_mip_final.
Qed.

(** ** The initial store *)

(** The MIPs of a store follow each other in time, with growing versions and
    different names. *)
Record ordered (l : list (MipInfo * MipState)) : Prop := {
  or_next : ∀ j e1 e2, l !! j = Some e1 → l !! S j = Some e2 →
    mi_timeout e1.1 < mi_start e2.1 ∧ mi_version e1.1 < mi_version e2.1
    ∧ VERSIONING_ACTIVATION_DELAY_MIN ≤ mi_activation_delay e2.1;
  or_names : NoDup (mi_name ∘ fst <$> l);
  or_components : ∀ j k e1 e2 c v1 v2, (1 ≤ j < k)%nat → l !! j = Some e1 → l !! k = Some e2 →
    (c, v1) ∈ mi_components e1.1 → (c, v2) ∈ mi_components e2.1 → v1 < v2 }.

(** The versions the merge has seen of each component. *)
Record first_merge (pre : list (MipInfo * MipState)) acc : Prop := {
  fm_add : to_add acc = pre;
  fm_update : to_update acc = [];
  fm_names : names acc = list_to_set (mi_name ∘ fst <$> pre);
  fm_versions : ∀ j e c v, (1 ≤ j)%nat → pre !! j = Some e → (c, v) ∈ mi_components e.1 →
    v ≤ default 0 (component_versions acc !! c);
  fm_ordered : ordered pre }.

Lemma add_components_get i cv c :
  bt_sorted (mi_components i) →
  add_components i cv !! c =
    match bt_get c (mi_components i) with Some v => Some v | None => cv !! c end.
Proof using.
  unfold add_components. generalize (mi_components i). intros l. revert cv.
  induction l as [|[c0 v0] l IH]; intros cv Hs; [done|]. apply bt_sorted_cons in Hs as [Hs Hk].
  cbn. rewrite IH by done. destruct (cmp c c0) eqn:Hc.
  - apply cmp_eq in Hc as ->. rewrite (bt_get_below c0 l) by done. by rewrite lookup_insert_eq.
  - rewrite (bt_get_below c l) by (intros ???; by eapply cmp_lt_trans; [|eapply Hk]).
    apply lookup_insert_ne. intros ->. by rewrite cmp_refl in Hc.
  - destruct (bt_get c l); [done|]. apply lookup_insert_ne. intros ->. by rewrite cmp_refl in Hc.
Qed.

Lemma compatible_iff i cv c v :
  component_version_compatible i cv = true → (c, v) ∈ mi_components i → default 0 (cv !! c) < v.
Proof using.
  unfold component_version_compatible. rewrite forallb_forall. intros Hf Hin.
  apply list_elem_of_In in Hin. specialize (Hf (c, v) Hin). by apply N.ltb_lt in Hf.
Qed.

Lemma ordered_snoc pre lst i m cv :
  last pre = Some lst → ordered pre →
  mi_timeout lst.1 < mi_start i → mi_version lst.1 < mi_version i →
  VERSIONING_ACTIVATION_DELAY_MIN ≤ mi_activation_delay i →
  mi_name i ∉ (mi_name ∘ fst <$> pre) →
  (∀ j e c v, (1 ≤ j)%nat → pre !! j = Some e → (c, v) ∈ mi_components e.1 → v ≤ default 0 (cv !! c)) →
  component_version_compatible i cv = true →
  ordered (pre ++ [(i, m)]).
Proof using.
  intros Hl [Hn Hd Hcv] H1 H2 H3 H4 H5 H6. split.
  - intros j e1 e2 He1 He2. apply lookup_app_Some in He2 as [He2|[Hlen He2]].
    + rewrite lookup_app_l in He1; [by eapply Hn|]. apply lookup_lt_Some in He2. lia.
    + apply list_lookup_singleton_Some in He2 as [Hj <-].
      assert (last pre = pre !! j) as Hlast by (rewrite last_lookup; f_equal; lia).
      rewrite lookup_app_l in He1; [|rewrite last_lookup in Hl; apply lookup_lt_Some in Hl; lia].
      by rewrite Hl, He1 in Hlast; injection Hlast as ->.
  - rewrite fmap_app. apply NoDup_app. split_and!; [done| |apply NoDup_singleton].
    intros x Hx ->%list_elem_of_singleton. done.
  - intros j k e1 e2 c v1 v2 Hjk He1 He2 Hc1 Hc2. apply lookup_app_Some in He2 as [He2|[Hlen He2]].
    + rewrite lookup_app_l in He1; [by eapply (Hcv j k)|]. apply lookup_lt_Some in He2. lia.
    + apply list_lookup_singleton_Some in He2 as [Hk <-]. rewrite lookup_app_l in He1 by lia.
      eapply N.le_lt_trans; [by eapply (H5 j e1 c v1); [lia|..]|]. by eapply compatible_iff.
Qed.

Lemma first_merge_step st pre acc i m :
  first_merge pre acc → bt_sorted (pre ++ [(i, m)]) → bt_sorted (mi_components i) →
  returns (first_merge (pre ++ [(i, m)])) (λ _, True) (merge_entry (MkMipStoreRaw [] st) acc (i, m)).
Proof.
  intros [Ha Hu Hn Hv Ho] Hs Hcs. apply bt_sorted_snoc in Hs as [_ Hins]. unfold merge_entry.
  eapply returns_bind; [apply returns_map_err, is_consistent_with_safe|]. intros _ _. cbn [store bt_get].
  unfold merge_new. rewrite Ha. destruct (last pre) as [[lst ml]|] eqn:Hl; cbn [store].
  - destruct (N.ltb_spec (mi_activation_delay i) VERSIONING_ACTIVATION_DELAY_MIN) as [|Hdl]; [done|].
    destruct (_ && _) eqn:Hcond; [|done]. rewrite !andb_true_iff, !N.ltb_lt, bool_decide_eq_true in Hcond.
    destruct Hcond as ((((H1 & H2) & H3) & H4) & H5). rewrite Hn, elem_of_list_to_set in H4.
    split; cbn [to_add names component_versions].
    + by rewrite Hins.
    + done.
    + rewrite Hn, fmap_app, list_to_set_app_L. cbn. by rewrite union_empty_r_L.
    + intros j e c v Hj He Hc. rewrite add_components_get by done.
      apply lookup_app_Some in He as [He|[Hlen He]].
      * specialize (Hv j e c v Hj He Hc). destruct (bt_get c (mi_components i)) as [v'|] eqn:Hg; [|done].
        apply elem_of_bt in Hg; [|done]. pose proof (compatible_iff _ _ _ _ H5 Hg). cbn. lia.
      * apply list_lookup_singleton_Some in He as [_ <-]. apply elem_of_bt in Hc; [|done].
        cbn in Hc. by rewrite Hc.
    + by eapply ordered_snoc.
  - apply last_None in Hl as ->. split; cbn.
    + done.
    + done.
    + rewrite Hn. set_solver.
    + intros [|j] e c v Hj He; [lia|done].
    + split; [by intros [|j]|apply NoDup_singleton|]. intros j [|k] e1 e2 c v1 v2 Hjk; [lia|done].
Qed.

Lemma first_update_returns value cfg :
  Forall (λ e, bt_sorted (mi_components e.1)) value →
  returns (λ '(_, added, s), added = bt_from value ∧ s = MkMipStoreRaw [] (stats_new cfg)
             ∧ ordered added) (λ _, True)
    (update_with (MkMipStoreRaw [] (stats_new cfg)) (MkMipStoreRaw (bt_from value) (stats_new cfg))).
Proof.
  intros Hv. assert (bt_sorted (bt_from value)) as Hs by (apply bt_sorted_append, bt_sorted_nil).
  unfold update_with. cbn [store]. eapply returns_bind.
  - apply (returns_foldM first_merge).
    + split; [done|done|done|done|]. split; [done|constructor|done].
    + intros pre [i m] post acc Hl Hinv. apply first_merge_step; [done| |].
      * rewrite Hl in Hs. unfold bt_sorted in *.
        rewrite (cons_middle (i, m)), app_assoc, (fmap_app _ (pre ++ [(i, m)])), StronglySorted_app in Hs.
        apply Hs.
      * rewrite Forall_forall in Hv. apply (Hv (i, m)).
        destruct (elem_of_bt_append i m [] value) as [Hin|Hin]; [|by apply elem_of_nil in Hin|done].
        change (bt_append [] value) with (bt_from value). rewrite Hl. apply elem_of_app. right. by left.
  - intros acc [Ha Hu Hn Hvs Ho]. cbn. rewrite Ha, Hu. done.
Qed.

Lemma try_from_returns value cfg :
  Forall (λ e, bt_sorted (mi_components e.1)) value →
  returns (λ s, stats s = stats_new cfg ∧ store s = bt_from value ∧ ordered (store s))
    (λ _, True) (try_from value cfg).
Proof.
  intros Hv. unfold try_from. eapply returns_bind; [by apply first_update_returns|].
  intros [[updated added] s] (-> & -> & Ho). cbn.
  rewrite bt_append_nil by (apply bt_sorted_append, bt_sorted_nil). done.
Qed.

(** ** Network shutdown *)

(** A MIP when the network stops at time [a]: if it is still only defined, its
    start has not come. *)
Record shutdown_ready (a : N) (e : MipInfo * MipState) : Prop := {
  sd_times : mi_start e.1 < mi_timeout e.1;
  sd_max : mi_start e.1 ≤ u64_max;
  sd_reachable : ∃ defined, mip_reachable e.1 defined e.2;
  sd_defined : state e.2 = Defined → a ≤ mi_start e.1 }.

(** A MIP clear of the shutdown, or that cannot change any more. *)
Definition clear_of (a b : N) (e : MipInfo * MipState) : Prop :=
  mip_is_final e.2 = true ∨ (in_range a b (mi_start e.1) = false ∧ in_range a b (mi_timeout e.1) = false).

(** What becomes of a MIP. *)
Definition moved (e e' : MipInfo * MipState) : Prop :=
  mi_name e'.1 = mi_name e.1 ∧ mi_version e'.1 = mi_version e.1
  ∧ mi_components e'.1 = mi_components e.1
  ∧ if mip_is_final e.2 then e' = e else state e'.2 = Defined.

Lemma reset_from_reachable i defined m : mip_reachable i defined m → reset_from m = Some (mip_new defined).
Proof.
  intros [_ Hh _ _ _ _]%mip_reachable_history_ok. unfold reset_from.
  destruct (history m); [done|]. by injection Hh as ->.
Qed.

(** The offset brings every later MIP past the restart. *)
Definition offset_ok (nvs : N) (offset : option N) (t : N) : Prop :=
  match offset with Some o => nvs ≤ t + o | None => True end.

Lemma shift_clear a b nvs i m o :
  b < nvs → nvs ≤ u64_max → nvs ≤ mi_start i + o → clear_of a b (shift_info i o, m).
Proof using.
  intros Hb Hn Ho. right. unfold in_range, shift_info, Time.saturating_add, saturating_add,
    Time.saturating_sub, saturating_sub. cbn [fst mi_start mi_timeout].
  rewrite !andb_false_iff, !N.leb_gt. split; right; lia.
Qed.

Lemma shift_offset_ok nvs i offset :
  offset_ok nvs offset (mi_start i) → nvs ≤ mi_start i + shift_offset nvs i offset.
Proof using. destruct offset; cbn; [done|]. unfold Time.saturating_sub, saturating_sub. lia. Qed.

Lemma shutdown_entry_spec a b nvs offset new i m :
  b < nvs → nvs ≤ u64_max → shutdown_ready a (i, m) → offset_ok nvs offset (mi_start i) →
  ∃ offset' e, shutdown_entry a b nvs (offset, new) (i, m) = Ok (offset', bt_insert e.1 e.2 new)
    ∧ moved (i, m) e ∧ clear_of a b e ∧ offset_ok nvs offset' (mi_start i).
Proof.
  intros Hb Hn [Ht Hmx [d Hr] Hst] Ho. pose proof (shift_offset_ok nvs i offset Ho) as Hsh.
  unfold shutdown_entry. cbn [fst snd] in *. set (o := shift_offset nvs i offset) in *.
  destruct (state m) as [| |r|t|t|] eqn:Hm.
  - by destruct (ho_state _ _ (mip_reachable_history_ok _ _ _ Hr)).
  - destruct (in_range a b (mi_start i)) eqn:Hin.
    + exists (Some o), (shift_info i o, m). split_and!; [done| |by eapply shift_clear|done].
      split_and!; [done..|]. unfold mip_is_final. cbn. by rewrite Hm.
    + exists offset, (i, m). split_and!; [done| | |done].
      * split_and!; [done..|]. unfold mip_is_final. cbn. by rewrite Hm.
      * right. split; [done|]. unfold in_range in *. cbn. rewrite andb_false_iff, !N.leb_gt in *.
        specialize (Hst eq_refl). lia.
  - rewrite (reset_from_reachable i d m Hr). cbn.
    exists (Some o), (shift_info i o, mip_new d). split_and!; [done| |by eapply shift_clear|done].
    split_and!; [done..|]. unfold mip_is_final. cbn. by rewrite Hm.
  - rewrite (reset_from_reachable i d m Hr). cbn.
    exists (Some o), (shift_info i o, mip_new d). split_and!; [done| |by eapply shift_clear|done].
    split_and!; [done..|]. unfold mip_is_final. cbn. by rewrite Hm.
  - exists offset, (i, m). split_and!; [done| |left|done]; unfold moved, mip_is_final; cbn; by rewrite Hm.
  - exists offset, (i, m). split_and!; [done| |left|done]; unfold moved, mip_is_final; cbn; by rewrite Hm.
Qed.

Record shutdown_inv a b nvs (pre : list (MipInfo * MipState))
    (acc : option N * list (MipInfo * MipState)) : Prop := {
  si_sorted : bt_sorted acc.2;
  si_offset : ∀ t, (∀ e, e ∈ pre → mi_start e.1 ≤ t) → offset_ok nvs acc.1 t;
  si_new : ∀ e', e' ∈ acc.2 → clear_of a b e' ∧ ∃ e, e ∈ pre ∧ moved e e';
  si_kept : ∀ e, e ∈ pre → ∃ e', e' ∈ acc.2 ∧ moved e e' }.

Lemma shutdown_inv_step a b nvs (pre : list (MipInfo * MipState))
    (acc : option N * list (MipInfo * MipState)) i m :
  b < nvs → nvs ≤ u64_max → shutdown_ready a (i, m) →
  (∀ e, e ∈ pre → mi_start e.1 ≤ mi_start i) → mi_name i ∉ (mi_name ∘ fst <$> pre) →
  shutdown_inv a b nvs pre acc →
  ∃ r', shutdown_entry a b nvs acc (i, m) = Ok r' ∧ shutdown_inv a b nvs (pre ++ [(i, m)]) r'.
Proof.
  destruct acc as [offset new]. intros Hb Hn Hrd Hle Hnm [H1 H2 H3 H4]. cbn [fst snd] in *.
  destruct (shutdown_entry_spec a b nvs offset new i m Hb Hn Hrd (H2 _ Hle))
    as (offset' & [i' m'] & -> & Hmv & Hcl & Ho).
  eexists. split; [done|]. cbn [fst snd] in *.
  assert (bt_get i' new = None) as Hfresh.
  { destruct (bt_get i' new) as [m0|] eqn:Hg; [|done]. apply elem_of_bt in Hg; [|done].
    destruct (H3 _ Hg) as (_ & e & He & Hmv0 & _). destruct Hnm, Hmv as [Hnm _]. cbn in *.
    apply list_elem_of_fmap. exists e. split; [|done]. cbn. congruence. }
  assert (∀ e, e ∈ bt_insert i' m' new ↔ e = (i', m') ∨ e ∈ new) as Hin.
  { intros [k v]. split; [apply elem_of_bt_insert|].
    rewrite !elem_of_bt by auto with massa. rewrite bt_get_insert_case by done.
    intros [[= -> ->]|Hk]; [by rewrite decide_True|]. rewrite decide_False by congruence. done. }
  split; cbn [fst snd].
  - auto with massa.
  - intros t Ht. assert (mi_start i ≤ t) by (apply (Ht (i, m)), elem_of_app; right; by left).
    unfold offset_ok in *. destruct offset'; [lia|done].
  - intros e' [->|He']%Hin.
    + split; [done|]. exists (i, m). split; [apply elem_of_app; right; by left|done].
    + destruct (H3 e' He') as (? & e & ? & ?). split; [done|]. exists e.
      split; [apply elem_of_app; by left|done].
  - intros e [He| ->%list_elem_of_singleton]%elem_of_app.
    + destruct (H4 e He) as (e' & ? & ?). exists e'. rewrite Hin. tauto.
    + exists (i', m'). rewrite Hin. tauto.
Qed.

Lemma sorted_start (l1 l2 : list (MipInfo * MipState)) e1 e2 :
  bt_sorted (l1 ++ e2 :: l2) → e1 ∈ l1 → mi_start e1.1 ≤ mi_start e2.1.
Proof using.
  unfold bt_sorted. rewrite fmap_app, StronglySorted_app. intros (Hlt & _) He.
  specialize (Hlt e1.1 e2.1 (list_elem_of_fmap_2' _ _ _ _ He eq_refl) ltac:(by left)).
  unfold cmp_lt, cmp, mip_info_ord, cmp, pair_ord, cmp, N_ord in Hlt. cbn in Hlt.
  destruct (N.compare_spec (mi_start e1.1) (mi_start e2.1)); [lia|lia|done].
Qed.

Lemma shutdown_loop_spec a b nvs l :
  b < nvs → nvs ≤ u64_max → bt_sorted l → NoDup (mi_name ∘ fst <$> l) →
  Forall (shutdown_ready a) l →
  ∃ r, foldM (shutdown_entry a b nvs) l (None, []) = Ok r ∧ shutdown_inv a b nvs l r.
Proof.
  intros Hb Hn Hs Hnd Hrd. apply (foldM_total (shutdown_inv a b nvs)).
  - split; cbn; auto with massa; try done; intros e He; by apply elem_of_nil in He.
  - intros pre [i m] post acc Hl Hinv. rewrite Hl in Hs, Hnd, Hrd. apply shutdown_inv_step; try done.
    + by apply Forall_app in Hrd as [_ [Hrd _]%Forall_cons].
    + intros e He. by apply (sorted_start pre post e (i, m)).
    + rewrite fmap_app in Hnd. apply NoDup_app in Hnd as (_ & Hnd & _). intros Hin.
      apply (Hnd _ Hin). by left.
Qed.
End merge.
