(* ===== verification/Versioning.v ===== *)
(** * What network upgrades guarantee

    The theorems about [massa-versioning], each with an instance on a store of
    one or two upgrades whose votes are rational numbers. *)

From S2P Require Import Prelude Slots Times OrdMap MipState MipStore Rationals.
From S2P Require Import MipStoreFacts.

Open Scope N_scope.

(** ** Samples *)

Definition sample_info : MipInfo := MkMipInfo [77] 1 [(CBlock, 1)] 10 1000 50.
Definition sample_cfg : MipStatsConfig := MkMipStatsConfig 2 ratio_zero.
Definition sample_store : MipStoreRaw :=
  MkMipStoreRaw [(sample_info, mip_new 5)] (stats_new sample_cfg).
Definition half : ratio := default ratio_zero (ratio_new 1 2).

(** Started at 20, locked in at 30. *)
Definition sample_locked : MipState := run_mip sample_info (mip_new 5) [(ratio_zero, 20); (half, 30)].
Definition sample_locked_store : MipStoreRaw :=
  MkMipStoreRaw [(sample_info, sample_locked)] (stats_new sample_cfg).

Lemma sample_locked_state : state sample_locked = LockedIn 30 ∧ last_now sample_locked = 30.
Proof. vm_compute. by split. Qed.
Lemma sample_locked_reachable : mip_reachable sample_info 5 sample_locked.
Proof. apply run_mip_reachable, mr_new. Qed.

(** ** One upgrade *)

(** C19. The consistency check of a received MIP state is exact: it accepts a state
    if and only if the times of the MIP are in order and the state is one a node
    reaches by advancing the MIP from its definition, at or before its start, with
    some votes at some times. *)
Theorem consistency_check_exact `{!VoteRatio, !VoteRatioLaws} (i : MipInfo) (m : MipState) :
  mi_timeout i ≤ u64_max →
  is_consistent_with m i = Ok tt ↔
    mi_start i < mi_timeout i ∧ ∃ defined, defined ≤ mi_start i ∧ mip_reachable i defined m.
Proof. apply is_consistent_with_spec. Qed.

Lemma consistency_check_exact_witness : is_consistent_with sample_locked sample_info = Ok tt.
Proof.
  apply consistency_check_exact; [by vm_compute|]. split; [by vm_compute|].
  exists 5. split; [by vm_compute|apply sample_locked_reachable].
Defined.

(** The query of a past state answers what the state was: after any messages
    up to [ts] and then any later ones, asking for the state at [ts] gives the
    state the MIP had after the first ones. *)
Theorem state_at_answers_past `{!VoteRatio, !VoteRatioLaws} (i : MipInfo) (defined ts d : N)
    (before after : list (ratio * N)) :
  let m1 := run_mip i (mip_new defined) before in
  let m2 := run_mip i m1 after in
  Forall (λ x, x.2 ≤ ts) before → Forall (λ x, ts < x.2) after → defined ≤ ts → ts ≤ last_now m2 →
  state_at m2 ts (mi_start i) (mi_timeout i) d = Ok (type_id (state m1)).
Proof.
  intros m1 m2 Hb Ha Hd Hts. pose proof (mip_new_history_ok defined) as Hok0.
  pose proof (run_mip_history_ok i defined (mip_new defined) before Hok0) as Hok1.
  destruct (run_mip_extends defined i m1 after ts Hok1 Ha) as [Hok2 (h & Hh & Hf)].
  apply (state_at_recorded defined i m1 m2 h); try done.
  apply (last_now_run defined); [done|done|]. by apply Forall_fmap.
Qed.

Lemma state_at_answers_past_witness :
  state_at (run_mip sample_info sample_locked [(half, 100)]) 60 10 1000 50 = Ok TLockedIn.
Proof.
  apply (state_at_answers_past sample_info 5 60 50 [(ratio_zero, 20); (half, 30)] [(half, 100)]).
  - repeat constructor; by vm_compute.
  - repeat constructor; by vm_compute.
  - by vm_compute.
  - by vm_compute.
Defined.

(** ** The votes *)

(** C20. A started MIP locks in at a slot before its timeout exactly when at least half of the last
    blocks considered announce its version; the update of the statistics never
    panics and keeps the counters equal to the number of announcements in the
    window. *)
Theorem lock_in_needs_half `{!VoteRatio, !VoteRatioLaws} (s : MipStoreRaw) (ts : N)
    (versions : option (N * option N)) :
  stats_ok (stats s) → 0 < block_count_considered (stats_config (stats s)) < u64_max →
  ∃ w s', update_network_version_stats s ts versions = @Ok unit _ (w, s')
    ∧ stats_ok (stats s')
    ∧ latest_announcements (stats s') =
        match versions with
        | Some (_, announced) => window (stats s) (default 0 announced)
        | None => latest_announcements (stats s)
        end
    ∧ ∀ k i m r, store s !! k = Some (i, m) → state m = Started r → history m ≠ [] →
        last_now m < ts → ts < mi_timeout i →
        ∃ m', store s' !! k = Some (i, m')
          ∧ (state m' = LockedIn ts
             ↔ block_count_considered (stats_config (stats s))
               ≤ 2 * occurrences (mi_version i) (latest_announcements (stats s'))).
Proof.
  intros Hok Hp. destruct (update_stats_spec (E := unit) s ts versions Hok Hp) as [w Hu].
  destruct (noted_ok (stats s) versions Hok Hp) as [Hok' Hcfg].
  eexists _, _. split; [exact Hu|]. split; [done|]. cbn [store stats]. split.
  { destruct versions as [[cur a]|]; [|done].
    by destruct (count_announcement_ok (stats s) (default 0 a) Hok Hp) as (_ & ? & _). }
  intros k i m r Hk Hm Hh Hl Ht. exists (advance_entry (noted (stats s) versions) ts (i, m)).2.
  split; [by rewrite list_lookup_fmap, Hk|]. cbn [advance_entry fst snd].
  rewrite (advance_started m i r) by done.
  pose proof (votes_accepted (noted (stats s) versions) (mi_version i)) as Hv. rewrite Hcfg in Hv.
  rewrite <-Hv by lia. by destruct (threshold_accepted _).
Qed.

Lemma lock_in_needs_half_witness :
  ∃ w s', update_network_version_stats
            (MkMipStoreRaw [(sample_info, run_mip sample_info (mip_new 5) [(ratio_zero, 20)])]
               (stats_new sample_cfg)) 30 (Some (0, Some 1)) = @Ok unit _ (w, s')
    ∧ ∃ m', store s' !! 0%nat = Some (sample_info, m') ∧ state m' = LockedIn 30.
Proof.
  destruct (lock_in_needs_half
    (MkMipStoreRaw [(sample_info, run_mip sample_info (mip_new 5) [(ratio_zero, 20)])]
       (stats_new sample_cfg)) 30 (Some (0, Some 1))) as (w & s' & Hu & _ & Hw & Hs').
  - apply stats_new_ok.
  - by vm_compute.
  - exists w, s'. split; [exact Hu|].
    destruct (Hs' 0%nat sample_info (run_mip sample_info (mip_new 5) [(ratio_zero, 20)]) ratio_zero)
      as (m' & Hm' & Hiff); [by vm_compute..|].
    exists m'. split; [exact Hm'|]. apply Hiff. rewrite Hw. by vm_compute.
Defined.

(** C8. A node that has processed some more final slots than another gives, for
    each of these slots, the same version of the network and of every component
    as the node behind, as long as the slots span no more than the activation
    delay of every improvement.  (Nothing is said of slots after the lag, whose
    version may depend on votes the node behind has not counted.) *)
Theorem versions_agree `{!VoteRatio, !VoteRatioLaws} (s : MipStoreRaw)
    (slots : list (N * option (N * option N))) :
  stats_ok (stats s) → 0 < block_count_considered (stats_config (stats s)) < u64_max →
  StronglySorted N.lt slots.*1 → Forall (λ t, t ≤ u64_max) slots.*1 →
  Forall (lag_ok slots.*1) (store s) →
  ∃ s', slot_run s slots = @Ok unit _ s'
    ∧ ∀ t, t ∈ slots.*1 →
        get_network_version_active_at s' t = get_network_version_active_at s t
        ∧ ∀ c, get_latest_component_version_at s' c t = get_latest_component_version_at s c t.
Proof.
  intros Hok Hp Hs Hmax Hlag.
  destruct (slot_run_spec (E := unit) s slots Hok Hp) as (s' & Hs' & _ & _ & Hadv).
  exists s'. split; [done|]. intros t Ht.
  pose proof (Forall2_with _ _ _ _ Hlag Hadv) as Hall. split.
  - unfold get_network_version_active_at. f_equal. symmetry. apply find_map_reverse_ext.
    eapply Forall2_impl; [exact Hall|]. intros [i m] [i' m'] [Hl Ha]. pose proof Ha as [[= ->] _].
    pose proof (advanced_active _ _ _ t Hs Hl Ha Ht) as Hact. cbn in Hact. by rewrite Hact.
  - intros c. unfold get_latest_component_version_at. f_equal. symmetry. apply find_map_reverse_ext.
    eapply Forall2_impl; [exact Hall|]. intros e e' [Hl Ha]. symmetry.
    exact (advanced_component _ e e' t c Hs Hmax Hl Ha Ht).
Qed.

(** One node is at slot 30, the other has seen the activation at slot 81. *)
Lemma versions_agree_witness :
  ∃ s', slot_run sample_locked_store [(60, None); (79, None); (81, None); (100, None)] = @Ok unit _ s'
    ∧ get_network_version_active_at s' 81 = get_network_version_active_at sample_locked_store 81
    ∧ get_network_version_active_at sample_locked_store 81 = 1.
Proof.
  destruct (versions_agree sample_locked_store [(60, None); (79, None); (81, None); (100, None)])
    as (s' & Hs' & Hag).
  - apply stats_new_ok.
  - by vm_compute.
  - repeat (constructor; [|repeat constructor; by vm_compute]). constructor.
  - repeat constructor; by vm_compute.
  - constructor; [|constructor]. destruct sample_locked_state as [_ Hl].
    split; cbn [fst snd].
    + exists 5. apply sample_locked_reachable.
    + rewrite Hl. by vm_compute.
    + rewrite Hl. repeat constructor; by vm_compute.
    + intros t t' Ht Ht'. cbn in Ht, Ht'. rewrite !elem_of_cons, elem_of_nil in Ht, Ht'.
      unfold Time.saturating_add, saturating_add, u64_max. cbn. lia.
  - exists s'. split; [exact Hs'|]. split; [|by vm_compute]. apply (Hag 81). cbn. set_solver.
Defined.

(** ** Merging stores *)

(** A store that is ahead of ours is adopted: merging the store of a node that
    started from our states and has processed any further slots succeeds, adds
    nothing, and leaves us with its states. *)
Theorem later_store_adopted `{!VoteRatio, !VoteRatioLaws} (s other : MipStoreRaw)
    (slots : list (N * option (N * option N))) :
  bt_sorted (store s) → Forall mip_ok (store s) → stats_ok (stats s) →
  0 < block_count_considered (stats_config (stats s)) < u64_max →
  slot_run s slots = @Ok unit _ other →
  ∃ updated, update_with s other = Ok (updated, [], MkMipStoreRaw (store other) (stats s)).
Proof.
  intros Hs Hmip Hok Hp Hrun.
  destruct (slot_run_spec (E := unit) s slots Hok Hp) as (s' & Hs' & _ & _ & Hadv).
  rewrite Hrun in Hs'. injection Hs' as <-.
  apply (update_with_advanced s other slots.*1); try done.
  unfold bt_sorted. replace (store other).*1 with (store s).*1; [done|].
  clear -Hadv. induction Hadv as [|[i m] [i' m'] l l' [Hi _] _ IH]; [done|].
  cbn in Hi. by rewrite !fmap_cons, IH, Hi.
Qed.

Lemma later_store_adopted_witness :
  ∃ other updated, slot_run sample_locked_store [(60, None); (100, None)] = @Ok unit _ other
    ∧ update_with sample_locked_store other
      = Ok (updated, [], MkMipStoreRaw (store other) (stats sample_locked_store)).
Proof.
  destruct (slot_run_spec (E := unit) sample_locked_store [(60, None); (100, None)])
    as (other & Hrun & _); [apply stats_new_ok|by vm_compute|].
  exists other. edestruct (later_store_adopted sample_locked_store other [(60, None); (100, None)])
    as [updated Hu].
  - repeat constructor.
  - constructor; [|constructor]. split_and!; [by vm_compute..|]. exists 5.
    split; [by vm_compute|apply sample_locked_reachable].
  - apply stats_new_ok.
  - by vm_compute.
  - exact Hrun.
  - exists updated. split; [exact Hrun|exact Hu].
Defined.

(** C38. Merging never panics, never weakens what the node holds and never adds to
    it: a MIP of the store that can no longer change keeps its state, the others
    take the received state, which is no less advanced and passed the consistency
    check; MIPs the node does not know are only reported. *)
Theorem merge_never_downgrades `{!VoteRatio, !VoteRatioLaws} (s other : MipStoreRaw) :
  bt_sorted (store s) → bt_sorted (store other) →
  returns (λ '(_, added, s'),
      stats s' = stats s
      ∧ (∀ i, bt_get i (store s') = merged_state (bt_get i (store s)) (bt_get i (store other)))
      ∧ (∀ i, bt_get i added =
           match bt_get i (store s) with Some _ => None | None => bt_get i (store other) end)
      ∧ (∀ i m, bt_get i (store other) = Some m → is_consistent_with m i = Ok tt)
      ∧ ∀ i m m', bt_get i (store s) = Some m → bt_get i (store other) = Some m' →
          mip_is_final m = false →
          type_id_u32 (type_id (state m)) ≤ type_id_u32 (type_id (state m')))
    (λ _, True) (update_with s other).
Proof.
  intros Hs Ho. eapply returns_mono; [by apply update_with_returns|].
  intros [[updated added] s'] (H1 & H2 & H3 & H4 & H5 & _). done.
Qed.

Lemma merge_never_downgrades_witness :
  ∃ updated s', update_with sample_store sample_locked_store = Ok (updated, [], s')
    ∧ bt_get sample_info (store s') = Some sample_locked.
Proof.
  pose proof (merge_never_downgrades sample_store sample_locked_store
    ltac:(repeat constructor) ltac:(repeat constructor)) as Hm.
  assert (∃ u s', update_with sample_store sample_locked_store = Ok (u, [], s')) as (u & s' & Hu)
    by (eexists _, _; vm_compute; reflexivity).
  exists u, s'. rewrite Hu in Hm. split; [exact Hu|]. destruct Hm as (_ & Hg & _). rewrite Hg.
  vm_compute. reflexivity.
Defined.

(** The list of MIPs the node is built with is accepted only if each MIP starts
    after the timeout of the one before, with a greater version, enough delay
    before activation and a name of its own, and, from the second on, with greater
    versions of the components it changes; the store then holds exactly the list. *)
Theorem initial_store_ordered `{!VoteRatio, !VoteRatioLaws} value cfg :
  Forall (λ e, bt_sorted (mi_components e.1)) value →
  returns (λ s, stats s = stats_new cfg ∧ store s = bt_from value ∧ ordered (store s))
    (λ _, True) (try_from value cfg).
Proof. apply try_from_returns. Qed.

(** A second MIP over the first. *)
Definition sample_second (version : N) : MipInfo :=
  MkMipInfo [78] 2 [(CBlock, version)] 2000 3000 VERSIONING_ACTIVATION_DELAY_MIN.

Lemma initial_store_ordered_witness :
  ∃ s, try_from [(sample_info, mip_new 5); (sample_second 2, mip_new 5)] sample_cfg = Ok s
    ∧ ordered (store s).
Proof.
  pose proof (initial_store_ordered [(sample_info, mip_new 5); (sample_second 2, mip_new 5)] sample_cfg
    ltac:(repeat constructor)) as Hm.
  assert (∃ s, try_from [(sample_info, mip_new 5); (sample_second 2, mip_new 5)] sample_cfg = Ok s)
    as [s Hs] by (eexists; vm_compute; reflexivity).
  exists s. rewrite Hs in Hm. split; [exact Hs|apply Hm].
Defined.

(** The first MIP of an empty store leaves no trace in the component versions: a
    second MIP with the same version of the same component is accepted. *)
Lemma first_mip_components_unchecked :
  is_ok (try_from [(sample_info, mip_new 5); (sample_second 1, mip_new 5)] sample_cfg) = true
  ∧ bt_get CBlock (mi_components sample_info) = bt_get CBlock (mi_components (sample_second 1)).
Proof. vm_compute. by split. Qed.

(** The warning about an unknown version looks at the votes of the version that
    leaves the window: here every block announces version 5 and no warning is
    given. *)
Lemma warning_misses_unknown_version :
  let st := MkMipStoreStats sample_cfg [1; 5] {[1 := 1; 5 := 1]} in
  match update_network_version_stats (E := unit) (MkMipStoreRaw [(sample_info, mip_new 5)] st) 7
          (Some (0, Some 5)) with
  | Ok (warned, s) => warned = false ∧ latest_announcements (stats s) = [5; 5]
  | _ => False
  end.
Proof. vm_compute. by split. Qed.

(** ** Network shutdown *)

(** C21. Moving the MIPs for a shutdown of the network succeeds and makes the store
    consistent with it: no MIP that can still change starts or times out while
    the network is down, none is lost, those in progress are back to [Defined]
    and those that are over are untouched. *)
Theorem shutdown_leaves_consistent `{!VoteRatio, !VoteRatioLaws} (s : MipStoreRaw) (tc t0 gt : N)
    (first last : Slot) :
  clock_ok tc t0 gt → slot_ok tc first → slot_ok tc last →
  slot_start tc t0 gt first ≤ u64_max →
  slot_start tc t0 gt last + inter_slot tc t0 ≤ u64_max → period last < u64_max →
  bt_sorted (store s) → NoDup (mi_name ∘ fst <$> store s) →
  Forall (shutdown_ready (slot_start tc t0 gt first)) (store s) →
  ∃ s', update_for_network_shutdown s first last tc t0 gt = Ok s'
    ∧ is_consistent_with_shutdown_period s' first last tc t0 gt = Ok tt
    ∧ (∀ e, e ∈ store s → ∃ e', e' ∈ store s' ∧ moved e e')
    ∧ ∀ e', e' ∈ store s' → ∃ e, e ∈ store s ∧ moved e e'.
Proof.
  intros Hck [Hfp Hft] [Hlp Hlt] Hf Hl Hper Hs Hnd Hrd. pose proof Hck as [Htc _].
  assert (∃ ns, get_next_slot last tc = Ok ns ∧ slot_start tc t0 gt ns = slot_start tc t0 gt last + inter_slot tc t0)
    as (ns & Hns & Hnst).
  { destruct (get_next_slot last tc) as [ns| | |] eqn:Hns.
    2,3,4: rewrite get_next_slot_total in Hns by done;
      rewrite (proj2 (N.eqb_neq (period last) u64_max)) in Hns by lia; done.
    exists ns. split; [done|]. destruct (get_next_slot_index tc last ns Htc Hlt Hns) as [Hi _].
    unfold slot_start. rewrite Hi. lia. }
  destruct (clock_inter tc t0 gt Hck) as [Hi _].
  assert (get_block_slot_timestamp tc t0 gt first = Ok (slot_start tc t0 gt first)) as Ef
    by (by apply get_block_slot_timestamp_eq).
  assert (get_block_slot_timestamp tc t0 gt last = Ok (slot_start tc t0 gt last)) as El
    by (apply get_block_slot_timestamp_eq; [done|lia]).
  assert (get_block_slot_timestamp tc t0 gt ns = Ok (slot_start tc t0 gt ns)) as En
    by (apply get_block_slot_timestamp_eq; [done|lia]).
  destruct (shutdown_loop_spec (slot_start tc t0 gt first) (slot_start tc t0 gt last)
    (slot_start tc t0 gt ns) (store s)) as ([o new] & Hloop & [_ _ Hnew Hkept]); try done; [lia..|].
  exists (MkMipStoreRaw new (stats_reset (stats s))). split_and!.
  - unfold update_for_network_shutdown. rewrite Ef, El. cbn [mbind outcome_bind]. rewrite Hns.
    cbn [mbind outcome_bind]. rewrite En. cbn [mbind outcome_bind]. rewrite Hloop. done.
  - unfold is_consistent_with_shutdown_period. rewrite Ef, El. cbn [map_err mbind outcome_bind store].
    apply foldM_tt. intros [i m] He. destruct (Hnew (i, m) He) as [[Hfin|[H1 H2]] _]; cbn in *.
    + by rewrite Hfin.
    + rewrite H1, H2. by destruct (mip_is_final m).
  - done.
  - intros e' He'. by apply Hnew.
Qed.

Lemma shutdown_leaves_consistent_witness :
  ∃ s', update_for_network_shutdown sample_locked_store (MkSlot 1 0) (MkSlot 2 0) 2 16000 1000 = Ok s'
    ∧ is_consistent_with_shutdown_period s' (MkSlot 1 0) (MkSlot 2 0) 2 16000 1000 = Ok tt.
Proof.
  destruct (shutdown_leaves_consistent sample_locked_store 2 16000 1000 (MkSlot 1 0) (MkSlot 2 0))
    as (s' & Hs' & Hc & _).
  - vm_compute. intuition discriminate.
  - vm_compute. intuition discriminate.
  - vm_compute. intuition discriminate.
  - by vm_compute.
  - by vm_compute.
  - by vm_compute.
  - repeat constructor.
  - apply NoDup_singleton.
  - constructor; [|constructor]. split; cbn [fst snd].
    + by vm_compute.
    + by vm_compute.
    + exists 5. apply sample_locked_reachable.
    + destruct sample_locked_state as [-> _]. done.
  - exists s'. split; [exact Hs'|exact Hc].
Defined.
