(* ===== verification/Models.v ===== *)
(** * Identifiers, headers and blocks

    The data of [massa-models] that consensus and storage work on: block,
    operation and endorsement ids, addresses, the signed wrapper
    [SecureShare], endorsements, headers and blocks.

    A [Hash] is its 32 bytes read as a big-endian integer, so that the order of
    the byte arrays is the order of the integers.  Keys, signatures and the hash
    function come from third-party crates: keys and signatures are their bytes
    as an integer, and hashing a public key is the parameter [KeyHash]. *)

From S2P Require Import Prelude Slots.

Open Scope N_scope.

Definition Hash : Type := N.

Inductive BlockId : Type := BlockIdV0 (h : Hash).
Inductive OperationId : Type := OperationIdV0 (h : Hash).
Inductive EndorsementId : Type := EndorsementIdV0 (h : Hash).

Definition get_hash (b : BlockId) : Hash := match b with BlockIdV0 h => h end.

#[export] Instance BlockId_eq_dec : EqDecision BlockId.
Proof. solve_decision. Defined.
#[export] Instance BlockId_countable : Countable BlockId :=
  inj_countable' get_hash BlockIdV0 (λ b, match b with BlockIdV0 _ => eq_refl end).
#[export] Instance OperationId_eq_dec : EqDecision OperationId.
Proof. solve_decision. Defined.
#[export] Instance OperationId_countable : Countable OperationId :=
  inj_countable' (λ o, match o with OperationIdV0 h => h end) OperationIdV0
    (λ o, match o with OperationIdV0 _ => eq_refl end).
#[export] Instance EndorsementId_eq_dec : EqDecision EndorsementId.
Proof. solve_decision. Defined.
#[export] Instance EndorsementId_countable : Countable EndorsementId :=
  inj_countable' (λ e, match e with EndorsementIdV0 h => h end) EndorsementIdV0
    (λ e, match e with EndorsementIdV0 _ => eq_refl end).

(** The derived order: one version, then the hash. *)
Definition block_id_cmp (a b : BlockId) : comparison := get_hash a ?= get_hash b.

(** [BlockIdSerializer::serialize]: the version as a variable-length integer
    (version 0 is one zero byte), then the 32 bytes of the hash. *)
Definition get_version (b : BlockId) : N := match b with BlockIdV0 _ => 0 end.
Definition serialize_block_id (b : BlockId) : list N :=
  get_version b :: to_be_bytes 32 (get_hash b).

Inductive UserAddress : Type := UserAddressV0 (h : Hash).
Inductive SCAddress : Type := SCAddressV0 (h : Hash).
Inductive Address : Type :=
| User (a : UserAddress)
| SC (a : SCAddress).

#[export] Instance UserAddress_eq_dec : EqDecision UserAddress.
Proof. solve_decision. Defined.
#[export] Instance SCAddress_eq_dec : EqDecision SCAddress.
Proof. solve_decision. Defined.
#[export] Instance Address_eq_dec : EqDecision Address.
Proof. solve_decision. Defined.
#[export] Instance Address_countable : Countable Address :=
  inj_countable'
    (λ a, match a with User (UserAddressV0 h) => inl h | SC (SCAddressV0 h) => inr h end)
    (λ s, match s with inl h => User (UserAddressV0 h) | inr h => SC (SCAddressV0 h) end)
    (λ a, match a with User (UserAddressV0 _) | SC (SCAddressV0 _) => eq_refl end).

Inductive PublicKey : Type := PublicKeyV0 (key : N).
Inductive Signature : Type := SignatureV0 (sig : N).
#[export] Instance PublicKey_eq_dec : EqDecision PublicKey.
Proof. solve_decision. Defined.
#[export] Instance Signature_eq_dec : EqDecision Signature.
Proof. solve_decision. Defined.

(** [Hash::compute_from] on the bytes of a public key (the blake3 crate). *)
Class KeyHash := hash_public_key : N → Hash.

Definition user_address_from_public_key `{KeyHash} (pk : PublicKey) : UserAddress :=
  match pk with PublicKeyV0 key => UserAddressV0 (hash_public_key key) end.
Definition from_public_key `{KeyHash} (pk : PublicKey) : Address :=
  User (user_address_from_public_key pk).

(** A signed object: its content, signature, creator and id. *)
Record SecureShare (T ID : Type) : Type := MkSecureShare {
  content : T;
  serialized_data : list N;
  signature : Signature;
  content_creator_pub_key : PublicKey;
  content_creator_address : Address;
  id : ID }.
Arguments MkSecureShare {_ _} _ _ _ _ _ _.
Arguments content {_ _} _.
Arguments serialized_data {_ _} _.
Arguments signature {_ _} _.
Arguments content_creator_pub_key {_ _} _.
Arguments content_creator_address {_ _} _.
Arguments id {_ _} _.

Record Endorsement : Type := MkEndorsement {
  e_slot : Slot;
  e_index : N;
  e_endorsed_block : BlockId }.
Definition SecureShareEndorsement : Type := SecureShare Endorsement EndorsementId.

Record EndorsementDenunciation : Type := MkEndorsementDenunciation {
  ed_public_key : PublicKey;
  ed_slot : Slot;
  ed_index : N;
  ed_hash_1 : Hash;
  ed_hash_2 : Hash;
  ed_signature_1 : Signature;
  ed_signature_2 : Signature }.
Record BlockHeaderDenunciation : Type := MkBlockHeaderDenunciation {
  bhd_public_key : PublicKey;
  bhd_slot : Slot;
  bhd_hash_1 : Hash;
  bhd_hash_2 : Hash;
  bhd_signature_1 : Signature;
  bhd_signature_2 : Signature }.
Inductive Denunciation : Type :=
| DenunciationEndorsement (d : EndorsementDenunciation)
| DenunciationBlockHeader (d : BlockHeaderDenunciation).

(** What a denunciation is about. *)
Inductive DenunciationIndex : Type :=
  | DI_BlockHeader (slot : Slot)
  | DI_Endorsement (slot : Slot) (index : N).
#[export] Instance DenunciationIndex_eq_dec : EqDecision DenunciationIndex.
Proof. solve_decision. Defined.
#[export] Instance DenunciationIndex_countable : Countable DenunciationIndex :=
  inj_countable'
    (λ d, match d with DI_BlockHeader s => inl s | DI_Endorsement s i => inr (s, i) end)
    (λ e, match e with inl s => DI_BlockHeader s | inr (s, i) => DI_Endorsement s i end)
    (λ d, match d with DI_BlockHeader _ => eq_refl | DI_Endorsement _ _ => eq_refl end).

Record BlockHeader : Type := MkBlockHeader {
  current_version : N;
  announced_version : option N;
  h_slot : Slot;
  h_parents : list BlockId;
  operation_merkle_root : Hash;
  endorsements : list SecureShareEndorsement;
  denunciations : list Denunciation }.
Definition SecuredHeader : Type := SecureShare BlockHeader BlockId.

(** [SecuredHeader::get_fitness]: one for the block, one per endorsement. *)
Definition get_fitness (h : SecuredHeader) : N :=
  wrapping_add u64_max (N.of_nat (length (endorsements (content h)))) 1.

Record Block : Type := MkBlock { header : SecuredHeader; operations : list OperationId }.
Definition SecureShareBlock : Type := SecureShare Block BlockId.

(** Operations: amounts are the raw [u64], names are texts in UTF-8. *)
Inductive OperationType : Type :=
| Transaction (recipient_address : Address) (amount : N)
| RollBuy (roll_count : N)
| RollSell (roll_count : N)
| ExecuteSC (data : list N) (max_gas : N) (max_coins : N) (datastore : gmap (list N) (list N))
| CallSC (target_addr : Address) (target_func : list N) (param : list N) (max_gas : N) (coins : N).
Record Operation : Type := MkOperation {
  op_fee : N;
  op_expire_period : N;
  op_type : OperationType }.
Definition SecureShareOperation : Type := SecureShare Operation OperationId.

(** Who may produce the block of a slot, and its endorsements. *)
Record Selection : Type := MkSelection {
  sel_endorsements : list Address;
  sel_producer : Address }.

(** The slot of a header, as [header.content.slot] reads it. *)
Definition header_slot (h : SecuredHeader) : Slot := h_slot (content h).

(** ** The orders are total orders *)

#[export] Instance block_id_ord : Ord BlockId := block_id_cmp.
#[export] Instance slot_ord : Ord Slot := slot_cmp.

#[export] Instance block_id_ord_laws : OrdLaws BlockId.
Proof.
  split; unfold cmp, block_id_ord, block_id_cmp.
  - intros [a] [b]; cbn. rewrite N.compare_eq_iff. naive_solver.
  - intros a b. apply N.compare_antisym.
  - intros a b c. rewrite !N.compare_lt_iff. lia.
Qed.

#[export] Instance slot_ord_laws : OrdLaws Slot.
Proof.
  assert (∀ a b : Slot, slot_cmp a b = cmp (period a, thread a) (period b, thread b)) as Heq
    by done.
  split; unfold cmp, slot_ord; intros *; rewrite !Heq.
  - rewrite cmp_eq. destruct a, b; cbn. naive_solver.
  - apply cmp_opp.
  - apply cmp_lt_trans.
Qed.

(** The header check computes [endorsements.len() + 1] on [u64]: it is at least
    one, the length of a vector being far below the bound. *)
Lemma get_fitness_pos h :
  N.of_nat (length (endorsements (content h))) < u64_max → 1 ≤ get_fitness h ≤ u64_max.
Proof. intros Hl. unfold get_fitness. rewrite wrapping_add_small; lia. Qed.
