(* ===== verification/Sequencer.v ===== *)
(** * The slot sequencer of execution

    [massa-execution-worker/src/slot_sequencer.rs]: the queue between consensus and
    execution.  Consensus notifies final blocks and changes of the blockclique;
    the sequencer keeps a continuous sequence of slots with their contents and
    says which slot to execute next, as final or as candidate.

    The metadata of a block is a type parameter.  [MassaTime::now()] is the
    argument [now] of the calls that read the clock.  The [slot-replayer] feature
    is off, as in the node. *)

From S2P Require Import Prelude Slots Times Models.

Open Scope N_scope.

(** ** State *)

Record SequencerConfig : Type := MkSequencerConfig {
  sq_thread_count : N;
  sq_t0 : N;
  sq_genesis_timestamp : N;
  sq_cursor_delay : N;
  sq_last_start_period : N }.

Section sequencer.
Context {M : Type} (cfg : SequencerConfig) `{!SetIter Slot}.
Local Notation tc := (sq_thread_count cfg).

Record SlotInfo : Type := MkSlotInfo {
  info_slot : Slot;
  consensus_final : bool;
  execution_final : bool;
  info_content : option (BlockId * M) }.

Definition get_block_id (i : SlotInfo) : option BlockId := fst <$> info_content i.

Record SlotSequencer : Type := MkSlotSequencer {
  sequence : list SlotInfo;
  latest_consensus_final_slots : list Slot;
  latest_execution_final_slot : Slot;
  latest_executed_final_slot : Slot;
  latest_executed_candidate_slot : Slot }.
Implicit Types (q : SlotSequencer).

Definition new_sequencer (final_cursor : Slot) : SlotSequencer :=
  MkSlotSequencer [] (MkSlot (sq_last_start_period cfg) <$> range tc)
    final_cursor final_cursor final_cursor.

(** ** Helpers of the source *)

Definition get_time_cursor {E} (now : N) : outcome E Slot :=
  latest ← expect_ok "could not get latest block slot at shifted execution time"
    (get_latest_block_slot_at_timestamp tc (sq_t0 cfg) (sq_genesis_timestamp cfg)
       (Time.saturating_sub now (sq_cursor_delay cfg)));
  Ok (default (MkSlot (sq_last_start_period cfg) 0) latest).

Definition slot_max2 (a b : Slot) : Slot := if slot_le a b then b else a.
Definition slot_min2 (a b : Slot) : Slot := if slot_le a b then a else b.

(** [iter().max()] and [iter().min()] *)
Definition slots_max (l : list Slot) : option Slot :=
  match l with [] => None | s :: l => Some (foldl slot_max2 s l) end.
Definition slots_min (l : list Slot) : option Slot :=
  match l with [] => None | s :: l => Some (foldl slot_min2 s l) end.

(** The latest CSS-final slot of each thread. *)
Definition note_final_slot {E} (latest : list Slot) (s : Slot) : outcome E (list Slot) :=
  cur ← idx latest (thread s);
  if period cur <? period s then idx_set latest (thread s) s else Ok latest.
Definition note_final_slots {E} (finals : gmap Slot BlockId) (latest : list Slot)
    : outcome E (list Slot) :=
  foldM note_final_slot (map_iter finals).*1 latest.

(** Removes the metadata of a block that was found at a slot. *)
Definition take_metadata {E} (why : string) (meta : gmap BlockId M) (b : option BlockId)
    : outcome E (option (BlockId * M) * gmap BlockId M) :=
  match b with
  | None => Ok (None, meta)
  | Some b_id => m ← expect why (meta !! b_id); Ok (Some (b_id, m), delete b_id meta)
  end.

(** Pops the slots strictly before the earliest useful one. *)
Fixpoint drop_before (min_useful : Slot) (l : list SlotInfo) : list SlotInfo :=
  match l with
  | i :: l' => if slot_lt (info_slot i) min_useful then drop_before min_useful l' else l
  | [] => []
  end.

Definition cleanup_sequence {E} q : outcome E SlotSequencer :=
  m ← expect "latest_consensus_final_slots should not be empty"
        (slots_min (latest_consensus_final_slots q));
  let min_useful := slot_min2 (slot_min2 m (latest_execution_final_slot q))
                      (slot_min2 (latest_executed_final_slot q) (latest_executed_candidate_slot q)) in
  Ok (MkSlotSequencer (drop_before min_useful (sequence q)) (latest_consensus_final_slots q)
        (latest_execution_final_slot q) (latest_executed_final_slot q)
        (latest_executed_candidate_slot q)).

(** ** The first notification *)

Record init_acc : Type := MkInitAcc {
  ia_sequence : list SlotInfo;
  ia_finals : gmap Slot BlockId;
  ia_clique : gmap Slot BlockId;
  ia_meta : gmap BlockId M }.

Definition init_step {E} (latest : list Slot) (exec_final slot : Slot) (acc : init_acc)
    : outcome E init_acc :=
  own ← idx latest (thread slot);
  let '(found, finals, clique) :=
    match ia_finals acc !! slot with
    | Some b => (Some b, delete slot (ia_finals acc), ia_clique acc)
    | None => (ia_clique acc !! slot, ia_finals acc, delete slot (ia_clique acc))
    end in
  '(content, meta) ← take_metadata "block metadata missing in execution init" (ia_meta acc) found;
  Ok (MkInitAcc (ia_sequence acc ++ [MkSlotInfo slot (slot_le slot own) (slot_le slot exec_final) content])
        finals clique meta).

Fixpoint init_loop {E : Type} (fuel : nat) (latest : list Slot) (exec_final slot max_slot : Slot)
    (acc : init_acc) : outcome E init_acc :=
  match fuel with
  | O => OutOfFuel
  | S fuel =>
      if slot_le slot max_slot then
        acc ← init_step latest exec_final slot acc;
        next ← expect_ok "overflow in slot iteration" (get_next_slot slot tc);
        init_loop fuel latest exec_final next max_slot acc
      else Ok acc
  end.

(** The rounds of a loop from [a] to [b], and the test that ends it. *)
Definition rounds (a b : Slot) : nat := S (S (N.to_nat (slot_index tc b - slot_index tc a))).

Definition init {E} (now : N) (finals : gmap Slot BlockId) (clique : gmap Slot BlockId)
    (meta : gmap BlockId M) q : outcome E SlotSequencer :=
  latest ← note_final_slots finals (latest_consensus_final_slots q);
  slot ← expect "init call should be done with non-empty new_consensus_final_blocks"
           (slots_min (map_iter finals).*1);
  m ← expect "latest_consensus_final_slots is empty" (slots_max latest);
  cursor ← get_time_cursor now;
  let max_slot := slot_max2 (slot_max2 m
                    (default (MkSlot (sq_last_start_period cfg) 0) (slots_max (map_iter clique).*1)))
                    cursor in
  acc ← init_loop (rounds slot max_slot) latest (latest_execution_final_slot q) slot max_slot
          (MkInitAcc (sequence q) finals clique meta);
  if decide (ia_finals acc ≠ ∅)
  then Panic "remaining elements in consensus_final_blocks after slot sequencing"
  else if decide (ia_clique acc ≠ ∅)
  then Panic "remaining elements in blockclique after slot sequencing"
  else
    cleanup_sequence (MkSlotSequencer (ia_sequence acc) latest (latest_execution_final_slot q)
                        (latest_executed_final_slot q) (latest_executed_candidate_slot q)).

(** ** Later notifications *)

(** One slot of the new sequence, and whether it overwrites a candidate slot. *)
Definition sequence_build_step {E} (slot : Slot) (prev_item : option SlotInfo)
    (new_consensus_final : bool) (new_consensus_final_block : option BlockId)
    (blockclique_updated : bool) (new_blockclique_block : option BlockId)
    (meta : gmap BlockId M) (in_execution_finality : bool)
    : outcome E (SlotInfo * bool * gmap BlockId M) :=
  match prev_item with
  | Some prev =>
      if consensus_final prev then
        Ok (MkSlotInfo (info_slot prev) true in_execution_finality (info_content prev), false, meta)
      else if new_consensus_final then
        if decide (get_block_id prev = new_consensus_final_block) then
          Ok (MkSlotInfo (info_slot prev) true in_execution_finality (info_content prev), false, meta)
        else
          '(content, meta) ←
            take_metadata "new css final block metadata absent from new_blocks_metadata" meta
              new_consensus_final_block;
          Ok (MkSlotInfo (info_slot prev) true in_execution_finality content, true, meta)
      else if negb blockclique_updated then Ok (prev, false, meta)
      else if decide (new_blockclique_block = get_block_id prev) then Ok (prev, false, meta)
      else
        '(content, meta) ←
          take_metadata "new css blockclique block metadata absent from new_blocks_metadata" meta
            new_blockclique_block;
        Ok (MkSlotInfo (info_slot prev) (consensus_final prev) (execution_final prev) content,
            true, meta)
  | None =>
      if new_consensus_final then
        '(content, meta) ←
          take_metadata "new css final block metadata absent from new_blocks_metadata" meta
            new_consensus_final_block;
        Ok (MkSlotInfo slot true in_execution_finality content,
            bool_decide (is_Some new_consensus_final_block), meta)
      else
        '(content, meta) ←
          take_metadata "new css blockclique block metadata absent from new_blocks_metadata" meta
            new_blockclique_block;
        Ok (MkSlotInfo slot false false content, bool_decide (is_Some new_blockclique_block), meta)
  end.

(** A slot is CSS-final if its thread is final up to it, or if a final slot of any
    thread is a whole period later. *)
Definition is_consensus_final {E} (latest : list Slot) (slot : Slot) : outcome E bool :=
  own ← idx latest (thread slot);
  Ok (slot_le slot own
      || existsb (λ s, tc <=? match slots_since s slot tc with Ok n => n | _ => 0 end) latest).

Record update_acc : Type := MkUpdateAcc {
  ua_old : list SlotInfo;
  ua_new : list SlotInfo;
  ua_finals : gmap Slot BlockId;
  ua_clique : option (gmap Slot BlockId);
  ua_meta : gmap BlockId M;
  ua_in_finality : bool;
  ua_execution_final : Slot;
  ua_candidate : Slot }.

Definition update_step {E} (latest : list Slot) (slot : Slot) (acc : update_acc)
    : outcome E update_acc :=
  new_consensus_final ← is_consensus_final latest slot;
  let prev_item := head (ua_old acc) in
  _ ← match prev_item with
      | Some prev => if decide (info_slot prev = slot) then Ok tt
                     else Panic "slot sequencing mismatch"
      | None => Ok tt
      end;
  '(item, overwrites, meta) ←
    sequence_build_step slot prev_item new_consensus_final (ua_finals acc !! slot)
      (bool_decide (is_Some (ua_clique acc))) (ua_clique acc ≫= (.!! slot)) (ua_meta acc)
      (ua_in_finality acc);
  let in_finality := ua_in_finality acc && execution_final item in
  candidate ← if (overwrites : bool) && slot_le slot (ua_candidate acc)
              then expect_ok "could not rollback speculative execution cursor"
                     (get_prev_slot slot tc)
              else Ok (ua_candidate acc);
  Ok (MkUpdateAcc (tail (ua_old acc)) (ua_new acc ++ [item]) (delete slot (ua_finals acc))
        (delete slot <$> ua_clique acc) meta in_finality
        (if in_finality then slot else ua_execution_final acc) candidate).

Fixpoint update_loop {E : Type} (fuel : nat) (latest : list Slot) (slot max_slot : Slot)
    (acc : update_acc) : outcome E update_acc :=
  match fuel with
  | O => OutOfFuel
  | S fuel =>
      if slot_le slot max_slot then
        acc ← update_step latest slot acc;
        next ← expect_ok "overflow on slot iteration" (get_next_slot slot tc);
        update_loop fuel latest next max_slot acc
      else Ok acc
  end.

Definition update {E} (now : N) (finals : gmap Slot BlockId) (clique : option (gmap Slot BlockId))
    (meta : gmap BlockId M) q : outcome E SlotSequencer :=
  match sequence q, last (sequence q) with
  | first :: _, Some lst =>
      latest ← note_final_slots finals (latest_consensus_final_slots q);
      m ← expect "latest_consensus_final_slots is empty" (slots_max latest);
      let max_slot := slot_max2 (slot_max2 m
            (default (MkSlot (sq_last_start_period cfg) 0)
               (clique ≫= λ bq, slots_max (map_iter bq).*1))) (info_slot lst) in
      _ ← expect_ok "error computing new sequence length"
            (slots_since max_slot (info_slot first) tc);
      acc ← update_loop (rounds (info_slot first) max_slot) latest (info_slot first) max_slot
              (MkUpdateAcc (sequence q) [] finals clique meta true (latest_execution_final_slot q)
                 (latest_executed_candidate_slot q));
      if decide (ua_old acc ≠ [])
      then Panic "some items of the old slot sequence have been unexpectedly not processed"
      else if decide (ua_finals acc ≠ ∅)
      then Panic "remaining elements in new_consensus_final_blocks after slot sequencing"
      else if decide (default ∅ (ua_clique acc) ≠ ∅)
      then Panic "remaining elements in new_blockclique after slot sequencing"
      else
        cleanup_sequence (MkSlotSequencer (ua_new acc) latest (ua_execution_final acc)
                            (latest_executed_final_slot q) (ua_candidate acc))
  | _, _ => if decide (finals = ∅) then Ok q else init now finals (default ∅ clique) meta q
  end.

(** ** Execution *)

Definition get_slot_index {E} q (slot : Slot) : outcome E (option N) :=
  first ← expect "slot sequence should never be empty" (head (sequence q));
  if slot_lt slot (info_slot first) then Ok None
  else
    n ← expect_ok "could not compute slots_since first slot in sequence"
          (slots_since slot (info_slot first) tc);
    Ok (if N.of_nat (length (sequence q)) <=? n then None else Some n).

Definition get_slot {E} q (slot : Slot) : outcome E (option SlotInfo) :=
  i ← get_slot_index q slot;
  Ok (n ← i; sequence q !! N.to_nat n).

Definition is_task_available {E} (now : N) q : outcome E bool :=
  match sequence q with
  | [] => Ok false
  | _ =>
      next ← expect_ok "overflow in slot iteration" (get_next_slot (latest_executed_final_slot q) tc);
      info ← get_slot q next;
      if match info with Some i => execution_final i | None => false end then Ok true
      else
        next ← expect_ok "overflow in slot iteration"
                 (get_next_slot (latest_executed_candidate_slot q) tc);
        cursor ← get_time_cursor now;
        Ok (slot_le next cursor)
  end.

(** The call made to the callback: whether the slot is final, the slot and its
    content. *)
Definition Call : Type := bool * Slot * option (BlockId * M).

(** The candidate part of [run_task_with]. *)
Definition run_candidate {E} (now : N) q : outcome E (option Call * SlotSequencer) :=
  slot ← expect_ok "overflow in slot iteration" (get_next_slot (latest_executed_candidate_slot q) tc);
  cursor ← get_time_cursor now;
  if slot_le slot cursor then
    info ← get_slot q slot;
    Ok (Some (false, slot, info ≫= info_content),
        MkSlotSequencer (sequence q) (latest_consensus_final_slots q)
          (latest_execution_final_slot q) (latest_executed_final_slot q) slot)
  else Ok (None, q).

Definition run_task_with {E} (now : N) q : outcome E (option Call * SlotSequencer) :=
  match sequence q with
  | [] => Ok (None, q)
  | _ =>
      slot ← expect_ok "overflow in slot iteration"
               (get_next_slot (latest_executed_final_slot q) tc);
      info ← get_slot q slot;
      match info with
      | Some i =>
          if execution_final i then
            q' ← cleanup_sequence
                   (MkSlotSequencer (sequence q) (latest_consensus_final_slots q)
                      (latest_execution_final_slot q) slot
                      (slot_max2 (latest_executed_candidate_slot q) slot));
            Ok (Some (true, slot, info_content i), q')
          else run_candidate now q
      | None => run_candidate now q
      end
  end.

Definition get_next_slot_deadline {E} (now : N) q : outcome E N :=
  match sequence q with
  | [] =>
      d ← expect_ok "called Result::unwrap() on an Err value"
            (Time.checked_div_u64 (sq_t0 cfg) tc);
      Ok (Time.saturating_add now d)
  | _ =>
      cursor ← get_time_cursor now;
      next ← expect_ok "slot overflow in slot deadline computation" (get_next_slot cursor tc);
      t ← expect_ok "could not compute slot timestamp"
            (get_block_slot_timestamp tc (sq_t0 cfg) (sq_genesis_timestamp cfg) next);
      Ok (Time.saturating_add t (sq_cursor_delay cfg))
  end.
End sequencer.
