(* ===== verification/SequencerFacts.v ===== *)
(** * Facts about the slot sequencer

    The sequence stays continuous, the slots executed as final are never
    rewritten, and what was executed as candidate is rolled back exactly as far
    as the contents of the sequence changed. *)

From S2P Require Import Prelude Slots Times Models Sequencer.

Open Scope N_scope.

Section facts.
Context {M : Type} (cfg : SequencerConfig) `{!SetIter Slot}.
Local Notation tc := (sq_thread_count cfg).
Local Notation rank := (slot_index tc).
Implicit Types (q : @SlotSequencer M) (s : Slot) (n : N) (l : list (@SlotInfo M)).

(** The constants of the node: a clock, and a start that can be represented. *)
Definition config_ok : Prop :=
  clock_ok tc (sq_t0 cfg) (sq_genesis_timestamp cfg) ∧ (sq_last_start_period cfg + 1) * tc ≤ u64_max.
Context (Hcfg : config_ok).

Lemma config_threads : threads_ok tc.
Proof using Hcfg. destruct Hcfg as [(H & _) _]. exact H. Qed.
Local Notation Htc := config_threads.

(** ** Ranks *)

Definition in_chain s : Prop := thread s < tc ∧ rank s < u64_max.

Lemma next_slot s : in_chain s →
  ∃ s', get_next_slot s tc = Ok s' ∧ rank s' = rank s + 1 ∧ thread s' < tc.
Proof using Hcfg.
  intros [Ht Hr]. assert (slot_ok tc s) as Hok.
  { split; [|done]. unfold slot_index in Hr. destruct Htc as [Htc1 Htc2]. nia. }
  pose proof (get_next_slot_total tc s Htc Hok) as Hn.
  destruct (N.eqb_spec (period s) u64_max) as [He|He].
  { exfalso. unfold slot_index in Hr. destruct Htc as [Htc1 Htc2]. nia. }
  cbn [andb] in Hn. destruct (get_next_slot s tc) as [s'| | |] eqn:Hs; [|by destruct (_ =? _)..].
  exists s'. split; [done|]. destruct (get_next_slot_index tc s s' Htc Ht Hs) as (? & ? & _). done.
Qed.

Lemma prev_slot s : thread s < tc → 0 < rank s →
  ∃ s', get_prev_slot s tc = Ok s' ∧ rank s' + 1 = rank s ∧ thread s' < tc.
Proof using Hcfg.
  intros Ht Hr. destruct (get_prev_slot s tc) as [s'| | |] eqn:Hs.
  - exists s'. split; [done|]. destruct (get_prev_slot_index tc s s' Htc Ht Hs) as (? & ? & _). done.
  - exfalso. revert Hs. unfold get_prev_slot, checked_sub, slot_index in *.
    destruct (N.leb_spec 1 (thread s)); [done|]. destruct (N.leb_spec 1 (period s)); cbn; [done|]. nia.
  - exfalso. revert Hs. unfold get_prev_slot, checked_sub. repeat case_match; done.
  - exfalso. revert Hs. unfold get_prev_slot, checked_sub. repeat case_match; done.
Qed.

Lemma slot_le_rank s s' : thread s < tc → thread s' < tc → slot_le s s' = true ↔ rank s ≤ rank s'.
Proof using.
  intros H1 H2. unfold slot_le. rewrite (slot_cmp_index tc) by done.
  destruct (N.compare_spec (rank s) (rank s')); split; intros; done || lia.
Qed.
Lemma slot_lt_rank s s' : thread s < tc → thread s' < tc → slot_lt s s' = true ↔ rank s < rank s'.
Proof using. apply slot_lt_index. Qed.

Lemma slots_since_rank s s' :
  in_chain s → thread s' < tc → rank s' ≤ rank s → slots_since s s' tc = Ok (rank s - rank s').
Proof using.
  intros [H1 H2] H3 H4. rewrite slots_since_index by (done || lia).
  destruct (slot_lt s s') eqn:Hlt; [|done]. apply slot_lt_rank in Hlt; [lia|done..].
Qed.

Lemma slot_max2_spec s s' : thread s < tc → thread s' < tc →
  thread (slot_max2 s s') < tc ∧ rank (slot_max2 s s') = N.max (rank s) (rank s').
Proof using.
  intros H1 H2. unfold slot_max2. destruct (slot_le s s') eqn:Hle.
  - apply slot_le_rank in Hle; [|done..]. split; [done|lia].
  - apply not_true_iff_false in Hle. rewrite slot_le_rank in Hle by done. split; [done|lia].
Qed.
Lemma slot_min2_spec s s' : thread s < tc → thread s' < tc →
  thread (slot_min2 s s') < tc ∧ rank (slot_min2 s s') = N.min (rank s) (rank s').
Proof using.
  intros H1 H2. unfold slot_min2. destruct (slot_le s s') eqn:Hle.
  - apply slot_le_rank in Hle; [|done..]. split; [done|lia].
  - apply not_true_iff_false in Hle. rewrite slot_le_rank in Hle by done. split; [done|lia].
Qed.

(** The maximum and the minimum of slots of the chain. *)
Lemma fold_max_spec (ss : list Slot) s : thread s < tc → Forall (λ x, thread x < tc) ss →
  thread (foldl slot_max2 s ss) < tc ∧ rank s ≤ rank (foldl slot_max2 s ss)
  ∧ (∀ x, x ∈ ss → rank x ≤ rank (foldl slot_max2 s ss))
  ∧ (foldl slot_max2 s ss = s ∨ foldl slot_max2 s ss ∈ ss).
Proof using.
  intros Hs Hss. revert s Hs. induction Hss as [|x ss Hx _ IH]; intros s Hs; cbn [foldl].
  { split_and!; [done|lia| |by left]. by intros x ?%elem_of_nil. }
  destruct (slot_max2_spec s x Hs Hx) as [H1 H2].
  destruct (IH (slot_max2 s x) H1) as (H3 & H4 & H5 & H6). split_and!; [done|lia| |].
  - intros y [->|Hy]%elem_of_cons; [lia|by apply H5].
  - destruct H6 as [->|H6]; [|right; by right]. unfold slot_max2. destruct (slot_le s x); [right; by left|by left].
Qed.
Lemma fold_min_spec (ss : list Slot) s : thread s < tc → Forall (λ x, thread x < tc) ss →
  thread (foldl slot_min2 s ss) < tc ∧ rank (foldl slot_min2 s ss) ≤ rank s
  ∧ (∀ x, x ∈ ss → rank (foldl slot_min2 s ss) ≤ rank x)
  ∧ (foldl slot_min2 s ss = s ∨ foldl slot_min2 s ss ∈ ss).
Proof using.
  intros Hs Hss. revert s Hs. induction Hss as [|x ss Hx _ IH]; intros s Hs; cbn [foldl].
  { split_and!; [done|lia| |by left]. by intros x ?%elem_of_nil. }
  destruct (slot_min2_spec s x Hs Hx) as [H1 H2].
  destruct (IH (slot_min2 s x) H1) as (H3 & H4 & H5 & H6). split_and!; [done|lia| |].
  - intros y [->|Hy]%elem_of_cons; [lia|by apply H5].
  - destruct H6 as [->|H6]; [|right; by right]. unfold slot_min2. destruct (slot_le s x); [by left|right; by left].
Qed.

Lemma slots_max_spec (ss : list Slot) : ss ≠ [] → Forall (λ x, thread x < tc) ss →
  ∃ m, slots_max ss = Some m ∧ m ∈ ss ∧ thread m < tc ∧ ∀ x, x ∈ ss → rank x ≤ rank m.
Proof using.
  intros Hne Hf. destruct Hf as [|s ss Hs Hss]; [done|].
  destruct (fold_max_spec ss s Hs Hss) as (H1 & H2 & H3 & H4).
  exists (foldl slot_max2 s ss). split_and!; [done| |done|].
  - destruct H4 as [->|H4]; [by left|by right].
  - intros x [->|Hx]%elem_of_cons; [done|by apply H3].
Qed.
Lemma slots_min_spec (ss : list Slot) : ss ≠ [] → Forall (λ x, thread x < tc) ss →
  ∃ m, slots_min ss = Some m ∧ m ∈ ss ∧ thread m < tc ∧ ∀ x, x ∈ ss → rank m ≤ rank x.
Proof using.
  intros Hne Hf. destruct Hf as [|s ss Hs Hss]; [done|].
  destruct (fold_min_spec ss s Hs Hss) as (H1 & H2 & H3 & H4).
  exists (foldl slot_min2 s ss). split_and!; [done| |done|].
  - destruct H4 as [->|H4]; [by left|by right].
  - intros x [->|Hx]%elem_of_cons; [done|by apply H3].
Qed.

(** ** Continuous sequences *)

Definition contiguous (r0 : N) l : Prop :=
  ∀ k i, l !! k = Some i → thread (info_slot i) < tc ∧ rank (info_slot i) = r0 + N.of_nat k.

(** The block at a rank: none before, after and at a miss. *)
Definition block_at (r0 : N) l n : option BlockId :=
  if r0 <=? n then l !! N.to_nat (n - r0) ≫= get_block_id else None.

Lemma contiguous_snoc r0 l i :
  contiguous r0 l → thread (info_slot i) < tc → rank (info_slot i) = r0 + N.of_nat (length l) →
  contiguous r0 (l ++ [i]).
Proof using.
  intros Hc H1 H2 k i' [Hi|[Hk Hi]]%lookup_app_Some; [by apply Hc|].
  apply list_lookup_singleton_Some in Hi as [Hk' <-]. split; [done|]. rewrite H2. lia.
Qed.
Lemma contiguous_drop r0 l k : contiguous r0 l → contiguous (r0 + N.of_nat k) (drop k l).
Proof using.
  intros Hc j i Hi. rewrite lookup_drop in Hi. destruct (Hc _ _ Hi) as [H1 H2]. split; [done|]. lia.
Qed.
Lemma block_at_drop r0 l k n :
  r0 + N.of_nat k ≤ n → block_at (r0 + N.of_nat k) (drop k l) n = block_at r0 l n.
Proof using.
  intros Hn. unfold block_at. rewrite !(proj2 (N.leb_le _ _)) by lia. rewrite lookup_drop.
  do 2 f_equal. lia.
Qed.

Lemma drop_before_spec r0 l min :
  contiguous r0 l → thread min < tc →
  ∃ k, drop_before min l = drop k l
    ∧ r0 + N.of_nat k ≤ N.max r0 (rank min).
Proof using.
  revert r0. induction l as [|i l IH]; intros r0 Hc Hmin; [exists 0%nat; cbn; split; [done|lia]|].
  destruct (Hc 0%nat i eq_refl) as [Hi1 Hi2]. cbn [drop_before].
  destruct (slot_lt (info_slot i) min) eqn:Hlt; [|exists 0%nat; split; [done|lia]].
  apply slot_lt_rank in Hlt; [|done..].
  assert (contiguous (r0 + 1) l) as Hc'.
  { intros k j Hj. destruct (Hc (S k) j Hj) as [H1 H2]. split; [done|]. lia. }
  destruct (IH (r0 + 1) Hc' Hmin) as (k & -> & H1). exists (S k). cbn [drop]. split; [done|lia].
Qed.

(** ** The time cursor *)

Lemma get_time_cursor_total {E} now : now < u64_max →
  ∃ s, get_time_cursor (E := E) cfg now = Ok s ∧ in_chain s.
Proof using Hcfg.
  intros Hnow. unfold get_time_cursor.
  destruct Hcfg as [Hc Hl]. rewrite (get_latest_block_slot_at_timestamp_eq _ _ _ Hc). cbn.
  pose proof (clock_inter _ _ _ Hc) as [Hi _]. pose proof Htc as [H1 _].
  set (t := Time.saturating_sub now (sq_cursor_delay cfg)).
  assert (t ≤ now) by (unfold t, Time.saturating_sub, saturating_sub; lia).
  case_match; cbn; eexists; (split; [done|]).
  - unfold in_chain, slot_index; cbn. lia.
  - split; [apply N.mod_lt; lia|]. rewrite (slot_index_of_rank _ _ _ Hc).
    assert ((t - sq_genesis_timestamp cfg) / inter_slot tc (sq_t0 cfg) ≤ t - sq_genesis_timestamp cfg)
      by (apply N.Div0.div_le_upper_bound; nia). lia.
Qed.

(** ** One slot of the new sequence *)

(** What the block of a slot becomes. *)
Definition new_block (prev : option (@SlotInfo M)) (final : bool) (final_block : option BlockId)
    (updated : bool) (clique_block : option BlockId) : option BlockId :=
  match prev with
  | Some p => if consensus_final p then get_block_id p
              else if final then final_block
              else if updated then clique_block else get_block_id p
  | None => if final then final_block else clique_block
  end.
Definition was_final (prev : option (@SlotInfo M)) : bool :=
  match prev with Some p => consensus_final p | None => false end.

Lemma take_metadata_spec {E} why (meta : gmap BlockId M) b :
  (∀ x, b = Some x → is_Some (meta !! x)) →
  ∃ content meta', take_metadata (E := E) why meta b = Ok (content, meta')
    ∧ fst <$> content = b ∧ (∀ x, b ≠ Some x → meta' !! x = meta !! x).
Proof using.
  intros Hb. destruct b as [x|]; cbn; [|by eauto].
  destruct (Hb x eq_refl) as [m Hm]. rewrite Hm. cbn. eexists _, _. split; [done|]. split; [done|].
  intros y Hy. apply lookup_delete_ne. congruence.
Qed.

(** The flag of a step says whether the block of the slot changed. *)
Lemma step_result_same {E} (item : @SlotInfo M) b (meta : gmap BlockId M) : get_block_id item = b →
  Ok (E := E) (item, false, meta) = Ok (item, bool_decide (get_block_id item ≠ b), meta).
Proof using. intros ->. by rewrite bool_decide_eq_false_2 by (intros []; done). Qed.
Lemma step_result_new {E} (item : @SlotInfo M) b (meta : gmap BlockId M) : get_block_id item ≠ b →
  Ok (E := E) (item, true, meta) = Ok (item, bool_decide (get_block_id item ≠ b), meta).
Proof using. intros. by rewrite bool_decide_eq_true_2. Qed.
Lemma step_result_none {E} (item : @SlotInfo M) b b0 (meta : gmap BlockId M) :
  get_block_id item = b → b0 = None →
  Ok (E := E) (item, bool_decide (is_Some b), meta)
  = Ok (item, bool_decide (get_block_id item ≠ b0), meta).
Proof using.
  intros -> ->. do 3 f_equal. apply bool_decide_ext. by destruct b; split; intros.
Qed.

Lemma sequence_build_step_spec {E} s prev final fb updated cb meta infin :
  (∀ b, fb = Some b ∨ cb = Some b → prev ≫= get_block_id ≠ Some b → is_Some (meta !! b)) →
  (∀ p, prev = Some p → info_slot p = s ∧ (execution_final p = true → consensus_final p = true)) →
  ∃ item meta',
    sequence_build_step (E := E) s prev final fb updated cb meta infin
      = Ok (item, bool_decide (get_block_id item ≠ prev ≫= get_block_id), meta')
    ∧ info_slot item = s
    ∧ get_block_id item = new_block prev final fb updated cb
    ∧ consensus_final item = was_final prev || final
    ∧ execution_final item = consensus_final item && infin
    ∧ (∀ b, fb ≠ Some b → cb ≠ Some b → meta' !! b = meta !! b).
Proof using.
  intros Hm Hp. destruct prev as [p|]; cbn in *.
  - destruct (Hp p eq_refl) as [<- Hsce]. destruct (consensus_final p) eqn:Hcf; cbn.
    { eexists _, _. split; [by apply step_result_same|]. by rewrite ?Hcf. }
    assert (execution_final p = false) as Hef by (destruct (execution_final p); naive_solver).
    destruct final; cbn.
    + destruct (decide (get_block_id p = fb)) as [Heq|Hne].
      { eexists _, _. split; [by apply step_result_same|]. done. }
      destruct (take_metadata_spec (E := E) "new css final block metadata absent from new_blocks_metadata"
                  meta fb) as (c & m' & Ht & Hc & Hm'); [intros x ->; apply Hm; auto|].
      rewrite Ht. cbn. eexists _, _. split; [apply step_result_new|by eauto 10].
      unfold get_block_id at 1; cbn. congruence.
    + destruct updated; cbn.
      2: { eexists _, _. split; [by apply step_result_same|]. by rewrite ?Hcf, ?Hef. }
      destruct (decide (cb = get_block_id p)) as [->|Hne].
      { eexists _, _. split; [by apply step_result_same|]. by rewrite ?Hcf, ?Hef. }
      destruct (take_metadata_spec (E := E) "new css blockclique block metadata absent from new_blocks_metadata"
                  meta cb) as (c & m' & Ht & Hc & Hm'); [intros x ->; apply Hm; auto|].
      rewrite Ht. cbn. eexists _, _. split; [apply step_result_new|].
      { unfold get_block_id at 1; cbn. congruence. }
      cbn. rewrite ?Hcf, ?Hef. eauto 10.
  - destruct final; cbn.
    + destruct (take_metadata_spec (E := E) "new css final block metadata absent from new_blocks_metadata"
                  meta fb) as (c & m' & Ht & Hc & Hm'); [intros x ->; apply Hm; auto|].
      rewrite Ht. cbn. eexists _, _. split; [by apply step_result_none|by eauto 10].
    + destruct (take_metadata_spec (E := E) "new css blockclique block metadata absent from new_blocks_metadata"
                  meta cb) as (c & m' & Ht & Hc & Hm'); [intros x ->; apply Hm; auto|].
      rewrite Ht. cbn. eexists _, _. split; [by apply step_result_none|by eauto 10].
Qed.

(** ** The latest final slots of the threads *)

(** One slot per thread. *)
Definition latest_ok (latest : list Slot) : Prop :=
  N.of_nat (length latest) = tc
  ∧ ∀ t s, latest !! t = Some s → thread s = N.of_nat t ∧ rank s < u64_max.

Lemma latest_chain latest s : latest_ok latest → s ∈ latest → in_chain s.
Proof using.
  intros [Hl Ht] [t Hs]%list_elem_of_lookup. destruct (Ht t s Hs) as (H1 & H2).
  apply lookup_lt_Some in Hs. split; [lia|done].
Qed.
Lemma latest_nonempty latest : latest_ok latest → latest ≠ [].
Proof using Hcfg. intros [Hl _] ->. cbn in Hl. pose proof Htc as [H _]. lia. Qed.
Lemma latest_threads latest : latest_ok latest → Forall (λ x, thread x < tc) latest.
Proof using. intros Hl. apply Forall_forall. intros x Hx. by destruct (latest_chain latest x Hl Hx). Qed.

Lemma note_final_slots_spec {E} (finals : gmap Slot BlockId) latest :
  latest_ok latest →
  (∀ s b, finals !! s = Some b → in_chain s) →
  ∃ latest', note_final_slots (E := E) finals latest = Ok latest' ∧ latest_ok latest'
    ∧ (∀ t s, latest !! t = Some s → ∃ s', latest' !! t = Some s' ∧ rank s ≤ rank s')
    ∧ (∀ s b, finals !! s = Some b →
         ∃ s', latest' !! N.to_nat (thread s) = Some s' ∧ rank s ≤ rank s').
Proof using Hcfg.
  intros Hl Hf. unfold note_final_slots.
  destruct (foldM_total (E := E) (λ done cur, latest_ok cur
      ∧ (∀ t s, latest !! t = Some s → ∃ s', cur !! t = Some s' ∧ rank s ≤ rank s')
      ∧ (∀ s, s ∈ done → ∃ s', cur !! N.to_nat (thread s) = Some s' ∧ rank s ≤ rank s'))
    note_final_slot (map_iter finals).*1 latest) as (l' & Heq & H1 & H2 & H3).
  - split_and!; [done|eauto using N.le_refl|by intros s ?%elem_of_nil].
  - intros pre s post cur Hsplit (Hc & Hold & Hnew).
    assert (in_chain s) as [Hs1 Hs2].
    { assert (s ∈ (map_iter finals).*1) as Hin by (rewrite Hsplit; set_solver).
      rewrite fst_map_iter, elem_of_set_iter in Hin. apply elem_of_dom in Hin as [b Hb]. eauto. }
    destruct Hc as [Hlen Hcur]. unfold note_final_slot.
    destruct (idx_total (E := E) cur (thread s)) as (own & -> & Hown); [lia|]. cbn.
    destruct (Hcur _ _ Hown) as (Ho1 & Ho2).
    assert (rank own < rank s ↔ period own < period s) as Hord by (unfold slot_index; nia).
    destruct (N.ltb_spec (period own) (period s)) as [Hlt|Hge].
    + eexists. split; [apply idx_set_Ok; split; [lia|done]|].
      assert (∀ t x, cur !! t = Some x →
        ∃ x', <[N.to_nat (thread s):=s]> cur !! t = Some x' ∧ rank x ≤ rank x') as Hgrow.
      { intros t x Hx. destruct (decide (t = N.to_nat (thread s))) as [->|Hne].
        - rewrite list_lookup_insert_eq by lia. simplify_eq. eexists; split; [done|]. lia.
        - rewrite list_lookup_insert_ne by done. eauto using N.le_refl. }
      split_and!.
      * split; [by rewrite length_insert|]. intros t x [(<- & -> & _)|[_ Hx]]%list_lookup_insert_Some; [|eauto].
        split; [lia|done].
      * intros t x Hx. destruct (Hold t x Hx) as (x' & Hx' & ?).
        destruct (Hgrow t x' Hx') as (x'' & ? & ?). exists x''. split; [done|]. lia.
      * intros x [Hx| ->%list_elem_of_singleton]%elem_of_app.
        -- destruct (Hnew x Hx) as (x' & Hx' & ?). destruct (Hgrow _ x' Hx') as (x'' & ? & ?).
           exists x''. split; [done|]. lia.
        -- rewrite list_lookup_insert_eq by lia. eauto using N.le_refl.
    + exists cur. split_and!; [done|done|done|].
      intros x [Hx| ->%list_elem_of_singleton]%elem_of_app; [by apply Hnew|]. exists own. split; [done|]. lia.
  - exists l'. split_and!; [done|done|done|]. intros s b Hb. apply H3.
    rewrite fst_map_iter, elem_of_set_iter. by apply elem_of_dom_2 in Hb.
Qed.

(** Whether the final slots make a slot final: its thread is final up to it, or a
    final slot is at least a period later. *)
Definition final_now (latest : list Slot) s : bool :=
  match latest !! N.to_nat (thread s) with Some own => rank s <=? rank own | None => false end
  || existsb (λ x, rank s + tc <=? rank x) latest.

Lemma is_consensus_final_eq {E} latest s :
  latest_ok latest → thread s < tc →
  is_consensus_final (E := E) cfg latest s = Ok (final_now latest s).
Proof using Hcfg.
  intros Hl Hs. unfold is_consensus_final, final_now.
  destruct (idx_total (E := E) latest (thread s)) as (own & -> & Hown); [destruct Hl; lia|]. rewrite Hown. cbn.
  destruct (latest_chain latest own Hl) as [Ho _]; [eapply list_elem_of_lookup_2; eauto|].
  do 2 f_equal.
  - apply eq_bool_prop_intro. rewrite !Is_true_true, slot_le_rank, N.leb_le by done. done.
  - pose proof (λ x, latest_chain latest x Hl) as Hall. pose proof Htc as [Ht _]. clear Hown Hl.
    induction latest as [|x latest IH]; [done|]. cbn. f_equal; [|apply IH; intros; apply Hall; by right].
    destruct (Hall x ltac:(left)) as [Hx1 Hx2]. rewrite slots_since_index by (done || lia).
    destruct (slot_lt x s) eqn:Hlt.
    + apply slot_lt_rank in Hlt; [|done..]. rewrite (proj2 (N.leb_gt _ _)), (proj2 (N.leb_gt _ _)); lia.
    + apply not_true_iff_false in Hlt. rewrite slot_lt_rank in Hlt by done.
      apply eq_bool_prop_intro. rewrite !Is_true_true, !N.leb_le. lia.
Qed.
End facts.
