(* ===== verification/SequencerUpdate.v ===== *)
(** * Updates of the slot sequencer

    The invariant of the sequencer, what a notification of consensus must bring,
    and the effect of [update]: no panic, the block of every slot as the
    notification says, and the candidate cursor rolled back exactly to the first
    slot whose block changed. *)

From S2P Require Import Prelude Slots Times Models Sequencer SequencerFacts.

Open Scope N_scope.

Section update.
Context {M : Type} (cfg : SequencerConfig) `{!SetIter Slot} (Hcfg : config_ok cfg).
Local Notation tc := (sq_thread_count cfg).
Local Notation rank := (slot_index tc).
Local Notation in_chain := (in_chain cfg).
Local Notation contiguous := (contiguous cfg).
Local Notation latest_ok := (latest_ok cfg).
Local Notation final_now := (final_now cfg).
Implicit Types (q : @SlotSequencer M) (s : Slot) (n : N) (l : list (@SlotInfo M)).
Implicit Types (finals : gmap Slot BlockId) (clique : option (gmap Slot BlockId)).

(** ** The invariant *)

(** The sequence is continuous from rank [r0]; it reaches the last slot executed
    as final and what is before that slot is final for consensus; the candidate
    cursor is at or after the final one. *)
Record seq_ok (r0 : N) q : Prop := {
  so_nonempty : sequence q ≠ [];
  so_contiguous : contiguous r0 (sequence q);
  so_bound : r0 + N.of_nat (length (sequence q)) ≤ u64_max;
  so_latest : latest_ok (latest_consensus_final_slots q);
  so_execution_final : thread (latest_execution_final_slot q) < tc;
  so_executed_final : thread (latest_executed_final_slot q) < tc
    ∧ r0 ≤ rank (latest_executed_final_slot q)
    ∧ rank (latest_executed_final_slot q) < r0 + N.of_nat (length (sequence q));
  so_candidate : in_chain (latest_executed_candidate_slot q)
    ∧ rank (latest_executed_final_slot q) ≤ rank (latest_executed_candidate_slot q);
  so_final_done : ∀ k i, sequence q !! k = Some i →
    r0 + N.of_nat k ≤ rank (latest_executed_final_slot q) → consensus_final i = true;
  so_finality : ∀ k i, sequence q !! k = Some i → execution_final i = true → consensus_final i = true }.

(** The blocks of a notification. *)
Definition announced finals clique s (b : BlockId) : Prop :=
  finals !! s = Some b ∨ clique ≫= (.!! s) = Some b.

(** A notification names slots of the sequence or after it, a block at one slot
    only, and brings the metadata of the blocks the sequencer does not have. *)
Record notification_ok (r0 : N) q finals clique (meta : gmap BlockId M) : Prop := {
  no_slots : ∀ s b, announced finals clique s b → in_chain s ∧ r0 ≤ rank s;
  no_once : ∀ s s' b, announced finals clique s b → announced finals clique s' b → s = s';
  no_meta : ∀ s b, announced finals clique s b →
    block_at r0 (sequence q) (rank s) ≠ Some b → is_Some (meta !! b) }.

(** ** The loop *)

(** The item the notification gives for the slot [s] at position [k]. *)
Definition item_ok (latest : list Slot) finals clique (prev : option (@SlotInfo M)) s
    (i : @SlotInfo M) : Prop :=
  info_slot i = s
  ∧ get_block_id i = new_block prev (final_now latest s) (finals !! s)
                       (bool_decide (is_Some clique)) (clique ≫= (.!! s))
  ∧ consensus_final i = was_final prev || final_now latest s.

(** What holds when the slots before rank [n] are done. *)
Record loop_ok (r0 : N) q (latest : list Slot) finals clique (n : N) (acc : @update_acc M) : Prop := {
  lo_start : r0 ≤ n;
  lo_old : ua_old acc = drop (N.to_nat (n - r0)) (sequence q);
  lo_length : length (ua_new acc) = N.to_nat (n - r0);
  lo_contiguous : contiguous r0 (ua_new acc);
  lo_items : ∀ k i, ua_new acc !! k = Some i →
    item_ok latest finals clique (sequence q !! k) (info_slot i) i;
  lo_finality : ∀ k i, ua_new acc !! k = Some i → execution_final i = true ↔
    ∀ j i', (j ≤ k)%nat → ua_new acc !! j = Some i' → consensus_final i' = true;
  lo_in_finality : ua_in_finality acc = true ↔
    ∀ k i, ua_new acc !! k = Some i → consensus_final i = true;
  lo_finals : ∀ s, thread s < tc → ua_finals acc !! s = if rank s <? n then None else finals !! s;
  lo_finals_sub : ua_finals acc ⊆ finals;
  lo_clique : ∀ s, thread s < tc →
    ua_clique acc ≫= (.!! s) = if rank s <? n then None else clique ≫= (.!! s);
  lo_clique_sub : ∀ s b, ua_clique acc ≫= (.!! s) = Some b → clique ≫= (.!! s) = Some b;
  lo_updated : is_Some (ua_clique acc) ↔ is_Some clique;
  lo_meta : ∀ s b, announced finals clique s b → n ≤ rank s →
    block_at r0 (sequence q) (rank s) ≠ Some b → is_Some (ua_meta acc !! b);
  lo_execution_final : thread (ua_execution_final acc) < tc;
  lo_candidate : in_chain (ua_candidate acc)
    ∧ rank (ua_candidate acc) ≤ rank (latest_executed_candidate_slot q)
    ∧ rank (latest_executed_final_slot q) ≤ rank (ua_candidate acc);
  lo_kept : ∀ k i, ua_new acc !! k = Some i → r0 + N.of_nat k ≤ rank (ua_candidate acc) →
    get_block_id i = block_at r0 (sequence q) (r0 + N.of_nat k);
  lo_rolled_back : ua_candidate acc = latest_executed_candidate_slot q
    ∨ ∃ i, ua_new acc !! N.to_nat (rank (ua_candidate acc) + 1 - r0) = Some i
        ∧ get_block_id i ≠ block_at r0 (sequence q) (rank (ua_candidate acc) + 1) }.

Lemma block_at_lookup r0 l k : block_at r0 l (r0 + N.of_nat k) = l !! k ≫= get_block_id.
Proof using. unfold block_at. rewrite (proj2 (N.leb_le _ _)) by lia. do 2 f_equal. lia. Qed.

Lemma snoc_lookup_cases {A} (l : list A) x k i :
  (l ++ [x]) !! k = Some i → l !! k = Some i ∨ (k = length l ∧ i = x).
Proof using.
  intros [?|[? Hi]]%lookup_app_Some; [by left|]. apply list_lookup_singleton_Some in Hi as [? <-].
  right. split; [lia|done].
Qed.
Lemma snoc_all {A} (P : A → Prop) (l : list A) x :
  (∀ k i, (l ++ [x]) !! k = Some i → P i) ↔ (∀ k i, l !! k = Some i → P i) ∧ P x.
Proof using.
  split.
  - intros H. split; [|apply (H (length l)); by rewrite list_lookup_middle].
    intros k i Hi. apply (H k). by rewrite lookup_app_l by (by eapply lookup_lt_Some).
  - intros [H Hx] k i [?|[_ ->]]%snoc_lookup_cases; eauto.
Qed.
Lemma snoc_prefix {A} (P : A → Prop) (l : list A) x k : (k < length l)%nat →
  (∀ j i, (j ≤ k)%nat → (l ++ [x]) !! j = Some i → P i) ↔ (∀ j i, (j ≤ k)%nat → l !! j = Some i → P i).
Proof using.
  intros Hk. split; intros H j i Hj Hi; apply (H j i Hj).
  - by rewrite lookup_app_l by lia.
  - by rewrite lookup_app_l in Hi by lia.
Qed.

Section step.
Context (r0 : N) q (latest : list Slot) finals clique (meta : gmap BlockId M).
Context (Hq : seq_ok r0 q) (Hlatest : latest_ok latest) (Hnote : notification_ok r0 q finals clique meta).
Local Notation loop_ok := (loop_ok r0 q latest finals clique).

(** The slot that is about to be built. *)
Lemma loop_prev n acc : loop_ok n acc →
  head (ua_old acc) = sequence q !! N.to_nat (n - r0)
  ∧ tail (ua_old acc) = drop (N.to_nat (n + 1 - r0)) (sequence q)
  ∧ head (ua_old acc) ≫= get_block_id = block_at r0 (sequence q) n.
Proof using.
  intros H. pose proof (lo_start _ _ _ _ _ _ _ H) as Hn. rewrite (lo_old _ _ _ _ _ _ _ H).
  assert (head (drop (N.to_nat (n - r0)) (sequence q)) = sequence q !! N.to_nat (n - r0)) as Heq.
  { rewrite head_lookup, lookup_drop. f_equal. lia. }
  rewrite Heq. split_and!; [done| |].
  - transitivity (drop 1 (drop (N.to_nat (n - r0)) (sequence q))); [by destruct (drop _ _)|].
    rewrite drop_drop. f_equal. lia.
  - unfold block_at. by rewrite (proj2 (N.leb_le _ _)) by done.
Qed.

Lemma loop_prev_slot n acc s : loop_ok n acc → thread s < tc → rank s = n →
  ∀ p, head (ua_old acc) = Some p →
    info_slot p = s ∧ (execution_final p = true → consensus_final p = true)
    ∧ (n ≤ rank (latest_executed_final_slot q) → consensus_final p = true).
Proof using Hq.
  intros H Hs Hr p Hp. destruct (loop_prev n acc H) as (Heq & _). rewrite Heq in Hp.
  pose proof (lo_start _ _ _ _ _ _ _ H). destruct (so_contiguous _ _ Hq _ _ Hp) as [Ht Hk]. split_and!.
  - apply (slot_index_inj tc); [done..|]. lia.
  - by apply (so_finality _ _ Hq _ _ Hp).
  - intros Hn. apply (so_final_done _ _ Hq _ _ Hp). lia.
Qed.

(** The metadata of the blocks at the slot is there. *)
Lemma loop_meta n acc s : loop_ok n acc → thread s < tc → rank s = n →
  ∀ b, ua_finals acc !! s = Some b ∨ ua_clique acc ≫= (.!! s) = Some b →
    head (ua_old acc) ≫= get_block_id ≠ Some b → is_Some (ua_meta acc !! b).
Proof using.
  intros H Hs Hr b Hb Hne. destruct (loop_prev n acc H) as (_ & _ & Heq). rewrite Heq in Hne.
  apply (lo_meta _ _ _ _ _ _ _ H s b); [|lia|congruence].
  destruct Hb as [Hb|Hb]; [left|right].
  - by apply (lookup_weaken _ _ _ _ Hb), (lo_finals_sub _ _ _ _ _ _ _ H).
  - by apply (lo_clique_sub _ _ _ _ _ _ _ H).
Qed.

(** The cursor goes back to the slot before a change at or before it. *)
Lemma roll_back {E} s c (changed : bool) :
  in_chain s → in_chain c → (changed = true → 0 < rank s) →
  ∃ c', (if changed && slot_le s c
         then expect_ok "could not rollback speculative execution cursor" (get_prev_slot s tc)
         else Ok c) = Ok (E := E) c'
    ∧ in_chain c'
    ∧ (c' = c ∧ (changed = true → rank c < rank s)
       ∨ changed = true ∧ rank s ≤ rank c ∧ rank c' + 1 = rank s).
Proof using Hcfg.
  intros [Hs1 Hs2] [Hc1 Hc2] Hpos. destruct changed; cbn [andb]; [|eexists; split_and!; [done..|by left]].
  destruct (slot_le s c) eqn:Hle.
  - apply (slot_le_rank cfg) in Hle; [|done..].
    destruct (prev_slot cfg Hcfg s Hs1 (Hpos eq_refl)) as (c' & -> & Hr & Ht).
    exists c'. split; [done|]. split; [split; [done|lia]|]. right. split_and!; [done|lia|lia].
  - apply not_true_iff_false in Hle. rewrite (slot_le_rank cfg) in Hle by done.
    exists c. split_and!; [done..|]. left. split; [done|]. lia.
Qed.

(** Taking the block of the slot of rank [n] out of a map. *)
Lemma take_slot (cur orig : gmap Slot BlockId) n s : thread s < tc → rank s = n →
  (∀ x, thread x < tc → cur !! x = if rank x <? n then None else orig !! x) →
  ∀ x, thread x < tc → delete s cur !! x = if rank x <? n + 1 then None else orig !! x.
Proof using.
  intros Hs Hr H x Hx. destruct (decide (x = s)) as [->|Hne].
  - rewrite lookup_delete_eq. by rewrite (proj2 (N.ltb_lt _ _)) by lia.
  - rewrite lookup_delete_ne, H by done.
    assert (rank x ≠ rank s) by (intros ?; apply Hne, (slot_index_inj tc); done).
    destruct (N.ltb_spec (rank x) n), (N.ltb_spec (rank x) (n + 1)); done || lia.
Qed.

Definition cursor_ok n (item : @SlotInfo M) c c' : Prop :=
  in_chain c'
  ∧ (c' = c ∧ (get_block_id item ≠ block_at r0 (sequence q) n → rank c < n)
     ∨ get_block_id item ≠ block_at r0 (sequence q) n ∧ n ≤ rank c ∧ rank c' + 1 = n).

(** The blocks of the slots executed as final do not change. *)
Lemma changed_after_final n acc s item :
  loop_ok n acc → thread s < tc → rank s = n →
  item_ok latest finals clique (head (ua_old acc)) s item →
  get_block_id item ≠ block_at r0 (sequence q) n → rank (latest_executed_final_slot q) < n.
Proof using Hq.
  intros H Hs Hr (_ & Hb & _) Hne. destruct (N.lt_ge_cases (rank (latest_executed_final_slot q)) n) as [|Hle]; [done|].
  exfalso. apply Hne. pose proof (lo_start _ _ _ _ _ _ _ H).
  destruct (loop_prev n acc H) as (Hhead & _ & Hblock).
  destruct (so_executed_final _ _ Hq) as (_ & _ & Hlt).
  destruct (lookup_lt_is_Some_2 (sequence q) (N.to_nat (n - r0))) as [p Hp]; [lia|].
  rewrite Hp in Hhead. destruct (loop_prev_slot n acc s H Hs Hr p Hhead) as (_ & _ & Hcf).
  rewrite <-Hblock, Hb, Hhead. cbn. by rewrite Hcf.
Qed.

(** The parts of the loop invariant, one slot later. *)
Lemma advance_finality n acc item :
  loop_ok n acc → execution_final item = consensus_final item && ua_in_finality acc →
  (∀ k i, (ua_new acc ++ [item]) !! k = Some i → execution_final i = true ↔
     ∀ j i', (j ≤ k)%nat → (ua_new acc ++ [item]) !! j = Some i' → consensus_final i' = true)
  ∧ (ua_in_finality acc && execution_final item = true ↔
     ∀ k i, (ua_new acc ++ [item]) !! k = Some i → consensus_final i = true).
Proof using.
  intros H He. pose proof (lo_in_finality _ _ _ _ _ _ _ H) as Hin. split.
  - intros k i [Hi|[-> ->]]%snoc_lookup_cases.
    + rewrite (lo_finality _ _ _ _ _ _ _ H k i Hi).
      by rewrite (snoc_prefix (λ i, consensus_final i = true)) by (by eapply lookup_lt_Some).
    + pose proof (snoc_all (λ i, consensus_final i = true) (ua_new acc) item) as Hsnoc.
      transitivity (∀ k i, (ua_new acc ++ [item]) !! k = Some i → consensus_final i = true).
      { rewrite Hsnoc, He, andb_true_iff, Hin. tauto. }
      split; intros Hall j i'; [by eauto|]. intros Hi'. apply (Hall j); [|done].
      apply lookup_lt_Some in Hi'. rewrite length_app in Hi'. cbn in Hi'. lia.
  - rewrite (snoc_all (λ i, consensus_final i = true)), He, !andb_true_iff, Hin. tauto.
Qed.

Lemma advance_cursor n acc s item c' :
  loop_ok n acc → thread s < tc → rank s = n →
  item_ok latest finals clique (head (ua_old acc)) s item →
  cursor_ok n item (ua_candidate acc) c' →
  (in_chain c' ∧ rank c' ≤ rank (latest_executed_candidate_slot q)
     ∧ rank (latest_executed_final_slot q) ≤ rank c')
  ∧ (∀ k i, (ua_new acc ++ [item]) !! k = Some i → r0 + N.of_nat k ≤ rank c' →
       get_block_id i = block_at r0 (sequence q) (r0 + N.of_nat k))
  ∧ (c' = latest_executed_candidate_slot q
     ∨ ∃ i, (ua_new acc ++ [item]) !! N.to_nat (rank c' + 1 - r0) = Some i
         ∧ get_block_id i ≠ block_at r0 (sequence q) (rank c' + 1)).
Proof using Hq.
  intros H Hs Hr Hitem (Hc & Hcur). destruct (lo_candidate _ _ _ _ _ _ _ H) as (Hc1 & Hc2 & Hc3).
  pose proof (lo_start _ _ _ _ _ _ _ H) as Hn. pose proof (lo_length _ _ _ _ _ _ _ H) as Hlen.
  assert (∀ i, (ua_new acc ++ [item]) !! N.to_nat (n - r0) = Some i → i = item) as Hlast.
  { intros i. rewrite <-Hlen, list_lookup_middle by done. congruence. }
  pose proof (changed_after_final n acc s item H Hs Hr Hitem) as Hchg.
  assert (∀ k i, ua_new acc !! k = Some i → (k < N.to_nat (n - r0))%nat) as Hlt
    by (intros k i Hi; rewrite <-Hlen; by eapply lookup_lt_Some).
  split_and!.
  - done.
  - destruct Hcur as [[-> _]|(_ & ? & ?)]; lia.
  - destruct Hcur as [[-> _]|(Hne & ? & ?)]; [done|]. specialize (Hchg Hne). lia.
  - intros k i [Hi|[-> ->]]%snoc_lookup_cases Hk.
    + apply (lo_kept _ _ _ _ _ _ _ H k i Hi). specialize (Hlt k i Hi).
      destruct Hcur as [[-> _]|(_ & ? & ?)]; lia.
    + rewrite Hlen in *. replace (r0 + N.of_nat (N.to_nat (n - r0))) with n in * by lia.
      destruct Hcur as [[-> Hcur]|(_ & ? & ?)]; [|lia].
      destruct (decide (get_block_id item = block_at r0 (sequence q) n)) as [|Hne]; [done|].
      specialize (Hcur Hne). lia.
  - destruct Hcur as [[-> _]|(Hne & ? & Hc')].
    + destruct (lo_rolled_back _ _ _ _ _ _ _ H) as [->|(i & Hi & Hne)]; [by left|right].
      exists i. split; [|done]. rewrite lookup_app_l; [done|by eapply lookup_lt_Some].
    + right. exists item. rewrite Hc'. split; [|done]. rewrite <-Hlen. by rewrite list_lookup_middle.
Qed.

Lemma advance_meta n acc s (meta' : gmap BlockId M) :
  loop_ok n acc → thread s < tc → rank s = n →
  (∀ b, ua_finals acc !! s ≠ Some b → ua_clique acc ≫= (.!! s) ≠ Some b → meta' !! b = ua_meta acc !! b) →
  ∀ x b, announced finals clique x b → n + 1 ≤ rank x →
    block_at r0 (sequence q) (rank x) ≠ Some b → is_Some (meta' !! b).
Proof using Hnote.
  intros H Hs Hr Hm x b Hx Hn Hne.
  assert (∀ o, (finals !! s = o ∨ clique ≫= (.!! s) = o) → o ≠ Some b) as Hother.
  { intros o Ho ->. assert (x = s) as -> by (by apply (no_once _ _ _ _ _ Hnote _ _ b)). lia. }
  rewrite Hm.
  - apply (lo_meta _ _ _ _ _ _ _ H x b); [done|lia|done].
  - rewrite (lo_finals _ _ _ _ _ _ _ H) by done. rewrite (proj2 (N.ltb_ge _ _)) by lia. eauto.
  - rewrite (lo_clique _ _ _ _ _ _ _ H) by done. rewrite (proj2 (N.ltb_ge _ _)) by lia. eauto.
Qed.

Lemma loop_advance n acc s item meta' c' :
  loop_ok n acc → in_chain s → rank s = n →
  item_ok latest finals clique (head (ua_old acc)) s item →
  execution_final item = consensus_final item && ua_in_finality acc →
  (∀ b, ua_finals acc !! s ≠ Some b → ua_clique acc ≫= (.!! s) ≠ Some b → meta' !! b = ua_meta acc !! b) →
  cursor_ok n item (ua_candidate acc) c' →
  loop_ok (n + 1) (MkUpdateAcc (tail (ua_old acc)) (ua_new acc ++ [item]) (delete s (ua_finals acc))
     (delete s <$> ua_clique acc) meta' (ua_in_finality acc && execution_final item)
     (if ua_in_finality acc && execution_final item then s else ua_execution_final acc) c').
Proof using Hq Hnote.
  intros H [Hs1 Hs2] Hr Hitem He Hm Hc.
  pose proof (lo_start _ _ _ _ _ _ _ H) as Hn. pose proof (lo_length _ _ _ _ _ _ _ H) as Hlen.
  destruct (loop_prev n acc H) as (Hhead & Htail & _).
  destruct (advance_finality n acc item H He) as [Hf1 Hf2].
  destruct (advance_cursor n acc s item c' H Hs1 Hr Hitem Hc) as (Hc1 & Hc2 & Hc3).
  constructor; cbn [ua_old ua_new ua_finals ua_clique ua_meta ua_in_finality ua_execution_final ua_candidate];
    try done.
  - lia.
  - rewrite length_app. cbn. lia.
  - destruct Hitem as (Hi & _). apply contiguous_snoc; [apply (lo_contiguous _ _ _ _ _ _ _ H)|by rewrite Hi|].
    rewrite Hi. lia.
  - intros k i [Hi|[-> ->]]%snoc_lookup_cases; [by apply (lo_items _ _ _ _ _ _ _ H)|].
    rewrite Hlen, <-Hhead. destruct Hitem as (Hi & Hitem). by rewrite Hi.
  - apply take_slot; [done..|]. apply (lo_finals _ _ _ _ _ _ _ H).
  - etrans; [apply delete_subseteq|]. apply (lo_finals_sub _ _ _ _ _ _ _ H).
  - pose proof (lo_clique _ _ _ _ _ _ _ H) as Hcl. destruct (ua_clique acc) as [cl|] eqn:Hcle; cbn in *.
    + destruct (lo_updated _ _ _ _ _ _ _ H) as [[orig ->] _]; [by rewrite Hcle|]. cbn in *. by apply take_slot.
    + destruct clique; [|by intros; case_match].
      destruct (lo_updated _ _ _ _ _ _ _ H) as [_ Hup]. rewrite Hcle in Hup. by destruct Hup.
  - intros x b Hx. apply (lo_clique_sub _ _ _ _ _ _ _ H). destruct (ua_clique acc); cbn in *; [|done].
    apply lookup_delete_Some in Hx. tauto.
  - rewrite fmap_is_Some. apply (lo_updated _ _ _ _ _ _ _ H).
  - by apply (advance_meta n acc s).
  - case_match; [done|]. apply (lo_execution_final _ _ _ _ _ _ _ H).
Qed.

Lemma update_step_spec {E} n acc s :
  loop_ok n acc → in_chain s → rank s = n →
  ∃ acc', update_step (E := E) cfg latest s acc = Ok acc' ∧ loop_ok (n + 1) acc'.
Proof using Hcfg Hq Hlatest Hnote.
  intros H Hs Hr. pose proof Hs as [Hs1 Hs2]. unfold update_step.
  rewrite (is_consensus_final_eq cfg Hcfg latest s Hlatest Hs1). cbn.
  pose proof (loop_prev_slot n acc s H Hs1 Hr) as Hprev.
  destruct (loop_prev n acc H) as (Hhead & Htail & Hblock).
  destruct (sequence_build_step_spec (E := E) s (head (ua_old acc)) (final_now latest s)
      (ua_finals acc !! s) (bool_decide (is_Some (ua_clique acc))) (ua_clique acc ≫= (.!! s))
      (ua_meta acc) (ua_in_finality acc)) as (item & meta' & Hstep & Hi1 & Hi2 & Hi3 & Hi4 & Hi5).
  { by apply (loop_meta n). }
  { intros p Hp. by destruct (Hprev p Hp) as (? & ? & _). }
  assert (match head (ua_old acc) with
          | Some prev => if decide (info_slot prev = s) then Ok tt else Panic "slot sequencing mismatch"
          | None => Ok tt end = Ok (E := E) tt) as ->.
  { destruct (head (ua_old acc)) as [p|] eqn:Hp; [|done].
    destruct (Hprev p eq_refl) as (-> & _). by rewrite decide_True. }
  cbn. rewrite Hstep. cbn.
  assert (item_ok latest finals clique (head (ua_old acc)) s item) as Hitem.
  { split_and!; [done| |done]. rewrite Hi2, (lo_finals _ _ _ _ _ _ _ H), (lo_clique _ _ _ _ _ _ _ H) by done.
    rewrite !(proj2 (N.ltb_ge _ _)) by lia. f_equal.
    apply bool_decide_ext, (lo_updated _ _ _ _ _ _ _ H). }
  pose proof (changed_after_final n acc s item H Hs1 Hr Hitem) as Hchg. rewrite Hblock.
  destruct (roll_back (E := E) s (ua_candidate acc)
      (bool_decide (get_block_id item ≠ block_at r0 (sequence q) n))) as (c' & Hc & Hc' & Hroll);
    [done|by apply (lo_candidate _ _ _ _ _ _ _ H)| |].
  { intros Hb%bool_decide_eq_true_1. specialize (Hchg Hb). lia. }
  rewrite bool_decide_eq_true in Hroll. rewrite Hc. cbn. eexists. split; [done|].
  apply loop_advance; try done. by rewrite <-Hr in *.
Qed.

Lemma update_loop_spec {E} fuel n acc s max :
  loop_ok n acc → thread s < tc → rank s = n → in_chain max → n ≤ rank max + 1 →
  rank max + 1 - n < N.of_nat fuel →
  ∃ acc', update_loop (E := E) cfg fuel latest s max acc = Ok acc' ∧ loop_ok (rank max + 1) acc'.
Proof using Hcfg Hq Hlatest Hnote.
  revert n acc s. induction fuel as [|fuel IH]; intros n acc s H Hs Hr [Hm1 Hm2] Hle Hf; [lia|].
  cbn [update_loop]. destruct (slot_le s max) eqn:Hsm.
  - apply (slot_le_rank cfg) in Hsm; [|done..]. assert (in_chain s) as Hs' by (split; [done|lia]).
    destruct (update_step_spec (E := E) n acc s H Hs' Hr) as (acc' & -> & H'). cbn.
    destruct (next_slot cfg Hcfg s Hs') as (s' & -> & Hr' & Ht'). cbn.
    apply (IH (n + 1)); (done || lia || by split).
  - apply not_true_iff_false in Hsm. rewrite (slot_le_rank cfg) in Hsm by done.
    exists acc. split; [done|]. by replace (rank max + 1) with n by lia.
Qed.

Lemma loop_start : loop_ok r0 (MkUpdateAcc (sequence q) [] finals clique meta true
    (latest_execution_final_slot q) (latest_executed_candidate_slot q)).
Proof using Hq Hnote.
  constructor; cbn [ua_old ua_new ua_finals ua_clique ua_meta ua_in_finality ua_execution_final ua_candidate];
    try (done || (intros ? ? Hx; by rewrite lookup_nil in Hx)).
  - by rewrite N.sub_diag.
  - cbn. lia.
  - intros s Hs. destruct (N.ltb_spec (rank s) r0) as [Hlt|]; [|done].
    destruct (finals !! s) as [b|] eqn:Hb; [|done].
    destruct (no_slots _ _ _ _ _ Hnote s b) as [_ ?]; [by left|lia].
  - intros s Hs. destruct (N.ltb_spec (rank s) r0) as [Hlt|]; [|done].
    destruct (clique ≫= (.!! s)) as [b|] eqn:Hb; [|done].
    destruct (no_slots _ _ _ _ _ Hnote s b) as [_ ?]; [by right|lia].
  - intros s b Hb _. by apply (no_meta _ _ _ _ _ Hnote).
  - apply (so_execution_final _ _ Hq).
  - destruct (so_candidate _ _ Hq). split_and!; [done|lia|done].
  - by left.
Qed.
End step.

(** ** Dropping the slots that are no longer useful *)

(** Every item marked for final execution is preceded by final slots only. *)
Definition finality_exact l : Prop :=
  ∀ k i, l !! k = Some i → execution_final i = true ↔
    ∀ j i', (j ≤ k)%nat → l !! j = Some i' → consensus_final i' = true.

Lemma finality_exact_drop l k : finality_exact l →
  (∀ j i, (j < k)%nat → l !! j = Some i → consensus_final i = true) → finality_exact (drop k l).
Proof using.
  intros H Hdone j i Hi. rewrite lookup_drop in Hi. rewrite (H _ _ Hi). split.
  - intros Hall j' i' Hj' Hi'. rewrite lookup_drop in Hi'. eapply Hall; [|exact Hi']. lia.
  - intros Hall j' i' Hj' Hi'. destruct (decide (j' < k)%nat) as [|Hge]; [by eapply Hdone|].
    apply (Hall (j' - k)%nat i'); [lia|]. rewrite lookup_drop. rewrite <-Hi'. f_equal. lia.
Qed.

Lemma seq_ok_drop r0 q k : seq_ok r0 q →
  r0 + N.of_nat k ≤ rank (latest_executed_final_slot q) →
  seq_ok (r0 + N.of_nat k)
    (MkSlotSequencer (drop k (sequence q)) (latest_consensus_final_slots q)
       (latest_execution_final_slot q) (latest_executed_final_slot q) (latest_executed_candidate_slot q)).
Proof using.
  intros H Hf. destruct (so_executed_final _ _ H) as (H1 & H2 & H3).
  pose proof (so_bound _ _ H). constructor;
    cbn [sequence latest_consensus_final_slots latest_execution_final_slot latest_executed_final_slot
         latest_executed_candidate_slot]; rewrite ?length_drop.
  - intros Hnil. apply (f_equal length) in Hnil. rewrite length_drop in Hnil. cbn in Hnil. lia.
  - apply contiguous_drop, (so_contiguous _ _ H).
  - lia.
  - apply (so_latest _ _ H).
  - apply (so_execution_final _ _ H).
  - split_and!; [done|done|lia].
  - apply (so_candidate _ _ H).
  - intros j i Hi Hj. rewrite lookup_drop in Hi. apply (so_final_done _ _ H _ _ Hi). lia.
  - intros j i Hi. rewrite lookup_drop in Hi. by apply (so_finality _ _ H _ _ Hi).
Qed.

Lemma cleanup_sequence_spec {E} r0 q : seq_ok r0 q →
  ∃ k, let q' := MkSlotSequencer (drop k (sequence q)) (latest_consensus_final_slots q)
         (latest_execution_final_slot q) (latest_executed_final_slot q)
         (latest_executed_candidate_slot q) in
    cleanup_sequence (E := E) q = Ok q' ∧ seq_ok (r0 + N.of_nat k) q'
    ∧ r0 + N.of_nat k ≤ rank (latest_executed_final_slot q).
Proof using Hcfg.
  intros H. unfold cleanup_sequence.
  pose proof (so_latest _ _ H) as Hl.
  destruct (slots_min_spec cfg (latest_consensus_final_slots q)) as (m & -> & Hm1 & Hm2 & Hm3);
    [by eapply latest_nonempty|by eapply latest_threads|]. cbn [expect mbind outcome_bind].
  pose proof (so_execution_final _ _ H) as He1. destruct (so_executed_final _ _ H) as (Hf1 & Hf2 & Hf3).
  destruct (so_candidate _ _ H) as [[Hc1 _] Hc2].
  destruct (slot_min2_spec cfg m (latest_execution_final_slot q) Hm2 He1) as [Ha1 Ha2].
  destruct (slot_min2_spec cfg (latest_executed_final_slot q) (latest_executed_candidate_slot q) Hf1 Hc1)
    as [Hb1 Hb2].
  destruct (slot_min2_spec cfg _ _ Ha1 Hb1) as [Hd1 Hd2].
  destruct (drop_before_spec cfg r0 (sequence q) _ (so_contiguous _ _ H) Hd1) as (k & -> & Hk).
  exists k. cbn zeta. split; [done|]. split; [apply seq_ok_drop; [done|]|]; lia.
Qed.

(** ** The effect of an update *)

Record updated (r0 r1 : N) q finals clique q' : Prop := {
  up_ok : seq_ok r1 q';
  up_front : r0 ≤ r1;
  up_executed_final : latest_executed_final_slot q' = latest_executed_final_slot q;
  up_latest : ∀ t s, latest_consensus_final_slots q !! t = Some s →
    ∃ s', latest_consensus_final_slots q' !! t = Some s' ∧ rank s ≤ rank s';
  up_latest_new : ∀ s b, finals !! s = Some b →
    ∃ s', latest_consensus_final_slots q' !! N.to_nat (thread s) = Some s' ∧ rank s ≤ rank s';
  up_blocks : ∀ s, thread s < tc → r1 ≤ rank s →
    block_at r1 (sequence q') (rank s)
    = new_block (sequence q !! N.to_nat (rank s - r0)) (final_now (latest_consensus_final_slots q') s)
        (finals !! s) (bool_decide (is_Some clique)) (clique ≫= (.!! s));
  up_consensus_final : ∀ k i, sequence q' !! k = Some i →
    consensus_final i = was_final (sequence q !! N.to_nat (rank (info_slot i) - r0))
                        || final_now (latest_consensus_final_slots q') (info_slot i);
  up_finality : finality_exact (sequence q');
  up_candidate : rank (latest_executed_candidate_slot q') ≤ rank (latest_executed_candidate_slot q);
  up_kept : ∀ n, r1 ≤ n → n ≤ rank (latest_executed_candidate_slot q') →
    block_at r1 (sequence q') n = block_at r0 (sequence q) n;
  up_rolled_back : latest_executed_candidate_slot q' = latest_executed_candidate_slot q
    ∨ block_at r1 (sequence q') (rank (latest_executed_candidate_slot q') + 1)
      ≠ block_at r0 (sequence q) (rank (latest_executed_candidate_slot q') + 1) }.

Section updated.
Context (r0 : N) q (latest : list Slot) finals clique (acc : @update_acc M) (max : Slot).
Context (Hq : seq_ok r0 q) (Hlatest : latest_ok latest).
Context (H : loop_ok r0 q latest finals clique (rank max + 1) acc).
Context (Hmax : in_chain max) (Hback : r0 + N.of_nat (length (sequence q)) ≤ rank max + 1).
Context (Hmax_latest : ∀ s, s ∈ latest → rank s ≤ rank max).
Context (Hmax_clique : ∀ s b, clique ≫= (.!! s) = Some b → rank s ≤ rank max).
Local Notation q1 := (MkSlotSequencer (ua_new acc) latest (ua_execution_final acc)
                        (latest_executed_final_slot q) (ua_candidate acc)).

Lemma loop_result_ok : seq_ok r0 q1.
Proof using Hq Hlatest H Hmax Hback.
  destruct (so_executed_final _ _ Hq) as (Hf1 & Hf2 & Hf3).
  pose proof (lo_length _ _ _ _ _ _ _ H) as Hlen. destruct Hmax as [_ Hm2].
  constructor; cbn [sequence latest_consensus_final_slots latest_execution_final_slot
    latest_executed_final_slot latest_executed_candidate_slot].
  - intros Hnil. rewrite Hnil in Hlen. cbn in Hlen. lia.
  - apply (lo_contiguous _ _ _ _ _ _ _ H).
  - lia.
  - done.
  - apply (lo_execution_final _ _ _ _ _ _ _ H).
  - split_and!; [done|done|lia].
  - destruct (lo_candidate _ _ _ _ _ _ _ H) as (? & ? & ?). by split.
  - intros k i Hi Hk. destruct (lo_items _ _ _ _ _ _ _ H k i Hi) as (_ & _ & ->).
    destruct (lookup_lt_is_Some_2 (sequence q) k) as [p Hp]; [lia|]. rewrite Hp. cbn.
    by rewrite (so_final_done _ _ Hq _ _ Hp).
  - intros k i Hi Hf. by apply (proj1 (lo_finality _ _ _ _ _ _ _ H k i Hi) Hf k i).
Qed.

(** The block of every slot, also after the end of the new sequence. *)
Lemma loop_result_blocks s : thread s < tc → r0 ≤ rank s →
  block_at r0 (ua_new acc) (rank s)
  = new_block (sequence q !! N.to_nat (rank s - r0)) (final_now latest s)
      (finals !! s) (bool_decide (is_Some clique)) (clique ≫= (.!! s)).
Proof using Hcfg Hlatest H Hback Hmax_latest Hmax_clique.
  intros Hs Hr. pose proof (lo_length _ _ _ _ _ _ _ H) as Hlen.
  unfold block_at. rewrite (proj2 (N.leb_le _ _)) by done.
  destruct (ua_new acc !! N.to_nat (rank s - r0)) as [i|] eqn:Hi; cbn.
  - destruct (lo_items _ _ _ _ _ _ _ H _ i Hi) as (_ & -> & _).
    destruct (lo_contiguous _ _ _ _ _ _ _ H _ i Hi) as [Ht Hri].
    assert (info_slot i = s) as -> by (apply (slot_index_inj tc); [done..|lia]). done.
  - apply lookup_ge_None in Hi. rewrite (lookup_ge_None_2 (sequence q)) by lia. cbn.
    assert (final_now latest s = false) as ->.
    { apply not_true_iff_false. unfold SequencerFacts.final_now.
      rewrite orb_true_iff, existsb_exists. intros [Hown|(x & Hx & Hle%N.leb_le)].
      - destruct (latest !! _) as [own|] eqn:Ho; [|done]. apply N.leb_le in Hown.
        pose proof (Hmax_latest own ltac:(by eapply list_elem_of_lookup_2)). lia.
      - apply list_elem_of_In in Hx. specialize (Hmax_latest x Hx). lia. }
    destruct (clique ≫= (.!! s)) as [b|] eqn:Hb; [|done]. specialize (Hmax_clique s b Hb). lia.
Qed.

(** Nothing of the notification is left. *)
Lemma loop_result_consumed :
  (∀ s b, announced finals clique s b → in_chain s ∧ r0 ≤ rank s) →
  (∀ s b, finals !! s = Some b → rank s ≤ rank max) →
  ua_old acc = [] ∧ ua_finals acc = ∅ ∧ default ∅ (ua_clique acc) = ∅.
Proof using H Hback Hmax_clique.
  intros Hslots Hmax_finals. split_and!.
  - rewrite (lo_old _ _ _ _ _ _ _ H). apply drop_ge. lia.
  - apply map_eq. intros s. rewrite lookup_empty. apply eq_None_not_Some. intros [b Hb].
    pose proof (lookup_weaken _ _ _ _ Hb (lo_finals_sub _ _ _ _ _ _ _ H)) as Hb'.
    destruct (Hslots s b) as [[Ht _] _]; [by left|]. specialize (Hmax_finals s b Hb').
    rewrite (lo_finals _ _ _ _ _ _ _ H) in Hb by done. by rewrite (proj2 (N.ltb_lt _ _)) in Hb by lia.
  - apply map_eq. intros s. rewrite lookup_empty. apply eq_None_not_Some. intros [b Hb].
    assert (ua_clique acc ≫= (.!! s) = Some b) as Hc by (destruct (ua_clique acc); done).
    pose proof (lo_clique_sub _ _ _ _ _ _ _ H s b Hc) as Hb'.
    destruct (Hslots s b) as [[Ht _] _]; [by right|]. specialize (Hmax_clique s b Hb').
    rewrite (lo_clique _ _ _ _ _ _ _ H) in Hc by done. by rewrite (proj2 (N.ltb_lt _ _)) in Hc by lia.
Qed.

Lemma loop_result_updated k :
  (∀ t s, latest_consensus_final_slots q !! t = Some s → ∃ s', latest !! t = Some s' ∧ rank s ≤ rank s') →
  (∀ s b, finals !! s = Some b → ∃ s', latest !! N.to_nat (thread s) = Some s' ∧ rank s ≤ rank s') →
  let q' := MkSlotSequencer (drop k (ua_new acc)) latest (ua_execution_final acc)
              (latest_executed_final_slot q) (ua_candidate acc) in
  seq_ok (r0 + N.of_nat k) q' → r0 + N.of_nat k ≤ rank (latest_executed_final_slot q) →
  updated r0 (r0 + N.of_nat k) q finals clique q'.
Proof using All.
  intros Hl1 Hl2 q' Hq' Hk. pose proof loop_result_ok as Hq1.
  pose proof (lo_length _ _ _ _ _ _ _ H) as Hlen. destruct (lo_candidate _ _ _ _ _ _ _ H) as (_ & Hc & Hfc).
  constructor; subst q'; cbn [sequence latest_consensus_final_slots latest_execution_final_slot
    latest_executed_final_slot latest_executed_candidate_slot]; try done.
  - lia.
  - intros s Hs Hr. rewrite block_at_drop by lia. apply loop_result_blocks; [done|lia].
  - intros j i Hi. rewrite lookup_drop in Hi. destruct (lo_items _ _ _ _ _ _ _ H _ i Hi) as (_ & _ & ->).
    destruct (lo_contiguous _ _ _ _ _ _ _ H _ i Hi) as [_ ->]. do 3 f_equal. lia.
  - apply finality_exact_drop; [exact (lo_finality _ _ _ _ _ _ _ H)|].
    intros j i Hj Hi. apply (so_final_done _ _ Hq1 j i Hi). cbn. lia.
  - intros n Hn1 Hn2. rewrite block_at_drop by lia.
    replace n with (r0 + N.of_nat (N.to_nat (n - r0))) in * by lia. set (j := N.to_nat (n - r0)) in *.
    destruct (ua_new acc !! j) as [i|] eqn:Hi.
    + rewrite <-(lo_kept _ _ _ _ _ _ _ H j i Hi Hn2), block_at_lookup, Hi. done.
    + rewrite !block_at_lookup, Hi. apply lookup_ge_None in Hi.
      by rewrite (lookup_ge_None_2 (sequence q)) by lia.
  - destruct (lo_rolled_back _ _ _ _ _ _ _ H) as [|(i & Hi & Hne)]; [by left|right].
    rewrite block_at_drop by lia. unfold block_at at 1. rewrite (proj2 (N.leb_le _ _)) by lia.
    by rewrite Hi.
Qed.
End updated.

Lemma start_chain : in_chain (MkSlot (sq_last_start_period cfg) 0).
Proof using Hcfg.
  destruct Hcfg as [_ Hl]. pose proof (config_threads cfg Hcfg) as [Ht _].
  unfold SequencerFacts.in_chain, slot_index; cbn. lia.
Qed.

Lemma slot_max3_spec a b c : in_chain a → in_chain b → in_chain c →
  let m := slot_max2 (slot_max2 a b) c in
  in_chain m ∧ rank a ≤ rank m ∧ rank b ≤ rank m ∧ rank c ≤ rank m.
Proof using.
  intros [Ha1 Ha2] [Hb1 Hb2] [Hc1 Hc2]. destruct (slot_max2_spec cfg a b Ha1 Hb1) as [H1 H2].
  destruct (slot_max2_spec cfg _ c H1 Hc1) as [H3 H4]. cbn zeta. rewrite H4, H2.
  split_and!; [split; [done|]|..]; lia.
Qed.

(** The greatest slot a notification reaches. *)
Lemma slots_max_keys (m : gmap Slot BlockId) : (∀ s b, m !! s = Some b → in_chain s) →
  let d := default (MkSlot (sq_last_start_period cfg) 0) (slots_max (map_iter m).*1) in
  in_chain d ∧ ∀ s b, m !! s = Some b → rank s ≤ rank d.
Proof using Hcfg.
  intros Hm. rewrite fst_map_iter.
  assert (∀ s, s ∈ set_iter (dom m) → in_chain s) as Hin.
  { intros s Hs. apply elem_of_set_iter, elem_of_dom in Hs as [b Hb]. eauto. }
  destruct (decide (set_iter (dom m) = [])) as [Hnil|Hne].
  - rewrite Hnil. cbn. split; [exact start_chain|].
    intros s b Hb%elem_of_dom_2. apply elem_of_set_iter in Hb. rewrite Hnil in Hb. by apply elem_of_nil in Hb.
  - destruct (slots_max_spec cfg _ Hne) as (d & -> & Hd1 & Hd2 & Hd3).
    { apply Forall_forall. intros x Hx. by destruct (Hin x Hx). }
    cbn. split; [by apply Hin|]. intros s b Hb%elem_of_dom_2. apply Hd3. by apply elem_of_set_iter.
Qed.

Lemma slots_max_clique clique : (∀ s b, clique ≫= (.!! s) = Some b → in_chain s) →
  let d := default (MkSlot (sq_last_start_period cfg) 0) (clique ≫= λ bq, slots_max (map_iter bq).*1) in
  in_chain d ∧ ∀ s b, clique ≫= (.!! s) = Some b → rank s ≤ rank d.
Proof using Hcfg.
  intros Hc. destruct clique as [bq|]; cbn; [by apply slots_max_keys|].
  split; [exact start_chain|done].
Qed.

Lemma update_spec {E} now r0 q finals clique meta :
  seq_ok r0 q → notification_ok r0 q finals clique meta →
  ∃ r1 q', update (E := E) cfg now finals clique meta q = Ok q' ∧ updated r0 r1 q finals clique q'.
Proof using Hcfg.
  intros Hq Hnote. unfold update.
  destruct (sequence q) as [|first rest] eqn:Hseq; [by destruct (so_nonempty _ _ Hq)|].
  destruct (so_contiguous _ _ Hq 0%nat first) as [Hf1 Hf2]; [by rewrite Hseq|].
  destruct (last_is_Some (first :: rest)) as [_ [lst Hlast]]; [done|]. rewrite Hlast.
  destruct (so_contiguous _ _ Hq (length rest) lst) as [Hb1 Hb2].
  { rewrite Hseq. by rewrite last_lookup in Hlast. }
  pose proof (so_bound _ _ Hq) as Hbound. rewrite Hseq in Hbound. cbn [length] in Hbound.
  destruct (note_final_slots_spec (E := E) cfg Hcfg finals (latest_consensus_final_slots q))
    as (latest & -> & Hl & Hl1 & Hl2).
  { apply (so_latest _ _ Hq). } { intros s b Hb. apply (no_slots _ _ _ _ _ Hnote s b). by left. }
  cbn [mbind outcome_bind].
  destruct (slots_max_spec cfg latest) as (m & -> & Hm1 & Hm2 & Hm3);
    [by eapply latest_nonempty|by eapply latest_threads|]. cbn [expect mbind outcome_bind].
  destruct (latest_chain cfg latest m Hl Hm1) as [_ Hm4].
  destruct (slots_max_clique clique) as [[Hd1 Hd2] Hd3].
  { intros s b Hb. apply (no_slots _ _ _ _ _ Hnote s b). by right. }
  destruct (slot_max3_spec m (default (MkSlot (sq_last_start_period cfg) 0)
      (clique ≫= λ bq, slots_max (map_iter bq).*1)) (info_slot lst))
    as (Hmax & Hx1 & Hx2 & Hx3); [by split|by split|split; [done|lia]|].
  set (max := slot_max2 _ _) in *. rewrite (slots_since_rank cfg) by (done || lia).
  cbn [expect_ok mbind outcome_bind].
  destruct (update_loop_spec (E := E) r0 q latest finals clique meta Hq Hl Hnote
      (rounds cfg (info_slot first) max) r0 _ (info_slot first) max
      (loop_start r0 q latest finals clique meta Hq Hnote)) as (acc & Hloop & Hacc);
    [done|lia|done|lia|unfold rounds; lia|].
  rewrite Hseq in Hloop. rewrite Hloop. cbn [mbind outcome_bind].
  assert (r0 + N.of_nat (length (sequence q)) ≤ rank max + 1) as Hback by (rewrite Hseq; cbn [length]; lia).
  assert (∀ s, s ∈ latest → rank s ≤ rank max) as Hml by (intros s Hs; specialize (Hm3 s Hs); lia).
  assert (∀ s b, clique ≫= (.!! s) = Some b → rank s ≤ rank max) as Hmc
    by (intros s b Hb; specialize (Hd3 s b Hb); lia).
  destruct (loop_result_consumed r0 q latest finals clique acc max) as (-> & -> & ->); [done..| | |].
  { apply (no_slots _ _ _ _ _ Hnote). }
  { intros s b Hb. destruct (Hl2 s b Hb) as (s' & Hs' & ?).
    specialize (Hml s' ltac:(by eapply list_elem_of_lookup_2)). lia. }
  rewrite !decide_False by auto.
  pose proof (loop_result_ok r0 q latest finals clique acc max Hq Hl Hacc Hmax Hback) as Hq1.
  destruct (cleanup_sequence_spec (E := E) r0 _ Hq1) as (k & Heq & Hq' & Hk). rewrite Heq.
  eexists (r0 + N.of_nat k), _. split; [done|]. by apply (loop_result_updated r0 q latest finals clique acc max).
Qed.
End update.
