(* ===== verification/SequencerSafety.v ===== *)
(** * What execution can rely on

    Runs of the slot sequencer: the first notification, the execution of slots, and the agreement
    between what was executed and what the sequence holds; then the properties: an update of the
    sequence, a call that executes a slot, and the history of executions over any run. *)

From S2P Require Import Prelude Slots Times Models Sequencer SequencerFacts SequencerUpdate.

Open Scope N_scope.

Section run.
Context {M : Type} (cfg : SequencerConfig) `{!SetIter Slot} (Hcfg : config_ok cfg).
Local Notation tc := (sq_thread_count cfg).
Local Notation rank := (slot_index tc).
Local Notation in_chain := (in_chain cfg).
Local Notation contiguous := (contiguous cfg).
Local Notation latest_ok := (latest_ok cfg).
Local Notation seq_ok := (seq_ok cfg).
Implicit Types (q : @SlotSequencer M) (s : Slot) (n : N) (l : list (@SlotInfo M)).
Implicit Types (finals clique : gmap Slot BlockId).

(** ** The first notification *)

(** The first notification: blocks at distinct slots, each at one slot only, with
    their metadata, and none before the earliest final block; the final cursor is
    not before that block, and its thread and the others are final up to it. *)
Record boot_ok (final_cursor : Slot) (first : Slot) finals clique (meta : gmap BlockId M) : Prop := {
  bo_first : is_Some (finals !! first) ∧ rank first ≤ rank final_cursor;
  bo_slots : ∀ s b, announced finals (Some clique) s b → in_chain s ∧ rank first ≤ rank s;
  bo_disjoint : finals ##ₘ clique;
  bo_once : ∀ s s' b, announced finals (Some clique) s b → announced finals (Some clique) s' b → s = s';
  bo_meta : ∀ s b, announced finals (Some clique) s b → is_Some (meta !! b);
  bo_cursor : in_chain final_cursor;
  bo_final : ∀ s, thread s < tc → rank s ≤ rank final_cursor →
    period s ≤ sq_last_start_period cfg ∨ ∃ s' b, finals !! s' = Some b ∧ thread s' = thread s ∧ rank s ≤ rank s' }.

Definition block_of finals clique s : option BlockId :=
  match finals !! s with Some b => Some b | None => clique !! s end.
Definition own_final (latest : list Slot) s : bool :=
  match latest !! N.to_nat (thread s) with Some own => rank s <=? rank own | None => false end.

Record init_ok (r0 : N) (latest : list Slot) (cursor : Slot) finals clique (n : N) (acc : @init_acc M) : Prop := {
  io_start : r0 ≤ n;
  io_length : length (ia_sequence acc) = N.to_nat (n - r0);
  io_contiguous : contiguous r0 (ia_sequence acc);
  io_items : ∀ k i, ia_sequence acc !! k = Some i →
    get_block_id i = block_of finals clique (info_slot i)
    ∧ consensus_final i = own_final latest (info_slot i)
    ∧ execution_final i = (rank (info_slot i) <=? rank cursor);
  io_finals : ∀ s, thread s < tc → ia_finals acc !! s = if rank s <? n then None else finals !! s;
  io_finals_sub : ia_finals acc ⊆ finals;
  io_clique : ∀ s, thread s < tc → ia_clique acc !! s = if rank s <? n then None else clique !! s;
  io_clique_sub : ia_clique acc ⊆ clique;
  io_meta : ∀ s b, announced finals (Some clique) s b → n ≤ rank s → is_Some (ia_meta acc !! b) }.

Section init.
Context (cursor first : Slot) finals clique (meta : gmap BlockId M) (latest : list Slot).
Context (Hboot : boot_ok cursor first finals clique meta) (Hlatest : latest_ok latest).
Local Notation r0 := (rank first).
Local Notation init_ok := (init_ok r0 latest cursor finals clique).

Lemma take_found (acc : @init_acc M) n s : init_ok n acc → thread s < tc → rank s = n →
  let r := match ia_finals acc !! s with
           | Some b => (Some b, delete s (ia_finals acc), ia_clique acc)
           | None => (ia_clique acc !! s, ia_finals acc, delete s (ia_clique acc))
           end in
  r.1.1 = block_of finals clique s
  ∧ (∀ x, thread x < tc → r.1.2 !! x = if rank x <? n + 1 then None else finals !! x)
  ∧ r.1.2 ⊆ finals
  ∧ (∀ x, thread x < tc → r.2 !! x = if rank x <? n + 1 then None else clique !! x)
  ∧ r.2 ⊆ clique.
Proof using Hboot.
  intros H Hs Hr. pose proof (io_finals _ _ _ _ _ _ _ H) as Hf. pose proof (io_clique _ _ _ _ _ _ _ H) as Hc.
  pose proof (take_slot cfg _ _ _ _ Hs Hr Hf) as Hf'. pose proof (take_slot cfg _ _ _ _ Hs Hr Hc) as Hc'.
  pose proof (io_finals_sub _ _ _ _ _ _ _ H). pose proof (io_clique_sub _ _ _ _ _ _ _ H).
  assert (∀ m : gmap Slot BlockId, m !! s = None → delete s m = m) as Hdel by (intros; by apply delete_id).
  pose proof (Hf s Hs) as Hfs. pose proof (Hc s Hs) as Hcs.
  rewrite (proj2 (N.ltb_ge _ _)) in Hfs, Hcs by lia. unfold block_of. rewrite <-Hfs.
  destruct (ia_finals acc !! s) as [b|] eqn:Hb; cbn.
  - assert (ia_clique acc !! s = None) as Hn.
    { rewrite Hcs. eapply map_disjoint_Some_l; [apply (bo_disjoint _ _ _ _ _ Hboot)|by rewrite <-Hfs]. }
    rewrite (Hdel _ Hn) in Hc'. split_and!; try done. etrans; [apply delete_subseteq|done].
  - rewrite (Hdel _ Hb) in Hf'. split_and!; try done. etrans; [apply delete_subseteq|done].
Qed.

Lemma init_step_spec {E} n acc s : init_ok n acc → in_chain s → rank s = n →
  ∃ acc', init_step (E := E) latest cursor s acc = Ok acc' ∧ init_ok (n + 1) acc'.
Proof using Hboot Hlatest.
  intros H [Hs1 Hs2] Hr. unfold init_step.
  destruct (idx_total (E := E) latest (thread s)) as (own & -> & Hown); [destruct Hlatest; lia|].
  destruct (latest_chain cfg latest own Hlatest) as [Ho _]; [by eapply list_elem_of_lookup_2|].
  cbn [mbind outcome_bind].
  destruct (take_found acc n s H Hs1 Hr) as (Hb & Hf & Hfs & Hc & Hcs).
  destruct (match ia_finals acc !! s with Some _ => _ | None => _ end) as [[found f'] c'].
  cbn [fst snd] in *. subst found.
  assert (∀ b, block_of finals clique s = Some b → announced finals (Some clique) s b) as Hann.
  { unfold block_of, announced. cbn. intros b. destruct (finals !! s); naive_solver. }
  destruct (take_metadata_spec (E := E) "block metadata missing in execution init" (ia_meta acc)
    (block_of finals clique s)) as (content & m' & -> & Hcont & Hm').
  { intros b Hb. apply (io_meta _ _ _ _ _ _ _ H s b); [auto|lia]. }
  cbn [mbind outcome_bind]. eexists. split; [done|].
  pose proof (io_start _ _ _ _ _ _ _ H). pose proof (io_length _ _ _ _ _ _ _ H) as Hlen.
  constructor; cbn [ia_sequence ia_finals ia_clique ia_meta]; try done.
  - lia.
  - rewrite length_app. cbn. lia.
  - apply contiguous_snoc; cbn; [apply (io_contiguous _ _ _ _ _ _ _ H)|done|lia].
  - intros k i [Hi|[_ ->]]%snoc_lookup_cases; [by apply (io_items _ _ _ _ _ _ _ H k)|]. cbn.
    unfold own_final. rewrite Hown. split_and!; [done|..]; apply eq_bool_prop_intro;
      rewrite !Is_true_true, (slot_le_rank cfg), N.leb_le by (done || apply (bo_cursor _ _ _ _ _ Hboot)); done.
  - intros x b Hx Hn. rewrite Hm'; [apply (io_meta _ _ _ _ _ _ _ H x b); [done|lia]|].
    intros Hb. assert (x = s) as -> by (apply (bo_once _ _ _ _ _ Hboot _ _ b); auto). lia.
Qed.

Lemma init_loop_spec {E} fuel n acc s max :
  init_ok n acc → thread s < tc → rank s = n → in_chain max → n ≤ rank max + 1 →
  rank max + 1 - n < N.of_nat fuel →
  ∃ acc', init_loop (E := E) cfg fuel latest cursor s max acc = Ok acc' ∧ init_ok (rank max + 1) acc'.
Proof using Hcfg Hboot Hlatest.
  revert n acc s. induction fuel as [|fuel IH]; intros n acc s H Hs Hr [Hm1 Hm2] Hle Hf; [lia|].
  cbn [init_loop]. destruct (slot_le s max) eqn:Hsm.
  - apply (slot_le_rank cfg) in Hsm; [|done..]. assert (in_chain s) as Hs' by (split; [done|lia]).
    destruct (init_step_spec (E := E) n acc s H Hs' Hr) as (acc' & -> & H'). cbn.
    destruct (next_slot cfg Hcfg s Hs') as (s' & -> & Hr' & Ht'). cbn.
    apply (IH (n + 1)); (done || lia || by split).
  - apply not_true_iff_false in Hsm. rewrite (slot_le_rank cfg) in Hsm by done.
    exists acc. split; [done|]. by replace (rank max + 1) with n by lia.
Qed.

Lemma init_start : init_ok r0 (MkInitAcc [] finals clique meta).
Proof using Hboot.
  constructor; cbn [ia_sequence ia_finals ia_clique ia_meta];
    try (done || (intros ? ? Hx; by rewrite lookup_nil in Hx)).
  - cbn. lia.
  - intros s Hs. destruct (N.ltb_spec (rank s) r0) as [Hlt|]; [|done].
    destruct (finals !! s) as [b|] eqn:Hb; [|done].
    destruct (bo_slots _ _ _ _ _ Hboot s b) as [_ ?]; [by left|lia].
  - intros s Hs. destruct (N.ltb_spec (rank s) r0) as [Hlt|]; [|done].
    destruct (clique !! s) as [b|] eqn:Hb; [|done].
    destruct (bo_slots _ _ _ _ _ Hboot s b) as [_ ?]; [by right|lia].
  - intros s b Hb _. by apply (bo_meta _ _ _ _ _ Hboot s).
Qed.

Lemma init_consumed acc max :
  init_ok (rank max + 1) acc →
  (∀ s b, announced finals (Some clique) s b → rank s ≤ rank max) →
  ia_finals acc = ∅ ∧ ia_clique acc = ∅.
Proof using Hboot.
  intros H Hmax. split; apply map_eq; intros s; rewrite lookup_empty; apply eq_None_not_Some; intros [b Hb].
  - pose proof (lookup_weaken _ _ _ _ Hb (io_finals_sub _ _ _ _ _ _ _ H)) as Hb'.
    destruct (bo_slots _ _ _ _ _ Hboot s b) as [[Ht _] _]; [by left|]. specialize (Hmax s b (or_introl Hb')).
    rewrite (io_finals _ _ _ _ _ _ _ H) in Hb by done. by rewrite (proj2 (N.ltb_lt _ _)) in Hb by lia.
  - pose proof (lookup_weaken _ _ _ _ Hb (io_clique_sub _ _ _ _ _ _ _ H)) as Hb'.
    destruct (bo_slots _ _ _ _ _ Hboot s b) as [[Ht _] _]; [by right|]. specialize (Hmax s b (or_intror Hb')).
    rewrite (io_clique _ _ _ _ _ _ _ H) in Hb by done. by rewrite (proj2 (N.ltb_lt _ _)) in Hb by lia.
Qed.

Lemma init_result_ok acc max :
  init_ok (rank max + 1) acc → in_chain max → rank cursor ≤ rank max →
  (∀ s, thread s < tc → rank s ≤ rank cursor → own_final latest s = true) →
  seq_ok r0 (MkSlotSequencer (ia_sequence acc) latest cursor cursor cursor).
Proof using Hboot Hlatest.
  intros H [Hm1 Hm2] Hcm Hown. pose proof (bo_cursor _ _ _ _ _ Hboot) as [Hc1 Hc2].
  pose proof (io_length _ _ _ _ _ _ _ H) as Hlen. pose proof (bo_first _ _ _ _ _ Hboot) as [_ Hf].
  constructor; cbn [sequence latest_consensus_final_slots latest_execution_final_slot
    latest_executed_final_slot latest_executed_candidate_slot]; try done.
  - intros Hnil. rewrite Hnil in Hlen. cbn in Hlen. lia.
  - apply (io_contiguous _ _ _ _ _ _ _ H).
  - lia.
  - split_and!; [done|done|lia].
  - intros k i Hi Hk. destruct (io_items _ _ _ _ _ _ _ H k i Hi) as (_ & -> & _).
    destruct (io_contiguous _ _ _ _ _ _ _ H k i Hi) as [Ht Hr]. apply Hown; [done|lia].
  - intros k i Hi. destruct (io_items _ _ _ _ _ _ _ H k i Hi) as (_ & -> & ->).
    destruct (io_contiguous _ _ _ _ _ _ _ H k i Hi) as [Ht Hr]. intros ?%N.leb_le. by apply Hown.
Qed.

Lemma init_result_blocks acc max s :
  init_ok (rank max + 1) acc → thread s < tc → r0 ≤ rank s →
  (∀ s b, announced finals (Some clique) s b → rank s ≤ rank max) →
  block_at r0 (ia_sequence acc) (rank s) = block_of finals clique s.
Proof using.
  intros H Hs Hr Hmax. unfold block_at. rewrite (proj2 (N.leb_le _ _)) by done.
  destruct (ia_sequence acc !! N.to_nat (rank s - r0)) as [i|] eqn:Hi; cbn.
  - destruct (io_items _ _ _ _ _ _ _ H _ i Hi) as (-> & _).
    destruct (io_contiguous _ _ _ _ _ _ _ H _ i Hi) as [Ht Hri].
    assert (info_slot i = s) as -> by (apply (slot_index_inj tc); [done..|lia]). done.
  - apply lookup_ge_None in Hi. rewrite (io_length _ _ _ _ _ _ _ H) in Hi. symmetry. unfold block_of.
    destruct (finals !! s) as [b|] eqn:Hb; [specialize (Hmax s b (or_introl Hb)); lia|].
    apply eq_None_not_Some. intros [b Hc]. specialize (Hmax s b (or_intror Hc)). lia.
Qed.
End init.

Lemma lookup_range n t i : range n !! t = Some i → i = N.of_nat t ∧ i < n.
Proof using.
  unfold range. intros (x & -> & Hx)%list_lookup_fmap_Some. apply lookup_seq in Hx as [-> ?]. lia.
Qed.

Lemma initial_latest : latest_ok (MkSlot (sq_last_start_period cfg) <$> range tc).
Proof using Hcfg.
  destruct Hcfg as [_ Hl]. split; [by rewrite length_fmap, length_range, N2Nat.id|].
  intros t s Hs. apply list_lookup_fmap_Some in Hs as (x & -> & Hx).
  apply lookup_range in Hx as [-> Hlt]. cbn. split; [done|]. unfold slot_index; cbn. lia.
Qed.

Lemma boot_earliest cursor first finals clique meta :
  boot_ok cursor first finals clique meta → slots_min (map_iter finals).*1 = Some first.
Proof using.
  intros Hboot. pose proof (bo_first _ _ _ _ _ Hboot) as [[b0 Hb0] _]. rewrite fst_map_iter.
  assert (∀ s, s ∈ set_iter (dom finals) → thread s < tc ∧ rank first ≤ rank s) as Hin.
  { intros s [b Hb]%elem_of_set_iter%elem_of_dom.
    destruct (bo_slots _ _ _ _ _ Hboot s b) as [[] ?]; [by left|done]. }
  assert (first ∈ set_iter (dom finals)) as Hfirst by (by apply elem_of_set_iter, elem_of_dom).
  destruct (slots_min_spec cfg (set_iter (dom finals))) as (m & -> & Hm1 & Hm2 & Hm3).
  - intros Hnil. rewrite Hnil in Hfirst. by apply elem_of_nil in Hfirst.
  - apply Forall_forall. intros x Hx. by apply Hin.
  - f_equal. apply (slot_index_inj tc); [done|by apply Hin|].
    pose proof (Hm3 first Hfirst). destruct (Hin m Hm1). lia.
Qed.

(** The threads are final up to the final cursor. *)
Lemma boot_own_final cursor first finals clique meta (latest : list Slot) :
  boot_ok cursor first finals clique meta →
  (∀ t s, (MkSlot (sq_last_start_period cfg) <$> range tc) !! t = Some s →
     ∃ s', latest !! t = Some s' ∧ rank s ≤ rank s') →
  (∀ s b, finals !! s = Some b → ∃ s', latest !! N.to_nat (thread s) = Some s' ∧ rank s ≤ rank s') →
  ∀ s, thread s < tc → rank s ≤ rank cursor → own_final latest s = true.
Proof using.
  intros Hboot Hl1 Hl2 s Hs Hr. unfold own_final.
  destruct (bo_final _ _ _ _ _ Hboot s Hs Hr) as [Hp|(s' & b & Hb & Ht & Hle)].
  - destruct (Hl1 (N.to_nat (thread s)) (MkSlot (sq_last_start_period cfg) (thread s))) as (own & -> & Hown).
    { rewrite list_lookup_fmap. unfold range. rewrite list_lookup_fmap.
      rewrite lookup_seq_lt by lia. cbn. do 2 f_equal. lia. }
    apply N.leb_le. etrans; [|exact Hown]. unfold slot_index; cbn. nia.
  - destruct (Hl2 s' b Hb) as (own & Hown & Hle'). rewrite Ht in Hown. rewrite Hown.
    apply N.leb_le. lia.
Qed.

Lemma init_spec {E} now cursor first finals clique meta :
  boot_ok cursor first finals clique meta → now < u64_max →
  ∃ r1 q', init (E := E) cfg now finals clique meta (new_sequencer cfg cursor) = Ok q'
    ∧ seq_ok r1 q'
    ∧ latest_executed_final_slot q' = cursor ∧ latest_executed_candidate_slot q' = cursor
    ∧ ∀ s, thread s < tc → r1 ≤ rank s →
        block_at r1 (sequence q') (rank s) = block_of finals clique s.
Proof using Hcfg.
  intros Hboot Hnow. unfold init.
  pose proof (bo_cursor _ _ _ _ _ Hboot) as [Hc1 Hc2]. pose proof (bo_first _ _ _ _ _ Hboot) as [[b0 Hb0] Hfc].
  pose proof (bo_slots _ _ _ _ _ Hboot) as Hann.
  destruct (note_final_slots_spec (E := E) cfg Hcfg finals (latest_consensus_final_slots (new_sequencer (M := M) cfg cursor)))
    as (latest & -> & Hl & Hl1 & Hl2); [exact initial_latest|intros s b Hb; apply (Hann s b); by left|].
  pose proof (boot_own_final _ _ _ _ _ latest Hboot Hl1 Hl2) as Hown.
  rewrite (boot_earliest _ _ _ _ _ Hboot). cbn [mbind outcome_bind expect].
  destruct (slots_max_spec cfg latest) as (m & -> & Hm1 & Hm2 & Hm3);
    [by eapply latest_nonempty|by eapply latest_threads|]. cbn [mbind outcome_bind expect].
  destruct (get_time_cursor_total (E := E) cfg Hcfg now Hnow) as (tcur & -> & Htcur). cbn [mbind outcome_bind].
  destruct (slots_max_keys cfg Hcfg clique) as [Hd1 Hd2]; [intros s b Hb; apply (Hann s b); by right|].
  destruct (slot_max3_spec cfg m (default (MkSlot (sq_last_start_period cfg) 0) (slots_max (map_iter clique).*1)) tcur)
    as (Hmax & Hx1 & Hx2 & _); [by eapply latest_chain|done|done|].
  set (max := slot_max2 _ _) in *.
  assert (∀ s, own_final latest s = true → rank s ≤ rank max) as Hom.
  { intros s. unfold own_final. destruct (latest !! _) as [own|] eqn:Ho; [|done]. intros ?%N.leb_le.
    pose proof (Hm3 own ltac:(by eapply list_elem_of_lookup_2)). lia. }
  assert (∀ s b, announced finals (Some clique) s b → rank s ≤ rank max) as Hall.
  { intros s b [Hb|Hb]; [|specialize (Hd2 s b Hb); lia]. apply Hom. unfold own_final.
    destruct (Hl2 s b Hb) as (own & -> & ?). by apply N.leb_le. }
  pose proof (Hom cursor (Hown cursor Hc1 ltac:(lia))) as Hcm.
  destruct (Hann first b0) as [[Hf1 Hf2] _]; [by left|].
  cbn [new_sequencer sequence latest_execution_final_slot latest_executed_final_slot
       latest_executed_candidate_slot].
  destruct (init_loop_spec (E := E) cursor first finals clique meta latest Hboot Hl (rounds cfg first max)
      (rank first) _ first max (init_start cursor first finals clique meta latest Hboot))
    as (acc & -> & Hacc); [done|done|done|lia|unfold rounds; lia|].
  cbn [mbind outcome_bind].
  destruct (init_consumed _ _ _ _ _ latest Hboot acc max Hacc Hall) as [-> ->].
  rewrite !decide_False by auto.
  pose proof (init_result_ok _ _ _ _ _ latest Hboot Hl acc max Hacc Hmax Hcm Hown) as Hq.
  destruct (cleanup_sequence_spec (E := E) cfg Hcfg _ _ Hq) as (k & -> & Hq' & Hk).
  eexists (rank first + N.of_nat k), _. split_and!; [done..|]. intros s Hs Hr. cbn [sequence].
  rewrite block_at_drop by lia. apply (init_result_blocks cursor first finals clique latest acc max); (done || lia).
Qed.

(** ** Execution *)

(** The item at a rank. *)
Definition item_at (r0 : N) l n : option (@SlotInfo M) :=
  if r0 <=? n then l !! N.to_nat (n - r0) else None.

Lemma item_at_block r0 l n : item_at r0 l n ≫= get_block_id = block_at r0 l n.
Proof using. unfold item_at, block_at. by destruct (r0 <=? n). Qed.

Lemma get_slot_spec {E} r0 q s : seq_ok r0 q → thread s < tc → rank s ≤ u64_max →
  get_slot (E := E) cfg q s = Ok (item_at r0 (sequence q) (rank s)).
Proof using.
  intros Hq Hs Hr. unfold get_slot, get_slot_index, item_at. pose proof (so_contiguous _ _ _ Hq) as Hc.
  destruct (sequence q) as [|i l] eqn:Hseq; [by destruct (so_nonempty _ _ _ Hq)|].
  destruct (Hc 0%nat i eq_refl) as [Hi1 Hi2]. cbn [head expect mbind outcome_bind].
  destruct (slot_lt s (info_slot i)) eqn:Hlt.
  - apply (slot_lt_rank cfg) in Hlt; [|done..]. cbn. rewrite (proj2 (N.leb_gt _ _)) by lia. done.
  - pose proof (proj2 (not_true_iff_false _) Hlt) as Hge. rewrite (slot_lt_rank cfg) in Hge by done.
    rewrite slots_since_index, Hlt by (done || lia). cbn [expect_ok mbind outcome_bind].
    rewrite (proj2 (N.leb_le r0 (rank s))) by lia. replace (rank (info_slot i)) with r0 by lia.
    destruct (N.leb_spec (N.of_nat (length (i :: l))) (rank s - r0)) as [Hle|]; [|done].
    rewrite lookup_ge_None_2 by lia. done.
Qed.

(** The next slot can be executed as final. *)
Definition final_ready r0 q : bool :=
  match item_at r0 (sequence q) (rank (latest_executed_final_slot q) + 1) with
  | Some i => execution_final i
  | None => false
  end.

(** What a call of [run_task_with] does: nothing; or the next final slot; or the
    next candidate slot, if there is no final one and its time has come. *)
Inductive ran (now r0 : N) q : option (@Call M) → @SlotSequencer M → Prop :=
  | ran_final i r1 q' :
      item_at r0 (sequence q) (rank (latest_executed_final_slot q) + 1) = Some i →
      execution_final i = true →
      seq_ok r1 q' → r0 ≤ r1 →
      latest_executed_final_slot q' = info_slot i →
      rank (info_slot i) = rank (latest_executed_final_slot q) + 1 →
      rank (latest_executed_candidate_slot q')
        = N.max (rank (latest_executed_candidate_slot q)) (rank (info_slot i)) →
      (∀ n, r1 ≤ n → block_at r1 (sequence q') n = block_at r0 (sequence q) n) →
      ran now r0 q (Some (true, info_slot i, info_content i)) q'
  | ran_candidate s cursor :
      final_ready r0 q = false →
      get_time_cursor (E := unit) cfg now = Ok cursor → rank s ≤ rank cursor →
      thread s < tc → rank s = rank (latest_executed_candidate_slot q) + 1 →
      seq_ok r0 (MkSlotSequencer (sequence q) (latest_consensus_final_slots q)
          (latest_execution_final_slot q) (latest_executed_final_slot q) s) →
      ran now r0 q (Some (false, s, item_at r0 (sequence q) (rank s) ≫= info_content))
        (MkSlotSequencer (sequence q) (latest_consensus_final_slots q)
          (latest_execution_final_slot q) (latest_executed_final_slot q) s)
  | ran_nothing cursor :
      final_ready r0 q = false →
      get_time_cursor (E := unit) cfg now = Ok cursor →
      rank cursor < rank (latest_executed_candidate_slot q) + 1 →
      ran now r0 q None q.

Lemma get_time_cursor_any {E E'} now s :
  get_time_cursor (E := E) cfg now = Ok s → get_time_cursor (E := E') cfg now = Ok s.
Proof using. unfold get_time_cursor. destruct (get_latest_block_slot_at_timestamp _ _ _ _); cbn; congruence. Qed.

Lemma run_candidate_spec {E} now r0 q : seq_ok r0 q → now < u64_max → final_ready r0 q = false →
  ∃ r q', run_candidate (E := E) cfg now q = Ok (r, q') ∧ ran now r0 q r q'.
Proof using Hcfg.
  intros Hq Hnow Hnf. unfold run_candidate. destruct (so_candidate _ _ _ Hq) as [Hc Hfc].
  destruct (next_slot cfg Hcfg _ Hc) as (s & -> & Hr & Ht). cbn [expect_ok mbind outcome_bind].
  destruct (get_time_cursor_total (E := E) cfg Hcfg now Hnow) as (cursor & Hcur & Hcc1 & Hcc2).
  rewrite Hcur. apply (get_time_cursor_any (E' := unit)) in Hcur. cbn [mbind outcome_bind].
  destruct (slot_le s cursor) eqn:Hle.
  - apply (slot_le_rank cfg) in Hle; [|done..]. rewrite (get_slot_spec r0) by (done || lia).
    cbn [mbind outcome_bind]. eexists _, _. split; [done|]. eapply ran_candidate; try done.
    destruct Hq. constructor; cbn; try done. split; [split; [done|lia]|lia].
  - apply not_true_iff_false in Hle. rewrite (slot_le_rank cfg) in Hle by done.
    eexists _, _. split; [done|]. eapply ran_nothing; [done..|lia].
Qed.

Lemma executed_final_next r0 q : seq_ok r0 q → in_chain (latest_executed_final_slot q).
Proof using.
  intros Hq. destruct (so_executed_final _ _ _ Hq) as (H1 & _). destruct (so_candidate _ _ _ Hq) as [[_ H3] H4].
  split; [done|lia].
Qed.

(** Moving the final cursor to the next slot, when it is marked for execution. *)
Lemma seq_ok_executed r0 q i :
  seq_ok r0 q → item_at r0 (sequence q) (rank (latest_executed_final_slot q) + 1) = Some i →
  execution_final i = true →
  rank (info_slot i) = rank (latest_executed_final_slot q) + 1
  ∧ seq_ok r0 (MkSlotSequencer (sequence q) (latest_consensus_final_slots q)
       (latest_execution_final_slot q) (info_slot i)
       (slot_max2 (latest_executed_candidate_slot q) (info_slot i))).
Proof using.
  intros Hq Hi He. destruct (so_executed_final _ _ _ Hq) as (Hf1 & Hf2 & Hf3).
  destruct (so_candidate _ _ _ Hq) as [[Hc1 Hc2] Hfc]. pose proof (so_bound _ _ _ Hq) as Hb.
  unfold item_at in Hi. rewrite (proj2 (N.leb_le _ _)) in Hi by lia.
  destruct (so_contiguous _ _ _ Hq _ _ Hi) as [Hi1 Hi2].
  pose proof (lookup_lt_Some _ _ _ Hi) as Hlt.
  assert (rank (info_slot i) = rank (latest_executed_final_slot q) + 1) as Hr by lia. split; [done|].
  destruct (slot_max2_spec cfg (latest_executed_candidate_slot q) (info_slot i) Hc1 Hi1) as [Hm1 Hm2].
  pose proof (so_finality _ _ _ Hq _ _ Hi He) as Hcf. pose proof (so_final_done _ _ _ Hq) as Hdone.
  destruct Hq. constructor; cbn; try done.
  - split_and!; [done|lia|lia].
  - rewrite Hm2. split; [split; [done|]|]; lia.
  - intros k j Hj Hk. destruct (decide (r0 + N.of_nat k ≤ rank (latest_executed_final_slot q))) as [|Hgt]; [eauto|].
    replace k with (N.to_nat (rank (latest_executed_final_slot q) + 1 - r0)) in Hj by lia. congruence.
Qed.

Lemma run_task_with_spec {E} now r0 q : seq_ok r0 q → now < u64_max →
  ∃ r q', run_task_with (E := E) cfg now q = Ok (r, q') ∧ ran now r0 q r q'.
Proof using Hcfg.
  intros Hq Hnow. unfold run_task_with.
  destruct (sequence q) as [|i0 l0] eqn:Hseq; [by destruct (so_nonempty _ _ _ Hq)|]. rewrite <-Hseq. clear Hseq.
  pose proof (executed_final_next r0 q Hq) as Hf.
  destruct (next_slot cfg Hcfg _ Hf) as (s & -> & Hr & Ht). cbn [expect_ok mbind outcome_bind].
  rewrite (get_slot_spec r0) by (done || destruct Hf; lia). cbn [mbind outcome_bind].
  pose proof (run_candidate_spec (E := E) now r0 q Hq Hnow) as Hcand. unfold final_ready in Hcand. rewrite <-Hr in Hcand.
  destruct (item_at r0 (sequence q) (rank s)) as [i|] eqn:Hi; [|by apply Hcand].
  destruct (execution_final i) eqn:He; [|by apply Hcand]. rewrite Hr in Hi.
  destruct (seq_ok_executed r0 q i Hq Hi He) as [Hri Hq1].
  assert (info_slot i = s) as Hs.
  { apply (slot_index_inj tc); [|done|lia]. apply (so_executed_final _ _ _ Hq1). }
  rewrite <-Hs. destruct (cleanup_sequence_spec (E := E) cfg Hcfg _ _ Hq1) as (k & -> & Hq' & Hk).
  cbn [mbind outcome_bind]. eexists _, _. split; [done|]. eapply ran_final; try done; cbn.
  - lia.
  - apply slot_max2_spec; [by destruct (so_candidate _ _ _ Hq) as [[]]|by rewrite Hs].
  - intros n Hn. by apply block_at_drop.
Qed.

(** [is_task_available] says whether a call executes a slot. *)
Lemma is_task_available_spec {E} now r0 q r q' : seq_ok r0 q → now < u64_max → ran now r0 q r q' →
  is_task_available (E := E) cfg now q = Ok (bool_decide (is_Some r)).
Proof using Hcfg.
  intros Hq Hnow Hran. unfold is_task_available.
  destruct (sequence q) as [|i0 l0] eqn:Hseq; [by destruct (so_nonempty _ _ _ Hq)|]. clear Hseq.
  pose proof (executed_final_next r0 q Hq) as Hf. destruct (so_candidate _ _ _ Hq) as [Hc Hfc].
  destruct (next_slot cfg Hcfg _ Hf) as (s & -> & Hr & Ht). cbn [expect_ok mbind outcome_bind].
  rewrite (get_slot_spec r0) by (done || destruct Hf; lia). cbn [mbind outcome_bind]. rewrite Hr.
  change (match item_at r0 (sequence q) (rank (latest_executed_final_slot q) + 1) with
          | Some i => execution_final i | None => false end) with (final_ready r0 q).
  destruct (next_slot cfg Hcfg _ Hc) as (c & -> & Hrc & Htc). cbn [expect_ok mbind outcome_bind].
  destruct (get_time_cursor_total (E := E) cfg Hcfg now Hnow) as (cursor & Hcur & Hcc1 & Hcc2). rewrite Hcur.
  destruct Hran as [i r1 q' Hi He|s' cursor' -> Hcur' Hle _ Hs' _|cursor' -> Hcur' Hlt].
  - unfold final_ready. by rewrite Hi, He.
  - apply (get_time_cursor_any (E' := E)) in Hcur'.
    assert (cursor' = cursor) as -> by congruence. cbn. f_equal.
    apply (slot_le_rank cfg); [done..|]. lia.
  - apply (get_time_cursor_any (E' := E)) in Hcur'.
    assert (cursor' = cursor) as -> by congruence. cbn. f_equal.
    apply not_true_iff_false. rewrite (slot_le_rank cfg) by done. lia.
Qed.
End run.

(** ** What execution can rely on

    The properties of the slot sequencer: an update of the sequence, a call that
    executes a slot, and the history of executions over any run. *)

Section safety.
Context {M : Type} (cfg : SequencerConfig) `{!SetIter Slot}.
Local Notation tc := (sq_thread_count cfg).
Local Notation rank := (slot_index tc).
Implicit Types (q : @SlotSequencer M) (s : Slot).

(** The rank of the first slot of the sequence. *)
Definition front q : N :=
  match head (sequence q) with Some i => rank (info_slot i) | None => 0 end.

Lemma front_ok r0 q : seq_ok cfg r0 q → front q = r0.
Proof using.
  intros Hq. unfold front. pose proof (so_contiguous _ _ _ Hq) as Hc.
  destruct (sequence q) as [|i l] eqn:Hseq; [by destruct (so_nonempty _ _ _ Hq)|].
  destruct (Hc 0%nat i eq_refl) as [_ Hr]. cbn [head]. rewrite Hr. lia.
Qed.

(** ** Runs

    The sequencer, the last execution of every slot, and the executions made as
    final, in order. *)
Record World : Type := MkWorld {
  w_sequencer : @SlotSequencer M;
  w_executed : gmap Slot (option BlockId);
  w_final : list (Slot * option BlockId) }.

Inductive sequencer_step : World → World → Prop :=
  | step_update now finals clique meta q q' executed final :
      notification_ok cfg (front q) q finals clique meta →
      update (E := unit) cfg now finals clique meta q = Ok q' →
      sequencer_step (MkWorld q executed final) (MkWorld q' executed final)
  | step_run now q q' executed final (is_final : bool) s content :
      now < u64_max →
      run_task_with (E := unit) cfg now q = Ok (Some (is_final, s, content), q') →
      sequencer_step (MkWorld q executed final)
        (MkWorld q' (<[s := fst <$> content]> executed)
           (if is_final then final ++ [(s, fst <$> content)] else final)).

(** The last execution of every slot up to the candidate cursor is what the
    sequence holds; the slots executed as final follow the initial cursor, one by
    one, and are not executed again. *)
Record world_ok (cursor : Slot) (r0 : N) (w : World) : Prop := {
  wo_seq : seq_ok cfg r0 (w_sequencer w);
  wo_executed : ∀ s, thread s < tc → r0 ≤ rank s → rank cursor < rank s →
    rank s ≤ rank (latest_executed_candidate_slot (w_sequencer w)) →
    w_executed w !! s = Some (block_at r0 (sequence (w_sequencer w)) (rank s));
  wo_cursor : rank (latest_executed_final_slot (w_sequencer w)) = rank cursor + N.of_nat (length (w_final w));
  wo_final : ∀ k s b, w_final w !! k = Some (s, b) →
    rank s = rank cursor + N.of_nat k + 1 ∧ w_executed w !! s = Some b }.

Context (Hcfg : config_ok cfg).

(** Executing a slot after the final cursor leaves the final executions alone. *)
Lemma final_kept cursor r0 w s b : world_ok cursor r0 w →
  rank (latest_executed_final_slot (w_sequencer w)) < rank s →
  ∀ k x c, w_final w !! k = Some (x, c) →
    rank x = rank cursor + N.of_nat k + 1 ∧ <[s := b]> (w_executed w) !! x = Some c.
Proof using.
  intros H Hs k x c Hk. destruct (wo_final _ _ _ H k x c Hk) as [Hx Hc]. split; [done|].
  rewrite lookup_insert_ne; [done|]. intros <-. apply lookup_lt_Some in Hk.
  rewrite (wo_cursor _ _ _ H) in Hs. lia.
Qed.

(** Executing the slot [s] extends the agreement to the cursor [c]. *)
Lemma executed_insert cursor r0 w s (c : N) : world_ok cursor r0 w →
  thread s < tc → c ≤ N.max (rank (latest_executed_candidate_slot (w_sequencer w))) (rank s) →
  rank s ≤ rank (latest_executed_candidate_slot (w_sequencer w)) + 1 →
  ∀ x, thread x < tc → r0 ≤ rank x → rank cursor < rank x → rank x ≤ c →
    <[s := block_at r0 (sequence (w_sequencer w)) (rank s)]> (w_executed w) !! x
    = Some (block_at r0 (sequence (w_sequencer w)) (rank x)).
Proof using.
  intros H Hs Hc Hn x Hx H0 H1 H2. destruct (decide (x = s)) as [->|Hne]; [by rewrite lookup_insert_eq|].
  rewrite lookup_insert_ne by done. apply (wo_executed _ _ _ H); [done..|].
  assert (rank x ≠ rank s) by (intros ?; apply Hne, (slot_index_inj tc); done). lia.
Qed.

Lemma ran_world now cursor r0 w is_final s content q' : world_ok cursor r0 w →
  ran cfg now r0 (w_sequencer w) (Some (is_final, s, content)) q' →
  ∃ r1, world_ok cursor r1 (MkWorld q' (<[s := fst <$> content]> (w_executed w))
          (if is_final then w_final w ++ [(s, fst <$> content)] else w_final w)).
Proof using.
  intros H Hran. pose proof (so_candidate _ _ _ (wo_seq _ _ _ H)) as [_ Hfc].
  inversion Hran as [i r1 q1 Hi He Hq1 Hr1 Hf1 Hri Hc1 Hb1|s1 cur Hnf Hcur Hle Hs1 Hrs Hq1|]; subst.
  - assert (fst <$> info_content i = block_at r0 (sequence (w_sequencer w)) (rank (info_slot i))) as Hblock.
    { rewrite <-item_at_block, Hri, Hi. done. }
    assert (thread (info_slot i) < tc) by (rewrite <-Hf1; apply (so_executed_final _ _ _ Hq1)).
    exists r1. rewrite Hblock. constructor; cbn [w_sequencer w_executed w_final]; [done|..].
    + intros x Hx Hx0 Hx1 Hx2. rewrite Hb1 by done.
      apply (executed_insert cursor r0 w _ (rank (latest_executed_candidate_slot q'))); (done || lia).
    + rewrite Hf1, Hri, (wo_cursor _ _ _ H), length_app. cbn. lia.
    + intros k x b [Hk|[-> [= -> ->]]]%snoc_lookup_cases; [apply (final_kept cursor r0 w _ _ H) with (k := k); (done || lia)|].
      rewrite lookup_insert_eq. rewrite Hri, (wo_cursor _ _ _ H). split; [lia|done].
  - assert (fst <$> (item_at r0 (sequence (w_sequencer w)) (rank s) ≫= info_content)
            = block_at r0 (sequence (w_sequencer w)) (rank s)) as Hblock.
    { rewrite <-item_at_block. by destruct (item_at _ _ _). }
    exists r0. rewrite Hblock. constructor;
      cbn [w_sequencer w_executed w_final sequence latest_executed_candidate_slot latest_executed_final_slot];
      [done| |apply (wo_cursor _ _ _ H)|].
    + apply (executed_insert cursor r0 w s (rank s)); (done || lia).
    + apply (final_kept cursor r0 w _ _ H). lia.
Qed.

Lemma step_world cursor r0 w w' : world_ok cursor r0 w → sequencer_step w w' →
  ∃ r1, world_ok cursor r1 w'.
Proof using Hcfg.
  intros H Hstep. destruct Hstep as [now finals clique meta q q' ex fin Hnote Hup|now q q' ex fin isf s content Hnow Hrun].
  - pose proof (wo_seq _ _ _ H) as Hq. cbn in Hq. rewrite (front_ok r0 q Hq) in Hnote.
    destruct (update_spec (E := unit) cfg Hcfg now r0 q finals clique meta Hq Hnote) as (r1 & q1 & Hup1 & Hu).
    assert (q1 = q') as -> by congruence. exists r1. constructor; cbn [w_sequencer w_executed w_final].
    + apply (up_ok _ _ _ _ _ _ _ Hu).
    + intros s Hs H0 H1 H2. pose proof (up_front _ _ _ _ _ _ _ Hu). pose proof (up_candidate _ _ _ _ _ _ _ Hu).
      rewrite (up_kept _ _ _ _ _ _ _ Hu) by done. apply (wo_executed _ _ _ H); cbn; (done || lia).
    + rewrite (up_executed_final _ _ _ _ _ _ _ Hu). apply (wo_cursor _ _ _ H).
    + apply (wo_final _ _ _ H).
  - destruct (run_task_with_spec (E := unit) cfg Hcfg now r0 q (wo_seq _ _ _ H) Hnow) as (r & q1 & Hr & Hran).
    rewrite Hrun in Hr. injection Hr as <- <-. by apply (ran_world now cursor r0 (MkWorld q ex fin)).
Qed.

Lemma run_world cursor w w' : (∃ r0, world_ok cursor r0 w) → rtc sequencer_step w w' →
  ∃ r1, world_ok cursor r1 w'.
Proof using Hcfg.
  intros H Hrun. revert H. induction Hrun as [w|w w1 w2 Hstep _ IH]; [done|].
  intros [r0 H]. apply IH. by eapply step_world.
Qed.

(** The first notification starts the sequence. *)
Lemma boot_spec {E} now cursor first finals clique meta :
  boot_ok cfg cursor first finals (default ∅ clique) meta → now < u64_max →
  ∃ r1 q', update (E := E) cfg now finals clique meta (new_sequencer cfg cursor) = Ok q'
    ∧ seq_ok cfg r1 q'
    ∧ latest_executed_final_slot q' = cursor ∧ latest_executed_candidate_slot q' = cursor
    ∧ ∀ s, thread s < tc → r1 ≤ rank s →
        block_at r1 (sequence q') (rank s) = block_of finals (default ∅ clique) s.
Proof using Hcfg.
  intros Hboot Hnow. unfold update. cbn [new_sequencer sequence last].
  destruct (bo_first _ _ _ _ _ _ Hboot) as [[b Hb] _].
  rewrite decide_False by (intros ->; by rewrite lookup_empty in Hb). by eapply init_spec.
Qed.

Lemma boot_world {E} now cursor first finals clique meta q :
  boot_ok cfg cursor first finals (default ∅ clique) meta → now < u64_max →
  update (E := E) cfg now finals clique meta (new_sequencer cfg cursor) = Ok q →
  ∃ r0, world_ok cursor r0 (MkWorld q ∅ []).
Proof using Hcfg.
  intros Hboot Hnow Hup.
  destruct (boot_spec (E := E) now cursor first finals clique meta Hboot Hnow)
    as (r1 & q1 & Hq1 & Hok & Hf & Hc & _). assert (q1 = q) as -> by congruence.
  exists r1. constructor; cbn [w_sequencer w_executed w_final].
  - done.
  - intros s _ _ H1 H2. rewrite Hc in H2. lia.
  - rewrite Hf. cbn. lia.
  - intros k s b' Hk. by rewrite lookup_nil in Hk.
Qed.
End safety.

(** ** A two-thread sequencer

    It starts on the genesis blocks, executes a missed slot, then learns of a
    block there. *)

#[local] Instance sample_slot_iter : SetIter Slot := elements_iter.

Definition sample_sequencer_config : SequencerConfig := MkSequencerConfig 2 16 1000 0 0.
Definition sample_finals : gmap Slot BlockId :=
  {[ MkSlot 0 0 := BlockIdV0 100; MkSlot 0 1 := BlockIdV0 101 ]}.
Definition sample_metadata : gmap BlockId unit :=
  {[ BlockIdV0 100 := tt; BlockIdV0 101 := tt; BlockIdV0 1 := tt ]}.
Definition sample_clique : gmap Slot BlockId := {[ MkSlot 1 0 := BlockIdV0 1 ]}.

Definition sequencer_or (o : outcome unit (@SlotSequencer unit)) : @SlotSequencer unit :=
  match o with Ok q => q | _ => new_sequencer sample_sequencer_config (MkSlot 0 0) end.
Definition sample_sequencer : @SlotSequencer unit :=
  sequencer_or (update sample_sequencer_config 1040 sample_finals None sample_metadata
                  (new_sequencer sample_sequencer_config (MkSlot 0 1))).
(** After the execution of the slot (1, 0), as a miss. *)
Definition sample_missed : @SlotSequencer unit :=
  sequencer_or (r ← run_task_with sample_sequencer_config 1040 sample_sequencer; Ok r.2).

Lemma sample_sequencer_config_ok : config_ok sample_sequencer_config.
Proof. by repeat split. Qed.

Ltac sample_slot :=
  repeat match goal with
         | H : announced _ _ _ _ |- _ => destruct H as [H|H]; cbn in H
         | H : (∅ : gmap _ _) !! _ = Some _ |- _ => by rewrite lookup_empty in H
         | H : sample_finals !! _ = Some _ |- _ => unfold sample_finals in H
         | H : sample_clique !! _ = Some _ |- _ => unfold sample_clique in H
         | H : <[_:=_]> _ !! _ = Some _ |- _ => apply lookup_insert_Some in H as [[? ?]|[? H]]; simplify_eq
         | H : {[_:=_]} !! _ = Some _ |- _ => apply lookup_singleton_Some in H as [? ?]; simplify_eq
         end.

Lemma sample_boot_ok :
  boot_ok sample_sequencer_config (MkSlot 0 1) (MkSlot 0 0) sample_finals ∅ sample_metadata.
Proof.
  constructor.
  - split; [by eexists|done].
  - intros s b H. sample_slot; by repeat split.
  - apply map_disjoint_empty_r.
  - intros s s' b H H'. by sample_slot.
  - intros s b H. sample_slot; by eexists.
  - by split.
  - intros s Hs Hr. left. unfold slot_index in Hr. cbn in *. lia.
Qed.

Lemma sample_world_ok : ∃ r0, world_ok sample_sequencer_config (MkSlot 0 1) r0 (MkWorld sample_sequencer ∅ []).
Proof.
  apply (boot_world (E := unit) sample_sequencer_config sample_sequencer_config_ok 1040 (MkSlot 0 1) (MkSlot 0 0)
           sample_finals None sample_metadata); [exact sample_boot_ok|done|by vm_compute].
Qed.

Lemma sample_missed_step :
  sequencer_step sample_sequencer_config (MkWorld sample_sequencer ∅ [])
    (MkWorld sample_missed (<[MkSlot 1 0 := None]> ∅) []).
Proof. by eapply (step_run _ 1040 _ _ _ _ false (MkSlot 1 0) None); [|vm_compute]. Qed.

Lemma sample_missed_ok :
  seq_ok sample_sequencer_config (front sample_sequencer_config sample_missed) sample_missed.
Proof.
  destruct sample_world_ok as [r0 H].
  destruct (step_world _ sample_sequencer_config_ok _ r0 _ _ H sample_missed_step) as [r1 H1].
  pose proof (wo_seq _ _ _ _ H1) as Hq. cbn in Hq. by rewrite (front_ok _ _ _ Hq).
Qed.

Lemma sample_notification_ok :
  notification_ok sample_sequencer_config (front sample_sequencer_config sample_missed) sample_missed ∅
    (Some sample_clique) sample_metadata.
Proof.
  constructor.
  - intros s b H. sample_slot. by repeat split; vm_compute.
  - intros s s' b H H'. by sample_slot.
  - intros s b H _. sample_slot. by eexists.
Qed.

(** ** Properties *)

(** The first notification never panics when it is well formed, the threads
    are final up to the execution cursor and the cursor is not before the first
    block: the sequence is then continuous, both cursors are where execution
    stopped, and every slot holds its final block, or its blockclique block. *)
Theorem sequencer_boot_exact {M : Type} (cfg : SequencerConfig) `{!SetIter Slot} (now : N)
    (cursor first : Slot) (finals : gmap Slot BlockId) (clique : option (gmap Slot BlockId))
    (meta : gmap BlockId M) :
  config_ok cfg → boot_ok cfg cursor first finals (default ∅ clique) meta → now < u64_max →
  ∃ q, update (E := unit) cfg now finals clique meta (new_sequencer cfg cursor) = Ok q
    ∧ seq_ok cfg (front cfg q) q
    ∧ latest_executed_final_slot q = cursor ∧ latest_executed_candidate_slot q = cursor
    ∧ ∀ s, thread s < sq_thread_count cfg → front cfg q ≤ slot_index (sq_thread_count cfg) s →
        block_at (front cfg q) (sequence q) (slot_index (sq_thread_count cfg) s)
        = block_of finals (default ∅ clique) s.
Proof.
  intros Hcfg Hboot Hnow.
  destruct (boot_spec (E := unit) cfg Hcfg now cursor first finals clique meta Hboot Hnow)
    as (r1 & q & Hup & Hok & Hf & Hc & Hb).
  exists q. rewrite (front_ok cfg r1 q Hok). done.
Qed.

Lemma sequencer_boot_exact_witness :
  ∃ q, update (E := unit) sample_sequencer_config 1040 sample_finals None sample_metadata
         (new_sequencer sample_sequencer_config (MkSlot 0 1)) = Ok q
    ∧ latest_executed_candidate_slot q = MkSlot 0 1.
Proof.
  destruct (sequencer_boot_exact sample_sequencer_config 1040 (MkSlot 0 1) (MkSlot 0 0) sample_finals None
              sample_metadata sample_sequencer_config_ok sample_boot_ok) as (q & Hq & _ & _ & Hc & _); [done|].
  by exists q.
Defined.

(** C22. An update of the sequence never panics on a well-formed notification. It
    gives every slot the block the notification says, keeps what is final for
    consensus, marks for final execution exactly the slots preceded by final slots
    only, and moves the candidate cursor back exactly to the slot before the first
    executed slot whose block changed. *)
Theorem sequencer_update_exact {M : Type} (cfg : SequencerConfig) `{!SetIter Slot} (now : N)
    (q : @SlotSequencer M) (finals : gmap Slot BlockId) (clique : option (gmap Slot BlockId))
    (meta : gmap BlockId M) :
  config_ok cfg → seq_ok cfg (front cfg q) q →
  notification_ok cfg (front cfg q) q finals clique meta →
  ∃ q', update (E := unit) cfg now finals clique meta q = Ok q'
    ∧ updated cfg (front cfg q) (front cfg q') q finals clique q'.
Proof.
  intros Hcfg Hq Hnote.
  destruct (update_spec (E := unit) cfg Hcfg now _ q finals clique meta Hq Hnote) as (r1 & q' & Hup & Hu).
  exists q'. split; [done|]. by rewrite (front_ok cfg r1 q') by apply (up_ok _ _ _ _ _ _ _ Hu).
Qed.

(** The block that appears at the missed slot brings the cursor back before it. *)
Lemma sequencer_update_exact_witness :
  ∃ q', update (E := unit) sample_sequencer_config 1040 ∅ (Some sample_clique) sample_metadata sample_missed = Ok q'
    ∧ latest_executed_candidate_slot sample_missed = MkSlot 1 0
    ∧ latest_executed_candidate_slot q' = MkSlot 0 1.
Proof.
  destruct (sequencer_update_exact sample_sequencer_config 1040 sample_missed ∅ (Some sample_clique)
              sample_metadata sample_sequencer_config_ok sample_missed_ok sample_notification_ok)
    as (q' & Hq' & _).
  exists q'. split; [exact Hq'|]. split; [by vm_compute|].
  assert (latest_executed_candidate_slot (sequencer_or (update sample_sequencer_config 1040 ∅
    (Some sample_clique) sample_metadata sample_missed)) = MkSlot 0 1) as Hc by (by vm_compute).
  by rewrite Hq' in Hc.
Defined.

(** C39. A call of [run_task_with] never panics. It executes the slot after the last
    final one if that slot is marked for final execution, otherwise the slot after
    the last candidate one if its time has come, with the content of the sequence,
    otherwise nothing; and [is_task_available] tells in advance whether a slot is
    executed. *)
Theorem sequencer_run_exact {M : Type} (cfg : SequencerConfig) `{!SetIter Slot} (now : N)
    (q : @SlotSequencer M) :
  config_ok cfg → seq_ok cfg (front cfg q) q → now < u64_max →
  ∃ call q', run_task_with (E := unit) cfg now q = Ok (call, q')
    ∧ ran cfg now (front cfg q) q call q'
    ∧ is_task_available (E := unit) cfg now q = Ok (bool_decide (is_Some call)).
Proof.
  intros Hcfg Hq Hnow.
  destruct (run_task_with_spec (E := unit) cfg Hcfg now _ q Hq Hnow) as (call & q' & Hrun & Hran).
  exists call, q'. split_and!; [done..|]. by apply (is_task_available_spec cfg Hcfg now (front cfg q) q call q').
Qed.

Lemma sequencer_run_exact_witness :
  is_task_available (E := unit) sample_sequencer_config 1040 sample_missed = Ok true
  ∧ is_task_available (E := unit) sample_sequencer_config 1010 sample_missed = Ok false.
Proof.
  pose proof (λ now, sequencer_run_exact sample_sequencer_config now sample_missed
                       sample_sequencer_config_ok sample_missed_ok) as H.
  split.
  - destruct (H 1040 ltac:(done)) as (call & q' & Hrun & _ & ->).
    by destruct call; [|vm_compute in Hrun].
  - destruct (H 1010 ltac:(done)) as (call & q' & Hrun & _ & ->).
    by destruct call; [vm_compute in Hrun|].
Defined.

(** C5. Over any run that starts with the first notification and goes on with
    notifications and executions, the slots executed as final are the slots after
    the initial cursor, each once and in order, and none is executed again
    afterwards; the last execution of every other slot up to the candidate cursor
    was made with the block the sequence holds now; and a slot that was already
    executed as candidate is finalised with the block of its last execution. *)
Theorem sequencer_history_agrees {M : Type} (cfg : SequencerConfig) `{!SetIter Slot} (now : N)
    (cursor first : Slot) (finals : gmap Slot BlockId) (clique : option (gmap Slot BlockId))
    (meta : gmap BlockId M) (q0 : @SlotSequencer M) (w : World) :
  config_ok cfg → boot_ok cfg cursor first finals (default ∅ clique) meta → now < u64_max →
  update (E := unit) cfg now finals clique meta (new_sequencer cfg cursor) = Ok q0 →
  rtc (sequencer_step cfg) (MkWorld q0 ∅ []) w →
  let q := w_sequencer w in
  seq_ok cfg (front cfg q) q
  ∧ (∀ k s b, w_final w !! k = Some (s, b) →
       slot_index (sq_thread_count cfg) s = slot_index (sq_thread_count cfg) cursor + N.of_nat k + 1
       ∧ w_executed w !! s = Some b)
  ∧ slot_index (sq_thread_count cfg) (latest_executed_final_slot q)
    = slot_index (sq_thread_count cfg) cursor + N.of_nat (length (w_final w))
  ∧ (∀ s, thread s < sq_thread_count cfg → front cfg q ≤ slot_index (sq_thread_count cfg) s →
       slot_lt cursor s = true → slot_le s (latest_executed_candidate_slot q) = true →
       w_executed w !! s = Some (block_at (front cfg q) (sequence q) (slot_index (sq_thread_count cfg) s)))
  ∧ (∀ now' s content q', now' < u64_max →
       run_task_with (E := unit) cfg now' q = Ok (Some (true, s, content), q') →
       slot_le s (latest_executed_candidate_slot q) = true → w_executed w !! s = Some (fst <$> content)).
Proof.
  intros Hcfg Hboot Hnow Hup Hrun q.
  destruct (run_world cfg Hcfg cursor _ w (boot_world cfg Hcfg now cursor first finals clique meta q0 Hboot Hnow Hup)
              Hrun) as [r0 H].
  pose proof (wo_seq _ _ _ _ H) as Hq. fold q in Hq. rewrite (front_ok cfg r0 q Hq).
  pose proof (bo_cursor _ _ _ _ _ _ Hboot) as [Hc _]. destruct (so_candidate _ _ _ Hq) as [[Hcand _] _].
  split_and!; [done|apply (wo_final _ _ _ _ H)|apply (wo_cursor _ _ _ _ H)| |].
  - intros s Hs H0 H1%(slot_lt_rank cfg) H2%(slot_le_rank cfg); [|done..]. by apply (wo_executed _ _ _ _ H).
  - intros now' s content q' Hnow' Hr Hle.
    destruct (run_task_with_spec (E := unit) cfg Hcfg now' r0 q Hq Hnow') as (r & q1 & Hr1 & Hran).
    rewrite Hr in Hr1. injection Hr1 as <- <-. inversion Hran as [i r1 q1 Hi He Hq1 Hr1 Hf1 Hri Hc1 Hb1| |]; subst.
    assert (thread (info_slot i) < sq_thread_count cfg) as Ht
      by (rewrite <-Hf1; apply (so_executed_final _ _ _ Hq1)).
    apply (slot_le_rank cfg) in Hle; [|done..].
    destruct (so_executed_final _ _ _ Hq) as (_ & ? & _). pose proof (wo_cursor _ _ _ _ H) as Hcur. fold q in Hcur.
    rewrite (wo_executed _ _ _ _ H) by (done || (fold q; lia)). fold q. by rewrite <-item_at_block, Hri, Hi.
Qed.

(** The missed slot was executed as a miss, and the sequence still holds a miss. *)
Lemma sequencer_history_agrees_witness :
  (<[MkSlot 1 0 := None]> ∅ : gmap Slot (option BlockId)) !! MkSlot 1 0
  = Some (block_at (front sample_sequencer_config sample_missed) (sequence sample_missed) 2).
Proof.
  destruct (sequencer_history_agrees sample_sequencer_config 1040 (MkSlot 0 1) (MkSlot 0 0) sample_finals None
           sample_metadata sample_sequencer (MkWorld sample_missed (<[MkSlot 1 0 := None]> ∅) [])
           sample_sequencer_config_ok sample_boot_ok) as (_ & _ & _ & H & _).
  - done.
  - by vm_compute.
  - apply rtc_once. exact sample_missed_step.
  - apply (H (MkSlot 1 0)); by vm_compute.
Defined.
