(* ===== verification/Ledger.v ===== *)
(** * Ledger entries and changes

    [massa-models/src/amount.rs] and [types.rs], [massa-ledger-exports/src/
    ledger_entry.rs] and [ledger_changes.rs]: the entries of the ledger and the
    changes that execution makes to them.

    A [Vec<u8>] is the list of its bytes.  A [BTreeMap] that is only searched and
    updated is a [gmap].  The fallback closures of the lookups are evaluated only
    when they are needed and have no effect, so they are values here. *)

From S2P Require Import Prelude Slots Models.

Open Scope N_scope.

(** ** Amounts *)

Module Amount.
(** The raw [u64] of an amount. *)
Definition zero : N := 0.
Definition saturating_add (a b : N) : N := Prelude.saturating_add u64_max a b.
Definition saturating_sub (a b : N) : N := Prelude.saturating_sub a b.
Definition is_zero (a : N) : bool := a =? 0.
Definition checked_sub (a b : N) : option N := Prelude.checked_sub a b.
Definition checked_add (a b : N) : option N := Prelude.checked_add u64_max a b.
Definition checked_mul_u64 (a n : N) : option N := Prelude.checked_mul u64_max a n.
Definition saturating_mul_u64 (a n : N) : N := Prelude.saturating_mul u64_max a n.
Definition checked_div_u64 (a n : N) : option N := Prelude.checked_div a n.
Definition checked_div (a b : N) : option N := Prelude.checked_div a b.
Definition checked_rem (a b : N) : option N := Prelude.checked_rem a b.
Definition checked_rem_u64 (a n : N) : option N := Prelude.checked_rem a n.
End Amount.

(** ** Changes to a value *)

(** [Applicable]: a change of type [V] can be applied to a [T]. *)
Class Applicable (T V : Type) : Type := apply : T → V → T.
(** The trait [Default]. *)
Class Default (T : Type) : Type := default_value : T.

Inductive SetUpdateOrDelete (T V : Type) : Type :=
  | SUD_Set (t : T)
  | SUD_Update (v : V)
  | SUD_Delete.
Arguments SUD_Set {_ _} _.
Arguments SUD_Update {_ _} _.
Arguments SUD_Delete {_ _}.

Inductive SetOrDelete (T : Type) : Type :=
  | SOD_Set (t : T)
  | SOD_Delete.
Arguments SOD_Set {_} _.
Arguments SOD_Delete {_}.

Inductive SetOrKeep (T : Type) : Type :=
  | SOK_Set (t : T)
  | SOK_Keep.
Arguments SOK_Set {_} _.
Arguments SOK_Keep {_}.

#[export] Instance SetOrKeep_apply {T} : Applicable (SetOrKeep T) (SetOrKeep T) :=
  λ self other, match other with SOK_Set _ => other | SOK_Keep => self end.
Definition apply_to {T} (change : SetOrKeep T) (val : T) : T :=
  match change with SOK_Set v => v | SOK_Keep => val end.

#[export] Instance SetOrDelete_apply {T} : Applicable (SetOrDelete T) (SetOrDelete T) :=
  λ _ other, other.

#[export] Instance SetUpdateOrDelete_apply {T V} `{Default T} `{!Applicable T V} `{!Applicable V V}
    : Applicable (SetUpdateOrDelete T V) (SetUpdateOrDelete T V) :=
  λ self other,
    match other with
    | SUD_Set _ => other
    | SUD_Update u =>
        match self with
        | SUD_Set cur => SUD_Set (apply cur u)
        | SUD_Update cur => SUD_Update (apply cur u)
        | SUD_Delete => SUD_Set (apply default_value u)
        end
    | SUD_Delete => other
    end.

(** ** Entries *)

Notation Bytecode := (list N) (only parsing).
Notation Key := (list N) (only parsing).
Notation Datastore := (gmap Key (list N)) (only parsing).

Record LedgerEntry : Type := MkLedgerEntry {
  le_balance : N;
  le_bytecode : Bytecode;
  le_datastore : Datastore }.
(** [LedgerEntry::default()] *)
#[export] Instance LedgerEntry_default : Default LedgerEntry := MkLedgerEntry 0 [] ∅.

Record LedgerEntryUpdate : Type := MkLedgerEntryUpdate {
  lu_balance : SetOrKeep N;
  lu_bytecode : SetOrKeep Bytecode;
  lu_datastore : gmap Key (SetOrDelete (list N)) }.
(** [LedgerEntryUpdate::default()] *)
Definition no_update : LedgerEntryUpdate := MkLedgerEntryUpdate SOK_Keep SOK_Keep ∅.

(** One update of the datastore. *)
Definition update_datastore (d : Datastore) (change : Key * SetOrDelete (list N)) : Datastore :=
  match change.2 with
  | SOD_Set v => <[change.1 := v]> d
  | SOD_Delete => delete change.1 d
  end.

Notation EntryChange := (SetUpdateOrDelete LedgerEntry LedgerEntryUpdate).
Notation LedgerChanges := (gmap Address EntryChange).

Section changes.
Context `{!SetIter Key} `{!SetIter Address}.

#[export] Instance LedgerEntry_apply : Applicable LedgerEntry LedgerEntryUpdate := λ self update,
  MkLedgerEntry (apply_to (lu_balance update) (le_balance self))
    (apply_to (lu_bytecode update) (le_bytecode self))
    (foldl update_datastore (le_datastore self) (map_iter (lu_datastore update))).

(** [self.datastore.extend(update.datastore)] keeps the updates of the argument. *)
#[export] Instance LedgerEntryUpdate_apply : Applicable LedgerEntryUpdate LedgerEntryUpdate :=
  λ self update,
    MkLedgerEntryUpdate (apply (lu_balance self) (lu_balance update))
      (apply (lu_bytecode self) (lu_bytecode update))
      (lu_datastore update ∪ lu_datastore self).

(** One entry of [LedgerChanges::apply]. *)
Definition apply_entry (self : LedgerChanges) (c : Address * EntryChange) : LedgerChanges :=
  match self !! c.1 with
  | Some cur => <[c.1 := apply cur c.2]> self
  | None => <[c.1 := c.2]> self
  end.
#[export] Instance LedgerChanges_apply : Applicable LedgerChanges LedgerChanges :=
  λ self changes, foldl apply_entry self (map_iter changes).

Implicit Types (c : LedgerChanges) (addr : Address) (key : Key).

(** ** Reading changes *)

Definition create_address c addr : LedgerChanges := <[addr := SUD_Set default_value]> c.

Definition get_balance_or_else c addr (f : option N) : option N :=
  match c !! addr with
  | Some (SUD_Set v) => Some (le_balance v)
  | Some (SUD_Update u) => match lu_balance u with SOK_Set v => Some v | SOK_Keep => f end
  | Some SUD_Delete => None
  | None => f
  end.

Definition get_bytecode_or_else c addr (f : option Bytecode) : option Bytecode :=
  match c !! addr with
  | Some (SUD_Set v) => Some (le_bytecode v)
  | Some (SUD_Update u) => match lu_bytecode u with SOK_Set v => Some v | SOK_Keep => f end
  | Some SUD_Delete => None
  | None => f
  end.

Definition entry_exists_or_else c addr (f : bool) : bool :=
  match c !! addr with
  | Some (SUD_Set _) => true
  | Some (SUD_Update _) => true
  | Some SUD_Delete => false
  | None => f
  end.

Definition get_data_entry_or_else c addr key (f : option (list N)) : option (list N) :=
  match c !! addr with
  | Some (SUD_Set v) => le_datastore v !! key
  | Some (SUD_Update u) =>
      match lu_datastore u !! key with
      | Some (SOD_Set v) => Some v
      | Some SOD_Delete => None
      | None => f
      end
  | Some SUD_Delete => None
  | None => f
  end.

Definition has_data_entry_or_else c addr key (f : bool) : bool :=
  match c !! addr with
  | Some (SUD_Set v) => bool_decide (is_Some (le_datastore v !! key))
  | Some (SUD_Update u) =>
      match lu_datastore u !! key with
      | Some (SOD_Set _) => true
      | Some SOD_Delete => false
      | None => f
      end
  | Some SUD_Delete => false
  | None => f
  end.

Definition has_writes c addr (key : option Key) : bool :=
  match c !! addr with
  | Some (SUD_Set v) =>
      match key with Some k => bool_decide (is_Some (le_datastore v !! k)) | None => true end
  | Some (SUD_Update u) =>
      match key with Some k => bool_decide (is_Some (lu_datastore u !! k)) | None => true end
  | Some SUD_Delete => true
  | None => false
  end.

Definition bytecode_update (ch : Address * EntryChange) : list Bytecode :=
  match ch.2 with
  | SUD_Set e => if decide (le_bytecode e = []) then [] else [le_bytecode e]
  | SUD_Update u =>
      match lu_bytecode u with
      | SOK_Set b => if decide (b = []) then [] else [b]
      | SOK_Keep => []
      end
  | SUD_Delete => []
  end.
Definition get_bytecode_updates c : list Bytecode := map_iter c ≫= bytecode_update.

(** ** Writing changes *)

Definition set_balance c addr (balance : N) : LedgerChanges :=
  match c !! addr with
  | Some (SUD_Set v) =>
      <[addr := SUD_Set (MkLedgerEntry balance (le_bytecode v) (le_datastore v))]> c
  | Some (SUD_Update u) =>
      <[addr := SUD_Update (MkLedgerEntryUpdate (SOK_Set balance) (lu_bytecode u) (lu_datastore u))]> c
  | Some SUD_Delete => <[addr := SUD_Set (MkLedgerEntry balance [] ∅)]> c
  | None => <[addr := SUD_Update (MkLedgerEntryUpdate (SOK_Set balance) SOK_Keep ∅)]> c
  end.

Definition set_bytecode c addr (bytecode : Bytecode) : LedgerChanges :=
  match c !! addr with
  | Some (SUD_Set v) =>
      <[addr := SUD_Set (MkLedgerEntry (le_balance v) bytecode (le_datastore v))]> c
  | Some (SUD_Update u) =>
      <[addr := SUD_Update (MkLedgerEntryUpdate (lu_balance u) (SOK_Set bytecode) (lu_datastore u))]> c
  | Some SUD_Delete => <[addr := SUD_Set (MkLedgerEntry 0 bytecode ∅)]> c
  | None => <[addr := SUD_Update (MkLedgerEntryUpdate SOK_Keep (SOK_Set bytecode) ∅)]> c
  end.

Definition set_data_entry c addr key (data : list N) : LedgerChanges :=
  match c !! addr with
  | Some (SUD_Set v) =>
      <[addr := SUD_Set (MkLedgerEntry (le_balance v) (le_bytecode v) (<[key := data]> (le_datastore v)))]> c
  | Some (SUD_Update u) =>
      <[addr := SUD_Update (MkLedgerEntryUpdate (lu_balance u) (lu_bytecode u)
                              (<[key := SOD_Set data]> (lu_datastore u)))]> c
  | Some SUD_Delete => <[addr := SUD_Set (MkLedgerEntry 0 [] {[key := data]})]> c
  | None => <[addr := SUD_Update (MkLedgerEntryUpdate SOK_Keep SOK_Keep {[key := SOD_Set data]})]> c
  end.

Definition delete_data_entry c addr key : LedgerChanges :=
  match c !! addr with
  | Some (SUD_Set v) =>
      <[addr := SUD_Set (MkLedgerEntry (le_balance v) (le_bytecode v) (delete key (le_datastore v)))]> c
  | Some (SUD_Update u) =>
      <[addr := SUD_Update (MkLedgerEntryUpdate (lu_balance u) (lu_bytecode u)
                              (<[key := SOD_Delete]> (lu_datastore u)))]> c
  | Some SUD_Delete => c
  | None => <[addr := SUD_Update (MkLedgerEntryUpdate SOK_Keep SOK_Keep {[key := SOD_Delete]})]> c
  end.
End changes.
