(* ===== verification/Formats.v ===== *)
(** * The formats of values

    The serializers of [massa-models] (slots, amounts, addresses, identifiers, versions,
    changes, datastores, bytecodes, cursors), of [massa-hash], of [massa-signature] and of
    [massa-ledger-exports] (keys, entries and updates), and the texts that
    identifiers, addresses and keys are shown as.

    A hash is its bytes as a big-endian number, and so are the 32 bytes of a public key
    and the 64 of a signature.  Which bytes are a point of the curve, and so a public
    key, is the class [VerifyingKey] (the crate [ed25519-dalek]); texts in base 58 with
    a checksum are the class [Base58] (the crate [bs58]).  The versions that
    the crate [transition] numbers are 0. *)

From Stdlib Require Import Ascii.
From S2P Require Import Prelude Slots OrdMap Keys Models Ledger Wire.

Open Scope N_scope.

(** [VerifyingKey::from_bytes] accepts the key *)
Class VerifyingKey : Type := verifying_key_ok : N → bool.

(** [bs58::encode(..).with_check()] and [bs58::decode(..).with_check(None)] *)
Class Base58 : Type := {
  bs58_encode_check : Bytes → string;
  bs58_decode_check : string → option Bytes }.

Definition any_u64 : Bound N * Bound N := (Included 0, Included u64_max).
Definition any_u32 : Bound N * Bound N := (Included 0, Included u32_max).
Definition up_to (max : N) : Bound N * Bound N := (Included 0, Included max).
Definition below (max : N) : Bound N * Bound N := (Included 0, Excluded max).

(** Cursors: how far a stream has got. *)
Inductive StreamingStep (T : Type) : Type :=
  | Started
  | Ongoing (t : T)
  | Finished (t : option T).
Arguments Started {_}.
Arguments Ongoing {_} _.
Arguments Finished {_} _.

Definition finished {T} (s : StreamingStep T) : bool := match s with Finished _ => true | _ => false end.

Section values.
Context `{!Varint}.

(** ** Slots, amounts and hashes *)

Definition SlotSerializer : Serializer Slot := λ value,
  write_seq [VarIntSerializer U64 (period value); Ok [thread value]].
Definition SlotDeserializer (range_period range_thread : Bound N * Bound N) : Parser Slot := λ input,
  '(period, rest) ← VarIntDeserializer U64 range_period input;
  '(thread, rest2) ← take_byte rest;
  if in_range range_thread thread then Some (MkSlot period thread, rest2) else None.

Definition AmountSerializer : Serializer N := VarIntSerializer U64.
Definition AmountDeserializer (min_amount max_amount : Bound N) : Parser N :=
  VarIntDeserializer U64
    (match min_amount with Unbounded => Included 0 | b => b end,
     match max_amount with Unbounded => Included u64_max | b => b end).

Definition HASH_SIZE_BYTES : N := 32.
Definition HashSerializer : Serializer Hash := λ value, Ok (to_be_bytes 32 value).
Definition HashDeserializer : Parser Hash := pmap from_be_bytes (take_bytes HASH_SIZE_BYTES).

(** ** Identifiers *)

(** A version and a hash: the only version is 0. *)
Definition versioned_hash (range : Bound N * Bound N) : Parser Hash := λ buffer,
  if N.of_nat (length buffer) <? 2 then None
  else
    '(version, rest) ← VarIntDeserializer U64 range buffer;
    if version =? 0 then HashDeserializer rest else None.

Definition BlockIdSerializer : Serializer BlockId := λ value,
  write_seq [VarIntSerializer U64 (get_version value);
             match value with BlockIdV0 hash => Ok (to_be_bytes 32 hash) end].
Definition BlockIdDeserializer : Parser BlockId := pmap BlockIdV0 (versioned_hash any_u64).

Definition operation_id_version (id : OperationId) : N := match id with OperationIdV0 _ => 0 end.
Definition OperationIdSerializer : Serializer OperationId := λ value,
  write_seq [VarIntSerializer U64 (operation_id_version value);
             match value with OperationIdV0 hash => Ok (to_be_bytes 32 hash) end].
Definition OperationIdDeserializer : Parser OperationId := pmap OperationIdV0 (versioned_hash any_u64).

Definition EndorsementIdDeserializer : Parser EndorsementId := pmap EndorsementIdV0 (versioned_hash any_u64).

(** ** Addresses *)

Definition USER_PREFIX : N := 0.
Definition SC_PREFIX : N := 1.

Definition UserAddressSerializer : Serializer UserAddress := λ value,
  write_seq [VarIntSerializer U64 USER_PREFIX; VarIntSerializer U64 0;
             match value with UserAddressV0 hash => Ok (to_be_bytes 32 hash) end].
Definition SCAddressSerializer : Serializer SCAddress := λ value,
  write_seq [VarIntSerializer U64 SC_PREFIX; VarIntSerializer U64 0;
             match value with SCAddressV0 hash => Ok (to_be_bytes 32 hash) end].
Definition AddressSerializer : Serializer Address := λ value,
  match value with
  | User addr => UserAddressSerializer addr
  | SC addr => SCAddressSerializer addr
  end.

(** After the type. *)
Definition UserAddressDeserializer : Parser UserAddress := pmap UserAddressV0 (versioned_hash (below u64_max)).
Definition SCAddressDeserializer : Parser SCAddress := pmap SCAddressV0 (versioned_hash (below u64_max)).
Definition AddressDeserializer : Parser Address := λ buffer,
  if N.of_nat (length buffer) <? 2 then None
  else
    '(addr_type, rest) ← VarIntDeserializer U64 (up_to 1) buffer;
    if addr_type =? USER_PREFIX then pmap User UserAddressDeserializer rest
    else if addr_type =? SC_PREFIX then pmap SC SCAddressDeserializer rest
    else None.

Definition user_to_prefixed_bytes (addr : UserAddress) : Bytes :=
  match addr with
  | UserAddressV0 hash => varint_encode U64 USER_PREFIX ++ varint_encode U64 0 ++ to_be_bytes 32 hash
  end.
Definition sc_to_prefixed_bytes (addr : SCAddress) : Bytes :=
  match addr with
  | SCAddressV0 hash => varint_encode U64 SC_PREFIX ++ varint_encode U64 0 ++ to_be_bytes 32 hash
  end.
Definition to_prefixed_bytes (addr : Address) : Bytes :=
  match addr with
  | User addr => user_to_prefixed_bytes addr
  | SC addr => sc_to_prefixed_bytes addr
  end.

(** [trailing_zeros] of a [u8] *)
Fixpoint trailing_zeros_pos (p : positive) : N := match p with xO p => 1 + trailing_zeros_pos p | _ => 0 end.
Definition trailing_zeros_u8 (n : N) : N := match n with N0 => 8 | Npos p => trailing_zeros_pos p end.
Definition user_get_thread (addr : UserAddress) (thread_count : N) : N :=
  match addr with
  | UserAddressV0 hash =>
      let shift := 8 - trailing_zeros_u8 thread_count in
      (** [checked_shr] gives nothing from 8 on *)
      if shift <? 8 then N.shiftr (default 0 (head (to_be_bytes 32 hash))) shift else 0
  end.
Definition get_thread (addr : Address) (thread_count : N) : N :=
  match addr with
  | User addr => user_get_thread addr thread_count
  | SC _ => 0
  end.

(** ** Keys and signatures *)

Definition PUBLIC_KEY_SIZE_BYTES : N := 32.
Definition SIGNATURE_SIZE_BYTES : N := 64.
(** the size of version 0 as a number *)
Definition VERSION_VARINT_SIZE_BYTES : N := N.of_nat (length (varint_encode U64 0)).

Definition public_key_to_bytes (pk : PublicKey) : Bytes :=
  match pk with PublicKeyV0 key => varint_encode U64 0 ++ to_be_bytes 32 key end.
Definition public_key_ser_len : N := VERSION_VARINT_SIZE_BYTES + PUBLIC_KEY_SIZE_BYTES.

(** The version and the rest, then the bytes of a key or of a signature at the start of the
    rest. *)
Definition version_from_bytes (data : Bytes) : option Bytes :=
  '(version, rest) ← VarIntDeserializer U64 any_u64 data;
  if version =? 0 then Some rest else None.
Definition public_key_from_bytes `{!VerifyingKey} (data : Bytes) : option PublicKey :=
  rest ← version_from_bytes data;
  if N.of_nat (length rest) <? PUBLIC_KEY_SIZE_BYTES then None
  else
    let key := from_be_bytes (take (N.to_nat PUBLIC_KEY_SIZE_BYTES) rest) in
    if verifying_key_ok key then Some (PublicKeyV0 key) else None.
Definition PublicKeyDeserializer `{!VerifyingKey} : Parser PublicKey := λ buffer,
  public_key ← public_key_from_bytes buffer;
  Some (public_key, drop (N.to_nat public_key_ser_len) buffer).

Definition signature_to_bytes (s : Signature) : Bytes :=
  match s with SignatureV0 sig => varint_encode U64 0 ++ to_be_bytes 64 sig end.
Definition signature_ser_len : N := VERSION_VARINT_SIZE_BYTES + SIGNATURE_SIZE_BYTES.
Definition signature_from_bytes (data : Bytes) : option Signature :=
  rest ← version_from_bytes data;
  if N.of_nat (length rest) <? SIGNATURE_SIZE_BYTES then None
  else Some (SignatureV0 (from_be_bytes (take (N.to_nat SIGNATURE_SIZE_BYTES) rest))).
Definition SignatureDeserializer : Parser Signature := λ buffer,
  signature ← signature_from_bytes buffer;
  Some (signature, drop (N.to_nat signature_ser_len) buffer).

(** ** Versions of the program *)

Record Version : Type := MkVersion { instance : Bytes; major : N; minor : N }.
Definition INSTANCE_LEN : N := 4.
Definition is_ascii_uppercase (c : N) : bool := (65 <=? c) && (c <=? 90).

Definition VersionSerializer : Serializer Version := λ value,
  write_seq [Ok (instance value); VarIntSerializer U32 (major value); VarIntSerializer U32 (minor value)].
Definition VersionDeserializer : Parser Version := λ input,
  '(instance, rest) ← take_bytes INSTANCE_LEN input;
  if forallb is_ascii_uppercase instance then
    '(major, rest) ← VarIntDeserializer U32 any_u32 rest;
    '(minor, rest) ← VarIntDeserializer U32 any_u32 rest;
    Some (MkVersion instance major minor, rest)
  else None.
Definition is_compatible (self other : Version) : bool :=
  bool_decide (instance self = instance other)
  && ((major self <=? major other) || ((major self =? 6) && (major other =? 5))).

(** ** Changes to a value *)

Definition SetUpdateOrDeleteSerializer {T V} (inner_serializer_set : Serializer T) (inner_serializer_update : Serializer V)
    : Serializer (SetUpdateOrDelete T V) := λ value,
  match value with
  | SUD_Set value => write_seq [Ok [0]; inner_serializer_set value]
  | SUD_Update value => write_seq [Ok [1]; inner_serializer_update value]
  | SUD_Delete => Ok [2]
  end.
Definition SetUpdateOrDeleteDeserializer {T V} (inner_deserializer_set : Parser T) (inner_deserializer_update : Parser V)
    : Parser (SetUpdateOrDelete T V) := λ buffer,
  '(b, rest0) ← take_byte buffer;
  if b =? 0 then '(value, rest) ← inner_deserializer_set rest0; Some (SUD_Set value, rest)
  else if b =? 1 then '(value, rest) ← inner_deserializer_update rest0; Some (SUD_Update value, rest)
  else if b =? 2 then Some (SUD_Delete, rest0)
  else None.

Definition SetOrDeleteSerializer {T} (inner_serializer : Serializer T) : Serializer (SetOrDelete T) := λ value,
  match value with
  | SOD_Set value => write_seq [Ok [0]; inner_serializer value]
  | SOD_Delete => Ok [1]
  end.
Definition SetOrDeleteDeserializer {T} (inner_deserializer : Parser T) : Parser (SetOrDelete T) := λ buffer,
  '(b, rest0) ← take_byte buffer;
  if b =? 0 then '(value, rest) ← inner_deserializer rest0; Some (SOD_Set value, rest)
  else if b =? 1 then Some (SOD_Delete, rest0)
  else None.

Definition SetOrKeepSerializer {T} (inner_serializer : Serializer T) : Serializer (SetOrKeep T) := λ value,
  match value with
  | SOK_Set value => write_seq [Ok [0]; inner_serializer value]
  | SOK_Keep => Ok [1]
  end.
Definition SetOrKeepDeserializer {T} (inner_deserializer : Parser T) : Parser (SetOrKeep T) := λ buffer,
  '(b, rest0) ← take_byte buffer;
  if b =? 0 then '(value, rest) ← inner_deserializer rest0; Some (SOK_Set value, rest)
  else if b =? 1 then Some (SOK_Keep, rest0)
  else None.

(** ** Maps with keys *)

(** [collect] into a [BTreeMap]: the last of several entries with a key is kept. *)
Definition map_of_entries {A} (l : list (list N * A)) : gmap (list N) A := list_to_map (reverse l).

Definition DatastoreSerializer : Serializer Datastore := λ value,
  let entry_count := N.of_nat (size value) in
  if entry_count <=? u64_max then
    write_seq (VarIntSerializer U64 entry_count
      :: (mjoin ((λ '(key, value), [VecU8Serializer key; VecU8Serializer value]) <$> sorted_entries value)))
  else Err (SerializeGeneralError "too many entries in ConsensusLedgerSubset").
Definition DatastoreDeserializer (max_datastore_entry_count max_datastore_key_length max_datastore_value_length : N)
    : Parser Datastore :=
  pmap map_of_entries
    (length_count (VarIntDeserializer U64 (up_to max_datastore_entry_count))
       (pair_of (VecU8Deserializer (up_to max_datastore_key_length)) (VecU8Deserializer (up_to max_datastore_value_length)))).

Definition DatastoreUpdateSerializer : Serializer (gmap Key (SetOrDelete (list N))) := λ value,
  let entry_count := N.of_nat (size value) in
  if entry_count <=? u64_max then
    write_seq (VarIntSerializer U64 entry_count
      :: (mjoin ((λ '(key, value), [VecU8Serializer key; SetOrDeleteSerializer VecU8Serializer value])
                 <$> sorted_entries value)))
  else Err (SerializeGeneralError "too many entries in ConsensusLedgerSubset").
Definition DatastoreUpdateDeserializer (max_datastore_key_length max_datastore_value_length max_datastore_entry_count : N)
    : Parser (gmap Key (SetOrDelete (list N))) :=
  pmap map_of_entries
    (length_count (VarIntDeserializer U64 (up_to max_datastore_entry_count))
       (pair_of (VecU8Deserializer (up_to max_datastore_key_length))
          (SetOrDeleteDeserializer (VecU8Deserializer (up_to max_datastore_value_length))))).

(** ** Ledger entries and updates *)

Definition BYTECODE_VERSION : N := 0.
Definition BytecodeSerializer : Serializer Bytecode := λ value,
  write_seq [VarIntSerializer U64 BYTECODE_VERSION; VecU8Serializer value].
Definition BytecodeDeserializer (max_bytecode_size : N) : Parser Bytecode := λ buffer,
  '(_, rest) ← VarIntDeserializer U64 any_u64 buffer;
  VecU8Deserializer (up_to max_bytecode_size) rest.

Definition LedgerEntrySerializer : Serializer LedgerEntry := λ value,
  write_seq [AmountSerializer (le_balance value); BytecodeSerializer (le_bytecode value);
             DatastoreSerializer (le_datastore value)].
Definition LedgerEntryDeserializer
    (max_datastore_entry_count max_datastore_key_length max_datastore_value_length max_bytecode_size : N)
    : Parser LedgerEntry := λ buffer,
  '(balance, rest) ← AmountDeserializer (Included 0) (Included u64_max) buffer;
  '(bytecode, rest) ← BytecodeDeserializer max_bytecode_size rest;
  '(datastore, rest) ← DatastoreDeserializer max_datastore_entry_count max_datastore_key_length
                         max_datastore_value_length rest;
  Some (MkLedgerEntry balance bytecode datastore, rest).

Definition LedgerEntryUpdateSerializer : Serializer LedgerEntryUpdate := λ value,
  write_seq [SetOrKeepSerializer AmountSerializer (lu_balance value);
             SetOrKeepSerializer BytecodeSerializer (lu_bytecode value);
             DatastoreUpdateSerializer (lu_datastore value)].
Definition LedgerEntryUpdateDeserializer
    (max_datastore_key_length max_datastore_value_length max_datastore_entry_count max_bytecode_size : N)
    : Parser LedgerEntryUpdate := λ buffer,
  '(balance, rest) ← SetOrKeepDeserializer (AmountDeserializer (Included 0) (Included u64_max)) buffer;
  '(bytecode, rest) ← SetOrKeepDeserializer (BytecodeDeserializer max_bytecode_size) rest;
  '(datastore, rest) ← DatastoreUpdateDeserializer max_datastore_key_length max_datastore_value_length
                         max_datastore_entry_count rest;
  Some (MkLedgerEntryUpdate balance bytecode datastore, rest).

(** ** Keys of the ledger *)

Inductive KeyType : Type := KT_VERSION | KT_BALANCE | KT_BYTECODE | KT_DATASTORE (data : Bytes).
Record LedgerKey : Type := MkLedgerKey { key_type : KeyType; key_address : Address }.

(** ["ledger/"] *)
Definition LEDGER_PREFIX : Bytes := [108; 101; 100; 103; 101; 114; 47].
Definition KEY_VERSION : N := 0.
Definition VERSION_IDENT : N := 0.
Definition BALANCE_IDENT : N := 1.
Definition BYTECODE_IDENT : N := 2.
Definition DATASTORE_IDENT : N := 3.

Definition KeyTypeSerializer (with_datastore_key_length : bool) : Serializer KeyType := λ value,
  match value with
  | KT_VERSION => Ok [VERSION_IDENT]
  | KT_BALANCE => Ok [BALANCE_IDENT]
  | KT_BYTECODE => Ok [BYTECODE_IDENT]
  | KT_DATASTORE data =>
      write_seq [Ok [DATASTORE_IDENT]; if with_datastore_key_length then VecU8Serializer data else Ok data]
  end.
Definition KeyTypeDeserializer (max_datastore_key_length : N) (with_datastore_key_length : bool) : Parser KeyType := λ input,
  '(key_type, rest) ← take_byte input;
  if key_type =? BALANCE_IDENT then Some (KT_BALANCE, rest)
  else if key_type =? BYTECODE_IDENT then Some (KT_BYTECODE, rest)
  else if key_type =? DATASTORE_IDENT then
    if with_datastore_key_length then
      '(data, rest) ← VecU8Deserializer (up_to max_datastore_key_length) rest; Some (KT_DATASTORE data, rest)
    else Some (KT_DATASTORE rest, [])
  else if key_type =? VERSION_IDENT then Some (KT_VERSION, rest)
  else None.

Definition KeySerializer (with_datastore_key_length : bool) : Serializer LedgerKey := λ value,
  write_seq [Ok LEDGER_PREFIX; VarIntSerializer U64 KEY_VERSION; AddressSerializer (key_address value);
             KeyTypeSerializer with_datastore_key_length (key_type value)].
Definition KeyDeserializer (max_datastore_key_length : N) (with_datastore_key_length : bool) : Parser LedgerKey := λ buffer,
  '(_, after_prefix) ← take_bytes (N.of_nat (length LEDGER_PREFIX)) buffer;
  '(version, rest) ← VarIntDeserializer U64 any_u64 after_prefix;
  if version =? KEY_VERSION then
    '(address, rest) ← AddressDeserializer rest;
    '(key_type, rest) ← KeyTypeDeserializer max_datastore_key_length with_datastore_key_length rest;
    Some (MkLedgerKey key_type address, rest)
  else None.

Definition datastore_prefix_from_address (address : Address) (prefix : Bytes) : outcome SerializeError Bytes :=
  write_seq [Ok LEDGER_PREFIX; VarIntSerializer U64 KEY_VERSION; AddressSerializer address;
             Ok [DATASTORE_IDENT]; Ok prefix].

Definition u64_varint_length (value : N) : N :=
  let bits := N.size value in
  if bits =? 0 then 1 else (bits + 6) / 7.
Definition max_ledger_db_key_length (max_datastore_key_length : N) : N :=
  N.of_nat (length LEDGER_PREFIX) + u64_varint_length KEY_VERSION + 2 * u64_varint_length u64_max
  + HASH_SIZE_BYTES + 1 + max_datastore_key_length.

(** ** Cursors *)

Definition StreamingStepSerializer {T} (data_serializer : Serializer T) : Serializer (StreamingStep T) := λ value,
  match value with
  | Started => VarIntSerializer U64 0
  | Ongoing data => write_seq [VarIntSerializer U64 1; data_serializer data]
  | Finished opt_data => write_seq [VarIntSerializer U64 2; OptionSerializer data_serializer opt_data]
  end.
Definition StreamingStepDeserializer {T} (data_deser : Parser T) : Parser (StreamingStep T) := λ input,
  '(ident, rest) ← VarIntDeserializer U64 any_u64 input;
  if ident =? 0 then Some (Started, rest)
  else if ident =? 1 then pmap Ongoing data_deser rest
  else if ident =? 2 then pmap Finished (OptionDeserializer data_deser) rest
  else None.

(** ** Texts *)

Context `{!VerifyingKey} `{!Base58}.

Definition user_address_to_string (addr : UserAddress) : string :=
  match addr with
  | UserAddressV0 hash => String "A"%char (String "U"%char (bs58_encode_check (varint_encode U64 0 ++ to_be_bytes 32 hash)))
  end.
Definition sc_address_to_string (addr : SCAddress) : string :=
  match addr with
  | SCAddressV0 hash => String "A"%char (String "S"%char (bs58_encode_check (varint_encode U64 0 ++ to_be_bytes 32 hash)))
  end.
Definition address_to_string (addr : Address) : string :=
  match addr with
  | User addr => user_address_to_string addr
  | SC addr => sc_address_to_string addr
  end.
(** After the prefix: the version, then exactly the bytes of the hash. *)
Definition hash_from_str (s : string) : option Hash :=
  decoded ← bs58_decode_check s;
  rest ← version_from_bytes decoded;
  if (N.of_nat (length rest) =? HASH_SIZE_BYTES)%N then Some (from_be_bytes rest) else None.
Definition address_from_str (s : string) : option Address :=
  match s with
  | String "A"%char (String "U"%char s) => (λ h, User (UserAddressV0 h)) <$> hash_from_str s
  | String "A"%char (String "S"%char s) => (λ h, SC (SCAddressV0 h)) <$> hash_from_str s
  | _ => None
  end.

Definition block_id_to_string (id : BlockId) : string :=
  match id with BlockIdV0 hash => String "B"%char (bs58_encode_check (varint_encode U64 0 ++ to_be_bytes 32 hash)) end.
Definition operation_id_to_string (id : OperationId) : string :=
  match id with OperationIdV0 hash => String "O"%char (bs58_encode_check (varint_encode U64 0 ++ to_be_bytes 32 hash)) end.
Definition endorsement_id_to_string (id : EndorsementId) : string :=
  match id with EndorsementIdV0 hash => String "E"%char (bs58_encode_check (varint_encode U64 0 ++ to_be_bytes 32 hash)) end.
(** After the prefix: the bytes of an identifier and nothing else. *)
Definition id_from_str {A} (deserializer : Parser A) (s : string) : option A :=
  decoded ← bs58_decode_check s;
  '(id, rest) ← deserializer decoded;
  match rest with [] => Some id | _ => None end.
Definition block_id_from_str (s : string) : option BlockId :=
  match s with String "B"%char s => id_from_str BlockIdDeserializer s | _ => None end.
Definition operation_id_from_str (s : string) : option OperationId :=
  match s with String "O"%char s => id_from_str OperationIdDeserializer s | _ => None end.
Definition endorsement_id_from_str (s : string) : option EndorsementId :=
  match s with String "E"%char s => id_from_str EndorsementIdDeserializer s | _ => None end.

Definition public_key_to_string (pk : PublicKey) : string := String "P"%char (bs58_encode_check (public_key_to_bytes pk)).
Definition public_key_from_str (s : string) : option PublicKey :=
  match s with
  | String "P"%char s => decoded ← bs58_decode_check s; public_key_from_bytes decoded
  | _ => None
  end.
Definition signature_to_string (s : Signature) : string := bs58_encode_check (signature_to_bytes s).
Definition signature_from_str (s : string) : option Signature :=
  decoded ← bs58_decode_check s; signature_from_bytes decoded.
End values.

Arguments SlotSerializer : simpl never.
Arguments SlotDeserializer : simpl never.
Arguments AmountSerializer : simpl never.
Arguments AmountDeserializer : simpl never.
Arguments HashSerializer : simpl never.
Arguments HashDeserializer : simpl never.
Arguments BlockIdSerializer : simpl never.
Arguments BlockIdDeserializer : simpl never.
Arguments OperationIdSerializer : simpl never.
Arguments OperationIdDeserializer : simpl never.
Arguments EndorsementIdDeserializer : simpl never.
Arguments UserAddressSerializer : simpl never.
Arguments SCAddressSerializer : simpl never.
Arguments AddressSerializer : simpl never.
Arguments UserAddressDeserializer : simpl never.
Arguments SCAddressDeserializer : simpl never.
Arguments AddressDeserializer : simpl never.
Arguments PublicKeyDeserializer : simpl never.
Arguments SignatureDeserializer : simpl never.
Arguments VersionSerializer : simpl never.
Arguments VersionDeserializer : simpl never.
Arguments SetUpdateOrDeleteSerializer : simpl never.
Arguments SetUpdateOrDeleteDeserializer : simpl never.
Arguments SetOrDeleteSerializer : simpl never.
Arguments SetOrDeleteDeserializer : simpl never.
Arguments SetOrKeepSerializer : simpl never.
Arguments SetOrKeepDeserializer : simpl never.
Arguments DatastoreSerializer : simpl never.
Arguments DatastoreDeserializer : simpl never.
Arguments DatastoreUpdateSerializer : simpl never.
Arguments DatastoreUpdateDeserializer : simpl never.
Arguments BytecodeSerializer : simpl never.
Arguments BytecodeDeserializer : simpl never.
Arguments LedgerEntrySerializer : simpl never.
Arguments LedgerEntryDeserializer : simpl never.
Arguments LedgerEntryUpdateSerializer : simpl never.
Arguments LedgerEntryUpdateDeserializer : simpl never.
Arguments KeyTypeSerializer : simpl never.
Arguments KeyTypeDeserializer : simpl never.
Arguments KeySerializer : simpl never.
Arguments KeyDeserializer : simpl never.
Arguments StreamingStepSerializer : simpl never.
Arguments StreamingStepDeserializer : simpl never.
#[global] Typeclasses Opaque
  SlotSerializer SlotDeserializer AmountSerializer AmountDeserializer HashSerializer HashDeserializer
  BlockIdSerializer BlockIdDeserializer OperationIdSerializer OperationIdDeserializer
  EndorsementIdDeserializer UserAddressSerializer SCAddressSerializer AddressSerializer
  UserAddressDeserializer SCAddressDeserializer AddressDeserializer PublicKeyDeserializer
  SignatureDeserializer VersionSerializer VersionDeserializer SetUpdateOrDeleteSerializer
  SetUpdateOrDeleteDeserializer SetOrDeleteSerializer SetOrDeleteDeserializer SetOrKeepSerializer
  SetOrKeepDeserializer DatastoreSerializer DatastoreDeserializer DatastoreUpdateSerializer
  DatastoreUpdateDeserializer BytecodeSerializer BytecodeDeserializer LedgerEntrySerializer
  LedgerEntryDeserializer LedgerEntryUpdateSerializer LedgerEntryUpdateDeserializer KeyTypeSerializer
  KeyTypeDeserializer KeySerializer KeyDeserializer StreamingStepSerializer StreamingStepDeserializer.
