(* ===== verification/FormatFacts.v ===== *)
(** * The formats of values are exact

    Every value within the limits of its deserializer is written so that it is read
    back, and what is read is within the limits; most formats are canonical. *)

From Stdlib Require Import Ascii.
From S2P Require Import Prelude Slots OrdMap Keys KeyFacts Models Ledger Wire WireFacts Formats.

Open Scope N_scope.

Lemma to_from_be_bytes v : is_bytes v → to_be_bytes (length v) (from_be_bytes v) = v.
Proof.
  induction v as [|a v IH]; [done|]. intros [Ha Hv]%is_bytes_cons. cbn [length to_be_bytes].
  pose proof (from_be_bytes_bound v Hv) as Hb. rewrite from_be_bytes_cons. f_equal.
  - rewrite N.div_add_l, N.div_small, N.add_0_r by lia. by apply N.mod_small.
  - etrans; [|exact (IH Hv)]. rewrite <-to_be_bytes_mod, N.add_comm, N.Div0.mod_add. apply to_be_bytes_mod.
Qed.

Lemma in_range_up_to max n : in_range (up_to max) n = true ↔ n ≤ max.
Proof. unfold up_to. rewrite in_range_included. lia. Qed.
Lemma in_range_below max n : in_range (below max) n = true ↔ n < max.
Proof. unfold below. rewrite in_range_excluded. lia. Qed.
Lemma in_any_u64 n : in_range any_u64 n = true ↔ n ≤ u64_max.
Proof. apply (in_range_up_to u64_max). Qed.
Lemma in_any_u32 n : in_range any_u32 n = true ↔ n ≤ u32_max.
Proof. apply (in_range_up_to u32_max). Qed.

(** A hash is 32 bytes. *)
Definition hash_ok (h : Hash) : Prop := h < 256 ^ 32.

Lemma wire_be_bytes (n : nat) :
  Wire (λ h, Ok (to_be_bytes n h)) (pmap from_be_bytes (take_bytes (N.of_nat n))) (λ h, h < 256 ^ N.of_nat n).
Proof.
  apply (wire_map (λ v, Ok v) (take_bytes (N.of_nat n)) _ from_be_bytes (to_be_bytes n) _ (wire_bytes (N.of_nat n))).
  - intros h Hh. rewrite from_to_be_bytes, length_to_be_bytes, N.mod_small by done.
    split; [|done]. split; [apply to_be_bytes_bounded|done].
  - intros v [Hv <-]. by apply from_be_bytes_bound.
Qed.
Lemma canonical_be_bytes (n : nat) :
  Canonical (λ h, Ok (to_be_bytes n h)) (pmap from_be_bytes (take_bytes (N.of_nat n))).
Proof.
  apply (canonical_map (λ v, Ok v) (take_bytes (N.of_nat n)) _ from_be_bytes (to_be_bytes n) (wire_bytes (N.of_nat n))).
  - apply canonical_bytes.
  - intros v [Hv Hn]. rewrite <-(to_from_be_bytes v Hv) at 2. f_equal. lia.
Qed.

#[export] Instance Hash_wire : Wire HashSerializer HashDeserializer hash_ok := wire_be_bytes 32.
#[export] Instance Hash_canonical : Canonical HashSerializer HashDeserializer := canonical_be_bytes 32.

Lemma length_hash h b : HashSerializer h = Ok b → length b = 32%nat.
Proof.
  unfold HashSerializer. intros H. assert (b = to_be_bytes 32 h) as -> by congruence. apply length_to_be_bytes.
Qed.

Section facts.
Context `{!Varint} `{VL : !VarintLaws}.

(** ** Slots and amounts *)

Definition slot_ok (range_period range_thread : Bound N * Bound N) (s : Slot) : Prop :=
  (period s ≤ u64_max ∧ in_range range_period (period s) = true)
  ∧ thread s < 256 ∧ in_range range_thread (thread s) = true.

#[export] Instance Slot_wire rp rt : Wire SlotSerializer (SlotDeserializer rp rt) (slot_ok rp rt).
Proof using All.
  unfold SlotDeserializer. split.
  - intros [p t] (Hp & Ht & Hr). unfold SlotSerializer. cbn [write_seq foldr period thread] in *.
    wire_write (wire_read (VarIntSerializer U64) (VarIntDeserializer U64 rp) _ p Hp). wire_reads.
    parse_steps. cbn. by rewrite Hr.
  - intros i s rest Hi Hx. parse_inv Hx. parse_valid. split; [by split|]. by parse_end.
Qed.
#[export] Instance Slot_canonical rp rt : Canonical SlotSerializer (SlotDeserializer rp rt).
Proof using All.
  intros i s rest Hi Hx. unfold SlotDeserializer in Hx. parse_inv Hx. parse_canonical.
  unfold SlotSerializer. cbn in *. canonical_end.
Qed.

#[export] Instance Amount_wire :
  Wire AmountSerializer (AmountDeserializer (Included 0) (Included u64_max)) (λ a, a ≤ u64_max).
Proof using All.
  eapply wire_ext; [|apply VarInt_wire]. intros n. cbn [uint_max]. rewrite in_range_included. lia.
Qed.
#[export] Instance Amount_canonical min max : Canonical AmountSerializer (AmountDeserializer min max).
Proof using All. apply VarInt_canonical. Qed.

(** ** Identifiers and addresses *)

Lemma varint_0 t : varint_encode t 0 = [0].
Proof using All. by apply varint_small. Qed.

Definition versioned_hash_serializer : Serializer Hash := λ h,
  write_seq [VarIntSerializer U64 0; HashSerializer h].

#[export] Instance versioned_hash_canonical range : Canonical versioned_hash_serializer (versioned_hash range).
Proof using All.
  intros i h rest Hi Hx. unfold versioned_hash in Hx. parse_inv Hx. apply N.eqb_eq in Heqb0 as ->.
  parse_canonical. unfold versioned_hash_serializer. cbn [write_seq foldr]. canonical_end.
Qed.
#[export] Instance versioned_hash_wire range :
  in_range range 0 = true → Wire versioned_hash_serializer (versioned_hash range) hash_ok.
Proof using All.
  intros Hr. apply wire_of_canonical; [apply _|..].
  - intros h Hh. unfold versioned_hash_serializer. cbn [write_seq foldr].
    assert (0 ≤ uint_max U64 ∧ in_range range 0 = true) as Hv by (split; [apply N.le_0_l|done]).
    wire_write (wire_read (VarIntSerializer U64) (VarIntDeserializer U64 range) _ 0 Hv).
    wire_write (wire_read HashSerializer HashDeserializer _ h Hh). wire_reads. apply length_hash in HS0. unfold versioned_hash.
    rewrite (proj2 (N.ltb_ge _ _)) by (rewrite !length_app; lia). by parse_steps.
  - intros i h rest Hi Hx. unfold versioned_hash in Hx. parse_inv Hx. by parse_valid.
Qed.
Lemma length_versioned_hash h b : versioned_hash_serializer h = Ok b → (32 ≤ length b)%nat.
Proof using.
  unfold versioned_hash_serializer. cbn [write_seq foldr]. intros Hx. inv_ok. rewrite !length_app.
  match goal with H : HashSerializer _ = Ok _ |- _ => apply length_hash in H; lia end.
Qed.
Lemma zero_in_any : in_range any_u64 0 = true.
Proof using. done. Qed.

#[export] Instance BlockId_wire : Wire BlockIdSerializer BlockIdDeserializer (λ b, hash_ok (get_hash b)).
Proof using All.
  eapply wire_eq; [|apply (wire_map _ _ _ BlockIdV0 get_hash _ (versioned_hash_wire any_u64 zero_in_any))];
    [by intros [h]|by intros [h]|done].
Qed.
#[export] Instance BlockId_canonical : Canonical BlockIdSerializer BlockIdDeserializer.
Proof using All.
  eapply canonical_eq; [|apply (canonical_map _ _ _ BlockIdV0 get_hash (versioned_hash_wire any_u64 zero_in_any))];
    [by intros [h]|apply _|done].
Qed.

Definition operation_hash (o : OperationId) : Hash := match o with OperationIdV0 h => h end.
#[export] Instance OperationId_wire :
  Wire OperationIdSerializer OperationIdDeserializer (λ o, hash_ok (operation_hash o)).
Proof using All.
  eapply wire_eq; [|apply (wire_map _ _ _ OperationIdV0 operation_hash _ (versioned_hash_wire any_u64 zero_in_any))];
    [by intros [h]|by intros [h]|done].
Qed.
#[export] Instance OperationId_canonical : Canonical OperationIdSerializer OperationIdDeserializer.
Proof using All.
  eapply canonical_eq; [|apply (canonical_map _ _ _ OperationIdV0 operation_hash (versioned_hash_wire any_u64 zero_in_any))];
    [by intros [h]|apply _|done].
Qed.

Definition address_ok (a : Address) : Prop :=
  match a with User (UserAddressV0 h) | SC (SCAddressV0 h) => hash_ok h end.

Lemma zero_below : in_range (below u64_max) 0 = true.
Proof using. done. Qed.
Definition user_hash (a : UserAddress) : Hash := match a with UserAddressV0 h => h end.
Definition sc_hash (a : SCAddress) : Hash := match a with SCAddressV0 h => h end.
(** After the type. *)
Definition user_serializer : Serializer UserAddress := λ a, versioned_hash_serializer (user_hash a).
Definition sc_serializer : Serializer SCAddress := λ a, versioned_hash_serializer (sc_hash a).
#[export] Instance user_wire : Wire user_serializer UserAddressDeserializer (λ a, hash_ok (user_hash a)).
Proof using All.
  apply (wire_map _ _ _ UserAddressV0 user_hash _ (versioned_hash_wire _ zero_below)); [by intros [h]|done].
Qed.
#[export] Instance sc_wire : Wire sc_serializer SCAddressDeserializer (λ a, hash_ok (sc_hash a)).
Proof using All.
  apply (wire_map _ _ _ SCAddressV0 sc_hash _ (versioned_hash_wire _ zero_below)); [by intros [h]|done].
Qed.
#[export] Instance user_canonical : Canonical user_serializer UserAddressDeserializer.
Proof using All. apply (canonical_map _ _ _ _ _ (versioned_hash_wire _ zero_below) _). done. Qed.
#[export] Instance sc_canonical : Canonical sc_serializer SCAddressDeserializer.
Proof using All. apply (canonical_map _ _ _ _ _ (versioned_hash_wire _ zero_below) _). done. Qed.

Lemma address_serializer_eq a :
  AddressSerializer a
  = match a with
    | User u => write_seq [VarIntSerializer U64 USER_PREFIX; user_serializer u]
    | SC s => write_seq [VarIntSerializer U64 SC_PREFIX; sc_serializer s]
    end.
Proof using.
  destruct a as [[h]|[h]]; unfold AddressSerializer, UserAddressSerializer, SCAddressSerializer,
    user_serializer, sc_serializer, versioned_hash_serializer, HashSerializer, VarIntSerializer; cbn -[to_be_bytes];
    by rewrite !app_nil_r.
Qed.

#[export] Instance Address_canonical : Canonical AddressSerializer AddressDeserializer.
Proof using All.
  intros i a rest Hi Hx. unfold AddressDeserializer, pmap in Hx. parse_inv Hx; rewrite address_serializer_eq;
    [apply N.eqb_eq in Heqb0 as ->|apply N.eqb_eq in Heqb1 as ->]; parse_canonical; cbn [write_seq foldr]; canonical_end.
Qed.
#[export] Instance Address_wire : Wire AddressSerializer AddressDeserializer address_ok.
Proof using All.
  apply wire_of_canonical; [apply _|..].
  - intros a Ha. rewrite address_serializer_eq. unfold AddressDeserializer.
    assert (∀ p, p ≤ 1 → p ≤ uint_max U64 ∧ in_range (up_to 1) p = true) as Hp.
    { intros p Hp. rewrite in_range_up_to. split; [|done]. etrans; [exact Hp|done]. }
    destruct a as [[h]|[h]]; cbn [write_seq foldr].
    + wire_write (wire_read (VarIntSerializer U64) (VarIntDeserializer U64 (up_to 1)) _ USER_PREFIX (Hp USER_PREFIX ltac:(done))).
      wire_write (@wire_read _ _ _ _ user_wire (UserAddressV0 h) Ha). wire_reads. apply length_versioned_hash in HS0.
      rewrite (proj2 (N.ltb_ge _ _)) by (rewrite !length_app; lia). unfold pmap. by parse_steps.
    + wire_write (wire_read (VarIntSerializer U64) (VarIntDeserializer U64 (up_to 1)) _ SC_PREFIX (Hp SC_PREFIX ltac:(done))).
      wire_write (@wire_read _ _ _ _ sc_wire (SCAddressV0 h) Ha). wire_reads. apply length_versioned_hash in HS0.
      rewrite (proj2 (N.ltb_ge _ _)) by (rewrite !length_app; lia). unfold pmap. by parse_steps.
  - intros i a rest Hi Hx. unfold AddressDeserializer, pmap in Hx. parse_inv Hx; parse_valid;
      match goal with a : UserAddress |- _ => by destruct a | a : SCAddress |- _ => by destruct a end.
Qed.

(** The prefixed bytes are the serialized address. *)
Lemma to_prefixed_bytes_spec a : AddressSerializer a = Ok (to_prefixed_bytes a).
Proof using.
  destruct a as [[h]|[h]]; unfold AddressSerializer, UserAddressSerializer, SCAddressSerializer, VarIntSerializer;
    cbn -[to_be_bytes]; by rewrite app_nil_r.
Qed.

(** The first bits of the hash choose one of the threads. *)
Lemma get_thread_bound a thread_count k :
  thread_count = 2 ^ k → k < 8 → get_thread a thread_count < thread_count.
Proof using.
  intros -> Hk. destruct a as [[h]|[h]]; [|cbn; apply N.neq_0_lt_0, N.pow_nonzero; lia].
  cbn [get_thread user_get_thread]. set (x := default 0 (head (to_be_bytes 32 h))).
  assert (x < 256) as Hx.
  { subst x. pose proof (to_be_bytes_bounded 32 h) as Hb. destruct (to_be_bytes 32 h); [done|].
    by apply Forall_cons in Hb as [? _]. }
  clearbody x. assert (trailing_zeros_u8 (2 ^ k) = k) as ->.
  { assert (k = 0 ∨ k = 1 ∨ k = 2 ∨ k = 3 ∨ k = 4 ∨ k = 5 ∨ k = 6 ∨ k = 7) as Hc by lia. by destruct_or!; subst. }
  case_match; [|apply N.neq_0_lt_0, N.pow_nonzero; lia].
  rewrite N.shiftr_div_pow2. apply N.Div0.div_lt_upper_bound. rewrite <-N.pow_add_r.
  replace (8 - k + k) with 8 by lia. exact Hx.
Qed.

(** ** Keys and signatures *)

Lemma version_from_bytes_spec data rest :
  is_bytes data → version_from_bytes data = Some rest → data = varint_encode U64 0 ++ rest ∧ is_bytes rest.
Proof using All.
  intros Hd Hx. unfold version_from_bytes in Hx. parse_inv Hx. apply N.eqb_eq in Heqb as ->.
  parse_canonical. unfold VarIntSerializer in *. by simplify_eq.
Qed.
Lemma version_from_bytes_app rest : version_from_bytes (varint_encode U64 0 ++ rest) = Some rest.
Proof using All.
  unfold version_from_bytes. assert (0 ≤ uint_max U64 ∧ in_range any_u64 0 = true) as Hv by done.
  destruct (wire_read (VarIntSerializer U64) (VarIntDeserializer U64 any_u64) _ 0 Hv) as (b & [= <-] & _ & HD).
  by rewrite HD.
Qed.

(** The first [n] bytes of the rest, then what follows. *)
Lemma versioned_bytes_spec (n : nat) rest :
  is_bytes rest → (n ≤ length rest)%nat →
  to_be_bytes n (from_be_bytes (take n rest)) = take n rest
  ∧ from_be_bytes (take n rest) < 256 ^ N.of_nat n
  ∧ drop (length (varint_encode U64 0) + n) (varint_encode U64 0 ++ rest) = drop n rest.
Proof using.
  intros Hr Hn. assert (length (take n rest) = n) as Hl by (rewrite length_take; lia).
  pose proof (is_bytes_take n rest Hr) as Ht. split_and!.
  - rewrite <-Hl at 1. by apply to_from_be_bytes.
  - rewrite <-Hl at 2. by apply from_be_bytes_bound.
  - by rewrite <-drop_drop, drop_app_length.
Qed.

Definition public_key_ok `{!VerifyingKey} (pk : PublicKey) : Prop :=
  match pk with PublicKeyV0 key => key < 256 ^ 32 ∧ verifying_key_ok key = true end.
Definition signature_ok (s : Signature) : Prop := match s with SignatureV0 sig => sig < 256 ^ 64 end.

Lemma to_nat_add_len (n : N) : N.to_nat (N.of_nat (length (varint_encode U64 0)) + n) = (length (varint_encode U64 0) + N.to_nat n)%nat.
Proof using. lia. Qed.

#[export] Instance PublicKey_canonical `{!VerifyingKey} :
  Canonical (λ pk, Ok (public_key_to_bytes pk)) PublicKeyDeserializer.
Proof using All.
  intros i pk rest Hi Hx. unfold PublicKeyDeserializer, public_key_from_bytes in Hx.
  destruct (version_from_bytes i) as [r|] eqn:Hv; [|done]. apply version_from_bytes_spec in Hv as [-> Hr]; [|done].
  cbn [mbind option_bind] in Hx. parse_inv Hx. apply N.ltb_ge in Heqb.
  destruct (versioned_bytes_spec 32 r Hr) as (Ht & _ & Hd); [unfold PUBLIC_KEY_SIZE_BYTES in *; lia|].
  eexists. split; [reflexivity|]. cbn [public_key_to_bytes]. unfold public_key_ser_len, VERSION_VARINT_SIZE_BYTES.
  rewrite to_nat_add_len. change (N.to_nat PUBLIC_KEY_SIZE_BYTES) with 32%nat. rewrite Hd, Ht, <-app_assoc. by rewrite take_drop.
Qed.
#[export] Instance PublicKey_wire `{!VerifyingKey} :
  Wire (λ pk, Ok (public_key_to_bytes pk)) PublicKeyDeserializer public_key_ok.
Proof using All.
  apply wire_of_canonical; [apply _|..].
  - intros [key] [Hk Hok]. eexists. split; [reflexivity|]. split.
    { apply is_bytes_app. split; [by apply varint_bytes|apply to_be_bytes_bounded]. }
    intros rest. unfold PublicKeyDeserializer, public_key_from_bytes. cbn [public_key_to_bytes].
    rewrite <-app_assoc, version_from_bytes_app. cbn [mbind option_bind].
    rewrite (proj2 (N.ltb_ge _ _)) by (rewrite length_app, length_to_be_bytes; unfold PUBLIC_KEY_SIZE_BYTES; lia).
    change (N.to_nat PUBLIC_KEY_SIZE_BYTES) with 32%nat. rewrite take_app_length' by (by rewrite length_to_be_bytes).
    rewrite from_to_be_bytes, N.mod_small by done. rewrite Hok. cbn [mbind option_bind].
    unfold public_key_ser_len, VERSION_VARINT_SIZE_BYTES. rewrite to_nat_add_len.
    rewrite <-drop_drop, drop_app_length, drop_app_length' by (by rewrite length_to_be_bytes). done.
  - intros i pk rest Hi Hx. unfold PublicKeyDeserializer, public_key_from_bytes in Hx.
    destruct (version_from_bytes i) as [r|] eqn:Hv; [|done]. apply version_from_bytes_spec in Hv as [-> Hr]; [|done].
    cbn [mbind option_bind] in Hx. parse_inv Hx. apply N.ltb_ge in Heqb.
    destruct (versioned_bytes_spec 32 r Hr) as (_ & Hb & _); [unfold PUBLIC_KEY_SIZE_BYTES in *; lia|]. done.
Qed.

#[export] Instance Signature_canonical : Canonical (λ s, Ok (signature_to_bytes s)) SignatureDeserializer.
Proof using All.
  intros i s rest Hi Hx. unfold SignatureDeserializer, signature_from_bytes in Hx.
  destruct (version_from_bytes i) as [r|] eqn:Hv; [|done]. apply version_from_bytes_spec in Hv as [-> Hr]; [|done].
  cbn [mbind option_bind] in Hx. parse_inv Hx. apply N.ltb_ge in Heqb.
  destruct (versioned_bytes_spec 64 r Hr) as (Ht & _ & Hd); [unfold SIGNATURE_SIZE_BYTES in *; lia|].
  eexists. split; [reflexivity|]. cbn [signature_to_bytes]. unfold signature_ser_len, VERSION_VARINT_SIZE_BYTES.
  rewrite to_nat_add_len. change (N.to_nat SIGNATURE_SIZE_BYTES) with 64%nat. rewrite Hd, Ht, <-app_assoc. by rewrite take_drop.
Qed.
#[export] Instance Signature_wire : Wire (λ s, Ok (signature_to_bytes s)) SignatureDeserializer signature_ok.
Proof using All.
  apply wire_of_canonical; [apply _|..].
  - intros [sig] Hk. eexists. split; [reflexivity|]. split.
    { apply is_bytes_app. split; [by apply varint_bytes|apply to_be_bytes_bounded]. }
    intros rest. unfold SignatureDeserializer, signature_from_bytes. cbn [signature_to_bytes].
    rewrite <-app_assoc, version_from_bytes_app. cbn [mbind option_bind].
    rewrite (proj2 (N.ltb_ge _ _)) by (rewrite length_app, length_to_be_bytes; unfold SIGNATURE_SIZE_BYTES; lia).
    change (N.to_nat SIGNATURE_SIZE_BYTES) with 64%nat. rewrite take_app_length' by (by rewrite length_to_be_bytes).
    rewrite from_to_be_bytes, N.mod_small by done. cbn [mbind option_bind].
    unfold signature_ser_len, VERSION_VARINT_SIZE_BYTES. rewrite to_nat_add_len.
    rewrite <-drop_drop, drop_app_length, drop_app_length' by (by rewrite length_to_be_bytes). done.
  - intros i s rest Hi Hx. unfold SignatureDeserializer, signature_from_bytes in Hx.
    destruct (version_from_bytes i) as [r|] eqn:Hv; [|done]. apply version_from_bytes_spec in Hv as [-> Hr]; [|done].
    cbn [mbind option_bind] in Hx. parse_inv Hx. apply N.ltb_ge in Heqb.
    destruct (versioned_bytes_spec 64 r Hr) as (_ & Hb & _); [unfold SIGNATURE_SIZE_BYTES in *; lia|]. done.
Qed.

(** ** Versions of the program *)

Definition version_ok (v : Version) : Prop :=
  (is_bytes (instance v) ∧ N.of_nat (length (instance v)) = INSTANCE_LEN)
  ∧ forallb is_ascii_uppercase (instance v) = true ∧ major v ≤ u32_max ∧ minor v ≤ u32_max.

#[export] Instance Version_canonical : Canonical VersionSerializer VersionDeserializer.
Proof using All.
  intros i v rest Hi Hx. unfold VersionDeserializer in Hx. parse_inv Hx.
  match goal with HT : take_bytes _ _ = _ |- _ => apply take_bytes_Some in HT as [-> _] end.
  apply is_bytes_app in Hi as [? Hi]. parse_canonical. unfold VersionSerializer. cbn. canonical_end.
Qed.
#[export] Instance Version_wire : Wire VersionSerializer VersionDeserializer version_ok.
Proof using All.
  apply wire_of_canonical; [apply _|..].
  - intros [v a b] ([Hv Hn] & Hu & Ha & Hb). cbn [instance major minor] in *. unfold VersionSerializer. cbn.
    assert (∀ n, n ≤ u32_max → n ≤ uint_max U32 ∧ in_range any_u32 n = true) as Hr
      by (intros n Hle; by rewrite in_any_u32).
    wire_write (wire_read (VarIntSerializer U32) (VarIntDeserializer U32 any_u32) _ a (Hr a Ha)).
    wire_write (wire_read (VarIntSerializer U32) (VarIntDeserializer U32 any_u32) _ b (Hr b Hb)).
    wire_reads. unfold VersionDeserializer. rewrite take_bytes_app by done. cbn [mbind option_bind]. rewrite Hu. by parse_steps.
  - intros i v rest Hi Hx. unfold VersionDeserializer in Hx. parse_inv Hx.
    match goal with HT : take_bytes _ _ = _ |- _ => apply take_bytes_Some in HT as [-> ?] end.
    apply is_bytes_app in Hi as [? Hi]. parse_valid. unfold version_ok. cbn. by rewrite !in_any_u32 in *; destruct_and!.
Qed.

(** ** Changes to a value *)

#[export] Instance SetUpdateOrDelete_wire {T V} (ST : Serializer T) DT PT (SV : Serializer V) DV PV :
  Wire ST DT PT → Wire SV DV PV →
  Wire (SetUpdateOrDeleteSerializer ST SV) (SetUpdateOrDeleteDeserializer DT DV)
    (λ c, match c with SUD_Set t => PT t | SUD_Update v => PV v | SUD_Delete => True end).
Proof using.
  intros WT WV. unfold SetUpdateOrDeleteDeserializer. split.
  - intros [t|v|] Hx; unfold SetUpdateOrDeleteSerializer; cbn [write_seq foldr].
    + wire_write (wire_read ST DT PT t Hx). wire_reads. cbn. by parse_steps.
    + wire_write (wire_read SV DV PV v Hx). wire_reads. cbn. by parse_steps.
    + by wire_reads.
  - intros i c rest Hi Hx. parse_inv Hx; parse_valid; (split; [done|]); by parse_end.
Qed.
#[export] Instance SetUpdateOrDelete_canonical {T V} (ST : Serializer T) DT (SV : Serializer V) DV :
  Canonical ST DT → Canonical SV DV →
  Canonical (SetUpdateOrDeleteSerializer ST SV) (SetUpdateOrDeleteDeserializer DT DV).
Proof using.
  intros CT CV i c rest Hi Hx. unfold SetUpdateOrDeleteDeserializer in Hx. parse_inv Hx; parse_canonical;
    repeat match goal with E : (_ =? _) = true |- _ => apply N.eqb_eq in E as -> end;
    unfold SetUpdateOrDeleteSerializer; cbn [write_seq foldr]; canonical_end.
Qed.

#[export] Instance SetOrDelete_wire {T} (ST : Serializer T) DT PT :
  Wire ST DT PT →
  Wire (SetOrDeleteSerializer ST) (SetOrDeleteDeserializer DT)
    (λ c, match c with SOD_Set t => PT t | SOD_Delete => True end).
Proof using.
  intros WT. unfold SetOrDeleteDeserializer. split.
  - intros [t|] Hx; unfold SetOrDeleteSerializer; cbn [write_seq foldr].
    + wire_write (wire_read ST DT PT t Hx). wire_reads. cbn. by parse_steps.
    + by wire_reads.
  - intros i c rest Hi Hx. parse_inv Hx; parse_valid; (split; [done|]); by parse_end.
Qed.
#[export] Instance SetOrDelete_canonical {T} (ST : Serializer T) DT :
  Canonical ST DT → Canonical (SetOrDeleteSerializer ST) (SetOrDeleteDeserializer DT).
Proof using.
  intros CT i c rest Hi Hx. unfold SetOrDeleteDeserializer in Hx. parse_inv Hx; parse_canonical;
    repeat match goal with E : (_ =? _) = true |- _ => apply N.eqb_eq in E as -> end;
    unfold SetOrDeleteSerializer; cbn [write_seq foldr]; canonical_end.
Qed.

#[export] Instance SetOrKeep_wire {T} (ST : Serializer T) DT PT :
  Wire ST DT PT →
  Wire (SetOrKeepSerializer ST) (SetOrKeepDeserializer DT)
    (λ c, match c with SOK_Set t => PT t | SOK_Keep => True end).
Proof using.
  intros WT. unfold SetOrKeepDeserializer. split.
  - intros [t|] Hx; unfold SetOrKeepSerializer; cbn [write_seq foldr].
    + wire_write (wire_read ST DT PT t Hx). wire_reads. cbn. by parse_steps.
    + by wire_reads.
  - intros i c rest Hi Hx. parse_inv Hx; parse_valid; (split; [done|]); by parse_end.
Qed.

(** ** Maps with keys *)

Lemma write_seq_app l1 l2 : write_seq (l1 ++ l2) = (b1 ← write_seq l1; b2 ← write_seq l2; Ok (b1 ++ b2)).
Proof using.
  induction l1 as [|m l1 IH]; cbn.
  - by destruct (write_seq l2).
  - destruct m as [b| | |]; cbn; [|done..]. rewrite IH. destruct (write_seq l1) as [b1| | |]; cbn; [|done..].
    destruct (write_seq l2) as [b2| | |]; cbn; [|done..]. by rewrite app_assoc.
Qed.
Lemma write_seq_join ls : write_seq (mjoin ls) = write_seq (write_seq <$> ls).
Proof using.
  induction ls as [|l ls IH]; [done|].
  change (write_seq (l ++ mjoin ls) = (b ← write_seq l; bs ← write_seq (write_seq <$> ls); Ok (b ++ bs))).
  by rewrite write_seq_app, IH.
Qed.

Lemma map_of_sorted_entries {A} (m : gmap (list N) A) : map_of_entries (sorted_entries m) = m.
Proof using.
  apply map_eq. intros k. apply option_eq. intros v. unfold map_of_entries.
  rewrite <-elem_of_list_to_map, elem_of_reverse, elem_of_sorted_entries; [done|].
  rewrite fmap_reverse, reverse_Permutation. apply sorted_NoDup, sorted_entries_sorted.
Qed.
Lemma map_of_entries_Forall {A} (P : list N → A → Prop) l :
  Forall (λ e, P e.1 e.2) l → map_Forall P (map_of_entries l).
Proof using.
  intros Hl k v Hk. apply elem_of_list_to_map_2 in Hk. rewrite elem_of_reverse in Hk.
  rewrite Forall_forall in Hl. by apply (Hl (k, v)).
Qed.
Lemma size_map_of_entries {A} (l : list (list N * A)) : (size (map_of_entries l) ≤ length l)%nat.
Proof using.
  unfold map_of_entries. rewrite <-(length_reverse l). induction (reverse l) as [|[k v] l' IH]; cbn; [by rewrite map_size_empty|].
  destruct ((list_to_map l' : gmap (list N) A) !! k) eqn:Hk; [rewrite map_size_insert_Some by eauto|rewrite map_size_insert_None by done]; lia.
Qed.

(** The entries of a map in key order, each a key and a value, after their number. *)
Section entries.
Context {A : Type} (SA : Serializer A) (DA : Parser A) (PA : A → Prop) `{!Wire SA DA PA}.

Definition entries_serializer : Serializer (gmap (list N) A) := λ m,
  if N.of_nat (size m) <=? u64_max then
    write_seq (VarIntSerializer U64 (N.of_nat (size m))
      :: mjoin ((λ '(k, v), [VecU8Serializer k; SA v]) <$> sorted_entries m))
  else Err (SerializeGeneralError "too many entries in ConsensusLedgerSubset").
Definition entries_deserializer (max_count max_key : N) : Parser (gmap (list N) A) :=
  pmap map_of_entries
    (length_count (VarIntDeserializer U64 (up_to max_count)) (pair_of (VecU8Deserializer (up_to max_key)) DA)).
Definition entries_ok (max_count max_key : N) (m : gmap (list N) A) : Prop :=
  N.of_nat (size m) ≤ u64_max ∧ N.of_nat (size m) ≤ max_count
  ∧ map_Forall (λ k v, (is_bytes k ∧ N.of_nat (length k) ≤ u64_max ∧ N.of_nat (length k) ≤ max_key) ∧ PA v) m.

Lemma length_sorted_entries (m : gmap (list N) A) : length (sorted_entries m) = size m.
Proof using.
  rewrite <-(length_fmap fst), fst_sorted_entries. unfold sorted_keys.
  by rewrite (Permutation_length (sort_unstable_perm _)), <-size_dom.
Qed.

Lemma entries_wire max_count max_key :
  Wire entries_serializer (entries_deserializer max_count max_key) (entries_ok max_count max_key).
Proof using All.
  pose proof (wire_pair VecU8Serializer (VecU8Deserializer (up_to max_key)) _ SA DA PA _ _) as We.
  unfold entries_deserializer, pmap, length_count. split.
  - intros m (Hs & Hc & Hm). unfold entries_serializer. rewrite (proj2 (N.leb_le _ _)) by done.
    cbn [write_seq foldr]. assert (in_range (up_to max_count) (N.of_nat (size m)) = true) as Hr by (by rewrite in_range_up_to).
    wire_write (wire_read (VarIntSerializer U64) (VarIntDeserializer U64 (up_to max_count)) _ _ (conj Hs Hr)).
    assert (Forall (λ e, (is_bytes e.1 ∧ N.of_nat (length e.1) ≤ u64_max ∧ in_range (up_to max_key) (N.of_nat (length e.1)) = true)
                         ∧ PA e.2) (sorted_entries m)) as Hl.
    { apply Forall_forall. intros [k v] Hkv%elem_of_sorted_entries. rewrite in_range_up_to. by apply (Hm k v). }
    destruct (count_read _ _ _ _ Hl) as (b' & HS' & Hb' & HD').
    change (foldr _ _ ?l) with (write_seq l).
    rewrite write_seq_join, <-list_fmap_compose.
    assert (write_seq ∘ (λ '(k, v), [VecU8Serializer k; SA v]) <$> sorted_entries m
            = (λ x, write_seq [VecU8Serializer x.1; SA x.2]) <$> sorted_entries m) as ->
      by (apply list_fmap_ext; by intros ? [k v] _).
    rewrite HS'. cbn [mbind outcome_bind]. wire_reads. rewrite HD. cbn [mbind option_bind].
    rewrite Nat2N.id, <-length_sorted_entries, HD'. cbn. by rewrite map_of_sorted_entries.
  - intros i m rest Hi Hx. parse_inv Hx. match goal with HC : _ = Some (x, rest) |- _ => parse_inv HC end. parse_valid.
    match goal with HC : count _ _ _ = _ |- _ => apply (count_valid _ _ _) in HC as (Hn & Hl & ? & -> & HD'); [|done] end.
    pose proof (size_map_of_entries x) as Hsz. rewrite in_range_up_to in *. destruct_and!. cbn [uint_max] in *.
    split; [|by parse_end]. split_and!; [lia|lia|]. apply map_of_entries_Forall.
    eapply Forall_impl; [exact Hl|]. intros e. cbn. by rewrite in_range_up_to.
Qed.
End entries.

Definition vec_ok (max : N) (v : list N) : Prop :=
  is_bytes v ∧ N.of_nat (length v) ≤ u64_max ∧ N.of_nat (length v) ≤ max.
#[export] Instance vec_wire max : Wire VecU8Serializer (VecU8Deserializer (up_to max)) (vec_ok max).
Proof using All.
  eapply wire_ext; [|apply VecU8_wire]. intros v. unfold vec_ok. by rewrite in_range_up_to.
Qed.

Definition datastore_ok (max_count max_key max_value : N) : Datastore → Prop := entries_ok (vec_ok max_value) max_count max_key.
#[export] Instance Datastore_wire max_count max_key max_value :
  Wire DatastoreSerializer (DatastoreDeserializer max_count max_key max_value) (datastore_ok max_count max_key max_value).
Proof using All. apply (entries_wire VecU8Serializer _ _). Qed.

Definition updates_ok (max_key max_value max_count : N) : gmap Key (SetOrDelete (list N)) → Prop :=
  entries_ok (λ c, match c with SOD_Set v => vec_ok max_value v | SOD_Delete => True end) max_count max_key.
#[export] Instance DatastoreUpdate_wire max_key max_value max_count :
  Wire DatastoreUpdateSerializer (DatastoreUpdateDeserializer max_key max_value max_count) (updates_ok max_key max_value max_count).
Proof using All. apply (entries_wire (SetOrDeleteSerializer VecU8Serializer) _ _). Qed.

(** ** Ledger entries and updates *)

Lemma in_u64 n : n ≤ u64_max → n ≤ uint_max U64 ∧ in_range any_u64 n = true.
Proof using. intros Hn. by rewrite in_any_u64. Qed.

#[export] Instance Bytecode_wire max : Wire BytecodeSerializer (BytecodeDeserializer max) (vec_ok max).
Proof using All.
  unfold BytecodeDeserializer. split.
  - intros v Hv. unfold BytecodeSerializer. cbn [write_seq foldr].
    wire_write (wire_read (VarIntSerializer U64) (VarIntDeserializer U64 any_u64) _ BYTECODE_VERSION (in_u64 BYTECODE_VERSION ltac:(done))).
    wire_write (wire_read _ (VecU8Deserializer (up_to max)) _ v Hv). wire_reads. by parse_steps.
  - intros i v rest Hi Hx. parse_inv Hx. parse_valid. split; [done|by parse_end].
Qed.

Definition entry_ok (max_count max_key max_value max_bytecode : N) (e : LedgerEntry) : Prop :=
  le_balance e ≤ u64_max ∧ vec_ok max_bytecode (le_bytecode e) ∧ datastore_ok max_count max_key max_value (le_datastore e).
#[export] Instance LedgerEntry_wire max_count max_key max_value max_bytecode :
  Wire LedgerEntrySerializer (LedgerEntryDeserializer max_count max_key max_value max_bytecode)
    (entry_ok max_count max_key max_value max_bytecode).
Proof using All.
  unfold LedgerEntryDeserializer. split.
  - intros [a b d] (Ha & Hb & Hd). cbn in Ha, Hb, Hd. unfold LedgerEntrySerializer. cbn.
    wire_write (@wire_read _ _ _ _ Amount_wire a Ha).
    wire_write (@wire_read _ _ _ _ (Bytecode_wire max_bytecode) b Hb).
    wire_write (@wire_read _ _ _ _ (Datastore_wire max_count max_key max_value) d Hd). wire_reads. by parse_steps.
  - intros i e rest Hi Hx. parse_inv Hx. parse_valid. split; [done|by parse_end].
Qed.

Definition update_ok (max_key max_value max_count max_bytecode : N) (u : LedgerEntryUpdate) : Prop :=
  match lu_balance u with SOK_Set a => a ≤ u64_max | SOK_Keep => True end
  ∧ match lu_bytecode u with SOK_Set b => vec_ok max_bytecode b | SOK_Keep => True end
  ∧ updates_ok max_key max_value max_count (lu_datastore u).
#[export] Instance LedgerEntryUpdate_wire max_key max_value max_count max_bytecode :
  Wire LedgerEntryUpdateSerializer (LedgerEntryUpdateDeserializer max_key max_value max_count max_bytecode)
    (update_ok max_key max_value max_count max_bytecode).
Proof using All.
  unfold LedgerEntryUpdateDeserializer. split.
  - intros [a b d] (Ha & Hb & Hd). cbn [lu_balance lu_bytecode lu_datastore] in Ha, Hb, Hd. unfold LedgerEntryUpdateSerializer. cbn.
    wire_write (@wire_read _ _ _ _ (SetOrKeep_wire _ _ _ Amount_wire) a Ha).
    wire_write (@wire_read _ _ _ _ (SetOrKeep_wire _ _ _ (Bytecode_wire max_bytecode)) b Hb).
    wire_write (@wire_read _ _ _ _ (DatastoreUpdate_wire max_key max_value max_count) d Hd). wire_reads. by parse_steps.
  - intros i u rest Hi Hx. parse_inv Hx. parse_valid. split; [done|by parse_end].
Qed.

(** ** Keys of the ledger *)

Definition key_type_ok (max : N) (t : KeyType) : Prop := match t with KT_DATASTORE data => vec_ok max data | _ => True end.
#[export] Instance KeyType_wire max : Wire (KeyTypeSerializer true) (KeyTypeDeserializer max true) (key_type_ok max).
Proof using All.
  unfold KeyTypeDeserializer. split.
  - intros [| | |data] Hk; unfold KeyTypeSerializer; cbn [write_seq foldr]; [by wire_reads..|].
    wire_write (wire_read _ (VecU8Deserializer (up_to max)) _ data Hk). wire_reads. cbn. by parse_steps.
  - intros i t rest Hi Hx. parse_inv Hx; parse_valid; (split; [done|by parse_end]).
Qed.
#[export] Instance Key_wire max :
  Wire (KeySerializer true) (KeyDeserializer max true) (λ k, address_ok (key_address k) ∧ key_type_ok max (key_type k)).
Proof using All.
  unfold KeyDeserializer. split.
  - intros [t a] [Ha Ht]. cbn [key_address key_type] in *. unfold KeySerializer. cbn [write_seq foldr key_address key_type].
    wire_write (wire_read (VarIntSerializer U64) (VarIntDeserializer U64 any_u64) _ KEY_VERSION (in_u64 KEY_VERSION ltac:(done))).
    wire_write (wire_read _ AddressDeserializer _ a Ha). wire_write (wire_read _ (KeyTypeDeserializer max true) _ t Ht).
    wire_reads; [by repeat constructor|]. rewrite take_bytes_app by done. by parse_steps.
  - intros i k rest Hi Hx. parse_inv Hx.
    match goal with HT : take_bytes _ _ = _ |- _ => apply take_bytes_Some in HT as [-> Hlen] end.
    apply is_bytes_app in Hi as [? Hi]. parse_valid. split; [done|].
    eexists. split; [by rewrite !app_assoc|]. intros rest'. rewrite <-!app_assoc, take_bytes_app by done. by parse_steps.
Qed.

(** In the database a key is the whole input. *)
Definition key_bytes (k : LedgerKey) : Bytes :=
  LEDGER_PREFIX ++ varint_encode U64 KEY_VERSION ++ to_prefixed_bytes (key_address k)
  ++ match key_type k with
     | KT_VERSION => [VERSION_IDENT]
     | KT_BALANCE => [BALANCE_IDENT]
     | KT_BYTECODE => [BYTECODE_IDENT]
     | KT_DATASTORE data => DATASTORE_IDENT :: data
     end.
Lemma key_serializer_spec k : KeySerializer false k = Ok (key_bytes k).
Proof using.
  destruct k as [t a]. unfold KeySerializer, key_bytes. cbn [write_seq foldr key_address key_type].
  rewrite to_prefixed_bytes_spec. unfold KeyTypeSerializer, VarIntSerializer.
  destruct t; cbn -[LEDGER_PREFIX]; by rewrite ?app_nil_r.
Qed.
Lemma key_deserializer_spec max k : address_ok (key_address k) → KeyDeserializer max false (key_bytes k) = Some (k, []).
Proof using All.
  intros Ha. destruct k as [t a]. unfold KeyDeserializer, key_bytes. cbn [key_address key_type] in *.
  rewrite take_bytes_app by done. cbn [mbind option_bind].
  destruct (wire_read (VarIntSerializer U64) (VarIntDeserializer U64 any_u64) _ KEY_VERSION (in_u64 KEY_VERSION ltac:(done)))
    as (b & [= <-] & _ & HD). rewrite HD. cbn [mbind option_bind].
  change (KEY_VERSION =? KEY_VERSION) with true. cbv iota.
  destruct (wire_read AddressSerializer AddressDeserializer _ a Ha) as (b' & HS & _ & HD').
  rewrite to_prefixed_bytes_spec in HS. injection HS as <-. rewrite HD'. cbn [mbind option_bind].
  by destruct t.
Qed.

(** ** Cursors *)

#[export] Instance StreamingStep_wire {T} (S : Serializer T) D P :
  Wire S D P →
  Wire (StreamingStepSerializer S) (StreamingStepDeserializer D)
    (λ s, match s with Started => True | Ongoing x => P x | Finished o => ∀ x, o = Some x → P x end).
Proof using All.
  intros W. unfold StreamingStepDeserializer, pmap. split.
  - intros [|x|o] Hx; unfold StreamingStepSerializer; cbn [write_seq foldr].
    + wire_write (wire_read (VarIntSerializer U64) (VarIntDeserializer U64 any_u64) _ 0 (in_u64 0 ltac:(done))).
      wire_reads. by parse_steps.
    + wire_write (wire_read (VarIntSerializer U64) (VarIntDeserializer U64 any_u64) _ 1 (in_u64 1 ltac:(done))).
      wire_write (wire_read S D P x Hx). wire_reads. by parse_steps.
    + wire_write (wire_read (VarIntSerializer U64) (VarIntDeserializer U64 any_u64) _ 2 (in_u64 2 ltac:(done))).
      wire_write (@wire_read _ _ _ _ (Option_wire S D P W) o Hx). wire_reads. by parse_steps.
  - intros i s rest Hi Hx. parse_inv Hx; parse_valid; (split; [done|by parse_end]).
Qed.

Lemma u64_varint_length_spec n : n ≤ u64_max → N.of_nat (length (varint_encode U64 n)) = u64_varint_length n.
Proof using All.
  intros Hn. rewrite varint_length by done. unfold u64_varint_length.
  destruct (N.eqb_spec (N.size n) 0) as [->|Hne]; [done|]. apply N.max_r.
  apply N.div_le_lower_bound; lia.
Qed.
Lemma u64_varint_length_mono a b : a ≤ b → u64_varint_length a ≤ u64_varint_length b.
Proof using.
  intros Hab. unfold u64_varint_length.
  assert (N.size a ≤ N.size b) as Hs.
  { destruct (N.eq_dec a 0) as [->|Ha]; [apply N.le_0_l|]. destruct (N.eq_dec b 0) as [->|Hb]; [lia|].
    rewrite !N.size_log2 by done. pose proof (N.log2_le_mono a b Hab). lia. }
  destruct (N.eqb_spec (N.size a) 0), (N.eqb_spec (N.size b) 0); [lia| |lia|].
  - apply N.div_le_lower_bound; lia.
  - apply N.Div0.div_le_mono. lia.
Qed.

(** No key of the ledger is longer than the bound that readers of batches use. *)
Lemma key_bytes_length max k :
  key_type_ok max (key_type k) → N.of_nat (length (key_bytes k)) ≤ max_ledger_db_key_length max.
Proof using All.
  intros Hk. destruct k as [t a]. unfold key_bytes, max_ledger_db_key_length. cbn [key_address key_type] in *.
  pose proof (u64_varint_length_mono 0 u64_max ltac:(done)). pose proof (u64_varint_length_mono 1 u64_max ltac:(done)).
  assert (N.of_nat (length (to_prefixed_bytes a)) ≤ 2 * u64_varint_length u64_max + HASH_SIZE_BYTES) as Ha.
  { destruct a as [[h]|[h]]; cbn [to_prefixed_bytes user_to_prefixed_bytes sc_to_prefixed_bytes];
      rewrite !length_app, length_to_be_bytes, !Nat2N.inj_add, !u64_varint_length_spec by done;
      unfold USER_PREFIX, SC_PREFIX, HASH_SIZE_BYTES; lia. }
  rewrite !length_app, !Nat2N.inj_add, u64_varint_length_spec by done.
  destruct t as [| | |data]; cbn [length]; [lia..|]. destruct Hk as (_ & _ & Hk). lia.
Qed.

(** ** Texts *)

(** What the documentation of [bs58] says: an encoded sequence is decoded. *)
Class Base58Laws `{!Base58} : Prop :=
  bs58_decode_encode : ∀ b, is_bytes b → bs58_decode_check (bs58_encode_check b) = Some b.

Section texts.
Context `{!VerifyingKey} `{!Base58} `{!Base58Laws}.

Lemma versioned_hash_bytes h : is_bytes (varint_encode U64 0 ++ to_be_bytes 32 h).
Proof using VL. apply is_bytes_app. split; [by apply varint_bytes|apply to_be_bytes_bounded]. Qed.

Lemma hash_from_str_spec h :
  hash_ok h → hash_from_str (bs58_encode_check (varint_encode U64 0 ++ to_be_bytes 32 h)) = Some h.
Proof using All.
  intros Hh. unfold hash_from_str. rewrite bs58_decode_encode by apply versioned_hash_bytes.
  cbn [mbind option_bind]. rewrite version_from_bytes_app. cbn [mbind option_bind].
  rewrite length_to_be_bytes. change (N.of_nat 32 =? HASH_SIZE_BYTES) with true. cbv iota.
  by rewrite from_to_be_bytes, N.mod_small.
Qed.
Lemma address_text_roundtrip a : address_ok a → address_from_str (address_to_string a) = Some a.
Proof using All.
  destruct a as [[h]|[h]]; intros Hh; cbn -[hash_from_str to_be_bytes]; by rewrite hash_from_str_spec.
Qed.

Lemma id_from_str_spec {A} (D : Parser A) (f : Hash → A) h :
  D (varint_encode U64 0 ++ to_be_bytes 32 h) = Some (f h, []) →
  id_from_str D (bs58_encode_check (varint_encode U64 0 ++ to_be_bytes 32 h)) = Some (f h).
Proof using All.
  intros HD. unfold id_from_str. rewrite bs58_decode_encode by apply versioned_hash_bytes. cbn [mbind option_bind].
  by rewrite HD.
Qed.
Lemma versioned_hash_read h :
  hash_ok h → versioned_hash any_u64 (varint_encode U64 0 ++ to_be_bytes 32 h) = Some (h, []).
Proof using VL.
  intros Hh. destruct (@wire_read _ _ _ _ (versioned_hash_wire any_u64 zero_in_any) h Hh) as (b & HS & _ & HD).
  unfold versioned_hash_serializer, HashSerializer, VarIntSerializer in HS. cbn -[to_be_bytes] in HS.
  rewrite app_nil_r in HS. assert (b = varint_encode U64 0 ++ to_be_bytes 32 h) as -> by congruence.
  rewrite <-(app_nil_r (_ ++ _)). apply HD.
Qed.
Lemma block_id_text_roundtrip b : hash_ok (get_hash b) → block_id_from_str (block_id_to_string b) = Some b.
Proof using All.
  destruct b as [h]. intros Hh. cbn -[to_be_bytes id_from_str]. apply (id_from_str_spec _ BlockIdV0). unfold BlockIdDeserializer, pmap.
  by rewrite versioned_hash_read.
Qed.
Lemma operation_id_text_roundtrip o :
  hash_ok (operation_hash o) → operation_id_from_str (operation_id_to_string o) = Some o.
Proof using All.
  destruct o as [h]. intros Hh. cbn -[to_be_bytes id_from_str]. apply (id_from_str_spec _ OperationIdV0). unfold OperationIdDeserializer, pmap.
  by rewrite versioned_hash_read.
Qed.
Lemma endorsement_id_text_roundtrip h :
  hash_ok h → endorsement_id_from_str (endorsement_id_to_string (EndorsementIdV0 h)) = Some (EndorsementIdV0 h).
Proof using All.
  intros Hh. cbn -[to_be_bytes id_from_str]. apply (id_from_str_spec _ EndorsementIdV0). unfold EndorsementIdDeserializer, pmap.
  by rewrite versioned_hash_read.
Qed.
Lemma public_key_text_roundtrip pk : public_key_ok pk → public_key_from_str (public_key_to_string pk) = Some pk.
Proof using All.
  intros Hk. cbn. destruct (@wire_read _ _ _ _ PublicKey_wire pk Hk) as (b & [= <-] & Hb & HD).
  rewrite bs58_decode_encode by done. cbn [mbind option_bind]. specialize (HD []). rewrite app_nil_r in HD.
  unfold PublicKeyDeserializer in HD. destruct (public_key_from_bytes (public_key_to_bytes pk)); [|done].
  cbn in HD. by simplify_eq.
Qed.
Lemma signature_text_roundtrip s : signature_ok s → signature_from_str (signature_to_string s) = Some s.
Proof using All.
  intros Hs. unfold signature_from_str, signature_to_string.
  destruct (@wire_read _ _ _ _ Signature_wire s Hs) as (b & [= <-] & Hb & HD).
  rewrite bs58_decode_encode by done. cbn [mbind option_bind]. specialize (HD []). rewrite app_nil_r in HD.
  unfold SignatureDeserializer in HD. destruct (signature_from_bytes (signature_to_bytes s)); [|done].
  cbn in HD. by simplify_eq.
Qed.
End texts.
End facts.
