(* ===== verification/WireSamples.v ===== *)
(** * A concrete format of numbers

    Numbers in base 128, the least significant digit first, as [unsigned-varint] writes
    them; they have the properties that the formats rely on, and so the theorems on
    formats apply to concrete messages. *)

From Stdlib Require Import Ascii.
From S2P Require Import Prelude Slots OrdMap Keys KeyFacts Models Ledger Wire WireFacts Formats FormatFacts.

Open Scope N_scope.

(** Enough digits for 128 bits. *)
Definition leb_fuel : nat := 18.

Fixpoint leb_encode (fuel : nat) (n : N) : Bytes :=
  match fuel with
  | O => [n]
  | S fuel => if n <? 128 then [n] else (n mod 128 + 128) :: leb_encode fuel (n / 128)
  end.
(** The last digit is not zero unless it is the only one. *)
Fixpoint leb_decode (fuel : nat) (first : bool) (i : Bytes) : option (N * Bytes) :=
  match fuel, i with
  | S fuel, b :: rest =>
      if b <? 128 then if (b =? 0) && negb first then None else Some (b, rest)
      else '(n, rest) ← leb_decode fuel false rest; Some (b - 128 + 128 * n, rest)
  | _, _ => None
  end.

#[export] Instance leb128 : Varint := {
  varint_encode _ n := leb_encode leb_fuel n;
  varint_nom t i := '(n, rest) ← leb_decode (S leb_fuel) true i; if n <=? uint_max t then Some (n, rest) else None }.

Lemma leb_encode_bytes fuel n : n < 128 ^ N.of_nat (S fuel) → is_bytes (leb_encode fuel n).
Proof.
  revert n. induction fuel as [|fuel IH]; intros n Hn; cbn [leb_encode].
  - change (128 ^ N.of_nat 1) with 128 in Hn. rewrite is_bytes_cons. split; [lia|done].
  - destruct (N.ltb_spec n 128) as [|Hge]; rewrite is_bytes_cons; [split; [lia|done]|].
    pose proof (N.mod_lt n 128 ltac:(done)). split; [lia|]. apply IH.
    apply N.Div0.div_lt_upper_bound. by rewrite <-N.pow_succ_r', <-Nat2N.inj_succ.
Qed.

Lemma leb_decode_encode fuel n first rest :
  n < 128 ^ N.of_nat (S fuel) → (n ≠ 0 ∨ first = true) →
  leb_decode (S fuel) first (leb_encode fuel n ++ rest) = Some (n, rest).
Proof.
  revert n first. induction fuel as [|fuel IH]; intros n first Hn Hz.
  - change (128 ^ N.of_nat 1) with 128 in Hn. cbn. rewrite (proj2 (N.ltb_lt _ _)) by done. destruct (N.eqb_spec n 0) as [->|], first; cbn; naive_solver.
  - cbn [leb_encode]. destruct (N.ltb_spec n 128) as [Hlt|Hge].
    + cbn. rewrite (proj2 (N.ltb_lt _ _)) by done. destruct (N.eqb_spec n 0) as [->|], first; cbn; naive_solver.
    + pose proof (N.mod_lt n 128 ltac:(done)). cbn [app]. change (leb_decode (S (S fuel)) first ?l) with
        (match l with [] => None | b :: rest =>
           if b <? 128 then if (b =? 0) && negb first then None else Some (b, rest)
           else '(n, rest) ← leb_decode (S fuel) false rest; Some (b - 128 + 128 * n, rest) end).
      cbv iota. rewrite (proj2 (N.ltb_ge _ _)) by apply N.le_add_l. rewrite IH; [| |left].
      * cbn [mbind option_bind]. do 2 f_equal. rewrite N.add_sub, N.add_comm. symmetry. apply N.div_mod'.
      * apply N.Div0.div_lt_upper_bound. by rewrite <-N.pow_succ_r', <-Nat2N.inj_succ.
      * clear -Hge. intros H0%N.div_small_iff; lia.
Qed.

Lemma leb_decode_minimal fuel first i n rest :
  is_bytes i → leb_decode (S fuel) first i = Some (n, rest) → i = leb_encode fuel n ++ rest ∧ (n ≠ 0 ∨ first = true).
Proof.
  revert first i n. induction fuel as [|fuel IH]; intros first [|b i] n Hi Hx; [done| |done|];
    apply is_bytes_cons in Hi as [Hb Hi]; cbn [leb_decode] in Hx; destruct (N.ltb_spec b 128) as [Hlt|Hge].
  - destruct ((b =? 0) && negb first) eqn:Hz; simplify_eq. split; [done|].
    apply andb_false_iff in Hz as [?%N.eqb_neq|?%negb_false_iff]; tauto.
  - done.
  - destruct ((b =? 0) && negb first) eqn:Hz; simplify_eq. cbn [leb_encode]. rewrite (proj2 (N.ltb_lt _ _)) by done.
    split; [done|]. apply andb_false_iff in Hz as [?%N.eqb_neq|?%negb_false_iff]; tauto.
  - fold leb_decode in Hx. change (match i with [] => None | b' :: rest' => _ end) with (leb_decode (S fuel) false i) in Hx.
    destruct (leb_decode (S fuel) false i) as [[m r]|] eqn:Hd; [|done]. cbn in Hx. simplify_eq.
    apply IH in Hd as [-> [Hm|]]; [|done|done]. cbn [leb_encode].
    assert ((b - 128 + 128 * m) mod 128 = b - 128) as -> by (rewrite N.mul_comm, N.Div0.mod_add; apply N.mod_small; lia).
    assert ((b - 128 + 128 * m) / 128 = m) as -> by (rewrite N.mul_comm, N.div_add, N.div_small by lia; done).
    rewrite (proj2 (N.ltb_ge _ _)) by lia. split; [|lia]. cbn. f_equal. lia.
Qed.

Lemma size_small n : n < 128 → N.max 1 ((N.size n + 6) / 7) = 1.
Proof.
  intros Hn. apply N.max_l. assert (N.size n ≤ 7) as Hs.
  { destruct (N.eq_dec n 0) as [->|Hne]; [cbn; lia|]. rewrite N.size_log2 by done.
    pose proof (N.log2_lt_pow2 n 7 ltac:(lia)) as [Hl _]. specialize (Hl Hn). lia. }
  change 1 with (13 / 7). apply N.Div0.div_le_mono. lia.
Qed.
Lemma size_div_128 n : 128 ≤ n → N.size n = N.size (n / 128) + 7.
Proof.
  intros Hn. assert (n / 128 ≠ 0) as Hq by (intros ?%N.div_small_iff; lia).
  rewrite !N.size_log2 by lia. change 128 with (2 ^ 7). rewrite <-N.shiftr_div_pow2, N.log2_shiftr.
  pose proof (N.log2_le_mono (2 ^ 7) n Hn) as Hl. rewrite N.log2_pow2 in Hl by done. lia.
Qed.
Lemma leb_encode_length fuel n :
  n < 128 ^ N.of_nat (S fuel) → N.of_nat (length (leb_encode fuel n)) = N.max 1 ((N.size n + 6) / 7).
Proof.
  revert n. induction fuel as [|fuel IH]; intros n Hn; cbn [leb_encode].
  - symmetry. by apply size_small.
  - destruct (N.ltb_spec n 128) as [Hlt|Hge]; [symmetry; by apply size_small|].
    cbn [length]. rewrite Nat2N.inj_succ, IH, (size_div_128 n Hge).
    + set (s := N.size (n / 128)). assert (1 ≤ s) as Hs.
      { subst s. clear -Hge. rewrite N.size_log2 by (intros ?%N.div_small_iff; lia). lia. }
      replace (s + 7 + 6) with (s + 6 + 1 * 7) by lia. rewrite N.div_add by done.
      assert (1 ≤ (s + 6) / 7) by (apply N.div_le_lower_bound; lia). lia.
    + apply N.Div0.div_lt_upper_bound. by rewrite <-N.pow_succ_r', <-Nat2N.inj_succ.
Qed.

Lemma uint_max_leb t : uint_max t < 128 ^ N.of_nat (S leb_fuel).
Proof. by destruct t. Qed.

#[export] Instance leb128_laws : VarintLaws.
Proof.
  split.
  - intros t n Hn. apply leb_encode_bytes. eapply N.le_lt_trans; [exact Hn|apply uint_max_leb].
  - intros t n Hn. apply leb_encode_length. eapply N.le_lt_trans; [exact Hn|apply uint_max_leb].
  - intros t n Hn. change (leb_encode leb_fuel n = [n]). cbn [leb_fuel leb_encode].
    by rewrite (proj2 (N.ltb_lt _ _)).
  - intros t n rest Hn. unfold varint_nom, varint_encode, leb128. rewrite leb_decode_encode; [| |by right].
    + cbn [mbind option_bind]. by rewrite (proj2 (N.leb_le _ _)).
    + eapply N.le_lt_trans; [exact Hn|apply uint_max_leb].
  - intros t i n rest Hi Hx. unfold varint_nom, leb128 in Hx. parse_inv Hx. split; [by apply N.leb_le|].
    match goal with HD : leb_decode _ _ _ = _ |- _ => by apply leb_decode_minimal in HD as [? _] end.
Qed.

(** Every key is a point, and a text has a character for every byte. *)
#[export] Instance every_key : VerifyingKey := λ _, true.

Fixpoint bytes_to_text (b : Bytes) : string :=
  match b with [] => EmptyString | x :: b => String (ascii_of_N x) (bytes_to_text b) end.
Fixpoint text_to_bytes (s : string) : Bytes :=
  match s with EmptyString => [] | String c s => N_of_ascii c :: text_to_bytes s end.
#[export] Instance plain_text : Base58 := {
  bs58_encode_check := bytes_to_text;
  bs58_decode_check s := Some (text_to_bytes s) }.
#[export] Instance plain_text_laws : Base58Laws.
Proof.
  intros b Hb. change (Some (text_to_bytes (bytes_to_text b)) = Some b). f_equal.
  induction Hb as [|x b Hx Hb IH]; [done|]. cbn. by rewrite N_ascii_embedding, IH.
Qed.
