(* ===== verification/BlockFormats.v ===== *)
(** * The formats of signed objects

    [massa-models/src/secure_share.rs], [endorsement.rs], [denunciation.rs], [operation.rs],
    [block_header.rs] and [block.rs]: signed objects, whose identifier is a hash of what
    is signed, and the objects that are signed.

    The hash function of the crate [blake3] is the class [HashFn], and hashing several
    pieces one after the other is hashing them together.  In a header, endorsements are
    written without their slot and block, which the header gives. *)

From S2P Require Import Prelude Slots OrdMap Keys Models Ledger Wire Formats.

Open Scope N_scope.

(** [Hash::compute_from] *)
Class HashFn : Type := compute_from : Bytes → Hash.

Definition compute_from_tuple `{!HashFn} (data : list Bytes) : Hash :=
  compute_from (mjoin ((λ d, to_be_bytes 8 (N.of_nat (length d)) ++ d) <$> data)).

#[export] Instance key_hash_of `{!Varint} `{!HashFn} : KeyHash := λ key,
  compute_from (public_key_to_bytes (PublicKeyV0 key)).

(** ** Signed objects *)

(** The trait [Id]. *)
Class Id (ID : Type) : Type := {
  id_new : Hash → ID;
  id_get_hash : ID → Hash }.
#[export] Instance BlockId_Id : Id BlockId := {| id_new := BlockIdV0; id_get_hash := get_hash |}.
#[export] Instance OperationId_Id : Id OperationId :=
  {| id_new := OperationIdV0; id_get_hash := λ o, match o with OperationIdV0 h => h end |}.
#[export] Instance EndorsementId_Id : Id EndorsementId :=
  {| id_new := EndorsementIdV0; id_get_hash := λ e, match e with EndorsementIdV0 h => h end |}.

(** The trait [SecureShareContent]: the hash of an object, from its bytes, its creator and
    the chain, and the hash that is signed. *)
Class SecureShareContent (T : Type) : Type := {
  compute_hash : T → Bytes → PublicKey → N → Hash;
  compute_signed_hash : T → PublicKey → Hash → option N → Hash }.

Section shares.
Context `{!Varint} `{!VerifyingKey} `{!HashFn}.

(** The methods of the trait for those that do not define them. *)
Definition default_compute_hash {T} (_ : T) (content_serialized : Bytes) (content_creator_pub_key : PublicKey) (_ : N) : Hash :=
  compute_from (public_key_to_bytes content_creator_pub_key ++ content_serialized).
Definition default_signed_hash {T} (_ : T) (_ : PublicKey) (content_hash : Hash) (_ : option N) : Hash := content_hash.

Definition share_serialize (signature : Signature) (creator_public_key : PublicKey) (serialized_content : Bytes)
    : outcome SerializeError Bytes :=
  write_seq [Ok (signature_to_bytes signature); Ok (public_key_to_bytes creator_public_key); Ok serialized_content].

Section share.
Context {T ID : Type} `{!SecureShareContent T} `{!Id ID}.

(** What is kept as the bytes of the content: what was read, or what a serializer makes of it. *)
Definition share_deserialize (content_serializer : option (Serializer T)) (content_deserializer : Parser T) (chain_id : N)
    : Parser (SecureShare T ID) := λ buffer,
  '(signature, rest) ← SignatureDeserializer buffer;
  '(creator_public_key, serialized_data) ← PublicKeyDeserializer rest;
  '(content, rest) ← content_deserializer serialized_data;
  content_serialized ←
    match content_serializer with
    | Some content_serializer => match content_serializer content with Ok b => Some b | _ => None end
    | None => Some (take (length serialized_data - length rest) serialized_data)
    end;
  let creator_address := from_public_key creator_public_key in
  let hash := compute_hash content content_serialized creator_public_key chain_id in
  Some (MkSecureShare content content_serialized signature creator_public_key creator_address (id_new hash), rest).

Definition SecureShareSerializer : Serializer (SecureShare T ID) := λ value,
  share_serialize (Models.signature value) (content_creator_pub_key value) (serialized_data value).
Definition SecureShareDeserializer (content_deserializer : Parser T) (chain_id : N) : Parser (SecureShare T ID) :=
  share_deserialize None content_deserializer chain_id.
Definition serialize_with (content_serializer : Serializer T) : Serializer (SecureShare T ID) := λ value,
  content_buffer ← content_serializer (content value);
  share_serialize (Models.signature value) (content_creator_pub_key value) content_buffer.
Definition deserialize_with (content_serializer : Serializer T) (content_deserializer : Parser T) (chain_id : N)
    : Parser (SecureShare T ID) :=
  share_deserialize (Some content_serializer) content_deserializer chain_id.

(** The object that a key with the public key [public_key] makes with a signature; [sign] is
    the signature of a hash. *)
Definition new_verifiable (content : T) (content_serializer : Serializer T) (public_key : PublicKey)
    (sign : Hash → Signature) (chain_id : N) (sig_chain_id : option N) : outcome SerializeError (SecureShare T ID) :=
  content_serialized ← content_serializer content;
  let hash := compute_hash content content_serialized public_key chain_id in
  let creator_address := from_public_key public_key in
  Ok (MkSecureShare content content_serialized (sign (compute_signed_hash content public_key hash sig_chain_id))
        public_key creator_address (id_new hash)).

Definition serialized_size (s : SecureShare T ID) : N :=
  saturating_add u64_max (saturating_add u64_max (N.of_nat (length (serialized_data s))) signature_ser_len) public_key_ser_len.
End share.

(** ** Endorsements *)

(** [u32::to_le_bytes] *)
Definition to_le_bytes (n : nat) (x : N) : Bytes := reverse (to_be_bytes n x).
Definition chain_id_bytes (chain_id : option N) : Bytes :=
  match chain_id with Some chain_id => to_be_bytes 8 chain_id | None => [] end.
(** [EndorsementDenunciationData::to_bytes] *)
Definition endorsement_denunciation_data (slot : Slot) (index : N) (chain_id : option N) : Bytes :=
  to_bytes_key slot ++ to_le_bytes 4 index ++ chain_id_bytes chain_id.

#[export] Instance Endorsement_content : SecureShareContent Endorsement := {
  compute_hash := default_compute_hash;
  compute_signed_hash e public_key content_hash sig_chain_id :=
    compute_from (public_key_to_bytes public_key
                  ++ endorsement_denunciation_data (e_slot e) (e_index e) sig_chain_id
                  ++ to_be_bytes 32 content_hash) }.

Definition EndorsementSerializer : Serializer Endorsement := λ value,
  write_seq [SlotSerializer (e_slot value); VarIntSerializer U32 (e_index value);
             BlockIdSerializer (e_endorsed_block value)].
Definition EndorsementDeserializer (thread_count endorsement_count : N) : Parser Endorsement := λ buffer,
  '(slot, rest) ← SlotDeserializer any_u64 (below thread_count) buffer;
  '(index, rest) ← VarIntDeserializer U32 (below endorsement_count) rest;
  '(endorsed_block, rest) ← BlockIdDeserializer rest;
  Some (MkEndorsement slot index endorsed_block, rest).

Definition EndorsementSerializerLW : Serializer Endorsement := λ value, VarIntSerializer U32 (e_index value).
Definition EndorsementDeserializerLW (endorsement_count : N) (slot : Slot) (endorsed_block : BlockId) : Parser Endorsement :=
  pmap (λ index, MkEndorsement slot index endorsed_block) (VarIntDeserializer U32 (below endorsement_count)).

(** ** Denunciations *)

Definition EndorsementDenunciationSerializer : Serializer EndorsementDenunciation := λ value,
  write_seq [Ok (public_key_to_bytes (ed_public_key value)); SlotSerializer (ed_slot value);
             VarIntSerializer U32 (ed_index value); HashSerializer (ed_hash_1 value); HashSerializer (ed_hash_2 value);
             Ok (signature_to_bytes (ed_signature_1 value)); Ok (signature_to_bytes (ed_signature_2 value))].
Definition EndorsementDenunciationDeserializer (thread_count endorsement_count : N) : Parser EndorsementDenunciation := λ buffer,
  '(public_key, rest) ← PublicKeyDeserializer buffer;
  '(slot, rest) ← SlotDeserializer any_u64 (below thread_count) rest;
  '(index, rest) ← VarIntDeserializer U32 (below endorsement_count) rest;
  '(hash_1, rest) ← HashDeserializer rest;
  '(hash_2, rest) ← HashDeserializer rest;
  '(signature_1, rest) ← SignatureDeserializer rest;
  '(signature_2, rest) ← SignatureDeserializer rest;
  Some (MkEndorsementDenunciation public_key slot index hash_1 hash_2 signature_1 signature_2, rest).

Definition BlockHeaderDenunciationSerializer : Serializer BlockHeaderDenunciation := λ value,
  write_seq [Ok (public_key_to_bytes (bhd_public_key value)); SlotSerializer (bhd_slot value);
             HashSerializer (bhd_hash_1 value); HashSerializer (bhd_hash_2 value);
             Ok (signature_to_bytes (bhd_signature_1 value)); Ok (signature_to_bytes (bhd_signature_2 value))].
Definition BlockHeaderDenunciationDeserializer (thread_count : N) : Parser BlockHeaderDenunciation := λ buffer,
  '(public_key, rest) ← PublicKeyDeserializer buffer;
  '(slot, rest) ← SlotDeserializer any_u64 (below thread_count) rest;
  '(hash_1, rest) ← HashDeserializer rest;
  '(hash_2, rest) ← HashDeserializer rest;
  '(signature_1, rest) ← SignatureDeserializer rest;
  '(signature_2, rest) ← SignatureDeserializer rest;
  Some (MkBlockHeaderDenunciation public_key slot hash_1 hash_2 signature_1 signature_2, rest).

(** [DenunciationTypeId] *)
Definition denunciation_type_id (d : Denunciation) : N :=
  match d with DenunciationBlockHeader _ => 0 | DenunciationEndorsement _ => 1 end.
Definition DenunciationSerializer : Serializer Denunciation := λ value,
  write_seq [VarIntSerializer U32 (denunciation_type_id value);
             match value with
             | DenunciationEndorsement de => EndorsementDenunciationSerializer de
             | DenunciationBlockHeader de => BlockHeaderDenunciationSerializer de
             end].
Definition DenunciationDeserializer (thread_count endorsement_count : N) : Parser Denunciation := λ buffer,
  '(de_type_id, rem) ← VarIntDeserializer U32 (below 2) buffer;
  if de_type_id =? 1 then
    '(endo_de, rem2) ← EndorsementDenunciationDeserializer thread_count endorsement_count rem;
    Some (DenunciationEndorsement endo_de, rem2)
  else if de_type_id =? 0 then
    '(blkh_de, rem2) ← BlockHeaderDenunciationDeserializer thread_count rem;
    Some (DenunciationBlockHeader blkh_de, rem2)
  else None.

(** ** Operations *)

#[export] Instance Operation_content : SecureShareContent Operation := {
  compute_hash _ content_serialized content_creator_pub_key chain_id :=
    compute_from (to_be_bytes 8 chain_id ++ public_key_to_bytes content_creator_pub_key ++ content_serialized);
  compute_signed_hash := default_signed_hash }.

(** [OperationTypeId] *)
Definition operation_type_id (op : OperationType) : N :=
  match op with
  | Transaction _ _ => 0
  | RollBuy _ => 1
  | RollSell _ => 2
  | ExecuteSC _ _ _ _ => 3
  | CallSC _ _ _ _ _ => 4
  end.
Definition OperationTypeSerializer : Serializer OperationType := λ value,
  write_seq (VarIntSerializer U32 (operation_type_id value) ::
    match value with
    | Transaction recipient_address amount => [AddressSerializer recipient_address; AmountSerializer amount]
    | RollBuy roll_count => [VarIntSerializer U64 roll_count]
    | RollSell roll_count => [VarIntSerializer U64 roll_count]
    | ExecuteSC data max_gas max_coins datastore =>
        [VarIntSerializer U64 max_gas; AmountSerializer max_coins; VecU8Serializer data; DatastoreSerializer datastore]
    | CallSC target_addr target_func param max_gas coins =>
        [VarIntSerializer U64 max_gas; AmountSerializer coins; AddressSerializer target_addr;
         StringSerializer (uint_max U16) (VarIntSerializer U16) target_func; VecU8Serializer param]
    end).

(** The limits of an operation. *)
Record OperationLimits : Type := MkOperationLimits {
  max_bytecode_size : N;
  max_function_name_length : N;
  max_parameters_size : N;
  max_op_datastore_entry_count : N;
  max_op_datastore_key_length : N;
  max_op_datastore_value_length : N }.

Definition any_amount : Parser N := AmountDeserializer (Included 0) (Included u64_max).
Definition OperationTypeDeserializer (l : OperationLimits) : Parser OperationType := λ buffer,
  '(id, input) ← VarIntDeserializer U32 any_u32 buffer;
  if id =? 0 then
    '(recipient_address, rest) ← AddressDeserializer input;
    '(amount, rest) ← any_amount rest;
    Some (Transaction recipient_address amount, rest)
  else if id =? 1 then pmap RollBuy (VarIntDeserializer U64 any_u64) input
  else if id =? 2 then pmap RollSell (VarIntDeserializer U64 any_u64) input
  else if id =? 3 then
    '(max_gas, rest) ← VarIntDeserializer U64 any_u64 input;
    '(max_coins, rest) ← any_amount rest;
    '(data, rest) ← VecU8Deserializer (up_to (max_bytecode_size l)) rest;
    '(datastore, rest) ← DatastoreDeserializer (max_op_datastore_entry_count l) (max_op_datastore_key_length l)
                           (max_op_datastore_value_length l) rest;
    Some (ExecuteSC data max_gas max_coins datastore, rest)
  else if id =? 4 then
    '(max_gas, rest) ← VarIntDeserializer U64 any_u64 input;
    '(coins, rest) ← any_amount rest;
    '(target_addr, rest) ← AddressDeserializer rest;
    '(target_func, rest) ← StringDeserializer (VarIntDeserializer U16 (up_to (max_function_name_length l))) rest;
    '(param, rest) ← VecU8Deserializer (up_to (max_parameters_size l)) rest;
    Some (CallSC target_addr target_func param max_gas coins, rest)
  else None.

Definition OperationSerializer : Serializer Operation := λ value,
  write_seq [AmountSerializer (op_fee value); VarIntSerializer U64 (op_expire_period value);
             OperationTypeSerializer (op_type value)].
Definition OperationDeserializer (l : OperationLimits) : Parser Operation := λ buffer,
  '(fee, rest) ← any_amount buffer;
  '(expire_period, rest) ← VarIntDeserializer U64 any_u64 rest;
  '(op, rest) ← OperationTypeDeserializer l rest;
  Some (MkOperation fee expire_period op, rest).

Definition OperationIdsSerializer : Serializer (list OperationId) := λ value,
  let list_len := N.of_nat (length value) in
  if list_len <=? u32_max then write_seq (VarIntSerializer U32 list_len :: (OperationIdSerializer <$> value))
  else Err (NumberTooBig "could not encode Vec<OperationId> list length as u32").
Definition OperationIdsDeserializer (max_operations_per_message : N) : Parser (list OperationId) :=
  length_count (VarIntDeserializer U32 (up_to max_operations_per_message)) OperationIdDeserializer.

Definition OperationsSerializer : Serializer (list SecureShareOperation) := λ value,
  let list_len := N.of_nat (length value) in
  if list_len <=? u32_max then write_seq (VarIntSerializer U32 list_len :: (SecureShareSerializer <$> value))
  else Err (NumberTooBig "could not encode Operations list length as u32").
Definition OperationsDeserializer (max_operations_per_message : N) (l : OperationLimits) (chain_id : N)
    : Parser (list SecureShareOperation) :=
  length_count (VarIntDeserializer U32 (up_to max_operations_per_message))
    (SecureShareDeserializer (OperationDeserializer l) chain_id).

(** The first bytes of an identifier. *)
Definition OPERATION_ID_PREFIX_SIZE_BYTES : N := 17.
Definition OperationPrefixIdDeserializer : Parser Bytes := take_bytes OPERATION_ID_PREFIX_SIZE_BYTES.
Definition OperationPrefixIdsSerializer `{!SetIter (list N)} : Serializer (gset (list N)) := λ value,
  let list_len := N.of_nat (size value) in
  if list_len <=? u32_max then write_seq (VarIntSerializer U32 list_len :: ((λ prefix, Ok prefix) <$> set_iter value))
  else Err (NumberTooBig "could not encode Set<OperationId> list length as u32").
Definition OperationPrefixIdsDeserializer (max_operations_per_message : N) : Parser (gset (list N)) :=
  pmap list_to_set (length_count (VarIntDeserializer U32 (up_to max_operations_per_message)) OperationPrefixIdDeserializer).

Definition compute_operations_hash (op_ids : list OperationId) : outcome SerializeError Hash :=
  op_ids ← foldr (λ op_id acc,
    match OperationIdSerializer op_id with
    | Ok serialized => rest ← acc; Ok (serialized :: rest)
    | _ => Panic "serialization of operation id should not fail"
    end) (Ok []) op_ids;
  Ok (compute_from_tuple op_ids).

(** ** Headers and blocks *)

(** [BlockHeaderDenunciationData::to_bytes] *)
Definition header_denunciation_data (slot : Slot) (chain_id : option N) : Bytes :=
  to_bytes_key slot ++ chain_id_bytes chain_id.
#[export] Instance BlockHeader_content : SecureShareContent BlockHeader := {
  compute_hash := default_compute_hash;
  compute_signed_hash h public_key content_hash sig_chain_id :=
    compute_from (public_key_to_bytes public_key ++ header_denunciation_data (h_slot h) sig_chain_id
                  ++ to_be_bytes 32 content_hash) }.

Definition BlockHeaderSerializer : Serializer BlockHeader := λ value,
  write_seq (
    [VarIntSerializer U32 (current_version value); OptionSerializer (VarIntSerializer U32) (announced_version value);
     SlotSerializer (h_slot value); Ok [match h_parents value with [] => 0 | _ => 1 end]]
    ++ (BlockIdSerializer <$> h_parents value)
    ++ [Ok (to_be_bytes 32 (operation_merkle_root value));
        if N.of_nat (length (endorsements value)) <=? u32_max
        then VarIntSerializer U32 (N.of_nat (length (endorsements value)))
        else Err (SerializeGeneralError "too many endorsements")]
    ++ (serialize_with EndorsementSerializerLW <$> endorsements value)
    ++ [if N.of_nat (length (denunciations value)) <=? u32_max
        then VarIntSerializer U32 (N.of_nat (length (denunciations value)))
        else Err (SerializeGeneralError "too many denunciations")]
    ++ (DenunciationSerializer <$> denunciations value)).

(** The parents that a slot has. *)
Definition parents_fit (last_start_period : option N) (thread_count : N) (slot : Slot) (parents : list BlockId) : bool :=
  match last_start_period with
  | Some last_start_period =>
      if period slot =? last_start_period then match parents with [] => true | _ => false end
      else N.of_nat (length parents) =? thread_count
  | None => true
  end.
Definition ParentsDeserializer (thread_count : N) : Parser (list BlockId) :=
  alt (preceded (tag 0) (λ input, Some ([], input)))
      (preceded (tag 1) (count (N.to_nat thread_count) BlockIdDeserializer)).
(** One endorsement of a header; [parent_id] is the block that it must endorse. *)
Definition HeaderEndorsementDeserializer (endorsement_count : N) (slot : Slot) (parent_id : BlockId) (chain_id : N)
    : Parser SecureShareEndorsement := λ input,
  '(endo, rest) ← deserialize_with EndorsementSerializer (EndorsementDeserializerLW endorsement_count slot parent_id)
                    chain_id input;
  if decide (e_endorsed_block (content endo) = parent_id) then Some (endo, rest) else None.

Record HeaderLimits : Type := MkHeaderLimits {
  hl_thread_count : N;
  hl_endorsement_count : N;
  hl_max_denunciations : N;
  hl_last_start_period : option N;
  hl_chain_id : N }.

(** What follows the merkle root: two empty lists without parents.  [parents[slot.thread as usize]]
    exists: there are as many parents as threads. *)
Definition HeaderTailDeserializer (l : HeaderLimits) (slot : Slot) (parents : list BlockId)
    : Parser (list SecureShareEndorsement * list Denunciation) := λ rest,
  match parents with
  | [] =>
      '(_, rest) ← tag 0 rest;
      '(_, rest2) ← tag 0 rest;
      Some (([], []), rest2)
  | _ =>
      parent_id ← parents !! N.to_nat (thread slot);
      '(endorsements, rest) ←
        length_count (VarIntDeserializer U32 (up_to (hl_endorsement_count l)))
          (HeaderEndorsementDeserializer (hl_endorsement_count l) slot parent_id (hl_chain_id l)) rest;
      if decide (NoDup ((λ e, e_index (content e)) <$> endorsements)) then
        '(denunciations, rest) ←
          length_count (VarIntDeserializer U32 (up_to (hl_max_denunciations l)))
            (DenunciationDeserializer (hl_thread_count l) (hl_endorsement_count l)) rest;
        Some ((endorsements, denunciations), rest)
      else None
  end.
Definition BlockHeaderDeserializer (l : HeaderLimits) : Parser BlockHeader := λ buffer,
  '(current_version, rest) ← VarIntDeserializer U32 any_u32 buffer;
  '(announced_version, rest) ← OptionDeserializer (VarIntDeserializer U32 any_u32) rest;
  '(slot, rest) ← SlotDeserializer any_u64 (below (hl_thread_count l)) rest;
  '(parents, rest) ← ParentsDeserializer (hl_thread_count l) rest;
  if parents_fit (hl_last_start_period l) (hl_thread_count l) slot parents then
    '(operation_merkle_root, rest) ← HashDeserializer rest;
    '(tail, rest) ← HeaderTailDeserializer l slot parents rest;
    Some (MkBlockHeader current_version announced_version slot parents operation_merkle_root tail.1 tail.2, rest)
  else None.

Definition BlockSerializer : Serializer Block := λ value,
  write_seq [SecureShareSerializer (header value); OperationIdsSerializer (operations value)].
(** Hashing identifiers does not panic ([compute_operations_hash_spec]). *)
Definition BlockDeserializer (l : HeaderLimits) (max_operations_per_block : N) : Parser Block := λ buffer,
  '(header, rest) ← SecureShareDeserializer (BlockHeaderDeserializer l) (hl_chain_id l) buffer;
  '(operations, rest) ← OperationIdsDeserializer max_operations_per_block rest;
  match compute_operations_hash operations with
  | Ok computed_operations_hash =>
      if operation_merkle_root (content header) =? computed_operations_hash then Some (MkBlock header operations, rest)
      else None
  | _ => None
  end.

(** A signed block is its content: the signature, the creator and the identifier are those of
    the header. *)
Definition share_of_block (content : Block) (serialized : Bytes) : SecureShareBlock :=
  MkSecureShare content serialized (Models.signature (header content)) (content_creator_pub_key (header content))
    (content_creator_address (header content)) (BlockIdV0 (get_hash (id (header content)))).
Definition SecureShareBlockSerializer : Serializer SecureShareBlock := λ value, Ok (serialized_data value).
Definition SecureShareBlockDeserializer (l : HeaderLimits) (max_operations_per_block : N) : Parser SecureShareBlock := λ buffer,
  '(content, rest) ← BlockDeserializer l max_operations_per_block buffer;
  Some (share_of_block content (take (length buffer - length rest) buffer), rest).
End shares.

Arguments SecureShareSerializer : simpl never.
Arguments SecureShareDeserializer : simpl never.
Arguments EndorsementSerializer : simpl never.
Arguments EndorsementDeserializer : simpl never.
Arguments EndorsementSerializerLW : simpl never.
Arguments EndorsementDeserializerLW : simpl never.
Arguments EndorsementDenunciationSerializer : simpl never.
Arguments EndorsementDenunciationDeserializer : simpl never.
Arguments BlockHeaderDenunciationSerializer : simpl never.
Arguments BlockHeaderDenunciationDeserializer : simpl never.
Arguments DenunciationSerializer : simpl never.
Arguments DenunciationDeserializer : simpl never.
Arguments OperationTypeSerializer : simpl never.
Arguments OperationTypeDeserializer : simpl never.
Arguments OperationSerializer : simpl never.
Arguments OperationDeserializer : simpl never.
Arguments OperationIdsSerializer : simpl never.
Arguments OperationIdsDeserializer : simpl never.
Arguments OperationsSerializer : simpl never.
Arguments OperationsDeserializer : simpl never.
Arguments OperationPrefixIdDeserializer : simpl never.
Arguments OperationPrefixIdsSerializer : simpl never.
Arguments OperationPrefixIdsDeserializer : simpl never.
Arguments BlockHeaderSerializer : simpl never.
Arguments ParentsDeserializer : simpl never.
Arguments HeaderEndorsementDeserializer : simpl never.
Arguments HeaderTailDeserializer : simpl never.
Arguments BlockHeaderDeserializer : simpl never.
Arguments BlockSerializer : simpl never.
Arguments BlockDeserializer : simpl never.
Arguments SecureShareBlockSerializer : simpl never.
Arguments SecureShareBlockDeserializer : simpl never.
#[global] Typeclasses Opaque
  SecureShareSerializer SecureShareDeserializer EndorsementSerializer EndorsementDeserializer
  EndorsementSerializerLW EndorsementDeserializerLW EndorsementDenunciationSerializer
  EndorsementDenunciationDeserializer BlockHeaderDenunciationSerializer
  BlockHeaderDenunciationDeserializer DenunciationSerializer DenunciationDeserializer
  OperationTypeSerializer OperationTypeDeserializer OperationSerializer OperationDeserializer
  OperationIdsSerializer OperationIdsDeserializer OperationsSerializer OperationsDeserializer
  OperationPrefixIdDeserializer OperationPrefixIdsSerializer OperationPrefixIdsDeserializer
  BlockHeaderSerializer ParentsDeserializer HeaderEndorsementDeserializer HeaderTailDeserializer
  BlockHeaderDeserializer BlockSerializer BlockDeserializer SecureShareBlockSerializer
  SecureShareBlockDeserializer.
