(* ===== verification/BlockFormatFacts.v ===== *)
(** * Signed objects are read as they were signed

    The formats of signed objects, endorsements, denunciations, operations, headers and
    blocks: every object within the limits is read back; what a deserializer accepts is
    within the limits, which for a header are the invariants that the rest of the program
    relies on; all but operations are canonical, so that the identifier of an object
    determines its bytes up to collisions of the hash. *)

From S2P Require Import Prelude Slots OrdMap Keys KeyFacts Models Ledger Wire WireFacts Formats FormatFacts BlockFormats.

Open Scope N_scope.

Arguments serialize_with : simpl never.
Arguments deserialize_with : simpl never.
#[global] Typeclasses Opaque serialize_with deserialize_with.

(** A hash has 32 bytes. *)
Class HashLaws `{!HashFn} : Prop := compute_from_ok : ∀ b, hash_ok (compute_from b).

(** Writes the next value, read back by [D]. *)
Ltac wire_with D :=
  match goal with
  | |- context [?S ?x ≫= _] =>
      let b := fresh "b" in let HS := fresh "HS" in let Hb := fresh "Hb" in let HD := fresh "HD" in
      edestruct (wire_read S D _ x) as (b & HS & Hb & HD);
        [solve [done | eassumption | eauto]|rewrite HS; cbn [mbind outcome_bind]]
  end.

Section facts.
Context `{!Varint} `{VL : !VarintLaws} `{!VerifyingKey} `{!HashFn}.

(** ** Signed objects *)

Lemma public_key_bytes pk : is_bytes (public_key_to_bytes pk).
Proof using All. destruct pk. apply is_bytes_app. split; [by apply varint_bytes|apply to_be_bytes_bounded]. Qed.
Lemma signature_bytes s : is_bytes (signature_to_bytes s).
Proof using All. destruct s. apply is_bytes_app. split; [by apply varint_bytes|apply to_be_bytes_bounded]. Qed.
Lemma public_key_read pk rest : public_key_ok pk → PublicKeyDeserializer (public_key_to_bytes pk ++ rest) = Some (pk, rest).
Proof using All. intros Hpk. destruct (@wire_read _ _ _ _ PublicKey_wire pk Hpk) as (b & [= <-] & _ & HD). apply HD. Qed.
Lemma signature_read s rest : signature_ok s → SignatureDeserializer (signature_to_bytes s ++ rest) = Some (s, rest).
Proof using All. intros Hs. destruct (@wire_read _ _ _ _ Signature_wire s Hs) as (b & [= <-] & _ & HD). apply HD. Qed.

Section share.
Context {T ID : Type} `{!SecureShareContent T} `{!Id ID}.
Context (S : Serializer T) (D : Parser T) (P : T → Prop) `{W : !Wire S D P} (chain_id : N).

(** The creator and the identifier are those of the content and the key. *)
Definition share_sound (s : SecureShare T ID) : Prop :=
  signature_ok (Models.signature s) ∧ public_key_ok (content_creator_pub_key s)
  ∧ content_creator_address s = from_public_key (content_creator_pub_key s)
  ∧ id s = id_new (compute_hash (content s) (serialized_data s) (content_creator_pub_key s) chain_id).
(** The bytes of a signed object are bytes that the content is read from. *)
Definition share_ok (s : SecureShare T ID) : Prop :=
  share_sound s ∧ P (content s) ∧ is_bytes (serialized_data s)
  ∧ ∀ rest, D (serialized_data s ++ rest) = Some (content s, rest).

Lemma take_consumed {A} (b rest : list A) : take (length (b ++ rest) - length rest) (b ++ rest) = b.
Proof using. rewrite length_app. replace (length b + length rest - length rest)%nat with (length b) by lia. apply take_app_length. Qed.

#[export] Instance SecureShare_canonical : Canonical SecureShareSerializer (SecureShareDeserializer D chain_id).
Proof using All.
  intros i s rest Hi Hx. unfold SecureShareDeserializer, share_deserialize in Hx. parse_inv Hx. parse_canonical.
  parse_valid. rewrite take_consumed. unfold SecureShareSerializer, share_serialize. cbn.
  eexists. split; [reflexivity|]. by rewrite app_nil_r, <-!app_assoc.
Qed.
#[export] Instance SecureShare_wire : Wire SecureShareSerializer (SecureShareDeserializer D chain_id) share_ok.
Proof using All.
  apply wire_of_canonical; [apply _|..].
  - intros [c d s pk a h] ((Hs & Hpk & Ha & Hid) & HP & Hd & HD). cbn in Hs, Hpk, Ha, Hid, HP, Hd, HD. subst.
    unfold SecureShareSerializer, share_serialize. cbn.
    wire_reads; [apply signature_bytes|apply public_key_bytes|].
    unfold SecureShareDeserializer, share_deserialize. rewrite signature_read by done. cbn [mbind option_bind].
    rewrite public_key_read by done. cbn [mbind option_bind]. rewrite HD. cbn [mbind option_bind]. by rewrite take_consumed.
  - intros i s rest Hi Hx. unfold SecureShareDeserializer, share_deserialize in Hx. parse_inv Hx. parse_valid.
    rewrite take_consumed. done.
Qed.

(** What is made from a valid content is such an object. *)
Lemma new_verifiable_spec c pk sign sig_chain_id s :
  P c → public_key_ok pk → (∀ h, signature_ok (sign h)) →
  new_verifiable (ID := ID) c S pk sign chain_id sig_chain_id = Ok s →
  share_ok s ∧ content s = c ∧ content_creator_pub_key s = pk
  ∧ Models.signature s
    = sign (compute_signed_hash c pk (compute_hash c (serialized_data s) pk chain_id) sig_chain_id).
Proof using W.
  intros HP Hpk Hsign Hx. destruct (wire_read S D P c HP) as (b & HS & Hb & HD). unfold new_verifiable in Hx.
  rewrite HS in Hx. cbn in Hx. injection Hx as <-. unfold share_ok, share_sound. cbn. auto 10.
Qed.

(** ** Signed objects whose content is written otherwise *)

Context (SF : Serializer T) (full_ok : ∀ c, P c → ∃ b, SF c = Ok b).

Definition light_share_ok (s : SecureShare T ID) : Prop :=
  share_sound s ∧ P (content s) ∧ SF (content s) = Ok (serialized_data s).

#[export] Instance light_canonical `{!Canonical S D} : Canonical (serialize_with S) (deserialize_with SF D chain_id).
Proof using VL.
  intros i s rest Hi Hx. unfold deserialize_with, share_deserialize in Hx. parse_inv Hx; try discriminate; parse_canonical.
  unfold serialize_with. cbn [content Models.signature content_creator_pub_key].
  match goal with HC : S _ = Ok _ |- _ => rewrite HC end. cbn. eexists. split; [reflexivity|]. by rewrite app_nil_r, <-!app_assoc.
Qed.
#[export] Instance light_wire : Wire (serialize_with S) (deserialize_with SF D chain_id) light_share_ok.
Proof using All.
  unfold deserialize_with, share_deserialize. split.
  - intros [c d s pk a h] ((Hs & Hpk & Ha & Hid) & HP & Hd). cbn in Hs, Hpk, Ha, Hid, HP, Hd. subst.
    unfold serialize_with. cbn [content Models.signature content_creator_pub_key].
    wire_write (wire_read S D P c HP). unfold share_serialize. cbn.
    wire_reads; [apply signature_bytes|apply public_key_bytes|].
    rewrite signature_read by done. cbn [mbind option_bind]. rewrite public_key_read by done. cbn [mbind option_bind].
    rewrite HD. cbn [mbind option_bind]. by rewrite Hd.
  - intros i s rest Hi Hx. parse_inv Hx; try discriminate. parse_valid. split; [done|]. parse_end.
    match goal with HC : SF _ = Ok _ |- _ => by rewrite HC end.
Qed.
End share.

(** ** Endorsements *)

Notation slot_in thread_count := (slot_ok any_u64 (below thread_count)).
Definition index_ok (endorsement_count index : N) : Prop :=
  index ≤ uint_max U32 ∧ in_range (below endorsement_count) index = true.

Definition endorsement_ok (thread_count endorsement_count : N) (e : Endorsement) : Prop :=
  slot_in thread_count (e_slot e) ∧ index_ok endorsement_count (e_index e) ∧ hash_ok (get_hash (e_endorsed_block e)).

#[export] Instance Endorsement_canonical thread_count endorsement_count :
  Canonical EndorsementSerializer (EndorsementDeserializer thread_count endorsement_count).
Proof using All.
  intros i e rest Hi Hx. unfold EndorsementDeserializer in Hx. parse_inv Hx. parse_canonical.
  unfold EndorsementSerializer. cbn. canonical_end.
Qed.
#[export] Instance Endorsement_wire thread_count endorsement_count :
  Wire EndorsementSerializer (EndorsementDeserializer thread_count endorsement_count)
    (endorsement_ok thread_count endorsement_count).
Proof using All.
  apply wire_of_canonical; [apply _|..].
  - intros [s n b] (Hs & Hn & Hb). cbn [e_slot e_index e_endorsed_block] in *. unfold EndorsementSerializer. cbn.
    wire_with (SlotDeserializer any_u64 (below thread_count)). wire_with (VarIntDeserializer U32 (below endorsement_count)).
    wire_with BlockIdDeserializer. wire_reads. unfold EndorsementDeserializer. by parse_steps.
  - intros i e rest Hi Hx. unfold EndorsementDeserializer in Hx. parse_inv Hx. by parse_valid.
Qed.

(** In a header: of its slot and of its parent in its thread. *)
Definition light_endorsement_ok (endorsement_count : N) (slot : Slot) (block : BlockId) (e : Endorsement) : Prop :=
  e_slot e = slot ∧ e_endorsed_block e = block ∧ index_ok endorsement_count (e_index e).
#[export] Instance EndorsementLW_wire endorsement_count slot block :
  Wire EndorsementSerializerLW (EndorsementDeserializerLW endorsement_count slot block)
    (light_endorsement_ok endorsement_count slot block).
Proof using All.
  apply (wire_map _ _ _ (λ index, MkEndorsement slot index block) e_index _ (VarInt_wire U32 (below endorsement_count))).
  - intros [s n b] (Hs & Hb & Hn). cbn in *. by subst.
  - done.
Qed.
#[export] Instance EndorsementLW_canonical endorsement_count slot block :
  Canonical EndorsementSerializerLW (EndorsementDeserializerLW endorsement_count slot block).
Proof using All. by apply (canonical_map _ _ _ _ _ (VarInt_wire U32 (below endorsement_count)) _). Qed.
Lemma endorsement_serializer_total e : ∃ b, EndorsementSerializer e = Ok b.
Proof using. destruct e as [s n [h]]. by eexists. Qed.

(** ** Denunciations *)

Definition endorsement_denunciation_ok (thread_count endorsement_count : N) (d : EndorsementDenunciation) : Prop :=
  public_key_ok (ed_public_key d) ∧ slot_in thread_count (ed_slot d) ∧ index_ok endorsement_count (ed_index d)
  ∧ hash_ok (ed_hash_1 d) ∧ hash_ok (ed_hash_2 d) ∧ signature_ok (ed_signature_1 d) ∧ signature_ok (ed_signature_2 d).
Definition header_denunciation_ok (thread_count : N) (d : BlockHeaderDenunciation) : Prop :=
  public_key_ok (bhd_public_key d) ∧ slot_in thread_count (bhd_slot d)
  ∧ hash_ok (bhd_hash_1 d) ∧ hash_ok (bhd_hash_2 d) ∧ signature_ok (bhd_signature_1 d) ∧ signature_ok (bhd_signature_2 d).
Definition denunciation_ok (thread_count endorsement_count : N) (d : Denunciation) : Prop :=
  match d with
  | DenunciationEndorsement d => endorsement_denunciation_ok thread_count endorsement_count d
  | DenunciationBlockHeader d => header_denunciation_ok thread_count d
  end.

#[export] Instance EndorsementDenunciation_canonical thread_count endorsement_count :
  Canonical EndorsementDenunciationSerializer (EndorsementDenunciationDeserializer thread_count endorsement_count).
Proof using All.
  intros i d rest Hi Hx. unfold EndorsementDenunciationDeserializer in Hx. parse_inv Hx. parse_canonical.
  unfold EndorsementDenunciationSerializer. cbn. canonical_end.
Qed.
#[export] Instance EndorsementDenunciation_wire thread_count endorsement_count :
  Wire EndorsementDenunciationSerializer (EndorsementDenunciationDeserializer thread_count endorsement_count)
    (endorsement_denunciation_ok thread_count endorsement_count).
Proof using All.
  apply wire_of_canonical; [apply _|..].
  - intros [pk s n h1 h2 s1 s2] (Hpk & Hs & Hn & Hh1 & Hh2 & Hs1 & Hs2). cbn -[u64_max] in Hpk, Hs, Hn, Hh1, Hh2, Hs1, Hs2.
    unfold EndorsementDenunciationSerializer. cbn [write_seq foldr mbind outcome_bind ed_public_key ed_slot ed_index ed_hash_1 ed_hash_2 ed_signature_1 ed_signature_2].
    wire_with (SlotDeserializer any_u64 (below thread_count)). wire_with (VarIntDeserializer U32 (below endorsement_count)).
    wire_write (wire_read _ HashDeserializer _ h1 Hh1). wire_write (wire_read _ HashDeserializer _ h2 Hh2).
    wire_reads; [apply public_key_bytes|apply signature_bytes..|]. unfold EndorsementDenunciationDeserializer.
    rewrite public_key_read by done. parse_steps. rewrite signature_read by done. parse_steps. by rewrite signature_read.
  - intros i d rest Hi Hx. unfold EndorsementDenunciationDeserializer in Hx. parse_inv Hx. by parse_valid.
Qed.

#[export] Instance BlockHeaderDenunciation_canonical thread_count :
  Canonical BlockHeaderDenunciationSerializer (BlockHeaderDenunciationDeserializer thread_count).
Proof using All.
  intros i d rest Hi Hx. unfold BlockHeaderDenunciationDeserializer in Hx. parse_inv Hx. parse_canonical.
  unfold BlockHeaderDenunciationSerializer. cbn. canonical_end.
Qed.
#[export] Instance BlockHeaderDenunciation_wire thread_count :
  Wire BlockHeaderDenunciationSerializer (BlockHeaderDenunciationDeserializer thread_count)
    (header_denunciation_ok thread_count).
Proof using All.
  apply wire_of_canonical; [apply _|..].
  - intros [pk s h1 h2 s1 s2] (Hpk & Hs & Hh1 & Hh2 & Hs1 & Hs2). cbn -[u64_max] in Hpk, Hs, Hh1, Hh2, Hs1, Hs2.
    unfold BlockHeaderDenunciationSerializer. cbn [write_seq foldr mbind outcome_bind bhd_public_key bhd_slot bhd_hash_1 bhd_hash_2 bhd_signature_1 bhd_signature_2].
    wire_with (SlotDeserializer any_u64 (below thread_count)).
    wire_write (wire_read _ HashDeserializer _ h1 Hh1). wire_write (wire_read _ HashDeserializer _ h2 Hh2).
    wire_reads; [apply public_key_bytes|apply signature_bytes..|]. unfold BlockHeaderDenunciationDeserializer.
    rewrite public_key_read by done. parse_steps. rewrite signature_read by done. parse_steps. by rewrite signature_read.
  - intros i d rest Hi Hx. unfold BlockHeaderDenunciationDeserializer in Hx. parse_inv Hx. by parse_valid.
Qed.

#[export] Instance Denunciation_canonical thread_count endorsement_count :
  Canonical DenunciationSerializer (DenunciationDeserializer thread_count endorsement_count).
Proof using All.
  intros i d rest Hi Hx. unfold DenunciationDeserializer in Hx. parse_inv Hx;
    repeat match goal with E : (_ =? _) = true |- _ => apply N.eqb_eq in E as -> end; parse_canonical;
    unfold DenunciationSerializer; cbn; canonical_end.
Qed.
Lemma type_id_ok (n : N) : n < 2 → n ≤ uint_max U32 ∧ in_range (below 2) n = true.
Proof using. rewrite in_range_below. cbn. unfold u32_max. lia. Qed.
#[export] Instance Denunciation_wire thread_count endorsement_count :
  Wire DenunciationSerializer (DenunciationDeserializer thread_count endorsement_count)
    (denunciation_ok thread_count endorsement_count).
Proof using All.
  apply wire_of_canonical; [apply _|..].
  - intros [d|d] Hd; unfold DenunciationSerializer; cbn [denunciation_type_id write_seq foldr].
    + wire_write (wire_read _ (VarIntDeserializer U32 (below 2)) _ 1 (type_id_ok 1 ltac:(done))).
      wire_with (EndorsementDenunciationDeserializer thread_count endorsement_count). wire_reads.
      unfold DenunciationDeserializer. parse_steps. cbn. by parse_steps.
    + wire_write (wire_read _ (VarIntDeserializer U32 (below 2)) _ 0 (type_id_ok 0 ltac:(done))).
      wire_with (BlockHeaderDenunciationDeserializer thread_count). wire_reads.
      unfold DenunciationDeserializer. parse_steps. cbn. by parse_steps.
  - intros i d rest Hi Hx. unfold DenunciationDeserializer in Hx. parse_inv Hx; by parse_valid.
Qed.

(** ** Operations *)

(** A number on 32 bits, then the elements. *)
Definition counted {T} (e : SerializeError) (S : Serializer T) : Serializer (list T) := λ l,
  if N.of_nat (length l) <=? u32_max then write_seq (VarIntSerializer U32 (N.of_nat (length l)) :: (S <$> l)) else Err e.
Definition counted_ok {T} (max : N) (P : T → Prop) (l : list T) : Prop :=
  Forall P l ∧ N.of_nat (length l) ≤ u32_max ∧ N.of_nat (length l) ≤ max.
Lemma counted_wire {T} e (S : Serializer T) D P max :
  Wire S D P → Wire (counted e S) (length_count (VarIntDeserializer U32 (up_to max)) D) (counted_ok max P).
Proof using All.
  intros W. destruct (wire_length_count S D P _ _ _ (VarInt_wire U32 (up_to max))) as [Hr Hv]. split.
  - intros l (Hl & Hn & Hm). unfold counted. rewrite (proj2 (N.leb_le _ _)) by done. apply Hr. by rewrite in_range_up_to.
  - intros i l rest Hi Hx. destruct (Hv _ _ _ Hi Hx) as [(? & ? & ?%in_range_up_to) ?]. done.
Qed.
Lemma counted_canonical {T} e (S : Serializer T) D P max :
  Wire S D P → Canonical S D → Canonical (counted e S) (length_count (VarIntDeserializer U32 (up_to max)) D).
Proof using All.
  intros W C i l rest Hi Hx. destruct (@wire_valid _ _ _ _ (counted_wire e S D P max W) _ _ _ Hi Hx) as [(_ & Hn & _) _].
  unfold counted. rewrite (proj2 (N.leb_le _ _)) by done.
  by apply (canonical_length_count S D P _ _ (VarInt_canonical U32 (up_to max))).
Qed.

Definition name_ok (max : N) (v : list N) : Prop :=
  is_bytes v ∧ (N.of_nat (length v) ≤ uint_max U16 ∧ in_range (up_to max) (N.of_nat (length v)) = true) ∧ is_utf8 v = true.
#[export] Instance name_wire max :
  Wire (StringSerializer (uint_max U16) (VarIntSerializer U16)) (StringDeserializer (VarIntDeserializer U16 (up_to max)))
    (name_ok max).
Proof using All. apply (String_wire (uint_max U16) _ _ _ (VarInt_wire U16 (up_to max))). by intros n [? _]. Qed.

Definition operation_type_ok (l : OperationLimits) (op : OperationType) : Prop :=
  match op with
  | Transaction recipient_address amount => address_ok recipient_address ∧ amount ≤ u64_max
  | RollBuy roll_count => roll_count ≤ u64_max
  | RollSell roll_count => roll_count ≤ u64_max
  | ExecuteSC data max_gas max_coins datastore =>
      max_gas ≤ u64_max ∧ max_coins ≤ u64_max ∧ vec_ok (max_bytecode_size l) data
      ∧ datastore_ok (max_op_datastore_entry_count l) (max_op_datastore_key_length l) (max_op_datastore_value_length l) datastore
  | CallSC target_addr target_func param max_gas coins =>
      max_gas ≤ u64_max ∧ coins ≤ u64_max ∧ address_ok target_addr ∧ name_ok (max_function_name_length l) target_func
      ∧ vec_ok (max_parameters_size l) param
  end.
Definition operation_ok (l : OperationLimits) (o : Operation) : Prop :=
  op_fee o ≤ u64_max ∧ op_expire_period o ≤ u64_max ∧ operation_type_ok l (op_type o).

#[export] Instance any_amount_wire : Wire AmountSerializer any_amount (λ a, a ≤ u64_max) := Amount_wire.
#[export] Instance u64_wire : Wire (VarIntSerializer U64) (VarIntDeserializer U64 any_u64) (λ n, n ≤ u64_max).
Proof using All. eapply wire_ext; [|apply VarInt_wire]. intros n. cbn [uint_max]. rewrite in_any_u64. tauto. Qed.
Lemma in_u32 n : n ≤ u32_max → n ≤ uint_max U32 ∧ in_range any_u32 n = true.
Proof using. intros Hn. by rewrite in_any_u32. Qed.

#[export] Instance OperationType_wire l :
  Wire OperationTypeSerializer (OperationTypeDeserializer l) (operation_type_ok l).
Proof using All.
  unfold OperationTypeDeserializer, pmap. split.
  - intros op Hop. unfold OperationTypeSerializer. cbn [write_seq foldr].
    assert (operation_type_id op ≤ u32_max) as Hid by (destruct op; by cbn).
    wire_write (wire_read _ (VarIntDeserializer U32 any_u32) _ _ (in_u32 _ Hid)).
    destruct op; cbn [operation_type_ok operation_type_id write_seq foldr] in *; destruct_and?.
    + wire_with AddressDeserializer. wire_with any_amount. wire_reads. parse_steps. cbn. by parse_steps.
    + wire_write (@wire_read _ _ _ _ u64_wire roll_count Hop). wire_reads. parse_steps. cbn. by parse_steps.
    + wire_write (@wire_read _ _ _ _ u64_wire roll_count Hop). wire_reads. parse_steps. cbn. by parse_steps.
    + wire_write (@wire_read _ _ _ _ u64_wire max_gas ltac:(done)). wire_with any_amount.
      wire_with (VecU8Deserializer (up_to (max_bytecode_size l))).
      wire_with (DatastoreDeserializer (max_op_datastore_entry_count l) (max_op_datastore_key_length l) (max_op_datastore_value_length l)).
      wire_reads. parse_steps. cbn. by parse_steps.
    + wire_write (@wire_read _ _ _ _ u64_wire max_gas ltac:(done)). wire_with any_amount. wire_with AddressDeserializer.
      wire_with (StringDeserializer (VarIntDeserializer U16 (up_to (max_function_name_length l)))).
      wire_with (VecU8Deserializer (up_to (max_parameters_size l))). wire_reads. parse_steps. cbn. by parse_steps.
  - intros i op rest Hi Hx. parse_inv Hx; parse_valid; (split; [cbn [operation_type_ok]; by split_and?|by parse_end]).
Qed.
#[export] Instance Operation_wire l : Wire OperationSerializer (OperationDeserializer l) (operation_ok l).
Proof using All.
  unfold OperationDeserializer. split.
  - intros [f e t] (Hf & He & Ht). cbn [op_fee op_expire_period op_type] in *. unfold OperationSerializer. cbn.
    wire_with any_amount. wire_write (@wire_read _ _ _ _ u64_wire e He). wire_with (OperationTypeDeserializer l).
    wire_reads. by parse_steps.
  - intros i o rest Hi Hx. parse_inv Hx. parse_valid. split; [done|by parse_end].
Qed.

Definition op_ids_ok (max : N) : list OperationId → Prop := counted_ok max (λ o, hash_ok (operation_hash o)).
#[export] Instance OperationIds_wire max : Wire OperationIdsSerializer (OperationIdsDeserializer max) (op_ids_ok max).
Proof using All. eapply wire_eq; [|apply counted_wire, _]. done. Qed.
#[export] Instance OperationIds_canonical max : Canonical OperationIdsSerializer (OperationIdsDeserializer max).
Proof using All. eapply canonical_eq; [|eapply counted_canonical; apply _]. done. Qed.

Definition signed_operation_ok (l : OperationLimits) (chain_id : N) : SecureShareOperation → Prop :=
  share_ok (OperationDeserializer l) (operation_ok l) chain_id.
#[export] Instance Operations_wire max l chain_id :
  Wire OperationsSerializer (OperationsDeserializer max l chain_id) (counted_ok max (signed_operation_ok l chain_id)).
Proof using All. eapply wire_eq; [|apply counted_wire, (SecureShare_wire OperationSerializer), _]. done. Qed.
#[export] Instance Operations_canonical max l chain_id :
  Canonical OperationsSerializer (OperationsDeserializer max l chain_id).
Proof using All.
  eapply canonical_eq; [|eapply counted_canonical; [apply (SecureShare_wire OperationSerializer), _|by eapply SecureShare_canonical, Operation_wire]]. done.
Qed.

(** Hashing identifiers never fails: they all have a format. *)
Lemma operation_id_serializer_total o : ∃ b, OperationIdSerializer o = Ok b.
Proof using. destruct o. by eexists. Qed.
Lemma compute_operations_hash_spec op_ids :
  ∃ data, Forall2 (λ o b, OperationIdSerializer o = Ok b) op_ids data
        ∧ compute_operations_hash op_ids = Ok (compute_from_tuple data).
Proof using.
  unfold compute_operations_hash. match goal with |- context [foldr ?f ?z op_ids] =>
    assert (∃ data, Forall2 (λ o b, OperationIdSerializer o = Ok b) op_ids data ∧ foldr f z op_ids = Ok data)
      as (data & HF & ->); [|by exists data] end.
  induction op_ids as [|o op_ids (data & HF & IH)]; cbn [foldr]; [by exists []|].
  destruct (operation_id_serializer_total o) as (b & Hb). exists (b :: data). split; [by constructor|]. by rewrite Hb, IH.
Qed.

(** ** Headers *)

Lemma write_seq_cons x l : write_seq (x :: l) = (b ← x; bs ← write_seq l; Ok (b ++ bs)).
Proof using. done. Qed.
Lemma write_seq_cons_eq x l l' : write_seq l = write_seq l' → write_seq (x :: l) = write_seq (x :: l').
Proof using. rewrite !write_seq_cons. by intros ->. Qed.
Lemma write_seq_group l1 l2 l2' : write_seq l2 = write_seq l2' → write_seq (l1 ++ l2) = write_seq (write_seq l1 :: l2').
Proof using. rewrite write_seq_app, write_seq_cons. by intros ->. Qed.
Lemma write_seq_last l : write_seq [write_seq l] = write_seq l.
Proof using. rewrite write_seq_cons. destruct (write_seq l); cbn; by rewrite ?app_nil_r. Qed.

Definition parents_ok (thread_count : N) (parents : list BlockId) : Prop :=
  Forall (λ b, hash_ok (get_hash b)) parents ∧ (parents = [] ∨ N.of_nat (length parents) = thread_count).
Definition parents_serializer : Serializer (list BlockId) := λ parents,
  write_seq (Ok [match parents with [] => 0 | _ => 1 end] :: (BlockIdSerializer <$> parents)).

#[export] Instance parents_wire thread_count :
  Wire parents_serializer (ParentsDeserializer thread_count) (parents_ok thread_count).
Proof using All.
  unfold ParentsDeserializer, alt, preceded. split.
  - intros parents [Hl Hn]. unfold parents_serializer. rewrite write_seq_cons. cbn [mbind outcome_bind].
    wire_write (count_read BlockIdSerializer BlockIdDeserializer _ parents Hl). wire_reads; [by destruct parents|].
    destruct parents as [|p parents]; [cbn in HS; by simplify_eq|].
    destruct Hn as [|<-]; [done|]. rewrite Nat2N.id. apply HD.
  - intros [|b i] parents rest Hi Hx; [done|]. apply is_bytes_cons in Hi as [_ Hi]. cbn in Hx.
    destruct (N.eqb_spec b 0) as [->|]; cbn in Hx; [simplify_eq; split; [by split; [|left]|by exists [0]]|].
    destruct (N.eqb_spec b 1) as [->|]; cbn in Hx; [|done].
    apply (count_valid BlockIdSerializer _ _ _) in Hx as (Hn & ? & b & -> & HD); [|done].
    split; [split; [done|right; lia]|]. exists (1 :: b). split; [done|]. intros rest'. apply HD.
Qed.
Lemma parents_canonical thread_count i parents rest :
  0 < thread_count → is_bytes i → ParentsDeserializer thread_count i = Some (parents, rest) →
  ∃ b, parents_serializer parents = Ok b ∧ i = b ++ rest.
Proof using All.
  intros Ht. unfold ParentsDeserializer, alt, preceded, parents_serializer.
  destruct i as [|b i]; [done|]. intros [_ Hi]%is_bytes_cons Hx. cbn in Hx.
  destruct (N.eqb_spec b 0) as [->|]; cbn in Hx; [simplify_eq; by exists [0]|].
  destruct (N.eqb_spec b 1) as [->|]; cbn in Hx; [|done].
  pose proof (count_valid BlockIdSerializer _ _ _ _ _ _ Hi Hx) as (Hn & _).
  apply (count_canonical BlockIdSerializer _ _) in Hx as (b & HS & ->); [|done].
  destruct parents as [|p parents]; [cbn in Hn; lia|]. rewrite write_seq_cons, HS. by eexists.
Qed.

Lemma write_seq_if (c : bool) x e l : write_seq ((if c then x else Err e) :: l) = if c then write_seq (x :: l) else Err e.
Proof using. by destruct c. Qed.

Definition endorsements_serializer : Serializer (list SecureShareEndorsement) :=
  counted (SerializeGeneralError "too many endorsements") (serialize_with EndorsementSerializerLW).
Definition denunciations_serializer : Serializer (list Denunciation) :=
  counted (SerializeGeneralError "too many denunciations") DenunciationSerializer.
(** A header is a sequence of fields. *)
Lemma header_serializer_eq h :
  BlockHeaderSerializer h
  = write_seq [VarIntSerializer U32 (current_version h); OptionSerializer (VarIntSerializer U32) (announced_version h);
               SlotSerializer (h_slot h); parents_serializer (h_parents h); HashSerializer (operation_merkle_root h);
               endorsements_serializer (endorsements h); denunciations_serializer (denunciations h)].
Proof using.
  unfold BlockHeaderSerializer, endorsements_serializer, denunciations_serializer, counted. rewrite <-!write_seq_if.
  unfold parents_serializer, HashSerializer. cbn [app].
  do 3 apply write_seq_cons_eq. apply (write_seq_group (_ :: _)), write_seq_cons_eq, (write_seq_group (_ :: _)).
  symmetry. apply write_seq_last.
Qed.

Definition header_endorsement_ok (l : HeaderLimits) (slot : Slot) (parent : BlockId) : SecureShareEndorsement → Prop :=
  light_share_ok (light_endorsement_ok (hl_endorsement_count l) slot parent) (hl_chain_id l) EndorsementSerializer.

#[export] Instance header_endorsement_wire l slot parent :
  Wire (serialize_with EndorsementSerializerLW)
    (HeaderEndorsementDeserializer (hl_endorsement_count l) slot parent (hl_chain_id l)) (header_endorsement_ok l slot parent).
Proof using All.
  assert (Wire (serialize_with EndorsementSerializerLW)
            (deserialize_with EndorsementSerializer (EndorsementDeserializerLW (hl_endorsement_count l) slot parent) (hl_chain_id l))
            (header_endorsement_ok l slot parent)) as W.
  { apply light_wire; [apply _|]. intros c _. apply endorsement_serializer_total. }
  unfold HeaderEndorsementDeserializer. split.
  - intros e He. destruct (@wire_read _ _ _ _ W e He) as (b & HS & Hb & HD). exists b. split_and!; [done..|].
    intros rest. rewrite HD. cbn. destruct He as (_ & (_ & -> & _) & _). by rewrite decide_True.
  - intros i e rest Hi Hx. parse_inv Hx. parse_valid. split; [done|]. by parse_end.
Qed.
#[export] Instance header_endorsement_canonical l slot parent :
  Canonical (serialize_with EndorsementSerializerLW)
    (HeaderEndorsementDeserializer (hl_endorsement_count l) slot parent (hl_chain_id l)).
Proof using All.
  intros i e rest Hi Hx. unfold HeaderEndorsementDeserializer in Hx. parse_inv Hx.
  eapply light_canonical; [apply _|done|eassumption].
Qed.

(** What follows the merkle root. *)
Definition tail_ok (l : HeaderLimits) (slot : Slot) (parents : list BlockId)
    (t : list SecureShareEndorsement * list Denunciation) : Prop :=
  match parents with
  | [] => t = ([], [])
  | _ =>
      ∃ parent, parents !! N.to_nat (thread slot) = Some parent
      ∧ counted_ok (hl_endorsement_count l) (header_endorsement_ok l slot parent) t.1
      ∧ NoDup ((λ e, e_index (content e)) <$> t.1)
      ∧ counted_ok (hl_max_denunciations l) (denunciation_ok (hl_thread_count l) (hl_endorsement_count l)) t.2
  end.
Lemma tail_ok_parents l slot parents t : parents ≠ [] →
  tail_ok l slot parents t ↔
  ∃ parent, parents !! N.to_nat (thread slot) = Some parent
  ∧ counted_ok (hl_endorsement_count l) (header_endorsement_ok l slot parent) t.1
  ∧ NoDup ((λ e, e_index (content e)) <$> t.1)
  ∧ counted_ok (hl_max_denunciations l) (denunciation_ok (hl_thread_count l) (hl_endorsement_count l)) t.2.
Proof using. by destruct parents. Qed.
Definition tail_serializer : Serializer (list SecureShareEndorsement * list Denunciation) := λ t,
  write_seq [endorsements_serializer t.1; denunciations_serializer t.2].

#[export] Instance endorsements_wire l slot parent :
  Wire endorsements_serializer
    (length_count (VarIntDeserializer U32 (up_to (hl_endorsement_count l)))
       (HeaderEndorsementDeserializer (hl_endorsement_count l) slot parent (hl_chain_id l)))
    (counted_ok (hl_endorsement_count l) (header_endorsement_ok l slot parent)).
Proof using All. apply counted_wire, _. Qed.
#[export] Instance endorsements_canonical l slot parent :
  Canonical endorsements_serializer
    (length_count (VarIntDeserializer U32 (up_to (hl_endorsement_count l)))
       (HeaderEndorsementDeserializer (hl_endorsement_count l) slot parent (hl_chain_id l))).
Proof using All. eapply counted_canonical; apply _. Qed.
#[export] Instance denunciations_wire l :
  Wire denunciations_serializer
    (length_count (VarIntDeserializer U32 (up_to (hl_max_denunciations l)))
       (DenunciationDeserializer (hl_thread_count l) (hl_endorsement_count l)))
    (counted_ok (hl_max_denunciations l) (denunciation_ok (hl_thread_count l) (hl_endorsement_count l))).
Proof using All. apply counted_wire, _. Qed.
#[export] Instance denunciations_canonical l :
  Canonical denunciations_serializer
    (length_count (VarIntDeserializer U32 (up_to (hl_max_denunciations l)))
       (DenunciationDeserializer (hl_thread_count l) (hl_endorsement_count l))).
Proof using All. eapply counted_canonical; apply _. Qed.

Lemma tag_Some b i x rest : tag b i = Some (x, rest) → i = [b] ++ rest.
Proof using. destruct i as [|y i]; cbn; [done|]. destruct (N.eqb_spec y b) as [->|]; intros; by simplify_eq. Qed.
Lemma empty_tail : tail_serializer ([], []) = Ok [0; 0].
Proof using All.
  unfold tail_serializer, endorsements_serializer, denunciations_serializer, counted, VarIntSerializer. cbn. by rewrite varint_0.
Qed.

Lemma tail_parse l slot parents parent i t rest :
  parents ≠ [] → parents !! N.to_nat (thread slot) = Some parent →
  HeaderTailDeserializer l slot parents i = Some (t, rest) ↔
  ∃ r, length_count (VarIntDeserializer U32 (up_to (hl_endorsement_count l)))
         (HeaderEndorsementDeserializer (hl_endorsement_count l) slot parent (hl_chain_id l)) i = Some (t.1, r)
     ∧ NoDup ((λ e, e_index (content e)) <$> t.1)
     ∧ length_count (VarIntDeserializer U32 (up_to (hl_max_denunciations l)))
         (DenunciationDeserializer (hl_thread_count l) (hl_endorsement_count l)) r = Some (t.2, rest).
Proof using.
  intros Hne Hp. unfold HeaderTailDeserializer. destruct parents as [|p parents]; [done|]. rewrite Hp. cbn [mbind option_bind].
  rewrite bind_pair_Some. split.
  - intros (e & r & He & Hx). case_decide; [|done]. apply bind_pair_Some in Hx as (d & r' & Hd & [= <- <-]). eauto.
  - intros (r & He & Hn & Hd). exists t.1, r. rewrite decide_True by done. rewrite Hd. by destruct t.
Qed.

#[export] Instance tail_canonical l slot parents : Canonical tail_serializer (HeaderTailDeserializer l slot parents).
Proof using All.
  intros i t rest Hi Hx. destruct (decide (parents = [])) as [->|Hne].
  - unfold HeaderTailDeserializer in Hx. parse_inv Hx. repeat match goal with HT : tag _ _ = _ |- _ => apply tag_Some in HT as -> end.
    rewrite empty_tail. by eexists.
  - destruct (parents !! N.to_nat (thread slot)) as [parent|] eqn:Hp.
    + apply (tail_parse _ _ _ parent) in Hx as (r & He & _ & Hd); [|done..]. parse_canonical.
      unfold tail_serializer. cbn. canonical_end.
    + unfold HeaderTailDeserializer in Hx. destruct parents; [done|]. by rewrite Hp in Hx.
Qed.
#[export] Instance tail_wire l slot parents :
  Wire tail_serializer (HeaderTailDeserializer l slot parents) (tail_ok l slot parents).
Proof using All.
  apply wire_of_canonical; [apply _|..].
  - intros t Ht. destruct (decide (parents = [])) as [->|Hne].
    + cbn in Ht. subst t. rewrite empty_tail. exists [0; 0]. split; [done|]. split; [by repeat constructor|done].
    + apply tail_ok_parents in Ht as (parent & Hp & He & Hn & Hd); [|done]. unfold tail_serializer. cbn.
      wire_write (@wire_read _ _ _ _ (endorsements_wire l slot parent) _ He).
      wire_write (@wire_read _ _ _ _ (denunciations_wire l) _ Hd). wire_reads.
      apply (tail_parse _ _ _ parent); [done..|]. eauto.
  - intros i t rest Hi Hx. destruct (decide (parents = [])) as [->|Hne].
    + unfold HeaderTailDeserializer in Hx. by parse_inv Hx.
    + destruct (parents !! N.to_nat (thread slot)) as [parent|] eqn:Hp.
      * apply (tail_parse _ _ _ parent) in Hx as (r & He & ? & Hd); [|done..]. parse_valid. apply tail_ok_parents; eauto.
      * unfold HeaderTailDeserializer in Hx. destruct parents; [done|]. by rewrite Hp in Hx.
Qed.

(** What a header satisfies: its versions fit, its parents are one per thread or none,
    endorsements endorse the parent in its thread, at different indexes, and without
    parents there are neither endorsements nor denunciations. *)
Definition header_ok (l : HeaderLimits) (h : BlockHeader) : Prop :=
  current_version h ≤ u32_max ∧ (∀ v, announced_version h = Some v → v ≤ u32_max)
  ∧ slot_in (hl_thread_count l) (h_slot h) ∧ parents_ok (hl_thread_count l) (h_parents h)
  ∧ parents_fit (hl_last_start_period l) (hl_thread_count l) (h_slot h) (h_parents h) = true
  ∧ hash_ok (operation_merkle_root h)
  ∧ tail_ok l (h_slot h) (h_parents h) (endorsements h, denunciations h).

(** The thread of a header with parents has a parent, so that taking it does not panic. *)
Lemma parent_of_thread l slot parents :
  slot_in (hl_thread_count l) slot → parents_ok (hl_thread_count l) parents → parents ≠ [] →
  is_Some (parents !! N.to_nat (thread slot)).
Proof using.
  intros (_ & _ & Ht%in_range_below) (_ & [|Hn]) Hne; [done|]. apply lookup_lt_is_Some. lia.
Qed.

#[export] Instance u32_wire : Wire (VarIntSerializer U32) (VarIntDeserializer U32 any_u32) (λ n, n ≤ u32_max).
Proof using VL. eapply wire_ext; [|apply VarInt_wire]. intros n. cbn [uint_max]. rewrite in_any_u32. tauto. Qed.

Lemma header_fields h :
  BlockHeaderSerializer h
  = write_seq [VarIntSerializer U32 (current_version h); OptionSerializer (VarIntSerializer U32) (announced_version h);
               SlotSerializer (h_slot h); parents_serializer (h_parents h); HashSerializer (operation_merkle_root h);
               tail_serializer (endorsements h, denunciations h)].
Proof using. rewrite header_serializer_eq. do 5 apply write_seq_cons_eq. symmetry. apply write_seq_last. Qed.

Lemma slot_below_thread_count rp thread_count i s rest :
  SlotDeserializer rp (below thread_count) i = Some (s, rest) → 0 < thread_count.
Proof using. unfold SlotDeserializer. intros Hx. parse_inv Hx. apply in_range_below in Heqb. lia. Qed.

#[export] Instance BlockHeader_canonical l : Canonical BlockHeaderSerializer (BlockHeaderDeserializer l).
Proof using All.
  intros i h rest Hi Hx. unfold BlockHeaderDeserializer in Hx. rewrite header_fields. parse_inv Hx.
  assert (0 < hl_thread_count l) by (by eapply slot_below_thread_count). parse_canonical.
  match goal with HP : ParentsDeserializer _ _ = _ |- _ => apply parents_canonical in HP as (? & HS2 & ->); [|done..] end.
  apply is_bytes_app in Hi as [_ Hi]. parse_canonical.
  match goal with HT : tail_serializer ?t = Ok _ |- _ => destruct t end.
  cbn [write_seq foldr current_version announced_version h_slot h_parents operation_merkle_root endorsements denunciations fst snd].
  canonical_end.
Qed.
#[export] Instance BlockHeader_wire l : Wire BlockHeaderSerializer (BlockHeaderDeserializer l) (header_ok l).
Proof using All.
  apply wire_of_canonical; [apply _|..].
  - intros [cv av s ps r es ds] (Hcv & Hav & Hs & Hps & Hfit & Hr & Ht). rewrite header_fields.
    cbn [write_seq foldr current_version announced_version h_slot h_parents operation_merkle_root endorsements denunciations] in *.
    wire_write (@wire_read _ _ _ _ u32_wire cv Hcv). wire_write (@wire_read _ _ _ _ (Option_wire _ _ _ u32_wire) av Hav).
    wire_with (SlotDeserializer any_u64 (below (hl_thread_count l))).
    wire_write (@wire_read _ _ _ _ (parents_wire (hl_thread_count l)) ps Hps). wire_write (@wire_read _ _ _ _ Hash_wire r Hr).
    wire_write (@wire_read _ _ _ _ (tail_wire l s ps) _ Ht). wire_reads. unfold BlockHeaderDeserializer. by parse_steps.
  - intros i h rest Hi Hx. unfold BlockHeaderDeserializer in Hx. parse_inv Hx. parse_valid.
    unfold header_ok. cbn [current_version announced_version h_slot h_parents operation_merkle_root endorsements denunciations].
    rewrite <-surjective_pairing. done.
Qed.

(** ** Blocks *)

Definition secured_header_ok (l : HeaderLimits) : SecuredHeader → Prop :=
  share_ok (BlockHeaderDeserializer l) (header_ok l) (hl_chain_id l).
(** The operations of a block are those that its header announces. *)
Definition block_ok (l : HeaderLimits) (max_operations : N) (b : Block) : Prop :=
  secured_header_ok l (header b) ∧ op_ids_ok max_operations (operations b)
  ∧ compute_operations_hash (operations b) = Ok (operation_merkle_root (content (header b))).

#[export] Instance secured_header_wire l :
  Wire SecureShareSerializer (SecureShareDeserializer (BlockHeaderDeserializer l) (hl_chain_id l)) (secured_header_ok l).
Proof using All. apply SecureShare_wire with BlockHeaderSerializer, _. Qed.
#[export] Instance secured_header_canonical l :
  Canonical (A := SecuredHeader) SecureShareSerializer (SecureShareDeserializer (BlockHeaderDeserializer l) (hl_chain_id l)).
Proof using All. by eapply SecureShare_canonical, BlockHeader_wire. Qed.

#[export] Instance Block_canonical l max : Canonical BlockSerializer (BlockDeserializer l max).
Proof using All.
  intros i b rest Hi Hx. unfold BlockDeserializer in Hx. parse_inv Hx. parse_canonical.
  unfold BlockSerializer. cbn. canonical_end.
Qed.
#[export] Instance Block_wire l max : Wire BlockSerializer (BlockDeserializer l max) (block_ok l max).
Proof using All.
  apply wire_of_canonical; [apply _|..].
  - intros [h o] (Hh & Ho & Hroot). cbn [header operations] in *. unfold BlockSerializer. cbn.
    wire_write (@wire_read _ _ _ _ (secured_header_wire l) h Hh). wire_write (@wire_read _ _ _ _ (OperationIds_wire max) o Ho).
    wire_reads. unfold BlockDeserializer. parse_steps. rewrite Hroot, N.eqb_refl. done.
  - intros i b rest Hi Hx. unfold BlockDeserializer in Hx. parse_inv Hx. parse_valid. match goal with E : (_ =? _) = true |- _ => apply N.eqb_eq in E end. by subst.
Qed.

(** A signed block is read as the block and the header say. *)
Definition signed_block_ok (l : HeaderLimits) (max_operations : N) (s : SecureShareBlock) : Prop :=
  block_ok l max_operations (content s) ∧ BlockSerializer (content s) = Ok (serialized_data s)
  ∧ s = share_of_block (content s) (serialized_data s).
#[export] Instance SecureShareBlock_canonical l max :
  Canonical SecureShareBlockSerializer (SecureShareBlockDeserializer l max).
Proof using All.
  intros i s rest Hi Hx. unfold SecureShareBlockDeserializer in Hx. parse_inv Hx. parse_canonical.
  rewrite take_consumed. by eexists.
Qed.
#[export] Instance SecureShareBlock_wire l max :
  Wire SecureShareBlockSerializer (SecureShareBlockDeserializer l max) (signed_block_ok l max).
Proof using All.
  apply wire_of_canonical; [apply _|..].
  - intros s (Hb & Hs & Heq). destruct (@wire_read _ _ _ _ (Block_wire l max) _ Hb) as (b & HS & Hb' & HD).
    unfold SecureShareBlockSerializer. rewrite Hs in HS. injection HS as HS. rewrite HS in *.
    exists b. split_and!; [done..|]. intros rest. unfold SecureShareBlockDeserializer. rewrite HD. cbn. by rewrite take_consumed, <-Heq.
  - intros i s rest Hi Hx. unfold SecureShareBlockDeserializer in Hx. parse_inv Hx.
    match goal with HB : BlockDeserializer _ _ _ = _ |- _ => pose proof HB as HC end.
    apply (@canonical _ _ _ (Block_canonical l max)) in HC as (b & HS & ->); [|done].
    apply (@wire_valid _ _ _ _ (Block_wire l max)) in H2 as [Hok _]; [|done].
    unfold signed_block_ok. cbn. by rewrite take_consumed.
Qed.
End facts.
