(* ===== verification/Denunciations.v ===== *)
(** * Denunciations

    [massa-models/src/denunciation.rs] and the signatures that they are about
    ([secure_share.rs], [massa-signature/src/signature_impl.rs]): two signatures of a key on
    different headers of a slot, or on different endorsements of a slot and an index.

    The signatures of the crate [ed25519-dalek] are the class [Ed25519]. *)

From S2P Require Import Prelude Slots OrdMap MipState MipStore Keys Models Ledger Wire Formats BlockFormats.

Open Scope N_scope.

(** [VerifyingKey::verify] and [verify_batch] *)
Class Ed25519 : Type := {
  ed25519_verify : N → Hash → N → bool;
  ed25519_verify_batch : list Hash → list N → list N → bool }.

(** [PublicKey::verify_signature] succeeds *)
Definition verify_signature `{!Ed25519} (pk : PublicKey) (hash : Hash) (signature : Signature) : bool :=
  match pk, signature with PublicKeyV0 pubkey, SignatureV0 signature => ed25519_verify pubkey hash signature end.
Definition verify_signature_batch `{!Ed25519} (batch : list (Hash * Signature * PublicKey)) : bool :=
  match batch with
  | [] => true
  | [(hash, signature, public_key)] => verify_signature public_key hash signature
  | _ =>
      ed25519_verify_batch ((λ '(hash, _, _), hash) <$> batch)
        ((λ '(_, signature, _), match signature with SignatureV0 s => s end) <$> batch)
        ((λ '(_, _, public_key), match public_key with PublicKeyV0 pk => pk end) <$> batch)
  end.

(** [sig_chain_id_for_slot] of [massa-versioning/src/consensus_signature.rs]: the chain is
    signed from the second version of the execution on. *)
Definition MIP_0002_EXECUTION_VERSION : N := 2.

Section denunciations.
Context `{!Varint} `{!HashFn} `{!Ed25519}.

(** [SecureShare::verify_signature] succeeds. *)
Definition share_verify_signature {T ID} `{!SecureShareContent T} `{!Id ID} (s : SecureShare T ID) (sig_chain_id : option N) : bool :=
  verify_signature (content_creator_pub_key s)
    (compute_signed_hash (content s) (content_creator_pub_key s) (id_get_hash (id s)) sig_chain_id) (Models.signature s).
(** A block is signed as its header. *)
Definition block_verify_signature (s : SecureShareBlock) (sig_chain_id : option N) : bool :=
  verify_signature (content_creator_pub_key s)
    (compute_signed_hash (content (header (content s))) (content_creator_pub_key s) (get_hash (id s)) sig_chain_id)
    (Models.signature s).

(** [compute_hash_for_sig_verif] *)
Definition endorsement_hash_for_sig_verif (public_key : PublicKey) (slot : Slot) (index : N) (content_hash : Hash)
    (sig_chain_id : option N) : Hash :=
  compute_from (public_key_to_bytes public_key ++ endorsement_denunciation_data slot index sig_chain_id
                ++ to_be_bytes 32 content_hash).
Definition header_hash_for_sig_verif (public_key : PublicKey) (slot : Slot) (content_hash : Hash)
    (sig_chain_id : option N) : Hash :=
  compute_from (public_key_to_bytes public_key ++ header_denunciation_data slot sig_chain_id ++ to_be_bytes 32 content_hash).

Definition is_also_for_endorsement (d : Denunciation) (s : SecureShareEndorsement) (sig_chain_id : option N) : bool :=
  match d with
  | DenunciationBlockHeader _ => false
  | DenunciationEndorsement de =>
      let content_hash := id_get_hash (id s) in
      let hash := endorsement_hash_for_sig_verif (ed_public_key de) (ed_slot de) (ed_index de) content_hash sig_chain_id in
      bool_decide (ed_slot de = e_slot (content s)) && (ed_index de =? e_index (content s))
      && bool_decide (ed_public_key de = content_creator_pub_key s)
      && negb (ed_hash_1 de =? content_hash) && negb (ed_hash_2 de =? content_hash)
      && verify_signature (ed_public_key de) hash (Models.signature s)
  end.
Definition is_also_for_block_header (d : Denunciation) (s : SecuredHeader) (sig_chain_id : option N) : bool :=
  match d with
  | DenunciationEndorsement _ => false
  | DenunciationBlockHeader de =>
      let content_hash := id_get_hash (id s) in
      let hash := header_hash_for_sig_verif (bhd_public_key de) (bhd_slot de) content_hash sig_chain_id in
      bool_decide (bhd_slot de = h_slot (content s)) && bool_decide (bhd_public_key de = content_creator_pub_key s)
      && negb (bhd_hash_1 de =? content_hash) && negb (bhd_hash_2 de =? content_hash)
      && verify_signature (bhd_public_key de) hash (Models.signature s)
  end.

Definition is_valid_with_chain (d : Denunciation) (sig_chain_id : option N) : bool :=
  let '(signature_1, signature_2, hash_1, hash_2, public_key) :=
    match d with
    | DenunciationEndorsement de =>
        (ed_signature_1 de, ed_signature_2 de,
         endorsement_hash_for_sig_verif (ed_public_key de) (ed_slot de) (ed_index de) (ed_hash_1 de) sig_chain_id,
         endorsement_hash_for_sig_verif (ed_public_key de) (ed_slot de) (ed_index de) (ed_hash_2 de) sig_chain_id,
         ed_public_key de)
    | DenunciationBlockHeader de =>
        (bhd_signature_1 de, bhd_signature_2 de,
         header_hash_for_sig_verif (bhd_public_key de) (bhd_slot de) (bhd_hash_1 de) sig_chain_id,
         header_hash_for_sig_verif (bhd_public_key de) (bhd_slot de) (bhd_hash_2 de) sig_chain_id,
         bhd_public_key de)
    end in
  negb (hash_1 =? hash_2) && verify_signature public_key hash_1 signature_1 && verify_signature public_key hash_2 signature_2.

Definition de_get_slot (d : Denunciation) : Slot :=
  match d with DenunciationEndorsement de => ed_slot de | DenunciationBlockHeader de => bhd_slot de end.
Definition de_get_index (d : Denunciation) : option N :=
  match d with DenunciationBlockHeader _ => None | DenunciationEndorsement de => Some (ed_index de) end.
Definition de_get_public_key (d : Denunciation) : PublicKey :=
  match d with DenunciationEndorsement de => ed_public_key de | DenunciationBlockHeader de => bhd_public_key de end.
(** [checked_sub] gives [None], less than any [Some]. *)
Definition is_expired (denunciation_slot_period slot_period denunciation_expire_periods : N) : bool :=
  if denunciation_slot_period <=? slot_period
  then denunciation_expire_periods <? slot_period - denunciation_slot_period
  else false.

Inductive DenunciationError : Type :=
  | InvalidInput (what : string)
  | SignatureError (what : string).

Definition check_signature (public_key : PublicKey) (hash : Hash) (signature : Signature) : outcome DenunciationError unit :=
  if verify_signature public_key hash signature then Ok () else Err (SignatureError "Signature verification failed").

(** [Denunciation::try_from] two endorsements *)
Definition denunciation_of_endorsements (s_e1 s_e2 : SecureShareEndorsement) (sig_chain_id : option N)
    : outcome DenunciationError Denunciation :=
  if negb (bool_decide (e_slot (content s_e1) = e_slot (content s_e2)))
     || negb (e_index (content s_e1) =? e_index (content s_e2))
     || negb (bool_decide (content_creator_pub_key s_e1 = content_creator_pub_key s_e2))
     || bool_decide (id s_e1 = id s_e2)
  then Err (InvalidInput "Not the same slot, index or public key or same hash")
  else
    let public_key := content_creator_pub_key s_e1 in
    let slot := e_slot (content s_e1) in
    let index := e_index (content s_e1) in
    let s_e1_hash_content := id_get_hash (id s_e1) in
    let s_e1_hash := endorsement_hash_for_sig_verif public_key slot index s_e1_hash_content sig_chain_id in
    let s_e2_hash_content := id_get_hash (id s_e2) in
    let s_e2_hash := endorsement_hash_for_sig_verif public_key slot index s_e2_hash_content sig_chain_id in
    _ ← check_signature public_key s_e1_hash (Models.signature s_e1);
    _ ← check_signature public_key s_e2_hash (Models.signature s_e2);
    Ok (DenunciationEndorsement
          (MkEndorsementDenunciation public_key slot index s_e1_hash_content s_e2_hash_content
             (Models.signature s_e1) (Models.signature s_e2))).
(** and two headers. *)
Definition denunciation_of_headers (s_bh1 s_bh2 : SecuredHeader) (sig_chain_id : option N)
    : outcome DenunciationError Denunciation :=
  if negb (bool_decide (h_slot (content s_bh1) = h_slot (content s_bh2)))
     || negb (bool_decide (content_creator_pub_key s_bh1 = content_creator_pub_key s_bh2))
     || bool_decide (id s_bh1 = id s_bh2)
  then Err (InvalidInput "Not the same slot or public key or same hash")
  else
    let public_key := content_creator_pub_key s_bh1 in
    let slot := h_slot (content s_bh1) in
    let s_bh1_hash_content := id_get_hash (id s_bh1) in
    let s_bh1_hash := header_hash_for_sig_verif public_key slot s_bh1_hash_content sig_chain_id in
    let s_bh2_hash_content := id_get_hash (id s_bh2) in
    let s_bh2_hash := header_hash_for_sig_verif public_key slot s_bh2_hash_content sig_chain_id in
    _ ← check_signature public_key s_bh1_hash (Models.signature s_bh1);
    _ ← check_signature public_key s_bh2_hash (Models.signature s_bh2);
    Ok (DenunciationBlockHeader
          (MkBlockHeaderDenunciation public_key slot s_bh1_hash_content s_bh2_hash_content
             (Models.signature s_bh1) (Models.signature s_bh2))).

(** ** What can become a denunciation *)

Record EndorsementDenunciationPrecursor : Type := MkEndorsementDenunciationPrecursor {
  edp_public_key : PublicKey;
  edp_slot : Slot;
  edp_index : N;
  edp_hash : Hash;
  edp_signature : Signature }.
Record BlockHeaderDenunciationPrecursor : Type := MkBlockHeaderDenunciationPrecursor {
  bhdp_public_key : PublicKey;
  bhdp_slot : Slot;
  bhdp_hash : Hash;
  bhdp_signature : Signature }.
Inductive DenunciationPrecursor : Type :=
  | PrecursorEndorsement (p : EndorsementDenunciationPrecursor)
  | PrecursorBlockHeader (p : BlockHeaderDenunciationPrecursor).

Definition dp_get_slot (p : DenunciationPrecursor) : Slot :=
  match p with PrecursorEndorsement p => edp_slot p | PrecursorBlockHeader p => bhdp_slot p end.
Definition dp_get_public_key (p : DenunciationPrecursor) : PublicKey :=
  match p with PrecursorEndorsement p => edp_public_key p | PrecursorBlockHeader p => bhdp_public_key p end.
Definition precursor_of_endorsement (value : SecureShareEndorsement) : DenunciationPrecursor :=
  PrecursorEndorsement
    (MkEndorsementDenunciationPrecursor (content_creator_pub_key value) (e_slot (content value)) (e_index (content value))
       (id_get_hash (id value)) (Models.signature value)).
Definition precursor_of_header (value : SecuredHeader) : DenunciationPrecursor :=
  PrecursorBlockHeader
    (MkBlockHeaderDenunciationPrecursor (content_creator_pub_key value) (h_slot (content value))
       (id_get_hash (id value)) (Models.signature value)).

(** [Denunciation::try_from] two precursors *)
Definition denunciation_of_precursors (de_p_1 de_p_2 : DenunciationPrecursor) (sig_chain_id : option N)
    : outcome DenunciationError Denunciation :=
  match de_p_1, de_p_2 with
  | PrecursorBlockHeader p1, PrecursorBlockHeader p2 =>
      if negb (bool_decide (bhdp_slot p1 = bhdp_slot p2)) || negb (bool_decide (bhdp_public_key p1 = bhdp_public_key p2))
         || (bhdp_hash p1 =? bhdp_hash p2)
      then Err (InvalidInput "Not the same slot or public key or same hash for de precursor")
      else
        let hash_1 := header_hash_for_sig_verif (bhdp_public_key p1) (bhdp_slot p1) (bhdp_hash p1) sig_chain_id in
        let hash_2 := header_hash_for_sig_verif (bhdp_public_key p2) (bhdp_slot p2) (bhdp_hash p2) sig_chain_id in
        _ ← check_signature (bhdp_public_key p1) hash_1 (bhdp_signature p1);
        _ ← check_signature (bhdp_public_key p1) hash_2 (bhdp_signature p2);
        Ok (DenunciationBlockHeader
              (MkBlockHeaderDenunciation (bhdp_public_key p1) (bhdp_slot p1) (bhdp_hash p1) (bhdp_hash p2)
                 (bhdp_signature p1) (bhdp_signature p2)))
  | PrecursorEndorsement p1, PrecursorEndorsement p2 =>
      if negb (bool_decide (edp_slot p1 = edp_slot p2)) || negb (edp_index p1 =? edp_index p2)
         || negb (bool_decide (edp_public_key p1 = edp_public_key p2)) || (edp_hash p1 =? edp_hash p2)
      then Err (InvalidInput "Not the same slot, index or public key or same hash for de precursor")
      else
        let hash_1 := endorsement_hash_for_sig_verif (edp_public_key p1) (edp_slot p1) (edp_index p1) (edp_hash p1) sig_chain_id in
        let hash_2 := endorsement_hash_for_sig_verif (edp_public_key p2) (edp_slot p2) (edp_index p2) (edp_hash p2) sig_chain_id in
        _ ← check_signature (edp_public_key p1) hash_1 (edp_signature p1);
        _ ← check_signature (edp_public_key p1) hash_2 (edp_signature p2);
        Ok (DenunciationEndorsement
              (MkEndorsementDenunciation (edp_public_key p1) (edp_slot p1) (edp_index p1) (edp_hash p1) (edp_hash p2)
                 (edp_signature p1) (edp_signature p2)))
  | _, _ => Err (InvalidInput "Mixed endorsement and block header denunciation precursors")
  end.

(** ** Indexes *)

Definition di_get_slot (d : DenunciationIndex) : Slot :=
  match d with DI_BlockHeader slot => slot | DI_Endorsement slot _ => slot end.
Definition di_get_index (d : DenunciationIndex) : option N :=
  match d with DI_BlockHeader _ => None | DI_Endorsement _ index => Some index end.
(** [DenunciationIndexTypeId] *)
Definition di_type_id (d : DenunciationIndex) : N :=
  match d with DI_BlockHeader _ => 0 | DI_Endorsement _ _ => 1 end.
Definition di_get_hash (d : DenunciationIndex) : Hash :=
  compute_from (to_le_bytes 4 (di_type_id d)
                ++ match d with
                   | DI_BlockHeader slot => to_bytes_key slot
                   | DI_Endorsement slot index => to_bytes_key slot ++ to_le_bytes 4 index
                   end).
Definition index_of_denunciation (d : Denunciation) : DenunciationIndex :=
  match d with
  | DenunciationEndorsement de => DI_Endorsement (ed_slot de) (ed_index de)
  | DenunciationBlockHeader de => DI_BlockHeader (bhd_slot de)
  end.
Definition index_of_precursor (p : DenunciationPrecursor) : DenunciationIndex :=
  match p with
  | PrecursorEndorsement p => DI_Endorsement (edp_slot p) (edp_index p)
  | PrecursorBlockHeader p => DI_BlockHeader (bhdp_slot p)
  end.
Definition di_key (d : DenunciationIndex) : Slot * (N * N) := (di_get_slot d, (default 0 (di_get_index d), di_type_id d)).
#[export] Instance di_ord : Ord DenunciationIndex := λ a b, cmp (di_key a) (di_key b).

Definition DenunciationIndexSerializer : Serializer DenunciationIndex := λ value,
  match value with
  | DI_BlockHeader slot => write_seq [VarIntSerializer U32 0; SlotSerializer slot]
  | DI_Endorsement slot index => write_seq [VarIntSerializer U32 1; SlotSerializer slot; VarIntSerializer U32 index]
  end.
Definition DenunciationIndexDeserializer (thread_count endorsement_count : N) : Parser DenunciationIndex := λ buffer,
  '(id, input) ← VarIntDeserializer U32 any_u32 buffer;
  if id =? 0 then pmap DI_BlockHeader (SlotDeserializer any_u64 (below thread_count)) input
  else if id =? 1 then
    '(slot, rest) ← SlotDeserializer any_u64 (below thread_count) input;
    '(index, rest) ← VarIntDeserializer U32 (up_to endorsement_count) rest;
    Some (DI_Endorsement slot index, rest)
  else None.
End denunciations.

Definition sig_chain_id_for_slot `{!VoteRatio} (mip_store : MipStoreRaw) (chain_id : N) (slot_ts : N) : option N :=
  if MIP_0002_EXECUTION_VERSION <=? get_latest_component_version_at mip_store CExecution slot_ts then Some chain_id else None.

Arguments DenunciationIndexSerializer : simpl never.
Arguments DenunciationIndexDeserializer : simpl never.
#[global] Typeclasses Opaque
  DenunciationIndexSerializer DenunciationIndexDeserializer.
