(* ===== verification/DenunciationFacts.v ===== *)
(** * A denunciation proves a double signature

    Two signed messages with the same bytes are the same message: the layouts of headers and
    of endorsements, with and without a chain, have different lengths.  So, unless the hash
    has a collision or signatures can be forged, a valid denunciation shows that
    the owner of its key signed two different messages for a place; and two different
    signed headers or endorsements for a place make a valid denunciation. *)

From S2P Require Import Prelude Slots OrdMap MipState MipStore Keys KeyFacts Models Ledger Wire WireFacts Formats FormatFacts BlockFormats BlockFormatFacts Denunciations.

Open Scope N_scope.

(** What is signed: a header or an endorsement, for a chain or in the old layout. *)
Inductive Message : Type :=
  | HeaderMessage (slot : Slot) (hash : Hash) (chain : option N)
  | EndorsementMessage (slot : Slot) (index : N) (hash : Hash) (chain : option N).
Definition message_data (m : Message) : Bytes :=
  match m with
  | HeaderMessage slot hash chain => header_denunciation_data slot chain ++ to_be_bytes 32 hash
  | EndorsementMessage slot index hash chain => endorsement_denunciation_data slot index chain ++ to_be_bytes 32 hash
  end.
Definition message_slot (m : Message) : Slot :=
  match m with HeaderMessage slot _ _ | EndorsementMessage slot _ _ _ => slot end.
Definition message_hash (m : Message) : Hash :=
  match m with HeaderMessage _ hash _ | EndorsementMessage _ _ hash _ => hash end.
Definition message_chain (m : Message) : option N :=
  match m with HeaderMessage _ _ chain | EndorsementMessage _ _ _ chain => chain end.
(** Its fields have the sizes of their types. *)
Definition message_ok (m : Message) : Prop :=
  period (message_slot m) ≤ u64_max ∧ thread (message_slot m) ≤ u8_max ∧ hash_ok (message_hash m)
  ∧ (∀ c, message_chain m = Some c → c ≤ u64_max)
  ∧ match m with EndorsementMessage _ index _ _ => index ≤ u32_max | _ => True end.

Lemma to_be_bytes_inj n x y : x < 256 ^ N.of_nat n → y < 256 ^ N.of_nat n → to_be_bytes n x = to_be_bytes n y → x = y.
Proof.
  intros Hx Hy Heq%(f_equal from_be_bytes). rewrite !from_to_be_bytes, !N.mod_small in Heq by done. done.
Qed.
Lemma to_bytes_key_inj a b :
  period a ≤ u64_max → thread a ≤ u8_max → period b ≤ u64_max → thread b ≤ u8_max → to_bytes_key a = to_bytes_key b → a = b.
Proof.
  intros Ha _ Hb _ [Hp Ht]%app_inj_1; [|by rewrite !length_to_be_bytes].
  apply to_be_bytes_inj in Hp; [|unfold u64_max in *; lia..]. destruct a, b; cbn in *. by simplify_eq.
Qed.
Lemma length_to_bytes_key s : length (to_bytes_key s) = 9%nat.
Proof. unfold to_bytes_key. by rewrite length_app, length_to_be_bytes. Qed.
Lemma length_le n x : length (to_le_bytes n x) = n.
Proof. unfold to_le_bytes. by rewrite length_reverse, length_to_be_bytes. Qed.
Lemma length_chain c : length (chain_id_bytes c) = match c with Some _ => 8%nat | None => 0%nat end.
Proof. destruct c; [apply length_to_be_bytes|done]. Qed.
Lemma chain_bytes_inj c c' :
  (∀ x, c = Some x → x ≤ u64_max) → (∀ x, c' = Some x → x ≤ u64_max) → chain_id_bytes c = chain_id_bytes c' → c = c'.
Proof.
  intros Hc Hc' Heq. pose proof (f_equal length Heq) as Hl. rewrite !length_chain in Hl.
  destruct c as [x|], c' as [y|]; [|done..]. specialize (Hc x eq_refl). specialize (Hc' y eq_refl).
  f_equal. eapply to_be_bytes_inj; [..|exact Heq]; unfold u64_max in *; cbn; lia.
Qed.

(** ** What is signed determines the message *)
Lemma message_data_inj m m' : message_ok m → message_ok m' → message_data m = message_data m' → m = m'.
Proof.
  intros (Hp & Ht & Hh & Hc & Hi) (Hp' & Ht' & Hh' & Hc' & Hi') Heq. pose proof (f_equal length Heq) as Hl.
  destruct m as [s h c|s i h c], m' as [s' h' c'|s' i' h' c'];
    cbn [message_data message_slot message_hash message_chain] in *;
    unfold header_denunciation_data, endorsement_denunciation_data in *;
    rewrite !length_app, ?length_to_bytes_key, ?length_le, ?length_chain, !length_to_be_bytes in Hl;
    [|destruct c, c'; cbn in Hl; lia..|].
  - apply app_inj_2 in Heq as [Heq Hh2%to_be_bytes_inj]; [|done..|by rewrite !length_to_be_bytes].
    apply app_inj_1 in Heq as [Hs%to_bytes_key_inj Hc2%chain_bytes_inj]; [|done..|by rewrite !length_to_bytes_key]. by subst.
  - apply app_inj_2 in Heq as [Heq Hh2%to_be_bytes_inj]; [|done..|by rewrite !length_to_be_bytes].
    apply app_inj_1 in Heq as [Hs%to_bytes_key_inj Heq]; [|done..|by rewrite !length_to_bytes_key].
    apply app_inj_1 in Heq as [Hidx Hc2%chain_bytes_inj]; [|done..|by rewrite !length_le].
    apply (inj reverse), to_be_bytes_inj in Hidx; [|unfold u32_max in *; cbn; lia..]. by subst.
Qed.

Section facts.
Context `{!Varint} `{VL : !VarintLaws} `{!VerifyingKey} `{!HashFn} `{!Ed25519}.

Definition signed_bytes (pk : PublicKey) (m : Message) : Bytes := public_key_to_bytes pk ++ message_data m.
Definition signed_hash (pk : PublicKey) (m : Message) : Hash := compute_from (signed_bytes pk m).

(** The two messages of a denunciation. *)
Definition denounced (d : Denunciation) (chain : option N) : Message * Message :=
  match d with
  | DenunciationBlockHeader d => (HeaderMessage (bhd_slot d) (bhd_hash_1 d) chain, HeaderMessage (bhd_slot d) (bhd_hash_2 d) chain)
  | DenunciationEndorsement d =>
      (EndorsementMessage (ed_slot d) (ed_index d) (ed_hash_1 d) chain,
       EndorsementMessage (ed_slot d) (ed_index d) (ed_hash_2 d) chain)
  end.
Definition signatures (d : Denunciation) : Signature * Signature :=
  match d with
  | DenunciationBlockHeader d => (bhd_signature_1 d, bhd_signature_2 d)
  | DenunciationEndorsement d => (ed_signature_1 d, ed_signature_2 d)
  end.

Lemma is_valid_spec d chain :
  is_valid_with_chain d chain = true ↔
  let pk := de_get_public_key d in let '(m1, m2) := denounced d chain in let '(s1, s2) := signatures d in
  signed_hash pk m1 ≠ signed_hash pk m2
  ∧ verify_signature pk (signed_hash pk m1) s1 = true ∧ verify_signature pk (signed_hash pk m2) s2 = true.
Proof using.
  unfold is_valid_with_chain. destruct d as [d|d]; cbn; rewrite !andb_true_iff, negb_true_iff, N.eqb_neq;
    unfold endorsement_hash_for_sig_verif, header_hash_for_sig_verif, signed_hash, signed_bytes; cbn; tauto.
Qed.

Lemma signed_bytes_inj pk m m' : message_ok m → message_ok m' → signed_bytes pk m = signed_bytes pk m' → m = m'.
Proof using. intros Hm Hm' Heq%app_inv_head. by apply message_data_inj. Qed.

(** The byte strings whose hash the owner of a key signed, of any kind: headers, endorsements, operations, messages
    of the wallet.  Who cannot forge a signature only has theirs, and the hash has no collision between them and [bs]. *)
Record signed_by (pk : PublicKey) (log bs : list Bytes) : Prop := {
  sb_unforged : ∀ h s, verify_signature pk h s = true → ∃ b, b ∈ log ∧ h = compute_from b;
  sb_collision : ∀ b b', b ∈ log → b' ∈ bs → compute_from b = compute_from b' → b = b' }.

Lemma denunciation_sound_spec d chain log :
  let '(m1, m2) := denounced d chain in let signed := signed_bytes (de_get_public_key d) in
  message_ok m1 → message_ok m2 → signed_by (de_get_public_key d) log [signed m1; signed m2] → is_valid_with_chain d chain = true →
  signed m1 ∈ log ∧ signed m2 ∈ log ∧ signed m1 ≠ signed m2
  ∧ ∀ m, message_ok m → (signed m = signed m1 → m = m1) ∧ (signed m = signed m2 → m = m2).
Proof using.
  destruct (denounced d chain) as [m1 m2] eqn:Hm. clear VL. cbn zeta. intros Hok1 Hok2 HS Hv. apply is_valid_spec in Hv. rewrite Hm in Hv.
  cbn zeta in Hv. destruct (signatures d) as [s1 s2]. destruct Hv as (Hne & Hs1 & Hs2). unfold signed_hash in *.
  assert (∀ b s, b ∈ [signed_bytes (de_get_public_key d) m1; signed_bytes (de_get_public_key d) m2] →
            verify_signature (de_get_public_key d) (compute_from b) s = true → b ∈ log) as Hin.
  { intros b s Hb Hs. destruct (sb_unforged _ _ _ HS _ _ Hs) as (b' & Hb' & Heq).
    by rewrite <-(sb_collision _ _ _ HS b' b Hb' Hb (eq_sym Heq)). }
  split_and!; [by eapply Hin; [set_solver|..]|by eapply Hin; [set_solver|..]|congruence|].
  intros m Hok. split; by apply signed_bytes_inj.
Qed.

(** ** Two signed objects for a place make a denunciation *)

Lemma endorsement_signed_hash (e : SecureShareEndorsement) chain :
  compute_signed_hash (content e) (content_creator_pub_key e) (id_get_hash (id e)) chain
  = signed_hash (content_creator_pub_key e)
      (EndorsementMessage (e_slot (content e)) (e_index (content e)) (id_get_hash (id e)) chain).
Proof using. unfold signed_hash, signed_bytes. cbn. by rewrite <-?app_assoc. Qed.
Lemma header_signed_hash (h : SecuredHeader) chain :
  compute_signed_hash (content h) (content_creator_pub_key h) (id_get_hash (id h)) chain
  = signed_hash (content_creator_pub_key h) (HeaderMessage (h_slot (content h)) (id_get_hash (id h)) chain).
Proof using. unfold signed_hash, signed_bytes. cbn. by rewrite <-?app_assoc. Qed.

Lemma denunciation_of_headers_spec h1 h2 chain d :
  denunciation_of_headers h1 h2 chain = Ok d ↔
  (h_slot (content h1) = h_slot (content h2) ∧ content_creator_pub_key h1 = content_creator_pub_key h2 ∧ id h1 ≠ id h2
   ∧ share_verify_signature h1 chain = true ∧ share_verify_signature h2 chain = true)
  ∧ d = DenunciationBlockHeader
          (MkBlockHeaderDenunciation (content_creator_pub_key h1) (h_slot (content h1))
             (id_get_hash (id h1)) (id_get_hash (id h2)) (Models.signature h1) (Models.signature h2)).
Proof using.
  unfold denunciation_of_headers, share_verify_signature, check_signature. rewrite !header_signed_hash.
  change header_hash_for_sig_verif with (λ pk s h c, signed_hash pk (HeaderMessage s h c)). cbn beta.
  repeat case_bool_decide; cbn [negb orb]; try (split; [done|tauto]).
  repeat match goal with E : _ = _ |- _ => rewrite <-E; clear E end.
  repeat case_match; cbn; naive_solver.
Qed.
Lemma denunciation_of_endorsements_spec e1 e2 chain d :
  denunciation_of_endorsements e1 e2 chain = Ok d ↔
  (e_slot (content e1) = e_slot (content e2) ∧ e_index (content e1) = e_index (content e2)
   ∧ content_creator_pub_key e1 = content_creator_pub_key e2 ∧ id e1 ≠ id e2
   ∧ share_verify_signature e1 chain = true ∧ share_verify_signature e2 chain = true)
  ∧ d = DenunciationEndorsement
          (MkEndorsementDenunciation (content_creator_pub_key e1) (e_slot (content e1)) (e_index (content e1))
             (id_get_hash (id e1)) (id_get_hash (id e2)) (Models.signature e1) (Models.signature e2)).
Proof using.
  unfold denunciation_of_endorsements, share_verify_signature, check_signature. rewrite !endorsement_signed_hash.
  change endorsement_hash_for_sig_verif with (λ pk s i h c, signed_hash pk (EndorsementMessage s i h c)). cbn beta.
  destruct (N.eqb_spec (e_index (content e1)) (e_index (content e2))) as [Hi|Hi];
  repeat case_bool_decide; cbn [negb orb]; try (split; [done|tauto]).
  repeat match goal with E : _ = _ |- _ => rewrite <-E; clear E end.
  repeat case_match; cbn; naive_solver.
Qed.

(** ** The light form *)

Definition precursor_message (p : DenunciationPrecursor) (chain : option N) : Message :=
  match p with
  | PrecursorBlockHeader p => HeaderMessage (bhdp_slot p) (bhdp_hash p) chain
  | PrecursorEndorsement p => EndorsementMessage (edp_slot p) (edp_index p) (edp_hash p) chain
  end.
Definition precursor_signature (p : DenunciationPrecursor) : Signature :=
  match p with PrecursorBlockHeader p => bhdp_signature p | PrecursorEndorsement p => edp_signature p end.
Definition precursor_verified (p : DenunciationPrecursor) (chain : option N) : Prop :=
  verify_signature (dp_get_public_key p) (signed_hash (dp_get_public_key p) (precursor_message p chain)) (precursor_signature p)
  = true.
(** Two different signed messages of a key for a place. *)
Definition double (p1 p2 : DenunciationPrecursor) (chain : option N) : Prop :=
  index_of_precursor p1 = index_of_precursor p2 ∧ dp_get_public_key p1 = dp_get_public_key p2
  ∧ message_hash (precursor_message p1 chain) ≠ message_hash (precursor_message p2 chain)
  ∧ precursor_verified p1 chain ∧ precursor_verified p2 chain.

Lemma denunciation_of_precursors_spec p1 p2 chain d :
  denunciation_of_precursors p1 p2 chain = Ok d ↔
  double p1 p2 chain
  ∧ denounced d chain = (precursor_message p1 chain, precursor_message p2 chain)
  ∧ de_get_public_key d = dp_get_public_key p1 ∧ signatures d = (precursor_signature p1, precursor_signature p2).
Proof using.
  unfold denunciation_of_precursors, double, precursor_verified, check_signature.
  change endorsement_hash_for_sig_verif with (λ pk s i h c, signed_hash pk (EndorsementMessage s i h c)).
  change header_hash_for_sig_verif with (λ pk s h c, signed_hash pk (HeaderMessage s h c)). cbn beta.
  destruct p1 as [[k s i h g]|[k s h g]], p2 as [[k' s' i' h' g']|[k' s' h' g']];
    cbn [index_of_precursor dp_get_public_key precursor_message precursor_signature message_hash
         edp_public_key edp_slot edp_index edp_hash edp_signature bhdp_public_key bhdp_slot bhdp_hash bhdp_signature];
    [|split; [done|]; by intros ((? & _) & _)..|];
    [destruct (N.eqb_spec i i') as [Hi|Hi]|]; destruct (N.eqb_spec h h') as [Hh|Hh];
    repeat case_bool_decide; cbn [negb orb]; try (split; [done|]; intros ((? & ? & ? & _) & _); simplify_eq; done);
    subst; repeat (case_match; cbn [mbind outcome_bind]);
    (split; [intros [= <-]; by repeat split|]); intros (? & Hd & Hk & Hg); try naive_solver;
    destruct d as [[]|[]]; cbn in Hd, Hk, Hg; simplify_eq; done.
Qed.

(** A denunciation that is made is valid, but for a collision. *)
Lemma made_denunciation_valid p1 p2 chain d :
  denunciation_of_precursors p1 p2 chain = Ok d →
  (signed_hash (dp_get_public_key p1) (precursor_message p1 chain) = signed_hash (dp_get_public_key p1) (precursor_message p2 chain) →
   signed_bytes (dp_get_public_key p1) (precursor_message p1 chain) = signed_bytes (dp_get_public_key p1) (precursor_message p2 chain)) →
  message_ok (precursor_message p1 chain) → message_ok (precursor_message p2 chain) →
  is_valid_with_chain d chain = true ∧ index_of_denunciation d = index_of_precursor p1.
Proof using.
  intros ((Hidx & Hpk & Hne & Hv1 & Hv2) & Hd & Hk & Hs)%denunciation_of_precursors_spec Hcol Hm1 Hm2. split.
  - apply is_valid_spec. rewrite Hd, Hk, Hs. split_and!; [|done|by unfold precursor_verified in Hv2; rewrite Hpk].
    intros Heq%Hcol%signed_bytes_inj; [|done..]. by rewrite Heq in Hne.
  - clear -Hd. destruct d, p1; cbn in *; congruence.
Qed.

Lemma header_precursor_verified h chain : precursor_verified (precursor_of_header h) chain ↔ share_verify_signature h chain = true.
Proof using. unfold share_verify_signature. by rewrite header_signed_hash. Qed.
Lemma endorsement_precursor_verified e chain :
  precursor_verified (precursor_of_endorsement e) chain ↔ share_verify_signature e chain = true.
Proof using. unfold share_verify_signature. by rewrite endorsement_signed_hash. Qed.
Lemma precursors_of_headers h1 h2 chain d :
  denunciation_of_precursors (precursor_of_header h1) (precursor_of_header h2) chain = Ok d ↔
  denunciation_of_headers h1 h2 chain = Ok d.
Proof using.
  rewrite denunciation_of_precursors_spec, denunciation_of_headers_spec. unfold double. rewrite !header_precursor_verified. cbn.
  destruct (id h1) as [i1], (id h2) as [i2]. cbn. split.
  - intros ((? & ? & ? & ? & ?) & Hd & Hk & Hs). destruct d as [|[]]; cbn in *; [done|]. simplify_eq. split; [split_and!|]; congruence.
  - intros ((? & ? & ? & ? & ?) & ->). cbn. split_and!; congruence.
Qed.
Lemma precursors_of_endorsements e1 e2 chain d :
  denunciation_of_precursors (precursor_of_endorsement e1) (precursor_of_endorsement e2) chain = Ok d ↔
  denunciation_of_endorsements e1 e2 chain = Ok d.
Proof using.
  rewrite denunciation_of_precursors_spec, denunciation_of_endorsements_spec. unfold double.
  rewrite !endorsement_precursor_verified. cbn. destruct (id e1) as [i1], (id e2) as [i2]. cbn. split.
  - intros ((? & ? & ? & ? & ?) & Hd & Hk & Hs). destruct d as [[]|]; cbn in *; [|done]. simplify_eq. split; [split_and!|]; congruence.
  - intros ((? & ? & ? & ? & ? & ?) & ->). cbn. split_and!; congruence.
Qed.

(** ** Indexes *)

Lemma di_key_inj a b : di_key a = di_key b → a = b.
Proof using. destruct a, b; cbn; naive_solver. Qed.
#[export] Instance di_ord_laws : OrdLaws DenunciationIndex.
Proof using. apply (ord_laws_via di_key); [apply di_key_inj|done]. Qed.

End facts.

Section indexes.
Context `{!Varint} `{VL : !VarintLaws}.

Definition denunciation_index_ok (thread_count endorsement_count : N) (d : DenunciationIndex) : Prop :=
  slot_ok any_u64 (below thread_count) (di_get_slot d)
  ∧ ∀ index, di_get_index d = Some index → index ≤ u32_max ∧ index ≤ endorsement_count.
#[export] Instance DenunciationIndex_canonical thread_count endorsement_count :
  Canonical DenunciationIndexSerializer (DenunciationIndexDeserializer thread_count endorsement_count).
Proof using All.
  intros i d rest Hi Hx. unfold DenunciationIndexDeserializer, pmap in Hx. parse_inv Hx;
    repeat match goal with E : (_ =? _) = true |- _ => apply N.eqb_eq in E as -> end; parse_canonical;
    unfold DenunciationIndexSerializer; cbn [write_seq foldr]; canonical_end.
Qed.
#[export] Instance DenunciationIndex_wire thread_count endorsement_count :
  Wire DenunciationIndexSerializer (DenunciationIndexDeserializer thread_count endorsement_count)
    (denunciation_index_ok thread_count endorsement_count).
Proof using All.
  apply wire_of_canonical; [apply _|..].
  - intros [s|s n] [Hs Hn]; cbn [di_get_slot di_get_index] in *; unfold DenunciationIndexSerializer; cbn [write_seq foldr].
    + wire_write (@wire_read _ _ _ _ u32_wire 0 ltac:(done)). wire_with (SlotDeserializer any_u64 (below thread_count)).
      wire_reads. unfold DenunciationIndexDeserializer, pmap. parse_steps. cbn. by parse_steps.
    + destruct (Hn n eq_refl) as [Hn1 Hn2]. assert (n ≤ uint_max U32 ∧ in_range (up_to endorsement_count) n = true) as Hr
        by (by rewrite in_range_up_to).
      wire_write (@wire_read _ _ _ _ u32_wire 1 ltac:(done)). wire_with (SlotDeserializer any_u64 (below thread_count)).
      wire_with (VarIntDeserializer U32 (up_to endorsement_count)).
      wire_reads. unfold DenunciationIndexDeserializer. parse_steps. cbn. by parse_steps.
  - intros i d rest Hi Hx. unfold DenunciationIndexDeserializer, pmap in Hx. parse_inv Hx; parse_valid;
      (split; [done|]); cbn; [done|]. intros ? [= <-]. by rewrite in_range_up_to in *; destruct_and!.
Qed.
End indexes.
