(* ===== verification/ChainFormats.v ===== *)
(** * Blocks and denunciations

    The theorems about the formats of blocks and headers, the keys of the ledger in the
    database, and denunciations, evaluated on a block of a network with two threads. *)

From S2P Require Import Prelude Slots OrdMap MipState MipStore Keys KeyFacts Models Ledger Wire WireFacts Formats FormatFacts WireSamples BlockFormats BlockFormatFacts Denunciations DenunciationFacts.

Open Scope N_scope.

(** ** A network *)

(** The last 32 bytes, as a hash. *)
#[export] Instance tail_hash : HashFn := λ b, from_be_bytes b mod 256 ^ 32.
#[export] Instance tail_hash_laws : HashLaws.
Proof. intros b. unfold hash_ok, compute_from, tail_hash. apply N.mod_lt. done. Qed.

Definition sample_limits : HeaderLimits := MkHeaderLimits 2 2 1 (Some 0) 77.
Definition sample_key : PublicKey := PublicKeyV0 5.
Definition sample_sign (h : Hash) : Signature := SignatureV0 h.
Definition sample_slot : Slot := MkSlot 1 1.

Definition signed {T ID} `{!SecureShareContent T} `{!Id ID} (S : Serializer T) (c : T) (d : SecureShare T ID) : SecureShare T ID :=
  match new_verifiable c S sample_key sample_sign 77 (Some 77) with Ok s => s | _ => d end.
Definition no_share {T ID} `{!Id ID} (c : T) : SecureShare T ID :=
  MkSecureShare c [] (SignatureV0 0) sample_key (User (UserAddressV0 0)) (id_new 0).
Definition sample_endorsement : SecureShareEndorsement :=
  let e := MkEndorsement sample_slot 1 (BlockIdV0 12) in signed EndorsementSerializer e (no_share e).
Definition sample_denunciation : Denunciation :=
  DenunciationBlockHeader (MkBlockHeaderDenunciation sample_key (MkSlot 0 1) 3 4 (SignatureV0 1) (SignatureV0 2)).
Definition sample_ops : list OperationId := [OperationIdV0 21; OperationIdV0 22].
Definition sample_root : Hash := match compute_operations_hash sample_ops with Ok h => h | _ => 0 end.
Definition sample_content : BlockHeader :=
  MkBlockHeader 1 (Some 2) sample_slot [BlockIdV0 11; BlockIdV0 12] sample_root [sample_endorsement] [sample_denunciation].
Definition sample_header : SecuredHeader := signed BlockHeaderSerializer sample_content (no_share sample_content).
Definition sample_block : SecureShareBlock :=
  let b := MkBlock sample_header sample_ops in
  share_of_block b (match BlockSerializer b with Ok bytes => bytes | _ => [] end).

Definition sample_bytes : Bytes := serialized_data sample_block.
Lemma sample_bytes_ok : is_bytes sample_bytes.
Proof. apply (bool_decide_unpack _). vm_compute. exact I. Qed.
Lemma sample_block_read : SecureShareBlockDeserializer sample_limits 2 sample_bytes = Some (sample_block, []).
Proof. vm_compute. reflexivity. Qed.

(** ** Blocks *)

Section blocks.
Context `{!Varint} `{!VarintLaws} `{!VerifyingKey} `{!HashFn} `{!HashLaws}.


Lemma header_ok_sound l h :
  header_ok l h →
  (h_parents h = [] ∨ N.of_nat (length (h_parents h)) = hl_thread_count l)
  ∧ (∀ p, hl_last_start_period l = Some p → h_parents h = [] ↔ period (h_slot h) = p)
  ∧ thread (h_slot h) < hl_thread_count l
  ∧ Forall (λ e, e_slot (content e) = h_slot h ∧ h_parents h !! N.to_nat (thread (h_slot h)) = Some (e_endorsed_block (content e))
                 ∧ e_index (content e) < hl_endorsement_count l
                 ∧ share_sound (hl_chain_id l) e ∧ EndorsementSerializer (content e) = Ok (serialized_data e)) (endorsements h)
  ∧ NoDup ((λ e, e_index (content e)) <$> endorsements h)
  ∧ N.of_nat (length (endorsements h)) ≤ hl_endorsement_count l
  ∧ N.of_nat (length (denunciations h)) ≤ hl_max_denunciations l.
Proof using.
  intros (_ & _ & (_ & _ & Ht%in_range_below) & (_ & Hn) & Hfit & _ & Htail). split; [done|]. split_and!; [|done|..].
  - intros p Hp. unfold parents_fit in Hfit. rewrite Hp in Hfit. destruct (N.eqb_spec (period (h_slot h)) p) as [Heq|Hne].
    + by destruct (h_parents h).
    + apply N.eqb_eq in Hfit. split; [|done]. intros Hnil. rewrite Hnil in Hfit. cbn in Hfit. lia.
  - destruct (h_parents h) as [|p ps] eqn:Hps; cbn in Htail; [by simplify_eq Htail; intros -> _; constructor|].
    destruct Htail as (parent & Hpar & (He & _ & _) & _). eapply Forall_impl; [exact He|].
    intros e (Hs & (Hsl & Hb & _ & Hi%in_range_below) & Hser). rewrite Hb. done.
  - destruct (h_parents h); cbn in Htail; [by simplify_eq Htail; intros -> _; constructor|]. by destruct Htail as (? & _ & _ & ? & _).
  - destruct (h_parents h); cbn in Htail; [simplify_eq Htail; intros -> _; apply N.le_0_l|]. by destruct Htail as (? & _ & (_ & _ & ?) & _).
  - destruct (h_parents h); cbn in Htail; [simplify_eq Htail; intros _ ->; apply N.le_0_l|]. by destruct Htail as (? & _ & _ & _ & _ & _ & ?).
Qed.

(** C9. Whatever bytes are received: if they are read as a block, then its header has one
    parent per thread or, only in the first period, none; its endorsements are for the slot of
    the block, endorse the parent in its thread, are signed objects with the identifier of
    their content, and have different indexes, of which there are at most
    [endorsement_count]; there are at most [max_denunciations] denunciations; the operations are
    those that the merkle root of the header announces; the identifier of the block is
    the hash of the key and the header; and the bytes are the only ones that are read as it. *)
Theorem accepted_block_sound l max i s rest :
  is_bytes i → SecureShareBlockDeserializer l max i = Some (s, rest) →
  let h := content (header (content s)) in
  (h_parents h = [] ∨ N.of_nat (length (h_parents h)) = hl_thread_count l)
  ∧ (∀ p, hl_last_start_period l = Some p → h_parents h = [] ↔ period (h_slot h) = p)
  ∧ thread (h_slot h) < hl_thread_count l
  ∧ Forall (λ e, e_slot (content e) = h_slot h ∧ h_parents h !! N.to_nat (thread (h_slot h)) = Some (e_endorsed_block (content e))
                 ∧ e_index (content e) < hl_endorsement_count l
                 ∧ content_creator_address e = from_public_key (content_creator_pub_key e)
                 ∧ id e = EndorsementIdV0 (compute_from (public_key_to_bytes (content_creator_pub_key e) ++ serialized_data e))
                 ∧ EndorsementSerializer (content e) = Ok (serialized_data e)) (endorsements h)
  ∧ NoDup ((λ e, e_index (content e)) <$> endorsements h)
  ∧ N.of_nat (length (endorsements h)) ≤ hl_endorsement_count l
  ∧ N.of_nat (length (denunciations h)) ≤ hl_max_denunciations l
  ∧ N.of_nat (length (operations (content s))) ≤ max
  ∧ compute_operations_hash (operations (content s)) = Ok (operation_merkle_root h)
  ∧ id s = BlockIdV0 (compute_from (public_key_to_bytes (content_creator_pub_key s) ++ serialized_data (header (content s))))
  ∧ ∃ b, SecureShareBlockSerializer s = Ok b ∧ i = b ++ rest.
Proof using All.
  intros Hi Hx. destruct (wire_valid _ _ _ _ _ _ Hi Hx) as [(Hb & Hser & Heq) _]. cbn zeta.
  destruct Hb as (((Hsig & Hpk & Ha & Hid) & Hh & Hby & HD) & (_ & _ & Hops) & Hmr).
  apply header_ok_sound in Hh as (Hn & Hp & Ht & He & Hi' & Hne & Hnd).
  split_and!; [done|done|done| |done|done|done|done|done| |by apply (@canonical _ _ _ (SecureShareBlock_canonical l max) i s rest Hi)].
  - eapply Forall_impl; [exact He|]. intros e (? & ? & ? & (_ & _ & ? & ?) & ?). done.
  - rewrite Heq. cbn. by rewrite Hid.
Qed.
End blocks.

Lemma accepted_block_sound_witness :
  N.of_nat (length (h_parents (content (header (content sample_block))))) = 2
  ∧ N.of_nat (length (endorsements (content (header (content sample_block))))) ≤ 2.
Proof.
  pose proof (accepted_block_sound sample_limits 2 sample_bytes sample_block [] sample_bytes_ok sample_block_read)
    as ([|Hn] & _ & _ & _ & _ & He & _); [discriminate|]. split; [exact Hn|exact He].
Defined.

(** ** Keys of the ledger *)

(** The key of a balance, a bytecode, a version or a datastore entry in the database is
    no longer than the bound that is announced for the keys of the ledger, and it is read
    again as the same key. *)
Theorem ledger_key_bounded `{!Varint} `{!VarintLaws} max k :
  key_type_ok max (key_type k) → address_ok (key_address k) →
  ∃ b, KeySerializer false k = Ok b ∧ N.of_nat (length b) ≤ max_ledger_db_key_length max
    ∧ KeyDeserializer max false b = Some (k, []).
Proof.
  intros Hk Ha. exists (key_bytes k). split_and!; [apply key_serializer_spec|by apply key_bytes_length|by apply key_deserializer_spec].
Qed.
Definition sample_ledger_key : LedgerKey := MkLedgerKey (KT_DATASTORE [1; 2; 255]) (SC (SCAddressV0 9)).
Lemma ledger_key_bounded_witness :
  ∃ b, KeySerializer false sample_ledger_key = Ok b ∧ N.of_nat (length b) ≤ max_ledger_db_key_length 255
    ∧ KeyDeserializer 255 false b = Some (sample_ledger_key, []).
Proof.
  apply (ledger_key_bounded 255 sample_ledger_key); [|done].
  split; [|split]; [repeat constructor|vm_compute; discriminate|vm_compute; discriminate].
Defined.

(** ** Denunciations *)


Definition message_1 : Message := HeaderMessage (MkSlot 0 1) 3 (Some 77).
Definition message_2 : Message := HeaderMessage (MkSlot 0 1) 4 (Some 77).
(** The owner of the key signed these two messages, and an operation of the same chain. *)
Definition sample_log : list Bytes :=
  [to_be_bytes 8 77 ++ public_key_to_bytes sample_key ++ [1; 2; 3]; signed_bytes sample_key message_1; signed_bytes sample_key message_2].
#[local] Instance three_signatures : Ed25519 := {|
  ed25519_verify _ h _ := bool_decide (h ∈ compute_from <$> sample_log);
  ed25519_verify_batch hs _ _ := forallb (λ h, bool_decide (h ∈ compute_from <$> sample_log)) hs |}.
