(* ===== verification/PoolExports.v ===== *)
(** * What the pools rely on

    What an operation may use and spend ([massa-models/src/operation.rs], [SecureShareOperation], and
    [massa-pool-worker/src/types.rs]): the periods in which it is valid, its gas, the coins that it may
    spend, the addresses that it involves; and the interface of the pools ([massa-pool-exports]). *)

From S2P Require Import Prelude Slots Times OrdMap Keys Wire MipState MipStore Models Ledger Formats BlockFormats.

Open Scope N_scope.

(** [RangeInclusive<u64>] *)
Record PeriodRange : Type := MkPeriodRange { range_start : N; range_end : N }.
Definition range_contains (r : PeriodRange) (p : N) : bool := (range_start r <=? p) && (p <=? range_end r).

Definition get_validity_range (op : SecureShareOperation) (operation_validity_period : N) : PeriodRange :=
  let expire_period := op_expire_period (content op) in
  MkPeriodRange (saturating_sub expire_period operation_validity_period) expire_period.

Definition get_gas_usage (op : SecureShareOperation) (base_operation_gas_cost sp_compilation_cost : N) : N :=
  saturating_add u64_max
    (match op_type (content op) with
     | ExecuteSC _ max_gas _ _ => saturating_add u64_max max_gas sp_compilation_cost
     | CallSC _ _ _ max_gas _ => max_gas
     | RollBuy _ => 0
     | RollSell _ => 0
     | Transaction _ _ => 0
     end) base_operation_gas_cost.

(** The error is the limit that it shows: what is left for the operation. *)
Definition check_gas_usage (op : SecureShareOperation) (max_gas_per_block base_operation_gas_cost sp_compilation_cost : N)
    : outcome N unit :=
  let check gas_overhead :=
    if max_gas_per_block <? get_gas_usage op base_operation_gas_cost sp_compilation_cost
    then Err (saturating_sub max_gas_per_block gas_overhead) else Ok () in
  match op_type (content op) with
  | CallSC _ _ _ _ _ => check base_operation_gas_cost
  | ExecuteSC _ _ _ _ => check (saturating_add u64_max base_operation_gas_cost sp_compilation_cost)
  | RollBuy _ | RollSell _ | Transaction _ _ => Ok ()
  end.

Definition get_max_spending (op : SecureShareOperation) (roll_price : N) : N :=
  let max_non_fee_seq_spending :=
    match op_type (content op) with
    | Transaction _ amount => amount
    | RollBuy roll_count => saturating_mul u64_max roll_price roll_count
    | RollSell _ => 0
    | ExecuteSC _ _ max_coins _ => max_coins
    | CallSC _ _ _ _ coins => coins
    end in
  saturating_add u64_max max_non_fee_seq_spending (op_fee (content op)).

Section addresses.
Context `{!KeyHash}.

Definition get_ledger_involved_addresses (op : SecureShareOperation) : gset Address :=
  let emitter_address := from_public_key (content_creator_pub_key op) in
  {[emitter_address]}
  ∪ match op_type (content op) with
    | Transaction recipient_address _ => {[recipient_address]}
    | CallSC target_addr _ _ _ _ => {[target_addr]}
    | RollBuy _ | RollSell _ | ExecuteSC _ _ _ _ => ∅
    end.
Definition get_roll_involved_addresses (op : SecureShareOperation) : gset Address :=
  match op_type (content op) with
  | RollBuy _ | RollSell _ => {[from_public_key (content_creator_pub_key op)]}
  | Transaction _ _ | ExecuteSC _ _ _ _ | CallSC _ _ _ _ _ => ∅
  end.
End addresses.

(** ** What the pool keeps of an operation *)

Record OperationInfo : Type := MkOperationInfo {
  oi_id : OperationId;
  oi_size : N;
  oi_max_gas_usage : N;
  oi_creator_address : Address;
  oi_thread : N;
  oi_fee : N;
  oi_max_spending : N;
  oi_validity_period_range : PeriodRange;
  oi_executed : bool }.

Definition from_op `{!Varint} (op : SecureShareOperation)
    (operation_validity_periods roll_price thread_count base_operation_gas_cost sp_compilation_cost : N) : OperationInfo :=
  MkOperationInfo (id op) (serialized_size op) (get_gas_usage op base_operation_gas_cost sp_compilation_cost)
    (content_creator_address op) (get_thread (content_creator_address op) thread_count) (op_fee (content op))
    (get_max_spending op roll_price) (get_validity_range op operation_validity_periods) false.

(** ** Facts *)

(** Whether an operation may fit in a block is decided by the gas that it uses. *)
Lemma check_gas_usage_spec op max base sp :
  check_gas_usage op max base sp = Ok () ↔
  get_gas_usage op base sp ≤ max ∨ match op_type (content op) with CallSC _ _ _ _ _ | ExecuteSC _ _ _ _ => False | _ => True end.
Proof.
  unfold check_gas_usage. destruct (op_type (content op)); try tauto;
    destruct (N.ltb_spec max (get_gas_usage op base sp)); split; intros; try done; naive_solver lia.
Qed.
(** An operation is valid for [operation_validity_period] periods up to its expiry. *)
Lemma validity_range_spec op v p :
  range_contains (get_validity_range op v) p = true ↔
  p ≤ op_expire_period (content op) ∧ op_expire_period (content op) ≤ p + v.
Proof.
  unfold range_contains, get_validity_range, saturating_sub. cbn. rewrite andb_true_iff, !N.leb_le. lia.
Qed.
(** The fee is part of what may be spent, unless the sum saturates. *)
Lemma max_spending_fee op price : op_fee (content op) ≤ u64_max → op_fee (content op) ≤ get_max_spending op price.
Proof. unfold get_max_spending, saturating_add. lia. Qed.

(** ** The interface of the pools

    [massa-pool-exports]: the configuration of the pools and the channels to the rest of the
    program: the selector of the proof of stake (who may produce blocks and endorsements),
    the execution (what is executed, and the balances), the versions of the network and the
    chain.  An error of the selector is [None].  Broadcasts to subscribers of the API are
    not modelled. *)

Record PoolConfig : Type := MkPoolConfig {
  thread_count : N;
  max_block_size : N;
  max_block_gas : N;
  base_operation_gas_cost : N;
  sp_compilation_cost : N;
  roll_price : N;
  operation_validity_periods : N;
  operation_max_future_start_delay : MassaTime;
  max_operations_per_block : N;
  max_operation_pool_size : N;
  max_operation_pool_excess_items : N;
  max_endorsements_pool_size_per_thread : N;
  max_block_endorsement_count : N;
  genesis_timestamp : MassaTime;
  t0 : MassaTime;
  denunciation_expire_periods : N;
  max_denunciations_per_block_header : N;
  minimal_fees : N;
  last_start_period : N }.

Class PoolChannels `{!VoteRatio} : Type := {
  get_selection : Slot → option Selection;
  get_producer : Slot → option Address;
  get_available_selections_in_range : Slot → Slot → gset Address → option (list (Slot * Selection));
  get_ops_exec_status : list OperationId → list (option bool * option bool);
  get_final_and_candidate_balance : list Address → list (option N * option N);
  get_denunciation_execution_status : DenunciationIndex → bool * bool;
  mip_store : MipStoreRaw;
  chain_id : N }.

(** The addresses of the staking wallet. *)
Definition Wallet : Type := gset Address.

(** [slice.iter().min().unwrap_or(&0)] *)
Definition min_period (periods : list N) : N :=
  match periods with [] => 0 | p :: periods => foldl N.min p periods end.
Lemma min_period_le periods p : p ∈ periods → min_period periods ≤ p.
Proof.
  destruct periods as [|q periods]; [by intros ?%not_elem_of_nil|]. cbn.
  assert (∀ l q, foldl N.min q l ≤ q ∧ ∀ p, p ∈ l → foldl N.min q l ≤ p) as Hl.
  { induction l as [|x l IH]; intros y; cbn; [split; [done|by intros ? ?%not_elem_of_nil]|].
    destruct (IH (N.min y x)) as [H1 H2]. split; [lia|]. intros z [->|Hz]%elem_of_cons; [lia|auto]. }
  destruct (Hl periods q) as [H1 H2]. intros [->|Hp]%elem_of_cons; auto.
Qed.
