(* ===== verification/DenunciationPool.v ===== *)
(** * The pool of denunciations

    [massa-pool-worker/src/denunciation_pool.rs]: the first signed header or endorsement
    received for a place is kept; a second one, different, makes a denunciation with it.
    [MassaTime::now()] is an argument. *)

From S2P Require Import Prelude Slots Times OrdMap MipState MipStore Keys Models Ledger Wire Formats BlockFormats Denunciations PoolExports.

Open Scope N_scope.

Inductive DenunciationStatus : Type :=
  | Accumulating (p : DenunciationPrecursor)
  | DenunciationEmitted (d : Denunciation).

Definition is_emitted (st : DenunciationStatus) : bool := match st with DenunciationEmitted _ => true | Accumulating _ => false end.

Record DenunciationPool : Type := MkDenunciationPool {
  dp_last_cs_final_periods : list N;
  denunciations_cache : list (DenunciationIndex * DenunciationStatus);
  executed_cache : gmap DenunciationIndex bool }.
Implicit Types (dp : DenunciationPool).

Section pool.
Context `{!Varint} `{!HashFn} `{!Ed25519} `{!VoteRatio} `{!PoolChannels} (config : PoolConfig).

Definition denunciation_pool_init : DenunciationPool :=
  MkDenunciationPool (replicate (N.to_nat (thread_count config)) 0) [] ∅.

(** [replace_with]: the other one, but for the configuration and the channels. *)
Definition denunciation_pool_replace_with dp other : DenunciationPool :=
  MkDenunciationPool (dp_last_cs_final_periods other) (denunciations_cache other) (executed_cache other).

Definition denunciation_pool_len dp : N :=
  N.of_nat (length (filter (λ e, is_emitted e.2 = true) (denunciations_cache dp))).

(** Whether the selector drew the creator. *)
Definition precursor_selected (p : DenunciationPrecursor) : bool :=
  match p with
  | PrecursorEndorsement de_p =>
      match get_selection (edp_slot de_p) with
      | Some selection =>
          match sel_endorsements selection !! N.to_nat (edp_index de_p) with
          | Some address => bool_decide (address = from_public_key (edp_public_key de_p))
          | None => false
          end
      | None => false
      end
  | PrecursorBlockHeader de_p =>
      match get_producer (bhdp_slot de_p) with
      | Some address => bool_decide (address = from_public_key (dp_get_public_key p))
      | None => false
      end
  end.

Definition precursor_eqb (p q : DenunciationPrecursor) : bool :=
  match p, q with
  | PrecursorEndorsement p, PrecursorEndorsement q =>
      bool_decide (edp_public_key p = edp_public_key q) && bool_decide (edp_slot p = edp_slot q)
      && (edp_index p =? edp_index q) && (edp_hash p =? edp_hash q) && bool_decide (edp_signature p = edp_signature q)
  | PrecursorBlockHeader p, PrecursorBlockHeader q =>
      bool_decide (bhdp_public_key p = bhdp_public_key q) && bool_decide (bhdp_slot p = bhdp_slot q)
      && (bhdp_hash p =? bhdp_hash q) && bool_decide (bhdp_signature p = bhdp_signature q)
  | _, _ => false
  end.

(** [denunciations_cache.entry(key)] and what is done with it. *)
Definition enter_precursor (p : DenunciationPrecursor) (sig_chain_id : option N)
    (cache : list (DenunciationIndex * DenunciationStatus)) : list (DenunciationIndex * DenunciationStatus) :=
  let key := index_of_precursor p in
  match bt_get key cache with
  | Some (Accumulating de_p) =>
      if precursor_eqb de_p p then cache
      else match denunciation_of_precursors de_p p sig_chain_id with
           | Ok de => bt_insert key (DenunciationEmitted de) cache
           | _ => cache
           end
  | Some (DenunciationEmitted _) => cache
  | None => bt_insert key (Accumulating p) cache
  end.

Definition add_denunciation_precursor (p : DenunciationPrecursor) (now : MassaTime) dp
    : outcome ModelsError DenunciationPool :=
  let slot := dp_get_slot p in
  if period slot <=? last_start_period config then Ok dp
  else
    slot_now ← get_closest_slot_to_timestamp (thread_count config) (t0 config) (genesis_timestamp config) now;
    if is_expired (period slot) (min_period (dp_last_cs_final_periods dp)) (denunciation_expire_periods config) then Ok dp
    else if denunciation_expire_periods config <? saturating_sub (period slot) (period slot_now) then Ok dp
    else if negb (precursor_selected p) then Ok dp
    else
      match get_block_slot_timestamp (thread_count config) (t0 config) (genesis_timestamp config) slot with
      | Ok de_slot_ts =>
          let sig_chain_id := sig_chain_id_for_slot mip_store chain_id de_slot_ts in
          Ok (MkDenunciationPool (dp_last_cs_final_periods dp)
                (enter_precursor p sig_chain_id (denunciations_cache dp)) (executed_cache dp))
      | _ => Ok dp
      end.

(** The function [cleanup_cache]: [split_off] keeps the keys from [de_idx] on. *)
Definition cleanup_cache (cache : list (DenunciationIndex * DenunciationStatus)) (executed : gmap DenunciationIndex bool)
    (slot_period : N) : list (DenunciationIndex * DenunciationStatus) * gmap DenunciationIndex bool :=
  let earliest_allowed_period := saturating_sub slot_period (denunciation_expire_periods config) in
  let de_idx := DI_BlockHeader (MkSlot earliest_allowed_period 0) in
  let expired_keys := (filter (λ e, cmp e.1 de_idx = Lt) cache).*1 in
  (filter (λ e, cmp e.1 de_idx ≠ Lt) cache, foldl (λ executed key, delete key executed) executed expired_keys).
Definition cleanup_caches dp : DenunciationPool :=
  let '(cache, executed) :=
    cleanup_cache (denunciations_cache dp) (executed_cache dp) (min_period (dp_last_cs_final_periods dp)) in
  MkDenunciationPool (dp_last_cs_final_periods dp) cache executed.

Definition refresh_execution_cache dp : DenunciationPool :=
  MkDenunciationPool (dp_last_cs_final_periods dp) (denunciations_cache dp)
    (foldl (λ executed de_idx,
       if decide (executed !! de_idx = Some true) then executed
       else
         let '(spec_status, final_status) := get_denunciation_execution_status de_idx in
         if (spec_status || final_status)%bool then <[de_idx := final_status]> executed else delete de_idx executed)
     (executed_cache dp) (denunciations_cache dp).*1).

(** The loop stops once there are enough. *)
Fixpoint gather_denunciations dp (target_slot : Slot) (cache : list (DenunciationIndex * DenunciationStatus))
    (res : list Denunciation) : list Denunciation :=
  match cache with
  | [] => res
  | (de_idx, de_status) :: cache =>
      let res :=
        match de_status with
        | DenunciationEmitted de =>
            let de_slot := de_get_slot de in
            if bool_decide (executed_cache dp !! de_idx = None) && slot_le de_slot target_slot
               && negb (is_expired (period de_slot) (period target_slot) (denunciation_expire_periods config))
            then res ++ [de] else res
        | Accumulating _ => res
        end in
      if max_denunciations_per_block_header config <=? N.of_nat (length res) then res
      else gather_denunciations dp target_slot cache res
  end.
Definition get_block_denunciations dp (target_slot : Slot) : list Denunciation :=
  gather_denunciations dp target_slot (denunciations_cache dp) [].

Definition denunciation_notify_final_cs_periods dp (final_cs_periods : list N) : DenunciationPool :=
  cleanup_caches (MkDenunciationPool final_cs_periods (denunciations_cache dp) (executed_cache dp)).
End pool.
