(* ===== verification/DenunciationPoolFacts.v ===== *)
(** * The pool gives out real denunciations

    Whatever the pool receives, in whatever order, the denunciations that it gives for a block
    are made of two different verified objects of the key that was drawn for their place,
    are about different places, are neither executed nor expired, and are no more than a
    header takes.  Two different signed objects for a place become a denunciation. *)

From S2P Require Import Prelude Slots Times OrdMap MipState MipStore Keys KeyFacts Models Ledger Wire WireFacts Formats FormatFacts BlockFormats BlockFormatFacts Denunciations DenunciationFacts PoolExports DenunciationPool.

Open Scope N_scope.

Section facts.
Context `{!Varint} `{VL : !VarintLaws} `{!VerifyingKey} `{!HashFn} `{!Ed25519} `{!VoteRatio} `{!PoolChannels} (config : PoolConfig).
Implicit Types (cache : list (DenunciationIndex * DenunciationStatus)) (dp : DenunciationPool).

(** ** Expiry *)

Lemma is_expired_spec p s e : is_expired p s e = true ↔ p < s - e.
Proof using. unfold is_expired. case_match eqn:Hp; rewrite ?N.leb_le, ?N.leb_gt, ?N.ltb_lt in *; [lia|split; [done|lia]]. Qed.

(** The least index from a period on. *)
Lemma before_header_index k e : cmp k (DI_BlockHeader (MkSlot e 0)) = Lt ↔ period (di_get_slot k) < e.
Proof using.
  assert (∀ s x y, cmp (s, (x, y)) (MkSlot e 0, (0, 0)) = Lt ↔ period s < e) as Hk.
  { intros [p t] x y. unfold cmp, pair_ord, cmp, slot_ord, slot_cmp, pair_ord, cmp, N_ord. cbn [fst snd period thread].
    assert (∀ n, (n ?= 0) ≠ Lt) as Hz by (by intros []).
    pose proof (Hz t). pose proof (Hz x). pose proof (Hz y). destruct (N.compare_spec p e) as [->|Hlt|Hgt].
    - split; [|lia]. destruct (t ?= 0); [|done|done]. by destruct (x ?= 0).
    - done.
    - split; [done|lia]. }
  destruct k; apply Hk.
Qed.

(** ** What is in the cache *)

(** The fields of a precursor come from a message that was read. *)
Definition precursor_ok (p : DenunciationPrecursor) : Prop :=
  public_key_ok (dp_get_public_key p) ∧ slot_ok any_u64 (below (thread_count config)) (dp_get_slot p)
  ∧ hash_ok (message_hash (precursor_message p None)) ∧ signature_ok (precursor_signature p)
  ∧ match p with PrecursorEndorsement p => index_ok (max_block_endorsement_count config) (edp_index p) | _ => True end.

(** The layout of the signatures of a slot. *)
Definition chain_of_slot (slot : Slot) (chain : option N) : Prop :=
  ∃ ts, get_block_slot_timestamp (thread_count config) (t0 config) (genesis_timestamp config) slot = Ok ts
    ∧ chain = sig_chain_id_for_slot mip_store chain_id ts.
(** A denunciation made of two different objects of the key drawn for the place, verified in the layout of the slot. *)
Definition genuine (k : DenunciationIndex) (d : Denunciation) : Prop :=
  ∃ p1 p2 chain, denunciation_of_precursors p1 p2 chain = Ok d ∧ index_of_precursor p1 = k
    ∧ precursor_selected p1 = true ∧ precursor_ok p1 ∧ precursor_ok p2 ∧ chain_of_slot (di_get_slot k) chain.
Definition status_ok (k : DenunciationIndex) (st : DenunciationStatus) : Prop :=
  match st with
  | Accumulating p => index_of_precursor p = k ∧ precursor_selected p = true ∧ precursor_ok p
  | DenunciationEmitted d => genuine k d
  end.
Record denunciation_pool_ok dp : Prop := {
  dpo_sorted : bt_sorted (denunciations_cache dp);
  dpo_status : ∀ k st, (k, st) ∈ denunciations_cache dp → status_ok k st }.

Lemma enter_precursor_ok p chain cache :
  precursor_ok p → precursor_selected p = true → chain_of_slot (dp_get_slot p) chain → bt_sorted cache → (∀ k st, (k, st) ∈ cache → status_ok k st) →
  bt_sorted (enter_precursor p chain cache) ∧ ∀ k st, (k, st) ∈ enter_precursor p chain cache → status_ok k st.
Proof using.
  intros Hp Hsel Hchain Hs Hok. unfold enter_precursor. destruct (bt_get _ cache) as [[q|d]|] eqn:Hg; [|done|].
  - apply elem_of_bt in Hg as Hin; [|done]. apply Hok in Hin as (Hq & Hqs & Hqo).
    destruct (precursor_eqb q p); [done|]. destruct (denunciation_of_precursors q p chain) as [d| | |] eqn:Hd; [|done..].
    split; [by apply bt_sorted_insert|]. intros k st [[= -> ->]|Hin]%elem_of_bt_insert; [|auto].
    exists q, p, chain. assert (di_get_slot (index_of_precursor p) = dp_get_slot p) as -> by (by destruct p). done.
  - split; [by apply bt_sorted_insert|]. intros k st [[= -> ->]|Hin]%elem_of_bt_insert; [done|auto].
Qed.

Lemma bt_sorted_filter (P : DenunciationIndex * DenunciationStatus → Prop) `{∀ x, Decision (P x)} cache :
  bt_sorted cache → bt_sorted (filter P cache).
Proof using.
  unfold bt_sorted. intros Hs. induction cache as [|[k v] cache IH]; [done|].
  rewrite fmap_cons, StronglySorted_cons in Hs. destruct Hs as [Hk Hs].
  rewrite filter_cons. case_decide; [|auto]. rewrite fmap_cons. constructor; [auto|].
  eapply Forall_forall. intros x Hx. rewrite Forall_forall in Hk. apply Hk. cbn in *.
  apply list_elem_of_fmap in Hx as ([k' v'] & -> & [_ Hin]%list_elem_of_filter). apply list_elem_of_fmap. by exists (k', v').
Qed.

(** ** The steps of the pool *)

Inductive PoolStep : Type :=
  | StepAdd (p : DenunciationPrecursor) (now : MassaTime)
  | StepFinalPeriods (periods : list N)
  | StepRefresh.
Definition pool_step (s : PoolStep) dp : outcome ModelsError DenunciationPool :=
  match s with
  | StepAdd p now => add_denunciation_precursor config p now dp
  | StepFinalPeriods periods => Ok (denunciation_notify_final_cs_periods config dp periods)
  | StepRefresh => Ok (refresh_execution_cache dp)
  end.
Definition step_ok (s : PoolStep) : Prop :=
  match s with StepAdd p _ => precursor_ok p | _ => True end.

Lemma pool_step_ok s dp dp' :
  denunciation_pool_ok dp → step_ok s → pool_step s dp = Ok dp' → denunciation_pool_ok dp'.
Proof using.
  intros [Hs Hok] Hstep Hx. destruct s as [p now|periods|]; cbn in Hx.
  - unfold add_denunciation_precursor in Hx. case_match; simplify_eq; [by split|]. inv_ok.
    repeat case_match; simplify_eq; try by split. destruct (precursor_selected p) eqn:Hsel; [|done].
    edestruct enter_precursor_ok as [? ?]; [exact Hstep|done|eexists; split; [eassumption|reflexivity]|exact Hs|exact Hok|]. by split.
  - simplify_eq. split; cbn; [by apply bt_sorted_filter|]. intros k st [_ Hin]%list_elem_of_filter. auto.
  - by simplify_eq.
Qed.

Inductive pool_reachable : DenunciationPool → Prop :=
  | pr_init : pool_reachable (denunciation_pool_init config)
  | pr_step s dp dp' : pool_reachable dp → step_ok s → pool_step s dp = Ok dp' → pool_reachable dp'.
Lemma pool_reachable_ok dp : pool_reachable dp → denunciation_pool_ok dp.
Proof using.
  induction 1 as [|s dp dp' _ IH Hs Hx]; [|by eapply pool_step_ok].
  split; [constructor|]. by intros k st ?%not_elem_of_nil.
Qed.

(** ** The denunciations of a block *)

(** What may be put in a block at a slot. *)
Definition includable dp (target : Slot) (e : DenunciationIndex * DenunciationStatus) : option Denunciation :=
  match e.2 with
  | DenunciationEmitted de =>
      if bool_decide (executed_cache dp !! e.1 = None) && slot_le (de_get_slot de) target
         && negb (is_expired (period (de_get_slot de)) (period target) (denunciation_expire_periods config))
      then Some de else None
  | Accumulating _ => None
  end.

Lemma gather_spec dp target cache res :
  N.of_nat (length res) < max_denunciations_per_block_header config →
  gather_denunciations config dp target cache res
  = take (N.to_nat (max_denunciations_per_block_header config)) (res ++ omap (includable dp target) cache).
Proof using.
  set (max := max_denunciations_per_block_header config). revert res.
  induction cache as [|[k st] cache IH]; intros res Hlen; cbn [gather_denunciations].
  - cbn. rewrite app_nil_r, take_ge; [done|lia].
  - fold max. set (r := match st with Accumulating _ => res | _ => _ end).
    assert (res ++ omap (includable dp target) ((k, st) :: cache) = r ++ omap (includable dp target) cache) as ->.
    { subst r. cbn [omap list_omap]. destruct st as [p|d]; cbn [includable snd fst]; [done|].
      destruct (_ && _) eqn:Hc; [by rewrite <-app_assoc|done]. }
    assert (length r ≤ S (length res))%nat as Hr.
    { subst r. destruct st; [lia|]. case_match; [rewrite length_app; cbn; lia|lia]. }
    case_match eqn:Hc.
    + apply N.leb_le in Hc. symmetry. rewrite take_app_le by lia. apply take_ge. lia.
    + apply N.leb_gt in Hc. by apply IH.
Qed.
Lemma get_block_denunciations_spec dp target :
  0 < max_denunciations_per_block_header config →
  get_block_denunciations config dp target
  = take (N.to_nat (max_denunciations_per_block_header config)) (omap (includable dp target) (denunciations_cache dp)).
Proof using. intros Hm. unfold get_block_denunciations. by rewrite gather_spec. Qed.

Lemma genuine_index k d : genuine k d → index_of_denunciation d = k.
Proof using.
  intros (p1 & p2 & chain & (_ & Hd & _)%denunciation_of_precursors_spec & <- & _).
  destruct d, p1; cbn in *; congruence.
Qed.
Lemma genuine_slot k d : genuine k d → de_get_slot d = di_get_slot k.
Proof using. intros <-%genuine_index. by destruct d. Qed.

(** A header can carry it. *)
Lemma genuine_format k d : genuine k d → denunciation_ok (thread_count config) (max_block_endorsement_count config) d.
Proof using.
  intros (p1 & p2 & chain & ((Hidx & Hpk & _) & Hd & Hk & Hs)%denunciation_of_precursors_spec & _ & _ & Hp1 & Hp2 & _).
  destruct Hp1 as (Hpk1 & Hs1 & Hh1 & Hg1 & Hi1), Hp2 as (_ & _ & Hh2 & Hg2 & _).
  destruct d as [[]|[]], p1 as [[]|[]], p2 as [[]|[]]; cbn in *; simplify_eq; unfold endorsement_denunciation_ok, header_denunciation_ok; cbn; by split_and!.
Qed.

Lemma includable_spec dp target e d :
  includable dp target e = Some d ↔
  e.2 = DenunciationEmitted d ∧ executed_cache dp !! e.1 = None ∧ slot_le (de_get_slot d) target = true
  ∧ is_expired (period (de_get_slot d)) (period target) (denunciation_expire_periods config) = false.
Proof using.
  unfold includable. destruct e as [k [p|d']]; cbn; [naive_solver|].
  destruct (_ && _) eqn:Hc; rewrite ?andb_true_iff, ?negb_true_iff, ?bool_decide_eq_true in Hc.
  - naive_solver.
  - split; [done|]. intros ([= ->] & G1 & G2 & G3). by rewrite bool_decide_true, G2, G3 in Hc.
Qed.

Lemma includable_indexes dp target cache :
  bt_sorted cache → (∀ k st, (k, st) ∈ cache → status_ok k st) →
  StronglySorted cmp_lt (index_of_denunciation <$> omap (includable dp target) cache).
Proof using.
  unfold bt_sorted. induction cache as [|[k st] cache IH]; intros Hs Hok; [constructor|].
  rewrite fmap_cons, StronglySorted_cons in Hs. destruct Hs as [Hk Hs].
  assert (StronglySorted cmp_lt (index_of_denunciation <$> omap (includable dp target) cache)) as IH'.
  { apply IH; [done|]. intros k' st' Hin. apply Hok. by right. }
  cbn [omap list_omap]. destruct (includable dp target (k, st)) as [d|] eqn:Hd; [|done].
  rewrite fmap_cons. constructor; [done|]. apply includable_spec in Hd as (Hst & _). cbn in Hst. subst st.
  rewrite (genuine_index k) by (apply (Hok k (DenunciationEmitted d)); by left).
  apply Forall_forall. intros x (d' & -> & Hd')%list_elem_of_fmap. apply list_elem_of_omap in Hd' as ([k' st'] & Hin & Hi).
  apply includable_spec in Hi as (Hst' & _). cbn in Hst'. subst st'.
  rewrite (genuine_index k') by (apply (Hok k' (DenunciationEmitted d')); by right).
  rewrite Forall_forall in Hk. apply Hk, list_elem_of_fmap. by exists (k', DenunciationEmitted d').
Qed.

Lemma StronglySorted_take {A} (R : relation A) n l : StronglySorted R l → StronglySorted R (take n l).
Proof using.
  intros Hs. revert n. induction Hs as [|x l Hs IH HF]; intros [|n]; cbn; constructor; [done|].
  by apply Forall_take.
Qed.
Lemma StronglySorted_NoDup {A} `{Ord A, !OrdLaws A} (l : list A) : StronglySorted cmp_lt l → NoDup l.
Proof using.
  induction 1 as [|x l Hs IH HF]; constructor; [|done]. intros Hin. rewrite Forall_forall in HF.
  by apply (cmp_lt_irrefl x), HF.
Qed.

Lemma pool_denunciations_spec dp target d :
  denunciation_pool_ok dp → 0 < max_denunciations_per_block_header config →
  let ds := get_block_denunciations config dp target in
  N.of_nat (length ds) ≤ max_denunciations_per_block_header config
  ∧ NoDup (index_of_denunciation <$> ds)
  ∧ (d ∈ ds →
     genuine (index_of_denunciation d) d ∧ executed_cache dp !! index_of_denunciation d = None
     ∧ slot_le (de_get_slot d) target = true
     ∧ is_expired (period (de_get_slot d)) (period target) (denunciation_expire_periods config) = false).
Proof using.
  intros [Hs Hok] Hm. cbn zeta. rewrite get_block_denunciations_spec by done. split_and!.
  - rewrite length_take. lia.
  - rewrite fmap_take. apply StronglySorted_NoDup, StronglySorted_take. by apply includable_indexes.
  - intros Hin. apply (subseteq_take _ _ _) in Hin. apply list_elem_of_omap in Hin as ([k st] & Hin & Hd).
    apply includable_spec in Hd as (Hst & He & Hsl & Hx). cbn in Hst, He. subst st. pose proof (Hok _ _ Hin) as Hg. cbn in Hg.
    rewrite (genuine_index k) by done. done.
Qed.

(** What is includable is given, while there is room. *)
Lemma pool_gives dp target k d :
  denunciation_pool_ok dp → 0 < max_denunciations_per_block_header config →
  bt_get k (denunciations_cache dp) = Some (DenunciationEmitted d) → includable dp target (k, DenunciationEmitted d) = Some d →
  d ∈ get_block_denunciations config dp target
  ∨ N.of_nat (length (get_block_denunciations config dp target)) = max_denunciations_per_block_header config.
Proof using.
  intros [Hs Hok] Hm Hg Hi. rewrite get_block_denunciations_spec by done.
  apply elem_of_bt in Hg; [|done]. assert (d ∈ omap (includable dp target) (denunciations_cache dp)) as Hin
    by (apply list_elem_of_omap; by exists (k, DenunciationEmitted d)).
  set (n := N.to_nat _) in *. set (l := omap _ _) in *.
  destruct (decide (length l ≤ n)%nat); [left; by rewrite take_ge|right]. rewrite length_take. subst n. lia.
Qed.

(** ** Cleaning removes what is expired *)

Lemma cleanup_exact dp k st :
  (k, st) ∈ denunciations_cache (cleanup_caches config dp) ↔
  (k, st) ∈ denunciations_cache dp
  ∧ is_expired (period (di_get_slot k)) (min_period (dp_last_cs_final_periods dp)) (denunciation_expire_periods config) = false.
Proof using.
  unfold cleanup_caches. cbn. rewrite list_elem_of_filter. cbn [fst]. rewrite before_header_index.
  rewrite <-not_true_iff_false, is_expired_spec. unfold saturating_sub. tauto.
Qed.

(** ** Two signed objects for a place *)

(** The pool takes a precursor, and checks it with this chain. *)
Definition accepts_precursor dp (p : DenunciationPrecursor) (now : MassaTime) (chain : option N) : Prop :=
  last_start_period config < period (dp_get_slot p)
  ∧ (∃ s, get_closest_slot_to_timestamp (thread_count config) (t0 config) (genesis_timestamp config) now = Ok s
        ∧ saturating_sub (period (dp_get_slot p)) (period s) ≤ denunciation_expire_periods config)
  ∧ is_expired (period (dp_get_slot p)) (min_period (dp_last_cs_final_periods dp)) (denunciation_expire_periods config) = false
  ∧ precursor_selected p = true
  ∧ ∃ ts, get_block_slot_timestamp (thread_count config) (t0 config) (genesis_timestamp config) (dp_get_slot p) = Ok ts
        ∧ chain = sig_chain_id_for_slot mip_store chain_id ts.
Lemma add_accepted dp p now chain :
  accepts_precursor dp p now chain →
  add_denunciation_precursor config p now dp
  = Ok (MkDenunciationPool (dp_last_cs_final_periods dp) (enter_precursor p chain (denunciations_cache dp)) (executed_cache dp)).
Proof using.
  intros (Hl & (s & Hs & Hf) & He & Hsel & ts & Hts & ->). unfold add_denunciation_precursor.
  rewrite (proj2 (N.leb_gt _ _)) by done. rewrite Hs. cbn [mbind outcome_bind]. rewrite He, Hsel.
  rewrite (proj2 (N.ltb_ge _ _)) by done. cbn. by rewrite Hts.
Qed.

Lemma precursor_eqb_hash p q chain :
  message_hash (precursor_message p chain) ≠ message_hash (precursor_message q chain) → precursor_eqb p q = false.
Proof using.
  destruct p as [[]|[]], q as [[]|[]]; cbn; try done; intros Hne%N.eqb_neq; by rewrite Hne, ?andb_false_r.
Qed.

Lemma double_emitted_spec dp p1 p2 now1 now2 chain :
  bt_get (index_of_precursor p1) (denunciations_cache dp) = None →
  accepts_precursor dp p1 now1 chain → accepts_precursor dp p2 now2 chain → double p1 p2 chain →
  ∃ dp1 dp2 d, add_denunciation_precursor config p1 now1 dp = Ok dp1 ∧ add_denunciation_precursor config p2 now2 dp1 = Ok dp2
    ∧ bt_get (index_of_precursor p1) (denunciations_cache dp2) = Some (DenunciationEmitted d)
    ∧ denounced d chain = (precursor_message p1 chain, precursor_message p2 chain)
    ∧ de_get_public_key d = dp_get_public_key p1.
Proof using.
  intros Hk Ha1 Ha2 Hd. do 2 eexists. rewrite (add_accepted _ _ _ _ Ha1). 
  assert (∃ d, denunciation_of_precursors p1 p2 chain = Ok d) as (d & Hmade).
  { pose proof Hd as (Hidx & Hpk & Hne & Hv1 & Hv2). destruct p1 as [p1|p1], p2 as [p2|p2]; cbn in Hidx; try done.
    - eexists (DenunciationEndorsement (MkEndorsementDenunciation _ _ _ _ _ _ _)). apply denunciation_of_precursors_spec.
      split; [done|]. cbn. injection Hidx as <- <-. done.
    - eexists (DenunciationBlockHeader (MkBlockHeaderDenunciation _ _ _ _ _ _)). apply denunciation_of_precursors_spec.
      split; [done|]. cbn. injection Hidx as <-. done. }
  exists d. split; [done|]. rewrite (add_accepted _ p2 now2 chain) by (by destruct Ha2). split; [done|]. cbn [denunciations_cache].
  apply denunciation_of_precursors_spec in Hmade as Hspec. destruct Hspec as ((Hidx & _ & Hne & _) & Hden & Hpk & _).
  split; [|done]. unfold enter_precursor. rewrite Hk, <-Hidx, bt_get_insert_eq.
  by rewrite (precursor_eqb_hash _ _ chain), Hmade, bt_get_insert_eq.
Qed.
End facts.
