(* ===== verification/History.v ===== *)
(** * The history of executed slots

    [massa-execution-worker/src/active_history.rs] and [massa-pos-exports/src/
    deferred_credits.rs]: the outputs of the slots executed since the last final one,
    and the searches in them, from the newest to the oldest.

    Of an [ExecutionOutput] only the parts that are searched are kept. *)

From S2P Require Import Prelude Slots Models Ledger.

Open Scope N_scope.

(** ** Deferred credits *)

Notation DeferredCredits := (gmap Slot (gmap Address N)).

Section credits.
Context `{!SetIter Slot} `{!SetIter Address}.
Implicit Types (d : DeferredCredits).

Definition credits_is_empty d : bool := bool_decide (d = ∅).
Definition credits_insert d (slot : Slot) (addr : Address) (amount : N) : DeferredCredits :=
  <[slot := <[addr := amount]> (default ∅ (d !! slot))]> d.
(** [get_slot_range(..=slot)] *)
Definition credits_until d (slot : Slot) : DeferredCredits :=
  filter (λ e, slot_le e.1 slot = true) d.
Definition credits_extend_slot d (e : Slot * gmap Address N) : DeferredCredits :=
  foldl (λ d c, credits_insert d e.1 c.1 c.2) d (map_iter e.2).
Definition credits_extend d (other : DeferredCredits) : DeferredCredits :=
  foldl credits_extend_slot d (map_iter other).
Definition remove_zeros d : DeferredCredits :=
  filter (λ e, e.2 ≠ ∅) (filter (λ e, e.2 ≠ 0) <$> d).
Definition get_address_credits_for_slot d (addr : Address) (slot : Slot) : option N :=
  d !! slot ≫= (.!! addr).
End credits.

(** ** Execution outputs *)

Record StateChanges : Type := MkStateChanges {
  ledger_changes : LedgerChanges;
  roll_changes : gmap Address N;
  deferred_credits : DeferredCredits;
  executed_ops_changes : gmap OperationId (bool * Slot);
  executed_denunciations_changes : gset DenunciationIndex;
  execution_trail_hash_change : SetOrKeep Hash }.

Record ExecutionOutput : Type := MkExecutionOutput {
  out_slot : Slot;
  state_changes : StateChanges }.

(** Oldest first. *)
Notation ActiveHistory := (list ExecutionOutput).

Inductive HistorySearchResult (T : Type) : Type :=
  | Present (t : T)
  | Absent
  | NoInfo.
Arguments Present {_} _.
Arguments Absent {_}.
Arguments NoInfo {_}.

Inductive SlotIndexPosition : Type :=
  | Past
  | Future
  | Found (index : nat)
  | NoHistory.

(** The first answer, from the newest output to the oldest. *)
Fixpoint search_newest {T} (f : ExecutionOutput → HistorySearchResult T) (newest_first : list ExecutionOutput)
    : HistorySearchResult T :=
  match newest_first with
  | [] => NoInfo
  | o :: older => match f o with NoInfo => search_newest f older | found => found end
  end.

Section history.
Context `{!SetIter Slot} `{!SetIter Address} `{!SetIter OperationId}.
Implicit Types (h : ActiveHistory) (addr : Address).

(** ** Searches *)

Definition fetch_executed_op h (op : OperationId) : HistorySearchResult unit :=
  search_newest (λ o, match executed_ops_changes (state_changes o) !! op with
                      | Some _ => Present tt
                      | None => NoInfo
                      end) (rev h).

Definition fetch_executed_denunciation h (d : DenunciationIndex) : HistorySearchResult unit :=
  search_newest (λ o, if decide (d ∈ executed_denunciations_changes (state_changes o))
                      then Present tt else NoInfo) (rev h).

Definition change_at (o : ExecutionOutput) addr : option EntryChange :=
  ledger_changes (state_changes o) !! addr.

Definition balance_of_change (ch : option EntryChange) : HistorySearchResult N :=
  match ch with
  | Some (SUD_Set v) => Present (le_balance v)
  | Some (SUD_Update u) => match lu_balance u with SOK_Set v => Present v | SOK_Keep => NoInfo end
  | Some SUD_Delete => Absent
  | None => NoInfo
  end.
Definition fetch_balance h addr : HistorySearchResult N :=
  search_newest (λ o, balance_of_change (change_at o addr)) (rev h).

Definition bytecode_of_change (ch : option EntryChange) : HistorySearchResult Bytecode :=
  match ch with
  | Some (SUD_Set v) => Present (le_bytecode v)
  | Some (SUD_Update u) => match lu_bytecode u with SOK_Set v => Present v | SOK_Keep => NoInfo end
  | Some SUD_Delete => Absent
  | None => NoInfo
  end.
Definition fetch_bytecode h addr : HistorySearchResult Bytecode :=
  search_newest (λ o, bytecode_of_change (change_at o addr)) (rev h).

Definition data_of_change (key : Key) (ch : option EntryChange) : HistorySearchResult (list N) :=
  match ch with
  | Some (SUD_Set v) => match le_datastore v !! key with Some d => Present d | None => Absent end
  | Some (SUD_Update u) =>
      match lu_datastore u !! key with
      | Some (SOD_Set d) => Present d
      | Some SOD_Delete => Absent
      | None => NoInfo
      end
  | Some SUD_Delete => Absent
  | None => NoInfo
  end.
Definition fetch_active_history_data_entry h addr (key : Key) : HistorySearchResult (list N) :=
  search_newest (λ o, data_of_change key (change_at o addr)) (rev h).

Definition fetch_roll_count h addr : option N :=
  head (omap (λ o, roll_changes (state_changes o) !! addr) (rev h)).

Definition get_all_deferred_credits_until h (slot : Slot) : DeferredCredits :=
  foldl (λ acc o, credits_extend acc (credits_until (deferred_credits (state_changes o)) slot)) ∅ h.

Definition get_address_deferred_credit_for h addr (slot : Slot) : option N :=
  head (omap (λ o, get_address_credits_for_slot (deferred_credits (state_changes o)) addr slot) (rev h)).

Definition get_execution_trail_hash h : HistorySearchResult Hash :=
  search_newest (λ o, match execution_trail_hash_change (state_changes o) with
                      | SOK_Set x => Present x
                      | SOK_Keep => NoInfo
                      end) (rev h).

(** ** Slots of the history *)

Definition get_slot_index h (slot : Slot) (thread_count : N) : SlotIndexPosition :=
  match h with
  | [] => NoHistory
  | first :: _ =>
      if slot_lt slot (out_slot first) then Past
      else
        match slots_since slot (out_slot first) thread_count with
        | Ok d => if N.of_nat (length h) <=? d then Future else Found (N.to_nat d)
        | _ => Past
        end
  end.

Definition truncate_from h (slot : Slot) (thread_count : N) : ActiveHistory :=
  match get_slot_index h slot thread_count with
  | Past => []
  | Found index => take index h
  | _ => h
  end.

(** The range of indices, and whether the cycle starts before and ends after the
    history. *)
Definition find_cycle_indices h (cycle periods_per_cycle thread_count : N)
    : nat * nat * bool * bool :=
  let first_index := match new_first_of_cycle cycle periods_per_cycle with
                     | Ok s => get_slot_index h s thread_count
                     | _ => Future
                     end in
  let last_index := match new_last_of_cycle cycle periods_per_cycle thread_count with
                    | Ok s => get_slot_index h s thread_count
                    | _ => Future
                    end in
  match first_index, last_index with
  | NoHistory, _ => (0%nat, 0%nat, true, true)
  | _, NoHistory => (0%nat, 0%nat, true, true)
  | Future, _ => (0%nat, 0%nat, false, true)
  | _, Past => (0%nat, 0%nat, true, false)
  | Past, Future => (0%nat, length h, true, true)
  | Past, Found idx => (0%nat, S idx, true, false)
  | Found idx, Future => (idx, length h, false, true)
  | Found idx1, Found idx2 => (idx1, S idx2, false, false)
  end.

(** The statuses found so far and the operations still searched. *)
Definition exec_status_step (acc : gset OperationId * gmap OperationId bool) (o : ExecutionOutput)
    : gset OperationId * gmap OperationId bool :=
  let ops := executed_ops_changes (state_changes o) in
  foldl (λ '(to_find, found) op,
           match ops !! op with
           | Some (success, _) => (to_find ∖ {[op]}, <[op := success]> found)
           | None => (to_find, found)
           end) acc (set_iter acc.1).
Fixpoint exec_status_loop (acc : gset OperationId * gmap OperationId bool)
    (newest_first : list ExecutionOutput) : gmap OperationId bool :=
  match newest_first with
  | [] => acc.2
  | o :: older =>
      let acc := exec_status_step acc o in
      if decide (acc.1 = ∅) then acc.2 else exec_status_loop acc older
  end.
Definition get_ops_exec_status h (batch : list OperationId) : list (option bool) :=
  let found := exec_status_loop (list_to_set batch, ∅) (rev h) in
  (λ op, found !! op) <$> batch.
End history.
