(* ===== verification/SpecLedger.v ===== *)
(** * The speculative ledger

    [massa-execution-worker/src/speculative_ledger.rs]: the ledger as execution sees
    it, without ever writing to the final ledger.  A value is looked up in the
    changes made so far, then in the history of executed slots, then in the final
    ledger.

    The final ledger is the interface [LedgerController] of
    [massa-ledger-exports/src/controller.rs], for reading.  A failing call returns
    the error with the state it leaves.  The history of transfers is only kept with
    the feature [execution-info], which is off.  Messages are kept without the
    values formatted into them.  Lengths of vectors are below [2^63]. *)

From Stdlib Require Import ZArith.
From S2P Require Import Prelude Slots OrdMap Keys Models Ledger History.

Open Scope N_scope.

(** ** Interface and state *)

Class LedgerController : Type := {
  final_balance : Address → option N;
  final_bytecode : Address → option Bytecode;
  final_exists : Address → bool;
  final_data_entry : Address → Key → option (list N);
  final_datastore_keys : Address → Key → Bound Key → Bound Key → option N → option (list Key) }.

Inductive ExecutionError : Type := RuntimeError (what : string).

Record StorageCostsConstants : Type := MkStorageCostsConstants {
  ledger_cost_per_byte : N;
  ledger_entry_base_cost : N;
  ledger_entry_datastore_base_cost : N }.

Record SpeculativeLedger : Type := MkSpeculativeLedger {
  active_history : ActiveHistory;
  added_changes : LedgerChanges;
  max_datastore_key_length : N;
  max_datastore_value_size : N;
  max_bytecode_size : N;
  storage_costs_constants : StorageCostsConstants }.

Definition set_added (c : LedgerChanges) (l : SpeculativeLedger) : SpeculativeLedger :=
  MkSpeculativeLedger (active_history l) c (max_datastore_key_length l) (max_datastore_value_size l)
    (max_bytecode_size l) (storage_costs_constants l).

Section ledger.
Context `{!LedgerController} `{!SetIter Key} `{!SetIter Address}.
Implicit Types (l : SpeculativeLedger) (addr : Address) (key : Key).

(** The result of a call: the new state, or the error and the state it leaves. *)
Definition Result : Type := outcome (ExecutionError * SpeculativeLedger) SpeculativeLedger.
Definition runtime_error {A} l (what : string) : outcome (ExecutionError * SpeculativeLedger) A :=
  Err (RuntimeError what, l).

Definition new_ledger (history : ActiveHistory) (max_key max_bytecode max_value : N)
    (costs : StorageCostsConstants) : SpeculativeLedger :=
  MkSpeculativeLedger history ∅ max_key max_value max_bytecode costs.
Definition take_changes l : LedgerChanges * SpeculativeLedger := (added_changes l, set_added ∅ l).
Definition get_snapshot l : LedgerChanges := added_changes l.
Definition reset_to_snapshot l (snapshot : LedgerChanges) : SpeculativeLedger := set_added snapshot l.

(** ** Reading *)

(** The answer of the history, or else of the final ledger. *)
Definition or_final {T} (r : HistorySearchResult T) (final : option T) : option T :=
  match r with Present v => Some v | NoInfo => final | Absent => None end.
Definition known_or_final {T} (r : HistorySearchResult T) (final : bool) : bool :=
  match r with Present _ => true | NoInfo => final | Absent => false end.

Definition get_balance l addr : option N :=
  get_balance_or_else (added_changes l) addr
    (or_final (fetch_balance (active_history l) addr) (final_balance addr)).

Definition get_bytecode l addr : option Bytecode :=
  get_bytecode_or_else (added_changes l) addr
    (or_final (fetch_bytecode (active_history l) addr) (final_bytecode addr)).

Definition entry_exists l addr : bool :=
  entry_exists_or_else (added_changes l) addr
    (known_or_final (fetch_balance (active_history l) addr) (final_exists addr)).

Definition get_data_entry l addr key : option (list N) :=
  get_data_entry_or_else (added_changes l) addr key
    (or_final (fetch_active_history_data_entry (active_history l) addr key)
       (final_data_entry addr key)).

Definition has_data_entry l addr key : bool :=
  has_data_entry_or_else (added_changes l) addr key
    (known_or_final (fetch_active_history_data_entry (active_history l) addr key)
       (bool_decide (is_Some (final_data_entry addr key)))).

(** ** Transfers *)

Definition is_sc (addr : Address) : bool := match addr with SC _ => true | User _ => false end.

(** Spending coins, on a copy of the changes. *)
Definition spend l (from : option Address) (amount : N) (changes : LedgerChanges)
    : outcome (ExecutionError * SpeculativeLedger) LedgerChanges :=
  match from with
  | None => Ok changes
  | Some from =>
      match get_balance l from with
      | None => runtime_error l "spending address not found"
      | Some balance =>
          match Amount.checked_sub balance amount with
          | None => runtime_error l "failed to transfer coins: insufficient balance"
          | Some balance => Ok (set_balance changes from balance)
          end
      end
  end.

(** Crediting coins, on the copy that already has the spending. *)
Definition credit l (to : option Address) (amount : N) (changes : LedgerChanges)
    : outcome (ExecutionError * SpeculativeLedger) LedgerChanges :=
  match to with
  | None => Ok changes
  | Some to =>
      match get_balance_or_else changes to (get_balance l to) with
      | Some old_balance =>
          match Amount.checked_add old_balance amount with
          | None => runtime_error l "overflow in crediting address balance"
          | Some balance => Ok (set_balance changes to balance)
          end
      | None =>
          if is_sc to
          then runtime_error l "cannot transfer coins to non-existing smart contract address"
          else
            match Amount.checked_sub amount (ledger_entry_base_cost (storage_costs_constants l)) with
            | Some remaining_coins => Ok (set_balance (create_address changes to) to remaining_coins)
            | None => runtime_error l "insufficient amount to create credited address"
            end
      end
  end.

Definition transfer_coins l (from to : option Address) (amount : N) : Result :=
  changes ← spend l from amount ∅;
  changes ← credit l to amount changes;
  Ok (set_added (apply (added_changes l) changes) l).

(** ** Contracts *)

Definition create_new_sc_address l (creator addr : Address) (bytecode : Bytecode) : Result :=
  if negb (entry_exists l creator)
  then runtime_error l "could not create SC address: creator address does not exist"
  else if entry_exists l addr
  then runtime_error l "could not create SC address: target address already exists"
  else if max_bytecode_size l <? N.of_nat (length bytecode)
  then runtime_error l "could not create SC address: bytecode size exceeds maximum allowed size"
  else
    match Amount.checked_mul_u64 (ledger_cost_per_byte (storage_costs_constants l))
            (N.of_nat (length bytecode)) with
    | None => runtime_error l "overflow in ledger cost for bytecode"
    | Some bytecode_cost =>
        match Amount.checked_add (ledger_entry_base_cost (storage_costs_constants l)) bytecode_cost with
        | None => runtime_error l "overflow in ledger cost for bytecode"
        | Some address_storage_cost =>
            l ← transfer_coins l (Some creator) None address_storage_cost;
            let l := set_added (create_address (added_changes l) addr) l in
            Ok (set_added (Ledger.set_bytecode (added_changes l) addr bytecode) l)
        end
    end.

(** The charge for a new bytecode. *)
Definition charge_bytecode l (caller addr : Address) (bytecode : Bytecode) : Result :=
  match get_bytecode l addr with
  | Some old =>
      let diff_size_storage := (Z.of_nat (length bytecode) - Z.of_nat (length old))%Z in
      match Amount.checked_mul_u64 (ledger_cost_per_byte (storage_costs_constants l))
              (Z.abs_N diff_size_storage) with
      | None => runtime_error l "overflow on computing bytecode delta storage costs"
      | Some storage_cost_bytecode =>
          match diff_size_storage with
          | Z0 => Ok l
          | Zpos _ => transfer_coins l (Some caller) None storage_cost_bytecode
          | Zneg _ => transfer_coins l None (Some caller) storage_cost_bytecode
          end
      end
  | None =>
      match Amount.checked_mul_u64 (ledger_cost_per_byte (storage_costs_constants l))
              (N.of_nat (length bytecode)) with
      | None => runtime_error l "overflow when calculating storage cost of bytecode"
      | Some bytecode_storage_cost => transfer_coins l (Some caller) None bytecode_storage_cost
      end
  end.

Definition set_bytecode l (caller addr : Address) (bytecode : Bytecode) : Result :=
  if negb (entry_exists l addr)
  then runtime_error l "could not set bytecode for address: address does not exist"
  else if max_bytecode_size l <? N.of_nat (length bytecode)
  then runtime_error l "could not set bytecode for address: bytecode size exceeds maximum allowed size"
  else
    l ← charge_bytecode l caller addr bytecode;
    Ok (set_added (Ledger.set_bytecode (added_changes l) addr bytecode) l).

Definition set_bytecode_raw l addr (bytecode : Bytecode) : SpeculativeLedger :=
  set_added (Ledger.set_bytecode (added_changes l) addr bytecode) l.

(** ** Datastore *)

Definition get_storage_cost_datastore_entry l key (value : list N)
    : outcome (ExecutionError * SpeculativeLedger) N :=
  let per_byte := ledger_cost_per_byte (storage_costs_constants l) in
  match Amount.checked_mul_u64 per_byte (N.of_nat (length key)) with
  | None => runtime_error l "overflow when calculating storage cost for datastore key"
  | Some key_cost =>
      match Amount.checked_mul_u64 per_byte (N.of_nat (length value)) with
      | None => runtime_error l "overflow when calculating storage cost for datastore value"
      | Some value_cost =>
          match (c ← Amount.checked_add (ledger_entry_datastore_base_cost (storage_costs_constants l)) key_cost;
                 Amount.checked_add c value_cost) with
          | None => runtime_error l "overflow when calculating storage cost for datastore key/value"
          | Some c => Ok c
          end
      end
  end.

Definition storage_cost_of l (kv : option (Key * list N))
    : outcome (ExecutionError * SpeculativeLedger) N :=
  match kv with
  | None => Ok Amount.zero
  | Some (key, value) => get_storage_cost_datastore_entry l key value
  end.

Definition charge_datastore_entry_change_storage l (caller : Address)
    (old_key_value new_key_value : option (Key * list N)) : Result :=
  old_storage_cost ← storage_cost_of l old_key_value;
  new_storage_cost ← storage_cost_of l new_key_value;
  map_err (λ '(_, l), (RuntimeError "failed to charge storage costs for datastore entry change", l))
    match new_storage_cost ?= old_storage_cost with
    | Gt => transfer_coins l (Some caller) None (Amount.saturating_sub new_storage_cost old_storage_cost)
    | Lt => transfer_coins l None (Some caller) (Amount.saturating_sub old_storage_cost new_storage_cost)
    | Eq => Ok l
    end.

Definition set_data_entry l (caller addr : Address) key (value : list N) : Result :=
  if negb (entry_exists l addr)
  then runtime_error l "could not set data for address: address does not exist"
  else if (N.of_nat (length key) =? 0) || (max_datastore_key_length l <? N.of_nat (length key))
  then runtime_error l "key length is out of range"
  else if max_datastore_value_size l <? N.of_nat (length value)
  then runtime_error l "value length is out of range"
  else
    l ← charge_datastore_entry_change_storage l caller (pair key <$> get_data_entry l addr key)
          (Some (key, value));
    Ok (set_added (Ledger.set_data_entry (added_changes l) addr key value) l).

Definition delete_data_entry l (caller addr : Address) key : Result :=
  match get_data_entry l addr key with
  | None => runtime_error l "could not delete data entry: entry or address does not exist"
  | Some value =>
      l ← charge_datastore_entry_change_storage l caller (Some (key, value)) None;
      Ok (set_added (Ledger.delete_data_entry (added_changes l) addr key) l)
  end.
End ledger.
