(* ===== verification/LedgerView.v ===== *)
(** * The ledger that changes stand for

    Changes applied to a ledger give a ledger.  Reading through layers of changes
    is reading that ledger, and writing a change is writing to it. *)

From S2P Require Import Prelude Slots OrdMap Keys KeyFacts Models Ledger.

Open Scope N_scope.

Section view.
Context `{!SetIter Key} `{!SetIter Address}.
Implicit Types (L V : gmap Address LedgerEntry) (c : LedgerChanges) (addr : Address) (key : Key).
Implicit Types (e : option LedgerEntry) (ch : option EntryChange).

(** ** Loops over the entries of a map *)

(** A loop over the entries of a map, whatever the order: what is read of the state at
    a key depends on the entry of that key only. *)
Lemma foldl_reads {S K W R : Type} `{Countable K} `{!SetIter K} (f : S → K * W → S) (read : S → R)
    (g : R → W → R) (s : S) (u : gmap K W) k :
  (∀ s kw, read (f s kw) = if decide (k = kw.1) then g (read s) kw.2 else read s) →
  read (foldl f s (map_iter u)) = match u !! k with Some w => g (read s) w | None => read s end.
Proof using.
  intros Hf. pose proof (foldl_reads_list f read g k Hf) as Hl.
  destruct (Hl (map_iter u) s (NoDup_fst_map_iter u)) as [H1 H2].
  destruct (u !! k) as [w|] eqn:Hw; [apply H1; by apply elem_of_map_iter|].
  apply H2. rewrite fst_map_iter, elem_of_set_iter. by apply not_elem_of_dom.
Qed.

(** The same for a map of which each entry changes one key. *)
Lemma foldl_pointwise {K V W : Type} `{Countable K} `{!SetIter K} (f : gmap K V → K * W → gmap K V)
    (g : option V → W → option V) (m : gmap K V) (u : gmap K W) k :
  (∀ m kw k, f m kw !! k = if decide (k = kw.1) then g (m !! k) kw.2 else m !! k) →
  foldl f m (map_iter u) !! k = match u !! k with Some w => g (m !! k) w | None => m !! k end.
Proof using. intros Hf. apply (foldl_reads f (.!! k)). intros s kw. apply Hf. Qed.

Definition data_change (x : SetOrDelete (list N)) : option (list N) :=
  match x with SOD_Set v => Some v | SOD_Delete => None end.

Lemma lookup_update_datastore (d : Datastore) (u : gmap Key (SetOrDelete (list N))) key :
  foldl update_datastore d (map_iter u) !! key
  = match u !! key with Some x => data_change x | None => d !! key end.
Proof using.
  rewrite (foldl_pointwise update_datastore (λ _ x, data_change x)); [done|].
  intros m [k [v|]] k'; cbn; destruct (decide (k' = k)) as [->|Hne];
    by rewrite ?lookup_insert_eq, ?lookup_insert_ne, ?lookup_delete_eq, ?lookup_delete_ne by done.
Qed.

Lemma lookup_apply_changes c c' addr :
  (apply c c' : LedgerChanges) !! addr
  = match c' !! addr with
    | Some x => Some (match c !! addr with Some cur => apply cur x | None => x end)
    | None => c !! addr
    end.
Proof using.
  unfold apply, LedgerChanges_apply.
  rewrite (foldl_pointwise apply_entry
    (λ cur x, Some (match cur with Some cur => apply cur x | None => x end))); [done|].
  intros m [k x] k'. unfold apply_entry; cbn. destruct (decide (k' = k)) as [->|Hne].
  - destruct (m !! k); by rewrite lookup_insert_eq.
  - destruct (m !! k); by rewrite lookup_insert_ne.
Qed.

(** ** Changes as functions on entries *)

Definition change_view ch e : option LedgerEntry :=
  match ch with
  | None => e
  | Some (SUD_Set t) => Some t
  | Some (SUD_Update u) => Some (apply (default default_value e) u)
  | Some SUD_Delete => None
  end.

(** The updates of an entry compose. *)
Lemma apply_update_compose (t : LedgerEntry) (u u' : LedgerEntryUpdate) :
  apply t (apply u u' : LedgerEntryUpdate) = apply (apply t u) u'.
Proof using.
  unfold apply, LedgerEntry_apply, LedgerEntryUpdate_apply; cbn [lu_balance lu_bytecode lu_datastore
    le_balance le_bytecode le_datastore]. f_equal.
  - by destruct (lu_balance u'), (lu_balance u).
  - by destruct (lu_bytecode u'), (lu_bytecode u).
  - apply map_eq. intros k. rewrite !lookup_update_datastore, lookup_union.
    by destruct (lu_datastore u' !! k), (lu_datastore u !! k).
Qed.

Lemma change_view_compose (x y : EntryChange) e :
  change_view (Some (apply x y)) e = change_view (Some y) (change_view (Some x) e).
Proof using.
  destruct x as [t|u|], y as [t'|u'|]; cbn; try done. by rewrite apply_update_compose.
Qed.

(** The ledger after some changes. *)
Definition apply_to_ledger L c : gmap Address LedgerEntry := merge (λ e ch, change_view ch e) L c.

Lemma lookup_apply_to_ledger L c addr :
  apply_to_ledger L c !! addr = change_view (c !! addr) (L !! addr).
Proof using. unfold apply_to_ledger. rewrite lookup_merge. by destruct (L !! addr), (c !! addr). Qed.

Lemma apply_to_ledger_empty L : apply_to_ledger L ∅ = L.
Proof using. apply map_eq. intros a. by rewrite lookup_apply_to_ledger, lookup_empty. Qed.

(** Changes applied one after the other are the merged changes applied at once. *)
Lemma apply_to_ledger_compose L c c' :
  apply_to_ledger L (apply c c' : LedgerChanges) = apply_to_ledger (apply_to_ledger L c) c'.
Proof using.
  apply map_eq. intros a. rewrite !lookup_apply_to_ledger, lookup_apply_changes.
  destruct (c' !! a) as [x|]; [|done]. destruct (c !! a) as [cur|]; [|done]. apply change_view_compose.
Qed.

(** ** Writing *)

Definition with_balance (t : LedgerEntry) (b : N) : LedgerEntry :=
  MkLedgerEntry b (le_bytecode t) (le_datastore t).
Definition with_bytecode (t : LedgerEntry) (b : Bytecode) : LedgerEntry :=
  MkLedgerEntry (le_balance t) b (le_datastore t).
Definition with_data (t : LedgerEntry) (d : Datastore) : LedgerEntry :=
  MkLedgerEntry (le_balance t) (le_bytecode t) d.

Lemma apply_no_data (t : LedgerEntry) (b : SetOrKeep N) (code : SetOrKeep Bytecode) :
  apply t (MkLedgerEntryUpdate b code ∅)
  = MkLedgerEntry (apply_to b (le_balance t)) (apply_to code (le_bytecode t)) (le_datastore t).
Proof using.
  unfold apply, LedgerEntry_apply; cbn. f_equal. apply map_eq. intros k.
  by rewrite lookup_update_datastore, lookup_empty.
Qed.

Lemma view_set_balance L c addr b :
  apply_to_ledger L (set_balance c addr b)
  = <[addr := with_balance (default default_value (apply_to_ledger L c !! addr)) b]> (apply_to_ledger L c).
Proof using.
  apply map_eq. intros a. rewrite lookup_apply_to_ledger. unfold set_balance.
  destruct (decide (a = addr)) as [->|Hne].
  - rewrite lookup_insert_eq, lookup_apply_to_ledger.
    destruct (c !! addr) as [[t|u|]|]; rewrite lookup_insert_eq; cbn; try done; by rewrite ?apply_no_data.
  - rewrite lookup_insert_ne, lookup_apply_to_ledger by done.
    destruct (c !! addr) as [[t|u|]|]; by rewrite lookup_insert_ne.
Qed.

Lemma view_set_bytecode L c addr b :
  apply_to_ledger L (set_bytecode c addr b)
  = <[addr := with_bytecode (default default_value (apply_to_ledger L c !! addr)) b]> (apply_to_ledger L c).
Proof using.
  apply map_eq. intros a. rewrite lookup_apply_to_ledger. unfold set_bytecode.
  destruct (decide (a = addr)) as [->|Hne].
  - rewrite lookup_insert_eq, lookup_apply_to_ledger.
    destruct (c !! addr) as [[t|u|]|]; rewrite lookup_insert_eq; cbn; try done; by rewrite ?apply_no_data.
  - rewrite lookup_insert_ne, lookup_apply_to_ledger by done.
    destruct (c !! addr) as [[t|u|]|]; by rewrite lookup_insert_ne.
Qed.

Lemma apply_data (t : LedgerEntry) (u : LedgerEntryUpdate) key (x : SetOrDelete (list N)) :
  apply t (MkLedgerEntryUpdate (lu_balance u) (lu_bytecode u) (<[key := x]> (lu_datastore u)))
  = with_data (apply t u) (update_datastore (le_datastore (apply t u)) (key, x)).
Proof using.
  unfold apply, LedgerEntry_apply, with_data; cbn. f_equal. apply map_eq. intros k.
  rewrite lookup_update_datastore. unfold update_datastore; cbn.
  destruct (decide (k = key)) as [->|Hne].
  - rewrite lookup_insert_eq. destruct x; cbn; by rewrite ?lookup_insert_eq, ?lookup_delete_eq.
  - rewrite lookup_insert_ne by done.
    destruct x; cbn; rewrite ?lookup_insert_ne, ?lookup_delete_ne by done; by rewrite lookup_update_datastore.
Qed.

Lemma view_set_data_entry L c addr key v :
  apply_to_ledger L (set_data_entry c addr key v)
  = let t := default default_value (apply_to_ledger L c !! addr) in
    <[addr := with_data t (<[key := v]> (le_datastore t))]> (apply_to_ledger L c).
Proof using.
  apply map_eq. intros a. rewrite lookup_apply_to_ledger. unfold set_data_entry. cbn zeta.
  destruct (decide (a = addr)) as [->|Hne].
  - rewrite lookup_insert_eq, lookup_apply_to_ledger.
    destruct (c !! addr) as [[t|u|]|]; rewrite lookup_insert_eq; cbn; try done.
    + by rewrite apply_data.
    + f_equal. rewrite <-(insert_empty key (SOD_Set v)).
      etrans; [exact (apply_data _ no_update key (SOD_Set v))|]. unfold no_update. rewrite apply_no_data. done.
  - rewrite lookup_insert_ne, lookup_apply_to_ledger by done.
    destruct (c !! addr) as [[t|u|]|]; by rewrite lookup_insert_ne.
Qed.

Lemma view_delete_data_entry L c addr key t :
  apply_to_ledger L c !! addr = Some t →
  apply_to_ledger L (delete_data_entry c addr key)
  = <[addr := with_data t (delete key (le_datastore t))]> (apply_to_ledger L c).
Proof using.
  intros Ht. pose proof Ht as Hc. rewrite lookup_apply_to_ledger in Hc.
  apply map_eq. intros a. rewrite lookup_apply_to_ledger. unfold delete_data_entry.
  destruct (decide (a = addr)) as [->|Hne].
  - rewrite lookup_insert_eq.
    destruct (c !! addr) as [[t'|u|]|] eqn:Hch; rewrite ?lookup_insert_eq; cbn in *; simplify_eq; try done.
    + by rewrite apply_data.
    + rewrite Hc. cbn. f_equal. rewrite <-(insert_empty key SOD_Delete).
      etrans; [exact (apply_data _ no_update key SOD_Delete)|]. unfold no_update. rewrite apply_no_data. done.
  - rewrite lookup_insert_ne, lookup_apply_to_ledger by done.
    destruct (c !! addr) as [[t'|u|]|]; by rewrite ?lookup_insert_ne.
Qed.

Lemma view_create_address L c addr :
  apply_to_ledger L (create_address c addr) = <[addr := default_value]> (apply_to_ledger L c).
Proof using.
  apply map_eq. intros a. rewrite lookup_apply_to_ledger. unfold create_address.
  destruct (decide (a = addr)) as [->|Hne]; [by rewrite !lookup_insert_eq|].
  by rewrite !lookup_insert_ne, lookup_apply_to_ledger.
Qed.
End view.
