(* ===== verification/HistoryFacts.v ===== *)
(** * The history of executed slots, searched

    The slots of a history are consecutive, so that a slot is found by its distance
    to the first; the searches return the newest answer. *)

From S2P Require Import Prelude Slots Models Ledger History LedgerView.

Open Scope N_scope.

Lemma filter_range {A} (P : A → Prop) `{∀ x, Decision (P x)} (l : list A) (a b : nat) :
  (∀ i x, l !! i = Some x → P x ↔ (a <= i < b)%nat) → filter P l = drop a (take b l).
Proof.
  revert a b. induction l as [|x l IH]; intros a b Hl; [by rewrite take_nil, drop_nil|].
  rewrite filter_cons. pose proof (Hl 0%nat x eq_refl) as Hx. destruct b as [|b], a as [|a]; cbn in *.
  - rewrite decide_False by (intros ?%Hx; lia). rewrite (IH 0%nat 0%nat); [done|]. intros i y Hy. rewrite (Hl (S i) y Hy). lia.
  - rewrite decide_False by (intros ?%Hx; lia). rewrite (IH 0%nat 0%nat); [done|]. intros i y Hy. rewrite (Hl (S i) y Hy). lia.
  - rewrite decide_True by (apply Hx; lia). f_equal. rewrite (IH 0%nat b); [by rewrite drop_0|].
    intros i y Hy. rewrite (Hl (S i) y Hy). lia.
  - rewrite decide_False by (intros ?%Hx; lia). apply IH. intros i y Hy. rewrite (Hl (S i) y Hy). lia.
Qed.

Section slots.
Context (tc : N) (Htc : threads_ok tc).
Implicit Types (h : ActiveHistory) (o : ExecutionOutput) (s : Slot).

(** Consecutive slots, oldest first. *)
Definition history_consecutive h : Prop :=
  (∀ o, o ∈ h → slot_ok tc (out_slot o))
  ∧ ∀ i o o', h !! i = Some o → h !! S i = Some o' → get_next_slot (out_slot o) tc = Ok (out_slot o').

Lemma consecutive_index h o0 i o :
  history_consecutive h → h !! 0%nat = Some o0 → h !! i = Some o →
  slot_index tc (out_slot o) = slot_index tc (out_slot o0) + N.of_nat i ∧ thread (out_slot o) < tc.
Proof using Htc.
  intros [Hok Hnext] H0. revert o. induction i as [|i IH]; intros o Hi.
  - assert (o = o0) as -> by congruence. split; [lia|]. by apply Hok, (list_elem_of_lookup_2 _ 0%nat).
  - assert (is_Some (h !! i)) as [o' Ho'] by (apply lookup_lt_is_Some; apply lookup_lt_Some in Hi; lia).
    destruct (IH o' Ho') as [Hx Ht]. pose proof (Hnext i o' o Ho' Hi) as Hn.
    apply get_next_slot_index in Hn as (Hx' & Ht' & _); [|done..]. split; [lia|done].
Qed.

Lemma get_slot_index_spec h s :
  history_consecutive h → thread s < tc → slot_index tc s ≤ u64_max →
  match get_slot_index h s tc with
  | NoHistory => h = []
  | Past => h ≠ [] ∧ ∀ o, o ∈ h → slot_lt s (out_slot o) = true
  | Future => h ≠ [] ∧ ∀ o, o ∈ h → slot_lt (out_slot o) s = true
  | Found i => ∃ o, h !! i = Some o ∧ out_slot o = s
  end.
Proof using Htc.
  intros Hc Ht Hs. destruct h as [|o0 h]; [done|]. cbn [get_slot_index].
  assert (thread (out_slot o0) < tc) as Ht0 by (apply (consecutive_index _ o0 0 o0 Hc); done).
  destruct (slot_lt s (out_slot o0)) eqn:Hlt.
  - split; [done|]. intros o [i Hi]%list_elem_of_lookup.
    destruct (consecutive_index _ o0 i o Hc eq_refl Hi). rewrite (slot_lt_index tc) in * by done. lia.
  - rewrite (slots_since_index tc), Hlt by done. apply (slot_lt_false_index tc) in Hlt; [|done..].
    destruct (N.leb_spec (N.of_nat (length (o0 :: h))) (slot_index tc s - slot_index tc (out_slot o0))) as [Hle|Hgt].
    + split; [done|]. intros o [i Hi]%list_elem_of_lookup.
      destruct (consecutive_index _ o0 i o Hc eq_refl Hi). apply lookup_lt_Some in Hi.
      rewrite (slot_lt_index tc) by done. lia.
    + destruct (lookup_lt_is_Some_2 (o0 :: h) (N.to_nat (slot_index tc s - slot_index tc (out_slot o0)))) as [o Ho];
        [lia|]. exists o. split; [done|]. destruct (consecutive_index _ o0 _ o Hc eq_refl Ho).
      apply (slot_index_inj tc); [done..|lia].
Qed.

(** The outputs on the two sides of a slot that was found. *)
Lemma found_split h s i o :
  history_consecutive h → thread s < tc → h !! i = Some o → out_slot o = s →
  ∀ j o', h !! j = Some o' → (slot_lt (out_slot o') s = true ↔ (j < i)%nat)
                           ∧ (slot_le (out_slot o') s = true ↔ (j <= i)%nat).
Proof using Htc.
  intros Hc Ht Hi <- j o' Hj.
  destruct h as [|o0 h]; [done|]. destruct (consecutive_index _ o0 i o Hc eq_refl Hi) as [Hxi _].
  destruct (consecutive_index _ o0 j o' Hc eq_refl Hj) as [Hxj Htj]. split.
  - rewrite (slot_lt_index tc) by done. lia.
  - unfold slot_le. rewrite (slot_cmp_index tc) by done. rewrite Hxi, Hxj.
    destruct (N.compare_spec (slot_index tc (out_slot o0) + N.of_nat j) (slot_index tc (out_slot o0) + N.of_nat i));
      split; intros; done || lia.
Qed.

Lemma truncate_from_spec h s :
  history_consecutive h → thread s < tc → slot_index tc s ≤ u64_max →
  truncate_from h s tc = filter (λ o, slot_lt (out_slot o) s = true) h.
Proof using Htc.
  intros Hc Ht Hs. pose proof (get_slot_index_spec h s Hc Ht Hs) as Hg. unfold truncate_from. symmetry.
  destruct (get_slot_index h s tc) as [| |i|].
  - rewrite (filter_range _ h 0 0); [done|]. intros i o Hi. destruct Hg as [_ Hg].
    specialize (Hg o (list_elem_of_lookup_2 _ _ _ Hi)). rewrite slot_lt_iff in *. lia.
  - rewrite (filter_range _ h 0 (length h)); [by rewrite take_ge, drop_0|]. intros i o Hi.
    destruct Hg as [_ Hg]. specialize (Hg o (list_elem_of_lookup_2 _ _ _ Hi)).
    apply lookup_lt_Some in Hi. split; [lia|done].
  - destruct Hg as (o & Hi & Ho). rewrite (filter_range _ h 0 i); [by rewrite drop_0|]. intros j o' Hj.
    rewrite (proj1 (found_split h s i o Hc Ht Hi Ho j o' Hj)). lia.
  - by subst h.
Qed.

(** ** Cycles *)

Lemma get_slot_index_formula h o0 s :
  thread (out_slot o0) < tc → thread s < tc → slot_index tc s ≤ u64_max →
  get_slot_index (o0 :: h) s tc
  = if slot_index tc s <? slot_index tc (out_slot o0) then Past
    else if slot_index tc (out_slot o0) + N.of_nat (length (o0 :: h)) <=? slot_index tc s then Future
    else Found (N.to_nat (slot_index tc s - slot_index tc (out_slot o0))).
Proof using.
  intros Ht0 Ht Hs. cbn [get_slot_index]. destruct (slot_lt s (out_slot o0)) eqn:Hlt.
  - apply (slot_lt_index tc) in Hlt; [|done..]. by rewrite (proj2 (N.ltb_lt _ _) Hlt).
  - rewrite (slots_since_index tc), Hlt by done. apply (slot_lt_false_index tc) in Hlt; [|done..].
    rewrite (proj2 (N.ltb_ge _ _) Hlt).
    destruct (N.leb_spec (N.of_nat (length (o0 :: h))) (slot_index tc s - slot_index tc (out_slot o0)));
      destruct (N.leb_spec (slot_index tc (out_slot o0) + N.of_nat (length (o0 :: h))) (slot_index tc s));
      done || lia.
Qed.

Section cycle.
Context (cycle ppc : N) (Hppc : 0 < ppc).
Let first_slot : Slot := MkSlot (cycle * ppc) 0.
Let last_slot : Slot := MkSlot (cycle * ppc + (ppc - 1)) (tc - 1).
Hypothesis Hcycle : slot_index tc last_slot ≤ u64_max.

Lemma in_cycle_index s :
  thread s < tc → period s / ppc = cycle ↔ slot_index tc first_slot ≤ slot_index tc s ≤ slot_index tc last_slot.
Proof using Hppc.
  clear Hcycle. intros Ht. unfold slot_index, first_slot, last_slot; cbn. set (p := period s).
  transitivity (cycle * ppc ≤ p ≤ cycle * ppc + (ppc - 1)).
  - split.
    + intros Hq. pose proof (N.Div0.div_mod p ppc) as Hd. pose proof (N.mod_lt p ppc ltac:(lia)).
      rewrite Hq, N.mul_comm in Hd. clear Hq. revert Hd H. generalize (p mod ppc) (cycle * ppc). lia.
    + intros Hp. symmetry. apply (N.div_unique _ _ _ (p - cycle * ppc)); lia.
  - generalize (cycle * ppc). intros c. set (d := c + (ppc - 1)). clearbody p d.
    split; intros [H1 H2]; split; [nia|nia|destruct (N.lt_ge_cases p c); [nia|done]|].
    destruct (N.lt_ge_cases d p); [nia|done].
Qed.

Lemma cycle_slots :
  new_first_of_cycle cycle ppc = Ok first_slot ∧ new_last_of_cycle cycle ppc tc = Ok last_slot
  ∧ slot_index tc first_slot ≤ slot_index tc last_slot.
Proof using Hcycle Hppc Htc.
  destruct Htc as [H0 H8]. unfold slot_index, last_slot, first_slot in *. cbn in *.
  assert (cycle * ppc + (ppc - 1) ≤ u64_max) by nia.
  unfold new_first_of_cycle, new_last_of_cycle, checked_mul, checked_add, saturating_sub.
  rewrite (proj2 (N.leb_le (cycle * ppc) u64_max)) by lia. cbn [ok_or mbind outcome_bind].
  rewrite (proj2 (N.leb_le (cycle * ppc + (ppc - 1)) u64_max)) by lia. repeat split. nia.
Qed.

(** The outputs at the indices are those of the cycle. *)
Lemma find_cycle_indices_spec h :
  history_consecutive h →
  let '(a, b, before, after) := find_cycle_indices h cycle ppc tc in
  drop a (take b h) = filter (λ o, period (out_slot o) / ppc = cycle) h
  ∧ (∀ o, head h = Some o → before = slot_lt first_slot (out_slot o))
  ∧ ∀ o, last h = Some o → after = slot_lt (out_slot o) last_slot.
Proof using Hcycle Hppc Htc.
  intros Hc. destruct cycle_slots as (Hf & Hl & Hfl). unfold find_cycle_indices. rewrite Hf, Hl.
  destruct h as [|o0 h]; [done|].
  assert (thread (out_slot o0) < tc) as Ht0 by (apply (consecutive_index _ o0 0 o0 Hc); done).
  assert (thread first_slot < tc ∧ thread last_slot < tc) as [Htf Htl] by (destruct Htc; cbn; lia).
  rewrite !get_slot_index_formula by (done || lia).
  assert (∀ a b, (∀ i, slot_index tc first_slot ≤ slot_index tc (out_slot o0) + N.of_nat i ≤ slot_index tc last_slot
                       ∧ (i < length (o0 :: h))%nat ↔ (a <= i < b)%nat) →
    drop a (take b (o0 :: h)) = filter (λ o, period (out_slot o) / ppc = cycle) (o0 :: h)) as Hrange.
  { intros a b Hab. symmetry. apply filter_range. intros i o Hi.
    destruct (consecutive_index _ o0 i o Hc eq_refl Hi) as [Hx Ht]. rewrite in_cycle_index, Hx, <- Hab by done.
    apply lookup_lt_Some in Hi. tauto. }
  assert (∀ o, last (o0 :: h) = Some o →
    slot_index tc (out_slot o) = slot_index tc (out_slot o0) + N.of_nat (length h) ∧ thread (out_slot o) < tc) as Hlast.
  { intros o Ho. rewrite last_lookup in Ho. by apply (consecutive_index _ o0 (length h) o Hc). }
  set (x0 := slot_index tc (out_slot o0)) in *. set (f := slot_index tc first_slot) in *.
  set (l := slot_index tc last_slot) in *.
  assert (∀ a b before after,
    (∀ i, f ≤ x0 + N.of_nat i ≤ l ∧ (i < length (o0 :: h))%nat ↔ (a <= i < b)%nat) →
    (before = true ↔ f < x0) → (after = true ↔ x0 + N.of_nat (length h) < l) →
    drop a (take b (o0 :: h)) = filter (λ o, period (out_slot o) / ppc = cycle) (o0 :: h)
    ∧ (∀ o, head (o0 :: h) = Some o → before = slot_lt first_slot (out_slot o))
    ∧ ∀ o, last (o0 :: h) = Some o → after = slot_lt (out_slot o) last_slot) as Hgoal.
  { intros a b before after Hab Hb Ha. split; [by apply Hrange|]. split.
    - intros o [= <-]. apply eq_true_iff_eq. by rewrite (slot_lt_index tc).
    - intros o [Hx Ht]%Hlast. apply eq_true_iff_eq. by rewrite (slot_lt_index tc), Hx. }
  clearbody x0 f l. cbn [length] in *.
  destruct (N.ltb_spec f x0); [|destruct (N.leb_spec (x0 + N.of_nat (S (length h))) f)];
    (destruct (N.ltb_spec l x0); [|destruct (N.leb_spec (x0 + N.of_nat (S (length h))) l)]);
    apply Hgoal; try (intros i); split; intros; try done; lia.
Qed.
End cycle.
End slots.

(** ** Searches *)

Section searches.
Context `{!SetIter Slot} `{!SetIter Address} `{!SetIter OperationId}.
Implicit Types (h : ActiveHistory) (o : ExecutionOutput) (d : DeferredCredits) (op : OperationId).

Definition status_in o op : option bool := fst <$> executed_ops_changes (state_changes o) !! op.

(** The status of an operation in the newest output that has it. *)
Definition newest_status h op : option bool := head (omap (λ o, status_in o op) (rev h)).

Lemma exec_status_step_spec to_find found o op :
  (∀ op, op ∈ to_find → found !! op = None) →
  let acc := exec_status_step (to_find, found) o in
  (op ∈ acc.1 ↔ op ∈ to_find ∧ status_in o op = None)
  ∧ acc.2 !! op = if decide (op ∈ to_find) then status_in o op else found !! op.
Proof using.
  intros Hnone. unfold exec_status_step. cbn [fst].
  set (f := λ '(to_find, found) op, _).
  assert (∀ l tf fd, op ∉ l → (op ∈ (foldl f (tf, fd) l).1 ↔ op ∈ tf) ∧ (foldl f (tf, fd) l).2 !! op = fd !! op)
    as Hout.
  { induction l as [|op' l IH]; intros tf fd Hl; [done|].
    apply not_elem_of_cons in Hl as [Hne Hl]. cbn.
    destruct (executed_ops_changes (state_changes o) !! op') as [[b s]|]; [|by apply IH].
    destruct (IH (tf ∖ {[op']}) (<[op' := b]> fd) Hl) as [H1 H2]. rewrite lookup_insert_ne in H2 by done.
    split; [set_solver|done]. }
  assert (∀ l tf fd, op ∈ l → NoDup l → op ∈ tf →
    (op ∈ (foldl f (tf, fd) l).1 ↔ status_in o op = None)
    ∧ (foldl f (tf, fd) l).2 !! op = match status_in o op with Some b => Some b | None => fd !! op end) as Hin.
  { induction l as [|op' l IH]; intros tf fd Hl Hnd Htf; [by apply elem_of_nil in Hl|].
    apply NoDup_cons in Hnd as [Hni Hnd]. cbn.
    apply elem_of_cons in Hl as [<-|Hl].
    - unfold status_in. destruct (executed_ops_changes (state_changes o) !! op) as [[b s]|].
      + destruct (Hout l (tf ∖ {[op]}) (<[op := b]> fd) Hni) as [H1 H2].
        rewrite lookup_insert_eq in H2. cbn. split; [set_solver|done].
      + destruct (Hout l tf fd Hni) as [H1 H2]. cbn. split; [naive_solver|done].
    - assert (op ≠ op') by (intros ->; done).
      destruct (executed_ops_changes (state_changes o) !! op') as [[b s]|]; [|by apply IH].
      destruct (IH (tf ∖ {[op']}) (<[op' := b]> fd) Hl Hnd ltac:(set_solver)) as [H1 H2].
      rewrite lookup_insert_ne in H2 by done. done. }
  destruct (decide (op ∈ to_find)) as [Hop|Hop].
  - destruct (Hin (set_iter to_find) to_find found) as [H1 H2]; [by apply elem_of_set_iter|apply NoDup_set_iter|done|].
    rewrite H2, (Hnone op Hop). split; [tauto|]. by destruct (status_in o op).
  - destruct (Hout (set_iter to_find) to_find found) as [H1 H2]; [by rewrite elem_of_set_iter|]. split; [tauto|done].
Qed.

Lemma exec_status_loop_spec newest_first to_find found op :
  (∀ op, op ∈ to_find → found !! op = None) →
  exec_status_loop (to_find, found) newest_first !! op
  = if decide (op ∈ to_find) then head (omap (λ o, status_in o op) newest_first) else found !! op.
Proof using.
  revert to_find found. induction newest_first as [|o older IH]; intros to_find found Hnone.
  { cbn. case_decide; [by apply Hnone|done]. }
  pose proof (λ op, exec_status_step_spec to_find found o op Hnone) as Hstep. cbn [exec_status_loop omap list_omap].
  destruct (exec_status_step (to_find, found) o) as [tf fd]. cbn [fst snd] in *.
  assert (exec_status_loop (tf, fd) older !! op
    = if decide (op ∈ to_find) then match status_in o op with Some b => Some b | None => head (omap (λ o, status_in o op) older) end
      else found !! op) as Heq.
  { rewrite IH.
    - destruct (Hstep op) as [H1 H2]. rewrite H2. destruct (decide (op ∈ to_find)), (status_in o op) eqn:Hs;
        case_decide; naive_solver.
    - intros op' Hop'. destruct (Hstep op') as [H1 ->]. apply H1 in Hop' as [Hf Hs]. by rewrite decide_True. }
  destruct (decide (tf = ∅)) as [Htf|Htf].
  - cbn [fst snd] in *. destruct (Hstep op) as [H1 H2]. rewrite H2. destruct (decide (op ∈ to_find)) as [Hop|]; [|done].
    destruct (status_in o op) eqn:Hs; [done|]. set_solver.
  - rewrite Heq. case_decide; [|done]. by destruct (status_in o op).
Qed.

Lemma get_ops_exec_status_spec h batch : get_ops_exec_status h batch = newest_status h <$> batch.
Proof using.
  unfold get_ops_exec_status, newest_status. apply list_fmap_ext. intros i op Hi.
  rewrite exec_status_loop_spec by (intros; apply lookup_empty). rewrite decide_True; [done|].
  apply elem_of_list_to_set. by eapply list_elem_of_lookup_2.
Qed.

(** ** Deferred credits *)

Lemma credits_get_insert d s a x a' s' :
  get_address_credits_for_slot (credits_insert d s a x) a' s'
  = if decide (s' = s ∧ a' = a) then Some x else get_address_credits_for_slot d a' s'.
Proof using.
  unfold get_address_credits_for_slot, credits_insert. destruct (decide (s' = s)) as [->|Hs].
  - rewrite lookup_insert_eq. cbn. destruct (decide (a' = a)) as [->|Ha].
    + rewrite lookup_insert_eq, decide_True by done. done.
    + rewrite lookup_insert_ne, decide_False by naive_solver. by destruct (d !! s).
  - rewrite lookup_insert_ne, decide_False by naive_solver. done.
Qed.

Lemma credits_get_extend d other a s :
  get_address_credits_for_slot (credits_extend d other) a s
  = match get_address_credits_for_slot other a s with
    | Some x => Some x
    | None => get_address_credits_for_slot d a s
    end.
Proof using.
  unfold credits_extend.
  rewrite (foldl_reads credits_extend_slot (λ d, get_address_credits_for_slot d a s)
    (λ r m, match m !! a with Some x => Some x | None => r end) d other s).
  { unfold get_address_credits_for_slot at 3. destruct (other !! s); done. }
  clear. intros d [s' m]. unfold credits_extend_slot. cbn [fst snd]. case_decide as Hs.
  - subst s'. rewrite (foldl_reads _ (λ d, get_address_credits_for_slot d a s) (λ _ x, Some x) d m a); [done|].
    intros d' [a' x]. cbn. rewrite credits_get_insert. by do 2 case_decide; naive_solver.
  - generalize (map_iter m). intros l. revert d. induction l as [|[a' x] l IH]; intros d; [done|]. cbn.
    rewrite IH, credits_get_insert. by rewrite decide_False by naive_solver.
Qed.

Lemma credits_get_until d slot a s :
  get_address_credits_for_slot (credits_until d slot) a s
  = if slot_le s slot then get_address_credits_for_slot d a s else None.
Proof using.
  unfold get_address_credits_for_slot, credits_until. rewrite map_lookup_filter.
  destruct (d !! s) as [m|]; cbn; [|by destruct (slot_le s slot)].
  destruct (slot_le s slot); [by rewrite option_guard_True|by rewrite option_guard_False].
Qed.

(** The credits collected are the newest ones. *)
Lemma get_all_deferred_credits_until_spec h slot a s :
  get_address_credits_for_slot (get_all_deferred_credits_until h slot) a s
  = if slot_le s slot then get_address_deferred_credit_for h a s else None.
Proof using.
  unfold get_all_deferred_credits_until, get_address_deferred_credit_for.
  induction h as [|o h IH] using rev_ind; [by destruct (slot_le s slot)|].
  rewrite foldl_app, rev_app_distr. cbn. rewrite credits_get_extend, credits_get_until, IH.
  destruct (slot_le s slot); [|done]. by destruct (get_address_credits_for_slot (deferred_credits (state_changes o)) a s).
Qed.
End searches.

(** ** Properties *)

(** A slot so far in the future that its distance overflows is reported as past. *)
Lemma get_slot_index_overflow o :
  out_slot o = MkSlot 0 0 → get_slot_index [o] (MkSlot u64_max 0) 32 = Past.
Proof. intros Ho. unfold get_slot_index. rewrite Ho. by vm_compute. Qed.

(** The history of executed slots, whose slots are consecutive, is searched
    exactly.  A slot is found where its output is, and is otherwise before or after
    all of them; truncating from a slot keeps the outputs of the slots before it;
    the indices found for a cycle hold the outputs of the cycle, with flags that say
    whether it starts before the history and ends after it; the status of an
    operation is the one of the newest output that executed it; and the credits
    collected until a slot are, for each slot and address, the newest of the
    history. *)
Theorem active_history_exact `{!SetIter Slot} `{!SetIter Address} `{!SetIter OperationId}
    (tc cycle ppc : N) (h : ActiveHistory) (s : Slot)
    (Htc : threads_ok tc) (Hh : history_consecutive tc h)
    (Hs : thread s < tc) (Hmax : slot_index tc s ≤ u64_max) (Hppc : 0 < ppc)
    (Hcycle : slot_index tc (MkSlot (cycle * ppc + (ppc - 1)) (tc - 1)) ≤ u64_max) :
  match get_slot_index h s tc with
  | NoHistory => h = []
  | Past => h ≠ [] ∧ ∀ o, o ∈ h → slot_lt s (out_slot o) = true
  | Future => h ≠ [] ∧ ∀ o, o ∈ h → slot_lt (out_slot o) s = true
  | Found i => ∃ o, h !! i = Some o ∧ out_slot o = s
  end
  ∧ truncate_from h s tc = filter (λ o, slot_lt (out_slot o) s = true) h
  ∧ (let '(a, b, before, after) := find_cycle_indices h cycle ppc tc in
     drop a (take b h) = filter (λ o, period (out_slot o) / ppc = cycle) h
     ∧ (∀ o, head h = Some o → before = slot_lt (MkSlot (cycle * ppc) 0) (out_slot o))
     ∧ ∀ o, last h = Some o → after = slot_lt (out_slot o) (MkSlot (cycle * ppc + (ppc - 1)) (tc - 1)))
  ∧ (∀ batch, get_ops_exec_status h batch = newest_status h <$> batch)
  ∧ ∀ slot addr, get_address_credits_for_slot (get_all_deferred_credits_until h slot) addr s
                 = if slot_le s slot then get_address_deferred_credit_for h addr s else None.
Proof.
  split; [by apply get_slot_index_spec|]. split; [by apply truncate_from_spec|].
  split; [by apply find_cycle_indices_spec|]. split; [apply get_ops_exec_status_spec|].
  intros slot addr. apply get_all_deferred_credits_until_spec.
Qed.

(** Four slots of two threads, in cycles of two periods: the first is of cycle one,
    the others of cycle two. *)
Definition sample_output (s : Slot) (success : bool) : ExecutionOutput :=
  MkExecutionOutput s
    (MkStateChanges ∅ ∅ {[MkSlot 9 0 := {[User (UserAddressV0 0) := period s]}]}
       {[OperationIdV0 0 := (success, MkSlot 20 0)]} ∅ SOK_Keep).
Definition sample_history : ActiveHistory :=
  [sample_output (MkSlot 3 1) true; sample_output (MkSlot 4 0) false; sample_output (MkSlot 4 1) true;
   sample_output (MkSlot 5 0) false].

Lemma sample_history_consecutive : history_consecutive 2 sample_history.
Proof.
  split.
  - intros o Ho. repeat (apply elem_of_cons in Ho as [->|Ho]; [by vm_compute|]). by apply elem_of_nil in Ho.
  - intros [|[|[|[|i]]]] o o' H1 H2; cbn in *; simplify_eq; by vm_compute.
Qed.

Lemma active_history_exact_witness :
  let _ := @elements_iter Slot _ _ in let _ := @elements_iter Address _ _ in
  let _ := @elements_iter OperationId _ _ in
  length (truncate_from sample_history (MkSlot 4 1) 2) = 2%nat
  ∧ find_cycle_indices sample_history 2 2 2 = (1%nat, 4%nat, false, true)
  ∧ drop 1 (take 4 sample_history) = filter (λ o, period (out_slot o) / 2 = 2) sample_history
  ∧ get_ops_exec_status sample_history [OperationIdV0 0; OperationIdV0 1] = [Some false; None].
Proof.
  intros i1 i2 i3.
  destruct (active_history_exact 2 2 2 sample_history (MkSlot 4 1)) as (_ & Ht & Hc & Hst & _);
    [by vm_compute|apply sample_history_consecutive|by vm_compute..|].
  split; [rewrite Ht; reflexivity|]. split; [reflexivity|].
  split; [exact (proj1 Hc)|]. rewrite Hst. reflexivity.
Defined.
