(* ===== verification/SpecLedgerFacts.v ===== *)
(** * The speculative ledger is a ledger

    Reads through the changes, the history and the final ledger are reads of one
    ledger, and every operation does to it what its abstract counterpart does. *)

From Stdlib Require Import ZArith.
From S2P Require Import Prelude Slots Models Ledger History SpecLedger LedgerView.

Open Scope N_scope.

Section facts.
Context `{!LedgerController} `{!SetIter Key} `{!SetIter Address}.
Implicit Types (L V : gmap Address LedgerEntry) (c : LedgerChanges) (addr : Address) (key : Key).
Implicit Types (e : option LedgerEntry) (ch : option EntryChange) (h : ActiveHistory).
Implicit Types (l : SpeculativeLedger).

(** ** Layers *)

Definition changes_of (o : ExecutionOutput) : LedgerChanges := ledger_changes (state_changes o).

(** The ledger after the history. *)
Definition history_view L h : gmap Address LedgerEntry := foldl apply_to_ledger L (changes_of <$> h).
(** The ledger that execution sees. *)
Definition spec_view L l : gmap Address LedgerEntry :=
  apply_to_ledger (history_view L (active_history l)) (added_changes l).

(** Updates are only made to entries that exist. *)
Definition anchored L c : Prop :=
  ∀ addr u, c !! addr = Some (SUD_Update u) → is_Some (L !! addr).
Fixpoint history_anchored L h : Prop :=
  match h with
  | [] => True
  | o :: h => anchored L (changes_of o) ∧ history_anchored (apply_to_ledger L (changes_of o)) h
  end.

(** What the final ledger promises: it answers for the ledger [L]. *)
Record ledger_laws L : Prop := {
  law_balance : ∀ addr, final_balance addr = le_balance <$> L !! addr;
  law_bytecode : ∀ addr, final_bytecode addr = le_bytecode <$> L !! addr;
  law_exists : ∀ addr, final_exists addr = bool_decide (is_Some (L !! addr));
  law_data : ∀ addr key, final_data_entry addr key = L !! addr ≫= λ t, le_datastore t !! key }.

Record ledger_ok L l : Prop := {
  lk_laws : ledger_laws L;
  lk_history : history_anchored L (active_history l);
  lk_added : anchored (history_view L (active_history l)) (added_changes l) }.

Lemma history_view_app L h h' : history_view L (h ++ h') = history_view (history_view L h) h'.
Proof using. unfold history_view. by rewrite fmap_app, foldl_app. Qed.
Lemma history_anchored_app L h h' :
  history_anchored L (h ++ h') ↔ history_anchored L h ∧ history_anchored (history_view L h) h'.
Proof using.
  revert L. induction h as [|o h IH]; intros L; cbn; [tauto|]. rewrite IH.
  unfold history_view. cbn. tauto.
Qed.

(** ** Reads *)

(** A read of a change: [r] answers for the part [proj] of an entry. *)
Definition reads {T} (r : option EntryChange → HistorySearchResult T) (proj : LedgerEntry → option T) : Prop :=
  ∀ ch e, (∀ u, ch = Some (SUD_Update u) → is_Some e) →
    or_final (r ch) (e ≫= proj) = change_view ch e ≫= proj.

Lemma reads_balance : reads balance_of_change (λ t, Some (le_balance t)).
Proof using.
  intros [[t|u|]|] e Hu; cbn; try done. destruct (Hu u eq_refl) as [t ->]. cbn.
  by destruct (lu_balance u).
Qed.
Lemma reads_bytecode : reads bytecode_of_change (λ t, Some (le_bytecode t)).
Proof using.
  intros [[t|u|]|] e Hu; cbn; try done. destruct (Hu u eq_refl) as [t ->]. cbn.
  by destruct (lu_bytecode u).
Qed.
Lemma reads_data key : reads (data_of_change key) (λ t, le_datastore t !! key).
Proof using.
  intros [[t|u|]|] e Hu; cbn; try done; [by destruct (le_datastore t !! key)|].
  destruct (Hu u eq_refl) as [t ->]. cbn. rewrite lookup_update_datastore.
  by destruct (lu_datastore u !! key) as [[]|].
Qed.

Lemma search_newest_reads {T} (r : option EntryChange → HistorySearchResult T) proj L h addr :
  reads r proj → history_anchored L h →
  or_final (search_newest (λ o, r (change_at o addr)) (rev h)) (L !! addr ≫= proj)
  = history_view L h !! addr ≫= proj.
Proof using.
  intros Hr. induction h as [|o h IH] using rev_ind; intros Hh; [done|].
  apply history_anchored_app in Hh as [Hh Ho]. destruct Ho as [Ho _].
  rewrite rev_unit, history_view_app. cbn [search_newest]. unfold history_view at 1. cbn [fmap list_fmap foldl].
  rewrite lookup_apply_to_ledger. rewrite <-(Hr (changes_of o !! addr)) by (intros u Hu; by eapply Ho).
  change (changes_of o !! addr) with (change_at o addr). rewrite <-(IH Hh).
  by destruct (r (change_at o addr)).
Qed.

Section reads.
Context L l (Hok : ledger_ok L l).

Lemma layered_read {T} (r : option EntryChange → HistorySearchResult T) proj addr final :
  reads r proj → final = L !! addr ≫= proj →
  or_final (r (added_changes l !! addr))
    (or_final (search_newest (λ o, r (change_at o addr)) (rev (active_history l))) final)
  = spec_view L l !! addr ≫= proj.
Proof using Hok.
  intros Hr ->. rewrite (search_newest_reads r proj) by (done || apply (lk_history _ _ Hok)).
  unfold spec_view. rewrite lookup_apply_to_ledger. apply Hr. intros u Hu. by eapply (lk_added _ _ Hok).
Qed.

Lemma get_balance_spec addr : get_balance l addr = le_balance <$> spec_view L l !! addr.
Proof using Hok.
  transitivity (spec_view L l !! addr ≫= λ t, Some (le_balance t)); [|by destruct (spec_view L l !! addr)].
  rewrite <-(layered_read balance_of_change _ addr (final_balance addr) reads_balance).
  - unfold get_balance, get_balance_or_else. destruct (added_changes l !! addr) as [[t|u|]|]; cbn; try done.
    by destruct (lu_balance u).
  - rewrite (law_balance L (lk_laws _ _ Hok)). by destruct (L !! addr).
Qed.

Lemma get_bytecode_spec addr : get_bytecode l addr = le_bytecode <$> spec_view L l !! addr.
Proof using Hok.
  transitivity (spec_view L l !! addr ≫= λ t, Some (le_bytecode t)); [|by destruct (spec_view L l !! addr)].
  rewrite <-(layered_read bytecode_of_change _ addr (final_bytecode addr) reads_bytecode).
  - unfold get_bytecode, get_bytecode_or_else. destruct (added_changes l !! addr) as [[t|u|]|]; cbn; try done.
    by destruct (lu_bytecode u).
  - rewrite (law_bytecode L (lk_laws _ _ Hok)). by destruct (L !! addr).
Qed.

Lemma get_data_entry_spec addr key :
  get_data_entry l addr key = spec_view L l !! addr ≫= λ t, le_datastore t !! key.
Proof using Hok.
  rewrite <-(layered_read (data_of_change key) _ addr (final_data_entry addr key) (reads_data key)).
  - unfold get_data_entry, get_data_entry_or_else. destruct (added_changes l !! addr) as [[t|u|]|]; cbn; try done.
    + by destruct (le_datastore t !! key).
    + by destruct (lu_datastore u !! key) as [[]|].
  - apply (law_data L (lk_laws _ _ Hok)).
Qed.

Lemma known_or_final_some {T} (r : HistorySearchResult T) (final : option T) :
  known_or_final r (bool_decide (is_Some final)) = bool_decide (is_Some (or_final r final)).
Proof using. by destruct r. Qed.

Lemma has_data_entry_spec addr key :
  has_data_entry l addr key = bool_decide (is_Some (get_data_entry l addr key)).
Proof using.
  unfold has_data_entry, get_data_entry, has_data_entry_or_else, get_data_entry_or_else.
  rewrite known_or_final_some.
  destruct (added_changes l !! addr) as [[t|u|]|]; try done. by destruct (lu_datastore u !! key) as [[]|].
Qed.

Lemma entry_exists_spec addr : entry_exists l addr = bool_decide (is_Some (spec_view L l !! addr)).
Proof using Hok.
  transitivity (bool_decide (is_Some (le_balance <$> spec_view L l !! addr)));
    [|by destruct (spec_view L l !! addr)].
  rewrite <-get_balance_spec. unfold entry_exists, get_balance, entry_exists_or_else, get_balance_or_else.
  assert (final_exists addr = bool_decide (is_Some (final_balance addr))) as Hex.
  { rewrite (law_exists L (lk_laws _ _ Hok)), (law_balance L (lk_laws _ _ Hok)). by destruct (L !! addr). }
  rewrite Hex, known_or_final_some.
  destruct (added_changes l !! addr) as [[t|u|]|] eqn:Hu; try done. destruct (lu_balance u); [done|].
  destruct (lk_added _ _ Hok addr u Hu) as [t Ht]. symmetry. apply bool_decide_eq_true.
  rewrite (law_balance L (lk_laws _ _ Hok)). unfold fetch_balance.
  assert (le_balance <$> L !! addr = L !! addr ≫= λ t, Some (le_balance t)) as -> by (by destruct (L !! addr)).
  rewrite (search_newest_reads _ _ _ _ _ reads_balance (lk_history _ _ Hok)), Ht. by eexists.
Qed.
End reads.

(** ** Anchored changes *)

Lemma anchored_empty L : anchored L ∅.
Proof using. intros a u Ha. by rewrite lookup_empty in Ha. Qed.

Lemma anchored_apply L c c' :
  anchored L c → anchored (apply_to_ledger L c) c' → anchored L (apply c c' : LedgerChanges).
Proof using.
  intros Hc Hc' a u. rewrite lookup_apply_changes. destruct (c' !! a) as [x|] eqn:Hx; [|by apply Hc].
  destruct (c !! a) as [cur|] eqn:Hcur; intros [= Heq].
  - destruct cur as [t|u'|]; [by destruct x|by eapply Hc|by destruct x].
  - subst x. specialize (Hc' a u Hx). by rewrite lookup_apply_to_ledger, Hcur in Hc'.
Qed.

(** Writing to an entry that exists keeps the changes anchored. *)
Lemma anchored_write L c c' addr :
  anchored L c → is_Some (apply_to_ledger L c !! addr) →
  (∀ a, a ≠ addr → c' !! a = c !! a) →
  (∀ u, c' !! addr = Some (SUD_Update u) → c !! addr = None ∨ ∃ u', c !! addr = Some (SUD_Update u')) →
  anchored L c'.
Proof using.
  intros Hc Hs Hne Heq a u Ha. destruct (decide (a = addr)) as [->|Hna]; [|apply (Hc a u); by rewrite <-Hne].
  destruct (Heq u Ha) as [Hn|[u' Hu']]; [|by eapply Hc]. by rewrite lookup_apply_to_ledger, Hn in Hs.
Qed.

Ltac anchored_write_tac :=
  intros ? ?; eapply anchored_write; try done;
  [intros a Ha|intros u'];
  unfold Ledger.set_balance, Ledger.set_bytecode, Ledger.set_data_entry, Ledger.delete_data_entry;
  repeat case_match; rewrite ?lookup_insert_ne, ?lookup_insert_eq by done; naive_solver.

Lemma anchored_set_balance L c addr b :
  anchored L c → is_Some (apply_to_ledger L c !! addr) → anchored L (set_balance c addr b).
Proof using. anchored_write_tac. Qed.
Lemma anchored_set_bytecode L c addr b :
  anchored L c → is_Some (apply_to_ledger L c !! addr) → anchored L (Ledger.set_bytecode c addr b).
Proof using. anchored_write_tac. Qed.
Lemma anchored_set_data_entry L c addr key v :
  anchored L c → is_Some (apply_to_ledger L c !! addr) → anchored L (Ledger.set_data_entry c addr key v).
Proof using. anchored_write_tac. Qed.
Lemma anchored_delete_data_entry L c addr key :
  anchored L c → is_Some (apply_to_ledger L c !! addr) → anchored L (Ledger.delete_data_entry c addr key).
Proof using. anchored_write_tac. Qed.
Lemma anchored_create_address L c addr : anchored L c → anchored L (create_address c addr).
Proof using.
  intros Hc a u. unfold create_address. destruct (decide (a = addr)) as [->|Hne].
  - by rewrite lookup_insert_eq.
  - rewrite lookup_insert_ne by done. apply Hc.
Qed.
End facts.
