(* ===== verification/LedgerRefine.v ===== *)
(** * What the operations of the speculative ledger do

    An abstract ledger, a map from addresses to entries, with one operation for
    each operation of [SpeculativeLedger].  Every call of the speculative ledger
    refines its abstract operation, and the abstract operations conserve coins. *)

From Stdlib Require Import ZArith.
From S2P Require Import Prelude Slots Models Ledger History SpecLedger LedgerView SpecLedgerFacts.

Open Scope N_scope.

(** ** The abstract ledger *)

Section abstract.
Context (costs : StorageCostsConstants) (max_key max_value max_code : N).
Implicit Types (V : gmap Address LedgerEntry) (addr : Address) (key : Key).

(** Takes coins from an address, or creates them. *)
Definition abs_spend V (from : option Address) (amount : N) : option (gmap Address LedgerEntry) :=
  match from with
  | None => Some V
  | Some a =>
      t ← V !! a;
      if amount <=? le_balance t then Some (<[a := with_balance t (le_balance t - amount)]> V) else None
  end.

(** Gives coins to an address, or destroys them.  A user address that does not exist
    is created, and pays for its entry. *)
Definition abs_credit V (to : option Address) (amount : N) : option (gmap Address LedgerEntry) :=
  match to with
  | None => Some V
  | Some a =>
      match V !! a with
      | Some t =>
          if le_balance t + amount <=? u64_max
          then Some (<[a := with_balance t (le_balance t + amount)]> V) else None
      | None =>
          if is_sc a then None
          else if ledger_entry_base_cost costs <=? amount
          then Some (<[a := MkLedgerEntry (amount - ledger_entry_base_cost costs) [] ∅]> V)
          else None
      end
  end.

Definition abs_transfer V (from to : option Address) (amount : N) : option (gmap Address LedgerEntry) :=
  V ← abs_spend V from amount; abs_credit V to amount.

(** The storage costs of a bytecode and of a datastore entry. *)
Definition code_cost (code : Bytecode) : N := ledger_cost_per_byte costs * N.of_nat (length code).
Definition data_cost key (value : list N) : N :=
  ledger_entry_datastore_base_cost costs + ledger_cost_per_byte costs * N.of_nat (length key)
  + ledger_cost_per_byte costs * N.of_nat (length value).

(** The caller pays the difference of two costs, or gets it back, depending on how
    the sizes compare. *)
Definition abs_charge V (caller : Address) (size : comparison) (old new : N)
    : option (gmap Address LedgerEntry) :=
  match size with
  | Gt => abs_transfer V (Some caller) None (new - old)
  | Lt => abs_transfer V None (Some caller) (old - new)
  | Eq => Some V
  end.

Definition abs_create V (creator addr : Address) (code : Bytecode) : option (gmap Address LedgerEntry) :=
  if decide (is_Some (V !! creator) ∧ V !! addr = None ∧ N.of_nat (length code) ≤ max_code
             ∧ ledger_entry_base_cost costs + code_cost code ≤ u64_max)
  then
    V ← abs_transfer V (Some creator) None (ledger_entry_base_cost costs + code_cost code);
    Some (<[addr := MkLedgerEntry 0 code ∅]> V)
  else None.

Definition abs_set_bytecode V (caller addr : Address) (code : Bytecode) : option (gmap Address LedgerEntry) :=
  t ← V !! addr;
  if decide (N.of_nat (length code) ≤ max_code
             ∧ code_cost code - code_cost (le_bytecode t) ≤ u64_max
             ∧ code_cost (le_bytecode t) - code_cost code ≤ u64_max)
  then
    V ← abs_charge V caller (Nat.compare (length code) (length (le_bytecode t)))
          (code_cost (le_bytecode t)) (code_cost code);
    t ← V !! addr;
    Some (<[addr := with_bytecode t code]> V)
  else None.

Definition abs_set_data V (caller addr : Address) key (value : list N) : option (gmap Address LedgerEntry) :=
  t ← V !! addr;
  let old := from_option (data_cost key) 0 (le_datastore t !! key) in
  if decide (key ≠ [] ∧ N.of_nat (length key) ≤ max_key ∧ N.of_nat (length value) ≤ max_value
             ∧ old ≤ u64_max ∧ data_cost key value ≤ u64_max)
  then
    V ← abs_charge V caller (data_cost key value ?= old) old (data_cost key value);
    t ← V !! addr;
    Some (<[addr := with_data t (<[key := value]> (le_datastore t))]> V)
  else None.

Definition abs_delete_data V (caller addr : Address) key : option (gmap Address LedgerEntry) :=
  t ← V !! addr;
  value ← le_datastore t !! key;
  if decide (data_cost key value ≤ u64_max)
  then
    V ← abs_charge V caller (0 ?= data_cost key value) (data_cost key value) 0;
    t ← V !! addr;
    Some (<[addr := with_data t (delete key (le_datastore t))]> V)
  else None.
End abstract.

(** ** Refinement *)

Section refine.
Context `{!LedgerController} `{!SetIter Key} `{!SetIter Address}.
Context (L : gmap Address LedgerEntry).
Implicit Types (V : gmap Address LedgerEntry) (c : LedgerChanges) (addr : Address) (key : Key).
Implicit Types (l : SpeculativeLedger).
Local Notation costs l := (storage_costs_constants l).

(** A call returns the new state when the abstract operation has a result, and
    then stands for it; otherwise it fails and leaves the state as it was. *)
Definition refines l (m : Result) (o : option (gmap Address LedgerEntry)) : Prop :=
  match m, o with
  | Ok l', Some V' => ledger_ok L l' ∧ spec_view L l' = V' ∧ ∃ c, l' = set_added c l
  | Err (_, l'), None => l' = l
  | _, _ => False
  end.

(** The same for the copy of the changes that a transfer works on. *)
Definition refines_changes l V (m : outcome (ExecutionError * SpeculativeLedger) LedgerChanges)
    (o : option (gmap Address LedgerEntry)) : Prop :=
  match m, o with
  | Ok c, Some V' => anchored V c ∧ apply_to_ledger V c = V'
  | Err (_, l'), None => l' = l
  | _, _ => False
  end.

Lemma set_added_ok l c : ledger_ok L l → anchored (history_view L (active_history l)) c →
  ledger_ok L (set_added c l).
Proof using. intros [H1 H2 H3] Hc. by constructor. Qed.

Lemma spend_refines l from amount : ledger_ok L l →
  refines_changes l (spec_view L l) (spend l from amount ∅) (abs_spend (spec_view L l) from amount).
Proof using.
  intros Hok. destruct from as [a|]; cbn; [|by rewrite apply_to_ledger_empty; split; [apply anchored_empty|]].
  rewrite (get_balance_spec L l Hok). destruct (spec_view L l !! a) as [t|] eqn:Ht; cbn; [|done].
  unfold Amount.checked_sub, checked_sub. destruct (amount <=? le_balance t); cbn; [|done]. split.
  - apply anchored_set_balance; [apply anchored_empty|]. by rewrite apply_to_ledger_empty, Ht.
  - by rewrite view_set_balance, apply_to_ledger_empty, Ht.
Qed.

Lemma get_balance_or_else_spec l V c addr : ledger_ok L l → anchored (spec_view L l) c →
  apply_to_ledger (spec_view L l) c = V →
  get_balance_or_else c addr (get_balance l addr) = le_balance <$> V !! addr.
Proof using.
  intros Hok Hc <-. rewrite (get_balance_spec L l Hok), lookup_apply_to_ledger. unfold get_balance_or_else.
  destruct (c !! addr) as [[t|u|]|] eqn:Hch; cbn; try done.
  destruct (Hc addr u Hch) as [t ->]. cbn. by destruct (lu_balance u).
Qed.

Lemma credit_refines l V c to amount : ledger_ok L l → anchored (spec_view L l) c →
  apply_to_ledger (spec_view L l) c = V →
  refines_changes l (spec_view L l) (credit l to amount c) (abs_credit (costs l) V to amount).
Proof using.
  intros Hok Hc HV. destruct to as [a|]; cbn; [|done].
  rewrite (get_balance_or_else_spec l V c a Hok Hc HV). destruct (V !! a) as [t|] eqn:Ht; cbn.
  - unfold Amount.checked_add, checked_add. destruct (le_balance t + amount <=? u64_max); cbn; [|done]. split.
    + apply anchored_set_balance; [done|]. by rewrite HV, Ht.
    + by rewrite view_set_balance, HV, Ht.
  - destruct (is_sc a); cbn; [done|]. unfold Amount.checked_sub, checked_sub.
    destruct (ledger_entry_base_cost (costs l) <=? amount); cbn; [|done]. split.
    + apply anchored_set_balance; [by apply anchored_create_address|].
      by rewrite view_create_address, lookup_insert_eq.
    + rewrite view_set_balance, view_create_address, lookup_insert_eq, HV. by rewrite insert_insert_eq.
Qed.

Lemma transfer_refines l from to amount : ledger_ok L l →
  refines l (transfer_coins l from to amount) (abs_transfer (costs l) (spec_view L l) from to amount).
Proof using.
  intros Hok. unfold transfer_coins, abs_transfer. pose proof (spend_refines l from amount Hok) as Hs.
  destruct (spend l from amount ∅) as [c| [e l']| |], (abs_spend _ _ _) as [V1|]; try done.
  destruct Hs as [Hc1 HV1]. cbn [mbind option_bind outcome_bind].
  pose proof (credit_refines l V1 c to amount Hok Hc1 HV1) as Hcr.
  destruct (credit l to amount c) as [c'| [e l']| |], (abs_credit _ _ _ _) as [V2|]; try done.
  destruct Hcr as [Hc2 HV2]. cbn. split_and!.
  - apply set_added_ok; [done|]. apply anchored_apply; [apply (lk_added _ _ Hok)|done].
  - unfold spec_view at 1. cbn. by rewrite apply_to_ledger_compose.
  - by eexists.
Qed.

(** A call followed by a write that cannot fail. *)
Lemma refines_then l m o (f : SpeculativeLedger → Result) g :
  refines l m o →
  (∀ c, ledger_ok L (set_added c l) → o = Some (spec_view L (set_added c l)) →
     ∃ c', f (set_added c l) = Ok (set_added c' l)
       ∧ ledger_ok L (set_added c' l) ∧ g (spec_view L (set_added c l)) = Some (spec_view L (set_added c' l))) →
  refines l (m ≫= f) (o ≫= g).
Proof using.
  intros Hm Hf. destruct m as [l'| [e l']| |], o as [V'|]; try done.
  destruct Hm as (Hok & <- & c & ->). cbn [mbind option_bind outcome_bind].
  destruct (Hf c Hok eq_refl) as (c' & -> & Hok' & ->). cbn. eauto.
Qed.

Lemma write_ok l c c' : ledger_ok L (set_added c l) →
  (anchored (history_view L (active_history l)) c → anchored (history_view L (active_history l)) c') →
  ledger_ok L (set_added c' l).
Proof using. intros [H1 H2 H3] Hc. constructor; [done|done|]. by apply Hc. Qed.

Lemma abs_credit_exists k V to amount V' a :
  abs_credit k V to amount = Some V' → is_Some (V !! a) → is_Some (V' !! a).
Proof using.
  unfold abs_credit. intros Hc Ha. repeat case_match; simplify_eq; try done;
    (destruct (decide (a = a0)) as [->|Hne]; [by rewrite lookup_insert_eq|by rewrite lookup_insert_ne]).
Qed.
Lemma abs_spend_exists V from amount V' a :
  abs_spend V from amount = Some V' → is_Some (V !! a) → is_Some (V' !! a).
Proof using.
  unfold abs_spend. intros Hs Ha. destruct from as [b|]; [|by simplify_eq].
  apply bind_Some in Hs as (t & Ht & Hs). case_match; simplify_eq.
  destruct (decide (a = b)) as [->|Hne]; [by rewrite lookup_insert_eq|by rewrite lookup_insert_ne].
Qed.
Lemma abs_transfer_exists k V from to amount V' a :
  abs_transfer k V from to amount = Some V' → is_Some (V !! a) → is_Some (V' !! a).
Proof using.
  intros (V1 & Hs & Hc)%bind_Some Ha. eapply abs_credit_exists; [done|]. by eapply abs_spend_exists.
Qed.
Lemma abs_charge_exists k V caller size old new V' a :
  abs_charge k V caller size old new = Some V' → is_Some (V !! a) → is_Some (V' !! a).
Proof using. unfold abs_charge; destruct size; intros Hc; [by simplify_eq|by eapply abs_transfer_exists..]. Qed.

Lemma refines_same l : ledger_ok L l → refines l (Ok l) (Some (spec_view L l)).
Proof using. intros Hok. split_and!; [done|done|]. exists (added_changes l). by destruct l. Qed.

Lemma charge_bytecode_refines l caller addr code t : ledger_ok L l → spec_view L l !! addr = Some t →
  let old := code_cost (costs l) (le_bytecode t) in
  let new := code_cost (costs l) code in
  refines l (charge_bytecode l caller addr code)
    (if decide (new - old ≤ u64_max ∧ old - new ≤ u64_max)
     then abs_charge (costs l) (spec_view L l) caller (Nat.compare (length code) (length (le_bytecode t))) old new
     else None).
Proof using.
  intros Hok Ht old new. unfold charge_bytecode. rewrite (get_bytecode_spec L l Hok), Ht. cbn [fmap option_fmap option_map].
  unfold Amount.checked_mul_u64, checked_mul. unfold code_cost in old, new.
  set (n := length code) in *. set (m := length (le_bytecode t)) in *. set (p := ledger_cost_per_byte _) in *.
  destruct (Nat.compare_spec n m) as [Heq|Hlt|Hgt]; cbn [abs_charge].
  - replace (Z.of_nat n - Z.of_nat m)%Z with 0%Z by lia. cbn [Z.abs_N]. rewrite N.mul_0_r. cbn.
    rewrite decide_True by (subst old new; rewrite Heq; lia). by apply refines_same.
  - replace (Z.abs_N (Z.of_nat n - Z.of_nat m)) with (N.of_nat m - N.of_nat n) by lia.
    assert (p * (N.of_nat m - N.of_nat n) = old - new) as -> by (subst old new; rewrite N.mul_sub_distr_l; done).
    assert (new - old = 0) as H0 by (subst old new; nia).
    destruct (N.leb_spec (old - new) u64_max) as [Hle|Hle].
    + rewrite decide_True by (rewrite H0; split; [done|lia]).
      destruct (Z.of_nat n - Z.of_nat m)%Z eqn:Hz; [lia|lia|]. by apply transfer_refines.
    + rewrite decide_False by lia. done.
  - replace (Z.abs_N (Z.of_nat n - Z.of_nat m)) with (N.of_nat n - N.of_nat m) by lia.
    assert (p * (N.of_nat n - N.of_nat m) = new - old) as -> by (subst old new; rewrite N.mul_sub_distr_l; done).
    assert (old - new = 0) as H0 by (subst old new; nia).
    destruct (N.leb_spec (new - old) u64_max) as [Hle|Hle].
    + rewrite decide_True by (rewrite H0; split; [lia|done]).
      destruct (Z.of_nat n - Z.of_nat m)%Z eqn:Hz; [lia| |lia]. by apply transfer_refines.
    + rewrite decide_False by lia. done.
Qed.

Lemma set_bytecode_refines l caller addr code : ledger_ok L l →
  refines l (set_bytecode l caller addr code)
    (abs_set_bytecode (costs l) (max_bytecode_size l) (spec_view L l) caller addr code).
Proof using.
  intros Hok. unfold set_bytecode, abs_set_bytecode. rewrite (entry_exists_spec L l Hok).
  destruct (spec_view L l !! addr) as [t|] eqn:Ht; cbn; [|done].
  pose proof (charge_bytecode_refines l caller addr code t Hok Ht) as Hch. cbn zeta in Hch.
  destruct (N.ltb_spec (max_bytecode_size l) (N.of_nat (length code))) as [Hlt|Hle].
  { rewrite decide_False by lia. done. }
  destruct (decide (code_cost _ code - _ ≤ _ ∧ _)) as [HD|HD].
  2: { rewrite decide_False by tauto. by destruct (charge_bytecode l caller addr code) as [|[]| |]. }
  rewrite decide_True by tauto. eapply refines_then; [exact Hch|].
  intros c Hc Habs. destruct (abs_charge_exists _ _ _ _ _ _ _ addr Habs) as [t' Ht']; [by rewrite Ht|].
  eexists. split; [done|]. cbn [added_changes set_added]. split.
  - eapply write_ok; [exact Hc|]. intros Ha. apply anchored_set_bytecode; [done|]. eexists. exact Ht'.
  - rewrite Ht'. cbn. f_equal. unfold spec_view at 2. cbn. rewrite view_set_bytecode.
    unfold spec_view in Ht'. cbn in Ht'. by rewrite Ht'.
Qed.

(** ** Datastore *)

Lemma storage_cost_spec l (kv : option (Key * list N)) :
  let cost := match kv with Some (k, v) => data_cost (costs l) k v | None => 0 end in
  match storage_cost_of l kv with
  | Ok n => n = cost ∧ cost ≤ u64_max
  | Err (_, l') => l' = l ∧ u64_max < cost
  | _ => False
  end.
Proof using.
  destruct kv as [[k v]|]; cbn; [|done]. unfold get_storage_cost_datastore_entry, data_cost.
  unfold Amount.checked_mul_u64, checked_mul.
  set (a := _ * N.of_nat (length k)). set (b := _ * N.of_nat (length v)). set (d := ledger_entry_datastore_base_cost _).
  destruct (N.leb_spec a u64_max); [|cbn; split; [done|lia]].
  destruct (N.leb_spec b u64_max); [|cbn; split; [done|lia]].
  unfold Amount.checked_add, checked_add. destruct (N.leb_spec (d + a) u64_max); cbn; [|split; [done|lia]].
  destruct (N.leb_spec (d + a + b) u64_max); cbn; split; (done || lia).
Qed.

Lemma map_err_refines l m o f : (∀ p, (f p : ExecutionError * SpeculativeLedger).2 = p.2) →
  refines l m o → refines l (map_err f m) o.
Proof using.
  intros Hf. destruct m as [l'| [e l']| |], o; cbn; try done; specialize (Hf (e, l')); destruct (f (e, l')); cbn in *; congruence.
Qed.

Lemma charge_data_refines l caller (old new : option (Key * list N)) : ledger_ok L l →
  let cost kv := match kv with Some (k, v) => data_cost (costs l) k v | None => 0 end in
  refines l (charge_datastore_entry_change_storage l caller old new)
    (if decide (cost old ≤ u64_max ∧ cost new ≤ u64_max)
     then abs_charge (costs l) (spec_view L l) caller (cost new ?= cost old) (cost old) (cost new)
     else None).
Proof using.
  intros Hok cost. unfold charge_datastore_entry_change_storage.
  pose proof (storage_cost_spec l old) as Ho. pose proof (storage_cost_spec l new) as Hn.
  cbn zeta in Ho, Hn. fold (cost old) in Ho. fold (cost new) in Hn.
  destruct (storage_cost_of l old) as [o| [e l']| |]; cbn [mbind outcome_bind]; try done.
  2: { destruct Ho as [-> Ho]. rewrite decide_False by lia. done. }
  destruct (storage_cost_of l new) as [n| [e l']| |]; cbn [mbind outcome_bind]; try done.
  2: { destruct Hn as [-> Hn]. rewrite decide_False by lia. done. }
  destruct Ho as [-> Ho], Hn as [-> Hn]. rewrite decide_True by done.
  apply map_err_refines; [by intros []|]. unfold abs_charge, Amount.saturating_sub, saturating_sub.
  destruct (cost new ?= cost old); [by apply refines_same|by apply transfer_refines..].
Qed.

Lemma set_data_refines l caller addr key value : ledger_ok L l →
  refines l (set_data_entry l caller addr key value)
    (abs_set_data (costs l) (max_datastore_key_length l) (max_datastore_value_size l) (spec_view L l)
       caller addr key value).
Proof using.
  intros Hok. unfold set_data_entry, abs_set_data.
  rewrite (entry_exists_spec L l Hok), (get_data_entry_spec L l Hok).
  destruct (spec_view L l !! addr) as [t|] eqn:Ht; cbn [mbind option_bind fmap option_fmap option_map]; [|done].
  rewrite bool_decide_eq_true_2 by done. cbn [negb].
  destruct (N.eqb_spec (N.of_nat (length key)) 0) as [H0|H0]; cbn [orb].
  { rewrite decide_False; [done|]. intros (Hk & _). destruct key; done. }
  assert (key ≠ []) as Hk by (by intros ->).
  destruct (N.ltb_spec (max_datastore_key_length l) (N.of_nat (length key))) as [H1|H1]; [by rewrite decide_False by lia|].
  destruct (N.ltb_spec (max_datastore_value_size l) (N.of_nat (length value))) as [H2|H2]; [by rewrite decide_False by lia|].
  pose proof (charge_data_refines l caller (pair key <$> le_datastore t !! key) (Some (key, value)) Hok) as Hch.
  cbn zeta beta in Hch.
  assert (match pair key <$> le_datastore t !! key with Some (k, v) => data_cost (costs l) k v | None => 0 end
          = from_option (data_cost (costs l) key) 0 (le_datastore t !! key)) as Heq
    by (by destruct (le_datastore t !! key)).
  rewrite Heq in Hch. clear Heq. set (old := from_option _ 0 _) in *.
  destruct (decide (old ≤ u64_max ∧ _)) as [HD|HD].
  2: { rewrite decide_False by tauto. by destruct (charge_datastore_entry_change_storage _ _ _ _) as [|[]| |]. }
  rewrite decide_True by tauto. eapply refines_then; [exact Hch|].
  intros c Hc Habs. destruct (abs_charge_exists _ _ _ _ _ _ _ addr Habs) as [t' Ht']; [by rewrite Ht|].
  eexists. split; [done|]. cbn [added_changes set_added]. split.
  - eapply write_ok; [exact Hc|]. intros Ha. apply anchored_set_data_entry; [done|]. eexists. exact Ht'.
  - rewrite Ht'. cbn. f_equal. unfold spec_view at 2. cbn. rewrite view_set_data_entry.
    unfold spec_view in Ht'. cbn in Ht'. by rewrite Ht'.
Qed.

Lemma delete_data_refines l caller addr key : ledger_ok L l →
  refines l (delete_data_entry l caller addr key)
    (abs_delete_data (costs l) (spec_view L l) caller addr key).
Proof using.
  intros Hok. unfold delete_data_entry, abs_delete_data. rewrite (get_data_entry_spec L l Hok).
  destruct (spec_view L l !! addr) as [t|] eqn:Ht; cbn [mbind option_bind]; [|done].
  destruct (le_datastore t !! key) as [value|]; cbn [mbind option_bind]; [|done].
  pose proof (charge_data_refines l caller (Some (key, value)) None Hok) as Hch. cbn zeta beta iota in Hch.
  destruct (decide (data_cost (costs l) key value ≤ u64_max ∧ _)) as [HD|HD].
  2: { rewrite decide_False by (intros ?; apply HD; split; [done|lia]).
       by destruct (charge_datastore_entry_change_storage _ _ _ _) as [|[]| |]. }
  rewrite decide_True by tauto. eapply refines_then; [exact Hch|].
  intros c Hc Habs. destruct (abs_charge_exists _ _ _ _ _ _ _ addr Habs) as [t' Ht']; [by rewrite Ht|].
  eexists. split; [done|]. cbn [added_changes set_added]. split.
  - eapply write_ok; [exact Hc|]. intros Ha. apply anchored_delete_data_entry; [done|]. eexists. exact Ht'.
  - rewrite Ht'. cbn. f_equal. symmetry. unfold spec_view at 1. cbn. by apply view_delete_data_entry.
Qed.

(** ** Contracts *)

Lemma create_refines l creator addr code : ledger_ok L l →
  refines l (create_new_sc_address l creator addr code)
    (abs_create (costs l) (max_bytecode_size l) (spec_view L l) creator addr code).
Proof using.
  intros Hok. unfold create_new_sc_address, abs_create. rewrite !(entry_exists_spec L l Hok).
  destruct (spec_view L l !! creator) as [t|] eqn:Ht.
  2: { cbn. rewrite decide_False; [done|]. by intros [[] _]. }
  rewrite (bool_decide_eq_true_2 (is_Some (Some t))) by done. cbn [negb].
  destruct (spec_view L l !! addr) as [t'|] eqn:Ha.
  { rewrite bool_decide_eq_true_2 by done. rewrite decide_False; [done|]. by intros (_ & ? & _). }
  rewrite bool_decide_eq_false_2 by (by intros []).
  destruct (N.ltb_spec (max_bytecode_size l) (N.of_nat (length code))) as [Hlt|Hle].
  { rewrite decide_False by lia. done. }
  unfold Amount.checked_mul_u64, checked_mul, Amount.checked_add, checked_add. fold (code_cost (costs l) code).
  destruct (N.leb_spec (code_cost (costs l) code) u64_max) as [H1|H1].
  2: { rewrite decide_False by lia. done. }
  destruct (N.leb_spec (ledger_entry_base_cost (costs l) + code_cost (costs l) code) u64_max) as [H2|H2].
  2: { rewrite decide_False by lia. done. }
  rewrite decide_True by done. eapply refines_then; [by apply transfer_refines|].
  intros c Hc Habs. eexists. split; [done|]. cbn [added_changes set_added]. split.
  - eapply write_ok; [exact Hc|]. intros Han. apply anchored_set_bytecode; [by apply anchored_create_address|].
    by rewrite view_create_address, lookup_insert_eq.
  - f_equal. unfold spec_view at 2. cbn. rewrite view_set_bytecode, view_create_address, lookup_insert_eq.
    by rewrite insert_insert_eq.
Qed.

(** ** All operations *)

Inductive LedgerOp : Type :=
  | OpTransfer (from to : option Address) (amount : N)
  | OpCreate (creator addr : Address) (code : Bytecode)
  | OpSetBytecode (caller addr : Address) (code : Bytecode)
  | OpSetData (caller addr : Address) (key : Key) (value : list N)
  | OpDeleteData (caller addr : Address) (key : Key).

Definition run_op l (op : LedgerOp) : Result :=
  match op with
  | OpTransfer from to amount => transfer_coins l from to amount
  | OpCreate creator addr code => create_new_sc_address l creator addr code
  | OpSetBytecode caller addr code => set_bytecode l caller addr code
  | OpSetData caller addr key value => set_data_entry l caller addr key value
  | OpDeleteData caller addr key => delete_data_entry l caller addr key
  end.

Definition abs_op l (op : LedgerOp) V : option (gmap Address LedgerEntry) :=
  match op with
  | OpTransfer from to amount => abs_transfer (costs l) V from to amount
  | OpCreate creator addr code => abs_create (costs l) (max_bytecode_size l) V creator addr code
  | OpSetBytecode caller addr code => abs_set_bytecode (costs l) (max_bytecode_size l) V caller addr code
  | OpSetData caller addr key value =>
      abs_set_data (costs l) (max_datastore_key_length l) (max_datastore_value_size l) V caller addr key value
  | OpDeleteData caller addr key => abs_delete_data (costs l) V caller addr key
  end.

Lemma op_refines l op : ledger_ok L l → refines l (run_op l op) (abs_op l op (spec_view L l)).
Proof using.
  destruct op; [apply transfer_refines|apply create_refines|apply set_bytecode_refines
    |apply set_data_refines|apply delete_data_refines].
Qed.
End refine.

(** ** Coins are conserved

    The coins of the ledger are the balances and the coins locked for storage.
    Operations of the ledger move them and never lose or create any, but for the
    transfers that are meant to. *)

(** ** Sums over a map *)

Definition map_total {K A} `{Countable K} (f : K → A → N) (m : gmap K A) : N :=
  map_fold (λ k x acc, f k x + acc) 0 m.

Section map_total.
Context {K A : Type} `{Countable K} (f : K → A → N).
Implicit Types (m : gmap K A).

Lemma map_total_empty : map_total f ∅ = 0.
Proof using. apply map_fold_empty. Qed.
Lemma map_total_insert m k x : m !! k = None → map_total f (<[k := x]> m) = f k x + map_total f m.
Proof using. intros Hk. unfold map_total. rewrite map_fold_insert_L; [done| |done]. intros; lia. Qed.
Lemma map_total_delete m k x : m !! k = Some x → map_total f m = f k x + map_total f (delete k m).
Proof using.
  intros Hk. rewrite <-(insert_delete_id m k x Hk) at 1. apply map_total_insert. apply lookup_delete_eq.
Qed.
Lemma map_total_update m k x y : m !! k = Some x → map_total f (<[k := y]> m) + f k x = map_total f m + f k y.
Proof using.
  intros Hk. rewrite (map_total_delete m k x Hk), <-insert_delete_eq, map_total_insert by apply lookup_delete_eq. lia.
Qed.
End map_total.

Section coins.
Context (costs : StorageCostsConstants).
Implicit Types (V : gmap Address LedgerEntry) (t : LedgerEntry) (addr : Address) (key : Key).

(** The coins of an entry: its balance and the price of its storage. *)
Definition entry_coins t : N :=
  le_balance t + ledger_entry_base_cost costs + code_cost costs (le_bytecode t)
  + map_total (data_cost costs) (le_datastore t).
Definition total_coins V : N := map_total (λ _ t, entry_coins t) V.

Lemma entry_coins_balance t b : entry_coins (with_balance t b) + le_balance t = entry_coins t + b.
Proof using. unfold entry_coins; cbn. lia. Qed.

Lemma entry_coins_bytecode t code :
  entry_coins (with_bytecode t code) + code_cost costs (le_bytecode t) = entry_coins t + code_cost costs code.
Proof using. unfold entry_coins; cbn. lia. Qed.
Lemma entry_coins_data t d :
  entry_coins (with_data t d) + map_total (data_cost costs) (le_datastore t)
  = entry_coins t + map_total (data_cost costs) d.
Proof using. unfold entry_coins; cbn. lia. Qed.

Definition coins_in (o : option Address) (amount : N) : N :=
  match o with Some _ => amount | None => 0 end.

Lemma spend_coins V from amount V' :
  abs_spend V from amount = Some V' → total_coins V' + coins_in from amount = total_coins V.
Proof using.
  unfold abs_spend, coins_in. destruct from as [a|]; [|intros [= <-]; lia].
  intros (t & Ht & Hs)%bind_Some. destruct (N.leb_spec amount (le_balance t)); simplify_eq.
  pose proof (map_total_update (λ _ t, entry_coins t) V a t (with_balance t (le_balance t - amount)) Ht) as Hu.
  pose proof (entry_coins_balance t (le_balance t - amount)). unfold total_coins. lia.
Qed.

Lemma credit_coins V to amount V' :
  abs_credit costs V to amount = Some V' → total_coins V' = total_coins V + coins_in to amount.
Proof using.
  unfold abs_credit, coins_in. destruct to as [a|]; [|intros [= <-]; lia].
  destruct (V !! a) as [t|] eqn:Ht.
  - destruct (N.leb_spec (le_balance t + amount) u64_max); intros [= <-].
    pose proof (map_total_update (λ _ t, entry_coins t) V a t (with_balance t (le_balance t + amount)) Ht) as Hu.
    pose proof (entry_coins_balance t (le_balance t + amount)). unfold total_coins. lia.
  - destruct (is_sc a); [done|]. destruct (N.leb_spec (ledger_entry_base_cost costs) amount); intros [= <-].
    unfold total_coins. rewrite map_total_insert by done. unfold entry_coins, code_cost; cbn.
    rewrite map_total_empty. lia.
Qed.

Lemma transfer_coins_conserve V from to amount V' :
  abs_transfer costs V from to amount = Some V' →
  total_coins V' + coins_in from amount = total_coins V + coins_in to amount.
Proof using.
  intros (V1 & Hs & Hc)%bind_Some. apply spend_coins in Hs. apply credit_coins in Hc. lia.
Qed.

(** A transfer only changes balances of the entries that exist. *)
Lemma transfer_keeps V from to amount V' addr t :
  abs_transfer costs V from to amount = Some V' → V !! addr = Some t →
  ∃ b, V' !! addr = Some (with_balance t b).
Proof using.
  intros (V1 & Hs & Hc)%bind_Some Ht.
  assert (∃ b, V1 !! addr = Some (with_balance t b)) as (b & Hb).
  { unfold abs_spend in Hs. destruct from as [a|]; [|simplify_eq; exists (le_balance t); by destruct t].
    apply bind_Some in Hs as (t1 & Ht1 & Hs). case_match; simplify_eq.
    destruct (decide (addr = a)) as [->|Hne]; [rewrite lookup_insert_eq; simplify_eq; eauto|].
    rewrite lookup_insert_ne by done. exists (le_balance t). by destruct t. }
  unfold abs_credit in Hc. destruct to as [a|]; [|simplify_eq; eauto].
  destruct (V1 !! a) as [t1|] eqn:Ht1.
  - case_match; simplify_eq. destruct (decide (addr = a)) as [->|Hne]; [|rewrite lookup_insert_ne by done; eauto].
    rewrite lookup_insert_eq. simplify_eq. eauto.
  - destruct (is_sc a); [done|]. case_match; simplify_eq.
    assert (addr ≠ a) by congruence. rewrite lookup_insert_ne by done. eauto.
Qed.

Lemma charge_coins V caller size old new V' addr t :
  abs_charge costs V caller size old new = Some V' → V !! addr = Some t →
  (size = Eq → old = new) → (size = Gt → old ≤ new) → (size = Lt → new ≤ old) →
  total_coins V' + new = total_coins V + old ∧ ∃ b, V' !! addr = Some (with_balance t b).
Proof using.
  intros Hc Ht H1 H2 H3. destruct size; unfold abs_charge in Hc.
  - simplify_eq. rewrite H1 by done. split; [done|]. exists (le_balance t). by destruct t.
  - split; [|by eapply transfer_keeps]. apply transfer_coins_conserve in Hc. cbn in Hc. specialize (H3 eq_refl). lia.
  - split; [|by eapply transfer_keeps]. apply transfer_coins_conserve in Hc. cbn in Hc. specialize (H2 eq_refl). lia.
Qed.

Lemma set_entry_coins V addr t t' :
  V !! addr = Some t → total_coins (<[addr := t']> V) + entry_coins t = total_coins V + entry_coins t'.
Proof using. intros Ht. apply (map_total_update (λ _ t, entry_coins t) V addr t t' Ht). Qed.

Lemma create_coins max_code V creator addr code V' :
  abs_create costs max_code V creator addr code = Some V' → total_coins V' = total_coins V.
Proof using.
  unfold abs_create. case_decide as HD; [|done]. intros (V1 & Ht & [= <-])%bind_Some.
  destruct HD as (_ & Hn & _). pose proof (transfer_coins_conserve _ _ _ _ _ Ht) as Hc. cbn in Hc.
  assert (V1 !! addr = None) as Hn1.
  { apply bind_Some in Ht as (V2 & Hs & [= <-]). unfold abs_spend in Hs.
    apply bind_Some in Hs as (t & Htc & Hs). case_match; simplify_eq.
    rewrite lookup_insert_ne; [done|]. intros ->. congruence. }
  assert (entry_coins (MkLedgerEntry 0 code ∅) = ledger_entry_base_cost costs + code_cost costs code) as He
    by (unfold entry_coins; cbn [le_balance le_bytecode le_datastore]; rewrite map_total_empty; lia).
  unfold total_coins in *. rewrite map_total_insert, He by done. lia.
Qed.

Lemma set_bytecode_coins max_code V caller addr code V' :
  abs_set_bytecode costs max_code V caller addr code = Some V' → total_coins V' = total_coins V.
Proof using.
  intros (t & Ht & Hs)%bind_Some. case_decide as HD; [|done].
  apply bind_Some in Hs as (V1 & Hc & Hs).
  destruct (charge_coins _ _ _ _ _ _ addr t Hc Ht) as (Hcc & b & Hb).
  - intros Heq%Nat.compare_eq. unfold code_cost. by rewrite Heq.
  - intros Hgt%Nat.compare_gt_iff. unfold code_cost. nia.
  - intros Hlt%Nat.compare_lt_iff. unfold code_cost. nia.
  - rewrite Hb in Hs. injection Hs as <-.
    pose proof (set_entry_coins V1 addr _ (with_bytecode (with_balance t b) code) Hb) as Hu.
    pose proof (entry_coins_bytecode (with_balance t b) code) as He. cbn [le_bytecode with_balance] in He. lia.
Qed.

Lemma set_data_coins max_key max_value V caller addr key value V' :
  abs_set_data costs max_key max_value V caller addr key value = Some V' → total_coins V' = total_coins V.
Proof using.
  intros (t & Ht & Hs)%bind_Some. cbn zeta in Hs. case_decide as HD; [|done].
  apply bind_Some in Hs as (V1 & Hc & Hs).
  destruct (charge_coins _ _ _ _ _ _ addr t Hc Ht) as (Hcc & b & Hb).
  - by intros ->%N.compare_eq.
  - intros ?%N.compare_gt_iff. lia.
  - intros Hl. by apply N.lt_le_incl.
  - rewrite Hb in Hs. injection Hs as <-.
    pose proof (set_entry_coins V1 addr _ (with_data (with_balance t b) (<[key := value]> (le_datastore t))) Hb) as Hu.
    pose proof (entry_coins_data (with_balance t b) (<[key := value]> (le_datastore t))) as He.
    cbn [le_datastore with_balance] in He.
    destruct (le_datastore t !! key) as [old|] eqn:Hk; cbn [from_option] in Hcc.
    + pose proof (map_total_update (data_cost costs) (le_datastore t) key old value Hk). lia.
    + rewrite map_total_insert in He by done. lia.
Qed.

Lemma delete_data_coins V caller addr key V' :
  abs_delete_data costs V caller addr key = Some V' → total_coins V' = total_coins V.
Proof using.
  intros (t & Ht & Hs)%bind_Some. apply bind_Some in Hs as (value & Hk & Hs). case_decide as HD; [|done].
  apply bind_Some in Hs as (V1 & Hc & Hs).
  destruct (charge_coins _ _ _ _ _ _ addr t Hc Ht) as (Hcc & b & Hb).
  - by intros <-%N.compare_eq.
  - intros ?%N.compare_gt_iff. lia.
  - lia.
  - rewrite Hb in Hs. injection Hs as <-.
    pose proof (set_entry_coins V1 addr _ (with_data (with_balance t b) (delete key (le_datastore t))) Hb) as Hu.
    pose proof (entry_coins_data (with_balance t b) (delete key (le_datastore t))) as He.
    cbn [le_datastore with_balance] in He.
    pose proof (map_total_delete (data_cost costs) (le_datastore t) key value Hk). lia.
Qed.
End coins.
