(* ===== verification/DatastoreScan.v ===== *)
(** * The keys of a datastore

    [massa-execution-worker/src/datastore_scan.rs]: the first keys of a range in the datastore of an
    address, in the final ledger and after the speculative changes, without reading
    the whole datastore.

    [BTreeMap::range] panics on an empty range, which [range_intersection] has
    excluded where it is called. *)

From S2P Require Import Prelude Slots OrdMap Keys Models Ledger History SpecLedger.

Open Scope N_scope.

Definition at_count (count : option N) (s : gset Key) : bool :=
  match count with Some cnt => cnt <=? N.of_nat (size s) | None => false end.

(** ** The keys after a reset of the address *)

(** Merges the keys of the new datastore with the later updates. *)
Fixpoint merge_loop (fuel : nat) (count : option N) (absolute : list Key) (updates : list (Key * bool))
    (out : gset Key) : outcome unit (gset Key) :=
  match fuel with
  | O => OutOfFuel
  | S fuel =>
      if at_count count out then Ok out
      else
        match absolute, updates with
        | a :: abs', (u, is_set) :: upd' =>
            match cmp a u with
            | Lt => merge_loop fuel count abs' updates (out ∪ {[a]})
            | Eq => merge_loop fuel count abs' upd' (if (is_set : bool) then out ∪ {[a]} else out)
            | Gt => merge_loop fuel count absolute upd' (if (is_set : bool) then out ∪ {[u]} else out)
            end
        | a :: abs', [] => merge_loop fuel count abs' [] (out ∪ {[a]})
        | [], (u, is_set) :: upd' =>
            merge_loop fuel count [] upd' (if (is_set : bool) then out ∪ {[u]} else out)
        | [], [] => Ok out
        end
  end.

(** The keys set by the updates, up to [count]. *)
Fixpoint set_keys (count : option N) (updates : list (Key * bool)) (out : gset Key) : gset Key :=
  match updates with
  | [] => out
  | (k, is_set) :: updates =>
      if at_count count out then out
      else set_keys count updates (if (is_set : bool) then out ∪ {[k]} else out)
  end.

Definition merge_set_case_keys (absolute : option Datastore) (key_updates : gmap Key bool)
    (key_range : option (Bound Key * Bound Key)) (count : option N) : outcome unit (gset Key) :=
  match absolute with
  | Some abs =>
      match key_range with
      | Some r =>
          let a := sorted_keys (range_keys r abs) in
          let u := sorted_entries key_updates in
          merge_loop (S (length a + length u)) count a u ∅
      | None => Ok ∅
      end
  | None => Ok (set_keys count (sorted_entries key_updates) ∅)
  end.

(** ** The speculative history *)

Inductive SpeculativeResetType : Type := ResetNone | ResetSet | ResetDelete.

Definition has_updates_in (key_range : option (Bound Key * Bound Key)) (u : LedgerEntryUpdate) : bool :=
  match key_range with
  | Some r => bool_decide (range_keys r (lu_datastore u) ≠ ∅)
  | None => false
  end.

(** Searches the layers from the newest for a reset, and collects the indices of the
    updates after it, oldest first. *)
Fixpoint find_reset (addr : Address) (key_range : option (Bound Key * Bound Key)) (newest_first : list LedgerChanges)
    (index : nat) (update_indices : list nat) : SpeculativeResetType * option Datastore * list nat :=
  match newest_first with
  | [] => (ResetNone, None, update_indices)
  | output :: older =>
      let index := pred index in
      match output !! addr with
      | None => find_reset addr key_range older index update_indices
      | Some (SUD_Set v) => (ResetSet, Some (le_datastore v), update_indices)
      | Some (SUD_Update u) =>
          find_reset addr key_range older index
            (if has_updates_in key_range u then index :: update_indices else update_indices)
      | Some SUD_Delete => (ResetDelete, None, update_indices)
      end
  end.

Definition is_set {A} (x : SetOrDelete A) : bool := match x with SOD_Set _ => true | SOD_Delete => false end.

(** The later updates of a key replace the earlier ones. *)
Definition aggregate (addr : Address) (key_range : option (Bound Key * Bound Key)) (layers : list LedgerChanges)
    (key_updates : gmap Key bool) (idx : nat) : outcome unit (gmap Key bool) :=
  changes ← expect "unexpected index out of bounds" (layers !! idx);
  change ← expect "address unexpectedly absent from the changes" ((changes : LedgerChanges) !! addr);
  match change with
  | SUD_Update u =>
      Ok (match key_range with
          | Some r => (is_set <$> filter (λ e, in_range r e.1 = true) (lu_datastore u)) ∪ key_updates
          | None => key_updates
          end)
  | _ => Panic "unexpected state change"
  end.

Section scan.
Context `{!LedgerController}.

Definition MIN_FINAL_KEYS_REFILL : N := 64.

(** Merges the keys of the final ledger with the updates, and asks for more final
    keys when they run out. *)
Fixpoint scan_loop (fuel : nat) (addr : Address) (prefix : Key) (end_key : Bound Key) (count : option N)
    (queue : list Key) (last_key : option Key) (updates : list (Key * bool)) (keys : gset Key)
    : outcome unit (gset Key) :=
  match fuel with
  | O => OutOfFuel
  | S fuel =>
      if at_count count keys then Ok keys
      else
        let next queue updates (keys : gset Key) :=
          match queue, last_key with
          | [], Some last_k =>
              let remaining := (λ cnt, N.max (cnt - N.of_nat (size keys)) MIN_FINAL_KEYS_REFILL) <$> count in
              batch ← expect "address expected to exist in final state"
                        (final_datastore_keys addr prefix (Excluded last_k) end_key remaining);
              scan_loop fuel addr prefix end_key count batch (last batch) updates keys
          | _, _ => scan_loop fuel addr prefix end_key count queue last_key updates keys
          end in
        match queue, updates with
        | f :: queue', [] => next queue' [] (keys ∪ {[f]})
        | f :: queue', (u, is_set) :: updates' =>
            match cmp f u with
            | Lt => next queue' updates (keys ∪ {[f]})
            | Eq => next queue' updates' (if (is_set : bool) then keys ∪ {[u]} else keys)
            | Gt => next queue updates' (if (is_set : bool) then keys ∪ {[u]} else keys)
            end
        | [], (u, is_set) :: updates' => next [] updates' (if (is_set : bool) then keys ∪ {[u]} else keys)
        | [], [] => Ok keys
        end
  end.

(** The rounds of [scan_loop]: each consumes a final key or an update. *)
Definition scan_rounds (addr : Address) (prefix : Key) (start_key end_key : Bound Key) (updates : list (Key * bool))
    : nat :=
  S (length (default [] (final_datastore_keys addr prefix start_key end_key None)) + length updates).

Definition scan_datastore (addr : Address) (prefix : Key) (start_key end_key : Bound Key) (count : option N)
    (history : ActiveHistory) (added : option LedgerChanges)
    : outcome unit (option (gset Key) * option (gset Key)) :=
  let final := final_datastore_keys addr prefix start_key end_key count in
  let final_keys : option (gset Key) := list_to_set <$> final in
  let key_range := range_intersection (get_prefix_bounds prefix) (start_key, end_key) in
  let layers := ((λ o, ledger_changes (state_changes o)) <$> history)
                ++ match added with Some c => [c] | None => [] end in
  let '(reset, absolute, update_indices) := find_reset addr key_range (rev layers) (length layers) [] in
  let reset := match reset with
               | ResetDelete => if decide (update_indices = []) then ResetDelete else ResetSet
               | r => r
               end in
  key_updates ← foldM (aggregate addr key_range layers) update_indices ∅;
  match reset with
  | ResetDelete => Ok (final_keys, None)
  | ResetSet =>
      keys ← merge_set_case_keys absolute key_updates key_range count;
      Ok (final_keys, Some keys)
  | ResetNone =>
      if decide (key_updates = ∅) then Ok (final_keys, final_keys)
      else
        match final with
        | None =>
            let keys := omap (λ '(k, is_set), if (is_set : bool) then Some k else None)
                          (sorted_entries key_updates) in
            Ok (None, Some (list_to_set match count with
                                        | Some cnt => take (N.to_nat cnt) keys
                                        | None => keys
                                        end))
        | Some queue =>
            let updates := sorted_entries key_updates in
            keys ← scan_loop (scan_rounds addr prefix start_key end_key updates) addr prefix end_key count
                     queue (last queue) updates ∅;
            Ok (final_keys, Some keys)
        end
  end.

(** The keys that the speculative ledger sees. *)
Definition get_keys (l : SpeculativeLedger) (addr : Address) (prefix : Key) (start_key end_key : Bound Key)
    (count : option N) : outcome unit (option (gset Key)) :=
  keys ← scan_datastore addr prefix start_key end_key count (active_history l) (Some (added_changes l));
  Ok keys.2.
End scan.
