(* ===== verification/ScanCorrect.v ===== *)
(** * The scan of a datastore is exact

    The loops of the scan return the first keys of one sorted list, and [scan_datastore] the first keys
    of the selected range in the datastore that the address has in the final ledger, and in the
    ledger that execution sees. *)

From S2P Require Import Prelude Slots OrdMap Keys KeyFacts Models Ledger History SpecLedger LedgerView SpecLedgerFacts DatastoreScan.

Open Scope N_scope.

(** ** The merged list *)

(** The keys of [absolute] overlaid by the updates. *)
Fixpoint merge_all (absolute : list Key) : list (Key * bool) → list Key :=
  fix go updates :=
    match absolute, updates with
    | _, [] => absolute
    | [], (u, b) :: updates => (if (b : bool) then [u] else []) ++ go updates
    | a :: absolute', (u, b) :: updates' =>
        match cmp a u with
        | Lt => a :: merge_all absolute' updates
        | Eq => (if (b : bool) then [u] else []) ++ merge_all absolute' updates'
        | Gt => (if (b : bool) then [u] else []) ++ go updates'
        end
    end.

Definition first {A} (count : option N) (l : list A) : list A :=
  match count with Some n => take (N.to_nat n) l | None => l end.

Section merge.
Implicit Types (k : Key) (F : list Key) (U : list (Key * bool)) (count : option N).

Lemma merge_all_nil F : merge_all F [] = F.
Proof using. by destruct F. Qed.

(** Induction along the merge. *)
Lemma merge_ind (P : list Key → list (Key * bool) → Prop) :
  (∀ F, P F []) →
  (∀ u b U, P [] U → P [] ((u, b) :: U)) →
  (∀ a u b F U, cmp a u = Lt → P F ((u, b) :: U) → P (a :: F) ((u, b) :: U)) →
  (∀ u b F U, P F U → P (u :: F) ((u, b) :: U)) →
  (∀ a u b F U, cmp a u = Gt → P (a :: F) U → P (a :: F) ((u, b) :: U)) →
  ∀ F U, P F U.
Proof using.
  intros H1 H2 H3 H4 H5 F. induction F as [|a F IHF]; intros U; induction U as [|[u b] U IHU]; auto.
  destruct (cmp a u) eqn:Hc; auto. apply cmp_eq in Hc as ->. auto.
Qed.

Lemma merge_all_lt a u b F U : cmp a u = Lt → merge_all (a :: F) ((u, b) :: U) = a :: merge_all F ((u, b) :: U).
Proof using. intros Hc. cbn. by rewrite Hc. Qed.
Lemma merge_all_eq u b F U : merge_all (u :: F) ((u, b) :: U) = (if b then [u] else []) ++ merge_all F U.
Proof using. cbn. by rewrite cmp_refl. Qed.
Lemma merge_all_gt a u b F U :
  cmp a u = Gt → merge_all (a :: F) ((u, b) :: U) = (if b then [u] else []) ++ merge_all (a :: F) U.
Proof using. intros Hc. cbn. by rewrite Hc. Qed.
Lemma merge_all_nil_l u b U : merge_all [] ((u, b) :: U) = (if b then [u] else []) ++ merge_all [] U.
Proof using. by destruct U. Qed.

Lemma sorted_fst_cons u b U :
  StronglySorted cmp_lt ((u, b) :: U).*1 ↔ StronglySorted cmp_lt U.*1 ∧ ∀ k, k ∈ U.*1 → cmp_lt u k.
Proof using. cbn. rewrite StronglySorted_cons, Forall_forall. tauto. Qed.
Lemma sorted_cons_iff a F : StronglySorted cmp_lt (a :: F) ↔ StronglySorted cmp_lt F ∧ ∀ k, k ∈ F → cmp_lt a k.
Proof using. rewrite StronglySorted_cons, Forall_forall. tauto. Qed.

Lemma elem_of_if (b : bool) (k u : Key) : k ∈ (if b then [u] else []) ↔ k = u ∧ b = true.
Proof using. destruct b; [rewrite list_elem_of_singleton|rewrite elem_of_nil]; naive_solver. Qed.

(** A key is in the merge when the updates set it, or when it was there and they
    leave it. *)
Lemma elem_of_merge_all F U k :
  StronglySorted cmp_lt F → StronglySorted cmp_lt U.*1 →
  k ∈ merge_all F U ↔ (k, true) ∈ U ∨ k ∈ F ∧ k ∉ U.*1.
Proof using.
  revert F U. refine (merge_ind _ _ _ _ _ _).
  - intros F _ _. rewrite merge_all_nil, elem_of_nil. cbn. rewrite elem_of_nil. tauto.
  - intros u b U IH HF [HU Hu]%sorted_fst_cons. rewrite merge_all_nil_l, elem_of_app, elem_of_if, IH by done.
    rewrite !elem_of_nil, elem_of_cons. naive_solver.
  - intros a u b F U Hc IH [HF Ha]%sorted_cons_iff HU. rewrite merge_all_lt, elem_of_cons, IH by done.
    apply sorted_fst_cons in HU as [HU Hu].
    assert (a ∉ ((u, b) :: U).*1).
    { cbn. intros [->|Hin]%elem_of_cons; [by rewrite cmp_refl in Hc|].
      apply (cmp_lt_irrefl a). eapply cmp_lt_trans; [exact Hc|by apply Hu]. }
    rewrite (elem_of_cons F). naive_solver.
  - intros u b F U IH [HF Hf]%sorted_cons_iff [HU Hu]%sorted_fst_cons.
    rewrite merge_all_eq, elem_of_app, elem_of_if, IH by done.
    cbn. rewrite !elem_of_cons.
    assert (k ∈ F → k ≠ u) by (intros Hin ->; by apply (cmp_lt_irrefl u), Hf). naive_solver.
  - intros a u b F U Hc IH HF [HU Hu]%sorted_fst_cons.
    rewrite merge_all_gt, elem_of_app, elem_of_if, IH by done. cbn. rewrite (elem_of_cons U), (elem_of_cons U.*1).
    assert (k ∈ a :: F → k ≠ u); [|naive_solver].
    apply sorted_cons_iff in HF as [HF Hf]. apply cmp_gt_lt in Hc.
    intros [->|Hin]%elem_of_cons ->; [by rewrite cmp_refl in Hc|].
    apply (cmp_lt_irrefl u). eapply cmp_lt_trans; [exact Hc|by apply Hf].
Qed.

Lemma merge_all_subset F U k :
  StronglySorted cmp_lt F → StronglySorted cmp_lt U.*1 → k ∈ merge_all F U → k ∈ F ∨ k ∈ U.*1.
Proof using.
  intros HF HU [Hk|[Hk _]]%elem_of_merge_all; [right; by apply (list_elem_of_fmap_2 fst U (k, true))|by left|done..].
Qed.

Lemma sorted_if_app (b : bool) u (l : list Key) :
  StronglySorted cmp_lt l → (∀ k, k ∈ l → cmp_lt u k) → StronglySorted cmp_lt ((if b then [u] else []) ++ l).
Proof using. intros Hl Hu. destruct b; [|done]. by apply sorted_cons_iff. Qed.

Lemma sorted_merge_all F U :
  StronglySorted cmp_lt F → StronglySorted cmp_lt U.*1 → StronglySorted cmp_lt (merge_all F U).
Proof using.
  revert F U. refine (merge_ind _ _ _ _ _ _).
  - intros F HF _. by rewrite merge_all_nil.
  - intros u b U IH HF [HU Hu]%sorted_fst_cons. rewrite merge_all_nil_l. apply sorted_if_app; [by apply IH|].
    intros k [Hk|Hk]%merge_all_subset; [by apply elem_of_nil in Hk|by apply Hu|done..].
  - intros a u b F U Hc IH [HF Ha]%sorted_cons_iff HU. rewrite merge_all_lt by done.
    apply sorted_cons_iff. split; [by apply IH|].
    intros k [Hk|Hk]%merge_all_subset; [by apply Ha| |done..].
    apply sorted_fst_cons in HU as [HU Hu]. apply elem_of_cons in Hk as [->|Hk]; [done|].
    eapply cmp_lt_trans; [exact Hc|by apply Hu].
  - intros u b F U IH [HF Hf]%sorted_cons_iff [HU Hu]%sorted_fst_cons. rewrite merge_all_eq.
    apply sorted_if_app; [by apply IH|]. intros k [Hk|Hk]%merge_all_subset; auto.
  - intros a u b F U Hc IH HF [HU Hu]%sorted_fst_cons. rewrite merge_all_gt by done.
    apply sorted_if_app; [by apply IH|]. apply cmp_gt_lt in Hc.
    intros k [Hk|Hk]%merge_all_subset; [|by apply Hu|done..].
    apply sorted_cons_iff in HF as [HF Hf]. apply elem_of_cons in Hk as [->|Hk]; [done|].
    eapply cmp_lt_trans; [exact Hc|by apply Hf].
Qed.

(** ** Collecting *)

(** [out] holds the keys of [pre], at most [count] of them, and the rest of the merge
    is [post]. *)
Record collecting count (pre post : list Key) (out : gset Key) : Prop := {
  co_out : out = list_to_set pre;
  co_nodup : NoDup (pre ++ post);
  co_count : ∀ n, count = Some n → (length pre <= N.to_nat n)%nat }.

Lemma collecting_size count pre post out : collecting count pre post out → size out = length pre.
Proof using. intros [-> [Hnd _]%NoDup_app _]. by apply size_list_to_set. Qed.

(** When the count is reached nothing more is collected. *)
Lemma collecting_stop count pre post out :
  collecting count pre post out → at_count count out = true → out = list_to_set (first count (pre ++ post)).
Proof using.
  intros Hc Hat. pose proof (collecting_size _ _ _ _ Hc) as Hsz. unfold at_count in Hat.
  destruct count as [n|]; [|done]. apply N.leb_le in Hat. pose proof (co_count _ _ _ _ Hc n eq_refl) as Hle.
  cbn. rewrite take_app_length' by lia. apply Hc.
Qed.
Lemma collecting_end count pre out : collecting count pre [] out → out = list_to_set (first count pre).
Proof using.
  intros [-> _ Hle]. destruct count as [n|]; [|done]. cbn. by rewrite take_ge by auto.
Qed.
Lemma collecting_add count pre k post out :
  collecting count pre (k :: post) out → at_count count out = false →
  collecting count (pre ++ [k]) post (out ∪ {[k]}).
Proof using.
  intros Hc Hat. pose proof (collecting_size _ _ _ _ Hc) as Hsz. destruct Hc as [-> Hnd Hle]. split.
  - rewrite list_to_set_app_L. cbn. set_solver.
  - by rewrite <- (assoc_L (++)).
  - intros n ->. cbn in Hat. apply N.leb_gt in Hat. rewrite length_app. cbn. lia.
Qed.
Lemma collecting_add_if count pre (b : bool) k post out :
  collecting count pre ((if b then [k] else []) ++ post) out → at_count count out = false →
  collecting count (pre ++ (if b then [k] else [])) post (if b then out ∪ {[k]} else out).
Proof using. intros Hc Hat. destruct b; [by apply collecting_add|by rewrite app_nil_r]. Qed.

Lemma collecting_start count post : NoDup post → collecting count [] post ∅.
Proof using. intros Hnd. split; [done|done|]. intros n _. cbn. lia. Qed.

(** ** The loops after a reset *)

Lemma merge_loop_spec fuel count F U pre out :
  (length F + length U < fuel)%nat → collecting count pre (merge_all F U) out →
  merge_loop fuel count F U out = Ok (list_to_set (first count (pre ++ merge_all F U))).
Proof using.
  revert F U pre out. induction fuel as [|fuel IH]; intros F U pre out Hf Hc; [lia|]. cbn.
  destruct (at_count count out) eqn:Hat; [f_equal; by eapply collecting_stop|].
  destruct F as [|a F], U as [|[u b] U].
  - f_equal. rewrite app_nil_r. by apply collecting_end.
  - rewrite merge_all_nil_l in *. rewrite (assoc_L (++)). apply IH; [cbn in *; lia|]. by apply collecting_add_if.
  - rewrite merge_all_nil in *. rewrite (IH F [] (pre ++ [a])); [|cbn in *; lia|].
    + by rewrite merge_all_nil, <- (assoc_L (++)).
    + rewrite merge_all_nil. by apply collecting_add.
  - destruct (cmp a u) eqn:Hcmp.
    + apply cmp_eq in Hcmp as ->. rewrite merge_all_eq in *. rewrite (assoc_L (++)).
      apply IH; [cbn in *; lia|]. by apply collecting_add_if.
    + rewrite merge_all_lt in * by done. rewrite (cons_middle a pre), (assoc_L (++)).
      apply IH; [cbn in *; lia|]. by apply collecting_add.
    + rewrite merge_all_gt in * by done. rewrite (assoc_L (++)).
      apply IH; [cbn in *; lia|]. by apply collecting_add_if.
Qed.

Lemma set_keys_spec count U pre out :
  collecting count pre (merge_all [] U) out →
  set_keys count U out = list_to_set (first count (pre ++ merge_all [] U)).
Proof using.
  revert pre out. induction U as [|[u b] U IH]; intros pre out Hc; cbn [set_keys].
  { cbn. rewrite app_nil_r. by apply collecting_end. }
  destruct (at_count count out) eqn:Hat; [by eapply collecting_stop|].
  rewrite merge_all_nil_l in *. rewrite (assoc_L (++)). apply IH. by apply collecting_add_if.
Qed.

(** ** The loop on the final ledger *)

Section final.
Context `{!LedgerController}.
Variables (addr : Address) (prefix : Key) (end_key : Bound Key) (count : option N).
(** The final keys after a bound: a query returns the first of them, and the keys
    after one of them are those that follow it. *)
Variable final_from : Bound Key → list Key.
Hypothesis final_query : ∀ lo c,
  final_datastore_keys addr prefix lo end_key c = Some (first c (final_from lo)).
Hypothesis final_after : ∀ lo before k rest, final_from lo = before ++ k :: rest → final_from (Excluded k) = rest.

(** [F] are the final keys still to merge: the queue, and those after the last key
    queried. *)
Definition pending (queue : list Key) (last_key : option Key) F : Prop :=
  F = queue ++ from_option (λ k, final_from (Excluded k)) [] last_key.

(** The queue that a query with a bound other than zero gives. *)
Lemma pending_query lo c :
  c ≠ Some 0 →
  pending (first c (final_from lo)) (last (first c (final_from lo))) (final_from lo)
  ∧ (first c (final_from lo) = [] → last (first c (final_from lo)) = None).
Proof using final_after.
  intros Hc. split; [|by intros ->]. unfold pending.
  assert (∃ rest, final_from lo = first c (final_from lo) ++ rest ∧ (first c (final_from lo) = [] → rest = []))
    as (rest & Heq & Hnil).
  { destruct c as [n|]; cbn; [|exists []; by rewrite app_nil_r].
    exists (drop (N.to_nat n) (final_from lo)). split; [by rewrite take_drop|].
    destruct (N.to_nat n) eqn:Hn; [assert (n = 0) by lia; by subst|]. by destruct (final_from lo). }
  destruct (last (first c (final_from lo))) as [k|] eqn:Hlast; cbn.
  - apply last_Some in Hlast as [before Hb]. rewrite Hb in *. rewrite Heq at 1. f_equal. symmetry.
    apply (final_after lo before). rewrite Heq at 1. by rewrite <- (assoc_L (++)).
  - apply last_None in Hlast. rewrite Hlast in *. by rewrite Heq at 1; rewrite Hnil.
Qed.

(** The end of a round: the queue is filled again if it is empty. *)
Lemma next_spec fuel queue last_key U keys F :
  pending queue last_key F →
  ∃ queue' last_key',
    match queue, last_key with
    | [], Some last_k =>
        batch ← expect "address expected to exist in final state"
                  (final_datastore_keys addr prefix (Excluded last_k) end_key
                     ((λ cnt, N.max (cnt - N.of_nat (size keys)) MIN_FINAL_KEYS_REFILL) <$> count));
        scan_loop fuel addr prefix end_key count batch (last batch) U keys
    | _, _ => scan_loop fuel addr prefix end_key count queue last_key U keys
    end = scan_loop fuel addr prefix end_key count queue' last_key' U keys
    ∧ pending queue' last_key' F ∧ (queue' = [] → last_key' = None).
Proof using final_after final_query.
  intros Hp. destruct queue as [|f queue].
  - destruct last_key as [k|]; [|by exists [], None].
    set (c := (λ cnt, N.max _ _) <$> count).
    assert (c ≠ Some 0) as Hc by (unfold c; destruct count; cbn; [unfold MIN_FINAL_KEYS_REFILL; intros [=]; lia|done]).
    rewrite final_query. unfold pending in Hp. cbn in Hp. subst F.
    exists (first c (final_from (Excluded k))), (last (first c (final_from (Excluded k)))).
    split; [done|]. by apply pending_query.
  - exists (f :: queue), last_key. by destruct last_key.
Qed.

Lemma scan_loop_spec fuel queue last_key U F pre keys :
  (length F + length U < fuel)%nat → pending queue last_key F → (queue = [] → last_key = None) →
  collecting count pre (merge_all F U) keys →
  scan_loop fuel addr prefix end_key count queue last_key U keys
  = Ok (list_to_set (first count (pre ++ merge_all F U))).
Proof using final_after final_query.
  revert queue last_key U F pre keys.
  induction fuel as [|fuel IH]; intros queue last_key U F pre keys Hf Hp Hq Hc; [lia|]. cbn.
  destruct (at_count count keys) eqn:Hat; [f_equal; by eapply collecting_stop|].
  destruct queue as [|f queue].
  - rewrite Hq in * by done. unfold pending in Hp. cbn in Hp. subst F. destruct U as [|[u b] U].
    + f_equal. rewrite app_nil_r. by apply collecting_end.
    + rewrite merge_all_nil_l in *. rewrite (assoc_L (++)).
      apply IH; [cbn in *; lia|done|done|]. by apply collecting_add_if.
  - pose proof Hp as HF. unfold pending in HF. cbn in HF.
    set (F' := queue ++ from_option (λ k, final_from (Excluded k)) [] last_key) in *.
    assert (pending queue last_key F') as Hp' by done. rewrite HF in *. clearbody F'. clear HF.
    destruct U as [|[u b] U].
    + rewrite merge_all_nil in *.
      destruct (next_spec fuel queue last_key [] (keys ∪ {[f]}) F' Hp') as (q & lk & -> & Hpq & Hql).
      rewrite (IH q lk [] F' (pre ++ [f])); [|cbn in *; lia|done|done|].
      * by rewrite merge_all_nil, <- (assoc_L (++)).
      * rewrite merge_all_nil. by apply collecting_add.
    + destruct (cmp f u) eqn:Hcmp.
      * apply cmp_eq in Hcmp as ->. rewrite merge_all_eq in *. rewrite (assoc_L (++)).
        edestruct (next_spec fuel queue last_key U) as (q & lk & -> & Hpq & Hql); [exact Hp'|].
        apply IH; [cbn in *; lia|done|done|]. by apply collecting_add_if.
      * rewrite merge_all_lt in * by done. rewrite (cons_middle f pre), (assoc_L (++)).
        edestruct (next_spec fuel queue last_key) as (q & lk & -> & Hpq & Hql); [exact Hp'|].
        apply IH; [cbn in *; lia|done|done|]. by apply collecting_add.
      * rewrite merge_all_gt in * by done. rewrite (assoc_L (++)).
        edestruct (next_spec fuel (f :: queue) last_key U) as (q & lk & Heq & Hpq & Hql); [exact Hp|].
        cbn in Heq. rewrite Heq. apply IH; [cbn in *; lia|done|done|]. by apply collecting_add_if.
Qed.
End final.
End merge.

(** ** The scan of a datastore is exact

    [scan_datastore] returns the first keys of the selected range in the datastore
    that the address has in the final ledger, and in the ledger that execution
    sees. *)

Lemma omap_set_keys (U : list (Key * bool)) :
  omap (λ '(k, b), if (b : bool) then Some k else None) U = merge_all [] U.
Proof using.
  induction U as [|[u b] U IH]; [done|]. rewrite merge_all_nil_l, <- IH. by destruct b.
Qed.

Section scan.
Context `{!LedgerController} `{!SetIter Key} `{!SetIter Address}.
Variables (addr : Address) (prefix : Key) (start_key end_key : Bound Key) (count : option N).
Implicit Types (L : gmap Address LedgerEntry) (c : LedgerChanges) (ls older newer : list LedgerChanges).
Implicit Types (e : option LedgerEntry) (km : gmap Key bool) (k : Key).

(** ** The keys asked for *)

Definition selected (lo : Bound Key) k : bool := in_range (get_prefix_bounds prefix) k && in_range (lo, end_key) k.

Definition select (lo : Bound Key) (d : Datastore) : gset Key := filter (λ k, selected lo k = true) (dom d).

(** The selected keys of an entry, in order; an absent entry has none. *)
Definition entry_keys e : list Key :=
  sorted_keys (select start_key (le_datastore (default default_value e))).

(** What a query returns for an entry. *)
Definition keys_of e : option (gset Key) := (λ t, list_to_set (first count (entry_keys (Some t)))) <$> e.

(** What the final ledger promises of its keys. *)
Definition keys_law L : Prop := ∀ addr lo n,
  final_datastore_keys addr prefix lo end_key n
  = (λ t, first n (sorted_keys (select lo (le_datastore t)))) <$> L !! addr.

Let key_range : option (Bound Key * Bound Key) := range_intersection (get_prefix_bounds prefix) (start_key, end_key).

Lemma selected_range k :
  selected start_key k = match key_range with Some r => in_range r k | None => false end.
Proof using. apply range_intersection_spec. Qed.

Lemma elem_of_entry_keys e k :
  k ∈ entry_keys e ↔ selected start_key k = true ∧ k ∈ dom (le_datastore (default default_value e)).
Proof using. unfold entry_keys, select. by rewrite elem_of_sorted_keys, elem_of_filter. Qed.

(** ** The updates since the reset *)

Definition updates_only c : Prop :=
  match c !! addr with Some (SUD_Set _) | Some SUD_Delete => False | _ => True end.

Definition hits c : bool :=
  match c !! addr with Some (SUD_Update u) => has_updates_in key_range u | _ => false end.

Fixpoint hit_indices (n : nat) newer : list nat :=
  match newer with
  | [] => []
  | c :: newer => (if hits c then [n] else []) ++ hit_indices (S n) newer
  end.

(** The key updates of a layer. *)
Definition agg km c : gmap Key bool :=
  match c !! addr, key_range with
  | Some (SUD_Update u), Some r => (is_set <$> filter (λ x, in_range r x.1 = true) (lu_datastore u)) ∪ km
  | _, _ => km
  end.

(** The entry after some layers. *)
Definition entry_after e ls : option LedgerEntry := foldl (λ e c, change_view (c !! addr) e) e ls.

Fixpoint anchored_at e ls : Prop :=
  match ls with
  | [] => True
  | c :: ls => (∀ u, c !! addr = Some (SUD_Update u) → is_Some e) ∧ anchored_at (change_view (c !! addr) e) ls
  end.

Lemma anchored_at_app e ls ls' :
  anchored_at e (ls ++ ls') ↔ anchored_at e ls ∧ anchored_at (entry_after e ls) ls'.
Proof using. revert e. induction ls as [|c ls IH]; intros e; cbn; [tauto|]. rewrite IH. cbn. tauto. Qed.

Lemma hit_indices_snoc n newer c :
  hit_indices n (newer ++ [c]) = hit_indices n newer ++ (if hits c then [n + length newer]%nat else []).
Proof using.
  revert n. induction newer as [|c' newer IH]; intros n; cbn.
  - by rewrite app_nil_r, Nat.add_0_r.
  - rewrite IH, <- (assoc_L (++)). do 3 f_equal. replace (n + S (length newer))%nat with (S n + length newer)%nat by lia. done.
Qed.

(** The reset found, and the layers after it. *)
Definition reset_of older (reset : SpeculativeResetType) (absolute : option Datastore) : Prop :=
  match reset with
  | ResetNone => older = [] ∧ absolute = None
  | ResetSet => ∃ o c v, older = o ++ [c] ∧ c !! addr = Some (SUD_Set v) ∧ absolute = Some (le_datastore v)
  | ResetDelete => ∃ o c, older = o ++ [c] ∧ c !! addr = Some SUD_Delete ∧ absolute = None
  end.

Lemma find_reset_spec ls acc :
  ∃ older newer reset absolute,
    ls = older ++ newer ∧ Forall updates_only newer ∧ reset_of older reset absolute
    ∧ find_reset addr key_range (rev ls) (length ls) acc
      = (reset, absolute, hit_indices (length older) newer ++ acc).
Proof using.
  revert acc. induction ls as [|c ls IH] using rev_ind; intros acc.
  { exists [], [], ResetNone, None. done. }
  rewrite rev_app_distr, length_app, Nat.add_1_r. cbn [rev app find_reset pred length].
  assert (∀ acc', updates_only c → acc' = (if hits c then [length ls] else []) ++ acc →
    ∃ older newer reset absolute,
    ls ++ [c] = older ++ newer ∧ Forall updates_only newer ∧ reset_of older reset absolute
    ∧ find_reset addr key_range (rev ls) (length ls) acc'
      = (reset, absolute, hit_indices (length older) newer ++ acc)) as Hskip.
  { intros acc' Hc ->. destruct (IH ((if hits c then [length ls] else []) ++ acc))
      as (older & newer & reset & absolute & -> & Hn & Hr & ->).
    exists older, (newer ++ [c]), reset, absolute. split; [by rewrite <- (assoc_L (++))|].
    split; [by apply Forall_app; split; [|constructor]|]. split; [done|].
    by rewrite hit_indices_snoc, length_app, <- (assoc_L (++)). }
  destruct (c !! addr) as [[v|u|]|] eqn:Hc.
  - exists (ls ++ [c]), [], ResetSet, (Some (le_datastore v)). rewrite app_nil_r. repeat split; [done|].
    by exists ls, c, v.
  - apply Hskip; unfold updates_only, hits; rewrite Hc; [done|]. by destruct (has_updates_in key_range u).
  - exists (ls ++ [c]), [], ResetDelete, None. rewrite app_nil_r. repeat split; [done|]. by exists ls, c.
  - apply Hskip; unfold updates_only, hits; by rewrite Hc.
Qed.

(** Layers with no update in the range aggregate to nothing. *)
Lemma agg_no_hit km c : hits c = false → agg km c = km.
Proof using.
  unfold hits, agg. destruct (c !! addr) as [[v|u|]|]; try done. unfold has_updates_in.
  destruct key_range as [r|]; [|done]. intros Hn%bool_decide_eq_false%dec_stable.
  assert (filter (λ x, in_range r x.1 = true) (lu_datastore u) = ∅) as ->;
    [|by rewrite fmap_empty, (left_id_L ∅ (∪))].
  apply map_empty. intros k. apply map_lookup_filter_None. right. intros x Hx Hr.
  apply (not_elem_of_empty (C := gset Key) k). rewrite <- Hn. unfold range_keys. apply elem_of_filter.
  split; [done|by eapply elem_of_dom_2].
Qed.

Lemma aggregate_hit ls n c km :
  ls !! n = Some c → hits c = true → aggregate addr key_range ls km n = Ok (agg km c).
Proof using.
  intros Hn Hc. unfold aggregate, agg, hits in *. rewrite Hn. cbn.
  destruct (c !! addr) as [[v|u|]|]; by try done.
Qed.

Lemma aggregate_spec older newer km :
  foldM (aggregate addr key_range (older ++ newer)) (hit_indices (length older) newer) km
  = Ok (foldl agg km newer).
Proof using.
  revert older km. induction newer as [|c newer IH]; intros older km; [done|]. cbn [hit_indices foldl].
  specialize (IH (older ++ [c])). rewrite length_app, Nat.add_1_r, <- (assoc_L (++)) in IH. cbn [app] in IH.
  destruct (hits c) eqn:Hc; cbn [app].
  - cbn [foldM]. rewrite (aggregate_hit _ _ c) by (by rewrite ?list_lookup_middle). apply IH.
  - rewrite IH. by rewrite agg_no_hit.
Qed.

Lemma hit_indices_nil n newer : hit_indices n newer = [] → foldl agg ∅ newer = ∅.
Proof using.
  revert n. induction newer as [|c newer IH]; intros n; [done|]. cbn.
  destruct (hits c) eqn:Hc; [done|]. cbn. rewrite agg_no_hit by done. apply IH.
Qed.

(** The updates are what the layers do to the keys of the range. *)
Lemma entry_after_dom e newer k :
  Forall updates_only newer → selected start_key k = true →
  k ∈ dom (le_datastore (default default_value (entry_after e newer)))
  ↔ match foldl agg ∅ newer !! k with
    | Some b => b = true
    | None => k ∈ dom (le_datastore (default default_value e))
    end.
Proof using.
  intros Hn Hs. rewrite selected_range in Hs. destruct key_range as [r|] eqn:Hr; [|done].
  induction newer as [|c newer IH] using rev_ind; [cbn; by rewrite lookup_empty|].
  apply Forall_app in Hn as [Hn [Hc _]%Forall_cons_1]. specialize (IH Hn).
  unfold entry_after in *. rewrite !foldl_app. cbn. set (e' := foldl _ e newer) in *.
  unfold updates_only in Hc. unfold agg at 1. rewrite Hr. destruct (c !! addr) as [[v|u|]|]; try done. cbn.
  unfold apply, LedgerEntry_apply. cbn [le_datastore].
  rewrite elem_of_dom, lookup_update_datastore, lookup_union, lookup_fmap, map_lookup_filter.
  destruct (lu_datastore u !! k) as [x|]; cbn.
  - rewrite option_guard_True by done. cbn. rewrite union_Some_l. destruct x; cbn; [split; by eauto|].
    split; [by intros []|done].
  - rewrite (left_id_L None (∪)), <- elem_of_dom. exact IH.
Qed.

Lemma agg_in_range newer k b : foldl agg ∅ newer !! k = Some b → selected start_key k = true.
Proof using.
  rewrite selected_range. revert b. induction newer as [|c newer IH] using rev_ind; intros b; [cbn; by rewrite lookup_empty|].
  rewrite foldl_app. cbn. unfold agg at 1.
  destruct (c !! addr) as [[v|u|]|]; try apply IH. destruct key_range as [r|] eqn:Hr; [|apply IH].
  intros [Hk|[_ Hk]]%lookup_union_Some_raw; [|by eapply IH].
  rewrite lookup_fmap in Hk. apply fmap_Some in Hk as (x & Hx & _).
  by apply map_lookup_filter_Some in Hx as [_ Hx].
Qed.

(** The keys after the layers are the keys before, merged with the updates. *)
Lemma entry_keys_merge e newer :
  Forall updates_only newer →
  entry_keys (entry_after e newer) = merge_all (entry_keys e) (sorted_entries (foldl agg ∅ newer)).
Proof using.
  intros Hn. symmetry. apply sorted_keys_unique.
  - apply sorted_merge_all; [apply sorted_sorted_keys|apply sorted_entries_sorted].
  - intros k. rewrite elem_of_merge_all by (apply sorted_sorted_keys || apply sorted_entries_sorted).
    rewrite elem_of_sorted_entries, fst_sorted_entries, elem_of_sorted_keys, elem_of_entry_keys, not_elem_of_dom.
    unfold select. rewrite elem_of_filter.
    destruct (selected start_key k) eqn:Hs.
    + rewrite (entry_after_dom e newer k) by done. destruct (foldl agg ∅ newer !! k) as [b|]; naive_solver.
    + split; [intros [Hk%agg_in_range|[[Hf _] _]]; congruence|by intros [? _]].
Qed.

(** Updates keep an entry present, and anchored ones keep it absent. *)
Lemma entry_after_some t newer : Forall updates_only newer → is_Some (entry_after (Some t) newer).
Proof using.
  revert t. induction newer as [|c newer IH]; intros t Hn; [by eexists|]. apply Forall_cons in Hn as [Hc Hn].
  unfold entry_after. cbn. unfold updates_only in Hc. destruct (c !! addr) as [[v|u|]|]; try done; by apply IH.
Qed.
Lemma entry_after_none newer :
  Forall updates_only newer → anchored_at None newer →
  entry_after None newer = None ∧ foldl agg ∅ newer = ∅ ∧ ∀ n, hit_indices n newer = [].
Proof using.
  induction newer as [|c newer IH]; intros Hn Ha; [done|]. apply Forall_cons in Hn as [Hc Hn].
  destruct Ha as [Hu Ha]. unfold entry_after. cbn. unfold updates_only in Hc. unfold agg at 2, hits.
  destruct (c !! addr) as [[v|u|]|]; try done; [|cbn in Ha; destruct (IH Hn Ha) as (H1 & H2 & H3); eauto].
  by destruct (Hu u eq_refl).
Qed.

(** ** The answer *)

(** [r] answers for the entry [e]: it holds the keys of the entry, and when every
    update is to an entry that exists it says whether the entry does. *)
Definition answers (anch : Prop) (r : option (gset Key)) e : Prop :=
  default ∅ r = list_to_set (first count (entry_keys e)) ∧ (anch → r = keys_of e).

Lemma first_nil {A} (n : option N) : first n ([] : list A) = [].
Proof using. destruct n; [apply take_nil|done]. Qed.
Lemma entry_keys_none : entry_keys None = [].
Proof using.
  symmetry. apply sorted_keys_unique; [constructor|]. intros k. unfold select. cbn.
  rewrite dom_empty_L, elem_of_filter, elem_of_nil, elem_of_empty. tauto.
Qed.

Lemma answers_some (anch : Prop) e (s : gset Key) :
  s = list_to_set (first count (entry_keys e)) → (anch → is_Some e) → answers anch (Some s) e.
Proof using. intros -> He. split; [done|]. intros [t ->]%He. done. Qed.
Lemma answers_none (anch : Prop) e : entry_keys e = [] → (anch → e = None) → answers anch None e.
Proof using. intros He Hn. split; [by rewrite He, first_nil|]. by intros ->%Hn. Qed.
Lemma answers_keys_of (anch : Prop) e e' :
  entry_keys e = entry_keys e' → (anch → is_Some e ↔ is_Some e') → answers anch (keys_of e) e'.
Proof using.
  intros Hk He. split.
  - rewrite <- Hk. destruct e; [done|]. cbn. by rewrite entry_keys_none, first_nil.
  - intros Ha. specialize (He Ha). destruct e as [t|], e' as [t'|]; [|naive_solver..|done].
    unfold keys_of. cbn. by rewrite Hk.
Qed.

Lemma merge_keys_NoDup e newer : NoDup (merge_all (entry_keys e) (sorted_entries (foldl agg ∅ newer))).
Proof using.
  apply sorted_NoDup, sorted_merge_all; [apply sorted_sorted_keys|apply sorted_entries_sorted].
Qed.

(** The keys when a reset was found. *)
Lemma merge_set_case_keys_spec e newer :
  Forall updates_only newer →
  merge_set_case_keys (le_datastore <$> e) (foldl agg ∅ newer) key_range count
  = Ok (list_to_set (first count (entry_keys (entry_after e newer)))).
Proof using.
  intros Hn. rewrite entry_keys_merge by done. pose proof (merge_keys_NoDup e newer) as Hnd.
  unfold merge_set_case_keys. destruct e as [t|]; cbn [fmap option_fmap option_map].
  - assert (∀ r, key_range = Some r → range_keys r (le_datastore t) = select start_key (le_datastore t)) as Hsel.
    { intros r Hr. apply set_eq. intros k. unfold range_keys, select.
      rewrite !elem_of_filter, selected_range, Hr. done. }
    destruct key_range as [r|] eqn:Hr.
    + rewrite (Hsel r eq_refl). rewrite (merge_loop_spec _ _ _ _ []); [done|lia|].
      by apply collecting_start.
    + rewrite <- entry_keys_merge by done.
      assert (entry_keys (entry_after (Some t) newer) = []) as ->; [|by rewrite first_nil].
      apply elem_of_nil_inv. intros k. rewrite elem_of_entry_keys, selected_range, Hr. by intros [? _].
  - rewrite entry_keys_none in *. rewrite (set_keys_spec _ _ []); [done|]. by apply collecting_start.
Qed.

(** The keys of the final ledger after one of them. *)
Lemma final_after_select (d : Datastore) lo before k rest :
  sorted_keys (select lo d) = before ++ k :: rest → sorted_keys (select (Excluded k) d) = rest.
Proof using.
  intros Heq. symmetry. pose proof (sorted_sorted_keys (select lo d)) as Hs. rewrite Heq in Hs.
  apply StronglySorted_app in Hs as (Hlt & _ & [Hr Hk]%sorted_cons_iff).
  apply sorted_keys_unique; [done|]. intros x.
  assert (x ∈ before ++ k :: rest ↔ x ∈ select lo d) as Hx by (by rewrite <- Heq, elem_of_sorted_keys).
  assert (k ∈ select lo d) as Hkd.
  { rewrite <- elem_of_sorted_keys, Heq. apply elem_of_app. right. by left. }
  unfold select, selected, in_range in *. rewrite !elem_of_filter in *. cbn in *.
  rewrite !andb_true_iff, bool_decide_eq_true in *. rewrite elem_of_app, elem_of_cons in Hx. split.
  - intros Hin. specialize (Hk x Hin). naive_solver.
  - intros ([Hp [Hkx He]] & Hd). assert (after_start lo x = true) as Ha.
    { destruct Hkd as [(_ & Hka & _) _]. destruct lo as [a|a|]; cbn in *; [..|done];
        rewrite bool_decide_eq_true in *; [|by eapply cmp_lt_trans]. etrans; [exact Hka|by apply cmp_lt_le]. }
    destruct (proj2 Hx) as [Hb|[->|Hin]]; [done| |by apply cmp_lt_irrefl in Hkx|done].
    destruct (cmp_lt_irrefl x). eapply cmp_lt_trans; [|exact Hkx]. by apply Hlt; [|left].
Qed.

(** The keys when the final keys are merged with the updates. *)
Lemma scan_final_spec L t newer :
  keys_law L → L !! addr = Some t → Forall updates_only newer →
  scan_loop (scan_rounds addr prefix start_key end_key (sorted_entries (foldl agg ∅ newer))) addr prefix end_key
    count (first count (entry_keys (Some t))) (last (first count (entry_keys (Some t))))
    (sorted_entries (foldl agg ∅ newer)) ∅
  = Ok (list_to_set (first count (entry_keys (entry_after (Some t) newer)))).
Proof using.
  intros HL Ht Hn. rewrite entry_keys_merge by done. pose proof (merge_keys_NoDup (Some t) newer) as Hnd.
  set (final_from lo := sorted_keys (select lo (le_datastore t))).
  assert (∀ lo n, final_datastore_keys addr prefix lo end_key n = Some (first n (final_from lo))) as Hq.
  { intros lo n. by rewrite HL, Ht. }
  destruct (decide (count = Some 0)) as [->|Hc]; [done|].
  destruct (pending_query final_from (λ lo before k rest, final_after_select _ lo before k rest) start_key count Hc)
    as [Hp Hl].
  rewrite (scan_loop_spec _ _ _ _ final_from Hq (λ lo before k rest, final_after_select _ lo before k rest)
    _ _ _ _ (final_from start_key) []); [done| |done|done|by apply collecting_start].
  unfold scan_rounds. rewrite Hq. cbn. lia.
Qed.

(** ** The scan *)

Lemma entry_after_reset e older reset absolute :
  reset_of older reset absolute →
  match reset with
  | ResetNone => entry_after e older = e
  | ResetSet => ∃ v, entry_after e older = Some v ∧ absolute = Some (le_datastore v)
  | ResetDelete => entry_after e older = None ∧ absolute = None
  end.
Proof using.
  unfold entry_after. destruct reset; cbn.
  - by intros [-> _].
  - intros (o & c & v & -> & Hc & ->). exists v. rewrite foldl_app. cbn. by rewrite Hc.
  - intros (o & c & -> & Hc & ->). rewrite foldl_app. cbn. by rewrite Hc.
Qed.

(** The first answer is for the entry in the final ledger, the second for the entry
    after the layers. *)
Lemma scan_datastore_spec L h (added : option LedgerChanges) :
  keys_law L →
  let ls := (changes_of <$> h) ++ match added with Some c => [c] | None => [] end in
  ∃ r, scan_datastore addr prefix start_key end_key count h added = Ok (keys_of (L !! addr), r)
       ∧ answers (anchored_at (L !! addr) ls) r (entry_after (L !! addr) ls).
Proof using.
  intros HL ls. unfold scan_datastore. fold key_range.
  change ((λ o, ledger_changes (state_changes o)) <$> h) with (changes_of <$> h). fold ls. clearbody ls.
  rewrite (HL addr start_key count).
  assert (list_to_set <$> ((λ t, first count (sorted_keys (select start_key (le_datastore t)))) <$> L !! addr)
          = keys_of (L !! addr)) as -> by (by destruct (L !! addr)).
  destruct (find_reset_spec ls []) as (older & newer & reset & absolute & -> & Hn & Hr & ->).
  rewrite app_nil_r, aggregate_spec. cbn [mbind outcome_bind].
  pose proof (entry_after_reset (L !! addr) _ _ _ Hr) as He.
  assert (entry_after (L !! addr) (older ++ newer) = entry_after (entry_after (L !! addr) older) newer) as ->
    by (unfold entry_after; by rewrite foldl_app).
  pose proof (λ H, proj2 (proj1 (anchored_at_app (L !! addr) older newer) H)) as Hanch.
  set (anch := anchored_at (L !! addr) (older ++ newer)) in *. clearbody anch.
  destruct reset.
  - rewrite He in *. clear He. case_decide as Hkm.
    { exists (keys_of (L !! addr)). split; [done|]. apply answers_keys_of.
      - by rewrite entry_keys_merge, Hkm, sorted_entries_empty, merge_all_nil.
      - intros Ha%Hanch. destruct (L !! addr) as [t|]; [pose proof (entry_after_some t newer Hn); naive_solver|].
        by rewrite (proj1 (entry_after_none newer Hn Ha)). }
    destruct (L !! addr) as [t|] eqn:Ht; cbn [fmap option_fmap option_map].
    + change (sorted_keys (select start_key (le_datastore t))) with (entry_keys (Some t)).
      rewrite (scan_final_spec L) by done. eexists. split; [done|]. apply answers_some; [done|].
      intros _. by apply entry_after_some.
    + eexists. split; [done|]. apply answers_some.
      * rewrite entry_keys_merge, entry_keys_none, omap_set_keys by done. by destruct count.
      * intros Ha%Hanch. by destruct (entry_after_none newer Hn Ha) as (_ & ? & _).
  - destruct He as (v & -> & ->). change (Some (le_datastore v)) with (le_datastore <$> Some v).
    rewrite merge_set_case_keys_spec by done. eexists. split; [done|]. apply answers_some; [done|].
    intros _. by apply entry_after_some.
  - destruct He as [He ->]. rewrite He in *. case_decide as Hi.
    + exists None. split; [done|]. apply answers_none.
      * by rewrite entry_keys_merge, (hit_indices_nil _ _ Hi), sorted_entries_empty, merge_all_nil, entry_keys_none.
      * intros Ha%Hanch. by destruct (entry_after_none newer Hn Ha).
    + change (@None Datastore) with (le_datastore <$> None).
      rewrite merge_set_case_keys_spec by done. eexists. split; [done|]. apply answers_some; [done|].
      intros Ha%Hanch. destruct (entry_after_none newer Hn Ha) as (_ & _ & Hh). by rewrite Hh in Hi.
Qed.
End scan.
