(* ===== verification/LedgerCorrect.v ===== *)
(** * The ledger of execution

    What the speculative ledger guarantees: it stands for one ledger, its operations
    do to it what they mean to, coins are conserved, and neither the history nor
    finality can be seen from it. *)

From S2P Require Import Prelude Slots OrdMap Keys KeyFacts Models Ledger History SpecLedger.
From S2P Require Import LedgerView SpecLedgerFacts LedgerRefine DatastoreScan ScanCorrect.

Open Scope N_scope.

(** ** A final ledger held in a map *)

Section map_ledger.
Context (L : gmap Address LedgerEntry).

Definition map_ledger : LedgerController := {|
  final_balance addr := le_balance <$> L !! addr;
  final_bytecode addr := le_bytecode <$> L !! addr;
  final_exists addr := bool_decide (is_Some (L !! addr));
  final_data_entry addr key := L !! addr ≫= λ t, le_datastore t !! key;
  final_datastore_keys addr prefix lo hi n :=
    (λ t, first n (sorted_keys (select prefix hi lo (le_datastore t)))) <$> L !! addr |}.

Lemma map_ledger_laws : @ledger_laws map_ledger L.
Proof. by split. Qed.
Lemma map_ledger_keys prefix end_key : @keys_law map_ledger prefix end_key L.
Proof. done. Qed.
End map_ledger.

(** ** Sequences of operations *)

Section correct.
Context {final : LedgerController} `{!SetIter Key} `{!SetIter Address}.
Implicit Types (L : gmap Address LedgerEntry) (l : SpeculativeLedger) (o : ExecutionOutput) (h : ActiveHistory).

(** The coins that an operation is meant to create and to destroy. *)
Definition created (op : LedgerOp) : N :=
  match op with OpTransfer None (Some _) amount => amount | _ => 0 end.
Definition destroyed (op : LedgerOp) : N :=
  match op with OpTransfer (Some _) None amount => amount | _ => 0 end.

(** Operations one after the other, each from the state the last one left, with the
    coins that those that succeed create and destroy. *)
Fixpoint run_ops l (ops : list LedgerOp) : SpeculativeLedger * N * N :=
  match ops with
  | [] => (l, 0, 0)
  | op :: ops =>
      match run_op l op with
      | Ok l' => let '(l', c, d) := run_ops l' ops in (l', created op + c, destroyed op + d)
      | Err (_, l') => run_ops l' ops
      | _ => (l, 0, 0)
      end
  end.

Lemma set_added_twice c c' l : set_added c (set_added c' l) = set_added c l.
Proof using. done. Qed.
Lemma set_added_same l : set_added (added_changes l) l = l.
Proof using. by destruct l. Qed.

Lemma abs_op_coins l op V V' :
  abs_op l op V = Some V' →
  total_coins (storage_costs_constants l) V' + destroyed op
  = total_coins (storage_costs_constants l) V + created op.
Proof using.
  destruct op as [from to amount|creator addr code|caller addr code|caller addr key value|caller addr key];
    cbn [abs_op created destroyed]; intros Hop.
  - apply transfer_coins_conserve in Hop. destruct from, to; cbn in *; lia.
  - apply create_coins in Hop. lia.
  - apply set_bytecode_coins in Hop. lia.
  - apply set_data_coins in Hop. lia.
  - apply delete_data_coins in Hop. lia.
Qed.

Lemma run_ops_spec L l ops :
  ledger_ok L l →
  let '(l', c, d) := run_ops l ops in
  ledger_ok L l' ∧ (∃ changes, l' = set_added changes l)
  ∧ total_coins (storage_costs_constants l) (spec_view L l') + d
    = total_coins (storage_costs_constants l) (spec_view L l) + c.
Proof using.
  revert l. induction ops as [|op ops IH]; intros l Hok; cbn [run_ops].
  { split; [done|]. split; [exists (added_changes l); by rewrite set_added_same|lia]. }
  pose proof (op_refines L l op Hok) as Hr. unfold refines in Hr.
  destruct (run_op l op) as [l1|[e l1]|w|] eqn:Hop; [| |done..].
  - destruct (abs_op l op (spec_view L l)) as [V'|] eqn:Ha; [|done].
    destruct Hr as (Hok1 & Hv & c1 & ->). apply abs_op_coins in Ha. specialize (IH _ Hok1).
    destruct (run_ops (set_added c1 l) ops) as [[l2 c] d]. destruct IH as (Hok2 & [c2 ->] & Hc).
    split; [done|]. split; [by exists c2|]. rewrite Hv in Hc. cbn in Hc |- *. lia.
  - destruct (abs_op l op (spec_view L l)); [done|]. subst l1. by apply IH.
Qed.

(** ** Layers *)

(** The ledger over another history, with the changes it has. *)
Definition with_history h l : SpeculativeLedger :=
  MkSpeculativeLedger h (added_changes l) (max_datastore_key_length l) (max_datastore_value_size l)
    (max_bytecode_size l) (storage_costs_constants l).
(** The ledger of the next execution: the output of this one ends the history. *)
Definition pushed o l : SpeculativeLedger :=
  new_ledger (active_history l ++ [o]) (max_datastore_key_length l) (max_bytecode_size l)
    (max_datastore_value_size l) (storage_costs_constants l).

Lemma pushed_ok L l o :
  ledger_ok L l → changes_of o = added_changes l →
  ledger_ok L (pushed o l) ∧ spec_view L (pushed o l) = spec_view L l.
Proof using.
  intros [Hl Hh Ha] Ho. split; [split|].
  - done.
  - apply history_anchored_app. split; [done|]. cbn. by rewrite Ho.
  - intros addr u. cbn. by rewrite lookup_empty.
  - unfold spec_view, pushed, new_ledger. cbn [active_history added_changes].
    rewrite apply_to_ledger_empty, history_view_app. unfold history_view at 1. cbn. by rewrite Ho.
Qed.

Lemma finalized_ok (final' : LedgerController) L l o h :
  @ledger_ok final _ L l → active_history l = o :: h → @ledger_laws final' (apply_to_ledger L (changes_of o)) →
  @ledger_ok final' _ (apply_to_ledger L (changes_of o)) (with_history h l)
  ∧ spec_view (apply_to_ledger L (changes_of o)) (with_history h l) = spec_view L l.
Proof using.
  intros [Hl Hh Ha] Ho Hl'. unfold spec_view. rewrite Ho in *. destruct Hh as [_ Hh]. by split.
Qed.

Lemma entry_after_view L l addr :
  entry_after addr (L !! addr) ((changes_of <$> active_history l) ++ [added_changes l]) = spec_view L l !! addr.
Proof using.
  unfold entry_after, spec_view, history_view. rewrite foldl_app, lookup_apply_to_ledger. cbn. f_equal.
  generalize (changes_of <$> active_history l). intros ls. revert L.
  induction ls as [|c ls IH]; intros L; [done|]. cbn. by rewrite <- IH, lookup_apply_to_ledger.
Qed.
Lemma anchored_at_ok L l addr :
  ledger_ok L l → anchored_at addr (L !! addr) ((changes_of <$> active_history l) ++ [added_changes l]).
Proof using.
  intros [_ Hh Ha]. unfold history_view in Ha. revert L Hh Ha.
  induction (active_history l) as [|o h IH]; intros L Hh Ha; cbn in *.
  - split; [|done]. intros u Hu. by eapply Ha.
  - destruct Hh as [Ho Hh]. split; [intros u Hu; by eapply Ho|]. rewrite <- lookup_apply_to_ledger. by apply IH.
Qed.

(** ** Properties *)

(** C6. The speculative ledger stands for one ledger, the final ledger with the
    changes of the executed slots and of the current execution applied: every read
    returns what that ledger holds, and a transfer, the creation of a contract, the
    setting of a bytecode, and the setting and deletion of a datastore entry each
    do to it what the operation of the same name on a plain map of entries does,
    with its storage costs, or fail exactly when it is not possible and then leave
    the ledger as it was. *)
Theorem speculative_ledger_refines L l (Hok : ledger_ok L l) :
  (∀ addr, get_balance l addr = le_balance <$> spec_view L l !! addr)
  ∧ (∀ addr, get_bytecode l addr = le_bytecode <$> spec_view L l !! addr)
  ∧ (∀ addr, entry_exists l addr = bool_decide (is_Some (spec_view L l !! addr)))
  ∧ (∀ addr key, get_data_entry l addr key = spec_view L l !! addr ≫= λ t, le_datastore t !! key)
  ∧ (∀ addr key, has_data_entry l addr key = bool_decide (is_Some (get_data_entry l addr key)))
  ∧ ∀ op, refines L l (run_op l op) (abs_op l op (spec_view L l)).
Proof using.
  repeat split; intros.
  - by apply get_balance_spec.
  - by apply get_bytecode_spec.
  - by apply entry_exists_spec.
  - by apply get_data_entry_spec.
  - apply has_data_entry_spec.
  - by apply op_refines.
Qed.

(** C7. Coins are neither lost nor created: over any sequence of operations, failing
    ones included, the coins of the ledger, held as balances or locked for storage,
    change by what transfers from nowhere create and transfers to nowhere
    destroy. *)
Theorem ledger_conserves_coins L l ops (Hok : ledger_ok L l) :
  let '(l', c, d) := run_ops l ops in
  total_coins (storage_costs_constants l) (spec_view L l') + d
  = total_coins (storage_costs_constants l) (spec_view L l) + c.
Proof using.
  pose proof (run_ops_spec L l ops Hok) as Hs. destruct (run_ops l ops) as [[l' c] d]. apply Hs.
Qed.

(** Execution does not see where changes are kept.  Going back to a snapshot
    undoes any sequence of operations; a ledger over a history that ends with the
    changes taken from another stands for the same ledger; and when the final
    ledger takes the changes of the oldest executed slot, which leaves the history,
    every read returns what it did. *)
Theorem ledger_layers_transparent L l ops (Hok : ledger_ok L l) :
  let '(l', _, _) := run_ops l ops in
  reset_to_snapshot l' (get_snapshot l) = l
  ∧ (∀ o, changes_of o = (take_changes l').1 →
       ledger_ok L (pushed o l') ∧ spec_view L (pushed o l') = spec_view L l')
  ∧ ∀ o h (final' : LedgerController),
      active_history l' = o :: h → @ledger_laws final' (apply_to_ledger L (changes_of o)) →
      @ledger_ok final' _ (apply_to_ledger L (changes_of o)) (with_history h l')
      ∧ (∀ addr, @get_balance final' (with_history h l') addr = @get_balance final l' addr)
      ∧ (∀ addr, @get_bytecode final' (with_history h l') addr = @get_bytecode final l' addr)
      ∧ (∀ addr, @entry_exists final' (with_history h l') addr = @entry_exists final l' addr)
      ∧ ∀ addr key, @get_data_entry final' (with_history h l') addr key = @get_data_entry final l' addr key.
Proof using.
  pose proof (run_ops_spec L l ops Hok) as Hs. destruct (run_ops l ops) as [[l' c] d].
  destruct Hs as (Hok' & [changes ->] & _). split; [|split].
  - unfold reset_to_snapshot, get_snapshot. rewrite set_added_twice. apply set_added_same.
  - intros o Ho. by apply pushed_ok.
  - intros o h final' Hh Hl'. destruct (finalized_ok final' L _ o h Hok' Hh Hl') as [Hf Hv].
    split; [done|]. repeat split; intros.
    + by rewrite (get_balance_spec _ _ Hok'), (get_balance_spec _ _ Hf), Hv.
    + by rewrite (get_bytecode_spec _ _ Hok'), (get_bytecode_spec _ _ Hf), Hv.
    + by rewrite (entry_exists_spec _ _ Hok'), (entry_exists_spec _ _ Hf), Hv.
    + by rewrite (get_data_entry_spec _ _ Hok'), (get_data_entry_spec _ _ Hf), Hv.
Qed.

(** C23. The keys of a datastore are listed exactly: the scan, which reads the final
    ledger in batches and merges the updates of the executed slots and of the
    current execution, terminates without panic and returns the first keys, in
    lexicographic order, among those that have the prefix, lie in the range and
    are in the datastore of the address, in the final ledger and in the ledger that
    execution sees, and tells apart an address that does not exist.  A query from
    outside is first cleaned of keys too long to exist, which leaves the keys it
    selects as they are and bounds their number. *)
Theorem datastore_scan_exact L l addr prefix start_key end_key count
    (Hok : ledger_ok L l) (Hkeys : keys_law prefix end_key L) :
  scan_datastore addr prefix start_key end_key count (active_history l) (Some (added_changes l))
  = Ok (keys_of prefix start_key end_key count (L !! addr),
        keys_of prefix start_key end_key count (spec_view L l !! addr))
  ∧ get_keys l addr prefix start_key end_key count
    = Ok (keys_of prefix start_key end_key count (spec_view L l !! addr))
  ∧ (∀ t, ∃ keys, keys_of prefix start_key end_key count (Some t) = Some (list_to_set (first count keys))
          ∧ StronglySorted cmp_lt keys
          ∧ ∀ k, is_bytes prefix → is_bytes k →
              k ∈ keys ↔ is_Some (le_datastore t !! k) ∧ prefix `prefix_of` k ∧ in_range (start_key, end_key) k = true)
  ∧ ∀ max cfg prefix' lo hi n k,
      cleanup_datastore_key_range_query prefix start_key end_key count max cfg = Ok (prefix', lo, hi, n) →
      (length k <= N.to_nat max)%nat →
      (prefix' `prefix_of` k ∧ in_range (lo, hi) k = true
       ↔ prefix `prefix_of` k ∧ in_range (start_key, end_key) k = true)
      ∧ n = match count with Some _ => count | None => cfg end
      ∧ ∀ n' m, n = Some n' → cfg = Some m → n' ≤ m.
Proof using.
  destruct (scan_datastore_spec addr prefix start_key end_key count L (active_history l) (Some (added_changes l)) Hkeys)
    as (r & Hscan & _ & Hr).
  rewrite entry_after_view in Hr. rewrite Hr in Hscan by (by apply anchored_at_ok). split; [done|]. split.
  { unfold get_keys. by rewrite Hscan. }
  split; [|intros max cfg prefix' lo hi n k; apply cleanup_query_spec].
  intros t. exists (entry_keys prefix start_key end_key (Some t)). split; [done|].
    split; [apply sorted_sorted_keys|]. intros k Hp Hk. rewrite elem_of_entry_keys, elem_of_dom. cbn.
    unfold selected. rewrite andb_true_iff, get_prefix_bounds_spec by done. tauto.
Qed.
End correct.

(** ** A small ledger *)

Module Example.

#[local] Instance iter {K} `{Countable K} : SetIter K := elements_iter.

Definition alice : Address := User (UserAddressV0 0).
Definition bob : Address := User (UserAddressV0 1).
Definition contract : Address := SC (SCAddressV0 0).

(** Alice has coins and three datastore entries. *)
Definition ledger : gmap Address LedgerEntry :=
  {[alice := MkLedgerEntry 1000 [] {[ [1] := [7]; [1; 2] := [8]; [2] := [9] ]}]}.
#[local] Instance final : LedgerController := map_ledger ledger.

(** An executed slot deleted one of them and set another. *)
Definition executed : ExecutionOutput :=
  MkExecutionOutput (MkSlot 1 0)
    (MkStateChanges {[alice := SUD_Update (MkLedgerEntryUpdate SOK_Keep SOK_Keep
                                 {[ [1; 2] := SOD_Delete; [1; 3] := SOD_Set [5] ]})]} ∅ ∅ ∅ ∅ SOK_Keep).
Definition spec : SpeculativeLedger :=
  new_ledger [executed] 255 1000 1000 (MkStorageCostsConstants 1 10 5).

Lemma spec_ok : ledger_ok ledger spec.
Proof.
  split; [apply map_ledger_laws| |].
  - split; [|done]. intros addr u Hu. cbn in Hu. apply lookup_singleton_Some in Hu as [<- _]. by eexists.
  - intros addr u. cbn. by rewrite lookup_empty.
Qed.

(** Bob is created with coins of Alice, Alice creates a contract and writes to its
    datastore; bob can not pay for a larger bytecode; coins are then destroyed. *)
Definition ops : list LedgerOp :=
  [ OpTransfer (Some alice) (Some bob) 100; OpCreate alice contract [1; 2; 3]; OpSetData alice contract [4] [5; 6];
    OpSetBytecode bob contract (repeat 0 500); OpDeleteData alice alice [2]; OpTransfer (Some bob) None 40;
    OpTransfer None (Some alice) 7 ].

Lemma speculative_ledger_refines_witness :
  get_balance spec alice = Some 1000
  ∧ get_data_entry spec alice [1; 3] = Some [5]
  ∧ refines ledger spec (run_op spec (OpTransfer (Some alice) (Some bob) 100))
      (Some (<[bob := MkLedgerEntry 90 [] ∅]> (<[alice := with_balance (default default_value (spec_view ledger spec !! alice)) 900]>
         (spec_view ledger spec)))).
Proof.
  destruct (speculative_ledger_refines ledger spec spec_ok) as (Hb & _ & _ & Hd & _ & Hop).
  split; [rewrite Hb; reflexivity|]. split; [rewrite Hd; reflexivity|].
  exact (Hop (OpTransfer (Some alice) (Some bob) 100)).
Defined.

Lemma ledger_conserves_coins_witness :
  let '(l', c, d) := run_ops spec ops in
  total_coins (storage_costs_constants spec) (spec_view ledger l') + d
  = total_coins (storage_costs_constants spec) (spec_view ledger spec) + c ∧ c = 7 ∧ d = 40.
Proof.
  pose proof (ledger_conserves_coins ledger spec ops spec_ok) as H.
  destruct (run_ops spec ops) as [[l' c] d] eqn:Hr. split; [exact H|].
  assert ((run_ops spec ops).1.2 = 7 ∧ (run_ops spec ops).2 = 40) as Hcd by (vm_compute; split; reflexivity).
  rewrite Hr in Hcd. exact Hcd.
Defined.

Lemma ledger_layers_transparent_witness :
  let l' := (run_ops spec ops).1.1 in
  reset_to_snapshot l' (get_snapshot spec) = spec
  ∧ ∀ addr, @get_balance (map_ledger (apply_to_ledger ledger (changes_of executed))) (with_history [] l') addr
            = get_balance l' addr.
Proof.
  pose proof (ledger_layers_transparent ledger spec ops spec_ok) as H.
  assert (active_history (run_ops spec ops).1.1 = [executed]) as Hh by (vm_compute; reflexivity).
  destruct (run_ops spec ops) as [[l' c] d]. destruct H as (Hs & _ & Hf). cbn [fst] in *. split; [exact Hs|].
  exact (proj1 (proj2 (Hf executed [] (map_ledger _) Hh (map_ledger_laws _)))).
Defined.

(** The first two keys with the prefix [1], of which one was deleted in the
    history and replaced by another. *)
Lemma datastore_scan_exact_witness :
  scan_datastore alice [1] Unbounded Unbounded (Some 2) (active_history spec) (Some (added_changes spec))
  = Ok (Some {[ [1]; [1; 2] ]}, Some {[ [1]; [1; 3] ]}).
Proof.
  destruct (datastore_scan_exact ledger spec alice [1] Unbounded Unbounded (Some 2) spec_ok
    (map_ledger_keys ledger [1] Unbounded)) as (H & _).
  rewrite H. vm_compute. reflexivity.
Defined.
End Example.
