(* ===== verification/Storage.v ===== *)
(** * Shared object storage

    [massa-storage]: objects (blocks, operations, endorsements) shared by the
    modules of the node and reference-counted by [Storage] instances.  The
    global indexes and owner counters behind the [Arc<RwLock<_>>] fields are one
    explicit value [Shared]; a [Storage] is the sets of references one instance
    holds. *)

From S2P Require Import Prelude Slots Models.

Open Scope N_scope.

(** ** Secondary indexes *)

Section index.
Context {A K : Type} `{Countable A, Countable K}.

(** [index.entry(a).or_default().insert(id)] *)
Definition index_insert (a : A) (k : K) (idx : gmap A (gset K)) : gmap A (gset K) :=
  <[a := default ∅ (idx !! a) ∪ {[k]}]> idx.

(** [if let Occupied(occ) = index.entry(a)]: remove [id] from the set, and the
    entry with it when the set becomes empty. *)
Definition index_remove (a : A) (k : K) (idx : gmap A (gset K)) : gmap A (gset K) :=
  match idx !! a with
  | Some s => if decide (s ∖ {[k]} = ∅) then delete a idx else <[a := s ∖ {[k]}]> idx
  | None => idx
  end.
End index.

(** ** The block index *)

Record BlockIndexes : Type := MkBlockIndexes {
  bi_blocks : gmap BlockId SecureShareBlock;
  bi_index_by_creator : gmap Address (gset BlockId);
  bi_index_by_slot : gmap Slot (gset BlockId);
  bi_index_by_op : gmap OperationId (gset BlockId);
  bi_index_by_endorsement : gmap EndorsementId (gset BlockId) }.

Definition block_slot (b : SecureShareBlock) : Slot := header_slot (header (content b)).
Definition block_endorsement_ids (b : SecureShareBlock) : list EndorsementId :=
  id <$> endorsements (content (header (content b))).

Module BlockIndex.

Definition insert (b : SecureShareBlock) (ix : BlockIndexes) : BlockIndexes :=
  match bi_blocks ix !! id b with
  | Some _ => ix
  | None =>
      MkBlockIndexes
        (<[id b := b]> (bi_blocks ix))
        (index_insert (content_creator_address b) (id b) (bi_index_by_creator ix))
        (index_insert (block_slot b) (id b) (bi_index_by_slot ix))
        (foldl (λ m op, index_insert op (id b) m) (bi_index_by_op ix) (operations (content b)))
        (foldl (λ m ed, index_insert ed (id b) m) (bi_index_by_endorsement ix)
           (block_endorsement_ids b))
  end.

Definition remove (block_id : BlockId) (ix : BlockIndexes) : BlockIndexes :=
  match bi_blocks ix !! block_id with
  | None => ix
  | Some b =>
      MkBlockIndexes
        (delete block_id (bi_blocks ix))
        (index_remove (content_creator_address b) (id b) (bi_index_by_creator ix))
        (index_remove (block_slot b) (id b) (bi_index_by_slot ix))
        (foldl (λ m op, index_remove op (id b) m) (bi_index_by_op ix) (operations (content b)))
        (foldl (λ m ed, index_remove ed (id b) m) (bi_index_by_endorsement ix)
           (block_endorsement_ids b))
  end.

Definition get (ix : BlockIndexes) (block_id : BlockId) : option SecureShareBlock :=
  bi_blocks ix !! block_id.

Definition contains (ix : BlockIndexes) (block_id : BlockId) : bool :=
  bool_decide (is_Some (bi_blocks ix !! block_id)).

Definition get_blocks_created_by (ix : BlockIndexes) (a : Address) : option (gset BlockId) :=
  bi_index_by_creator ix !! a.
Definition get_blocks_by_slot (ix : BlockIndexes) (s : Slot) : option (gset BlockId) :=
  bi_index_by_slot ix !! s.
Definition get_blocks_by_operation (ix : BlockIndexes) (o : OperationId)
    : option (gset BlockId) :=
  bi_index_by_op ix !! o.
Definition get_blocks_by_endorsement (ix : BlockIndexes) (e : EndorsementId)
    : option (gset BlockId) :=
  bi_index_by_endorsement ix !! e.

(** [range] holds of the slots of the range argument. *)
Definition aggregate_blocks_by_slot_range (ix : BlockIndexes) (range : Slot → bool)
    : gset BlockId :=
  map_fold (λ s v acc, if range s then acc ∪ v else acc) ∅ (bi_index_by_slot ix).

End BlockIndex.

(** One [Storage] instance: the references it owns. *)
Record Storage : Type := MkStorage {
  local_used_blocks : gset BlockId;
  local_used_ops : gset OperationId;
  local_used_endorsements : gset EndorsementId }.
