(* ===== verification/StorageRefs.v ===== *)
(** * Reference counting in the shared storage

    [massa-storage/src/lib.rs], [operation_indexes.rs] and
    [endorsement_indexes.rs].  The code writes every method three times, for
    blocks, operations and endorsements; here a method is written once over the
    interface [ObjectIndex] of the index it works on, and instantiated three
    times.

    The [Arc<RwLock<_>>] fields shared by all instances are the value [Shared];
    a [World] is that value with the instances that are alive, and [run_op] is
    one call on them.  A call holds the locks it needs for its whole duration,
    so that calls of several threads are sequences of these steps.

    The last part says what calls leave of the stored objects. *)

From S2P Require Import Prelude Slots Models Storage.

Open Scope N_scope.

(** ** Operations and the indexes of operations and endorsements *)

(** The first 17 bytes of the hash. *)
Definition OperationPrefixId : Type := list N.
Definition prefix (o : OperationId) : OperationPrefixId :=
  match o with OperationIdV0 h => take 17 (to_be_bytes 32 h) end.

Record OperationIndexes : Type := MkOperationIndexes {
  oi_operations : gmap OperationId SecureShareOperation;
  oi_index_by_creator : gmap Address (gset OperationId);
  oi_index_by_prefix : gmap OperationPrefixId (gset OperationId) }.

Module OperationIndex.
Definition insert (o : SecureShareOperation) (ix : OperationIndexes) : OperationIndexes :=
  match oi_operations ix !! id o with
  | Some _ => ix
  | None =>
      MkOperationIndexes (<[id o := o]> (oi_operations ix))
        (index_insert (content_creator_address o) (id o) (oi_index_by_creator ix))
        (index_insert (prefix (id o)) (id o) (oi_index_by_prefix ix))
  end.
Definition remove (operation_id : OperationId) (ix : OperationIndexes) : OperationIndexes :=
  match oi_operations ix !! operation_id with
  | None => ix
  | Some o =>
      MkOperationIndexes (delete operation_id (oi_operations ix))
        (index_remove (content_creator_address o) (id o) (oi_index_by_creator ix))
        (index_remove (prefix (id o)) (id o) (oi_index_by_prefix ix))
  end.
Definition get (ix : OperationIndexes) (k : OperationId) : option SecureShareOperation :=
  oi_operations ix !! k.
Definition get_operations_created_by (ix : OperationIndexes) (a : Address)
    : option (gset OperationId) :=
  oi_index_by_creator ix !! a.
Definition get_operations_by_prefix (ix : OperationIndexes) (p : OperationPrefixId)
    : option (gset OperationId) :=
  oi_index_by_prefix ix !! p.
End OperationIndex.

Record EndorsementIndexes : Type := MkEndorsementIndexes {
  ei_endorsements : gmap EndorsementId SecureShareEndorsement;
  ei_index_by_creator : gmap Address (gset EndorsementId) }.

Module EndorsementIndex.
Definition insert (e : SecureShareEndorsement) (ix : EndorsementIndexes) : EndorsementIndexes :=
  match ei_endorsements ix !! id e with
  | Some _ => ix
  | None =>
      MkEndorsementIndexes (<[id e := e]> (ei_endorsements ix))
        (index_insert (content_creator_address e) (id e) (ei_index_by_creator ix))
  end.
Definition remove (endorsement_id : EndorsementId) (ix : EndorsementIndexes)
    : EndorsementIndexes :=
  match ei_endorsements ix !! endorsement_id with
  | None => ix
  | Some e =>
      MkEndorsementIndexes (delete endorsement_id (ei_endorsements ix))
        (index_remove (content_creator_address e) (id e) (ei_index_by_creator ix))
  end.
Definition get (ix : EndorsementIndexes) (k : EndorsementId) : option SecureShareEndorsement :=
  ei_endorsements ix !! k.
Definition get_endorsements_created_by (ix : EndorsementIndexes) (a : Address)
    : option (gset EndorsementId) :=
  ei_index_by_creator ix !! a.
End EndorsementIndex.

(** ** The interface of an index *)

(** An index of signed objects by id, with the well-formedness the laws need. *)
Class ObjectIndex (Id T Ix : Type) := {
  ix_empty : Ix;
  ix_insert : SecureShare T Id → Ix → Ix;
  ix_remove : Id → Ix → Ix;
  ix_get : Ix → Id → option (SecureShare T Id);
  ix_ok : Ix → Prop }.

Class ObjectIndexLaws (Id T Ix : Type) `{Countable Id, !ObjectIndex Id T Ix} : Prop := {
  ix_empty_ok : ix_ok ix_empty;
  ix_get_empty k : ix_get ix_empty k = None;
  ix_insert_ok o ix : ix_ok ix → ix_ok (ix_insert o ix);
  ix_get_insert o ix k : ix_get (ix_insert o ix) k
    = if decide (k = id o ∧ ix_get ix k = None) then Some o else ix_get ix k;
  ix_remove_ok k ix : ix_ok ix → ix_ok (ix_remove k ix);
  ix_get_remove k ix k' : ix_get (ix_remove k ix) k'
    = if decide (k' = k) then None else ix_get ix k' }.

(** ** Methods on one kind of objects *)

Section refs.
Context {Id : Type} `{Countable Id, !SetIter Id}.
Implicit Types (ids l : gset Id) (owners : gmap Id N).

(** [if local_used_ids.insert(id) { owners.entry(id).and_modify(|v| *v += 1).or_insert(1) }] *)
Definition claim_ref (acc : gmap Id N * gset Id) (k : Id) : gmap Id N * gset Id :=
  let '(owners, l) := acc in
  if decide (k ∈ l) then acc
  else (<[k := match owners !! k with Some v => wrapping_add u64_max v 1 | None => 1 end]> owners,
        l ∪ {[k]}).
Definition internal_claim_refs ids owners l : gmap Id N * gset Id :=
  foldl claim_ref (owners, l) (set_iter ids).

Definition drop_ref {E} (acc : list Id * gmap Id N * gset Id) (k : Id)
    : outcome E (list Id * gmap Id N * gset Id) :=
  let '(orphaned, owners, l) := acc in
  if decide (k ∈ l) then
    match owners !! k with
    | None => Panic "missing object in storage on storage object reference drop"
    | Some cnt =>
        if cnt =? 0 then Panic "less than 1 owner on storage object reference drop"
        else if cnt - 1 =? 0 then Ok (orphaned ++ [k], delete k owners, l ∖ {[k]})
        else Ok (orphaned, <[k := cnt - 1]> owners, l ∖ {[k]})
    end
  else Ok acc.
Definition internal_drop_refs {E} ids owners l : outcome E (list Id * gmap Id N * gset Id) :=
  foldM drop_ref (set_iter ids) ([], owners, l).
End refs.

(** One kind of objects: the index and the counters of its owners. *)
Record Pool (Id Ix : Type) `{Countable Id} : Type := MkPool {
  p_index : Ix;
  p_owners : gmap Id N }.
Arguments MkPool {_ _ _ _} _ _.
Arguments p_index {_ _ _ _} _.
Arguments p_owners {_ _ _ _} _.

Section pool.
Context {Id T Ix : Type} `{Countable Id, !SetIter Id, !ObjectIndex Id T Ix}.
Implicit Types (ids l : gset Id) (p : Pool Id Ix).

(** [internal_claim_refs] on the owners of the pool. *)
Definition pool_claim ids p l : Pool Id Ix * gset Id :=
  let '(owners, l) := internal_claim_refs ids (p_owners p) l in (MkPool (p_index p) owners, l).

(** [claim_*_refs]: only the objects that have an owner. *)
Definition claim_refs ids p l : gset Id * Pool Id Ix * gset Id :=
  if decide (ids = ∅) then (∅, p, l)
  else
    let claimed := filter (λ k, is_Some (p_owners p !! k)) ids in
    let '(p, l) := pool_claim claimed p l in (claimed, p, l).

(** [internal_drop_refs], then the orphaned objects leave the index. *)
Definition pool_drop {E} ids p l : outcome E (Pool Id Ix * gset Id) :=
  '(orphaned_ids, owners, l) ← internal_drop_refs ids (p_owners p) l;
  Ok (MkPool (foldl (λ ix k, ix_remove k ix) (p_index p) orphaned_ids) owners, l).

(** [drop_*_refs] *)
Definition drop_refs {E} ids p l : outcome E (Pool Id Ix * gset Id) :=
  if decide (ids = ∅) then Ok (p, l) else pool_drop ids p l.

(** [store_block], [store_operations], [store_endorsements] *)
Definition store_objects (objects : list (SecureShare T Id)) p l : Pool Id Ix * gset Id :=
  if decide (objects = []) then (p, l)
  else
    pool_claim (list_to_set (id <$> objects))
      (MkPool (foldl (λ ix o, ix_insert o ix) (p_index p) objects) (p_owners p)) l.

(** One of the three blocks of [replace_with]: [other] is the set to copy. *)
Definition replace_refs {E} (other : gset Id) p l : outcome E (Pool Id Ix * gset Id) :=
  '(p, l') ← pool_drop (l ∖ other) p l;
  Ok (pool_claim (other ∖ l) p l').

(** [other.retain(|id| !self.insert( *id))]: the new set of the receiver, and what
    the other one still owns when it is dropped. *)
Definition extend_refs (l other : gset Id) : gset Id * gset Id := (l ∪ other, other ∩ l).

(** [blocks.iter().map(|id| self.local.take(id).expect(..)).collect()] *)
Definition split_refs {E} (why : string) ids l : outcome E (gset Id * gset Id) :=
  foldM (λ '(l, res) k,
      if decide (k ∈ l) then Ok (l ∖ {[k]}, res ∪ {[k]}) else Panic why)
    (set_iter ids) (l, ∅).
End pool.

(** ** The instances of the interface *)

(** A secondary index lists, under a key, exactly the objects that have the key,
    and no empty set. *)
Definition index_coherent {K Id T : Type} `{Countable K, Countable Id} (keys : T → list K)
    (objects : gmap Id T) (index : gmap K (gset Id)) : Prop :=
  (∀ a k, k ∈ default ∅ (index !! a) ↔ ∃ o, objects !! k = Some o ∧ a ∈ keys o)
  ∧ ∀ a, index !! a ≠ Some ∅.

Definition block_index_ok (ix : BlockIndexes) : Prop :=
  map_Forall (λ k b, id b = k) (bi_blocks ix)
  ∧ index_coherent (λ b, [content_creator_address b]) (bi_blocks ix) (bi_index_by_creator ix)
  ∧ index_coherent (λ b, [block_slot b]) (bi_blocks ix) (bi_index_by_slot ix)
  ∧ index_coherent (λ b, operations (content b)) (bi_blocks ix) (bi_index_by_op ix)
  ∧ index_coherent block_endorsement_ids (bi_blocks ix) (bi_index_by_endorsement ix).
Definition operation_index_ok (ix : OperationIndexes) : Prop :=
  map_Forall (λ k o, id o = k) (oi_operations ix)
  ∧ index_coherent (λ o, [content_creator_address o]) (oi_operations ix) (oi_index_by_creator ix)
  ∧ index_coherent (λ o, [prefix (id o)]) (oi_operations ix) (oi_index_by_prefix ix).
Definition endorsement_index_ok (ix : EndorsementIndexes) : Prop :=
  map_Forall (λ k e, id e = k) (ei_endorsements ix)
  ∧ index_coherent (λ e, [content_creator_address e]) (ei_endorsements ix)
      (ei_index_by_creator ix).

#[export] Instance block_index : ObjectIndex BlockId Block BlockIndexes := {|
  ix_empty := MkBlockIndexes ∅ ∅ ∅ ∅ ∅;
  ix_insert := BlockIndex.insert;
  ix_remove := BlockIndex.remove;
  ix_get := BlockIndex.get;
  ix_ok := block_index_ok |}.
#[export] Instance operation_index : ObjectIndex OperationId Operation OperationIndexes := {|
  ix_empty := MkOperationIndexes ∅ ∅ ∅;
  ix_insert := OperationIndex.insert;
  ix_remove := OperationIndex.remove;
  ix_get := OperationIndex.get;
  ix_ok := operation_index_ok |}.
#[export] Instance endorsement_index : ObjectIndex EndorsementId Endorsement EndorsementIndexes := {|
  ix_empty := MkEndorsementIndexes ∅ ∅;
  ix_insert := EndorsementIndex.insert;
  ix_remove := EndorsementIndex.remove;
  ix_get := EndorsementIndex.get;
  ix_ok := endorsement_index_ok |}.

(** ** The storage and its instances *)

Record Shared : Type := MkShared {
  sh_blocks : Pool BlockId BlockIndexes;
  sh_operations : Pool OperationId OperationIndexes;
  sh_endorsements : Pool EndorsementId EndorsementIndexes }.

(** The shared part with the instance that a method is called on. *)
Definition Handle : Type := Shared * Storage.

Section storage.
Context `{!SetIter BlockId, !SetIter OperationId, !SetIter EndorsementId}.
Implicit Types (sh : Shared) (st : Storage).

Definition create_root : Handle :=
  (MkShared (MkPool ix_empty ∅) (MkPool ix_empty ∅) (MkPool ix_empty ∅), MkStorage ∅ ∅ ∅).

Definition clone_without_refs st : Storage := MkStorage ∅ ∅ ∅.

(** [Clone]: a new instance that claims the same references. *)
Definition clone sh st : Handle :=
  let res := clone_without_refs st in
  let '(po, o) := pool_claim (local_used_ops st) (sh_operations sh) (local_used_ops res) in
  let '(pb, b) := pool_claim (local_used_blocks st) (sh_blocks sh) (local_used_blocks res) in
  let '(pe, e) := pool_claim (local_used_endorsements st) (sh_endorsements sh)
                    (local_used_endorsements res) in
  (MkShared pb po pe, MkStorage b o e).

Definition replace_with {E} (other : Storage) sh st : outcome E Handle :=
  '(po, o) ← replace_refs (local_used_ops other) (sh_operations sh) (local_used_ops st);
  '(pb, b) ← replace_refs (local_used_blocks other) (sh_blocks sh) (local_used_blocks st);
  '(pe, e) ← replace_refs (local_used_endorsements other) (sh_endorsements sh)
               (local_used_endorsements st);
  Ok (MkShared pb po pe, MkStorage b o e).

Definition claim_block_refs (ids : gset BlockId) sh st : gset BlockId * Handle :=
  let '(claimed, p, l) := claim_refs ids (sh_blocks sh) (local_used_blocks st) in
  (claimed, (MkShared p (sh_operations sh) (sh_endorsements sh),
             MkStorage l (local_used_ops st) (local_used_endorsements st))).
Definition claim_operation_refs (ids : gset OperationId) sh st : gset OperationId * Handle :=
  let '(claimed, p, l) := claim_refs ids (sh_operations sh) (local_used_ops st) in
  (claimed, (MkShared (sh_blocks sh) p (sh_endorsements sh),
             MkStorage (local_used_blocks st) l (local_used_endorsements st))).
Definition claim_endorsement_refs (ids : gset EndorsementId) sh st
    : gset EndorsementId * Handle :=
  let '(claimed, p, l) := claim_refs ids (sh_endorsements sh) (local_used_endorsements st) in
  (claimed, (MkShared (sh_blocks sh) (sh_operations sh) p,
             MkStorage (local_used_blocks st) (local_used_ops st) l)).

Definition drop_block_refs {E} (ids : gset BlockId) sh st : outcome E Handle :=
  '(p, l) ← drop_refs ids (sh_blocks sh) (local_used_blocks st);
  Ok (MkShared p (sh_operations sh) (sh_endorsements sh),
      MkStorage l (local_used_ops st) (local_used_endorsements st)).
Definition drop_operation_refs {E} (ids : gset OperationId) sh st : outcome E Handle :=
  '(p, l) ← drop_refs ids (sh_operations sh) (local_used_ops st);
  Ok (MkShared (sh_blocks sh) p (sh_endorsements sh),
      MkStorage (local_used_blocks st) l (local_used_endorsements st)).
Definition drop_endorsement_refs {E} (ids : gset EndorsementId) sh st : outcome E Handle :=
  '(p, l) ← drop_refs ids (sh_endorsements sh) (local_used_endorsements st);
  Ok (MkShared (sh_blocks sh) (sh_operations sh) p,
      MkStorage (local_used_blocks st) (local_used_ops st) l).

Definition store_block (b : SecureShareBlock) sh st : Handle :=
  let '(p, l) := store_objects [b] (sh_blocks sh) (local_used_blocks st) in
  (MkShared p (sh_operations sh) (sh_endorsements sh),
   MkStorage l (local_used_ops st) (local_used_endorsements st)).
Definition store_operations (os : list SecureShareOperation) sh st : Handle :=
  let '(p, l) := store_objects os (sh_operations sh) (local_used_ops st) in
  (MkShared (sh_blocks sh) p (sh_endorsements sh),
   MkStorage (local_used_blocks st) l (local_used_endorsements st)).
Definition store_endorsements (es : list SecureShareEndorsement) sh st : Handle :=
  let '(p, l) := store_objects es (sh_endorsements sh) (local_used_endorsements st) in
  (MkShared (sh_blocks sh) (sh_operations sh) p,
   MkStorage (local_used_blocks st) (local_used_ops st) l).

(** [Drop] *)
Definition drop_storage {E} sh st : outcome E Shared :=
  '(sh, st) ← drop_block_refs (local_used_blocks st) sh st;
  '(sh, st) ← drop_operation_refs (local_used_ops st) sh st;
  '(sh, _) ← drop_endorsement_refs (local_used_endorsements st) sh st;
  Ok sh.

(** [other] is consumed: it is dropped with the references both had. *)
Definition extend {E} (other : Storage) sh st : outcome E Handle :=
  let '(o, o') := extend_refs (local_used_ops st) (local_used_ops other) in
  let '(b, b') := extend_refs (local_used_blocks st) (local_used_blocks other) in
  let '(e, e') := extend_refs (local_used_endorsements st) (local_used_endorsements other) in
  sh ← drop_storage sh (MkStorage b' o' e');
  Ok (sh, MkStorage b o e).

(** The instance split off, and what is left of the source. *)
Definition split_off {E} (blocks : gset BlockId) (operations : gset OperationId)
    (endorsements : gset EndorsementId) st : outcome E (Storage * Storage) :=
  '(b, rb) ← split_refs "split block ref not owned by source" blocks (local_used_blocks st);
  '(o, ro) ← split_refs "split op ref not owned by source" operations (local_used_ops st);
  '(e, re) ← split_refs "split endorsement ref not owned by source" endorsements
               (local_used_endorsements st);
  Ok (MkStorage rb ro re, MkStorage b o e).

(** ** Calls on the instances that are alive *)

Record World : Type := MkWorld { w_shared : Shared; w_live : list Storage }.

Inductive StorageOp : Type :=
| OClone (i : nat)
| OCloneWithoutRefs (i : nat)
| OReplaceWith (i other : nat)
| OExtend (i other : nat)
| OSplitOff (i : nat) (b : gset BlockId) (o : gset OperationId) (e : gset EndorsementId)
| OClaimBlocks (i : nat) (ids : gset BlockId)
| OClaimOperations (i : nat) (ids : gset OperationId)
| OClaimEndorsements (i : nat) (ids : gset EndorsementId)
| ODropBlocks (i : nat) (ids : gset BlockId)
| ODropOperations (i : nat) (ids : gset OperationId)
| ODropEndorsements (i : nat) (ids : gset EndorsementId)
| OStoreBlock (i : nat) (b : SecureShareBlock)
| OStoreOperations (i : nat) (os : list SecureShareOperation)
| OStoreEndorsements (i : nat) (es : list SecureShareEndorsement)
| ODrop (i : nat).

(** The instance a call is made on. *)
Definition op_on (op : StorageOp) : nat :=
  match op with
  | OClone i | OCloneWithoutRefs i | OReplaceWith i _ | OExtend i _ | OSplitOff i _ _ _
  | OClaimBlocks i _ | OClaimOperations i _ | OClaimEndorsements i _ | ODropBlocks i _
  | ODropOperations i _ | ODropEndorsements i _ | OStoreBlock i _ | OStoreOperations i _
  | OStoreEndorsements i _ | ODrop i => i
  end.

Definition live {E} (w : World) (i : nat) : outcome E Storage :=
  expect "no such instance" (w_live w !! i).

Definition run_op {E} (op : StorageOp) (w : World) : outcome E World :=
  let i := op_on op in
  let sh := w_shared w in
  let put '(sh, st) := Ok (MkWorld sh (<[i := st]> (w_live w))) in
  st ← live w i;
  match op with
  | OClone _ => let '(sh, st') := clone sh st in Ok (MkWorld sh (w_live w ++ [st']))
  | OCloneWithoutRefs _ => Ok (MkWorld sh (w_live w ++ [clone_without_refs st]))
  | OReplaceWith _ j => other ← live w j; replace_with other sh st ≫= put
  | OExtend _ j =>
      other ← live w j;
      '(sh, st) ← extend other sh st;
      Ok (MkWorld sh (delete j (<[i := st]> (w_live w))))
  | OSplitOff _ b o e =>
      '(res, st) ← split_off b o e st;
      Ok (MkWorld sh (<[i := st]> (w_live w) ++ [res]))
  | OClaimBlocks _ ids => put (claim_block_refs ids sh st).2
  | OClaimOperations _ ids => put (claim_operation_refs ids sh st).2
  | OClaimEndorsements _ ids => put (claim_endorsement_refs ids sh st).2
  | ODropBlocks _ ids => drop_block_refs ids sh st ≫= put
  | ODropOperations _ ids => drop_operation_refs ids sh st ≫= put
  | ODropEndorsements _ ids => drop_endorsement_refs ids sh st ≫= put
  | OStoreBlock _ b => put (store_block b sh st)
  | OStoreOperations _ os => put (store_operations os sh st)
  | OStoreEndorsements _ es => put (store_endorsements es sh st)
  | ODrop _ => sh ← drop_storage sh st; Ok (MkWorld sh (delete i (w_live w)))
  end.
End storage.

(** ** The counters count the owners *)

Section owners.
Context {Id : Type} `{Countable Id, !SetIter Id}.
Implicit Types (ids l : gset Id) (owners : gmap Id N) (L : list (gset Id)).

(** The number of instances that hold a reference. *)
Definition holders (k : Id) L : nat := length (filter (λ l, k ∈ l) L).
Definition owners_ok owners L : Prop :=
  ∀ k, owners !! k = if decide (holders k L = 0%nat) then None else Some (N.of_nat (holders k L)).

Lemma holders_cons k l L :
  holders k (l :: L) = ((if decide (k ∈ l) then 1 else 0) + holders k L)%nat.
Proof using. unfold holders. rewrite filter_cons. by case_decide. Qed.
Lemma holders_perm k L L' : L ≡ₚ L' → holders k L = holders k L'.
Proof using. unfold holders. by intros ->. Qed.
Lemma holders_le k L : (holders k L ≤ length L)%nat.
Proof using. apply length_filter. Qed.

#[global] Instance owners_ok_perm owners : Proper ((≡ₚ) ==> iff) (owners_ok owners).
Proof using.
  intros L L' HL. split; intros Ho k; specialize (Ho k);
    by rewrite ?(holders_perm k L L' HL) in *.
Qed.

Lemma owners_ok_dom owners L k :
  owners_ok owners L → is_Some (owners !! k) ↔ ∃ l, l ∈ L ∧ k ∈ l.
Proof using.
  intros Ho. rewrite Ho. unfold holders. case_decide as Hn.
  - split; [by intros []|]. intros (l & Hl & Hk). apply nil_length_inv in Hn.
    assert (l ∈ filter (λ l, k ∈ l) L) as Hin by (by apply list_elem_of_filter).
    rewrite Hn in Hin. by apply elem_of_nil in Hin.
  - split; [|by eexists]. intros _. destruct (filter (λ l, k ∈ l) L) as [|l f] eqn:Hf; [done|].
    assert (l ∈ filter (λ l, k ∈ l) L) as Hin by (rewrite Hf; by left).
    apply list_elem_of_filter in Hin as [? ?]. by exists l.
Qed.

Lemma owners_ok_extend owners L k l :
  owners_ok owners L → l ∈ L → k ∈ l → is_Some (owners !! k).
Proof using. intros Ho Hl Hk. apply (owners_ok_dom _ _ _ Ho). eauto. Qed.

(** A set that replaces another one, in the view of the counters. *)
Lemma owners_ok_update owners owners' l l' L :
  owners_ok owners (l :: L) →
  (∀ k, (k ∈ l' ↔ k ∈ l) → owners' !! k = owners !! k) →
  (∀ k, k ∈ l' → k ∉ l →
     owners' !! k = Some (match owners !! k with Some v => v + 1 | None => 1 end)) →
  (∀ k, k ∉ l' → k ∈ l →
     owners' !! k = match owners !! k with
                    | Some v => if decide (v = 1) then None else Some (v - 1)
                    | None => None
                    end) →
  owners_ok owners' (l' :: L).
Proof using.
  intros Ho Hsame Hnew Hold k. specialize (Ho k). rewrite holders_cons in Ho |- *.
  destruct (decide (k ∈ l')) as [Hl'|Hl'], (decide (k ∈ l)) as [Hl|Hl]; cbn in Ho |- *.
  - by rewrite Hsame.
  - rewrite Hnew, Ho by done. case_decide as Hh; [by rewrite Hh|]. f_equal. lia.
  - rewrite decide_False in Ho by lia. rewrite Hold, Ho by done.
    destruct (decide (holders k L = 0%nat)) as [Hh|Hh].
    + by rewrite Hh, decide_True.
    + rewrite decide_False by lia. f_equal. lia.
  - by rewrite Hsame.
Qed.

Lemma claim_ref_ok owners l L k :
  owners_ok owners (l :: L) → N.of_nat (length L) < u64_max →
  (claim_ref (owners, l) k).2 = l ∪ {[k]}
  ∧ owners_ok (claim_ref (owners, l) k).1 (l ∪ {[k]} :: L)
  ∧ ∀ x, is_Some ((claim_ref (owners, l) k).1 !! x) ↔ x = k ∨ is_Some (owners !! x).
Proof using.
  intros Ho Hlen. unfold claim_ref. case_decide as Hk; cbn.
  { assert (l ∪ {[k]} = l) as -> by set_solver. split_and!; [done..|].
    intros x. split; [by right|]. intros [->|?]; [|done]. eapply owners_ok_extend; [done|by left|done]. }
  split; [done|]. split.
  - eapply owners_ok_update; [exact Ho| | |by intros x [? _]%not_elem_of_union].
    + intros x Hx. rewrite lookup_insert_ne; [done|]. intros <-. set_solver.
    + intros x Hx Hxl. assert (x = k) as -> by set_solver. rewrite lookup_insert_eq. f_equal.
      specialize (Ho k). rewrite Ho. case_decide; [done|]. apply wrapping_add_small.
      rewrite holders_cons, decide_False by done. pose proof (holders_le k L). lia.
  - intros x. destruct (decide (x = k)) as [->|Hne].
    + rewrite lookup_insert_eq. split; [by left|by eexists].
    + rewrite lookup_insert_ne by done. naive_solver.
Qed.

Lemma internal_claim_refs_ok owners l L ids :
  owners_ok owners (l :: L) → N.of_nat (length L) < u64_max →
  ∃ owners', internal_claim_refs ids owners l = (owners', l ∪ ids)
    ∧ owners_ok owners' (l ∪ ids :: L)
    ∧ ∀ x, is_Some (owners' !! x) ↔ x ∈ ids ∨ is_Some (owners !! x).
Proof using.
  intros Ho Hlen. unfold internal_claim_refs.
  cut (∃ owners', foldl claim_ref (owners, l) (set_iter ids)
         = (owners', l ∪ list_to_set (set_iter ids))
       ∧ owners_ok owners' (l ∪ list_to_set (set_iter ids) :: L)
       ∧ ∀ x, is_Some (owners' !! x)
           ↔ x ∈ (list_to_set (set_iter ids) : gset Id) ∨ is_Some (owners !! x));
    [by rewrite list_to_set_iter|].
  revert owners l Ho. induction (set_iter ids) as [|k ks IH]; intros owners l Ho; cbn [foldl].
  - exists owners. rewrite list_to_set_nil, (right_id_L ∅ (∪) l). split_and!; [done..|set_solver].
  - destruct (claim_ref_ok owners l L k Ho Hlen) as (H1 & H2 & H3).
    rewrite list_to_set_cons.
    destruct (claim_ref (owners, l) k) as [owners1 l1]. cbn [fst snd] in *. subst l1.
    destruct (IH owners1 (l ∪ {[k]}) H2) as (owners' & -> & Ho' & Hd).
    exists owners'. rewrite (assoc_L (∪)). split_and!; [done..|].
    intros x. rewrite Hd, H3. set_solver.
Qed.

Lemma drop_ref_ok {E} orphaned owners l L k :
  owners_ok owners (l :: L) →
  ∃ o owners', drop_ref (orphaned, owners, l) k = @Ok E _ (orphaned ++ o, owners', l ∖ {[k]})
    ∧ owners_ok owners' (l ∖ {[k]} :: L) ∧ (∀ x, is_Some (owners' !! x) → is_Some (owners !! x))
    ∧ ∀ x, x ∈ o ↔ is_Some (owners !! x) ∧ owners' !! x = None.
Proof using.
  intros Ho. unfold drop_ref. case_decide as Hk.
  2:{ exists [], owners. rewrite (right_id_L [] (++)). assert (l ∖ {[k]} = l) as -> by set_solver.
      split_and!; [done..|]. intros x. rewrite elem_of_nil. split; [done|].
      intros [[v Hv] Hn]. congruence. }
  pose proof (Ho k) as Hok. rewrite holders_cons, (decide_True (P := k ∈ l)) in Hok by done.
  rewrite decide_False in Hok by lia.
  rewrite Hok. rewrite (proj2 (N.eqb_neq _ 0)) by lia.
  assert (∀ owners' : gmap Id N, (∀ x, x ≠ k → owners' !! x = owners !! x) →
    owners' !! k = (if decide (holders k L = 0%nat) then None else Some (N.of_nat (holders k L))) →
    owners_ok owners' (l ∖ {[k]} :: L)) as Hupd.
  { intros owners' Hne Heq. eapply owners_ok_update; [exact Ho| |by intros x [? _]%elem_of_difference|].
    - intros x Hx. apply Hne. intros ->. set_solver.
    - intros x Hx Hxl. destruct (decide (x = k)) as [->|Hxk].
      2:{ destruct Hx. by rewrite elem_of_difference, elem_of_singleton. }
      rewrite Heq, Hok.
      destruct (decide (holders k L = 0%nat)) as [Hh|Hh]; [by rewrite Hh, decide_True|].
      rewrite decide_False by lia. f_equal. lia. }
  destruct (N.eqb_spec (N.of_nat (1 + holders k L) - 1) 0) as [Hz|Hz].
  - exists [k], (delete k owners). split; [done|]. split; [|split].
    + apply Hupd; [intros; by rewrite lookup_delete_ne|]. rewrite lookup_delete_eq.
      by rewrite decide_True by lia.
    + intros x [v Hv]. apply lookup_delete_Some in Hv as [_ Hv]. by eexists.
    + intros x. rewrite list_elem_of_singleton, lookup_delete_None, is_Some_alt.
      destruct (decide (x = k)) as [->|]; [by rewrite Hok; naive_solver|].
      destruct (owners !! x); naive_solver.
  - exists [], (<[k := N.of_nat (1 + holders k L) - 1]> owners). rewrite (right_id_L [] (++)).
    split; [done|]. split; [|split].
    + apply Hupd; [intros; by rewrite lookup_insert_ne|]. rewrite lookup_insert_eq.
      rewrite decide_False by lia. f_equal. lia.
    + intros x [v Hv]. apply lookup_insert_Some in Hv as [[<- _]|[_ Hv]]; [by rewrite Hok|by eexists].
    + intros x. rewrite elem_of_nil, lookup_insert_None. split; [done|]. intros [[v Hv] [Hn _]].
      congruence.
Qed.

Lemma internal_drop_refs_ok {E} owners l L ids :
  owners_ok owners (l :: L) →
  ∃ o owners', internal_drop_refs ids owners l = @Ok E _ (o, owners', l ∖ ids)
    ∧ owners_ok owners' (l ∖ ids :: L)
    ∧ (∀ x, is_Some (owners' !! x) → is_Some (owners !! x))
    ∧ ∀ x, x ∈ o ↔ is_Some (owners !! x) ∧ owners' !! x = None.
Proof using.
  intros Ho. unfold internal_drop_refs.
  assert (∀ ks orphaned, ∃ o owners',
    foldM drop_ref ks (orphaned, owners, l)
      = @Ok E _ (orphaned ++ o, owners', l ∖ list_to_set ks)
    ∧ owners_ok owners' (l ∖ list_to_set ks :: L)
    ∧ (∀ x, is_Some (owners' !! x) → is_Some (owners !! x))
    ∧ ∀ x, x ∈ o ↔ is_Some (owners !! x) ∧ owners' !! x = None) as Hgen.
  2:{ specialize (Hgen (set_iter ids) []). by rewrite list_to_set_iter in Hgen. }
  intros ks. revert owners l Ho. induction ks as [|k ks IH]; intros owners l Ho orphaned; cbn [foldM].
  - exists [], owners. rewrite list_to_set_nil, (right_id_L [] (++)), (difference_empty_L l). split_and!; [done..|].
    intros x. rewrite elem_of_nil. split; [done|]. intros [[v Hv] Hn]. congruence.
  - destruct (drop_ref_ok (E := E) orphaned owners l L k Ho) as (o1 & owners1 & -> & H1 & H2 & H3).
    cbn [mbind outcome_bind].
    destruct (IH owners1 (l ∖ {[k]}) H1 (orphaned ++ o1)) as (o2 & owners2 & -> & G1 & G2 & G3).
    exists (o1 ++ o2), owners2. rewrite (assoc_L (++)), list_to_set_cons.
    rewrite (difference_difference_l_L l {[k]}) in *. split_and!; [done|done|by auto|].
    intros x. rewrite elem_of_app, H3, G3. specialize (H2 x). specialize (G2 x).
    destruct (owners !! x), (owners1 !! x), (owners2 !! x); naive_solver.
Qed.
End owners.

(** ** The indexes are coherent *)

Section coherent.
Context {K Id T : Type} `{Countable K, Countable Id} (keys : T → list K).
Implicit Types (objects : gmap Id T) (index : gmap K (gset Id)).

Lemma coherent_empty : index_coherent keys (∅ : gmap Id T) ∅.
Proof using. split; intros a; [intros k; rewrite !lookup_empty; set_solver|by rewrite lookup_empty]. Qed.

Lemma index_insert_at a k index x :
  default ∅ (index_insert a k index !! x)
  = if decide (x = a) then default ∅ (index !! x) ∪ {[k]} else default ∅ (index !! x).
Proof using.
  unfold index_insert. case_decide as Hx; [subst; by rewrite lookup_insert_eq|].
  by rewrite lookup_insert_ne.
Qed.
Lemma index_remove_at a k index x :
  default ∅ (index_remove a k index !! x)
  = if decide (x = a) then default ∅ (index !! x) ∖ {[k]} else default ∅ (index !! x).
Proof using.
  unfold index_remove. destruct (index !! a) as [s|] eqn:Ha.
  - repeat case_decide; subst; rewrite ?lookup_delete_eq, ?lookup_insert_eq, ?Ha; cbn; try done.
    + by rewrite lookup_delete_ne.
    + by rewrite lookup_insert_ne.
  - case_decide; [subst; rewrite Ha; cbn; set_solver|done].
Qed.

Lemma index_insert_fold l k index x :
  default ∅ (foldl (λ m a, index_insert a k m) index l !! x)
  = default ∅ (index !! x) ∪ (if decide (x ∈ l) then {[k]} else ∅).
Proof using.
  revert index. induction l as [|a l IH]; intros index; cbn [foldl].
  - rewrite decide_False by apply not_elem_of_nil. set_solver.
  - rewrite IH, index_insert_at. destruct (decide (x = a)) as [->|Hx].
    + rewrite (decide_True (P := a ∈ a :: l)) by (by left). case_decide; set_solver.
    + f_equal. apply decide_ext. rewrite elem_of_cons. naive_solver.
Qed.
Lemma index_remove_fold l k index x :
  default ∅ (foldl (λ m a, index_remove a k m) index l !! x)
  = default ∅ (index !! x) ∖ (if decide (x ∈ l) then {[k]} else ∅).
Proof using.
  revert index. induction l as [|a l IH]; intros index; cbn [foldl].
  - rewrite decide_False by apply not_elem_of_nil. set_solver.
  - rewrite IH, index_remove_at. destruct (decide (x = a)) as [->|Hx].
    + rewrite (decide_True (P := a ∈ a :: l)) by (by left). case_decide; set_solver.
    + f_equal. apply decide_ext. rewrite elem_of_cons. naive_solver.
Qed.

Lemma index_insert_nonempty l k index :
  (∀ a, index !! a ≠ Some ∅) → ∀ a, foldl (λ m a, index_insert a k m) index l !! a ≠ Some ∅.
Proof using.
  revert index. induction l as [|x l IH]; intros index Hi; [done|]. apply IH. intros a.
  unfold index_insert. rewrite lookup_insert. case_decide; [|done]. intros [= He]. set_solver.
Qed.
Lemma index_remove_nonempty l k index :
  (∀ a, index !! a ≠ Some ∅) → ∀ a, foldl (λ m a, index_remove a k m) index l !! a ≠ Some ∅.
Proof using.
  revert index. induction l as [|x l IH]; intros index Hi; [done|]. apply IH. intros a.
  unfold index_remove. destruct (index !! x) as [s|] eqn:Hx; [|done].
  destruct (decide (s ∖ {[k]} = ∅)).
  - rewrite lookup_delete. by case_decide.
  - rewrite lookup_insert. case_decide; [|done]. by intros [= ?].
Qed.

(** Adding an object that is not there, removing one that is. *)
Lemma coherent_insert objects index k o :
  index_coherent keys objects index → objects !! k = None →
  index_coherent keys (<[k := o]> objects) (foldl (λ m a, index_insert a k m) index (keys o)).
Proof using.
  intros [Hc Hn] Hk. split; [|by apply index_insert_nonempty]. intros a x.
  rewrite index_insert_fold, elem_of_union, Hc. destruct (decide (x = k)) as [->|Hx].
  - rewrite lookup_insert_eq, Hk. case_decide; set_solver.
  - rewrite lookup_insert_ne by done. case_decide; set_solver.
Qed.
Lemma coherent_remove objects index k o :
  index_coherent keys objects index → objects !! k = Some o →
  index_coherent keys (delete k objects) (foldl (λ m a, index_remove a k m) index (keys o)).
Proof using.
  intros [Hc Hn] Hk. split; [|by apply index_remove_nonempty]. intros a x.
  rewrite index_remove_fold, elem_of_difference, Hc. destruct (decide (x = k)) as [->|Hx].
  - rewrite lookup_delete_eq, Hk. case_decide; set_solver.
  - rewrite lookup_delete_ne by done. case_decide; set_solver.
Qed.
End coherent.

(** The primary map of the three indexes. *)
Lemma objects_insert {Id T : Type} `{Countable Id} (objects : gmap Id (SecureShare T Id)) o k :
  objects !! id o = None →
  <[id o := o]> objects !! k
  = if decide (k = id o ∧ objects !! k = None) then Some o else objects !! k.
Proof.
  intros Ho. destruct (decide (k = id o)) as [->|Hk].
  - by rewrite lookup_insert_eq, decide_True.
  - rewrite lookup_insert_ne, decide_False by naive_solver. done.
Qed.
Lemma objects_present {Id T : Type} `{Countable Id} (objects : gmap Id (SecureShare T Id)) o o' k :
  objects !! id o = Some o' →
  objects !! k = if decide (k = id o ∧ objects !! k = None) then Some o else objects !! k.
Proof. intros Ho. rewrite decide_False by (intros [-> Hn]; congruence). done. Qed.
Lemma objects_remove {Id T : Type} `{Countable Id} (objects : gmap Id (SecureShare T Id)) k k' :
  delete k objects !! k' = if decide (k' = k) then None else objects !! k'.
Proof. rewrite lookup_delete. repeat case_decide; congruence. Qed.
Lemma objects_absent {Id T : Type} `{Countable Id} (objects : gmap Id (SecureShare T Id)) k k' :
  objects !! k = None → objects !! k' = if decide (k' = k) then None else objects !! k'.
Proof. intros Hk. case_decide; congruence. Qed.

#[export] Instance block_index_laws : ObjectIndexLaws BlockId Block BlockIndexes.
Proof.
  split; cbn.
  - split; [apply map_Forall_empty|]. split_and!; apply coherent_empty.
  - done.
  - intros b ix (H0 & H1 & H2 & H3 & H4). unfold BlockIndex.insert.
    destruct (bi_blocks ix !! id b) eqn:Hb; [done|]. split; [by apply map_Forall_insert_2|].
    split_and!; [exact (coherent_insert _ _ _ _ _ H1 Hb)|exact (coherent_insert _ _ _ _ _ H2 Hb)
      |exact (coherent_insert _ _ _ _ _ H3 Hb)|exact (coherent_insert _ _ _ _ _ H4 Hb)].
  - intros b ix k. unfold BlockIndex.insert, BlockIndex.get.
    destruct (bi_blocks ix !! id b) eqn:Hb; [by eapply objects_present|by apply objects_insert].
  - intros k ix (H0 & H1 & H2 & H3 & H4). unfold BlockIndex.remove.
    destruct (bi_blocks ix !! k) as [b|] eqn:Hb; [|done].
    pose proof (map_Forall_lookup_1 _ _ _ _ H0 Hb) as Hid. cbn in Hid. rewrite Hid.
    split; [by apply map_Forall_delete|].
    split_and!; [exact (coherent_remove _ _ _ _ _ H1 Hb)|exact (coherent_remove _ _ _ _ _ H2 Hb)
      |exact (coherent_remove _ _ _ _ _ H3 Hb)|exact (coherent_remove _ _ _ _ _ H4 Hb)].
  - intros k ix k'. unfold BlockIndex.remove, BlockIndex.get.
    destruct (bi_blocks ix !! k) eqn:Hb; [apply objects_remove|by apply objects_absent].
Qed.

#[export] Instance operation_index_laws : ObjectIndexLaws OperationId Operation OperationIndexes.
Proof.
  split; cbn.
  - split; [apply map_Forall_empty|]. split_and!; apply coherent_empty.
  - done.
  - intros o ix (H0 & H1 & H2). unfold OperationIndex.insert.
    destruct (oi_operations ix !! id o) eqn:Ho; [done|]. split; [by apply map_Forall_insert_2|].
    split; [exact (coherent_insert _ _ _ _ _ H1 Ho)|exact (coherent_insert _ _ _ _ _ H2 Ho)].
  - intros o ix k. unfold OperationIndex.insert, OperationIndex.get.
    destruct (oi_operations ix !! id o) eqn:Ho; [by eapply objects_present|by apply objects_insert].
  - intros k ix (H0 & H1 & H2). unfold OperationIndex.remove.
    destruct (oi_operations ix !! k) as [o|] eqn:Ho; [|done].
    pose proof (map_Forall_lookup_1 _ _ _ _ H0 Ho) as Hid. cbn in Hid. rewrite Hid.
    split; [by apply map_Forall_delete|].
    split; [exact (coherent_remove _ _ _ _ _ H1 Ho)|].
    pose proof (coherent_remove _ _ _ _ _ H2 Ho) as Hp. cbn in Hp. by rewrite Hid in Hp.
  - intros k ix k'. unfold OperationIndex.remove, OperationIndex.get.
    destruct (oi_operations ix !! k) eqn:Ho; [apply objects_remove|by apply objects_absent].
Qed.

#[export] Instance endorsement_index_laws :
  ObjectIndexLaws EndorsementId Endorsement EndorsementIndexes.
Proof.
  split; cbn.
  - split; [apply map_Forall_empty|apply coherent_empty].
  - done.
  - intros e ix (H0 & H1). unfold EndorsementIndex.insert.
    destruct (ei_endorsements ix !! id e) eqn:He; [done|]. split; [by apply map_Forall_insert_2|].
    exact (coherent_insert _ _ _ _ _ H1 He).
  - intros e ix k. unfold EndorsementIndex.insert, EndorsementIndex.get.
    destruct (ei_endorsements ix !! id e) eqn:He;
      [by eapply objects_present|by apply objects_insert].
  - intros k ix (H0 & H1). unfold EndorsementIndex.remove.
    destruct (ei_endorsements ix !! k) as [e|] eqn:He; [|done].
    pose proof (map_Forall_lookup_1 _ _ _ _ H0 He) as Hid. cbn in Hid. rewrite Hid.
    split; [by apply map_Forall_delete|]. exact (coherent_remove _ _ _ _ _ H1 He).
  - intros k ix k'. unfold EndorsementIndex.remove, EndorsementIndex.get.
    destruct (ei_endorsements ix !! k) eqn:He; [apply objects_remove|by apply objects_absent].
Qed.

(** ** The objects in a pool are those with an owner *)

Section pool_ok.
Context {Id T Ix : Type} `{Countable Id, !SetIter Id, !ObjectIndex Id T Ix}
  `{!ObjectIndexLaws Id T Ix}.
Implicit Types (ids l : gset Id) (p : Pool Id Ix) (L : list (gset Id)).

Record pool_ok p L : Prop := {
  po_index : ix_ok (p_index p);
  po_owners : owners_ok (p_owners p) L;
  po_objects : ∀ k, is_Some (ix_get (p_index p) k) ↔ is_Some (p_owners p !! k) }.

#[global] Instance pool_ok_perm p : Proper ((≡ₚ) ==> iff) (pool_ok p).
Proof using.
  intros L L' HL. split; intros [H1 H2 H3]; (split; [done| |done]).
  - by rewrite <-HL.
  - by rewrite HL.
Qed.

Lemma pool_ok_empty : pool_ok (MkPool ix_empty ∅) [∅].
Proof using ObjectIndexLaws0.
  split; cbn; [apply ix_empty_ok| |intros k; rewrite ix_get_empty, lookup_empty; by split; intros []].
  intros k. rewrite lookup_empty. by vm_compute.
Qed.

(** An instance that owns nothing may come and go. *)
Lemma pool_ok_nothing p L : pool_ok p (∅ :: L) ↔ pool_ok p L.
Proof using.
  assert (∀ k, holders k (∅ :: L) = holders k L) as Hh.
  { intros k. rewrite holders_cons, decide_False; [done|apply not_elem_of_empty]. }
  split; intros [H1 H2 H3]; (split; [done| |done]); intros k; specialize (H2 k).
  - by rewrite Hh in H2.
  - by rewrite Hh.
Qed.

Lemma pool_claim_ok p l L ids :
  pool_ok p (l :: L) → N.of_nat (length L) < u64_max →
  (∀ k, k ∈ ids → is_Some (ix_get (p_index p) k)) →
  (pool_claim ids p l).2 = l ∪ ids ∧ pool_ok (pool_claim ids p l).1 (l ∪ ids :: L).
Proof using ObjectIndexLaws0.
  intros [H1 H2 H3] Hlen Hids. unfold pool_claim.
  destruct (internal_claim_refs_ok (p_owners p) l L ids H2 Hlen) as (owners' & -> & Ho & Hd).
  split; [done|]. split; cbn; [done|done|]. intros k. rewrite Hd, H3.
  split; [by right|]. intros [Hk|?]; [by apply H3, Hids|done].
Qed.

Lemma claim_refs_ok p l L ids :
  pool_ok p (l :: L) → N.of_nat (length L) < u64_max →
  let '(claimed, p', l') := claim_refs ids p l in
  (∀ k, k ∈ claimed ↔ k ∈ ids ∧ is_Some (ix_get (p_index p) k))
  ∧ l' = l ∪ claimed ∧ pool_ok p' (l' :: L).
Proof using ObjectIndexLaws0.
  intros Hok Hlen. unfold claim_refs. case_decide as Hids.
  - split_and!; [set_solver|set_solver|done].
  - set (claimed := filter _ ids).
    assert (∀ k, k ∈ claimed ↔ k ∈ ids ∧ is_Some (ix_get (p_index p) k)) as Hc.
    { intros k. subst claimed. rewrite elem_of_filter, <-(po_objects _ _ Hok k). naive_solver. }
    destruct (pool_claim_ok p l L claimed Hok Hlen) as [Hl Hp]; [intros k Hk; by apply Hc|].
    destruct (pool_claim claimed p l) as [p' l']. cbn in *. subst l'. done.
Qed.

Lemma remove_all_ok ix ks :
  ix_ok ix →
  ix_ok (foldl (λ ix k, ix_remove k ix) ix ks)
  ∧ ∀ k, ix_get (foldl (λ ix k, ix_remove k ix) ix ks) k
         = if decide (k ∈ ks) then None else ix_get ix k.
Proof using ObjectIndexLaws0.
  revert ix. induction ks as [|x ks IH]; intros ix Hok; cbn [foldl].
  - split; [done|]. intros k. rewrite decide_False; [done|apply not_elem_of_nil].
  - destruct (IH (ix_remove x ix)) as [H1 H2]; [by apply ix_remove_ok|]. split; [done|].
    intros k. rewrite H2, ix_get_remove.
    repeat case_decide; rewrite ?elem_of_cons in *; naive_solver.
Qed.

Lemma insert_all_ok ix (os : list (SecureShare T Id)) :
  ix_ok ix →
  ix_ok (foldl (λ ix o, ix_insert o ix) ix os)
  ∧ ∀ k, is_Some (ix_get (foldl (λ ix o, ix_insert o ix) ix os) k)
         ↔ k ∈ id <$> os ∨ is_Some (ix_get ix k).
Proof using ObjectIndexLaws0.
  revert ix. induction os as [|o os IH]; intros ix Hok; cbn [foldl].
  - split; [done|]. intros k. rewrite fmap_nil, elem_of_nil. tauto.
  - destruct (IH (ix_insert o ix)) as [H1 H2]; [by apply ix_insert_ok|]. split; [done|].
    intros k. rewrite H2, ix_get_insert, fmap_cons, elem_of_cons.
    destruct (ix_get ix k) eqn:Hk; case_decide as Hd; naive_solver.
Qed.

Lemma pool_drop_ok {E} p l L ids :
  pool_ok p (l :: L) →
  ∃ p', pool_drop ids p l = @Ok E _ (p', l ∖ ids) ∧ pool_ok p' (l ∖ ids :: L).
Proof using ObjectIndexLaws0.
  intros [H1 H2 H3]. unfold pool_drop.
  destruct (internal_drop_refs_ok (E := E) (p_owners p) l L ids H2)
    as (o & owners' & -> & Ho & Hsub & Horph).
  cbn [mbind outcome_bind]. eexists. split; [done|].
  destruct (remove_all_ok (p_index p) o H1) as [G1 G2]. split; cbn; [done|done|].
  intros k. rewrite G2. specialize (Horph k). specialize (Hsub k). specialize (H3 k).
  case_decide; destruct (owners' !! k), (p_owners p !! k); naive_solver.
Qed.

Lemma drop_refs_ok {E} p l L ids :
  pool_ok p (l :: L) →
  ∃ p', drop_refs ids p l = @Ok E _ (p', l ∖ ids) ∧ pool_ok p' (l ∖ ids :: L).
Proof using ObjectIndexLaws0.
  intros Hok. unfold drop_refs. case_decide as Hids; [|by apply pool_drop_ok].
  subst ids. rewrite difference_empty_L. by exists p.
Qed.

Lemma store_objects_ok p l L (os : list (SecureShare T Id)) :
  pool_ok p (l :: L) → N.of_nat (length L) < u64_max →
  (store_objects os p l).2 = l ∪ list_to_set (id <$> os)
  ∧ pool_ok (store_objects os p l).1 (l ∪ list_to_set (id <$> os) :: L).
Proof using ObjectIndexLaws0.
  intros Hok Hlen. unfold store_objects. case_decide as Hos.
  { subst os. cbn. rewrite (right_id_L ∅ (∪) l). done. }
  destruct Hok as [H1 H2 H3]. destruct (insert_all_ok (p_index p) os H1) as [G1 G2].
  unfold pool_claim. cbn [p_owners p_index].
  destruct (internal_claim_refs_ok (p_owners p) l L (list_to_set (id <$> os)) H2 Hlen)
    as (owners' & -> & Ho & Hd).
  split; [done|]. split; cbn; [done|done|]. intros k. rewrite G2, Hd, elem_of_list_to_set, H3. done.
Qed.
End pool_ok.

(** ** Every call keeps the storage consistent *)

Section world_ok.
Context `{!SetIter BlockId, !SetIter OperationId, !SetIter EndorsementId}.
Implicit Types (sh : Shared) (st : Storage) (O : list Storage) (w : World).

Record shared_ok sh O : Prop := {
  so_blocks : pool_ok (sh_blocks sh) (local_used_blocks <$> O);
  so_operations : pool_ok (sh_operations sh) (local_used_ops <$> O);
  so_endorsements : pool_ok (sh_endorsements sh) (local_used_endorsements <$> O) }.

Definition world_ok w : Prop := shared_ok (w_shared w) (w_live w).

#[global] Instance shared_ok_perm sh : Proper ((≡ₚ) ==> iff) (shared_ok sh).
Proof using.
  intros O O' HO. split; intros [H1 H2 H3]; split.
  - by rewrite <-HO.
  - by rewrite <-HO.
  - by rewrite <-HO.
  - by rewrite HO.
  - by rewrite HO.
  - by rewrite HO.
Qed.

(** The calls that are possible: the instances exist, the two arguments of a
    call are distinct (one is borrowed mutably or moved), and the references to
    split off are owned.  The instances are fewer than [usize::MAX]. *)
Definition valid_op (op : StorageOp) w : Prop :=
  N.of_nat (length (w_live w)) < u64_max
  ∧ ∃ st, w_live w !! op_on op = Some st
  ∧ match op with
    | OReplaceWith i j | OExtend i j => i ≠ j ∧ is_Some (w_live w !! j)
    | OSplitOff _ b o e =>
        b ⊆ local_used_blocks st ∧ o ⊆ local_used_ops st ∧ e ⊆ local_used_endorsements st
    | _ => True
    end.

Lemma focus_live O i st : O !! i = Some st → O ≡ₚ st :: delete i O.
Proof using. intros Hi. by apply delete_Permutation. Qed.
Lemma focus_insert O i st st' : O !! i = Some st → <[i := st']> O ≡ₚ st' :: delete i O.
Proof using.
  intros Hi. rewrite <-(take_drop_middle O i st Hi) at 1. rewrite insert_app_r_alt.
  - rewrite length_take_le by (apply lookup_lt_Some in Hi; lia). rewrite Nat.sub_diag. cbn.
    rewrite delete_take_drop. by rewrite Permutation_middle.
  - rewrite length_take. lia.
Qed.

(** References that some instance holds are in the shared indexes. *)
Lemma held_objects {Id T Ix} `{Countable Id, !SetIter Id, !ObjectIndex Id T Ix}
    `{!ObjectIndexLaws Id T Ix} (p : Pool Id Ix) L (l : gset Id) k :
  pool_ok p L → l ∈ L → k ∈ l → is_Some (ix_get (p_index p) k).
Proof using.
  intros Hok Hl Hk. apply (po_objects _ _ Hok). by eapply owners_ok_extend; [apply Hok| |].
Qed.

Lemma clone_ok sh st O :
  shared_ok sh (st :: O) → N.of_nat (length (st :: O)) < u64_max →
  (clone sh st).2 = st ∧ shared_ok (clone sh st).1 (st :: st :: O).
Proof using.
  intros [H1 H2 H3] Hlen. unfold clone, clone_without_refs. cbn [local_used_ops local_used_blocks
    local_used_endorsements]. cbn [length] in Hlen.
  edestruct (pool_claim_ok (sh_operations sh) ∅ (local_used_ops <$> st :: O) (local_used_ops st))
    as [P1 P2]; [by apply pool_ok_nothing|rewrite length_fmap; cbn; lia
    |intros k; by apply (held_objects _ _ _ _ H2), list_elem_of_here|].
  edestruct (pool_claim_ok (sh_blocks sh) ∅ (local_used_blocks <$> st :: O) (local_used_blocks st))
    as [Q1 Q2]; [by apply pool_ok_nothing|rewrite length_fmap; cbn; lia
    |intros k; by apply (held_objects _ _ _ _ H1), list_elem_of_here|].
  edestruct (pool_claim_ok (sh_endorsements sh) ∅ (local_used_endorsements <$> st :: O)
    (local_used_endorsements st))
    as [R1 R2]; [by apply pool_ok_nothing|rewrite length_fmap; cbn; lia
    |intros k; by apply (held_objects _ _ _ _ H3), list_elem_of_here|].
  destruct (pool_claim (local_used_ops st) _ _) as [po o],
    (pool_claim (local_used_blocks st) _ _) as [pb b],
    (pool_claim (local_used_endorsements st) _ _) as [pe e]. cbn [fst snd] in *. subst.
  rewrite !(left_id_L ∅ (∪)) in *. split; [by destruct st|]. split; cbn; assumption.
Qed.

Lemma drop_block_refs_ok {E} ids sh st O :
  shared_ok sh (st :: O) →
  ∃ sh', drop_block_refs ids sh st
      = @Ok E _ (sh', MkStorage (local_used_blocks st ∖ ids) (local_used_ops st)
                        (local_used_endorsements st))
    ∧ shared_ok sh' (MkStorage (local_used_blocks st ∖ ids) (local_used_ops st)
                       (local_used_endorsements st) :: O).
Proof using.
  intros [H1 H2 H3]. unfold drop_block_refs.
  edestruct (drop_refs_ok (E := E) (sh_blocks sh)) as (p & -> & Hp); [exact H1|].
  cbn [mbind outcome_bind]. eexists. split; [done|]. by split.
Qed.
Lemma drop_operation_refs_ok {E} ids sh st O :
  shared_ok sh (st :: O) →
  ∃ sh', drop_operation_refs ids sh st
      = @Ok E _ (sh', MkStorage (local_used_blocks st) (local_used_ops st ∖ ids)
                        (local_used_endorsements st))
    ∧ shared_ok sh' (MkStorage (local_used_blocks st) (local_used_ops st ∖ ids)
                       (local_used_endorsements st) :: O).
Proof using.
  intros [H1 H2 H3]. unfold drop_operation_refs.
  edestruct (drop_refs_ok (E := E) (sh_operations sh)) as (p & -> & Hp); [exact H2|].
  cbn [mbind outcome_bind]. eexists. split; [done|]. by split.
Qed.
Lemma drop_endorsement_refs_ok {E} ids sh st O :
  shared_ok sh (st :: O) →
  ∃ sh', drop_endorsement_refs ids sh st
      = @Ok E _ (sh', MkStorage (local_used_blocks st) (local_used_ops st)
                        (local_used_endorsements st ∖ ids))
    ∧ shared_ok sh' (MkStorage (local_used_blocks st) (local_used_ops st)
                       (local_used_endorsements st ∖ ids) :: O).
Proof using.
  intros [H1 H2 H3]. unfold drop_endorsement_refs.
  edestruct (drop_refs_ok (E := E) (sh_endorsements sh)) as (p & -> & Hp); [exact H3|].
  cbn [mbind outcome_bind]. eexists. split; [done|]. by split.
Qed.

Lemma shared_ok_nothing sh O : shared_ok sh (MkStorage ∅ ∅ ∅ :: O) ↔ shared_ok sh O.
Proof using.
  split; intros [H1 H2 H3]; split.
  - exact (proj1 (pool_ok_nothing _ _) H1).
  - exact (proj1 (pool_ok_nothing _ _) H2).
  - exact (proj1 (pool_ok_nothing _ _) H3).
  - exact (proj2 (pool_ok_nothing _ _) H1).
  - exact (proj2 (pool_ok_nothing _ _) H2).
  - exact (proj2 (pool_ok_nothing _ _) H3).
Qed.

Lemma drop_storage_ok {E} sh st O :
  shared_ok sh (st :: O) → ∃ sh', drop_storage sh st = @Ok E _ sh' ∧ shared_ok sh' O.
Proof using.
  intros H1. unfold drop_storage.
  destruct (drop_block_refs_ok (E := E) (local_used_blocks st) sh st O H1) as (sh1 & -> & H2).
  cbn [mbind outcome_bind local_used_ops].
  edestruct (drop_operation_refs_ok (E := E) (local_used_ops st)) as (sh2 & -> & H3); [exact H2|].
  cbn [mbind outcome_bind local_used_ops local_used_blocks local_used_endorsements] in *.
  edestruct (drop_endorsement_refs_ok (E := E) (local_used_endorsements st)) as (sh3 & -> & H4);
    [exact H3|].
  cbn [mbind outcome_bind local_used_ops local_used_blocks local_used_endorsements] in *.
  exists sh3. split; [done|]. rewrite !difference_diag_L in H4. by apply shared_ok_nothing.
Qed.

Lemma replace_refs_ok {E Id T Ix} `{Countable Id, !SetIter Id, !ObjectIndex Id T Ix}
    `{!ObjectIndexLaws Id T Ix} (p : Pool Id Ix) l other L :
  pool_ok p (l :: L) → N.of_nat (length L) < u64_max → other ∈ L →
  ∃ p', replace_refs other p l = @Ok E _ (p', other) ∧ pool_ok p' (other :: L).
Proof using.
  intros Hok Hlen Hin. unfold replace_refs.
  destruct (pool_drop_ok (E := E) p l L (l ∖ other) Hok) as (p1 & -> & H1).
  cbn [mbind outcome_bind].
  destruct (pool_claim_ok p1 (l ∖ (l ∖ other)) L (other ∖ l) H1 Hlen) as [H2 H3].
  { intros k [Hk _]%elem_of_difference. eapply held_objects; [exact H1|by right|done]. }
  assert (l ∖ (l ∖ other) ∪ other ∖ l = other) as Heq.
  { apply set_eq. intros x. rewrite elem_of_union, !elem_of_difference.
    destruct (decide (x ∈ l)), (decide (x ∈ other)); naive_solver. }
  rewrite Heq in H2, H3. eexists. split; [|exact H3].
  destruct (pool_claim (other ∖ l) p1 _). cbn in *. by subst.
Qed.

Lemma replace_with_ok {E} other sh st O :
  shared_ok sh (st :: O) → N.of_nat (length O) < u64_max → other ∈ O →
  ∃ sh', replace_with other sh st = @Ok E _ (sh', other) ∧ shared_ok sh' (other :: O).
Proof using.
  intros [H1 H2 H3] Hlen Hin. unfold replace_with. rewrite fmap_cons in H1. rewrite fmap_cons in H2.
  rewrite fmap_cons in H3.
  edestruct (replace_refs_ok (E := E) (sh_operations sh)) as (po & -> & Po);
    [exact H2|by rewrite length_fmap|by apply list_elem_of_fmap_2|].
  cbn [mbind outcome_bind].
  edestruct (replace_refs_ok (E := E) (sh_blocks sh)) as (pb & -> & Pb);
    [exact H1|by rewrite length_fmap|by apply list_elem_of_fmap_2|].
  cbn [mbind outcome_bind].
  edestruct (replace_refs_ok (E := E) (sh_endorsements sh)) as (pe & -> & Pe);
    [exact H3|by rewrite length_fmap|by apply list_elem_of_fmap_2|].
  cbn [mbind outcome_bind]. eexists. split; [by destruct other|]. by split.
Qed.

(** Two sets of one owner each, exchanged for their union and intersection. *)
Lemma extend_refs_ok {Id T Ix} `{Countable Id, !SetIter Id, !ObjectIndex Id T Ix}
    (p : Pool Id Ix) l other L :
  pool_ok p (l :: other :: L) → pool_ok p (other ∩ l :: l ∪ other :: L).
Proof using.
  intros [H1 H2 H3]. split; [done| |done]. intros k. rewrite (H2 k), !holders_cons.
  assert ((if decide (k ∈ l) then 1 else 0) + ((if decide (k ∈ other) then 1 else 0) + holders k L)
    = (if decide (k ∈ other ∩ l) then 1 else 0)
      + ((if decide (k ∈ l ∪ other) then 1 else 0) + holders k L))%nat as ->; [|done].
  repeat case_decide; rewrite ?elem_of_union, ?elem_of_intersection in *; naive_solver lia.
Qed.

Lemma extend_ok {E} other sh st O :
  shared_ok sh (st :: other :: O) →
  ∃ sh', extend other sh st
      = @Ok E _ (sh', MkStorage (local_used_blocks st ∪ local_used_blocks other)
                        (local_used_ops st ∪ local_used_ops other)
                        (local_used_endorsements st ∪ local_used_endorsements other))
    ∧ shared_ok sh' (MkStorage (local_used_blocks st ∪ local_used_blocks other)
                       (local_used_ops st ∪ local_used_ops other)
                       (local_used_endorsements st ∪ local_used_endorsements other) :: O).
Proof using.
  intros [H1 H2 H3]. unfold extend, extend_refs.
  edestruct (drop_storage_ok (E := E) sh) as (sh' & -> & Hsh');
    [|cbn [mbind outcome_bind]; exists sh'; split; [done|exact Hsh']].
  split; cbn; by apply extend_refs_ok.
Qed.

Lemma split_refs_spec {E Id} `{Countable Id, !SetIter Id} why (ids l : gset Id) :
  ids ⊆ l → split_refs why ids l = @Ok E _ (l ∖ ids, ids).
Proof using.
  intros Hsub. unfold split_refs.
  assert (∀ ks (l r : gset Id), NoDup ks → (∀ k, k ∈ ks → k ∈ l) →
    foldM (λ '(l, res) k,
      if decide (k ∈ l) then Ok (l ∖ {[k]}, res ∪ {[k]}) else Panic why) ks (l, r)
    = @Ok E _ (l ∖ list_to_set ks, r ∪ list_to_set ks)) as Hgen.
  - intros ks. induction ks as [|k ks IH]; intros l0 r Hnd Hin; cbn [foldM].
    + rewrite list_to_set_nil, difference_empty_L. by rewrite (right_id_L ∅ (∪)).
    + rewrite decide_True by (apply Hin; by left). cbn [mbind outcome_bind].
      apply NoDup_cons in Hnd as [Hk Hnd]. rewrite IH.
      * by rewrite list_to_set_cons, difference_difference_l_L, (assoc_L (∪)).
      * done.
      * intros x Hx. rewrite elem_of_difference, elem_of_singleton.
        split; [apply Hin; by right|congruence].
  - rewrite (Hgen (set_iter ids) l ∅), list_to_set_iter; [by rewrite (left_id_L ∅ (∪))| |].
    + apply NoDup_set_iter.
    + intros k Hk. apply Hsub. by apply elem_of_set_iter.
Qed.

Lemma split_pool_ok {Id T Ix} `{Countable Id, !SetIter Id, !ObjectIndex Id T Ix}
    (p : Pool Id Ix) l ids L :
  ids ⊆ l → pool_ok p (l :: L) → pool_ok p (ids :: l ∖ ids :: L).
Proof using.
  intros Hsub [H1 H2 H3]. split; [done| |done]. intros k. rewrite (H2 k), !holders_cons.
  assert ((if decide (k ∈ l) then 1 else 0) + holders k L
    = (if decide (k ∈ ids) then 1 else 0)
      + ((if decide (k ∈ l ∖ ids) then 1 else 0) + holders k L))%nat as ->; [|done].
  specialize (Hsub k). repeat case_decide; rewrite ?elem_of_difference in *; naive_solver lia.
Qed.

Lemma split_off_ok {E} b o e sh st O :
  shared_ok sh (st :: O) → b ⊆ local_used_blocks st → o ⊆ local_used_ops st →
  e ⊆ local_used_endorsements st →
  ∃ st', split_off b o e st = @Ok E _ (MkStorage b o e, st')
    ∧ shared_ok sh (MkStorage b o e :: st' :: O).
Proof using.
  intros [H1 H2 H3] Hb Ho He. unfold split_off.
  rewrite !split_refs_spec by done. cbn [mbind outcome_bind].
  eexists. split; [done|]. split; cbn; by apply split_pool_ok.
Qed.

(** The world after a call on the instance [i]. *)
Lemma put_ok sh st st' w i :
  w_live w !! i = Some st → shared_ok sh (st' :: delete i (w_live w)) →
  world_ok (MkWorld sh (<[i := st']> (w_live w))).
Proof using. intros Hi Hsh. unfold world_ok. cbn. by rewrite (focus_insert _ _ st). Qed.

Lemma list_elem_of_delete_ne {A} (O : list A) i j x :
  O !! j = Some x → i ≠ j → x ∈ delete i O.
Proof using.
  intros Hj Hne.
  apply (list_elem_of_lookup_2 _ (if decide (i < j)%nat then j - 1 else j)%nat).
  case_decide; [rewrite list_lookup_delete_ge by lia; by replace (S (j - 1)) with j by lia|].
  by rewrite list_lookup_delete_lt by lia.
Qed.

Lemma extended_live O i j st other :
  O !! i = Some st → O !! j = Some other → i ≠ j →
  ∃ rest, O ≡ₚ st :: other :: rest ∧ ∀ st', delete j (<[i := st']> O) ≡ₚ st' :: rest.
Proof using.
  intros Hi Hj Hne.
  destruct (elem_of_Permutation (delete i O) other) as [Hp _].
  destruct Hp as [rest Hrest]; [by eapply list_elem_of_delete_ne|].
  exists rest. split; [by rewrite (focus_live _ _ _ Hi), Hrest|]. intros st'.
  assert (<[i := st']> O !! j = Some other) as Hj' by (by rewrite list_lookup_insert_ne).
  apply (Permutation_cons_inv (a := other)). rewrite <-(focus_live _ _ _ Hj').
  rewrite (focus_insert _ _ st st' Hi), Hrest. apply perm_swap.
Qed.

(** Claims and stores on one kind of objects. *)
Lemma claim_block_ok ids sh st O :
  shared_ok sh (st :: O) → N.of_nat (length O) < u64_max →
  shared_ok (claim_block_refs ids sh st).2.1 ((claim_block_refs ids sh st).2.2 :: O).
Proof using.
  intros [H1 H2 H3] Hlen. rewrite fmap_cons in H1. unfold claim_block_refs.
  pose proof (claim_refs_ok _ _ _ ids H1 ltac:(by rewrite length_fmap)) as Hc.
  destruct (claim_refs _ _ _) as [[claimed p] l]. destruct Hc as (_ & _ & Hp). by split.
Qed.
Lemma claim_operation_ok ids sh st O :
  shared_ok sh (st :: O) → N.of_nat (length O) < u64_max →
  shared_ok (claim_operation_refs ids sh st).2.1 ((claim_operation_refs ids sh st).2.2 :: O).
Proof using.
  intros [H1 H2 H3] Hlen. rewrite fmap_cons in H2. unfold claim_operation_refs.
  pose proof (claim_refs_ok _ _ _ ids H2 ltac:(by rewrite length_fmap)) as Hc.
  destruct (claim_refs _ _ _) as [[claimed p] l]. destruct Hc as (_ & _ & Hp). by split.
Qed.
Lemma claim_endorsement_ok ids sh st O :
  shared_ok sh (st :: O) → N.of_nat (length O) < u64_max →
  shared_ok (claim_endorsement_refs ids sh st).2.1 ((claim_endorsement_refs ids sh st).2.2 :: O).
Proof using.
  intros [H1 H2 H3] Hlen. rewrite fmap_cons in H3. unfold claim_endorsement_refs.
  pose proof (claim_refs_ok _ _ _ ids H3 ltac:(by rewrite length_fmap)) as Hc.
  destruct (claim_refs _ _ _) as [[claimed p] l]. destruct Hc as (_ & _ & Hp). by split.
Qed.

Lemma store_block_ok b sh st O :
  shared_ok sh (st :: O) → N.of_nat (length O) < u64_max →
  shared_ok (store_block b sh st).1 ((store_block b sh st).2 :: O).
Proof using.
  intros [H1 H2 H3] Hlen. rewrite fmap_cons in H1. unfold store_block.
  pose proof (store_objects_ok _ _ _ [b] H1 ltac:(by rewrite length_fmap)) as [Hl Hp].
  destruct (store_objects _ _ _) as [p l]. cbn [fst snd] in *. subst l. by split.
Qed.
Lemma store_operations_ok os sh st O :
  shared_ok sh (st :: O) → N.of_nat (length O) < u64_max →
  shared_ok (store_operations os sh st).1 ((store_operations os sh st).2 :: O).
Proof using.
  intros [H1 H2 H3] Hlen. rewrite fmap_cons in H2. unfold store_operations.
  pose proof (store_objects_ok _ _ _ os H2 ltac:(by rewrite length_fmap)) as [Hl Hp].
  destruct (store_objects _ _ _) as [p l]. cbn [fst snd] in *. subst l. by split.
Qed.
Lemma store_endorsements_ok es sh st O :
  shared_ok sh (st :: O) → N.of_nat (length O) < u64_max →
  shared_ok (store_endorsements es sh st).1 ((store_endorsements es sh st).2 :: O).
Proof using.
  intros [H1 H2 H3] Hlen. rewrite fmap_cons in H3. unfold store_endorsements.
  pose proof (store_objects_ok _ _ _ es H3 ltac:(by rewrite length_fmap)) as [Hl Hp].
  destruct (store_objects _ _ _) as [p l]. cbn [fst snd] in *. subst l. by split.
Qed.

Lemma run_op_spec {E} op w :
  world_ok w → valid_op op w → ∃ w', run_op op w = @Ok E _ w' ∧ world_ok w'.
Proof using.
  intros Hw (Hlen & st & Hst & Hop). unfold run_op, live. rewrite Hst.
  cbn [expect mbind outcome_bind]. pose proof Hw as Hsh. unfold world_ok in Hsh.
  rewrite (focus_live _ _ _ Hst) in Hsh.
  assert (N.of_nat (length (st :: delete (op_on op) (w_live w))) < u64_max) as Hl1.
  { by rewrite <-(focus_live _ _ _ Hst). }
  assert (N.of_nat (length (delete (op_on op) (w_live w))) < u64_max) as Hl2 by (cbn in Hl1; lia).
  destruct op as [i|i|i j|i j|i b o e|i ids|i ids|i ids|i ids|i ids|i ids|i b|i os|i es|i];
    cbn [op_on] in *.
  - destruct (clone_ok _ _ _ Hsh Hl1) as [Hc1 Hc2]. destruct (clone _ _) as [sh st'].
    cbn [fst snd] in *. subst st'. eexists. split; [done|]. unfold world_ok. cbn.
    by rewrite <-Permutation_cons_append, (focus_live _ _ _ Hst).
  - eexists. split; [done|]. unfold world_ok. cbn. rewrite <-Permutation_cons_append.
    by apply shared_ok_nothing.
  - destruct Hop as [Hne [other Hj]]. rewrite Hj. cbn [expect mbind outcome_bind].
    destruct (replace_with_ok (E := E) other _ _ _ Hsh Hl2) as (sh' & -> & Hsh').
    + by eapply list_elem_of_delete_ne.
    + cbn [mbind outcome_bind]. eexists. split; [done|]. by eapply put_ok.
  - destruct Hop as [Hne [other Hj]]. rewrite Hj. cbn [expect mbind outcome_bind].
    destruct (extended_live (w_live w) i j st other) as (rest & Hr1 & Hr2); [done..|].
    unfold world_ok in Hw. rewrite Hr1 in Hw.
    destruct (extend_ok (E := E) other _ _ _ Hw) as (sh' & -> & Hsh').
    cbn [mbind outcome_bind]. eexists. split; [done|]. unfold world_ok. cbn. by rewrite Hr2.
  - destruct Hop as (Hb & Ho & He).
    destruct (split_off_ok (E := E) b o e _ _ _ Hsh Hb Ho He) as (st' & -> & Hsh').
    cbn [mbind outcome_bind]. eexists. split; [done|]. unfold world_ok. cbn.
    rewrite <-Permutation_cons_append. by rewrite (focus_insert _ _ st).
  - pose proof (claim_block_ok ids _ _ _ Hsh Hl2) as Hc. destruct (claim_block_refs _ _ _) as [? [??]].
    eexists. split; [done|]. by eapply put_ok.
  - pose proof (claim_operation_ok ids _ _ _ Hsh Hl2) as Hc.
    destruct (claim_operation_refs _ _ _) as [? [??]]. eexists. split; [done|]. by eapply put_ok.
  - pose proof (claim_endorsement_ok ids _ _ _ Hsh Hl2) as Hc.
    destruct (claim_endorsement_refs _ _ _) as [? [??]]. eexists. split; [done|]. by eapply put_ok.
  - destruct (drop_block_refs_ok (E := E) ids _ _ _ Hsh) as (sh' & -> & Hsh').
    eexists. split; [done|]. by eapply put_ok.
  - destruct (drop_operation_refs_ok (E := E) ids _ _ _ Hsh) as (sh' & -> & Hsh').
    eexists. split; [done|]. by eapply put_ok.
  - destruct (drop_endorsement_refs_ok (E := E) ids _ _ _ Hsh) as (sh' & -> & Hsh').
    eexists. split; [done|]. by eapply put_ok.
  - pose proof (store_block_ok b _ _ _ Hsh Hl2) as Hc. destruct (store_block _ _ _).
    eexists. split; [done|]. by eapply put_ok.
  - pose proof (store_operations_ok os _ _ _ Hsh Hl2) as Hc. destruct (store_operations _ _ _).
    eexists. split; [done|]. by eapply put_ok.
  - pose proof (store_endorsements_ok es _ _ _ Hsh Hl2) as Hc. destruct (store_endorsements _ _ _).
    eexists. split; [done|]. by eapply put_ok.
  - destruct (drop_storage_ok (E := E) _ _ _ Hsh) as (sh' & -> & Hsh').
    eexists. split; [done|]. done.
Qed.
End world_ok.

(** ** Reachable storages *)

Section reachable.
Context `{!SetIter BlockId, !SetIter OperationId, !SetIter EndorsementId}.

Definition root_world : World := MkWorld create_root.1 [create_root.2].

Inductive storage_reachable : World → Prop :=
| sr_root : storage_reachable root_world
| sr_call op w w' :
    storage_reachable w → valid_op op w → run_op op w = @Ok unit World w' →
    storage_reachable w'.

Lemma root_world_ok : world_ok root_world.
Proof using. split; apply pool_ok_empty. Qed.

Lemma storage_reachable_ok w : storage_reachable w → world_ok w.
Proof using.
  induction 1 as [|op w w' _ IH Hv Hr]; [apply root_world_ok|].
  destruct (run_op_spec (E := unit) op w IH Hv) as (w2 & Hw2 & Hok). congruence.
Qed.

(** The state after a call that returns. *)
Definition after_call (op : StorageOp) (w : World) : World :=
  match run_op (E := unit) op w with Ok w' => w' | _ => w end.
Lemma sr_after op w :
  storage_reachable w → valid_op op w → storage_reachable (after_call op w).
Proof using.
  intros Hw Hv. eapply sr_call; [done..|]. unfold after_call.
  destruct (run_op_spec (E := unit) op w) as (w' & -> & _); [by apply storage_reachable_ok|done|done].
Qed.

Lemma pool_ok_held {Id T Ix} `{Countable Id, !ObjectIndex Id T Ix} (p : Pool Id Ix)
    (f : Storage → gset Id) (O : list Storage) k :
  pool_ok p (f <$> O) →
  is_Some (ix_get (p_index p) k) ↔ ∃ st, st ∈ O ∧ k ∈ f st.
Proof using.
  intros Hok. rewrite (po_objects _ _ Hok), (owners_ok_dom _ _ _ (po_owners _ _ Hok)).
  split.
  - intros (l & (st & -> & Hst)%list_elem_of_fmap & Hk). eauto.
  - intros (st & Hst & Hk). exists (f st). split; [by apply list_elem_of_fmap_2|done].
Qed.
End reachable.

(** A block without parents, operations or endorsements, for evaluating examples. *)
Definition sample_block (h : N) (s : Slot) : SecureShareBlock :=
  MkSecureShare
    (MkBlock (MkSecureShare (MkBlockHeader 0 None s [] 0 [] []) [] (SignatureV0 0) (PublicKeyV0 0)
                (User (UserAddressV0 0)) (BlockIdV0 h)) [])
    [] (SignatureV0 0) (PublicKeyV0 0) (User (UserAddressV0 0)) (BlockIdV0 h).

(** No call on the shared storage panics, and every call keeps it consistent:
    the owner counters are the number of live instances that hold a reference,
    an object is stored exactly when it has an owner, and the secondary indexes
    list exactly the stored objects. *)
Theorem storage_calls_total
    `{!SetIter BlockId, !SetIter OperationId, !SetIter EndorsementId} op w :
  world_ok w → valid_op op w → ∃ w', run_op op w = @Ok unit World w' ∧ world_ok w'.
Proof. apply run_op_spec. Qed.

Lemma storage_calls_total_witness :
  ∃ w', @run_op elements_iter elements_iter elements_iter unit
          (OStoreBlock 0 (sample_block 7 (MkSlot 1 0))) root_world = Ok w'
    ∧ world_ok w'.
Proof.
  apply (@storage_calls_total elements_iter elements_iter elements_iter).
  - apply root_world_ok.
  - split; [vm_compute; reflexivity|]. by eexists.
Defined.

(** C4. When no instance of the storage holds a reference to an object any more,
    the object has left the storage, and as long as one holds it, it is there:
    after any sequence of calls, the stored blocks, operations and endorsements
    are those some live instance refers to. *)
Theorem storage_no_leak
    `{!SetIter BlockId, !SetIter OperationId, !SetIter EndorsementId} w :
  storage_reachable w →
  (∀ b, is_Some (BlockIndex.get (p_index (sh_blocks (w_shared w))) b)
     ↔ ∃ st, st ∈ w_live w ∧ b ∈ local_used_blocks st)
  ∧ (∀ o, is_Some (OperationIndex.get (p_index (sh_operations (w_shared w))) o)
     ↔ ∃ st, st ∈ w_live w ∧ o ∈ local_used_ops st)
  ∧ (∀ e, is_Some (EndorsementIndex.get (p_index (sh_endorsements (w_shared w))) e)
     ↔ ∃ st, st ∈ w_live w ∧ e ∈ local_used_endorsements st).
Proof.
  intros [H1 H2 H3]%storage_reachable_ok. split_and!; intros k.
  - exact (pool_ok_held _ _ _ k H1).
  - exact (pool_ok_held _ _ _ k H2).
  - exact (pool_ok_held _ _ _ k H3).
Qed.

(** A block stored by one instance, which is then dropped. *)
Lemma storage_no_leak_witness :
  let b := elements_iter in let o := elements_iter in let e := elements_iter in
  let w := @after_call b o e (ODrop 1) (@after_call b o e
             (OStoreBlock 1 (sample_block 7 (MkSlot 1 0)))
             (@after_call b o e (OCloneWithoutRefs 0) root_world)) in
  length (w_live w) = 1%nat
  ∧ (is_Some (BlockIndex.get (p_index (sh_blocks (w_shared w))) (BlockIdV0 7))
     ↔ ∃ st, st ∈ w_live w ∧ BlockIdV0 7 ∈ local_used_blocks st).
Proof.
  intros b o e w. split; [vm_compute; reflexivity|].
  apply (proj1 (@storage_no_leak b o e w ltac:(
    repeat (apply sr_after; [|split; [vm_compute; reflexivity|eexists; split;
      [vm_compute; reflexivity|exact I]]]); apply sr_root))).
Defined.

(** ** What calls do to the stored objects

    Dropping references may remove objects and never changes one, and claiming references does
    nothing to them: what a component holds stays what it is. *)

(** Inverts calls that return pairs. *)
Ltac inv_calls :=
  repeat first
    [ match goal with Hx : (let '(_, _) := ?x in _) = Ok _ |- _ => is_var x; destruct x end
    | inv_ok_step ]; simplify_eq.

Section objects.
Context {Id T Ix : Type} `{Countable Id, !SetIter Id, !ObjectIndex Id T Ix} `{!ObjectIndexLaws Id T Ix}.
Implicit Types (ids l : gset Id) (p : Pool Id Ix).

(** The objects of [p'] are in [p]. *)
Definition within p' p : Prop := ∀ k o, ix_get (p_index p') k = Some o → ix_get (p_index p) k = Some o.
#[global] Instance within_preorder : PreOrder within.
Proof using. split; [by intros p k o|]. intros p q r H1 H2 k o Ho. auto. Qed.

Lemma get_remove_all ix ks k o : ix_get (foldl (λ ix k, ix_remove k ix) ix ks) k = Some o → ix_get ix k = Some o.
Proof using ObjectIndexLaws0.
  revert ix. induction ks as [|x ks IH]; intros ix Hk; cbn [foldl] in Hk; [done|].
  apply IH in Hk. rewrite ix_get_remove in Hk. by case_decide.
Qed.
Lemma pool_drop_within {E} ids p l p' l' : pool_drop ids p l = @Ok E _ (p', l') → within p' p.
Proof using ObjectIndexLaws0.
  unfold pool_drop. destruct (internal_drop_refs _ _ _) as [[[o own] l2]| | |]; cbn; [|done..].
  intros [= <- _] k x Hx. by apply get_remove_all in Hx.
Qed.
Lemma drop_refs_within {E} ids p l p' l' : drop_refs ids p l = @Ok E _ (p', l') → within p' p.
Proof using ObjectIndexLaws0.
  unfold drop_refs. case_decide; [intros; by simplify_eq|apply pool_drop_within].
Qed.
Lemma pool_claim_index ids p l : p_index (pool_claim ids p l).1 = p_index p.
Proof using. unfold pool_claim. by destruct (internal_claim_refs _ _ _). Qed.
Lemma claim_refs_index ids p l : p_index (claim_refs ids p l).1.2 = p_index p.
Proof using.
  unfold claim_refs. case_decide; [done|]. pose proof (pool_claim_index (filter (λ k, is_Some (p_owners p !! k)) ids) p l).
  by destruct (pool_claim _ _ _).
Qed.
Lemma replace_refs_within {E} other p l p' l' : replace_refs other p l = @Ok E _ (p', l') → within p' p.
Proof using ObjectIndexLaws0.
  unfold replace_refs. intros Hx. inv_calls. match goal with HD : pool_drop _ _ _ = _ |- _ => apply pool_drop_within in HD as Hw end.
  intros k o Ho. apply Hw. match goal with HC : pool_claim ?i ?q ?m = _ |- _ => pose proof (pool_claim_index i q m) as Hi; rewrite HC in Hi end.
  cbn in Hi. by rewrite <-Hi.
Qed.
End objects.

Section shared.
Context `{!SetIter BlockId, !SetIter OperationId, !SetIter EndorsementId}.
Implicit Types (sh : Shared) (st : Storage).

Definition shared_within sh' sh : Prop :=
  within (sh_blocks sh') (sh_blocks sh) ∧ within (sh_operations sh') (sh_operations sh)
  ∧ within (sh_endorsements sh') (sh_endorsements sh).
#[global] Instance shared_within_preorder : PreOrder shared_within.
Proof using.
  split; [intros sh; by split_and!|]. intros a b c (A1 & A2 & A3) (B1 & B2 & B3). split_and!; by etrans.
Qed.

Lemma drop_block_refs_within {E} ids sh st sh' st' : drop_block_refs ids sh st = @Ok E _ (sh', st') → shared_within sh' sh.
Proof using. unfold drop_block_refs. intros Hx. inv_calls. split_and!; cbn; [by eapply drop_refs_within|done|done]. Qed.
Lemma drop_operation_refs_within {E} ids sh st sh' st' :
  drop_operation_refs ids sh st = @Ok E _ (sh', st') → shared_within sh' sh.
Proof using. unfold drop_operation_refs. intros Hx. inv_calls. split_and!; cbn; [done|by eapply drop_refs_within|done]. Qed.
Lemma drop_endorsement_refs_within {E} ids sh st sh' st' :
  drop_endorsement_refs ids sh st = @Ok E _ (sh', st') → shared_within sh' sh.
Proof using. unfold drop_endorsement_refs. intros Hx. inv_calls. split_and!; cbn; [done|done|by eapply drop_refs_within]. Qed.
Lemma drop_storage_within {E} sh st sh' : drop_storage sh st = @Ok E _ sh' → shared_within sh' sh.
Proof using.
  unfold drop_storage. intros Hx. inv_calls.
  repeat match goal with
  | HD : drop_block_refs _ _ _ = Ok _ |- _ => apply drop_block_refs_within in HD
  | HD : drop_operation_refs _ _ _ = Ok _ |- _ => apply drop_operation_refs_within in HD
  | HD : drop_endorsement_refs _ _ _ = Ok _ |- _ => apply drop_endorsement_refs_within in HD
  end.
  etrans; [eassumption|]. by etrans.
Qed.
Lemma extend_within {E} other sh st sh' st' : extend other sh st = @Ok E _ (sh', st') → shared_within sh' sh.
Proof using. unfold extend, extend_refs. intros Hx. inv_calls. by eapply drop_storage_within. Qed.

Lemma replace_with_within {E} other sh st sh' st' : replace_with other sh st = @Ok E _ (sh', st') → shared_within sh' sh.
Proof using.
  unfold replace_with. intros Hx. inv_calls. split_and!; cbn; by eapply replace_refs_within.
Qed.
Lemma replace_with_spec {E} st other sh O :
  shared_ok sh (st :: O) → N.of_nat (length O) < u64_max → other ∈ O →
  ∃ sh', replace_with other sh st = @Ok E _ (sh', other) ∧ shared_ok sh' (other :: O) ∧ shared_within sh' sh.
Proof using.
  intros Hsh Hlen Hin. destruct (replace_with_ok (E := E) other sh st O Hsh Hlen Hin) as (sh' & Hx & Hsh').
  exists sh'. split_and!; [done|done|by eapply replace_with_within].
Qed.
Lemma clone_within sh st : shared_within (clone sh st).1 sh.
Proof using.
  unfold clone, clone_without_refs. cbn [local_used_ops local_used_blocks local_used_endorsements].
  repeat match goal with |- context [pool_claim ?i ?p ?l] =>
    let Hi := fresh in pose proof (pool_claim_index i p l) as Hi; destruct (pool_claim i p l); cbn [fst] in Hi end.
  split_and!; cbn; intros k o; congruence.
Qed.

Lemma claim_operation_spec ids sh st O :
  shared_ok sh (st :: O) → N.of_nat (length O) < u64_max →
  (∀ k, k ∈ ids → ∃ st', st' ∈ st :: O ∧ k ∈ local_used_ops st') →
  ∃ sh', claim_operation_refs ids sh st
         = (ids, (sh', MkStorage (local_used_blocks st) (local_used_ops st ∪ ids) (local_used_endorsements st)))
    ∧ shared_ok sh' (MkStorage (local_used_blocks st) (local_used_ops st ∪ ids) (local_used_endorsements st) :: O)
    ∧ p_index (sh_operations sh') = p_index (sh_operations sh) ∧ sh_endorsements sh' = sh_endorsements sh.
Proof using.
  intros [H1 H2 H3] Hlen Hids. unfold claim_operation_refs.
  assert (∀ k, k ∈ ids → is_Some (ix_get (p_index (sh_operations sh)) k)) as Hin.
  { intros k (st' & Hst & Hk)%Hids. eapply held_objects; [exact H2|by apply list_elem_of_fmap_2|done]. }
  rewrite fmap_cons in H2. pose proof (claim_refs_ok _ _ _ ids H2 ltac:(by rewrite length_fmap)) as Hc.
  pose proof (claim_refs_index ids (sh_operations sh) (local_used_ops st)) as Hi.
  destruct (claim_refs _ _ _) as [[claimed p] l]. destruct Hc as (Hc & -> & Hp).
  assert (claimed = ids) as -> by (apply set_eq; intros k; rewrite Hc; naive_solver).
  eexists. split; [done|]. split; [by split|]. done.
Qed.
Lemma claim_endorsement_spec ids sh st O :
  shared_ok sh (st :: O) → N.of_nat (length O) < u64_max →
  (∀ k, k ∈ ids → ∃ st', st' ∈ st :: O ∧ k ∈ local_used_endorsements st') →
  ∃ sh', claim_endorsement_refs ids sh st
         = (ids, (sh', MkStorage (local_used_blocks st) (local_used_ops st) (local_used_endorsements st ∪ ids)))
    ∧ shared_ok sh' (MkStorage (local_used_blocks st) (local_used_ops st) (local_used_endorsements st ∪ ids) :: O)
    ∧ p_index (sh_endorsements sh') = p_index (sh_endorsements sh) ∧ sh_operations sh' = sh_operations sh.
Proof using.
  intros [H1 H2 H3] Hlen Hids. unfold claim_endorsement_refs.
  assert (∀ k, k ∈ ids → is_Some (ix_get (p_index (sh_endorsements sh)) k)) as Hin.
  { intros k (st' & Hst & Hk)%Hids. eapply held_objects; [exact H3|by apply list_elem_of_fmap_2|done]. }
  rewrite fmap_cons in H3. pose proof (claim_refs_ok _ _ _ ids H3 ltac:(by rewrite length_fmap)) as Hc.
  pose proof (claim_refs_index ids (sh_endorsements sh) (local_used_endorsements st)) as Hi.
  destruct (claim_refs _ _ _) as [[claimed p] l]. destruct Hc as (Hc & -> & Hp).
  assert (claimed = ids) as -> by (apply set_eq; intros k; rewrite Hc; naive_solver).
  eexists. split; [done|]. split; [by split|]. done.
Qed.

(** References taken from a storage that comes in, which is then dropped. *)
Lemma take_over {E} b o e incoming sh st O :
  shared_ok sh (st :: incoming :: O) →
  b ⊆ local_used_blocks incoming → o ⊆ local_used_ops incoming → e ⊆ local_used_endorsements incoming →
  ∃ rest sh1,
    split_off b o e incoming = @Ok E _ (MkStorage b o e, rest)
    ∧ extend (MkStorage b o e) sh st
      = @Ok E _ (sh1, MkStorage (local_used_blocks st ∪ b) (local_used_ops st ∪ o) (local_used_endorsements st ∪ e))
    ∧ shared_ok sh1 (MkStorage (local_used_blocks st ∪ b) (local_used_ops st ∪ o) (local_used_endorsements st ∪ e)
                     :: rest :: O)
    ∧ shared_within sh1 sh.
Proof using.
  intros Hsh Hb Ho He. rewrite (Permutation_swap incoming st) in Hsh.
  destruct (split_off_ok (E := E) b o e sh incoming (st :: O) Hsh Hb Ho He) as (rest & Hs & Hsh1).
  rewrite (Permutation_swap st rest), (Permutation_swap st (MkStorage b o e)) in Hsh1.
  destruct (extend_ok (E := E) (MkStorage b o e) sh st (rest :: O) Hsh1) as (sh1 & Hext & Hsh2).
  exists rest, sh1. split_and!; [done|exact Hext|exact Hsh2|by eapply extend_within].
Qed.
End shared.
