(* ===== verification/EndorsementPool.v ===== *)
(** * The pool of endorsements

    [massa-pool-worker/src/endorsement_pool.rs], and the method [add_endorsements] of
    [denunciation_pool.rs]: endorsements that a block of ours may include, by thread, by
    slot and index, and by endorsed block.  The pool owns references to them in the shared
    storage. *)

From S2P Require Import Prelude Slots Times OrdMap MipState MipStore Keys Models Ledger Wire Formats BlockFormats Storage StorageRefs Denunciations PoolExports DenunciationPool.

Open Scope N_scope.

(** [BTreeMap<(Slot, u32), PreHashMap<BlockId, EndorsementId>>] *)
Notation EndorsementMap := (list ((Slot * N) * gmap BlockId EndorsementId)) (only parsing).

Record EndorsementPool : Type := MkEndorsementPool {
  endorsements_sorted : list EndorsementMap;
  ep_storage : Storage;
  ep_last_cs_final_periods : list N }.
Implicit Types (ep : EndorsementPool) (sh : Shared) (st : Storage).

Definition MAX_ENDORSEMENTS_PER_SLOT_INDEX : N := 4.

(** [into_values] of a map, as a set of ids. *)
Definition values (m : gmap BlockId EndorsementId) : gset EndorsementId := list_to_set (map_to_list m).*2.

Section pool.
Context `{!SetIter BlockId, !SetIter OperationId, !SetIter EndorsementId}.
Context `{!VoteRatio} `{!PoolChannels} (config : PoolConfig) (wallet : Wallet).

(** A new instance of the storage, without references. *)
Definition endorsement_pool_init : EndorsementPool :=
  MkEndorsementPool (replicate (N.to_nat (thread_count config)) []) (MkStorage ∅ ∅ ∅)
    (replicate (N.to_nat (thread_count config)) 0).

Definition endorsement_pool_replace_with ep other sh : outcome ModelsError (Shared * EndorsementPool) :=
  '(sh, st) ← replace_with (ep_storage other) sh (ep_storage ep);
  Ok (sh, MkEndorsementPool (endorsements_sorted other) st (ep_last_cs_final_periods other)).

Definition endorsement_pool_len ep : N := N.of_nat (size (local_used_endorsements (ep_storage ep))).
Definition endorsement_pool_contains ep (id : EndorsementId) : bool :=
  bool_decide (id ∈ local_used_endorsements (ep_storage ep)).

(** [while let Some(..) = first_key_value()]: the first entries up to the final period. *)
Fixpoint pop_final (final_period : N) (m : EndorsementMap) (removed : gset EndorsementId)
    : EndorsementMap * gset EndorsementId :=
  match m with
  | ((inclusion_slot, _), endos) :: rest =>
      if final_period <? period inclusion_slot then (m, removed)
      else pop_final final_period rest (removed ∪ values endos)
  | [] => ([], removed)
  end.
(** The loop body for a thread; [last_cs_final_periods[thread]] is only read for an entry. *)
Definition pop_final_thread (final_cs_periods : list N) (acc : list EndorsementMap * gset EndorsementId) (thread : N)
    : outcome ModelsError (list EndorsementMap * gset EndorsementId) :=
  let '(sorted, removed) := acc in
  m ← idx sorted thread;
  match m with
  | [] => Ok (sorted, removed)
  | _ =>
      final_period ← idx final_cs_periods thread;
      let '(m, removed) := pop_final final_period m removed in
      sorted ← idx_set sorted thread m;
      Ok (sorted, removed)
  end.
Definition endorsement_notify_final_cs_periods (final_cs_periods : list N) sh ep
    : outcome ModelsError (Shared * EndorsementPool) :=
  '(sorted, removed) ← foldM (pop_final_thread final_cs_periods) (range (thread_count config)) (endorsements_sorted ep, ∅);
  '(sh, st) ← drop_endorsement_refs removed sh (ep_storage ep);
  Ok (sh, MkEndorsementPool sorted st final_cs_periods).

(** One endorsement. *)
Definition add_endorsement sh ep (acc : list EndorsementMap * gset EndorsementId) (endo_id : EndorsementId)
    : outcome ModelsError (list EndorsementMap * gset EndorsementId) :=
  let '(sorted, added) := acc in
  endo ← expect "attempting to add endorsement to pool, but it is absent from storage"
           (ix_get (p_index (sh_endorsements sh)) endo_id);
  final_period ← idx (ep_last_cs_final_periods ep) (thread (e_slot (content endo)));
  if period (e_slot (content endo)) <=? final_period then Ok acc
  else
    match get_selection (e_slot (content endo)) with
    | None => Ok acc
    | Some pos_draws =>
        if negb (bool_decide (sel_endorsements pos_draws !! N.to_nat (e_index (content endo))
                              = Some (content_creator_address endo))) then Ok acc
        else if negb (bool_decide (sel_producer pos_draws ∈ wallet)) then Ok acc
        else
          let key := (e_slot (content endo), e_index (content endo)) in
          m ← idx sorted (thread (e_slot (content endo)));
          let by_target_block := default ∅ (bt_get key m) in
          let is_full := MAX_ENDORSEMENTS_PER_SLOT_INDEX <=? N.of_nat (size by_target_block) in
          let vacant := bool_decide (by_target_block !! e_endorsed_block (content endo) = None) in
          let insert := vacant && negb is_full in
          sorted ← idx_set sorted (thread (e_slot (content endo)))
                     (bt_insert key (if insert then <[e_endorsed_block (content endo) := id endo]> by_target_block
                                     else by_target_block) m);
          Ok (sorted, if insert then added ∪ {[id endo]} else added)
    end.

(** [while len > max { pop_last }]; what was added is no longer, and what was there is removed. *)
Definition prune_last (endos : gmap BlockId EndorsementId) (acc : gset EndorsementId * gset EndorsementId)
    : gset EndorsementId * gset EndorsementId :=
  foldl (λ '(added, removed) endo_id,
    if decide (endo_id ∈ added) then (added ∖ {[endo_id]}, removed) else (added, removed ∪ {[endo_id]}))
    acc (map_iter endos).*2.
Fixpoint prune (over : nat) (m : EndorsementMap) (acc : gset EndorsementId * gset EndorsementId)
    : EndorsementMap * (gset EndorsementId * gset EndorsementId) :=
  match over, last m with
  | S over, Some (_, endos) => prune over (removelast m) (prune_last endos acc)
  | _, _ => (m, acc)
  end.
Definition prune_thread (acc : list EndorsementMap * (gset EndorsementId * gset EndorsementId)) (thread : N)
    : outcome ModelsError (list EndorsementMap * (gset EndorsementId * gset EndorsementId)) :=
  let '(sorted, acc) := acc in
  m ← idx sorted thread;
  let '(m, acc) := prune (length m - N.to_nat (max_endorsements_pool_size_per_thread config)) m acc in
  sorted ← idx_set sorted thread m;
  Ok (sorted, acc).

(** The storage that comes in is dropped at the end. *)
Definition add_endorsements (endorsement_storage : Storage) sh ep : outcome ModelsError (Shared * EndorsementPool) :=
  let items := set_iter (local_used_endorsements endorsement_storage) in
  '(sorted, added) ← foldM (add_endorsement sh ep) items (endorsements_sorted ep, ∅);
  '(sorted, (added, removed)) ← foldM prune_thread (range (thread_count config)) (sorted, (added, ∅));
  '(taken, endorsement_storage) ← split_off ∅ ∅ added endorsement_storage;
  '(sh, st) ← extend taken sh (ep_storage ep);
  '(sh, st) ← drop_endorsement_refs removed sh st;
  sh ← drop_storage sh endorsement_storage;
  Ok (sh, MkEndorsementPool sorted st (ep_last_cs_final_periods ep)).

(** The endorsements for a block, with a storage that owns them. *)
Definition get_block_endorsements ep (slot : Slot) (target_block : BlockId) sh
    : list (option EndorsementId) * (Shared * Storage) :=
  let endo_ids :=
    (λ index, m ← endorsements_sorted ep !! N.to_nat (thread slot);
              by_target_block ← bt_get (slot, index) m; by_target_block !! target_block)
    <$> range (max_block_endorsement_count config) in
  let endo_storage := clone_without_refs (ep_storage ep) in
  let claim_endos := list_to_set (omap Datatypes.id endo_ids) in
  let '(claimed_endos, (sh, endo_storage)) := claim_endorsement_refs claim_endos sh endo_storage in
  if (size claimed_endos =? size claim_endos)%nat then (endo_ids, (sh, endo_storage))
  else ((λ endo_id, id ← endo_id; if decide (id ∈ claimed_endos) then Some id else None) <$> endo_ids, (sh, endo_storage)).

(** [DenunciationPool::add_endorsements]: all are read, then added one by one; [now i] is the
    time of the i-th. *)
Context `{!Varint} `{!HashFn} `{!Ed25519}.
Definition denunciation_add_endorsements (endorsement_storage : Storage) sh (now : nat → MassaTime) (dp : DenunciationPool)
    : outcome ModelsError (Shared * DenunciationPool) :=
  precursors ← foldM (λ acc endo_id,
      endo ← expect "could not get endorsement owned by storage" (ix_get (p_index (sh_endorsements sh)) endo_id);
      Ok (acc ++ [precursor_of_endorsement endo]))
    (set_iter (local_used_endorsements endorsement_storage)) [];
  dp ← foldM (λ dp '(i, precursor), add_denunciation_precursor config precursor (now i) dp) (imap pair precursors) dp;
  sh ← drop_storage sh endorsement_storage;
  Ok (sh, dp).
End pool.
