(* ===== verification/EndorsementPoolFacts.v ===== *)
(** * The pool of endorsements

    Every endorsement of the pool is stored, where its slot, index and endorsed block say,
    drawn by the proof of stake, after the last final slot of its thread, for a block that we
    may produce; the pool owns exactly these.  The pool has a bounded size, no call panics,
    and the endorsements for a block are those that its header may contain. *)

From S2P Require Import Prelude Slots Times OrdMap MipState MipStore Keys Models Ledger Wire Formats BlockFormats Storage StorageRefs Denunciations PoolExports DenunciationPool EndorsementPool.

Open Scope N_scope.

Section ids.
Implicit Types (m : EndorsementMap) (sorted : list EndorsementMap) (b : BlockId) (k : EndorsementId).

(** The endorsements of a thread, and of all threads. *)
Definition map_ids m : gset EndorsementId := ⋃ (values <$> m.*2).
Definition all_ids sorted : gset EndorsementId := ⋃ (map_ids <$> sorted).

Lemma elem_of_values (bm : gmap BlockId EndorsementId) k : k ∈ values bm ↔ ∃ b, bm !! b = Some k.
Proof using.
  unfold values. rewrite elem_of_list_to_set, list_elem_of_fmap. split.
  - intros ([b k'] & -> & Hb%elem_of_map_to_list). by exists b.
  - intros [b Hb]. exists (b, k). by rewrite elem_of_map_to_list.
Qed.
Lemma elem_of_map_ids m k : k ∈ map_ids m ↔ ∃ key bm b, (key, bm) ∈ m ∧ bm !! b = Some k.
Proof using.
  unfold map_ids. rewrite elem_of_union_list. split.
  - intros (X & (bm & -> & ([key bm'] & -> & Hm)%list_elem_of_fmap)%list_elem_of_fmap & [b Hb]%elem_of_values).
    by exists key, bm', b.
  - intros (key & bm & b & Hm & Hb). exists (values bm). split; [|apply elem_of_values; by exists b].
    apply list_elem_of_fmap_2. by apply (list_elem_of_fmap_2 snd _ (key, bm)).
Qed.
Lemma elem_of_all_ids sorted k :
  k ∈ all_ids sorted ↔ ∃ t m key bm b, sorted !! t = Some m ∧ (key, bm) ∈ m ∧ bm !! b = Some k.
Proof using.
  unfold all_ids. rewrite elem_of_union_list. split.
  - intros (X & (m & -> & [t Ht]%list_elem_of_lookup)%list_elem_of_fmap & (key & bm & b & Hm & Hb)%elem_of_map_ids).
    by exists t, m, key, bm, b.
  - intros (t & m & key & bm & b & Ht & Hm & Hb). exists (map_ids m).
    split; [by eapply list_elem_of_fmap_2, list_elem_of_lookup_2|]. apply elem_of_map_ids. by exists key, bm, b.
Qed.
Lemma map_ids_app m1 m2 : map_ids (m1 ++ m2) = map_ids m1 ∪ map_ids m2.
Proof using. unfold map_ids. by rewrite !fmap_app, union_list_app_L. Qed.

Lemma size_values (bm : gmap BlockId EndorsementId) : (size (values bm) ≤ size bm)%nat.
Proof using.
  unfold values. rewrite <-length_map_to_list, <-(length_fmap snd). generalize (map_to_list bm).*2 as ks. intros ks.
  induction ks as [|k ks IH]; cbn; [by rewrite size_empty|]. rewrite size_union_alt, size_singleton.
  assert (size (list_to_set ks ∖ {[k]} : gset EndorsementId) ≤ size (list_to_set ks : gset EndorsementId))%nat
    by (apply subseteq_size; set_solver). lia.
Qed.
Lemma size_union_list (Xs : list (gset EndorsementId)) n :
  Forall (λ X, N.of_nat (size X) ≤ n) Xs → N.of_nat (size (⋃ Xs)) ≤ N.of_nat (length Xs) * n.
Proof using.
  induction 1 as [|X Xs HX _ IH]; cbn; [rewrite size_empty; lia|]. rewrite size_union_alt.
  assert (size (⋃ Xs ∖ X) ≤ size (⋃ Xs))%nat by (apply subseteq_size; set_solver). lia.
Qed.
End ids.

Section facts.
Context `{!SetIter BlockId, !SetIter OperationId, !SetIter EndorsementId}.
Context `{!VoteRatio} `{!PoolChannels} (config : PoolConfig) (wallet : Wallet).
Implicit Types (m : EndorsementMap) (sorted : list EndorsementMap) (b : BlockId) (k : EndorsementId).
Implicit Types (ep : EndorsementPool) (sh : Shared) (st : Storage) (get : EndorsementId → option SecureShareEndorsement).

(** ** The invariant *)

(** An endorsement that we may include, as the proof of stake draws. *)
Definition drawn (e : SecureShareEndorsement) : Prop :=
  ∃ draws, get_selection (e_slot (content e)) = Some draws
    ∧ sel_endorsements draws !! N.to_nat (e_index (content e)) = Some (content_creator_address e)
    ∧ sel_producer draws ∈ wallet.
Definition placed get (key : Slot * N) b k : Prop :=
  ∃ e, get k = Some e ∧ key = (e_slot (content e), e_index (content e)) ∧ b = e_endorsed_block (content e) ∧ drawn e.
Definition entry_ok get (t : nat) (key : Slot * N) (bm : gmap BlockId EndorsementId) : Prop :=
  N.to_nat (thread key.1) = t ∧ N.of_nat (size bm) ≤ MAX_ENDORSEMENTS_PER_SLOT_INDEX
  ∧ ∀ b k, bm !! b = Some k → placed get key b k.
Definition sorted_ok get sorted : Prop :=
  N.of_nat (length sorted) = thread_count config
  ∧ ∀ t m, sorted !! t = Some m → bt_sorted m ∧ ∀ key bm, (key, bm) ∈ m → entry_ok get t key bm.
(** After the last final slot of the thread. *)
Definition not_final (periods : list N) sorted : Prop :=
  ∀ t m key bm, sorted !! t = Some m → (key, bm) ∈ m → ∃ p, periods !! t = Some p ∧ p < period key.1.
Definition pool_bounded sorted : Prop :=
  Forall (λ m, N.of_nat (length m) ≤ max_endorsements_pool_size_per_thread config) sorted.

Notation get_of sh := (ix_get (p_index (sh_endorsements sh))) (only parsing).
Record endorsement_pool_ok sh ep : Prop := {
  epo_sorted : sorted_ok (get_of sh) (endorsements_sorted ep);
  epo_refs : ep_storage ep = MkStorage ∅ ∅ (all_ids (endorsements_sorted ep));
  epo_periods : N.of_nat (length (ep_last_cs_final_periods ep)) = thread_count config;
  epo_final : not_final (ep_last_cs_final_periods ep) (endorsements_sorted ep);
  epo_bounded : pool_bounded (endorsements_sorted ep) }.

Lemma sorted_ok_ext get get' sorted :
  sorted_ok get sorted → (∀ k, k ∈ all_ids sorted → get' k = get k) → sorted_ok get' sorted.
Proof using.
  intros [Hlen Hok] Hsame. split; [done|]. intros t m Ht. destruct (Hok t m Ht) as [Hs He]. split; [done|].
  intros key bm Hm. destruct (He key bm Hm) as (Hth & Hsz & Hpl). split_and!; [done|done|]. intros b k Hb.
  destruct (Hpl b k Hb) as (e & Hg & Hrest). exists e. split; [|done]. rewrite Hsame; [done|].
  apply elem_of_all_ids. by exists t, m, key, bm, b.
Qed.

(** ** Removing entries *)

Lemma sorted_ok_NoDup m : bt_sorted m → NoDup m.*1.
Proof using.
  unfold bt_sorted. induction m.*1 as [|a l IH]; intros Hs; [constructor|]. apply StronglySorted_inv in Hs as [Hs Ha].
  constructor; [|auto]. intros Hin. eapply Forall_forall in Ha; [|done]. by apply cmp_lt_irrefl in Ha.
Qed.
Lemma StronglySorted_sublist {A} (R : A → A → Prop) (l1 l2 : list A) :
  sublist l1 l2 → StronglySorted R l2 → StronglySorted R l1.
Proof using.
  induction 1 as [|x l1 l2 Hsub IH|x l1 l2 Hsub IH]; intros Hs; [done| |]; apply StronglySorted_inv in Hs as [Hs Hx]; [|auto].
  constructor; [auto|]. apply Forall_forall. intros y Hy. eapply Forall_forall; [exact Hx|]. by eapply sublist_subseteq.
Qed.
(** An endorsement is in one place. *)
Lemma one_place get sorted t m key bm b t' m' key' bm' b' k :
  sorted_ok get sorted → sorted !! t = Some m → (key, bm) ∈ m → bm !! b = Some k →
  sorted !! t' = Some m' → (key', bm') ∈ m' → bm' !! b' = Some k → t = t' ∧ key = key' ∧ b = b'.
Proof using.
  intros [_ Hok] Ht Hm Hb Ht' Hm' Hb'.
  destruct (proj2 (Hok t m Ht) _ _ Hm) as (Hth & _ & Hpl). destruct (proj2 (Hok t' m' Ht') _ _ Hm') as (Hth' & _ & Hpl').
  destruct (Hpl b k Hb) as (e & Hg & Hkey & Hbe & _). destruct (Hpl' b' k Hb') as (e' & Hg' & Hkey' & Hbe' & _). by simplify_eq.
Qed.
Lemma replace_thread get sorted t m keep gone :
  sorted_ok get sorted → sorted !! t = Some m → sublist keep m → m ≡ₚ keep ++ gone →
  sorted_ok get (<[t := keep]> sorted)
  ∧ ∀ k, k ∈ all_ids (<[t := keep]> sorted) ↔ k ∈ all_ids sorted ∧ k ∉ map_ids gone.
Proof using.
  intros Hok Ht Hsub Hp. pose proof Hok as [Hlen Hall]. destruct (Hall t m Ht) as [Hs He].
  assert (t < length sorted)%nat as Hlt by (by eapply lookup_lt_Some). split.
  - split; [by rewrite length_insert|]. intros t' m' Ht'. destruct (decide (t = t')) as [<-|Hne].
    + rewrite list_lookup_insert_eq in Ht' by done. simplify_eq. split.
      * eapply StronglySorted_sublist; [by apply fmap_sublist|exact Hs].
      * intros key bm Hm. apply He. by eapply sublist_subseteq.
    + rewrite list_lookup_insert_ne in Ht' by done. by apply Hall.
  - intros k. rewrite !elem_of_all_ids, elem_of_map_ids. split.
    + intros (t' & m' & key & bm & b & Ht' & Hm & Hb). destruct (decide (t = t')) as [<-|Hne].
      * rewrite list_lookup_insert_eq in Ht' by done. simplify_eq. assert ((key, bm) ∈ m) as Hm' by (by eapply sublist_subseteq).
        split; [by exists t, m, key, bm, b|]. intros (key' & bm' & b' & Hg & Hb').
        assert ((key', bm') ∈ m) as Hg' by (rewrite Hp; apply elem_of_app; by right).
        destruct (one_place _ _ _ _ _ _ _ _ _ _ _ _ _ Hok Ht Hm' Hb Ht Hg' Hb') as (_ & <- & _).
        apply sorted_ok_NoDup in Hs. rewrite Hp, fmap_app in Hs. apply NoDup_app in Hs as (_ & Hdis & _).
        apply (Hdis key); [by apply (list_elem_of_fmap_2 fst _ (key, bm))|by apply (list_elem_of_fmap_2 fst _ (key, bm'))].
      * rewrite list_lookup_insert_ne in Ht' by done. split; [by exists t', m', key, bm, b|].
        intros (key' & bm' & b' & Hg & Hb'). assert ((key', bm') ∈ m) as Hg' by (rewrite Hp; apply elem_of_app; by right).
        by destruct (one_place _ _ _ _ _ _ _ _ _ _ _ _ _ Hok Ht Hg' Hb' Ht' Hm Hb).
    + intros [(t' & m' & key & bm & b & Ht' & Hm & Hb) Hno]. destruct (decide (t = t')) as [<-|Hne].
      * simplify_eq. rewrite Hp in Hm. apply elem_of_app in Hm as [Hm|Hm]; [|destruct Hno; by exists key, bm, b].
        exists t, keep, key, bm, b. by rewrite list_lookup_insert_eq.
      * exists t', m', key, bm, b. by rewrite list_lookup_insert_ne.
Qed.
(** What holds of all entries still does. *)
Lemma replace_thread_final periods sorted t m keep :
  not_final periods sorted → sorted !! t = Some m → sublist keep m → not_final periods (<[t := keep]> sorted).
Proof using.
  intros Hf Ht Hsub t' m' key bm Ht' Hm. destruct (decide (t = t')) as [<-|Hne].
  - rewrite list_lookup_insert_eq in Ht' by (by eapply lookup_lt_Some). simplify_eq.
    eapply (Hf t m); [done|]. by eapply sublist_subseteq.
  - rewrite list_lookup_insert_ne in Ht' by done. by eapply Hf.
Qed.

(** ** Final slots *)

Lemma pop_final_spec p m removed :
  ∃ gone, m = gone ++ (pop_final p m removed).1 ∧ (pop_final p m removed).2 = removed ∪ map_ids gone
    ∧ (∀ key bm, (key, bm) ∈ gone → period key.1 ≤ p)
    ∧ match (pop_final p m removed).1 with [] => True | ((s, _), _) :: _ => p < period s end.
Proof using.
  revert removed. induction m as [|[[s i] bm] m IH]; intros removed; cbn [pop_final].
  { exists []. split_and!; [done|cbn; set_solver|by intros ? ? ?%not_elem_of_nil|done]. }
  destruct (N.ltb_spec p (period s)) as [Hlt|Hle].
  { exists []. split_and!; [done|cbn; set_solver|by intros ? ? ?%not_elem_of_nil|done]. }
  destruct (IH (removed ∪ values bm)) as (gone & Heq & Hr & Hgone & Hlast). exists ((s, i, bm) :: gone).
  split_and!; [by rewrite Heq at 1|rewrite Hr; cbn; set_solver| |done].
  intros key bm' [?|?]%elem_of_cons; [by simplify_eq|by eapply Hgone].
Qed.
Lemma pair_lt_period (x y : Slot * N) : cmp_lt x y → period x.1 ≤ period y.1.
Proof using.
  destruct x as [[p t] i], y as [[p' t'] i']. unfold cmp_lt, cmp, pair_ord, cmp, slot_ord, slot_cmp. cbn [fst snd period thread].
  destruct (N.compare_spec p p'); cbn; [lia|lia|done].
Qed.
Lemma pop_final_after p m removed key bm :
  bt_sorted m → (key, bm) ∈ (pop_final p m removed).1 → p < period key.1.
Proof using.
  intros Hs. destruct (pop_final_spec p m removed) as (gone & Heq & _ & _ & Hfst). rewrite Heq in Hs.
  destruct (pop_final p m removed).1 as [|[[s i] bm0] rest]; [by intros ?%not_elem_of_nil|].
  apply (StronglySorted_sublist _ (((s, i, bm0) :: rest).*1)) in Hs; [|apply fmap_sublist, sublist_inserts_l; done].
  apply bt_sorted_cons in Hs as [_ Hall]. intros [?|Hin]%elem_of_cons; [by simplify_eq|].
  apply Hall, pair_lt_period in Hin. cbn in Hin. lia.
Qed.

Definition final_at (periods : list N) (s : Slot) : Prop :=
  ∃ p, periods !! N.to_nat (thread s) = Some p ∧ period s ≤ p.
(** The loop over the threads: [P] are the endorsements of the pool at first. *)
Definition popped get (P : gset EndorsementId) (periods : list N) (pre : list N) (acc : list EndorsementMap * gset EndorsementId) : Prop :=
  sorted_ok get acc.1 ∧ pool_bounded acc.1 ∧ (∀ k, k ∈ all_ids acc.1 ↔ k ∈ P ∧ k ∉ acc.2)
  ∧ (∀ k, k ∈ acc.2 → ∃ e, get k = Some e ∧ final_at periods (e_slot (content e)))
  ∧ ∀ t m key bm, acc.1 !! t = Some m → N.of_nat t ∈ pre → (key, bm) ∈ m →
      ∃ p, periods !! t = Some p ∧ p < period key.1.

Lemma pool_bounded_insert sorted t m keep :
  pool_bounded sorted → sorted !! t = Some m → (length keep ≤ length m)%nat → pool_bounded (<[t := keep]> sorted).
Proof using.
  intros Hb Ht Hl. apply Forall_insert; [done|]. eapply Forall_lookup_1 in Hb; [|exact Ht]. cbn in Hb. lia.
Qed.

Lemma pop_final_thread_spec get P periods pre post t acc :
  N.of_nat (length periods) = thread_count config → range (thread_count config) = pre ++ t :: post →
  popped get P periods pre acc →
  ∃ acc', pop_final_thread periods acc t = Ok acc' ∧ popped get P periods (pre ++ [t]) acc'.
Proof using.
  intros Hlen Hr (Hok & Hb & Hids & Hfin & Hpre). destruct acc as [sorted removed]. cbn [fst snd] in *.
  destruct (range_split _ _ _ _ Hr) as [Ht Hlt]. unfold pop_final_thread.
  destruct (idx_total (E := ModelsError) sorted t) as (m & -> & Hm); [destruct Hok; lia|]. cbn [mbind outcome_bind].
  destruct m as [|x m0] eqn:Hmm; [|rewrite <-Hmm in *].
  { eexists. split; [done|]. split_and!; [done|done|done|done|]. intros t' m' key bm Ht' [Hin|Hin%list_elem_of_singleton]%elem_of_app Hk.
    - by eapply Hpre.
    - cbn in Ht'. rewrite <-Hin, Nat2N.id, Ht' in Hm. injection Hm as ->. by apply not_elem_of_nil in Hk. }
  destruct (idx_total (E := ModelsError) periods t) as (p & -> & Hp); [lia|]. cbn [mbind outcome_bind].
  destruct (pop_final_spec p m removed) as (gone & Heq & Hrem & Hgone & _). pose proof (pop_final_after p m removed) as Hafter.
  destruct (pop_final p m removed) as [keep removed']. cbn [fst snd] in *. subst removed'.
  assert (sublist keep m) as Hsub by (rewrite Heq; by apply sublist_inserts_l).
  destruct (replace_thread get sorted (N.to_nat t) m keep gone Hok Hm Hsub) as [Hok' Hids'].
  { rewrite Heq at 1. by rewrite (comm (++)). }
  pose proof (proj1 (proj2 Hok _ _ Hm)) as Hsm.
  unfold idx_set. rewrite (proj2 (N.ltb_lt _ _)) by (destruct Hok; lia). cbn [mbind outcome_bind].
  eexists. split; [done|]. split_and!; cbn [fst snd].
  - done.
  - eapply pool_bounded_insert; [done..|]. by apply sublist_length.
  - intros k. rewrite Hids', Hids. set_solver.
  - intros k [Hk|(key & bm & b & Hin & Hk)%elem_of_map_ids]%elem_of_union; [auto|].
    apply Hgone in Hin as Hle. assert ((key, bm) ∈ m) as Hin' by (rewrite Heq; apply elem_of_app; by left).
    destruct (proj2 (proj2 Hok _ _ Hm) _ _ Hin') as (Hth & _ & Hpl). destruct (Hpl b k Hk) as (e & He & -> & _).
    exists e. split; [done|]. exists p. cbn in *. by rewrite Hth.
  - intros t' m' key bm Ht' Hin Hk. destruct (decide (N.to_nat t = t')) as [<-|Hne].
    + rewrite list_lookup_insert_eq in Ht' by (by eapply lookup_lt_Some). simplify_eq. exists p. split; [done|]. by eapply Hafter.
    + rewrite list_lookup_insert_ne in Ht' by done. apply elem_of_app in Hin as [Hin|Hin%list_elem_of_singleton]; [by eapply Hpre|lia].
Qed.

(** The pool holds what it lists, as before. *)
Lemma pool_holds sh sh' sorted O :
  sorted_ok (get_of sh) sorted → shared_ok sh' (MkStorage ∅ ∅ (all_ids sorted) :: O) → shared_within sh' sh →
  sorted_ok (get_of sh') sorted.
Proof using SetIter2.
  intros Hok Hsh (_ & _ & Hw). eapply sorted_ok_ext; [exact Hok|]. intros k Hk.
  destruct (held_objects (sh_endorsements sh') (local_used_endorsements <$> MkStorage ∅ ∅ (all_ids sorted) :: O)
    (all_ids sorted) k) as [e He]; [apply Hsh|by left|done|]. rewrite He. apply Hw in He. done.
Qed.

Lemma endorsement_notify_spec periods sh ep O :
  shared_ok sh (ep_storage ep :: O) → endorsement_pool_ok sh ep → N.of_nat (length periods) = thread_count config →
  ∃ sh' ep', endorsement_notify_final_cs_periods config periods sh ep = Ok (sh', ep')
    ∧ shared_ok sh' (ep_storage ep' :: O) ∧ shared_within sh' sh ∧ endorsement_pool_ok sh' ep'
    ∧ ep_last_cs_final_periods ep' = periods
    ∧ ∀ k, k ∈ all_ids (endorsements_sorted ep') ↔ k ∈ all_ids (endorsements_sorted ep)
        ∧ ∃ e, get_of sh k = Some e ∧ ¬ final_at periods (e_slot (content e)).
Proof using.
  intros Hsh [Hok Hrefs Hper Hfin Hb] Hlen. unfold endorsement_notify_final_cs_periods.
  destruct (foldM_total (popped (get_of sh) (all_ids (endorsements_sorted ep)) periods) (pop_final_thread periods)
    (range (thread_count config)) (endorsements_sorted ep, ∅)) as ([sorted removed] & -> & Hpop).
  { split_and!; [done|done|set_solver|by intros k Hk%elem_of_empty|by intros ? ? ? ? _ Hk%not_elem_of_nil]. }
  { intros pre t post acc Hr Hacc. by eapply pop_final_thread_spec. }
  destruct Hpop as (Hok' & Hb' & Hids & Hrem & Hafter). cbn [fst snd mbind outcome_bind] in *.
  destruct (drop_endorsement_refs_ok (E := ModelsError) removed sh (ep_storage ep) O Hsh) as (sh' & Hdrop & Hsh').
  apply drop_endorsement_refs_within in Hdrop as Hw. rewrite Hdrop. cbn [mbind outcome_bind].
  assert (MkStorage (local_used_blocks (ep_storage ep)) (local_used_ops (ep_storage ep))
            (local_used_endorsements (ep_storage ep) ∖ removed) = MkStorage ∅ ∅ (all_ids sorted)) as Hst.
  { rewrite Hrefs. cbn. f_equal. apply set_eq. intros k. by rewrite elem_of_difference, Hids. }
  rewrite Hst in *. do 2 eexists. split; [done|]. split_and!; [done|done| |done|].
  - split; cbn [endorsements_sorted ep_storage ep_last_cs_final_periods]; [by eapply pool_holds|done|done| |done].
    intros t m key bm Ht Hm. eapply Hafter; [done| |done]. apply elem_of_range. apply lookup_lt_Some in Ht. destruct Hok'. lia.
  - cbn [endorsements_sorted]. intros k. split.
    + intros Hk. split; [by apply Hids|]. apply elem_of_all_ids in Hk as (t & m & key & bm & b & Ht & Hm & Hk).
      destruct (proj2 (proj2 Hok' t m Ht) _ _ Hm) as (Hth & _ & Hpl). destruct (Hpl b k Hk) as (e & He & -> & _).
      exists e. split; [done|]. intros (p & Hp & Hle). edestruct (Hafter t m) as (p' & Hp' & Hlt); [done| |exact Hm|].
      { apply elem_of_range. apply lookup_lt_Some in Ht. destruct Hok'. lia. }
      cbn in *. subst t. simplify_eq. lia.
    + intros [Hk (e & He & Hno)]. apply Hids. split; [done|]. intros (e' & He' & Hf)%Hrem. by simplify_eq.
Qed.

(** ** Adding *)

(** Replacing the entry of a key by one that has more. *)
Lemma insert_entry get sorted t m key bm' :
  let bm := default ∅ (bt_get key m) in
  sorted_ok get sorted → sorted !! t = Some m → entry_ok get t key bm' → bm ⊆ bm' →
  sorted_ok get (<[t := bt_insert key bm' m]> sorted)
  ∧ ∀ k, k ∈ all_ids (<[t := bt_insert key bm' m]> sorted) ↔ k ∈ all_ids sorted ∨ ∃ b, bm' !! b = Some k.
Proof using.
  intros bm Hok Ht He Hsub. pose proof Hok as [Hlen Hall]. destruct (Hall t m Ht) as [Hs Hm].
  assert (t < length sorted)%nat as Hlt by (by eapply lookup_lt_Some). split.
  - split; [by rewrite length_insert|]. intros t' m' Ht'. destruct (decide (t = t')) as [<-|Hne].
    + rewrite list_lookup_insert_eq in Ht' by done. simplify_eq. split; [by apply bt_sorted_insert|].
      intros key' bm0 [?|Hin]%elem_of_bt_insert; [by simplify_eq|by apply Hm].
    + rewrite list_lookup_insert_ne in Ht' by done. by apply Hall.
  - intros k. rewrite !elem_of_all_ids. split.
    + intros (t' & m' & key' & bm0 & b & Ht' & Hin & Hb). destruct (decide (t = t')) as [<-|Hne].
      * rewrite list_lookup_insert_eq in Ht' by done. simplify_eq. apply elem_of_bt_insert in Hin as [?|Hin].
        -- simplify_eq. right. by exists b.
        -- left. by exists t, m, key', bm0, b.
      * rewrite list_lookup_insert_ne in Ht' by done. left. by exists t', m', key', bm0, b.
    + intros [(t' & m' & key' & bm0 & b & Ht' & Hin & Hb)|[b Hb]].
      * destruct (decide (t = t')) as [<-|Hne]; [|exists t', m', key', bm0, b; by rewrite list_lookup_insert_ne].
        simplify_eq. rewrite elem_of_bt in Hin by done. destruct (decide (key = key')) as [<-|Hk].
        -- exists t, (bt_insert key bm' m), key, bm', b. rewrite list_lookup_insert_eq by done.
           split_and!; [done|by apply elem_of_bt; [apply bt_sorted_insert|rewrite bt_get_insert_eq]|].
           eapply lookup_weaken; [|exact Hsub]. subst bm. by rewrite Hin.
        -- exists t, (bt_insert key bm' m), key', bm0, b. rewrite list_lookup_insert_eq by done. split_and!; [done| |done].
           apply elem_of_bt; [by apply bt_sorted_insert|]. by rewrite bt_get_insert_ne.
      * exists t, (bt_insert key bm' m), key, bm', b. rewrite list_lookup_insert_eq by done.
        split_and!; [done|by apply elem_of_bt; [apply bt_sorted_insert|rewrite bt_get_insert_eq]|done].
Qed.

(** While endorsements are added: [P] are those of the pool at first, [I] those that come in. *)
Record adding get (periods : list N) (P I : gset EndorsementId) (acc : list EndorsementMap * gset EndorsementId) : Prop := {
  ad_sorted : sorted_ok get acc.1;
  ad_final : not_final periods acc.1;
  ad_ids k : k ∈ all_ids acc.1 ↔ k ∈ P ∨ k ∈ acc.2;
  ad_new : acc.2 ## P;
  ad_in : acc.2 ⊆ I }.

Lemma bt_get_entry get sorted t m key :
  sorted_ok get sorted → sorted !! t = Some m → N.to_nat (thread key.1) = t → entry_ok get t key (default ∅ (bt_get key m)).
Proof using.
  intros [_ Hall] Ht Hk. destruct (Hall t m Ht) as [Hs Hm]. destruct (bt_get key m) as [bm|] eqn:Hg; cbn.
  - apply Hm. by apply elem_of_bt.
  - split_and!; [done|by rewrite map_size_empty|]. intros b k Hb. by rewrite lookup_empty in Hb.
Qed.

Lemma entry_ids get sorted t m key b k :
  sorted_ok get sorted → sorted !! t = Some m → default ∅ (bt_get key m) !! b = Some k → k ∈ all_ids sorted.
Proof using.
  intros [_ Hall] Ht Hb. destruct (Hall t m Ht) as [Hs _]. destruct (bt_get key m) as [bm|] eqn:Hg; cbn in Hb; [|by rewrite lookup_empty in Hb].
  apply elem_of_all_ids. exists t, m, key, bm, b. by rewrite elem_of_bt.
Qed.
(** An endorsement that is listed is in its place. *)
Lemma listed_place get sorted t m e :
  sorted_ok get sorted → t = N.to_nat (thread (e_slot (content e))) → sorted !! t = Some m → get (id e) = Some e → id e ∈ all_ids sorted →
  default ∅ (bt_get (e_slot (content e), e_index (content e)) m) !! e_endorsed_block (content e) = Some (id e).
Proof using.
  intros [_ Hall] -> Ht He (t' & m' & key & bm & b & Ht' & Hm & Hb)%elem_of_all_ids.
  destruct (Hall t' m' Ht') as [Hs Hent]. destruct (Hent _ _ Hm) as (Hth & _ & Hpl).
  destruct (Hpl b _ Hb) as (e' & He' & Hkey & Hbe & _). simplify_eq. cbn in *. simplify_eq.
  apply elem_of_bt in Hm; [|done]. by rewrite Hm.
Qed.
Lemma not_final_insert periods sorted t m key bm :
  not_final periods sorted → sorted !! t = Some m → (∃ p, periods !! t = Some p ∧ p < period key.1) →
  not_final periods (<[t := bt_insert key bm m]> sorted).
Proof using.
  intros Hf Ht Hp t' m' key' bm' Ht' Hm. destruct (decide (t = t')) as [<-|Hne].
  - rewrite list_lookup_insert_eq in Ht' by (by eapply lookup_lt_Some). simplify_eq.
    apply elem_of_bt_insert in Hm as [?|Hm]; [by simplify_eq|by eapply Hf].
  - rewrite list_lookup_insert_ne in Ht' by done. by eapply Hf.
Qed.

Lemma adding_insert get periods P I sorted added t m e :
  let key := (e_slot (content e), e_index (content e)) in
  let bm := default ∅ (bt_get key m) in
  let insert := bool_decide (bm !! e_endorsed_block (content e) = None)
                && negb (MAX_ENDORSEMENTS_PER_SLOT_INDEX <=? N.of_nat (size bm)) in
  let bm' := if insert then <[e_endorsed_block (content e) := id e]> bm else bm in
  adding get periods P I (sorted, added) → t = N.to_nat (thread (e_slot (content e))) → sorted !! t = Some m →
  (∃ p, periods !! t = Some p ∧ p < period (e_slot (content e))) → get (id e) = Some e → id e ∈ I → drawn e →
  adding get periods P I (<[t := bt_insert key bm' m]> sorted, if insert then added ∪ {[id e]} else added).
Proof using.
  intros key bm insert bm' [Hok Hfin Hids Hnew Hin] Ht Hm Hp He Hi Hd. cbn [fst snd] in *.
  pose proof (bt_get_entry _ _ _ _ key Hok Hm (eq_sym Ht)) as Hentry.
  assert (entry_ok get t key bm' ∧ bm ⊆ bm') as [Hentry' Hsub].
  { subst bm'. destruct insert eqn:Hins; [|done]. apply andb_true_iff in Hins as [Hvac%bool_decide_eq_true Hfull%negb_true_iff%N.leb_gt].
    split; [|by apply insert_subseteq]. destruct Hentry as (Hth & Hsz & Hpl). split_and!; [done| |].
    - fold bm in Hsz. rewrite map_size_insert_None by done. lia.
    - intros b k [[<- <-]|[Hne Hb]]%lookup_insert_Some; [by exists e|by apply Hpl]. }
  destruct (insert_entry _ _ _ _ key bm' Hok Hm Hentry' Hsub) as [Hok' Hids'].
  assert (∀ k, k ∈ all_ids (<[t := bt_insert key bm' m]> sorted) ↔ k ∈ all_ids sorted ∨ insert = true ∧ k = id e) as Hall.
  { intros k. rewrite Hids'. subst bm'. destruct insert; [|split; [intros [?|[b Hb]]; [auto|left; by eapply entry_ids]|naive_solver]].
    split; [|intros [?|[_ ->]]; [by left|right; eexists; by rewrite lookup_insert_eq]].
    intros [?|[b [[<- <-]|[Hne Hb]]%lookup_insert_Some]]; [auto|auto|left; by eapply entry_ids]. }
  assert (insert = true → id e ∉ all_ids sorted) as Hfresh.
  { intros [Hvac%bool_decide_eq_true _]%andb_true_iff Hl. eapply listed_place in Hl; [|done..]. subst bm key. congruence. }
  split; cbn [fst snd]; [done|by apply not_final_insert| | |].
  - intros k. rewrite Hall, Hids. destruct insert; set_solver.
  - destruct insert; [|done]. specialize (Hfresh eq_refl). rewrite Hids in Hfresh. set_solver.
  - destruct insert; set_solver.
Qed.

Lemma add_endorsement_spec sh ep I acc k e :
  adding (get_of sh) (ep_last_cs_final_periods ep) (all_ids (endorsements_sorted ep)) I acc →
  N.of_nat (length (ep_last_cs_final_periods ep)) = thread_count config →
  k ∈ I → get_of sh k = Some e → id e = k → thread (e_slot (content e)) < thread_count config →
  ∃ acc', add_endorsement wallet sh ep acc k = Ok acc'
    ∧ adding (get_of sh) (ep_last_cs_final_periods ep) (all_ids (endorsements_sorted ep)) I acc'.
Proof using.
  intros Ha Hper Hk He Hid Hth. destruct acc as [sorted added]. pose proof (ad_sorted _ _ _ _ _ Ha) as Hok. cbn [fst snd] in *.
  unfold add_endorsement. rewrite He. cbn [expect mbind outcome_bind].
  destruct (idx_total (E := ModelsError) (ep_last_cs_final_periods ep) (thread (e_slot (content e)))) as (p & -> & Hp); [lia|].
  cbn [mbind outcome_bind]. case_match eqn:Hle; [by eexists|]. apply N.leb_gt in Hle.
  destruct (get_selection _) as [draws|] eqn:Hsel; [|by eexists].
  case_bool_decide as Hdraw; cbn [negb]; [|by eexists]. case_bool_decide as Hprod; cbn [negb]; [|by eexists].
  destruct (idx_total (E := ModelsError) sorted (thread (e_slot (content e)))) as (m & -> & Hm); [destruct Hok; lia|].
  cbn [mbind outcome_bind]. unfold idx_set. rewrite (proj2 (N.ltb_lt _ _)) by (destruct Hok; lia). cbn [mbind outcome_bind].
  eexists. split; [done|]. apply adding_insert; [done|done|done|by exists p|congruence|congruence|by exists draws].
Qed.

(** ** Pruning *)

Lemma prune_last_ids (ks : list EndorsementId) added removed :
  NoDup ks →
  foldl (λ '(added, removed) endo_id,
    if decide (endo_id ∈ added) then (added ∖ {[endo_id]}, removed) else (added, removed ∪ {[endo_id]})) (added, removed) ks
  = (added ∖ list_to_set ks, removed ∪ (list_to_set ks ∖ added)) :> gset EndorsementId * gset EndorsementId.
Proof using.
  revert added removed. induction ks as [|k ks IH]; intros added removed Hnd; cbn [foldl list_to_set].
  { f_equal; set_solver. }
  apply NoDup_cons in Hnd as [Hk Hnd]. assert (k ∉ (list_to_set ks : gset EndorsementId)) as Hk' by (by rewrite elem_of_list_to_set).
  case_decide as Hin; rewrite IH by done; f_equal; [set_solver| |set_solver|set_solver].
  f_equal. apply set_eq. intros x. rewrite !elem_of_difference, elem_of_union, elem_of_singleton. set_solver.
Qed.

(** While entries are removed from the end of a thread. *)
Record pruning get (periods : list N) (P I : gset EndorsementId) sorted (added removed : gset EndorsementId) : Prop := {
  pr_sorted : sorted_ok get sorted;
  pr_final : not_final periods sorted;
  pr_ids k : k ∈ all_ids sorted ↔ (k ∈ P ∨ k ∈ added) ∧ k ∉ removed;
  pr_new : added ## P;
  pr_removed : removed ⊆ P;
  pr_in : added ⊆ I }.

Lemma prune_last_spec get periods P I sorted added removed t m key bm :
  pruning get periods P I sorted added removed → sorted !! t = Some (m ++ [(key, bm)]) →
  ∃ added' removed', prune_last bm (added, removed) = (added', removed')
    ∧ pruning get periods P I (<[t := m]> sorted) added' removed'.
Proof using.
  intros [Hok Hfin Hids Hnew Hrem Hin] Ht.
  assert ((key, bm) ∈ m ++ [(key, bm)]) as Hlast by (apply elem_of_app; right; by left).
  assert (NoDup (map_iter bm).*2) as Hnd.
  { apply NoDup_fmap_2_strong; [|apply (NoDup_fmap_1 fst), NoDup_fst_map_iter]. intros [b k] [b' k'] Hb Hb' Heq. cbn in Heq. subst k'.
    rewrite elem_of_map_iter in Hb, Hb'. destruct (one_place _ _ _ _ _ _ _ _ _ _ _ _ _ Hok Ht Hlast Hb Ht Hlast Hb') as (_ & _ & <-). done. }
  assert (list_to_set (map_iter bm).*2 = values bm) as Hv.
  { apply set_eq. intros k. rewrite elem_of_list_to_set, elem_of_values, list_elem_of_fmap. split.
    - intros ([b k'] & -> & Hb%elem_of_map_iter). by exists b.
    - intros [b Hb]. exists (b, k). by rewrite elem_of_map_iter. }
  unfold prune_last. rewrite prune_last_ids, Hv by done. do 2 eexists. split; [done|].
  destruct (replace_thread get sorted t _ m [(key, bm)] Hok Ht) as [Hok' Hids']; [by apply sublist_inserts_r|done|].
  assert (map_ids [(key, bm)] = values bm) as Hone by (unfold map_ids; cbn; by rewrite (right_id_L ∅ (∪))). rewrite Hone in Hids'.
  assert (∀ k, k ∈ values bm → (k ∈ P ∨ k ∈ added) ∧ k ∉ removed) as Hbm.
  { intros k [b Hb]%elem_of_values. apply Hids, elem_of_all_ids. by exists t, (m ++ [(key, bm)]), key, bm, b. }
  split; [done| | |set_solver| |set_solver].
  - eapply replace_thread_final; [done..|]. by apply sublist_inserts_r.
  - intros k. rewrite Hids', Hids. specialize (Hbm k). set_solver.
  - intros k [?|[Hk ?]%elem_of_difference]%elem_of_union; [by apply Hrem|]. destruct (Hbm k Hk). naive_solver.
Qed.
Lemma prune_spec get periods P I over sorted added removed t m :
  pruning get periods P I sorted added removed → sorted !! t = Some m →
  ∃ added' removed', prune over m (added, removed) = (take (length m - over) m, (added', removed'))
    ∧ pruning get periods P I (<[t := take (length m - over) m]> sorted) added' removed'.
Proof using.
  revert sorted added removed m. induction over as [|over IH]; intros sorted added removed m Hpr Ht; cbn [prune].
  { rewrite Nat.sub_0_r, take_ge by done. do 2 eexists. split; [done|]. by rewrite list_insert_id. }
  destruct (last m) as [[key bm]|] eqn:Hl.
  - apply last_Some in Hl as [m0 ->]. rewrite removelast_last.
    destruct (prune_last_spec _ _ _ _ _ _ _ _ _ _ _ Hpr Ht) as (added1 & removed1 & -> & Hpr1).
    destruct (IH _ _ _ m0 Hpr1) as (added2 & removed2 & -> & Hpr2); [apply list_lookup_insert_eq; by eapply lookup_lt_Some|].
    rewrite list_insert_insert_eq in Hpr2.
    assert (take (length (m0 ++ [(key, bm)]) - S over) (m0 ++ [(key, bm)]) = take (length m0 - over) m0) as ->.
    { rewrite length_app, take_app_le by (cbn; lia). f_equal. cbn. lia. }
    by do 2 eexists.
  - apply last_None in Hl as ->. do 2 eexists. split; [done|]. cbn. by rewrite list_insert_id.
Qed.
Definition pruned get (periods : list N) (P I : gset EndorsementId) (pre : list N)
    (acc : list EndorsementMap * (gset EndorsementId * gset EndorsementId)) : Prop :=
  pruning get periods P I acc.1 acc.2.1 acc.2.2
  ∧ ∀ t m, acc.1 !! t = Some m → N.of_nat t ∈ pre → N.of_nat (length m) ≤ max_endorsements_pool_size_per_thread config.
Lemma prune_thread_spec get periods P I pre post t acc :
  range (thread_count config) = pre ++ t :: post → pruned get periods P I pre acc →
  ∃ acc', prune_thread config acc t = Ok acc' ∧ pruned get periods P I (pre ++ [t]) acc'.
Proof using.
  intros Hr [Hpr Hb]. destruct acc as [sorted [added removed]]. cbn [fst snd] in *.
  destruct (range_split _ _ _ _ Hr) as [_ Hlt]. unfold prune_thread. pose proof (pr_sorted _ _ _ _ _ _ _ Hpr) as [Hlen _].
  destruct (idx_total (E := ModelsError) sorted t) as (m & -> & Hm); [lia|]. cbn [mbind outcome_bind].
  destruct (prune_spec _ _ _ _ (length m - N.to_nat (max_endorsements_pool_size_per_thread config)) _ _ _ _ _ Hpr Hm)
    as (added' & removed' & -> & Hpr'). unfold idx_set. rewrite (proj2 (N.ltb_lt _ _)) by lia. cbn [mbind outcome_bind].
  eexists. split; [done|]. split; [done|]. cbn [fst]. intros t' m' Ht' Hin. destruct (decide (N.to_nat t = t')) as [<-|Hne].
  - rewrite list_lookup_insert_eq in Ht' by (by eapply lookup_lt_Some). simplify_eq. rewrite length_take. lia.
  - rewrite list_lookup_insert_ne in Ht' by done. apply elem_of_app in Hin as [Hin|Hin%list_elem_of_singleton]; [by eapply Hb|lia].
Qed.

(** The endorsements that come in are for threads that exist. *)
Definition threads_exist sh st : Prop :=
  ∀ k e, k ∈ local_used_endorsements st → get_of sh k = Some e → thread (e_slot (content e)) < thread_count config.

Lemma add_all sh ep incoming O :
  shared_ok sh (ep_storage ep :: incoming :: O) → endorsement_pool_ok sh ep → threads_exist sh incoming →
  ∃ sorted added removed,
    ('(sorted, added) ← foldM (add_endorsement wallet sh ep) (set_iter (local_used_endorsements incoming)) (endorsements_sorted ep, ∅);
     foldM (prune_thread config) (range (thread_count config)) (sorted, (added, ∅))) = Ok (sorted, (added, removed))
    ∧ pruning (get_of sh) (ep_last_cs_final_periods ep) (all_ids (endorsements_sorted ep)) (local_used_endorsements incoming)
        sorted added removed
    ∧ pool_bounded sorted.
Proof using.
  intros Hsh [Hok Hrefs Hper Hfin Hb] Hth.
  set (P := all_ids (endorsements_sorted ep)). set (I := local_used_endorsements incoming).
  destruct (foldM_total (λ _, adding (get_of sh) (ep_last_cs_final_periods ep) P I) (add_endorsement wallet sh ep)
    (set_iter I) (endorsements_sorted ep, ∅)) as ([sorted added] & -> & Hadd).
  { split; cbn; [done|done|set_solver|set_solver|set_solver]. }
  { intros pre k post acc Hi Hacc. assert (k ∈ I) as Hk by (apply elem_of_set_iter; rewrite Hi; apply elem_of_app; right; by left).
    destruct (held_objects (sh_endorsements sh) (local_used_endorsements <$> ep_storage ep :: incoming :: O) I k) as [e He];
      [apply Hsh|right; by left|done|].
    eapply add_endorsement_spec; [done|done|done|exact He| |by eapply Hth].
    by apply (map_Forall_lookup_1 _ _ _ _ (proj1 (po_index _ _ (so_endorsements _ _ Hsh))) He). }
  cbn [mbind outcome_bind]. destruct Hadd as [A1 A2 A3 A4 A5]. cbn [fst snd] in *.
  destruct (foldM_total (pruned (get_of sh) (ep_last_cs_final_periods ep) P I) (prune_thread config) (range (thread_count config))
    (sorted, (added, ∅))) as ([sorted' [added' removed']] & -> & Hpr & Hlen).
  { split; [|by intros ? ? ? ?%not_elem_of_nil]. split; cbn [fst snd]; [done|done| |done|set_solver|done]. intros k. rewrite A3. set_solver. }
  { intros. by eapply prune_thread_spec. }
  cbn [fst snd] in *. do 3 eexists. split; [done|]. split; [done|]. apply Forall_lookup_2. intros t m Ht. apply (Hlen t m Ht).
  apply elem_of_range. pose proof (lookup_lt_Some _ _ _ Ht). destruct (pr_sorted _ _ _ _ _ _ _ Hpr). lia.
Qed.

Lemma add_endorsements_spec incoming sh ep O :
  shared_ok sh (ep_storage ep :: incoming :: O) → endorsement_pool_ok sh ep → threads_exist sh incoming →
  ∃ sh' ep', add_endorsements config wallet incoming sh ep = Ok (sh', ep')
    ∧ shared_ok sh' (ep_storage ep' :: O) ∧ shared_within sh' sh ∧ endorsement_pool_ok sh' ep'
    ∧ ep_last_cs_final_periods ep' = ep_last_cs_final_periods ep
    ∧ all_ids (endorsements_sorted ep') ⊆ all_ids (endorsements_sorted ep) ∪ local_used_endorsements incoming.
Proof using.
  intros Hsh Hpool Hth. unfold add_endorsements.
  destruct (add_all sh ep incoming O Hsh Hpool Hth) as (sorted & added & removed & Hall & [R1 R2 R3 R4 R5 R6] & Hb).
  destruct (foldM (add_endorsement wallet sh ep) _ _) as [[s1 a1]| | |]; [|done..]. cbn [mbind outcome_bind] in *.
  rewrite Hall. cbn [mbind outcome_bind]. destruct Hpool as [_ Hrefs Hper _ _].
  destruct (take_over (E := ModelsError) ∅ ∅ added incoming sh (ep_storage ep) O Hsh) as (rest & sh1 & -> & Hext & Hsh1 & Hw1);
    [set_solver|set_solver|done|]. cbn [mbind outcome_bind]. rewrite Hext. cbn [mbind outcome_bind].
  destruct (drop_endorsement_refs_ok (E := ModelsError) removed sh1 _ _ Hsh1) as (sh2 & Hdrop & Hsh2).
  apply drop_endorsement_refs_within in Hdrop as Hw2. rewrite Hdrop. cbn [mbind outcome_bind].
  rewrite (Permutation_swap rest _) in Hsh2. destruct (drop_storage_ok (E := ModelsError) sh2 rest _ Hsh2) as (sh3 & Hd & Hsh3).
  apply drop_storage_within in Hd as Hw3. rewrite Hd. cbn [mbind outcome_bind local_used_blocks local_used_ops local_used_endorsements] in *.
  assert (shared_within sh3 sh) as Hw by (etrans; [exact Hw3|]; by etrans).
  assert (MkStorage (local_used_blocks (ep_storage ep) ∪ ∅) (local_used_ops (ep_storage ep) ∪ ∅)
            ((local_used_endorsements (ep_storage ep) ∪ added) ∖ removed) = MkStorage ∅ ∅ (all_ids sorted)) as Hst.
  { rewrite Hrefs. cbn. rewrite !(right_id_L ∅ (∪)). f_equal. apply set_eq. intros k. rewrite R3. set_solver. }
  rewrite Hst in *. do 2 eexists. split; [done|]. split_and!; [done|done| |done|].
  - split; cbn [endorsements_sorted ep_storage ep_last_cs_final_periods]; [by eapply pool_holds|done..].
  - cbn [endorsements_sorted]. intros k. rewrite R3. set_solver.
Qed.

(** ** Size *)

Lemma map_ids_size get t m :
  (∀ key bm, (key, bm) ∈ m → entry_ok get t key bm) → N.of_nat (size (map_ids m)) ≤ N.of_nat (length m) * MAX_ENDORSEMENTS_PER_SLOT_INDEX.
Proof using.
  intros Hm. unfold map_ids. rewrite <-(length_fmap snd m), <-(length_fmap values m.*2). apply size_union_list.
  apply Forall_fmap, Forall_fmap, Forall_forall. intros [key bm] Hin. cbn. destruct (Hm key bm Hin) as (_ & Hsz & _).
  pose proof (size_values bm). lia.
Qed.
Lemma endorsement_pool_size sh ep :
  endorsement_pool_ok sh ep →
  endorsement_pool_len ep ≤ thread_count config * (max_endorsements_pool_size_per_thread config * MAX_ENDORSEMENTS_PER_SLOT_INDEX).
Proof using.
  intros [[Hlen Hall] Hrefs _ _ Hb]. unfold endorsement_pool_len. rewrite Hrefs. cbn [local_used_endorsements].
  rewrite <-Hlen, <-(length_fmap map_ids (endorsements_sorted ep)). apply size_union_list. apply Forall_fmap, Forall_lookup_2.
  intros t m Ht. cbn. etrans; [eapply map_ids_size; by eapply Hall|]. apply N.mul_le_mono_r. by eapply Forall_lookup_1 in Hb.
Qed.

(** ** The endorsements of a block *)

Definition endorses (slot : Slot) (target : BlockId) (index : N) (e : SecureShareEndorsement) : Prop :=
  e_slot (content e) = slot ∧ e_index (content e) = index ∧ e_endorsed_block (content e) = target.

Lemma block_endorsement_spec get sorted slot target index k :
  sorted_ok get sorted →
  (m ← sorted !! N.to_nat (thread slot); bm ← bt_get (slot, index) m; bm !! target) = Some k ↔
  k ∈ all_ids sorted ∧ ∃ e, get k = Some e ∧ endorses slot target index e.
Proof using.
  intros Hok. pose proof Hok as [_ Hall]. rewrite elem_of_all_ids. split.
  - intros (m & Hm & (bm & Hbm & Hk)%bind_Some)%bind_Some. destruct (Hall _ _ Hm) as [Hs He]. apply elem_of_bt in Hbm; [|done].
    destruct (He _ _ Hbm) as (_ & _ & Hpl). destruct (Hpl _ _ Hk) as (e & Hg & Hkey & Hb & _). simplify_eq.
    split; [by do 5 eexists|]. by exists e.
  - intros [(t & m & key & bm & b & Ht & Hm & Hb) (e & Hg & Hslot & Hindex & Htarget)].
    destruct (Hall _ _ Ht) as [Hs He]. destruct (He _ _ Hm) as (Hth & _ & Hpl). destruct (Hpl _ _ Hb) as (e' & Hg' & Hkey & Hbe & _).
    simplify_eq. cbn in *. rewrite Ht. cbn. apply elem_of_bt in Hm; [|done]. by rewrite Hm.
Qed.
Lemma get_block_endorsements_spec slot target sh ep O :
  shared_ok sh (ep_storage ep :: O) → N.of_nat (length (ep_storage ep :: O)) < u64_max → endorsement_pool_ok sh ep →
  ∃ ks sh', get_block_endorsements config ep slot target sh = (ks, (sh', MkStorage ∅ ∅ (list_to_set (omap Datatypes.id ks))))
    ∧ shared_ok sh' (MkStorage ∅ ∅ (list_to_set (omap Datatypes.id ks)) :: ep_storage ep :: O)
    ∧ p_index (sh_endorsements sh') = p_index (sh_endorsements sh) ∧ sh_operations sh' = sh_operations sh
    ∧ N.of_nat (length ks) = max_block_endorsement_count config
    ∧ ∀ index k, index < max_block_endorsement_count config →
        ks !! N.to_nat index = Some (Some k) ↔
        k ∈ local_used_endorsements (ep_storage ep) ∧ ∃ e, get_of sh k = Some e ∧ endorses slot target index e.
Proof using.
  intros Hsh Hlen [Hok Hrefs _ _ _]. unfold get_block_endorsements. set (ks := _ <$> range _).
  assert (∀ index k, index < max_block_endorsement_count config → ks !! N.to_nat index = Some (Some k) ↔
    k ∈ all_ids (endorsements_sorted ep) ∧ ∃ e, get_of sh k = Some e ∧ endorses slot target index e) as Hks.
  { intros index k Hi. subst ks. unfold range. rewrite !list_lookup_fmap, lookup_seq_lt by lia. cbn. rewrite N2Nat.id, <-block_endorsement_spec by done.
    split; [by intros [= ?]|by intros ->]. }
  assert (N.of_nat (length ks) = max_block_endorsement_count config) as Hlks by (subst ks; rewrite length_fmap, length_range; lia).
  clearbody ks.
  destruct (claim_endorsement_spec (list_to_set (omap Datatypes.id ks)) sh (clone_without_refs (ep_storage ep)) (ep_storage ep :: O))
    as (sh' & -> & Hsh' & Hix & Hops).
  { by apply shared_ok_nothing. }
  { done. }
  { intros k Hk%elem_of_list_to_set. exists (ep_storage ep). split; [right; by left|]. rewrite Hrefs. cbn.
    apply list_elem_of_omap in Hk as (x & [i Hi]%list_elem_of_lookup & Hx). cbn in Hx. subst x.
    apply (Hks (N.of_nat i)); [apply lookup_lt_Some in Hi; lia|by rewrite Nat2N.id]. }
  rewrite Nat.eqb_refl. cbn [clone_without_refs local_used_blocks local_used_ops local_used_endorsements] in *.
  rewrite !(left_id_L ∅ (∪)) in *. exists ks, sh'. rewrite Hrefs. cbn [local_used_endorsements]. rewrite <-Hrefs.
  split_and!; [done|done|done|done|done|done].
Qed.
End facts.
