(* ===== verification/OperationPool.v ===== *)
(** * The pool of operations

    [massa-pool-worker/src/operation_pool.rs]: operations by decreasing score, for the blocks
    that we may produce.  The pool owns references to them in the shared storage.

    Scores are single-precision floats with an exponential; the sort by score is the
    class [ScoreSort], of which only that it permutes the operations matters here.
    [MassaTime::now()] is an argument. *)

From S2P Require Import Prelude Slots Times OrdMap MipState MipStore Keys Models Ledger Wire Formats BlockFormats Storage StorageRefs PoolExports.

Open Scope N_scope.

Record OperationPool : Type := MkOperationPool {
  sorted_ops : list OperationInfo;
  op_storage : Storage;
  op_last_cs_final_periods : list N }.
Implicit Types (op : OperationPool) (sh : Shared) (st : Storage).

(** [score_operations] and [sort_unstable_by] *)
Class ScoreSort : Type := {
  sort_by_score : gmap OperationId bool → list Slot → MassaTime → list OperationInfo → list OperationInfo;
  sort_by_score_perm exec_statuses pos_draws now l : sort_by_score exec_statuses pos_draws now l ≡ₚ l }.

Section pool.
Context `{!SetIter BlockId, !SetIter OperationId, !SetIter EndorsementId, !SetIter Address}.
Context `{!Varint} `{!VoteRatio} `{!PoolChannels} `{!ScoreSort} (config : PoolConfig) (wallet : Wallet).

Definition operation_pool_init : OperationPool :=
  MkOperationPool [] (MkStorage ∅ ∅ ∅) (replicate (N.to_nat (thread_count config)) 0).

Definition operation_pool_replace_with op other sh : outcome ModelsError (Shared * OperationPool) :=
  '(sh, st) ← replace_with (op_storage other) sh (op_storage op);
  Ok (sh, MkOperationPool (sorted_ops other) st (op_last_cs_final_periods other)).

Definition slot_min (a b : Slot) : Slot := if slot_le a b then a else b.
Definition slot_max_of (a b : Slot) : Slot := if slot_le a b then b else a.

(** The slots of our blocks, after the last final slot of their thread. *)
Definition get_pos_draws op (now : MassaTime) : outcome ModelsError (list Slot) :=
  min_slot ← expect "empty last_vs_final_periods in operation pool"
    (match imap (λ t p, MkSlot p (as_u8 (N.of_nat t))) (op_last_cs_final_periods op) with
     | [] => None
     | s :: l => Some (foldl slot_min s l)
     end);
  let max_slot :=
    match get_latest_block_slot_at_timestamp (thread_count config) (t0 config) (genesis_timestamp config)
            (Time.saturating_add (Time.saturating_add now (operation_max_future_start_delay config))
               (Time.saturating_mul (t0 config) 2)) with
    | Ok max_slot => default min_slot max_slot
    | _ => slot_max (thread_count config)
    end in
  let max_slot := slot_max_of max_slot min_slot in
  selections ← expect "could not get PoS draws" (get_available_selections_in_range min_slot max_slot wallet);
  let pos_draws := (filter (λ '(_, v_sel), sel_producer v_sel ∈ wallet) selections).*1 in
  foldM (λ acc s,
      final_period ← idx (op_last_cs_final_periods op) (thread s);
      Ok (if final_period <? period s then acc ++ [s] else acc)) pos_draws [].

Definition get_execution_statuses op : gmap OperationId bool :=
  let op_ids := oi_id <$> sorted_ops op in
  collect_map (omap (λ '((spec_status, final_status), op_id),
      match (spec_status, final_status) with
      | (_, Some _) => Some (op_id, true)
      | (Some _, None) => Some (op_id, false)
      | _ => None
      end) (zip (get_ops_exec_status op_ids) op_ids)).

Definition get_sender_balances op : gmap Address N :=
  let addrs := set_iter (list_to_set (oi_creator_address <$> sorted_ops op) : gset Address) in
  collect_map (omap (λ '((_, c_balance), addr), pair addr <$> c_balance)
                 (zip (get_final_and_candidate_balance addrs) addrs)).

(** [retain]: what is kept, and the ids of what is not. *)
Definition retain_ops (keep : OperationInfo → bool) (l : list OperationInfo) : list OperationInfo * gset OperationId :=
  (filter (λ i, keep i = true) l, list_to_set (oi_id <$> filter (λ i, keep i = false) l)).

Definition of_interest (exec_statuses : gmap OperationId bool) (pos_draws : list Slot) (sender_balances : gmap Address N)
    (i : OperationInfo) : bool :=
  (oi_max_gas_usage i <=? max_block_gas config) && (oi_size i <=? max_block_size config)
  && existsb (λ slot, (oi_thread i =? thread slot) && range_contains (oi_validity_period_range i) (period slot)) pos_draws
  && (minimal_fees config <=? oi_fee i)
  && negb (bool_decide (exec_statuses !! oi_id i = Some true))
  && (bool_decide (is_Some (exec_statuses !! oi_id i))
      || match sender_balances !! oi_creator_address i with Some v => oi_max_spending i <=? v | None => false end).
Definition prefilter_ops exec_statuses pos_draws sender_balances sh op : outcome ModelsError (Shared * OperationPool) :=
  let '(kept, removed) := retain_ops (of_interest exec_statuses pos_draws sender_balances) (sorted_ops op) in
  '(sh, st) ← drop_operation_refs removed sh (op_storage op);
  Ok (sh, MkOperationPool kept st (op_last_cs_final_periods op)).

(** The balances that are left after each operation. *)
Fixpoint eliminate_overflows (sender_balances balance_cache : gmap Address N) (l : list OperationInfo)
    : list OperationInfo * gset OperationId :=
  match l with
  | [] => ([], ∅)
  | i :: l =>
      if oi_executed i then
        let '(kept, removed) := eliminate_overflows sender_balances balance_cache l in (i :: kept, removed)
      else
        let balance := match balance_cache !! oi_creator_address i with
                       | Some b => b
                       | None => default 0 (sender_balances !! oi_creator_address i)
                       end in
        match checked_sub balance (oi_max_spending i) with
        | Some v =>
            let '(kept, removed) := eliminate_overflows sender_balances (<[oi_creator_address i := v]> balance_cache) l in
            (i :: kept, removed)
        | None =>
            let '(kept, removed) := eliminate_overflows sender_balances (<[oi_creator_address i := balance]> balance_cache) l in
            (kept, removed ∪ {[oi_id i]})
        end
  end.
Definition eliminate_balance_overflows sender_balances sh op : outcome ModelsError (Shared * OperationPool) :=
  let '(kept, removed) := eliminate_overflows sender_balances ∅ (sorted_ops op) in
  '(sh, st) ← drop_operation_refs removed sh (op_storage op);
  Ok (sh, MkOperationPool kept st (op_last_cs_final_periods op)).

Definition truncate_container sh op : outcome ModelsError (Shared * OperationPool) :=
  let max := N.to_nat (max_operation_pool_size config) in
  if (max <? length (sorted_ops op))%nat then
    let removed := list_to_set (oi_id <$> drop max (sorted_ops op)) in
    '(sh, st) ← drop_operation_refs removed sh (op_storage op);
    Ok (sh, MkOperationPool (take max (sorted_ops op)) st (op_last_cs_final_periods op))
  else Ok (sh, op).

Definition set_executed (exec_statuses : gmap OperationId bool) (i : OperationInfo) : OperationInfo :=
  MkOperationInfo (oi_id i) (oi_size i) (oi_max_gas_usage i) (oi_creator_address i) (oi_thread i) (oi_fee i)
    (oi_max_spending i) (oi_validity_period_range i) (bool_decide (is_Some (exec_statuses !! oi_id i))).

(** [now] is read once for the draws and once for the scores. *)
Definition operation_pool_refresh (now now' : MassaTime) sh op : outcome ModelsError (Shared * OperationPool) :=
  pos_draws ← get_pos_draws op now;
  let exec_statuses := get_execution_statuses op in
  let op := MkOperationPool (set_executed exec_statuses <$> sorted_ops op) (op_storage op) (op_last_cs_final_periods op) in
  let sender_balances := get_sender_balances op in
  '(sh, op) ← prefilter_ops exec_statuses pos_draws sender_balances sh op;
  let op := MkOperationPool (sort_by_score exec_statuses pos_draws now' (sorted_ops op)) (op_storage op)
              (op_last_cs_final_periods op) in
  '(sh, op) ← eliminate_balance_overflows sender_balances sh op;
  truncate_container sh op.

Definition operation_pool_len op : N := N.of_nat (length (sorted_ops op)).
Definition operation_pool_contains op (id : OperationId) : bool := bool_decide (id ∈ local_used_ops (op_storage op)).

Definition operation_notify_final_cs_periods (final_cs_periods : list N) op : OperationPool :=
  MkOperationPool (sorted_ops op) (op_storage op) final_cs_periods.

(** Removes [n] ids, whichever the iteration gives first. *)
Fixpoint drop_some (n : nat) (ids : gset OperationId) : gset OperationId :=
  match n with
  | O => ids
  | S n => match set_iter ids with id :: _ => drop_some n (ids ∖ {[id]}) | [] => ids end
  end.
(** The storage that comes in is dropped at the end. *)
Definition add_operations (ops_storage : Storage) sh op : outcome ModelsError (Shared * OperationPool) :=
  let new_op_ids := local_used_ops ops_storage ∖ local_used_ops (op_storage op) in
  let dropped_items :=
    saturating_sub
      (saturating_sub (saturating_add u64_max (N.of_nat (length (sorted_ops op))) (N.of_nat (size new_op_ids)))
         (max_operation_pool_size config))
      (max_operation_pool_excess_items config) in
  let new_op_ids := drop_some (N.to_nat dropped_items) new_op_ids in
  sorted ← foldM (λ sorted new_op_id,
      o ← expect "operation not found in storage but listed as owned" (ix_get (p_index (sh_operations sh)) new_op_id);
      Ok (sorted ++ [from_op o (operation_validity_periods config) (roll_price config) (thread_count config)
                       (base_operation_gas_cost config) (sp_compilation_cost config)]))
    (set_iter new_op_ids) (sorted_ops op);
  '(taken, ops_storage) ← split_off ∅ new_op_ids ∅ ops_storage;
  '(sh, st) ← extend taken sh (op_storage op);
  sh ← drop_storage sh ops_storage;
  Ok (sh, MkOperationPool sorted st (op_last_cs_final_periods op)).

(** ** Operations for a block *)

Fixpoint select_operations (slot : Slot) (remaining_space remaining_gas remaining_ops : N) (l : list OperationInfo)
    : list OperationId :=
  match l with
  | [] => []
  | i :: l =>
      if remaining_ops =? 0 then []
      else if negb (oi_thread i =? thread slot) then select_operations slot remaining_space remaining_gas remaining_ops l
      else if negb (range_contains (oi_validity_period_range i) (period slot)) then
        select_operations slot remaining_space remaining_gas remaining_ops l
      else if remaining_space <? oi_size i then select_operations slot remaining_space remaining_gas remaining_ops l
      else if remaining_gas <? oi_max_gas_usage i then select_operations slot remaining_space remaining_gas remaining_ops l
      else if oi_executed i then select_operations slot remaining_space remaining_gas remaining_ops l
      else
        oi_id i :: select_operations slot (remaining_space - oi_size i) (remaining_gas - oi_max_gas_usage i)
                     (remaining_ops - 1) l
  end.
Definition get_block_operations op (slot : Slot) sh : outcome ModelsError (list OperationId * (Shared * Storage)) :=
  let op_ids := select_operations slot (max_block_size config) (max_block_gas config) (max_operations_per_block config)
                  (sorted_ops op) in
  let res_storage := clone_without_refs (op_storage op) in
  let claim_ops := list_to_set op_ids in
  let '(claimed_ops, (sh, res_storage)) := claim_operation_refs claim_ops sh res_storage in
  if (size claimed_ops =? size claim_ops)%nat then Ok (op_ids, (sh, res_storage))
  else Panic "could not claim all operations from storage".
End pool.
