(* ===== verification/OperationPoolFacts.v ===== *)
(** * The pool of operations

    The pool owns exactly the operations that it lists, and no call panics; after a
    refresh it has a bounded size and the operations of a sender can all be paid.  The
    operations that it gives for a block fit in the block, and it leaves out only what
    does not. *)

From S2P Require Import Prelude Slots Times OrdMap MipState MipStore Keys Models Ledger Wire Formats BlockFormats Storage StorageRefs PoolExports OperationPool.

Open Scope N_scope.

Section facts.
Context `{!SetIter BlockId, !SetIter OperationId, !SetIter EndorsementId, !SetIter Address}.
Context `{!Varint} `{!VoteRatio} `{!PoolChannels} `{!ScoreSort} (config : PoolConfig) (wallet : Wallet).
Implicit Types (op : OperationPool) (sh : Shared) (st : Storage) (i : OperationInfo) (l : list OperationInfo).

(** ** The invariant *)

Notation ids l := (oi_id <$> l).
Notation refs l := (MkStorage ∅ (list_to_set (oi_id <$> l)) ∅).

(** What an operation is described as, but for whether it is executed. *)
Definition describes (o : SecureShareOperation) i : Prop :=
  set_executed ∅ i = from_op o (operation_validity_periods config) (roll_price config) (thread_count config)
                       (base_operation_gas_cost config) (sp_compilation_cost config).
Record operation_pool_ok sh op : Prop := {
  opo_ids : NoDup (ids (sorted_ops op));
  opo_refs : op_storage op = refs (sorted_ops op);
  opo_info : ∀ i, i ∈ sorted_ops op → ∃ o, ix_get (p_index (sh_operations sh)) (oi_id i) = Some o ∧ describes o i }.

(** Some operations are dropped. *)
Lemma drop_ops_ok sh op kept dropped O :
  shared_ok sh (op_storage op :: O) → operation_pool_ok sh op → kept ++ dropped ≡ₚ sorted_ops op →
  ∃ sh', drop_operation_refs (list_to_set (ids dropped)) sh (op_storage op) = @Ok ModelsError _ (sh', refs kept)
    ∧ shared_ok sh' (refs kept :: O) ∧ shared_within sh' sh
    ∧ operation_pool_ok sh' (MkOperationPool kept (refs kept) (op_last_cs_final_periods op)).
Proof using.
  intros Hsh [Hnd Hrefs Hinfo] Hperm.
  destruct (drop_operation_refs_ok (E := ModelsError) (list_to_set (ids dropped)) sh (op_storage op) O Hsh)
    as (sh' & Hdrop & Hsh'). rewrite Hrefs in Hdrop, Hsh'. cbn in Hdrop, Hsh'.
  rewrite <-Hperm, fmap_app in Hnd. apply NoDup_app in Hnd as (Hndk & Hdisj & Hndd).
  assert (list_to_set (ids (sorted_ops op)) ∖ list_to_set (ids dropped) = (list_to_set (ids kept) : gset OperationId)) as Heq.
  { apply set_eq. intros x. rewrite elem_of_difference, !elem_of_list_to_set, <-Hperm, fmap_app, elem_of_app.
    specialize (Hdisj x). naive_solver. }
  rewrite Heq in Hdrop, Hsh'. rewrite Hrefs. exists sh'.
  apply drop_operation_refs_within in Hdrop as Hw. split_and!; [done|done|done|].
  split; cbn [sorted_ops op_storage]; [done|done|]. intros i Hi.
  destruct (Hinfo i) as (o & Ho & Hd); [rewrite <-Hperm; apply elem_of_app; by left|]. exists o. split; [|done].
  destruct (held_objects (sh_operations sh') (local_used_ops <$> refs kept :: O) (list_to_set (ids kept)) (oi_id i))
    as [o' Ho']; [apply Hsh'|by left|apply elem_of_list_to_set; by apply list_elem_of_fmap_2|].
  destruct Hw as (_ & Hw & _). rewrite Ho'. apply Hw in Ho'. congruence.
Qed.

Lemma set_executed_id m i : oi_id (set_executed m i) = oi_id i.
Proof using. done. Qed.
Lemma set_executed_twice m m' i : set_executed m (set_executed m' i) = set_executed m i.
Proof using. done. Qed.
Lemma operation_pool_ok_executed sh op m :
  operation_pool_ok sh op →
  operation_pool_ok sh (MkOperationPool (set_executed m <$> sorted_ops op) (op_storage op) (op_last_cs_final_periods op)).
Proof using.
  intros [Hnd Hrefs Hinfo]. assert (ids (set_executed m <$> sorted_ops op) = ids (sorted_ops op)) as Hids
    by (by rewrite <-list_fmap_compose).
  split; cbn [sorted_ops op_storage]; rewrite ?Hids; [done|done|]. intros i (j & -> & Hj)%list_elem_of_fmap.
  destruct (Hinfo j Hj) as (o & Ho & Hd). by exists o.
Qed.
Lemma operation_pool_ok_perm sh op l :
  operation_pool_ok sh op → l ≡ₚ sorted_ops op → operation_pool_ok sh (MkOperationPool l (op_storage op) (op_last_cs_final_periods op)).
Proof using.
  intros [Hnd Hrefs Hinfo] Hp. split; cbn [sorted_ops op_storage].
  - by rewrite Hp.
  - rewrite Hrefs. f_equal. apply set_eq. intros x. by rewrite !elem_of_list_to_set, Hp.
  - intros i Hi. apply Hinfo. by rewrite <-Hp.
Qed.
(** The pool does not depend on what others do to the storage. *)
Lemma operation_pool_ok_stable sh sh' op :
  operation_pool_ok sh op →
  (∀ k, k ∈ local_used_ops (op_storage op) → ix_get (p_index (sh_operations sh')) k = ix_get (p_index (sh_operations sh)) k) →
  operation_pool_ok sh' op.
Proof using.
  intros [Hnd Hrefs Hinfo] Hsame. split; [done|done|]. intros i Hi. destruct (Hinfo i Hi) as (o & Ho & Hd).
  exists o. split; [|done]. rewrite Hsame; [done|]. rewrite Hrefs. cbn. apply elem_of_list_to_set. by apply list_elem_of_fmap_2.
Qed.

(** ** Refreshing *)

Lemma retain_perm keep l :
  let '(kept, removed) := retain_ops keep l in
  ∃ dropped, kept ++ dropped ≡ₚ l ∧ removed = list_to_set (ids dropped) ∧ Forall (λ i, keep i = true) kept.
Proof using.
  exists (filter (λ i, keep i = false) l). split_and!; [|done|].
  - etrans; [|apply (filter_app_complement (λ i, keep i = true) l)]. apply reflexive_eq. f_equal.
    apply list_filter_iff. intros i. by rewrite not_true_iff_false.
  - apply Forall_forall. by intros i [? _]%list_elem_of_filter.
Qed.
Lemma prefilter_ok e d b sh op O :
  shared_ok sh (op_storage op :: O) → operation_pool_ok sh op →
  ∃ sh' op', prefilter_ops config e d b sh op = Ok (sh', op') ∧ shared_ok sh' (op_storage op' :: O)
    ∧ operation_pool_ok sh' op' ∧ op_last_cs_final_periods op' = op_last_cs_final_periods op
    ∧ sorted_ops op' ⊆ sorted_ops op ∧ Forall (λ i, of_interest config e d b i = true) (sorted_ops op') ∧ shared_within sh' sh.
Proof using.
  intros Hsh Hok. unfold prefilter_ops. pose proof (retain_perm (of_interest config e d b) (sorted_ops op)) as Hr.
  destruct (retain_ops _ _) as [kept removed]. destruct Hr as (dropped & Hp & -> & Hk).
  destruct (drop_ops_ok sh op kept dropped O Hsh Hok Hp) as (sh' & -> & Hsh' & Hw & Hok').
  cbn [mbind outcome_bind]. do 2 eexists. split; [done|]. split_and!; [done|done|done| |done|done].
  intros i Hi. rewrite <-Hp. apply elem_of_app. by left.
Qed.

(** What a sender may spend with the operations that are not executed. *)
Definition spent (a : Address) l : N :=
  foldr (λ i acc, if bool_decide (oi_creator_address i = a) && negb (oi_executed i) then oi_max_spending i + acc else acc) 0 l.
Lemma spent_cons a i l :
  spent a (i :: l) = (if bool_decide (oi_creator_address i = a) && negb (oi_executed i) then oi_max_spending i else 0) + spent a l.
Proof using. unfold spent. cbn. by case_match. Qed.
Definition left_of (balances cache : gmap Address N) (a : Address) : N :=
  match cache !! a with Some b => b | None => default 0 (balances !! a) end.
Lemma left_of_insert balances cache a b x :
  left_of balances (<[a := b]> cache) x = if decide (a = x) then b else left_of balances cache x.
Proof using. unfold left_of. case_decide; simplify_eq; [by rewrite lookup_insert_eq|by rewrite lookup_insert_ne]. Qed.

Lemma eliminate_spec balances cache l :
  ∃ dropped, (eliminate_overflows balances cache l).1 ++ dropped ≡ₚ l
    ∧ (eliminate_overflows balances cache l).2 = list_to_set (ids dropped)
    ∧ (∀ i, i ∈ dropped → oi_executed i = false)
    ∧ ∀ a, spent a (eliminate_overflows balances cache l).1 ≤ left_of balances cache a.
Proof using.
  revert cache. induction l as [|i l IH]; intros cache; cbn [eliminate_overflows].
  { exists []. split_and!; [done|done|by intros ? ?%not_elem_of_nil|intros a; apply N.le_0_l]. }
  destruct (oi_executed i) eqn:Hx.
  { destruct (IH cache) as (dropped & Hp & Hr & Hd & Hs). destruct (eliminate_overflows balances cache l) as [kept removed].
    cbn [fst snd] in *. exists dropped. split_and!; [by cbn; f_equiv|done|done|].
    intros a. rewrite spent_cons, Hx, andb_false_r. apply Hs. }
  change (match cache !! oi_creator_address i with Some b => b | None => default 0 (balances !! oi_creator_address i) end)
    with (left_of balances cache (oi_creator_address i)).
  destruct (checked_sub _ _) as [v|] eqn:Hc.
  - apply checked_sub_Some in Hc as [Hle ->].
    destruct (IH (<[oi_creator_address i := left_of balances cache (oi_creator_address i) - oi_max_spending i]> cache))
      as (dropped & Hp & Hr & Hd & Hs). destruct (eliminate_overflows _ _ l) as [kept removed]. cbn [fst snd] in *.
    exists dropped. split_and!; [by cbn; f_equiv|done|done|]. intros a. specialize (Hs a). rewrite left_of_insert in Hs.
    rewrite spent_cons, Hx, andb_true_r. case_bool_decide as Ha; case_decide; simplify_eq; lia.
  - destruct (IH (<[oi_creator_address i := left_of balances cache (oi_creator_address i)]> cache))
      as (dropped & Hp & Hr & Hd & Hs). destruct (eliminate_overflows _ _ l) as [kept removed]. cbn [fst snd] in *.
    exists (i :: dropped). split_and!.
    + rewrite <-Permutation_middle. by f_equiv.
    + rewrite Hr, fmap_cons, list_to_set_cons. set_solver.
    + intros j [->|Hj]%elem_of_cons; auto.
    + intros a. specialize (Hs a). rewrite left_of_insert in Hs. case_decide; by simplify_eq.
Qed.
Lemma eliminate_ok balances sh op O :
  shared_ok sh (op_storage op :: O) → operation_pool_ok sh op →
  ∃ sh' op', eliminate_balance_overflows balances sh op = Ok (sh', op') ∧ shared_ok sh' (op_storage op' :: O)
    ∧ operation_pool_ok sh' op' ∧ op_last_cs_final_periods op' = op_last_cs_final_periods op
    ∧ sorted_ops op' ⊆ sorted_ops op ∧ (∀ a, spent a (sorted_ops op') ≤ default 0 (balances !! a))
    ∧ (∀ i, i ∈ sorted_ops op → oi_executed i = true → i ∈ sorted_ops op') ∧ shared_within sh' sh.
Proof using.
  intros Hsh Hok. unfold eliminate_balance_overflows.
  destruct (eliminate_spec balances ∅ (sorted_ops op)) as (dropped & Hp & Hr & Hd & Hs).
  destruct (eliminate_overflows _ _ _) as [kept removed]. cbn [fst snd] in *. subst removed.
  destruct (drop_ops_ok sh op kept dropped O Hsh Hok Hp) as (sh' & -> & Hsh' & Hw & Hok').
  cbn [mbind outcome_bind]. do 2 eexists. split; [done|]. split_and!; [done|done|done| | | |exact Hw]; cbn.
  - intros i Hi. rewrite <-Hp. apply elem_of_app. by left.
  - intros a. specialize (Hs a). unfold left_of in Hs. by rewrite lookup_empty in Hs.
  - intros i Hi Hx. rewrite <-Hp in Hi. apply elem_of_app in Hi as [|Hi%Hd]; [done|congruence].
Qed.

Lemma spent_take a n l : spent a (take n l) ≤ spent a l.
Proof using.
  revert n. induction l as [|i l IH]; intros [|n]; cbn [take]; [done|done|apply N.le_0_l|]. rewrite !spent_cons. specialize (IH n). lia.
Qed.
Lemma truncate_ok sh op O :
  shared_ok sh (op_storage op :: O) → operation_pool_ok sh op →
  ∃ sh' op', truncate_container config sh op = Ok (sh', op') ∧ shared_ok sh' (op_storage op' :: O)
    ∧ operation_pool_ok sh' op' ∧ op_last_cs_final_periods op' = op_last_cs_final_periods op
    ∧ sorted_ops op' = take (N.to_nat (max_operation_pool_size config)) (sorted_ops op) ∧ shared_within sh' sh.
Proof using.
  intros Hsh Hok. unfold truncate_container. case_match eqn:Hl.
  - destruct (drop_ops_ok sh op (take (N.to_nat (max_operation_pool_size config)) (sorted_ops op))
      (drop (N.to_nat (max_operation_pool_size config)) (sorted_ops op)) O Hsh Hok) as (sh' & -> & Hsh' & Hw & Hok').
    { by rewrite take_drop. }
    cbn [mbind outcome_bind]. by do 2 eexists.
  - apply Nat.ltb_ge in Hl. exists sh, op. split_and!; [done|done|done|done| |done]. by rewrite take_ge.
Qed.

(** The selector answers, for threads that exist. *)
Definition selector_answers : Prop :=
  ∀ a b, ∃ drawn, get_available_selections_in_range a b wallet = Some drawn ∧ Forall (λ e, thread e.1 < thread_count config) drawn.

Lemma get_pos_draws_ok op now :
  selector_answers → N.of_nat (length (op_last_cs_final_periods op)) = thread_count config → 0 < thread_count config →
  ∃ draws, get_pos_draws config wallet op now = Ok draws.
Proof using.
  intros Hsel Hlen Htc. unfold get_pos_draws. set (finals := op_last_cs_final_periods op) in *.
  destruct (imap _ finals) as [|s0 ss] eqn:Him.
  { apply (f_equal length) in Him. rewrite length_imap in Him. cbn in Him. lia. }
  cbn [expect mbind outcome_bind]. set (lo := foldl slot_min s0 ss). match goal with |- context [slot_max_of ?m lo] => set (hi := slot_max_of m lo) end.
  destruct (Hsel lo hi) as (l & -> & Hl). cbn [expect mbind outcome_bind].
  edestruct (foldM_total (E := ModelsError) (λ (_ : list Slot) (_ : list Slot), True)) as (draws & Hd & _);
    [done| |by exists draws]. intros pre s post acc Hs _.
  assert (thread s < thread_count config) as Ht.
  { assert (s ∈ pre ++ s :: post) as Hin by (apply elem_of_app; right; by left). rewrite <-Hs in Hin.
    apply list_elem_of_fmap in Hin as (e & -> & [_ He]%list_elem_of_filter). by eapply Forall_forall in Hl. }
  destruct (idx_total (E := ModelsError) finals (thread s)) as (p & -> & _); [lia|]. by eexists.
Qed.

Lemma sender_balances_executed op m :
  get_sender_balances (MkOperationPool (set_executed m <$> sorted_ops op) (op_storage op) (op_last_cs_final_periods op))
  = get_sender_balances op.
Proof using. unfold get_sender_balances. cbn [sorted_ops]. by rewrite <-list_fmap_compose. Qed.

Lemma refresh_spec now now' sh op O :
  shared_ok sh (op_storage op :: O) → operation_pool_ok sh op → selector_answers →
  N.of_nat (length (op_last_cs_final_periods op)) = thread_count config → 0 < thread_count config →
  ∃ sh' op', operation_pool_refresh config wallet now now' sh op = Ok (sh', op')
    ∧ shared_ok sh' (op_storage op' :: O) ∧ operation_pool_ok sh' op'
    ∧ op_last_cs_final_periods op' = op_last_cs_final_periods op
    ∧ operation_pool_len op' ≤ max_operation_pool_size config
    ∧ (∀ a, spent a (sorted_ops op') ≤ default 0 (get_sender_balances op !! a))
    ∧ (∃ draws, Forall (λ i, of_interest config (get_execution_statuses op) draws (get_sender_balances op) i = true) (sorted_ops op'))
    ∧ sorted_ops op' ⊆ (set_executed (get_execution_statuses op) <$> sorted_ops op) ∧ shared_within sh' sh.
Proof using.
  intros Hsh Hok Hsel Hlen Htc. unfold operation_pool_refresh.
  destruct (get_pos_draws_ok op now Hsel Hlen Htc) as (draws & ->). cbn [mbind outcome_bind].
  rewrite sender_balances_executed. set (e := get_execution_statuses op). set (bal := get_sender_balances op).
  edestruct (prefilter_ok e draws bal) as (sh1 & op1 & -> & Hsh1 & Hok1 & Hl1 & Hsub1 & Hint1 & Hw1);
    [|by apply (operation_pool_ok_executed _ _ e)|]; [exact Hsh|]. cbn [mbind outcome_bind].
  pose proof (sort_by_score_perm e draws now' (sorted_ops op1)) as Hsort.
  edestruct (eliminate_ok bal) as (sh2 & op2 & -> & Hsh2 & Hok2 & Hl2 & Hsub2 & Hsp2 & _ & Hw2);
    [|by apply operation_pool_ok_perm|]; [exact Hsh1|]. cbn [mbind outcome_bind sorted_ops op_last_cs_final_periods] in *.
  edestruct truncate_ok as (sh3 & op3 & -> & Hsh3 & Hok3 & Hl3 & Heq3 & Hw3); [exact Hsh2|exact Hok2|].
  assert (sorted_ops op3 ⊆ sorted_ops op1) as Hsub3.
  { intros i Hi. rewrite Heq3 in Hi. apply (subseteq_take _ _ _), Hsub2 in Hi. by rewrite Hsort in Hi. }
  exists sh3, op3. split_and!; [done|done|done|congruence| | |exists draws| |by do 2 (etrans; [eassumption|])].
  - unfold operation_pool_len. rewrite Heq3, length_take. lia.
  - intros a. rewrite Heq3. etrans; [apply spent_take|apply Hsp2].
  - apply Forall_forall. intros i Hi%Hsub3. by eapply Forall_forall in Hint1.
  - intros i Hi%Hsub3%Hsub1. done.
Qed.

(** ** Adding *)

Lemma drop_some_spec n (s : gset OperationId) : drop_some n s ⊆ s ∧ size (drop_some n s) = (size s - n)%nat.
Proof using.
  revert s. induction n as [|n IH]; intros s; cbn; [split; [done|lia]|].
  destruct (set_iter s) as [|x l] eqn:Hs.
  - assert (size s = 0%nat) as Hz by (by rewrite <-length_set_iter, Hs). split; [done|lia].
  - assert (x ∈ s) as Hx by (apply elem_of_set_iter; rewrite Hs; by left). destruct (IH (s ∖ {[x]})) as [Hle Hsz].
    split; [set_solver|]. rewrite Hsz, size_difference, size_singleton by set_solver. lia.
Qed.

Definition new_info (o : SecureShareOperation) : OperationInfo :=
  from_op o (operation_validity_periods config) (roll_price config) (thread_count config)
    (base_operation_gas_cost config) (sp_compilation_cost config).
Lemma push_new_ops sh ks acc :
  operation_index_ok (p_index (sh_operations sh)) →
  (∀ k, k ∈ ks → is_Some (ix_get (p_index (sh_operations sh)) k)) →
  ∃ news, foldM (λ sorted k,
      o ← expect "operation not found in storage but listed as owned" (ix_get (p_index (sh_operations sh)) k);
      Ok (sorted ++ [new_info o])) ks acc = @Ok ModelsError _ (acc ++ news)
    ∧ ids news = ks
    ∧ ∀ i, i ∈ news → ∃ o, ix_get (p_index (sh_operations sh)) (oi_id i) = Some o ∧ describes o i.
Proof using.
  intros Hix. revert acc. induction ks as [|k ks IH]; intros acc Hks; cbn [foldM].
  { exists []. rewrite app_nil_r. split_and!; [done|done|by intros ? ?%not_elem_of_nil]. }
  destruct (Hks k) as [o Ho]; [by left|]. rewrite Ho. cbn [expect mbind outcome_bind].
  destruct (IH (acc ++ [new_info o])) as (news & -> & Hids & Hn); [intros x Hx; apply Hks; by right|].
  assert (id o = k) as Hid by (by apply (map_Forall_lookup_1 _ _ _ _ (proj1 Hix) Ho)).
  exists (new_info o :: news). rewrite <-app_assoc. split_and!; [done|by cbn; f_equal|].
  intros i [->|Hi]%elem_of_cons; [|auto]. exists o. split; [by cbn; rewrite Hid|done].
Qed.

Lemma add_operations_spec incoming sh op O :
  shared_ok sh (op_storage op :: incoming :: O) → operation_pool_ok sh op →
  N.of_nat (length (sorted_ops op)) + N.of_nat (size (local_used_ops incoming)) ≤ u64_max →
  ∃ sh' op' news, add_operations config incoming sh op = Ok (sh', op')
    ∧ shared_ok sh' (op_storage op' :: O) ∧ operation_pool_ok sh' op'
    ∧ sorted_ops op' = sorted_ops op ++ news
    ∧ op_last_cs_final_periods op' = op_last_cs_final_periods op
    ∧ operation_pool_len op' ≤ N.max (operation_pool_len op) (max_operation_pool_size config + max_operation_pool_excess_items config)
    ∧ (∀ i, i ∈ news → oi_id i ∈ local_used_ops incoming)
    ∧ (N.of_nat (length (sorted_ops op)) + N.of_nat (size (local_used_ops incoming))
       ≤ max_operation_pool_size config + max_operation_pool_excess_items config → local_used_ops incoming ⊆ local_used_ops (op_storage op'))
    ∧ shared_within sh' sh.
Proof using.
  intros Hsh Hok Hlen. unfold add_operations. set (new := local_used_ops incoming ∖ local_used_ops (op_storage op)).
  assert (size new ≤ size (local_used_ops incoming))%nat as Hsz by (apply subseteq_size; set_solver).
  match goal with |- context [drop_some (N.to_nat ?n) new] => set (dropped := n) end.
  destruct (drop_some_spec (N.to_nat dropped) new) as [Hsub Hsize]. set (new' := drop_some (N.to_nat dropped) new) in *.
  assert (new' ⊆ local_used_ops incoming) as Hinc by set_solver.
  assert (∀ k, k ∈ new' → k ∉ local_used_ops (op_storage op)) as Hfresh by set_solver.
  destruct (push_new_ops sh (set_iter new') (sorted_ops op)) as (news & Hf & Hids & Hinfo).
  { exact (po_index _ _ (so_operations _ _ Hsh)). }
  { intros k Hk%elem_of_set_iter. eapply held_objects; [apply Hsh|right; by left|set_solver]. }
  unfold new_info in Hf. rewrite Hf. cbn [mbind outcome_bind].
  destruct (take_over (E := ModelsError) ∅ new' ∅ incoming sh (op_storage op) O Hsh) as (rest & sh1 & -> & Hext & Hsh1 & Hw1);
    [set_solver|done|set_solver|]. cbn [mbind outcome_bind]. rewrite Hext. cbn [mbind outcome_bind].
  rewrite (Permutation_swap rest _) in Hsh1. destruct (drop_storage_ok (E := ModelsError) sh1 rest _ Hsh1) as (sh2 & Hdrop & Hsh2).
  rewrite Hdrop. cbn [mbind outcome_bind]. apply drop_storage_within in Hdrop as Hw2.
  assert (shared_within sh2 sh) as Hw by (by etrans).
  destruct Hok as [Hnd Hrefs Hold]. rewrite Hrefs in Hsh2. cbn [local_used_blocks local_used_ops local_used_endorsements] in Hsh2.
  assert (MkStorage (local_used_blocks (op_storage op) ∪ ∅) (local_used_ops (op_storage op) ∪ new')
            (local_used_endorsements (op_storage op) ∪ ∅) = refs (sorted_ops op ++ news)) as Hst.
  { rewrite Hrefs. cbn. rewrite !(right_id_L ∅ (∪)). f_equal. apply set_eq. intros k.
    rewrite elem_of_union, !elem_of_list_to_set, fmap_app, elem_of_app, Hids, elem_of_set_iter. done. }
  rewrite Hst. do 3 eexists. split; [done|]. rewrite Hrefs in Hst. cbn in Hst. rewrite Hst in Hsh2.
  split_and!; [exact Hsh2| |done|done| | | |exact Hw].
  - split; cbn [sorted_ops op_storage]; [|done|].
    + rewrite fmap_app, Hids. apply NoDup_app. split_and!; [done| |apply NoDup_set_iter].
      intros k Hk Hk'%elem_of_set_iter. apply (Hfresh k Hk'). rewrite Hrefs. by apply elem_of_list_to_set.
    + intros i Hi. assert (∃ o, ix_get (p_index (sh_operations sh)) (oi_id i) = Some o ∧ describes o i) as (o & Ho & Hd)
        by (apply elem_of_app in Hi as [?|?]; auto). exists o. split; [|done].
      destruct (held_objects (sh_operations sh2) (local_used_ops <$> refs (sorted_ops op ++ news) :: O)
        (list_to_set (ids (sorted_ops op ++ news))) (oi_id i)) as [o' Ho'];
        [apply Hsh2|by left|apply elem_of_list_to_set; by apply list_elem_of_fmap_2|]. rewrite Ho'. apply (proj1 (proj2 Hw)) in Ho'. congruence.
  - unfold operation_pool_len. cbn [sorted_ops]. rewrite length_app.
    assert (length news = size new') as -> by (by rewrite <-(length_fmap oi_id), Hids, length_set_iter).
    rewrite Hsize. subst dropped. unfold saturating_sub, saturating_add. lia.
  - intros i Hi. apply Hinc, elem_of_set_iter. rewrite <-Hids. by apply list_elem_of_fmap_2.
  - intros Hfit. cbn [op_storage local_used_ops]. assert (dropped = 0) as Hz.
    { subst dropped. unfold saturating_sub, saturating_add. lia. }
    assert (new' = new) as Hnew by (subst new'; by rewrite Hz). intros k Hk.
    apply elem_of_list_to_set. rewrite fmap_app, elem_of_app, Hids, elem_of_set_iter, Hnew.
    destruct (decide (k ∈ local_used_ops (op_storage op))) as [Hin|Hin]; [left|right; set_solver].
    rewrite Hrefs in Hin. by apply elem_of_list_to_set in Hin.
Qed.

(** ** The operations of a block *)

Definition total {A} (f : A → N) (xs : list A) : N := foldr (λ x acc, f x + acc) 0 xs.
Definition eligible (slot : Slot) i : bool :=
  (oi_thread i =? thread slot) && range_contains (oi_validity_period_range i) (period slot) && negb (oi_executed i).

Lemma select_operations_cons slot space gas n i l :
  select_operations slot space gas n (i :: l)
  = if n =? 0 then []
    else if eligible slot i && (oi_size i <=? space) && (oi_max_gas_usage i <=? gas)
    then oi_id i :: select_operations slot (space - oi_size i) (gas - oi_max_gas_usage i) (n - 1) l
    else select_operations slot space gas n l.
Proof using.
  cbn [select_operations]. unfold eligible. rewrite (N.ltb_antisym _ space), (N.ltb_antisym _ gas).
  by destruct (n =? 0), (oi_thread i =? thread slot), (range_contains (oi_validity_period_range i) (period slot)), (oi_size i <=? space),
    (oi_max_gas_usage i <=? gas), (oi_executed i).
Qed.
(** What is taken is eligible and fits; what is left out would not fit. *)
Lemma select_operations_spec slot space gas n l :
  ∃ sel, select_operations slot space gas n l = ids sel ∧ sublist sel l
    ∧ Forall (λ i, eligible slot i = true) sel
    ∧ total oi_size sel ≤ space ∧ total oi_max_gas_usage sel ≤ gas ∧ N.of_nat (length sel) ≤ n
    ∧ ∀ i, i ∈ l → eligible slot i = true → i ∈ sel ∨ N.of_nat (length sel) = n
        ∨ space < total oi_size sel + oi_size i ∨ gas < total oi_max_gas_usage sel + oi_max_gas_usage i.
Proof using.
  revert space gas n. induction l as [|i l IH]; intros space gas n.
  { exists []. split_and!; [done|constructor|constructor|cbn; lia..|by intros ? ?%not_elem_of_nil]. }
  rewrite select_operations_cons. destruct (N.eqb_spec n 0) as [->|Hn].
  { exists []. split_and!; [done|apply sublist_nil_l|constructor|cbn; lia..|]. intros j _ _. right. by left. }
  destruct (eligible slot i && _ && _) eqn:Hfit.
  - rewrite !andb_true_iff, !N.leb_le in Hfit. destruct Hfit as [[Hel Hsz] Hg].
    destruct (IH (space - oi_size i) (gas - oi_max_gas_usage i) (n - 1)) as (sel & -> & Hsub & Hall & H3 & H4 & H5 & Hmax).
    exists (i :: sel). cbn [total foldr length]. fold (total oi_size sel) (total oi_max_gas_usage sel).
    split_and!; [done|by constructor|by constructor|lia|lia|lia|]. intros j Hj Hje.
    apply elem_of_cons in Hj as [->|Hj]; [left; by left|]. destruct (Hmax j Hj Hje) as [?|[?|[?|?]]];
      [left; by right|right; left; lia|right; right; left; lia|right; right; right; lia].
  - destruct (IH space gas n) as (sel & -> & Hsub & Hall & H3 & H4 & H5 & Hmax). exists sel.
    split_and!; [done|by constructor|done|done|done|done|]. intros j [->|Hj]%elem_of_cons Hje; [|auto].
    rewrite Hje in Hfit. apply andb_false_iff in Hfit as [Hf%N.leb_gt|Hf%N.leb_gt]; lia.
Qed.

(** The operations that a storage holds, by their descriptions. *)
Lemma described_objects sh l :
  (∀ i, i ∈ l → ∃ o, ix_get (p_index (sh_operations sh)) (oi_id i) = Some o ∧ describes o i) →
  ∃ os, Forall2 (λ i o, ix_get (p_index (sh_operations sh)) (oi_id i) = Some o ∧ describes o i) l os.
Proof using.
  induction l as [|i l IH]; intros Hl; [by exists []|]. destruct IH as [os Hos]; [intros; apply Hl; by right|].
  destruct (Hl i) as (o & Ho); [by left|]. exists (o :: os). by constructor.
Qed.
Lemma describes_inv o i :
  describes o i →
  oi_id i = id o ∧ oi_size i = serialized_size o
  ∧ oi_max_gas_usage i = get_gas_usage o (base_operation_gas_cost config) (sp_compilation_cost config)
  ∧ oi_thread i = get_thread (content_creator_address o) (thread_count config)
  ∧ oi_validity_period_range i = get_validity_range o (operation_validity_periods config).
Proof using. unfold describes, set_executed, from_op. intros [= ? ? ? ? ? ? ? ?]. done. Qed.
Lemma total_Forall2 {A B} (f : A → N) (g : B → N) xs ys : Forall2 (λ x y, f x = g y) xs ys → total f xs = total g ys.
Proof using. induction 1 as [|x y xs ys Hxy _ IH]; [done|]. unfold total in *. cbn. by rewrite Hxy, IH. Qed.

Definition op_gas (o : SecureShareOperation) : N := get_gas_usage o (base_operation_gas_cost config) (sp_compilation_cost config).
Definition op_valid_at (slot : Slot) (o : SecureShareOperation) : Prop :=
  get_thread (content_creator_address o) (thread_count config) = thread slot
  ∧ period slot ≤ op_expire_period (content o)
  ∧ op_expire_period (content o) ≤ period slot + operation_validity_periods config.

Lemma get_block_operations_spec slot sh op O :
  shared_ok sh (op_storage op :: O) → N.of_nat (length (op_storage op :: O)) < u64_max → operation_pool_ok sh op →
  ∃ os sh', get_block_operations config op slot sh = Ok (id <$> os, (sh', MkStorage ∅ (list_to_set (id <$> os)) ∅))
    ∧ shared_ok sh' (MkStorage ∅ (list_to_set (id <$> os)) ∅ :: op_storage op :: O)
    ∧ p_index (sh_operations sh') = p_index (sh_operations sh) ∧ sh_endorsements sh' = sh_endorsements sh
    ∧ NoDup (id <$> os)
    ∧ Forall (λ o, id o ∈ local_used_ops (op_storage op) ∧ ix_get (p_index (sh_operations sh)) (id o) = Some o
                   ∧ op_valid_at slot o) os
    ∧ total serialized_size os ≤ max_block_size config ∧ total op_gas os ≤ max_block_gas config
    ∧ N.of_nat (length os) ≤ max_operations_per_block config
    ∧ ∀ i, i ∈ sorted_ops op → eligible slot i = true →
        oi_id i ∈ id <$> os ∨ N.of_nat (length os) = max_operations_per_block config
        ∨ max_block_size config < total serialized_size os + oi_size i
        ∨ max_block_gas config < total op_gas os + oi_max_gas_usage i.
Proof using.
  intros Hsh Hlen [Hnd Hrefs Hinfo]. unfold get_block_operations.
  destruct (select_operations_spec slot (max_block_size config) (max_block_gas config) (max_operations_per_block config)
    (sorted_ops op)) as (sel & -> & Hsub & Hall & Hs & Hg & Hc & Hmax).
  destruct (described_objects sh sel) as [os Hos]. { intros i Hi. apply Hinfo. by eapply sublist_subseteq. }
  assert (ids sel = id <$> os) as Hids.
  { clear -Hos. induction Hos as [|i o l os [_ Hd] _ IH]; [done|]. cbn. by rewrite IH, (proj1 (describes_inv _ _ Hd)). }
  assert (total oi_size sel = total serialized_size os) as Hts.
  { eapply total_Forall2, Forall2_impl; [exact Hos|]. intros i o [_ Hd]. apply (describes_inv _ _ Hd). }
  assert (total oi_max_gas_usage sel = total op_gas os) as Htg.
  { eapply total_Forall2, Forall2_impl; [exact Hos|]. intros i o [_ Hd]. apply (describes_inv _ _ Hd). }
  pose proof (Forall2_length _ _ _ Hos) as Hlo. rewrite Hids, Hts, Htg, Hlo in *. unfold clone_without_refs.
  assert (sublist (id <$> os) (ids (sorted_ops op))) as Hsubi by (rewrite <-Hids; by apply fmap_sublist).
  destruct (claim_operation_spec (list_to_set (id <$> os)) sh (MkStorage ∅ ∅ ∅) (op_storage op :: O)) as (sh' & -> & Hsh' & Hix & Hen).
  { by apply shared_ok_nothing. }
  { done. }
  { intros k Hk%elem_of_list_to_set. exists (op_storage op). split; [right; by left|]. rewrite Hrefs. cbn.
    apply elem_of_list_to_set. by eapply sublist_subseteq. }
  rewrite Nat.eqb_refl. cbn [local_used_blocks local_used_ops local_used_endorsements] in *.
  rewrite !(left_id_L ∅ (∪)) in *. exists os, sh'.
  split_and!; [done|done|done|done|by eapply sublist_NoDup| |done|done|done|].
  - apply Forall_forall. intros o [n Ho]%list_elem_of_lookup. destruct (Forall2_lookup_r _ _ _ _ _ Hos Ho) as (i & Hi & Ho' & Hd).
    apply list_elem_of_lookup_2 in Hi, Ho. destruct (describes_inv _ _ Hd) as (Hid & _ & _ & Hth & Hr). rewrite Hid in Ho'.
    eapply Forall_forall in Hall; [|exact Hi]. unfold eligible in Hall. rewrite !andb_true_iff, N.eqb_eq, Hr, validity_range_spec, Hth in Hall.
    split_and!; [|done|by apply Hall..]. rewrite Hrefs. cbn. apply elem_of_list_to_set.
    eapply sublist_subseteq; [done|]. by apply list_elem_of_fmap_2.
  - intros i Hi He. destruct (Hmax i Hi He) as [Hin|?]; [left|by right]. rewrite <-Hids. by apply list_elem_of_fmap_2.
Qed.
End facts.
