(* ===== verification/PoolWorker.v ===== *)
(** * The threads of the pools

    [massa-pool-worker/src/worker.rs] and [controller_impl.rs]: each pool has a thread that
    applies commands to a buffer and copies the buffer to the pool that is read, when
    there is nothing else to do and at least once per interval; the controller
    sends commands on bounded channels and reads the pools.

    A round of the loop is two steps, up to the wait for a command and from there on, so that
    commands may come in during the wait.  The locks are held for a call, and a call is one
    step.  A [Tick] says what the loop observes: the clock, the intervals that have passed,
    and whether a sender is left.  The channels are crossbeam's bounded channels of a size
    above 0; the metrics of [massa-channel] are not modelled. *)

From S2P Require Import Prelude Slots Times OrdMap MipState MipStore Keys Models Ledger Wire Formats BlockFormats Storage StorageRefs Denunciations PoolExports DenunciationPool EndorsementPool OperationPool.

Open Scope N_scope.

Inductive Command : Type :=
  | AddItems (st : Storage)
  | AddDenunciationPrecursor (p : DenunciationPrecursor)
  | NotifyFinalCsPeriods (final_cs_periods : list N)
  | Stop.
(** The storage that a command owns. *)
Definition command_storage (c : Command) : list Storage := match c with AddItems st => [st] | _ => [] end.

Inductive SendResult : Type := Sent | Full | Disconnected.

Inductive PoolError : Type :=
  | LockTimeout
  | ChannelError (why : string).

Record Tick : Type := MkTick {
  (** a sender is left *)
  tk_connected : bool;
  tk_refresh : bool;
  tk_swap : bool;
  tk_now : nat → MassaTime }.

(** What the three loops differ in: the commands of a pool, its refresh, its copy. *)
Class PoolOps (P : Type) : Type := {
  storage_of : P → Storage;
  pool_replace_with : P → P → Shared → outcome ModelsError (Shared * P);
  pool_refresh : (nat → MassaTime) → Shared → P → outcome ModelsError (Shared * P);
  (** [None]: the command is not one for this pool *)
  pool_command : Command → (nat → MassaTime) → Shared → P → option (outcome ModelsError (Shared * P)) }.

(** The pool that is read, the buffer, and the commands that wait. *)
Record PoolThread (P : Type) : Type := MkPoolThread {
  th_pool : P;
  th_buffer : P;
  th_modified : bool;
  th_waiting : bool;
  th_running : bool;
  th_channel : list Command }.
Arguments MkPoolThread {_} _ _ _ _ _ _.
Arguments th_pool {_} _.
Arguments th_buffer {_} _.
Arguments th_modified {_} _.
Arguments th_waiting {_} _.
Arguments th_running {_} _.
Arguments th_channel {_} _.

Section thread.
Context `{!SetIter BlockId, !SetIter OperationId, !SetIter EndorsementId}.
Context {P : Type} `{!PoolOps P}.
Implicit Types (th : PoolThread P) (sh : Shared).

(** [Self::spawn]: the buffer is a clone of the pool. *)
Definition thread_spawn (clone_pool : P → Storage → P) sh (pool : P) : Shared * PoolThread P :=
  let '(sh, st) := clone sh (storage_of pool) in
  (sh, MkPoolThread pool (clone_pool pool st) false false true []).

Definition swap_buffers sh th : outcome ModelsError (Shared * PoolThread P) :=
  if th_modified th then
    '(sh, pool) ← pool_replace_with (th_pool th) (th_buffer th) sh;
    Ok (sh, MkPoolThread pool (th_buffer th) false (th_waiting th) (th_running th) (th_channel th))
  else Ok (sh, th).

(** [match cmd]: an unexpected command is only reported. *)
Definition process_command (c : Command) (now : nat → MassaTime) sh th : outcome ModelsError (Shared * PoolThread P) :=
  match pool_command c now sh (th_buffer th) with
  | Some r =>
      '(sh, buffer) ← r;
      Ok (sh, MkPoolThread (th_pool th) buffer true (th_waiting th) (th_running th) (th_channel th))
  | None => Ok (sh, th)
  end.

(** The loop is left: the buffer and the commands that are left are dropped. *)
Definition thread_end sh th : outcome ModelsError (Shared * PoolThread P) :=
  sh ← drop_storage sh (storage_of (th_buffer th));
  sh ← foldM drop_storage (th_channel th ≫= command_storage) sh;
  Ok (sh, MkPoolThread (th_pool th) (th_buffer th) (th_modified th) false false []).

Definition set_waiting (w : bool) th : PoolThread P :=
  MkPoolThread (th_pool th) (th_buffer th) (th_modified th) w (th_running th) (th_channel th).
Definition set_channel (l : list Command) th : PoolThread P :=
  MkPoolThread (th_pool th) (th_buffer th) (th_modified th) (th_waiting th) (th_running th) l.

(** What follows the reception of a command, or of none. *)
Definition finish_round (cmd : option Command) (t : Tick) sh th : outcome ModelsError (Shared * PoolThread P) :=
  '(sh, th) ← match cmd with Some c => process_command c (tk_now t) sh th | None => Ok (sh, th) end;
  let th := set_waiting false th in
  if tk_swap t then swap_buffers sh th else Ok (sh, th).

(** The refresh, when its interval has passed. *)
Definition refresh_buffer (t : Tick) sh th : outcome ModelsError (Shared * PoolThread P) :=
  if tk_refresh t then
    '(sh, buffer) ← pool_refresh (tk_now t) sh (th_buffer th);
    Ok (sh, MkPoolThread (th_pool th) buffer true (th_waiting th) (th_running th) (th_channel th))
  else Ok (sh, th).

Definition thread_step (t : Tick) sh th : outcome ModelsError (Shared * PoolThread P) :=
  if negb (th_running th) then Ok (sh, th)
  else if th_waiting th then
    (* recv_timeout *)
    match th_channel th with
    | Stop :: rest => thread_end sh (set_channel rest th)
    | c :: rest => finish_round (Some c) t sh (set_channel rest th)
    | [] => if tk_connected t then finish_round None t sh th else thread_end sh th
    end
  else
    '(sh, th) ← refresh_buffer t sh th;
    (* try_recv *)
    match th_channel th with
    | Stop :: rest => thread_end sh (set_channel rest th)
    | c :: rest => finish_round (Some c) t sh (set_channel rest th)
    | [] =>
        if tk_connected t then '(sh, th) ← swap_buffers sh th; Ok (sh, set_waiting true th)
        else thread_end sh th
    end.

(** [try_send]: a command that cannot be sent is dropped, with its storage. *)
Definition try_send (size : N) (c : Command) sh th : outcome ModelsError (SendResult * (Shared * PoolThread P)) :=
  if negb (th_running th) then sh ← foldM drop_storage (command_storage c) sh; Ok (Disconnected, (sh, th))
  else if size <=? N.of_nat (length (th_channel th)) then sh ← foldM drop_storage (command_storage c) sh; Ok (Full, (sh, th))
  else Ok (Sent, (sh, set_channel (th_channel th ++ [c]) th)).

(** [send]: [None] while it waits for room in the channel; an error is ignored. *)
Definition send (size : N) (c : Command) th : option (PoolThread P) :=
  if negb (th_running th) then Some th
  else if size <=? N.of_nat (length (th_channel th)) then None
  else Some (set_channel (th_channel th ++ [c]) th).
End thread.

(** ** The three pools *)

Record PoolsConfig : Type := MkPoolsConfig {
  operations_channel_size : N;
  endorsements_channel_size : N;
  denunciations_channel_size : N }.

Section pools.
Context `{!SetIter BlockId, !SetIter OperationId, !SetIter EndorsementId, !SetIter Address}.
Context `{!Varint} `{!HashFn} `{!Ed25519} `{!VoteRatio} `{!PoolChannels} `{!ScoreSort}.
Context (config : PoolConfig) (sizes : PoolsConfig) (wallet : Wallet).

(** [EndorsementPoolThread]: there is no refresh. *)
#[local] Instance endorsement_ops : PoolOps EndorsementPool := {
  storage_of := ep_storage;
  pool_replace_with := endorsement_pool_replace_with;
  pool_refresh _ sh ep := Ok (sh, ep);
  pool_command c now sh ep :=
    match c with
    | AddItems endorsements => Some (add_endorsements config wallet endorsements sh ep)
    | NotifyFinalCsPeriods final_cs_periods => Some (endorsement_notify_final_cs_periods config final_cs_periods sh ep)
    | _ => None
    end }.
(** [OperationPoolThread] *)
#[local] Instance operation_ops : PoolOps OperationPool := {
  storage_of := op_storage;
  pool_replace_with := operation_pool_replace_with;
  pool_refresh now sh op := operation_pool_refresh config wallet (now 0%nat) (now 1%nat) sh op;
  pool_command c now sh op :=
    match c with
    | AddItems operations => Some (add_operations config operations sh op)
    | NotifyFinalCsPeriods final_cs_periods => Some (Ok (sh, operation_notify_final_cs_periods final_cs_periods op))
    | _ => None
    end }.
(** [DenunciationPoolThread]: the pool holds no reference. *)
#[local] Instance denunciation_ops : PoolOps DenunciationPool := {
  storage_of _ := MkStorage ∅ ∅ ∅;
  pool_replace_with dp other sh := Ok (sh, denunciation_pool_replace_with dp other);
  pool_refresh _ sh dp := Ok (sh, refresh_execution_cache dp);
  pool_command c now sh dp :=
    match c with
    | AddDenunciationPrecursor de_p => Some (dp ← add_denunciation_precursor config de_p (now 0%nat) dp; Ok (sh, dp))
    | AddItems endorsements => Some (denunciation_add_endorsements config endorsements sh now dp)
    | NotifyFinalCsPeriods final_cs_periods => Some (Ok (sh, denunciation_notify_final_cs_periods config dp final_cs_periods))
    | _ => None
    end }.

(** [PoolControllerImpl] is cloned, and [last_cs_final_periods] with it: each of the
    controllers has its own. *)
Record Pools : Type := MkPools {
  p_shared : Shared;
  p_operations : PoolThread OperationPool;
  p_endorsements : PoolThread EndorsementPool;
  p_denunciations : PoolThread DenunciationPool;
  p_controllers : list (list N) }.
Implicit Types (ps : Pools).

(** [start_pool_controller] *)
Definition start_pool_controller (sh : Shared) : Pools :=
  let '(sh, ops) := thread_spawn (λ op st, MkOperationPool (sorted_ops op) st (op_last_cs_final_periods op)) sh (operation_pool_init config) in
  let '(sh, endos) := thread_spawn (λ ep st, MkEndorsementPool (endorsements_sorted ep) st (ep_last_cs_final_periods ep)) sh (endorsement_pool_init config) in
  let '(sh, des) := thread_spawn (λ dp _, dp) sh (denunciation_pool_init config) in
  MkPools sh ops endos des [replicate (N.to_nat (thread_count config)) 0].

Definition with_operations ps (r : Shared * PoolThread OperationPool) : Pools :=
  MkPools r.1 r.2 (p_endorsements ps) (p_denunciations ps) (p_controllers ps).
Definition with_endorsements ps (r : Shared * PoolThread EndorsementPool) : Pools :=
  MkPools r.1 (p_operations ps) r.2 (p_denunciations ps) (p_controllers ps).
Definition with_denunciations ps (r : Shared * PoolThread DenunciationPool) : Pools :=
  MkPools r.1 (p_operations ps) (p_endorsements ps) r.2 (p_controllers ps).
Definition with_shared ps (sh : Shared) : Pools :=
  MkPools sh (p_operations ps) (p_endorsements ps) (p_denunciations ps) (p_controllers ps).

(** A step of each of the threads. *)
Definition operations_step (t : Tick) ps : outcome ModelsError Pools :=
  r ← thread_step t (p_shared ps) (p_operations ps); Ok (with_operations ps r).
Definition endorsements_step (t : Tick) ps : outcome ModelsError Pools :=
  r ← thread_step t (p_shared ps) (p_endorsements ps); Ok (with_endorsements ps r).
Definition denunciations_step (t : Tick) ps : outcome ModelsError Pools :=
  r ← thread_step t (p_shared ps) (p_denunciations ps); Ok (with_denunciations ps r).

(** ** The controller *)

Definition controller_add_operations (ops : Storage) ps : outcome ModelsError ((PoolError + unit) * Pools) :=
  '(sent, r) ← try_send (operations_channel_size sizes) (AddItems ops) (p_shared ps) (p_operations ps);
  Ok (match sent with
      | Disconnected => inl (ChannelError "could not add operations to pool: worker is unreachable")
      | Full => inl (ChannelError "could not add operations to pool: worker channel is full")
      | Sent => inr tt
      end, with_operations ps r).

(** A clone goes to the pool of denunciations first. *)
Definition controller_add_endorsements (endorsements : Storage) ps : outcome ModelsError Pools :=
  let '(sh, cloned) := clone (p_shared ps) endorsements in
  '(_, r) ← try_send (denunciations_channel_size sizes) (AddItems cloned) sh (p_denunciations ps);
  let ps := with_denunciations ps r in
  '(_, r) ← try_send (endorsements_channel_size sizes) (AddItems endorsements) (p_shared ps) (p_endorsements ps);
  Ok (with_endorsements ps r).

Definition controller_add_denunciation_precursor (p : DenunciationPrecursor) ps : outcome ModelsError Pools :=
  '(_, r) ← try_send (denunciations_channel_size sizes) (AddDenunciationPrecursor p) (p_shared ps) (p_denunciations ps);
  Ok (with_denunciations ps r).

(** The call of the controller [i]. *)
Definition controller_notify_final_cs_periods (i : nat) (final_cs_periods : list N) ps : outcome ModelsError Pools :=
  let ps := MkPools (p_shared ps) (p_operations ps) (p_endorsements ps) (p_denunciations ps)
              (<[i := final_cs_periods]> (p_controllers ps)) in
  '(_, r) ← try_send (operations_channel_size sizes) (NotifyFinalCsPeriods final_cs_periods) (p_shared ps) (p_operations ps);
  let ps := with_operations ps r in
  '(_, r) ← try_send (endorsements_channel_size sizes) (NotifyFinalCsPeriods final_cs_periods) (p_shared ps) (p_endorsements ps);
  let ps := with_endorsements ps r in
  '(_, r) ← try_send (denunciations_channel_size sizes) (NotifyFinalCsPeriods final_cs_periods) (p_shared ps) (p_denunciations ps);
  Ok (with_denunciations ps r).

(** [clone_box] *)
Definition clone_box (i : nat) ps : Pools :=
  MkPools (p_shared ps) (p_operations ps) (p_endorsements ps) (p_denunciations ps)
    (match p_controllers ps !! i with Some c => p_controllers ps ++ [c] | None => p_controllers ps end).
Definition get_final_cs_periods (i : nat) ps : option (list N) := p_controllers ps !! i.

(** The lock that a reader takes: [acquired] says whether it was free in time. *)
Definition read_lock {A} (timeout : option MassaTime) (acquired : bool) (a : A) : PoolError + A :=
  match timeout with Some _ => if acquired then inr a else inl LockTimeout | None => inr a end.

(** The storage that is returned is the caller's. *)
Definition controller_get_block_operations (slot : Slot) (timeout : option MassaTime) (acquired : bool) ps
    : outcome ModelsError (PoolError + (list OperationId * Storage * Pools)) :=
  match read_lock timeout acquired (th_pool (p_operations ps)) with
  | inl e => Ok (inl e)
  | inr pool =>
      '(ids, (sh, st)) ← get_block_operations config pool slot (p_shared ps);
      Ok (inr (ids, st, with_shared ps sh))
  end.
Definition controller_get_block_endorsements (target_block : BlockId) (target_slot : Slot) (timeout : option MassaTime)
    (acquired : bool) ps : PoolError + (list (option EndorsementId) * Storage * Pools) :=
  match read_lock timeout acquired (th_pool (p_endorsements ps)) with
  | inl e => inl e
  | inr pool =>
      let '(ids, (sh, st)) := get_block_endorsements config pool target_slot target_block (p_shared ps) in
      inr (ids, st, with_shared ps sh)
  end.
Definition controller_get_block_denunciations (target_slot : Slot) (timeout : option MassaTime) (acquired : bool) ps
    : PoolError + list Denunciation :=
  match read_lock timeout acquired (th_pool (p_denunciations ps)) with
  | inl e => inl e
  | inr pool => inr (get_block_denunciations config pool target_slot)
  end.
Definition get_endorsement_count (timeout : option MassaTime) (acquired : bool) ps : PoolError + N :=
  read_lock timeout acquired (endorsement_pool_len (th_pool (p_endorsements ps))).
Definition get_operation_count (timeout : option MassaTime) (acquired : bool) ps : PoolError + N :=
  read_lock timeout acquired (operation_pool_len (th_pool (p_operations ps))).
Definition get_denunciation_count (timeout : option MassaTime) (acquired : bool) ps : PoolError + N :=
  read_lock timeout acquired (denunciation_pool_len (th_pool (p_denunciations ps))).
Definition contains_endorsements (ids : list EndorsementId) (timeout : option MassaTime) (acquired : bool) ps : PoolError + list bool :=
  read_lock timeout acquired (endorsement_pool_contains (th_pool (p_endorsements ps)) <$> ids).
Definition contains_operations (ids : list OperationId) (timeout : option MassaTime) (acquired : bool) ps : PoolError + list bool :=
  read_lock timeout acquired (operation_pool_contains (th_pool (p_operations ps)) <$> ids).

(** [PoolManagerImpl::stop]: the three sends; the threads are then joined. *)
Definition stop ps : option Pools :=
  ops ← send (operations_channel_size sizes) Stop (p_operations ps);
  endos ← send (endorsements_channel_size sizes) Stop (p_endorsements ps);
  des ← send (denunciations_channel_size sizes) Stop (p_denunciations ps);
  Some (MkPools (p_shared ps) ops endos des (p_controllers ps)).
End pools.
