(* ===== verification/PoolThreads.v ===== *)
(** * A thread of a pool never panics and owns what it holds

    What the loop of [PoolWorker] needs of a pool is the class [PoolLaws]: commands,
    refreshes and copies return, leave the pool in order, and only ever remove objects from
    the storage.  The steps of a thread are proved once, against it. *)

From S2P Require Import Prelude Slots Times Models Storage StorageRefs PoolWorker.

Open Scope N_scope.

Section agree.
Context `{!SetIter BlockId, !SetIter OperationId, !SetIter EndorsementId}.
Implicit Types (sh : Shared) (st : Storage) (O : list Storage).

(** The operations and endorsements of the instance [st] are the same in two states of the storage. *)
Definition agree sh sh' st : Prop :=
  (∀ k, k ∈ local_used_ops st → ix_get (p_index (sh_operations sh')) k = ix_get (p_index (sh_operations sh)) k)
  ∧ (∀ k, k ∈ local_used_endorsements st → ix_get (p_index (sh_endorsements sh')) k = ix_get (p_index (sh_endorsements sh)) k).

Lemma agree_trans sh1 sh2 sh3 st : agree sh1 sh2 st → agree sh2 sh3 st → agree sh1 sh3 st.
Proof using All. intros [A1 A2] [B1 B2]. split; intros k Hk; [by rewrite B1, A1|by rewrite B2, A2]. Qed.

Lemma within_agree sh sh' st O : shared_ok sh' O → st ∈ O → shared_within sh' sh → agree sh sh' st.
Proof using All.
  intros [_ H2 H3] Hin (_ & W2 & W3). split; intros k Hk.
  - destruct (held_objects _ _ (local_used_ops st) k H2) as [o Ho]; [by apply list_elem_of_fmap_2|done|]. rewrite Ho. symmetry. by apply W2.
  - destruct (held_objects _ _ (local_used_endorsements st) k H3) as [o Ho]; [by apply list_elem_of_fmap_2|done|]. rewrite Ho. symmetry. by apply W3.
Qed.
Lemma within_agrees sh sh' O O' : shared_ok sh' O → O' ⊆ O → shared_within sh' sh → Forall (agree sh sh') O'.
Proof using All. intros Hsh Hsub Hw. apply Forall_forall. intros st Hst. eapply within_agree; [exact Hsh|by apply Hsub|done]. Qed.

Lemma drop_storages sts sh O :
  shared_ok sh (sts ++ O) → ∃ sh', foldM drop_storage sts sh = @Ok ModelsError _ sh' ∧ shared_ok sh' O ∧ shared_within sh' sh.
Proof using All.
  revert sh. induction sts as [|st sts IH]; intros sh Hsh; cbn [foldM]; [by exists sh|].
  destruct (drop_storage_ok (E := ModelsError) sh st (sts ++ O) Hsh) as (sh1 & Hd & Hsh1). rewrite Hd. cbn [mbind outcome_bind].
  destruct (IH sh1 Hsh1) as (sh2 & -> & Hsh2 & Hw). exists sh2. split_and!; [done|done|]. etrans; [exact Hw|by eapply drop_storage_within].
Qed.
End agree.

Section threads.
Context `{!SetIter BlockId, !SetIter OperationId, !SetIter EndorsementId}.
Context {P : Type} `{!PoolOps P}.
Implicit Types (p : P) (th : PoolThread P) (sh : Shared) (O : list Storage) (c : Command) (now : nat → MassaTime).

(** A call on a pool returns, and leaves it in order. *)
Definition leads_to (inv : Shared → P → Prop) O sh (r : outcome ModelsError (Shared * P)) : Prop :=
  ∃ sh' p', r = Ok (sh', p') ∧ shared_ok sh' (storage_of p' :: O) ∧ inv sh' p' ∧ shared_within sh' sh.

Class PoolLaws (inv : Shared → P → Prop) (good : Shared → Command → Prop) (clock : (nat → MassaTime) → Prop) : Prop := {
  inv_stable sh sh' p : inv sh p → agree sh sh' (storage_of p) → inv sh' p;
  good_stable sh sh' c : good sh c → Forall (agree sh sh') (command_storage c) → good sh' c;
  law_refresh now sh p O :
    clock now → shared_ok sh (storage_of p :: O) → inv sh p → leads_to inv O sh (pool_refresh now sh p);
  law_command c now sh p O :
    clock now → shared_ok sh (storage_of p :: command_storage c ++ O) → inv sh p → good sh c →
    match pool_command c now sh p with Some r => leads_to inv O sh r | None => command_storage c = [] end;
  law_replace p other sh O :
    shared_ok sh (storage_of p :: O) → N.of_nat (length O) < u64_max → storage_of other ∈ O →
    ∃ sh', pool_replace_with p other sh = Ok (sh', other) ∧ shared_ok sh' (storage_of other :: O) ∧ shared_within sh' sh }.

(** The instances of the storage that a thread owns: its pool's, its buffer's, its commands'. *)
Definition live th : list Storage :=
  storage_of (th_pool th) :: (if th_running th then [storage_of (th_buffer th)] else []) ++ (th_channel th ≫= command_storage).

Context {inv : Shared → P → Prop} {good : Shared → Command → Prop} {clock : (nat → MassaTime) → Prop}.
Record thread_ok sh th : Prop := {
  tho_pool : inv sh (th_pool th);
  tho_buffer : th_running th = true → inv sh (th_buffer th);
  tho_channel : Forall (good sh) (th_channel th);
  tho_ended : th_running th = false → th_channel th = [];
  tho_same : th_running th = true → th_modified th = false → th_pool th = th_buffer th }.

Context `{PL : !PoolLaws inv good clock}.

Lemma thread_stable sh sh' th : thread_ok sh th → Forall (agree sh sh') (live th) → thread_ok sh' th.
Proof using All.
  intros [Hp Hb Hc He Hs] [Hap Ha]%Forall_cons. apply Forall_app in Ha as [Hab Hac]. split; [by eapply inv_stable| | |done|done].
  - intros Hr. rewrite Hr in Hab. apply Forall_cons in Hab as [Hab _]. eapply inv_stable; [by apply Hb|done].
  - apply Forall_forall. intros c Hin. eapply good_stable; [by eapply Forall_forall in Hc|].
    apply Forall_forall. intros st Hst. eapply Forall_forall in Hac; [exact Hac|]. apply list_elem_of_bind. by exists c.
Qed.

(** A step of a thread: it returns, and keeps what it and the others hold. *)
Definition moves O sh th (r : outcome ModelsError (Shared * PoolThread P)) : Prop :=
  ∃ sh' th', r = Ok (sh', th') ∧ shared_ok sh' (live th' ++ O) ∧ thread_ok sh' th' ∧ shared_within sh' sh
    ∧ (length (live th') ≤ length (live th))%nat.

Lemma live_running th :
  th_running th = true → live th = storage_of (th_pool th) :: storage_of (th_buffer th) :: (th_channel th ≫= command_storage).
Proof using. intros Hr. unfold live. by rewrite Hr. Qed.

(** The buffer is replaced by the result of a call on it that consumes [sts]. *)
Lemma buffer_update r sts rest th O sh :
  th_running th = true → thread_ok sh th → th_channel th = rest →
  shared_ok sh (storage_of (th_pool th) :: storage_of (th_buffer th) :: sts ++ (rest ≫= command_storage) ++ O) →
  (shared_ok sh (storage_of (th_buffer th) :: sts ++ (storage_of (th_pool th) :: (rest ≫= command_storage) ++ O)) →
   leads_to inv (storage_of (th_pool th) :: (rest ≫= command_storage) ++ O) sh r) →
  ∃ sh' b, r = Ok (sh', b)
    ∧ let th' := MkPoolThread (th_pool th) b true (th_waiting th) (th_running th) rest in
      shared_ok sh' (live th' ++ O) ∧ thread_ok sh' th' ∧ shared_within sh' sh.
Proof using All.
  intros Hr [Hp Hb Hc He Hs] Hch Hsh Hcall. destruct Hcall as (sh' & b & Hx & Hsh' & Hinv & Hw).
  { rewrite <-Permutation_middle, Permutation_swap. done. }
  exists sh', b. split; [done|]. cbn zeta.
  assert (live (MkPoolThread (th_pool th) b true (th_waiting th) (th_running th) rest) ++ O
          ≡ₚ storage_of b :: storage_of (th_pool th) :: (rest ≫= command_storage) ++ O) as Hl
    by (unfold live; cbn; rewrite Hr; cbn; apply Permutation_swap).
  split_and!; [by rewrite Hl| |done].
  split; cbn; [|done| |congruence|done].
  - eapply inv_stable; [exact Hp|]. eapply within_agree; [exact Hsh'|right; by left|done].
  - subst rest. apply Forall_forall. intros c Hin. eapply good_stable; [by eapply Forall_forall in Hc|].
    eapply within_agrees; [exact Hsh'| |done]. intros st Hst. do 2 right. apply elem_of_app. left. apply list_elem_of_bind. by exists c.
Qed.

Lemma swap_ok th O sh :
  th_running th = true → thread_ok sh th → shared_ok sh (live th ++ O) → N.of_nat (length (live th ++ O)) < u64_max →
  ∃ sh' th', swap_buffers sh th = Ok (sh', th') ∧ shared_ok sh' (live th' ++ O) ∧ thread_ok sh' th' ∧ shared_within sh' sh
    ∧ length (live th') = length (live th) ∧ th_pool th' = th_buffer th'
    ∧ th_buffer th' = th_buffer th ∧ th_channel th' = th_channel th ∧ th_running th' = true ∧ th_waiting th' = th_waiting th.
Proof using All.
  intros Hr Hok Hsh Hlen. pose proof Hok as [Hp Hb Hc He Hs]. unfold swap_buffers. destruct (th_modified th) eqn:Hm.
  2:{ exists sh, th. split_and!; [done|done|done|done|done|auto|done|done|done|done]. }
  rewrite live_running in Hsh, Hlen by done. cbn in Hsh, Hlen.
  destruct (law_replace (th_pool th) (th_buffer th) sh (storage_of (th_buffer th) :: (th_channel th ≫= command_storage) ++ O))
    as (sh' & -> & Hsh' & Hw); [done|cbn; lia|by left|]. cbn [mbind outcome_bind].
  set (th' := MkPoolThread _ _ _ _ _ _). assert (live th' = storage_of (th_buffer th) :: storage_of (th_buffer th)
    :: (th_channel th ≫= command_storage)) as Hl by (unfold live; cbn; by rewrite Hr).
  exists sh', th'. rewrite Hl, live_running by done. split_and!; try done.
  assert (Forall (agree sh sh') (storage_of (th_buffer th) :: (th_channel th ≫= command_storage))) as Ha.
  { eapply within_agrees; [exact Hsh'| |done]. intros st Hst. right. by apply (elem_of_app (_ :: _) O); left. }
  apply Forall_cons in Ha as [Hab Hac]. split; cbn.
  - eapply inv_stable; [by apply Hb|done].
  - intros _. eapply inv_stable; [by apply Hb|done].
  - apply Forall_forall. intros c Hin. eapply good_stable; [by eapply Forall_forall in Hc|].
    apply Forall_forall. intros st Hst. eapply Forall_forall in Hac; [exact Hac|]. apply list_elem_of_bind. by exists c.
  - congruence.
  - done.
Qed.

(** The fields that the loop changes by itself do not matter. *)
Lemma live_set_waiting w th : live (set_waiting w th) = live th.
Proof using. done. Qed.
Lemma thread_ok_set_waiting w sh th : thread_ok sh (set_waiting w th) ↔ thread_ok sh th.
Proof using. split; intros [? ? ? ? ?]; by split. Qed.

Lemma process_ok c rest now th O sh :
  clock now → th_running th = true → thread_ok sh th → th_channel th = c :: rest → shared_ok sh (live th ++ O) →
  ∃ sh' th', process_command c now sh (set_channel rest th) = Ok (sh', th') ∧ shared_ok sh' (live th' ++ O) ∧ thread_ok sh' th'
    ∧ shared_within sh' sh ∧ (length (live th') ≤ length (live th))%nat
    ∧ th_running th' = true ∧ th_channel th' = rest ∧ th_waiting th' = th_waiting th.
Proof using All.
  intros Hnow Hr Hok Hch Hsh. pose proof Hok as [Hp Hb Hc He Hs].
  rewrite live_running, Hch in Hsh by done. rewrite Hch in Hc. apply Forall_cons in Hc as [Hgood Hc].
  rewrite bind_cons in Hsh. cbn [app] in Hsh. rewrite <-app_assoc in Hsh.
  assert (thread_ok sh (set_channel rest th)) as Hok' by (split; cbn; [done|done|done|congruence|done]).
  pose proof (law_command c now sh (th_buffer th) (storage_of (th_pool th) :: (rest ≫= command_storage) ++ O) Hnow) as Hlaw.
  assert (length (live th) = 2 + length (command_storage c) + length (rest ≫= command_storage))%nat as Hll.
  { rewrite live_running, Hch, bind_cons by done. cbn. rewrite length_app. lia. }
  unfold process_command. cbn [th_buffer set_channel]. destruct (pool_command c now sh (th_buffer th)) as [r|].
  - destruct (buffer_update r (command_storage c) rest (set_channel rest th) O sh Hr Hok' eq_refl Hsh) as (sh' & b & -> & Hsh' & Hok2 & Hw).
    { intros Hsh2. apply Hlaw; [done|by apply Hb|done]. }
    cbn [mbind outcome_bind]. do 2 eexists. split; [done|]. split_and!; [exact Hsh'|exact Hok2|done| |done|done|done].
    rewrite Hll, live_running by done. cbn. lia.
  - exists sh, (set_channel rest th). rewrite Hlaw in Hsh by (by rewrite ?Hr; try (rewrite <-Permutation_middle, Permutation_swap); auto).
    split_and!; [done| |done|done| |done|done|done].
    + by rewrite live_running.
    + rewrite Hll, live_running by done. cbn. lia.
Qed.

Lemma end_ok th O sh :
  th_running th = true → thread_ok sh th → shared_ok sh (live th ++ O) → moves O sh th (thread_end sh th).
Proof using All.
  intros Hr [Hp Hb Hc He Hs] Hsh. unfold thread_end. rewrite live_running in Hsh by done. cbn [app] in Hsh.
  rewrite Permutation_swap in Hsh. destruct (drop_storage_ok (E := ModelsError) _ _ _ Hsh) as (sh1 & Hd1 & Hsh1).
  rewrite Hd1. cbn [mbind outcome_bind]. apply drop_storage_within in Hd1.
  rewrite Permutation_middle in Hsh1. destruct (drop_storages _ _ _ Hsh1) as (sh2 & -> & Hsh2 & Hw). cbn [mbind outcome_bind].
  assert (shared_within sh2 sh) as Hw' by (by etrans).
  do 2 eexists. split; [done|]. split_and!; [exact Hsh2| |done|rewrite (live_running th) by done; cbn; lia].
  split; cbn; [|done|constructor|done|done]. eapply inv_stable; [exact Hp|]. eapply within_agree; [exact Hsh2|by left|done].
Qed.

Lemma finish_ok t th O sh :
  th_running th = true → thread_ok sh th → shared_ok sh (live th ++ O) → N.of_nat (length (live th ++ O)) < u64_max →
  moves O sh th (if tk_swap t then swap_buffers sh (set_waiting false th) else Ok (sh, set_waiting false th)).
Proof using All.
  intros Hr Hok Hsh Hlen. destruct (tk_swap t).
  - destruct (swap_ok (set_waiting false th) O sh) as (sh' & th' & -> & Hsh' & Hok' & Hw & Hl & _); [done|by apply thread_ok_set_waiting|done|done|].
    exists sh', th'. split_and!; [done..|]. rewrite Hl. done.
  - exists sh, (set_waiting false th). split_and!; [done|done|by apply thread_ok_set_waiting|done|done].
Qed.

Lemma finish_command_ok c rest t th O sh :
  clock (tk_now t) → th_running th = true → thread_ok sh th → th_channel th = c :: rest → shared_ok sh (live th ++ O) →
  N.of_nat (length (live th ++ O)) < u64_max → moves O sh th (finish_round (Some c) t sh (set_channel rest th)).
Proof using All.
  intros Hnow Hr Hok Hch Hsh Hlen. unfold finish_round.
  destruct (process_ok c rest (tk_now t) th O sh Hnow Hr Hok Hch Hsh) as (sh1 & th1 & -> & Hsh1 & Hok1 & Hw1 & Hl1 & Hr1 & _ & _).
  cbn [mbind outcome_bind]. cbn zeta. rewrite length_app in Hlen.
  destruct (finish_ok t th1 O sh1 Hr1 Hok1 Hsh1) as (sh2 & th2 & -> & Hsh2 & Hok2 & Hw2 & Hl2); [rewrite length_app; lia|].
  exists sh2, th2. split_and!; [done|done|done|by etrans|lia].
Qed.

(** What a thread does with its channel, in either half of a round. *)
Lemma receive_ok t th O sh empty :
  clock (tk_now t) → th_running th = true → thread_ok sh th → shared_ok sh (live th ++ O) →
  N.of_nat (length (live th ++ O)) < u64_max → (th_channel th = [] → moves O sh th empty) →
  moves O sh th (match th_channel th with
                 | Stop :: rest => thread_end sh (set_channel rest th)
                 | c :: rest => finish_round (Some c) t sh (set_channel rest th)
                 | [] => empty
                 end).
Proof using All.
  intros Hnow Hr Hok Hsh Hlen Hempty. destruct (th_channel th) as [|c rest] eqn:Hch; [auto|].
  assert (c = Stop → moves O sh th (thread_end sh (set_channel rest th))) as Hstop.
  { intros ->. pose proof Hok as [Hp Hb Hc He Hs]. rewrite Hch in Hc. apply Forall_cons in Hc as [_ Hc].
    assert (live (set_channel rest th) = live th) as Hl by (unfold live; cbn; by rewrite Hch).
    destruct (end_ok (set_channel rest th) O sh) as (sh' & th' & Hm); [done|split; cbn; [done|done|done|congruence|done]|by rewrite Hl|].
    exists sh', th'. by rewrite Hl in Hm. }
  destruct c; [by apply finish_command_ok|by apply finish_command_ok|by apply finish_command_ok|by apply Hstop].
Qed.

Lemma refresh_ok t th O sh :
  clock (tk_now t) → th_running th = true → thread_ok sh th → shared_ok sh (live th ++ O) →
  ∃ sh' th', refresh_buffer t sh th = Ok (sh', th')
    ∧ shared_ok sh' (live th' ++ O) ∧ thread_ok sh' th' ∧ shared_within sh' sh ∧ length (live th') = length (live th)
    ∧ th_running th' = true ∧ th_channel th' = th_channel th.
Proof using All.
  intros Hnow Hr Hok Hsh. unfold refresh_buffer. destruct (tk_refresh t); [|by exists sh, th].
  destruct (buffer_update (pool_refresh (tk_now t) sh (th_buffer th)) [] (th_channel th) th O sh Hr Hok eq_refl)
    as (sh' & b & -> & Hsh' & Hok' & Hw).
  { by rewrite live_running in Hsh. }
  { intros Hsh'. apply law_refresh; [done|done|by apply Hok]. }
  cbn [mbind outcome_bind]. do 2 eexists. split; [done|]. split_and!; [done|done|done| |done|done].
  rewrite (live_running th) by done. unfold live. cbn. by rewrite Hr.
Qed.

(** Every step of a thread returns, in order. *)
Lemma thread_step_ok t th O sh :
  clock (tk_now t) → thread_ok sh th → shared_ok sh (live th ++ O) → N.of_nat (length (live th ++ O)) < u64_max →
  moves O sh th (thread_step t sh th).
Proof using All.
  intros Hnow Hok Hsh Hlen. unfold thread_step. destruct (th_running th) eqn:Hr; cbn [negb]; [|by exists sh, th].
  destruct (th_waiting th).
  - apply receive_ok; [done..|]. intros Hch. destruct (tk_connected t); [|by apply end_ok]. by apply finish_ok.
  - destruct (refresh_ok t th O sh Hnow Hr Hok Hsh) as (sh1 & th1 & -> & Hsh1 & Hok1 & Hw1 & Hl1 & Hr1 & _).
    cbn [mbind outcome_bind]. rewrite length_app in Hlen.
    assert (N.of_nat (length (live th1 ++ O)) < u64_max) as Hlen1 by (rewrite length_app; lia).
    edestruct (receive_ok t th1 O sh1) as (sh2 & th2 & Hx & Hsh2 & Hok2 & Hw2 & Hl2); [done..| |
      rewrite Hx; exists sh2, th2; split_and!; [done|done|done|by etrans|lia]].
    intros _. destruct (tk_connected t); [|by apply end_ok].
    destruct (swap_ok th1 O sh1 Hr1 Hok1 Hsh1 Hlen1) as (sh2 & th2 & -> & Hsh2 & Hok2 & Hw2 & Hl2 & _). cbn [mbind outcome_bind].
    exists sh2, (set_waiting true th2). split_and!; [done|done|by apply thread_ok_set_waiting|done|rewrite live_set_waiting; lia].
Qed.

(** When nothing waits, a round publishes the buffer. *)
Lemma thread_publishes t th O sh sh' th' :
  clock (tk_now t) → thread_ok sh th → shared_ok sh (live th ++ O) → N.of_nat (length (live th ++ O)) < u64_max →
  th_running th = true → th_waiting th = false → th_channel th = [] → tk_connected t = true →
  thread_step t sh th = Ok (sh', th') →
  th_pool th' = th_buffer th' ∧ th_channel th' = [] ∧ (tk_refresh t = false → th_buffer th' = th_buffer th).
Proof using All.
  intros Hnow Hok Hsh Hlen Hr Hwt Hch Hcon. unfold thread_step. rewrite Hr, Hwt. cbn [negb].
  destruct (refresh_ok t th O sh Hnow Hr Hok Hsh) as (sh1 & th1 & Hx & Hsh1 & Hok1 & Hw1 & Hl1 & Hr1 & Hch1).
  assert (tk_refresh t = false → th1 = th) as Hsame by (intros Hf; unfold refresh_buffer in Hx; rewrite Hf in Hx; by simplify_eq).
  rewrite Hx. cbn [mbind outcome_bind]. rewrite Hch1, Hch, Hcon. rewrite length_app in Hlen.
  destruct (swap_ok th1 O sh1 Hr1 Hok1 Hsh1) as (sh2 & th2 & -> & _ & _ & _ & _ & Heq & Hb & Hc2 & _); [rewrite length_app; lia|].
  cbn [mbind outcome_bind]. intros [= <- <-]. cbn [th_pool th_buffer th_channel set_waiting].
  split_and!; [done|congruence|]. intros Hf. by rewrite Hb, (Hsame Hf).
Qed.

(** ** Sending *)

(** The channel of a thread after a command is offered to it: the command is dropped when the thread has stopped or the
    channel is full. *)
Definition channel_after {P : Type} (n : N) (c : Command) (th : PoolThread P) : list Command :=
  if th_running th && (N.of_nat (length (th_channel th)) <? n) then th_channel th ++ [c] else th_channel th.

Lemma try_send_ok n c th O sh :
  thread_ok sh th → good sh c → shared_ok sh (live th ++ command_storage c ++ O) →
  ∃ res sh' th', try_send n c sh th = Ok (res, (sh', th')) ∧ shared_ok sh' (live th' ++ O) ∧ thread_ok sh' th' ∧ shared_within sh' sh
    ∧ (length (live th') ≤ length (live th) + length (command_storage c))%nat.
Proof using All.
  intros Hok Hgood Hsh. pose proof Hok as [Hp Hb Hc He Hs].
  assert (∃ sh', foldM drop_storage (command_storage c) sh = @Ok ModelsError _ sh' ∧ shared_ok sh' (live th ++ O) ∧ shared_within sh' sh
    ∧ thread_ok sh' th) as (sh1 & Hd & Hsh1 & Hw1 & Hok1).
  { rewrite !app_assoc, (Permutation_app_comm (live th)), <-!app_assoc in Hsh. destruct (drop_storages _ _ _ Hsh) as (sh1 & ? & Hsh1 & Hw).
    exists sh1. split_and!; [done|done|done|]. eapply thread_stable; [exact Hok|]. eapply within_agrees; [exact Hsh1| |done].
    intros st Hst. apply elem_of_app. by left. }
  unfold try_send. destruct (th_running th) eqn:Hr; cbn [negb].
  2:{ rewrite Hd. cbn. exists Disconnected, sh1, th. split_and!; [done|done|done|done|lia]. }
  destruct (n <=? _).
  { rewrite Hd. cbn. exists Full, sh1, th. split_and!; [done|done|done|done|lia]. }
  exists Sent, sh, (set_channel (th_channel th ++ [c]) th).
  assert (live (set_channel (th_channel th ++ [c]) th) = live th ++ command_storage c) as Hl.
  { unfold live. cbn. rewrite bind_app. cbn. by rewrite app_nil_r, app_assoc, <-app_assoc, app_assoc. }
  rewrite Hl, length_app, <-app_assoc. split_and!; [done|done| |done|lia].
  split; cbn; [done|auto|apply Forall_app; split; [done|by constructor]|congruence|auto].
Qed.
Lemma send_ok n c th sh th' :
  thread_ok sh th → good sh c → command_storage c = [] → send n c th = Some th' → thread_ok sh th' ∧ live th' = live th.
Proof using All.
  intros Hok Hgood Hnil. pose proof Hok as [Hp Hb Hc He Hs]. unfold send. destruct (th_running th) eqn:Hr; cbn [negb]; [|by intros [= <-]].
  destruct (n <=? _); [done|]. intros [= <-]. split.
  - split; cbn; [done|auto|apply Forall_app; split; [done|by constructor]|congruence|auto].
  - unfold live. cbn. rewrite bind_app. cbn. by rewrite Hnil, !app_nil_r.
Qed.
End threads.
