(* ===== verification/PoolSystem.v ===== *)
(** * The three pools together

    The pools of operations, endorsements and denunciations have the laws that their threads
    need; with them, whatever the threads and the callers of the controller do and in whatever
    order, every step returns and what the pools hold is what the storage holds for them. *)

From S2P Require Import Prelude Slots Times OrdMap MipState MipStore Keys KeyFacts Models Ledger Wire WireFacts Formats FormatFacts BlockFormats BlockFormatFacts Storage StorageRefs Denunciations DenunciationFacts PoolExports DenunciationPool DenunciationPoolFacts EndorsementPool EndorsementPoolFacts OperationPool OperationPoolFacts PoolWorker PoolThreads.

Open Scope N_scope.

Section laws.
Context `{!SetIter BlockId, !SetIter OperationId, !SetIter EndorsementId, !SetIter Address}.
Context `{!Varint} `{VL : !VarintLaws} `{!VerifyingKey} `{!HashFn} `{!Ed25519} `{!VoteRatio} `{!PoolChannels} `{!ScoreSort}.
Context (config : PoolConfig) (wallet : Wallet).
Implicit Types (sh : Shared) (st : Storage) (O : list Storage).

#[local] Hint Extern 0 (PoolOps EndorsementPool) => exact (endorsement_ops config wallet) : typeclass_instances.
#[local] Hint Extern 0 (PoolOps OperationPool) => exact (operation_ops config wallet) : typeclass_instances.
#[local] Hint Extern 0 (PoolOps DenunciationPool) => exact (denunciation_ops config) : typeclass_instances.

(** What the configuration satisfies; [u64_max / 2] leaves room for a command. *)
Record config_ok : Prop := {
  co_clock : clock_ok (thread_count config) (t0 config) (genesis_timestamp config);
  co_t0 : 2 * t0 config ≤ u64_max;
  co_operations : max_operation_pool_size config + max_operation_pool_excess_items config ≤ u64_max / 2;
  co_selector : selector_answers config wallet }.
Definition times_ok (now : nat → MassaTime) : Prop := ∀ i, now i ≤ u64_max.

(** The endorsements of an instance come from messages that were read. *)
Definition endorsements_ok sh st : Prop :=
  ∀ k e, k ∈ local_used_endorsements st → ix_get (p_index (sh_endorsements sh)) k = Some e →
    thread (e_slot (content e)) < thread_count config ∧ precursor_ok config (precursor_of_endorsement e).
Definition command_good sh (c : Command) : Prop :=
  match c with
  | AddItems st => N.of_nat (size (local_used_ops st)) ≤ u64_max / 2 ∧ endorsements_ok sh st
  | AddDenunciationPrecursor p => precursor_ok config p
  | NotifyFinalCsPeriods l => N.of_nat (length l) = thread_count config
  | Stop => True
  end.
Lemma command_good_stable sh sh' c : command_good sh c → Forall (agree sh sh') (command_storage c) → command_good sh' c.
Proof using.
  destruct c as [st|p|l|]; [|done..]. intros [Hsz He] [[_ Ha] _]%Forall_cons. split; [done|].
  intros k e Hk Hg. eapply He; [done|]. by rewrite <-Ha.
Qed.

Definition operations_inv sh op : Prop :=
  operation_pool_ok config sh op ∧ N.of_nat (length (op_last_cs_final_periods op)) = thread_count config
  ∧ operation_pool_len op ≤ max_operation_pool_size config + max_operation_pool_excess_items config.


#[local] Instance endorsement_laws : config_ok → PoolLaws (endorsement_pool_ok config wallet) command_good times_ok.
Proof using All.
  intros [Hclock Ht0 Hops Hsel]. split.
  - intros sh sh' p [Hs Hrefs Hp Hf Hb] [_ Ha]. cbn [storage_of endorsement_ops] in Ha. split; [|done..]. eapply sorted_ok_ext; [done|].
    intros k Hk. apply Ha. by rewrite Hrefs.
  - apply command_good_stable.
  - intros now sh p O _ Hsh Hinv. by exists sh, p.
  - intros c now sh p O _ Hsh Hinv Hgood. cbn [pool_command endorsement_ops]. destruct c as [st|q|l|]; [|done| |done].
    + destruct Hgood as [_ He]. destruct (add_endorsements_spec config wallet st sh p O) as (sh' & p' & Hx & Hsh' & Hw & Hok & _);
        [done|done|intros k e Hk Hg; by apply (He k e)|]. by exists sh', p'.
    + destruct (endorsement_notify_spec config wallet l sh p O) as (sh' & p' & Hx & Hsh' & Hw & Hok & _); [done..|]. by exists sh', p'.
  - intros p other sh O Hsh Hlen Hin. cbn [pool_replace_with endorsement_ops]. unfold endorsement_pool_replace_with.
    destruct (replace_with_spec (E := ModelsError) (ep_storage p) (ep_storage other) sh O Hsh Hlen Hin) as (sh' & -> & Hsh' & Hw).
    cbn [mbind outcome_bind]. exists sh'. split_and!; [by destruct other|done|done].
Qed.

#[local] Instance operation_laws : config_ok → PoolLaws operations_inv command_good times_ok.
Proof using All.
  intros [Hclock Ht0 Hops Hsel]. pose proof Hclock as ([Htc _] & _). split.
  - intros sh sh' p (Hok & Hrest) [Ha _]. split; [|done]. by eapply operation_pool_ok_stable.
  - apply command_good_stable.
  - intros now sh p O _ Hsh (Hok & Hper & Hlen). destruct (refresh_spec config wallet (now 0%nat) (now 1%nat) sh p O)
      as (sh' & p' & Hx & Hsh' & Hok' & Hper' & Hlen' & _ & _ & _ & Hw); [done..|].
    exists sh', p'. split_and!; [done|done| |done]. split_and!; [done|congruence|lia].
  - intros c now sh p O _ Hsh (Hok & Hper & Hlen) Hgood. cbn [pool_command operation_ops]. destruct c as [st|q|l|]; [|done| |done].
    + destruct Hgood as [Hsz _]. destruct (add_operations_spec config st sh p O) as (sh' & p' & news & Hx & Hsh' & Hok' & _ & Hper' & Hlen' & _ & _ & Hw);
        [done|done| |].
      { unfold operation_pool_len in Hlen. pose proof (N.mul_div_le u64_max 2 ltac:(done)). lia. }
      exists sh', p'. split_and!; [done|done| |done]. split_and!; [done|congruence|lia].
    + do 2 eexists. split; [done|]. split_and!; [done| |done]. destruct Hok as [H1' H2' H3']. by split_and!.
  - intros p other sh O Hsh Hlen Hin. cbn [pool_replace_with operation_ops]. unfold operation_pool_replace_with.
    destruct (replace_with_spec (E := ModelsError) (op_storage p) (op_storage other) sh O Hsh Hlen Hin) as (sh' & -> & Hsh' & Hw).
    cbn [mbind outcome_bind]. exists sh'. split_and!; [by destruct other|done|done].
Qed.

(** A precursor is always processed. *)
Lemma add_precursor_total p now dp :
  config_ok → now ≤ u64_max → denunciation_pool_ok config dp → precursor_ok config p →
  ∃ dp', add_denunciation_precursor config p now dp = Ok dp' ∧ denunciation_pool_ok config dp'.
Proof using All.
  intros [Hclock Ht0 _ _] Hnow Hok Hp.
  assert (∃ dp', add_denunciation_precursor config p now dp = Ok dp') as (dp' & Hx).
  { unfold add_denunciation_precursor. case_match; [by eexists|].
    destruct (closest_slot_total _ _ _ Hclock now Hnow Ht0) as (s & ->). cbn [mbind outcome_bind]. repeat case_match; by eexists. }
  exists dp'. split; [done|]. by apply (pool_step_ok config (StepAdd p now) dp).
Qed.
Lemma add_precursors_total ps now i dp :
  config_ok → times_ok now → denunciation_pool_ok config dp → Forall (precursor_ok config) ps →
  ∃ dp', foldM (λ dp '(i, precursor), add_denunciation_precursor config precursor (now i) dp) (imap (λ j p, (i + j, p)%nat) ps) dp = Ok dp'
    ∧ denunciation_pool_ok config dp'.
Proof using All.
  intros Hc Hnow Hok Hps. revert i dp Hok. induction Hps as [|p ps Hp Hps IH]; intros i dp Hok; cbn [imap foldM]; [by exists dp|].
  destruct (add_precursor_total p (now (i + 0)%nat) dp Hc (Hnow _) Hok Hp) as (dp1 & -> & Hok1). cbn [mbind outcome_bind].
  destruct (IH (S i) dp1 Hok1) as (dp2 & Hx & Hok2). exists dp2. split; [|done]. rewrite <-Hx. f_equal. apply imap_ext. intros j q _. cbn. f_equal. lia.
Qed.
Lemma read_precursors sh st O ks acc :
  shared_ok sh (st :: O) → endorsements_ok sh st → (∀ k, k ∈ ks → k ∈ local_used_endorsements st) → Forall (precursor_ok config) acc →
  ∃ ps, foldM (λ acc endo_id,
      endo ← expect "could not get endorsement owned by storage" (ix_get (p_index (sh_endorsements sh)) endo_id);
      Ok (acc ++ [precursor_of_endorsement endo])) ks acc = @Ok ModelsError _ ps ∧ Forall (precursor_ok config) ps.
Proof using All.
  intros Hsh He. revert acc. induction ks as [|k ks IH]; intros acc Hks Hacc; cbn [foldM]; [by exists acc|].
  assert (k ∈ local_used_endorsements st) as Hk by (apply Hks; by left).
  destruct (held_objects _ _ (local_used_endorsements st) k (so_endorsements _ _ Hsh)) as [e Hg]; [by left|done|].
  rewrite Hg. cbn [expect mbind outcome_bind]. apply IH; [intros x Hx; apply Hks; by right|].
  apply Forall_app. split; [done|]. constructor; [|done]. by apply (He k e).
Qed.

#[local] Instance denunciation_laws : config_ok → PoolLaws (λ _ : Shared, denunciation_pool_ok config) command_good times_ok.
Proof using All.
  intros Hconf. split.
  - done.
  - apply command_good_stable.
  - intros now sh p O _ Hsh Hinv. exists sh, (refresh_execution_cache p). split_and!; [done|done| |done].
    by apply (pool_step_ok config StepRefresh p).
  - intros c now sh p O Hnow Hsh Hinv Hgood. cbn [pool_command denunciation_ops storage_of] in *.
    destruct c as [st|q|l|]; [| | |done].
    + destruct Hgood as [_ He]. pose proof (proj1 (shared_ok_nothing _ _) Hsh) as Hsh2. cbn [command_storage app] in Hsh2. unfold denunciation_add_endorsements.
      destruct (read_precursors sh st O (set_iter (local_used_endorsements st)) [] Hsh2 He) as (ps & -> & Hps);
        [by intros k Hk%elem_of_set_iter|done|]. cbn [mbind outcome_bind].
      destruct (add_precursors_total ps now 0%nat p Hconf Hnow Hinv Hps) as (dp' & Hx & Hok').
      change (imap pair ps) with (imap (λ j q, (0 + j, q)%nat) ps). rewrite Hx. cbn [mbind outcome_bind].
      destruct (drop_storage_ok (E := ModelsError) sh st O Hsh2) as (sh' & Hd & Hsh'). rewrite Hd. cbn [mbind outcome_bind].
      exists sh', dp'. split_and!; [done|by apply (proj2 (shared_ok_nothing _ _))|done|by eapply drop_storage_within].
    + destruct (add_precursor_total q (now 0%nat) p Hconf (Hnow _) Hinv Hgood) as (dp' & -> & Hok'). cbn. by exists sh, dp'.
    + exists sh. eexists. split; [done|]. split_and!; [done| |done]. by apply (pool_step_ok config (StepFinalPeriods l) p).
  - intros p other sh O Hsh Hlen Hin. exists sh. split_and!; [by destruct other|done|done].
Qed.

(** ** The system *)

Context (sizes : PoolsConfig).
Implicit Types (ps : Pools) (C : list Storage).

Definition pools_live ps : list Storage := live (p_operations ps) ++ live (p_endorsements ps) ++ live (p_denunciations ps).
(** [C] are the instances of the storage that others own. *)
Record pools_ok ps C : Prop := {
  pso_shared : shared_ok (p_shared ps) (pools_live ps ++ C);
  pso_operations : thread_ok (inv := operations_inv) (good := command_good) (p_shared ps) (p_operations ps);
  pso_endorsements : thread_ok (inv := endorsement_pool_ok config wallet) (good := command_good) (p_shared ps) (p_endorsements ps);
  pso_denunciations : thread_ok (inv := λ _ : Shared, denunciation_pool_ok config) (good := command_good) (p_shared ps) (p_denunciations ps) }.

Lemma live_first ps C :
  pools_live ps ++ C ≡ₚ live (p_operations ps) ++ (live (p_endorsements ps) ++ live (p_denunciations ps) ++ C).
Proof using. unfold pools_live. by rewrite <-!app_assoc. Qed.
Lemma live_second ps C :
  pools_live ps ++ C ≡ₚ live (p_endorsements ps) ++ (live (p_operations ps) ++ live (p_denunciations ps) ++ C).
Proof using. unfold pools_live. rewrite <-!app_assoc. apply Permutation_app_swap_app. Qed.
Lemma live_third ps C :
  pools_live ps ++ C ≡ₚ live (p_denunciations ps) ++ (live (p_operations ps) ++ live (p_endorsements ps) ++ C).
Proof using. unfold pools_live. rewrite <-!app_assoc, (app_assoc (live (p_operations ps))), Permutation_app_swap_app. by rewrite <-!app_assoc. Qed.

(** What a change of the storage by one of the threads, or by others, leaves of the pools. *)
Lemma pools_ok_stable ps sh' C C' :
  config_ok → pools_ok ps C → shared_ok sh' (pools_live ps ++ C') → Forall (agree (p_shared ps) sh') (pools_live ps) →
  pools_ok (with_shared ps sh') C'.
Proof using All.
  intros Hc [_ H1' H2' H3'] Hsh' Ha. unfold pools_live in Ha. apply Forall_app in Ha as [A1 Ha]. apply Forall_app in Ha as [A2 A3].
  pose proof (operation_laws Hc). pose proof (endorsement_laws Hc). pose proof (denunciation_laws Hc).
  split; [exact Hsh'|..]; by eapply thread_stable.
Qed.

(** A call on one of the threads, which keeps what the others hold. *)
Lemma with_operations_ok ps C sh' th' C' :
  config_ok → pools_ok ps C → shared_within sh' (p_shared ps) →
  shared_ok sh' (live th' ++ live (p_endorsements ps) ++ live (p_denunciations ps) ++ C') →
  thread_ok (inv := operations_inv) (good := command_good) sh' th' → pools_ok (with_operations ps (sh', th')) C'.
Proof using All.
  intros Hc [_ _ H2' H3'] Hw Hsh' Hth. pose proof (endorsement_laws Hc). pose proof (denunciation_laws Hc).
  split; [by rewrite live_first|done|..]; (eapply thread_stable; [done|]; eapply within_agrees; [exact Hsh'| |done]; cbn; set_solver).
Qed.
Lemma with_endorsements_ok ps C sh' th' C' :
  config_ok → pools_ok ps C → shared_within sh' (p_shared ps) →
  shared_ok sh' (live th' ++ live (p_operations ps) ++ live (p_denunciations ps) ++ C') →
  thread_ok (inv := endorsement_pool_ok config wallet) (good := command_good) sh' th' → pools_ok (with_endorsements ps (sh', th')) C'.
Proof using All.
  intros Hc [_ H1' _ H3'] Hw Hsh' Hth. pose proof (operation_laws Hc). pose proof (denunciation_laws Hc).
  split; [by rewrite live_second|..|by eapply thread_stable; [|eapply within_agrees; [exact Hsh'|cbn; set_solver|done]]].
  - eapply thread_stable; [done|]. eapply within_agrees; [exact Hsh'|cbn; set_solver|done].
  - done.
Qed.
Lemma with_denunciations_ok ps C sh' th' C' :
  config_ok → pools_ok ps C → shared_within sh' (p_shared ps) →
  shared_ok sh' (live th' ++ live (p_operations ps) ++ live (p_endorsements ps) ++ C') →
  thread_ok (inv := λ _ : Shared, denunciation_pool_ok config) (good := command_good) sh' th' →
  pools_ok (with_denunciations ps (sh', th')) C'.
Proof using All.
  intros Hc [_ H1' H2' _] Hw Hsh' Hth. pose proof (operation_laws Hc). pose proof (endorsement_laws Hc).
  split; [by rewrite live_third| | |done]; (eapply thread_stable; [done|]; eapply within_agrees; [exact Hsh'| |done]; cbn; set_solver).
Qed.

(** ** The steps of the threads *)

Definition room ps C : Prop := N.of_nat (length (pools_live ps ++ C)) + 1 < u64_max.

Lemma operations_step_ok t ps C :
  config_ok → times_ok (tk_now t) → pools_ok ps C → room ps C →
  ∃ ps', operations_step config wallet t ps = Ok ps' ∧ pools_ok ps' C.
Proof using All.
  intros Hc Hnow Hok Hroom. pose proof (operation_laws Hc). pose proof Hok as [Hsh H1' _ _]. unfold operations_step.
  unfold room in Hroom. rewrite live_first in Hsh, Hroom.
  destruct (thread_step_ok t (p_operations ps) _ (p_shared ps) Hnow H1' Hsh) as (sh' & th' & -> & Hsh' & Hth & Hw & _); [lia|].
  cbn [mbind outcome_bind]. eexists. split; [done|]. by eapply with_operations_ok.
Qed.
Lemma endorsements_step_ok t ps C :
  config_ok → times_ok (tk_now t) → pools_ok ps C → room ps C →
  ∃ ps', endorsements_step config wallet t ps = Ok ps' ∧ pools_ok ps' C.
Proof using All.
  intros Hc Hnow Hok Hroom. pose proof (endorsement_laws Hc). pose proof Hok as [Hsh _ H2' _]. unfold endorsements_step.
  unfold room in Hroom. rewrite live_second in Hsh, Hroom.
  destruct (thread_step_ok t (p_endorsements ps) _ (p_shared ps) Hnow H2' Hsh) as (sh' & th' & -> & Hsh' & Hth & Hw & _); [lia|].
  cbn [mbind outcome_bind]. eexists. split; [done|]. by eapply with_endorsements_ok.
Qed.
Lemma denunciations_step_ok t ps C :
  config_ok → times_ok (tk_now t) → pools_ok ps C → room ps C →
  ∃ ps', denunciations_step config t ps = Ok ps' ∧ pools_ok ps' C.
Proof using All.
  intros Hc Hnow Hok Hroom. pose proof (denunciation_laws Hc). pose proof Hok as [Hsh _ _ H3']. unfold denunciations_step.
  unfold room in Hroom. rewrite live_third in Hsh, Hroom.
  destruct (thread_step_ok t (p_denunciations ps) _ (p_shared ps) Hnow H3' Hsh) as (sh' & th' & -> & Hsh' & Hth & Hw & _); [lia|].
  cbn [mbind outcome_bind]. eexists. split; [done|]. by eapply with_denunciations_ok.
Qed.

(** ** The calls of the controller *)

Lemma send_operations_ok n c ps C :
  config_ok → pools_ok ps (command_storage c ++ C) → command_good (p_shared ps) c →
  ∃ res r, try_send n c (p_shared ps) (p_operations ps) = Ok (res, r) ∧ pools_ok (with_operations ps r) C
    ∧ shared_within r.1 (p_shared ps).
Proof using All.
  intros Hc Hok Hg. pose proof (operation_laws Hc). pose proof Hok as [Hsh H1' _ _].
  edestruct (try_send_ok n c (p_operations ps) (live (p_endorsements ps) ++ live (p_denunciations ps) ++ C))
    as (res & sh' & th' & Hx & Hsh' & Hth & Hw & _); [exact H1'|exact Hg| |].
  { eapply shared_ok_perm; [|exact Hsh]. unfold pools_live. solve_Permutation. }
  exists res, (sh', th'). split_and!; [done| |done]. by eapply with_operations_ok.
Qed.
Lemma send_endorsements_ok n c ps C :
  config_ok → pools_ok ps (command_storage c ++ C) → command_good (p_shared ps) c →
  ∃ res r, try_send n c (p_shared ps) (p_endorsements ps) = Ok (res, r) ∧ pools_ok (with_endorsements ps r) C
    ∧ shared_within r.1 (p_shared ps).
Proof using All.
  intros Hc Hok Hg. pose proof (endorsement_laws Hc). pose proof Hok as [Hsh _ H2' _].
  edestruct (try_send_ok n c (p_endorsements ps) (live (p_operations ps) ++ live (p_denunciations ps) ++ C))
    as (res & sh' & th' & Hx & Hsh' & Hth & Hw & _); [exact H2'|exact Hg| |].
  { eapply shared_ok_perm; [|exact Hsh]. unfold pools_live. solve_Permutation. }
  exists res, (sh', th'). split_and!; [done| |done]. by eapply with_endorsements_ok.
Qed.
Lemma send_denunciations_ok n c ps C :
  config_ok → pools_ok ps (command_storage c ++ C) → command_good (p_shared ps) c →
  ∃ res r, try_send n c (p_shared ps) (p_denunciations ps) = Ok (res, r) ∧ pools_ok (with_denunciations ps r) C
    ∧ shared_within r.1 (p_shared ps).
Proof using All.
  intros Hc Hok Hg. pose proof (denunciation_laws Hc). pose proof Hok as [Hsh _ _ H3'].
  edestruct (try_send_ok n c (p_denunciations ps) (live (p_operations ps) ++ live (p_endorsements ps) ++ C))
    as (res & sh' & th' & Hx & Hsh' & Hth & Hw & _); [exact H3'|exact Hg| |].
  { eapply shared_ok_perm; [|exact Hsh]. unfold pools_live. solve_Permutation. }
  exists res, (sh', th'). split_and!; [done| |done]. by eapply with_denunciations_ok.
Qed.

#[global] Instance pools_ok_perm ps : Proper ((≡ₚ) ==> iff) (pools_ok ps).
Proof using.
  intros C C' HC. split; intros [H1' H2' H3' H4']; split; try done; [by rewrite <-HC|by rewrite HC].
Qed.

Lemma add_operations_call ops ps C :
  config_ok → pools_ok ps (ops :: C) → command_good (p_shared ps) (AddItems ops) →
  ∃ res ps', controller_add_operations sizes ops ps = Ok (res, ps') ∧ pools_ok ps' C.
Proof using All.
  intros Hc Hok Hg. unfold controller_add_operations.
  destruct (send_operations_ok (operations_channel_size sizes) (AddItems ops) ps C Hc Hok Hg) as (res & r & -> & Hok' & _). cbn.
  by do 2 eexists.
Qed.
Lemma add_endorsements_call es ps C :
  config_ok → pools_ok ps (es :: C) → room ps (es :: C) → command_good (p_shared ps) (AddItems es) →
  ∃ ps', controller_add_endorsements sizes es ps = Ok ps' ∧ pools_ok ps' C.
Proof using All.
  intros Hc Hok Hroom Hg. unfold controller_add_endorsements. pose proof Hok as [Hsh _ _ _].
  unfold room in Hroom. rewrite <-Permutation_middle in Hsh, Hroom.
  destruct (clone_ok (p_shared ps) es (pools_live ps ++ C) Hsh ltac:(lia)) as [Hst Hsh1]. pose proof (clone_within (p_shared ps) es) as Hw.
  destruct (clone (p_shared ps) es) as [sh1 cloned]. cbn [fst snd] in *. subst cloned.
  rewrite !Permutation_middle in Hsh1.
  assert (pools_ok (with_shared ps sh1) (es :: es :: C)) as Hok1.
  { eapply pools_ok_stable; [done|exact Hok|done|]. eapply within_agrees; [exact Hsh1|set_solver|done]. }
  assert (command_good sh1 (AddItems es)) as Hg1.
  { eapply command_good_stable; [exact Hg|]. eapply within_agrees; [exact Hsh1|set_solver|done]. }
  destruct (send_denunciations_ok (denunciations_channel_size sizes) (AddItems es) (with_shared ps sh1) (es :: C) Hc Hok1 Hg1)
    as (? & [sh2 des] & Hx & Hok2 & Hw2). cbn [p_shared p_denunciations with_shared fst] in Hx, Hw2. rewrite Hx. cbn [mbind outcome_bind].
  assert (command_good sh2 (AddItems es)) as Hg2.
  { eapply command_good_stable; [exact Hg1|]. eapply within_agrees; [apply Hok2|cbn; set_solver|done]. }
  destruct (send_endorsements_ok (endorsements_channel_size sizes) (AddItems es) _ C Hc Hok2 Hg2) as (? & r & Hx3 & Hok3 & _).
  cbn [p_shared p_endorsements with_shared with_denunciations fst snd] in Hx3 |- *. rewrite Hx3. cbn. by eexists.
Qed.
(** The endorsements are offered to two threads. *)
Lemma try_send_channel {P : Type} n c sh (th : PoolThread P) res r :
  try_send n c sh th = Ok (res, r) → th_channel r.2 = channel_after n c th.
Proof using.
  unfold try_send, channel_after. intros Hx. destruct (th_running th); cbn [negb andb] in *; [|by inv_ok].
  rewrite N.leb_antisym in Hx. destruct (_ <? n); cbn [negb] in Hx; by inv_ok.
Qed.
Lemma add_endorsements_channels es ps ps' :
  (clone (p_shared ps) es).2 = es → controller_add_endorsements sizes es ps = Ok ps' →
  th_channel (p_endorsements ps') = channel_after (endorsements_channel_size sizes) (AddItems es) (p_endorsements ps)
  ∧ th_channel (p_denunciations ps') = channel_after (denunciations_channel_size sizes) (AddItems es) (p_denunciations ps).
Proof using.
  unfold controller_add_endorsements. destruct (clone (p_shared ps) es) as [sh cloned]. cbn [snd]. intros -> Hx. inv_calls.
  repeat match goal with Hs : try_send _ _ _ _ = Ok _ |- _ => apply try_send_channel in Hs end. done.
Qed.
Lemma add_precursor_call p ps C :
  config_ok → pools_ok ps C → precursor_ok config p →
  ∃ ps', controller_add_denunciation_precursor sizes p ps = Ok ps' ∧ pools_ok ps' C.
Proof using All.
  intros Hc Hok Hp. unfold controller_add_denunciation_precursor.
  destruct (send_denunciations_ok (denunciations_channel_size sizes) (AddDenunciationPrecursor p) ps C Hc Hok Hp) as (? & r & -> & Hok' & _).
  cbn. by eexists.
Qed.
Lemma notify_call i periods ps C :
  config_ok → pools_ok ps C → N.of_nat (length periods) = thread_count config →
  ∃ ps', controller_notify_final_cs_periods sizes i periods ps = Ok ps' ∧ pools_ok ps' C
    ∧ p_controllers ps' = <[i := periods]> (p_controllers ps).
Proof using All.
  intros Hc Hok Hl. unfold controller_notify_final_cs_periods.
  set (ps0 := MkPools _ _ _ _ _). assert (pools_ok ps0 C) as Hok0 by (destruct Hok; by split).
  destruct (send_operations_ok (operations_channel_size sizes) (NotifyFinalCsPeriods periods) ps0 C Hc Hok0 Hl) as (? & r1 & Hx1 & Hok1 & _).
  rewrite Hx1. cbn [mbind outcome_bind].
  destruct (send_endorsements_ok (endorsements_channel_size sizes) (NotifyFinalCsPeriods periods) _ C Hc Hok1 Hl) as (? & r2 & Hx2 & Hok2 & _).
  rewrite Hx2. cbn [mbind outcome_bind].
  destruct (send_denunciations_ok (denunciations_channel_size sizes) (NotifyFinalCsPeriods periods) _ C Hc Hok2 Hl) as (? & r3 & Hx3 & Hok3 & _).
  rewrite Hx3. cbn [mbind outcome_bind]. by eexists.
Qed.

(** The pool that is read and the storage around it. *)
Lemma pool_first {P} `{!PoolOps P} (th : PoolThread P) : ∃ rest, live th = storage_of (th_pool th) :: rest.
Proof using. by eexists. Qed.

Lemma get_operations_call slot timeout acquired ps C :
  config_ok → pools_ok ps C → room ps C →
  ∃ r, controller_get_block_operations config slot timeout acquired ps = Ok r
    ∧ match r with inl e => e = LockTimeout | inr (_, st, ps') => pools_ok ps' (st :: C) end.
Proof using All.
  intros Hc Hok Hroom. unfold controller_get_block_operations, read_lock. pose proof Hok as [Hsh [[Hpool _] _ _ _ _] _ _].
  assert (∃ r, (r ← get_block_operations config (th_pool (p_operations ps)) slot (p_shared ps);
      let '(ids, (sh, st)) := r in Ok (inr (ids, st, with_shared ps sh)))
      = Ok (@inr PoolError _ r) ∧ match r with (_, st, ps') => pools_ok ps' (st :: C) end) as (r & Hx & Hr).
  { destruct (pool_first (p_operations ps)) as [rest Hl]. unfold room in Hroom.
    assert (pools_live ps ++ C = op_storage (th_pool (p_operations ps)) :: (rest ++ live (p_endorsements ps) ++ live (p_denunciations ps)) ++ C) as Heq.
    { unfold pools_live. rewrite Hl. cbn. by rewrite <-!app_assoc. }
    rewrite Heq in Hsh, Hroom.
    destruct (get_block_operations_spec config slot (p_shared ps) _ _ Hsh ltac:(cbn [length] in *; lia) Hpool) as (os & sh' & -> & Hsh' & Hix & He & _).
    cbn [mbind outcome_bind]. eexists. split; [done|]. cbn. rewrite <-Heq, Permutation_middle in Hsh'. eapply pools_ok_stable; [done|exact Hok|done|].
    apply Forall_true. intros st. split; intros k _; [by rewrite Hix|by rewrite He]. }
  destruct timeout as [t|]; [destruct acquired|].
  - eexists. split; [exact Hx|exact Hr].
  - by eexists.
  - eexists. split; [exact Hx|exact Hr].
Qed.
Lemma get_endorsements_call target slot timeout acquired ps C :
  config_ok → pools_ok ps C → room ps C →
  match controller_get_block_endorsements config target slot timeout acquired ps with
  | inl e => e = LockTimeout
  | inr (_, st, ps') => pools_ok ps' (st :: C)
  end.
Proof using All.
  intros Hc Hok Hroom. pose proof Hok as [Hsh _ [Hpool _ _ _ _] _].
  destruct (pool_first (p_endorsements ps)) as [rest Hl]. unfold room in Hroom.
  assert (pools_live ps ++ C ≡ₚ ep_storage (th_pool (p_endorsements ps)) :: (rest ++ live (p_operations ps) ++ live (p_denunciations ps)) ++ C) as Heq.
  { rewrite live_second, Hl, <-!app_assoc. done. }
  rewrite Heq in Hsh, Hroom.
  destruct (get_block_endorsements_spec config wallet slot target (p_shared ps) _ _ Hsh ltac:(cbn [length] in *; lia) Hpool)
    as (ks & sh' & Hx & Hsh' & Hix & Ho & _).
  unfold controller_get_block_endorsements, read_lock.
  assert (pools_ok (with_shared ps sh') (MkStorage ∅ ∅ (list_to_set (omap Datatypes.id ks)) :: C)) as Hok'.
  { rewrite <-Heq, Permutation_middle in Hsh'. eapply pools_ok_stable; [done|exact Hok|done|].
    apply Forall_true. intros st. split; intros k _; [by rewrite Ho|by rewrite Hix]. }
  destruct timeout as [t|]; [destruct acquired; [|done]|]; by rewrite Hx.
Qed.

Lemma stop_call ps C ps' : config_ok → pools_ok ps C → stop sizes ps = Some ps' → pools_ok ps' C.
Proof using All.
  intros Hc [Hsh H1' H2' H3'] Hx. unfold stop in Hx. pose proof (operation_laws Hc). pose proof (endorsement_laws Hc). pose proof (denunciation_laws Hc).
  apply bind_Some in Hx as (o & Ho & Hx). apply bind_Some in Hx as (e & He & Hx). apply bind_Some in Hx as (d & Hd & [= <-]).
  destruct (send_ok _ Stop _ _ _ H1' I eq_refl Ho) as [O1 O2]. destruct (send_ok _ Stop _ _ _ H2' I eq_refl He) as [E1 E2].
  destruct (send_ok _ Stop _ _ _ H3' I eq_refl Hd) as [D1 D2]. split; [|done..]. 
  change (shared_ok (p_shared ps) ((live o ++ live e ++ live d) ++ C)). rewrite O2, E2, D2. exact Hsh.
Qed.
Lemma clone_box_ok i ps C : pools_ok ps C → pools_ok (clone_box i ps) C.
Proof using. intros []. by split. Qed.
Lemma drop_client st ps C :
  config_ok → pools_ok ps (st :: C) → ∃ sh', drop_storage (p_shared ps) st = @Ok ModelsError _ sh' ∧ pools_ok (with_shared ps sh') C.
Proof using All.
  intros Hc Hok. pose proof Hok as [Hsh _ _ _]. rewrite <-Permutation_middle in Hsh.
  destruct (drop_storage_ok (E := ModelsError) _ _ _ Hsh) as (sh' & Hd & Hsh'). exists sh'. split; [done|].
  eapply pools_ok_stable; [done|exact Hok|done|]. eapply within_agrees; [exact Hsh'|set_solver|by eapply drop_storage_within].
Qed.

(** ** The start *)

Lemma clone_nothing sh O :
  shared_ok sh O → N.of_nat (length O) + 1 < u64_max →
  ∃ sh', clone sh (MkStorage ∅ ∅ ∅) = (sh', MkStorage ∅ ∅ ∅) ∧ shared_ok sh' O.
Proof using.
  intros Hsh Hlen. destruct (clone_ok sh (MkStorage ∅ ∅ ∅) O) as [Hst Hsh']; [by apply (proj2 (shared_ok_nothing _ _))|cbn; lia|].
  destruct (clone sh (MkStorage ∅ ∅ ∅)) as [sh' st]. cbn in *. subst. exists sh'. split; [done|].
  by apply (proj1 (shared_ok_nothing _ _)), (proj1 (shared_ok_nothing _ _)).
Qed.
Lemma start_ok sh C : config_ok → shared_ok sh C → N.of_nat (length C) + 1 < u64_max → pools_ok (start_pool_controller config wallet sh) C.
Proof using All.
  intros Hc Hsh Hlen. unfold start_pool_controller, thread_spawn. cbn [storage_of operation_ops endorsement_ops denunciation_ops operation_pool_init
    endorsement_pool_init op_storage ep_storage].
  destruct (clone_nothing sh C Hsh Hlen) as (sh1 & -> & Hsh1). destruct (clone_nothing sh1 C Hsh1 Hlen) as (sh2 & -> & Hsh2).
  destruct (clone_nothing sh2 C Hsh2 Hlen) as (sh3 & -> & Hsh3).
  assert (operations_inv sh3 (operation_pool_init config)) as H1'.
  { split_and!; [split; cbn; [apply NoDup_nil_2|done|by intros i ?%not_elem_of_nil]|cbn [operation_pool_init op_last_cs_final_periods]; rewrite length_replicate; lia|apply N.le_0_l]. }
  assert (all_ids (endorsements_sorted (endorsement_pool_init config)) = ∅) as Hids.
  { apply set_eq. intros k. rewrite elem_of_all_ids. split; [|set_solver]. intros (t & m & key & bm & b & Ht & Hm & _).
    cbn in Ht. apply lookup_replicate in Ht as [-> _]. by apply not_elem_of_nil in Hm. }
  assert (endorsement_pool_ok config wallet sh3 (endorsement_pool_init config)) as H2'.
  { split; [|by rewrite Hids|..]; cbn.
    - split; [rewrite length_replicate; apply N2Nat.id|]. intros t m [-> _]%lookup_replicate. split; [constructor|by intros key bm ?%not_elem_of_nil].
    - rewrite length_replicate. apply N2Nat.id.
    - by intros t m key bm [-> _]%lookup_replicate ?%not_elem_of_nil.
    - apply Forall_replicate, N.le_0_l. }
  pose proof (pool_reachable_ok config _ (pr_init config)) as H3'.
  split; [|split; cbn; done..]. unfold pools_live, live. cbn. by repeat apply (proj2 (shared_ok_nothing _ _)).
Qed.
End laws.
