(* ===== verification/Pools.v ===== *)
(** * What the pools give to blocks

    The runs of the three pools: their threads, the calls of the controller and what the rest of
    the program does to the storage, in any order.  In every state that a run reaches, the
    next step returns, and what the pools give for a block is within its limits and exact. *)

From S2P Require Import Prelude Slots Times OrdMap MipState MipStore Rationals Keys KeyFacts Models Ledger Wire WireFacts Formats FormatFacts WireSamples BlockFormats BlockFormatFacts Storage StorageRefs Denunciations DenunciationFacts ChainFormats PoolExports DenunciationPool DenunciationPoolFacts EndorsementPool EndorsementPoolFacts OperationPool OperationPoolFacts PoolWorker PoolThreads PoolSystem.

Open Scope N_scope.

Section runs.
Context `{!SetIter BlockId, !SetIter OperationId, !SetIter EndorsementId, !SetIter Address}.
Context `{!Varint} `{VL : !VarintLaws} `{!VerifyingKey} `{!HashFn} `{!Ed25519} `{!VoteRatio} `{!PoolChannels} `{!ScoreSort}.
Context (config : PoolConfig) (wallet : Wallet) (sizes : PoolsConfig).

(** The pools, and the instances of the storage that others own. *)
Definition PoolsState : Type := Pools * list Storage.
Implicit Types (s : PoolsState) (ps : Pools) (C : list Storage).

(** A step of a thread, or a call with one of the instances [i] that others own. *)
Inductive PoolEvent : Type :=
  | EvOperations (t : Tick)
  | EvEndorsements (t : Tick)
  | EvDenunciations (t : Tick)
  | EvAddOperations (i : nat)
  | EvAddEndorsements (i : nat)
  | EvAddPrecursor (p : DenunciationPrecursor)
  | EvNotify (controller : nat) (final_cs_periods : list N)
  | EvGetOperations (slot : Slot) (timeout : option MassaTime) (acquired : bool)
  | EvGetEndorsements (target : BlockId) (slot : Slot) (timeout : option MassaTime) (acquired : bool)
  | EvDrop (i : nat)
  | EvCloneBox (controller : nat)
  | EvStop.

Definition with_client {A} (i : nat) s (f : Storage → list Storage → outcome ModelsError A) (d : A) : outcome ModelsError A :=
  match s.2 !! i with Some st => f st (delete i s.2) | None => Ok d end.
Definition run_event (e : PoolEvent) s : outcome ModelsError PoolsState :=
  let '(ps, C) := s in
  match e with
  | EvOperations t => ps ← operations_step config wallet t ps; Ok (ps, C)
  | EvEndorsements t => ps ← endorsements_step config wallet t ps; Ok (ps, C)
  | EvDenunciations t => ps ← denunciations_step config t ps; Ok (ps, C)
  | EvAddOperations i => with_client i s (λ st C, '(_, ps) ← controller_add_operations sizes st ps; Ok (ps, C)) s
  | EvAddEndorsements i => with_client i s (λ st C, ps ← controller_add_endorsements sizes st ps; Ok (ps, C)) s
  | EvAddPrecursor p => ps ← controller_add_denunciation_precursor sizes p ps; Ok (ps, C)
  | EvNotify i l => ps ← controller_notify_final_cs_periods sizes i l ps; Ok (ps, C)
  | EvGetOperations slot timeout acquired =>
      r ← controller_get_block_operations config slot timeout acquired ps;
      Ok (match r with inl _ => s | inr (_, st, ps) => (ps, st :: C) end)
  | EvGetEndorsements target slot timeout acquired =>
      Ok (match controller_get_block_endorsements config target slot timeout acquired ps with inl _ => s | inr (_, st, ps) => (ps, st :: C) end)
  | EvDrop i => with_client i s (λ st C, sh ← drop_storage (p_shared ps) st; Ok (with_shared ps sh, C)) s
  | EvCloneBox i => Ok (clone_box i ps, C)
  | EvStop => Ok (match stop sizes ps with Some ps => (ps, C) | None => s end)
  end.

(** What the callers ensure: commands are [command_good], there is a final period for each
    thread, times are machine integers, and there are fewer instances than the counters count. *)
Definition event_ok (e : PoolEvent) s : Prop :=
  room config wallet s.1 s.2
  ∧ match e with
    | EvOperations t | EvEndorsements t | EvDenunciations t => times_ok (tk_now t)
    | EvAddOperations i | EvAddEndorsements i => ∀ st, s.2 !! i = Some st → command_good config (p_shared s.1) (AddItems st)
    | EvAddPrecursor p => precursor_ok config p
    | EvNotify _ l => N.of_nat (length l) = thread_count config
    | _ => True
    end.

(** The rest of the program changes the storage and what it owns of it, and not the
    objects that the pools hold. *)
Inductive pools_reachable : PoolsState → Prop :=
  | reach_start sh C :
      shared_ok sh C → N.of_nat (length C) + 1 < u64_max → pools_reachable (start_pool_controller config wallet sh, C)
  | reach_event e s s' : pools_reachable s → event_ok e s → run_event e s = Ok s' → pools_reachable s'
  | reach_others ps C sh' C' :
      pools_reachable (ps, C) → shared_ok sh' (pools_live config wallet ps ++ C') →
      Forall (agree (p_shared ps) sh') (pools_live config wallet ps) → pools_reachable (with_shared ps sh', C').

Definition state_ok s : Prop := pools_ok config wallet s.1 s.2.

Lemma with_client_ok {A} (Q : A → Prop) i s f d :
  (∀ st, s.2 !! i = Some st → ∃ a, f st (delete i s.2) = @Ok ModelsError A a ∧ Q a) → Q d →
  ∃ a, with_client i s f d = Ok a ∧ Q a.
Proof using. intros Hf Hd. unfold with_client. destruct (s.2 !! i) as [st|]; [by apply Hf|by exists d]. Qed.
Lemma take_client s i st : s.2 !! i = Some st → state_ok s → pools_ok config wallet s.1 (st :: delete i s.2).
Proof using. intros Hi Hok. unfold state_ok in Hok. by rewrite (delete_Permutation _ _ _ Hi) in Hok. Qed.

Lemma event_returns e s :
  config_ok config wallet → state_ok s → event_ok e s → ∃ s', run_event e s = Ok s' ∧ state_ok s'.
Proof using All.
  intros Hc Hok [Hroom He]. destruct s as [ps C]. destruct e as [t|t|t|i|i|p|i l|slot to a|target slot to a|i|i|]; cbn [run_event].
  - destruct (operations_step_ok config wallet sizes t ps C Hc He Hok Hroom) as (ps' & -> & ?). by eexists.
  - destruct (endorsements_step_ok config wallet sizes t ps C Hc He Hok Hroom) as (ps' & -> & ?). by eexists.
  - destruct (denunciations_step_ok config wallet sizes t ps C Hc He Hok Hroom) as (ps' & -> & ?). by eexists.
  - apply with_client_ok; [|done]. intros st Hi. pose proof (take_client _ _ _ Hi Hok) as Hok'.
    destruct (add_operations_call config wallet sizes st ps _ Hc Hok' (He st Hi)) as (res & ps' & -> & ?). by eexists.
  - apply with_client_ok; [|done]. intros st Hi. pose proof (take_client _ _ _ Hi Hok) as Hok'.
    destruct (add_endorsements_call config wallet sizes st ps _ Hc Hok') as (ps' & -> & ?); [|by apply He|by eexists].
    cbn in *. unfold room in *. by rewrite (delete_Permutation _ _ _ Hi) in Hroom.
  - destruct (add_precursor_call config wallet sizes p ps C Hc Hok He) as (ps' & -> & ?). by eexists.
  - destruct (notify_call config wallet sizes i l ps C Hc Hok He) as (ps' & -> & ? & _). by eexists.
  - destruct (get_operations_call config wallet sizes slot to a ps C Hc Hok Hroom) as (r & -> & Hr). cbn. eexists. split; [done|].
    by destruct r as [|[[ids st] ps']].
  - pose proof (get_endorsements_call config wallet sizes target slot to a ps C Hc Hok Hroom) as Hr. eexists. split; [done|].
    by destruct (controller_get_block_endorsements _ _ _ _ _ _) as [|[[ids st] ps']].
  - apply with_client_ok; [|done]. intros st Hi. pose proof (take_client _ _ _ Hi Hok) as Hok'.
    destruct (drop_client config wallet sizes st ps _ Hc Hok') as (sh' & -> & ?). by eexists.
  - eexists. split; [done|]. by apply clone_box_ok.
  - eexists. split; [done|]. destruct (stop sizes ps) as [ps'|] eqn:Hs; [|done]. by eapply stop_call.
Qed.
Lemma reachable_ok s : config_ok config wallet → pools_reachable s → state_ok s.
Proof using All.
  intros Hc. induction 1 as [sh C Hsh Hlen|e s s' _ IH He Hx|ps C sh' C' _ IH Hsh Ha].
  - by apply start_ok.
  - destruct (event_returns e s Hc IH He) as (s1 & Hx1 & Hok1). rewrite Hx in Hx1. injection Hx1 as <-. exact Hok1.
  - by eapply pools_ok_stable.
Qed.

(** Where the pool that is read stands in the storage. *)
Lemma operations_at ps C :
  ∃ O, pools_live config wallet ps ++ C ≡ₚ op_storage (th_pool (p_operations ps)) :: O.
Proof using. eexists. unfold pools_live, live. cbn. done. Qed.
Lemma endorsements_at ps C :
  ∃ O, pools_live config wallet ps ++ C ≡ₚ ep_storage (th_pool (p_endorsements ps)) :: O.
Proof using. eexists. rewrite live_second. unfold live. cbn. done. Qed.

Lemma reached_operations ps C :
  config_ok config wallet → pools_reachable (ps, C) →
  (∃ O, shared_ok (p_shared ps) (op_storage (th_pool (p_operations ps)) :: O))
  ∧ operation_pool_ok config (p_shared ps) (th_pool (p_operations ps))
  ∧ N.of_nat (length (op_last_cs_final_periods (th_pool (p_operations ps)))) = thread_count config.
Proof using All.
  intros Hc Hr. destruct (reachable_ok _ Hc Hr) as [Hsh [(Hpool & Hper & _) _ _ _ _] _ _]. cbn [fst snd] in *.
  destruct (operations_at ps C) as [O HO]. split_and!; [|done|done]. exists O. by rewrite <-HO.
Qed.

(** C13. Whatever the threads of the pools, the callers of the controller and the rest of the
    program have done, in any order, the next step of a thread and the next call return,
    without a panic, and the pools stay in order: the operations and endorsements that a
    pool lists are those that it keeps alive in the storage, once each.  The selector answers
    the draws of a range ([selector_answers]): on its error the pool of operations panics.  The
    answers of the other modules are the same throughout a run. *)
Theorem pools_never_panic e s :
  config_ok config wallet → pools_reachable s → event_ok e s →
  ∃ s', run_event e s = Ok s' ∧ state_ok s' ∧ pools_reachable s'.
Proof using All.
  intros Hc Hr He. destruct (event_returns e s Hc (reachable_ok s Hc Hr) He) as (s' & Hx & Hok).
  exists s'. split_and!; [done|done|by eapply reach_event].
Qed.

(** C14. The operations that a block gets exist, are different, are of the thread of
    the block and valid in its period, and fit: their sizes, their gas and their number
    are at most those of a block.  An operation that could be included is left out only if it would
    not fit.  The caller owns a reference to each. *)
Theorem block_operations_fit ps C slot :
  config_ok config wallet → pools_reachable (ps, C) → room config wallet ps C →
  ∃ os sh', controller_get_block_operations config slot None true ps
            = Ok (inr (id <$> os, MkStorage ∅ (list_to_set (id <$> os)) ∅, with_shared ps sh'))
    ∧ NoDup (id <$> os)
    ∧ Forall (λ o, ix_get (p_index (sh_operations sh')) (id o) = Some o ∧ op_valid_at config slot o) os
    ∧ total serialized_size os ≤ max_block_size config ∧ total (op_gas config) os ≤ max_block_gas config
    ∧ N.of_nat (length os) ≤ max_operations_per_block config
    ∧ ∀ i, i ∈ sorted_ops (th_pool (p_operations ps)) → eligible slot i = true →
        oi_id i ∈ id <$> os ∨ N.of_nat (length os) = max_operations_per_block config
        ∨ max_block_size config < total serialized_size os + oi_size i
        ∨ max_block_gas config < total (op_gas config) os + oi_max_gas_usage i.
Proof using All.
  intros Hc Hr Hroom. destruct (reachable_ok _ Hc Hr) as [Hsh [[Hpool _] _ _ _ _] _ _]. cbn [fst snd] in *.
  destruct (operations_at ps C) as [O HO]. unfold room in Hroom. rewrite HO in Hsh, Hroom.
  destruct (get_block_operations_spec config slot (p_shared ps) _ O Hsh ltac:(lia) Hpool)
    as (os & sh' & Hx & _ & Hix & _ & Hnd & Hall & Hs & Hg & Hn & Hmax).
  exists os, sh'. unfold controller_get_block_operations, read_lock. rewrite Hx. split_and!; try done.
  eapply Forall_impl; [exact Hall|]. intros o (_ & Ho & Hv). by rewrite Hix.
Qed.

(** C29. A block gets one entry per index of an endorsement, and the entry is an endorsement exactly
    when the pool holds one for the slot, the index and the parent of the block; and that one is
    signed by the address drawn for the index. *)
Theorem block_endorsements_exact ps C slot target :
  config_ok config wallet → pools_reachable (ps, C) → room config wallet ps C →
  ∃ ks sh', controller_get_block_endorsements config target slot None true ps
            = inr (ks, MkStorage ∅ ∅ (list_to_set (omap Datatypes.id ks)), with_shared ps sh')
    ∧ N.of_nat (length ks) = max_block_endorsement_count config
    ∧ (∀ index k, index < max_block_endorsement_count config →
        ks !! N.to_nat index = Some (Some k) ↔
        k ∈ local_used_endorsements (ep_storage (th_pool (p_endorsements ps)))
        ∧ ∃ e, ix_get (p_index (sh_endorsements (p_shared ps))) k = Some e ∧ endorses slot target index e)
    ∧ ∀ k, k ∈ local_used_endorsements (ep_storage (th_pool (p_endorsements ps))) →
        ∃ e, ix_get (p_index (sh_endorsements (p_shared ps))) k = Some e ∧ drawn wallet e.
Proof using All.
  intros Hc Hr Hroom. destruct (reachable_ok _ Hc Hr) as [Hsh _ [Hpool _ _ _ _] _]. cbn [fst snd] in *.
  destruct (endorsements_at ps C) as [O HO]. unfold room in Hroom. rewrite HO in Hsh, Hroom.
  destruct (get_block_endorsements_spec config wallet slot target (p_shared ps) _ O Hsh ltac:(lia) Hpool)
    as (ks & sh' & Hx & _ & _ & _ & Hlen & Hks).
  exists ks, sh'. unfold controller_get_block_endorsements, read_lock. rewrite Hx. split_and!; [done|done|done|].
  destruct Hpool as [[_ Hall] Hrefs _ _ _]. rewrite Hrefs. cbn [local_used_endorsements].
  intros k (t & m & key & bm & b & Ht & Hm & Hb)%elem_of_all_ids. destruct (proj2 (Hall t m Ht) _ _ Hm) as (_ & _ & Hpl).
  destruct (Hpl b k Hb) as (e & Hg & _ & _ & Hd). by exists e.
Qed.

(** C30. The denunciations that a block gets are at most those of a header, are about
    different places, are made of two different objects of the key drawn for their place,
    verified in the signature layout of their slot, and are neither executed, as far as the pool knows, nor expired, nor of the future. *)
Theorem block_denunciations_genuine ps C slot :
  config_ok config wallet → pools_reachable (ps, C) → 0 < max_denunciations_per_block_header config →
  ∃ ds, controller_get_block_denunciations config slot None true ps = inr ds
    ∧ N.of_nat (length ds) ≤ max_denunciations_per_block_header config
    ∧ NoDup (index_of_denunciation <$> ds)
    ∧ Forall (λ d, genuine config (index_of_denunciation d) d
                   ∧ executed_cache (th_pool (p_denunciations ps)) !! index_of_denunciation d = None
                   ∧ slot_le (de_get_slot d) slot = true
                   ∧ is_expired (period (de_get_slot d)) (period slot) (denunciation_expire_periods config) = false) ds.
Proof using All.
  intros Hc Hr Hmax. destruct (reachable_ok _ Hc Hr) as [_ _ _ [Hpool _ _ _ _]]. cbn [fst snd] in *.
  exists (get_block_denunciations config (th_pool (p_denunciations ps)) slot). split; [done|].
  assert (∀ d, _) as Hspec by exact (λ d, pool_denunciations_spec config _ slot d Hpool Hmax). cbn zeta in Hspec.
  destruct (Hspec (DenunciationBlockHeader (MkBlockHeaderDenunciation (PublicKeyV0 0) slot 0 0 (SignatureV0 0) (SignatureV0 0)))) as (Hl & Hnd & _).
  split_and!; [done|done|]. apply Forall_forall. intros d Hd. by apply Hspec.
Qed.

(** The pools never hold more than their bounds: the operations, those allowed in
    excess included, and four endorsements per entry of each of the threads. *)
Theorem pools_bounded ps C :
  config_ok config wallet → pools_reachable (ps, C) →
  ∃ no ne, get_operation_count None true ps = inr no ∧ get_endorsement_count None true ps = inr ne
    ∧ no ≤ max_operation_pool_size config + max_operation_pool_excess_items config
    ∧ ne ≤ thread_count config * (max_endorsements_pool_size_per_thread config * MAX_ENDORSEMENTS_PER_SLOT_INDEX).
Proof using All.
  intros Hc Hr. destruct (reachable_ok _ Hc Hr) as [_ [(_ & _ & Hno) _ _ _ _] [Hpool _ _ _ _] _]. cbn [fst snd] in *.
  do 2 eexists. split_and!; [done|done|done|by eapply endorsement_pool_size].
Qed.

(** A thread that runs and finds no command. *)
Definition finds_nothing {P : Type} (th : PoolThread P) : Prop :=
  th_running th = true ∧ th_waiting th = false ∧ th_channel th = [].
(** What is read is the buffer, which only a refresh changes. *)
Definition publishes {P : Type} (t : Tick) (th th' : PoolThread P) : Prop :=
  th_pool th' = th_buffer th' ∧ (tk_refresh t = false → th_buffer th' = th_buffer th).

(** The step that was taken publishes. *)
Ltac step_publishes Ht Hth Hsh Hrun Hw Hch Hcon :=
  match goal with
  | Hs : thread_step _ _ _ = Ok ?r |- _ =>
      destruct r as [sh' th']; destruct (thread_publishes _ _ _ _ sh' th' Ht Hth Hsh ltac:(lia) Hrun Hw Hch Hcon Hs) as (? & _ & ?); by split
  end.

(** C35. A thread that finds nothing to do publishes: the step in which the thread of the operations, of the
    endorsements or of the denunciations finds its channel empty returns, and from then on
    what is read is the buffer, with all commands received so far applied. *)
Theorem idle_thread_publishes ps C t :
  config_ok config wallet → pools_reachable (ps, C) → room config wallet ps C → times_ok (tk_now t) → tk_connected t = true →
  (finds_nothing (p_operations ps) →
     ∃ ps', run_event (EvOperations t) (ps, C) = Ok (ps', C) ∧ publishes t (p_operations ps) (p_operations ps'))
  ∧ (finds_nothing (p_endorsements ps) →
     ∃ ps', run_event (EvEndorsements t) (ps, C) = Ok (ps', C) ∧ publishes t (p_endorsements ps) (p_endorsements ps'))
  ∧ (finds_nothing (p_denunciations ps) →
     ∃ ps', run_event (EvDenunciations t) (ps, C) = Ok (ps', C) ∧ publishes t (p_denunciations ps) (p_denunciations ps')).
Proof using All.
  intros Hc Hr Hroom Ht Hcon. pose proof (reachable_ok _ Hc Hr) as Hok. cbn [fst snd] in Hok. pose proof Hok as [Hsh H1' H2' H3']. cbn [fst snd] in *.
  pose proof Hroom as Hlen. unfold room in Hlen.
  split_and!; intros (Hrun & Hw & Hch); cbn [run_event].
  - destruct (operations_step_ok config wallet sizes t ps C Hc Ht Hok Hroom) as (ps' & Hx & _). rewrite Hx. exists ps'. split; [done|].
    pose proof (operation_laws config wallet Hc). rewrite live_first in Hsh, Hlen. unfold operations_step in Hx. inv_calls.
    step_publishes Ht H1' Hsh Hrun Hw Hch Hcon.
  - destruct (endorsements_step_ok config wallet sizes t ps C Hc Ht Hok Hroom) as (ps' & Hx & _). rewrite Hx. exists ps'. split; [done|].
    pose proof (endorsement_laws config wallet Hc). rewrite live_second in Hsh, Hlen. unfold endorsements_step in Hx. inv_calls.
    step_publishes Ht H2' Hsh Hrun Hw Hch Hcon.
  - destruct (denunciations_step_ok config wallet sizes t ps C Hc Ht Hok Hroom) as (ps' & Hx & _). rewrite Hx. exists ps'. split; [done|].
    pose proof (denunciation_laws config wallet Hc). rewrite live_third in Hsh, Hlen. unfold denunciations_step in Hx. inv_calls.
    step_publishes Ht H3' Hsh Hrun Hw Hch Hcon.
Qed.
End runs.

(** ** Two operations of a pool *)

Section parts.
Context `{!SetIter BlockId, !SetIter OperationId, !SetIter EndorsementId, !SetIter Address}.
Context `{!Varint} `{!HashFn} `{!Ed25519} `{!VoteRatio} `{!PoolChannels} `{!ScoreSort} (config : PoolConfig) (wallet : Wallet).

(** C32. A refresh of the pool of operations leaves at most [max_operation_pool_size] operations,
    all of interest for the blocks to come, and of no sender more operations that are not
    executed than the balance of the sender can pay, when the selector answers. *)
Theorem refreshed_pool_payable now now' sh op O :
  shared_ok sh (op_storage op :: O) → operation_pool_ok config sh op → selector_answers config wallet →
  N.of_nat (length (op_last_cs_final_periods op)) = thread_count config → 0 < thread_count config →
  ∃ sh' op', operation_pool_refresh config wallet now now' sh op = Ok (sh', op')
    ∧ shared_ok sh' (op_storage op' :: O) ∧ operation_pool_ok config sh' op'
    ∧ operation_pool_len op' ≤ max_operation_pool_size config
    ∧ (∀ a, spent a (sorted_ops op') ≤ default 0 (get_sender_balances op !! a))
    ∧ ∃ draws, Forall (λ i, of_interest config (get_execution_statuses op) draws (get_sender_balances op) i = true) (sorted_ops op').
Proof using All.
  intros Hsh Hok Hsel Hlen Htc.
  destruct (refresh_spec config wallet now now' sh op O Hsh Hok Hsel Hlen Htc) as (sh' & op' & ? & ? & ? & _ & ? & ? & ? & _).
  by exists sh', op'.
Qed.

(** C31. Two different verified headers for a slot, or endorsements for a slot and an index, of the key that was
    drawn for the place, become a denunciation of that key about these two, as soon as the pool has accepted both. *)
Theorem double_signature_denounced dp p1 p2 now1 now2 chain :
  bt_get (index_of_precursor p1) (denunciations_cache dp) = None →
  accepts_precursor config dp p1 now1 chain → accepts_precursor config dp p2 now2 chain → double p1 p2 chain →
  ∃ dp1 dp2 d, add_denunciation_precursor config p1 now1 dp = Ok dp1 ∧ add_denunciation_precursor config p2 now2 dp1 = Ok dp2
    ∧ bt_get (index_of_precursor p1) (denunciations_cache dp2) = Some (DenunciationEmitted d)
    ∧ denounced d chain = (precursor_message p1 chain, precursor_message p2 chain)
    ∧ de_get_public_key d = dp_get_public_key p1.
Proof using. apply double_emitted_spec. Qed.
End parts.

(** ** A run *)

#[local] Instance sample_order {K} `{Countable K} : SetIter K := elements_iter.
#[local] Instance any_signature : Ed25519 := {| ed25519_verify _ _ _ := true; ed25519_verify_batch _ _ _ := true |}.
Definition sample_creator : Address := from_public_key sample_key.
#[local] Instance sample_channels : PoolChannels := {|
  get_selection _ := Some (MkSelection [sample_creator; sample_creator] sample_creator);
  get_producer _ := Some sample_creator;
  get_available_selections_in_range _ _ _ := Some [(MkSlot 1 0, MkSelection [sample_creator; sample_creator] sample_creator)];
  get_ops_exec_status l := (λ _, (None, None)) <$> l;
  get_final_and_candidate_balance l := (λ _, (Some 1000, Some 1000)) <$> l;
  get_denunciation_execution_status _ := (false, false);
  mip_store := MkMipStoreRaw [] (stats_new (MkMipStatsConfig 2 ratio_zero));
  chain_id := 77 |}.
#[local] Instance no_sort : ScoreSort := {| sort_by_score _ _ _ l := l; sort_by_score_perm _ _ _ l := reflexivity l |}.

Definition sample_pool_config : PoolConfig := {|
  PoolExports.thread_count := 2; max_block_size := 1000; max_block_gas := 5000; base_operation_gas_cost := 10; sp_compilation_cost := 20;
  PoolExports.roll_price := 100; operation_validity_periods := 10; operation_max_future_start_delay := 100; max_operations_per_block := 3;
  max_operation_pool_size := 10; max_operation_pool_excess_items := 5; max_endorsements_pool_size_per_thread := 8;
  max_block_endorsement_count := 2; PoolExports.genesis_timestamp := 0; PoolExports.t0 := 100; denunciation_expire_periods := 5;
  max_denunciations_per_block_header := 2; minimal_fees := 1; PoolExports.last_start_period := 0 |}.
Definition sample_wallet : Wallet := {[sample_creator]}.
Definition sample_sizes : PoolsConfig := MkPoolsConfig 4 4 4.

Definition sample_transfer : SecureShareOperation :=
  let o := MkOperation 1 5 (Transaction (User (UserAddressV0 9)) 20) in
  MkSecureShare o [1; 2; 3] (SignatureV0 0) sample_key sample_creator (OperationIdV0 21).
Definition sample_vote : SecureShareEndorsement :=
  let e := MkEndorsement (MkSlot 1 0) 1 (BlockIdV0 12) in signed EndorsementSerializer e (no_share e).
Definition sample_precursor (h : Hash) : DenunciationPrecursor :=
  PrecursorBlockHeader (MkBlockHeaderDenunciationPrecursor sample_key (MkSlot 1 0) h (SignatureV0 1)).

(** Two instances of the storage, of an operation and of an endorsement. *)
Definition nothing : Storage := MkStorage ∅ ∅ ∅.
Definition sample_stored : Shared * list Storage :=
  let '(sh, ops) := store_operations [sample_transfer] create_root.1 nothing in
  let '(sh, endos) := store_endorsements [sample_vote] sh nothing in (sh, [ops; endos]).
Definition sample_tick : Tick := MkTick true false false (λ _, 150).
(** Commands are sent, then each thread takes them and publishes. *)
Definition sample_sends : list PoolEvent :=
  [EvAddPrecursor (sample_precursor 3); EvAddPrecursor (sample_precursor 4)].
Definition sample_ticks : list PoolEvent :=
  [EvOperations sample_tick; EvOperations sample_tick; EvEndorsements sample_tick; EvEndorsements sample_tick]
  ++ replicate 4 (EvDenunciations sample_tick).
Notation run := (run_event sample_pool_config sample_wallet sample_sizes) (only parsing).
Definition run_all (es : list PoolEvent) (s : PoolsState) : PoolsState :=
  match foldM (λ s e, run e s) es s with Ok s => s | _ => s end.
Definition state_0 : PoolsState := (start_pool_controller sample_pool_config sample_wallet sample_stored.1, sample_stored.2).
Definition sample_final : PoolsState :=
  run_all ([EvAddOperations 0; EvAddEndorsements 0] ++ sample_sends ++ sample_ticks) state_0.

Lemma sample_conf : config_ok sample_pool_config sample_wallet.
Proof.
  split; [|vm_compute; discriminate|vm_compute; discriminate|].
  - split_and!; vm_compute; repeat split; discriminate.
  - intros a b. eexists. split; [done|]. repeat constructor.
Qed.
Lemma sample_stored_ok : shared_ok sample_stored.1 sample_stored.2.
Proof.
  assert (shared_ok create_root.1 []) as H0 by exact (proj1 (shared_ok_nothing _ _) root_world_ok).
  pose proof (store_operations_ok [sample_transfer] create_root.1 nothing [] (proj2 (shared_ok_nothing _ _) H0) ltac:(done)) as H1.
  unfold sample_stored. destruct (store_operations _ _ _) as [sh ops]. cbn [fst snd] in H1.
  pose proof (store_endorsements_ok [sample_vote] sh nothing [ops] (proj2 (shared_ok_nothing _ _) H1) ltac:(done)) as H2.
  destruct (store_endorsements _ _ _) as [sh' endos]. cbn [fst snd] in *. by rewrite Permutation_swap in H2.
Qed.

Fixpoint run_fine (es : list PoolEvent) (s : PoolsState) : Prop :=
  match es with
  | [] => True
  | e :: es => event_ok sample_pool_config sample_wallet e s ∧ run_fine es (run_all [e] s) ∧ is_ok (run e s) = true
  end.
Lemma reach_runs es s :
  pools_reachable sample_pool_config sample_wallet sample_sizes s → run_fine es s →
  pools_reachable sample_pool_config sample_wallet sample_sizes (run_all es s).
Proof.
  revert s. induction es as [|e es IH]; intros s Hs Hf; [done|]. destruct Hf as (He & Hf & Hok).
  unfold run_all in Hf |- *. cbn [foldM] in *. destruct (run e s) as [s1| | |] eqn:Hx; try discriminate. cbn [mbind outcome_bind] in *.
  specialize (IH s1). unfold run_all in IH.
  assert (pools_reachable sample_pool_config sample_wallet sample_sizes s1) as Hs1 by (by eapply reach_event).
  specialize (IH Hs1 Hf). destruct (foldM _ es s1) eqn:Hy; try done.
Qed.

Lemma sample_times : times_ok (tk_now sample_tick).
Proof. intros i. vm_compute. discriminate. Qed.
Lemma sample_precursor_ok h : h < 256 ^ 32 → precursor_ok sample_pool_config (sample_precursor h).
Proof. intros Hh. split_and!; try done; vm_compute; repeat split; discriminate. Qed.
Lemma sample_vote_ok : precursor_ok sample_pool_config (precursor_of_endorsement sample_vote).
Proof. split_and!; vm_compute; repeat split; discriminate. Qed.

Lemma sample_ops_good st : state_0.2 !! 0%nat = Some st → command_good sample_pool_config (p_shared state_0.1) (AddItems st).
Proof.
  intros Hst. assert (st = MkStorage ∅ {[OperationIdV0 21]} ∅) as -> by (vm_compute in Hst; injection Hst as <-; vm_compute; reflexivity).
  split; [vm_compute; discriminate|]. intros k e Hk _. destruct (not_elem_of_empty k Hk).
Qed.
Definition state_1 : PoolsState := run_all [EvAddOperations 0] state_0.
Lemma sample_endos_good st : state_1.2 !! 0%nat = Some st → command_good sample_pool_config (p_shared state_1.1) (AddItems st).
Proof.
  intros Hst. assert (st = MkStorage ∅ ∅ {[EndorsementIdV0 12]}) as -> by (vm_compute in Hst; injection Hst as <-; vm_compute; reflexivity).
  split; [vm_compute; discriminate|]. intros k e Hk Hg. change (k ∈ ({[EndorsementIdV0 12]} : gset EndorsementId)) in Hk. apply elem_of_singleton in Hk as ->.
  assert (e = sample_vote) as -> by (vm_compute in Hg; injection Hg as <-; vm_compute; reflexivity).
  split; [vm_compute; reflexivity|apply sample_vote_ok].
Qed.
Lemma run_fine_cons e es s :
  event_ok sample_pool_config sample_wallet e s → is_ok (run e s) = true → run_fine es (run_all [e] s) → run_fine (e :: es) s.
Proof. intros He Hx Hf. exact (conj He (conj Hf Hx)). Qed.
Ltac fine_run :=
  lazymatch goal with
  | |- run_fine [] _ => exact I
  | |- run_fine (?e :: _) _ =>
      apply run_fine_cons;
      [split; [vm_compute; reflexivity
              |lazymatch e with
               | EvAddOperations _ => exact sample_ops_good
               | EvAddEndorsements _ => exact sample_endos_good
               | EvAddPrecursor _ => apply sample_precursor_ok; vm_compute; reflexivity
               | _ => exact sample_times
               end]
      |vm_compute; reflexivity
      |fine_run]
  end.
Lemma sample_reached : pools_reachable sample_pool_config sample_wallet sample_sizes sample_final.
Proof.
  apply reach_runs; [apply reach_start; [apply sample_stored_ok|vm_compute; reflexivity]|].
  change (run_fine [EvAddOperations 0; EvAddEndorsements 0; EvAddPrecursor (sample_precursor 3); EvAddPrecursor (sample_precursor 4);
    EvOperations sample_tick; EvOperations sample_tick; EvEndorsements sample_tick; EvEndorsements sample_tick;
    EvDenunciations sample_tick; EvDenunciations sample_tick; EvDenunciations sample_tick; EvDenunciations sample_tick] state_0).
  fine_run.
Qed.

Definition sample_pools : Pools := sample_final.1.
Lemma sample_pools_reached : pools_reachable sample_pool_config sample_wallet sample_sizes (sample_pools, []).
Proof. pose proof sample_reached as Hr. assert (sample_final = (sample_pools, [])) as <- by (vm_compute; reflexivity). exact Hr. Qed.
Lemma sample_room : room sample_pool_config sample_wallet sample_pools [].
Proof. vm_compute. reflexivity. Qed.

Lemma pools_never_panic_witness :
  ∃ s', run (EvNotify 0 [1; 0]) (sample_pools, []) = Ok s' ∧ state_ok sample_pool_config sample_wallet s'
    ∧ pools_reachable sample_pool_config sample_wallet sample_sizes s'.
Proof.
  apply (pools_never_panic sample_pool_config sample_wallet sample_sizes (EvNotify 0 [1; 0]) (sample_pools, []) sample_conf sample_pools_reached).
  split; [exact sample_room|reflexivity].
Defined.
Lemma block_operations_fit_witness :
  ∃ os, (id <$> os) = [OperationIdV0 21] ∧ total serialized_size os ≤ 1000 ∧ Forall (op_valid_at sample_pool_config (MkSlot 1 0)) os.
Proof.
  destruct (block_operations_fit sample_pool_config sample_wallet sample_sizes sample_pools [] (MkSlot 1 0) sample_conf sample_pools_reached sample_room)
    as (os & sh' & Hx & _ & Hall & Hs & _).
  exists os. split; [|split].
  - apply (f_equal (λ r, match r with Ok (inr (ids, _, _)) => ids | _ => [] end)) in Hx. symmetry. exact Hx.
  - exact Hs.
  - eapply Forall_impl; [exact Hall|]. intros o Ho. apply Ho.
Defined.
Lemma block_endorsements_exact_witness :
  ∃ ks, ks = [None; Some (EndorsementIdV0 12)] ∧ N.of_nat (length ks) = 2.
Proof.
  destruct (block_endorsements_exact sample_pool_config sample_wallet sample_sizes sample_pools [] (MkSlot 1 0) (BlockIdV0 12)
    sample_conf sample_pools_reached sample_room) as (ks & sh' & Hx & Hl & _).
  exists ks. split; [|exact Hl]. apply (f_equal (λ r, match r with inr (ids, _, _) => ids | _ => [] end)) in Hx. symmetry. exact Hx.
Defined.
Lemma block_denunciations_genuine_witness :
  ∃ ds, controller_get_block_denunciations sample_pool_config (MkSlot 1 0) None true sample_pools = inr ds ∧ length ds = 1%nat
    ∧ N.of_nat (length ds) ≤ 2.
Proof.
  destruct (block_denunciations_genuine sample_pool_config sample_wallet sample_sizes sample_pools [] (MkSlot 1 0)
    sample_conf sample_pools_reached ltac:(reflexivity)) as (ds & Hx & Hl & _).
  exists ds. split; [exact Hx|]. split; [|exact Hl]. vm_compute in Hx. injection Hx as <-. reflexivity.
Defined.
Lemma pools_bounded_witness : ∃ no, get_operation_count None true sample_pools = inr no ∧ no ≤ 15.
Proof.
  destruct (pools_bounded sample_pool_config sample_wallet sample_sizes sample_pools [] sample_conf sample_pools_reached) as (no & _ & Hx & _ & Hno & _).
  exists no. split; [exact Hx|exact Hno].
Defined.

(** The state after the thread of the operations took its command and before it publishes. *)
Definition sample_taken : PoolsState := run_all [EvAddOperations 0; EvOperations sample_tick] state_0.
Lemma sample_taken_reached : pools_reachable sample_pool_config sample_wallet sample_sizes (sample_taken.1, sample_taken.2).
Proof.
  assert ((sample_taken.1, sample_taken.2) = sample_taken) as -> by (by destruct sample_taken).
  apply reach_runs; [apply reach_start; [apply sample_stored_ok|vm_compute; reflexivity]|]. fine_run.
Qed.
Definition sample_published : Pools := (run_all [EvOperations sample_tick] sample_taken).1.
Lemma sample_publishes : run (EvOperations sample_tick) (sample_taken.1, sample_taken.2) = Ok (sample_published, sample_taken.2).
Proof. vm_compute. reflexivity. Qed.
Lemma sample_tick_room : room sample_pool_config sample_wallet sample_taken.1 sample_taken.2.
Proof. vm_compute. reflexivity. Qed.
Lemma sample_idle : finds_nothing (p_operations sample_taken.1).
Proof. vm_compute. repeat split. Qed.
Lemma ok_first {E A B} {a a' : A} {b b' : B} : @Ok E _ (a, b) = Ok (a', b') → a = a'.
Proof. by intros [= ->]. Qed.
Lemma idle_thread_publishes_witness :
  operation_pool_len (th_pool (p_operations sample_taken.1)) = 0 ∧ operation_pool_len (th_pool (p_operations sample_published)) = 1
  ∧ th_pool (p_operations sample_published) = th_buffer (p_operations sample_published).
Proof.
  split; [vm_compute; reflexivity|]. split; [vm_compute; reflexivity|].
  destruct (proj1 (idle_thread_publishes sample_pool_config sample_wallet sample_sizes sample_taken.1 sample_taken.2 sample_tick
    sample_conf sample_taken_reached sample_tick_room sample_times (eq_refl true)) sample_idle) as (ps' & Hx & Hp & _).
  rewrite <-(ok_first (eq_trans (eq_sym Hx) sample_publishes)). exact Hp.
Defined.

Lemma refreshed_pool_payable_witness :
  ∃ sh' op', operation_pool_refresh sample_pool_config sample_wallet 150 151 (p_shared sample_pools) (th_pool (p_operations sample_pools)) = Ok (sh', op')
    ∧ operation_pool_len op' ≤ 10.
Proof.
  destruct (reached_operations sample_pool_config sample_wallet sample_sizes sample_pools [] sample_conf sample_pools_reached) as ([O Hsh] & Hpool & Hper).
  destruct (refreshed_pool_payable sample_pool_config sample_wallet 150 151 (p_shared sample_pools) (th_pool (p_operations sample_pools)) O Hsh Hpool
    (co_selector _ _ sample_conf) Hper (eq_refl : 0 < 2)) as (sh' & op' & Hx & _ & _ & Hl & _).
  exists sh', op'. split; [exact Hx|exact Hl].
Defined.
Lemma sample_accepted h : accepts_precursor sample_pool_config (denunciation_pool_init sample_pool_config) (sample_precursor h) 150 None.
Proof.
  split_and!; [vm_compute; reflexivity| |vm_compute; reflexivity|vm_compute; reflexivity|].
  - eexists. split; [vm_compute; reflexivity|vm_compute; discriminate].
  - eexists. split; vm_compute; reflexivity.
Qed.
Lemma double_signature_denounced_witness :
  ∃ dp1 dp2 d, add_denunciation_precursor sample_pool_config (sample_precursor 3) 150 (denunciation_pool_init sample_pool_config) = Ok dp1
    ∧ add_denunciation_precursor sample_pool_config (sample_precursor 4) 150 dp1 = Ok dp2 ∧ de_get_public_key d = sample_key.
Proof.
  destruct (double_signature_denounced sample_pool_config (denunciation_pool_init sample_pool_config) (sample_precursor 3) (sample_precursor 4) 150 150 None
    ltac:(reflexivity) (sample_accepted 3) (sample_accepted 4)) as (dp1 & dp2 & d & Hx1 & Hx2 & _ & _ & Hk).
  - split; [reflexivity|]. split; [reflexivity|]. split; [vm_compute; discriminate|]. split; vm_compute; reflexivity.
  - exists dp1, dp2, d. split; [exact Hx1|]. split; [exact Hx2|exact Hk].
Defined.
