(* ===== verification/Blocks.v ===== *)
(** * Block statuses

    The data consensus keeps about a block: [massa-consensus-exports/src/
    block_status.rs], [massa-models/src/active_block.rs] and [clique.rs], and the
    errors of [massa-consensus-exports/src/error.rs].

    The text of a message is kept without the values formatted into it. *)

From S2P Require Import Prelude Slots Models Storage.

Open Scope N_scope.

Inductive ConsensusError : Type :=
| ConsensusModelsError (e : ModelsError)
| SerializationError (what : string)
| GenesisCreationError (what : string)
| MissingBlock (what : string)
| MissingOperation (what : string)
| ContainerInconsistency (what : string)
| FitnessOverflow
| MassaTimeError (e : TimeError)
| ProtocolError (what : string)
| InvalidTransition (what : string).

Inductive HeaderOrBlock : Type :=
| HoBHeader (h : SecuredHeader)
| HoBBlock (b_id : BlockId) (b_slot : Slot) (b_storage : Storage).

Definition get_slot (hb : HeaderOrBlock) : Slot :=
  match hb with
  | HoBHeader h => header_slot h
  | HoBBlock _ s _ => s
  end.

Inductive DiscardReason : Type :=
| Invalid (reason : string)
| Stale
| Final.

#[export] Instance DiscardReason_eq_dec : EqDecision DiscardReason.
Proof. solve_decision. Defined.

Inductive BlockStatusId : Type :=
| SIncoming
| SWaitingForSlot
| SWaitingForDependencies
| SActive
| SDiscarded.

#[export] Instance BlockStatusId_eq_dec : EqDecision BlockStatusId.
Proof. solve_decision. Defined.

Inductive StorageOrBlock : Type :=
| SoBStorage (s : Storage)
| SoBBlock (b : SecureShareBlock).

(** [clone_block] and [strip_to_block] read the shared block index [ix], which
    holds a block as long as a [Storage] owns a reference to it. *)
Definition clone_block {E} (ix : BlockIndexes) (sb : StorageOrBlock) (block_id : BlockId)
    : outcome E SecureShareBlock :=
  match sb with
  | SoBStorage _ => expect "block absent from its own storage" (BlockIndex.get ix block_id)
  | SoBBlock b => Ok b
  end.

Definition strip_to_block {E} (ix : BlockIndexes) (sb : StorageOrBlock) (block_id : BlockId)
    : outcome E StorageOrBlock :=
  match sb with
  | SoBStorage _ =>
      b ← expect "block absent from its own storage" (BlockIndex.get ix block_id);
      Ok (SoBBlock b)
  | SoBBlock _ => Ok sb
  end.

Record ActiveBlock : Type := MkActiveBlock {
  ab_creator_address : Address;
  ab_block_id : BlockId;
  ab_parents : list (BlockId * N);
  ab_children : list (gmap BlockId N);
  ab_descendants : gset BlockId;
  ab_is_final : bool;
  ab_slot : Slot;
  ab_fitness : N;
  ab_same_thread_parent_creator : option Address }.

Definition ab_set_children (c : list (gmap BlockId N)) (a : ActiveBlock) : ActiveBlock :=
  MkActiveBlock (ab_creator_address a) (ab_block_id a) (ab_parents a) c (ab_descendants a)
    (ab_is_final a) (ab_slot a) (ab_fitness a) (ab_same_thread_parent_creator a).
Definition ab_set_descendants (d : gset BlockId) (a : ActiveBlock) : ActiveBlock :=
  MkActiveBlock (ab_creator_address a) (ab_block_id a) (ab_parents a) (ab_children a) d
    (ab_is_final a) (ab_slot a) (ab_fitness a) (ab_same_thread_parent_creator a).
Definition ab_set_final (a : ActiveBlock) : ActiveBlock :=
  MkActiveBlock (ab_creator_address a) (ab_block_id a) (ab_parents a) (ab_children a)
    (ab_descendants a) true (ab_slot a) (ab_fitness a) (ab_same_thread_parent_creator a).
Definition ab_set_parent_creator (c : option Address) (a : ActiveBlock) : ActiveBlock :=
  MkActiveBlock (ab_creator_address a) (ab_block_id a) (ab_parents a) (ab_children a)
    (ab_descendants a) (ab_is_final a) (ab_slot a) (ab_fitness a) c.

Inductive BlockStatus : Type :=
| Incoming (hb : HeaderOrBlock)
| WaitingForSlot (hb : HeaderOrBlock)
| WaitingForDependencies (hb : HeaderOrBlock) (unsatisfied_dependencies : gset BlockId)
    (sequence_number : N)
| Active (a_block : ActiveBlock) (storage_or_block : StorageOrBlock)
| Discarded (slot : Slot) (creator : Address) (parents : list BlockId)
    (reason : DiscardReason) (sequence_number : N).

(** [BlockStatusId::from] *)
Definition status_id (s : BlockStatus) : BlockStatusId :=
  match s with
  | Incoming _ => SIncoming
  | WaitingForSlot _ => SWaitingForSlot
  | WaitingForDependencies _ _ _ => SWaitingForDependencies
  | Active _ _ => SActive
  | Discarded _ _ _ _ _ => SDiscarded
  end.

(** The sequence number of the statuses that carry one. *)
Definition sequence_number (s : BlockStatus) : option N :=
  match s with
  | WaitingForDependencies _ _ n | Discarded _ _ _ _ n => Some n
  | _ => None
  end.

(** [*sequence_number = n], on the statuses that carry one. *)
Definition set_sequence_number (n : N) (s : BlockStatus) : BlockStatus :=
  match s with
  | WaitingForDependencies hb d _ => WaitingForDependencies hb d n
  | Discarded sl c p r _ => Discarded sl c p r n
  | s => s
  end.

Record Clique : Type := MkClique {
  block_ids : gset BlockId;
  fitness : N;
  is_blockclique : bool }.

(** [BlockGraphStatus] of [massa-models/src/block.rs]. *)
Inductive BlockGraphStatus : Type :=
| GIncoming
| GWaitingForSlot
| GWaitingForDependencies
| GActiveInAlternativeCliques
| GActiveInBlockclique
| GFinal
| GDiscarded
| GNotFound.

Lemma status_id_set_sequence_number n s : status_id (set_sequence_number n s) = status_id s.
Proof. by destruct s. Qed.

(** A header with the given id, slot and parents, for evaluating examples. *)
Definition sample_header (h : N) (s : Slot) (parents : list BlockId) : SecuredHeader :=
  MkSecureShare (MkBlockHeader 0 None s parents 0 [] []) [] (SignatureV0 0) (PublicKeyV0 0)
    (User (UserAddressV0 0)) (BlockIdV0 h).
