(* ===== verification/BlocksState.v ===== *)
(** * The block status machine

    [massa-consensus-worker/src/state/blocks_state.rs]: the map of all known
    blocks with its five indexes, the transition function that consensus uses
    for every change of status, and the renumbering of waiting blocks.

    A transition runs a closure on the removed status and on the rest of the
    map; the closure is an argument here, and returns with the new status and
    the map whatever it stored in captured variables. *)

From S2P Require Import Prelude Traversal Slots Models Storage Blocks.

Open Scope N_scope.

Notation Statuses := (gmap BlockId BlockStatus).

Record BlocksState : Type := MkBlocksState {
  block_statuses : Statuses;
  incoming_index : gset BlockId;
  sequence_counter : N;
  waiting_for_slot_index : gset BlockId;
  waiting_for_dependencies_index : gset BlockId;
  discarded_index : gset BlockId;
  active_index : gset BlockId }.

(** [BlocksState::new] *)
Definition new_blocks_state : BlocksState := MkBlocksState ∅ ∅ 0 ∅ ∅ ∅ ∅.

Definition bs_get (bs : BlocksState) (b : BlockId) : option BlockStatus :=
  block_statuses bs !! b.

(** The index of the blocks of one status, and its replacement. *)
Definition index_of (k : BlockStatusId) (bs : BlocksState) : gset BlockId :=
  match k with
  | SIncoming => incoming_index bs
  | SWaitingForSlot => waiting_for_slot_index bs
  | SWaitingForDependencies => waiting_for_dependencies_index bs
  | SActive => active_index bs
  | SDiscarded => discarded_index bs
  end.

Definition set_index (k : BlockStatusId) (i : gset BlockId) (bs : BlocksState) : BlocksState :=
  let 'MkBlocksState m inc c ws wd di ac := bs in
  match k with
  | SIncoming => MkBlocksState m i c ws wd di ac
  | SWaitingForSlot => MkBlocksState m inc c i wd di ac
  | SWaitingForDependencies => MkBlocksState m inc c ws i di ac
  | SActive => MkBlocksState m inc c ws wd di i
  | SDiscarded => MkBlocksState m inc c ws wd i ac
  end.

Definition set_statuses (m : Statuses) (bs : BlocksState) : BlocksState :=
  MkBlocksState m (incoming_index bs) (sequence_counter bs) (waiting_for_slot_index bs)
    (waiting_for_dependencies_index bs) (discarded_index bs) (active_index bs).
Definition set_sequence_counter (n : N) (bs : BlocksState) : BlocksState :=
  MkBlocksState (block_statuses bs) (incoming_index bs) n (waiting_for_slot_index bs)
    (waiting_for_dependencies_index bs) (discarded_index bs) (active_index bs).

Definition update_indexes (b : BlockId) (old new : option BlockStatusId) (bs : BlocksState)
    : BlocksState :=
  let bs := match old with
            | Some k => set_index k (index_of k bs ∖ {[b]}) bs
            | None => bs
            end in
  match new with
  | Some k => set_index k (index_of k bs ∪ {[b]}) bs
  | None => bs
  end.

Section blocks_state.
Context `{!SetIter BlockId}.

(** The exploration loop of [promote_dep_tree]: [to_explore] is a stack, its
    top first. *)
Fixpoint explore_deps {E} (fuel : nat) (m : Statuses) (to_explore : list BlockId)
    (to_promote : gmap BlockId (Slot * N)) : outcome E (gmap BlockId (Slot * N)) :=
  match fuel with
  | O => OutOfFuel
  | S fuel =>
      match to_explore with
      | [] => Ok to_promote
      | h :: to_explore =>
          match to_promote !! h with
          | Some _ => explore_deps fuel m to_explore to_promote
          | None =>
              match m !! h with
              | Some (WaitingForDependencies hb deps seq) =>
                  explore_deps fuel m (reverse (set_iter deps) ++ to_explore)
                    (<[h := (get_slot hb, seq)]> to_promote)
              | _ => explore_deps fuel m to_explore to_promote
              end
          end
      end
  end.

(** The edges the exploration can follow: one more than their number is the
    fuel it needs. *)
Definition unsatisfied_count (s : BlockStatus) : nat :=
  match s with
  | WaitingForDependencies _ deps _ => size deps
  | _ => 0%nat
  end.
Definition dependency_edges (m : Statuses) : nat := map_sum unsatisfied_count m.

(** [self.sequence_counter += 1; *sequence_number = self.sequence_counter] for
    one entry. *)
Definition renumber (bs : BlocksState) (b : BlockId) : BlocksState :=
  match block_statuses bs !! b with
  | Some (WaitingForDependencies hb deps _) =>
      let c := wrapping_add u64_max (sequence_counter bs) 1 in
      set_sequence_counter c
        (set_statuses (<[b := WaitingForDependencies hb deps c]> (block_statuses bs)) bs)
  | _ => bs
  end.

Definition promote_dep_tree {E} (bs : BlocksState) (hash : BlockId) : outcome E BlocksState :=
  to_promote ← explore_deps (S (S (dependency_edges (block_statuses bs))))
                 (block_statuses bs) [hash] ∅;
  let sorted := sort_unstable
    ((λ '(h, (slot, seq)), (slot, seq, h)) <$> map_iter to_promote) in
  Ok (foldl renumber bs (snd <$> sorted)).

(** [self.sequence_counter += 1; *sequence_number = ...] on the new status. *)
Definition number_and_insert (b : BlockId) (new : BlockStatus) (bs : BlocksState)
    : BlocksState :=
  let c := wrapping_add u64_max (sequence_counter bs) 1 in
  set_sequence_counter c
    (set_statuses (<[b := set_sequence_number c new]> (block_statuses bs)) bs).
Definition insert_status (b : BlockId) (new : BlockStatus) (bs : BlocksState) : BlocksState :=
  set_statuses (<[b := new]> (block_statuses bs)) bs.

(** The [match (&old_state_id, &new_state_id)] of [transition_map]. *)
Definition apply_transition {E} (b : BlockId) (old : BlockStatusId) (new : BlockStatus)
    (bs : BlocksState) : outcome E BlocksState :=
  match old, status_id new with
  | SIncoming, SWaitingForDependencies =>
      promote_dep_tree (number_and_insert b new bs) b
  | SIncoming, SDiscarded => Ok (number_and_insert b new bs)
  | SIncoming, _ => Ok (insert_status b new bs)
  | SWaitingForSlot, SIncoming => Ok (insert_status b new bs)
  | SWaitingForSlot, SDiscarded => Ok (number_and_insert b new bs)
  | SWaitingForSlot, SWaitingForSlot => Ok (insert_status b new bs)
  | SWaitingForDependencies, SIncoming => Ok (insert_status b new bs)
  | SWaitingForDependencies, SDiscarded => Ok (number_and_insert b new bs)
  | SWaitingForDependencies, SWaitingForDependencies =>
      promote_dep_tree (insert_status b new bs) b
  | SActive, SDiscarded => Ok (number_and_insert b new bs)
  | SActive, SActive => Ok (insert_status b new bs)
  | SDiscarded, SDiscarded => Ok (number_and_insert b new bs)
  | _, _ => Panic "Invalid transition"
  end.

(** A closure given to [transition_map]: it takes the removed status and the
    map, and returns the new status, the map and its captured results. *)
Definition callback (E R : Type) : Type :=
  option BlockStatus → Statuses → outcome E (option BlockStatus * Statuses * R).

Definition transition_map {E R} (bs : BlocksState) (b : BlockId) (f : callback E R)
    : outcome E (BlocksState * R) :=
  match block_statuses bs !! b with
  | Some old =>
      let bs := set_statuses (delete b (block_statuses bs)) bs in
      let bs := update_indexes b (Some (status_id old)) None bs in
      '(new, m, r) ← f (Some old) (block_statuses bs);
      let bs := set_statuses m bs in
      match new with
      | None => Ok (bs, r)
      | Some new =>
          bs ← apply_transition b (status_id old) new bs;
          Ok (update_indexes b None (Some (status_id new)) bs, r)
      end
  | None =>
      '(new, m, r) ← f None (block_statuses bs);
      let bs := set_statuses m bs in
      match new with
      | None => Ok (bs, r)
      | Some new =>
          match status_id new with
          | SIncoming | SActive =>
              Ok (update_indexes b None (Some (status_id new)) (insert_status b new bs), r)
          | _ => Panic "Invalid transition from None"
          end
      end
  end.
End blocks_state.

(** ** Index coherence *)

(** Every index lists exactly the blocks of its status. *)
Definition bs_ok (bs : BlocksState) : Prop :=
  ∀ k b, b ∈ index_of k bs ↔ status_id <$> block_statuses bs !! b = Some k.

(** Two maps with the same blocks in the same statuses. *)
Definition same_statuses (m m' : Statuses) : Prop :=
  ∀ b, status_id <$> m !! b = status_id <$> m' !! b.

Lemma index_of_set_index k k' i bs :
  index_of k (set_index k' i bs) = if decide (k = k') then i else index_of k bs.
Proof. destruct bs, k, k'; reflexivity. Qed.
Lemma index_of_set_statuses k m bs : index_of k (set_statuses m bs) = index_of k bs.
Proof. by destruct k. Qed.
Lemma index_of_set_sequence_counter k n bs :
  index_of k (set_sequence_counter n bs) = index_of k bs.
Proof. by destruct k. Qed.
Lemma block_statuses_set_index k i bs : block_statuses (set_index k i bs) = block_statuses bs.
Proof. by destruct bs, k. Qed.
Lemma sequence_counter_set_index k i bs :
  sequence_counter (set_index k i bs) = sequence_counter bs.
Proof. by destruct bs, k. Qed.
Lemma block_statuses_update_indexes b o n bs :
  block_statuses (update_indexes b o n bs) = block_statuses bs.
Proof. unfold update_indexes. by destruct o, n; rewrite ?block_statuses_set_index. Qed.
Lemma sequence_counter_update_indexes b o n bs :
  sequence_counter (update_indexes b o n bs) = sequence_counter bs.
Proof. unfold update_indexes. by destruct o, n; rewrite ?sequence_counter_set_index. Qed.

Create HintDb bs.
#[export] Hint Rewrite index_of_set_index index_of_set_statuses index_of_set_sequence_counter
  block_statuses_set_index sequence_counter_set_index block_statuses_update_indexes
  sequence_counter_update_indexes : bs.

Lemma new_blocks_state_ok : bs_ok new_blocks_state.
Proof. intros k b. destruct k; cbn; set_solver. Qed.

(** An edit that keeps the statuses keeps the indexes coherent. *)
Lemma bs_ok_same bs bs' :
  bs_ok bs → (∀ k, index_of k bs' = index_of k bs) →
  same_statuses (block_statuses bs') (block_statuses bs) → bs_ok bs'.
Proof. intros Hok Hi Hs k b. by rewrite Hi, Hs. Qed.

(** Removing a block with its status and index entry. *)
Lemma bs_ok_removed bs b old m :
  bs_ok bs → block_statuses bs !! b = Some old →
  same_statuses m (delete b (block_statuses bs)) →
  bs_ok (set_statuses m (update_indexes b (Some (status_id old)) None
           (set_statuses (delete b (block_statuses bs)) bs))).
Proof.
  intros Hok Hb Hs k x. unfold update_indexes. autorewrite with bs. cbn [block_statuses set_statuses].
  rewrite Hs. pose proof (Hok k x) as Hkx. pose proof (Hok (status_id old) x) as Hox.
  destruct (decide (x = b)) as [->|Hne].
  - rewrite lookup_delete_eq. rewrite Hb in Hkx, Hox. cbn in *. case_decide; set_solver.
  - rewrite lookup_delete_ne by done. case_decide; subst; set_solver.
Qed.

(** Adding a block that is not in the map. *)
Lemma bs_ok_added bs b new m :
  bs_ok bs → block_statuses bs !! b = None →
  same_statuses m (<[b := new]> (block_statuses bs)) →
  bs_ok (update_indexes b None (Some (status_id new)) (set_statuses m bs)).
Proof.
  intros Hok Hb Hs k x. unfold update_indexes. autorewrite with bs. cbn [block_statuses set_statuses].
  rewrite Hs. pose proof (Hok k x) as Hkx. pose proof (Hok (status_id new) x) as Hox.
  destruct (decide (x = b)) as [->|Hne].
  - rewrite lookup_insert_eq. rewrite Hb in Hkx, Hox. cbn in *. case_decide; set_solver.
  - rewrite lookup_insert_ne by done. case_decide; subst; set_solver.
Qed.

(** ** The dependency tree of a waiting block *)

(** The blocks reached from [h] through unsatisfied dependencies. *)
Inductive dep_tree (m : Statuses) (h : BlockId) : BlockId → Prop :=
| dep_root : dep_tree m h h
| dep_step x y hb deps seq :
    dep_tree m h x → m !! x = Some (WaitingForDependencies hb deps seq) → y ∈ deps →
    dep_tree m h y.

(** What the exploration collects on one block. *)
Definition waiting_entry (m : Statuses) (x : BlockId) : option (Slot * N) :=
  match m !! x with
  | Some (WaitingForDependencies hb _ seq) => Some (get_slot hb, seq)
  | _ => None
  end.

Section promote.
Context `{!SetIter BlockId}.

(** The loop invariant: the collected blocks are of the tree, the stack too, and
    every dependency of a collected block is collected, on the stack, or not
    waiting. *)
Record explore_inv (m : Statuses) (h : BlockId) (stack : list BlockId)
    (tp : gmap BlockId (Slot * N)) : Prop := {
  inv_collected : ∀ x p, tp !! x = Some p → waiting_entry m x = Some p ∧ dep_tree m h x;
  inv_stack : ∀ x, x ∈ stack → dep_tree m h x;
  inv_closed : ∀ x hb deps seq y, is_Some (tp !! x) →
    m !! x = Some (WaitingForDependencies hb deps seq) → y ∈ deps →
    is_Some (tp !! y) ∨ y ∈ stack ∨ waiting_entry m y = None;
  inv_root : is_Some (tp !! h) ∨ h ∈ stack ∨ waiting_entry m h = None }.

Lemma explore_inv_skip m h x stack tp :
  explore_inv m h (x :: stack) tp → is_Some (tp !! x) ∨ waiting_entry m x = None →
  explore_inv m h stack tp.
Proof.
  intros [Hc Hs Hcl Hr] Hx. split.
  - done.
  - intros y Hy. apply Hs. by right.
  - intros y hb deps seq z Hy Hm Hz.
    destruct (Hcl y hb deps seq z Hy Hm Hz) as [?|[Hin|?]]; [tauto| |tauto].
    apply elem_of_cons in Hin as [->|Hin]; tauto.
  - destruct Hr as [?|[Hin|?]]; [tauto| |tauto].
    apply elem_of_cons in Hin as [->|Hin]; tauto.
Qed.

Lemma explore_inv_push m h x hb deps seq stack tp :
  explore_inv m h (x :: stack) tp → m !! x = Some (WaitingForDependencies hb deps seq) →
  explore_inv m h (reverse (set_iter deps) ++ stack) (<[x := (get_slot hb, seq)]> tp).
Proof.
  intros [Hc Hs Hcl Hr] Hm.
  assert (dep_tree m h x) as Hx by (apply Hs; by left).
  assert (∀ y, y ∈ x :: stack → is_Some (<[x := (get_slot hb, seq)]> tp !! y)
      ∨ y ∈ reverse (set_iter deps) ++ stack) as Hin.
  { intros y [->|Hy]%elem_of_cons; [left; by rewrite lookup_insert_eq|right; set_solver]. }
  assert (∀ y, is_Some (tp !! y) → is_Some (<[x := (get_slot hb, seq)]> tp !! y)) as Hmono.
  { intros y Hy. destruct (decide (x = y)) as [->|];
      [by rewrite lookup_insert_eq|by rewrite lookup_insert_ne]. }
  split.
  - intros y p. destruct (decide (x = y)) as [<-|Hne].
    + rewrite lookup_insert_eq. intros [= <-]. unfold waiting_entry. by rewrite Hm.
    + rewrite lookup_insert_ne by done. apply Hc.
  - intros y [Hy|Hy]%elem_of_app.
    + rewrite elem_of_reverse, elem_of_set_iter in Hy. by eapply dep_step.
    + apply Hs. by right.
  - intros y hb' deps' seq' z Hy Hm' Hz. destruct (decide (x = y)) as [<-|Hne].
    + rewrite Hm in Hm'. injection Hm' as <- <- <-. right; left.
      apply elem_of_app. left. by rewrite elem_of_reverse, elem_of_set_iter.
    + rewrite lookup_insert_ne in Hy by done.
      destruct (Hcl y hb' deps' seq' z Hy Hm' Hz) as [?|[?|?]]; [auto| |auto].
      destruct (Hin z); auto.
  - destruct Hr as [?|[?|?]]; [auto| |auto]. destruct (Hin h); auto.
Qed.

(** The dependencies of the blocks that are not collected yet. *)
Definition edges_left (m : Statuses) (tp : gmap BlockId (Slot * N)) : nat :=
  dependency_edges (filter (λ '(k, _), tp !! k = None) m).

Lemma edges_left_insert m tp x s p :
  m !! x = Some s → tp !! x = None →
  edges_left m tp = (unsatisfied_count s + edges_left m (<[x := p]> tp))%nat.
Proof.
  intros Hm Ht. unfold edges_left.
  unfold dependency_edges.
  rewrite (map_sum_delete unsatisfied_count (filter (λ '(k, _), tp !! k = None) m) x s)
    by (by apply map_lookup_filter_Some). do 2 f_equal.
  apply map_eq. intros y. destruct (decide (x = y)) as [<-|Hne].
  - rewrite lookup_delete_eq. symmetry. apply map_lookup_filter_None. right.
    intros s' _. by rewrite lookup_insert_eq.
  - rewrite lookup_delete_ne by done. apply option_eq. intros s'.
    rewrite !map_lookup_filter_Some. by rewrite lookup_insert_ne.
Qed.

(** Enough fuel: the stack and the edges that are left. *)
Lemma explore_deps_spec {E} fuel m h stack tp :
  explore_inv m h stack tp → (length stack + edges_left m tp < fuel)%nat →
  ∃ tp', explore_deps fuel m stack tp = @Ok E _ tp' ∧ explore_inv m h [] tp'.
Proof.
  revert stack tp. induction fuel as [|fuel IH]; intros stack tp Hinv Hf; [lia|].
  destruct stack as [|x stack]; [by exists tp|]. cbn [explore_deps length] in *.
  destruct (tp !! x) as [p|] eqn:Hx.
  { apply IH; [by eapply explore_inv_skip; eauto|lia]. }
  destruct (m !! x) as [[| |hb deps seq| |]|] eqn:Hm;
    try (apply IH; [eapply explore_inv_skip; [done|right; unfold waiting_entry; by rewrite Hm]|lia]).
  apply IH; [by apply explore_inv_push|].
  rewrite (edges_left_insert m tp x _ (get_slot hb, seq) Hm Hx) in Hf. cbn [unsatisfied_count] in Hf.
  rewrite length_app, length_reverse, length_set_iter. lia.
Qed.

(** The exploration collects the waiting blocks of the tree. *)
Lemma explore_deps_tree {E} m h :
  ∃ tp, explore_deps (S (S (dependency_edges m))) m [h] ∅ = @Ok E _ tp
    ∧ ∀ x p, tp !! x = Some p ↔ dep_tree m h x ∧ waiting_entry m x = Some p.
Proof.
  destruct (@explore_deps_spec E (S (S (dependency_edges m))) m h [h] ∅) as (tp & Htp & [Hc _ Hcl Hr]).
  - split.
    + intros x p. by rewrite lookup_empty.
    + intros x ->%list_elem_of_singleton. constructor.
    + intros x ???? [? Hx]. by rewrite lookup_empty in Hx.
    + right; left. by left.
  - unfold edges_left. rewrite map_filter_id; [cbn; lia|]. intros. by rewrite lookup_empty.
  - exists tp. split; [done|]. intros x p. split; [intros ?%Hc; tauto|]. intros [Ht Hw].
    assert (is_Some (tp !! x)) as [p' Hx].
    { clear Hc. revert p Hw. induction Ht as [|x y hb deps seq _ IH Hm Hy]; intros p Hw.
      - destruct Hr as [?|[?%elem_of_nil|?]]; [done..|congruence].
      - destruct (Hcl x hb deps seq y) as [?|[?%elem_of_nil|?]]; [|done..|congruence].
        eapply IH. unfold waiting_entry. by rewrite Hm. }
    apply Hc in Hx as Hx'. rewrite Hx. naive_solver.
Qed.
End promote.

(** ** Renumbering *)

Definition is_waiting (m : Statuses) (x : BlockId) : Prop :=
  status_id <$> m !! x = Some SWaitingForDependencies.

Lemma waiting_entry_is_waiting m x : is_Some (waiting_entry m x) ↔ is_waiting m x.
Proof.
  unfold waiting_entry, is_waiting. destruct (m !! x) as [[]|]; cbn; split; intros Hx;
    try done; by destruct Hx.
Qed.

Lemma renumber_waiting bs x :
  is_waiting (block_statuses bs) x →
  let c := wrapping_add u64_max (sequence_counter bs) 1 in
  block_statuses (renumber bs x)
    = alter (set_sequence_number c) x (block_statuses bs)
  ∧ sequence_counter (renumber bs x) = c
  ∧ ∀ k, index_of k (renumber bs x) = index_of k bs.
Proof.
  intros Hw. unfold renumber, is_waiting in *.
  destruct (block_statuses bs !! x) as [[| |hb deps seq| |]|] eqn:Hx; try done.
  split_and!; cbn.
  - apply map_eq. intros y. destruct (decide (x = y)) as [<-|Hne].
    + by rewrite lookup_insert_eq, lookup_alter_eq, Hx.
    + by rewrite lookup_insert_ne, lookup_alter_ne.
  - done.
  - intros k. by autorewrite with bs.
Qed.

(** The numbering of the waiting blocks of a list, in the order of the list. *)
Record renumbered (bs : BlocksState) (l : list BlockId) (bs' : BlocksState) : Prop := {
  rn_in : ∀ i x, l !! i = Some x →
    block_statuses bs' !! x
      = set_sequence_number (sequence_counter bs + N.of_nat i + 1) <$> block_statuses bs !! x;
  rn_out : ∀ x, x ∉ l → block_statuses bs' !! x = block_statuses bs !! x;
  rn_counter : sequence_counter bs' = sequence_counter bs + N.of_nat (length l);
  rn_index : ∀ k, index_of k bs' = index_of k bs }.

Lemma foldl_renumber bs l :
  NoDup l → (∀ x, x ∈ l → is_waiting (block_statuses bs) x) →
  sequence_counter bs + N.of_nat (length l) ≤ u64_max →
  renumbered bs l (foldl renumber bs l).
Proof.
  revert bs. induction l as [|x l IH]; intros bs Hnd Hw Hb; cbn [foldl length] in *.
  { split; [done..| |done]. cbn. lia. }
  apply NoDup_cons in Hnd as [Hx Hnd].
  destruct (renumber_waiting bs x) as (Hm & Hc & Hi); [apply Hw; by left|].
  rewrite wrapping_add_small in Hm, Hc by lia.
  destruct (IH (renumber bs x)) as [Hin Hout Hcnt Hidx].
  - done.
  - intros y Hy. unfold is_waiting. rewrite Hm, lookup_alter_ne by (by intros ->).
    apply Hw. by right.
  - rewrite Hc. lia.
  - split.
    + intros [|i] y Hy; cbn in Hy.
      * injection Hy as ->. rewrite Hout, Hm, lookup_alter_eq by done. do 2 f_equal. lia.
      * rewrite (Hin i y Hy), Hc, Hm, lookup_alter_ne.
        -- do 2 f_equal. lia.
        -- intros ->. by apply Hx, list_elem_of_lookup_2 with i.
    + intros y Hy. apply not_elem_of_cons in Hy as [Hne Hy].
      by rewrite Hout, Hm, lookup_alter_ne by done.
    + rewrite Hcnt, Hc. cbn [length]. lia.
    + intros k. by rewrite Hidx, Hi.
Qed.

Lemma renumbered_same bs l bs' :
  renumbered bs l bs' → same_statuses (block_statuses bs') (block_statuses bs).
Proof.
  intros [Hin Hout _ _] x. destruct (decide (x ∈ l)) as [[i Hi]%list_elem_of_lookup_1|Hx].
  - rewrite (Hin i x Hi). destruct (block_statuses bs !! x); cbn; [|done].
    by rewrite status_id_set_sequence_number.
  - by rewrite Hout.
Qed.

(** The blocks that [promote_dep_tree] renumbers, and their order. *)
Definition promotion (m : Statuses) (h : BlockId) (l : list BlockId) : Prop :=
  NoDup l ∧ (∀ x, x ∈ l ↔ dep_tree m h x ∧ is_waiting m x)
  ∧ StronglySorted (λ x y, ∃ p q, waiting_entry m x = Some p ∧ waiting_entry m y = Some q
                     ∧ cmp_le (p, x) (q, y)) l.

Section promote_spec.
Context `{!SetIter BlockId}.

Lemma NoDup_length_map (m : Statuses) l :
  NoDup l → (∀ x, x ∈ l → is_waiting m x) → (length l ≤ size m)%nat.
Proof using.
  intros Hnd Hw. rewrite <-(size_list_to_set (C := gset BlockId) l) by done.
  rewrite <-size_dom. apply subseteq_size. intros x Hx%elem_of_list_to_set.
  apply Hw in Hx. unfold is_waiting in Hx. apply elem_of_dom.
  by destruct (m !! x).
Qed.

Lemma promote_sorted_list (m : Statuses) h (tp : gmap BlockId (Slot * N)) :
  (∀ x p, tp !! x = Some p ↔ dep_tree m h x ∧ waiting_entry m x = Some p) →
  promotion m h (snd <$> sort_unstable
    ((λ '(h, (slot, seq)), (slot, seq, h)) <$> map_iter tp)).
Proof.
  intros Htp. set (l := (λ '(h, (slot, seq)), (slot, seq, h)) <$> map_iter tp).
  assert (∀ s n x, (s, n, x) ∈ sort_unstable l ↔ tp !! x = Some (s, n)) as Hl.
  { intros s n x. rewrite elem_of_sort_unstable. unfold l. rewrite list_elem_of_fmap. split.
    - intros ([y [s' n']] & [= -> -> ->] & Hy). by apply elem_of_map_iter in Hy.
    - intros Hx. exists (x, (s, n)). by rewrite elem_of_map_iter. }
  split_and!.
  - rewrite sort_unstable_perm. unfold l. rewrite <-list_fmap_compose.
    rewrite (list_fmap_ext _ fst) by (intros ? [? [??]] ?; done).
    apply NoDup_fst_map_iter.
  - intros x. rewrite list_elem_of_fmap, <-waiting_entry_is_waiting. split.
    + intros ([[s n] y] & -> & Hy%Hl%Htp). cbn. destruct Hy as [? ->]. eauto.
    + intros [Ht [[s n] Hp]]. exists (s, n, x). split; [done|]. apply Hl, Htp. done.
  - pose proof (sort_unstable_sorted l) as Hs.
    assert (∀ q, q ∈ sort_unstable l → waiting_entry m q.2 = Some q.1) as Hall.
    { intros [[s n] y] Hy%Hl%Htp. cbn. tauto. }
    clear Hl. induction Hs as [|q l' Hs IH Hq]; [constructor|]. cbn [fmap list_fmap].
    constructor.
    + apply IH. intros q' Hq'. apply Hall. by right.
    + apply Forall_forall. intros y (q' & -> & Hq')%list_elem_of_fmap.
      exists q.1, q'.1. split_and!; [apply Hall; by left|apply Hall; by right|].
      pose proof (proj1 (Forall_forall _ _) Hq q' Hq'). by destruct q, q'.
Qed.

Lemma promote_dep_tree_spec {E} bs h :
  sequence_counter bs + N.of_nat (size (block_statuses bs)) ≤ u64_max →
  ∃ l bs', promote_dep_tree bs h = @Ok E _ bs'
    ∧ promotion (block_statuses bs) h l ∧ renumbered bs l bs'.
Proof.
  intros Hb. unfold promote_dep_tree.
  destruct (@explore_deps_tree _ E (block_statuses bs) h) as (tp & Htp & Hspec).
  rewrite Htp. cbn [mbind outcome_bind]. eexists _, _. split; [done|].
  pose proof (promote_sorted_list _ _ _ Hspec) as Hl. split; [done|].
  destruct Hl as (Hnd & Hin & _).
  apply foldl_renumber; [done|intros x Hx; by apply Hin|].
  assert (∀ x, x ∈ snd <$> sort_unstable
    ((λ '(h, (slot, seq)), (slot, seq, h)) <$> map_iter tp) →
    is_waiting (block_statuses bs) x) as Hw by (intros x Hx; by apply Hin).
  pose proof (NoDup_length_map _ _ Hnd Hw). lia.
Qed.
End promote_spec.

(** ** Transitions *)

(** The status machine: which status can follow which, [None] being an unknown
    block.  [Discarded] is terminal, an active block can only be discarded, and
    an unknown block can only arrive or be loaded as active. *)
Definition allowed (old new : option BlockStatusId) : bool :=
  match old, new with
  | _, None => true
  | None, Some SIncoming | None, Some SActive => true
  | None, _ => false
  | Some SIncoming, Some _ => true
  | Some SWaitingForSlot, Some SIncoming
  | Some SWaitingForSlot, Some SWaitingForSlot
  | Some SWaitingForSlot, Some SDiscarded => true
  | Some SWaitingForDependencies, Some SIncoming
  | Some SWaitingForDependencies, Some SWaitingForDependencies
  | Some SWaitingForDependencies, Some SDiscarded => true
  | Some SActive, Some SActive | Some SActive, Some SDiscarded => true
  | Some SDiscarded, Some SDiscarded => true
  | Some _, Some _ => false
  end.

(** The only edits the closures make to the rest of the map are to the fields
    of active blocks. *)
Definition active_edit (m m' : Statuses) : Prop :=
  ∀ x, m' !! x = m !! x
    ∨ ∃ a sb a' sb', m !! x = Some (Active a sb) ∧ m' !! x = Some (Active a' sb').

(** Sequence numbers are below the counter and pairwise distinct. *)
Definition number_of (bs : BlocksState) (x : BlockId) : option N :=
  block_statuses bs !! x ≫= sequence_number.
Definition seq_ok (bs : BlocksState) : Prop :=
  (∀ x n, number_of bs x = Some n → n ≤ sequence_counter bs)
  ∧ ∀ x y n, number_of bs x = Some n → number_of bs y = Some n → x = y.

(** No counter overflow in the next transition. *)
Definition seq_room (bs : BlocksState) : Prop :=
  sequence_counter bs + N.of_nat (size (block_statuses bs)) < u64_max.

(** What [apply_transition] does to a map that does not hold the block. *)
Record placed (b : BlockId) (new : BlockStatus) (bs bs' : BlocksState) : Prop := {
  pl_new : ∃ n, block_statuses bs' !! b = Some (set_sequence_number n new);
  pl_other : ∀ x, x ≠ b → block_statuses bs' !! x = block_statuses bs !! x
    ∨ is_waiting (block_statuses bs) x
      ∧ ∃ n, block_statuses bs' !! x = set_sequence_number n <$> block_statuses bs !! x;
  pl_index : ∀ k, index_of k bs' = index_of k bs;
  pl_counter : sequence_counter bs ≤ sequence_counter bs'
    ≤ sequence_counter bs + N.of_nat (size (block_statuses bs)) + 2;
  pl_counter1 : status_id new ≠ SWaitingForDependencies →
    sequence_counter bs' ≤ sequence_counter bs + 1;
  pl_seq : seq_ok bs → seq_ok bs' }.

Lemma active_edit_refl m : active_edit m m.
Proof. intros x. by left. Qed.

Lemma active_edit_trans m1 m2 m3 : active_edit m1 m2 → active_edit m2 m3 → active_edit m1 m3.
Proof.
  intros H1 H2 x. destruct (H1 x) as [E1|(a & sb & a' & sb' & E1 & E1')],
    (H2 x) as [E2|(a2 & sb2 & a2' & sb2' & E2 & E2')].
  - left. congruence.
  - right. rewrite E1 in E2. eauto 6.
  - right. rewrite E1' in E2. eauto 6.
  - right. eauto 6.
Qed.

Lemma active_edit_insert m x a sb a' sb' :
  m !! x = Some (Active a sb) → active_edit m (<[x := Active a' sb']> m).
Proof.
  intros Hx y. destruct (decide (x = y)) as [<-|Hne].
  - right. rewrite lookup_insert_eq. eauto 6.
  - left. by rewrite lookup_insert_ne.
Qed.

Lemma active_edit_same m m' : active_edit m m' → same_statuses m' m.
Proof. intros He x. by destruct (He x) as [->|(? & ? & ? & ? & -> & ->)]. Qed.

Lemma active_edit_number bs m :
  active_edit (block_statuses bs) m →
  ∀ x, number_of (set_statuses m bs) x = number_of bs x.
Proof.
  intros He x. unfold number_of; cbn. by destruct (He x) as [->|(? & ? & ? & ? & -> & ->)].
Qed.

Lemma set_sequence_number_twice n n' s :
  set_sequence_number n (set_sequence_number n' s) = set_sequence_number n s.
Proof. by destruct s. Qed.

Lemma seq_ok_insert bs b bs' :
  seq_ok bs →
  (∀ x, x ≠ b → number_of bs' x = number_of bs x) →
  (∀ n, number_of bs' b = Some n → sequence_counter bs < n ≤ sequence_counter bs') →
  sequence_counter bs ≤ sequence_counter bs' → seq_ok bs'.
Proof.
  intros [Hle Hinj] Ho Hb Hc. split.
  - intros x n Hx. destruct (decide (x = b)) as [->|Hne]; [by apply Hb|].
    rewrite Ho in Hx by done. apply Hle in Hx. lia.
  - intros x y n Hx Hy. destruct (decide (x = b)) as [->|Hnx], (decide (y = b)) as [->|Hny].
    + done.
    + rewrite Ho in Hy by done. apply Hle in Hy. apply Hb in Hx. lia.
    + rewrite Ho in Hx by done. apply Hle in Hx. apply Hb in Hy. lia.
    + rewrite Ho in Hx, Hy by done. by eapply Hinj.
Qed.

Lemma placed_insert b new bs :
  sequence_number new = None → placed b new bs (insert_status b new bs).
Proof.
  intros Hn. split; cbn.
  - exists 0. rewrite lookup_insert_eq. by destruct new.
  - intros x Hx. left. by rewrite lookup_insert_ne.
  - intros k. by autorewrite with bs.
  - lia.
  - lia.
  - intros Hok. eapply (seq_ok_insert bs b); [done| | |done]; unfold number_of; cbn.
    + intros x Hx. by rewrite lookup_insert_ne.
    + rewrite lookup_insert_eq. cbn. by rewrite Hn.
Qed.

Lemma placed_number b new bs :
  seq_room bs → placed b new bs (number_and_insert b new bs).
Proof.
  unfold seq_room. intros Hr. unfold number_and_insert.
  rewrite wrapping_add_small by lia. split; cbn.
  - rewrite lookup_insert_eq. eauto.
  - intros x Hx. left. by rewrite lookup_insert_ne.
  - intros k. by autorewrite with bs.
  - lia.
  - lia.
  - intros Hok. eapply (seq_ok_insert bs b); [done| | |cbn; lia]; unfold number_of; cbn.
    + intros x Hx. by rewrite lookup_insert_ne.
    + rewrite lookup_insert_eq. cbn. intros n. destruct new; cbn; intros [= <-]; lia.
Qed.

(** Sequence numbers after a renumbering: those of the list are new. *)
Lemma renumbered_number bs l bs' :
  renumbered bs l bs' → (∀ x, x ∈ l → is_waiting (block_statuses bs) x) →
  (∀ i x, l !! i = Some x → number_of bs' x = Some (sequence_counter bs + N.of_nat i + 1))
  ∧ ∀ x, x ∉ l → number_of bs' x = number_of bs x.
Proof.
  intros [Hin Hout _ _] Hw. unfold number_of. split.
  - intros i x Hi. rewrite (Hin i x Hi).
    assert (is_waiting (block_statuses bs) x) as Hx by (by eapply Hw, list_elem_of_lookup_2).
    unfold is_waiting in Hx. by destruct (block_statuses bs !! x) as [[]|].
  - intros x Hx. by rewrite Hout.
Qed.

Lemma renumbered_seq_ok bs0 bs l bs' :
  seq_ok bs0 → sequence_counter bs0 ≤ sequence_counter bs →
  (∀ x, x ∉ l → number_of bs x = number_of bs0 x) →
  NoDup l → (∀ x, x ∈ l → is_waiting (block_statuses bs) x) →
  renumbered bs l bs' → seq_ok bs'.
Proof.
  intros [Hle Hinj] Hc Ho Hnd Hw Hr.
  destruct (renumbered_number _ _ _ Hr Hw) as [Hin Hout]. destruct Hr as [_ _ Hcnt _].
  assert (∀ x n, x ∉ l → number_of bs' x = Some n → number_of bs0 x = Some n) as Hold
    by (intros x n Hx; by rewrite Hout, Ho by done).
  assert (∀ x n, x ∈ l → number_of bs' x = Some n →
    ∃ i, l !! i = Some x ∧ n = sequence_counter bs + N.of_nat i + 1) as Hnew.
  { intros x n [i Hi]%list_elem_of_lookup_1 Hx. exists i. split; [done|].
    rewrite (Hin i x Hi) in Hx. congruence. }
  split.
  - intros x n Hx. destruct (decide (x ∈ l)) as [Hl|Hl].
    + destruct (Hnew x n Hl Hx) as (i & Hi & ->). apply lookup_lt_Some in Hi. lia.
    + apply Hold, Hle in Hx; [lia|done].
  - intros x y n Hx Hy. destruct (decide (x ∈ l)) as [Hlx|Hlx], (decide (y ∈ l)) as [Hly|Hly].
    + destruct (Hnew x n Hlx Hx) as (i & Hi & ->), (Hnew y _ Hly Hy) as (j & Hj & ?).
      assert (i = j) as -> by lia. congruence.
    + destruct (Hnew x n Hlx Hx) as (i & Hi & ->). apply Hold, Hle in Hy; [lia|done].
    + destruct (Hnew y n Hly Hy) as (i & Hi & ->). apply Hold, Hle in Hx; [lia|done].
    + eapply Hinj; by apply Hold.
Qed.

Section transitions.
Context `{!SetIter BlockId}.

Lemma placed_promote {E} b new bs bs1 :
  status_id new = SWaitingForDependencies →
  block_statuses bs !! b = None → seq_room bs →
  (∃ n, block_statuses bs1 = <[b := set_sequence_number n new]> (block_statuses bs)) →
  (∀ k, index_of k bs1 = index_of k bs) →
  sequence_counter bs ≤ sequence_counter bs1 ≤ sequence_counter bs + 1 →
  sequence_counter bs1 + N.of_nat (size (block_statuses bs)) < u64_max →
  ∃ bs2, promote_dep_tree bs1 b = @Ok E _ bs2 ∧ placed b new bs bs2.
Proof.
  intros Hnew Hb Hroom [n Hm] Hi Hc Hroom1.
  assert (size (block_statuses bs1) = S (size (block_statuses bs))) as Hsz
    by (by rewrite Hm, map_size_insert_None).
  destruct (@promote_dep_tree_spec _ E bs1 b) as (l & bs2 & -> & (Hnd & Hl & _) & Hr); [lia|].
  exists bs2. split; [done|].
  assert (is_waiting (block_statuses bs1) b) as Hwb.
  { unfold is_waiting. rewrite Hm, lookup_insert_eq. cbn.
    by rewrite status_id_set_sequence_number, Hnew. }
  assert (b ∈ l) as Hbl by (apply Hl; split; [constructor|done]).
  assert (∀ x, x ∈ l → is_waiting (block_statuses bs1) x) as Hw by (intros x Hx; by apply Hl).
  assert (length l ≤ size (block_statuses bs1))%nat as Hlen by (by apply NoDup_length_map).
  pose proof Hr as [Hin Hout Hcnt Hidx]. split.
  - apply list_elem_of_lookup_1 in Hbl as [i Hbi]. rewrite (Hin i b Hbi), Hm, lookup_insert_eq.
    eexists. cbn. by rewrite set_sequence_number_twice.
  - intros x Hx. assert (block_statuses bs1 !! x = block_statuses bs !! x) as Hx1
      by (by rewrite Hm, lookup_insert_ne).
    destruct (decide (x ∈ l)) as [Hxl|Hxl]; [right|left; by rewrite Hout].
    split; [unfold is_waiting; rewrite <-Hx1; by apply Hw|].
    apply list_elem_of_lookup_1 in Hxl as [i Hxi]. rewrite (Hin i x Hxi), Hx1. eauto.
  - intros k. by rewrite Hidx, Hi.
  - rewrite Hcnt. lia.
  - done.
  - intros Hok. eapply (renumbered_seq_ok bs bs1 l bs2); [done|lia| |done..].
    intros x Hx. unfold number_of. rewrite Hm, lookup_insert_ne; [done|]. by intros ->.
Qed.

Lemma apply_transition_spec {E} b old new bs :
  allowed (Some old) (Some (status_id new)) = true →
  block_statuses bs !! b = None →
  sequence_counter bs + 1 + N.of_nat (size (block_statuses bs)) < u64_max →
  ∃ bs', apply_transition b old new bs = @Ok E _ bs' ∧ placed b new bs bs'.
Proof.
  intros Ha Hb Hroom. assert (seq_room bs) as Hr by (unfold seq_room; lia).
  destruct old, new; cbn in Ha; try done; cbn [apply_transition status_id].
  all: try (eexists; split; [done|]; by apply placed_insert || by apply placed_number).
  - apply (placed_promote _ _ bs); [done..| | | |].
    + eexists. cbn. by destruct bs.
    + intros k. by unfold number_and_insert; autorewrite with bs.
    + cbn. rewrite wrapping_add_small by lia. lia.
    + cbn. rewrite wrapping_add_small by lia. lia.
  - apply (placed_promote _ _ bs); [done..| | | |].
    + eexists. cbn. reflexivity.
    + intros k. by unfold insert_status; autorewrite with bs.
    + cbn. lia.
    + cbn. lia.
Qed.

Lemma apply_transition_forbidden {E} b old new bs :
  allowed (Some old) (Some (status_id new)) = false →
  apply_transition b old new bs = @Panic E _ "Invalid transition".
Proof. by destruct old, new. Qed.

Lemma placed_same b new bs bs' :
  placed b new bs bs' →
  same_statuses (block_statuses bs') (<[b := new]> (block_statuses bs)).
Proof using.
  intros [[n Hn] Ho _ _ _ _] x. destruct (decide (x = b)) as [->|Hne].
  - rewrite Hn, lookup_insert_eq. cbn. by rewrite status_id_set_sequence_number.
  - rewrite lookup_insert_ne by done. destruct (Ho x Hne) as [->|(_ & n' & ->)]; [done|].
    destruct (block_statuses bs !! x); [|done]. cbn. by rewrite status_id_set_sequence_number.
Qed.
End transitions.

(** What a successful transition guarantees, [m] being the map the closure
    leaves. *)
Record transitioned (b : BlockId) (new : option BlockStatus) (m : Statuses)
    (bs bs' : BlocksState) : Prop := {
  tr_ok : bs_ok bs → bs_ok bs';
  tr_seq : seq_ok bs → seq_ok bs';
  tr_new : ∃ n, block_statuses bs' !! b = set_sequence_number n <$> new;
  tr_other : ∀ x, x ≠ b → block_statuses bs' !! x = m !! x
    ∨ is_waiting m x ∧ ∃ n, block_statuses bs' !! x = set_sequence_number n <$> m !! x;
  tr_counter : sequence_counter bs ≤ sequence_counter bs'
    ≤ sequence_counter bs + N.of_nat (size (block_statuses bs)) + 2;
  tr_counter1 : status_id <$> new ≠ Some SWaitingForDependencies →
    sequence_counter bs' ≤ sequence_counter bs + 1 }.

Lemma seq_ok_removed bs b m o :
  active_edit (delete b (block_statuses bs)) m → seq_ok bs →
  seq_ok (set_statuses m (update_indexes b o None
    (set_statuses (delete b (block_statuses bs)) bs))).
Proof.
  intros He [Hle Hinj].
  assert (∀ x n, number_of (set_statuses m (update_indexes b o None
      (set_statuses (delete b (block_statuses bs)) bs))) x = Some n →
      number_of bs x = Some n) as Hold.
  { intros x n. unfold number_of; cbn [block_statuses set_statuses].
    assert (m !! x ≫= sequence_number = delete b (block_statuses bs) !! x ≫= sequence_number)
      as -> by (by destruct (He x) as [->|(? & ? & ? & ? & -> & ->)]).
    destruct (decide (x = b)) as [->|]; [by rewrite lookup_delete_eq|by rewrite lookup_delete_ne]. }
  split.
  - intros x n Hx%Hold%Hle. cbn [sequence_counter set_statuses]. by autorewrite with bs.
  - intros x y n Hx%Hold Hy%Hold. by eapply Hinj.
Qed.

Lemma seq_ok_update_indexes b o n bs : seq_ok bs → seq_ok (update_indexes b o n bs).
Proof.
  unfold seq_ok, number_of. by rewrite block_statuses_update_indexes,
    sequence_counter_update_indexes.
Qed.

Lemma active_edit_size m m' : active_edit m m' → size m' = size m.
Proof.
  intros He. rewrite <-!size_dom. f_equal. apply set_eq. intros x. rewrite !elem_of_dom.
  by destruct (He x) as [->|(? & ? & ? & ? & -> & ->)].
Qed.

Lemma set_statuses_id bs : set_statuses (block_statuses bs) bs = bs.
Proof. by destruct bs. Qed.

(** The state between the removal of the old status and the insertion of the
    new one, for a known and for an unknown block. *)
Definition bs_removed (b : BlockId) (m : Statuses) (bs : BlocksState) : BlocksState :=
  match block_statuses bs !! b with
  | Some old => set_statuses m (update_indexes b (Some (status_id old)) None
                  (set_statuses (delete b (block_statuses bs)) bs))
  | None => set_statuses m bs
  end.

Record removed (b : BlockId) (m : Statuses) (bs bs' : BlocksState) : Prop := {
  rm_ok : bs_ok bs → bs_ok bs';
  rm_seq : seq_ok bs → seq_ok bs';
  rm_map : block_statuses bs' = m;
  rm_none : m !! b = None;
  rm_counter : sequence_counter bs' = sequence_counter bs;
  rm_size : (size m ≤ size (block_statuses bs))%nat }.

Lemma bs_removed_spec b m bs :
  active_edit (delete b (block_statuses bs)) m → removed b m bs (bs_removed b m bs).
Proof.
  intros He. pose proof (active_edit_same _ _ He) as Hs.
  assert (m !! b = None) as Hb.
  { specialize (Hs b). rewrite lookup_delete_eq in Hs. by destruct (m !! b). }
  unfold bs_removed. destruct (block_statuses bs !! b) as [old|] eqn:Hold.
  - split; [intros ?; by apply bs_ok_removed|intros ?; by apply seq_ok_removed
      |done|done|cbn [sequence_counter set_statuses]; by autorewrite with bs|].
    rewrite (active_edit_size _ _ He), map_size_delete_Some by eauto. lia.
  - rewrite delete_id in He, Hs by done. split; [| |done..|].
    + intros Hok. eapply bs_ok_same; [done| |done]. intros k. by autorewrite with bs.
    + intros [Hle Hinj]. pose proof (active_edit_number _ _ He) as Hn. split.
      * intros x n. rewrite Hn. apply Hle.
      * intros x y n. rewrite !Hn. apply Hinj.
    + by rewrite (active_edit_size _ _ He).
Qed.

Section transition_map.
Context `{!SetIter BlockId} {E R : Type}.
Implicit Types (f : callback E R).

Lemma transition_map_eq bs b f new m r :
  f (block_statuses bs !! b) (delete b (block_statuses bs)) = Ok (new, m, r) →
  transition_map bs b f =
    match new with
    | None => Ok (bs_removed b m bs, r)
    | Some s =>
        bs' ← match block_statuses bs !! b with
              | Some old => apply_transition b (status_id old) s (bs_removed b m bs)
              | None => if allowed None (Some (status_id s))
                        then Ok (insert_status b s (bs_removed b m bs))
                        else Panic "Invalid transition from None"
              end;
        Ok (update_indexes b None (Some (status_id s)) bs', r)
    end.
Proof.
  intros Hf. unfold transition_map, bs_removed.
  destruct (block_statuses bs !! b) as [old|] eqn:Hold.
  - autorewrite with bs. cbn [block_statuses set_statuses]. rewrite Hf. cbn. by destruct new.
  - rewrite delete_id in Hf by done. rewrite Hf. cbn. by destruct new as [[]|].
Qed.

Lemma transition_map_forbidden bs b f new m r :
  f (block_statuses bs !! b) (delete b (block_statuses bs)) = Ok (new, m, r) →
  allowed (status_id <$> block_statuses bs !! b) (status_id <$> new) = false →
  ∃ why, transition_map bs b f = Panic why.
Proof.
  intros Hf Ha. rewrite (transition_map_eq _ _ _ _ _ _ Hf).
  destruct new as [s|]; [|by destruct (block_statuses bs !! b) as [[]|]].
  destruct (block_statuses bs !! b) as [old|]; cbn [fmap option_fmap option_map] in Ha.
  - rewrite apply_transition_forbidden by done. by eexists.
  - rewrite Ha. by eexists.
Qed.

Lemma transition_map_spec bs b f new m r :
  f (block_statuses bs !! b) (delete b (block_statuses bs)) = Ok (new, m, r) →
  active_edit (delete b (block_statuses bs)) m →
  allowed (status_id <$> block_statuses bs !! b) (status_id <$> new) = true →
  sequence_counter bs + 1 + N.of_nat (size (block_statuses bs)) < u64_max →
  ∃ bs', transition_map bs b f = Ok (bs', r) ∧ transitioned b new m bs bs'.
Proof.
  intros Hf He Ha Hroom. rewrite (transition_map_eq _ _ _ _ _ _ Hf).
  destruct (bs_removed_spec b m bs He) as [Hok Hseq Hmap Hnone Hcnt Hsz].
  destruct new as [s|].
  2:{ eexists. split; [done|]. split; [done|done| | |rewrite Hcnt; lia..].
      - exists 0. by rewrite Hmap.
      - intros x _. left. by rewrite Hmap. }
  assert (∃ bs', match block_statuses bs !! b with
      | Some old => apply_transition b (status_id old) s (bs_removed b m bs)
      | None => if allowed None (Some (status_id s))
                then Ok (insert_status b s (bs_removed b m bs))
                else Panic "Invalid transition from None"
      end = @Ok E _ bs' ∧ placed b s (bs_removed b m bs) bs') as (bs' & -> & Hp).
  { destruct (block_statuses bs !! b) as [old|] eqn:Hold.
    - apply apply_transition_spec; [done|by rewrite Hmap|rewrite Hcnt, Hmap; lia].
    - cbn [fmap option_fmap option_map] in Ha. rewrite Ha. eexists. split; [done|].
      apply placed_insert. by destruct s. }
  eexists. split; [done|]. pose proof (placed_same _ _ _ _ Hp) as Hs.
  destruct Hp as [[n Hn] Ho Hi Hc Hc1 Hsq]. rewrite Hmap in Ho, Hs. split.
  - intros Hbs. replace bs' with (set_statuses (block_statuses bs') bs') by apply set_statuses_id.
    apply (bs_ok_same (update_indexes b None (Some (status_id s))
      (set_statuses (block_statuses bs') (bs_removed b m bs)))).
    + apply bs_ok_added; [by apply Hok|by rewrite Hmap|by rewrite Hmap].
    + intros k. unfold update_indexes. autorewrite with bs. by rewrite !Hi.
    + by autorewrite with bs.
  - intros ?. by apply seq_ok_update_indexes, Hsq, Hseq.
  - exists n. by autorewrite with bs.
  - intros x Hx. autorewrite with bs. by apply Ho.
  - autorewrite with bs. rewrite Hcnt, Hmap in Hc. lia.
  - autorewrite with bs. rewrite Hcnt in Hc1. intros Hw. apply Hc1. cbn in Hw. congruence.
Qed.

(** The blocks of the map after a transition. *)
Lemma transitioned_dom b new m bs bs' x :
  active_edit (delete b (block_statuses bs)) m → transitioned b new m bs bs' →
  is_Some (block_statuses bs' !! x) ↔
    if decide (x = b) then is_Some new else is_Some (block_statuses bs !! x).
Proof using.
  intros He [_ _ [n Hn] Ho _ _]. case_decide as Hx.
  - subst. rewrite Hn. by destruct new.
  - assert (is_Some (block_statuses bs' !! x) ↔ is_Some (m !! x)) as ->.
    { destruct (Ho x Hx) as [->|(_ & n' & ->)]; [done|]. by destruct (m !! x). }
    specialize (He x). rewrite lookup_delete_ne in He by done.
    by destruct He as [->|(? & ? & ? & ? & -> & ->)].
Qed.

(** A transition between two known statuses keeps the number of blocks. *)
Lemma transitioned_size b new m bs bs' :
  active_edit (delete b (block_statuses bs)) m → transitioned b (Some new) m bs bs' →
  is_Some (block_statuses bs !! b) →
  size (block_statuses bs') = size (block_statuses bs).
Proof using.
  intros He Ht Hb. rewrite <-!size_dom. f_equal. apply set_eq. intros x. rewrite !elem_of_dom.
  rewrite (transitioned_dom b (Some new) m bs bs' x He Ht). case_decide; [subst|done].
  split; [done|by eexists].
Qed.
End transition_map.

(** [transition_map] follows the status machine: it panics exactly on a
    forbidden pair of statuses, and otherwise stores the new status (with a new
    sequence number where the status has one) or forgets the block, changes
    nothing else but the sequence numbers of waiting blocks, and keeps the
    indexes coherent and the sequence numbers unique. *)
Theorem transition_map_correct `{!SetIter BlockId} {E R} bs b (f : callback E R) new m r :
  bs_ok bs → seq_ok bs →
  sequence_counter bs + 1 + N.of_nat (size (block_statuses bs)) < u64_max →
  f (bs_get bs b) (delete b (block_statuses bs)) = Ok (new, m, r) →
  active_edit (delete b (block_statuses bs)) m →
  if allowed (status_id <$> bs_get bs b) (status_id <$> new) then
    ∃ bs', transition_map bs b f = Ok (bs', r) ∧ bs_ok bs' ∧ seq_ok bs'
      ∧ (∃ n, bs_get bs' b = set_sequence_number n <$> new)
      ∧ ∀ x, x ≠ b → bs_get bs' x = m !! x
          ∨ is_waiting m x ∧ ∃ n, bs_get bs' x = set_sequence_number n <$> m !! x
  else ∃ why, transition_map bs b f = Panic why.
Proof.
  intros Hok Hseq Hroom Hf He. unfold bs_get in *. destruct (allowed _ _) eqn:Ha.
  - destruct (transition_map_spec bs b f new m r Hf He Ha Hroom) as (bs' & Hbs' & [H1 H2 H3 H4 _ _]).
    exists bs'. split_and!; [done|by apply H1|by apply H2|done|done].
  - by eapply transition_map_forbidden.
Qed.

Lemma transition_map_correct_witness :
  let f : callback unit unit := λ _ m,
    Ok (Some (Incoming (HoBHeader (sample_header 1 (MkSlot 1 0) []))), m, tt) in
  ∃ bs', @transition_map elements_iter unit unit new_blocks_state (BlockIdV0 1) f = Ok (bs', tt)
    ∧ bs_ok bs' ∧ seq_ok bs'
    ∧ (∃ n, bs_get bs' (BlockIdV0 1) = set_sequence_number n <$>
         Some (Incoming (HoBHeader (sample_header 1 (MkSlot 1 0) []))))
    ∧ ∀ x, x ≠ BlockIdV0 1 → bs_get bs' x = (∅ : Statuses) !! x
        ∨ is_waiting ∅ x ∧ ∃ n, bs_get bs' x = set_sequence_number n <$> (∅ : Statuses) !! x.
Proof.
  intros f.
  apply (@transition_map_correct elements_iter unit unit new_blocks_state (BlockIdV0 1) f
    (Some (Incoming (HoBHeader (sample_header 1 (MkSlot 1 0) [])))) ∅ tt).
  - apply new_blocks_state_ok.
  - split; by intros *; unfold number_of; cbn; rewrite lookup_empty.
  - vm_compute. reflexivity.
  - unfold f. change (block_statuses new_blocks_state) with (∅ : Statuses).
    by rewrite delete_empty.
  - change (block_statuses new_blocks_state) with (∅ : Statuses).
    rewrite delete_empty. apply active_edit_refl.
Defined.

(** [promote_dep_tree] terminates, gives new sequence numbers to exactly the
    waiting blocks that the given block depends on, directly or not, in the
    order of their (slot, old number, id), and changes nothing else. *)
Theorem promote_dep_tree_correct `{!SetIter BlockId} {E} bs h :
  sequence_counter bs + N.of_nat (size (block_statuses bs)) ≤ u64_max →
  ∃ l bs', promote_dep_tree bs h = @Ok E _ bs'
    ∧ promotion (block_statuses bs) h l ∧ renumbered bs l bs'.
Proof. apply promote_dep_tree_spec. Qed.

Lemma promote_dep_tree_correct_witness :
  let w n d := WaitingForDependencies (HoBHeader (sample_header n (MkSlot n 0) [])) d n in
  let bs := set_statuses {[BlockIdV0 1 := w 1 ∅; BlockIdV0 2 := w 2 {[BlockIdV0 1]}]}
              (set_sequence_counter 7 new_blocks_state) in
  ∃ l bs', @promote_dep_tree elements_iter unit bs (BlockIdV0 2) = Ok bs'
    ∧ promotion (block_statuses bs) (BlockIdV0 2) l ∧ renumbered bs l bs'.
Proof.
  intros w bs. apply (@promote_dep_tree_correct elements_iter unit bs (BlockIdV0 2)).
  apply N.leb_le. vm_compute. reflexivity.
Defined.

(** The states reached from the empty one by successful transitions. *)
Inductive bs_reachable `{!SetIter BlockId} : BlocksState → Prop :=
| reach_new : bs_reachable new_blocks_state
| reach_transition {E R} bs b (f : callback E R) new m r bs' :
    bs_reachable bs →
    sequence_counter bs + 1 + N.of_nat (size (block_statuses bs)) < u64_max →
    f (bs_get bs b) (delete b (block_statuses bs)) = Ok (new, m, r) →
    active_edit (delete b (block_statuses bs)) m →
    transition_map bs b f = Ok (bs', r) → bs_reachable bs'.

(** In every reachable state each of the five indexes lists exactly the
    blocks of its status, and sequence numbers are unique and below the
    counter. *)
Theorem bs_reachable_coherent `{!SetIter BlockId} bs :
  bs_reachable bs → bs_ok bs ∧ seq_ok bs.
Proof.
  induction 1 as [|E R bs b f new m r bs' _ [IHok IHseq] Hroom Hf He Ht].
  - split; [apply new_blocks_state_ok|].
    split; by intros *; unfold number_of; cbn; rewrite lookup_empty.
  - destruct (allowed (status_id <$> block_statuses bs !! b) (status_id <$> new)) eqn:Ha.
    + destruct (transition_map_spec bs b f new m r Hf He Ha Hroom) as (bs2 & Hbs2 & Htr).
      rewrite Hbs2 in Ht. injection Ht as <-. split; by apply Htr.
    + destruct (transition_map_forbidden bs b f new m r Hf Ha) as [why Hw]. congruence.
Qed.

Lemma bs_reachable_coherent_witness :
  let s := Incoming (HoBHeader (sample_header 1 (MkSlot 1 0) [])) in
  let bs := MkBlocksState {[BlockIdV0 1 := s]} {[BlockIdV0 1]} 0 ∅ ∅ ∅ ∅ in
  bs_ok bs ∧ seq_ok bs.
Proof.
  intros s bs. apply (@bs_reachable_coherent elements_iter).
  apply (@reach_transition elements_iter unit unit new_blocks_state (BlockIdV0 1)
    (λ _ m, Ok (Some s, m, tt)) (Some s) ∅ tt).
  - constructor.
  - vm_compute. reflexivity.
  - change (block_statuses new_blocks_state) with (∅ : Statuses). by rewrite delete_empty.
  - change (block_statuses new_blocks_state) with (∅ : Statuses).
    rewrite delete_empty. apply active_edit_refl.
  - vm_compute. reflexivity.
Defined.
