(* ===== verification/ConsensusState.v ===== *)
(** * The consensus state and its queries

    [massa-consensus-worker/src/state/mod.rs]: the state shared by the consensus
    worker and its controller, with the read-only queries and the publication
    of the wishlist.

    What consensus calls outside of its crate is an interface: the selector (who
    may produce a block), the protocol channel (which may refuse a message), and
    the shared block index of [Storage].  The messages sent to the other modules
    are kept in the order of the calls in the field [sent], each with whether
    the channel took it. *)

From S2P Require Import Prelude Traversal Slots Models Storage Blocks BlocksState.

Open Scope N_scope.

(** The fields of [ConsensusConfig] that the worker reads. *)
Record ConsensusConfig : Type := MkConsensusConfig {
  genesis_timestamp : N;
  t0 : N;
  thread_count : N;
  max_discarded_blocks : N;
  max_future_processing_blocks : N;
  max_dependency_blocks : N;
  block_db_prune_interval : N;
  delta_f0 : N;
  periods_per_cycle : N;
  force_keep_final_periods : N;
  force_keep_final_periods_without_ops : N;
  stats_timespan : N;
  bootstrap_part_size : N;
  last_start_period : N }.

Record ExecutionBlockMetadata : Type := MkExecutionBlockMetadata {
  em_same_thread_parent_creator : option Address;
  em_storage : option Storage }.

(** The messages consensus sends. *)
Inductive ChannelMsg : Type :=
| IntegratedBlock (b : BlockId) (s : Storage)
| BlockAttack (b : BlockId)
| WishlistDelta (new : gmap BlockId (option SecuredHeader)) (remove : gset BlockId)
| BlockcliqueStatus (finalized : gmap Slot BlockId) (blockclique : option (gmap Slot BlockId))
    (metadata : gmap BlockId ExecutionBlockMetadata)
| FinalCsPeriods (periods : list N)
| AddDenunciationPrecursor (h : SecuredHeader)
| NeedSync.

(** The environment of one command: the configuration, the selector, the block
    index, and whether the protocol channel takes a message, which may depend
    on all that was sent before. [None] is an error of the selector. *)
Class ConsensusEnv := {
  config : ConsensusConfig;
  get_producer : Slot → option Address;
  get_selection : Slot → option Selection;
  read_blocks : BlockIndexes;
  accepts : list (ChannelMsg * bool) → ChannelMsg → bool }.

Record ConsensusState : Type := MkConsensusState {
  genesis_hashes : list BlockId;
  gi_head : gmap BlockId (gset BlockId);
  max_cliques : list Clique;
  active_index_without_ops : gset BlockId;
  save_final_periods : list N;
  latest_final_blocks_periods : list (BlockId * N);
  blocks_state : BlocksState;
  best_parents : list (BlockId * N);
  to_propagate : gmap BlockId Storage;
  attack_attempts : list BlockId;
  new_final_blocks : gset BlockId;
  new_stale_blocks : gmap BlockId (Address * Slot);
  launch_time : N;
  final_block_stats : list (N * Address * bool);
  protocol_blocks : list (N * BlockId);
  stale_block_stats : list N;
  stats_history_timespan : N;
  stats_desync_detection_timespan : N;
  wishlist : gmap BlockId (option SecuredHeader);
  prev_blockclique : gmap BlockId Slot;
  nonfinal_active_blocks_per_slot : gmap Slot (gset BlockId);
  sent : list (ChannelMsg * bool) }.

Definition set_gi_head (v : gmap BlockId (gset BlockId)) (s : ConsensusState) : ConsensusState :=
  MkConsensusState (genesis_hashes s) v (max_cliques s) (active_index_without_ops s)
    (save_final_periods s) (latest_final_blocks_periods s) (blocks_state s) (best_parents s)
    (to_propagate s) (attack_attempts s) (new_final_blocks s) (new_stale_blocks s)
    (launch_time s) (final_block_stats s) (protocol_blocks s) (stale_block_stats s)
    (stats_history_timespan s) (stats_desync_detection_timespan s) (wishlist s)
    (prev_blockclique s) (nonfinal_active_blocks_per_slot s) (sent s).
Definition set_max_cliques (v : list Clique) (s : ConsensusState) : ConsensusState :=
  MkConsensusState (genesis_hashes s) (gi_head s) v (active_index_without_ops s)
    (save_final_periods s) (latest_final_blocks_periods s) (blocks_state s) (best_parents s)
    (to_propagate s) (attack_attempts s) (new_final_blocks s) (new_stale_blocks s)
    (launch_time s) (final_block_stats s) (protocol_blocks s) (stale_block_stats s)
    (stats_history_timespan s) (stats_desync_detection_timespan s) (wishlist s)
    (prev_blockclique s) (nonfinal_active_blocks_per_slot s) (sent s).
Definition set_active_index_without_ops (v : gset BlockId) (s : ConsensusState) : ConsensusState :=
  MkConsensusState (genesis_hashes s) (gi_head s) (max_cliques s) v (save_final_periods s)
    (latest_final_blocks_periods s) (blocks_state s) (best_parents s) (to_propagate s)
    (attack_attempts s) (new_final_blocks s) (new_stale_blocks s) (launch_time s)
    (final_block_stats s) (protocol_blocks s) (stale_block_stats s) (stats_history_timespan s)
    (stats_desync_detection_timespan s) (wishlist s) (prev_blockclique s)
    (nonfinal_active_blocks_per_slot s) (sent s).
Definition set_save_final_periods (v : list N) (s : ConsensusState) : ConsensusState :=
  MkConsensusState (genesis_hashes s) (gi_head s) (max_cliques s) (active_index_without_ops s)
    v (latest_final_blocks_periods s) (blocks_state s) (best_parents s) (to_propagate s)
    (attack_attempts s) (new_final_blocks s) (new_stale_blocks s) (launch_time s)
    (final_block_stats s) (protocol_blocks s) (stale_block_stats s) (stats_history_timespan s)
    (stats_desync_detection_timespan s) (wishlist s) (prev_blockclique s)
    (nonfinal_active_blocks_per_slot s) (sent s).
Definition set_latest_final_blocks_periods (v : list (BlockId * N)) (s : ConsensusState) : ConsensusState :=
  MkConsensusState (genesis_hashes s) (gi_head s) (max_cliques s) (active_index_without_ops s)
    (save_final_periods s) v (blocks_state s) (best_parents s) (to_propagate s)
    (attack_attempts s) (new_final_blocks s) (new_stale_blocks s) (launch_time s)
    (final_block_stats s) (protocol_blocks s) (stale_block_stats s) (stats_history_timespan s)
    (stats_desync_detection_timespan s) (wishlist s) (prev_blockclique s)
    (nonfinal_active_blocks_per_slot s) (sent s).
Definition set_blocks_state (v : BlocksState) (s : ConsensusState) : ConsensusState :=
  MkConsensusState (genesis_hashes s) (gi_head s) (max_cliques s) (active_index_without_ops s)
    (save_final_periods s) (latest_final_blocks_periods s) v (best_parents s) (to_propagate s)
    (attack_attempts s) (new_final_blocks s) (new_stale_blocks s) (launch_time s)
    (final_block_stats s) (protocol_blocks s) (stale_block_stats s) (stats_history_timespan s)
    (stats_desync_detection_timespan s) (wishlist s) (prev_blockclique s)
    (nonfinal_active_blocks_per_slot s) (sent s).
Definition set_best_parents (v : list (BlockId * N)) (s : ConsensusState) : ConsensusState :=
  MkConsensusState (genesis_hashes s) (gi_head s) (max_cliques s) (active_index_without_ops s)
    (save_final_periods s) (latest_final_blocks_periods s) (blocks_state s) v (to_propagate s)
    (attack_attempts s) (new_final_blocks s) (new_stale_blocks s) (launch_time s)
    (final_block_stats s) (protocol_blocks s) (stale_block_stats s) (stats_history_timespan s)
    (stats_desync_detection_timespan s) (wishlist s) (prev_blockclique s)
    (nonfinal_active_blocks_per_slot s) (sent s).
Definition set_to_propagate (v : gmap BlockId Storage) (s : ConsensusState) : ConsensusState :=
  MkConsensusState (genesis_hashes s) (gi_head s) (max_cliques s) (active_index_without_ops s)
    (save_final_periods s) (latest_final_blocks_periods s) (blocks_state s) (best_parents s) v
    (attack_attempts s) (new_final_blocks s) (new_stale_blocks s) (launch_time s)
    (final_block_stats s) (protocol_blocks s) (stale_block_stats s) (stats_history_timespan s)
    (stats_desync_detection_timespan s) (wishlist s) (prev_blockclique s)
    (nonfinal_active_blocks_per_slot s) (sent s).
Definition set_attack_attempts (v : list BlockId) (s : ConsensusState) : ConsensusState :=
  MkConsensusState (genesis_hashes s) (gi_head s) (max_cliques s) (active_index_without_ops s)
    (save_final_periods s) (latest_final_blocks_periods s) (blocks_state s) (best_parents s)
    (to_propagate s) v (new_final_blocks s) (new_stale_blocks s) (launch_time s)
    (final_block_stats s) (protocol_blocks s) (stale_block_stats s) (stats_history_timespan s)
    (stats_desync_detection_timespan s) (wishlist s) (prev_blockclique s)
    (nonfinal_active_blocks_per_slot s) (sent s).
Definition set_new_final_blocks (v : gset BlockId) (s : ConsensusState) : ConsensusState :=
  MkConsensusState (genesis_hashes s) (gi_head s) (max_cliques s) (active_index_without_ops s)
    (save_final_periods s) (latest_final_blocks_periods s) (blocks_state s) (best_parents s)
    (to_propagate s) (attack_attempts s) v (new_stale_blocks s) (launch_time s)
    (final_block_stats s) (protocol_blocks s) (stale_block_stats s) (stats_history_timespan s)
    (stats_desync_detection_timespan s) (wishlist s) (prev_blockclique s)
    (nonfinal_active_blocks_per_slot s) (sent s).
Definition set_new_stale_blocks (v : gmap BlockId (Address * Slot)) (s : ConsensusState) : ConsensusState :=
  MkConsensusState (genesis_hashes s) (gi_head s) (max_cliques s) (active_index_without_ops s)
    (save_final_periods s) (latest_final_blocks_periods s) (blocks_state s) (best_parents s)
    (to_propagate s) (attack_attempts s) (new_final_blocks s) v (launch_time s)
    (final_block_stats s) (protocol_blocks s) (stale_block_stats s) (stats_history_timespan s)
    (stats_desync_detection_timespan s) (wishlist s) (prev_blockclique s)
    (nonfinal_active_blocks_per_slot s) (sent s).
Definition set_final_block_stats (v : list (N * Address * bool)) (s : ConsensusState) : ConsensusState :=
  MkConsensusState (genesis_hashes s) (gi_head s) (max_cliques s) (active_index_without_ops s)
    (save_final_periods s) (latest_final_blocks_periods s) (blocks_state s) (best_parents s)
    (to_propagate s) (attack_attempts s) (new_final_blocks s) (new_stale_blocks s)
    (launch_time s) v (protocol_blocks s) (stale_block_stats s) (stats_history_timespan s)
    (stats_desync_detection_timespan s) (wishlist s) (prev_blockclique s)
    (nonfinal_active_blocks_per_slot s) (sent s).
Definition set_protocol_blocks (v : list (N * BlockId)) (s : ConsensusState) : ConsensusState :=
  MkConsensusState (genesis_hashes s) (gi_head s) (max_cliques s) (active_index_without_ops s)
    (save_final_periods s) (latest_final_blocks_periods s) (blocks_state s) (best_parents s)
    (to_propagate s) (attack_attempts s) (new_final_blocks s) (new_stale_blocks s)
    (launch_time s) (final_block_stats s) v (stale_block_stats s) (stats_history_timespan s)
    (stats_desync_detection_timespan s) (wishlist s) (prev_blockclique s)
    (nonfinal_active_blocks_per_slot s) (sent s).
Definition set_stale_block_stats (v : list N) (s : ConsensusState) : ConsensusState :=
  MkConsensusState (genesis_hashes s) (gi_head s) (max_cliques s) (active_index_without_ops s)
    (save_final_periods s) (latest_final_blocks_periods s) (blocks_state s) (best_parents s)
    (to_propagate s) (attack_attempts s) (new_final_blocks s) (new_stale_blocks s)
    (launch_time s) (final_block_stats s) (protocol_blocks s) v (stats_history_timespan s)
    (stats_desync_detection_timespan s) (wishlist s) (prev_blockclique s)
    (nonfinal_active_blocks_per_slot s) (sent s).
Definition set_wishlist (v : gmap BlockId (option SecuredHeader)) (s : ConsensusState) : ConsensusState :=
  MkConsensusState (genesis_hashes s) (gi_head s) (max_cliques s) (active_index_without_ops s)
    (save_final_periods s) (latest_final_blocks_periods s) (blocks_state s) (best_parents s)
    (to_propagate s) (attack_attempts s) (new_final_blocks s) (new_stale_blocks s)
    (launch_time s) (final_block_stats s) (protocol_blocks s) (stale_block_stats s)
    (stats_history_timespan s) (stats_desync_detection_timespan s) v (prev_blockclique s)
    (nonfinal_active_blocks_per_slot s) (sent s).
Definition set_prev_blockclique (v : gmap BlockId Slot) (s : ConsensusState) : ConsensusState :=
  MkConsensusState (genesis_hashes s) (gi_head s) (max_cliques s) (active_index_without_ops s)
    (save_final_periods s) (latest_final_blocks_periods s) (blocks_state s) (best_parents s)
    (to_propagate s) (attack_attempts s) (new_final_blocks s) (new_stale_blocks s)
    (launch_time s) (final_block_stats s) (protocol_blocks s) (stale_block_stats s)
    (stats_history_timespan s) (stats_desync_detection_timespan s) (wishlist s) v
    (nonfinal_active_blocks_per_slot s) (sent s).
Definition set_nonfinal_active_blocks_per_slot (v : gmap Slot (gset BlockId)) (s : ConsensusState) : ConsensusState :=
  MkConsensusState (genesis_hashes s) (gi_head s) (max_cliques s) (active_index_without_ops s)
    (save_final_periods s) (latest_final_blocks_periods s) (blocks_state s) (best_parents s)
    (to_propagate s) (attack_attempts s) (new_final_blocks s) (new_stale_blocks s)
    (launch_time s) (final_block_stats s) (protocol_blocks s) (stale_block_stats s)
    (stats_history_timespan s) (stats_desync_detection_timespan s) (wishlist s)
    (prev_blockclique s) v (sent s).
Definition set_sent (v : list (ChannelMsg * bool)) (s : ConsensusState) : ConsensusState :=
  MkConsensusState (genesis_hashes s) (gi_head s) (max_cliques s) (active_index_without_ops s)
    (save_final_periods s) (latest_final_blocks_periods s) (blocks_state s) (best_parents s)
    (to_propagate s) (attack_attempts s) (new_final_blocks s) (new_stale_blocks s)
    (launch_time s) (final_block_stats s) (protocol_blocks s) (stale_block_stats s)
    (stats_history_timespan s) (stats_desync_detection_timespan s) (wishlist s)
    (prev_blockclique s) (nonfinal_active_blocks_per_slot s) v.

(** [self.blocks_state.get(id)] where only an active block is of interest. *)
Definition get_active (s : ConsensusState) (b : BlockId) : option ActiveBlock :=
  match bs_get (blocks_state s) b with
  | Some (Active a _) => Some a
  | _ => None
  end.

Section queries.
Context `{!SetIter BlockId, Env : ConsensusEnv}.
Implicit Types (s : ConsensusState).

(** A call that never fails. *)
Definition send (m : ChannelMsg) s : ConsensusState := set_sent (sent s ++ [(m, true)]) s.

(** A call to the protocol controller: [false] if it fails. *)
Definition try_send (m : ChannelMsg) s : bool * ConsensusState :=
  let ok := accepts (sent s) m in (ok, set_sent (sent s ++ [(m, ok)]) s).

Definition get_full_active_block s (b : BlockId) : option (ActiveBlock * StorageOrBlock) :=
  match bs_get (blocks_state s) b with
  | Some (Active a sb) => Some (a, sb)
  | _ => None
  end.

Definition try_get_full_active_block s (b : BlockId)
    : outcome ConsensusError (ActiveBlock * StorageOrBlock) :=
  ok_or (ContainerInconsistency "block is missing") (get_full_active_block s b).

Definition get_clique_count s : N := N.of_nat (length (max_cliques s)).

(** [self.max_cliques.iter().find(|c| c.is_blockclique)] *)
Definition find_blockclique s : option Clique :=
  snd <$> list_find (λ c, is_blockclique c = true) (max_cliques s).

(** [get_blockclique] of graph.rs. *)
Definition get_blockclique {E} s : outcome E (gset BlockId) :=
  c ← expect "blockclique missing" (find_blockclique s);
  Ok (block_ids c).

Definition get_blockclique_block_at_slot {E} s (slot : Slot) : outcome E (option BlockId) :=
  match BlockIndex.get_blocks_by_slot read_blocks slot with
  | None => Ok None
  | Some blocks_at_slot =>
      c ← expect "expected one clique to be the blockclique" (find_blockclique s);
      match set_iter (blocks_at_slot ∩ block_ids c) with
      | found_id :: _ => Ok (Some found_id)
      | [] =>
          Ok (snd <$> list_find (λ b, ab_is_final <$> get_active s b = Some true)
                        (set_iter blocks_at_slot))
      end
  end.

Definition get_latest_blockclique_block_at_slot {E} s (slot : Slot) : outcome E BlockId :=
  best ← expect "unexpected not found latest final block period"
           (latest_final_blocks_periods s !! N.to_nat (thread slot));
  clique ← get_blockclique s;
  best ← foldM (λ '(best_block_id, best_block_period) b,
           match get_active s b with
           | Some a =>
               if ab_is_final a then Panic "unexpected final block"
               else if (thread (ab_slot a) =? thread slot)
                       && (period (ab_slot a) <? period slot)
                       && (best_block_period <? period (ab_slot a))
               then Ok (b, period (ab_slot a))
               else Ok (best_block_id, best_block_period)
           | None => Panic "expected to find only active block"
           end) (set_iter clique) best;
  Ok best.1.

Definition get_block_status {E} s (b : BlockId) : outcome E BlockGraphStatus :=
  match bs_get (blocks_state s) b with
  | None => Ok GNotFound
  | Some (Active a _) =>
      if ab_is_final a then Ok GFinal
      else
        c ← expect "blockclique absent" (find_blockclique s);
        Ok (if bool_decide (b ∈ block_ids c) then GActiveInBlockclique
            else GActiveInAlternativeCliques)
  | Some (Discarded _ _ _ _ _) => Ok GDiscarded
  | Some (Incoming _) => Ok GIncoming
  | Some (WaitingForDependencies _ _ _) => Ok GWaitingForDependencies
  | Some (WaitingForSlot _) => Ok GWaitingForSlot
  end.

(** [vec![None; thread_count]] of the two listings below, and its conversion to
    a vector where no thread may be missing. *)
Definition no_block_per_thread : list (option (BlockId * N)) :=
  replicate (N.to_nat (thread_count config)) None.
Definition one_per_thread (what : string) (l : list (option (BlockId * N)))
    : outcome ConsensusError (list (BlockId * N)) :=
  mapM (ok_or (ContainerInconsistency what)) l.

Definition list_latest_final_blocks_at s (slot : Slot)
    : outcome ConsensusError (list (BlockId * N)) :=
  latest ← foldM (λ latest b,
      '(block, _) ← try_get_full_active_block s b;
      let p := period (ab_slot block) in
      cur ← idx latest (thread (ab_slot block));
      if match cur with Some (_, q) => p <? q | None => false end then Ok latest
      else if ab_is_final block && slot_le (ab_slot block) slot
      then idx_set latest (thread (ab_slot block)) (Some (b, p))
      else Ok latest)
    (set_iter (active_index (blocks_state s))) no_block_per_thread;
  one_per_thread "could not find latest block for thread" latest.

(** [if let Some(slot) = end_slot { if block.slot > slot { continue; } }] *)
Definition after_end (end_slot : option Slot) (slot : Slot) : bool :=
  match end_slot with
  | Some e => slot_lt e slot
  | None => false
  end.

Definition list_earliest_blocks_of s (ids : gset BlockId) (end_slot : option Slot)
    : outcome ConsensusError (list (BlockId * N)) :=
  earliest ← foldM (λ earliest b,
      '(block, _) ← try_get_full_active_block s b;
      if after_end end_slot (ab_slot block) then Ok earliest
      else
        let p := period (ab_slot block) in
        cur ← idx earliest (thread (ab_slot block));
        if match cur with Some (_, q) => q <? p | None => false end then Ok earliest
        else idx_set earliest (thread (ab_slot block)) (Some (b, p)))
    (set_iter ids) no_block_per_thread;
  one_per_thread "could not find earliest block for thread" earliest.

Definition add_active_blocks_after {E} s (kept_blocks : gset BlockId)
    (lower_bound : list (BlockId * N)) (end_slot : option Slot) : outcome E (gset BlockId) :=
  foldM (λ kept b,
      match get_full_active_block s b with
      | Some (block, _) =>
          if after_end end_slot (ab_slot block) then Ok kept
          else
            lb ← idx lower_bound (thread (ab_slot block));
            Ok (if lb.2 <=? period (ab_slot block) then kept ∪ {[b]} else kept)
      | None => Ok kept
      end)
    (set_iter (active_index (blocks_state s))) kept_blocks.

(** One round of "add parents, then fill holes". *)
Definition extend_kept s (end_slot : option Slot) (kept_blocks : gset BlockId)
    : outcome ConsensusError (gset BlockId) :=
  cumulated_parents ← foldM (λ acc b,
      '(block, _) ← try_get_full_active_block s b;
      Ok (acc ∪ list_to_set (ab_parents block).*1))
    (set_iter kept_blocks) ∅;
  let kept_blocks := kept_blocks ∪ cumulated_parents in
  earliest_blocks ← list_earliest_blocks_of s kept_blocks end_slot;
  add_active_blocks_after s kept_blocks earliest_blocks end_slot.

Definition list_required_active_blocks s (end_slot : option Slot)
    : outcome ConsensusError (gset BlockId) :=
  effective_latest_finals ←
    match end_slot with
    | Some slot => list_latest_final_blocks_at s slot
    | None => Ok (latest_final_blocks_periods s)
    end;
  let kept_blocks := list_to_set effective_latest_finals.*1 in
  kept_blocks ← add_active_blocks_after s kept_blocks effective_latest_finals end_slot;
  kept_blocks ← extend_kept s end_slot kept_blocks;
  kept_blocks ← extend_kept s end_slot kept_blocks;
  _ ← foldM (λ (_ : unit) b, _ ← try_get_full_active_block s b; Ok tt)
        (set_iter kept_blocks) tt;
  Ok kept_blocks.

(** [ExportCompiledBlock] and [BlockGraphExport] of [massa-consensus-exports]. *)
Record ExportCompiledBlock : Type := MkExportCompiledBlock {
  ex_header : SecuredHeader;
  ex_children : list (gset BlockId);
  ex_is_final : bool }.

Record BlockGraphExport : Type := MkBlockGraphExport {
  ex_genesis_blocks : list BlockId;
  ex_active_blocks : gmap BlockId ExportCompiledBlock;
  ex_discarded_blocks : gmap BlockId (DiscardReason * (Slot * Address * list BlockId));
  ex_best_parents : list (BlockId * N);
  ex_latest_final_blocks_periods : list (BlockId * N);
  ex_gi_head : gmap BlockId (gset BlockId);
  ex_max_cliques : list Clique }.

(** The [filter] closure: [slot_start] included, [slot_end] excluded. *)
Definition in_slot_range (slot_start slot_end : option Slot) (s : Slot) : bool :=
  negb (match slot_start with Some a => slot_lt s a | None => false end)
  && negb (match slot_end with Some e => slot_le e s | None => false end).

Definition extract_block_graph_part s (slot_start slot_end : option Slot)
    : outcome ConsensusError BlockGraphExport :=
  '(active, discarded) ← foldM (λ '(active, discarded) '(block_id, block),
      match block with
      | Discarded slot creator parents reason _ =>
          if in_slot_range slot_start slot_end slot
          then Ok (active, <[block_id := (reason, (slot, creator, parents))]> discarded)
          else Ok (active, discarded)
      | Active a_block storage_or_block =>
          if in_slot_range slot_start slot_end (ab_slot a_block)
          then
            b ← clone_block read_blocks storage_or_block block_id;
            Ok (<[block_id := MkExportCompiledBlock (header (content b))
                    (dom <$> ab_children a_block) (ab_is_final a_block)]> active, discarded)
          else Ok (active, discarded)
      | _ => Ok (active, discarded)
      end)
    (map_iter (block_statuses (blocks_state s))) (∅, ∅);
  Ok (MkBlockGraphExport (genesis_hashes s) active discarded (best_parents s)
        (latest_final_blocks_periods s) (gi_head s) (max_cliques s)).

Definition get_all_final_blocks s : gmap BlockId (Slot * ExecutionBlockMetadata) :=
  list_to_map (omap (λ b,
    match bs_get (blocks_state s) b with
    | Some (Active a_block storage_or_block) =>
        if ab_is_final a_block then
          Some (b, (ab_slot a_block,
            MkExecutionBlockMetadata (ab_same_thread_parent_creator a_block)
              match storage_or_block with SoBStorage st => Some st | SoBBlock _ => None end))
        else None
    | _ => None
    end) (set_iter (active_index (blocks_state s)))).

(** What one unsatisfied dependency adds to the wishlist. *)
Definition wish_entry s (unsatisfied_h : BlockId) : option (BlockId * option SecuredHeader) :=
  match bs_get (blocks_state s) unsatisfied_h with
  | Some (WaitingForDependencies (HoBHeader h) _ _) => Some (id h, Some h)
  | None => Some (unsatisfied_h, None)
  | _ => None
  end.

Definition get_block_wishlist s : gmap BlockId (option SecuredHeader) :=
  foldl (λ w b,
    match bs_get (blocks_state s) b with
    | Some (WaitingForDependencies _ unsatisfied_dependencies _) =>
        foldl (λ w u, match wish_entry s u with
                      | Some (k, h) => <[k := h]> w
                      | None => w
                      end) w (set_iter unsatisfied_dependencies)
    | _ => w
    end) ∅ (set_iter (waiting_for_dependencies_index (blocks_state s))).

(** The error carries the state the call leaves behind. *)
Definition sync_wishlist s : outcome (ConsensusError * ConsensusState) ConsensusState :=
  let new_wishlist := get_block_wishlist s in
  let new_blocks := filter (λ '(k, _), wishlist s !! k = None) new_wishlist in
  let remove_blocks := dom (filter (λ '(k, _), new_wishlist !! k = None) (wishlist s)) in
  if decide (new_blocks = ∅ ∧ remove_blocks = ∅) then Ok s
  else
    let '(ok, s) := try_send (WishlistDelta new_blocks remove_blocks) s in
    if (ok : bool) then Ok (set_wishlist new_wishlist s)
    else Err (ProtocolError "send_wishlist_delta", s).

(** The keys of [children], in the order the loop pushes them. *)
Definition children_ids (a : ActiveBlock) : list BlockId :=
  ab_children a ≫= (λ c : gmap BlockId N, set_iter (dom c)).

(** The traversal of [get_active_block_and_descendants]; the stack has its top
    first. *)
Fixpoint visit_descendants {E} (fuel : nat) s (to_visit : list BlockId) (result : gset BlockId)
    : outcome E (gset BlockId) :=
  match fuel with
  | O => OutOfFuel
  | S fuel =>
      match to_visit with
      | [] => Ok result
      | h :: to_visit =>
          if decide (h ∈ result) then visit_descendants fuel s to_visit result
          else
            match get_active s h with
            | Some a => visit_descendants fuel s (reverse (children_ids a) ++ to_visit)
                          (result ∪ {[h]})
            | None => Panic "inconsistency inside block statuses iterating through descendants"
            end
      end
  end.

(** The number of children links: with two more, the fuel of the traversal. *)
Definition children_count (st : BlockStatus) : nat :=
  match st with
  | Active a _ => length (children_ids a)
  | _ => 0%nat
  end.
Definition children_links s : nat :=
  map_sum children_count (block_statuses (blocks_state s)).

Definition get_active_block_and_descendants {E} s (b : BlockId) : outcome E (gset BlockId) :=
  visit_descendants (S (S (children_links s))) s [b] ∅.
End queries.

(** ** Descendants *)

Section descendants.
Context `{!SetIter BlockId}.
Implicit Types (s : ConsensusState).

(** The children of an active block, and nothing otherwise. *)
Definition children_of s (b : BlockId) : list BlockId :=
  match get_active s b with
  | Some a => children_ids a
  | None => []
  end.

Lemma get_active_Some s b a :
  get_active s b = Some a ↔ ∃ sb, block_statuses (blocks_state s) !! b = Some (Active a sb).
Proof using.
  unfold get_active, bs_get. destruct (block_statuses (blocks_state s) !! b) as [[]|];
    naive_solver.
Qed.

Lemma visit_descendants_spec {E} fuel s roots stack visited :
  trav_inv (children_of s) roots stack visited →
  (∀ x, reach (children_of s) roots x → is_Some (get_active s x)) →
  (length stack + sum_outside children_count (block_statuses (blocks_state s)) visited
    < fuel)%nat →
  ∃ r, visit_descendants fuel s stack visited = @Ok E _ r
    ∧ ∀ x, x ∈ r ↔ reach (children_of s) roots x.
Proof.
  revert stack visited. induction fuel as [|fuel IH]; intros stack visited Hinv Hact Hf; [lia|].
  destruct stack as [|x stack]; [exists visited; split; [done|by apply trav_done]|].
  cbn [visit_descendants length] in *. case_decide as Hx.
  { apply IH; [by eapply trav_skip|done|lia]. }
  destruct (Hact x) as [a Ha]; [by eapply ti_stack; [done|left]|]. rewrite Ha.
  apply IH; [|done|].
  - eapply trav_push; [done|]. intros y. unfold children_of. rewrite Ha.
    by rewrite elem_of_app, elem_of_reverse.
  - apply get_active_Some in Ha as [sb Hb]. rewrite length_app, length_reverse.
    rewrite (sum_outside_visit _ _ _ x _ Hb) in Hf by done. cbn in Hf. lia.
Qed.

(** The same traversal never runs out of fuel, whatever the state. *)
Lemma visit_descendants_fuel {E} fuel s stack visited :
  (length stack + sum_outside children_count (block_statuses (blocks_state s)) visited
    < fuel)%nat →
  visit_descendants fuel s stack visited ≠ @OutOfFuel E _.
Proof.
  revert stack visited. induction fuel as [|fuel IH]; intros stack visited Hf; [lia|].
  destruct stack as [|x stack]; [done|]. cbn [visit_descendants length] in *.
  case_decide as Hx; [apply IH; lia|]. destruct (get_active s x) as [a|] eqn:Ha; [|done].
  apply IH. apply get_active_Some in Ha as [sb Hb]. rewrite length_app, length_reverse.
  rewrite (sum_outside_visit _ _ _ x _ Hb) in Hf by done. cbn in Hf. lia.
Qed.

Lemma descendants_spec {E} s b :
  (∀ x, reach (children_of s) [b] x → is_Some (get_active s x)) →
  ∃ r, get_active_block_and_descendants s b = @Ok E _ r
    ∧ ∀ x, x ∈ r ↔ reach (children_of s) [b] x.
Proof.
  intros Hact. apply visit_descendants_spec; [by apply trav_init|done|].
  unfold children_links. rewrite sum_outside_empty. cbn. lia.
Qed.

(** What a returned set is, whatever the state. *)
Lemma descendants_Ok {E} s b r :
  get_active_block_and_descendants s b = @Ok E _ r →
  (∀ x, x ∈ r ↔ reach (children_of s) [b] x) ∧ ∀ x, x ∈ r → is_Some (get_active s x).
Proof.
  unfold get_active_block_and_descendants.
  assert (∀ fuel stack visited, trav_inv (children_of s) [b] stack visited →
    (∀ x, x ∈ visited → is_Some (get_active s x)) →
    visit_descendants fuel s stack visited = @Ok E _ r →
    (∀ x, x ∈ r ↔ reach (children_of s) [b] x) ∧ ∀ x, x ∈ r → is_Some (get_active s x)) as Hgen.
  { induction fuel as [|fuel IH]; intros stack visited Hinv Hv Hr; [done|].
    destruct stack as [|x stack]; cbn [visit_descendants] in Hr.
    { injection Hr as ->. split; [by apply trav_done|done]. }
    case_decide as Hx; [by eapply IH; [by eapply trav_skip|done|done]|].
    destruct (get_active s x) as [a|] eqn:Ha; [|done]. eapply IH; [| |done].
    - eapply trav_push; [done|]. intros y. unfold children_of. rewrite Ha.
      by rewrite elem_of_app, elem_of_reverse.
    - intros y [Hy| ->%elem_of_singleton]%elem_of_union; [by apply Hv|by rewrite Ha]. }
  intros Hr. eapply Hgen; [by apply trav_init| |done]. set_solver.
Qed.
End descendants.
