(* ===== verification/Graph.v ===== *)
(** * Updates of the block graph

    [massa-consensus-worker/src/state/graph.rs]: links between blocks, fitness of
    the cliques, and the stale and final blocks.

    The functions that the code declares on [&mut self] take and return the
    state.  An error or a panic of these functions makes the node panic, so the
    state they leave behind is not kept.  The code sorts the indices of
    [max_cliques]; the model sorts the cliques by the same keys. *)

From Stdlib Require Import ZArith.
From S2P Require Import Prelude Traversal Slots Models Storage Blocks BlocksState ConsensusState.

Open Scope N_scope.

(** [if let Some(BlockStatus::Active { a_block, .. }) = blocks_state.get_mut(b)]:
    update the block in place, or do nothing. *)
Definition statuses_update_active (f : ActiveBlock → ActiveBlock) (m : Statuses) (b : BlockId)
    : Statuses :=
  match m !! b with
  | Some (Active a sb) => <[b := Active (f a) sb]> m
  | _ => m
  end.
Definition update_active (f : ActiveBlock → ActiveBlock) (s : ConsensusState) (b : BlockId)
    : ConsensusState :=
  set_blocks_state
    (set_statuses (statuses_update_active f (block_statuses (blocks_state s)) b)
       (blocks_state s)) s.

(** [a.children[thread].insert(b, period)] and [.remove(b)] *)
Definition insert_child {E} (b : BlockId) (slot : Slot) (a : ActiveBlock)
    : outcome E (list (gmap BlockId N)) :=
  c ← idx (ab_children a) (thread slot);
  idx_set (ab_children a) (thread slot) (<[b := period slot]> c).
Definition remove_child {E} (b : BlockId) (slot : Slot) (a : ActiveBlock)
    : outcome E (list (gmap BlockId N)) :=
  c ← idx (ab_children a) (thread slot);
  idx_set (ab_children a) (thread slot) (delete b c).

(** The part of a map update that can panic, for one parent. *)
Definition edit_children {E} (edit : ActiveBlock → outcome E (list (gmap BlockId N)))
    (m : Statuses) (parent_h : BlockId) : outcome E Statuses :=
  match m !! parent_h with
  | Some (Active a _) =>
      c ← edit a;
      Ok (statuses_update_active (ab_set_children c) m parent_h)
  | _ => Ok m
  end.

Section graph.
Context `{!SetIter BlockId, Env : ConsensusEnv}.
Implicit Types (s : ConsensusState).

(** The last loop of [insert_parents_descendants].  The deque is a list with its
    back first: [pop_back] takes the head and [push_front] appends. *)
Fixpoint insert_descendant {E} (fuel : nat) (add_block_id : BlockId) s
    (ancestors : list BlockId) (visited : gset BlockId) : outcome E ConsensusState :=
  match fuel with
  | O => OutOfFuel
  | S fuel =>
      match ancestors with
      | [] => Ok s
      | ancestor_h :: ancestors =>
          if decide (ancestor_h ∈ visited)
          then insert_descendant fuel add_block_id s ancestors visited
          else
            let visited := visited ∪ {[ancestor_h]} in
            match get_active s ancestor_h with
            | Some ab =>
                if ab_is_final ab
                then insert_descendant fuel add_block_id s ancestors visited
                else
                  let s := update_active
                    (λ a, ab_set_descendants (ab_descendants a ∪ {[add_block_id]}) a)
                    s ancestor_h in
                  insert_descendant fuel add_block_id s (ancestors ++ (ab_parents ab).*1) visited
            | None => insert_descendant fuel add_block_id s ancestors visited
            end
      end
  end.

(** The parent links of the active blocks bound the loop. *)
Definition parent_count (st : BlockStatus) : nat :=
  match st with
  | Active a _ => length (ab_parents a)
  | _ => 0%nat
  end.
Definition parent_links (m : Statuses) : nat := map_sum parent_count m.

Definition insert_parents_descendants {E} (add_block_id : BlockId) (add_block_slot : Slot)
    (parents_hash : list BlockId) s : outcome E ConsensusState :=
  m ← foldM (edit_children (insert_child add_block_id add_block_slot)) parents_hash
        (block_statuses (blocks_state s));
  let s := set_blocks_state (set_statuses m (blocks_state s)) s in
  let same_thread_parent_creator :=
    parents_hash !! N.to_nat (thread add_block_slot)
      ≫= λ parent_id, ab_creator_address <$> get_active s parent_id in
  match get_active s add_block_id with
  | None => Panic "block status should be active"
  | Some _ =>
      let s := update_active (ab_set_parent_creator same_thread_parent_creator) s add_block_id in
      insert_descendant
        (S (length parents_hash + parent_links (block_statuses (blocks_state s))))
        add_block_id s (reverse parents_hash) ∅
  end.

(** The value [num::BigInt::from_bytes_be(Plus, serialize(block_id))]. *)
Definition block_id_bigint (b : BlockId) : Z := Z.of_N (from_be_bytes (serialize_block_id b)).

(** The pair (fitness, minus the sum of the ids) of one clique. *)
Definition clique_fitness s (c : Clique) : outcome ConsensusError (N * Z) :=
  foldM (λ '(fit, sum_hash) block_h,
      match get_active s block_h with
      | Some a =>
          fit ← ok_or FitnessOverflow (checked_add u64_max fit (ab_fitness a));
          Ok (fit, (sum_hash - block_id_bigint block_h)%Z)
      | None => Err (ContainerInconsistency
                  "inconsistency inside block statuses computing fitness")
      end) (set_iter (block_ids c)) (0, 0%Z).

(** [cur_fit > max_clique_fitness] on the pairs. *)
Definition fitness_lt (a b : N * Z) : bool :=
  (a.1 <? b.1) || ((a.1 =? b.1) && (a.2 <? b.2)%Z).

(** One round of the loop: the cliques done so far, the index and fitness of
    the best one. *)
Definition fitness_step s (acc : list Clique * nat * (N * Z)) (c : Clique)
    : outcome ConsensusError (list Clique * nat * (N * Z)) :=
  let '(done, best_i, best) := acc in
  cur_fit ← clique_fitness s c;
  let done' := done ++ [MkClique (block_ids c) cur_fit.1 false] in
  if fitness_lt best cur_fit then Ok (done', length done, cur_fit)
  else Ok (done', best_i, best).

Definition set_blockclique (c : Clique) : Clique := MkClique (block_ids c) (fitness c) true.

Definition compute_fitness_find_blockclique s
    : outcome ConsensusError (nat * ConsensusState) :=
  '(cliques, blockclique_i, _) ← foldM (fitness_step s) (max_cliques s) ([], 0%nat, (0, 0%Z));
  c ← idx cliques (N.of_nat blockclique_i);
  cliques ← idx_set cliques (N.of_nat blockclique_i) (set_blockclique c);
  Ok (blockclique_i, set_max_cliques cliques s).

Definition clique_len (c : Clique) : N := N.of_nat (size (block_ids c)).

Definition list_stale_blocks s (fitness_threshold : N) : gset BlockId :=
  let '(high_set, low_set) :=
    foldl (λ '(high, low) c,
        if fitness_threshold <=? fitness c then (high ∪ block_ids c, low)
        else (high, low ∪ block_ids c))
      (∅, ∅) (sort_unstable_by_key_rev clique_len (max_cliques s)) in
  low_set ∖ high_set.

(** Remove a block from [gi_head]. *)
Definition remove_from_gi_head (b : BlockId) (gi : gmap BlockId (gset BlockId))
    : gmap BlockId (gset BlockId) :=
  match gi !! b with
  | None => gi
  | Some other_incomps =>
      foldl (λ gi other, alter (λ l, l ∖ {[b]}) other gi) (delete b gi) (set_iter other_incomps)
  end.

(** Remove a block of fitness [f] from the cliques. *)
Definition remove_from_clique (b : BlockId) (f : N) (c : Clique) : Clique :=
  if decide (b ∈ block_ids c)
  then MkClique (block_ids c ∖ {[b]}) (wrapping_sub u64_max (fitness c) f) (is_blockclique c)
  else c.
Definition remove_from_cliques (b : BlockId) (f : N) (cliques : list Clique) : list Clique :=
  match filter (λ c, block_ids c ≠ ∅) (remove_from_clique b f <$> cliques) with
  | [] => [MkClique ∅ 0 true]
  | l => l
  end.

(** The closure of [remove_block]: it edits [gi_head], [max_cliques] and
    [new_stale_blocks] besides the statuses. *)
Definition remove_block_closure {E} (block_id : BlockId) s : callback E ConsensusState :=
  λ block_status m,
  match block_status with
  | Some (Active active_block _) =>
      if ab_is_final active_block then Panic "block was already final"
      else
        m ← foldM (edit_children (remove_child block_id (ab_slot active_block)))
              (ab_parents active_block).*1 m;
        Ok (Some (Discarded (ab_slot active_block) (ab_creator_address active_block)
                    (ab_parents active_block).*1 Stale (sequence_counter (blocks_state s))), m,
            set_new_stale_blocks
              (<[block_id := (ab_creator_address active_block, ab_slot active_block)]>
                 (new_stale_blocks s))
              (set_max_cliques
                 (remove_from_cliques block_id (ab_fitness active_block) (max_cliques s))
                 (set_gi_head (remove_from_gi_head block_id (gi_head s)) s)))
  | _ => Panic "block is missing"
  end.

Definition remove_block {E} (block_id : BlockId) s : outcome E ConsensusState :=
  '(bs, s) ← transition_map (blocks_state s) block_id (remove_block_closure block_id s);
  Ok (set_blocks_state bs s).

(** The intersection of all cliques, from the smallest to the largest, which
    stops once it is empty. *)
Definition final_candidates (sorted : list Clique) : gset BlockId :=
  match sorted with
  | [] => ∅
  | c :: rest =>
      foldl (λ cand c, if decide (cand = ∅) then cand else cand ∩ block_ids c)
        (block_ids c) rest
  end.

(** [.sum()] of the fitness of the descendants of a candidate in a clique. *)
Definition descendants_fitness s (descendants clique : gset BlockId) : N :=
  foldl (λ acc h, wrapping_add u64_max acc (default 0 (ab_fitness <$> get_active s h)))
    0 (set_iter (descendants ∩ clique)).

(** The candidates of one clique. *)
Definition final_step s (acc : gset BlockId * gset BlockId) (c : Clique)
    : outcome ConsensusError (gset BlockId * gset BlockId) :=
  let '(cand, final_blocks) := acc in
  if decide (cand = ∅) then Ok acc
  else
    foldM (λ '(cand, final_blocks) h,
        match get_active s h with
        | None => Err (MissingBlock "missing block when computing total fitness of descendants")
        | Some a =>
            if delta_f0 config <? descendants_fitness s (ab_descendants a) (block_ids c)
            then Ok (cand ∖ {[h]}, final_blocks ∪ {[h]})
            else Ok (cand, final_blocks)
        end) (set_iter cand) (cand, final_blocks).

Definition list_final_blocks s : outcome ConsensusError (gset BlockId) :=
  let by_len := sort_unstable_by_key clique_len (max_cliques s) in
  match by_len with
  | [] => Panic "expected at least one clique"
  | _ =>
      let candidates := final_candidates by_len in
      let high := filter (λ c, delta_f0 config < fitness c) by_len in
      let by_fitness := sort_unstable_by_key_rev fitness high in
      '(_, final_blocks) ← foldM (final_step s) by_fitness (candidates, ∅);
      Ok final_blocks
  end.

(** The update of [latest_final_blocks_periods] by a final block. *)
Definition note_final (b : BlockId) (slot : Slot) s : outcome ConsensusError ConsensusState :=
  latest ← idx (latest_final_blocks_periods s) (thread slot);
  if latest.2 <? period slot then
    l ← idx_set (latest_final_blocks_periods s) (thread slot) (b, period slot);
    Ok (set_latest_final_blocks_periods l s)
  else Ok s.

Definition mark_final_block s (b : BlockId) : outcome ConsensusError ConsensusState :=
  let s := set_gi_head (remove_from_gi_head b (gi_head s)) s in
  match get_active s b with
  | None => Err (ContainerInconsistency "inconsistency inside block statuses updating final blocks")
  | Some final_block =>
      let s := update_active ab_set_final s b in
      let s := set_max_cliques
        (remove_from_cliques b (ab_fitness final_block) (max_cliques s)) s in
      s ← note_final b (ab_slot final_block) s;
      Ok (set_new_final_blocks (new_final_blocks s ∪ {[b]}) s)
  end.

Definition mark_final_blocks (final_blocks : gset BlockId) s
    : outcome ConsensusError ConsensusState :=
  foldM mark_final_block (set_iter final_blocks) s.
End graph.

(** ** Fitness *)

Definition fitness_of (s : ConsensusState) (b : BlockId) : N :=
  default 0 (ab_fitness <$> get_active s b).
(** The total fitness of a set of blocks, and the sum of their ids. *)
Definition weight (s : ConsensusState) (C : gset BlockId) : N := set_sum (fitness_of s) C.
Definition id_sum (C : gset BlockId) : N := set_sum (λ b, from_be_bytes (serialize_block_id b)) C.

(** What makes a clique the better one. *)
Definition clique_score (s : ConsensusState) (c : Clique) : N * Z :=
  (weight s (block_ids c), (- Z.of_N (id_sum (block_ids c)))%Z).

Definition all_active (s : ConsensusState) (C : gset BlockId) : Prop :=
  ∀ b, b ∈ C → is_Some (get_active s b).

Section fitness_lemmas.
Context `{!SetIter BlockId, Env : ConsensusEnv}.
Implicit Types (s : ConsensusState).

Lemma clique_fitness_list s l fit sum :
  (∀ b, b ∈ l → is_Some (get_active s b)) →
  fit + list_sum (fitness_of s) l ≤ u64_max →
  foldM (λ '(fit, sum_hash) block_h,
      match get_active s block_h with
      | Some a =>
          fit ← ok_or FitnessOverflow (checked_add u64_max fit (ab_fitness a));
          Ok (fit, (sum_hash - block_id_bigint block_h)%Z)
      | None => Err (ContainerInconsistency
                  "inconsistency inside block statuses computing fitness")
      end) l (fit, sum)
  = Ok (fit + list_sum (fitness_of s) l,
        (sum - Z.of_N (list_sum (λ b, from_be_bytes (serialize_block_id b)) l))%Z).
Proof using.
  revert fit sum. induction l as [|b l IH]; intros fit sum Ha Hb; cbn [foldM list_sum] in *.
  { do 2 f_equal; lia. }
  destruct (Ha b) as [a Hab]; [by left|]. rewrite Hab.
  assert (fitness_of s b = ab_fitness a) as Hf by (unfold fitness_of; by rewrite Hab).
  rewrite Hf in *. unfold checked_add. destruct (N.leb_spec (fit + ab_fitness a) u64_max); [|lia].
  cbn [ok_or mbind outcome_bind]. rewrite IH.
  - unfold block_id_bigint. do 2 f_equal; lia.
  - intros c Hc. apply Ha. by right.
  - lia.
Qed.

Lemma clique_fitness_spec s c :
  all_active s (block_ids c) → weight s (block_ids c) ≤ u64_max →
  clique_fitness s c = Ok (clique_score s c).
Proof.
  intros Ha Hw. unfold clique_fitness. rewrite clique_fitness_list.
  - unfold clique_score, weight, id_sum. rewrite !set_sum_iter. do 2 f_equal; lia.
  - intros b Hb%elem_of_set_iter. by apply Ha.
  - rewrite set_sum_iter. unfold weight in Hw. lia.
Qed.

(** The clique with its fitness computed. *)
Definition scored s (c : Clique) : Clique := MkClique (block_ids c) (weight s (block_ids c)) false.

(** The index the loop ends with: the first clique of the best score, scores
    that do not beat zero being ignored. *)
Definition best_upto s (l : list Clique) (i : nat) (best : N * Z) : Prop :=
  ((i = 0%nat ∧ best = (0, 0%Z)) ∨ ∃ c, l !! i = Some c ∧ clique_score s c = best
     ∧ fitness_lt (0, 0%Z) best = true)
  ∧ (∀ j c, l !! j = Some c → fitness_lt best (clique_score s c) = false)
  ∧ ∀ j c, (j < i)%nat → l !! j = Some c → fitness_lt (clique_score s c) best = true.

Lemma fitness_lt_spec a b :
  fitness_lt a b = true ↔ a.1 < b.1 ∨ (a.1 = b.1 ∧ (a.2 < b.2)%Z).
Proof using.
  unfold fitness_lt. rewrite orb_true_iff, andb_true_iff, N.ltb_lt, N.eqb_eq, Z.ltb_lt. done.
Qed.

Lemma fitness_lt_trans a b c :
  fitness_lt a b = true → fitness_lt b c = true → fitness_lt a c = true.
Proof using. rewrite !fitness_lt_spec. lia. Qed.

Lemma fitness_lt_weaken a b c :
  fitness_lt a b = true → fitness_lt a c = false → fitness_lt c b = true.
Proof using. rewrite <-not_true_iff_false, !fitness_lt_spec. lia. Qed.

Lemma fitness_loop_spec s l :
  (∀ c, c ∈ l → all_active s (block_ids c) ∧ weight s (block_ids c) ≤ u64_max) →
  ∃ i best, foldM (fitness_step s) l ([], 0%nat, (0, 0%Z)) = Ok (scored s <$> l, i, best)
    ∧ best_upto s l i best.
Proof.
  intros Hl.
  destruct (foldM_total (λ pre '(done, i, best), done = scored s <$> pre ∧ best_upto s pre i best)
    (fitness_step s) l ([], 0%nat, (0, 0%Z))) as ([[done i] best] & Hf & -> & Hb).
  - split; [done|]. split_and!; [by left|by intros j c; rewrite lookup_nil|].
    intros j c _. by rewrite lookup_nil.
  - intros pre c post [[done i] best] Hpre (-> & Hi & Hmax & Hfirst). unfold fitness_step.
    destruct (Hl c) as [Hac Hw]; [rewrite Hpre; set_solver|].
    rewrite clique_fitness_spec by done. cbn [mbind outcome_bind].
    assert (∀ j c', (pre ++ [c]) !! j = Some c' →
      pre !! j = Some c' ∨ j = length pre ∧ c' = c) as Hsnoc.
    { intros j c' [Hj|[Hj Hc']]%lookup_app_Some; [by left|].
      apply list_lookup_singleton_Some in Hc' as [? <-]. right. split; [lia|done]. }
    destruct (fitness_lt best (clique_score s c)) eqn:Hlt.
    + eexists. split; [done|]. split; [by rewrite fmap_app|]. rewrite length_fmap.
      split_and!.
      * right. exists c. split_and!; [by apply list_lookup_middle|done|].
        destruct Hi as [[_ ->]|(c0 & _ & _ & H0)]; [done|by eapply fitness_lt_trans].
      * intros j c' [Hj|[_ ->]]%Hsnoc.
        -- apply Hmax in Hj. apply not_true_iff_false. intros Hgt.
           rewrite (fitness_lt_trans _ _ _ Hlt Hgt) in Hj. done.
        -- apply not_true_iff_false. rewrite fitness_lt_spec. lia.
      * intros j c' Hji [Hj|[-> _]]%Hsnoc; [|lia]. apply Hmax in Hj. by eapply fitness_lt_weaken.
    + eexists. split; [done|]. split; [by rewrite fmap_app|]. split_and!.
      * destruct Hi as [Hi|(c0 & Hc0 & ?)]; [by left|right]. exists c0.
        split; [by apply lookup_app_l_Some|done].
      * intros j c' [Hj|[_ ->]]%Hsnoc; [by eapply Hmax|done].
      * intros j c' Hji [Hj|[-> ->]]%Hsnoc; [by eapply Hfirst|].
        destruct Hi as [[-> _]|(c0 & Hc0 & _)]; [lia|]. apply lookup_lt_Some in Hc0. lia.
  - exists i, best. done.
Qed.
End fitness_lemmas.

Section graph_lemmas.
Context `{!SetIter BlockId, Env : ConsensusEnv}.
Implicit Types (s : ConsensusState).

(** Blocks count for at least one. *)
Definition fitness_pos s : Prop := ∀ b a, get_active s b = Some a → 1 ≤ ab_fitness a.

Lemma weight_pos s C b :
  fitness_pos s → all_active s C → b ∈ C → 1 ≤ weight s C.
Proof using.
  intros Hp Ha Hb. unfold weight. pose proof (set_sum_pos (fitness_of s) C b Hb) as Hs.
  destruct (Ha b Hb) as [a Hab]. apply Hp in Hab as H1. unfold fitness_of in Hs at 1.
  rewrite Hab in Hs. cbn in Hs. lia.
Qed.

Lemma score_zero s c :
  fitness_pos s → all_active s (block_ids c) →
  fitness_lt (0, 0%Z) (clique_score s c) = false → clique_score s c = (0, 0%Z).
Proof using.
  intros Hp Ha Hlt. rewrite <-not_true_iff_false, fitness_lt_spec in Hlt.
  unfold clique_score in *. cbn in Hlt.
  destruct (set_choose_or_empty (block_ids c)) as [[b Hb]|He%leibniz_equiv].
  - pose proof (weight_pos s (block_ids c) b Hp Ha Hb). lia.
  - rewrite He. unfold weight, id_sum. by rewrite !set_sum_empty.
Qed.

(** The state after the fitnesses are computed: clique [i] is the blockclique. *)
Definition scored_cliques s (i : nat) : list Clique :=
  alter set_blockclique i (scored s <$> max_cliques s).

Lemma compute_fitness_spec s :
  max_cliques s ≠ [] → fitness_pos s →
  (∀ c, c ∈ max_cliques s → all_active s (block_ids c) ∧ weight s (block_ids c) ≤ u64_max) →
  ∃ i c, max_cliques s !! i = Some c
    ∧ compute_fitness_find_blockclique s = Ok (i, set_max_cliques (scored_cliques s i) s)
    ∧ ∀ c', c' ∈ max_cliques s → fitness_lt (clique_score s c) (clique_score s c') = false.
Proof.
  intros Hne Hp Hl.
  destruct (fitness_loop_spec s (max_cliques s) Hl) as (i & best & Hf & Hi & Hmax & _).
  assert (∃ c, max_cliques s !! i = Some c ∧
    ∀ c', c' ∈ max_cliques s → fitness_lt (clique_score s c) (clique_score s c') = false)
    as (c & Hc & Hbest).
  { destruct Hi as [[-> ->]|(c & Hc & <- & _)].
    - destruct (max_cliques s) as [|c l] eqn:Hcl; [done|]. exists c. split; [done|].
      assert (∀ c', c' ∈ c :: l → clique_score s c' = (0, 0%Z)) as H0.
      { intros c' Hc'. apply list_elem_of_lookup_1 in Hc' as [j Hj].
        apply score_zero; [done| |by eapply Hmax].
        apply Hl. by eapply list_elem_of_lookup_2. }
      intros c' Hc'. rewrite (H0 c') by done. rewrite (H0 c) by (by left). done.
    - exists c. split; [done|]. intros c' [j Hj]%list_elem_of_lookup_1. by eapply Hmax. }
  exists i, c. split; [done|]. split; [|done].
  unfold compute_fitness_find_blockclique. rewrite Hf. cbn [mbind outcome_bind].
  pose proof (lookup_lt_Some _ _ _ Hc) as Hlt.
  unfold idx, idx_set. rewrite Nat2N.id, list_lookup_fmap, Hc. cbn [fmap option_fmap option_map expect mbind outcome_bind].
  rewrite length_fmap. destruct (N.ltb_spec (N.of_nat i) (N.of_nat (length (max_cliques s)))); [|lia].
  cbn [mbind outcome_bind]. unfold scored_cliques. do 3 f_equal.
  symmetry. apply list_eq. intros j. destruct (decide (i = j)) as [<-|Hij].
  - rewrite list_lookup_alter_eq, list_lookup_insert_eq, list_lookup_fmap, Hc by (by rewrite length_fmap).
    done.
  - by rewrite list_lookup_alter_ne, list_lookup_insert_ne.
Qed.

Lemma list_stale_blocks_spec s t b :
  b ∈ list_stale_blocks s t ↔
    (∃ c, c ∈ max_cliques s ∧ b ∈ block_ids c)
    ∧ ∀ c, c ∈ max_cliques s → b ∈ block_ids c → fitness c < t.
Proof using.
  unfold list_stale_blocks.
  set (l := sort_unstable_by_key_rev clique_len (max_cliques s)).
  assert (∀ c, c ∈ max_cliques s ↔ c ∈ l) as Hl
    by (intros c; unfold l; by rewrite sort_unstable_by_key_rev_perm).
  set (step := λ '(high, low) (c : Clique),
        if t <=? fitness c then (high ∪ block_ids c, low) else (high, low ∪ block_ids c)).
  assert (∀ l h0 l0, let '(high, low) := foldl step (h0, l0) l in
    (b ∈ high ↔ b ∈ h0 ∨ ∃ c, c ∈ l ∧ b ∈ block_ids c ∧ t ≤ fitness c)
    ∧ (b ∈ low ↔ b ∈ l0 ∨ ∃ c, c ∈ l ∧ b ∈ block_ids c ∧ fitness c < t)) as Hfold.
  { clear. induction l as [|c l IH]; intros h0 l0; cbn [foldl].
    - set_solver.
    - unfold step at 2. destruct (N.leb_spec t (fitness c)).
      + specialize (IH (h0 ∪ block_ids c) l0). destruct (foldl step _ l) as [high low].
        destruct IH as [-> ->]. rewrite elem_of_union. split; split.
        * intros [[?|?]|(c' & ? & ?)]; [by left|right; exists c; set_solver|right; exists c'; set_solver].
        * intros [?|(c' & [->|?]%elem_of_cons & ? & ?)]; [auto|auto|right; eauto].
        * intros [?|(c' & ? & ?)]; [by left|right; exists c'; set_solver].
        * intros [?|(c' & [->|?]%elem_of_cons & ? & ?)]; [auto|lia|right; eauto].
      + specialize (IH h0 (l0 ∪ block_ids c)). destruct (foldl step _ l) as [high low].
        destruct IH as [-> ->]. rewrite elem_of_union. split; split.
        * intros [?|(c' & ? & ?)]; [by left|right; exists c'; set_solver].
        * intros [?|(c' & [->|?]%elem_of_cons & ? & ?)]; [auto|lia|right; eauto].
        * intros [[?|?]|(c' & ? & ?)]; [by left|right; exists c; set_solver|right; exists c'; set_solver].
        * intros [?|(c' & [->|?]%elem_of_cons & ? & ?)]; [auto|auto|right; eauto]. }
  specialize (Hfold l ∅ ∅). destruct (foldl step (∅, ∅) l) as [high low].
  destruct Hfold as [Hh Hlo]. rewrite elem_of_difference, Hh, Hlo. split.
  - intros [[?|(c & Hc & Hb & Hf)] Hn]; [set_solver|]. split; [exists c; by rewrite Hl|].
    intros c' Hc' Hb'. apply N.nle_gt. intros Hle. apply Hn. right. exists c'. by rewrite <-Hl.
  - intros [(c & Hc & Hb) Hall]. split.
    + right. exists c. rewrite <-Hl. auto.
    + intros [?|(c' & Hc'%Hl & Hb' & Hle)]; [set_solver|]. specialize (Hall c' Hc' Hb'). lia.
Qed.
End graph_lemmas.

Section final_lemmas.
Context `{!SetIter BlockId, Env : ConsensusEnv}.
Implicit Types (s : ConsensusState).

(** The test of one candidate in one clique. *)
Definition final_in s (c : Clique) (b : BlockId) : Prop :=
  ∃ a, get_active s b = Some a
    ∧ delta_f0 config < descendants_fitness s (ab_descendants a) (block_ids c).

#[local] Instance final_in_dec s c b : Decision (final_in s c b).
Proof.
  unfold final_in. destruct (get_active s b) as [a|].
  - destruct (decide (delta_f0 config < descendants_fitness s (ab_descendants a) (block_ids c)));
      [left; eauto|right; naive_solver].
  - right. naive_solver.
Defined.

Lemma final_candidates_spec l b :
  l ≠ [] → b ∈ final_candidates l ↔ ∀ c, c ∈ l → b ∈ block_ids c.
Proof using.
  destruct l as [|c l]; [done|]. intros _. unfold final_candidates.
  assert (∀ X, b ∈ foldl (λ cand c, if decide (cand = ∅) then cand else cand ∩ block_ids c) X l
    ↔ b ∈ X ∧ ∀ c, c ∈ l → b ∈ block_ids c) as Hfold.
  { induction l as [|c' l IH]; intros X; cbn [foldl]; [set_solver|].
    rewrite IH. case_decide as HX; [subst; set_solver|]. set_solver. }
  rewrite Hfold. set_solver.
Qed.

(** The loop over the candidates of one clique. *)
Lemma final_step_spec s c cand fin :
  all_active s cand →
  ∃ cand' fin', final_step s (cand, fin) c = Ok (cand', fin')
    ∧ (∀ b, b ∈ cand' ↔ b ∈ cand ∧ ¬ final_in s c b)
    ∧ ∀ b, b ∈ fin' ↔ b ∈ fin ∨ b ∈ cand ∧ final_in s c b.
Proof.
  intros Ha. unfold final_step. case_decide as Hc.
  { subst. exists ∅, fin. split; [done|]. set_solver. }
  destruct (foldM_total (λ pre '(cand', fin'),
      (∀ b, b ∈ cand' ↔ b ∈ cand ∧ ¬ (b ∈ pre ∧ final_in s c b))
      ∧ ∀ b, b ∈ fin' ↔ b ∈ fin ∨ b ∈ pre ∧ final_in s c b)
    (λ '(cand, final_blocks) h,
        match get_active s h with
        | None => Err (MissingBlock "missing block when computing total fitness of descendants")
        | Some a =>
            if delta_f0 config <? descendants_fitness s (ab_descendants a) (block_ids c)
            then Ok (cand ∖ {[h]}, final_blocks ∪ {[h]})
            else Ok (cand, final_blocks)
        end) (set_iter cand) (cand, fin)) as ([cand' fin'] & Hf & Hc' & Hf').
  - split; set_solver.
  - intros pre h post [cand' fin'] Hpre [IHc IHf].
    assert (h ∈ cand) as Hh by (rewrite <-elem_of_set_iter, Hpre; set_solver).
    destruct (Ha h Hh) as [a Hab]. rewrite Hab.
    destruct (N.ltb_spec (delta_f0 config)
      (descendants_fitness s (ab_descendants a) (block_ids c))) as [Hlt|Hle].
    + assert (final_in s c h) as Hfin by (exists a; auto).
      eexists. split; [done|]. split; intros b.
      * rewrite elem_of_difference, IHc, elem_of_singleton, elem_of_app, list_elem_of_singleton.
        naive_solver.
      * rewrite elem_of_union, IHf, elem_of_singleton, elem_of_app, list_elem_of_singleton.
        naive_solver.
    + assert (¬ final_in s c h) as Hfin
        by (intros (a' & Ha' & ?); rewrite Hab in Ha'; injection Ha' as <-; lia).
      eexists. split; [done|]. split; intros b.
      * rewrite IHc, elem_of_app, list_elem_of_singleton. naive_solver.
      * rewrite IHf, elem_of_app, list_elem_of_singleton. naive_solver.
  - exists cand', fin'. split; [done|]. split; intros b.
    + rewrite Hc', elem_of_set_iter. tauto.
    + rewrite Hf', elem_of_set_iter. tauto.
Qed.

Lemma final_loop_spec s l cand :
  all_active s cand →
  ∃ cand' fin, foldM (final_step s) l (cand, ∅) = Ok (cand', fin)
    ∧ ∀ b, b ∈ fin ↔ b ∈ cand ∧ ∃ c, c ∈ l ∧ final_in s c b.
Proof.
  intros Ha.
  destruct (foldM_total (λ pre '(cand', fin),
      (∀ b, b ∈ cand' ↔ b ∈ cand ∧ ¬ ∃ c, c ∈ pre ∧ final_in s c b)
      ∧ ∀ b, b ∈ fin ↔ b ∈ cand ∧ ∃ c, c ∈ pre ∧ final_in s c b)
    (final_step s) l (cand, ∅)) as ([cand' fin] & Hf & _ & Hfin).
  - split; set_solver.
  - intros pre c post [cand' fin] _ [IHc IHf].
    destruct (final_step_spec s c cand' fin) as (cand2 & fin2 & Hstep & Hc2 & Hf2).
    { intros b Hb%IHc. apply Ha. tauto. }
    exists (cand2, fin2). split; [done|].
    assert (∀ b, (∃ c', c' ∈ pre ++ [c] ∧ final_in s c' b)
      ↔ (∃ c', c' ∈ pre ∧ final_in s c' b) ∨ final_in s c b) as Hsnoc.
    { intros b. setoid_rewrite elem_of_app. setoid_rewrite list_elem_of_singleton. naive_solver. }
    split; intros b; rewrite Hsnoc.
    + rewrite Hc2, IHc. tauto.
    + rewrite Hf2, IHf, IHc.
      destruct (decide (Exists (λ c', final_in s c' b) pre)) as [He|He];
        rewrite Exists_exists in He; tauto.
  - exists cand', fin. done.
Qed.

(** A block is final when every clique holds it and, in one clique of enough
    fitness, its descendants weigh more than [delta_f0]. *)
Definition becomes_final s (b : BlockId) : Prop :=
  (∀ c, c ∈ max_cliques s → b ∈ block_ids c)
  ∧ ∃ c, c ∈ max_cliques s ∧ delta_f0 config < fitness c ∧ final_in s c b.

Lemma list_final_blocks_spec s :
  max_cliques s ≠ [] →
  (∀ b, (∀ c, c ∈ max_cliques s → b ∈ block_ids c) → is_Some (get_active s b)) →
  ∃ fin, list_final_blocks s = Ok fin ∧ ∀ b, b ∈ fin ↔ becomes_final s b.
Proof.
  intros Hne Ha. unfold list_final_blocks.
  set (l := sort_unstable_by_key clique_len (max_cliques s)).
  assert (l ≡ₚ max_cliques s) as Hperm by apply sort_unstable_by_key_perm.
  assert (∀ c, c ∈ l ↔ c ∈ max_cliques s) as Hl by (intros c; by rewrite Hperm).
  assert (l ≠ []) as Hlne.
  { intros Hnil. rewrite Hnil in Hperm. by apply Permutation_nil in Hperm. }
  assert (∀ b, b ∈ final_candidates l ↔ ∀ c, c ∈ max_cliques s → b ∈ block_ids c) as Hcand.
  { intros b. rewrite final_candidates_spec by done. by setoid_rewrite Hl. }
  destruct (final_loop_spec s
    (sort_unstable_by_key_rev fitness (filter (λ c, delta_f0 config < fitness c) l))
    (final_candidates l)) as (cand' & fin & Hf & Hfin).
  { intros b Hb. apply Ha. by apply Hcand. }
  exists fin. split.
  - destruct l; [done|]. rewrite Hf. done.
  - intros b. rewrite Hfin, Hcand. unfold becomes_final.
    apply and_iff_compat_l. split; intros (c & Hc & Hrest); exists c.
    + rewrite sort_unstable_by_key_rev_perm, list_elem_of_filter, Hl in Hc. tauto.
    + rewrite sort_unstable_by_key_rev_perm, list_elem_of_filter, Hl. tauto.
Qed.

Lemma descendants_fitness_weight s D C :
  weight s (D ∩ C) ≤ u64_max → descendants_fitness s D C = weight s (D ∩ C).
Proof using.
  unfold weight, descendants_fitness. rewrite <-set_sum_iter.
  generalize (set_iter (D ∩ C)). intros l.
  assert (∀ acc, acc + list_sum (fitness_of s) l ≤ u64_max →
    foldl (λ acc h, wrapping_add u64_max acc (default 0 (ab_fitness <$> get_active s h))) acc l
    = acc + list_sum (fitness_of s) l) as Hfold; [|intros Hle; rewrite Hfold; lia].
  induction l as [|b l IH]; intros acc Hle; cbn [foldl list_sum] in *; [lia|].
  change (default 0 (ab_fitness <$> get_active s b)) with (fitness_of s b).
  rewrite wrapping_add_small by lia. rewrite IH; lia.
Qed.
End final_lemmas.

(** ** Links between blocks *)

(** The fields of a block that no link update touches. *)
Definition same_static (a a' : ActiveBlock) : Prop :=
  ab_creator_address a' = ab_creator_address a ∧ ab_block_id a' = ab_block_id a
  ∧ ab_parents a' = ab_parents a ∧ ab_is_final a' = ab_is_final a
  ∧ ab_slot a' = ab_slot a ∧ ab_fitness a' = ab_fitness a.

(** Only children, descendants and the parent's creator of active blocks change. *)
Definition link_edit (m m' : Statuses) : Prop :=
  ∀ x, match m !! x with
       | Some (Active a sb) => ∃ a', m' !! x = Some (Active a' sb) ∧ same_static a a'
       | o => m' !! x = o
       end.

Lemma same_static_refl a : same_static a a.
Proof. by split_and!. Qed.

Lemma same_static_trans a b c : same_static a b → same_static b c → same_static a c.
Proof. unfold same_static. intros. destruct_and!. split_and!; congruence. Qed.

Lemma link_edit_refl m : link_edit m m.
Proof. intros x. destruct (m !! x) as [[]|]; eauto using same_static_refl. Qed.

Lemma link_edit_trans m1 m2 m3 : link_edit m1 m2 → link_edit m2 m3 → link_edit m1 m3.
Proof.
  intros H1 H2 x. specialize (H1 x); specialize (H2 x).
  destruct (m1 !! x) as [[]|]; try (by rewrite H1 in H2).
  destruct H1 as (a' & Ha' & Hs). rewrite Ha' in H2. destruct H2 as (a2 & -> & Hs2).
  eauto using same_static_trans.
Qed.

Lemma link_edit_active m m' : link_edit m m' → active_edit m m'.
Proof.
  intros He x. specialize (He x). destruct (m !! x) as [[]|]; auto.
  destruct He as (a' & Ha' & _). right. eauto 6.
Qed.

(** Updates in place of active blocks. *)
Lemma statuses_update_active_link f m b :
  (∀ a, same_static a (f a)) → link_edit m (statuses_update_active f m b).
Proof.
  intros Hf x. unfold statuses_update_active.
  destruct (m !! b) as [[]|] eqn:Hb; try apply (link_edit_refl m x).
  destruct (decide (x = b)) as [->|Hne].
  - rewrite Hb, lookup_insert_eq. eauto.
  - rewrite lookup_insert_ne by done. apply (link_edit_refl m x).
Qed.

(** The loops over the parents edit the children of one thread of each active
    parent. *)
Definition edit_thread (t : N) (f : gmap BlockId N → gmap BlockId N) (a : ActiveBlock)
    : ActiveBlock :=
  ab_set_children (alter f (N.to_nat t) (ab_children a)) a.

Definition edit_parents (t : N) (f : gmap BlockId N → gmap BlockId N) (l : list BlockId)
    (m : Statuses) : Statuses :=
  map_imap (λ x st, Some match st with
                         | Active a sb => if decide (x ∈ l) then Active (edit_thread t f a) sb else st
                         | st => st
                         end) m.

Lemma edit_children_once {E} t f p m :
  (∀ a sb, m !! p = Some (Active a sb) → t < N.of_nat (length (ab_children a))) →
  edit_children (E := E) (λ a, c ← idx (ab_children a) t; idx_set (ab_children a) t (f c)) m p
  = Ok (statuses_update_active (edit_thread t f) m p).
Proof.
  intros Hlen. unfold edit_children, statuses_update_active.
  destruct (m !! p) as [[| | |a sb|]|] eqn:Hp; try done.
  specialize (Hlen a sb eq_refl). destruct (idx_total (E := E) (ab_children a) t Hlen) as (c & -> & Hc).
  cbn [mbind outcome_bind]. unfold idx_set.
  destruct (N.ltb_spec t (N.of_nat (length (ab_children a)))); [|lia]. cbn [mbind outcome_bind].
  do 2 f_equal. f_equal. unfold edit_thread. f_equal.
  apply list_eq. intros j. destruct (decide (N.to_nat t = j)) as [<-|Hj].
  - rewrite list_lookup_insert_eq, list_lookup_alter_eq, Hc by lia. done.
  - by rewrite list_lookup_insert_ne, list_lookup_alter_ne.
Qed.

Lemma edit_parents_cons t f p l m :
  (∀ c, f (f c) = f c) →
  edit_parents t f (p :: l) m = edit_parents t f l (statuses_update_active (edit_thread t f) m p).
Proof.
  intros Hid. apply map_eq. intros x. unfold edit_parents, statuses_update_active.
  rewrite !map_lookup_imap.
  assert (∀ a, edit_thread t f (edit_thread t f a) = edit_thread t f a) as Hidt.
  { intros a. unfold edit_thread, ab_set_children. cbn. f_equal. apply list_eq. intros j.
    destruct (decide (N.to_nat t = j)) as [<-|Hj].
    - rewrite !list_lookup_alter_eq. destruct (ab_children a !! N.to_nat t); cbn; [|done].
      by rewrite Hid.
    - by rewrite !list_lookup_alter_ne. }
  destruct (m !! p) as [stp|] eqn:Hp.
  - destruct (decide (x = p)) as [->|Hne].
    + rewrite Hp. destruct stp; rewrite ?lookup_insert_eq, ?Hp; cbn; try done.
      rewrite decide_True by (by left). case_decide; [by rewrite Hidt|done].
    + assert (match stp with Active a sb => <[p := Active (edit_thread t f a) sb]> m | _ => m end !! x
        = m !! x) as -> by (destruct stp; [..|by rewrite lookup_insert_ne|]; done).
      destruct (m !! x) as [[]|]; cbn; try done. do 2 f_equal.
      repeat case_decide; try done; set_solver.
  - destruct (m !! x) as [[]|] eqn:Hx; cbn; try done. do 2 f_equal.
    assert (x ≠ p) by congruence. repeat case_decide; try done; set_solver.
Qed.

Lemma edit_parents_nil t f m : edit_parents t f [] m = m.
Proof.
  apply map_eq. intros x. unfold edit_parents. rewrite map_lookup_imap.
  by destruct (m !! x) as [[]|].
Qed.

Lemma edit_children_loop {E} t f l m :
  (∀ c, f (f c) = f c) →
  (∀ p a sb, p ∈ l → m !! p = Some (Active a sb) → t < N.of_nat (length (ab_children a))) →
  foldM (edit_children (E := E) (λ a, c ← idx (ab_children a) t; idx_set (ab_children a) t (f c)))
    l m = Ok (edit_parents t f l m).
Proof.
  intros Hid. revert m. induction l as [|p l IH]; intros m Hlen; cbn [foldM].
  { by rewrite edit_parents_nil. }
  rewrite edit_children_once by (intros a sb; apply Hlen; by left). cbn [mbind outcome_bind].
  rewrite edit_parents_cons by done. apply IH. intros p' a sb Hp'.
  unfold statuses_update_active. destruct (m !! p) as [[| | |a0 sb0|]|] eqn:Hp;
    try (apply Hlen; by right).
  destruct (decide (p' = p)) as [->|Hne].
  - rewrite lookup_insert_eq. intros [= <- <-]. cbn. rewrite length_alter.
    eapply Hlen; [by left|done].
  - rewrite lookup_insert_ne by done. apply Hlen. by right.
Qed.

Lemma edit_parents_link t f l m : link_edit m (edit_parents t f l m).
Proof.
  intros x. unfold edit_parents. rewrite map_lookup_imap.
  destruct (m !! x) as [[]|]; cbn; try done. case_decide; eauto using same_static_refl.
  eexists. split; [done|]. by split_and!.
Qed.

(** ** Insertion of the links of a block *)

Definition with_statuses (m : Statuses) (s : ConsensusState) : ConsensusState :=
  set_blocks_state (set_statuses m (blocks_state s)) s.

(** The parents of a non-final active block: where the traversal of ancestors
    goes on. *)
Definition up_links (m : Statuses) (x : BlockId) : list BlockId :=
  match m !! x with
  | Some (Active a _) => if ab_is_final a then [] else (ab_parents a).*1
  | _ => []
  end.

Definition add_descendant (b : BlockId) (ancestors : gset BlockId) (m : Statuses) : Statuses :=
  map_imap (λ x st, Some match st with
    | Active a sb =>
        if decide (x ∈ ancestors ∧ ab_is_final a = false)
        then Active (ab_set_descendants (ab_descendants a ∪ {[b]}) a) sb else st
    | st => st
    end) m.

Lemma add_descendant_link b V m : link_edit m (add_descendant b V m).
Proof.
  intros x. unfold add_descendant. rewrite map_lookup_imap.
  destruct (m !! x) as [[]|]; cbn; try done. case_decide; eauto using same_static_refl.
  eexists. split; [done|]. by split_and!.
Qed.

Lemma up_links_link m m' x : link_edit m m' → up_links m' x = up_links m x.
Proof.
  intros He. specialize (He x). unfold up_links. destruct (m !! x) as [[]|]; try by rewrite He.
  destruct He as (a' & -> & _ & _ & Hp & Hf & _). by rewrite Hp, Hf.
Qed.

Lemma add_descendant_empty b m : add_descendant b ∅ m = m.
Proof.
  apply map_eq. intros x. unfold add_descendant. rewrite map_lookup_imap.
  by destruct (m !! x) as [[]|].
Qed.

(** A visited item that is not an active non-final block changes nothing. *)
Lemma add_descendant_other b V m x :
  (∀ a sb, m !! x = Some (Active a sb) → ab_is_final a = true) →
  add_descendant b (V ∪ {[x]}) m = add_descendant b V m.
Proof.
  intros Hx. apply map_eq. intros y. unfold add_descendant. rewrite !map_lookup_imap.
  destruct (m !! y) as [[]|] eqn:Hy; cbn; try done. do 2 f_equal.
  destruct (ab_is_final a_block) eqn:Hfa; [by rewrite !decide_False by (intros [_ ?]; done)|].
  assert (y ≠ x) as Hne by (intros ->; apply Hx in Hy; congruence).
  repeat case_decide; try done; exfalso; rewrite elem_of_union, elem_of_singleton in *; tauto.
Qed.

Lemma add_descendant_visit b V m x a sb :
  m !! x = Some (Active a sb) → ab_is_final a = false → x ∉ V →
  statuses_update_active (λ a, ab_set_descendants (ab_descendants a ∪ {[b]}) a)
    (add_descendant b V m) x = add_descendant b (V ∪ {[x]}) m.
Proof.
  intros Hm Hfin Hx.
  assert (add_descendant b V m !! x = Some (Active a sb)) as Hax.
  { unfold add_descendant. rewrite map_lookup_imap, Hm. cbn. by rewrite decide_False by tauto. }
  unfold statuses_update_active. rewrite Hax. apply map_eq. intros y.
  destruct (decide (y = x)) as [->|Hne].
  - rewrite lookup_insert_eq. unfold add_descendant. rewrite map_lookup_imap, Hm. cbn.
    rewrite decide_True by set_solver. done.
  - rewrite lookup_insert_ne by done. unfold add_descendant. rewrite !map_lookup_imap.
    destruct (m !! y) as [[]|]; cbn; try done. do 2 f_equal.
    repeat case_decide; try done; exfalso; rewrite elem_of_union, elem_of_singleton in *; tauto.
Qed.

Section links.
Context `{!SetIter BlockId, Env : ConsensusEnv}.
Implicit Types (s : ConsensusState).

Lemma get_active_with_statuses m s x :
  get_active (with_statuses m s) x
  = match m !! x with Some (Active a _) => Some a | _ => None end.
Proof using. done. Qed.

Lemma insert_descendant_spec {E} fuel b s m roots stack visited :
  trav_inv (up_links m) roots stack visited →
  (length stack + sum_outside parent_count m visited < fuel)%nat →
  ∃ V, insert_descendant fuel b (with_statuses (add_descendant b visited m) s) stack visited
      = @Ok E _ (with_statuses (add_descendant b V m) s)
    ∧ ∀ x, x ∈ V ↔ reach (up_links m) roots x.
Proof using.
  revert stack visited. induction fuel as [|fuel IH]; intros stack visited Hinv Hf; [lia|].
  destruct stack as [|x stack]; [exists visited; split; [done|by apply trav_done]|].
  cbn [insert_descendant length] in *. case_decide as Hx.
  { apply IH; [by eapply trav_skip|lia]. }
  rewrite get_active_with_statuses.
  pose proof (add_descendant_link b visited m x) as He.
  destruct (m !! x) as [st|] eqn:Hm.
  2:{ rewrite He. rewrite <-(add_descendant_other b visited m x) by congruence.
      apply IH; [|rewrite sum_outside_other by done; lia].
      eapply trav_push; [done|]. intros y. unfold up_links. rewrite Hm. set_solver. }
  rewrite (sum_outside_visit _ _ _ x _ Hm) in Hf by done.
  destruct st as [| | |a sb|];
    try (rewrite He, <-(add_descendant_other b visited m x) by congruence;
         apply IH; [|cbn in Hf; lia];
         eapply trav_push; [done|]; intros y; unfold up_links; rewrite Hm; set_solver).
  destruct He as (a' & -> & _ & _ & Hp & Hfin & _). rewrite Hfin.
  destruct (ab_is_final a) eqn:Hfa.
  - rewrite <-(add_descendant_other b visited m x) by congruence.
    apply IH; [|cbn in Hf; lia].
    eapply trav_push; [done|]. intros y. unfold up_links. rewrite Hm, Hfa. set_solver.
  - change (update_active ?f (with_statuses ?m' s) x) with
      (with_statuses (statuses_update_active f m' x) s).
    rewrite (add_descendant_visit b visited m x a sb) by done.
    apply IH.
    + eapply trav_push; [done|]. intros y. unfold up_links. rewrite Hm, Hfa, Hp. set_solver.
    + rewrite length_app, length_fmap, Hp. cbn in Hf. lia.
Qed.

(** The statuses once [b] is linked to its parents and to the set [V] of its
    ancestors. *)
Definition linked (b : BlockId) (slot : Slot) (parents : list BlockId) (V : gset BlockId)
    (m : Statuses) : Statuses :=
  let creator := parents !! N.to_nat (thread slot) ≫= λ p,
    match m !! p with Some (Active a _) => Some (ab_creator_address a) | _ => None end in
  add_descendant b V
    (statuses_update_active (ab_set_parent_creator creator)
       (edit_parents (thread slot) <[b := period slot]> parents m) b).

Lemma linked_link b slot parents V m : link_edit m (linked b slot parents V m).
Proof using.
  unfold linked. eapply link_edit_trans; [apply edit_parents_link|].
  eapply link_edit_trans; [|apply add_descendant_link].
  apply statuses_update_active_link. intros a. by split_and!.
Qed.

Lemma insert_parents_descendants_spec {E} b slot parents s :
  is_Some (get_active s b) →
  (∀ p a, p ∈ parents → get_active s p = Some a →
     thread slot < N.of_nat (length (ab_children a))) →
  let m := block_statuses (blocks_state s) in
  ∃ V, insert_parents_descendants b slot parents s
      = @Ok E _ (with_statuses (linked b slot parents V m) s)
    ∧ ∀ x, x ∈ V ↔ reach (up_links m) parents x.
Proof using.
  intros Hb Hlen m. unfold insert_parents_descendants.
  assert (foldM (edit_children (E := E) (insert_child b slot)) parents m
    = Ok (edit_parents (thread slot) <[b := period slot]> parents m)) as Hloop.
  { apply edit_children_loop; [intros c; by rewrite insert_insert_eq|].
    intros p a sb Hp Hm. apply (Hlen p a Hp). apply get_active_Some. eauto. }
  fold m. rewrite Hloop. cbn [mbind outcome_bind].
  set (m1 := edit_parents (thread slot) <[b := period slot]> parents m).
  pose proof (edit_parents_link (thread slot) <[b := period slot]> parents m) as He1. fold m1 in He1.
  change (set_blocks_state (set_statuses m1 (blocks_state s)) s) with (with_statuses m1 s).
  set (creator := parents !! N.to_nat (thread slot) ≫= λ p,
    match m !! p with Some (Active a _) => Some (ab_creator_address a) | _ => None end).
  assert (parents !! N.to_nat (thread slot)
      ≫= (λ parent_id, ab_creator_address <$> get_active (with_statuses m1 s) parent_id) = creator)
    as ->.
  { unfold creator. destruct (parents !! N.to_nat (thread slot)) as [p|]; [|done]. cbn.
    rewrite get_active_with_statuses. specialize (He1 p).
    destruct (m !! p) as [[]|]; try by rewrite He1.
    destruct He1 as (a' & -> & Hc & _). cbn. by rewrite Hc. }
  assert (is_Some (get_active (with_statuses m1 s) b)) as [a1 ->].
  { destruct Hb as [a [sb Hb]%get_active_Some]. rewrite get_active_with_statuses.
    specialize (He1 b). fold m in Hb. rewrite Hb in He1. destruct He1 as (a' & -> & _). eauto. }
  change (update_active ?f (with_statuses m1 s) b) with
    (with_statuses (statuses_update_active f m1 b) s).
  set (m2 := statuses_update_active (ab_set_parent_creator creator) m1 b).
  assert (link_edit m m2) as He2.
  { eapply link_edit_trans; [done|]. apply statuses_update_active_link. intros a. by split_and!. }
  destruct (@insert_descendant_spec E
    (S (length parents + parent_links (block_statuses (blocks_state (with_statuses m2 s)))))
    b s m2 parents (reverse parents) ∅) as (V & Hins & HV).
  - apply trav_init. intros x. by rewrite elem_of_reverse.
  - rewrite length_reverse, sum_outside_empty. cbn. unfold parent_links. lia.
  - rewrite add_descendant_empty in Hins. exists V. split; [done|]. intros x. rewrite HV.
    assert (∀ y z, edge (up_links m2) y z ↔ edge (up_links m) y z) as Hedge.
    { intros y z. unfold edge. by rewrite (up_links_link m m2 y He2). }
    unfold reach. split; intros (r & Hr & Hrx); exists r; (split; [done|]);
      (eapply rtc_subrel; [|exact Hrx]); intros y z; apply Hedge.
Qed.
End links.
