(* ===== verification/Verifications.v ===== *)
(** * Header checks

    [massa-consensus-worker/src/state/verifications.rs]: the checks a header goes
    through before its block can enter the graph, the incompatibilities it gets,
    and what becomes of a header alone.

    Each early [return] of [check_header] is an [Err] of its parts, and the
    whole function returns the outcome of either side. *)

From S2P Require Import Prelude Slots Models Storage Blocks BlocksState ConsensusState.

Open Scope N_scope.

Inductive HeaderCheckOutcome : Type :=
| Proceed (parents_hash_period : list (BlockId * N)) (incompatibilities : gset BlockId)
    (inherited_incompatibilities_count : nat) (fit : N)
| Discard (reason : DiscardReason)
| WaitForSlot
| WaitForDependencies (missing : gset BlockId).

Inductive EndorsementsCheckOutcome : Type :=
| EndorsementsProceed
| EndorsementsDiscard (reason : DiscardReason)
| EndorsementsWaitForSlot.

Section verifications.
Context `{!SetIter BlockId, Env : ConsensusEnv}.
Implicit Types (s : ConsensusState) (header : SecuredHeader).

(** [true] when two other blocks are already known for the slot. *)
Definition detect_multistake header s : bool * ConsensusState :=
  let slot := header_slot header in
  let entry := default ∅ (nonfinal_active_blocks_per_slot s !! slot) in
  if decide (id header ∈ entry) then
    (false, set_nonfinal_active_blocks_per_slot
              (<[slot := entry]> (nonfinal_active_blocks_per_slot s)) s)
  else if (1 <? N.of_nat (size entry)) && bool_decide (wishlist s !! id header = None) then
    (true, set_nonfinal_active_blocks_per_slot
             (<[slot := entry]> (nonfinal_active_blocks_per_slot s)) s)
  else
    (false, set_nonfinal_active_blocks_per_slot
              (<[slot := entry ∪ {[id header]}]> (nonfinal_active_blocks_per_slot s)) s).

Definition note_verifiable_header header s : bool * ConsensusState :=
  detect_multistake header (send (AddDenunciationPrecursor header) s).

(** [maybe_note_attack_attempt] of process.rs. *)
Definition maybe_note_attack_attempt (reason : DiscardReason) (hash : BlockId) s
    : ConsensusState :=
  match reason with
  | Invalid _ => set_attack_attempts (attack_attempts s ++ [hash]) s
  | _ => s
  end.

(** The loop of [check_endorsements] up to the first mismatch. *)
Definition check_draw {E} (draws : list Address) (ok : bool)
    (endorsement : SecureShareEndorsement) : outcome E bool :=
  if ok then
    draw ← idx draws (e_index (content endorsement));
    Ok (bool_decide (content_creator_address endorsement = draw))
  else Ok false.

Definition check_endorsements {E} s header : outcome E EndorsementsCheckOutcome :=
  match get_selection (header_slot header) with
  | None => Ok EndorsementsWaitForSlot
  | Some sel =>
      ok ← foldM (check_draw (sel_endorsements sel)) (endorsements (content header)) true;
      Ok (if (ok : bool) then EndorsementsProceed
          else EndorsementsDiscard (Invalid "endorser draw mismatch for header"))
  end.

(** The parents listed so far, the incompatibilities inherited from them, and
    the missing ones. *)
Definition parent_acc : Type := list (BlockId * N) * gset BlockId * gset BlockId.

Definition check_parent s header (parent_set : gset BlockId) (acc : parent_acc)
    (parent_thread : N) : outcome HeaderCheckOutcome parent_acc :=
  let '(parents, incomp, missing_deps) := acc in
  parent_hash ← idx (h_parents (content header)) parent_thread;
  match bs_get (blocks_state s) parent_hash with
  | Some (Discarded _ _ _ reason _) =>
      Err (Discard match reason with
                   | Invalid r => Invalid ("discarded because a parent was discarded: " +:+ r)
                   | r => r
                   end)
  | Some (Active parent _) =>
      if negb (thread (ab_slot parent) =? parent_thread)
         || slot_le (header_slot header) (ab_slot parent)
      then Err (Discard (Invalid "Bad parent"))
      else
        match gi_head s !! parent_hash with
        | Some p_incomp =>
            if decide (p_incomp ## parent_set)
            then Ok (parents ++ [(parent_hash, period (ab_slot parent))], incomp ∪ p_incomp,
                     missing_deps)
            else Err (Discard (Invalid "Parent not mutually compatible"))
        | None =>
            Ok (parents ++ [(parent_hash, period (ab_slot parent))], incomp, missing_deps)
        end
  | _ =>
      if decide (parent_hash ∈ genesis_hashes s) then Err (Discard Stale)
      else Ok (parents, incomp, missing_deps ∪ {[parent_hash]})
  end.

Definition check_parents s header : outcome HeaderCheckOutcome parent_acc :=
  foldM (check_parent s header (list_to_set (h_parents (content header))))
    (range (thread_count config)) ([], ∅, ∅).

(** The grandparent in thread [gp_i] known by the parent in thread [parent_i]. *)
Definition check_grandpa s (parent : ActiveBlock) (parent_i : N) (gp_max_slots : list N)
    (gp_i : N) : outcome HeaderCheckOutcome (list N) :=
  if gp_i =? parent_i then Ok gp_max_slots
  else
    gp ← idx (ab_parents parent) gp_i;
    match bs_get (blocks_state s) gp.1 with
    | Some (Discarded _ _ _ reason _) => Err (Discard reason)
    | Some (Active gp _) =>
        m ← idx gp_max_slots gp_i;
        if m <? period (ab_slot gp) then
          if gp_i <? parent_i then Err (Discard (Invalid "grandpa error: gp_i < parent_i"))
          else idx_set gp_max_slots gp_i (period (ab_slot gp))
        else Ok gp_max_slots
    | _ => Err (Discard Stale)
    end.

Definition check_parent_topology s (parents : list (BlockId * N)) (gp_max_slots : list N)
    (parent_i : N) : outcome HeaderCheckOutcome (list N) :=
  '(parent_h, parent_period) ← idx parents parent_i;
  parent ← expect "inconsistency inside block statuses searching parent" (get_active s parent_h);
  m ← idx gp_max_slots parent_i;
  if parent_period <? m then
    Err (Discard (Invalid
      "a parent is earlier than a block known by another parent in that thread"))
  else
    gp_max_slots ← idx_set gp_max_slots parent_i parent_period;
    if parent_period =? last_start_period config then Ok gp_max_slots
    else foldM (check_grandpa s parent parent_i) (range (thread_count config)) gp_max_slots.

Definition check_topology s (parents : list (BlockId * N))
    : outcome HeaderCheckOutcome (list N) :=
  foldM (check_parent_topology s parents) (range (thread_count config))
    (replicate (N.to_nat (thread_count config)) 0).

(** List the ancestors in their own threads down to a final block: the stack has
    its top first. *)
Fixpoint list_ancestors {E} (fuel : nat) s (to_traverse : list BlockId)
    (ancestor_ids : gset BlockId) (earliest : list N) : outcome E (gset BlockId * list N) :=
  match fuel with
  | O => OutOfFuel
  | S fuel =>
      match to_traverse with
      | [] => Ok (ancestor_ids, earliest)
      | ancestor_id :: to_traverse =>
          if decide (ancestor_id ∈ ancestor_ids)
          then list_ancestors fuel s to_traverse ancestor_ids earliest
          else
            let ancestor_ids := ancestor_ids ∪ {[ancestor_id]} in
            match get_active s ancestor_id with
            | Some ancestor =>
                let slot := ab_slot ancestor in
                e ← idx earliest (thread slot);
                earliest ← idx_set earliest (thread slot) (N.min e (period slot));
                let to_traverse :=
                  if ab_is_final ancestor then to_traverse
                  else match ab_parents ancestor !! N.to_nat (thread slot) with
                       | Some p => p.1 :: to_traverse
                       | None => to_traverse
                       end in
                list_ancestors fuel s to_traverse ancestor_ids earliest
            | None => list_ancestors fuel s to_traverse ancestor_ids earliest
            end
      end
  end.

(** The distance between two slots, the later one first. *)
Definition slots_apart {E} (a b : Slot) : outcome E N :=
  expect_ok "arithmetic overflow on slots while checking incompatibilities"
    (slots_since a b (thread_count config)).

Definition slots_incompatible {E} (slot other : Slot) : outcome E bool :=
  match slot_cmp slot other with
  | Eq => Ok true
  | Gt => n ← slots_apart slot other; Ok (thread_count config <=? n)
  | Lt => n ← slots_apart other slot; Ok (thread_count config <=? n)
  end.

Definition check_incompatibility s (slot : Slot) (ancestor_ids : gset BlockId)
    (earliest : list N) (incomp : gset BlockId) (traversed_id : BlockId)
    : outcome HeaderCheckOutcome (gset BlockId) :=
  if decide (traversed_id ∈ ancestor_ids) then Ok incomp
  else
    traversed ← expect "inconsistency inside block statuses searching traversed"
                  (get_active s traversed_id);
    e ← idx earliest (thread (ab_slot traversed));
    if period (ab_slot traversed) <? e then Ok incomp
    else
      incompatible ← slots_incompatible slot (ab_slot traversed);
      if (incompatible : bool) then
        if ab_is_final traversed then Err (Discard Stale)
        else
          d ← get_active_block_and_descendants s traversed_id;
          Ok (incomp ∪ d)
      else Ok incomp.

(** The final active blocks, as the last test of [check_header] lists them. *)
Definition final_active_blocks s : gset BlockId :=
  filter (λ b, ab_is_final <$> get_active s b = Some true) (active_index (blocks_state s)).

(** The first checks: age, producer and time of the slot. *)
Definition check_slot s header (current_slot : option Slot)
    : outcome HeaderCheckOutcome unit :=
  let slot := header_slot header in
  latest ← idx (latest_final_blocks_periods s) (thread slot);
  if period slot <=? latest.2 then Err (Discard Stale)
  else
    match get_producer slot with
    | None => Err WaitForSlot
    | Some slot_draw_address =>
        if decide (content_creator_address header = slot_draw_address) then
          if opt_slot_lt current_slot (Some slot) then Err WaitForSlot else Ok tt
        else Err (Discard (Invalid "Bad creator turn for the slot"))
    end.

Definition check_header_steps s header (current_slot : option Slot)
    : outcome HeaderCheckOutcome HeaderCheckOutcome :=
  _ ← check_slot s header current_slot;
  '(parents, incomp, missing_deps) ← check_parents s header;
  if decide (missing_deps ≠ ∅) then Err (WaitForDependencies missing_deps)
  else
    let inherited_incomp_count := size incomp in
    _ ← check_topology s parents;
    e ← check_endorsements s header;
    _ ← match e with
        | EndorsementsProceed => Ok tt
        | EndorsementsDiscard reason => Err (Discard reason)
        | EndorsementsWaitForSlot => Err WaitForSlot
        end;
    '(ancestor_ids, earliest) ←
      list_ancestors
        (S (length (h_parents (content header)) + size (block_statuses (blocks_state s))))
        s (reverse (h_parents (content header))) ∅ parents.*2;
    incomp ← foldM (check_incompatibility s (header_slot header) ancestor_ids earliest)
               (set_iter (active_index (blocks_state s))) incomp;
    if decide (incomp ## list_to_set parents.*1) then
      if decide (incomp ## final_active_blocks s) then
        Ok (Proceed parents incomp inherited_incomp_count (get_fitness header))
      else Err (Discard Stale)
    else Err (Discard (Invalid "Block incompatible with a parent")).

(** An early return is the outcome of the check. *)
Definition check_header {E} s header (current_slot : option Slot)
    : outcome E HeaderCheckOutcome :=
  match check_header_steps s header current_slot with
  | Ok o | Err o => Ok o
  | Panic why => Panic why
  | OutOfFuel => OutOfFuel
  end.

Definition convert_to_discard_block_header (reason : DiscardReason) (block_id : BlockId)
    header s : BlockStatus * ConsensusState :=
  let s := maybe_note_attack_attempt reason block_id s in
  let s := if decide (reason = Stale)
           then set_new_stale_blocks
                  (<[block_id := (content_creator_address header, header_slot header)]>
                     (new_stale_blocks s)) s
           else s in
  (Discarded (header_slot header) (content_creator_address header)
     (h_parents (content header)) reason (sequence_counter (blocks_state s)), s).

Definition convert_block_header {E} (block_id : BlockId) header (current_slot : option Slot) s
    : outcome E (option BlockStatus * ConsensusState) :=
  header_outcome ← check_header s header current_slot;
  match header_outcome with
  | Proceed _ _ _ _ =>
      let '(extra, s) := note_verifiable_header header s in
      if (extra : bool) then Ok (None, s)
      else Ok (Some (WaitingForDependencies (HoBHeader header) {[block_id]}
                       (sequence_counter (blocks_state s))), s)
  | WaitForDependencies dependencies =>
      let '(extra, s) := note_verifiable_header header s in
      if (extra : bool) then Ok (None, s)
      else Ok (Some (WaitingForDependencies (HoBHeader header) (dependencies ∪ {[block_id]})
                       (sequence_counter (blocks_state s))), s)
  | WaitForSlot => Ok (Some (WaitingForSlot (HoBHeader header)), s)
  | Discard reason =>
      let s := send (AddDenunciationPrecursor header) s in
      let '(st, s) := convert_to_discard_block_header reason block_id header s in
      Ok (Some st, s)
  end.
End verifications.
