(* ===== verification/Process.v ===== *)
(** * Processing of blocks

    [massa-consensus-worker/src/state/process.rs]: the processing of one block or
    header and of those it unblocks, the insertion of a block into the graph, and
    the notification of the other modules. *)

From S2P Require Import Prelude Slots Times Cliques Models Storage Blocks BlocksState.
From S2P Require Import ConsensusState Graph Verifications.

Open Scope N_scope.

Section process.
Context `{!SetIter BlockId, !KeyHash, Env : ConsensusEnv}.
Implicit Types (s : ConsensusState).

(** ** Adding a block to the graph *)

(** Register the incompatibilities of a new block in [gi_head]. *)
Definition add_incompatibilities (b : BlockId) (incomp : gset BlockId)
    (gi : gmap BlockId (gset BlockId)) : outcome ConsensusError (gmap BlockId (gset BlockId)) :=
  gi ← foldM (λ gi incomp_h,
         l ← ok_or (MissingBlock "missing block when adding incomp to gi_head") (gi !! incomp_h);
         Ok (<[incomp_h := l ∪ {[b]}]> gi)) (set_iter incomp) gi;
  Ok (<[b := incomp]> gi).

(** The clique optimisation routine, on one clique. *)
Definition grow_clique (b : BlockId) (incomp : gset BlockId) (c : Clique) : Clique :=
  if decide (incomp ## block_ids c)
  then MkClique (block_ids c ∪ {[b]}) (fitness c) (is_blockclique c)
  else c.

Definition update_max_cliques (b : BlockId) (incomp : gset BlockId)
    (inherited_incomp_count : nat) s : outcome ConsensusError ConsensusState :=
  if decide (size incomp = inherited_incomp_count)
  then Ok (set_max_cliques (grow_clique b incomp <$> max_cliques s) s)
  else
    cliques ← compute_max_cliques (gi_head s);
    Ok (set_max_cliques ((λ c, MkClique c 0 false) <$> cliques) s).

(** The best parents: the latest final blocks, then the latest blocks of the
    blockclique. *)
Definition update_best_parents (blockclique : Clique) s
    : outcome ConsensusError ConsensusState :=
  best ← foldM (λ best block_h,
      a ← ok_or (ContainerInconsistency
                   "inconsistency inside block statuses updating best parents")
            (get_active s block_h);
      cur ← idx best (thread (ab_slot a));
      if cur.2 <? period (ab_slot a)
      then idx_set best (thread (ab_slot a)) (block_h, period (ab_slot a))
      else Ok best)
    (set_iter (block_ids blockclique)) (latest_final_blocks_periods s);
  Ok (set_best_parents best s).

(** The stale part: drop the cliques below the threshold and discard the blocks
    that no other clique holds. *)
Definition remove_stale_blocks (position_blockclique : nat) s
    : outcome ConsensusError ConsensusState :=
  blockclique ← idx (max_cliques s) (N.of_nat position_blockclique);
  let fitness_threshold := saturating_sub (fitness blockclique) (delta_f0 config) in
  let stale_blocks := list_stale_blocks s fitness_threshold in
  let s := set_max_cliques (filter (λ c, fitness_threshold ≤ fitness c) (max_cliques s)) s in
  foldM (λ s b, remove_block b s) (set_iter stale_blocks) s.

Definition add_block_to_graph (add_block_id : BlockId)
    (parents_hash_period : list (BlockId * N)) (add_block_slot : Slot)
    (incomp : gset BlockId) (inherited_incomp_count : nat) s
    : outcome ConsensusError ConsensusState :=
  s ← insert_parents_descendants add_block_id add_block_slot parents_hash_period.*1 s;
  gi ← add_incompatibilities add_block_id incomp (gi_head s);
  let s := set_gi_head gi s in
  s ← update_max_cliques add_block_id incomp inherited_incomp_count s;
  '(position_blockclique, s) ← compute_fitness_find_blockclique s;
  blockclique ← idx (max_cliques s) (N.of_nat position_blockclique);
  s ← update_best_parents blockclique s;
  s ← remove_stale_blocks position_blockclique s;
  final_blocks ← list_final_blocks s;
  s ← mark_final_blocks final_blocks s;
  _ ← map_err ConsensusModelsError
        (get_block_slot_timestamp (thread_count config) (t0 config) (genesis_timestamp config)
           add_block_slot);
  Ok s.

(** ** Processing one block *)

(** The set of items to process, popped in the order of (slot, id). *)
Definition pop_first (to_ack : gset (Slot * BlockId))
    : option (Slot * BlockId * gset (Slot * BlockId)) :=
  match sort_unstable (elements to_ack) with
  | [] => None
  | x :: _ => Some (x, to_ack ∖ {[x]})
  end.

(** An incoming header. *)
Definition process_incoming_header {E} (block_id : BlockId) (header : SecuredHeader)
    (current_slot : option Slot) s : outcome E ConsensusState :=
  '(new_state, s) ← convert_block_header block_id header current_slot s;
  '(bs, _) ← transition_map (blocks_state s) block_id (λ block_status m,
      match block_status with
      | Some (Incoming (HoBHeader _)) => Ok (new_state, m, tt)
      | _ => Panic "inconsistency inside block statuses removing incoming header"
      end);
  Ok (set_blocks_state bs s).

(** The check of an incoming block, with its side effects. *)
Definition check_incoming_block {E} (block_id : BlockId) (header : SecuredHeader)
    (current_slot : option Slot) s : outcome E (HeaderCheckOutcome * ConsensusState) :=
  res ← check_header s header current_slot;
  match res with
  | Discard reason =>
      Ok (res, send (AddDenunciationPrecursor header)
                 (maybe_note_attack_attempt reason block_id s))
  | WaitForSlot => Ok (res, s)
  | _ =>
      let '(extra, s) := note_verifiable_header header s in
      Ok (if (extra : bool) then Discard (Invalid "more than 2 blocks for slot") else res, s)
  end.

(** What the closure of the incoming block hands over to [add_block_to_graph]. *)
Definition BlockInfos : Type := list (BlockId * N) * Slot * gset BlockId * nat.

Definition new_active_block (block_id : BlockId) (header : SecuredHeader) (slot : Slot)
    (parents_hash_period : list (BlockId * N)) (fit : N) : ActiveBlock :=
  MkActiveBlock (from_public_key (content_creator_pub_key header)) block_id parents_hash_period
    (replicate (N.to_nat (thread_count config)) ∅) ∅ false slot fit None.

(** The new status of an incoming block, what [add_block_to_graph] needs, and the
    new stale blocks. *)
Definition incoming_block_status (block_id : BlockId) (header : SecuredHeader) (slot : Slot)
    (storage : Storage) (outcome : HeaderCheckOutcome) s
    : BlockStatus * option BlockInfos * gmap BlockId (Address * Slot) :=
  match outcome with
  | Proceed parents_hash_period incompatibilities inherited_incompatibilities_count fit =>
      (Active (new_active_block block_id header slot parents_hash_period fit)
         (SoBStorage storage),
       Some (parents_hash_period, slot, incompatibilities, inherited_incompatibilities_count),
       new_stale_blocks s)
  | WaitForDependencies dependencies =>
      (WaitingForDependencies (HoBBlock block_id slot storage) dependencies
         (sequence_counter (blocks_state s)), None, new_stale_blocks s)
  | WaitForSlot => (WaitingForSlot (HoBBlock block_id slot storage), None, new_stale_blocks s)
  | Discard reason =>
      (Discarded (header_slot header) (content_creator_address header)
         (h_parents (content header)) reason (sequence_counter (blocks_state s)), None,
       if decide (reason = Stale)
       then <[block_id := (content_creator_address header, header_slot header)]>
              (new_stale_blocks s)
       else new_stale_blocks s)
  end.

Definition process_incoming_block {E} (block_id : BlockId) (current_slot : option Slot) s
    : outcome E (option BlockInfos * ConsensusState) :=
  match bs_get (blocks_state s) block_id with
  | Some (Incoming (HoBBlock _ _ _)) =>
      stored_block ← expect "incoming block not found in storage"
                       (BlockIndex.get read_blocks block_id);
      '(header_check_outcome, s) ←
        check_incoming_block block_id (header (content stored_block)) current_slot s;
      '(bs, (block_infos, stale)) ← transition_map (blocks_state s) block_id (λ block_status m,
          match block_status with
          | Some (Incoming (HoBBlock _ slot storage)) =>
              stored_block ← expect "incoming block not found in storage"
                               (BlockIndex.get read_blocks block_id);
              let '(status, infos, stale) :=
                incoming_block_status block_id (header (content stored_block)) slot storage
                  header_check_outcome s in
              Ok (Some status, m, (infos, stale))
          | _ => Panic "inconsistency inside block statuses removing incoming block"
          end);
      Ok (block_infos, set_new_stale_blocks stale (set_blocks_state bs s))
  | _ => Panic "inconsistency inside block statuses removing incoming block"
  end.

(** Back to [Incoming] from one of the waiting statuses. *)
Definition back_to_incoming {E} (block_id : BlockId) s : outcome E (Slot * ConsensusState) :=
  '(bs, slot) ← transition_map (blocks_state s) block_id (λ block_status m,
      match block_status with
      | Some (WaitingForSlot hb) | Some (WaitingForDependencies hb _ _) =>
          Ok (Some (Incoming hb), m, get_slot hb)
      | _ => Panic "inconsistency inside block statuses removing waiting for slot"
      end);
  Ok (slot, set_blocks_state bs s).

(** Remove a satisfied dependency from one waiting block. *)
Definition satisfy_dependency (block_id : BlockId) (acc : gset (Slot * BlockId) * Statuses)
    (itm_block_id : BlockId) : gset (Slot * BlockId) * Statuses :=
  let '(reprocess, m) := acc in
  match m !! itm_block_id with
  | Some (WaitingForDependencies hb deps n) =>
      if decide (block_id ∈ deps) then
        (reprocess ∪ {[(get_slot hb, itm_block_id)]},
         <[itm_block_id := WaitingForDependencies hb (deps ∖ {[block_id]}) n]> m)
      else acc
  | _ => acc
  end.

(** If the block was added, propagate it and update the linked dependencies. *)
Definition after_added (block_id : BlockId) s : gset (Slot * BlockId) * ConsensusState :=
  match bs_get (blocks_state s) block_id with
  | Some (Active _ (SoBStorage storage)) =>
      let s := set_to_propagate (<[block_id := storage]> (to_propagate s)) s in
      let '(reprocess, m) :=
        foldl (satisfy_dependency block_id) (∅, block_statuses (blocks_state s))
          (set_iter (waiting_for_dependencies_index (blocks_state s))) in
      (reprocess, set_blocks_state (set_statuses m (blocks_state s)) s)
  | _ => (∅, s)
  end.

Definition process {E} (block_id : BlockId) (current_slot : option Slot) s
    : outcome E (gset (Slot * BlockId) * ConsensusState) :=
  match bs_get (blocks_state s) block_id with
  | None => Ok (∅, s)
  | Some (Discarded _ _ _ _ _) => Ok (∅, s)
  | Some (Active _ _) => Ok (∅, s)
  | Some (Incoming (HoBHeader header)) =>
      s ← process_incoming_header block_id header current_slot s;
      Ok (∅, s)
  | Some (Incoming (HoBBlock block_id _ _)) =>
      '(block_infos, s) ← process_incoming_block block_id current_slot s;
      match block_infos with
      | Some (parents_hash_period, slot, incompatibilities, inherited_count) =>
          s ← expect_ok "error adding block to graph"
                (add_block_to_graph block_id parents_hash_period slot incompatibilities
                   inherited_count s);
          Ok (after_added block_id s)
      | None => Ok (∅, s)
      end
  | Some (WaitingForSlot hb) =>
      if opt_slot_lt current_slot (Some (get_slot hb)) then Ok (∅, s)
      else
        '(slot, s) ← back_to_incoming block_id s;
        Ok ({[(slot, block_id)]}, s)
  | Some (WaitingForDependencies hb deps _) =>
      if decide (deps ≠ ∅) then Ok (∅, s)
      else
        '(slot, s) ← back_to_incoming block_id s;
        Ok ({[(slot, block_id)]}, s)
  end.

Fixpoint rec_process_loop {E : Type} (fuel : nat) (to_ack : gset (Slot * BlockId))
    (current_slot : option Slot) s : outcome E ConsensusState :=
  match fuel with
  | O => OutOfFuel
  | S fuel =>
      match pop_first to_ack with
      | None => Ok s
      | Some (_, hash, to_ack) =>
          '(reprocess, s) ← process hash current_slot s;
          rec_process_loop fuel (to_ack ∪ reprocess) current_slot s
      end
  end.

(** The fuel of [rec_process].  An item is popped at most twice (once waiting,
    once incoming) before a block of the map becomes active or leaves the
    pending statuses, and a block that becomes active adds at most one item per
    block of the map. *)
Definition is_pending (st : BlockStatus) : Prop :=
  match st with
  | Incoming _ | WaitingForSlot _ | WaitingForDependencies _ _ _ => True
  | _ => False
  end.
#[global] Instance is_pending_dec st : Decision (is_pending st).
Proof. destruct st; apply _. Defined.

Definition pending_blocks (m : Statuses) : nat :=
  size (filter (λ '(_, st), is_pending st) m).
Definition rec_process_fuel (to_ack : gset (Slot * BlockId)) (m : Statuses) : nat :=
  S (2 * size to_ack + pending_blocks m * (2 * size m + 2)).

Definition rec_process {E : Type} (to_ack : gset (Slot * BlockId)) (current_slot : option Slot) s
    : outcome E ConsensusState :=
  rec_process_loop (rec_process_fuel to_ack (block_statuses (blocks_state s)))
    to_ack current_slot s.

(** ** Notifying the other modules *)

(** The metadata of a block that execution does not know: its storage must be
    there. *)
Definition block_metadata {E} s (b : BlockId)
    : outcome E (ActiveBlock * ExecutionBlockMetadata) :=
  match bs_get (blocks_state s) b with
  | Some (Active a (SoBStorage storage)) =>
      Ok (a, MkExecutionBlockMetadata (ab_same_thread_parent_creator a) (Some storage))
  | _ => Panic "block not found in active blocks and/or its operations are missing"
  end.

(** The accumulator of the closure over the new blockclique: the new blockclique,
    the previous one, the metadata to send, and whether a block is new. *)
Definition clique_acc : Type :=
  gmap BlockId Slot * gmap BlockId Slot * gmap BlockId ExecutionBlockMetadata * bool.

Definition notify_clique_block {E} s (acc : clique_acc) (b : BlockId) : outcome E clique_acc :=
  let '(new_blockclique, prev, metadata, changed) := acc in
  match prev !! b with
  | Some slot => Ok (<[b := slot]> new_blockclique, delete b prev, metadata, changed)
  | None =>
      '(a, md) ← block_metadata s b;
      Ok (<[b := ab_slot a]> new_blockclique, prev, <[b := md]> metadata, true)
  end.

Definition notify_execution {E} (finalized_blocks : gmap Slot BlockId) s
    : outcome E ConsensusState :=
  new_blocks_metadata ← foldM (λ metadata b,
      if decide (is_Some (prev_blockclique s !! b)) then Ok metadata
      else '(_, md) ← block_metadata s b; Ok (<[b := md]> metadata))
    (map_to_list finalized_blocks).*2 ∅;
  clique ← get_blockclique s;
  '(new_blockclique, prev, metadata, changed) ←
    foldM (notify_clique_block s) (set_iter clique)
      (∅, prev_blockclique s, new_blocks_metadata, false);
  let blockclique_changed := changed || bool_decide (prev ≠ ∅) in
  let s := set_prev_blockclique new_blockclique s in
  if bool_decide (finalized_blocks = ∅) && negb blockclique_changed then Ok s
  else
    Ok (send (BlockcliqueStatus finalized_blocks
                (if blockclique_changed
                 then Some (collect_map ((λ '(k, v), (v, k)) <$> map_iter new_blockclique))
                 else None)
                metadata) s).

(** Send messages in order until one is refused; what is left starts with it. *)
Fixpoint send_all {A} (msg : A → ChannelMsg) (items : list A) s : list A * ConsensusState :=
  match items with
  | [] => ([], s)
  | x :: rest =>
      let '(ok, s) := try_send (msg x) s in
      if (ok : bool) then send_all msg rest s else (x :: rest, s)
  end.

(** The blocks that became final: their slots for execution, and the statistics. *)
Definition final_block_info s (now : N) (acc : gmap Slot BlockId * list (N * Address * bool))
    (b : BlockId) : gmap Slot BlockId * list (N * Address * bool) :=
  let '(slots, stats) := acc in
  match get_active s b with
  | Some a =>
      (<[ab_slot a := b]> slots,
       stats ++ [(now, ab_creator_address a,
                  bool_decide (b ∈ (protocol_blocks s).*2))])
  | None => acc
  end.

(** A vector is popped from its end, so the items are sent last first, and what
    is left goes back in the order of the vector. *)
Definition block_db_changed (now : N) s
    : outcome (ConsensusError * ConsensusState) ConsensusState :=
  let '(undelivered, s) :=
    send_all (λ '(b, st), IntegratedBlock b st) (reverse (map_iter (to_propagate s)))
      (set_to_propagate ∅ s) in
  let s := set_to_propagate (collect_map undelivered) s in
  if decide (undelivered ≠ []) then Err (ProtocolError "integrated_block", s)
  else
    let '(undelivered, s) :=
      send_all BlockAttack (reverse (attack_attempts s)) (set_attack_attempts [] s) in
    let s := set_attack_attempts (reverse undelivered) s in
    if decide (undelivered ≠ []) then Err (ProtocolError "notify_block_attack", s)
    else
      let '(final_block_slots, stats) :=
        foldl (final_block_info s now) (∅, []) (set_iter (new_final_blocks s)) in
      s ← notify_execution final_block_slots s;
      let s := set_final_block_stats (final_block_stats s ++ stats) s in
      let s := set_stale_block_stats
        (stale_block_stats s ++ replicate (size (new_stale_blocks s)) now) s in
      let s := set_new_stale_blocks ∅ (set_new_final_blocks ∅ s) in
      s ← sync_wishlist s;
      let latest_final_periods := (latest_final_blocks_periods s).*2 in
      if decide (save_final_periods s = latest_final_periods) then Ok s
      else Ok (set_save_final_periods latest_final_periods
                 (send (FinalCsPeriods latest_final_periods) s)).
End process.
