(* ===== verification/Invariant.v ===== *)
(** * The invariant of the block graph

    What [add_block_to_graph] (process.rs, graph.rs) maintains: the
    incompatibility graph is undirected and its vertices are the non-final
    active blocks; the listed cliques are cliques, none inside another, with
    their total fitness and exactly one blockclique; links between blocks are
    consistent.  The insertion of a block keeps all of it and neither fails nor
    panics. *)

From Stdlib Require Import ZArith.
From S2P Require Import Prelude Slots Times Cliques Traversal Models Storage Blocks BlocksState.
From S2P Require Import ConsensusState Graph Verifications Process.

Open Scope N_scope.

(** ** Edits of [gi_head] *)

Section gi.
Context `{!SetIter BlockId}.
Implicit Types (gi : gmap BlockId (gset BlockId)).

Lemma foldl_alter_lookup (f : gset BlockId → gset BlockId) l gi u :
  (∀ X, f (f X) = f X) →
  foldl (λ gi o, alter f o gi) gi l !! u = if decide (u ∈ l) then f <$> gi !! u else gi !! u.
Proof using.
  intros Hf. revert gi. induction l as [|o l IH]; intros gi; cbn [foldl]; [done|].
  rewrite IH. destruct (decide (u = o)) as [->|Hne].
  - rewrite lookup_alter_eq, (decide_True (P := o ∈ o :: l)) by (by left).
    destruct (gi !! o); cbn; [|by case_decide]. rewrite Hf. by case_decide.
  - rewrite lookup_alter_ne by done. repeat case_decide; try done; set_solver.
Qed.

Lemma remove_from_gi_head_eq b gi :
  graph_ok gi → remove_from_gi_head b gi = graph_remove gi b.
Proof.
  intros Hok. unfold remove_from_gi_head.
  assert (∀ u n, gi !! u = Some n → b ∈ n → u ∈ gi !!! b) as Hsym.
  { intros u n Hu Hb. apply (graph_ok_sym gi u b Hok). unfold incompatible.
    by rewrite (lookup_total_correct _ _ _ Hu). }
  apply map_eq. intros u. unfold graph_remove. rewrite lookup_fmap.
  destruct (gi !! b) as [other|] eqn:Hb.
  - rewrite foldl_alter_lookup by set_solver.
    destruct (decide (u = b)) as [->|Hne].
    + rewrite lookup_delete_eq. by case_decide.
    + rewrite lookup_delete_ne by done. case_decide as Hin; [done|].
      destruct (gi !! u) as [n|] eqn:Hu; cbn; [|done]. f_equal.
      assert (b ∉ n); [|set_solver]. intros Hbn. apply Hin, elem_of_set_iter.
      rewrite <-(lookup_total_correct _ _ _ Hb). by eapply Hsym.
  - rewrite delete_id by done. destruct (gi !! u) as [n|] eqn:Hu; cbn; [|done]. f_equal.
    assert (b ∉ n); [|set_solver]. intros Hbn. apply (Hsym u n Hu) in Hbn.
    rewrite lookup_total_alt, Hb in Hbn. cbn in Hbn. set_solver.
Qed.

Lemma add_incompatibilities_eq b inc gi :
  b ∉ dom gi → inc ⊆ dom gi → add_incompatibilities b inc gi = Ok (graph_add gi b inc).
Proof.
  intros Hb Hinc. unfold add_incompatibilities.
  destruct (foldM_total (λ pre gi',
      ∀ u, gi' !! u = (λ n, if decide (u ∈ pre) then n ∪ {[b]} else n) <$> gi !! u)
    (λ gi incomp_h,
         l ← ok_or (MissingBlock "missing block when adding incomp to gi_head") (gi !! incomp_h);
         Ok (<[incomp_h := l ∪ {[b]}]> gi)) (set_iter inc) gi) as (gi' & -> & Hgi').
  - intros u. by destruct (gi !! u).
  - intros pre h post gi' Hpre IH.
    assert (is_Some (gi !! h)) as [n Hn].
    { apply elem_of_dom, Hinc. rewrite <-elem_of_set_iter, Hpre. set_solver. }
    rewrite IH, Hn. cbn [fmap option_fmap option_map ok_or mbind outcome_bind].
    eexists. split; [done|]. intros u. destruct (decide (u = h)) as [->|Hne].
    + rewrite lookup_insert_eq, Hn. cbn. rewrite (decide_True (P := h ∈ pre ++ [h])) by set_solver.
      case_decide; [f_equal; set_solver|done].
    + rewrite lookup_insert_ne, IH by done. destruct (gi !! u); cbn; [|done]. f_equal.
      repeat case_decide; try done; set_solver.
  - cbn [mbind outcome_bind]. f_equal. unfold graph_add. f_equal.
    apply map_eq. intros u. rewrite Hgi', map_lookup_imap. destruct (gi !! u); cbn; [|done].
    f_equal. rewrite (decide_ext (u ∈ set_iter inc) (u ∈ inc)) by (by rewrite elem_of_set_iter).
    done.
Qed.
End gi.

(** ** The list of cliques *)

Record cliques_ok (s : ConsensusState) (gi : gmap BlockId (gset BlockId)) (l : list Clique)
    : Prop := {
  co_ne : l ≠ [];
  co_clique : ∀ c, c ∈ l → is_clique gi (block_ids c);
  co_anti : antichain (block_ids <$> l);
  co_one : length (filter (λ c, is_blockclique c = true) l) = 1%nat;
  co_fit : ∀ c, c ∈ l → fitness c = weight s (block_ids c) }.

Section cliques.
Implicit Types (s : ConsensusState) (gi : gmap BlockId (gset BlockId)) (l : list Clique).

Lemma remove_from_cliques_unchanged b f l :
  l ≠ [] → (∀ c, c ∈ l → b ∉ block_ids c ∧ block_ids c ≠ ∅) → remove_from_cliques b f l = l.
Proof.
  intros Hne Hl. unfold remove_from_cliques.
  assert (remove_from_clique b f <$> l = l) as ->.
  { clear Hne. induction l as [|c l IH]; [done|]. cbn.
    rewrite IH by (intros c' Hc'; apply Hl; by right). f_equal.
    unfold remove_from_clique. rewrite decide_False; [done|]. apply Hl. by left. }
  assert (filter (λ c, block_ids c ≠ ∅) l = l) as ->; [|by destruct l].
  clear Hne. induction l as [|c l IH]; [done|]. rewrite filter_cons_True by (apply Hl; by left).
  rewrite IH; [done|]. intros c' Hc'. apply Hl. by right.
Qed.

(** A clique inside every other one is the only one. *)
Lemma antichain_single (l : list (gset BlockId)) C :
  antichain l → C ∈ l → (∀ D, D ∈ l → C ⊆ D) → l = [C].
Proof.
  intros Ha [i Hi]%list_elem_of_lookup_1 Hall.
  assert (∀ j D, l !! j = Some D → j = i) as Honly.
  { intros j D Hj. symmetry. eapply Ha; [done|done|]. apply Hall. by eapply list_elem_of_lookup_2. }
  destruct l as [|D l]; [done|].
  assert (0%nat = i) as <- by (by eapply (Honly 0%nat)). cbn in Hi. injection Hi as ->.
  destruct l as [|D' l]; [done|]. by specialize (Honly 1%nat D' eq_refl).
Qed.

Lemma filter_blockclique_fmap (f : Clique → Clique) l :
  (∀ c, is_blockclique (f c) = is_blockclique c) →
  length (filter (λ c, is_blockclique c = true) (f <$> l))
  = length (filter (λ c, is_blockclique c = true) l).
Proof.
  intros Hf. induction l as [|c l IH]; [done|]. cbn [fmap list_fmap].
  rewrite !filter_cons, Hf. case_decide; cbn; by rewrite IH.
Qed.

Section final_removal.
Context s gi l b (Hok : cliques_ok s gi l) (Hgi : graph_ok gi)
  (Hb : ∀ c, c ∈ l → b ∈ block_ids c)
  (Hw : ∀ c, c ∈ l → weight s (block_ids c) ≤ u64_max).
Local Notation f := (fitness_of s b).

Lemma removed_clique c :
  c ∈ l → remove_from_clique b f c
    = MkClique (block_ids c ∖ {[b]}) (weight s (block_ids c ∖ {[b]})) (is_blockclique c).
Proof using Hok Hb Hw Hgi.
  intros Hc. unfold remove_from_clique. rewrite decide_True by (by apply Hb). f_equal.
  rewrite (co_fit _ _ _ Hok c Hc). specialize (Hw c Hc). unfold weight in *.
  rewrite (set_sum_delete _ _ b (Hb c Hc)) in *. rewrite wrapping_sub_small; lia.
Qed.

Lemma removed_cliques_fmap :
  remove_from_clique b f <$> l
  = (λ c, MkClique (block_ids c ∖ {[b]}) (weight s (block_ids c ∖ {[b]})) (is_blockclique c)) <$> l.
Proof using Hok Hb Hw Hgi.
  apply list_fmap_ext. intros i c Hc. apply removed_clique. by eapply list_elem_of_lookup_2.
Qed.

Lemma removed_cliques_cases :
  remove_from_cliques b f l = remove_from_clique b f <$> l
  ∨ (∃ c, l = [c] ∧ block_ids c = {[b]}) ∧ remove_from_cliques b f l = [MkClique ∅ 0 true].
Proof using Hok Hb Hw Hgi.
  rewrite removed_cliques_fmap. unfold remove_from_cliques. rewrite removed_cliques_fmap.
  destruct (decide (Exists (λ c, block_ids c ∖ {[b]} = ∅) l)) as [He|He].
  - right. apply Exists_exists in He as (c & Hc & Hemp).
    assert (block_ids c = {[b]}) as Hcb.
    { apply set_eq. intros x. split; [|intros ->%elem_of_singleton; by apply Hb].
      intros Hx. destruct (decide (x = b)); set_solver. }
    assert (block_ids <$> l = [block_ids c]) as Hl.
    { apply antichain_single; [apply Hok|by apply list_elem_of_fmap_2|].
      intros D (c' & -> & Hc')%list_elem_of_fmap. rewrite Hcb. apply Hb in Hc'. set_solver. }
    destruct l as [|c' [|]]; try done. cbn in Hl. injection Hl as Hl.
    split; [exists c'; by rewrite Hl|]. cbn [fmap list_fmap].
    rewrite filter_cons_False, filter_nil; [done|]. cbn. rewrite Hl, Hcb. set_solver.
  - left. rewrite <-Forall_Exists_neg, Forall_forall in He.
    set (g := λ c, MkClique (block_ids c ∖ {[b]}) (weight s (block_ids c ∖ {[b]})) (is_blockclique c)).
    assert (filter (λ c, block_ids c ≠ ∅) (g <$> l) = g <$> l) as ->.
    { clear -He. induction l as [|c l' IH]; [done|]. cbn [fmap list_fmap].
      rewrite filter_cons_True by (apply He; by left).
      rewrite IH; [done|]. intros c' Hc'. apply He. by right. }
    pose proof (co_ne _ _ _ Hok). by destruct l.
Qed.

Lemma cliques_ok_final :
  cliques_ok s (graph_remove gi b) (remove_from_cliques b f l).
Proof using Hok Hb Hw Hgi.
  destruct removed_cliques_cases as [->|[_ ->]].
  2:{ split; [done| | |done|].
      - intros c ->%list_elem_of_singleton. split; set_solver.
      - intros i j C D [-> _]%list_lookup_singleton_Some [-> _]%list_lookup_singleton_Some. done.
      - intros c ->%list_elem_of_singleton. unfold weight. cbn. by rewrite set_sum_empty. }
  rewrite removed_cliques_fmap. split.
  - pose proof (co_ne _ _ _ Hok). by destruct l.
  - intros c (c' & -> & Hc')%list_elem_of_fmap. cbn. apply is_clique_remove; [done|].
    by apply Hok.
  - rewrite <-list_fmap_compose. intros i j C D HC HD Hsub.
    rewrite list_lookup_fmap in HC, HD. apply fmap_Some in HC as (c & Hc & ->), HD as (d & Hd & ->).
    apply (co_anti _ _ _ Hok i j (block_ids c) (block_ids d)); [by rewrite list_lookup_fmap, Hc
      |by rewrite list_lookup_fmap, Hd|].
    intros x Hx. cbn in Hsub. destruct (decide (x = b)) as [->|Hne].
    + apply Hb. by eapply list_elem_of_lookup_2.
    + set_solver.
  - rewrite filter_blockclique_fmap by done. apply Hok.
  - intros c (c' & -> & Hc')%list_elem_of_fmap. done.
Qed.

(** The blocks that every clique holds, but the removed one, are still in all. *)
Lemma common_after_final x :
  x ≠ b → (∀ c, c ∈ l → x ∈ block_ids c) →
  ∀ c, c ∈ remove_from_cliques b f l → x ∈ block_ids c.
Proof using Hok Hb Hw Hgi.
  intros Hx Hall c. destruct removed_cliques_cases as [->|[(c' & Hl & Hc') ->]].
  - rewrite removed_cliques_fmap. intros (c' & -> & Hc')%list_elem_of_fmap. cbn.
    apply Hall in Hc'. set_solver.
  - exfalso. specialize (Hall c' ltac:(rewrite Hl; by left)). rewrite Hc' in Hall. set_solver.
Qed.

Lemma weight_after_final c :
  c ∈ remove_from_cliques b f l → weight s (block_ids c) ≤ u64_max.
Proof using Hok Hb Hw Hgi.
  destruct removed_cliques_cases as [->|[_ ->]].
  - rewrite removed_cliques_fmap. intros (c' & -> & Hc')%list_elem_of_fmap. cbn.
    specialize (Hw c' Hc'). pose proof (set_sum_mono (fitness_of s)
      (block_ids c' ∖ {[b]}) (block_ids c') ltac:(set_solver)). unfold weight in *. lia.
  - intros ->%list_elem_of_singleton. unfold weight; cbn. rewrite set_sum_empty. done.
Qed.
End final_removal.
End cliques.

(** ** The invariant *)

Definition is_nonfinal (s : ConsensusState) (x : BlockId) : Prop :=
  ∃ a, get_active s x = Some a ∧ ab_is_final a = false.

Section invariant.
Context `{!SetIter BlockId, !KeyHash, Env : ConsensusEnv}.
Implicit Types (s : ConsensusState).

(** One active block: its thread, the sizes of its vectors, and children that are
    active blocks with it as a parent, filed under their thread. *)
Record block_ok s (x : BlockId) (a : ActiveBlock) : Prop := {
  bo_thread : thread (ab_slot a) < thread_count config;
  bo_slot : slot_index (thread_count config) (ab_slot a) ≤ u64_max;
  bo_children : length (ab_children a) = N.to_nat (thread_count config);
  bo_parents : period (ab_slot a) ≠ last_start_period config →
    length (ab_parents a) = N.to_nat (thread_count config);
  bo_fitness : 1 ≤ ab_fitness a;
  bo_child : ∀ i c y p, ab_children a !! i = Some c → c !! y = Some p →
    ∃ ay, get_active s y = Some ay ∧ x ∈ (ab_parents ay).*1
      ∧ i = N.to_nat (thread (ab_slot ay)) }.

(** [X] holds the blocks that are active but not in [gi_head] yet. *)
Record cs_base (X : gset BlockId) s : Prop := {
  ci_bs : bs_ok (blocks_state s);
  ci_seq : seq_ok (blocks_state s);
  ci_graph : graph_ok (gi_head s);
  ci_dom : ∀ x, x ∈ dom (gi_head s) ↔ is_nonfinal s x ∧ x ∉ X;
  ci_blocks : ∀ x a, get_active s x = Some a → block_ok s x a;
  ci_latest : length (latest_final_blocks_periods s) = N.to_nat (thread_count config) }.

Definition cs_inv (X : gset BlockId) s : Prop :=
  cs_base X s ∧ cliques_ok s (gi_head s) (max_cliques s).

(** What no step undoes: a final block stays final and the latest final periods
    do not decrease. *)
Record finality_kept s s' : Prop := {
  fk_final : ∀ x a, get_active s x = Some a → ab_is_final a = true →
    ∃ a', get_active s' x = Some a' ∧ ab_is_final a' = true;
  fk_latest : ∀ i p, latest_final_blocks_periods s !! i = Some p →
    ∃ q, latest_final_blocks_periods s' !! i = Some q ∧ p.2 ≤ q.2 }.

(** A block that waits to be processed, without its sequence number. *)
Definition pending_view (m : Statuses) (x : BlockId) : option BlockStatus :=
  m !! x ≫= λ st, if decide (is_pending st) then Some (set_sequence_number 0 st) else None.

(** Steps inside the graph: nothing undone, no pending block changed, no block
    forgotten and none added to the active ones. *)
Record evolves s s' : Prop := {
  ev_finality : finality_kept s s';
  ev_pending : ∀ x, pending_view (block_statuses (blocks_state s')) x
    = pending_view (block_statuses (blocks_state s)) x;
  ev_size : size (block_statuses (blocks_state s')) = size (block_statuses (blocks_state s));
  ev_active : ∀ x a' sb, block_statuses (blocks_state s') !! x = Some (Active a' sb) →
    ∃ a, block_statuses (blocks_state s) !! x = Some (Active a sb) ∧ ab_fitness a' = ab_fitness a;
  ev_nonfinal : ∀ x, is_nonfinal s' x → is_nonfinal s x;
  ev_new_final : ∀ x, x ∈ new_final_blocks s' → x ∈ new_final_blocks s ∨ is_nonfinal s x }.

Lemma finality_kept_refl s : finality_kept s s.
Proof using. split; [eauto|]. intros i p Hp. exists p. split; [done|lia]. Qed.

Lemma finality_kept_trans s1 s2 s3 :
  finality_kept s1 s2 → finality_kept s2 s3 → finality_kept s1 s3.
Proof using.
  intros [F1 L1] [F2 L2]. split.
  - intros x a Hx Ha. destruct (F1 x a Hx Ha) as (a' & Hx' & Ha'). by eapply F2.
  - intros i p Hp. destruct (L1 i p Hp) as (q & Hq & ?), (L2 i q Hq) as (r & ? & ?).
    exists r. split; [done|lia].
Qed.

Lemma evolves_refl s : evolves s s.
Proof using. split; [apply finality_kept_refl|done|done|eauto|done|by left]. Qed.

Lemma evolves_trans s1 s2 s3 : evolves s1 s2 → evolves s2 s3 → evolves s1 s3.
Proof using.
  intros [F1 P1 S1 A1 N1 W1] [F2 P2 S2 A2 N2 W2].
  split; [by eapply finality_kept_trans|congruence|congruence| |by auto|].
  - intros x a3 sb H3. destruct (A2 x a3 sb H3) as (a2 & H2 & ?), (A1 x a2 sb H2) as (a1 & H1 & ?).
    exists a1. split; congruence.
  - intros x [?|?]%W2; [by apply W1|right; by apply N1].
Qed.

(** An edit of active blocks, and a change of sequence number. *)
Lemma pending_view_active_edit m m' x : active_edit m m' → pending_view m' x = pending_view m x.
Proof using.
  intros He. unfold pending_view. by destruct (He x) as [->|(? & ? & ? & ? & -> & ->)].
Qed.

Lemma is_pending_number n st : is_pending (set_sequence_number n st) ↔ is_pending st.
Proof using. by destruct st. Qed.

Lemma pending_view_number n m m' x :
  m' !! x = set_sequence_number n <$> m !! x → pending_view m' x = pending_view m x.
Proof using.
  intros Hx. unfold pending_view. rewrite Hx. destruct (m !! x) as [st|]; [|done]. cbn.
  rewrite set_sequence_number_twice. pose proof (is_pending_number n st).
  repeat case_decide; tauto.
Qed.

(** Two states whose active blocks are the same up to links. *)
Definition same_blocks s s' : Prop :=
  ∀ x, match get_active s x with
       | Some a => ∃ a', get_active s' x = Some a' ∧ same_static a a'
       | None => get_active s' x = None
       end.

Lemma same_blocks_get s s' x a' :
  same_blocks s s' → get_active s' x = Some a' →
  ∃ a, get_active s x = Some a ∧ same_static a a'.
Proof using.
  intros Hs Hx. specialize (Hs x). destruct (get_active s x) as [a|]; [|congruence].
  destruct Hs as (a2 & Ha2 & ?). rewrite Hx in Ha2. injection Ha2 as ->. eauto.
Qed.

Lemma same_blocks_nonfinal s s' x : same_blocks s s' → is_nonfinal s x ↔ is_nonfinal s' x.
Proof using.
  intros Hs. split.
  - intros (a & Ha & Hf). specialize (Hs x). rewrite Ha in Hs.
    destruct Hs as (a' & Ha' & _ & _ & _ & Hf' & _). exists a'. split; congruence.
  - intros (a' & Ha' & Hf). destruct (same_blocks_get s s' x a' Hs Ha') as (a & Ha & _ & _ & _ & Hf' & _).
    exists a. split; congruence.
Qed.

Lemma same_blocks_fitness s s' x : same_blocks s s' → fitness_of s' x = fitness_of s x.
Proof using.
  intros Hs. specialize (Hs x). unfold fitness_of. destruct (get_active s x) as [a|].
  - destruct Hs as (a' & -> & _ & _ & _ & _ & _ & Hf). cbn. done.
  - by rewrite Hs.
Qed.

Lemma cliques_ok_weight s s' gi l :
  (∀ c, c ∈ l → weight s' (block_ids c) = weight s (block_ids c)) →
  cliques_ok s gi l → cliques_ok s' gi l.
Proof using.
  intros Hw [H1 H2 H3 H4 H5]. split; [done..|]. intros c Hc. rewrite H5, Hw; done.
Qed.

Lemma same_blocks_finality s s' :
  same_blocks s s' → latest_final_blocks_periods s' = latest_final_blocks_periods s →
  finality_kept s s'.
Proof using.
  intros Hs Hl. split.
  - intros x a Hx Ha. specialize (Hs x). rewrite Hx in Hs.
    destruct Hs as (a' & Ha' & _ & _ & _ & Hf & _). exists a'. split; congruence.
  - intros i p Hp. rewrite Hl. exists p. split; [done|lia].
Qed.

Lemma link_edit_blocks s m :
  link_edit (block_statuses (blocks_state s)) m → same_blocks s (with_statuses m s).
Proof using.
  intros He x. rewrite get_active_with_statuses. specialize (He x).
  unfold get_active, bs_get. destruct (block_statuses (blocks_state s) !! x) as [[]|];
    try by rewrite He.
  destruct He as (a' & -> & ?). eauto.
Qed.

Lemma link_edit_get m m' x a' sb :
  link_edit m m' → m' !! x = Some (Active a' sb) →
  ∃ a, m !! x = Some (Active a sb) ∧ ab_fitness a' = ab_fitness a.
Proof using.
  intros He Hx. specialize (He x). destruct (m !! x) as [[| | |a sb0|]|]; try congruence.
  destruct He as (a2 & Ha2 & Hst). rewrite Hx in Ha2. injection Ha2 as <- <-. exists a.
  split; [done|apply Hst].
Qed.

Lemma link_edit_evolves s m :
  link_edit (block_statuses (blocks_state s)) m → evolves s (with_statuses m s).
Proof using.
  intros He. pose proof (link_edit_blocks s m He) as Hs. split.
  - by apply same_blocks_finality.
  - intros x. by apply pending_view_active_edit, link_edit_active.
  - by apply active_edit_size, link_edit_active.
  - intros x a' sb Hx. cbn in Hx. by apply (link_edit_get _ m).
  - intros x. by apply (same_blocks_nonfinal s).
  - by left.
Qed.

Lemma bs_ok_active_edit bs m :
  active_edit (block_statuses bs) m → bs_ok bs → bs_ok (set_statuses m bs).
Proof using.
  intros He Hok. eapply bs_ok_same; [done| |by apply active_edit_same].
  intros k. by autorewrite with bs.
Qed.

Lemma seq_ok_active_edit bs m :
  active_edit (block_statuses bs) m → seq_ok bs → seq_ok (set_statuses m bs).
Proof using.
  intros He [Hle Hinj]. pose proof (active_edit_number _ _ He) as Hn. split.
  - intros x n. rewrite Hn. apply Hle.
  - intros x y n. rewrite !Hn. apply Hinj.
Qed.

(** ** Discarding an active block *)

(** The active blocks once [b], which was [a], has left and its parents have
    forgotten it. *)
Definition without (b : BlockId) (a : ActiveBlock) s s' : Prop :=
  ∀ x, get_active s' x =
    if decide (x = b) then None
    else (λ ax, if decide (x ∈ (ab_parents a).*1)
                then edit_thread (thread (ab_slot a)) (delete b) ax else ax) <$> get_active s x.

Lemma without_get b a s s' x ax' :
  without b a s s' → get_active s' x = Some ax' →
  x ≠ b ∧ ∃ ax, get_active s x = Some ax ∧ same_static ax ax'
    ∧ (∀ i c' y p, ab_children ax' !! i = Some c' → c' !! y = Some p →
         (∃ c, ab_children ax !! i = Some c ∧ c !! y = Some p)
         ∧ (y = b → x ∈ (ab_parents a).*1 → i ≠ N.to_nat (thread (ab_slot a))))
    ∧ length (ab_children ax') = length (ab_children ax).
Proof using.
  intros Hw Hx. rewrite Hw in Hx. case_decide as Hxb; [done|]. split; [done|].
  apply fmap_Some in Hx as (ax & Hax & ->). exists ax. split; [done|].
  case_decide as Hp; cbn.
  - split; [by split_and!|]. rewrite length_alter. split; [|done].
    intros i c' y p Hi Hy. destruct (decide (N.to_nat (thread (ab_slot a)) = i)) as [<-|Hne].
    + rewrite list_lookup_alter_eq in Hi. apply fmap_Some in Hi as (c & Hc & ->).
      apply lookup_delete_Some in Hy as [Hyb Hy]. split; [eauto|]. intros ->. done.
    + rewrite list_lookup_alter_ne in Hi by done. split; [eauto|]. intros _ _ ->. done.
  - split; [apply same_static_refl|]. split; [|done]. intros i c' y p Hi Hy. split; [eauto|done].
Qed.

Lemma without_blocks_ok b a s s' :
  without b a s s' → get_active s b = Some a →
  (∀ x ax, get_active s x = Some ax → block_ok s x ax) →
  ∀ x ax, get_active s' x = Some ax → block_ok s' x ax.
Proof using.
  intros Hw Hb Hok x ax' Hx.
  destruct (without_get b a s s' x ax' Hw Hx) as (Hxb & ax & Hax & Hst & Hch & Hlen).
  destruct (Hok x ax Hax) as [H1 H0 H2 H3 H4 H5].
  destruct Hst as (_ & _ & Hpar & Hfin & Hsl & Hfit).
  split; rewrite ?Hsl, ?Hlen, ?Hpar, ?Hfit; [done..|].
  intros i c' y p Hi Hy. destruct (Hch i c' y p Hi Hy) as [(c & Hc & Hcy) Hnb].
  destruct (H5 i c y p Hc Hcy) as (ay & Hay & Hxp & ->).
  assert (y ≠ b) as Hyb.
  { intros ->. rewrite Hb in Hay. injection Hay as <-. by apply Hnb. }
  exists (if decide (y ∈ (ab_parents a).*1) then edit_thread (thread (ab_slot a)) (delete b) ay
          else ay).
  split; [by rewrite Hw, decide_False, Hay by done|].
  by case_decide.
Qed.

Lemma without_nonfinal b a s s' x :
  without b a s s' → is_nonfinal s' x ↔ x ≠ b ∧ is_nonfinal s x.
Proof using.
  intros Hw. split.
  - intros (ax' & Hx & Hf). destruct (without_get b a s s' x ax' Hw Hx)
      as (Hxb & ax & Hax & (_ & _ & _ & Hfin & _) & _).
    split; [done|]. exists ax. split; congruence.
  - intros (Hxb & ax & Hax & Hf).
    exists (if decide (x ∈ (ab_parents a).*1) then edit_thread (thread (ab_slot a)) (delete b) ax
            else ax).
    rewrite Hw, decide_False, Hax by done. split; [done|]. by case_decide.
Qed.

Lemma without_fitness b a s s' x :
  without b a s s' → x ≠ b → fitness_of s' x = fitness_of s x.
Proof using.
  intros Hw Hx. unfold fitness_of. rewrite Hw, decide_False by done.
  destruct (get_active s x); cbn; [|done]. by case_decide.
Qed.

Lemma without_weight b a s s' C :
  without b a s s' → b ∉ C → weight s' C = weight s C.
Proof using.
  intros Hw Hb. apply set_sum_ext. intros x Hx. eapply without_fitness; [done|].
  by intros ->.
Qed.

Lemma transitioned_pending b new m bs bs' x :
  active_edit (delete b (block_statuses bs)) m → transitioned b new m bs bs' → x ≠ b →
  pending_view (block_statuses bs') x = pending_view (block_statuses bs) x.
Proof using.
  intros He Ht Hx.
  assert (pending_view m x = pending_view (block_statuses bs) x) as <-.
  { rewrite (pending_view_active_edit _ _ x He). unfold pending_view.
    by rewrite lookup_delete_ne. }
  destruct (tr_other _ _ _ _ _ Ht x Hx) as [Heq|(_ & n & Heq)]; [unfold pending_view; by rewrite Heq|].
  by eapply pending_view_number.
Qed.

Lemma transitioned_get b new m bs bs' x a' sb :
  link_edit (delete b (block_statuses bs)) m → transitioned b new m bs bs' → x ≠ b →
  block_statuses bs' !! x = Some (Active a' sb) →
  ∃ a, block_statuses bs !! x = Some (Active a sb) ∧ ab_fitness a' = ab_fitness a.
Proof using.
  intros He Ht Hne Hx.
  assert (m !! x = Some (Active a' sb)) as Hm.
  { destruct (tr_other _ _ _ _ _ Ht x Hne) as [Heq|(Hw & n & Heq)]; [congruence|].
    unfold is_waiting in Hw. rewrite Heq in Hx. by destruct (m !! x) as [[]|]. }
  destruct (link_edit_get _ _ x a' sb He Hm) as (a & Ha & ?).
  rewrite lookup_delete_ne in Ha by done. by exists a.
Qed.

(** The transition that discards an active block, its parents forgetting it. *)
Lemma discard_transition {E R} s b a sb st (r : R) (f : callback E R) :
  block_statuses (blocks_state s) !! b = Some (Active a sb) → status_id st = SDiscarded →
  (∀ x ax, get_active s x = Some ax → block_ok s x ax) →
  sequence_counter (blocks_state s) + 1 + N.of_nat (size (block_statuses (blocks_state s)))
    < u64_max →
  (∀ m, f (Some (Active a sb)) m =
     m ← foldM (edit_children (remove_child b (ab_slot a))) (ab_parents a).*1 m;
     Ok (Some st, m, r)) →
  ∃ bs', transition_map (blocks_state s) b f = Ok (bs', r)
    ∧ (bs_ok (blocks_state s) → bs_ok bs') ∧ (seq_ok (blocks_state s) → seq_ok bs')
    ∧ sequence_counter bs' ≤ sequence_counter (blocks_state s) + 1
    ∧ size (block_statuses bs') = size (block_statuses (blocks_state s))
    ∧ (∀ s2, blocks_state s2 = bs' → without b a s s2)
    ∧ (∀ x, pending_view (block_statuses bs') x
         = pending_view (block_statuses (blocks_state s)) x)
    ∧ ∀ x a' sb', block_statuses bs' !! x = Some (Active a' sb') →
        ∃ a0, block_statuses (blocks_state s) !! x = Some (Active a0 sb')
          ∧ ab_fitness a' = ab_fitness a0.
Proof.
  intros Hb Hst Hok Hroom Hf.
  assert (get_active s b = Some a) as Hba by (apply get_active_Some; eauto).
  set (m := delete b (block_statuses (blocks_state s))).
  set (m' := edit_parents (thread (ab_slot a)) (delete b) (ab_parents a).*1 m).
  assert (foldM (edit_children (E := E) (remove_child b (ab_slot a))) (ab_parents a).*1 m = Ok m')
    as Hloop.
  { apply edit_children_loop; [intros c; by rewrite delete_delete_eq|].
    intros p ap sbp _ Hp. unfold m in Hp. apply lookup_delete_Some in Hp as [_ Hp].
    assert (get_active s p = Some ap) as Hap by (apply get_active_Some; eauto).
    rewrite (bo_children _ _ _ (Hok p ap Hap)). pose proof (bo_thread _ _ _ (Hok b a Hba)). lia. }
  destruct (transition_map_spec (blocks_state s) b f (Some st) m' r) as (bs' & Htm & Htr).
  - rewrite Hb, Hf. fold m. by rewrite Hloop.
  - apply link_edit_active, edit_parents_link.
  - rewrite Hb. cbn. by rewrite Hst.
  - done.
  - exists bs'. pose proof Htr as [Hbs Hseq [n Hn] Ho _ Hc1].
    split_and!; [done|done|done| | | | |].
    + apply Hc1. cbn. by rewrite Hst.
    + eapply transitioned_size; [apply link_edit_active, edit_parents_link|done|by rewrite Hb].
    + intros s2 <- x. unfold get_active, bs_get. case_decide as Hx.
      * subst. rewrite Hn. cbn. by destruct st.
      * assert (m' !! x = (λ st, match st with
          | Active ax sbx => if decide (x ∈ (ab_parents a).*1)
              then Active (edit_thread (thread (ab_slot a)) (delete b) ax) sbx else st
          | st => st end) <$> block_statuses (blocks_state s) !! x) as Hm'.
        { unfold m', edit_parents, m. rewrite map_lookup_imap, lookup_delete_ne by done.
          by destruct (block_statuses (blocks_state s) !! x) as [[]|]. }
        destruct (Ho x Hx) as [->|(Hw & n' & ->)]; rewrite Hm'.
        -- destruct (block_statuses (blocks_state s) !! x) as [[]|]; cbn; try done. by case_decide.
        -- unfold is_waiting in Hw. rewrite Hm' in Hw.
           destruct (block_statuses (blocks_state s) !! x) as [[]|]; cbn in *; try done.
           by case_decide.
    + intros x. assert (active_edit m m') as He by apply link_edit_active, edit_parents_link.
      destruct (decide (x = b)) as [->|Hx].
      * unfold pending_view. rewrite Hn, Hb. cbn. by destruct st.
      * by eapply transitioned_pending.
    + intros x a' sb' Hx. destruct (decide (x = b)) as [->|Hne].
      * rewrite Hn in Hx. by destruct st.
      * eapply transitioned_get; [apply edit_parents_link|done..].
Qed.

(** The counters that bound the next transitions. *)
Definition room (k : N) s : Prop :=
  sequence_counter (blocks_state s) + k + N.of_nat (size (block_statuses (blocks_state s)))
    < u64_max.

Lemma without_finality b a s s' :
  without b a s s' → get_active s b = Some a → ab_is_final a = false →
  latest_final_blocks_periods s' = latest_final_blocks_periods s → finality_kept s s'.
Proof using.
  intros Hw Hb Hf Hl. split.
  - intros x ax Hx Hfx. assert (x ≠ b) as Hne by (intros ->; congruence).
    exists (if decide (x ∈ (ab_parents a).*1) then edit_thread (thread (ab_slot a)) (delete b) ax
            else ax).
    rewrite Hw, decide_False, Hx by done. split; [done|]. by case_decide.
  - intros i p Hp. rewrite Hl. exists p. split; [done|lia].
Qed.

Lemma remove_block_spec {E} s b a k :
  cs_inv ∅ s → get_active s b = Some a → ab_is_final a = false →
  (∀ c, c ∈ max_cliques s → b ∉ block_ids c ∧ block_ids c ≠ ∅) → room (k + 1) s →
  ∃ s', remove_block b s = @Ok E _ s' ∧ cs_inv ∅ s' ∧ without b a s s'
    ∧ max_cliques s' = max_cliques s ∧ room k s' ∧ evolves s s'.
Proof.
  intros [[Hbs Hseq Hgi Hdom Hblk Hlat] Hcl] Hb Hf Hnc Hroom.
  pose proof Hb as [sb Hsb]%get_active_Some.
  set (s1 := set_new_stale_blocks
    (<[b := (ab_creator_address a, ab_slot a)]> (new_stale_blocks s))
    (set_max_cliques (remove_from_cliques b (ab_fitness a) (max_cliques s))
       (set_gi_head (remove_from_gi_head b (gi_head s)) s))).
  destruct (@discard_transition E _ s b a sb
    (Discarded (ab_slot a) (ab_creator_address a) (ab_parents a).*1 Stale
       (sequence_counter (blocks_state s))) s1
    (remove_block_closure b s)) as (bs' & Htm & Hbs' & Hseq' & Hc & Hsz & Hw & Hpv & Hsb').
  { done. } { done. } { done. } { unfold room in Hroom. lia. } { intros m. cbn. by rewrite Hf. }
  exists (set_blocks_state bs' s1). unfold remove_block. rewrite Htm. split; [done|].
  assert (without b a s (set_blocks_state bs' s1)) as Hwo by (by apply Hw).
  assert (max_cliques s1 = max_cliques s) as Hcs.
  { apply remove_from_cliques_unchanged; [apply Hcl|done]. }
  split_and!; [|done|done|unfold room in *; cbn; lia|].
  2:{ split; [by eapply without_finality|done..| |by left].
      intros x [_ ?]%(without_nonfinal b a s _ x Hwo). done. }
  split; [split; [by apply Hbs'|by apply Hseq'| | | |done]|].
  - cbn. rewrite remove_from_gi_head_eq by done. by apply graph_ok_remove.
  - intros x. cbn [gi_head set_blocks_state s1 set_new_stale_blocks set_max_cliques set_gi_head].
    rewrite remove_from_gi_head_eq, dom_graph_remove, elem_of_difference, Hdom by done.
    rewrite (without_nonfinal b a s _ x Hwo). set_solver.
  - by eapply without_blocks_ok.
  - change (max_cliques (set_blocks_state bs' s1)) with (max_cliques s1). rewrite Hcs.
    apply (cliques_ok_weight s).
    { intros c Hcc. eapply without_weight; [done|]. by apply Hnc. }
    cbn. rewrite remove_from_gi_head_eq by done. destruct Hcl as [H1 H2 H3 H4 H5].
    split; [done| |done..]. intros c Hcc.
    assert (block_ids c ∖ {[b]} = block_ids c) as <-; [|by apply is_clique_remove, H2].
    apply Hnc in Hcc as [Hbc _]. apply set_eq. intros x. rewrite elem_of_difference, elem_of_singleton.
    split; [tauto|]. intros Hx. split; [done|]. by intros ->.
Qed.

(** ** Finalising blocks *)

(** The active blocks once those of [F] are final. *)
Definition finalised (F : list BlockId) s s' : Prop :=
  ∀ x, get_active s' x
    = (λ a, if decide (x ∈ F) then ab_set_final a else a) <$> get_active s x.

Lemma finalised_get F s s' x a' :
  finalised F s s' → get_active s' x = Some a' →
  ∃ a, get_active s x = Some a ∧ ab_parents a' = ab_parents a ∧ ab_slot a' = ab_slot a
    ∧ ab_children a' = ab_children a ∧ ab_fitness a' = ab_fitness a
    ∧ ab_is_final a' = (bool_decide (x ∈ F) || ab_is_final a).
Proof using.
  intros Hfn Hx. rewrite Hfn in Hx. apply fmap_Some in Hx as (a & Ha & ->). exists a.
  case_decide as HF; [rewrite bool_decide_true by done|rewrite bool_decide_false by done];
    by split_and!.
Qed.

Lemma finalised_fitness F s s' x : finalised F s s' → fitness_of s' x = fitness_of s x.
Proof using.
  intros Hfn. unfold fitness_of. rewrite Hfn. destruct (get_active s x); cbn; [|done].
  by case_decide.
Qed.

Lemma finalised_weight F s s' C : finalised F s s' → weight s' C = weight s C.
Proof using. intros Hfn. apply set_sum_ext. intros x _. by eapply finalised_fitness. Qed.

Lemma finalised_nonfinal F s s' x :
  finalised F s s' → is_nonfinal s' x ↔ x ∉ F ∧ is_nonfinal s x.
Proof using.
  intros Hfn. split.
  - intros (a' & Hx & Hf). destruct (finalised_get F s s' x a' Hfn Hx)
      as (a & Ha & _ & _ & _ & _ & Hfa). rewrite Hf in Hfa. symmetry in Hfa.
    apply orb_false_iff in Hfa as [HF%bool_decide_eq_false Hfa]. split; [done|by exists a].
  - intros (HF & a & Ha & Hf). exists a. rewrite Hfn, Ha. cbn. by rewrite decide_False.
Qed.

Lemma finalised_blocks_ok F s s' :
  finalised F s s' → (∀ x a, get_active s x = Some a → block_ok s x a) →
  ∀ x a, get_active s' x = Some a → block_ok s' x a.
Proof using.
  intros Hfn Hok x a' Hx.
  destruct (finalised_get F s s' x a' Hfn Hx) as (a & Ha & Hp & Hs & Hc & Hf & _).
  destruct (Hok x a Ha) as [H1 H0 H2 H3 H4 H5].
  split; rewrite ?Hs, ?Hc, ?Hp, ?Hf; [done..|].
  intros i c y p Hi Hy. destruct (H5 i c y p Hi Hy) as (ay & Hay & Hxp & ->).
  exists (if decide (y ∈ F) then ab_set_final ay else ay). rewrite Hfn, Hay.
  split; [done|]. by case_decide.
Qed.

Lemma update_active_final s b a sb :
  block_statuses (blocks_state s) !! b = Some (Active a sb) →
  finalised [b] s (update_active ab_set_final s b).
Proof using.
  intros Hb x. unfold update_active. fold (with_statuses
    (statuses_update_active ab_set_final (block_statuses (blocks_state s)) b) s).
  rewrite get_active_with_statuses. unfold statuses_update_active. rewrite Hb.
  unfold get_active, bs_get. destruct (decide (x = b)) as [->|Hne].
  - rewrite lookup_insert_eq, Hb. cbn. by rewrite decide_True by (by left).
  - rewrite lookup_insert_ne by done.
    destruct (block_statuses (blocks_state s) !! x) as [[]|]; cbn; try done.
    rewrite decide_False; [done|set_solver].
Qed.

Lemma note_final_spec b slot s :
  length (latest_final_blocks_periods s) = N.to_nat (thread_count config) →
  thread slot < thread_count config →
  ∃ l, note_final b slot s = Ok (set_latest_final_blocks_periods l s)
    ∧ length l = length (latest_final_blocks_periods s)
    ∧ ∀ i p, latest_final_blocks_periods s !! i = Some p → ∃ q, l !! i = Some q ∧ p.2 ≤ q.2.
Proof using.
  intros Hlen Ht. unfold note_final.
  destruct (idx_total (E := ConsensusError) (latest_final_blocks_periods s) (thread slot))
    as (p0 & -> & Hp0); [lia|]. cbn [mbind outcome_bind].
  destruct (N.ltb_spec p0.2 (period slot)) as [Hlt|Hle].
  - unfold idx_set. destruct (N.ltb_spec (thread slot)
      (N.of_nat (length (latest_final_blocks_periods s)))); [|lia]. cbn [mbind outcome_bind].
    eexists. split; [done|]. split; [by rewrite length_insert|]. intros i p Hp.
    destruct (decide (N.to_nat (thread slot) = i)) as [<-|Hne].
    + rewrite list_lookup_insert_eq by (by apply lookup_lt_Some in Hp). rewrite Hp0 in Hp.
      injection Hp as <-. eexists. split; [done|]. cbn. lia.
    + rewrite list_lookup_insert_ne by done. exists p. split; [done|lia].
  - exists (latest_final_blocks_periods s). split; [by destruct s|]. split; [done|].
    intros i p Hp. exists p. split; [done|lia].
Qed.

Lemma mark_final_block_spec s b a :
  cs_inv ∅ s → get_active s b = Some a →
  (∀ c, c ∈ max_cliques s → b ∈ block_ids c) →
  (∀ c, c ∈ max_cliques s → weight s (block_ids c) ≤ u64_max) →
  ∃ s', mark_final_block s b = Ok s' ∧ cs_inv ∅ s' ∧ finalised [b] s s' ∧ evolves s s'
    ∧ max_cliques s' = remove_from_cliques b (fitness_of s b) (max_cliques s)
    ∧ ∀ k, room k s → room k s'.
Proof.
  intros [[Hbs Hseq Hgi Hdom Hblk Hlat] Hcl] Hb Hall Hw.
  pose proof Hb as [sb Hsb]%get_active_Some.
  unfold mark_final_block.
  change (get_active (set_gi_head ?g s) b) with (get_active s b). rewrite Hb.
  set (s1 := set_max_cliques _ _).
  assert (finalised [b] s s1) as Hfn by exact (update_active_final s b a sb Hsb).
  destruct (note_final_spec b (ab_slot a) s1) as (l & -> & Hl & Hmono).
  { done. } { by apply (bo_thread _ _ _ (Hblk b a Hb)). }
  cbn [mbind outcome_bind]. eexists. split; [done|].
  assert (active_edit (block_statuses (blocks_state s)) (statuses_update_active ab_set_final
    (block_statuses (blocks_state s)) b)) as Hedit.
  { unfold statuses_update_active. rewrite Hsb. by eapply active_edit_insert. }
  assert (fitness_of s b = ab_fitness a) as Hfit by (unfold fitness_of; by rewrite Hb).
  assert (finalised [b] s (set_new_final_blocks (new_final_blocks
    (set_latest_final_blocks_periods l s1) ∪ {[b]}) (set_latest_final_blocks_periods l s1)))
    as Hfn' by exact Hfn.
  split_and!; [|done| |cbn; by rewrite Hfit|].
  3:{ intros k. unfold room. cbn. by rewrite (active_edit_size _ _ Hedit). }
  - split; [split|].
    + by apply bs_ok_active_edit.
    + by apply seq_ok_active_edit.
    + cbn. rewrite remove_from_gi_head_eq by done. by apply graph_ok_remove.
    + intros x. rewrite (finalised_nonfinal [b] s _ x Hfn').
      cbn. rewrite remove_from_gi_head_eq, dom_graph_remove, elem_of_difference, Hdom by done.
      rewrite list_elem_of_singleton, elem_of_singleton. tauto.
    + by eapply finalised_blocks_ok.
    + cbn. by rewrite Hl.
    + cbn [max_cliques gi_head set_new_final_blocks set_latest_final_blocks_periods s1
        set_max_cliques update_active set_blocks_state set_gi_head].
      rewrite remove_from_gi_head_eq, <-Hfit by done.
      apply (cliques_ok_weight s); [intros c _; by eapply finalised_weight|].
      by apply cliques_ok_final.
  - split; [split| | | | |].
    + intros x ax Hx Hfx. exists (if decide (x ∈ [b]) then ab_set_final ax else ax).
      rewrite Hfn', Hx. split; [done|]. by case_decide.
    + exact Hmono.
    + intros x. by apply pending_view_active_edit.
    + by apply active_edit_size.
    + intros x a' sb'. cbn. unfold statuses_update_active. rewrite Hsb.
      intros [[<- [= <- <-]]|[_ Hx]]%lookup_insert_Some; [by exists a|by exists a'].
    + intros x [_ ?]%(finalised_nonfinal [b] s _ x Hfn'). done.
    + intros x [?| ->%elem_of_singleton]%elem_of_union; [by left|]. right.
      destruct (max_cliques s) as [|c l0] eqn:Hcs; [by destruct (co_ne _ _ _ Hcl)|].
      apply (proj1 (Hdom b)). apply (co_clique _ _ _ Hcl c); [by left|]. apply Hall. by left.
Qed.
End invariant.
