(* ===== verification/HeaderCheck.v ===== *)
(** * What a header check guarantees

    [check_header] (verifications.rs) in a state that satisfies the invariant:
    it never panics on a header the network layer accepts, and a header that
    passes has its parents active, in their threads, before it and consistent
    with each other, was produced by the drawn address for a slot that is
    reached and not final yet, and comes with the exact set of non-final blocks
    it is incompatible with. *)

From S2P Require Import Prelude Slots Times Cliques Traversal Models Storage Blocks BlocksState.
From S2P Require Import ConsensusState Graph Verifications Process Invariant.

Open Scope N_scope.

Section header_check.
Context `{!SetIter BlockId, Env : ConsensusEnv}.
Implicit Types (s : ConsensusState) (header : SecuredHeader).
Local Notation tc := (thread_count config).

(** What the network layer guarantees of a header: its thread and its number of
    parents (the deserialiser of headers), and endorsement indexes below the
    number of draws of the slot. *)
Record header_ok header : Prop := {
  ho_thread : thread (header_slot header) < tc;
  ho_parents : length (h_parents (content header)) = N.to_nat tc;
  ho_endorsements : ∀ sel e, get_selection (header_slot header) = Some sel →
    e ∈ endorsements (content header) →
    e_index (content e) < N.of_nat (length (sel_endorsements sel));
  ho_fitness : N.of_nat (length (endorsements (content header))) < u64_max }.

(** The draws of a slot are those the selector gives at once: the producer and
    the endorsers. *)
Definition drawn (slot : Slot) : Prop := get_producer slot ≠ None ∧ get_selection slot ≠ None.

(** An early return of the check is never [Proceed], a header only waits for
    parents that are not active, and it waits for its slot when the slot is not
    reached or not drawn. The last case is that of the slot and endorsement
    checks only. *)
Definition missing_ok s header (missing : gset BlockId) : Prop :=
  ∀ x, x ∈ missing → x ∈ h_parents (content header) ∧ get_active s x = None.
Definition early_return s header (o : HeaderCheckOutcome) : Prop :=
  match o with
  | Proceed _ _ _ _ => False
  | WaitForDependencies missing => missing ≠ ∅ ∧ missing_ok s header missing
  | WaitForSlot => False
  | Discard _ => True
  end.
Definition left_early s header (current_slot : option Slot) (o : HeaderCheckOutcome) : Prop :=
  match o with
  | WaitForSlot =>
      opt_slot_lt current_slot (Some (header_slot header)) = true ∨ ¬ drawn (header_slot header)
  | o => early_return s header o
  end.

Lemma left_early_returns {A} (Q : A → Prop) s header c m :
  returns Q (early_return s header) m → returns Q (left_early s header c) m.
Proof using. destruct m as [|[]| |]; cbn; tauto. Qed.

(** ** Slot and producer *)

Record slot_checked s header (current_slot : option Slot) : Prop := {
  sc_recent : ∃ p, latest_final_blocks_periods s !! N.to_nat (thread (header_slot header)) = Some p
    ∧ p.2 < period (header_slot header);
  sc_producer : get_producer (header_slot header) = Some (content_creator_address header);
  sc_reached : ∃ c, current_slot = Some c ∧ slot_le (header_slot header) c = true }.

Lemma opt_slot_lt_false c slot :
  opt_slot_lt c (Some slot) = false → ∃ c', c = Some c' ∧ slot_le slot c' = true.
Proof.
  destruct c as [c|]; [|done]. cbn. intros Hlt. exists c. split; [done|].
  apply slot_le_iff. assert (¬ slot_lt c slot = true) as Hn by (by rewrite Hlt).
  rewrite slot_lt_iff in Hn. lia.
Qed.

Lemma check_slot_returns s header c :
  header_ok header → length (latest_final_blocks_periods s) = N.to_nat tc →
  returns (λ _, slot_checked s header c) (left_early s header c) (check_slot s header c).
Proof.
  intros Hh Hl. unfold check_slot. pose proof (ho_thread _ Hh).
  eapply returns_bind; [apply (returns_idx (λ p, latest_final_blocks_periods s
    !! N.to_nat (thread (header_slot header)) = Some p)); [lia|done]|].
  intros p Hp. destruct (N.leb_spec (period (header_slot header)) p.2); [done|].
  destruct (get_producer (header_slot header)) as [a|] eqn:Ha; [|by right; intros [? _]].
  case_decide as Hc; [|done]. destruct (opt_slot_lt c _) eqn:Hlt; [by left|].
  split; [by exists p|congruence|by apply opt_slot_lt_false].
Qed.

(** ** Parents *)

(** The parent listed at index [i]. *)
Definition parent_at s header (i : nat) (p : BlockId * N) : Prop :=
  h_parents (content header) !! i = Some p.1
  ∧ ∃ a, get_active s p.1 = Some a ∧ thread (ab_slot a) = N.of_nat i ∧ period (ab_slot a) = p.2
    ∧ slot_lt (ab_slot a) (header_slot header) = true.

Record parents_checked s header (n : nat) (parents : list (BlockId * N))
    (inherited : gset BlockId) : Prop := {
  pc_length : length parents = n;
  pc_parent : ∀ i p, parents !! i = Some p → parent_at s header i p;
  pc_inherited : ∀ v, v ∈ inherited ↔ ∃ p, p ∈ parents.*1 ∧ incompatible (gi_head s) p v;
  pc_compatible : ∀ p q, p ∈ parents.*1 → q ∈ h_parents (content header) →
    ¬ incompatible (gi_head s) p q }.

Lemma parents_checked_snoc s header parents inherited p :
  parents_checked s header (length parents) parents inherited →
  parent_at s header (length parents) p →
  (∀ q, q ∈ h_parents (content header) → ¬ incompatible (gi_head s) p.1 q) →
  parents_checked s header (S (length parents)) (parents ++ [p])
    (inherited ∪ gi_head s !!! p.1).
Proof using.
  intros [_ Hp Hi Hc] Hat Hcp. split.
  - rewrite length_app. cbn. lia.
  - intros i q [Hq|[Hle Hq]]%lookup_app_Some; [by apply Hp|].
    apply list_lookup_singleton_Some in Hq as [Hi0 <-].
    by replace i with (length parents) by lia.
  - intros v. rewrite elem_of_union, Hi, fmap_app. setoid_rewrite elem_of_app. cbn.
    split.
    + intros [(q & Hq & Hv)|Hv]; [by eauto|]. exists p.1. split; [right; by left|done].
    + intros (q & [Hq|Hq%list_elem_of_singleton] & Hv); [by eauto|]. subst. by right.
  - intros q r. rewrite fmap_app, elem_of_app. cbn.
    intros [Hq|Hq%list_elem_of_singleton]; [by apply Hc|]. subst. apply Hcp.
Qed.

Lemma check_parent_returns s header parents inc missing (i : N) :
  header_ok header → i < tc →
  missing_ok s header missing →
  (missing = ∅ → length parents = N.to_nat i ∧ parents_checked s header (N.to_nat i) parents inc) →
  returns (λ '(parents', inc', missing'), missing_ok s header missing' ∧
      (missing' = ∅ → parents_checked s header (S (N.to_nat i)) parents' inc'))
    (early_return s header)
    (check_parent s header (list_to_set (h_parents (content header))) (parents, inc, missing) i).
Proof.
  intros Hh Hi Hmiss Hacc. unfold check_parent.
  eapply returns_bind; [apply (returns_idx (λ p, h_parents (content header)
    !! N.to_nat i = Some p)); [rewrite (ho_parents _ Hh); lia|done]|].
  intros p Hp. cbn beta in Hp. unfold bs_get.
  assert (get_active s p = None → missing_ok s header (missing ∪ {[p]})) as Hadd.
  { intros Hn x [Hx| ->%elem_of_singleton]%elem_of_union; [by apply Hmiss|].
    split; [by eapply list_elem_of_lookup_2|done]. }
  unfold get_active, bs_get in Hadd.
  destruct (block_statuses (blocks_state s) !! p) as [[hb|hb|hb d n|a sb|sl c ps r n]|] eqn:Hs;
    try (case_decide; cbn; [done|split; [by apply Hadd|set_solver]]); [|done].
  clear Hadd.
  destruct (N.eqb_spec (thread (ab_slot a)) i) as [Ht|]; cbn [negb orb]; [|done].
  destruct (slot_le (header_slot header) (ab_slot a)) eqn:Hle; [done|].
  assert (parent_at s header (N.to_nat i) (p, period (ab_slot a))) as Hat.
  { split; [done|]. exists a. split_and!; [apply get_active_Some; eauto|lia|done|].
    apply slot_lt_iff. assert (¬ slot_le (header_slot header) (ab_slot a) = true) as Hn
      by (by rewrite Hle). rewrite slot_le_iff in Hn. lia. }
  assert (∀ inc', inc' = inc ∪ gi_head s !!! p →
    (∀ q, q ∈ h_parents (content header) → ¬ incompatible (gi_head s) p q) → missing = ∅ →
    parents_checked s header (S (N.to_nat i)) (parents ++ [(p, period (ab_slot a))]) inc') as Hok.
  { intros inc' -> Hc [Hl Hpc]%Hacc. rewrite <-Hl in *. by apply parents_checked_snoc. }
  destruct (gi_head s !! p) as [p_inc|] eqn:Hg.
  - case_decide as Hd; cbn; [|done]. split; [done|]. apply Hok; [by rewrite (lookup_total_correct _ _ _ Hg)|].
    intros q Hq. unfold incompatible. rewrite (lookup_total_correct _ _ _ Hg).
    intros Hin. apply (Hd q Hin). by apply elem_of_list_to_set.
  - cbn. assert (gi_head s !!! p = ∅) as Hemp by (by rewrite lookup_total_alt, Hg).
    split; [done|]. apply Hok; [set_solver|]. intros q _. unfold incompatible. rewrite Hemp. set_solver.
Qed.

Lemma check_parents_returns s header :
  header_ok header →
  returns (λ '(parents, inc, missing), missing_ok s header missing ∧
      (missing = ∅ → parents_checked s header (N.to_nat tc) parents inc))
    (early_return s header) (check_parents s header).
Proof.
  intros Hh. unfold check_parents. rewrite <-(length_range tc).
  apply (returns_foldM (λ pre acc, let '(parents, inc, missing) := acc in
    missing_ok s header missing
    ∧ (missing = ∅ → parents_checked s header (length pre) parents inc))).
  - split; [set_solver|]. intros _. split; [done|done|set_solver|set_solver].
  - intros pre i post [[parents inc] missing] [-> Hi]%range_split [Hmiss Hacc].
    eapply returns_mono; [apply check_parent_returns; [done|done|done|]|].
    + intros Hm. specialize (Hacc Hm). rewrite Nat2N.id. split; [apply Hacc|done].
    + intros [[parents' inc'] missing'] [Hm' Hc]. split; [done|]. intros Hm.
      rewrite length_app, Nat.add_comm. cbn. rewrite Nat2N.id in Hc. by apply Hc.
Qed.

(** ** Topological consistency of the parents *)

(** The block known by the active block [a] in thread [j] is active and not
    later than period [m]. *)
Definition knows_upto s (a : ActiveBlock) (j : nat) (m : N) : Prop :=
  ∃ gp ag, ab_parents a !! j = Some gp ∧ get_active s gp.1 = Some ag ∧ period (ab_slot ag) ≤ m.

Lemma knows_upto_mono s a j m m' : knows_upto s a j m → m ≤ m' → knows_upto s a j m'.
Proof. intros (gp & ag & ? & ? & ?) ?. exists gp, ag. split_and!; [done|done|lia]. Qed.

(** A parent's other parents, against the maxima [g]. *)
Definition knows_all s (a : ActiveBlock) (i : nat) (g : list N) (js : list N) : Prop :=
  ∀ j, j ∈ js → N.to_nat j ≠ i → ∃ m, g !! N.to_nat j = Some m ∧ knows_upto s a (N.to_nat j) m.

(** The maxima only grow, and those of the threads below [i] do not change. *)
Definition maxima_grow (i : nat) (g g' : list N) : Prop :=
  length g' = length g
  ∧ ∀ j m, g !! j = Some m → ∃ m', g' !! j = Some m' ∧ m ≤ m' ∧ ((j < i)%nat → m' = m).

Lemma maxima_grow_set i j g m m' :
  g !! j = Some m → m ≤ m' → ((j < i)%nat → m' = m) → maxima_grow i g (<[j := m']> g).
Proof.
  intros Hj Hm Hi. split; [by rewrite length_insert|]. intros k x Hk.
  destruct (decide (k = j)) as [->|Hne].
  - rewrite list_lookup_insert_eq by (by eapply lookup_lt_Some). rewrite Hj in Hk.
    injection Hk as <-. eauto.
  - rewrite list_lookup_insert_ne by done. exists x. split_and!; [done|lia|done].
Qed.

Lemma maxima_grow_refl i g : maxima_grow i g g.
Proof. split; [done|]. intros j m Hj. exists m. split_and!; [done|lia|done]. Qed.

Lemma maxima_grow_trans i g1 g2 g3 :
  maxima_grow i g1 g2 → maxima_grow i g2 g3 → maxima_grow i g1 g3.
Proof.
  intros [L1 G1] [L2 G2]. split; [congruence|]. intros j m Hj.
  destruct (G1 j m Hj) as (m2 & H2 & Hle & Heq), (G2 j m2 H2) as (m3 & H3 & Hle3 & Heq3).
  exists m3. split_and!; [done|lia|]. intros Hji. by rewrite Heq3, Heq.
Qed.

Lemma knows_all_grow s a i i' g g' js :
  maxima_grow i' g g' → knows_all s a i g js → knows_all s a i g' js.
Proof.
  intros [_ Hg] Hk j Hj Hne. destruct (Hk j Hj Hne) as (m & Hm & Hkm).
  destruct (Hg _ _ Hm) as (m' & Hm' & ? & _). exists m'. split; [done|].
  by eapply knows_upto_mono.
Qed.

Lemma check_grandpas_returns s header a (i : N) g :
  length (ab_parents a) = N.to_nat tc → length g = N.to_nat tc → i < tc →
  returns (λ g', maxima_grow (S (N.to_nat i)) g g' ∧ knows_all s a (N.to_nat i) g' (range tc))
    (early_return s header) (foldM (check_grandpa s a i) (range tc) g).
Proof.
  intros Ha Hg Hi.
  apply (returns_foldM (λ pre g', maxima_grow (S (N.to_nat i)) g g'
    ∧ knows_all s a (N.to_nat i) g' pre)).
  { split; [apply maxima_grow_refl|]. intros j ?%elem_of_nil. done. }
  intros pre j post g1 [-> Hj]%range_split [Hgrow Hk]. set (j := N.of_nat (length pre)) in *.
  assert (∀ g2, maxima_grow (S (N.to_nat i)) g1 g2 →
    (j ≠ i → ∃ m, g2 !! N.to_nat j = Some m ∧ knows_upto s a (N.to_nat j) m) →
    maxima_grow (S (N.to_nat i)) g g2 ∧ knows_all s a (N.to_nat i) g2 (pre ++ [j])) as Hdone.
  { intros g2 Hg2 Hnew. split; [by eapply maxima_grow_trans|].
    intros k [Hk'|Hk']%elem_of_app Hne; [by eapply knows_all_grow|].
    apply list_elem_of_singleton in Hk' as ->. apply Hnew. lia. }
  assert (length g1 = N.to_nat tc) as Hg1 by (destruct Hgrow; congruence).
  unfold check_grandpa. destruct (N.eqb_spec j i) as [Hji|Hji].
  { apply Hdone; [apply maxima_grow_refl|done]. }
  eapply returns_bind; [apply (returns_idx (λ gp, ab_parents a !! N.to_nat j = Some gp));
    [lia|done]|]. intros gp Hgp. unfold bs_get.
  destruct (block_statuses (blocks_state s) !! gp.1) as [[| | |ag sb|]|] eqn:Hs; try done.
  assert (get_active s gp.1 = Some ag) as Hag by (apply get_active_Some; eauto).
  eapply returns_bind; [apply (returns_idx (λ m, g1 !! N.to_nat j = Some m)); [lia|done]|].
  intros m Hm. cbn beta in Hm. destruct (N.ltb_spec m (period (ab_slot ag))) as [Hlt|Hge].
  - destruct (N.ltb_spec j i); [done|]. apply returns_idx_set; [lia|]. apply Hdone.
    + eapply maxima_grow_set; [done|lia|lia].
    + intros _. exists (period (ab_slot ag)).
      rewrite list_lookup_insert_eq by lia. split; [done|]. exists gp, ag. split_and!; [done|done|lia].
  - apply Hdone; [apply maxima_grow_refl|]. intros _. exists m. split; [done|]. by exists gp, ag.
Qed.

Definition topology_ok s (parents : list (BlockId * N)) : Prop :=
  ∀ i j pi pj a, i ≠ j → parents !! i = Some pi → parents !! j = Some pj →
    get_active s pi.1 = Some a → pi.2 ≠ last_start_period config → knows_upto s a j pj.2.

(** The maxima after the parents of the threads below [n]. *)
Record maxima_ok s (parents : list (BlockId * N)) (n : nat) (g : list N) : Prop := {
  mo_length : length g = N.to_nat tc;
  mo_period : ∀ i p, (i < n)%nat → parents !! i = Some p → g !! i = Some p.2;
  mo_knows : ∀ i p a, (i < n)%nat → parents !! i = Some p → get_active s p.1 = Some a →
    p.2 ≠ last_start_period config → knows_all s a i g (range tc) }.

Lemma maxima_ok_grow s parents n g g' :
  maxima_ok s parents n g → maxima_grow n g g' → maxima_ok s parents n g'.
Proof.
  intros [H1 H2 H3] [Hl Hg]. split; [congruence| |].
  - intros i p Hi Hp. destruct (Hg i p.2 (H2 i p Hi Hp)) as (m' & -> & _ & Heq). by rewrite Heq.
  - intros i p a Hi Hp Ha Hne. eapply (knows_all_grow _ _ _ n); [done|by eapply H3].
Qed.

Lemma maxima_ok_step s parents n g g' p a :
  maxima_ok s parents n g → parents !! n = Some p → get_active s p.1 = Some a →
  g !! n = Some p.2 → maxima_grow (S n) g g' →
  (p.2 ≠ last_start_period config → knows_all s a n g' (range tc)) →
  maxima_ok s parents (n + 1) g'.
Proof.
  intros Hg Hp Ha Hn Hgrow Hk.
  destruct (maxima_ok_grow s parents n g g' Hg) as [H1 H2 H3].
  { destruct Hgrow as [Hl Hgr]. split; [done|]. intros j m Hj.
    destruct (Hgr j m Hj) as (m' & ? & ? & Heq). exists m'. split_and!; [done|done|]. intros ?.
    apply Heq. lia. }
  split; [done| |].
  - intros i q Hi Hq. destruct (decide (i = n)) as [->|]; [|apply H2; [lia|done]].
    rewrite Hp in Hq. injection Hq as <-. destruct Hgrow as [_ Hgr].
    destruct (Hgr n _ Hn) as (m' & -> & _ & Heq). by rewrite Heq by lia.
  - intros i q b Hi Hq Hb Hne. destruct (decide (i = n)) as [->|]; [|eapply H3; [lia|done..]].
    rewrite Hp in Hq. injection Hq as <-. rewrite Ha in Hb. injection Hb as <-. by apply Hk.
Qed.

Lemma check_topology_returns X s header parents inherited :
  cs_base X s → parents_checked s header (N.to_nat tc) parents inherited →
  returns (λ _, topology_ok s parents) (early_return s header) (check_topology s parents).
Proof.
  intros Hinv Hpc. unfold check_topology.
  eapply (returns_mono (maxima_ok s parents (length (range tc)))).
  2:{ intros g [_ H2 H3] i j pi pj a Hij Hi Hj Ha Hne. rewrite length_range in *.
      pose proof (pc_length _ _ _ _ _ Hpc). pose proof (lookup_lt_Some _ _ _ Hi).
      pose proof (lookup_lt_Some _ _ _ Hj).
      destruct (H3 i pi a ltac:(lia) Hi Ha Hne (N.of_nat j)) as (m & Hm & Hk);
        [apply elem_of_range; lia|lia|].
      rewrite Nat2N.id, (H2 j pj) in Hm by (done || lia). injection Hm as <-. by rewrite Nat2N.id in Hk. }
  apply (returns_foldM (λ pre, maxima_ok s parents (length pre))).
  { split; [by rewrite length_replicate|cbn; lia..]. }
  intros pre i post g [-> Hi]%range_split Hg. rewrite length_app. cbn [length].
  unfold check_parent_topology. set (n := length pre) in *.
  eapply returns_bind; [apply (returns_idx (λ p, parents !! n = Some p));
    [rewrite (pc_length _ _ _ _ _ Hpc); lia|by rewrite Nat2N.id]|].
  intros [ph pp] Hp. destruct (pc_parent _ _ _ _ _ Hpc n _ Hp) as (_ & a & Ha & Ht & Hper & _).
  cbn in Ha, Hper. rewrite Ha. cbn [expect mbind outcome_bind].
  eapply returns_bind; [apply (returns_idx (λ m, g !! n = Some m));
    [rewrite (mo_length _ _ _ _ Hg); lia|by rewrite Nat2N.id]|]. intros m Hm. cbn beta in Hm.
  destruct (N.ltb_spec pp m) as [|Hle]; [done|].
  eapply (returns_bind _ _ (λ g', g' = <[n := pp]> g)).
  { apply returns_idx_set; [rewrite (mo_length _ _ _ _ Hg); lia|by rewrite Nat2N.id]. }
  intros g1 ->. set (g1 := <[n := pp]> g).
  assert (maxima_ok s parents n g1) as Hg1.
  { eapply maxima_ok_grow; [done|]. eapply maxima_grow_set; [done|done|lia]. }
  assert (∀ g2, maxima_grow (S n) g1 g2 →
    (pp ≠ last_start_period config → knows_all s a n g2 (range tc)) →
    maxima_ok s parents (n + 1) g2) as Hdone.
  { intros g2 Hgrow Hk. eapply (maxima_ok_step s parents n g1 g2 (ph, pp)); [done..| |done|done].
    apply list_lookup_insert_eq. by eapply lookup_lt_Some. }
  destruct (N.eqb_spec pp (last_start_period config)) as [Hgen|Hgen].
  - apply Hdone; [apply maxima_grow_refl|done].
  - eapply returns_mono; [apply check_grandpas_returns|].
    + rewrite (bo_parents _ _ _ (ci_blocks _ _ Hinv ph a Ha)); [done|congruence].
    + apply Hg1.
    + done.
    + intros g2 [Hgrow Hk]. rewrite Nat2N.id in *. by apply Hdone.
Qed.

(** ** Endorsements *)

(** Every endorsement was made by the address drawn for its index. *)
Definition endorsements_drawn header : Prop :=
  ∃ sel, get_selection (header_slot header) = Some sel
    ∧ ∀ e, e ∈ endorsements (content header) →
        sel_endorsements sel !! N.to_nat (e_index (content e)) = Some (content_creator_address e).

Lemma check_endorsements_returns {E} s header :
  header_ok header →
  returns (λ o, (o = EndorsementsProceed → endorsements_drawn header)
      ∧ (o = EndorsementsWaitForSlot → ¬ drawn (header_slot header))) (λ _ : E, False)
    (check_endorsements s header).
Proof.
  intros Hh. unfold check_endorsements.
  destruct (get_selection (header_slot header)) as [sel|] eqn:Hsel.
  2:{ cbn. split; [done|]. intros _ [_ Hd]. by apply Hd. }
  eapply returns_bind; [apply (returns_foldM (λ pre (ok : bool), ok = true → ∀ e, e ∈ pre →
    sel_endorsements sel !! N.to_nat (e_index (content e)) = Some (content_creator_address e)))|].
  - set_solver.
  - intros pre e post ok Hl Hok. unfold check_draw. destruct ok; [|done].
    eapply returns_bind; [apply (returns_idx (λ d,
      sel_endorsements sel !! N.to_nat (e_index (content e)) = Some d)); [|done]|].
    { apply (ho_endorsements _ Hh); [done|]. rewrite Hl. set_solver. }
    intros d Hd Hc%bool_decide_eq_true e' [He'|He']%elem_of_app; [by apply Hok|].
    apply list_elem_of_singleton in He' as ->. by rewrite Hc.
  - intros ok Hok. cbn. destruct ok; [|done]. split; [|done]. intros _. exists sel.
    split; [done|]. by apply Hok.
Qed.

(** ** Ancestors in their own threads *)

Definition thread_links s (x : BlockId) : list BlockId :=
  match get_active s x with
  | Some a => if ab_is_final a then []
              else match ab_parents a !! N.to_nat (thread (ab_slot a)) with
                   | Some p => [p.1]
                   | None => []
                   end
  | None => []
  end.

(** The earliest periods: none is later than an ancestor of its thread. *)
Definition earliest_ok s (ancestors : gset BlockId) (earliest : list N) : Prop :=
  length earliest = N.to_nat tc
  ∧ ∀ x a e, x ∈ ancestors → get_active s x = Some a →
      earliest !! N.to_nat (thread (ab_slot a)) = Some e → e ≤ period (ab_slot a).

Lemma earliest_ok_visit s x a e visited earliest :
  get_active s x = Some a → earliest !! N.to_nat (thread (ab_slot a)) = Some e →
  earliest_ok s visited earliest →
  earliest_ok s (visited ∪ {[x]})
    (<[N.to_nat (thread (ab_slot a)) := N.min e (period (ab_slot a))]> earliest).
Proof using.
  intros Ha He [Hl Hold]. split; [by rewrite length_insert|].
  intros y b e' Hy Hb Hm.
  destruct (decide (N.to_nat (thread (ab_slot b)) = N.to_nat (thread (ab_slot a)))) as [Heq|Hne].
  - rewrite Heq, list_lookup_insert_eq in Hm by (by eapply lookup_lt_Some). injection Hm as <-.
    apply elem_of_union in Hy as [Hy| ->%elem_of_singleton].
    + specialize (Hold y b e Hy Hb). rewrite Heq in Hold. specialize (Hold He). lia.
    + rewrite Ha in Hb. injection Hb as <-. lia.
  - rewrite list_lookup_insert_ne in Hm by done.
    apply elem_of_union in Hy as [Hy| ->%elem_of_singleton]; [by eapply Hold|].
    rewrite Ha in Hb. by injection Hb as <-.
Qed.

Lemma list_ancestors_returns {E} X fuel s roots stack visited earliest :
  cs_base X s → trav_inv (thread_links s) roots stack visited →
  earliest_ok s visited earliest →
  (length stack + sum_outside (λ _, 1) (block_statuses (blocks_state s)) visited < fuel)%nat →
  returns (λ '(ancestors, earliest'), (∀ x, x ∈ ancestors ↔ reach (thread_links s) roots x)
      ∧ earliest_ok s ancestors earliest') (λ _ : E, False)
    (list_ancestors fuel s stack visited earliest).
Proof.
  intros Hinv. revert stack visited earliest.
  induction fuel as [|fuel IH]; intros stack visited earliest Ht He Hf; [lia|].
  destruct stack as [|x stack]; cbn [list_ancestors length] in *.
  { split; [by apply trav_done|done]. }
  case_decide as Hx; [apply IH; [by eapply trav_skip|done|lia]|].
  destruct (get_active s x) as [a|] eqn:Ha.
  - pose proof (bo_thread _ _ _ (ci_blocks _ _ Hinv x a Ha)) as Hth. destruct He as [Hl He].
    eapply returns_bind; [apply (returns_idx (λ e,
      earliest !! N.to_nat (thread (ab_slot a)) = Some e)); [lia|done]|].
    intros e Hei. cbn beta in Hei. eapply (returns_bind _ _ (λ l, l = <[_ := _]> earliest)).
    { apply returns_idx_set; [lia|done]. }
    intros earliest' ->.
    assert (length (thread_links s x) ≤ 1)%nat as Hlen.
    { unfold thread_links. rewrite Ha. destruct (ab_is_final a); cbn; [lia|].
      destruct (ab_parents a !! _); cbn; lia. }
    assert ((if ab_is_final a then stack else
      match ab_parents a !! N.to_nat (thread (ab_slot a)) with
      | Some p => p.1 :: stack | None => stack end) = thread_links s x ++ stack) as ->.
    { unfold thread_links. rewrite Ha. destruct (ab_is_final a); [done|].
      by destruct (ab_parents a !! _). }
    apply IH; [|by apply earliest_ok_visit|].
    + eapply trav_push; [done|]. intros y. by rewrite elem_of_app.
    + apply get_active_Some in Ha as [sb Hb]. rewrite length_app.
      rewrite (sum_outside_visit _ _ _ x _ Hb) in Hf by done. lia.
  - apply IH.
    + eapply trav_push; [done|]. intros y. unfold thread_links. rewrite Ha. set_solver.
    + destruct He as [Hl He]. split; [done|]. intros y b e [Hy| ->%elem_of_singleton]%elem_of_union Hb;
        [by eapply He|congruence].
    + pose proof (sum_outside_le (λ _, 1%nat) (block_statuses (blocks_state s)) visited x Hx). lia.
Qed.

(** ** Incompatibilities *)

(** Blocks conflict when they have the same slot or are [thread_count] slots
    apart or more. *)
Definition slot_distance (a b : Slot) : N :=
  N.max (slot_index tc a) (slot_index tc b) - N.min (slot_index tc a) (slot_index tc b).
Definition slots_conflict (a b : Slot) : Prop := a = b ∨ tc ≤ slot_distance a b.
#[local] Instance slots_conflict_dec a b : Decision (slots_conflict a b).
Proof. unfold slots_conflict. apply _. Defined.

Lemma slots_incompatible_eq {E} a b :
  thread a < tc → thread b < tc → slot_index tc a ≤ u64_max → slot_index tc b ≤ u64_max →
  slots_incompatible a b = @Ok E _ (bool_decide (slots_conflict a b)).
Proof using.
  intros Ha Hb Hia Hib. unfold slots_incompatible, slots_apart, slots_conflict, slot_distance.
  rewrite (slot_cmp_index tc) by done.
  destruct (N.compare_spec (slot_index tc a) (slot_index tc b)) as [Heq|Hlt|Hlt].
  - rewrite bool_decide_true; [done|]. left. by apply (slot_index_inj tc).
  - rewrite slots_since_index by done.
    assert (slot_lt b a = false) as -> by (apply (slot_lt_false_index tc); [done|done|lia]).
    cbn. f_equal. apply eq_true_iff_eq. rewrite N.leb_le, bool_decide_eq_true.
    replace (N.max _ _ - N.min _ _) with (slot_index tc b - slot_index tc a) by lia.
    split; [by right|]. intros [->|?]; [lia|done].
  - rewrite slots_since_index by done.
    assert (slot_lt a b = false) as -> by (apply (slot_lt_false_index tc); [done|done|lia]).
    cbn. f_equal. apply eq_true_iff_eq. rewrite N.leb_le, bool_decide_eq_true.
    replace (N.max _ _ - N.min _ _) with (slot_index tc a - slot_index tc b) by lia.
    split; [by right|]. intros [->|?]; [lia|done].
Qed.

(** The active block [t] is not an ancestor, is not before the earliest ancestor
    of its thread, and has a conflicting slot. *)
Definition conflicting s (slot : Slot) (ancestors : gset BlockId) (earliest : list N)
    (t : BlockId) : Prop :=
  t ∉ ancestors ∧ ∃ a e, get_active s t = Some a
    ∧ earliest !! N.to_nat (thread (ab_slot a)) = Some e ∧ e ≤ period (ab_slot a)
    ∧ slots_conflict slot (ab_slot a).

Lemma descendants_active X s t x :
  cs_base X s → is_Some (get_active s t) → reach (children_of s) [t] x → is_Some (get_active s x).
Proof.
  intros Hinv Ht (r & Hr & Hx). apply list_elem_of_singleton in Hr as ->.
  induction Hx as [|y z w He _ IH]; [done|]. apply IH.
  unfold edge, children_of in He. destruct Ht as [a Ha]. rewrite Ha in He.
  unfold children_ids in He. apply list_elem_of_bind in He as (c & Hz & Hc).
  apply elem_of_set_iter, elem_of_dom in Hz as [p Hp]. apply list_elem_of_lookup_1 in Hc as [i Hi].
  destruct (bo_child _ _ _ (ci_blocks _ _ Hinv y a Ha) i c z p Hi Hp) as (az & Haz & _). eauto.
Qed.

Record incompatibilities_ok s (slot : Slot) (ancestors : gset BlockId) (earliest : list N)
    (inherited : gset BlockId) (ts : list BlockId) (inc : gset BlockId) : Prop := {
  io_inc : ∀ v, v ∈ inc ↔ v ∈ inherited
    ∨ ∃ t, t ∈ ts ∧ conflicting s slot ancestors earliest t ∧ reach (children_of s) [t] v;
  io_nonfinal : ∀ t, t ∈ ts → conflicting s slot ancestors earliest t → is_nonfinal s t }.

Lemma check_incompatibility_returns X s header slot ancestors earliest inherited pre t inc :
  cs_base X s → thread slot < tc → slot_index tc slot ≤ u64_max →
  length earliest = N.to_nat tc → is_Some (get_active s t) →
  incompatibilities_ok s slot ancestors earliest inherited pre inc →
  returns (incompatibilities_ok s slot ancestors earliest inherited (pre ++ [t])) (early_return s header)
    (check_incompatibility s slot ancestors earliest inc t).
Proof.
  intros Hinv Hth Hidx Hlen [a Ha] [Hinc Hnf]. unfold check_incompatibility.
  assert (¬ conflicting s slot ancestors earliest t →
    incompatibilities_ok s slot ancestors earliest inherited (pre ++ [t]) inc) as Hskip.
  { intros Hn. split.
    - intros v. rewrite Hinc. setoid_rewrite elem_of_app. setoid_rewrite list_elem_of_singleton.
      naive_solver.
    - intros x [Hx|Hx]%elem_of_app; [by apply Hnf|]. apply list_elem_of_singleton in Hx as ->. done. }
  case_decide as Hanc; [apply Hskip; by intros [? _]|].
  rewrite Ha. cbn [expect mbind outcome_bind].
  destruct (ci_blocks _ _ Hinv t a Ha) as [Hta Hia _ _ _ _].
  eapply returns_bind; [apply (returns_idx (λ e,
    earliest !! N.to_nat (thread (ab_slot a)) = Some e)); [lia|done]|].
  intros e He. cbn beta in He.
  destruct (N.ltb_spec (period (ab_slot a)) e) as [Hlt|Hge].
  { apply Hskip. intros (_ & a' & e' & Ha' & He' & Hle & _). simplify_eq. lia. }
  rewrite slots_incompatible_eq by done. cbn [mbind outcome_bind].
  case_bool_decide as Hc.
  2:{ apply Hskip. intros (_ & a' & e' & Ha' & _ & _ & Hc'). by simplify_eq. }
  destruct (ab_is_final a) eqn:Hf; [done|].
  destruct (@descendants_spec _ HeaderCheckOutcome s t) as (d & -> & Hd).
  { intros x Hx. apply (descendants_active X s t); [done|by eauto|done]. }
  cbn. assert (conflicting s slot ancestors earliest t) as Hct by (split; [done|]; by exists a, e).
  split.
  - intros v. rewrite elem_of_union, Hinc, Hd. setoid_rewrite elem_of_app.
    setoid_rewrite list_elem_of_singleton. naive_solver.
  - intros x [Hx|Hx]%elem_of_app; [by apply Hnf|]. apply list_elem_of_singleton in Hx as ->.
    intros _. by exists a.
Qed.

(** ** The whole check *)

(** What [Proceed] means.  [inherited] are the incompatibilities of the parents,
    [ancestors] the ancestors in their own threads down to the final ones. *)
Record proceeds_with s header (current_slot : option Slot) (parents : list (BlockId * N))
    (inc : gset BlockId) (n : nat) (fit : N) (inherited ancestors : gset BlockId)
    (earliest : list N) : Prop := {
  pr_slot : slot_checked s header current_slot;
  pr_parents : parents_checked s header (N.to_nat tc) parents inherited;
  pr_topology : topology_ok s parents;
  pr_endorsements : endorsements_drawn header;
  pr_ancestors : ∀ x, x ∈ ancestors ↔ reach (thread_links s) (h_parents (content header)) x;
  pr_earliest : earliest_ok s ancestors earliest;
  pr_inc : ∀ v, v ∈ inc ↔ v ∈ inherited ∨ ∃ t,
    conflicting s (header_slot header) ancestors earliest t ∧ reach (children_of s) [t] v;
  pr_conflicts : ∀ t, conflicting s (header_slot header) ancestors earliest t → is_nonfinal s t;
  pr_compatible : ∀ p, p ∈ h_parents (content header) → p ∉ inc;
  pr_nonfinal : ∀ v, v ∈ inc → is_nonfinal s v;
  pr_count : n = size inherited;
  pr_fitness : fit = get_fitness header }.

Definition proceeds s header current_slot (o : HeaderCheckOutcome) : Prop :=
  match o with
  | Proceed parents inc n fit => ∃ inherited ancestors earliest,
      proceeds_with s header current_slot parents inc n fit inherited ancestors earliest
  | o => left_early s header current_slot o
  end.

Lemma parents_ids s header parents inherited :
  header_ok header → parents_checked s header (N.to_nat tc) parents inherited →
  parents.*1 = h_parents (content header).
Proof using.
  intros Hh Hpc. apply list_eq_same_length with (N.to_nat tc).
  - apply Hh.
  - rewrite length_fmap. apply Hpc.
  - intros i x y Hi Hx Hy. rewrite list_lookup_fmap in Hx. apply fmap_Some in Hx as (p & Hp & ->).
    destruct (pc_parent _ _ _ _ _ Hpc i p Hp) as [Hp' _]. congruence.
Qed.

Lemma active_index_iff X s x :
  cs_base X s → x ∈ active_index (blocks_state s) ↔ is_Some (get_active s x).
Proof using.
  intros Hinv. pose proof (ci_bs _ _ Hinv SActive x) as Hx. cbn [index_of] in Hx. rewrite Hx.
  unfold get_active, bs_get. destruct (block_statuses (blocks_state s) !! x) as [[]|]; cbn;
    split; intros Hs; try done; by destruct Hs.
Qed.

(** The blocks of the incompatibility set are active. *)
Lemma incompatibilities_active s slot ancestors earliest header parents inherited ts inc v :
  cs_base ∅ s → parents_checked s header (N.to_nat tc) parents inherited →
  incompatibilities_ok s slot ancestors earliest inherited ts inc → v ∈ inc →
  is_Some (get_active s v).
Proof.
  intros Hinv Hpc [Hinc Hnf] [Hv|(t & Ht & Hc & Hr)]%Hinc.
  - apply (pc_inherited _ _ _ _ _ Hpc) in Hv as (p & _ & Hv).
    apply (go_closed _ (ci_graph _ _ Hinv)), (ci_dom _ _ Hinv) in Hv as [(a & Ha & _) _]. eauto.
  - destruct (Hnf t Ht Hc) as (a & Ha & _). by eapply descendants_active; [done|eauto|].
Qed.

(** The clock slot is a slot of the chain whose rank fits in 64 bits. *)
Definition current_ok (current_slot : option Slot) : Prop :=
  ∀ c, current_slot = Some c → thread c < tc ∧ slot_index tc c ≤ u64_max.

Lemma checked_slot_index s header c :
  header_ok header → current_ok c → slot_checked s header c →
  slot_index tc (header_slot header) ≤ u64_max.
Proof using.
  intros Hh Hc Hs. destruct (sc_reached _ _ _ Hs) as (c' & -> & Hle).
  destruct (Hc c' eq_refl) as [Ht Hi]. etrans; [|exact Hi].
  pose proof (ho_thread _ Hh). apply slot_le_iff in Hle. unfold slot_index.
  destruct Hle as [Hlt|[-> Hle]]; nia.
Qed.

Lemma list_parents_ancestors s header parents inherited :
  cs_base ∅ s → header_ok header → parents_checked s header (N.to_nat tc) parents inherited →
  returns (λ '(ancestors, earliest),
      (∀ x, x ∈ ancestors ↔ reach (thread_links s) (h_parents (content header)) x)
      ∧ earliest_ok s ancestors earliest) (λ _ : HeaderCheckOutcome, False)
    (list_ancestors
       (S (length (h_parents (content header)) + size (block_statuses (blocks_state s))))
       s (reverse (h_parents (content header))) ∅ parents.*2).
Proof.
  intros Hinv Hh Hpc. apply (list_ancestors_returns ∅); [done| | |].
  - apply trav_init. intros x. apply elem_of_reverse.
  - split; [|set_solver]. rewrite length_fmap. apply Hpc.
  - rewrite length_reverse, sum_outside_empty.
    pose proof (map_sum_size (λ _ : BlockStatus, 1%nat) (block_statuses (blocks_state s))
      ltac:(intros; cbn; lia)). lia.
Qed.

Lemma check_incompatibilities_returns s header ancestors earliest inherited :
  cs_base ∅ s → header_ok header → slot_index tc (header_slot header) ≤ u64_max →
  earliest_ok s ancestors earliest →
  returns (incompatibilities_ok s (header_slot header) ancestors earliest inherited
             (set_iter (active_index (blocks_state s)))) (early_return s header)
    (foldM (check_incompatibility s (header_slot header) ancestors earliest)
       (set_iter (active_index (blocks_state s))) inherited).
Proof.
  intros Hinv Hh Hidx [Hl _].
  apply (returns_foldM (incompatibilities_ok s (header_slot header) ancestors earliest inherited)).
  - split; set_solver.
  - intros pre t post inc Heq Hinc. eapply check_incompatibility_returns; [done|apply Hh|done..| |done].
    apply (active_index_iff ∅); [done|]. rewrite <-elem_of_set_iter, Heq. set_solver.
Qed.

Lemma check_header_steps_returns s header c :
  cs_base ∅ s → header_ok header → current_ok c →
  returns (proceeds s header c) (left_early s header c) (check_header_steps s header c).
Proof.
  intros Hinv Hh Hc. unfold check_header_steps.
  eapply returns_bind; [apply check_slot_returns; [done|apply Hinv]|]. intros [] Hslot.
  eapply returns_bind; [by apply left_early_returns, check_parents_returns|].
  intros [[parents inherited] missing] [Hmiss Hpc].
  case_decide as Hm; [done|]. specialize (Hpc Hm).
  eapply returns_bind; [by apply left_early_returns, (check_topology_returns ∅ s header parents inherited)|].
  intros g Htop.
  eapply returns_bind; [by apply returns_no_err, check_endorsements_returns|].
  intros o Ho. eapply (returns_bind _ _ (λ _, endorsements_drawn header)).
  { destruct o; [by apply Ho|done|]. right. by apply Ho. }
  intros _ Hend.
  eapply returns_bind; [by eapply returns_no_err, list_parents_ancestors|].
  intros [ancestors earliest] [Hanc Hear].
  eapply returns_bind; [apply left_early_returns, (check_incompatibilities_returns s header ancestors earliest inherited);
    [done|done|by eapply checked_slot_index|done]|].
  intros inc Hinc. rewrite (parents_ids s header parents inherited) by done.
  case_decide as Hpar; [|done]. case_decide as Hfin; [|done].
  exists inherited, ancestors, earliest.
  pose proof (λ v, incompatibilities_active s _ _ _ header parents inherited _ inc v Hinv Hpc Hinc)
    as Hact. destruct Hinc as [Hio Hnf].
  assert (∀ t, conflicting s (header_slot header) ancestors earliest t →
    t ∈ set_iter (active_index (blocks_state s))) as Hall.
  { intros t (_ & a & _ & Ha & _). rewrite elem_of_set_iter, (active_index_iff ∅) by done. eauto. }
  split; try done.
  - intros v. rewrite Hio. naive_solver.
  - intros t Ht. by apply Hnf; [apply Hall|].
  - intros p Hp Hpi. apply (Hpar p Hpi). by apply elem_of_list_to_set.
  - intros v Hv. destruct (Hact v Hv) as [a Ha]. exists a. split; [done|].
    destruct (ab_is_final a) eqn:Hf; [|done]. exfalso. apply (Hfin v Hv).
    unfold final_active_blocks. apply elem_of_filter. rewrite Ha. cbn. rewrite Hf.
    split; [done|]. apply (active_index_iff ∅); [done|]. eauto.
Qed.

Lemma check_header_spec {E} s header c :
  cs_base ∅ s → header_ok header → current_ok c →
  ∃ o, check_header s header c = @Ok E _ o ∧ proceeds s header c o.
Proof.
  intros Hinv Hh Hc. unfold check_header.
  pose proof (check_header_steps_returns s header c Hinv Hh Hc) as Hr.
  destruct (check_header_steps s header c) as [o|o| |]; cbn in Hr; try done.
  - by exists o.
  - exists o. split; [done|]. by destruct o.
Qed.
End header_check.
