(* ===== verification/Insertion.v ===== *)
(** * The insertion of a block keeps the invariant

    [add_block_to_graph] (process.rs) step by step: the loops that discard stale
    blocks and finalise blocks, the two ways of updating the cliques, the best
    parents, and the whole function.  It ends without error or panic, restores
    the invariant of [Invariant.v], and never undoes a finalisation. *)

From Stdlib Require Import ZArith.
From S2P Require Import Prelude Slots Times Cliques Traversal Models Storage Blocks BlocksState.
From S2P Require Import ConsensusState Graph Verifications Process Invariant.

Open Scope N_scope.

Section insertion.
Context `{!SetIter BlockId, !KeyHash, Env : ConsensusEnv}.
Implicit Types (s : ConsensusState).

(** Fields the invariant does not read. *)
Lemma block_ok_ext s s' x a :
  blocks_state s' = blocks_state s → block_ok s x a → block_ok s' x a.
Proof using.
  intros Hbs [H1 H0 H2 H3 H4 H5]. split; [done..|]. intros i c y p Hi Hy.
  destruct (H5 i c y p Hi Hy) as (ay & Hay & ?). exists ay. split; [|done].
  unfold get_active. by rewrite Hbs.
Qed.

Lemma cs_base_ext X s s' :
  blocks_state s' = blocks_state s → gi_head s' = gi_head s →
  latest_final_blocks_periods s' = latest_final_blocks_periods s →
  cs_base X s → cs_base X s'.
Proof using.
  intros Hbs Hgi Hl [H1 H2 H3 H4 H5 H6].
  assert (∀ x, get_active s' x = get_active s x) as Ha by (intros x; unfold get_active; by rewrite Hbs).
  split; rewrite ?Hbs, ?Hgi, ?Hl; [done..| | |done].
  - intros x. rewrite H4. unfold is_nonfinal. by setoid_rewrite Ha.
  - intros x a Hx. rewrite Ha in Hx. eapply block_ok_ext; [done|]. by apply H5.
Qed.

Lemma evolves_ext s s' :
  blocks_state s' = blocks_state s → new_final_blocks s' = new_final_blocks s →
  latest_final_blocks_periods s' = latest_final_blocks_periods s → evolves s s'.
Proof using.
  intros Hbs Hnf Hl. split; [split|..]; unfold is_nonfinal, get_active; rewrite ?Hbs, ?Hl, ?Hnf;
    [eauto| |done|done|eauto|done|by left].
  intros i p Hp. exists p. split; [done|lia].
Qed.

(** ** Finalising a set of blocks *)

Lemma finalised_app F G s s1 s2 :
  finalised F s s1 → finalised G s1 s2 → finalised (F ++ G) s s2.
Proof using.
  intros H1 H2 x. rewrite H2, H1. destruct (get_active s x) as [a|]; [|done]. cbn. f_equal.
  rewrite (decide_ext (x ∈ F ++ G) (x ∈ F ∨ x ∈ G)) by (by rewrite elem_of_app).
  repeat case_decide; try done; tauto.
Qed.

Lemma mark_final_blocks_spec s F :
  cs_inv ∅ s → (∀ b, b ∈ F → is_Some (get_active s b)) →
  (∀ b c, b ∈ F → c ∈ max_cliques s → b ∈ block_ids c) →
  (∀ c, c ∈ max_cliques s → weight s (block_ids c) ≤ u64_max) →
  ∃ s', mark_final_blocks F s = Ok s' ∧ cs_inv ∅ s' ∧ finalised (set_iter F) s s' ∧ evolves s s'
    ∧ ∀ k, room k s → room k s'.
Proof.
  intros Hinv Hact Hall Hw. unfold mark_final_blocks.
  destruct (foldM_total (λ pre s', cs_inv ∅ s' ∧ finalised pre s s' ∧ evolves s s'
    ∧ (∀ b c, b ∈ F → b ∉ pre → c ∈ max_cliques s' → b ∈ block_ids c)
    ∧ (∀ c, c ∈ max_cliques s' → weight s' (block_ids c) ≤ u64_max)
    ∧ ∀ k, room k s → room k s')
    mark_final_block (set_iter F) s) as (s' & Hs' & ? & ? & ? & _ & _ & ?); [| |by eauto 6].
  - split_and!; [done| |apply evolves_refl|naive_solver|done|done].
    intros x. by destruct (get_active s x).
  - intros pre b post s1 Hl (Hi & Hf & He & Hc & Hw1 & Hr).
    assert (b ∈ F) as HbF by (rewrite <-elem_of_set_iter, Hl; set_solver).
    assert (b ∉ pre) as Hbp.
    { pose proof (NoDup_set_iter F) as Hnd. rewrite Hl in Hnd.
      apply NoDup_app in Hnd as (_ & Hnd & _). intros Hb. apply (Hnd b Hb). by left. }
    destruct (Hact b HbF) as [a Ha].
    destruct (mark_final_block_spec s1 b a) as (s2 & Hs2 & Hi2 & Hf2 & He2 & Hc2 & Hr2).
    { done. } { by rewrite Hf, Ha; cbn; rewrite decide_False. } { intros c. by apply Hc. } { done. }
    exists s2. split; [done|]. split_and!; [done|by eapply finalised_app|by eapply evolves_trans| | |by auto].
    + intros x c HxF Hxp. rewrite Hc2. rewrite elem_of_app, list_elem_of_singleton in Hxp.
      eapply common_after_final; [apply Hi|apply Hi|by intros; apply Hc|done|tauto|].
      intros c' Hc'. apply Hc; tauto.
    + intros c. rewrite Hc2, (finalised_weight _ _ _ _ Hf2).
      eapply weight_after_final; [apply Hi|apply Hi|by intros; apply Hc|done].
Qed.

(** ** Discarding the stale blocks *)

Lemma antichain_filter (P : Clique → Prop) `{!∀ c, Decision (P c)} (l : list Clique) :
  antichain (block_ids <$> l) → antichain (block_ids <$> filter P l).
Proof using.
  induction l as [|c l IH]; intros Ha; [done|].
  assert (antichain (block_ids <$> l)) as Hl.
  { intros i j C D HC HD Hs. by specialize (Ha (S i) (S j) C D HC HD Hs) as [= ->]. }
  rewrite filter_cons. case_decide as Hc; [|by apply IH].
  assert (∀ j D, (block_ids <$> filter P l) !! j = Some D →
    ¬ block_ids c ⊆ D ∧ ¬ D ⊆ block_ids c) as Hout.
  { intros j D HD. rewrite list_lookup_fmap in HD. apply fmap_Some in HD as (d & Hd & ->).
    apply list_elem_of_lookup_2, list_elem_of_filter in Hd as [_ [k Hk]%list_elem_of_lookup_1].
    assert ((block_ids <$> c :: l) !! S k = Some (block_ids d)) as Hd
      by (rewrite list_lookup_fmap, lookup_cons; cbn [fmap option_fmap]; by rewrite Hk).
    split; intros Hs; [by specialize (Ha 0%nat (S k) _ _ eq_refl Hd Hs)
                      |by specialize (Ha (S k) 0%nat _ _ Hd eq_refl Hs)]. }
  intros [|i] [|j] C D HC HD Hs; [done| | |].
  - cbn in HC. injection HC as <-. by destruct (Hout j D HD).
  - cbn in HD. injection HD as <-. by destruct (Hout i C HC).
  - f_equal. by eapply IH.
Qed.

(** Dropping cliques of low fitness, the blockclique staying. *)
Lemma cliques_ok_filter s gi l t bc :
  cliques_ok s gi l → bc ∈ l → is_blockclique bc = true → t ≤ fitness bc →
  cliques_ok s gi (filter (λ c, t ≤ fitness c) l).
Proof using.
  intros [H1 H2 H3 H4 H5] Hbc Hb Ht.
  assert (bc ∈ filter (λ c, t ≤ fitness c) l) as Hin by (by apply list_elem_of_filter).
  split.
  - by destruct (filter (λ c, t ≤ fitness c) l); [apply not_elem_of_nil in Hin|].
  - intros c [_ Hc]%list_elem_of_filter. by apply H2.
  - by apply antichain_filter.
  - rewrite list_filter_filter, (list_filter_iff _ (λ c, t ≤ fitness c ∧ is_blockclique c = true))
      by tauto.
    rewrite <-(list_filter_filter (λ c, t ≤ fitness c) (λ c, is_blockclique c = true)).
    assert (bc ∈ filter (λ c, is_blockclique c = true) l) as Hbf by (by apply list_elem_of_filter).
    destruct (filter (λ c, is_blockclique c = true) l) as [|c [|]] eqn:Heq; try done.
    apply list_elem_of_singleton in Hbf as <-. by rewrite filter_cons_True.
  - intros c [_ Hc]%list_elem_of_filter. by apply H5.
Qed.

Lemma without_active b a s s' x :
  without b a s s' → is_Some (get_active s' x) ↔ is_Some (get_active s x) ∧ x ≠ b.
Proof using.
  intros Hw. rewrite Hw. case_decide as Hx; [subst|rewrite fmap_is_Some; tauto].
  split; [by intros [? [=]]|tauto].
Qed.

Lemma remove_blocks_spec {E} s (l : list BlockId) k :
  cs_inv ∅ s → NoDup l → (∀ b, b ∈ l → is_nonfinal s b) →
  (∀ b c, b ∈ l → c ∈ max_cliques s → b ∉ block_ids c) →
  (∀ c, c ∈ max_cliques s → block_ids c ≠ ∅) → room (k + N.of_nat (length l)) s →
  ∃ s', foldM (λ s b, remove_block b s) l s = @Ok E _ s' ∧ cs_inv ∅ s' ∧ evolves s s'
    ∧ max_cliques s' = max_cliques s ∧ room k s'
    ∧ (∀ x, is_Some (get_active s' x) ↔ is_Some (get_active s x) ∧ x ∉ l).
Proof.
  intros Hinv Hnd Hnf Hnc Hne Hroom.
  destruct (foldM_total (E := E) (λ pre s', cs_inv ∅ s' ∧ evolves s s'
    ∧ max_cliques s' = max_cliques s
    ∧ room (k + (N.of_nat (length l) - N.of_nat (length pre))) s'
    ∧ (∀ b, b ∈ l → b ∉ pre → is_nonfinal s' b)
    ∧ (∀ x, is_Some (get_active s' x) ↔ is_Some (get_active s x) ∧ x ∉ pre))
    (λ s b, remove_block b s) l s) as (s' & Hs' & ? & ? & ? & Hr & _ & ?).
  - rewrite N.sub_0_r. split_and!; [done|apply evolves_refl|done|done|by eauto|set_solver].
  - intros pre b post s1 Hl (Hi & He & Hc & Hr & Hnf1 & Hac).
    assert (b ∉ pre) as Hbp.
    { rewrite Hl in Hnd. apply NoDup_app in Hnd as (_ & Hd & _). intros Hb. apply (Hd b Hb). by left. }
    assert (b ∈ l) as Hbl by (rewrite Hl; set_solver).
    destruct (Hnf1 b Hbl Hbp) as (a & Ha & Hf).
    destruct (@remove_block_spec _ _ E s1 b a (k + (N.of_nat (length l) - N.of_nat (length (pre ++ [b])))))
      as (s2 & Hs2 & Hi2 & Hwo & Hc2 & Hr2 & He2); [done..| | |].
    { intros c. rewrite Hc. intros Hcc. split; [by apply Hnc|by apply Hne]. }
    { unfold room in *. rewrite Hl, !length_app in *. cbn [length] in *. lia. }
    exists s2. split; [done|]. split_and!; [done|by eapply evolves_trans|congruence|done| |].
    + intros x Hx Hxp. rewrite (without_nonfinal b a s1 s2 x Hwo). split; [set_solver|].
      apply Hnf1; set_solver.
    + intros x. rewrite (without_active b a s1 s2 x Hwo), Hac. set_solver.
  - exists s'. split_and!; try done. unfold room in *. lia.
Qed.

Lemma cliques_active s X C :
  cs_base X s → is_clique (gi_head s) C → ∀ b, b ∈ C → is_nonfinal s b.
Proof using.
  intros Hinv [Hd _] b Hb. apply (ci_dom _ _ Hinv b), Hd, Hb.
Qed.

Lemma get_active_dom s b : is_Some (get_active s b) → b ∈ dom (block_statuses (blocks_state s)).
Proof using. intros [a [sb Hb]%get_active_Some]. by eapply elem_of_dom_2. Qed.

Lemma remove_stale_blocks_spec s i bc k :
  cs_inv ∅ s → max_cliques s !! i = Some bc → is_blockclique bc = true →
  (∀ c, c ∈ max_cliques s → block_ids c ≠ ∅) →
  room (k + N.of_nat (size (block_statuses (blocks_state s)))) s →
  let t := fitness bc - delta_f0 config in
  ∃ s', remove_stale_blocks i s = Ok s' ∧ cs_inv ∅ s' ∧ evolves s s' ∧ room k s'
    ∧ max_cliques s' = filter (λ c, t ≤ fitness c) (max_cliques s)
    ∧ (∀ x, is_Some (get_active s' x) ↔ is_Some (get_active s x) ∧ x ∉ list_stale_blocks s t).
Proof.
  intros [Hb Hcl] Hi Hbc Hne Hroom t. unfold remove_stale_blocks, idx.
  rewrite Nat2N.id, Hi. cbn [expect mbind outcome_bind]. unfold saturating_sub. fold t.
  set (stale := list_stale_blocks s t).
  assert (∀ b, b ∈ stale → is_nonfinal s b) as Hstale.
  { intros b ((c & Hc & Hbc') & _)%list_stale_blocks_spec.
    by eapply cliques_active; [done|apply Hcl|]. }
  destruct (@remove_blocks_spec ConsensusError
    (set_max_cliques (filter (λ c, t ≤ fitness c) (max_cliques s)) s) (set_iter stale) k)
    as (s' & Hs' & Hi' & He & Hc & Hrk & Hac).
  - split; [by apply (cs_base_ext _ s)|]. cbn. apply (cliques_ok_weight s); [done|].
    eapply cliques_ok_filter; [done| |done|unfold t; lia].
    by eapply list_elem_of_lookup_2.
  - apply NoDup_set_iter.
  - intros b Hx%elem_of_set_iter. by apply Hstale.
  - cbn. intros b c Hx%elem_of_set_iter [Hct Hc]%list_elem_of_filter Hbin.
    apply list_stale_blocks_spec in Hx as [_ Hx]. specialize (Hx c Hc Hbin). lia.
  - cbn. intros c [_ Hc]%list_elem_of_filter. by apply Hne.
  - unfold room in *. cbn. rewrite length_set_iter.
    assert (size stale ≤ size (dom (block_statuses (blocks_state s))))%nat as Hsz.
    { apply subseteq_size. intros b (a & Ha & _)%Hstale. apply get_active_dom. by exists a. }
    rewrite size_dom in Hsz. lia.
  - exists s'. split_and!; [done|done| |done|done|].
    { eapply evolves_trans; [|exact He]; by apply evolves_ext. }
    intros x. rewrite Hac, elem_of_set_iter. done.
Qed.

(** ** The cliques of the graph with the new block *)

Lemma update_max_cliques_spec s0 gi b inc n s :
  graph_ok gi → b ∉ dom gi → inc ⊆ dom gi → cliques_ok s0 gi (max_cliques s) →
  gi_head s = graph_add gi b inc →
  ∃ l, update_max_cliques b inc n s = Ok (set_max_cliques l s) ∧ l ≠ []
    ∧ (∀ c, c ∈ l → is_clique (gi_head s) (block_ids c) ∧ block_ids c ≠ ∅)
    ∧ antichain (block_ids <$> l).
Proof.
  intros Hgi Hb Hinc [Hne Hcl Han _ _] Hgs. unfold update_max_cliques. rewrite !Hgs. case_decide as Hn.
  - eexists. split; [done|]. split; [by destruct (max_cliques s)|].
    assert (∀ c, block_ids (grow_clique b inc c) = grow b inc (block_ids c)) as Hgrow.
    { intros c. unfold grow_clique, grow. by case_decide. }
    split.
    + intros c (c' & -> & Hc')%list_elem_of_fmap. rewrite Hgrow.
      split; [by apply grow_is_clique, Hcl|]. unfold grow. case_decide as Hd; set_solver.
    + rewrite <-list_fmap_compose. intros i j C D HC HD Hs. rewrite list_lookup_fmap in HC, HD.
      apply fmap_Some in HC as (c & Hc & ->), HD as (d & Hd & ->). cbn in Hs. rewrite !Hgrow in Hs.
      apply grow_inj in Hs; [|by eapply is_clique_not_new, Hcl, list_elem_of_lookup_2..].
      eapply Han; [by rewrite list_lookup_fmap, Hc|by rewrite list_lookup_fmap, Hd|done].
  - pose proof (graph_ok_add gi b inc Hb Hinc Hgi) as Hgi'.
    destruct (@compute_max_cliques_spec _ ConsensusError _ _ _ (graph_add gi b inc) (go_sym _ Hgi'))
      as (l & -> & Hnd & Hl). cbn [mbind outcome_bind].
    destruct (clique_extends (graph_add gi b inc) ∅ Hgi') as (M & HM & _); [split; set_solver|].
    eexists. split; [done|]. split_and!.
    + apply Hl in HM. by destruct l; [apply not_elem_of_nil in HM|].
    + intros c (C & -> & HC%Hl)%list_elem_of_fmap. cbn. split; [apply HC|]. intros ->.
      destruct HC as [_ HC]. apply (HC b); [rewrite dom_graph_add; set_solver|set_solver|].
      by intros c ?%elem_of_empty.
    + rewrite <-list_fmap_compose, list_fmap_id. 
      eapply max_cliques_antichain; [done|]. intros C. apply Hl.
Qed.

Lemma one_blockclique s l i :
  (i < length l)%nat →
  length (filter (λ c, is_blockclique c = true) (alter set_blockclique i (scored s <$> l)))
  = 1%nat.
Proof using.
  assert (∀ l, filter (λ c, is_blockclique c = true) (scored s <$> l) = []) as Hnone.
  { clear l. intros l. induction l as [|c l IH]; [done|]. by rewrite fmap_cons, filter_cons_False. }
  revert i. induction l as [|c l IH]; intros [|i] Hi; cbn [length] in Hi; [lia..| |].
  - change (alter set_blockclique 0%nat (scored s <$> c :: l))
      with (set_blockclique (scored s c) :: (scored s <$> l)).
    by rewrite filter_cons_True, Hnone.
  - change (alter set_blockclique (S i) (scored s <$> c :: l))
      with (scored s c :: alter set_blockclique i (scored s <$> l)).
    rewrite filter_cons_False by done. apply IH. lia.
Qed.

Lemma elem_of_scored s i c :
  c ∈ scored_cliques s i → ∃ c', c' ∈ max_cliques s ∧ block_ids c = block_ids c'
    ∧ fitness c = weight s (block_ids c').
Proof using.
  unfold scored_cliques. intros [j Hj]%list_elem_of_lookup_1.
  assert (∃ c', max_cliques s !! j = Some c' ∧ (c = scored s c' ∨ c = set_blockclique (scored s c')))
    as (c' & Hc' & Hc).
  { destruct (decide (i = j)) as [->|Hne].
    - rewrite list_lookup_alter_eq, list_lookup_fmap in Hj.
      destruct (max_cliques s !! j) as [c'|]; [|done]. exists c'. injection Hj as <-. auto.
    - rewrite list_lookup_alter_ne, list_lookup_fmap in Hj by done.
      destruct (max_cliques s !! j) as [c'|]; [|done]. exists c'. injection Hj as <-. auto. }
  exists c'. split; [by eapply list_elem_of_lookup_2|]. by destruct Hc as [-> | ->].
Qed.

Lemma scored_ids s i : block_ids <$> scored_cliques s i = block_ids <$> max_cliques s.
Proof using.
  unfold scored_cliques. apply list_eq. intros j. rewrite !list_lookup_fmap.
  destruct (decide (i = j)) as [->|Hne].
  - rewrite list_lookup_alter_eq, list_lookup_fmap. by destruct (max_cliques s !! j).
  - rewrite list_lookup_alter_ne, list_lookup_fmap by done. by destruct (max_cliques s !! j).
Qed.

Lemma scored_cliques_ok s gi i :
  (i < length (max_cliques s))%nat → (∀ c, c ∈ max_cliques s → is_clique gi (block_ids c)) →
  antichain (block_ids <$> max_cliques s) → cliques_ok s gi (scored_cliques s i).
Proof using.
  intros Hi Hcl Han. split.
  - intros Heq. pose proof (scored_ids s i) as Hids. rewrite Heq in Hids.
    apply (f_equal length) in Hids. rewrite !length_fmap in Hids. cbn in Hids. lia.
  - intros c (c' & Hc' & -> & _)%elem_of_scored. by apply Hcl.
  - by rewrite scored_ids.
  - by apply one_blockclique.
  - intros c (c' & _ & -> & ->)%elem_of_scored. done.
Qed.

Lemma update_best_parents_spec s X bc :
  cs_base X s → all_active s (block_ids bc) →
  ∃ l, update_best_parents bc s = Ok (set_best_parents l s)
    ∧ length l = N.to_nat (thread_count config).
Proof.
  intros Hinv Hact. unfold update_best_parents.
  edestruct (foldM_total (E := ConsensusError)
    (λ (_ : list BlockId) (l : list (BlockId * N)), length l = N.to_nat (thread_count config)))
    as (l & -> & Hl); [apply Hinv| |cbn [mbind outcome_bind]; eauto].
  intros pre b post l Hpre Hlen. destruct (Hact b) as [a Ha].
  { rewrite <-elem_of_set_iter, Hpre. set_solver. }
  rewrite Ha. cbn [ok_or mbind outcome_bind].
  pose proof (bo_thread _ _ _ (ci_blocks _ _ Hinv b a Ha)) as Ht.
  destruct (idx_total (E := ConsensusError) l (thread (ab_slot a))) as (cur & -> & _); [lia|].
  cbn [mbind outcome_bind]. case_match; [|by eauto].
  unfold idx_set. destruct (N.ltb_spec (thread (ab_slot a)) (N.of_nat (length l))); [|lia].
  eexists. split; [done|]. by rewrite length_insert.
Qed.

(** ** The links of the new block *)

Definition active_in (m : Statuses) (x : BlockId) : option ActiveBlock :=
  match m !! x with Some (Active a _) => Some a | _ => None end.

Lemma active_in_update f m b x :
  active_in (statuses_update_active f m b) x
  = (λ a, if decide (x = b) then f a else a) <$> active_in m x.
Proof using.
  unfold active_in, statuses_update_active. destruct (decide (x = b)) as [->|Hne].
  - destruct (m !! b) as [[]|] eqn:Hb; rewrite ?lookup_insert_eq, ?Hb; done.
  - destruct (m !! b) as [[]|]; rewrite ?lookup_insert_ne by done;
      by destruct (m !! x) as [[]|].
Qed.

Lemma active_in_edit t f l m x :
  active_in (edit_parents t f l m) x
  = (λ a, if decide (x ∈ l) then edit_thread t f a else a) <$> active_in m x.
Proof using.
  unfold active_in, edit_parents. rewrite map_lookup_imap.
  destruct (m !! x) as [[]|]; cbn; try done. by case_decide.
Qed.

Lemma active_in_descendant b V m x :
  active_in (add_descendant b V m) x
  = (λ a, if decide (x ∈ V ∧ ab_is_final a = false)
          then ab_set_descendants (ab_descendants a ∪ {[b]}) a else a) <$> active_in m x.
Proof using.
  unfold active_in, add_descendant. rewrite map_lookup_imap.
  destruct (m !! x) as [[]|]; cbn; try done. by case_decide.
Qed.

Lemma linked_children b slot parents V s x a' :
  get_active (with_statuses (linked b slot parents V (block_statuses (blocks_state s))) s) x
    = Some a' →
  ∃ a, get_active s x = Some a ∧ ab_children a' = if decide (x ∈ parents)
       then alter <[b := period slot]> (N.to_nat (thread slot)) (ab_children a)
       else ab_children a.
Proof using.
  rewrite get_active_with_statuses. fold (active_in (linked b slot parents V
    (block_statuses (blocks_state s))) x). unfold linked.
  rewrite active_in_descendant, active_in_update, active_in_edit.
  change (active_in (block_statuses (blocks_state s)) x) with (get_active s x).
  destruct (get_active s x) as [a|]; [|done]. cbn [fmap option_fmap option_map]. intros [= <-].
  exists a. split; [done|]. by repeat case_decide.
Qed.

Lemma linked_blocks_ok b a V s :
  get_active s b = Some a → (∀ x ax, get_active s x = Some ax → block_ok s x ax) →
  let s' := with_statuses (linked b (ab_slot a) (ab_parents a).*1 V
                             (block_statuses (blocks_state s))) s in
  ∀ x ax, get_active s' x = Some ax → block_ok s' x ax.
Proof using.
  intros Hb Hok s' x ax' Hx.
  assert (same_blocks s s') as Hsame by apply link_edit_blocks, linked_link.
  destruct (same_blocks_get s s' x ax' Hsame Hx) as (ax & Hax & _ & _ & Hpar & _ & Hsl & Hfit).
  destruct (linked_children b _ _ V s x ax' Hx) as (ax2 & Hax2 & Hch).
  rewrite Hax in Hax2. injection Hax2 as <-. destruct (Hok x ax Hax) as [H1 H0 H2 H3 H4 H5].
  assert (∀ y ay, get_active s y = Some ay → x ∈ (ab_parents ay).*1 →
    ∃ ay', get_active s' y = Some ay' ∧ x ∈ (ab_parents ay').*1
      ∧ N.to_nat (thread (ab_slot ay)) = N.to_nat (thread (ab_slot ay'))) as Hlink.
  { intros y ay Hy Hp. specialize (Hsame y). rewrite Hy in Hsame.
    destruct Hsame as (ay' & Hy' & _ & _ & Hpy & _ & Hsy & _). exists ay'.
    by rewrite Hpy, Hsy. }
  split; rewrite ?Hsl, ?Hpar, ?Hfit; [done|done| |done|done|].
  - rewrite Hch. case_decide; by rewrite ?length_alter.
  - assert (∀ i c y p, ab_children ax !! i = Some c → c !! y = Some p →
      ∃ ay, get_active s' y = Some ay ∧ x ∈ (ab_parents ay).*1
        ∧ i = N.to_nat (thread (ab_slot ay))) as Hold.
    { intros i c y p Hi Hy. destruct (H5 i c y p Hi Hy) as (ay & Hay & Hxp & ->). by apply Hlink. }
    intros i c y p Hi Hy. rewrite Hch in Hi. case_decide as Hp; [|by eapply Hold].
    destruct (decide (N.to_nat (thread (ab_slot a)) = i)) as [<-|Hne].
    + rewrite list_lookup_alter_eq in Hi. apply fmap_Some in Hi as (c0 & Hc0 & ->).
      apply lookup_insert_Some in Hy as [[<- _]|[_ Hy]]; [by apply Hlink|by eapply Hold].
    + rewrite list_lookup_alter_ne in Hi by done. by eapply Hold.
Qed.

Lemma linked_base X b a V s :
  cs_base X s → get_active s b = Some a →
  cs_base X (with_statuses (linked b (ab_slot a) (ab_parents a).*1 V
                              (block_statuses (blocks_state s))) s).
Proof using.
  intros [H1 H2 H3 H4 H5 H6] Hb. set (s' := with_statuses _ s).
  assert (same_blocks s s') as Hsame by apply link_edit_blocks, linked_link.
  split; [| |done| |by apply linked_blocks_ok|done].
  - apply bs_ok_active_edit; [|done]. apply link_edit_active, linked_link.
  - apply seq_ok_active_edit; [|done]. apply link_edit_active, linked_link.
  - intros x. rewrite <-(same_blocks_nonfinal s s' x Hsame). apply H4.
Qed.

Lemma graph_added_base b inc s :
  cs_base {[b]} s → is_nonfinal s b → inc ⊆ dom (gi_head s) →
  cs_base ∅ (set_gi_head (graph_add (gi_head s) b inc) s).
Proof using.
  intros [H1 H2 H3 H4 H5 H6] Hb Hinc.
  assert (b ∉ dom (gi_head s)) as Hbd by (rewrite H4; set_solver).
  split; [done|done| | | |done].
  - by apply graph_ok_add.
  - intros x. cbn [gi_head set_gi_head]. rewrite dom_graph_add, elem_of_union, elem_of_singleton, H4.
    change (is_nonfinal (set_gi_head _ s) x) with (is_nonfinal s x).
    destruct (decide (x = b)) as [->|]; set_solver.
  - intros x a Hx. eapply (block_ok_ext s); [done|]. by apply H5.
Qed.

(** What remains once the block is in the graph and the cliques are listed. *)
Definition settle s : outcome ConsensusError ConsensusState :=
  '(position_blockclique, s) ← compute_fitness_find_blockclique s;
  blockclique ← idx (max_cliques s) (N.of_nat position_blockclique);
  s ← update_best_parents blockclique s;
  s ← remove_stale_blocks position_blockclique s;
  final_blocks ← list_final_blocks s;
  mark_final_blocks final_blocks s.

Lemma settle_spec s k :
  cs_base ∅ s → max_cliques s ≠ [] →
  (∀ c, c ∈ max_cliques s → is_clique (gi_head s) (block_ids c) ∧ block_ids c ≠ ∅) →
  antichain (block_ids <$> max_cliques s) → weight s (dom (gi_head s)) ≤ u64_max →
  room (k + N.of_nat (size (block_statuses (blocks_state s)))) s →
  ∃ s', settle s = Ok s' ∧ cs_inv ∅ s' ∧ evolves s s' ∧ room k s'.
Proof.
  intros Hinv Hne Hcl Han Hw Hroom. unfold settle.
  assert (∀ c, c ∈ max_cliques s → all_active s (block_ids c) ∧ weight s (block_ids c) ≤ u64_max)
    as Hca.
  { intros c [Hc _]%Hcl. split.
    - intros b Hb. destruct (cliques_active s ∅ _ Hinv Hc b Hb) as (a & Ha & _). eauto.
    - etrans; [|exact Hw]. apply set_sum_mono, Hc. }
  destruct (compute_fitness_spec s Hne) as (i & c & Hi & -> & _); [|done|].
  { intros b a Hb. apply (ci_blocks _ _ Hinv b a Hb). }
  cbn [mbind outcome_bind]. set (s1 := set_max_cliques (scored_cliques s i) s).
  assert (max_cliques s1 !! i = Some (set_blockclique (scored s c))) as Hi1.
  { cbn. unfold scored_cliques. by rewrite list_lookup_alter_eq, list_lookup_fmap, Hi. }
  unfold idx. rewrite Nat2N.id, Hi1. cbn [expect mbind outcome_bind].
  destruct (update_best_parents_spec s1 ∅ (set_blockclique (scored s c))) as (l & -> & _).
  { by apply (cs_base_ext _ s). } { cbn. apply Hca. by eapply list_elem_of_lookup_2. }
  cbn [mbind outcome_bind]. set (s2 := set_best_parents l s1).
  assert (cs_inv ∅ s2) as Hinv2.
  { split; [by apply (cs_base_ext _ s)|]. cbn. apply (cliques_ok_weight s); [done|].
    apply scored_cliques_ok; [by eapply lookup_lt_Some|apply Hcl|done]. }
  destruct (remove_stale_blocks_spec s2 i _ k Hinv2 Hi1) as (s3 & -> & Hinv3 & He3 & Hr3 & Hc3 & _);
    [done| |done|].
  { intros c' (c0 & Hc0 & -> & _)%elem_of_scored. by apply Hcl. }
  cbn [mbind outcome_bind].
  assert (∀ c, c ∈ max_cliques s3 → is_clique (gi_head s3) (block_ids c)
    ∧ weight s3 (block_ids c) ≤ u64_max) as Hc3'.
  { intros c' Hc'. split; [by apply Hinv3|]. rewrite <-(co_fit _ _ _ (proj2 Hinv3) c' Hc').
    rewrite Hc3 in Hc'. apply list_elem_of_filter in Hc' as [_ (c0 & Hc0 & _ & ->)%elem_of_scored].
    by apply Hca. }
  destruct (list_final_blocks_spec s3) as (F & -> & HF); [apply Hinv3| |].
  { intros b Hb. destruct (max_cliques s3) as [|c0 l3] eqn:Hl3; [by destruct (co_ne _ _ _ (proj2 Hinv3))|].
    destruct (Hc3' c0) as [Hc0 _]; [by left|].
    destruct (cliques_active s3 ∅ _ (proj1 Hinv3) Hc0 b) as (a & Ha & _); [|by eauto].
    apply Hb. by left. }
  cbn [mbind outcome_bind].
  destruct (mark_final_blocks_spec s3 F Hinv3) as (s4 & -> & Hinv4 & _ & He4 & Hr4).
  { intros b (_ & c' & _ & _ & a & Ha & _)%HF. eauto. }
  { intros b c' [Hb _]%HF. apply Hb. } { intros c' Hc'. by apply Hc3'. }
  exists s4. split_and!; [done|done| |by apply Hr4].
  eapply evolves_trans; [|exact He4]. eapply evolves_trans; [|exact He3]. by apply evolves_ext.
Qed.

Lemma add_block_to_graph_settle b parents slot inc n s :
  add_block_to_graph b parents slot inc n s =
    (s ← insert_parents_descendants b slot parents.*1 s;
     gi ← add_incompatibilities b inc (gi_head s);
     s ← update_max_cliques b inc n (set_gi_head gi s);
     s ← settle s;
     _ ← map_err ConsensusModelsError
           (get_block_slot_timestamp (thread_count config) (t0 config) (genesis_timestamp config)
              slot);
     Ok s).
Proof.
  unfold add_block_to_graph, settle. cbn zeta.
  repeat (apply outcome_bind_ext; intros ?). rewrite !outcome_bind_assoc.
  apply outcome_bind_ext. intros [i s1]. rewrite !outcome_bind_assoc.
  repeat (apply outcome_bind_ext; intros ?; rewrite ?outcome_bind_assoc). done.
Qed.

(** The new block is active and not final, and is not in the graph yet; the
    blocks it conflicts with are; the total fitness of the non-final blocks fits
    in 64 bits and the sequence numbers are not exhausted, with [k] more to come. *)
Record insertable (b : BlockId) (a : ActiveBlock) (inc : gset BlockId) (k : N) s : Prop := {
  in_inv : cs_inv {[b]} s;
  in_active : get_active s b = Some a;
  in_nonfinal : ab_is_final a = false;
  in_inc : inc ⊆ dom (gi_head s);
  in_weight : weight s ({[b]} ∪ dom (gi_head s)) ≤ u64_max;
  in_room : room (k + N.of_nat (size (block_statuses (blocks_state s)))) s }.

Lemma add_block_to_graph_spec b a inc n k s ts :
  insertable b a inc k s →
  get_block_slot_timestamp (thread_count config) (t0 config) (genesis_timestamp config) (ab_slot a)
    = Ok ts →
  ∃ s', add_block_to_graph b (ab_parents a) (ab_slot a) inc n s = Ok s'
    ∧ cs_inv ∅ s' ∧ evolves s s' ∧ room k s'.
Proof.
  intros [[Hinv Hcl] Ha Hf Hinc Hw Hroom] Hts. rewrite add_block_to_graph_settle.
  destruct (@insert_parents_descendants_spec ConsensusError b (ab_slot a) (ab_parents a).*1 s)
    as (V & -> & _); [by eauto| |].
  { intros p ap _ Hp. rewrite (bo_children _ _ _ (ci_blocks _ _ Hinv p ap Hp)).
    pose proof (bo_thread _ _ _ (ci_blocks _ _ Hinv b a Ha)). lia. }
  cbn [mbind outcome_bind]. set (m := linked _ _ _ _ _). set (s1 := with_statuses m s).
  assert (same_blocks s s1) as Hsame by apply link_edit_blocks, linked_link.
  assert (b ∉ dom (gi_head s)) as Hbd by (rewrite (ci_dom _ _ Hinv); set_solver).
  change (gi_head s1) with (gi_head s). rewrite add_incompatibilities_eq by done.
  cbn [mbind outcome_bind]. set (s2 := set_gi_head (graph_add (gi_head s) b inc) s1).
  assert (cs_base ∅ s2) as Hinv2.
  { apply (graph_added_base b inc s1); [by apply linked_base| |done].
    apply (same_blocks_nonfinal s s1 b Hsame). by exists a. }
  destruct (update_max_cliques_spec s (gi_head s) b inc n s2) as (l & -> & Hne & Hl & Han);
    [apply Hinv|done..|]. cbn [mbind outcome_bind].
  destruct (settle_spec (set_max_cliques l s2) k) as (s' & -> & Hinv' & He & Hr'); [|done..| | |].
  - by apply (cs_base_ext _ s2).
  - cbn. rewrite dom_graph_add. etrans; [|exact Hw]. apply N.eq_le_incl, set_sum_ext.
    intros x _. by apply same_blocks_fitness.
  - unfold room in *. cbn. unfold m.
    rewrite (active_edit_size _ _ (link_edit_active _ _ (linked_link b _ _ V _))). done.
  - cbn [mbind outcome_bind]. rewrite Hts. cbn [map_err mbind outcome_bind].
    exists s'. split_and!; [done|done| |done]. eapply evolves_trans; [|exact He].
    eapply evolves_trans; [apply link_edit_evolves, linked_link|]. by apply evolves_ext.
Qed.
End insertion.
