(* ===== verification/Processing.v ===== *)
(** * Processing keeps the node consistent

    [process] and [rec_process] (process.rs) in a consistent state: they end
    without error or panic, in a consistent state where no block is left
    [Incoming] and no block waits for satisfied dependencies, and they never
    undo a finalisation.  The entry points that lead to them follow. *)

From S2P Require Import Prelude Slots Times Cliques Traversal Models Storage Blocks BlocksState.
From S2P Require Import ConsensusState Graph Verifications Process Invariant HeaderCheck Insertion.

Open Scope N_scope.

Section processing.
Context `{!SetIter BlockId, !KeyHash, Env : ConsensusEnv}.
Context (max_fit : N).
Implicit Types (due : option Slot) (s : ConsensusState) (b x : BlockId).
Local Notation tc := (thread_count config).
Local Notation statuses s := (block_statuses (blocks_state s)).

(** ** Consistent states *)

(** A registered header is one the network layer accepts; a registered block is
    filed under its id, is in the shared index, and has its header's slot. *)
Definition stored_ok x (slot : Slot) (blk : SecureShareBlock) : Prop :=
  BlockIndex.get read_blocks x = Some blk ∧ header_ok (header (content blk))
  ∧ get_fitness (header (content blk)) ≤ max_fit
  ∧ header_slot (header (content blk)) = slot.
Definition hob_ok x (hb : HeaderOrBlock) : Prop :=
  match hb with
  | HoBHeader h => header_ok h
  | HoBBlock b slot _ => b = x ∧ ∃ blk, stored_ok x slot blk
  end.

(** No block waits for an active block. *)
Definition pending_ok s x (st : BlockStatus) : Prop :=
  match st with
  | Incoming hb | WaitingForSlot hb => hob_ok x hb
  | WaitingForDependencies hb deps _ => hob_ok x hb ∧ ∀ y, y ∈ deps → get_active s y = None
  | _ => True
  end.

(** A block without its operations is final, and execution knows it. *)
Definition stored_inv s : Prop :=
  ∀ x a blk, statuses s !! x = Some (Active a (SoBBlock blk)) →
    ab_is_final a = true ∧ x ∉ new_final_blocks s.

Record node_ok s : Prop := {
  no_inv : cs_inv ∅ s;
  no_pending : ∀ x st, pending_view (statuses s) x = Some st → pending_ok s x st;
  no_fitness : ∀ x a, get_active s x = Some a → ab_fitness a ≤ max_fit;
  no_stored : stored_inv s }.

(** ** Changes that keep the active blocks *)

Lemma same_active_inv X s s' :
  (∀ x, get_active s' x = get_active s x) → bs_ok (blocks_state s') → seq_ok (blocks_state s') →
  gi_head s' = gi_head s → max_cliques s' = max_cliques s →
  latest_final_blocks_periods s' = latest_final_blocks_periods s → cs_inv X s → cs_inv X s'.
Proof using.
  intros Ha Hbs Hseq Hgi Hcl Hl [[_ _ H3 H4 H5 H6] Hc].
  assert (∀ C, weight s' C = weight s C) as Hw.
  { intros C. apply set_sum_ext. intros x _. unfold fitness_of. by rewrite Ha. }
  split; [split; rewrite ?Hgi, ?Hl; [done..| | |done]|].
  - intros x. rewrite H4. unfold is_nonfinal. by setoid_rewrite Ha.
  - intros x a Hx. rewrite Ha in Hx. destruct (H5 x a Hx) as [P1 P2 P3 P4 P5 P6].
    split; [done..|]. intros i c y p Hi Hy. destruct (P6 i c y p Hi Hy) as (ay & Hay & ?).
    exists ay. by rewrite Ha.
  - rewrite Hgi, Hcl. by apply (cliques_ok_weight s).
Qed.

Lemma pending_ok_active s s' x st :
  (∀ y, get_active s' y = get_active s y) → pending_ok s x st → pending_ok s' x st.
Proof using.
  intros Ha. destruct st as [| |hb d n| |]; cbn; try done. intros [? Hd]. split; [done|].
  intros y Hy. rewrite Ha. by apply Hd.
Qed.

Lemma same_active_finality s s' :
  (∀ x, get_active s' x = get_active s x) →
  latest_final_blocks_periods s' = latest_final_blocks_periods s → finality_kept s s'.
Proof using.
  intros Ha Hl. split.
  - intros x a Hx Hf. exists a. by rewrite Ha.
  - intros i p Hp. rewrite Hl. exists p. split; [done|lia].
Qed.

(** Fields outside of the graph. *)
Record same_core s s' : Prop := {
  sk_blocks : blocks_state s' = blocks_state s;
  sk_gi : gi_head s' = gi_head s;
  sk_cliques : max_cliques s' = max_cliques s;
  sk_latest : latest_final_blocks_periods s' = latest_final_blocks_periods s;
  sk_new_final : new_final_blocks s' ⊆ new_final_blocks s }.

Lemma same_core_active s s' x : same_core s s' → get_active s' x = get_active s x.
Proof using. intros [Hb _ _ _ _]. unfold get_active. by rewrite Hb. Qed.

Lemma same_core_ok s s' : same_core s s' → node_ok s → node_ok s'.
Proof using.
  intros Hc [Hi Hp Hf Hs]. pose proof (λ x, same_core_active s s' x Hc) as Ha.
  destruct Hc as [Hb Hg Hm Hl Hn]. split.
  - eapply (same_active_inv ∅ s); rewrite ?Hb; [done|apply Hi|apply Hi|done..].
  - intros x st. rewrite Hb. intros Hx. eapply pending_ok_active; [done|by apply Hp].
  - intros x a. rewrite Ha. apply Hf.
  - intros x a blk. rewrite Hb. intros Hx. destruct (Hs x a blk Hx). split; [done|set_solver].
Qed.

(** ** A change of status *)

Definition active_status (st : option BlockStatus) : option ActiveBlock :=
  match st with Some (Active a _) => Some a | _ => None end.

Lemma transitioned_active b new bs' s x :
  transitioned b new (delete b (statuses s)) (blocks_state s) bs' →
  get_active (set_blocks_state bs' s) x
  = if decide (x = b) then active_status new else get_active s x.
Proof using.
  intros [_ _ [n Hn] Ho _ _]. unfold get_active, bs_get. cbn. case_decide as Hx.
  - subst. rewrite Hn. by destruct new as [[]|].
  - destruct (Ho x Hx) as [->|(Hw & n' & ->)]; rewrite lookup_delete_ne by done; [done|].
    unfold is_waiting in Hw. rewrite lookup_delete_ne in Hw by done.
    by destruct (statuses s !! x) as [[]|].
Qed.

Lemma transitioned_view b new bs' s x :
  transitioned b new (delete b (statuses s)) (blocks_state s) bs' → x ≠ b →
  pending_view (block_statuses bs') x = pending_view (statuses s) x.
Proof using. intros Ht Hx. eapply transitioned_pending; [apply active_edit_refl|done|done]. Qed.

Lemma transitioned_view_self b new m bs bs' st :
  transitioned b new m bs bs' → pending_view (block_statuses bs') b = Some st →
  ∃ st0, new = Some st0 ∧ st = set_sequence_number 0 st0.
Proof using.
  intros [_ _ [n Hn] _ _ _] Hv. unfold pending_view in Hv. rewrite Hn in Hv.
  destruct new as [st0|]; [|done]. cbn in Hv. case_decide; [|done]. injection Hv as <-.
  exists st0. by rewrite set_sequence_number_twice.
Qed.

Lemma transitioned_active_status b new bs' s x a sb :
  transitioned b new (delete b (statuses s)) (blocks_state s) bs' → x ≠ b →
  block_statuses bs' !! x = Some (Active a sb) → statuses s !! x = Some (Active a sb).
Proof using.
  intros Ht Hne Hx. destruct (tr_other _ _ _ _ _ Ht x Hne) as [Ho|[Hw [n Ho]]];
    rewrite Hx, lookup_delete_ne in Ho by done; [done|].
  unfold is_waiting in Hw. rewrite lookup_delete_ne in Hw by done.
  by destruct (statuses s !! x) as [[]|].
Qed.

Lemma pending_ok_number s x n st : pending_ok s x (set_sequence_number n st) ↔ pending_ok s x st.
Proof using. by destruct st. Qed.

(** A new status that does not change whether the block is active. *)
Lemma status_change_ok b new bs' s :
  node_ok s → active_status new = get_active s b →
  (∀ a sb, new = Some (Active a sb) → statuses s !! b = Some (Active a sb)) →
  (∀ st, new = Some st → pending_ok s b st) →
  transitioned b new (delete b (statuses s)) (blocks_state s) bs' →
  node_ok (set_blocks_state bs' s)
  ∧ ∀ x, get_active (set_blocks_state bs' s) x = get_active s x.
Proof using.
  intros [Hi Hp Hf Hs] Hnew Hsame Hst Ht.
  assert (∀ x, get_active (set_blocks_state bs' s) x = get_active s x) as Ha.
  { intros x. rewrite (transitioned_active b new bs' s x Ht). case_decide; congruence. }
  split; [|done]. split.
  - eapply (same_active_inv ∅ s); [done|by apply (tr_ok _ _ _ _ _ Ht), Hi
      |by apply (tr_seq _ _ _ _ _ Ht), Hi|done..].
  - cbn. intros x st Hx. eapply pending_ok_active; [done|].
    destruct (decide (x = b)) as [->|Hne].
    + destruct (transitioned_view_self b new _ _ bs' st Ht Hx) as (st0 & -> & ->).
      by apply pending_ok_number, Hst.
    + rewrite (transitioned_view b new bs' s x) in Hx by done. by apply Hp.
  - intros x a. rewrite Ha. apply Hf.
  - intros x a blk Hx. apply (Hs x a blk). destruct (decide (x = b)) as [->|Hne].
    + destruct (tr_new _ _ _ _ _ Ht) as [n Hn]. cbn in Hx. rewrite Hn in Hx.
      apply fmap_Some in Hx as (st & -> & Hx). apply Hsame. destruct st; cbn in Hx; congruence.
    + by apply (transitioned_active_status b new bs').
Qed.

(** ** One step of processing *)

(** The blocks that must be examined: those that arrived, those whose
    dependencies are satisfied, and those whose slot is drawn and reached when
    the slot is [due]. Without a slot, only the first two. *)
Definition to_examine (due : option Slot) (st : BlockStatus) : Prop :=
  match st with
  | Incoming _ => True
  | WaitingForDependencies _ deps _ => deps = ∅
  | WaitingForSlot hb => opt_slot_lt due (Some (get_slot hb)) = false ∧ drawn (get_slot hb)
  | _ => False
  end.
Definition owed due s x : Prop :=
  ∃ st, pending_view (statuses s) x = Some st ∧ to_examine due st.
Definition must_process s x : Prop := owed None s x.

(** A run at slot [c] can clear what is owed at [due]. *)
Definition due_by (due c : option Slot) : Prop :=
  ∀ slot, opt_slot_lt c (Some slot) = true → opt_slot_lt due (Some slot) = true.

Lemma due_by_none c : due_by None c.
Proof using. done. Qed.
Lemma due_by_refl c : due_by c c.
Proof using. by intros slot. Qed.

(** The potential of the pending blocks, [n] bounding their number: a waiting
    block may be examined once more than an incoming one. *)
Definition rank (n : nat) (st : BlockStatus) : nat :=
  match st with
  | Incoming _ => 2 * n + 1
  | WaitingForSlot _ | WaitingForDependencies _ _ _ => 2 * n + 2
  | _ => 0
  end.
Definition potential (n : nat) (m : Statuses) : nat := map_sum (rank n) m.

(** What processing [b] guarantees, [re] being the items to process next. *)
Record step_ok (due : option Slot) (n : nat) (k : N) b s (re : gset (Slot * BlockId)) s' : Prop := {
  so_ok : node_ok s';
  so_final : finality_kept s s';
  so_size : (size (statuses s') ≤ size (statuses s))%nat;
  so_room : room k s';
  so_measure : (2 * size re + potential n (statuses s') < potential n (statuses s) + 2)%nat;
  so_queued : ∀ x, owed due s' x → (∃ slot, (slot, x) ∈ re) ∨ x ≠ b ∧ owed due s x }.

Lemma step_idle due n k b s :
  node_ok s → room k s → ¬ owed due s b → step_ok due n k b s ∅ s.
Proof using.
  intros Hok Hr Hb. split; [done|apply finality_kept_refl|done|done|rewrite size_empty; lia|].
  intros x Hx. right. split; [|done]. by intros ->.
Qed.

(** The rank of a block follows its pending status. *)
Lemma value_at_rank n m m' x :
  pending_view m' x = pending_view m x → value_at (rank n) m' x = value_at (rank n) m x.
Proof using.
  unfold pending_view, value_at. destruct (m !! x) as [st|], (m' !! x) as [st'|]; cbn; try done;
    repeat case_decide; try done.
  - intros [= Heq]. by destruct st, st'; cbn in Heq; simplify_eq.
  - intros _. by destruct st, st'.
  - intros _. by destruct st.
  - intros _. by destruct st'.
Qed.

Lemma transitioned_potential n b new bs' s :
  transitioned b new (delete b (statuses s)) (blocks_state s) bs' →
  (potential n (block_statuses bs') + value_at (rank n) (statuses s) b
    = potential n (statuses s) + from_option (rank n) 0 new)%nat.
Proof using.
  intros Ht. unfold potential.
  rewrite (map_sum_change (rank n) (statuses s) (block_statuses bs') b).
  - f_equal. destruct (tr_new _ _ _ _ _ Ht) as [n' Hn']. unfold value_at. rewrite Hn'.
    by destruct new as [[]|].
  - intros y Hy. apply value_at_rank. by eapply transitioned_view.
Qed.

Lemma transitioned_size_le b new bs' s :
  transitioned b new (delete b (statuses s)) (blocks_state s) bs' →
  (is_Some new → is_Some (statuses s !! b)) →
  (size (block_statuses bs') ≤ size (statuses s))%nat.
Proof using.
  intros Ht Hb. rewrite <-!size_dom. apply subseteq_size. intros x. rewrite !elem_of_dom.
  rewrite (transitioned_dom b new _ (blocks_state s) bs' x (active_edit_refl _) Ht).
  case_decide; [subst; by auto|done].
Qed.

Lemma transitioned_room k b new bs' s :
  transitioned b new (delete b (statuses s)) (blocks_state s) bs' →
  (is_Some new → is_Some (statuses s !! b)) →
  room (k + N.of_nat (size (statuses s)) + 2) s → room k (set_blocks_state bs' s).
Proof using.
  intros Ht Hb Hr. pose proof (transitioned_size_le b new bs' s Ht Hb).
  pose proof (tr_counter _ _ _ _ _ Ht). unfold room in *. cbn. lia.
Qed.

Lemma transitioned_owed due b new bs' s x :
  transitioned b new (delete b (statuses s)) (blocks_state s) bs' →
  owed due (set_blocks_state bs' s) x →
  (x = b ∧ ∃ st, new = Some st ∧ to_examine due st) ∨ x ≠ b ∧ owed due s x.
Proof using.
  intros Ht (st & Hst & He). cbn in Hst. destruct (decide (x = b)) as [->|Hne].
  - left. split; [done|]. destruct (transitioned_view_self b new _ _ bs' st Ht Hst) as (st0 & -> & ->).
    exists st0. split; [done|]. by destruct st0.
  - right. split; [done|]. rewrite (transitioned_view b new bs' s x) in Hst by done. by exists st.
Qed.

Lemma same_core_step due n k b s s1 re s' :
  same_core s s1 → step_ok due n k b s1 re s' → step_ok due n k b s re s'.
Proof using.
  intros Hc [H1 H2 H3 H4 H5 H6]. pose proof (λ x, same_core_active s s1 x Hc) as Ha.
  destruct Hc as [Hb _ _ Hl _]. unfold owed in *. rewrite Hb in *.
  split; [done| |done..].
  eapply finality_kept_trans; [|done]. by apply same_active_finality.
Qed.

Lemma same_core_room k s s' : same_core s s' → room k s → room k s'.
Proof using. intros [Hb _ _ _ _]. unfold room. by rewrite Hb. Qed.

(** A pending block whose status changes without becoming active. *)
Lemma status_step {E R} due n k b s st new (r : R) (f : callback E R) re :
  node_ok s → statuses s !! b = Some st → is_pending st → active_status new = None →
  allowed (Some (status_id st)) (status_id <$> new) = true →
  f (Some st) (delete b (statuses s)) = Ok (new, delete b (statuses s), r) →
  (∀ st', new = Some st' → pending_ok s b st') →
  (∀ st', new = Some st' → to_examine due st' → ∃ slot, (slot, b) ∈ re) →
  (2 * size re + from_option (rank n) 0 new < rank n st + 2)%nat →
  room (k + N.of_nat (size (statuses s)) + 2) s →
  ∃ bs', transition_map (blocks_state s) b f = Ok (bs', r)
    ∧ step_ok due n k b s re (set_blocks_state bs' s).
Proof.
  intros Hok Hb Hpend Hnew Hall Hf Hst Hre Hm Hr.
  destruct (transition_map_spec (blocks_state s) b f new (delete b (statuses s)) r)
    as (bs' & Htm & Ht).
  { by rewrite Hb. } { apply active_edit_refl. } { by rewrite Hb. } { unfold room in Hr. lia. }
  assert (get_active s b = None) as Hba.
  { unfold get_active, bs_get. rewrite Hb. by destruct st. }
  destruct (status_change_ok b new bs' s Hok ltac:(congruence) ltac:(by intros ? ? ->) Hst Ht)
    as [Hok' Ha].
  exists bs'. split; [done|]. assert (is_Some (statuses s !! b)) as Hbs by (by rewrite Hb).
  split; [done|by apply same_active_finality|by eapply transitioned_size_le
    |by eapply transitioned_room| |].
  - pose proof (transitioned_potential n b new bs' s Ht) as Hp. unfold value_at in Hp.
    rewrite Hb in Hp. cbn in *. lia.
  - intros x [(-> & st' & Hst' & Hex)|?]%(transitioned_owed due b new bs' s x Ht); [|by right].
    left. by eapply Hre.
Qed.

(** ** Headers *)

(** A status a block can rest in, with a rank below that of a waiting block. *)
Definition parked due s b (st : BlockStatus) : Prop :=
  pending_ok s b st ∧ ¬ to_examine due st ∧ active_status (Some st) = None.

Lemma parked_rank n st : (rank n st ≤ 2 * n + 2)%nat.
Proof using. destruct st; cbn; lia. Qed.

Lemma note_verifiable_header_core h s :
  same_core s (note_verifiable_header h s).2.
Proof using.
  unfold note_verifiable_header, detect_multistake. repeat case_match; by split.
Qed.

Lemma maybe_note_core reason b s : same_core s (maybe_note_attack_attempt reason b s).
Proof using. by destruct reason. Qed.

Lemma same_core_refl s : same_core s s.
Proof using. by split. Qed.

Lemma same_core_trans s1 s2 s3 : same_core s1 s2 → same_core s2 s3 → same_core s1 s3.
Proof using. intros [] []. split; [congruence..|]. by etrans. Qed.

(** A header left waiting for its slot is not owed. *)
Lemma not_due due c h :
  due_by due c → (opt_slot_lt c (Some (header_slot h)) = true ∨ ¬ drawn (header_slot h)) →
  ¬ (opt_slot_lt due (Some (header_slot h)) = false ∧ drawn (header_slot h)).
Proof using. intros Hdue [Hlt|Hd] [Hge Hd']; [|done]. rewrite (Hdue _ Hlt) in Hge. done. Qed.

Lemma convert_block_header_spec {E} due b h c s :
  due_by due c → node_ok s → header_ok h → current_ok c → get_active s b = None →
  ∃ new s1, convert_block_header b h c s = @Ok E _ (new, s1) ∧ same_core s s1
    ∧ ∀ st, new = Some st → parked due s b st.
Proof.
  intros Hdue Hok Hh Hc Hb. unfold convert_block_header.
  destruct (@check_header_spec _ _ E s h c) as (o & -> & Ho); [apply Hok|done|done|].
  cbn [mbind outcome_bind].
  assert (∀ deps n, (∀ y, y ∈ deps → get_active s y = None) → b ∈ deps →
    parked due s b (WaitingForDependencies (HoBHeader h) deps n)) as Hwait.
  { intros deps n Hd Hbd. split; [done|]. split; [|done]. cbn. intros ->. set_solver. }
  destruct o as [parents inc cnt fit|reason| |missing].
  - pose proof (note_verifiable_header_core h s) as Hcore.
    destruct (note_verifiable_header h s) as [[] s1]; cbn in Hcore.
    + exists None, s1. split_and!; [done|done|done].
    + eexists _, s1. split_and!; [done|done|]. intros st [= <-]. apply Hwait; set_solver.
  - pose proof (maybe_note_core reason b (send (AddDenunciationPrecursor h) s)) as Hm.
    eexists _, _. split; [done|]. split; [|intros st [= <-]; unfold parked; cbn; tauto].
    apply (same_core_trans s (send (AddDenunciationPrecursor h) s)); [by split|].
    eapply same_core_trans; [exact Hm|]. by case_decide.
  - eexists _, s. split; [done|]. split; [by split|]. intros st [= <-]. split; [done|].
    split; [|done]. by apply (not_due due c h).
  - destruct Ho as [_ Hmiss]. pose proof (note_verifiable_header_core h s) as Hcore.
    destruct (note_verifiable_header h s) as [[] s1]; cbn in Hcore.
    + exists None, s1. split_and!; [done|done|done].
    + eexists _, s1. split_and!; [done|done|]. intros st [= <-]. apply Hwait; [|set_solver].
      intros y [Hy| ->%elem_of_singleton]%elem_of_union; [by apply Hmiss|done].
Qed.

(** A parked status after [Incoming]. *)
Lemma parked_step {E R} due n k b s hb new (r : R) (f : callback E R) :
  node_ok s → statuses s !! b = Some (Incoming hb) →
  (∀ st, new = Some st → parked due s b st) →
  f (Some (Incoming hb)) (delete b (statuses s)) = Ok (new, delete b (statuses s), r) →
  room (k + N.of_nat (size (statuses s)) + 2) s →
  ∃ bs', transition_map (blocks_state s) b f = Ok (bs', r)
    ∧ step_ok due n k b s ∅ (set_blocks_state bs' s).
Proof.
  intros Hok Hb Hnew Hf Hr. apply (status_step due n k b s (Incoming hb) new); try done.
  - destruct new as [st|]; [|done]. by destruct (Hnew st eq_refl) as (_ & _ & ?).
  - by destruct new.
  - intros st Hst. by apply Hnew.
  - intros st Hst Hex. by destruct (Hnew st Hst) as (_ & Hn & _).
  - rewrite size_empty. destruct new as [st|]; cbn; [|lia]. pose proof (parked_rank n st). lia.
Qed.

Lemma pending_hob s x st hb :
  node_ok s → statuses s !! x = Some st →
  (st = Incoming hb ∨ st = WaitingForSlot hb ∨ ∃ d n, st = WaitingForDependencies hb d n) →
  hob_ok x hb.
Proof using.
  intros Hok Hx Hst. pose proof (no_pending _ Hok x (set_sequence_number 0 st)) as Hp.
  assert (pending_view (statuses s) x = Some (set_sequence_number 0 st)) as Hv.
  { unfold pending_view. rewrite Hx. cbn. rewrite decide_True; [done|].
    destruct Hst as [->|[->|(? & ? & ->)]]; done. }
  specialize (Hp Hv). destruct Hst as [->|[->|(? & ? & ->)]]; cbn in Hp; [done|done|apply Hp].
Qed.

Lemma process_incoming_header_spec {E} due n k b h c s :
  due_by due c → node_ok s → current_ok c → statuses s !! b = Some (Incoming (HoBHeader h)) →
  room (k + N.of_nat (size (statuses s)) + 2) s →
  ∃ s', process_incoming_header b h c s = @Ok E _ s' ∧ step_ok due n k b s ∅ s'.
Proof.
  intros Hdue Hok Hc Hb Hr. unfold process_incoming_header.
  assert (header_ok h) as Hh by (apply (pending_hob s b _ (HoBHeader h) Hok Hb); by left).
  assert (get_active s b = None) as Hba by (unfold get_active, bs_get; by rewrite Hb).
  destruct (@convert_block_header_spec E due b h c s Hdue Hok Hh Hc Hba) as (new & s1 & -> & Hcore & Hnew).
  cbn [mbind outcome_bind]. pose proof (same_core_ok _ _ Hcore Hok) as Hok1.
  pose proof Hcore as [Hbs _ _ _ _].
  edestruct (parked_step (E := E) due n k b s1 (HoBHeader h) new tt) as (bs' & -> & Hstep);
    [done|by rewrite Hbs| |done|rewrite Hbs; by eapply same_core_room|].
  - intros st Hst. destruct (Hnew st Hst) as (H1 & H2 & H3). split_and!; [|done|done].
    eapply pending_ok_active; [|done]. intros y. by apply same_core_active.
  - cbn [mbind outcome_bind]. eexists. split; [done|]. by eapply same_core_step.
Qed.

(** ** Back to incoming *)

Lemma back_to_incoming_spec {E} due n k b s st hb :
  node_ok s → statuses s !! b = Some st →
  (st = WaitingForSlot hb ∨ ∃ d m, st = WaitingForDependencies hb d m) →
  room (k + N.of_nat (size (statuses s)) + 2) s →
  ∃ s', back_to_incoming b s = @Ok E _ (get_slot hb, s')
    ∧ step_ok due n k b s {[(get_slot hb, b)]} s'.
Proof.
  intros Hok Hb Hst Hr. unfold back_to_incoming.
  assert (hob_ok b hb) as Hhob by (eapply pending_hob; naive_solver).
  edestruct (status_step (E := E) due n k b s st (Some (Incoming hb)) (get_slot hb))
    as (bs' & -> & Hstep); [done|done| |done| | | | | |done|].
  - destruct Hst as [->|(? & ? & ->)]; done.
  - destruct Hst as [->|(? & ? & ->)]; done.
  - destruct Hst as [->|(? & ? & ->)]; done.
  - by intros ? [= <-].
  - intros ? _ _. eexists. by apply elem_of_singleton.
  - rewrite size_singleton. cbn. destruct Hst as [->|(? & ? & ->)]; cbn; lia.
  - cbn [mbind outcome_bind]. by eexists.
Qed.

(** ** Blocks that enter the graph *)

Record fresh_block (a : ActiveBlock) : Prop := {
  fb_thread : thread (ab_slot a) < tc;
  fb_slot : slot_index tc (ab_slot a) ≤ u64_max;
  fb_children : ab_children a = replicate (N.to_nat tc) ∅;
  fb_parents : length (ab_parents a) = N.to_nat tc;
  fb_fitness : 1 ≤ ab_fitness a ≤ max_fit;
  fb_final : ab_is_final a = false }.

Lemma fresh_block_ok s b a : fresh_block a → block_ok s b a.
Proof using.
  intros [H1 H2 H3 H4 H5 H6]. split; [done|done| |done|lia|].
  - by rewrite H3, length_replicate.
  - intros i c y p Hi Hy. rewrite H3 in Hi. apply lookup_replicate in Hi as [-> _].
    by rewrite lookup_empty in Hy.
Qed.

Lemma activated_inv b a sb bs' s :
  node_ok s → get_active s b = None → fresh_block a →
  transitioned b (Some (Active a sb)) (delete b (statuses s)) (blocks_state s) bs' →
  cs_inv {[b]} (set_blocks_state bs' s).
Proof using.
  intros [[[H1 H2 H3 H4 H5 H6] Hcl] _ _ _] Hb Ha Ht.
  pose proof (λ x, transitioned_active b _ bs' s x Ht) as Hact. cbn [active_status] in Hact.
  set (s' := set_blocks_state bs' s) in *.
  assert (∀ x, x ≠ b → get_active s' x = get_active s x) as Hother
    by (intros x Hx; by rewrite Hact, decide_False).
  assert (b ∉ dom (gi_head s)) as Hbd.
  { rewrite H4. intros [(a' & Ha' & _) _]. congruence. }
  split; [split; [by apply (tr_ok _ _ _ _ _ Ht)|by apply (tr_seq _ _ _ _ _ Ht)|done| | |done]|].
  - intros x. change (gi_head s') with (gi_head s). destruct (decide (x = b)) as [->|Hx].
    + split; [done|]. set_solver.
    + rewrite H4. unfold is_nonfinal. rewrite Hother by done. set_solver.
  - intros x ax Hx. destruct (decide (x = b)) as [->|Hne].
    + rewrite Hact, decide_True in Hx by done. injection Hx as <-. by apply fresh_block_ok.
    + rewrite Hother in Hx by done. destruct (H5 x ax Hx) as [P1 P2 P3 P4 P5 P6].
      split; [done..|]. intros i c y p Hi Hy. destruct (P6 i c y p Hi Hy) as (ay & Hay & ?).
      exists ay. split; [|done]. rewrite Hother; [done|]. intros ->. congruence.
  - apply (cliques_ok_weight s); [|done]. intros c Hc. apply set_sum_ext. intros x Hx.
    unfold fitness_of. rewrite Hother; [done|]. intros ->. apply Hbd.
    by apply (co_clique _ _ _ Hcl c Hc).
Qed.

(** The total fitness of active blocks, from the bound on each of them. *)
Lemma weight_bound s C :
  (∀ x a, get_active s x = Some a → ab_fitness a ≤ max_fit) → all_active s C →
  weight s C ≤ max_fit * N.of_nat (size (statuses s)).
Proof using.
  intros Hf Ha.
  assert (C ⊆ dom (statuses s)) as Hsub by (intros x Hx; by apply get_active_dom, Ha).
  apply subseteq_size in Hsub. rewrite size_dom in Hsub.
  assert (weight s C ≤ max_fit * N.of_nat (size C)) as Hw; [|nia].
  clear Hsub. unfold weight. induction C as [|x C Hx IH] using set_ind_L.
  { rewrite set_sum_empty. lia. }
  rewrite union_comm_L, set_sum_insert by done.
  rewrite size_union, size_singleton by set_solver.
  assert (fitness_of s x ≤ max_fit).
  { unfold fitness_of. destruct (get_active s x) as [a|] eqn:Hxa; cbn; [by eapply Hf|lia]. }
  specialize (IH ltac:(intros y Hy; apply Ha; set_solver)). lia.
Qed.

Lemma activated_insertable k b a sb inc bs' s :
  node_ok s → get_active s b = None → fresh_block a → inc ⊆ dom (gi_head s) →
  statuses s !! b ≠ None → max_fit * N.of_nat (size (statuses s)) ≤ u64_max →
  room (k + 2 * N.of_nat (size (statuses s)) + 2) s →
  transitioned b (Some (Active a sb)) (delete b (statuses s)) (blocks_state s) bs' →
  insertable b a inc k (set_blocks_state bs' s).
Proof using.
  intros Hok Hb Ha Hinc Hbs Hw Hr Ht.
  assert (is_Some (statuses s !! b)) as Hbs' by (by destruct (statuses s !! b); [|done]).
  pose proof (transitioned_size_le b _ bs' s Ht (λ _, Hbs')) as Hsz.
  pose proof (λ x, transitioned_active b _ bs' s x Ht) as Hact. cbn [active_status] in Hact.
  split; [by eapply activated_inv| |apply Ha|done| |].
  - by rewrite Hact, decide_True.
  - etrans; [apply weight_bound|cbn; nia].
    + intros x ax. rewrite Hact. case_decide; [intros [= <-]; apply Ha|apply Hok].
    + intros x Hx. rewrite Hact. case_decide; [by eauto|].
      assert (x ∈ dom (gi_head s)) as Hxd by set_solver.
      apply (ci_dom _ _ (proj1 (no_inv _ Hok))) in Hxd as [(ax & Hax & _) _]. eauto.
  - eapply (transitioned_room _ _ _ _ _ Ht (λ _, Hbs')). unfold room in *. cbn. lia.
Qed.

(** ** Dependents of a new active block *)

Definition satisfied b (st : BlockStatus) : BlockStatus :=
  match st with
  | WaitingForDependencies hb deps n => WaitingForDependencies hb (deps ∖ {[b]}) n
  | st => st
  end.

Lemma satisfied_twice b st : satisfied b (satisfied b st) = satisfied b st.
Proof using. destruct st; cbn; [done..| |done|done]. f_equal. set_solver. Qed.

Lemma satisfy_dependency_eq b re m x :
  satisfy_dependency b (re, m) x =
    (match m !! x with
     | Some (WaitingForDependencies hb deps _) =>
         if decide (b ∈ deps) then re ∪ {[(get_slot hb, x)]} else re
     | _ => re
     end, alter (satisfied b) x m).
Proof using.
  unfold satisfy_dependency. destruct (m !! x) as [st|] eqn:Hx.
  - assert (alter (satisfied b) x m = <[x := satisfied b st]> m) as ->.
    { apply map_eq. intros y. destruct (decide (x = y)) as [<-|Hne].
      - by rewrite lookup_alter_eq, lookup_insert_eq, Hx.
      - by rewrite lookup_alter_ne, lookup_insert_ne. }
    destruct st as [| |hb d n| |]; cbn; rewrite ?(insert_id m x) by done; try done.
    case_decide as Hd; [done|]. assert (d ∖ {[b]} = d) as -> by set_solver.
    by rewrite insert_id.
  - f_equal. apply map_eq. intros y. destruct (decide (x = y)) as [<-|Hne].
    + by rewrite lookup_alter_eq, Hx.
    + by rewrite lookup_alter_ne.
Qed.

Record dependents_updated b (l : list BlockId) (m : Statuses) (re : gset (Slot * BlockId))
    (m' : Statuses) : Prop := {
  du_map : ∀ x, m' !! x = (λ st, if decide (x ∈ l) then satisfied b st else st) <$> m !! x;
  du_re : ∀ x hb d n, x ∈ l → m !! x = Some (WaitingForDependencies hb d n) → b ∈ d →
    (get_slot hb, x) ∈ re;
  du_size : (size re ≤ length l)%nat }.

Lemma satisfy_loop b l m :
  let '(re, m') := foldl (satisfy_dependency b) (∅, m) l in dependents_updated b l m re m'.
Proof using.
  induction l as [|x l IH] using rev_ind.
  { split; [|set_solver|by rewrite size_empty]. intros x. by destruct (m !! x). }
  rewrite foldl_snoc. destruct (foldl _ _ l) as [re m1]. rewrite satisfy_dependency_eq.
  destruct IH as [Hm Hre Hsz]. split.
  - intros y. destruct (decide (y = x)) as [->|Hne].
    + rewrite lookup_alter_eq, Hm. destruct (m !! x) as [st|]; [|done]. cbn. f_equal.
      rewrite (decide_True (P := x ∈ l ++ [x])) by set_solver. case_decide; [|done].
      by rewrite satisfied_twice.
    + rewrite lookup_alter_ne, Hm by done. destruct (m !! y) as [st|]; [|done]. cbn. f_equal.
      repeat case_decide; try done; set_solver.
  - intros y hb d n Hy Hmy Hb.
    assert (∀ Z : gset (Slot * BlockId), (get_slot hb, y) ∈ re →
      (get_slot hb, y) ∈ re ∪ Z) as Hmono by set_solver.
    assert (y ∈ l → (get_slot hb, y) ∈ re) as Hold by (intros ?; by eapply Hre).
    rewrite Hm. destruct (decide (x ∈ l)) as [Hxl|Hxl].
    + assert (y ∈ l) as Hyl by set_solver. specialize (Hold Hyl).
      destruct (m !! x) as [[| |? dx ?| |]|]; cbn; try done. by case_decide; [apply Hmono|].
    + destruct (decide (y = x)) as [->|Hne].
      * rewrite Hmy. cbn. rewrite decide_True by done. set_solver.
      * assert (y ∈ l) as Hyl by set_solver. specialize (Hold Hyl).
        destruct (m !! x) as [[| |? dx ?| |]|]; cbn; try done. by case_decide; [apply Hmono|].
  - rewrite length_app. cbn. assert (∀ p : Slot * BlockId, size (re ∪ {[p]}) ≤ size re + 1)%nat as Hadd.
    { intros p. rewrite size_union_alt.
      assert (size ({[p]} ∖ re) ≤ size ({[p]} : gset (Slot * BlockId)))%nat as Hp
        by (apply subseteq_size; set_solver). rewrite size_singleton in Hp. lia. }
    destruct (m1 !! x) as [[| |hb d n| |]|]; try lia. case_decide; [|lia].
    specialize (Hadd (get_slot hb, x)). lia.
Qed.

(** A state where only the dependents of [b] are still to update. *)
Definition pending_but b s x (st : BlockStatus) : Prop :=
  match st with
  | Incoming hb | WaitingForSlot hb => hob_ok x hb
  | WaitingForDependencies hb deps _ =>
      hob_ok x hb ∧ ∀ y, y ∈ deps → y ≠ b → get_active s y = None
  | _ => True
  end.
Record graph_done b s : Prop := {
  gd_inv : cs_inv ∅ s;
  gd_fitness : ∀ x a, get_active s x = Some a → ab_fitness a ≤ max_fit;
  gd_pending : ∀ x st, pending_view (statuses s) x = Some st → pending_but b s x st;
  gd_storage : ∀ a sb, statuses s !! b = Some (Active a sb) → ∃ st, sb = SoBStorage st;
  gd_stored : stored_inv s }.

(** The effect of [after_added] on the rest of the state. *)
Record dependents_done b s (re : gset (Slot * BlockId)) s' : Prop := {
  dd_ok : node_ok s';
  dd_active : ∀ x, get_active s' x = get_active s x;
  dd_latest : latest_final_blocks_periods s' = latest_final_blocks_periods s;
  dd_size : size (statuses s') = size (statuses s);
  dd_room : ∀ k, room k s → room k s';
  dd_potential : ∀ n, potential n (statuses s') = potential n (statuses s);
  dd_re : (size re ≤ size (statuses s))%nat;
  dd_queued : ∀ due x, owed due s' x → (∃ slot, (slot, x) ∈ re) ∨ owed due s x }.

Lemma graph_done_inactive b s : graph_done b s → get_active s b = None → node_ok s.
Proof using.
  intros [Hi Hf Hp _ Hs] Hb. split; [done| |done|done]. intros x st Hx. specialize (Hp x st Hx).
  destruct st as [| |hb d n| |]; cbn in *; try done. destruct Hp as [? Hd]. split; [done|].
  intros y Hy. destruct (decide (y = b)) as [->|]; [done|]. by apply Hd.
Qed.

(** Updating the dependents changes no status. *)
Lemma satisfied_id b st : status_id (satisfied b st) = status_id st.
Proof using. by destruct st. Qed.

Section dependents.
Context b (l : list BlockId) (re : gset (Slot * BlockId)) (m : Statuses) s
  (Hdu : dependents_updated b l (statuses s) re m)
  (Hl : ∀ x, x ∈ l ↔ is_waiting (statuses s) x).
Local Notation s' := (set_blocks_state (set_statuses m (blocks_state s)) s).

Lemma dependents_map x : m !! x = satisfied b <$> statuses s !! x.
Proof using Hdu Hl.
  rewrite (du_map _ _ _ _ _ Hdu). destruct (statuses s !! x) as [st|] eqn:Hx; [|done]. cbn. f_equal.
  case_decide as Hin; [done|]. rewrite Hl in Hin. unfold is_waiting in Hin. rewrite Hx in Hin.
  by destruct st.
Qed.

Lemma dependents_same : same_statuses m (statuses s).
Proof using Hdu Hl.
  intros x. rewrite dependents_map. destruct (statuses s !! x); cbn; [|done].
  by rewrite satisfied_id.
Qed.

Lemma dependents_active x : get_active s' x = get_active s x.
Proof using Hdu Hl.
  unfold get_active, bs_get. cbn. rewrite dependents_map.
  by destruct (statuses s !! x) as [[]|].
Qed.

Lemma dependents_view x : pending_view m x = satisfied b <$> pending_view (statuses s) x.
Proof using Hdu Hl.
  unfold pending_view. rewrite dependents_map. destruct (statuses s !! x) as [[]|]; cbn; try done.
Qed.

Lemma dependents_inv : cs_inv ∅ s → cs_inv ∅ s'.
Proof using Hdu Hl.
  intros Hi. eapply (same_active_inv ∅ s); [apply dependents_active| | |done..|done].
  - eapply bs_ok_same; [apply Hi| |apply dependents_same]. intros k. by autorewrite with bs.
  - assert (∀ x, number_of (set_statuses m (blocks_state s)) x = number_of (blocks_state s) x) as Hn.
    { intros x. unfold number_of. cbn. rewrite dependents_map.
      by destruct (statuses s !! x) as [[]|]. }
    destruct (ci_seq _ _ (proj1 Hi)) as [Hle Hinj]. split.
    + intros x n. rewrite Hn. apply Hle.
    + intros x y n. rewrite !Hn. apply Hinj.
Qed.

Lemma dependents_spec :
  graph_done b s → (size re ≤ size (statuses s))%nat → dependents_done b s re s'.
Proof using Hdu Hl.
  intros [Hi Hf Hp _ Hs] Hre. pose proof dependents_active as Ha. pose proof dependents_view as Hv.
  split; [|done|done| | | |done|].
  - split; [by apply dependents_inv| | |].
    + intros x st. cbn. rewrite Hv. intros (st0 & Hst0 & ->)%fmap_Some. specialize (Hp x st0 Hst0).
      destruct st0 as [| |hb d n| |]; cbn in *; try done. destruct Hp as [? Hd]. split; [done|].
      intros y Hy. rewrite Ha. apply Hd; set_solver.
    + intros x a. rewrite Ha. apply Hf.
    + intros x a blk. cbn. rewrite dependents_map. intros (st & Hst & Hx)%fmap_Some.
      apply (Hs x a blk). rewrite Hst. destruct st; cbn in Hx; congruence.
  - rewrite <-!size_dom. f_equal. apply set_eq. intros x. rewrite !elem_of_dom. cbn.
    rewrite dependents_map. by rewrite fmap_is_Some.
  - intros k. unfold room. cbn.
    assert (size m = size (statuses s)) as ->; [|done].
    rewrite <-!size_dom. f_equal. apply set_eq. intros x. rewrite !elem_of_dom.
    rewrite dependents_map. by rewrite fmap_is_Some.
  - intros n. apply map_sum_ext. intros x. unfold value_at. cbn. rewrite dependents_map.
    by destruct (statuses s !! x) as [[]|].
  - intros due x (st & Hst & Hex). cbn in Hst. rewrite Hv in Hst. apply fmap_Some in Hst as (st0 & Hst0 & ->).
    destruct st0 as [hb|hb|hb d n| |]; cbn in Hex; try done.
    + right. by exists (Incoming hb).
    + right. by exists (WaitingForSlot hb).
    + destruct (decide (b ∈ d)) as [Hb|Hb].
      * left. unfold pending_view in Hst0. destruct (statuses s !! x) as [stx|] eqn:Hx; [|done].
        cbn in Hst0. case_decide; [|done]. injection Hst0 as Hst0.
        destruct stx as [| |hb' d' n'| |]; try done. cbn in Hst0. simplify_eq.
        exists (get_slot hb). eapply du_re; [done| |done|done].
        apply Hl. unfold is_waiting. by rewrite Hx.
      * right. eexists. split; [done|]. cbn. set_solver.
Qed.
End dependents.

Lemma after_added_spec b s :
  graph_done b s → dependents_done b s (after_added b s).1 (after_added b s).2.
Proof.
  intros Hgd. unfold after_added.
  assert (get_active s b = None → dependents_done b s ∅ s) as Hnone.
  { intros Hb. pose proof (graph_done_inactive b s Hgd Hb). split; try done; [rewrite size_empty; lia|].
    intros due x Hx. by right. }
  unfold get_active in Hnone. unfold bs_get in *.
  destruct (statuses s !! b) as [[| | |a sb|]|] eqn:Hb; try (by apply Hnone).
  destruct (gd_storage _ _ Hgd a sb Hb) as [st ->].
  set (s1 := set_to_propagate _ s).
  pose proof (satisfy_loop b (set_iter (waiting_for_dependencies_index (blocks_state s))) (statuses s))
    as Hloop.
  change (blocks_state s1) with (blocks_state s).
  destruct (foldl _ _ _) as [re m]. cbn [fst snd].
  assert (graph_done b s1) as Hgd1.
  { destruct Hgd as [Hi Hf Hp Hst Hs]. split; [|done..].
    by eapply (same_active_inv ∅ s); [done|apply Hi|apply Hi|..]. }
  assert (∀ x, x ∈ set_iter (waiting_for_dependencies_index (blocks_state s)) ↔
    is_waiting (statuses s) x) as Hl.
  { intros x. rewrite elem_of_set_iter. apply (ci_bs _ _ (proj1 (gd_inv _ _ Hgd)) SWaitingForDependencies). }
  destruct (dependents_spec b _ re m s1 Hloop Hl Hgd1) as [H1 H2 H3 H4 H5 H6 H7 H8].
  - etrans; [apply (du_size _ _ _ _ _ Hloop)|]. rewrite length_set_iter, <-size_dom.
    apply subseteq_size. intros x Hx%elem_of_set_iter%Hl. apply elem_of_dom.
    change (is_Some (statuses s !! x)). unfold is_waiting in Hx.
    destruct (statuses s !! x); [by eexists|done].
  - by split.
Qed.

(** ** Incoming blocks *)

Lemma check_incoming_block_spec {E} b h c s :
  node_ok s → header_ok h → current_ok c →
  ∃ o s1, check_incoming_block b h c s = @Ok E _ (o, s1) ∧ same_core s s1 ∧ proceeds s h c o.
Proof.
  intros Hok Hh Hc. unfold check_incoming_block.
  destruct (@check_header_spec _ _ E s h c) as (o & -> & Ho); [apply Hok|done|done|].
  cbn [mbind outcome_bind]. pose proof (note_verifiable_header_core h s) as Hcore.
  destruct o as [parents inc cnt fit|reason| |missing].
  - destruct (note_verifiable_header h s) as [[] s1]; by eexists _, s1.
  - eexists _, _. split; [done|]. split; [|done].
    eapply same_core_trans; [apply (maybe_note_core reason b)|by split].
  - by eexists _, s.
  - destruct (note_verifiable_header h s) as [[] s1]; by eexists _, s1.
Qed.

(** The closure of [process_incoming_block]. *)
Lemma process_incoming_block_eq {E} b slot st c s blk o s1 :
  statuses s !! b = Some (Incoming (HoBBlock b slot st)) →
  BlockIndex.get read_blocks b = Some blk →
  check_incoming_block (E := E) b (header (content blk)) c s = Ok (o, s1) → same_core s s1 →
  let '(status, infos, stale) :=
    incoming_block_status b (header (content blk)) slot st o s1 in
  ∃ f : callback E (option BlockInfos * gmap BlockId (Address * Slot)),
    f (Some (Incoming (HoBBlock b slot st))) (delete b (statuses s))
      = Ok (Some status, delete b (statuses s), (infos, stale))
    ∧ process_incoming_block b c s =
        ('(bs, (block_infos, stale)) ← transition_map (blocks_state s1) b f;
         Ok (block_infos, set_new_stale_blocks stale (set_blocks_state bs s1))).
Proof.
  intros Hb Hblk Ho Hcore. destruct (incoming_block_status _ _ _ _ _ _) as [[status infos] stale] eqn:Hst.
  unfold process_incoming_block, bs_get. rewrite Hb, Hblk. cbn [expect mbind outcome_bind].
  rewrite Ho. cbn [mbind outcome_bind]. eexists. split; [|done]. cbn.
  by rewrite Hst.
Qed.

Lemma process_incoming_parked {E} due n k b slot st c s blk o s1 :
  due_by due c → node_ok s → statuses s !! b = Some (Incoming (HoBBlock b slot st)) → stored_ok b slot blk →
  check_incoming_block (E := E) b (header (content blk)) c s = Ok (o, s1) → same_core s s1 →
  proceeds s (header (content blk)) c o → (∀ p i cnt f, o ≠ Proceed p i cnt f) →
  room (k + N.of_nat (size (statuses s)) + 2) s →
  ∃ s', process_incoming_block b c s = @Ok E _ (None, s') ∧ step_ok due n k b s ∅ s'.
Proof.
  intros Hdue Hok Hb Hblk Ho Hcore Hpr Hno Hr. pose proof Hcore as [Hbs _ _ _ _].
  pose proof (process_incoming_block_eq b slot st c s blk o s1 Hb (proj1 Hblk) Ho Hcore) as Heq.
  assert (hob_ok b (HoBBlock b slot st)) as Hhob by (split; [done|by exists blk]).
  assert (∀ status infos stale, incoming_block_status b (header (content blk)) slot st o s1
    = (status, infos, stale) → infos = None ∧ parked due s1 b status) as Hpark.
  { intros status infos stale. destruct o as [|reason| |missing]; cbn [incoming_block_status].
    - by edestruct Hno.
    - intros [= <- <- _]. unfold parked. cbn. tauto.
    - intros [= <- <- _]. split; [done|]. split; [exact Hhob|]. split; [|done].
      destruct Hblk as (_ & _ & _ & <-). by apply (not_due due c).
    - intros [= <- <- _]. destruct Hpr as [Hne Hmiss]. split; [done|]. split; [|by split].
      split; [exact Hhob|]. intros y Hy. rewrite (same_core_active s s1 y Hcore). by apply Hmiss. }
  destruct (incoming_block_status _ _ _ _ _ _) as [[status infos] stale].
  destruct (Hpark _ _ _ eq_refl) as [-> Hparked]. destruct Heq as (f & Hf & ->).
  destruct (parked_step due n k b s1 (HoBBlock b slot st) (Some status) (None, stale) f)
    as (bs' & -> & Hstep).
  - by eapply same_core_ok.
  - by rewrite Hbs.
  - by intros ? [= <-].
  - by rewrite Hbs.
  - rewrite Hbs. by eapply same_core_room.
  - cbn [mbind outcome_bind]. eexists. split; [done|]. eapply (same_core_step _ _ _ _ _ s1); [done|].
    destruct Hstep as [P1 P2 P3 P4 P5 P6]. split; [|by split; apply P2|done..].
    by eapply same_core_ok; [|exact P1].
Qed.

(** The clock: the slot of the caller starts at a representable time. *)
Definition clock_current (c : option Slot) : Prop :=
  clock_ok tc (t0 config) (genesis_timestamp config)
  ∧ ∀ c', c = Some c' → thread c' < tc
      ∧ slot_start tc (t0 config) (genesis_timestamp config) c' ≤ u64_max.

Lemma clock_current_ok c : clock_current c → current_ok c.
Proof using.
  intros [Hck Hc] c' Hc'. destruct (Hc c' Hc') as [Ht Hs]. split; [done|].
  destruct (clock_inter _ _ _ Hck) as [Hi _]. unfold slot_start in Hs. nia.
Qed.

Lemma reached_timestamp s h c :
  clock_current c → header_ok h → slot_checked s h c →
  ∃ ts, get_block_slot_timestamp tc (t0 config) (genesis_timestamp config) (header_slot h) = Ok ts.
Proof using.
  intros [Hck Hc] Hh Hs. destruct (sc_reached _ _ _ Hs) as (c' & Hc' & Hle).
  destruct (Hc c' Hc') as [Ht Hst]. eexists. apply get_block_slot_timestamp_eq; [done|].
  etrans; [|exact Hst]. unfold slot_start.
  assert (slot_index tc (header_slot h) ≤ slot_index tc c'); [|nia].
  pose proof (ho_thread _ Hh). apply slot_le_iff in Hle. unfold slot_index.
  destruct Hle as [Hlt|[-> Hle]]; nia.
Qed.

(** The block a passed header check makes active. *)
Lemma proceeds_fresh s b slot blk c parents inc cnt fit :
  node_ok s → clock_current c → stored_ok b slot blk →
  proceeds s (header (content blk)) c (Proceed parents inc cnt fit) →
  fresh_block (new_active_block b (header (content blk)) slot parents fit)
  ∧ inc ⊆ dom (gi_head s)
  ∧ ∃ ts, get_block_slot_timestamp tc (t0 config) (genesis_timestamp config) slot = Ok ts.
Proof using.
  intros Hok Hc (Hget & Hh & Hmax & Hslot) (inherited & ancestors & earliest & Hpr).
  pose proof (pr_slot _ _ _ _ _ _ _ _ _ _ Hpr) as Hsl. rewrite <-Hslot. split_and!.
  - split; cbn; [apply Hh|by eapply checked_slot_index; [|apply clock_current_ok|]|done
      |apply (pr_parents _ _ _ _ _ _ _ _ _ _ Hpr)| |done].
    rewrite (pr_fitness _ _ _ _ _ _ _ _ _ _ Hpr). split; [|done].
    apply get_fitness_pos, Hh.
  - intros v Hv. apply (ci_dom _ _ (proj1 (no_inv _ Hok))).
    split; [by apply (pr_nonfinal _ _ _ _ _ _ _ _ _ _ Hpr)|set_solver].
  - by eapply reached_timestamp.
Qed.

Lemma same_core_insertable s s' b a inc k :
  same_core s s' → insertable b a inc k s → insertable b a inc k s'.
Proof using.
  intros Hc [I1 I2 I3 I4 I5 I6]. pose proof (λ x, same_core_active s s' x Hc) as Ha.
  pose proof Hc as [Hb Hg Hm Hl _]. split; [|by rewrite Ha|done|by rewrite Hg| |].
  - eapply (same_active_inv {[b]} s); rewrite ?Hb; [done|apply I1|apply I1|done..].
  - rewrite Hg. etrans; [|exact I5]. apply N.eq_le_incl, set_sum_ext. intros x _.
    unfold fitness_of. by rewrite Ha.
  - rewrite Hb. by eapply same_core_room.
Qed.

(** The state right after the block is made active. *)
Lemma process_incoming_active {E} k b slot st c s blk s1 parents inc cnt fit :
  node_ok s → clock_current c →
  statuses s !! b = Some (Incoming (HoBBlock b slot st)) → stored_ok b slot blk →
  check_incoming_block (E := E) b (header (content blk)) c s
    = Ok (Proceed parents inc cnt fit, s1) → same_core s s1 →
  proceeds s (header (content blk)) c (Proceed parents inc cnt fit) →
  max_fit * N.of_nat (size (statuses s)) ≤ u64_max →
  room (k + 2 * N.of_nat (size (statuses s)) + 2) s →
  ∃ bs', let a := new_active_block b (header (content blk)) slot parents fit in
    let s2 := set_new_stale_blocks (new_stale_blocks s1) (set_blocks_state bs' s1) in
    process_incoming_block b c s = @Ok E _ (Some (parents, slot, inc, cnt), s2)
    ∧ transitioned b (Some (Active a (SoBStorage st))) (delete b (statuses s)) (blocks_state s) bs'
    ∧ fresh_block a ∧ insertable b a inc k s2
    ∧ ∃ ts, get_block_slot_timestamp tc (t0 config) (genesis_timestamp config) slot = Ok ts.
Proof.
  intros Hok Hc Hb Hblk Ho Hcore Hpr Hw Hr. pose proof Hcore as [Hbs Hgi _ _ _].
  pose proof (process_incoming_block_eq b slot st c s blk _ s1 Hb (proj1 Hblk) Ho Hcore) as Heq.
  cbn [incoming_block_status] in Heq. destruct Heq as (f & Hf & ->).
  destruct (proceeds_fresh s b slot blk c parents inc cnt fit Hok Hc Hblk Hpr) as (Hfresh & Hinc & Hts).
  edestruct (transition_map_spec (blocks_state s1) b f) as (bs' & -> & Ht).
  - rewrite Hbs, Hb. exact Hf.
  - rewrite Hbs. apply active_edit_refl.
  - by rewrite Hbs, Hb.
  - rewrite Hbs. unfold room in Hr. lia.
  - cbn [mbind outcome_bind]. rewrite Hbs in Ht. exists bs'. split_and!; [done|done|done| |done].
    pose proof (same_core_ok _ _ Hcore Hok) as Hok1.
    eapply same_core_insertable;
      [|eapply (activated_insertable k b _ (SoBStorage st) inc bs' s1 Hok1)];
      rewrite ?Hbs, ?Hgi; try done.
    + unfold get_active, bs_get. by rewrite Hbs, Hb.
    + by rewrite Hb.
    + by eapply same_core_room.
Qed.

Section insertion_step.
Context (due : option Slot) (n : nat) (k : N) b a st hb s s2 s3
  (Hok : node_ok s) (Hb : statuses s !! b = Some (Incoming hb))
  (Ht : transitioned b (Some (Active a (SoBStorage st))) (delete b (statuses s)) (blocks_state s)
          (blocks_state s2))
  (Hl : latest_final_blocks_periods s2 = latest_final_blocks_periods s)
  (Hnf : new_final_blocks s2 ⊆ new_final_blocks s)
  (Hfresh : fresh_block a) (Hn : (size (statuses s) ≤ n)%nat)
  (Hinv : cs_inv ∅ s3) (Hev : evolves s2 s3) (Hr : room k s3).

Lemma activated_get x : get_active s2 x = if decide (x = b) then Some a else get_active s x.
Proof using Ht. exact (transitioned_active b _ (blocks_state s2) s x Ht). Qed.

Lemma inserted_get x a3 :
  get_active s3 x = Some a3 →
  ∃ a2, get_active s2 x = Some a2 ∧ ab_fitness a3 = ab_fitness a2.
Proof using Hev.
  intros [sb Hsb]%get_active_Some. destruct (ev_active _ _ Hev x a3 sb Hsb) as (a2 & Ha2 & ?).
  exists a2. split; [apply get_active_Some; eauto|done].
Qed.

Lemma inserted_view x :
  pending_view (statuses s3) x = if decide (x = b) then None else pending_view (statuses s) x.
Proof using Hev Ht.
  rewrite (ev_pending _ _ Hev). case_decide as Hx.
  - subst x. destruct (pending_view (statuses s2) b) as [v|] eqn:Hv; [|done].
    destruct (transitioned_view_self b _ _ _ _ v Ht Hv) as (st0 & [= <-] & ->).
    unfold pending_view in Hv. destruct (tr_new _ _ _ _ _ Ht) as [m Hm]. rewrite Hm in Hv. done.
  - by apply (transitioned_view b (Some (Active a (SoBStorage st))) (blocks_state s2) s x).
Qed.

Lemma inserted_stored : stored_inv s3.
Proof using Hok Ht Hev Hnf.
  intros x a3 blk Hx. destruct (ev_active _ _ Hev x a3 _ Hx) as (a2 & Ha2 & _).
  assert (x ≠ b) as Hne.
  { intros ->. destruct (tr_new _ _ _ _ _ Ht) as [m Hm]. by rewrite Hm in Ha2. }
  pose proof (transitioned_active_status b _ _ s x a2 _ Ht Hne Ha2) as Ha.
  destruct (no_stored _ Hok x a2 blk Ha) as [Hf Hnew].
  assert (get_active s2 x = Some a2) as Hg2 by (apply get_active_Some; eauto).
  destruct (fk_final _ _ (ev_finality _ _ Hev) x a2 Hg2 Hf) as (a3' & Hg3 & Hf3).
  assert (get_active s3 x = Some a3) as Hg3' by (apply get_active_Some; eauto).
  split; [congruence|]. intros [Hin|(a2' & Hg2' & ?)]%(ev_new_final _ _ Hev); [by apply Hnew, Hnf|congruence].
Qed.

Lemma inserted_done : graph_done b s3.
Proof using Hok Hb Ht Hfresh Hinv Hev Hnf.
  split; [done| | | |apply inserted_stored].
  - intros x a3 Hx. destruct (inserted_get x a3 Hx) as (a2 & Ha2 & ->). rewrite activated_get in Ha2.
    case_decide; [injection Ha2 as <-; apply Hfresh|by eapply (no_fitness _ Hok)].
  - intros x v. rewrite inserted_view. case_decide as Hx; [done|]. intros Hv.
    pose proof (no_pending _ Hok x v Hv) as Hp. destruct v as [| |hb' d m| |]; cbn in *; try done.
    destruct Hp as [? Hd]. split; [done|]. intros y Hy Hyb.
    destruct (get_active s3 y) as [a3|] eqn:Ha3; [|done].
    destruct (inserted_get y a3 Ha3) as (a2 & Ha2 & _). rewrite activated_get, decide_False in Ha2 by done.
    by rewrite Hd in Ha2.
  - intros a3 sb Hsb. destruct (ev_active _ _ Hev b a3 sb Hsb) as (a2 & Ha2 & _).
    destruct (tr_new _ _ _ _ _ Ht) as [m Hm]. rewrite Hm in Ha2. injection Ha2 as _ <-. by exists st.
Qed.

Lemma insertion_step : step_ok due n k b s (after_added b s3).1 (after_added b s3).2.
Proof using Hok Hb Ht Hl Hnf Hfresh Hn Hinv Hev Hr.
  destruct (after_added_spec b s3 inserted_done) as [D1 D2 D3 D4 D5 D6 D7 D8].
  assert (is_Some (statuses s !! b)) as Hbs by (by rewrite Hb).
  pose proof (transitioned_size_le b _ _ s Ht (λ _, Hbs)) as Hsz. pose proof (ev_size _ _ Hev) as Hsz3.
  split; [done| |lia|by apply D5| |].
  - eapply finality_kept_trans; [|by apply same_active_finality].
    eapply finality_kept_trans; [|apply Hev]. split.
    + intros x ax Hx Hf. exists ax. split; [|done]. rewrite activated_get, decide_False; [done|].
      intros ->. unfold get_active, bs_get in Hx. by rewrite Hb in Hx.
    + intros i p Hp. rewrite Hl. exists p. split; [done|lia].
  - rewrite D6. assert (potential n (statuses s3) = potential n (statuses s2)) as ->.
    { apply map_sum_ext. intros x. apply value_at_rank, Hev. }
    pose proof (transitioned_potential n b _ _ s Ht) as Hp. unfold value_at in Hp.
    rewrite Hb in Hp. cbn in Hp. lia.
  - intros x [Hx|(v & Hv & Hex)]%D8; [by left|]. right. rewrite inserted_view in Hv.
    case_decide; [done|]. split; [done|]. by exists v.
Qed.
End insertion_step.

(** ** One item *)

Lemma not_owed due s x st :
  statuses s !! x = Some st → ¬ to_examine due st → ¬ owed due s x.
Proof using.
  intros Hx Hn (v & Hv & Hex). unfold pending_view in Hv. rewrite Hx in Hv. cbn in Hv.
  case_decide; [|done]. injection Hv as <-. by destruct st.
Qed.

Lemma process_incoming_block_step {E} due n k b slot st c s :
  due_by due c → node_ok s → clock_current c →
  statuses s !! b = Some (Incoming (HoBBlock b slot st)) → (size (statuses s) ≤ n)%nat →
  max_fit * N.of_nat (size (statuses s)) ≤ u64_max →
  room (k + 2 * N.of_nat (size (statuses s)) + 2) s →
  ∃ re s', process b c s = @Ok E _ (re, s') ∧ step_ok due n k b s re s'.
Proof.
  intros Hdue Hok Hc Hb Hn Hw Hr. unfold process, bs_get. rewrite Hb.
  destruct (pending_hob s b _ (HoBBlock b slot st) Hok Hb ltac:(by left)) as (_ & blk & Hblk).
  destruct (@check_incoming_block_spec E b (header (content blk)) c s) as (o & s1 & Ho & Hcore & Hpr);
    [done|apply Hblk|by apply clock_current_ok|].
  assert ((∃ p i cnt f, o = Proceed p i cnt f) ∨ ∀ p i cnt f, o ≠ Proceed p i cnt f)
    as [(parents & inc & cnt & fit & ->)|Hno] by (destruct o; naive_solver).
  - destruct (process_incoming_active k b slot st c s blk s1 parents inc cnt fit Hok Hc Hb Hblk Ho
      Hcore Hpr Hw Hr) as (bs' & -> & Ht & Hfresh & Hins & ts & Hts).
    cbn [mbind outcome_bind].
    destruct (add_block_to_graph_spec b _ inc cnt k _ ts Hins Hts) as (s3 & Hadd & Hinv & Hev & Hr3).
    cbn [new_active_block ab_parents ab_slot] in Hadd. rewrite Hadd. cbn [expect_ok mbind outcome_bind].
    eexists _, _. split; [by rewrite <-surjective_pairing|].
    eapply (insertion_step due n k b _ _ _ s (set_new_stale_blocks (new_stale_blocks s1) (set_blocks_state bs' s1))); [done|done|exact Ht| | |done|done|done|done|done]; apply Hcore.
  - destruct (process_incoming_parked due n k b slot st c s blk o s1 Hdue Hok Hb Hblk Ho Hcore Hpr Hno)
      as (s' & -> & Hstep); [unfold room in *; lia|].
    by exists ∅, s'.
Qed.

Lemma process_spec {E} due n k b c s :
  due_by due c → node_ok s → clock_current c → (size (statuses s) ≤ n)%nat →
  max_fit * N.of_nat n ≤ u64_max → room (k + 2 * N.of_nat n + 2) s →
  ∃ re s', process b c s = @Ok E _ (re, s') ∧ step_ok due n k b s re s'.
Proof.
  intros Hdue Hok Hc Hn Hw Hr.
  assert (room k s) as Hrk by (unfold room in *; lia).
  assert (room (k + N.of_nat (size (statuses s)) + 2) s) as Hr1 by (unfold room in *; lia).
  destruct (statuses s !! b) as [st|] eqn:Hb.
  2:{ unfold process, bs_get. rewrite Hb. eexists _, _. split; [done|]. apply step_idle; [done|done|].
      intros (v & Hv & _). unfold pending_view in Hv. by rewrite Hb in Hv. }
  assert (¬ to_examine due st → step_ok due n k b s ∅ s) as Hidle.
  { intros Hex. apply step_idle; [done|done|]. by eapply not_owed. }
  destruct st as [[h|b' slot st]|hb|hb d m|a sb|sl cr ps r m].
  - unfold process, bs_get. rewrite Hb.
    destruct (@process_incoming_header_spec E due n k b h c s) as (s' & -> & Hstep);
      [done|done|by apply clock_current_ok|done|done|]. by eexists _, _.
  - destruct (pending_hob s b _ (HoBBlock b' slot st) Hok Hb ltac:(by left)) as (-> & _).
    eapply process_incoming_block_step; [done|done|done|exact Hb|done|nia|unfold room in *; lia].
  - unfold process, bs_get. rewrite Hb. destruct (opt_slot_lt c (Some (get_slot hb))) eqn:Hlt.
    + eexists _, _. split; [done|]. apply Hidle. intros [Hge _]. by rewrite (Hdue _ Hlt) in Hge.
    + destruct (@back_to_incoming_spec E due n k b s _ hb Hok Hb) as (s' & -> & Hstep);
        [left; done|done|]. by eexists _, _.
  - unfold process, bs_get. rewrite Hb. case_decide as Hd.
    + eexists _, _. split; [done|]. apply Hidle. cbn. tauto.
    + destruct (@back_to_incoming_spec E due n k b s _ hb Hok Hb) as (s' & -> & Hstep);
        [right; eauto|done|]. by eexists _, _.
  - unfold process, bs_get. rewrite Hb. eexists _, _. split; [done|]. apply Hidle. cbn. tauto.
  - unfold process, bs_get. rewrite Hb. eexists _, _. split; [done|]. apply Hidle. cbn. tauto.
Qed.

(** ** The loop *)

Lemma pop_first_spec to_ack :
  match pop_first to_ack with
  | None => to_ack = ∅
  | Some (x, rest) => x ∈ to_ack ∧ rest = to_ack ∖ {[x]}
  end.
Proof using.
  unfold pop_first. destruct (sort_unstable (elements to_ack)) as [|x l] eqn:Hs.
  - apply leibniz_equiv, elements_empty_inv, Permutation_nil_r. rewrite <-Hs.
    symmetry. apply sort_unstable_perm.
  - split; [|done]. apply elem_of_elements, elem_of_sort_unstable. rewrite Hs. by left.
Qed.

(** What a run of the loop guarantees. *)
Record run_ok (due : option Slot) (k : N) s s' : Prop := {
  rn_ok : node_ok s';
  rn_final : finality_kept s s';
  rn_size : (size (statuses s') ≤ size (statuses s))%nat;
  rn_room : room k s';
  rn_done : ∀ x, ¬ owed due s' x }.

Lemma rec_process_loop_spec {E} due n k c fuel : due_by due c → ∀ to_ack s,
  node_ok s → clock_current c → (size (statuses s) ≤ n)%nat → max_fit * N.of_nat n ≤ u64_max →
  room (k + N.of_nat fuel * (2 * N.of_nat n + 2)) s →
  (2 * size to_ack + potential n (statuses s) < fuel)%nat →
  (∀ x, owed due s x → ∃ slot, (slot, x) ∈ to_ack) →
  ∃ s', rec_process_loop fuel to_ack c s = @Ok E _ s' ∧ run_ok due k s s'.
Proof.
  intros Hdue. induction fuel as [|fuel IH]; intros to_ack s Hok Hc Hn Hw Hr Hm Hq; [lia|]. cbn [rec_process_loop].
  pose proof (pop_first_spec to_ack) as Hpop.
  destruct (pop_first to_ack) as [[[slot b] rest]|].
  - destruct Hpop as [Hin ->].
    destruct (@process_spec E due n (k + N.of_nat fuel * (2 * N.of_nat n + 2)) b c s Hdue Hok Hc Hn Hw)
      as (re & s1 & -> & [S1 S2 S3 S4 S5 S6]); [unfold room in *; lia|].
    cbn [mbind outcome_bind].
    assert (size (to_ack ∖ {[(slot, b)]} ∪ re) ≤ size to_ack - 1 + size re)%nat as Hsz.
    { rewrite size_union_alt, size_difference by set_solver. rewrite size_singleton.
      apply Nat.add_le_mono_l, subseteq_size. set_solver. }
    assert (size to_ack ≠ 0)%nat by (apply size_non_empty_iff; set_solver).
    destruct (IH (to_ack ∖ {[(slot, b)]} ∪ re) s1) as (s' & -> & [R1 R2 R3 R4 R5]);
      [done|done|lia|done|done|lia| |].
    + intros x Hx. destruct (S6 x Hx) as [[sl ?]|[Hne Hx']]; [exists sl; set_solver|].
      destruct (Hq x Hx') as [sl ?]. exists sl. set_solver.
    + exists s'. split; [done|]. split; [done|by eapply finality_kept_trans|lia|done|done].
  - subst to_ack. exists s. split; [done|]. split; [done|apply finality_kept_refl|done| |].
    + unfold room in *. lia.
    + intros x Hx. destruct (Hq x Hx) as [sl ?]. set_solver.
Qed.

Lemma potential_bound n m : (potential n m ≤ pending_blocks m * (2 * n + 2))%nat.
Proof using.
  unfold potential, pending_blocks. induction m as [|x st m Hx IH] using map_ind.
  - unfold map_sum. by rewrite map_fold_empty.
  - rewrite map_sum_insert by done. rewrite map_filter_insert.
    case_decide as Hp.
    + rewrite map_size_insert_None by (rewrite map_lookup_filter, Hx; done).
      assert (rank n st ≤ 2 * n + 2)%nat by (destruct st; cbn; lia). lia.
    + rewrite map_filter_delete, delete_id by (rewrite map_lookup_filter, Hx; done).
      assert (rank n st = 0)%nat by (destruct st; cbn in *; tauto). lia.
Qed.

(** The number of sequence numbers a run may take. *)
Definition run_room (to_ack : gset (Slot * BlockId)) s : N :=
  N.of_nat (rec_process_fuel to_ack (statuses s)) * (2 * N.of_nat (size (statuses s)) + 2).

Lemma rec_process_spec {E} due k to_ack c s :
  due_by due c → node_ok s → clock_current c → max_fit * N.of_nat (size (statuses s)) ≤ u64_max →
  room (k + run_room to_ack s) s →
  (∀ x, owed due s x → ∃ slot, (slot, x) ∈ to_ack) →
  ∃ s', rec_process to_ack c s = @Ok E _ s' ∧ run_ok due k s s'.
Proof.
  intros Hdue Hok Hc Hw Hr Hq. unfold rec_process.
  apply (rec_process_loop_spec due (size (statuses s))); [done..|by unfold run_room in Hr| |done].
  pose proof (potential_bound (size (statuses s)) (statuses s)). unfold rec_process_fuel. lia.
Qed.
End processing.
