(* ===== verification/Prune.v ===== *)
(** * Pruning

    [massa-consensus-worker/src/state/prune.rs]: the removal of old active blocks
    and the limits on waiting and discarded blocks. *)

From S2P Require Import Prelude Slots Models Storage Blocks BlocksState ConsensusState Graph.

Open Scope N_scope.

Section prune.
Context `{!SetIter BlockId, Env : ConsensusEnv}.
Implicit Types (s : ConsensusState).

(** ** Active blocks *)

(** Extra history: keep the blocks of the last periods, without their operations
    past a shorter horizon. *)
Definition retain_block {E} (acc : gset BlockId * ConsensusState) (b : BlockId)
    : outcome E (gset BlockId * ConsensusState) :=
  let '(retain_active, s) := acc in
  match bs_get (blocks_state s) b with
  | Some (Active a sb) =>
      latest ← idx (latest_final_blocks_periods s) (thread (ab_slot a));
      if saturating_sub latest.2 (force_keep_final_periods_without_ops config)
           <=? period (ab_slot a)
      then
        let retain_active := retain_active ∪ {[b]} in
        if (period (ab_slot a) <? saturating_sub latest.2 (force_keep_final_periods config))
           && bool_decide (b ∉ active_index_without_ops s)
        then
          sb ← strip_to_block read_blocks sb b;
          let m := <[b := Active (ab_set_descendants ∅ a) sb]>
                     (block_statuses (blocks_state s)) in
          let s := set_blocks_state (set_statuses m (blocks_state s)) s in
          Ok (retain_active,
              set_active_index_without_ops (active_index_without_ops s ∪ {[b]}) s)
        else Ok (retain_active, s)
      else Ok (retain_active,
               set_active_index_without_ops (active_index_without_ops s ∖ {[b]}) s)
  | _ => Ok acc
  end.

(** Discard one final block, and its link from its parents. *)
Definition discard_active {E} (acc : gmap BlockId ActiveBlock * ConsensusState)
    (discard_active_h : BlockId) : outcome E (gmap BlockId ActiveBlock * ConsensusState) :=
  let '(discarded_finals, s) := acc in
  let sequence_number := sequence_counter (blocks_state s) in
  '(bs, discarded) ← transition_map (blocks_state s) discard_active_h (λ block_status m,
      match block_status with
      | Some (Active a _) =>
          m ← foldM (edit_children (remove_child discard_active_h (ab_slot a)))
                (ab_parents a).*1 m;
          Ok (Some (Discarded (ab_slot a) (ab_creator_address a) (ab_parents a).*1 Final
                      sequence_number), m, a)
      | _ => Panic "inconsistency inside block statuses pruning final active blocks"
      end);
  Ok (<[discard_active_h := discarded]> discarded_finals, set_blocks_state bs s).

Definition prune_active s
    : outcome (ConsensusError * ConsensusState) (gmap BlockId ActiveBlock * ConsensusState) :=
  retain_active ← map_err (λ e, (e, s)) (list_required_active_blocks s None);
  '(retain_active, s) ← foldM retain_block (set_iter (active_index (blocks_state s)))
                          (retain_active, s);
  foldM discard_active (set_iter (active_index (blocks_state s) ∖ retain_active)) (∅, s).

(** ** Blocks waiting for their slot *)

(** [transition_map(block_id, |_, _| None)] *)
Definition forget_block {E} s (b : BlockId) : outcome E ConsensusState :=
  '(bs, _) ← transition_map (blocks_state s) b (λ _ m, Ok (None, m, tt));
  Ok (set_blocks_state bs s).

Definition slot_waiting_entries s : list (Slot * BlockId) :=
  omap (λ b, match bs_get (blocks_state s) b with
             | Some (WaitingForSlot hb) => Some (get_slot hb, b)
             | _ => None
             end) (set_iter (waiting_for_slot_index (blocks_state s))).

Definition prune_slot_waiting {E} s : outcome E ConsensusState :=
  if N.of_nat (size (waiting_for_slot_index (blocks_state s)))
       <=? max_future_processing_blocks config
  then Ok s
  else
    let slot_waiting := sort_unstable (slot_waiting_entries s) in
    foldM forget_block (drop (N.to_nat (max_future_processing_blocks config)) slot_waiting).*2 s.

(** ** Discarded blocks *)

Definition discarded_entries s : list (N * BlockId) :=
  omap (λ b, match bs_get (blocks_state s) b with
             | Some (Discarded _ _ _ _ n) => Some (n, b)
             | _ => None
             end) (set_iter (discarded_index (blocks_state s))).

Definition prune_discarded {E} s : outcome E ConsensusState :=
  let len := N.of_nat (size (discarded_index (blocks_state s))) in
  if len <=? max_discarded_blocks config then Ok s
  else
    let discard_hashes := sort_unstable (discarded_entries s) in
    foldM forget_block (take (N.to_nat (len - max_discarded_blocks config)) discard_hashes).*2 s.

(** ** Blocks waiting for dependencies *)

(** Whether a dependency is discarded, and the reason to inherit: the first
    invalid one, else stale.  [found] says of a dependency whether it is
    discarded and why. *)
Fixpoint inherited_reason (found : BlockId → option (option DiscardReason))
    (deps : list BlockId) (acc : bool * option DiscardReason) : bool * option DiscardReason :=
  match deps with
  | [] => acc
  | dep :: deps =>
      match found dep with
      | None => inherited_reason found deps acc
      | Some (Some (Invalid r)) =>
          (true, Some (Invalid ("discarded because depend on block that has discard reason:"
                                  +:+ r)))
      | Some (Some Stale) | Some (Some Final) =>
          inherited_reason found deps (true, Some Stale)
      | Some None => inherited_reason found deps (true, acc.2)
      end
  end.

Definition discarded_reason s (b : BlockId) : option (option DiscardReason) :=
  match bs_get (blocks_state s) b with
  | Some (Discarded _ _ _ reason _) => Some (Some reason)
  | _ => None
  end.

(** The blocks to discard, with a reason or to be forgotten, and those to keep. *)
Definition prune_acc : Type := gmap BlockId (option DiscardReason) * gmap BlockId (N * Slot).

Definition classify_waiting {E} s (acc : prune_acc) (b : BlockId) : outcome E prune_acc :=
  let '(to_discard, to_keep) := acc in
  match bs_get (blocks_state s) b with
  | Some (WaitingForDependencies hb deps n) =>
      let '(found, reason) := inherited_reason (discarded_reason s) (set_iter deps)
                                (false, None) in
      if (found : bool) then Ok (<[b := reason]> to_discard, to_keep)
      else
        let slot := get_slot hb in
        latest ← idx (latest_final_blocks_periods s) (thread slot);
        if period slot <=? latest.2 then Ok (<[b := Some Stale]> to_discard, to_keep)
        else Ok (to_discard, <[b := (n, slot)]> to_keep)
  | _ => Ok acc
  end.

(** A block with a dependency that is to be discarded is to be discarded. *)
Definition cascade s (acc : prune_acc) (b : BlockId) : prune_acc :=
  let '(to_discard, to_keep) := acc in
  match bs_get (blocks_state s) b with
  | Some (WaitingForDependencies _ deps _) =>
      let '(found, reason) := inherited_reason (λ d, to_discard !! d) (set_iter deps)
                                (false, None) in
      if (found : bool) then (<[b := reason]> to_discard, delete b to_keep) else acc
  | _ => acc
  end.

(** The entry of least (sequence number, slot, id) among those to keep. *)
Definition worst_element s (to_keep : gmap BlockId (N * Slot)) : option BlockId :=
  match sort_unstable
          (omap (λ b, match bs_get (blocks_state s) b with
                      | Some (WaitingForDependencies hb _ n) => Some (n, get_slot hb, b)
                      | _ => None
                      end) (set_iter (dom to_keep))) with
  | [] => None
  | (_, b) :: _ => Some b
  end.

(** Discard in chain and because of the limited size: every round but the last
    removes an element, so the number of elements bounds the rounds. *)
Fixpoint limit_waiting {E : Type} (fuel : nat) s (acc : prune_acc) : outcome E prune_acc :=
  match fuel with
  | O => OutOfFuel
  | S fuel =>
      if decide (acc.2 = ∅) then Ok acc
      else
        let acc := foldl (cascade s) acc (set_iter (dom acc.2)) in
        let '(to_discard, to_keep) := acc in
        if max_dependency_blocks config <? N.of_nat (size to_keep) then
          match worst_element s to_keep with
          | Some b => limit_waiting fuel s (<[b := None]> to_discard, delete b to_keep)
          | None => Ok acc
          end
        else Ok acc
  end.

(** Transition to [Discarded] if there is a reason, otherwise forget. *)
Definition discard_waiting {E} s (entry : BlockId * option DiscardReason)
    : outcome E ConsensusState :=
  let '(block_id, reason_opt) := entry in
  let sequence_number := sequence_counter (blocks_state s) in
  '(bs, stale) ← transition_map (blocks_state s) block_id (λ block_status m,
      match block_status with
      | Some (WaitingForDependencies hb _ _) =>
          header ← match hb with
                   | HoBHeader h => Ok h
                   | HoBBlock b _ _ =>
                       blk ← expect "block should be in storage" (BlockIndex.get read_blocks b);
                       Ok (header (content blk))
                   end;
          match reason_opt with
          | Some reason =>
              Ok (Some (Discarded (header_slot header) (content_creator_address header)
                          (h_parents (content header)) reason sequence_number), m,
                  if decide (reason = Stale)
                  then <[block_id := (content_creator_address header, header_slot header)]>
                         (new_stale_blocks s)
                  else new_stale_blocks s)
          | None => Ok (None, m, new_stale_blocks s)
          end
      | _ => Panic "block should be in WaitingForDependencies state"
      end);
  Ok (set_new_stale_blocks stale (set_blocks_state bs s)).

Definition prune_waiting_for_dependencies s
    : outcome (ConsensusError * ConsensusState) ConsensusState :=
  acc ← foldM (classify_waiting s)
          (set_iter (waiting_for_dependencies_index (blocks_state s))) (∅, ∅);
  '(to_discard, _) ← limit_waiting (S (size (acc.2 : gmap BlockId (N * Slot)))) s acc;
  s ← foldM discard_waiting (map_iter to_discard) s;
  sync_wishlist s.

(** ** The whole pruning *)

Definition prune_nonfinal_blocks_per_slot {E} s : outcome E ConsensusState :=
  kept ← foldM (λ kept '(slot, ids),
           latest ← idx (latest_final_blocks_periods s) (thread slot);
           Ok (if latest.2 <? period slot then <[slot := ids]> kept else kept))
         (map_to_list (nonfinal_active_blocks_per_slot s)) ∅;
  Ok (set_nonfinal_active_blocks_per_slot kept s).

Definition prune s : outcome (ConsensusError * ConsensusState) ConsensusState :=
  '(_, s) ← prune_active s;
  s ← prune_slot_waiting s;
  s ← prune_waiting_for_dependencies s;
  s ← prune_discarded s;
  prune_nonfinal_blocks_per_slot s.
End prune.
