(* ===== verification/Commands.v ===== *)
(** * Commands, ticks and statistics

    [process_commands.rs], [tick.rs] and [stats.rs] of
    [massa-consensus-worker/src/state], and [worker/main_loop.rs]: the entry
    points of the consensus worker.  [MassaTime::now()] is an argument of each
    function that reads the clock. *)

From S2P Require Import Prelude Slots Times Models Storage Blocks BlocksState ConsensusState.
From S2P Require Import Graph Verifications Process Prune.

Open Scope N_scope.

Section commands.
Context `{!SetIter BlockId, !KeyHash, Env : ConsensusEnv}.
Implicit Types (s : ConsensusState).

(** The result type of the entry points: an error carries the state. *)
Definition cs_result : Type := outcome (ConsensusError * ConsensusState) ConsensusState.

(** ** Registering headers and blocks *)

Definition register_header_status (block_id : BlockId) (header : SecuredHeader)
    : callback (ConsensusError * ConsensusState) (gset (Slot * BlockId)) := λ block_status m,
  match block_status with
  | None => Ok (Some (Incoming (HoBHeader header)), m, {[(header_slot header, block_id)]})
  | Some st => Ok (Some st, m, ∅)
  end.

Definition register_block_header (block_id : BlockId) (header : SecuredHeader)
    (current_slot : option Slot) s : cs_result :=
  if decide (block_id ∈ genesis_hashes s) then Ok s
  else
    '(bs, to_ack) ← transition_map (blocks_state s) block_id
                      (register_header_status block_id header);
    rec_process to_ack current_slot (set_blocks_state bs s).

Definition register_block_status (block_id : BlockId) (slot : Slot) (storage : Storage)
    : callback (ConsensusError * ConsensusState) (gset (Slot * BlockId)) := λ block_status m,
  match block_status with
  | None => Ok (Some (Incoming (HoBBlock block_id slot storage)), m, {[(slot, block_id)]})
  | Some (WaitingForSlot _) =>
      Ok (Some (WaitingForSlot (HoBBlock block_id slot storage)), m, ∅)
  | Some (WaitingForDependencies _ deps n) =>
      Ok (Some (WaitingForDependencies (HoBBlock block_id slot storage)
                  (deps ∖ {[block_id]}) n), m,
          if decide (block_id ∈ deps) then {[(slot, block_id)]} else ∅)
  | Some st => Ok (Some st, m, ∅)
  end.

Definition register_block (block_id : BlockId) (slot : Slot) (current_slot : option Slot)
    (storage : Storage) (created : bool) (now : N) s : cs_result :=
  if decide (block_id ∈ genesis_hashes s) then Ok s
  else
    let s := if created then s
             else set_protocol_blocks (protocol_blocks s ++ [(now, block_id)]) s in
    '(bs, to_ack) ← transition_map (blocks_state s) block_id
                      (register_block_status block_id slot storage);
    rec_process to_ack current_slot (set_blocks_state bs s).

Definition mark_invalid_block {E} (block_id : BlockId) (header : SecuredHeader) s
    : outcome E ConsensusState :=
  let reason := Invalid "invalid" in
  let s := maybe_note_attack_attempt reason block_id s in
  let sequence_number := sequence_counter (blocks_state s) in
  '(bs, _) ← transition_map (blocks_state s) block_id (λ block_status m,
      match block_status with
      | None => Ok (None, m, tt)
      | Some _ =>
          Ok (Some (Discarded (header_slot header) (content_creator_address header)
                      (h_parents (content header)) reason sequence_number), m, tt)
      end);
  Ok (set_blocks_state bs s).

(** ** Statistics *)

Record ConsensusStats : Type := MkConsensusStats {
  start_timespan : N;
  end_timespan : N;
  final_block_count : N;
  stale_block_count : N;
  clique_count : N }.

Definition get_stats (now : N) s : ConsensusStats :=
  let timespan_end := N.max (launch_time s) now in
  let timespan_start :=
    N.max (Time.saturating_sub timespan_end (stats_timespan config)) (launch_time s) in
  let in_timespan t := timespan_start ≤ t ∧ t < timespan_end in
  MkConsensusStats timespan_start timespan_end
    (N.of_nat (length (filter (λ x, in_timespan x.1.1) (final_block_stats s))))
    (N.of_nat (length (filter (λ t, in_timespan t) (stale_block_stats s))))
    (get_clique_count s).

(** The time up to which the absence of final blocks is not a desynchronisation. *)
Definition desync_deadline s : outcome TimeError N :=
  d ← Time.checked_mul (t0 config) (last_start_period config);
  start ← Time.checked_add (genesis_timestamp config) d;
  Ok (Time.saturating_add (N.max start (launch_time s)) (stats_desync_detection_timespan s)).

Definition check_desync (now : N) s : cs_result :=
  deadline ← map_err (λ e, (MassaTimeError e, s)) (desync_deadline s);
  let recent := Time.saturating_sub now (stats_desync_detection_timespan s) in
  if (deadline <? now)
     && negb (existsb (λ '(t, _, is_from_protocol), (recent <? t) && is_from_protocol)
                (final_block_stats s))
  then Ok (send NeedSync s) else Ok s.

(** Pop from the front while the entry is older than [start]. *)
Fixpoint pop_older {A} (time : A → N) (start : N) (l : list A) : list A :=
  match l with
  | [] => []
  | x :: rest => if time x <? start then pop_older time start rest else l
  end.

Definition prune_stats (now : N) s : ConsensusState :=
  let start_time := Time.saturating_sub now (stats_history_timespan s) in
  let s := set_final_block_stats
    (pop_older (λ x, x.1.1) start_time (final_block_stats s)) s in
  let s := set_stale_block_stats (pop_older (λ t, t) start_time (stale_block_stats s)) s in
  set_protocol_blocks (pop_older fst start_time (protocol_blocks s)) s.

Definition stats_tick (now now' : N) s : cs_result :=
  s ← check_desync now s;
  Ok (prune_stats now' s).

(** ** Slot ticks *)

(** The elements for which the time has come. *)
Definition due_blocks (current_slot : Slot) s : gset (Slot * BlockId) :=
  list_to_set (omap (λ b,
    match bs_get (blocks_state s) b with
    | Some (WaitingForSlot hb) =>
        if slot_le (get_slot hb) current_slot then Some (get_slot hb, b) else None
    | _ => None
    end) (set_iter (waiting_for_slot_index (blocks_state s)))).

(** The clock is read by [block_db_changed], [check_desync] and [prune_stats]. *)
Definition slot_tick (current_slot : Slot) (now1 now2 now3 : N) s : cs_result :=
  s ← rec_process (due_blocks current_slot s) (Some current_slot) s;
  s ← block_db_changed now1 s;
  stats_tick now2 now3 s.

(** ** The main loop *)

Inductive ConsensusCommand : Type :=
| RegisterBlock (b : BlockId) (slot : Slot) (storage : Storage) (created : bool)
| RegisterBlockHeader (b : BlockId) (h : SecuredHeader)
| MarkInvalidBlock (b : BlockId) (h : SecuredHeader).

Definition manage_command (command : ConsensusCommand) (previous_slot : option Slot)
    (now1 now2 : N) s : cs_result :=
  match command with
  | RegisterBlockHeader block_id header =>
      s ← register_block_header block_id header previous_slot s;
      block_db_changed now1 s
  | RegisterBlock block_id slot block_storage created =>
      s ← register_block block_id slot previous_slot block_storage created now1 s;
      block_db_changed now2 s
  | MarkInvalidBlock block_id header => mark_invalid_block block_id header s
  end.

(** Whatever the result, the worker goes on with the state left behind. *)
Definition state_after {E} (r : cs_result) : outcome E ConsensusState :=
  match r with
  | Ok s | Err (_, s) => Ok s
  | Panic why => Panic why
  | OutOfFuel => OutOfFuel
  end.

(** The slot part of [get_next_slot] of the worker: the closest slot to the
    clock, and always after the previous one. *)
Definition worker_next_slot {E} (previous_slot : option Slot) (now : N) : outcome E Slot :=
  next_slot ← expect_ok "closest slot"
    (get_closest_slot_to_timestamp (thread_count config) (t0 config) (genesis_timestamp config)
       now);
  match previous_slot with
  | Some prev_slot =>
      if slot_le next_slot prev_slot
      then expect_ok "could not compute next slot" (get_next_slot prev_slot (thread_count config))
      else Ok next_slot
  | None => Ok next_slot
  end.

(** [process_slot_tick]: the per-slot maintenance, a pruning when the interval
    has elapsed, and the next slot.  The worker's [previous_slot] becomes the
    current one. *)
Definition process_slot_tick {E} (next_slot : Slot) (prune_now : bool)
    (now1 now2 now3 now4 : N) s : outcome E (ConsensusState * option Slot * Slot) :=
  s ← state_after (slot_tick next_slot now1 now2 now3 s);
  s ← if prune_now then expect_ok "Error while pruning" (prune s) else Ok s;
  next ← worker_next_slot (Some next_slot) now4;
  Ok (s, Some next_slot, next).
End commands.
