(* ===== verification/EntryPoints.v ===== *)
(** * The entry points of the consensus worker

    [register_block], [register_block_header], [mark_invalid_block]
    (process_commands.rs) and the processing part of [slot_tick] (tick.rs) on a
    consistent node: they return a consistent node, never panic, and leave no
    block to examine. *)

From S2P Require Import Prelude Slots Times Cliques Traversal Models Storage Blocks BlocksState ConsensusState Graph Verifications Process Invariant HeaderCheck Insertion Processing Prune Commands.

Open Scope N_scope.

Section entry_points.
Context `{!SetIter BlockId, !KeyHash, Env : ConsensusEnv}.
Context (max_fit : N).
Implicit Types (s : ConsensusState) (b x : BlockId).
Local Notation tc := (thread_count config).
Local Notation statuses s := (block_statuses (blocks_state s)).
Local Notation node_ok := (node_ok max_fit).
Local Notation cs_error := (ConsensusError * ConsensusState)%type.

(** A consistent node between two entry points. *)
Record idle s : Prop := {
  id_ok : node_ok s;
  id_done : ∀ x, ¬ must_process s x }.

(** Sequence numbers for one entry point on [n] blocks: the run of [rec_process]
    pops at most [1 + 2 n + n (2 n + 2)] items, each of which takes at most
    [2 n + 2] numbers, after a first change that takes [n + 2]. *)
Definition entry_room (n : N) : N := (1 + 2 * n + n * (2 * n + 2)) * (2 * n + 2) + n + 2.

Lemma pending_blocks_le m : (pending_blocks m ≤ size m)%nat.
Proof using. unfold pending_blocks. apply map_size_filter. Qed.

Lemma run_room_bound to_ack s (n : nat) :
  (size (statuses s) ≤ n)%nat → (size to_ack ≤ n)%nat →
  run_room to_ack s + N.of_nat n + 2 ≤ entry_room (N.of_nat n).
Proof using.
  intros Hs Ht. unfold run_room, entry_room, rec_process_fuel.
  pose proof (pending_blocks_le (statuses s)).
  do 2 apply N.add_le_mono_r. apply N.mul_le_mono; nia.
Qed.

Lemma entry_room_mono n m : n ≤ m → entry_room n ≤ entry_room m.
Proof using. intros. unfold entry_room. apply N.add_le_mono_r, N.add_le_mono; [|done].
  apply N.mul_le_mono; nia. Qed.

(** What an entry point guarantees; [k] sequence numbers are left. *)
Record entry_ok (k : N) s s' : Prop := {
  ey_idle : idle s';
  ey_final : finality_kept s s';
  ey_size : (size (statuses s') ≤ S (size (statuses s)))%nat;
  ey_room : room k s' }.

Lemma entry_refl k s : idle s → room k s → entry_ok k s s.
Proof using. split; [done|apply finality_kept_refl|lia|done]. Qed.

Lemma same_core_owed due s s' x : same_core s s' → owed due s' x ↔ owed due s x.
Proof using. intros [Hb _ _ _ _]. unfold owed. by rewrite Hb. Qed.

Lemma same_core_idle s s' : same_core s s' → idle s → idle s'.
Proof using.
  intros Hc [H1 H2]. split; [by eapply same_core_ok|]. intros x.
  unfold must_process. rewrite (same_core_owed None s) by done. apply H2.
Qed.

Lemma same_core_entry k s s1 s' : same_core s s1 → entry_ok k s1 s' → entry_ok k s s'.
Proof using.
  intros Hc [H1 H2 H3 H4]. pose proof (λ x, same_core_active s s1 x Hc) as Ha.
  destruct Hc as [Hb _ _ Hl _]. rewrite Hb in H3. split; [done| |done|done].
  eapply finality_kept_trans; [|done]. by apply same_active_finality.
Qed.

(** Changing the status of one block. *)
Lemma registered_size b new bs' s :
  transitioned b new (delete b (statuses s)) (blocks_state s) bs' →
  (size (block_statuses bs') ≤ S (size (statuses s)))%nat.
Proof using.
  intros Ht. rewrite <-!size_dom.
  transitivity (size ({[b]} ∪ dom (statuses s))).
  - apply subseteq_size. intros x. rewrite elem_of_union, elem_of_singleton, !elem_of_dom.
    rewrite (transitioned_dom b new _ (blocks_state s) bs' x (active_edit_refl _) Ht).
    case_decide; [by left|by right].
  - rewrite size_union_alt, size_singleton. apply le_n_S, subseteq_size. set_solver.
Qed.

Lemma registered_must (to_ack : gset (Slot * BlockId)) b (new : option BlockStatus)
    (bs' : BlocksState) s x :
  idle s → transitioned b new (delete b (statuses s)) (blocks_state s) bs' →
  (∀ st, new = Some st → to_examine None st → ∃ slot, (slot, b) ∈ to_ack) →
  must_process (set_blocks_state bs' s) x → ∃ slot, (slot, x) ∈ to_ack.
Proof using.
  intros Hid Ht Hq [(-> & st & Hst & Hex)|[_ Hx]]%(transitioned_owed None b new bs' s x Ht).
  - by eapply Hq.
  - by destruct (id_done _ Hid x).
Qed.

(** A status change that does not touch the active blocks, and the processing
    that follows it. *)
Lemma registered_spec (to_ack : gset (Slot * BlockId)) (f : callback cs_error (gset (Slot * BlockId)))
    (new : option BlockStatus) k b c s :
  idle s → clock_current c →
  max_fit * N.of_nat (S (size (statuses s))) ≤ u64_max →
  room (k + entry_room (N.of_nat (S (size (statuses s))))) s →
  f (statuses s !! b) (delete b (statuses s)) = Ok (new, delete b (statuses s), to_ack) →
  allowed (status_id <$> statuses s !! b) (status_id <$> new) = true →
  active_status new = get_active s b →
  (∀ a sb, new = Some (Active a sb) → statuses s !! b = Some (Active a sb)) →
  (∀ st, new = Some st → pending_ok max_fit s b st) →
  (∀ st, new = Some st → to_examine None st → ∃ slot, (slot, b) ∈ to_ack) → (size to_ack ≤ 1)%nat →
  ∃ s', ('(bs, to_ack) ← transition_map (blocks_state s) b f;
         rec_process to_ack c (set_blocks_state bs s)) = Ok s' ∧ entry_ok k s s'.
Proof.
  intros Hid Hc Hw Hr Hf Hall Ha Hsb Hp Hq Hack.
  destruct (transition_map_spec (blocks_state s) b f new (delete b (statuses s)) to_ack)
    as (bs' & -> & Ht); [done|apply active_edit_refl|done|unfold room, entry_room in Hr; lia|].
  cbn [mbind outcome_bind].
  destruct (status_change_ok max_fit b new bs' s (id_ok _ Hid) Ha Hsb Hp Ht) as [Hok Hact].
  pose proof (registered_size b new bs' s Ht) as Hsz.
  pose proof (tr_counter _ _ _ _ _ Ht) as Hcnt.
  pose proof (run_room_bound to_ack (set_blocks_state bs' s) (S (size (statuses s))) Hsz
    ltac:(lia)) as Hrun.
  destruct (@rec_process_spec _ _ _ max_fit cs_error None k to_ack c (set_blocks_state bs' s))
    as (s' & -> & [R1 R2 R3 R4 R5]); [done|done|done| | |by intros x; eapply (registered_must to_ack b new)|].
  - cbn. nia.
  - unfold room in *. cbn in *. lia.
  - exists s'. split; [done|]. cbn in R3. split; [done| |lia|done].
    eapply finality_kept_trans; [|done]. by apply same_active_finality.
Qed.

(** The status a block already has. *)
Lemma status_pending_ok s b st : node_ok s → statuses s !! b = Some st → pending_ok max_fit s b st.
Proof using.
  intros Hok Hb. destruct (decide (is_pending st)) as [Hp|Hp]; [|by destruct st].
  apply (pending_ok_number max_fit s b 0), (no_pending _ _ Hok). unfold pending_view.
  rewrite Hb. cbn. by rewrite decide_True.
Qed.

Lemma status_examined s b st : idle s → statuses s !! b = Some st → ¬ to_examine None st.
Proof using.
  intros Hid Hb Hex. apply (id_done _ Hid b).
  assert (is_pending st) as Hp by (by destruct st). unfold must_process, owed, pending_view.
  rewrite Hb. cbn. rewrite decide_True by done. eexists. split; [done|]. by destruct st.
Qed.

Lemma status_active s b st : statuses s !! b = Some st → active_status (Some st) = get_active s b.
Proof using. unfold get_active, bs_get. intros ->. by destruct st. Qed.

Lemma allowed_refl o : o ≠ None → allowed o o = true.
Proof using. by destruct o as [[]|]. Qed.

(** Preconditions shared by the entry points: one more block fits. *)
Record ready (k : N) (c : option Slot) s : Prop := {
  rd_idle : idle s;
  rd_clock : clock_current c;
  rd_fitness : max_fit * N.of_nat (S (size (statuses s))) ≤ u64_max;
  rd_room : room (k + entry_room (N.of_nat (S (size (statuses s))))) s }.

Ltac entry_side := first [done|rewrite ?size_empty, ?size_singleton; lia].

Lemma register_block_header_spec k b h c s :
  ready k c s → header_ok h →
  ∃ s', register_block_header b h c s = Ok s' ∧ entry_ok k s s'.
Proof.
  intros [Hid Hc Hw Hr] Hh. unfold register_block_header. case_decide.
  { exists s. split; [done|]. apply entry_refl; [done|unfold room in *; lia]. }
  destruct (statuses s !! b) as [st|] eqn:Hb.
  - apply (registered_spec ∅ _ (Some st)); rewrite ?Hb; try entry_side.
    + by apply allowed_refl.
    + by apply status_active.
    + intros ? [= <-]. by apply status_pending_ok; [apply Hid|].
    + intros ? [= <-] Hex. by destruct (status_examined s b st Hid Hb).
  - apply (registered_spec {[(header_slot h, b)]} _ (Some (Incoming (HoBHeader h)))); rewrite ?Hb;
      try entry_side.
    + unfold get_active, bs_get. by rewrite Hb.
    + by intros ? [= <-].
    + intros ? _ _. exists (header_slot h). set_solver.
Qed.

(** The promotion of a waiting block, and what it makes ready. *)
Lemma register_block_spec k b slot c st created now s blk :
  ready k c s → stored_ok max_fit b slot blk →
  ∃ s', register_block b slot c st created now s = Ok s' ∧ entry_ok k s s'.
Proof.
  intros [Hid Hc Hw Hr] Hblk. unfold register_block. case_decide as Hg.
  { exists s. split; [done|]. apply entry_refl; [done|unfold room in *; lia]. }
  set (s1 := if created then s else _).
  assert (same_core s s1) as Hcore by (subst s1; by destruct created).
  assert (∃ s', ('(bs, to_ack) ← transition_map (blocks_state s1) b (register_block_status b slot st);
      rec_process to_ack c (set_blocks_state bs s1)) = Ok s' ∧ entry_ok k s1 s') as (s' & Hs' & He).
  2:{ exists s'. split; [exact Hs'|]. by eapply same_core_entry. }
  pose proof (same_core_idle _ _ Hcore Hid) as Hid1. pose proof Hcore as [Hbs _ _ _ _].
  apply (same_core_room _ _ s1) in Hr; [|done]. rewrite <-Hbs in Hw, Hr.
  clearbody s1. clear Hcore Hbs Hid Hg s. rename s1 into s.
  assert (hob_ok max_fit b (HoBBlock b slot st)) as Hhob by (split; [done|by exists blk]).
  destruct (statuses s !! b) as [old|] eqn:Hb.
  2:{ apply (registered_spec {[(slot, b)]} _ (Some (Incoming (HoBBlock b slot st)))); rewrite ?Hb;
        try entry_side.
      - unfold get_active, bs_get. by rewrite Hb.
      - by intros ? [= <-].
      - intros ? _ _. exists slot. set_solver. }
  pose proof (status_active s b old Hb) as Hact.
  pose proof (status_pending_ok s b old (id_ok _ Hid1) Hb) as Hp.
  pose proof (status_examined s b old Hid1 Hb) as Hex.
  destruct old as [hb|hb|hb deps m|a sb|? ? ? ? ?].
  - apply (registered_spec ∅ _ (Some (Incoming hb))); rewrite ?Hb; try entry_side;
      intros ? [= <-]; try done.
  - apply (registered_spec ∅ _ (Some (WaitingForSlot (HoBBlock b slot st)))); rewrite ?Hb; try entry_side;
      intros ? [= <-]; [done|by intros [? _]].
  - apply (registered_spec (if decide (b ∈ deps) then {[(slot, b)]} else ∅) _
      (Some (WaitingForDependencies (HoBBlock b slot st) (deps ∖ {[b]}) m))); rewrite ?Hb; try entry_side.
    + intros ? [= <-]. split; [done|]. intros y Hy. apply Hp. set_solver.
    + intros ? [= <-] He. cbn in He. case_decide; [exists slot; set_solver|].
      destruct Hex. cbn. set_solver.
    + case_decide; rewrite ?size_singleton, ?size_empty; lia.
  - apply (registered_spec ∅ _ (Some (Active a sb))); rewrite ?Hb; try entry_side; by intros ? [= <-].
  - eapply (registered_spec ∅ _ (Some (Discarded _ _ _ _ _))); rewrite ?Hb; try entry_side;
      by intros ? [= <-].
Qed.

(** Marking a block invalid when it is not active. *)
Lemma mark_invalid_block_spec {E} k b h s :
  idle s → get_active s b = None → room (k + N.of_nat (size (statuses s)) + 2) s →
  ∃ s', mark_invalid_block b h s = @Ok E _ s' ∧ entry_ok k s s'
    ∧ (is_Some (statuses s !! b) →
       ∃ n, statuses s' !! b = Some (Discarded (header_slot h) (content_creator_address h)
                                 (h_parents (content h)) (Invalid "invalid") n)).
Proof.
  intros Hid Hb Hr. unfold mark_invalid_block.
  pose proof (maybe_note_core (Invalid "invalid") b s) as Hcore.
  set (s1 := maybe_note_attack_attempt _ b s) in *. clearbody s1.
  pose proof (same_core_idle _ _ Hcore Hid) as Hid1. pose proof Hcore as [Hbs _ _ _ _].
  rewrite <-(same_core_active s s1 b Hcore) in Hb.
  apply (same_core_room _ _ s1) in Hr; [|done]. rewrite <-Hbs in Hr |- *.
  set (disc := Discarded (header_slot h) (content_creator_address h) (h_parents (content h))
    (Invalid "invalid") (sequence_counter (blocks_state s1))).
  set (new := (λ _, disc) <$> statuses s1 !! b).
  match goal with |- context [transition_map _ _ ?f] =>
    destruct (transition_map_spec (blocks_state s1) b f new (delete b (statuses s1)) tt)
      as (bs' & -> & Ht) end.
  { subst new. by destruct (statuses s1 !! b). } { apply active_edit_refl. }
  { subst new. unfold get_active, bs_get in Hb. by destruct (statuses s1 !! b) as [[]|]. }
  { unfold room in Hr. lia. }
  cbn [mbind outcome_bind]. eexists. split; [done|].
  destruct (status_change_ok max_fit b new bs' s1 (id_ok _ Hid1)) as [Hok Hact]; [| | |done|].
  { subst new. rewrite Hb. by destruct (statuses s1 !! b). }
  { subst new. by intros ? ? (? & _ & ?)%fmap_Some. }
  { subst new. by intros st (? & _ & ->)%fmap_Some. }
  pose proof (registered_size b new bs' s1 Ht) as Hsz.
  pose proof (tr_counter _ _ _ _ _ Ht) as Hcnt.
  split.
  - eapply same_core_entry; [done|]. split; [split; [done|]|by apply same_active_finality|done|].
    + intros x [(-> & st & Hst & Hex)|[_ Hx]]%(transitioned_owed None b new bs' s1 x Ht).
      * subst new. apply fmap_Some in Hst as (? & _ & ->). done.
      * by destruct (id_done _ Hid1 x).
    + eapply (transitioned_room k b new); [exact Ht| |exact Hr].
      subst new. by destruct (statuses s1 !! b).
  - intros [st Hst]. destruct (tr_new _ _ _ _ _ Ht) as [n Hn]. exists n. cbn. rewrite Hn.
    subst new. by rewrite Hst.
Qed.

(** ** Slot ticks *)

Lemma due_blocks_size current s :
  node_ok s → (size (due_blocks current s) ≤ size (statuses s))%nat.
Proof using.
  intros Hok. unfold due_blocks. etransitivity; [apply size_list_to_set_le|].
  etransitivity; [apply length_omap_le|]. rewrite length_set_iter, <-size_dom.
  apply subseteq_size. intros x Hx. apply elem_of_dom.
  apply (ci_bs _ _ (proj1 (no_inv _ _ Hok)) SWaitingForSlot x) in Hx.
  destruct (statuses s !! x); [by eexists|done].
Qed.

(** After a tick no block waits for a slot that is reached and drawn. *)
Definition tick_ok (current : Slot) k s s' : Prop :=
  entry_ok k s s' ∧ ∀ x, ¬ owed (Some current) s' x.

Lemma due_blocks_owed current s x :
  idle s → owed (Some current) s x → ∃ slot, (slot, x) ∈ due_blocks current s.
Proof using.
  intros Hid (st & Hst & Hex). pose proof (id_done _ Hid x) as Hno.
  destruct st as [hb|hb|hb d n| |]; cbn in Hex; try done.
  - destruct Hno. by exists (Incoming hb).
  - exists (get_slot hb). unfold pending_view in Hst. destruct (statuses s !! x) as [st|] eqn:Hx; [|done].
    cbn in Hst. case_decide; [|done]. destruct st; simplify_eq/=.
    unfold due_blocks. apply elem_of_list_to_set, list_elem_of_omap. exists x. split.
    + apply elem_of_set_iter, (ci_bs _ _ (proj1 (no_inv _ _ (id_ok _ Hid))) SWaitingForSlot x).
      by rewrite Hx.
    + unfold bs_get. rewrite Hx. destruct Hex as [Hlt _].
      destruct (opt_slot_lt_false (Some current) (get_slot hb) Hlt) as (c & [= <-] & Hle). by rewrite Hle.
  - destruct Hno. by exists (WaitingForDependencies hb d n).
Qed.

Lemma owed_later current s x : must_process s x → owed (Some current) s x.
Proof using. intros (st & Hst & Hex). exists st. split; [done|]. destruct st; cbn in *; tauto || by destruct Hex. Qed.

Lemma tick_process_spec k current s :
  ready k (Some current) s →
  ∃ s', rec_process (due_blocks current s) (Some current) s = @Ok cs_error _ s'
    ∧ tick_ok current k s s'.
Proof.
  intros [Hid Hc Hw Hr].
  pose proof (run_room_bound (due_blocks current s) s (S (size (statuses s))) ltac:(lia)
    ltac:(pose proof (due_blocks_size current s (id_ok _ Hid)); lia)) as Hrun.
  destruct (@rec_process_spec _ _ _ max_fit cs_error (Some current) k (due_blocks current s) (Some current) s)
    as (s' & -> & [R1 R2 R3 R4 R5]); [apply due_by_refl|apply Hid|done|nia|unfold room in *; lia| |].
  - intros x. by apply due_blocks_owed.
  - exists s'. split; [done|]. split; [|done]. split; [|done|lia|done].
    split; [done|]. intros x Hx. by apply (R5 x), owed_later.
Qed.
End entry_points.

(** ** Publishing the changes

    [block_db_changed] (process.rs) on a consistent node: it never panics, and
    whether or not a message is refused, it leaves the block graph as it is. *)

Section publish.
Context `{!SetIter BlockId, !KeyHash, Env : ConsensusEnv}.
Context (max_fit : N).
Implicit Types (s : ConsensusState) (b x : BlockId).
Local Notation statuses s := (block_statuses (blocks_state s)).

Lemma send_all_core {A} (msg : A → ChannelMsg) l s : same_core s (send_all msg l s).2.
Proof using.
  revert s. induction l as [|x l IH]; intros s; cbn; [by split|].
  destruct (accepts (sent s) (msg x)).
  - eapply same_core_trans; [|apply IH]. by split.
  - by split.
Qed.

Lemma sync_wishlist_core s :
  returns (same_core s) (λ r, same_core s r.2) (sync_wishlist s).
Proof using.
  unfold sync_wishlist. case_decide; [by split|]. cbn. case_match; by split.
Qed.

(** Blocks whose operations are at hand. *)
Definition has_storage s b : Prop :=
  ∃ a st, statuses s !! b = Some (Active a (SoBStorage st)).

Lemma block_metadata_ok {E} s b :
  has_storage s b → ∃ a md, block_metadata s b = @Ok E _ (a, md).
Proof using. intros (a & st & Hb). unfold block_metadata, bs_get. rewrite Hb. eauto. Qed.

Lemma nonfinal_has_storage s b : node_ok max_fit s → is_nonfinal s b → has_storage s b.
Proof using.
  intros Hok (a & [sb Hb]%get_active_Some & Hf). destruct sb as [st|blk]; [by exists a, st|].
  destruct (no_stored _ _ Hok b a blk Hb) as [Ht _]. congruence.
Qed.

Lemma new_final_has_storage s b a :
  node_ok max_fit s → b ∈ new_final_blocks s → get_active s b = Some a → has_storage s b.
Proof using.
  intros Hok Hn [sb Hb]%get_active_Some. destruct sb as [st|blk]; [by exists a, st|].
  by destruct (no_stored _ _ Hok b a blk Hb) as [_ []].
Qed.

Lemma blockclique_nonfinal {E} s :
  node_ok max_fit s →
  ∃ C, get_blockclique s = @Ok E _ C ∧ ∀ b, b ∈ C → is_nonfinal s b.
Proof using.
  intros Hok. pose proof (no_inv _ _ Hok) as [Hb Hc]. unfold get_blockclique, find_blockclique.
  destruct (list_find (λ c, is_blockclique c = true) (max_cliques s)) as [[i c]|] eqn:Hf.
  - apply list_find_Some in Hf as (Hi & _ & _). eexists. split; [done|]. intros b Hbc.
    apply (ci_dom _ _ Hb), (co_clique _ _ _ Hc c); [by eapply list_elem_of_lookup_2|done].
  - apply list_find_None in Hf. exfalso. pose proof (co_one _ _ _ Hc) as H1.
    assert (filter (λ c, is_blockclique c = true) (max_cliques s) = []) as Hn; [|by rewrite Hn in H1].
    apply elem_of_nil_inv. intros c [Hcb Hin]%list_elem_of_filter.
    rewrite Forall_forall in Hf. by apply (Hf c Hin).
Qed.

(** The finalized blocks handed to execution. *)
Lemma final_block_info_spec s now l acc slot b :
  (foldl (final_block_info s now) acc l).1 !! slot = Some b →
  acc.1 !! slot = Some b ∨ b ∈ l ∧ is_Some (get_active s b).
Proof using.
  revert acc. induction l as [|x l IH]; intros [m st] Hb; cbn [foldl] in Hb; [by left|]. destruct (IH _ Hb) as [Ha|[Hl Hact]]; [|right; split; [by right|done]].
  unfold final_block_info in Ha. destruct (get_active s x) as [a|] eqn:Hx; [|by left].
  cbn in Ha. apply lookup_insert_Some in Ha as [[_ <-]|[_ Ha]]; [|by left].
  right. rewrite Hx. split; [by left|by eexists].
Qed.

Lemma notify_execution_core {E} (finals : gmap Slot BlockId) s :
  node_ok max_fit s → (∀ slot b, finals !! slot = Some b → has_storage s b) →
  ∃ s', notify_execution finals s = @Ok E _ s' ∧ same_core s s'.
Proof using.
  intros Hok Hfin. unfold notify_execution.
  destruct (foldM_total (E := E) (λ _ (_ : gmap BlockId ExecutionBlockMetadata), True)
    (λ metadata b,
      if decide (is_Some (prev_blockclique s !! b)) then Ok metadata
      else '(_, md) ← block_metadata s b; Ok (<[b := md]> metadata))
    (map_to_list finals).*2 ∅) as (md & -> & _).
  { done. }
  { intros pre b post md Hl _. case_decide; [by eexists|].
    destruct (@block_metadata_ok E s b) as (a & md' & ->).
    - assert (b ∈ (map_to_list finals).*2) as Hb by (rewrite Hl; set_solver).
      apply list_elem_of_fmap in Hb as ([slot b'] & -> & Hin%elem_of_map_to_list). by eapply Hfin.
    - cbn [mbind outcome_bind]. by eexists. }
  cbn [mbind outcome_bind]. destruct (@blockclique_nonfinal E s Hok) as (C & -> & HC).
  cbn [mbind outcome_bind].
  destruct (foldM_total (E := E) (λ _ (_ : clique_acc), True) (notify_clique_block s)
    (set_iter C) (∅, prev_blockclique s, md, false)) as ([[[new prev] metadata] changed] & -> & _).
  { done. }
  { intros pre b post [[[new prev] metadata] changed] Hl _. unfold notify_clique_block.
    case_match; [by eexists|]. destruct (@block_metadata_ok E s b) as (a & md' & ->).
    - apply nonfinal_has_storage; [done|]. apply HC, elem_of_set_iter. rewrite Hl. set_solver.
    - cbn [mbind outcome_bind]. by eexists. }
  cbn [mbind outcome_bind]. case_match; eexists; (split; [done|]); by split.
Qed.

Lemma block_db_changed_spec now s :
  node_ok max_fit s →
  returns (same_core s) (λ r, same_core s r.2) (block_db_changed now s).
Proof using.
  intros Hok. unfold block_db_changed.
  pose proof (send_all_core (λ '(b, st), IntegratedBlock b st) (reverse (map_iter (to_propagate s)))
    (set_to_propagate ∅ s)) as H1.
  destruct (send_all _ _ _) as [u1 s1]. cbn [snd] in H1.
  assert (same_core s (set_to_propagate (collect_map u1) s1)) as H2.
  { eapply same_core_trans; [|eapply same_core_trans; [exact H1|]]; by split. }
  set (s2 := set_to_propagate (collect_map u1) s1) in *. clearbody s2. clear H1.
  case_decide; [exact H2|].
  pose proof (send_all_core BlockAttack (reverse (attack_attempts s2)) (set_attack_attempts [] s2)) as H3.
  destruct (send_all _ _ _) as [u2 s3]. cbn [snd] in H3.
  assert (same_core s (set_attack_attempts (reverse u2) s3)) as H4.
  { eapply same_core_trans; [exact H2|]. eapply same_core_trans; [|eapply same_core_trans; [exact H3|]];
      by split. }
  set (s4 := set_attack_attempts (reverse u2) s3) in *. clearbody s4. clear H3.
  case_decide; [exact H4|].
  pose proof (same_core_ok max_fit _ _ H4 Hok) as Hok4.
  pose proof (λ slot b, final_block_info_spec s4 now (set_iter (new_final_blocks s4)) (∅, []) slot b)
    as Hfin.
  destruct (foldl _ _ _) as [finals stats]. cbn [fst] in Hfin.
  destruct (@notify_execution_core (ConsensusError * ConsensusState) finals s4 Hok4) as (s5 & -> & H5).
  { intros slot b Hb. destruct (Hfin slot b Hb) as [He|[Hin%elem_of_set_iter [a Ha]]];
      [by rewrite lookup_empty in He|]. by eapply new_final_has_storage. }
  cbn [mbind outcome_bind].
  set (s6 := set_new_stale_blocks ∅ _).
  assert (same_core s s6) as H6.
  { eapply same_core_trans; [exact H4|]. eapply same_core_trans; [exact H5|]. split; [done..|].
    cbn. set_solver. }
  clearbody s6. clear H5 Hfin.
  eapply (returns_bind _ _ (same_core s)).
  - pose proof (sync_wishlist_core s6) as Hw. destruct (sync_wishlist s6) as [s7|[e s7]| |];
      cbn in *; try done; by eapply same_core_trans.
  - intros s7 H7. case_decide; [exact H7|]. cbn. eapply same_core_trans; [exact H7|]. by split.
Qed.

(** ** Commands and ticks *)

Lemma entry_then_core k s s1 s2 :
  entry_ok max_fit k s s1 → same_core s1 s2 → entry_ok max_fit k s s2.
Proof using.
  intros [H1 H2 H3 H4] Hc. split.
  - by eapply same_core_idle.
  - eapply finality_kept_trans; [exact H2|]. apply same_active_finality; [|apply Hc].
    intros x. by apply same_core_active.
  - by rewrite (sk_blocks _ _ Hc).
  - by eapply same_core_room.
Qed.

Lemma published k now s s1 :
  entry_ok max_fit k s s1 →
  returns (entry_ok max_fit k s) (λ r, entry_ok max_fit k s r.2) (block_db_changed now s1).
Proof using.
  intros He. pose proof (block_db_changed_spec now s1 (id_ok _ _ (ey_idle _ _ _ _ He))) as Hp.
  destruct (block_db_changed now s1) as [s2|[e s2]| |]; cbn in *; try done;
    by eapply entry_then_core.
Qed.

Lemma stats_tick_core now now' s :
  returns (same_core s) (λ r, same_core s r.2) (stats_tick now now' s).
Proof using.
  unfold stats_tick. eapply (returns_bind _ _ (same_core s)).
  - unfold check_desync, desync_deadline, Time.checked_mul, Time.checked_add.
    destruct (checked_mul _ _ _) as [d|]; cbn; [|by split].
    destruct (checked_add _ _ _) as [start|]; cbn; [|by split]. case_match; by split.
  - intros s1 H1. cbn. eapply same_core_trans; [exact H1|]. by split.
Qed.

(** What the network layer and the clock guarantee before a call. *)
Record affordable (c : option Slot) (k : N) s : Prop := {
  af_clock : clock_current c;
  af_fitness : max_fit * N.of_nat (S (size (statuses s))) ≤ u64_max;
  af_room : room (k + entry_room (N.of_nat (S (size (statuses s))))) s }.

(** The messages the network layer and the factories send. *)
Definition message_ok (command : ConsensusCommand) : Prop :=
  match command with
  | RegisterBlockHeader _ h => header_ok h
  | RegisterBlock b slot _ _ => ∃ blk, stored_ok max_fit b slot blk
  | MarkInvalidBlock _ _ => True
  end.

(** [MarkInvalidBlock] discards a block whatever its status. The caller (the
    retrieval of blocks that fail their checks) names blocks consensus did not
    insert. *)
Definition marks_no_active s (command : ConsensusCommand) : Prop :=
  match command with
  | MarkInvalidBlock b _ => get_active s b = None
  | _ => True
  end.

Lemma manage_command_spec k command c now1 now2 s :
  idle max_fit s → affordable c k s → message_ok command → marks_no_active s command →
  returns (entry_ok max_fit k s) (λ r, entry_ok max_fit k s r.2)
    (manage_command command c now1 now2 s).
Proof.
  intros Hid [Hc Hf Hr] Hmsg Hmark. assert (ready max_fit k c s) as Hready by (by split).
  destruct command as [b slot st created|b h|b h]; cbn [manage_command message_ok marks_no_active] in *.
  - destruct Hmsg as [blk Hblk].
    destruct (register_block_spec max_fit k b slot c st created now1 s blk Hready Hblk)
      as (s1 & -> & He). by apply published.
  - destruct (register_block_header_spec max_fit k b h c s Hready Hmsg) as (s1 & -> & He).
    by apply published.
  - destruct (mark_invalid_block_spec (E := ConsensusError * ConsensusState) max_fit k b h s Hid Hmark)
      as (s1 & -> & He & _); [|done]. unfold room, entry_room in *. lia.
Qed.

Lemma tick_then_core slot k s s1 s2 :
  tick_ok max_fit slot k s s1 → same_core s1 s2 → tick_ok max_fit slot k s s2.
Proof using.
  intros [He Ho] Hc. split; [by eapply entry_then_core|]. intros x.
  by rewrite (same_core_owed _ s1).
Qed.

Lemma slot_tick_spec k slot now1 now2 now3 s :
  idle max_fit s → affordable (Some slot) k s →
  returns (tick_ok max_fit slot k s) (λ r, tick_ok max_fit slot k s r.2)
    (slot_tick slot now1 now2 now3 s).
Proof.
  intros Hid [Hc Hf Hr]. assert (ready max_fit k (Some slot) s) as Hready by (by split).
  unfold slot_tick. destruct (tick_process_spec max_fit k slot s Hready) as (s1 & -> & Ht).
  cbn [mbind outcome_bind]. eapply (returns_bind _ _ (tick_ok max_fit slot k s)).
  - pose proof (block_db_changed_spec now1 s1 (id_ok _ _ (ey_idle _ _ _ _ (proj1 Ht)))) as Hp.
    destruct (block_db_changed now1 s1) as [s2|[e s2]| |]; cbn in *; try done;
      by eapply tick_then_core.
  - intros s2 Ht2. pose proof (stats_tick_core now2 now3 s2) as Hs.
    destruct (stats_tick now2 now3 s2) as [s3|[e s3]| |]; cbn in *; try done;
      by eapply tick_then_core.
Qed.

(** ** Runs of the worker *)

(** What the main loop hands to the state: a command of the queue, with the
    previous slot, or the slot of the clock. *)
Inductive WorkerEvent : Type :=
| CommandReceived (command : ConsensusCommand) (previous_slot : option Slot) (now1 now2 : N)
| SlotReached (slot : Slot) (now1 now2 now3 : N).

(** Whatever the call returns, the worker goes on with the state left behind. *)
Definition worker_event {E} s (ev : WorkerEvent) : outcome E ConsensusState :=
  match ev with
  | CommandReceived command previous_slot now1 now2 =>
      state_after (manage_command command previous_slot now1 now2 s)
  | SlotReached slot now1 now2 now3 => state_after (slot_tick slot now1 now2 now3 s)
  end.
Definition worker_run {E} : list WorkerEvent → ConsensusState → outcome E ConsensusState :=
  foldM worker_event.

Definition event_slot (ev : WorkerEvent) : option Slot :=
  match ev with CommandReceived _ c _ _ => c | SlotReached slot _ _ _ => Some slot end.
Definition event_command (ev : WorkerEvent) : option ConsensusCommand :=
  match ev with CommandReceived command _ _ _ => Some command | SlotReached _ _ _ _ => None end.

Record event_ok s (ev : WorkerEvent) : Prop := {
  eo_affordable : affordable (event_slot ev) 0 s;
  eo_message : ∀ command, event_command ev = Some command → message_ok command;
  eo_marks : ∀ command, event_command ev = Some command → marks_no_active s command }.

Lemma returns_state_after {E} (Q : ConsensusState → Prop) (r : cs_result) :
  returns Q (λ r, Q r.2) r → ∃ s', state_after r = @Ok E _ s' ∧ Q s'.
Proof using. destruct r as [s|[e s]| |]; cbn; try done; eauto. Qed.

Lemma worker_event_ok {E} s ev :
  idle max_fit s → event_ok s ev →
  ∃ s', worker_event s ev = @Ok E _ s' ∧ idle max_fit s' ∧ finality_kept s s'.
Proof.
  intros Hid [Ha Hm Hk]. destruct ev as [command c now1 now2|slot now1 now2 now3]; cbn in *.
  - destruct (@returns_state_after E _ _ (manage_command_spec 0 command c now1 now2 s Hid Ha
      (Hm _ eq_refl) (Hk _ eq_refl))) as (s' & Hs' & [H1 H2 _ _]). by exists s'.
  - destruct (@returns_state_after E _ _ (slot_tick_spec 0 slot now1 now2 now3 s Hid Ha))
      as (s' & Hs' & [[H1 H2 _ _] _]). by exists s'.
Qed.

(** Every event of the run meets its condition in the state it finds. *)
Definition run_events_ok (evs : list WorkerEvent) s : Prop :=
  ∀ pre ev post s1, evs = pre ++ ev :: post → worker_run pre s = @Ok unit _ s1 → event_ok s1 ev.

Lemma worker_run_ok evs s :
  idle max_fit s → run_events_ok evs s →
  ∃ s', worker_run evs s = @Ok unit _ s' ∧ idle max_fit s' ∧ finality_kept s s'.
Proof.
  revert s. induction evs as [|ev evs IH]; intros s Hid Hevs.
  - exists s. split_and!; [done|done|apply finality_kept_refl].
  - destruct (@worker_event_ok unit s ev Hid) as (s1 & Hs1 & Hid1 & Hk).
    { by apply (Hevs [] ev evs s). }
    destruct (IH s1 Hid1) as (s' & Hs' & Hid' & Hk').
    { intros pre ev' post s2 -> Hs2. apply (Hevs (ev :: pre) ev' post); [done|].
      cbn. by rewrite Hs1. }
    exists s'. split_and!; [|done|by eapply finality_kept_trans].
    unfold worker_run in *. cbn. by rewrite Hs1.
Qed.
End publish.
