(* ===== verification/Init.v ===== *)
(** * The start of the consensus worker

    [massa-consensus-worker/src/worker/mod.rs] and [init.rs], and the conversion
    of bootstrapped blocks of [massa-consensus-exports/src/export_active_block.rs].

    Signing the genesis blocks is the interface [GenesisSigner]: the two calls of
    [new_verifiable] (cryptography) and the hash of no operation.  The estimate
    of an [Instant] of the operating system is the argument [estimate_instant].
    Log messages are left out; the checked sums of times in them, whose failure is an
    error of the constructor, are kept. *)

From S2P Require Import Prelude Slots Times Models Storage StorageRefs Blocks BlocksState.
From S2P Require Import ConsensusState Graph Process.

Open Scope N_scope.

(** ** Bootstrapped blocks *)

Record ExportActiveBlock : Type := MkExportActiveBlock {
  xb_block : SecureShareBlock;
  xb_parents : list (BlockId * N);
  xb_is_final : bool }.

Definition from_active_block {E} (ix : BlockIndexes) (a : ActiveBlock) (sb : StorageOrBlock)
    : outcome E ExportActiveBlock :=
  b ← clone_block ix sb (ab_block_id a);
  Ok (MkExportActiveBlock b (ab_parents a) (ab_is_final a)).

Definition check_parents_match_header (x : ExportActiveBlock) (thread_count : N)
    : outcome string unit :=
  let header_parents := h_parents (content (header (content (xb_block x)))) in
  if decide (xb_parents x = []) then
    if decide (header_parents = []) then Ok tt else Err "empty parents but header lists parents"
  else if decide (length (xb_parents x) ≠ N.to_nat thread_count
                  ∨ length header_parents ≠ N.to_nat thread_count)
  then Err "parents length mismatch"
  else if decide ((xb_parents x).*1 = header_parents) then Ok tt
  else Err "parent id mismatch".

Definition to_active_block (x : ExportActiveBlock) (thread_count : N)
    : outcome ConsensusError (ActiveBlock * StorageOrBlock) :=
  _ ← map_err ContainerInconsistency (check_parents_match_header x thread_count);
  let b := xb_block x in
  Ok (MkActiveBlock (content_creator_address b) (id b) (xb_parents x)
        (replicate (N.to_nat thread_count) ∅) ∅ (xb_is_final x)
        (header_slot (header (content b))) (get_fitness (header (content b))) None,
      SoBBlock b).

(** ** Genesis *)

Class GenesisSigner := {
  sign_header : BlockHeader → outcome ModelsError SecuredHeader;
  sign_block : Block → outcome ModelsError SecureShareBlock;
  hash_of_nothing : Hash;
  genesis_public_key : PublicKey }.

Section init.
Context `{!SetIter BlockId, !SetIter OperationId, !SetIter EndorsementId, !KeyHash,
  Env : ConsensusEnv, !GenesisSigner}.
Implicit Types (s : ConsensusState).

Definition create_genesis_block (thread_number : N) : outcome ConsensusError SecureShareBlock :=
  header ← map_err ConsensusModelsError
    (sign_header (MkBlockHeader 0 None (MkSlot (last_start_period config) thread_number) []
                    hash_of_nothing [] []));
  map_err ConsensusModelsError (sign_block (MkBlock header [])).

Definition genesis_active_block (block : SecureShareBlock) : ActiveBlock :=
  MkActiveBlock (content_creator_address block) (id block) []
    (replicate (N.to_nat (thread_count config)) ∅) ∅ true
    (header_slot (header (content block))) (get_fitness (header (content block))) None.

(** The state of the genesis loop: the shared storage, the statuses and the ids. *)
Definition genesis_acc : Type := Shared * gmap BlockId BlockStatus * list BlockId.

Definition load_genesis_block (acc : genesis_acc) (thread : N)
    : outcome ConsensusError genesis_acc :=
  let '(sh, block_statuses, genesis_block_ids) := acc in
  block ← map_err (λ _, GenesisCreationError "genesis error") (create_genesis_block thread);
  let '(sh, storage) := store_block block sh (MkStorage ∅ ∅ ∅) in
  Ok (sh,
      <[id block := Active (genesis_active_block block) (SoBStorage storage)]> block_statuses,
      genesis_block_ids ++ [id block]).

Definition load_genesis (sh : Shared) : outcome ConsensusError genesis_acc :=
  foldM load_genesis_block (range (thread_count config)) (sh, ∅, []).

(** ** The state before initialisation *)

Definition start_state {E} (now : N) : outcome E ConsensusState :=
  desync ← expect_ok "stats_desync_detection_timespan"
    (Time.checked_mul (t0 config) (wrapping_mul u64_max (periods_per_cycle config) 2));
  Ok (MkConsensusState [] ∅ [MkClique ∅ 0 true] ∅ [] [] new_blocks_state [] ∅ [] ∅ ∅ now [] [] []
        (N.max desync (stats_timespan config)) desync ∅ ∅ ∅ []).

(** ** The shared state *)

(** [transition_map(&b, |_, _| Some(s))] *)
Definition load_status s (entry : BlockId * BlockStatus) : outcome ConsensusError ConsensusState :=
  let '(b, st) := entry in
  '(bs, _) ← transition_map (blocks_state s) b (λ _ m, Ok (Some st, m, tt));
  Ok (set_blocks_state bs s).

Definition set_genesis_hashes (v : list BlockId) s : ConsensusState :=
  MkConsensusState v (gi_head s) (max_cliques s) (active_index_without_ops s)
    (save_final_periods s) (latest_final_blocks_periods s) (blocks_state s) (best_parents s)
    (to_propagate s) (attack_attempts s) (new_final_blocks s) (new_stale_blocks s)
    (launch_time s) (final_block_stats s) (protocol_blocks s) (stale_block_stats s)
    (stats_history_timespan s) (stats_desync_detection_timespan s) (wishlist s)
    (prev_blockclique s) (nonfinal_active_blocks_per_slot s) (sent s).

(** No bootstrap: the graph has only the genesis blocks. *)
Definition init_from_genesis (genesis_block_ids : list BlockId)
    (block_statuses : gmap BlockId BlockStatus) (stats : list (N * Address * bool)) s
    : outcome ConsensusError ConsensusState :=
  let latest := (λ h, (h, 0)) <$> genesis_block_ids in
  let s := set_genesis_hashes genesis_block_ids
             (set_best_parents latest (set_latest_final_blocks_periods latest s)) in
  s ← foldM load_status (map_iter block_statuses) s;
  Ok (set_final_block_stats stats s).

(** The latest final block of each thread among the bootstrapped ones. *)
Definition note_latest_final (latest : list (BlockId * N)) (b : ActiveBlock)
    : list (BlockId * N) :=
  match latest !! N.to_nat (thread (ab_slot b)) with
  | Some v =>
      if v.2 <? period (ab_slot b)
      then <[N.to_nat (thread (ab_slot b)) := (ab_block_id b, period (ab_slot b))]> latest
      else latest
  | None => latest
  end.

(** [claim_parent_refs]: link the blocks with their parents. *)
Definition claim_parent_refs s : outcome ConsensusError ConsensusState :=
  foldM (λ s '(b, (slot, parents)), insert_parents_descendants b slot parents s)
    (omap (λ '(b, st), match st with
                       | Active a _ => Some (b, (ab_slot a, (ab_parents a).*1))
                       | _ => None
                       end) (map_iter (block_statuses (blocks_state s)))) s.

Definition init_from_graph (genesis_block_ids : list BlockId)
    (final_blocks : list ExportActiveBlock) (stats : list (N * Address * bool)) s
    : outcome ConsensusError ConsensusState :=
  final_blocks ← mapM (λ x, to_active_block x (thread_count config)) final_blocks;
  if existsb (λ '(b, _), negb (ab_is_final b)) final_blocks
  then Err (ContainerInconsistency "bootstrap final_blocks contains non-final block")
  else
    let latest := foldl note_latest_final ((λ h, (h, 0)) <$> genesis_block_ids) final_blocks.*1 in
    let s := set_latest_final_blocks_periods latest
               (set_best_parents latest (set_genesis_hashes genesis_block_ids s)) in
    s ← foldM load_status ((λ '(b, sb), (ab_block_id b, Active b sb)) <$> final_blocks) s;
    claim_parent_refs (set_final_block_stats stats s).

(** Notify execution of the blockclique and of all final blocks. *)
Definition notify_start {E} s : outcome E ConsensusState :=
  let finals := map_iter (get_all_final_blocks s) in
  let metadata := collect_map ((λ '(b, (_, md)), (b, md)) <$> finals) in
  let notify_finals := collect_map ((λ '(b, (slot, _)), (slot, b)) <$> finals) in
  clique ← get_blockclique s;
  '(metadata, blockclique) ← foldM (λ '(metadata, blockclique) b,
      '(a, sb) ← expect "active block missing from block_db" (get_full_active_block s b);
      Ok (<[b := MkExecutionBlockMetadata (ab_same_thread_parent_creator a)
                   match sb with SoBStorage st => Some st | SoBBlock _ => None end]> metadata,
          <[ab_slot a := b]> blockclique))
    (set_iter clique) (metadata, ∅);
  let s := set_prev_blockclique
             (collect_map ((λ '(slot, b), (b, slot)) <$> map_to_list blockclique)) s in
  Ok (send (BlockcliqueStatus notify_finals (Some blockclique) metadata) s).

(** ** The worker *)

Record ConsensusWorker : Type := MkConsensusWorker {
  cw_previous_slot : option Slot;
  cw_next_slot : Slot }.

(** The log of the time left to the restart of the network, which can overflow. *)
Definition check_restart_time : outcome TimeError unit :=
  if 0 <? last_start_period config then
    d ← Time.checked_mul (t0 config) (last_start_period config);
    _ ← Time.checked_add (genesis_timestamp config) d;
    Ok tt
  else Ok tt.

Definition genesis_stats : outcome ConsensusError (list (N * Address * bool)) :=
  mapM (λ thread,
      t ← map_err ConsensusModelsError
            (get_block_slot_timestamp (thread_count config) (t0 config)
               (genesis_timestamp config) (MkSlot (last_start_period config) thread));
      Ok (t, from_public_key genesis_public_key, false))
    (range (thread_count config)).

Definition new_worker (now : N) (estimate_instant : N → outcome TimeError unit)
    (init_graph : option (list ExportActiveBlock)) (sh : Shared) s
    : outcome ConsensusError (ConsensusWorker * Shared * ConsensusState) :=
  previous_slot ← expect_ok "Couldn't get the init slot consensus."
    (get_latest_block_slot_at_timestamp (thread_count config) (t0 config)
       (genesis_timestamp config) now);
  '(sh, block_statuses, genesis_block_ids) ← load_genesis sh;
  next_slot ← match previous_slot with
              | None => Ok (MkSlot 0 0)
              | Some p => map_err ConsensusModelsError (get_next_slot p (thread_count config))
              end;
  next_timestamp ← map_err ConsensusModelsError
    (get_block_slot_timestamp (thread_count config) (t0 config) (genesis_timestamp config)
       next_slot);
  _ ← map_err MassaTimeError (estimate_instant next_timestamp);
  _ ← map_err MassaTimeError check_restart_time;
  stats ← genesis_stats;
  s ← match init_graph with
      | Some final_blocks => init_from_graph genesis_block_ids final_blocks stats s
      | None => init_from_genesis genesis_block_ids block_statuses stats s
      end;
  s ← notify_start s;
  Ok (MkConsensusWorker previous_slot next_slot, sh, s).
End init.
