(* ===== verification/InitCorrect.v ===== *)
(** * The worker starts in a consistent state

    Without a bootstrap graph, [ConsensusWorker::new] never panics and leaves a
    state with the genesis blocks final, no block to examine, and the invariant
    of the block graph. *)

From S2P Require Import Prelude Slots Times Cliques Traversal Models Storage StorageRefs Blocks.
From S2P Require Import BlocksState ConsensusState Graph Verifications Process Invariant HeaderCheck.
From S2P Require Import Insertion Processing Prune Commands EntryPoints Init.

Open Scope N_scope.

Section init_correct.
Context `{!SetIter BlockId, !SetIter OperationId, !SetIter EndorsementId, !KeyHash,
  Env : ConsensusEnv, !GenesisSigner}.
Context (max_fit : N).
Implicit Types (s : ConsensusState) (b x : BlockId).
Local Notation tc := (thread_count config).
Local Notation statuses s := (block_statuses (blocks_state s)).

(** [new_verifiable] returns an error or a wrapper of the content it signs. *)
Record signer_ok : Prop := {
  sg_header : ∀ h, returns (λ r, content r = h) (λ _, True) (sign_header h);
  sg_block : ∀ blk, returns (λ r, content r = blk) (λ _, True) (sign_block blk) }.

(** The parameters of the configuration the start relies on. *)
Record start_config_ok : Prop := {
  sc_clock : clock_ok tc (t0 config) (genesis_timestamp config);
  sc_desync : t0 config * (wrapping_mul u64_max (periods_per_cycle config) 2) ≤ u64_max;
  sc_slots : last_start_period config * tc + tc ≤ u64_max }.

Context (Hsg : signer_ok) (Hcfg : start_config_ok).

(** Calls that only fail with an error value. *)
Definition safe {E A} (m : outcome E A) : Prop := returns (λ _, True) (λ _, True) m.

Lemma safe_bind {E A B} (m : outcome E A) (f : A → outcome E B) :
  safe m → (∀ a, safe (f a)) → safe (m ≫= f).
Proof using. intros Hm Hf. eapply returns_bind; [exact Hm|]. intros a _. apply Hf. Qed.
Lemma safe_then {E A B} (Q : B → Prop) (m : outcome E A) (f : A → outcome E B) :
  safe m → (∀ a, returns Q (λ _, True) (f a)) → returns Q (λ _, True) (m ≫= f).
Proof using. intros Hm Hf. eapply returns_bind; [exact Hm|]. intros a _. apply Hf. Qed.
Lemma safe_map_err {E E' A} (f : E → E') (m : outcome E A) : safe m → safe (map_err f m).
Proof using. by destruct m. Qed.
Lemma safe_ok_or {E A} (e : E) (o : option A) : safe (ok_or e o).
Proof using. by destruct o. Qed.
Lemma safe_Ok {E A} (a : A) : safe (@Ok E A a).
Proof using. done. Qed.
Lemma safe_mapM {E A B} (f : A → outcome E B) l : (∀ a, safe (f a)) → safe (mapM f l).
Proof using.
  intros Hf. induction l as [|a l IH]; [done|].
  apply (safe_bind (f a)); [done|]. intros b. by apply (safe_bind (mapM f l)).
Qed.
Local Hint Resolve safe_bind safe_map_err safe_ok_or safe_Ok safe_mapM : safe_db.

Lemma safe_get_next_slot p n : safe (get_next_slot p n).
Proof using. unfold get_next_slot. case_match; auto with safe_db. Qed.
Lemma safe_get_block_slot_timestamp n t g p : safe (get_block_slot_timestamp n t g p).
Proof using.
  unfold get_block_slot_timestamp, or_time_overflow, Time.checked_div_u64, Time.checked_mul,
    Time.checked_add. auto 12 with safe_db.
Qed.
Local Hint Resolve safe_get_next_slot safe_get_block_slot_timestamp : safe_db.

Lemma safe_check_restart_time : safe check_restart_time.
Proof using.
  unfold check_restart_time, Time.checked_mul, Time.checked_add. case_match; auto with safe_db.
Qed.
Lemma safe_genesis_stats : safe genesis_stats.
Proof using. unfold genesis_stats. auto 12 with safe_db. Qed.

Definition genesis_block_of (i : N) (blk : SecureShareBlock) : Prop :=
  header_slot (header (content blk)) = MkSlot (last_start_period config) i
  ∧ get_fitness (header (content blk)) = 1.

Lemma create_genesis_block_spec i :
  returns (genesis_block_of i) (λ _, True) (create_genesis_block i).
Proof using Hsg.
  unfold create_genesis_block. eapply returns_bind; [apply (returns_map_err _ (λ _, True)), (sg_header Hsg)|].
  intros h Hh. eapply returns_mono; [apply (returns_map_err _ (λ _, True)), (sg_block Hsg)|].
  intros b Hb. unfold genesis_block_of, header_slot, get_fitness. rewrite Hb. cbn. by rewrite Hh.
Qed.

(** The statuses of the genesis blocks. *)
Definition genesis_status (st : BlockStatus) : Prop :=
  ∃ i blk storage, i < tc ∧ genesis_block_of i blk
    ∧ st = Active (genesis_active_block blk) (SoBStorage storage).

Definition genesis_loaded (pre : list N) (acc : genesis_acc) : Prop :=
  map_Forall (λ _ st, genesis_status st) acc.1.2
  ∧ (size acc.1.2 ≤ length pre)%nat ∧ length acc.2 = length pre.

Lemma load_genesis_spec sh :
  returns (genesis_loaded (range tc)) (λ _, True) (load_genesis sh).
Proof using Hsg.
  unfold load_genesis. apply (returns_foldM genesis_loaded).
  - split_and!; [apply map_Forall_empty|apply Nat.eq_le_incl, map_size_empty|done].
  - intros pre i post [[sh' m] ids] Hl (H1 & H2 & H3). cbn [fst snd] in *.
    unfold load_genesis_block.
    eapply returns_bind; [apply (returns_map_err _ (λ _, True)), create_genesis_block_spec|].
    intros b Hb. destruct (store_block b sh' _) as [sh2 storage].
    apply range_split in Hl as [_ Hi]. cbn [returns]. unfold genesis_loaded. cbn [fst snd].
    rewrite !length_app. cbn [length]. split_and!; [| |lia].
    2:{ etransitivity; [apply Nat.eq_le_incl, map_size_insert|]. case_match; cbn [Datatypes.id]; lia. }
    apply map_Forall_insert_2; [|done]. by exists i, b, storage.
Qed.

(** Loading statuses of active blocks into a state that has only such. *)
Record genesis_statuses (k : nat) s : Prop := {
  gs_bs : bs_ok (blocks_state s);
  gs_seq : seq_ok (blocks_state s);
  gs_counter : sequence_counter (blocks_state s) ≤ N.of_nat k;
  gs_size : (size (statuses s) ≤ k)%nat;
  gs_genesis : map_Forall (λ _ st, genesis_status st) (statuses s) }.

Lemma load_status_spec k s b st :
  genesis_statuses k s → N.of_nat k + N.of_nat k + 1 < u64_max → genesis_status st →
  ∃ bs', load_status s (b, st) = Ok (set_blocks_state bs' s)
    ∧ genesis_statuses (S k) (set_blocks_state bs' s).
Proof using.
  intros [H1 H2 H3 H4 H5] Hk Hst. unfold load_status.
  pose proof Hst as (i & blk & storage & _ & _ & Heq).
  edestruct (transition_map_spec (E := ConsensusError) (blocks_state s) b
    (λ _ m, Ok (Some st, m, tt)) (Some st) (delete b (statuses s)) tt) as (bs' & -> & Ht);
    [done|apply active_edit_refl| |lia|].
  { destruct (statuses s !! b) as [st0|] eqn:Hb; cbn.
    - destruct (map_Forall_lookup_1 _ _ _ _ H5 Hb) as (? & ? & ? & _ & _ & ->). by subst st.
    - by subst st. }
  cbn [mbind outcome_bind]. exists bs'. split; [done|].
  pose proof (registered_size b (Some st) bs' s Ht) as Hsz.
  pose proof (tr_counter1 _ _ _ _ _ Ht) as Hc. subst st.
  split; cbn.
  - by apply (tr_ok _ _ _ _ _ Ht).
  - by apply (tr_seq _ _ _ _ _ Ht).
  - specialize (Hc ltac:(done)). lia.
  - lia.
  - intros x st' Hx. destruct (decide (x = b)) as [->|Hne].
    + destruct (tr_new _ _ _ _ _ Ht) as [n Hn]. rewrite Hn in Hx. cbn in Hx.
      by injection Hx as <-.
    + destruct (tr_other _ _ _ _ _ Ht x Hne) as [Ho|[Hw _]]; rewrite ?lookup_delete_ne in * by done.
      * rewrite Ho in Hx. by apply (map_Forall_lookup_1 _ _ _ _ H5 Hx).
      * unfold is_waiting in Hw. rewrite lookup_delete_ne in Hw by done.
        destruct (statuses s !! x) as [st0|] eqn:Hx0; [|done].
        destruct (map_Forall_lookup_1 _ _ _ _ H5 Hx0) as (? & ? & ? & _ & _ & ->). done.
Qed.

(** The fields the graph starts with. *)
Record fresh_graph s : Prop := {
  fg_gi : gi_head s = ∅;
  fg_cliques : max_cliques s = [MkClique ∅ 0 true];
  fg_latest : length (latest_final_blocks_periods s) = N.to_nat tc }.

Lemma genesis_status_at k s x a :
  genesis_statuses k s → get_active s x = Some a →
  ∃ i blk, i < tc ∧ genesis_block_of i blk ∧ a = genesis_active_block blk.
Proof using.
  intros Hg [sb Hx]%get_active_Some.
  destruct (map_Forall_lookup_1 _ _ _ _ (gs_genesis _ _ Hg) Hx) as (i & blk & st & ? & ? & Heq).
  injection Heq as -> ->. eauto.
Qed.

Lemma genesis_idle k s :
  genesis_statuses k s → fresh_graph s → 1 ≤ max_fit → idle max_fit s.
Proof using Hsg Hcfg.
  intros Hg [F1 F2 F3] Hf.
  assert (∀ x, pending_view (statuses s) x = None) as Hp.
  { intros x. unfold pending_view. destruct (statuses s !! x) as [st|] eqn:Hx; [|done].
    destruct (map_Forall_lookup_1 _ _ _ _ (gs_genesis _ _ Hg) Hx) as (? & ? & ? & _ & _ & ->). done. }
  split; [|by intros x (st & Hx & _); rewrite Hp in Hx].
  split; [split; [split|]| | |].
  - apply Hg.
  - apply Hg.
  - rewrite F1. apply graph_ok_empty.
  - intros x. rewrite F1, dom_empty_L. split; [set_solver|]. intros [(a & Ha & Hn) _].
    destruct (genesis_status_at k s x a Hg Ha) as (? & ? & _ & _ & ->). done.
  - intros x a Ha. destruct (genesis_status_at k s x a Hg Ha) as (i & blk & Hi & [Hs Hfit] & ->).
    pose proof (sc_slots Hcfg) as Hsl. unfold genesis_active_block.
    split; cbn; rewrite ?Hs, ?Hfit; cbn; [done|unfold slot_index; cbn; lia
      |by rewrite length_replicate|done|lia|].
    intros j c y p [-> _]%lookup_replicate Hy. by rewrite lookup_empty in Hy.
  - done.
  - rewrite F1, F2. split; [done| | |done|].
    + intros c ->%list_elem_of_singleton. split; set_solver.
    + intros i j C D [-> _]%list_lookup_singleton_Some [-> _]%list_lookup_singleton_Some. done.
    + intros c ->%list_elem_of_singleton. unfold weight. cbn. by rewrite set_sum_empty.
  - intros x st Hx. by rewrite Hp in Hx.
  - intros x a Ha. destruct (genesis_status_at k s x a Hg Ha) as (i & blk & _ & [_ Hfit] & ->).
    cbn. by rewrite Hfit.
  - intros x a blk Hx.
    by destruct (map_Forall_lookup_1 _ _ _ _ (gs_genesis _ _ Hg) Hx) as (? & ? & ? & _ & _ & ?).
Qed.

Lemma init_from_genesis_spec ids (m : Statuses) stats s :
  genesis_statuses 0 s → gi_head s = ∅ → max_cliques s = [MkClique ∅ 0 true] →
  map_Forall (λ _ st, genesis_status st) m → (size m ≤ N.to_nat tc)%nat →
  length ids = N.to_nat tc →
  ∃ s', init_from_genesis ids m stats s = Ok s'
    ∧ genesis_statuses (size m) s' ∧ fresh_graph s'.
Proof using Hsg Hcfg.
  intros Hg Hgi Hcl Hm Hsz Hids. unfold init_from_genesis. set (s1 := set_genesis_hashes _ _).
  destruct (foldM_total (λ pre s', genesis_statuses (length pre) s' ∧ fresh_graph s')
    load_status (map_iter m) s1) as (s' & -> & Hs').
  - split; [by destruct Hg|]. split; cbn; [done|done|by rewrite length_fmap].
  - intros pre [b st] post s' Hl [Hg' Hf'].
    destruct (load_status_spec (length pre) s' b st Hg') as (bs' & Hbs' & Hok).
    + assert (length pre ≤ length (map_iter m))%nat as Hlen by (rewrite Hl, length_app; lia).
      rewrite length_map_iter in Hlen. pose proof (sc_clock Hcfg) as ([_ H8] & _).
      unfold u8_max, u64_max in *. lia.
    + eapply (map_Forall_lookup_1 _ m b); [done|]. apply elem_of_map_iter. rewrite Hl. set_solver.
    + exists (set_blocks_state bs' s'). split; [done|]. rewrite length_app, Nat.add_comm.
      split; [done|]. by destruct Hf'.
  - cbn [mbind outcome_bind]. rewrite length_map_iter in Hs'. destruct Hs' as [[] []].
    eexists. split; [done|]. by split.
Qed.

Lemma set_iter_empty : set_iter (∅ : gset BlockId) = [].
Proof using. apply Permutation_nil_r. rewrite set_iter_perm. by rewrite elements_empty. Qed.

Lemma notify_start_spec {E} s :
  fresh_graph s → ∃ s', notify_start s = @Ok E _ s' ∧ same_core s s'.
Proof using.
  intros [_ Hc _].
  assert (get_blockclique s = @Ok E _ ∅) as Hb.
  { unfold get_blockclique, find_blockclique. by rewrite Hc. }
  unfold notify_start. rewrite Hb. cbn [mbind outcome_bind]. rewrite set_iter_empty.
  cbn [foldM mbind outcome_bind]. eexists. split; [done|]. by split.
Qed.

Lemma start_state_spec {E} now s0 :
  @start_state _ E now = Ok s0 →
  genesis_statuses 0 s0 ∧ gi_head s0 = ∅ ∧ max_cliques s0 = [MkClique ∅ 0 true].
Proof using.
  unfold start_state. intros Hs0. apply outcome_bind_Ok in Hs0 as (d & _ & Hs0).
  injection Hs0 as <-. split_and!; [|done|done].
  split; cbn; [apply new_blocks_state_ok| |lia|done|apply map_Forall_empty].
  split; intros *; unfold number_of; cbn; by rewrite lookup_empty.
Qed.

(** A start that does not fail is consistent, and no start panics. *)
Lemma new_worker_spec now ei sh s0 :
  @start_state _ ConsensusError now = Ok s0 → (∀ t, returns (λ _, True) (λ _, True) (ei t)) →
  1 ≤ max_fit →
  returns (λ '(_, _, s), idle max_fit s ∧ sequence_counter (blocks_state s) ≤ tc
                         ∧ N.of_nat (size (statuses s)) ≤ tc)
    (λ _, True) (new_worker now ei None sh s0).
Proof using Hsg Hcfg.
  intros (Hg0 & Hgi0 & Hcl0)%start_state_spec Hei Hf. unfold new_worker.
  rewrite (get_latest_block_slot_at_timestamp_eq _ _ _ (sc_clock Hcfg)).
  cbn [expect_ok mbind outcome_bind].
  eapply returns_bind; [apply load_genesis_spec|]. intros [[sh' m] ids] (G1 & G2 & G3).
  cbn [fst snd] in *. rewrite length_range in G2, G3.
  apply safe_then; [case_match; auto with safe_db|]. intros next.
  apply safe_then; [auto with safe_db|]. intros ts.
  apply safe_then; [apply safe_map_err, Hei|]. intros _.
  apply safe_then; [apply safe_map_err, safe_check_restart_time|]. intros _.
  apply safe_then; [apply safe_genesis_stats|]. intros stats.
  destruct (init_from_genesis_spec ids m stats s0) as (s1 & -> & Hg1 & Hf1); [done..|].
  cbn [mbind outcome_bind].
  destruct (@notify_start_spec ConsensusError s1 Hf1) as (s2 & -> & Hc). cbn [mbind outcome_bind].
  cbn. pose proof (genesis_idle _ _ Hg1 Hf1 Hf) as Hid. split; [by eapply same_core_idle|].
  destruct Hc as [-> _ _ _ _]. destruct Hg1. lia.
Qed.
End init_correct.
