(* ===== verification/Samples.v ===== *)
(** * A two-thread network

    A concrete configuration, selector and block index, on which the theorems
    about consensus are evaluated. *)

From S2P Require Import Prelude Slots Times Cliques Traversal Models Storage StorageRefs Blocks.
From S2P Require Import BlocksState ConsensusState Graph Verifications Process Invariant HeaderCheck.
From S2P Require Import Insertion Processing Prune Commands EntryPoints Init InitCorrect.

Open Scope N_scope.

#[export] Instance sample_iter {K} `{Countable K} : SetIter K := elements_iter.
#[export] Instance sample_key_hash : KeyHash := λ key, key.

Definition sample_config : ConsensusConfig :=
  MkConsensusConfig 1000 16000 2 100 100 100 1000 64 128 10 20 60000 100 0.

Definition sample_address : Address := User (UserAddressV0 0).

(** A block of one thread over two parents, with no operation. *)
Definition sample_child (h : N) (s : Slot) (parents : list BlockId) : SecureShareBlock :=
  MkSecureShare
    (MkBlock (MkSecureShare (MkBlockHeader 0 None s parents 0 [] []) [] (SignatureV0 0)
                (PublicKeyV0 0) sample_address (BlockIdV0 h)) [])
    [] (SignatureV0 0) (PublicKeyV0 0) sample_address (BlockIdV0 h).

Definition genesis0 : BlockId := BlockIdV0 100.
Definition genesis1 : BlockId := BlockIdV0 101.
Definition block1 : SecureShareBlock := sample_child 1 (MkSlot 1 0) [genesis0; genesis1].
Definition block2 : SecureShareBlock := sample_child 2 (MkSlot 1 1) [BlockIdV0 1; genesis1].

Definition sample_env : ConsensusEnv := {|
  config := sample_config;
  get_producer := λ _, Some sample_address;
  get_selection := λ _, Some (MkSelection [sample_address] sample_address);
  read_blocks := BlockIndex.insert block2 (BlockIndex.insert block1 (MkBlockIndexes ∅ ∅ ∅ ∅ ∅));
  accepts := λ _ _, true |}.
#[export] Existing Instance sample_env.

#[export] Instance sample_signer : GenesisSigner := {|
  sign_header h := Ok (MkSecureShare h [] (SignatureV0 0) (PublicKeyV0 0) sample_address
                         (BlockIdV0 (100 + thread (h_slot h))));
  sign_block b := Ok (MkSecureShare b [] (SignatureV0 0) (PublicKeyV0 0) sample_address
                        (id (header b)));
  hash_of_nothing := 0;
  genesis_public_key := PublicKeyV0 0 |}.

Definition sample_start : ConsensusState :=
  match @start_state _ ConsensusError 0 with Ok s => s | _ =>
    MkConsensusState [] ∅ [] ∅ [] [] new_blocks_state [] ∅ [] ∅ ∅ 0 [] [] [] 0 0 ∅ ∅ ∅ [] end.

Definition sample_instant (t : N) : outcome TimeError unit := Ok tt.

(** The state of the node after its start. *)
Definition sample_state : ConsensusState :=
  match new_worker 0 sample_instant None create_root.1 sample_start with
  | Ok (_, _, s) => s
  | _ => sample_start
  end.

Lemma sample_signer_ok : signer_ok.
Proof. by split. Qed.
Lemma sample_config_ok : start_config_ok.
Proof. split; vm_compute; intuition congruence. Qed.

Lemma sample_started :
  returns (λ '(_, _, s), s = sample_state) (λ _, False)
    (new_worker 0 sample_instant None create_root.1 sample_start).
Proof. unfold sample_state. vm_compute. reflexivity. Qed.

Lemma sample_state_ok :
  idle 10 sample_state ∧ sequence_counter (blocks_state sample_state) ≤ 2
  ∧ N.of_nat (size (block_statuses (blocks_state sample_state))) ≤ 2.
Proof.
  pose proof (new_worker_spec 10 sample_signer_ok sample_config_ok 0 sample_instant create_root.1
    sample_start eq_refl ltac:(done) ltac:(done)) as H.
  pose proof sample_started as Hs. revert H Hs.
  destruct (new_worker 0 sample_instant None create_root.1 sample_start) as [[[w sh] s]| | |]; try done.
  cbn. by intros H ->.
Qed.

Lemma sample_clock c : c = None ∨ c = Some (MkSlot 1 1) → clock_current c.
Proof. intros [->| ->]; (split; [apply sample_config_ok|]); [done|]. intros c' [= <-]. by vm_compute. Qed.

(** One entry point and a thousand more sequence numbers. *)
Lemma sample_ready c : c = None ∨ c = Some (MkSlot 1 1) → ready 10 1000 c sample_state.
Proof.
  intros Hc. destruct sample_state_ok as (H1 & H2 & H3). split; [done|by apply sample_clock|unfold u64_max; lia|].
  unfold room. pose proof (entry_room_mono
    (N.of_nat (S (size (block_statuses (blocks_state sample_state))))) 3 ltac:(lia)) as Hm.
  assert (entry_room 3 < 100000) by (by vm_compute). unfold u64_max. lia.
Qed.

Lemma sample_stored : stored_ok 10 (BlockIdV0 1) (MkSlot 1 0) block1.
Proof.
  split; [vm_compute; reflexivity|]. split; [|split; [by vm_compute|reflexivity]].
  split; [by vm_compute|reflexivity| |by vm_compute]. intros sel e _ He. by apply elem_of_nil in He.
Qed.
