(* ===== verification/Consensus.v ===== *)
(** * What consensus guarantees

    The theorems about the consensus worker, each with an instance on the
    two-thread network of [Samples]. *)

From S2P Require Import Prelude Slots Times Cliques Traversal Models Storage StorageRefs Blocks.
From S2P Require Import BlocksState ConsensusState Graph Verifications Process Invariant HeaderCheck.
From S2P Require Import Insertion Processing Prune Commands EntryPoints Init InitCorrect.
From S2P Require Import Samples.

Open Scope N_scope.

(** ** The worker *)

(** C36. A worker that starts without a bootstrap graph never panics, and when it
    starts its state is consistent: the genesis blocks are final, the clique
    list, the incompatibility graph, the links and the status indexes satisfy
    the invariant, and no block waits to be examined. *)
Theorem worker_start_consistent
    `{!SetIter BlockId, !SetIter OperationId, !SetIter EndorsementId, !KeyHash,
      Env : ConsensusEnv, !GenesisSigner} (max_fit now : N) estimate_instant sh s0 :
  signer_ok → start_config_ok → 1 ≤ max_fit →
  @start_state _ ConsensusError now = Ok s0 →
  (∀ t, returns (λ _, True) (λ _, True) (estimate_instant t)) →
  returns (λ '(_, _, s), idle max_fit s) (λ _, True)
    (new_worker now estimate_instant None sh s0).
Proof.
  intros Hsg Hcfg Hf Hs0 Hei. eapply returns_mono; [by apply new_worker_spec|].
  by intros [[w sh'] s] [Hid _].
Qed.

Lemma worker_start_consistent_witness :
  ∃ w sh s, new_worker 0 sample_instant None create_root.1 sample_start = Ok (w, sh, s) ∧ idle 10 s.
Proof.
  pose proof (worker_start_consistent 10 0 sample_instant create_root.1 sample_start
    sample_signer_ok sample_config_ok ltac:(done) eq_refl ltac:(done)) as H.
  pose proof sample_started as Hs. revert H Hs.
  destruct (new_worker 0 sample_instant None create_root.1 sample_start)
    as [[[w sh] s]| | |]; [|done..].
  intros H _. by exists w, sh, s.
Defined.

(** C2. On a consistent node every command of the other modules returns (a
    refused message is an error, not a panic) in a consistent state, in which no
    block has arrived unexamined or waits for satisfied dependencies; no final
    block is undone and the latest final periods do not decrease.  The header of a
    registered block is well-formed, sequence numbers and fitness have room, and
    a block marked invalid is not one consensus has made active: that command
    discards any block, final ones included. *)
Theorem command_total `{!SetIter BlockId, !KeyHash, Env : ConsensusEnv} (max_fit k : N)
    command c now1 now2 s :
  idle max_fit s → affordable max_fit c k s → message_ok max_fit command →
  (∀ b h, command = MarkInvalidBlock b h → get_active s b = None) →
  ∃ s', state_after (manage_command command c now1 now2 s) = @Ok unit _ s'
    ∧ entry_ok max_fit k s s'.
Proof.
  intros Hid Ha Hc Hm. apply returns_state_after, manage_command_spec; [done..|].
  destruct command; [done|done|]. by eapply Hm.
Qed.

Lemma sample_affordable c :
  c = None ∨ c = Some (MkSlot 1 1) → affordable 10 c 1000 sample_state.
Proof. intros Hc. by destruct (sample_ready c Hc) as [_ H1 H2 H3]. Qed.

Lemma command_total_witness :
  ∃ s', state_after (manage_command (RegisterBlock (BlockIdV0 1) (MkSlot 1 0) (MkStorage ∅ ∅ ∅) false)
                       (Some (MkSlot 1 1)) 5 6 sample_state) = @Ok unit _ s'
    ∧ entry_ok 10 1000 sample_state s'.
Proof.
  apply (command_total 10 1000).
  - apply sample_state_ok.
  - apply sample_affordable. by right.
  - exists block1. apply sample_stored.
  - done.
Defined.

(** The last condition of [command_total] is needed: the command discards a
    final block. *)
Lemma mark_invalid_discards_final :
  (ab_is_final <$> get_active sample_state genesis0) = Some true
  ∧ match (mark_invalid_block genesis0 (header (content block1)) sample_state : outcome unit _) with
    | Ok s => get_active s genesis0 = None
    | _ => False
    end.
Proof. split; vm_compute; reflexivity. Qed.

(** C26. A slot tick on a consistent node returns in a consistent state, undoes
    no final block, and examines the blocks whose time has come: afterwards a
    block still waits for its slot only if the slot is after the tick, or if the
    selector does not know the producer or the endorsers of the slot. *)
Theorem slot_tick_total `{!SetIter BlockId, !KeyHash, Env : ConsensusEnv} (max_fit k : N)
    slot now1 now2 now3 s :
  idle max_fit s → affordable max_fit (Some slot) k s →
  ∃ s', state_after (slot_tick slot now1 now2 now3 s) = @Ok unit _ s'
    ∧ entry_ok max_fit k s s'
    ∧ ∀ b hb, block_statuses (blocks_state s') !! b = Some (WaitingForSlot hb) →
        slot_lt slot (get_slot hb) = true
        ∨ ¬ (get_producer (get_slot hb) ≠ None ∧ get_selection (get_slot hb) ≠ None).
Proof.
  intros Hid Ha.
  destruct (@returns_state_after unit _ _ (slot_tick_spec max_fit k slot now1 now2 now3 s Hid Ha))
    as (s' & Hs' & He & Ho). exists s'. split_and!; [done..|]. intros b hb Hb.
  destruct (slot_lt slot (get_slot hb)) eqn:Hlt; [by left|right]. intros Hd.
  apply (Ho b). exists (WaitingForSlot hb). unfold pending_view. by rewrite Hb.
Qed.

(** A block registered before its slot, which a tick of the slot makes active. *)
Definition sample_early : ConsensusState :=
  match register_block (BlockIdV0 1) (MkSlot 1 0) None (MkStorage ∅ ∅ ∅) false 5 sample_state with
  | Ok s => s
  | _ => sample_state
  end.

Lemma sample_early_ok :
  idle 10 sample_early ∧ affordable 10 (Some (MkSlot 1 1)) 0 sample_early.
Proof.
  destruct (register_block_spec 10 1000 (BlockIdV0 1) (MkSlot 1 0) None
    (MkStorage ∅ ∅ ∅) false 5 sample_state block1) as (s' & Hs' & [He _ _ _]).
  { apply sample_ready. by left. } { apply sample_stored. }
  split; [unfold sample_early; by rewrite Hs'|].
  split; [apply sample_clock; by right|vm_compute; discriminate|vm_compute; reflexivity].
Qed.

Definition is_waiting_for_slot (st : option BlockStatus) : bool :=
  match st with Some (WaitingForSlot _) => true | _ => false end.

Lemma slot_tick_total_witness :
  is_waiting_for_slot (block_statuses (blocks_state sample_early) !! BlockIdV0 1) = true
  ∧ ∃ s', state_after (slot_tick (MkSlot 1 1) 5 6 7 sample_early) = @Ok unit _ s'
      ∧ entry_ok 10 0 sample_early s'.
Proof.
  split; [vm_compute; reflexivity|].
  destruct (slot_tick_total 10 0 (MkSlot 1 1) 5 6 7 sample_early) as (s' & Hs' & He & _);
    [apply sample_early_ok..|].
  exists s'. split; [exact Hs'|exact He].
Defined.

(** C1. Finality is permanent: in every run of commands and slot ticks from a
    consistent node, every call returns, the node stays consistent, a block that
    was final stays final, and the latest final period of a thread never
    decreases.  The conditions on the run are those of the calls, each in the
    state it finds: well-formed messages, room for sequence numbers and fitness,
    and no [MarkInvalidBlock] of a block that is active. *)
Theorem finality_is_permanent `{!SetIter BlockId, !KeyHash, Env : ConsensusEnv} (max_fit : N) evs s :
  idle max_fit s →
  (∀ pre ev post s1, evs = pre ++ ev :: post → worker_run pre s = @Ok unit _ s1 →
     affordable max_fit (event_slot ev) 0 s1
     ∧ ∀ command, event_command ev = Some command →
         message_ok max_fit command
         ∧ ∀ b h, command = MarkInvalidBlock b h → get_active s1 b = None) →
  ∃ s', worker_run evs s = @Ok unit _ s' ∧ idle max_fit s'
  ∧ (∀ b a, get_active s b = Some a → ab_is_final a = true →
       ∃ a', get_active s' b = Some a' ∧ ab_is_final a' = true)
  ∧ ∀ i p, latest_final_blocks_periods s !! i = Some p →
       ∃ q, latest_final_blocks_periods s' !! i = Some q ∧ p.2 ≤ q.2.
Proof.
  intros Hid Hevs. destruct (worker_run_ok max_fit evs s Hid) as (s' & Hs' & Hid' & [Hf Hl]).
  { intros pre ev post s1 He Hs1. destruct (Hevs pre ev post s1 He Hs1) as [Ha Hc].
    split; [done| |]; intros command Hcmd; destruct (Hc command Hcmd) as [Hm Hk]; [done|].
    destruct command; [done|done|]. by eapply Hk. }
  by exists s'.
Qed.

(** A block registered early, the tick of its slot, a command on a block that
    never arrived. *)
Definition sample_events : list WorkerEvent :=
  [CommandReceived (RegisterBlock (BlockIdV0 1) (MkSlot 1 0) (MkStorage ∅ ∅ ∅) false) None 5 6;
   SlotReached (MkSlot 1 1) 5 6 7;
   CommandReceived (MarkInvalidBlock (BlockIdV0 2) (header (content block2))) (Some (MkSlot 1 1)) 8 9].

Definition affordable_check (s : ConsensusState) : bool :=
  bool_decide (10 * N.of_nat (S (size (block_statuses (blocks_state s)))) ≤ u64_max)
  && bool_decide (sequence_counter (blocks_state s)
      + (0 + entry_room (N.of_nat (S (size (block_statuses (blocks_state s))))))
      + N.of_nat (size (block_statuses (blocks_state s))) < u64_max).

Lemma affordable_checked c s :
  c = None ∨ c = Some (MkSlot 1 1) → affordable_check s = true → affordable 10 c 0 s.
Proof.
  unfold affordable_check. rewrite andb_true_iff, !bool_decide_eq_true. intros Hc [Hf Hr].
  split; [by apply sample_clock|exact Hf|exact Hr].
Qed.

Definition sample_after (n : nat) : ConsensusState :=
  match (worker_run (take n sample_events) sample_state : outcome unit _) with
  | Ok s => s
  | _ => sample_state
  end.

Lemma finality_is_permanent_witness :
  ∃ s', worker_run sample_events sample_state = @Ok unit _ s'
    ∧ ∃ a', get_active s' genesis0 = Some a' ∧ ab_is_final a' = true.
Proof.
  destruct (finality_is_permanent 10 sample_events sample_state (proj1 sample_state_ok))
    as (s' & Hs' & _ & Hf & _).
  - intros pre ev post s1 Hevs Hs1.
    assert (s1 = sample_after (length pre)) as ->.
    { unfold sample_after. rewrite Hevs, take_app_length. by rewrite Hs1. }
    clear Hs1. destruct pre as [|e1 [|e2 [|e3 pre]]]; cbn [length].
    + injection Hevs as <- _.
      split; [apply affordable_checked; [by left|vm_compute; reflexivity]|].
      intros command [= <-]. split; [exists block1; apply sample_stored|discriminate].
    + injection Hevs as _ <- _.
      split; [apply affordable_checked; [by right|vm_compute; reflexivity]|discriminate].
    + injection Hevs as _ _ <- _.
      split; [apply affordable_checked; [by right|vm_compute; reflexivity]|].
      intros command [= <-]. split; [exact I|]. intros b h [= <- _]. vm_compute. reflexivity.
    + injection Hevs as _ _ _ Hevs. by destruct pre.
  - exists s'. split; [exact Hs'|]. eapply Hf; vm_compute; reflexivity.
Defined.

(** C25. The processing loop ends by itself within its fuel, never fails, and
    leaves no block [Incoming] and none that waits for satisfied dependencies. *)
Theorem rec_process_terminates `{!SetIter BlockId, !KeyHash, Env : ConsensusEnv} (max_fit k : N)
    to_ack c s :
  node_ok max_fit s → clock_current c →
  max_fit * N.of_nat (size (block_statuses (blocks_state s))) ≤ u64_max →
  room (k + run_room to_ack s) s →
  (∀ x, must_process s x → ∃ slot, (slot, x) ∈ to_ack) →
  ∃ s', rec_process to_ack c s = @Ok unit _ s'
    ∧ node_ok max_fit s' ∧ finality_kept s s' ∧ (∀ x, ¬ must_process s' x)
    ∧ ∀ x hb, block_statuses (blocks_state s') !! x ≠ Some (Incoming hb).
Proof.
  intros Hok Hc Hw Hr Hq.
  destruct (@rec_process_spec _ _ _ max_fit unit None k to_ack c s (due_by_none c) Hok Hc Hw Hr Hq)
    as (s' & -> & [H1 H2 _ _ H5]).
  exists s'. split_and!; [done..|]. intros x hb Hx. apply (H5 x). exists (Incoming hb).
  unfold pending_view. by rewrite Hx.
Qed.

Lemma rec_process_terminates_witness :
  ∃ s', rec_process (due_blocks (MkSlot 1 1) sample_state) (Some (MkSlot 1 1)) sample_state
          = @Ok unit _ s'
    ∧ ∀ x, ¬ must_process s' x.
Proof.
  destruct (sample_ready (Some (MkSlot 1 1)) (or_intror eq_refl)) as [Hid Hc Hf Hr].
  destruct (rec_process_terminates 10 1000 (due_blocks (MkSlot 1 1) sample_state)
    (Some (MkSlot 1 1)) sample_state) as (s' & Hs' & _ & _ & Hd & _).
  - apply Hid.
  - done.
  - nia.
  - pose proof (run_room_bound (due_blocks (MkSlot 1 1) sample_state) sample_state
      (S (size (block_statuses (blocks_state sample_state)))) ltac:(lia)
      ltac:(pose proof (due_blocks_size 10 (MkSlot 1 1) sample_state (id_ok _ _ Hid)); lia)).
    unfold room in *. lia.
  - intros x Hx. by destruct (id_done _ _ Hid x).
  - by exists s'.
Defined.

(** ** Header verification *)

(** C24. On a consistent node the verification of a header never panics, never
    fails and never runs out of fuel.  It accepts a header only when its slot is
    new and reached, its parents are active blocks of the right threads before
    it, no parent knows a later block of a thread than the parent listed for it,
    the endorsements are by the drawn addresses, and the incompatibilities it
    reports are those of the parents together with the descendants of the blocks
    it conflicts with, all of them non-final and none of them a parent; otherwise
    it waits only for the slot or for parents that are not active. *)
Theorem check_header_correct `{!SetIter BlockId, Env : ConsensusEnv} s h c :
  cs_base ∅ s → header_ok h → current_ok c →
  ∃ o, check_header s h c = @Ok unit _ o ∧ proceeds s h c o.
Proof. apply check_header_spec. Qed.

Lemma check_header_correct_witness :
  ∃ parents inc n fit,
    check_header sample_state (header (content block1)) (Some (MkSlot 1 1))
      = @Ok unit _ (Proceed parents inc n fit)
    ∧ proceeds sample_state (header (content block1)) (Some (MkSlot 1 1))
        (Proceed parents inc n fit).
Proof.
  assert (check_header sample_state (header (content block1)) (Some (MkSlot 1 1))
    = @Ok unit _ (Proceed [(genesis0, 0); (genesis1, 0)] ∅ 0 1)) as Hc by (vm_compute; reflexivity).
  destruct (check_header_correct sample_state (header (content block1)) (Some (MkSlot 1 1)))
    as (o & Ho & Hp).
  - apply sample_state_ok.
  - apply sample_stored.
  - apply clock_current_ok, sample_clock. by right.
  - rewrite Hc in Ho. injection Ho as <-. by eexists _, _, _, _.
Defined.

(** ** Cliques and finality *)

(** C40. The blockclique is a clique of greatest fitness, the sum of the ids
    breaking ties: the computation never fails, scores each clique by the total
    fitness of its blocks, and selects one that no other clique beats. *)
Theorem blockclique_is_heaviest `{!SetIter BlockId, Env : ConsensusEnv} s :
  max_cliques s ≠ [] → fitness_pos s →
  (∀ c, c ∈ max_cliques s → all_active s (block_ids c) ∧ weight s (block_ids c) ≤ u64_max) →
  ∃ i c, max_cliques s !! i = Some c
    ∧ compute_fitness_find_blockclique s = Ok (i, set_max_cliques (scored_cliques s i) s)
    ∧ ∀ c', c' ∈ max_cliques s →
        weight s (block_ids c') ≤ weight s (block_ids c)
        ∧ (weight s (block_ids c') = weight s (block_ids c) →
           id_sum (block_ids c) ≤ id_sum (block_ids c')).
Proof.
  intros H1 H2 H3. destruct (compute_fitness_spec s H1 H2 H3) as (i & c & Hi & Hc & Hmax).
  exists i, c. split_and!; [done..|]. intros c' Hc'. specialize (Hmax c' Hc').
  unfold fitness_lt, clique_score in Hmax. cbn in Hmax.
  apply orb_false_iff in Hmax as [Hlt%N.ltb_ge Hid]. split; [done|]. intros Heq.
  rewrite Heq, N.eqb_refl in Hid. cbn in Hid. apply Z.ltb_ge in Hid. lia.
Qed.

(** The state once the first block is registered: its only clique is that block. *)
Definition sample_state1 : ConsensusState :=
  match register_block (BlockIdV0 1) (MkSlot 1 0) (Some (MkSlot 1 1)) (MkStorage ∅ ∅ ∅) false 5
          sample_state with
  | Ok s => s
  | _ => sample_state
  end.

Lemma sample_state1_ok : entry_ok 10 1000 sample_state sample_state1.
Proof.
  destruct (register_block_spec 10 1000 (BlockIdV0 1) (MkSlot 1 0) (Some (MkSlot 1 1))
    (MkStorage ∅ ∅ ∅) false 5 sample_state block1) as (s' & Hs' & He).
  - apply sample_ready. by right.
  - apply sample_stored.
  - unfold sample_state1. by rewrite Hs'.
Qed.

(** A consistent node meets the conditions of the theorems below. *)
Lemma idle_cliques_active `{!SetIter BlockId, !KeyHash, Env : ConsensusEnv} (max_fit : N) s c :
  idle max_fit s → max_fit * N.of_nat (size (block_statuses (blocks_state s))) ≤ u64_max →
  c ∈ max_cliques s → all_active s (block_ids c) ∧ weight s (block_ids c) ≤ u64_max.
Proof.
  intros [Hok _] Hw Hc. pose proof (no_inv _ _ Hok) as [Hb Hcl].
  assert (all_active s (block_ids c)) as Ha.
  { intros b Hbc. destruct (cliques_active s ∅ (block_ids c) Hb) with b as (a & Ha & _);
      [by apply Hcl|done|by exists a]. }
  split; [done|]. etrans; [by apply (weight_bound max_fit), Ha; apply Hok|done].
Qed.

Lemma blockclique_is_heaviest_witness :
  block_ids <$> max_cliques sample_state1 = [{[BlockIdV0 1]}]
  ∧ ∃ i c, max_cliques sample_state1 !! i = Some c
    ∧ compute_fitness_find_blockclique sample_state1
      = Ok (i, set_max_cliques (scored_cliques sample_state1 i) sample_state1)
    ∧ ∀ c', c' ∈ max_cliques sample_state1 →
        weight sample_state1 (block_ids c') ≤ weight sample_state1 (block_ids c)
        ∧ (weight sample_state1 (block_ids c') = weight sample_state1 (block_ids c) →
           id_sum (block_ids c) ≤ id_sum (block_ids c')).
Proof.
  split; [vm_compute; reflexivity|].
  pose proof sample_state1_ok as [Hid _ Hs _]. destruct sample_state_ok as (_ & _ & Hs0).
  apply blockclique_is_heaviest.
  - vm_compute. congruence.
  - intros b a Ha.
    apply (bo_fitness _ _ _ (ci_blocks _ _ (proj1 (no_inv _ _ (id_ok _ _ Hid))) b a Ha)).
  - intros c. apply (idle_cliques_active 10); [done|]. unfold u64_max. lia.
Defined.

(** A block becomes final exactly when every maximal clique contains it and, in
    some clique of fitness above [delta_f0], its descendants in the clique weigh
    more than [delta_f0]; the computation never fails. *)
Theorem list_final_blocks_correct `{!SetIter BlockId, Env : ConsensusEnv} s :
  max_cliques s ≠ [] → (∀ c, c ∈ max_cliques s → all_active s (block_ids c)) →
  ∃ fin, list_final_blocks s = Ok fin ∧ ∀ b, b ∈ fin ↔
    (∀ c, c ∈ max_cliques s → b ∈ block_ids c)
    ∧ ∃ c a, c ∈ max_cliques s ∧ delta_f0 config < fitness c ∧ get_active s b = Some a
        ∧ delta_f0 config < descendants_fitness s (ab_descendants a) (block_ids c).
Proof.
  intros Hne Ha. destruct (list_final_blocks_spec s Hne) as (fin & Hf & Hfin).
  { intros b Hb. destruct (max_cliques s) as [|c l]; [done|]. apply (Ha c); [by left|].
    apply Hb. by left. }
  exists fin. split; [done|]. intros b. rewrite Hfin. unfold becomes_final, final_in. naive_solver.
Qed.

Lemma list_final_blocks_correct_witness :
  ∃ fin, list_final_blocks sample_state1 = Ok fin ∧ BlockIdV0 1 ∉ fin.
Proof.
  destruct (list_final_blocks_correct sample_state1) as (fin & Hf & Hfin).
  - vm_compute. congruence.
  - pose proof sample_state1_ok as [Hid _ Hs _]. destruct sample_state_ok as (_ & _ & Hs0).
    intros c Hc. apply (idle_cliques_active 10); [done| |done]. unfold u64_max. lia.
  - exists fin. split; [done|]. intros (_ & c & a & Hc & Hlt & _)%Hfin.
    replace (max_cliques sample_state1) with [MkClique {[BlockIdV0 1]} 1 true] in Hc
      by (vm_compute; reflexivity).
    apply list_elem_of_singleton in Hc as ->. by vm_compute in Hlt.
Defined.

(** A block is stale exactly when some clique contains it and every clique
    that contains it is below the fitness threshold. *)
Theorem list_stale_blocks_correct s t b :
  b ∈ list_stale_blocks s t ↔
    (∃ c, c ∈ max_cliques s ∧ b ∈ block_ids c)
    ∧ ∀ c, c ∈ max_cliques s → b ∈ block_ids c → fitness c < t.
Proof. apply list_stale_blocks_spec. Qed.

(** The list of descendants of a block is the set of blocks reachable by
    children links; the traversal ends whatever the graph, and when all of them
    are active it returns them. *)
Theorem descendants_traversal_correct `{!SetIter BlockId} s b :
  get_active_block_and_descendants s b ≠ @OutOfFuel unit _
  ∧ ((∀ x, reach (children_of s) [b] x → is_Some (get_active s x)) →
     ∃ r, get_active_block_and_descendants s b = @Ok unit _ r
       ∧ ∀ x, x ∈ r ↔ reach (children_of s) [b] x).
Proof.
  split; [|apply descendants_spec]. apply visit_descendants_fuel.
  unfold children_links. rewrite sum_outside_empty. cbn. lia.
Qed.

(** C3. Clique maintenance is exact: if the listed cliques are the maximal cliques of
    the incompatibility graph and the header of a new block passes the check, then
    after the block is added they are the maximal cliques of the extended graph,
    each listed once, whether the check lets the routine take the short path (grow
    the cliques in place) or recompute them. *)
Theorem clique_update_exact `{!SetIter BlockId, Env : ConsensusEnv} s h c b parents inc n fit :
  cs_base ∅ s → header_ok h → current_ok c → b ∉ dom (gi_head s) →
  check_header s h c = @Ok unit _ (Proceed parents inc n fit) →
  lists_max_cliques (gi_head s) (block_ids <$> max_cliques s) →
  ∃ gi l, add_incompatibilities b inc (gi_head s) = Ok gi
    ∧ update_max_cliques b inc n (set_gi_head gi s) = Ok (set_max_cliques l (set_gi_head gi s))
    ∧ lists_max_cliques gi (block_ids <$> l).
Proof.
  intros Hinv Hh Hc Hb Hck Hl.
  destruct (check_header_spec (E := unit) s h c Hinv Hh Hc) as (o & Ho & Hp).
  rewrite Hck in Ho. injection Ho as <-. destruct Hp as (inherited & ancestors & earliest & Hp).
  pose proof (ci_graph _ _ Hinv) as Hok.
  assert (inc ⊆ dom (gi_head s)) as Hinc.
  { intros v Hv%(pr_nonfinal _ _ _ _ _ _ _ _ _ _ Hp). apply (ci_dom _ _ Hinv). split; [done|set_solver]. }
  exists (graph_add (gi_head s) b inc). unfold update_max_cliques.
  case_decide as Hn.
  - eexists. split; [by apply add_incompatibilities_eq|]. split; [done|].
    assert (inc = inherited) as ->.
    { apply leibniz_equiv. symmetry. apply set_subseteq_size_equiv.
      - intros v Hv. apply (pr_inc _ _ _ _ _ _ _ _ _ _ Hp). by left.
      - rewrite <-(pr_count _ _ _ _ _ _ _ _ _ _ Hp). lia. }
    cbn. rewrite <-list_fmap_compose, (list_fmap_ext _ (grow b inherited ∘ block_ids)), list_fmap_compose.
    2: { intros i cl _. unfold compose, grow_clique, grow. by case_decide. }
    apply (grow_lists_max_cliques _ _ _ (list_to_set (h_parents (content h)))); try done.
    + intros v Hv%elem_of_list_to_set. by apply (pr_compatible _ _ _ _ _ _ _ _ _ _ Hp).
    + intros v. rewrite (pc_inherited _ _ _ _ _ (pr_parents _ _ _ _ _ _ _ _ _ _ Hp)).
      setoid_rewrite elem_of_list_to_set. by erewrite parents_ids by (done || apply Hp).
  - pose proof (graph_ok_add (gi_head s) b inc Hb Hinc Hok) as Hok'.
    destruct (@compute_max_cliques_spec _ ConsensusError _ _ _ (graph_add (gi_head s) b inc)
      (go_sym _ Hok')) as (l & Hlc & Hnd & Hm).
    eexists. split; [by apply add_incompatibilities_eq|]. cbn. rewrite Hlc. split; [done|].
    cbn. rewrite <-list_fmap_compose, list_fmap_id. done.
Qed.

Lemma clique_update_exact_witness :
  ∃ gi l, add_incompatibilities (BlockIdV0 1) ∅ (gi_head sample_state) = Ok gi
    ∧ update_max_cliques (BlockIdV0 1) ∅ 0 (set_gi_head gi sample_state)
      = Ok (set_max_cliques l (set_gi_head gi sample_state))
    ∧ lists_max_cliques gi (block_ids <$> l).
Proof.
  assert (gi_head sample_state = ∅) as Hg by (vm_compute; reflexivity).
  apply (clique_update_exact sample_state (header (content block1)) (Some (MkSlot 1 1))
    (BlockIdV0 1) [(genesis0, 0); (genesis1, 0)] ∅ 0 1).
  - apply sample_state_ok.
  - apply sample_stored.
  - apply clock_current_ok, sample_clock. by right.
  - rewrite Hg. set_solver.
  - vm_compute. reflexivity.
  - rewrite Hg. replace (block_ids <$> max_cliques sample_state) with [∅ : gset BlockId]
      by (vm_compute; reflexivity).
    split; [apply NoDup_singleton|]. intros C. rewrite list_elem_of_singleton. split.
    + intros ->. split; [split; [set_solver|]|]; intros v Hv; set_solver.
    + intros [[Hd _] _]. set_solver.
Defined.
