(* ===== verification/Factory.v ===== *)
(** * The factories

    [massa-factory-worker]: the threads that produce the blocks and the endorsements of the keys
    of the wallet ([block_factory.rs], [endorsement_factory.rs], [lib.rs]).  They draw on the
    selector, the pools, the storage, the versions of the network and consensus.

    The time, the best parents of consensus, the number of connections and whether the locks of
    the pools are free in time are arguments.  Logs, timings and metrics are not modelled.
    The waits are not: a round of a loop is the choice of a slot and its processing.  When the
    pool of operations does not answer in time the source takes the empty instance of a new storage,
    which holds nothing, as the empty instance here. *)

From S2P Require Import Prelude Slots Times OrdMap MipState MipStore Keys Models Ledger Wire Formats BlockFormats Storage StorageRefs Denunciations PoolExports DenunciationPool EndorsementPool OperationPool PoolWorker.

Open Scope N_scope.

(** The settings that the factories read. *)
Record FactoryConfig : Type := MkFactoryConfig {
  f_thread_count : N;
  f_genesis_timestamp : MassaTime;
  f_t0 : MassaTime;
  initial_delay : MassaTime;
  f_max_operations_per_block : N;
  endorsement_count : N;
  f_last_start_period : N;
  stop_production_when_zero_connections : bool;
  f_chain_id : N;
  block_opt_channel_timeout : MassaTime }.
Implicit Types (cfg : FactoryConfig).

(** A key of the wallet, with its signature of a hash. *)
Record KeyPair : Type := MkKeyPair {
  get_public_key : PublicKey;
  sign : Hash → Signature }.
Definition WalletKeys : Type := gmap Address KeyPair.
Definition find_associated_keypair (wallet : WalletKeys) (address : Address) : option KeyPair := wallet !! address.

(** ** The next slot *)

(** The first slot whose timestamp is at or after [timestamp]. *)
Definition get_first_slot_at_or_after_timestamp (thread_count : N) (t0 genesis_timestamp timestamp : MassaTime)
    : outcome ModelsError Slot :=
  latest ← expect_ok "could not get latest block slot at timestamp"
             (get_latest_block_slot_at_timestamp thread_count t0 genesis_timestamp timestamp);
  match latest with
  | None => Ok (MkSlot 0 0)
  | Some latest_slot =>
      latest_slot_timestamp ← expect_ok "could not get block slot timestamp"
                                (get_block_slot_timestamp thread_count t0 genesis_timestamp latest_slot);
      if latest_slot_timestamp =? timestamp then Ok latest_slot
      else expect_ok "could not compute next slot" (get_next_slot latest_slot thread_count)
  end.

(** Protection against double production when the clock is adjusted. *)
Definition after_previous cfg (previous_slot : option Slot) (next_slot : Slot) : outcome ModelsError Slot :=
  match previous_slot with
  | Some prev_slot =>
      if slot_le next_slot prev_slot
      then expect_ok "could not compute next slot" (get_next_slot prev_slot (f_thread_count cfg))
      else Ok next_slot
  | None => Ok next_slot
  end.
(** [Slot::new(cfg.last_start_period + 1, 0)] for the genesis slots. *)
Definition ignore_genesis cfg (next_slot : Slot) : outcome ModelsError Slot :=
  if period next_slot <=? f_last_start_period cfg
  then p ← expect "attempt to add with overflow" (checked_add u64_max (f_last_start_period cfg) 1); Ok (MkSlot p 0)
  else Ok next_slot.

Definition compute_next_block_slot cfg (previous_slot : option Slot) (now : MassaTime) : outcome ModelsError Slot :=
  next_slot ←
    match previous_slot with
    | None =>
        get_first_slot_at_or_after_timestamp (f_thread_count cfg) (f_t0 cfg) (f_genesis_timestamp cfg)
          (Time.saturating_add now (initial_delay cfg))
    | Some _ => get_closest_slot_to_timestamp (f_thread_count cfg) (f_t0 cfg) (f_genesis_timestamp cfg) now
    end;
  next_slot ← ignore_genesis cfg next_slot;
  after_previous cfg previous_slot next_slot.

Definition compute_next_endorsement_slot cfg (previous_slot : option Slot) (now : MassaTime) : outcome ModelsError Slot :=
  next_slot ←
    match previous_slot with
    | None =>
        half_t0 ← expect_ok "could not compute half_t0" (Time.checked_div_u64 (f_t0 cfg) 2);
        get_first_slot_at_or_after_timestamp (f_thread_count cfg) (f_t0 cfg) (f_genesis_timestamp cfg)
          (Time.saturating_add (Time.saturating_add now (initial_delay cfg)) half_t0)
    | Some _ => get_closest_slot_to_timestamp (f_thread_count cfg) (f_t0 cfg) (f_genesis_timestamp cfg) now
    end;
  next_slot ← after_previous cfg previous_slot next_slot;
  ignore_genesis cfg next_slot.

Section factories.
Context `{!SetIter BlockId, !SetIter OperationId, !SetIter EndorsementId, !SetIter Address}.
Context `{!Varint} `{!VerifyingKey} `{!HashFn} `{!Ed25519} `{!VoteRatio} `{!PoolChannels} `{!ScoreSort}.
Context (config : PoolConfig) (sizes : PoolsConfig) (cfg : FactoryConfig) (wallet : WalletKeys).
Implicit Types (ps : Pools).

Definition slot_timestamp (slot : Slot) : outcome ModelsError MassaTime :=
  expect_ok "could not get block slot timestamp"
    (get_block_slot_timestamp (f_thread_count cfg) (f_t0 cfg) (f_genesis_timestamp cfg) slot).

(** ** Blocks *)

(** What the factory finds in the rest of the program. *)
Record BlockInputs : Type := MkBlockInputs {
  (** [consensus.get_best_parents()] *)
  best_parents : list (BlockId * N);
  (** [protocol.get_stats()]: the number of connections, or an error *)
  connections : option N;
  endorsements_acquired : bool;
  operations_acquired : bool;
  denunciations_acquired : bool }.

(** A stored block of the slot by the address. *)
Definition already_produced (sh : Shared) (slot : Slot) (addr : Address) : bool :=
  match BlockIndex.get_blocks_by_slot (p_index (sh_blocks sh)) slot with
  | Some block_ids =>
      existsb (λ block_id, match ix_get (p_index (sh_blocks sh)) block_id with
                           | Some block => bool_decide (content_creator_address block = addr)
                           | None => false
                           end) (set_iter block_ids)
  | None => false
  end.
Definition no_connection (conns : option N) : bool :=
  stop_production_when_zero_connections cfg && match conns with Some n => n =? 0 | None => false end.

(** [Block::new_verifiable] *)
Definition block_new_verifiable (b : Block) : outcome SerializeError SecureShareBlock :=
  content_serialized ← BlockSerializer b; Ok (share_of_block b content_serialized).

(** The endorsements, operations and denunciations that the pools give, or none. *)
Definition gather_endorsements (inp : BlockInputs) (parent : BlockId) (slot : Slot) ps
    : list (option EndorsementId) * Storage * Pools :=
  match controller_get_block_endorsements config parent slot (Some (block_opt_channel_timeout cfg)) (endorsements_acquired inp) ps with
  | inr r => r
  | inl _ => (replicate (N.to_nat (endorsement_count cfg)) None, MkStorage ∅ ∅ ∅, ps)
  end.
Definition read_endorsements (sh : Shared) (endo_ids : list EndorsementId) : outcome ModelsError (list SecureShareEndorsement) :=
  foldM (λ acc endo_id,
    endo ← expect "could not retrieve endorsement" (ix_get (p_index (sh_endorsements sh)) endo_id);
    Ok (acc ++ [endo])) endo_ids [].
Definition gather_operations (inp : BlockInputs) (slot : Slot) ps : outcome ModelsError (list OperationId * Storage * Pools) :=
  r ← controller_get_block_operations config slot (Some (block_opt_channel_timeout cfg)) (operations_acquired inp) ps;
  Ok (match r with inr r => r | inl _ => ([], MkStorage ∅ ∅ ∅, ps) end).
Definition gather_block_denunciations (inp : BlockInputs) (slot : Slot) ps : list Denunciation :=
  match controller_get_block_denunciations config slot (Some (block_opt_channel_timeout cfg)) (denunciations_acquired inp) ps with
  | inr ds => ds
  | inl _ => []
  end.

(** The header and the block, signed. *)
Definition create_block (slot : Slot) (keypair : KeyPair) (parents : list BlockId) (op_ids : list OperationId)
    (endorsements : list SecureShareEndorsement) (denunciations : list Denunciation) : outcome ModelsError SecureShareBlock :=
  slot_ts ← slot_timestamp slot;
  let current_version := get_network_version_active_at mip_store slot_ts in
  let announced_version := get_network_version_to_announce_at mip_store slot_ts in
  let sig_chain_id := sig_chain_id_for_slot mip_store (f_chain_id cfg) slot_ts in
  root ← expect_ok "could not serialize operation id" (compute_operations_hash op_ids);
  h ← expect_ok "error while producing block header"
        (new_verifiable
           (MkBlockHeader current_version announced_version slot parents root endorsements denunciations)
           BlockHeaderSerializer (get_public_key keypair) (sign keypair) (f_chain_id cfg) sig_chain_id);
  expect_ok "error while producing block" (block_new_verifiable (MkBlock h op_ids)).

(** [BlockFactoryWorker::process_slot]: the block and the storage that are sent to consensus. *)
Definition block_process_slot (inp : BlockInputs) (slot : Slot) ps
    : outcome ModelsError (option (SecureShareBlock * Storage) * Pools) :=
  match get_producer slot with
  | None => Ok (None, ps)
  | Some block_producer_addr =>
      match find_associated_keypair wallet block_producer_addr with
      | None => Ok (None, ps)
      | Some keypair =>
          if already_produced (p_shared ps) slot block_producer_addr
          then Panic "You already created a block for this slot, node is stopping to prevent double staking"
          else if no_connection (connections inp) then Ok (None, ps)
          else
            '(same_thread_parent_id, _) ← idx (best_parents inp) (thread slot);
            let '(endorsements_ids, endo_storage, ps) := gather_endorsements inp same_thread_parent_id slot ps in
            endorsements ← read_endorsements (p_shared ps) (omap Datatypes.id endorsements_ids);
            '(sh, block_storage) ← extend endo_storage (p_shared ps) (MkStorage ∅ ∅ ∅);
            '(op_ids, op_storage, ps) ← gather_operations inp slot (with_shared ps sh);
            if f_max_operations_per_block cfg <? N.of_nat (length op_ids) then
              sh ← drop_storage (p_shared ps) op_storage;
              sh ← drop_storage sh block_storage;
              Ok (None, with_shared ps sh)
            else
              '(sh, block_storage) ← extend op_storage (p_shared ps) block_storage;
              let ps := with_shared ps sh in
              block ← create_block slot keypair (fst <$> best_parents inp) op_ids endorsements
                        (gather_block_denunciations inp slot ps);
              let '(sh, block_storage) := store_block block (p_shared ps) block_storage in
              Ok (Some (block, block_storage), with_shared ps sh)
      end
  end.

(** ** Endorsements *)

(** The keys of the wallet that are drawn, with their indexes. *)
Definition producers_indices (producer_addrs : list Address) : list (KeyPair * N) :=
  omap (λ '(index, addr), keypair ← find_associated_keypair wallet addr; Some (keypair, N.of_nat index)) (imap pair producer_addrs).

(** [EndorsementFactoryWorker::process_slot]: the storage that is sent to protocol;
    [endorsed_block] is [consensus.get_latest_blockclique_block_at_slot(slot)]. *)
Definition endorsement_process_slot (conns : option N) (endorsed_block : BlockId) (slot : Slot) ps
    : outcome ModelsError (option (list SecureShareEndorsement * Storage) * Pools) :=
  match get_selection slot with
  | None => Ok (None, ps)
  | Some sel =>
      match producers_indices (sel_endorsements sel) with
      | [] => Ok (None, ps)
      | producers =>
          if no_connection conns then Ok (None, ps)
          else
            slot_ts ← slot_timestamp slot;
            let sig_chain_id := sig_chain_id_for_slot mip_store (f_chain_id cfg) slot_ts in
            endorsements ← foldM (λ acc '(keypair, index),
                endorsement ← expect_ok "could not create endorsement"
                  (new_verifiable (MkEndorsement slot index endorsed_block) EndorsementSerializer (get_public_key keypair)
                     (sign keypair) (f_chain_id cfg) sig_chain_id);
                Ok (acc ++ [endorsement])) producers [];
            let '(sh, endo_storage) := store_endorsements endorsements (p_shared ps) (MkStorage ∅ ∅ ∅) in
            let '(sh, cloned) := clone sh endo_storage in
            ps ← controller_add_endorsements sizes cloned (with_shared ps sh);
            Ok (Some (endorsements, endo_storage), ps)
      end
  end.

(** ** The loops *)

(** A round: the slot is chosen and its instant computed; the slot that is processed becomes
    the previous one. *)
Definition block_round (inp : BlockInputs) (now : MassaTime) (prev_slot : option Slot) ps
    : outcome ModelsError (Slot * option (SecureShareBlock * Storage) * Pools) :=
  slot ← compute_next_block_slot cfg prev_slot now;
  _ ← slot_timestamp slot;
  '(produced, ps) ← block_process_slot inp slot ps;
  Ok (slot, produced, ps).
Definition endorsement_round (conns : option N) (endorsed_block : BlockId) (now : MassaTime) (prev_slot : option Slot) ps
    : outcome ModelsError (Slot * option (list SecureShareEndorsement * Storage) * Pools) :=
  slot ← compute_next_endorsement_slot cfg prev_slot now;
  _ ← slot_timestamp slot;
  '(produced, ps) ← endorsement_process_slot conns endorsed_block slot ps;
  Ok (slot, produced, ps).

(** The loops, until the factory is stopped: at each round the pools are in the state that the
    other threads have left. *)
Fixpoint block_run (env : list (BlockInputs * MassaTime * Pools)) (prev_slot : option Slot)
    : outcome ModelsError (list (Slot * option (SecureShareBlock * Storage))) :=
  match env with
  | [] => Ok []
  | (inp, now, ps) :: env =>
      '(slot, produced, _) ← block_round inp now prev_slot ps;
      rest ← block_run env (Some slot);
      Ok ((slot, produced) :: rest)
  end.
Fixpoint endorsement_run (env : list (option N * BlockId * MassaTime * Pools)) (prev_slot : option Slot)
    : outcome ModelsError (list (Slot * option (list SecureShareEndorsement * Storage))) :=
  match env with
  | [] => Ok []
  | (conns, endorsed_block, now, ps) :: env =>
      '(slot, produced, _) ← endorsement_round conns endorsed_block now prev_slot ps;
      rest ← endorsement_run env (Some slot);
      Ok ((slot, produced) :: rest)
  end.
End factories.
