(* ===== verification/FactoryFacts.v ===== *)
(** * The slots of the factories

    The factories start at the first slot that is far enough in the future, and then never process a
    slot twice, whatever the clock does: no key signs two blocks for a slot, or two
    endorsements for a slot and an index. *)

From S2P Require Import Prelude Slots Times OrdMap MipState MipStore Keys Models Ledger Wire Formats BlockFormats Storage StorageRefs Denunciations PoolExports DenunciationPool EndorsementPool OperationPool PoolWorker Factory.

Open Scope N_scope.

Section first.
Context (tc : N) (t0 gt : MassaTime) (Hok : clock_ok tc t0 gt).
Local Notation start := (slot_start tc t0 gt).
Local Notation inter := (inter_slot tc t0).

Lemma closest_thread t s : get_closest_slot_to_timestamp tc t0 gt t = Ok s → thread s < tc.
Proof using Hok.
  pose proof Hok as ([H0 H8] & _). unfold get_closest_slot_to_timestamp.
  rewrite (get_latest_block_slot_at_timestamp_eq tc t0 gt Hok). destruct (t <? gt); cbn [expect_ok mbind outcome_bind]; [by intros [= <-]|].
  set (l := MkSlot _ _). assert (thread l < tc) as Hl by (apply N.mod_lt; lia). intros. inv_ok.
  repeat case_match; simplify_eq; try done.
  match goal with Hn : get_next_slot l tc = Ok _ |- _ => apply (get_next_slot_index tc) in Hn as (_ & ? & _); [done|by split|done] end.
Qed.

(** The first slot at or after an instant. *)
Lemma first_slot_spec t :
  t + t0 ≤ u64_max →
  ∃ s, get_first_slot_at_or_after_timestamp tc t0 gt t = Ok s ∧ slot_ok tc s ∧ t ≤ start s
    ∧ ∀ s', thread s' < tc → t ≤ start s' → slot_index tc s ≤ slot_index tc s'.
Proof using Hok.
  intros Ht. pose proof Hok as ([H0 H8] & Ht0 & _). destruct (clock_inter tc t0 gt Hok) as [Hi Heq].
  unfold get_first_slot_at_or_after_timestamp. rewrite (get_latest_block_slot_at_timestamp_eq tc t0 gt Hok).
  destruct (N.ltb_spec t gt) as [Hlt|Hge]; cbn [expect_ok mbind outcome_bind].
  { exists (MkSlot 0 0). split_and!; [done|split; cbn; [done|lia]|unfold slot_start; lia|unfold slot_index; cbn; lia]. }
  set (l := MkSlot _ _). assert (thread l < tc) as Hl by (apply N.mod_lt; lia).
  destruct (proj1 (latest_slot_iff tc t0 gt Hok l t Hl)) as [Hlo Hhi].
  { rewrite (get_latest_block_slot_at_timestamp_eq tc t0 gt Hok). by destruct (N.ltb_spec t gt); [lia|]. }
  clearbody l. rewrite (get_block_slot_timestamp_eq tc t0 gt Hok) by lia. cbn [expect_ok mbind outcome_bind].
  assert (period l < u64_max) as Hp.
  { pose proof (slot_start_eq tc t0 gt Hok l). assert (period l ≤ t0 * period l) by nia. lia. }
  destruct (N.eqb_spec (start l) t) as [Hst|Hst].
  - exists l. split_and!; [done|split; [lia|done]|lia|]. intros s' _ Hs'. rewrite <-Hst in Hs'. unfold slot_start in Hs'.
    apply (N.mul_le_mono_pos_r _ _ inter); [done|]. lia.
  - rewrite (get_next_slot_total tc l) by (try split; done || lia). rewrite (proj2 (N.eqb_neq (period l) u64_max)) by lia. cbn [andb expect_ok].
    eexists. split; [done|]. set (s := if thread l =? tc - 1 then MkSlot (period l + 1) 0 else MkSlot (period l) (thread l + 1)).
    assert (slot_ok tc s ∧ slot_index tc s = slot_index tc l + 1) as [Hs Hix].
    { subst s. unfold slot_ok, slot_index. destruct (N.eqb_spec (thread l) (tc - 1)); cbn; split_and!; nia. }
    split_and!; [done|unfold slot_start in *; nia|]. intros s' _ Hs'. rewrite Hix. unfold slot_start in *.
    destruct (N.le_gt_cases (slot_index tc l + 1) (slot_index tc s')); [done|]. nia.
Qed.
End first.

Lemma slot_start_mono tc t0 gt s s' :
  thread s < tc → slot_le s s' = true → slot_start tc t0 gt s ≤ slot_start tc t0 gt s'.
Proof. intros Ht Hle%slot_le_iff. unfold slot_start, slot_index. apply N.add_le_mono_l, N.mul_le_mono_r. nia. Qed.

Section slots.
Context (cfg : FactoryConfig).
Implicit Types (s p : Slot) (now : MassaTime).

(** What the configuration satisfies. *)
Definition factory_clock_ok : Prop :=
  clock_ok (f_thread_count cfg) (f_t0 cfg) (f_genesis_timestamp cfg) ∧ 2 * f_t0 cfg ≤ u64_max ∧ f_last_start_period cfg < u64_max.

Lemma after_previous_spec prev n s :
  threads_ok (f_thread_count cfg) → thread n < f_thread_count cfg → (∀ p, prev = Some p → thread p < f_thread_count cfg) →
  after_previous cfg prev n = Ok s → thread s < f_thread_count cfg ∧ slot_le n s = true ∧ ∀ p, prev = Some p → slot_lt p s = true.
Proof using.
  intros Htc Hn Hprev. unfold after_previous. destruct prev as [p|]; [|intros [= <-]; split_and!; [done|apply slot_le_iff; lia|done]].
  specialize (Hprev p eq_refl). destruct (slot_le n p) eqn:Hle.
  - unfold expect_ok. destruct (get_next_slot p _) as [q| | |] eqn:Hq; intros; simplify_eq.
    apply (get_next_slot_index (f_thread_count cfg)) in Hq as (Hix & Hth & _); [|done..].
    assert (slot_lt p s = true) as Hlt by (apply (slot_lt_index (f_thread_count cfg)); [done..|lia]).
    split_and!; [done| |by intros ? [= <-]]. apply slot_le_iff. apply slot_le_iff in Hle. apply slot_lt_iff in Hlt. lia.
  - intros [= <-]. split_and!; [done|apply slot_le_iff; lia|]. intros ? [= <-]. apply slot_lt_iff.
    apply not_true_iff_false in Hle. rewrite slot_le_iff in Hle. lia.
Qed.
Lemma ignore_genesis_spec n s :
  0 < f_thread_count cfg → thread n < f_thread_count cfg → ignore_genesis cfg n = Ok s →
  thread s < f_thread_count cfg ∧ f_last_start_period cfg < period s ∧ slot_le n s = true
  ∧ (f_last_start_period cfg < period n → s = n).
Proof using.
  intros Htc Hn. unfold ignore_genesis. destruct (N.leb_spec (period n) (f_last_start_period cfg)) as [Hle|Hgt].
  - destruct (checked_add _ _ _) as [q|] eqn:Hq; cbn; [|done]. intros [= <-]. inv_checked. cbn. split_and!; [done|lia|apply slot_le_iff; cbn; lia|lia].
  - intros [= <-]. split_and!; [done|done|apply slot_le_iff; lia|done].
Qed.

(** The next slot is after the previous one and after the genesis slots. *)
Definition prev_ok (prev : option Slot) : Prop :=
  ∀ p, prev = Some p → thread p < f_thread_count cfg ∧ f_last_start_period cfg < period p.
Definition next_ok (prev : option Slot) s : Prop :=
  thread s < f_thread_count cfg ∧ f_last_start_period cfg < period s ∧ ∀ p, prev = Some p → slot_lt p s = true.

Lemma base_thread first now (prev : option Slot) n :
  clock_ok (f_thread_count cfg) (f_t0 cfg) (f_genesis_timestamp cfg) →
  (∀ n, first = Ok n → thread n < f_thread_count cfg) →
  match prev with
  | None => first
  | Some _ => get_closest_slot_to_timestamp (f_thread_count cfg) (f_t0 cfg) (f_genesis_timestamp cfg) now
  end = @Ok ModelsError _ n → thread n < f_thread_count cfg.
Proof using. intros Hc Hf. destruct prev; [by eapply closest_thread|apply Hf]. Qed.
Lemma first_thread t n :
  clock_ok (f_thread_count cfg) (f_t0 cfg) (f_genesis_timestamp cfg) →
  get_first_slot_at_or_after_timestamp (f_thread_count cfg) (f_t0 cfg) (f_genesis_timestamp cfg) t = Ok n → thread n < f_thread_count cfg.
Proof using.
  intros Hc. pose proof Hc as (Htc & _). unfold get_first_slot_at_or_after_timestamp.
  rewrite (get_latest_block_slot_at_timestamp_eq _ _ _ Hc). destruct (t <? _); cbn [expect_ok mbind outcome_bind]; [intros [= <-]; apply Htc|].
  set (l := MkSlot _ _). assert (thread l < f_thread_count cfg) as Hl by (apply N.mod_lt; destruct Htc; lia). intros. inv_ok.
  repeat case_match; simplify_eq; try done.
  match goal with Hn : expect_ok _ _ = Ok _ |- _ => apply expect_ok_Ok, (get_next_slot_index (f_thread_count cfg)) in Hn as (_ & ? & _); done end.
Qed.

Lemma next_block_slot_spec prev now s :
  clock_ok (f_thread_count cfg) (f_t0 cfg) (f_genesis_timestamp cfg) → prev_ok prev →
  compute_next_block_slot cfg prev now = Ok s → next_ok prev s.
Proof using.
  intros Hc Hprev. pose proof Hc as (Htc & _). unfold compute_next_block_slot. intros (n & Hn & Hx)%outcome_bind_Ok.
  apply base_thread in Hn; [|done|intros; by eapply first_thread]. apply outcome_bind_Ok in Hx as (m & Hm & Hx).
  apply ignore_genesis_spec in Hm as (Hmt & Hmp & _ & _); [|by destruct Htc|done].
  apply after_previous_spec in Hx as (Ht & Hle & Hlt); [|done|done|intros p Hp; by apply Hprev]. split_and!; [done| |done].
  apply slot_le_iff in Hle. lia.
Qed.
Lemma next_endorsement_slot_spec prev now s :
  clock_ok (f_thread_count cfg) (f_t0 cfg) (f_genesis_timestamp cfg) → prev_ok prev →
  compute_next_endorsement_slot cfg prev now = Ok s → next_ok prev s.
Proof using.
  intros Hc Hprev. pose proof Hc as (Htc & _). unfold compute_next_endorsement_slot. intros (n & Hn & Hx)%outcome_bind_Ok.
  apply base_thread in Hn; [|done|intros n' (h & _ & Hf)%outcome_bind_Ok; by eapply first_thread]. apply outcome_bind_Ok in Hx as (m & Hm & Hx).
  apply after_previous_spec in Hm as (Hmt & _ & Hlt); [|done|done|intros p Hp; by apply Hprev].
  apply ignore_genesis_spec in Hx as (Ht & Hp & Hle & _); [|by destruct Htc|done]. split_and!; [done|done|].
  intros p Hpp. specialize (Hlt p Hpp). apply slot_le_iff in Hle. apply slot_lt_iff in Hlt. apply slot_lt_iff. lia.
Qed.

Lemma ignore_genesis_total n : f_last_start_period cfg < u64_max → ∃ s, ignore_genesis cfg n = Ok s.
Proof using.
  intros Hlast. unfold ignore_genesis. destruct (_ <=? _); [|by eexists].
  rewrite (proj2 (checked_add_Some _ _ _ _)) by (split; [lia|done]). by eexists.
Qed.
Lemma after_previous_total prev n :
  threads_ok (f_thread_count cfg) → (∀ p, prev = Some p → slot_ok (f_thread_count cfg) p ∧ period p < u64_max) →
  ∃ s, after_previous cfg prev n = Ok s.
Proof using.
  intros Htc Hp. unfold after_previous. destruct prev as [p|]; [|by eexists]. destruct (slot_le n p); [|by eexists].
  destruct (Hp p eq_refl) as [Hok Hlt]. rewrite (get_next_slot_total (f_thread_count cfg) p) by done.
  rewrite (proj2 (N.eqb_neq (period p) u64_max)) by lia. cbn [andb expect_ok]. by eexists.
Qed.
(** The time is far from the end of the 64-bit integers, and there is a slot after the previous one. *)
Definition time_left (prev : option Slot) now : Prop :=
  now + initial_delay cfg + 2 * f_t0 cfg ≤ u64_max ∧ ∀ p, prev = Some p → slot_ok (f_thread_count cfg) p ∧ period p < u64_max.

(** The first slot is at least [initial_delay] ahead: a slot that a previous run of the node may
    have processed is not processed again. *)
Lemma next_block_slot_total prev now :
  factory_clock_ok → time_left prev now →
  ∃ s, compute_next_block_slot cfg prev now = Ok s
    ∧ (prev = None → now + initial_delay cfg ≤ slot_start (f_thread_count cfg) (f_t0 cfg) (f_genesis_timestamp cfg) s).
Proof using.
  intros (Hc & H2 & Hlast) [Hnow Hprev]. pose proof Hc as (Htc & _). unfold compute_next_block_slot.
  assert (Time.saturating_add now (initial_delay cfg) = now + initial_delay cfg) as -> by (unfold Time.saturating_add, saturating_add; lia).
  destruct prev as [p|].
  - destruct (closest_slot_total _ _ _ Hc now ltac:(lia) H2) as (n & ->). cbn [mbind outcome_bind].
    destruct (ignore_genesis_total n Hlast) as (m & ->). cbn [mbind outcome_bind].
    destruct (after_previous_total (Some p) m Htc Hprev) as (s & ->). by exists s.
  - destruct (first_slot_spec _ _ _ Hc (now + initial_delay cfg) ltac:(lia)) as (n & -> & [Hnp Hnt] & Hst & _). cbn [mbind outcome_bind].
    destruct (ignore_genesis_total n Hlast) as (s & Hs). rewrite Hs. cbn [mbind outcome_bind after_previous]. exists s. split; [done|]. intros _.
    apply ignore_genesis_spec in Hs as (Ht & Hp & Hle & _); [|by destruct Htc|done]. etrans; [exact Hst|].
    by apply slot_start_mono.
Qed.
(** The endorsements of a slot are made half a period before it. *)
Lemma next_endorsement_slot_total prev now :
  factory_clock_ok → time_left prev now →
  ∃ s, compute_next_endorsement_slot cfg prev now = Ok s
    ∧ (prev = None → now + initial_delay cfg ≤ slot_start (f_thread_count cfg) (f_t0 cfg) (f_genesis_timestamp cfg) s - f_t0 cfg / 2).
Proof using.
  intros (Hc & H2 & Hlast) [Hnow Hprev]. pose proof Hc as (Htc & _). unfold compute_next_endorsement_slot.
  pose proof (N.mul_div_le (f_t0 cfg) 2 ltac:(done)) as Hhalf.
  destruct prev as [p|].
  - destruct (closest_slot_total _ _ _ Hc now ltac:(lia) H2) as (n & ->). cbn [mbind outcome_bind].
    destruct (after_previous_total (Some p) n Htc Hprev) as (m & ->). cbn [mbind outcome_bind].
    destruct (ignore_genesis_total m Hlast) as (s & ->). by exists s.
  - change (expect_ok "could not compute half_t0" (Time.checked_div_u64 (f_t0 cfg) 2)) with (@Ok ModelsError _ (f_t0 cfg / 2)). cbn [mbind outcome_bind].
    assert (Time.saturating_add (Time.saturating_add now (initial_delay cfg)) (f_t0 cfg / 2) = now + initial_delay cfg + f_t0 cfg / 2) as ->
      by (unfold Time.saturating_add, saturating_add; lia).
    destruct (first_slot_spec _ _ _ Hc (now + initial_delay cfg + f_t0 cfg / 2) ltac:(lia)) as (n & -> & [Hnp Hnt] & Hst & _). cbn [mbind outcome_bind after_previous].
    destruct (ignore_genesis_total n Hlast) as (s & Hs). rewrite Hs. exists s. split; [done|]. intros _.
    apply ignore_genesis_spec in Hs as (Ht & Hp & Hle & _); [|by destruct Htc|done].
    pose proof (slot_start_mono (f_thread_count cfg) (f_t0 cfg) (f_genesis_timestamp cfg) n s Hnt Hle). lia.
Qed.

(** ** The rounds of a run *)

(** Each slot is a next one of the slot before it. *)
Fixpoint successive (prev : option Slot) (slots : list Slot) : Prop :=
  match slots with
  | [] => True
  | s :: slots => next_ok prev s ∧ successive (Some s) slots
  end.
Lemma successive_sorted prev slots :
  successive prev slots →
  StronglySorted (λ s s', slot_lt s s' = true) slots
  ∧ Forall (λ s, f_last_start_period cfg < period s ∧ ∀ p, prev = Some p → slot_lt p s = true) slots.
Proof using.
  revert prev. induction slots as [|s slots IH]; intros prev Hs; [by split; constructor|]. destruct Hs as ((Ht & Hp & Hlt) & Hs).
  destruct (IH _ Hs) as [Hsorted Hall]. split; constructor; [done|by eapply Forall_impl; [exact Hall|]; intros x [_ ?]; auto|done|].
  eapply Forall_impl; [exact Hall|]. intros x [Hx Hafter]. split; [done|]. intros p Hpp.
  specialize (Hlt p Hpp). specialize (Hafter s eq_refl). apply slot_lt_iff in Hlt, Hafter. apply slot_lt_iff. lia.
Qed.
Lemma successive_prev prev s : next_ok prev s → prev_ok (Some s).
Proof using. by intros (? & ? & _) ? [= <-]. Qed.
End slots.

Lemma increasing_NoDup slots : StronglySorted (λ s s', slot_lt s s' = true) slots → NoDup slots.
Proof.
  induction 1 as [|s slots _ IH Hs]; [apply NoDup_nil_2|]. apply NoDup_cons. split; [|done]. intros Hin.
  eapply Forall_forall in Hs; [|exact Hin]. apply slot_lt_iff in Hs. lia.
Qed.

Section keys.
Context (wallet : WalletKeys).

(** ** The keys that are drawn *)

Lemma producers_indices_spec addrs kp i :
  (kp, i) ∈ producers_indices wallet addrs ↔ ∃ addr, addrs !! N.to_nat i = Some addr ∧ wallet !! addr = Some kp.
Proof using.
  unfold producers_indices. rewrite list_elem_of_omap. split.
  - intros ([j addr] & Hin & Hx). apply elem_of_lookup_imap in Hin as (j' & a & [= -> ->] & Ha).
    unfold find_associated_keypair in Hx. destruct (wallet !! a) as [kp'|] eqn:Hw; cbn in Hx; simplify_eq.
    exists a. by rewrite Nat2N.id.
  - intros (addr & Ha & Hw). exists (N.to_nat i, addr). split; [apply elem_of_lookup_imap; eauto|].
    unfold find_associated_keypair. rewrite Hw. cbn. by rewrite N2Nat.id.
Qed.
Lemma indices_from addrs n :
  let l := omap (λ '(index, addr), keypair ← find_associated_keypair wallet addr; Some (keypair, N.of_nat index))
             (imap (λ j a, ((n + j)%nat, a)) addrs) in
  NoDup (snd <$> l) ∧ Forall (λ x, N.of_nat n ≤ x.2) l.
Proof using.
  revert n. induction addrs as [|a addrs IH]; intros n; cbn zeta; [by split; [apply NoDup_nil_2|]|]. cbn [imap omap list_omap].
  specialize (IH (S n)). cbn zeta in IH. rewrite (imap_ext (λ j a, ((S n + j)%nat, a)) ((λ j a, ((n + j)%nat, a)) ∘ S) addrs) in IH.
  2:{ intros j x _. cbn. f_equal. lia. }
  destruct IH as [Hnd Hall]. unfold find_associated_keypair. destruct (wallet !! a) as [kp|]; cbn.
  - split; [apply NoDup_cons; split; [|exact Hnd]|constructor; [cbn; lia|]].
    + intros (x & Hx & Hin)%list_elem_of_fmap. eapply Forall_forall in Hall; [|exact Hin]. lia.
    + eapply Forall_impl; [exact Hall|]. cbn. lia.
  - split; [exact Hnd|]. eapply Forall_impl; [exact Hall|]. cbn. lia.
Qed.
Lemma producers_indices_NoDup addrs : NoDup (snd <$> producers_indices wallet addrs).
Proof using. apply (indices_from addrs 0). Qed.

End keys.

Section runs.
Context `{!SetIter BlockId, !SetIter OperationId, !SetIter EndorsementId, !SetIter Address}.
Context `{!Varint} `{!VerifyingKey} `{!HashFn} `{!Ed25519} `{!VoteRatio} `{!PoolChannels} `{!ScoreSort}.
Context (config : PoolConfig) (sizes : PoolsConfig) (cfg : FactoryConfig) (wallet : WalletKeys).
Implicit Types (ps : Pools).

(** What is produced is of the slot that is processed. *)
Lemma create_block_slot slot kp parents ids es ds b : create_block cfg slot kp parents ids es ds = Ok b → block_slot b = slot.
Proof using. unfold create_block, new_verifiable, block_new_verifiable. intros Hx. by inv_ok. Qed.
Lemma produced_slot inp slot ps b st ps' :
  block_process_slot config cfg wallet inp slot ps = Ok (Some (b, st), ps') → block_slot b = slot.
Proof using.
  unfold block_process_slot. intros Hx. repeat first [inv_ok_step | discriminate | case_match]; simplify_eq; by eapply create_block_slot.
Qed.
Lemma made_contents slot block sig l acc out :
  foldM (λ acc '(keypair, index),
      endorsement ← expect_ok "could not create endorsement"
        (new_verifiable (MkEndorsement slot index block) EndorsementSerializer (get_public_key keypair)
           (sign keypair) (f_chain_id cfg) sig);
      Ok (acc ++ [endorsement])) l acc = @Ok ModelsError _ out →
  ∃ es : list SecureShareEndorsement, out = acc ++ es ∧ content <$> es = (λ x, MkEndorsement slot x.2 block) <$> l.
Proof using.
  revert acc. induction l as [|[kp i] l IH]; intros acc; cbn [foldM]; [intros [= <-]; exists []; by rewrite app_nil_r|].
  intros (acc' & (e & He%expect_ok_Ok & [= <-])%outcome_bind_Ok & Hx)%outcome_bind_Ok.
  destruct (IH _ Hx) as (es & -> & Hes). exists (e :: es). rewrite <-app_assoc. split; [done|]. rewrite !fmap_cons, Hes. f_equal.
  unfold new_verifiable in He. by inv_ok.
Qed.
Lemma endorsements_of_slot conns block slot ps es st ps' :
  endorsement_process_slot sizes cfg wallet conns block slot ps = Ok (Some (es, st), ps') →
  Forall (λ e, e_slot (content e) = slot) es ∧ NoDup ((λ e, e_index (content e)) <$> es).
Proof using.
  unfold endorsement_process_slot. intros Hx. destruct (get_selection slot) as [sel|]; [|discriminate].
  pose proof (producers_indices_NoDup wallet (sel_endorsements sel)) as Hnd. destruct (producers_indices wallet _) as [|x l]; [discriminate|].
  destruct (no_connection _ _); [discriminate|]. apply outcome_bind_Ok in Hx as (ts & _ & Hx). apply outcome_bind_Ok in Hx as (es' & Hm & Hx).
  apply made_contents in Hm as (es1 & -> & Hes). destruct (store_endorsements _ _ _), (clone _ _). inv_ok. simplify_eq. cbn [app] in *. split.
  - apply Forall_forall. intros e He. apply (list_elem_of_fmap_2 content) in He. rewrite Hes in He. apply list_elem_of_fmap in He as (y & -> & _). done.
  - change (NoDup ((e_index ∘ content) <$> es)). rewrite list_fmap_compose, Hes, <-list_fmap_compose. exact Hnd.
Qed.

Lemma block_run_successive env prev out :
  clock_ok (f_thread_count cfg) (f_t0 cfg) (f_genesis_timestamp cfg) → prev_ok cfg prev →
  block_run config cfg wallet env prev = Ok out →
  successive cfg prev (fst <$> out) ∧ Forall (λ '(slot, p), ∀ b st, p = Some (b, st) → block_slot b = slot) out.
Proof using.
  intros Hc. revert prev out. induction env as [|[[inp now] ps] env IH]; intros prev out Hprev; cbn [block_run]; [by intros [= <-]|].
  intros (((slot & produced) & ps1) & Hr & (rest & Hrest & [= <-])%outcome_bind_Ok)%outcome_bind_Ok. unfold block_round in Hr.
  apply outcome_bind_Ok in Hr as (slot' & Hs & (_ & _ & ([produced' ps'] & Hp & [= <- <- <-])%outcome_bind_Ok)%outcome_bind_Ok).
  apply next_block_slot_spec in Hs as Hn; [|done..]. destruct (IH (Some slot') rest) as [Hsucc Hall]; [by eapply successive_prev|done|].
  split; [by split|]. constructor; [|done]. intros b st ->. by eapply produced_slot.
Qed.
Lemma endorsement_run_successive env prev out :
  clock_ok (f_thread_count cfg) (f_t0 cfg) (f_genesis_timestamp cfg) → prev_ok cfg prev →
  endorsement_run sizes cfg wallet env prev = Ok out →
  successive cfg prev (fst <$> out)
  ∧ Forall (λ '(slot, p), ∀ es st, p = Some (es, st) →
      Forall (λ e, e_slot (content e) = slot) es ∧ NoDup ((λ e, e_index (content e)) <$> es)) out.
Proof using.
  intros Hc. revert prev out. induction env as [|[[[conns block] now] ps] env IH]; intros prev out Hprev; cbn [endorsement_run]; [by intros [= <-]|].
  intros (((slot & produced) & ps1) & Hr & (rest & Hrest & [= <-])%outcome_bind_Ok)%outcome_bind_Ok. unfold endorsement_round in Hr.
  apply outcome_bind_Ok in Hr as (slot' & Hs & (_ & _ & ([produced' ps'] & Hp & [= <- <- <-])%outcome_bind_Ok)%outcome_bind_Ok).
  apply next_endorsement_slot_spec in Hs as Hn; [|done..]. destruct (IH (Some slot') rest) as [Hsucc Hall]; [by eapply successive_prev|done|].
  split; [by split|]. constructor; [|done]. intros es st ->. by eapply endorsements_of_slot.
Qed.
End runs.
