(* ===== verification/FactoryBlocks.v ===== *)
(** * What the factories make

    A block that is drawn for a key of the wallet is produced, also when the pools do not answer in
    time, and what is produced is read again by the deserializer of other nodes: the pools
    give only what a header may hold.  Each index that is drawn is endorsed. *)

From S2P Require Import Prelude Slots Times OrdMap Keys KeyFacts Wire WireFacts MipState MipStore Models Ledger Formats FormatFacts BlockFormats BlockFormatFacts Denunciations DenunciationFacts PoolExports DenunciationPool DenunciationPoolFacts Storage StorageRefs EndorsementPool EndorsementPoolFacts OperationPool OperationPoolFacts PoolWorker PoolThreads PoolSystem Factory FactoryFacts.

Open Scope N_scope.

(** ** Reading what the pools gave *)

Lemma read_all {K V} (get : K → option V) (why : string) ks acc :
  (∀ k, k ∈ ks → is_Some (get k)) →
  ∃ es, foldM (λ acc k, e ← expect why (get k); Ok (acc ++ [e])) ks acc = @Ok ModelsError _ (acc ++ es)
    ∧ Forall2 (λ k e, get k = Some e) ks es.
Proof.
  revert acc. induction ks as [|k ks IH]; intros acc Hks; cbn [foldM]; [exists []; by rewrite app_nil_r|].
  destruct (Hks k) as [e He]; [by left|]. rewrite He. cbn [expect mbind outcome_bind].
  destruct (IH (acc ++ [e])) as (es & -> & Hes); [intros x Hx; apply Hks; by right|].
  exists (e :: es). rewrite <-app_assoc. split; [done|by constructor].
Qed.

(** Entries at their indexes: what is read has different indexes. *)
Lemma read_indexes {V} (get : EndorsementId → option V) (index : V → N) (ks : list (option EndorsementId)) base es :
  (∀ i k, ks !! i = Some (Some k) → ∃ e, get k = Some e ∧ index e = base + N.of_nat i) →
  Forall2 (λ k e, get k = Some e) (omap Datatypes.id ks) es →
  NoDup (index <$> es) ∧ Forall (λ e, base ≤ index e) es.
Proof.
  revert base es. induction ks as [|k ks IH]; intros base es Hks Hes; cbn in Hes.
  { apply Forall2_nil_inv_l in Hes as ->. split; [apply NoDup_nil_2|constructor]. }
  assert (∀ i k, ks !! i = Some (Some k) → ∃ e, get k = Some e ∧ index e = (base + 1) + N.of_nat i) as Htl.
  { intros i k' Hi. destruct (Hks (S i) k' Hi) as (e & He & Hx). exists e. split; [done|lia]. }
  destruct k as [k|]; cbn in Hes.
  - apply Forall2_cons_inv_l in Hes as (e & es' & He & Hes & ->). destruct (Hks 0%nat k eq_refl) as (e' & He' & Hx).
    rewrite He in He'. injection He' as <-. destruct (IH (base + 1) es' Htl Hes) as [Hnd Hall]. split.
    + cbn. apply NoDup_cons. split; [|done]. intros (e' & Heq & Hin)%list_elem_of_fmap. eapply Forall_forall in Hall; [|done]. cbn in Hall. lia.
    + constructor; [lia|]. eapply Forall_impl; [done|]. cbn. lia.
  - destruct (IH (base + 1) es Htl Hes) as [Hnd Hall]. split; [done|]. eapply Forall_impl; [done|]. cbn. lia.
Qed.
Lemma length_omap {A B} (f : A → option B) l : (length (omap f l) ≤ length l)%nat.
Proof. induction l as [|x l IH]; cbn; [done|]. destruct (f x); cbn; lia. Qed.

Section blocks.
Context `{!SetIter BlockId, !SetIter OperationId, !SetIter EndorsementId, !SetIter Address}.
Context `{!Varint} `{VL : !VarintLaws} `{!VerifyingKey} `{!HashFn} `{HL : !HashLaws} `{!Ed25519} `{!VoteRatio} `{!PoolChannels} `{!ScoreSort}.
Context (config : PoolConfig) (pool_wallet : Wallet) (sizes : PoolsConfig) (cfg : FactoryConfig) (wallet : WalletKeys).
Implicit Types (ps : Pools) (C : list Storage) (slot : Slot).
#[local] Hint Extern 0 (PoolOps EndorsementPool) => exact (endorsement_ops config pool_wallet) : typeclass_instances.
#[local] Hint Extern 0 (PoolOps OperationPool) => exact (operation_ops config pool_wallet) : typeclass_instances.
#[local] Hint Extern 0 (PoolOps DenunciationPool) => exact (denunciation_ops config) : typeclass_instances.

(** What other nodes check of a header. *)
Definition block_limits : HeaderLimits :=
  MkHeaderLimits (f_thread_count cfg) (endorsement_count cfg) (max_denunciations_per_block_header config)
    (Some (f_last_start_period cfg)) (f_chain_id cfg).

(** The two configurations agree, and are within the integers of the formats. *)
Record factory_ok : Prop := {
  fo_pools : config_ok config pool_wallet;
  fo_clock : factory_clock_ok cfg;
  fo_threads : thread_count config = f_thread_count cfg;
  fo_endorsements : max_block_endorsement_count config = endorsement_count cfg;
  fo_operations : max_operations_per_block config ≤ f_max_operations_per_block cfg;
  fo_u32 : endorsement_count cfg ≤ u32_max ∧ f_max_operations_per_block cfg ≤ u32_max ∧ max_denunciations_per_block_header config ≤ u32_max;
  fo_denunciations : 0 < max_denunciations_per_block_header config;
  fo_versions : Forall (λ e, mi_version e.1 ≤ u32_max) (store mip_store);
  (** the keys of the wallet are those of their addresses *)
  fo_wallet : ∀ addr kp, wallet !! addr = Some kp →
    from_public_key (get_public_key kp) = addr ∧ public_key_ok (get_public_key kp) ∧ ∀ h, signature_ok (sign kp h) }.

(** The endorsements and operations that are stored were read from messages, or made here. *)
Definition stored_ok (sh : Shared) : Prop :=
  (∀ k e, ix_get (p_index (sh_endorsements sh)) k = Some e →
     share_sound (f_chain_id cfg) e ∧ EndorsementSerializer (content e) = Ok (serialized_data e))
  ∧ ∀ k o, ix_get (p_index (sh_operations sh)) k = Some o → hash_ok (operation_hash k).
Definition inputs_ok (inp : BlockInputs) : Prop :=
  N.of_nat (length (best_parents inp)) = f_thread_count cfg ∧ Forall (λ p, hash_ok (get_hash p.1)) (best_parents inp).
Definition slot_fits slot : Prop :=
  period slot ≤ u64_max ∧ thread slot < f_thread_count cfg ∧ f_last_start_period cfg < period slot
  ∧ slot_start (f_thread_count cfg) (f_t0 cfg) (f_genesis_timestamp cfg) slot ≤ u64_max.

(** ** The versions *)

Lemma find_map_elem {A B} (f : A → option B) l b : find_map f l = Some b → ∃ a, a ∈ l ∧ f a = Some b.
Proof using. intros Hx%head_Some_elem_of. by apply list_elem_of_omap in Hx. Qed.
Lemma versions_fit ts :
  factory_ok → get_network_version_active_at mip_store ts ≤ u32_max
  ∧ ∀ v, get_network_version_to_announce_at mip_store ts = Some v → v ≤ u32_max.
Proof using.
  intros Hf. pose proof (fo_versions Hf) as Hv. rewrite Forall_forall in Hv. split.
  - unfold get_network_version_active_at. destruct (find_map _ _) as [v|] eqn:Hx; cbn; [|lia].
    apply find_map_elem in Hx as ([k m] & Hin & Hk). rewrite elem_of_reverse in Hin. case_match; simplify_eq. apply (Hv _ Hin).
  - intros v Hx. unfold get_network_version_to_announce_at in Hx.
    apply find_map_elem in Hx as ([k m] & Hin & Hk). rewrite elem_of_reverse in Hin. repeat case_match; simplify_eq; apply (Hv _ Hin).
Qed.

(** ** Denunciations *)

Lemma genuine_ok k d : factory_ok → genuine config k d → denunciation_ok (f_thread_count cfg) (endorsement_count cfg) d.
Proof using.
  intros Hf (p1 & p2 & chain & Hd & _ & _ & (Hk1 & Hs1 & Hh1 & Hg1 & Hi1) & (_ & _ & Hh2 & Hg2 & _) & _).
  apply denunciation_of_precursors_spec in Hd as ((Hix & _) & Hd & Hk & Hs). rewrite (fo_threads Hf) in *. rewrite (fo_endorsements Hf) in *.
  destruct p1 as [[pk s i h g]|[pk s h g]], p2 as [[pk' s' i' h' g']|[pk' s' h' g']]; try done;
    destruct d as [[]|[]]; cbn in Hd, Hk, Hs, Hk1, Hs1, Hh1, Hg1, Hi1, Hh2, Hg2 |- *; simplify_eq; by split_and!.
Qed.

(** ** The pools around the storage *)

(** Room for the counts of [n] more owners. *)
Definition slack (n : N) ps C : Prop := N.of_nat (length (pools_live config pool_wallet ps ++ C)) + n < u64_max.
Lemma slack_cons n ps C st : slack (n + 1) ps C → slack n ps (st :: C).
Proof using. unfold slack. rewrite !length_app. cbn [length]. lia. Qed.
Lemma slack_le m n ps C : m ≤ n → slack n ps C → slack m ps C.
Proof using. unfold slack. lia. Qed.

Lemma with_shared_same ps : with_shared ps (p_shared ps) = ps.
Proof using. by destruct ps. Qed.
Lemma with_shared_twice ps sh sh' : with_shared (with_shared ps sh) sh' = with_shared ps sh'.
Proof using. done. Qed.
Lemma pools_ok_nothing ps C : pools_ok config pool_wallet ps C → pools_ok config pool_wallet ps (MkStorage ∅ ∅ ∅ :: C).
Proof using.
  intros [Hsh H1' H2' H3']. split; [|done..]. rewrite <-Permutation_middle. by apply (proj2 (shared_ok_nothing _ _)).
Qed.
Lemma pools_ok_swap ps a b C : pools_ok config pool_wallet ps (a :: b :: C) → pools_ok config pool_wallet ps (b :: a :: C).
Proof using. intros [Hsh H1' H2' H3']. split; [|done..]. by rewrite (Permutation_swap a b C). Qed.
Lemma extend_client st other ps C :
  factory_ok → pools_ok config pool_wallet ps (st :: other :: C) →
  let st' := MkStorage (local_used_blocks st ∪ local_used_blocks other) (local_used_ops st ∪ local_used_ops other)
               (local_used_endorsements st ∪ local_used_endorsements other) in
  ∃ sh', extend other (p_shared ps) st = @Ok ModelsError _ (sh', st') ∧ pools_ok config pool_wallet (with_shared ps sh') (st' :: C)
    ∧ shared_within sh' (p_shared ps).
Proof using All.
  intros Hf Hok st'. pose proof Hok as [Hsh _ _ _]. rewrite <-!Permutation_middle in Hsh.
  destruct (extend_ok (E := ModelsError) other (p_shared ps) st (pools_live config pool_wallet ps ++ C) Hsh) as (sh' & Hx & Hsh').
  exists sh'. apply extend_within in Hx as Hw. split_and!; [done| |done]. rewrite Permutation_middle in Hsh'.
  eapply pools_ok_stable; [exact sizes|apply Hf|exact Hok|exact Hsh'|]. eapply within_agrees; [exact Hsh'|set_solver|done].
Qed.
Lemma stored_ok_within sh sh' : stored_ok sh → shared_within sh' sh → stored_ok sh'.
Proof using. intros [He Ho] (_ & Wo & We). split; intros k x Hx; [by eapply He, We|by eapply Ho, Wo]. Qed.
(** Giving endorsements or operations leaves the blocks. *)
Lemma get_block_endorsements_blocks ep slot target sh ks sh' st :
  get_block_endorsements config ep slot target sh = (ks, (sh', st)) → sh_blocks sh' = sh_blocks sh.
Proof using. unfold get_block_endorsements, claim_endorsement_refs. intros Hx. repeat case_match; by simplify_eq. Qed.
Lemma get_block_operations_blocks op slot sh ids sh' st :
  get_block_operations config op slot sh = Ok (ids, (sh', st)) → sh_blocks sh' = sh_blocks sh.
Proof using. unfold get_block_operations, claim_operation_refs. intros Hx. repeat case_match; by simplify_eq. Qed.

(** What the pools answer to the factory, or nothing if their locks are not free in time. *)
Definition endorsements_given inp (parent : BlockId) slot ps : list EndorsementId :=
  match controller_get_block_endorsements config parent slot (Some (block_opt_channel_timeout cfg)) (endorsements_acquired inp) ps with
  | inr (ks, _, _) => omap Datatypes.id ks
  | inl _ => []
  end.
Definition operations_given inp slot ps : list OperationId :=
  match controller_get_block_operations config slot (Some (block_opt_channel_timeout cfg)) (operations_acquired inp) ps with
  | Ok (inr (ids, _, _)) => ids
  | _ => []
  end.
Definition denunciations_given inp slot ps : list Denunciation :=
  match controller_get_block_denunciations config slot (Some (block_opt_channel_timeout cfg)) (denunciations_acquired inp) ps with
  | inr ds => ds
  | inl _ => []
  end.

(** What a block gets of the endorsements: at each index one for its slot and its parent. *)
Lemma gather_endorsements_spec inp parent slot ps C :
  factory_ok → pools_ok config pool_wallet ps C → slack 2 ps C →
  ∃ ks sh', let st := MkStorage ∅ ∅ (list_to_set (omap Datatypes.id ks)) in
    gather_endorsements config cfg inp parent slot ps = (ks, st, with_shared ps sh')
    ∧ pools_ok config pool_wallet (with_shared ps sh') (st :: C) ∧ shared_within sh' (p_shared ps)
    ∧ N.of_nat (length ks) ≤ endorsement_count cfg
    ∧ (∀ i k, ks !! i = Some (Some k) →
        ∃ e, ix_get (p_index (sh_endorsements sh')) k = Some e ∧ endorses slot parent (N.of_nat i) e)
    ∧ omap Datatypes.id ks = endorsements_given inp parent slot ps.
Proof using All.
  intros Hf Hok Hroom. unfold endorsements_given, gather_endorsements, controller_get_block_endorsements, read_lock. destruct (endorsements_acquired inp).
  - pose proof Hok as [Hsh _ [Hpool _ _ _ _] _]. destruct (pool_first (p_endorsements ps)) as [rest Hl]. unfold slack in Hroom.
    assert (pools_live config pool_wallet ps ++ C ≡ₚ ep_storage (th_pool (p_endorsements ps)) :: (rest ++ live (p_operations ps) ++ live (p_denunciations ps)) ++ C) as Heq.
    { rewrite live_second, Hl, <-!app_assoc. done. }
    rewrite Heq in Hsh, Hroom.
    destruct (get_block_endorsements_spec config pool_wallet slot parent (p_shared ps) _ _ Hsh ltac:(cbn [length] in *; lia) Hpool)
      as (ks & sh' & Hget & Hsh' & Hix & Ho & Hlen & Hks). rewrite Hget. apply get_block_endorsements_blocks in Hget.
    exists ks, sh'. cbn zeta. rewrite <-Heq, Permutation_middle in Hsh'. split_and!; [done| | |by rewrite Hlen, (fo_endorsements Hf)| |done].
    + eapply pools_ok_stable; [exact sizes|apply Hf|exact Hok|exact Hsh'|]. apply Forall_true. intros st. split; intros k _; [by rewrite Ho|by rewrite Hix].
    + split_and!; intros k x; [by rewrite Hget|by rewrite Ho|by rewrite Hix].
    + intros i k Hi. assert (i < length ks)%nat as Hlt by (by eapply lookup_lt_Some). destruct (Hks (N.of_nat i) k) as [Hto _]; [lia|].
      rewrite Nat2N.id in Hto. destruct (Hto Hi) as (_ & e & He & Hend). exists e. by rewrite Hix.
  - exists (replicate (N.to_nat (endorsement_count cfg)) None), (p_shared ps).
    assert (omap Datatypes.id (replicate (N.to_nat (endorsement_count cfg)) None) = ([] : list EndorsementId)) as -> by (induction (N.to_nat _); done).
    cbn zeta. rewrite with_shared_same, length_replicate. split_and!; [done|by apply pools_ok_nothing|done|lia| |done].
    by intros i k [[=] _]%lookup_replicate.
Qed.
Lemma get_block_operations_ids op slot sh ids r :
  get_block_operations config op slot sh = Ok (ids, r) →
  ids = select_operations slot (max_block_size config) (max_block_gas config) (max_operations_per_block config) (sorted_ops op).
Proof using. unfold get_block_operations. intros Hx. repeat case_match; by simplify_eq. Qed.
Lemma gather_operations_spec inp slot ps C :
  factory_ok → pools_ok config pool_wallet ps C → slack 2 ps C → stored_ok (p_shared ps) →
  ∃ ids sh', let st := MkStorage ∅ (list_to_set ids) ∅ in
    gather_operations config cfg inp slot ps = Ok (ids, st, with_shared ps sh')
    ∧ pools_ok config pool_wallet (with_shared ps sh') (st :: C) ∧ shared_within sh' (p_shared ps)
    ∧ N.of_nat (length ids) ≤ f_max_operations_per_block cfg ∧ Forall (λ k, hash_ok (operation_hash k)) ids
    ∧ ids = operations_given inp slot ps
    ∧ ids = if operations_acquired inp
            then select_operations slot (max_block_size config) (max_block_gas config) (max_operations_per_block config)
                   (sorted_ops (th_pool (p_operations ps)))
            else [].
Proof using All.
  intros Hf Hok Hroom Hst. unfold operations_given, gather_operations, controller_get_block_operations, read_lock. destruct (operations_acquired inp).
  - pose proof Hok as [Hsh [[Hpool _] _ _ _ _] _ _]. destruct (pool_first (p_operations ps)) as [rest Hl]. unfold slack in Hroom.
    assert (pools_live config pool_wallet ps ++ C ≡ₚ op_storage (th_pool (p_operations ps)) :: (rest ++ live (p_endorsements ps) ++ live (p_denunciations ps)) ++ C) as Heq.
    { rewrite live_first, Hl, <-!app_assoc. done. }
    rewrite Heq in Hsh, Hroom.
    destruct (get_block_operations_spec config slot (p_shared ps) _ _ Hsh ltac:(cbn [length] in *; lia) Hpool)
      as (os & sh' & Hget & Hsh' & Hix & He & _ & Hall & _ & _ & Hn & _). rewrite Hget. pose proof (get_block_operations_ids _ _ _ _ _ Hget) as Hsel. apply get_block_operations_blocks in Hget.
    cbn [mbind outcome_bind]. exists (id <$> os), sh'. cbn zeta. rewrite <-Heq, Permutation_middle in Hsh'. split_and!; [done| | | | |done|done].
    + eapply pools_ok_stable; [exact sizes|apply Hf|exact Hok|exact Hsh'|]. apply Forall_true. intros st. split; intros k _; [by rewrite Hix|by rewrite He].
    + split_and!; intros k x; [by rewrite Hget|by rewrite Hix|by rewrite He].
    + rewrite length_fmap. pose proof (fo_operations Hf). lia.
    + apply Forall_fmap. eapply Forall_impl; [exact Hall|]. intros o (_ & Ho & _). by eapply (proj2 Hst).
  - exists [], (p_shared ps). cbn. rewrite with_shared_same. split_and!; [done|by apply pools_ok_nothing|done|lia|done|done|done].
Qed.
Lemma gather_denunciations_ok inp slot ps C :
  factory_ok → pools_ok config pool_wallet ps C →
  let ds := gather_block_denunciations config cfg inp slot ps in
  N.of_nat (length ds) ≤ max_denunciations_per_block_header config
  ∧ Forall (denunciation_ok (f_thread_count cfg) (endorsement_count cfg)) ds.
Proof using All.
  intros Hf [_ _ _ [Hpool _ _ _ _]]. unfold gather_block_denunciations, controller_get_block_denunciations, read_lock.
  destruct (denunciations_acquired inp); cbn zeta; [|split; [apply N.le_0_l|done]].
  pose proof (λ d, pool_denunciations_spec config _ slot d Hpool (fo_denunciations Hf)) as Hspec. cbn zeta in Hspec. split.
  - by destruct (Hspec (DenunciationBlockHeader (MkBlockHeaderDenunciation (PublicKeyV0 0) slot 0 0 (SignatureV0 0) (SignatureV0 0)))) as (Hl & _).
  - apply Forall_forall. intros d Hd. destruct (Hspec d) as (_ & _ & Hg). destruct (Hg Hd) as (Hgen & _). by eapply genuine_ok.
Qed.

(** ** The block *)

Lemma create_block_spec slot kp parents ids es ds :
  factory_ok → slot_fits slot → public_key_ok (get_public_key kp) → (∀ h, signature_ok (sign kp h)) →
  parents_ok (f_thread_count cfg) parents → N.of_nat (length parents) = f_thread_count cfg →
  op_ids_ok (f_max_operations_per_block cfg) ids →
  tail_ok block_limits slot parents (es, ds) →
  ∃ b ts h, create_block cfg slot kp parents ids es ds = Ok b ∧ signed_block_ok block_limits (f_max_operations_per_block cfg) b
    ∧ content b = MkBlock h ids ∧ h_slot (content h) = slot ∧ h_parents (content h) = parents
    ∧ endorsements (content h) = es ∧ denunciations (content h) = ds
    ∧ content_creator_address b = from_public_key (get_public_key kp) ∧ content_creator_pub_key b = get_public_key kp
    ∧ get_block_slot_timestamp (f_thread_count cfg) (f_t0 cfg) (f_genesis_timestamp cfg) slot = Ok ts
    ∧ Models.signature h = sign kp (compute_signed_hash (content h) (get_public_key kp) (get_hash (id h))
                                     (sig_chain_id_for_slot mip_store (f_chain_id cfg) ts)).
Proof using All.
  intros Hf (Hp & Ht & Hl & Hst) Hpk Hsign Hpar Hlen Hids Htail. pose proof (fo_clock Hf) as (Hc & _). unfold create_block, slot_timestamp.
  rewrite (get_block_slot_timestamp_eq _ _ _ Hc) by done. cbn [expect_ok mbind outcome_bind]. set (ts := slot_start _ _ _ slot).
  destruct (compute_operations_hash_spec ids) as (data & _ & Hroot). rewrite Hroot. cbn [expect_ok mbind outcome_bind].
  set (c := MkBlockHeader _ _ _ _ _ _ _). destruct (versions_fit ts Hf) as [Hv1 Hv2].
  assert (header_ok block_limits c) as Hh.
  { split_and!; [done|done| |done| |apply compute_from_ok|done].
    - split_and!; [done|by apply in_any_u64| |by apply in_range_below]. pose proof Hc as ([_ H8] & _). unfold u8_max in H8. cbn. lia.
    - cbn. rewrite (proj2 (N.eqb_neq _ _)) by lia. by apply N.eqb_eq. }
  destruct (wire_read _ _ _ c Hh) as (hb & HS & Hhb & HD). unfold new_verifiable. rewrite HS. cbn [expect_ok mbind outcome_bind].
  set (h := MkSecureShare _ _ _ _ _ _). unfold block_new_verifiable.
  assert (block_ok block_limits (f_max_operations_per_block cfg) (MkBlock h ids)) as Hb.
  { split; [|by split]. split; [split; [apply Hsign|]; split; [exact Hpk|]; split; [reflexivity|]; reflexivity|]. split; [done|]. split; [done|]. intros rest. apply HD. }
  destruct (wire_read _ _ _ _ Hb) as (bb & HSb & _). rewrite HSb. cbn [expect_ok mbind outcome_bind].
  exists (share_of_block (MkBlock h ids) bb), ts, h. by split_and!.
Qed.

(** What is read of the endorsements that were gathered is what a header may hold. *)
Lemma endorsements_read sh O slot parent ks :
  factory_ok → shared_ok sh O → stored_ok sh → N.of_nat (length ks) ≤ endorsement_count cfg →
  (∀ i k, ks !! i = Some (Some k) → ∃ e, ix_get (p_index (sh_endorsements sh)) k = Some e ∧ endorses slot parent (N.of_nat i) e) →
  ∃ es, read_endorsements sh (omap Datatypes.id ks) = Ok es
    ∧ id <$> es = omap Datatypes.id ks
    ∧ counted_ok (endorsement_count cfg) (header_endorsement_ok block_limits slot parent) es
    ∧ NoDup ((λ e, e_index (content e)) <$> es).
Proof using All.
  intros Hf Hsh [Hst _] Hlen Hks.
  destruct (read_all (ix_get (p_index (sh_endorsements sh))) "could not retrieve endorsement" (omap Datatypes.id ks) []) as (es & Hes & Hall).
  { intros k (x & [i Hi]%list_elem_of_lookup & Hx)%list_elem_of_omap. cbn in Hx. subst x. destruct (Hks _ _ Hi) as (e & He & _). by exists e. }
  cbn [app] in Hes. exists es. split; [exact Hes|]. split.
  { pose proof (po_index _ _ (so_endorsements _ _ Hsh)) as [Hid _]. clear -Hall Hid. induction Hall as [|k e l es He _ IH]; [done|].
    rewrite fmap_cons, IH. f_equal. apply (map_Forall_lookup_1 _ _ _ _ Hid He). }
  split; [|eapply (read_indexes _ (λ e, e_index (content e)) ks 0); [|exact Hall]].
  - pose proof (fo_u32 Hf) as [He _]. pose proof (length_omap Datatypes.id ks) as Hn. rewrite (Forall2_length _ _ _ Hall) in Hn.
    assert (N.of_nat (length es) ≤ endorsement_count cfg) as Hn' by lia. split; [|split; [etrans; [exact Hn'|exact He]|exact Hn']].
    apply Forall_forall. intros e Hin. apply list_elem_of_lookup in Hin as [j Hj].
    apply (Forall2_lookup_r _ _ _ _ _ Hall) in Hj as (k & Hk & Hget). apply list_elem_of_lookup_2 in Hk.
    apply list_elem_of_omap in Hk as (x & [i Hi]%list_elem_of_lookup & Hx). cbn in Hx. subst x.
    destruct (Hks _ _ Hi) as (e' & He' & Hs & Hix & Hb). rewrite Hget in He'. injection He' as <-.
    destruct (Hst _ _ Hget) as [Hsound Hser]. apply lookup_lt_Some in Hi. split; [done|]. split; [|done].
    split_and!; [done|done|]. cbn. rewrite Hix. split; [|apply in_range_below]; cbn; lia.
  - intros i k Hi. destruct (Hks _ _ Hi) as (e & He & _ & Hix & _). exists e. split; [done|lia].
Qed.

Lemma tail_ok_some slot parents parent es ds :
  parents !! N.to_nat (thread slot) = Some parent →
  counted_ok (endorsement_count cfg) (header_endorsement_ok block_limits slot parent) es → NoDup ((λ e, e_index (content e)) <$> es) →
  counted_ok (max_denunciations_per_block_header config) (denunciation_ok (f_thread_count cfg) (endorsement_count cfg)) ds →
  tail_ok block_limits slot parents (es, ds).
Proof using. intros Hp He Hn Hd. unfold tail_ok. destruct parents; [done|]. by exists parent. Qed.
(** The slot is drawn for a key of the wallet, and nothing forbids its block. *)
Definition to_produce inp slot ps (kp : KeyPair) : Prop :=
  ∃ addr, get_producer slot = Some addr ∧ wallet !! addr = Some kp
    ∧ already_produced (p_shared ps) slot addr = false ∧ no_connection cfg (connections inp) = false.

(** The test finds every stored block of the slot and of the address. *)
Lemma already_produced_spec sh O slot addr :
  shared_ok sh O →
  already_produced sh slot addr = true ↔
  ∃ k b, ix_get (p_index (sh_blocks sh)) k = Some b ∧ block_slot b = slot ∧ content_creator_address b = addr.
Proof using All.
  intros Hsh. pose proof (po_index _ _ (so_blocks _ _ Hsh)) as (_ & _ & [Hs _] & _). unfold already_produced, BlockIndex.get_blocks_by_slot.
  specialize (Hs slot). split.
  - destruct (bi_index_by_slot _ !! slot) as [ks|] eqn:Hks; [|done]. intros (k & Hk & Hx)%existsb_exists.
    apply list_elem_of_In, elem_of_set_iter in Hk. destruct (proj1 (Hs k) Hk) as (b & Hb & Hslot%list_elem_of_singleton).
    exists k, b. change (ix_get (p_index (sh_blocks sh)) k = Some b) in Hb. rewrite Hb in Hx. apply bool_decide_eq_true in Hx. done.
  - intros (k & b & Hb & Hslot & Ha). assert (k ∈ default ∅ (bi_index_by_slot (p_index (sh_blocks sh)) !! slot)) as Hk.
    { apply Hs. exists b. split; [exact Hb|]. by apply list_elem_of_singleton. }
    destruct (bi_index_by_slot _ !! slot) as [ks|]; [|set_solver]. apply existsb_exists. exists k.
    split; [by apply list_elem_of_In, elem_of_set_iter|]. rewrite Hb. by apply bool_decide_eq_true.
Qed.

Lemma store_block_client b st ps C :
  factory_ok → pools_ok config pool_wallet ps (st :: C) → slack 2 ps C →
  ∃ sh', let st' := MkStorage (local_used_blocks st ∪ {[id b]}) (local_used_ops st) (local_used_endorsements st) in
    store_block b (p_shared ps) st = (sh', st') ∧ pools_ok config pool_wallet (with_shared ps sh') (st' :: C)
    ∧ ix_get (p_index (sh_blocks sh')) (id b) = Some (default b (ix_get (p_index (sh_blocks (p_shared ps))) (id b))).
Proof using All.
  intros Hf Hok Hroom. pose proof Hok as [Hsh _ _ _]. rewrite <-Permutation_middle in Hsh.
  assert (N.of_nat (length (pools_live config pool_wallet ps ++ C)) < u64_max) as Hl by (unfold slack in Hroom; lia).
  pose proof (store_block_ok b _ _ _ Hsh Hl) as Hc. destruct Hsh as [Hb _ _]. rewrite fmap_cons in Hb.
  destruct (store_objects_ok _ _ _ [b] Hb ltac:(by rewrite length_fmap)) as [Hl2 _].
  assert (p_index (store_objects [b] (sh_blocks (p_shared ps)) (local_used_blocks st)).1 = ix_insert b (p_index (sh_blocks (p_shared ps)))) as Hix.
  { unfold store_objects, pool_claim. rewrite decide_False by done. by destruct (internal_claim_refs _ _ _). }
  unfold store_block in *.
  destruct (store_objects _ _ _) as [p l]. cbn [fst snd] in *. subst l.
  assert ((list_to_set (id <$> [b]) : gset BlockId) = {[id b]}) as E by (cbn; set_solver). rewrite E in *.
  eexists. split; [reflexivity|]. rewrite Permutation_middle in Hc. split.
  - eapply pools_ok_stable; [exact sizes|apply Hf|exact Hok|exact Hc|]. apply Forall_true. intros x. by split.
  - cbn. rewrite Hix. change (ix_get (ix_insert b (p_index (sh_blocks (p_shared ps)))) (id b) = Some (default b (ix_get (p_index (sh_blocks (p_shared ps))) (id b)))).
    rewrite ix_get_insert. destruct (ix_get _ _) eqn:Hg; [rewrite decide_False by naive_solver|rewrite decide_True by done]; done.
Qed.

(** A block is produced whenever one is to be, and other nodes read it. *)
Lemma block_process_slot_spec inp slot ps C kp :
  factory_ok → pools_ok config pool_wallet ps C → slack 6 ps C → stored_ok (p_shared ps) → inputs_ok inp → slot_fits slot →
  to_produce inp slot ps kp →
  ∃ b sh', let h := header (content b) in
    let st := MkStorage {[id b]} (list_to_set (operations (content b))) (list_to_set (block_endorsement_ids b)) in
    block_process_slot config cfg wallet inp slot ps = Ok (Some (b, st), with_shared ps sh')
    ∧ pools_ok config pool_wallet (with_shared ps sh') (st :: C)
    ∧ signed_block_ok block_limits (f_max_operations_per_block cfg) b
    ∧ block_slot b = slot ∧ h_parents (content h) = fst <$> best_parents inp
    ∧ get_producer slot = Some (content_creator_address b) ∧ content_creator_pub_key b = get_public_key kp
    ∧ (ix_get (p_index (sh_blocks (p_shared ps))) (id b) = None → already_produced sh' slot (content_creator_address b) = true)
    ∧ operations (content b) = operations_given inp slot ps
    ∧ (∀ p, best_parents inp !! N.to_nat (thread slot) = Some p → block_endorsement_ids b = endorsements_given inp p.1 slot ps)
    ∧ denunciations (content h) = denunciations_given inp slot ps.
Proof using All.
  intros Hf Hok Hroom Hst [Hpn Hph] Hfits (addr & Hprod & Hkey & Hnew & Hconn). destruct (fo_wallet Hf _ _ Hkey) as (Haddr & Hpk & Hsign).
  destruct (gather_operations_spec inp slot ps C Hf Hok (slack_le 2 6 _ _ ltac:(done) Hroom) Hst) as (ids0 & _ & _ & _ & _ & _ & _ & Hops0 & Hsel0).
  unfold block_process_slot, find_associated_keypair. rewrite Hprod, Hkey, Hnew, Hconn.
  destruct (lookup_lt_is_Some_2 (best_parents inp) (N.to_nat (thread slot))) as [[parent pp] Hparent]; [destruct Hfits as (_ & ? & _); lia|].
  unfold idx at 1. rewrite Hparent. cbn [expect mbind outcome_bind].
  destruct (gather_endorsements_spec inp parent slot ps C Hf Hok (slack_le 2 6 _ _ ltac:(done) Hroom)) as (ks & sh1 & -> & Hok1 & Hk1 & Hlen & Hks & Hgiven).
  pose proof (stored_ok_within _ _ Hst Hk1) as Hst1. cbn [p_shared with_shared].
  destruct (endorsements_read sh1 _ slot parent ks Hf (pso_shared _ _ _ _ Hok1) Hst1 Hlen Hks) as (es & -> & Hes & Hcount & Hnd).
  cbn [mbind outcome_bind].
  destruct (extend_client (MkStorage ∅ ∅ ∅) _ (with_shared ps sh1) C Hf (pools_ok_nothing _ _ Hok1)) as (sh2 & Hx2 & Hok2 & Hw2).
  cbn [p_shared with_shared local_used_blocks local_used_ops local_used_endorsements] in *. rewrite !(left_id_L ∅ (∪)) in Hx2, Hok2.
  rewrite Hx2. cbn [mbind outcome_bind]. rewrite with_shared_twice in *. clear Hx2.
  pose proof (stored_ok_within _ _ Hst1 Hw2) as Hst2.
  destruct (gather_operations_spec inp slot (with_shared ps sh2) _ Hf Hok2) as (ids & sh3 & -> & Hok3 & Hk3 & Hn & Hids & _ & Hsel).
  { apply slack_cons. by apply (slack_le 3 6). }
  { done. }
  cbn [mbind outcome_bind]. rewrite (proj2 (N.ltb_ge _ _)) by done. rewrite with_shared_twice in *.
  apply pools_ok_swap in Hok3.
  destruct (extend_client _ _ (with_shared ps sh3) C Hf Hok3) as (sh4 & Hx4 & Hok4 & Hw4).
  cbn [p_shared with_shared local_used_blocks local_used_ops local_used_endorsements] in *.
  rewrite !(left_id_L ∅ (∪)), !(right_id_L ∅ (∪)) in Hx4, Hok4. rewrite Hx4. cbn [mbind outcome_bind]. rewrite with_shared_twice in *. clear Hx4.
  destruct (gather_denunciations_ok inp slot (with_shared ps sh4) _ Hf Hok4) as [Hdn Hd].
  set (ds := gather_block_denunciations _ _ _ _ _) in *. pose proof (fo_u32 Hf) as (_ & Hu & Hu').
  destruct (create_block_spec slot kp (fst <$> best_parents inp) ids es ds) as (b & ts & h & -> & Hb & Hcontent & Hslot & Hpar & Hends & Hdens & Hcr & Hcpk & _); try done.
  { split; [by apply Forall_fmap|]. right. by rewrite length_fmap. }
  { by rewrite length_fmap. }
  { split; [done|lia]. }
  { apply (tail_ok_some _ _ parent); [by rewrite list_lookup_fmap, Hparent|done|done|]. split; [done|cbn; lia]. }
  cbn [mbind outcome_bind].
  destruct (store_block_client b _ (with_shared ps sh4) C Hf Hok4) as (sh5 & Hx5 & Hok5 & Hget). { by apply (slack_le 2 6). }
  cbn [p_shared with_shared] in Hx5, Hget |- *. rewrite Hx5. clear Hx5.
  exists b, sh5. cbn zeta. rewrite with_shared_twice in Hok5. cbn [local_used_blocks local_used_ops local_used_endorsements] in Hok5 |- *.
  assert (content_creator_address b = addr) as Ha by congruence. pose proof Hb as (_ & _ & Hshare).
  assert (block_endorsement_ids b = omap Datatypes.id ks) as Hbe by (unfold block_endorsement_ids; by rewrite Hcontent; cbn; rewrite Hends).
  rewrite Hbe, Hcontent, Ha. cbn [operations header]. rewrite (left_id_L ∅ (∪)) in *.
  assert (block_slot b = slot) as Hbs by (unfold block_slot; by rewrite Hcontent).
  split_and!; try done; [|by rewrite <-Hops0, Hsel0, Hsel|by intros p [= <-]].
  intros Hfresh. apply (already_produced_spec sh5 _ slot addr (pso_shared _ _ _ _ Hok5)).
  assert (shared_within sh4 (p_shared ps)) as (Hblocks & _) by (etrans; [exact Hw4|]; etrans; [exact Hk3|]; by etrans).
  exists (id b), b. split_and!; [|done|done]. rewrite Hget. destruct (ix_get (p_index (sh_blocks sh4)) (id b)) as [b'|] eqn:Hb'; [|done].
  apply Hblocks in Hb'. congruence.
Qed.
End blocks.

(** ** The endorsements of the factory

    Each index that is drawn for a key of the wallet gets one endorsement, that other nodes
    read, and the pool is told of it. *)

(** What is in an index after insertions was there, or was inserted. *)
Lemma inserted_or_there {Id T Ix} `{Countable Id, !ObjectIndex Id T Ix} `{!ObjectIndexLaws Id T Ix} (os : list (SecureShare T Id)) ix k o :
  ix_get (foldl (λ ix o, ix_insert o ix) ix os) k = Some o → o ∈ os ∨ ix_get ix k = Some o.
Proof.
  revert ix. induction os as [|x os IH]; intros ix Hx; cbn [foldl] in Hx; [by right|].
  destruct (IH _ Hx) as [?|Hy]; [left; by right|]. rewrite ix_get_insert in Hy. case_decide; [left; simplify_eq; by left|by right].
Qed.
Lemma insert_keeps {Id T Ix} `{Countable Id, !ObjectIndex Id T Ix} `{!ObjectIndexLaws Id T Ix} (os : list (SecureShare T Id)) ix k o :
  ix_get ix k = Some o → ix_get (foldl (λ ix o, ix_insert o ix) ix os) k = Some o.
Proof.
  revert ix. induction os as [|x os IH]; intros ix Hx; cbn [foldl]; [done|]. apply IH. rewrite ix_get_insert. by rewrite decide_False by (rewrite Hx; naive_solver).
Qed.

Section endorsements.
Context `{!SetIter BlockId, !SetIter OperationId, !SetIter EndorsementId, !SetIter Address}.
Context `{!Varint} `{VL : !VarintLaws} `{!VerifyingKey} `{!HashFn} `{HL : !HashLaws} `{!Ed25519} `{!VoteRatio} `{!PoolChannels} `{!ScoreSort}.
Context (config : PoolConfig) (pool_wallet : Wallet) (sizes : PoolsConfig) (cfg : FactoryConfig) (wallet : WalletKeys).
Implicit Types (ps : Pools) (C : list Storage) (slot : Slot).

(** ** The endorsements *)

Notation made slot block sig := (λ '(kp, index) e,
  share_ok (EndorsementDeserializer (f_thread_count cfg) (endorsement_count cfg)) (endorsement_ok (f_thread_count cfg) (endorsement_count cfg))
    (f_chain_id cfg) e
  ∧ content e = MkEndorsement slot index block ∧ content_creator_pub_key e = get_public_key kp
  ∧ Models.signature e = sign kp (compute_signed_hash (content e) (get_public_key kp) (id_get_hash (id e)) sig)) (only parsing).

Lemma make_endorsements slot block sig l acc :
  factory_ok config pool_wallet cfg wallet → slot_fits cfg slot → hash_ok (get_hash block) →
  Forall (λ '(kp, index), index < endorsement_count cfg ∧ public_key_ok (get_public_key kp) ∧ ∀ h, signature_ok (sign kp h)) l →
  ∃ es, foldM (λ acc '(keypair, index),
      endorsement ← expect_ok "could not create endorsement"
        (new_verifiable (MkEndorsement slot index block) EndorsementSerializer (get_public_key keypair)
           (sign keypair) (f_chain_id cfg) sig);
      Ok (acc ++ [endorsement])) l acc = @Ok ModelsError _ (acc ++ es)
    ∧ Forall2 (made slot block sig) l es.
Proof using All.
  intros Hf Hfits Hblock Hl. revert acc. induction Hl as [|[kp index] l (Hi & Hpk & Hsign) _ IH]; intros acc; cbn [foldM].
  { exists []. by rewrite app_nil_r. }
  assert (endorsement_ok (f_thread_count cfg) (endorsement_count cfg) (MkEndorsement slot index block)) as Hok.
  { pose proof (fo_clock _ _ _ _ Hf) as (([_ H8] & _) & _). pose proof (fo_u32 _ _ _ _ Hf) as [He _]. destruct Hfits as (Hp & Ht & _).
    split; [split; [split; [exact Hp|by apply in_any_u64]|]|split; [|exact Hblock]].
    - split; [unfold u8_max in H8; cbn; lia|by apply in_range_below].
    - split; [cbn; lia|by apply in_range_below]. }
  destruct (new_verifiable (ID := EndorsementId) (MkEndorsement slot index block) EndorsementSerializer (get_public_key kp) (sign kp) (f_chain_id cfg) sig)
    as [e| | |] eqn:Hx.
  2-4: destruct (wire_read _ _ _ _ Hok) as (b & HS & _); unfold new_verifiable in Hx; by rewrite HS in Hx.
  pose proof (new_verifiable_spec _ _ _ (f_chain_id cfg) _ _ _ _ e Hok Hpk Hsign Hx) as (Hshare & Hc & Hcp & Hsig).
  cbn [expect_ok mbind outcome_bind]. destruct (IH (acc ++ [e])) as (es & Hes & Hall). exists (e :: es). rewrite Hes, <-app_assoc.
  split; [done|]. constructor; [|done]. split_and!; [done..|]. rewrite Hsig, Hc. destruct Hshare as ((_ & _ & _ & ->) & _). by rewrite Hc, Hcp.
Qed.

Lemma read_endorsement_good e :
  factory_ok config pool_wallet cfg wallet →
  share_ok (EndorsementDeserializer (f_thread_count cfg) (endorsement_count cfg)) (endorsement_ok (f_thread_count cfg) (endorsement_count cfg))
    (f_chain_id cfg) e →
  thread (e_slot (content e)) < thread_count config ∧ precursor_ok config (precursor_of_endorsement e).
Proof using All.
  intros Hf ((Hsig & Hpk & _ & Hid) & (Hslot & Hindex & _) & _). rewrite (fo_threads _ _ _ _ Hf). split; [by apply in_range_below, Hslot|].
  split; [done|]. rewrite (fo_threads _ _ _ _ Hf), (fo_endorsements _ _ _ _ Hf). split; [done|]. split; [|by split].
  cbn. rewrite Hid. apply compute_from_ok.
Qed.

(** The endorsements are stored, and the pools stay in order. *)
Lemma store_endorsements_client es ps C :
  factory_ok config pool_wallet cfg wallet → pools_ok config pool_wallet ps C → slack config pool_wallet 2 ps C →
  ∃ sh', let st := MkStorage ∅ ∅ (list_to_set (id <$> es)) in
    store_endorsements es (p_shared ps) (MkStorage ∅ ∅ ∅) = (sh', st) ∧ pools_ok config pool_wallet (with_shared ps sh') (st :: C)
    ∧ ∀ k e, ix_get (p_index (sh_endorsements sh')) k = Some e → e ∈ es ∨ ix_get (p_index (sh_endorsements (p_shared ps))) k = Some e.
Proof using All.
  intros Hf Hok Hroom. pose proof (pools_ok_nothing _ _ _ _ Hok) as Hok0. pose proof Hok0 as [Hsh _ _ _]. rewrite <-Permutation_middle in Hsh.
  assert (N.of_nat (length (pools_live config pool_wallet ps ++ C)) < u64_max) as Hl by (unfold slack in Hroom; lia).
  pose proof (store_endorsements_ok es _ _ _ Hsh Hl) as Hc. pose proof (so_endorsements _ _ Hsh) as Hb. rewrite fmap_cons in Hb.
  destruct (store_objects_ok _ _ _ es Hb ltac:(by rewrite length_fmap)) as [Hl2 _].
  assert (∀ k e, ix_get (p_index (store_objects es (sh_endorsements (p_shared ps)) ∅).1) k = Some e →
    e ∈ es ∨ ix_get (p_index (sh_endorsements (p_shared ps))) k = Some e) as Hix.
  { intros k e. unfold store_objects, pool_claim. case_decide; [by right|]. destruct (internal_claim_refs _ _ _). apply inserted_or_there. }
  assert (∀ k e, ix_get (p_index (sh_endorsements (p_shared ps))) k = Some e →
    ix_get (p_index (store_objects es (sh_endorsements (p_shared ps)) ∅).1) k = Some e) as Hkeep.
  { intros k e. unfold store_objects, pool_claim. case_decide; [done|]. destruct (internal_claim_refs _ _ _). apply insert_keeps. }
  unfold store_endorsements in *. cbn [local_used_blocks local_used_ops local_used_endorsements] in *.
  destruct (store_objects _ _ _) as [p l]. cbn [fst snd] in *. subst l. rewrite (left_id_L ∅ (∪)) in *.
  eexists. split; [reflexivity|]. rewrite Permutation_middle in Hc. split; [|done].
  eapply pools_ok_stable; [exact sizes|apply Hf|exact Hok|exact Hc|]. apply Forall_forall. intros st Hst. split; [done|]. intros k Hk.
  destruct (held_objects _ _ (local_used_endorsements st) k Hb) as [e He]; [|done|transitivity (Some e); [by apply Hkeep|by symmetry]].
  right. apply list_elem_of_fmap_2. by apply elem_of_app; left.
Qed.

Lemma endorsement_process_slot_spec conns block slot ps C sel :
  factory_ok config pool_wallet cfg wallet → pools_ok config pool_wallet ps C → slack config pool_wallet 6 ps C →
  (∀ st, endorsements_ok config (p_shared ps) st) → hash_ok (get_hash block) → slot_fits cfg slot →
  get_selection slot = Some sel → N.of_nat (length (sel_endorsements sel)) ≤ endorsement_count cfg →
  producers_indices wallet (sel_endorsements sel) ≠ [] → no_connection cfg conns = false →
  ∃ es ps' ts, let st := MkStorage ∅ ∅ (list_to_set (id <$> es)) in
    endorsement_process_slot sizes cfg wallet conns block slot ps = Ok (Some (es, st), ps')
    ∧ pools_ok config pool_wallet ps' (st :: C)
    ∧ get_block_slot_timestamp (f_thread_count cfg) (f_t0 cfg) (f_genesis_timestamp cfg) slot = Ok ts
    ∧ Forall2 (made slot block (sig_chain_id_for_slot mip_store (f_chain_id cfg) ts)) (producers_indices wallet (sel_endorsements sel)) es
    ∧ th_channel (p_endorsements ps') = channel_after (endorsements_channel_size sizes) (AddItems st) (p_endorsements ps)
    ∧ th_channel (p_denunciations ps') = channel_after (denunciations_channel_size sizes) (AddItems st) (p_denunciations ps).
Proof using All.
  intros Hf Hok Hroom Hstored Hblock Hfits Hsel Hlen Hne Hconn. pose proof (fo_clock _ _ _ _ Hf) as (Hc & _). pose proof Hfits as (Hp & Ht & _ & Hst).
  unfold endorsement_process_slot, slot_timestamp. rewrite Hsel, Hconn, (get_block_slot_timestamp_eq _ _ _ Hc) by done.
  set (ts := slot_start _ _ _ slot). cbn [expect_ok mbind outcome_bind].
  destruct (make_endorsements slot block (sig_chain_id_for_slot mip_store (f_chain_id cfg) ts) (producers_indices wallet (sel_endorsements sel)) [] Hf Hfits Hblock)
    as (es & Hes & Hall).
  { apply Forall_forall. intros [kp i] (addr & Ha & Hw)%(producers_indices_spec wallet). destruct (fo_wallet _ _ _ _ Hf _ _ Hw) as (_ & Hpk & Hsign).
    split_and!; [|done|done]. apply lookup_lt_Some in Ha. lia. }
  destruct (producers_indices wallet (sel_endorsements sel)) as [|x l]; [done|]. cbn [app] in Hes. rewrite Hes. cbn [mbind outcome_bind].
  destruct (store_endorsements_client es ps C Hf Hok) as (sh1 & Hx1 & Hok1 & Hix). { by apply (slack_le _ _ 2 6). }
  rewrite Hx1. pose proof Hok1 as [Hsh1 _ _ _]. rewrite <-Permutation_middle in Hsh1.
  destruct (clone_ok _ _ _ Hsh1) as [Hcl Hsh2]. { unfold slack in Hroom. cbn [length]. change (pools_live config pool_wallet (with_shared ps sh1)) with (pools_live config pool_wallet ps). lia. }
  pose proof (clone_within sh1 (MkStorage ∅ ∅ (list_to_set (id <$> es)))) as Hw. cbn [p_shared with_shared] in Hcl, Hsh2.
  destruct (clone sh1 _) as [sh2 cloned]. cbn [fst snd] in *. subst cloned. rewrite !Permutation_middle in Hsh2.
  set (st := MkStorage ∅ ∅ (list_to_set (id <$> es))) in *.
  assert (pools_ok config pool_wallet (with_shared ps sh2) (st :: st :: C)) as Hok2.
  { rewrite <-(with_shared_twice ps sh1). eapply pools_ok_stable; [exact sizes|apply Hf|exact Hok1|exact Hsh2|].
    eapply within_agrees; [exact Hsh2|set_solver|done]. }
  destruct (add_endorsements_call config pool_wallet sizes st (with_shared ps sh2) (st :: C)) as (ps' & Hx2 & Hok'); [apply Hf|done| | |].
  - unfold room. unfold slack in Hroom. rewrite length_app in *. cbn [length].
    change (pools_live config pool_wallet (with_shared ps sh2)) with (pools_live config pool_wallet ps). lia.
  - split; [vm_compute; discriminate|]. intros k e Hk Hg. cbn [p_shared with_shared] in Hg. destruct Hw as (_ & _ & Hw). apply Hw in Hg. 
    destruct (Hix k e Hg) as [Hin|Hg0]; [|by eapply (Hstored st)].
    apply (read_endorsement_good e Hf). apply list_elem_of_lookup in Hin as [j Hj].
    apply (Forall2_lookup_r _ _ _ _ _ Hall) in Hj as ([kp i] & _ & Hshare & _). exact Hshare.
  - assert ((clone sh2 st).2 = st) as Hcl2.
    { pose proof (pso_shared _ _ _ _ Hok2) as Hsh. rewrite <-Permutation_middle in Hsh. apply (clone_ok _ _ _ Hsh).
      unfold slack in Hroom. change (pools_live config pool_wallet (with_shared ps sh2)) with (pools_live config pool_wallet ps).
      cbn [length]. rewrite length_app in *. cbn [length]. lia. }
    pose proof (add_endorsements_channels sizes st (with_shared ps sh2) ps' Hcl2 Hx2) as [Hc1 Hc2].
    rewrite Hx2. exists es, ps', ts. by split_and!.
Qed.
End endorsements.
