(* ===== verification/Factories.v ===== *)
(** * What the factories produce

    The theorems about the factories: they choose slots without end and never one twice, a block that is
    drawn for a key of the wallet is produced from what the pools give and is read by the other
    nodes, and every index that is drawn for a key is endorsed; with a run on the pools of
    the sample network. *)

From S2P Require Import Prelude Slots Times OrdMap MipState MipStore Rationals Keys KeyFacts Models Ledger Wire WireFacts Formats FormatFacts WireSamples BlockFormats BlockFormatFacts Storage StorageRefs Denunciations DenunciationFacts ChainFormats PoolExports DenunciationPool DenunciationPoolFacts EndorsementPool EndorsementPoolFacts OperationPool OperationPoolFacts PoolWorker PoolThreads PoolSystem Pools Factory FactoryFacts FactoryBlocks.

Open Scope N_scope.

Section outputs.
Implicit Types (slot : Slot).

(** What the rounds of a run have produced. *)
Definition produced_blocks (out : list (Slot * option (SecureShareBlock * Storage))) : list SecureShareBlock :=
  omap (λ x, fst <$> x.2) out.
Definition made_endorsements (out : list (Slot * option (list SecureShareEndorsement * Storage))) : list SecureShareEndorsement :=
  out ≫= λ x, match x.2 with Some (es, _) => es | None => [] end.
(** The place of an endorsement. *)
Definition endorsement_place (e : SecureShareEndorsement) : Slot * N := (e_slot (content e), e_index (content e)).

Lemma produced_slots out :
  Forall (λ '(slot, p), ∀ b st, p = Some (b, st) → block_slot b = slot) out →
  block_slot <$> produced_blocks out `sublist_of` fst <$> out.
Proof.
  induction 1 as [|[slot [[b st]|]] out Hx _ IH]; [done| |by apply sublist_cons].
  cbn. rewrite (Hx b st eq_refl). by apply sublist_skip.
Qed.
Lemma made_places out :
  StronglySorted (λ s s', slot_lt s s' = true) (fst <$> out) →
  Forall (λ '(slot, p), ∀ es st, p = Some (es, st) →
    Forall (λ e, e_slot (content e) = slot) es ∧ NoDup ((λ e, e_index (content e)) <$> es)) out →
  NoDup (endorsement_place <$> made_endorsements out)
  ∧ Forall (λ e, e_slot (content e) ∈ fst <$> out) (made_endorsements out).
Proof.
  intros Hs Hall. induction Hall as [|[slot p] out Hx _ IH]; [split; [apply NoDup_nil_2|done]|].
  rewrite fmap_cons in Hs. apply StronglySorted_inv in Hs as [Hs Hlt]. destruct (IH Hs) as [Hnd Hin].
  unfold made_endorsements. cbn [mbind list_bind snd]. destruct p as [[es st]|]; cbn [app].
  2:{ split; [exact Hnd|]. eapply Forall_impl; [exact Hin|]. cbn. intros e He. by right. }
  destruct (Hx es st eq_refl) as [Hslot Hix]. split.
  - rewrite fmap_app. apply NoDup_app. split_and!; [|intros pl Hpl Hrest|exact Hnd].
    + apply (NoDup_fmap_1 snd). by rewrite <-list_fmap_compose.
    + apply list_elem_of_fmap in Hpl as (e & -> & He), Hrest as (e' & Heq & He'). injection Heq as Heq _.
      rewrite Forall_forall in Hslot. rewrite Forall_forall in Hin. rewrite Forall_forall in Hlt. specialize (Hlt _ (Hin _ He')). rewrite <-Heq, (Hslot _ He) in Hlt.
      apply slot_lt_iff in Hlt. cbn in Hlt. lia.
  - apply Forall_app. split; (eapply Forall_impl; [done|]); cbn; intros e He; [rewrite He; by left|by right].
Qed.
End outputs.

Section factories.
Context `{!SetIter BlockId, !SetIter OperationId, !SetIter EndorsementId, !SetIter Address}.
Context `{!Varint} `{VL : !VarintLaws} `{!VerifyingKey} `{!HashFn} `{HL : !HashLaws} `{!Ed25519} `{!VoteRatio} `{!PoolChannels} `{!ScoreSort}.
Context (config : PoolConfig) (pool_wallet : Wallet) (sizes : PoolsConfig) (cfg : FactoryConfig) (wallet : WalletKeys).
Implicit Types (ps : Pools) (C : list Storage) (slot : Slot).

(** C15. The block factory processes each slot at most once, in increasing order and after the genesis slots, whatever the
    clock of the node does between the rounds and whatever the pools and consensus answer:
    so that no two of the blocks that it makes are of the same slot. *)
Theorem no_double_block env out :
  clock_ok (f_thread_count cfg) (f_t0 cfg) (f_genesis_timestamp cfg) → block_run config cfg wallet env None = Ok out →
  StronglySorted (λ s s', slot_lt s s' = true) (fst <$> out) ∧ Forall (λ s, f_last_start_period cfg < period s) (fst <$> out)
  ∧ NoDup (block_slot <$> produced_blocks out).
Proof using.
  intros Hc Hx. apply block_run_successive in Hx as [Hs Hall]; [|done|done]. apply successive_sorted in Hs as [Hs Hp].
  split_and!; [done|by eapply Forall_impl; [exact Hp|]; intros s [? _]|].
  eapply sublist_NoDup; [by apply increasing_NoDup|by apply produced_slots].
Qed.

(** C34. The endorsement factory processes each slot at most once, and no two of the endorsements that
    it makes are of the same slot and index, whatever the clock of the node does. *)
Theorem no_double_endorsement env out :
  clock_ok (f_thread_count cfg) (f_t0 cfg) (f_genesis_timestamp cfg) → endorsement_run sizes cfg wallet env None = Ok out →
  StronglySorted (λ s s', slot_lt s s' = true) (fst <$> out) ∧ Forall (λ s, f_last_start_period cfg < period s) (fst <$> out)
  ∧ NoDup (endorsement_place <$> made_endorsements out).
Proof using.
  intros Hc Hx. apply endorsement_run_successive in Hx as [Hs Hall]; [|done|done]. apply successive_sorted in Hs as [Hs Hp].
  split_and!; [done|by eapply Forall_impl; [exact Hp|]; intros s [? _]|by apply made_places].
Qed.

(** There is always a next slot, after the previous one and after the genesis slots; and the first slot of
    a run is one whose block, or whose endorsements, are due at least [initial_delay] after the start, so that what a
    run that stopped before may have signed is not signed again. *)
Theorem next_slot_exists prev now :
  factory_clock_ok cfg → prev_ok cfg prev → time_left cfg prev now →
  ∃ s s', compute_next_block_slot cfg prev now = Ok s ∧ next_ok cfg prev s
    ∧ compute_next_endorsement_slot cfg prev now = Ok s' ∧ next_ok cfg prev s'
    ∧ (prev = None →
        now + initial_delay cfg ≤ slot_start (f_thread_count cfg) (f_t0 cfg) (f_genesis_timestamp cfg) s
        ∧ now + initial_delay cfg ≤ slot_start (f_thread_count cfg) (f_t0 cfg) (f_genesis_timestamp cfg) s' - f_t0 cfg / 2).
Proof using.
  intros Hf Hprev Ht. pose proof Hf as (Hc & _). destruct (next_block_slot_total cfg prev now Hf Ht) as (s & Hs & Hd).
  destruct (next_endorsement_slot_total cfg prev now Hf Ht) as (s' & Hs' & Hd'). exists s, s'.
  split_and!; [done|by eapply next_block_slot_spec|done|by eapply next_endorsement_slot_spec|auto].
Qed.

(** C16. A block that is drawn for a key of the wallet is produced, unless there is one already or the node has no
    connection.  It is of the slot, by the address that was drawn, on the best parents; its operations, its
    endorsements (those of the parent in its thread) and its denunciations are what the pools answer, and none if
    the lock of the pool is not free in time; the instance of the storage that consensus gets owns the
    block, its operations and its endorsements and nothing else; and the deserializer of the other nodes reads the block
    from its bytes.  From then on the factory refuses to make another one for the slot. *)
Theorem produced_block_accepted inp now prev slot ps C kp :
  factory_ok config pool_wallet cfg wallet → pools_reachable config pool_wallet sizes (ps, C) → slack config pool_wallet 6 ps C →
  stored_ok cfg (p_shared ps) → inputs_ok cfg inp → compute_next_block_slot cfg prev now = Ok slot → slot_fits cfg slot →
  to_produce cfg wallet inp slot ps kp →
  ∃ b ps', let st := MkStorage {[id b]} (list_to_set (operations (content b))) (list_to_set (block_endorsement_ids b)) in
    block_round config cfg wallet inp now prev ps = Ok (slot, Some (b, st), ps')
    ∧ pools_ok config pool_wallet ps' (st :: C)
    ∧ block_slot b = slot ∧ h_parents (content (header (content b))) = fst <$> best_parents inp
    ∧ get_producer slot = Some (content_creator_address b) ∧ content_creator_pub_key b = get_public_key kp
    ∧ (∀ rest, SecureShareBlockDeserializer (block_limits config cfg) (f_max_operations_per_block cfg) (serialized_data b ++ rest) = Some (b, rest))
    ∧ (ix_get (p_index (sh_blocks (p_shared ps))) (id b) = None → already_produced (p_shared ps') slot (content_creator_address b) = true)
    ∧ operations (content b) = operations_given config cfg inp slot ps
    ∧ (∀ p, best_parents inp !! N.to_nat (thread slot) = Some p → block_endorsement_ids b = endorsements_given config cfg inp p.1 slot ps)
    ∧ denunciations (content (header (content b))) = denunciations_given config cfg inp slot ps.
Proof using All.
  intros Hf Hr Hroom Hst Hin Hnext Hfits Hprod. pose proof (reachable_ok _ _ _ _ (fo_pools _ _ _ _ Hf) Hr) as Hok.
  destruct (block_process_slot_spec config pool_wallet sizes cfg wallet inp slot ps C kp Hf Hok Hroom Hst Hin Hfits Hprod)
    as (b & sh' & Hx & Hok' & Hb & Hslot & Hpar & Haddr & Hkey & Hnew & Hops & Hends & Hdens).
  pose proof (fo_clock _ _ _ _ Hf) as (Hc & _). pose proof Hfits as (Hp & Ht & _ & Hts).
  exists b, (with_shared ps sh'). cbn zeta. split_and!; try done.
  - unfold block_round, slot_timestamp. rewrite Hnext. cbn [mbind outcome_bind].
    rewrite (get_block_slot_timestamp_eq _ _ _ Hc) by done. cbn [expect_ok mbind outcome_bind]. by rewrite Hx.
  - intros rest. destruct (wire_read _ _ _ b Hb) as (bytes & [= <-] & _ & HD). apply HD.
Qed.

(** C33. Each index of a slot that is drawn for a key of the wallet gets exactly one endorsement of the block that consensus
    gives, by the address that was drawn, which the deserializer of the other nodes reads, and there are no others.
    They are added as one command to the channel of the pool of endorsements and to that of denunciations, unless
    the thread has stopped or the channel is full, in which case it is left as it was; the instance that is sent to
    protocol owns these endorsements and nothing else.  The node has a connection. *)
Theorem drawn_endorsements_made conns block now prev slot ps C sel :
  factory_ok config pool_wallet cfg wallet → pools_reachable config pool_wallet sizes (ps, C) → slack config pool_wallet 6 ps C →
  (∀ st, endorsements_ok config (p_shared ps) st) → hash_ok (get_hash block) →
  compute_next_endorsement_slot cfg prev now = Ok slot → slot_fits cfg slot →
  get_selection slot = Some sel → N.of_nat (length (sel_endorsements sel)) ≤ endorsement_count cfg →
  producers_indices wallet (sel_endorsements sel) ≠ [] → no_connection cfg conns = false →
  ∃ es ps', let st := MkStorage ∅ ∅ (list_to_set (id <$> es)) in
    endorsement_round sizes cfg wallet conns block now prev ps = Ok (slot, Some (es, st), ps')
    ∧ pools_ok config pool_wallet ps' (st :: C)
    ∧ th_channel (p_endorsements ps') = channel_after (endorsements_channel_size sizes) (AddItems st) (p_endorsements ps)
    ∧ th_channel (p_denunciations ps') = channel_after (denunciations_channel_size sizes) (AddItems st) (p_denunciations ps)
    ∧ (∀ i addr, sel_endorsements sel !! N.to_nat i = Some addr → is_Some (wallet !! addr) →
        ∃ e, e ∈ es ∧ content e = MkEndorsement slot i block ∧ content_creator_address e = addr
          ∧ ∀ e', e' ∈ es → e_index (content e') = i → e' = e)
    ∧ Forall (λ e, ∃ i addr, sel_endorsements sel !! N.to_nat i = Some addr ∧ content e = MkEndorsement slot i block
        ∧ content_creator_address e = addr
        ∧ ∃ bytes, SecureShareSerializer e = Ok bytes ∧ ∀ rest,
            SecureShareDeserializer (EndorsementDeserializer (f_thread_count cfg) (endorsement_count cfg)) (f_chain_id cfg) (bytes ++ rest)
            = Some (e, rest)) es.
Proof using All.
  intros Hf Hr Hroom Hst Hblock Hnext Hfits Hsel Hlen Hne Hconn. pose proof (reachable_ok _ _ _ _ (fo_pools _ _ _ _ Hf) Hr) as Hok.
  destruct (endorsement_process_slot_spec config pool_wallet sizes cfg wallet conns block slot ps C sel Hf Hok Hroom Hst Hblock Hfits Hsel Hlen Hne Hconn)
    as (es & ps' & ts & Hx & Hok' & Hts & Hall & Hc1 & Hc2).
  exists es, ps'. cbn zeta. split_and!; [|done|done|done| |].
  - unfold endorsement_round, slot_timestamp. rewrite Hnext. cbn [mbind outcome_bind]. rewrite Hts. cbn [expect_ok mbind outcome_bind]. by rewrite Hx.
  - intros i addr Hi [kp Hkp]. assert ((kp, i) ∈ producers_indices wallet (sel_endorsements sel)) as Hin by (apply producers_indices_spec; eauto).
    apply list_elem_of_lookup in Hin as [j Hj]. destruct (Forall2_lookup_l _ _ _ _ _ Hall Hj) as (e & He & Hmade).
    destruct Hmade as (((_ & _ & Ha & _) & _) & Hc & Hpk & _). exists e. split; [by eapply list_elem_of_lookup_2|]. split; [done|].
    split; [rewrite Ha, Hpk; by apply (fo_wallet _ _ _ _ Hf)|]. intros e' [j' Hj']%list_elem_of_lookup Hi'.
    destruct (Forall2_lookup_r _ _ _ _ _ Hall Hj') as ([kp' i'] & Hin' & _ & Hc' & _). rewrite Hc' in Hi'. cbn in Hi'. subst i'.
    assert (j' = j) as ->; [|congruence].
    eapply (NoDup_lookup (snd <$> producers_indices wallet (sel_endorsements sel))); [apply producers_indices_NoDup|by rewrite list_lookup_fmap, Hin'|by rewrite list_lookup_fmap, Hj].
  - apply Forall_forall. intros e [j Hj]%list_elem_of_lookup. destruct (Forall2_lookup_r _ _ _ _ _ Hall Hj) as ([kp i] & Hin & Hshare & Hc & Hpk & _).
    apply list_elem_of_lookup_2, producers_indices_spec in Hin as (addr & Hi & Hkp). exists i, addr. pose proof Hshare as ((_ & _ & Ha & _) & _).
    split_and!; [done|done|rewrite Ha, Hpk; by apply (fo_wallet _ _ _ _ Hf)|].
    pose proof (SecureShare_wire (ID := EndorsementId) EndorsementSerializer
      (EndorsementDeserializer (f_thread_count cfg) (endorsement_count cfg)) (endorsement_ok (f_thread_count cfg) (endorsement_count cfg)) (f_chain_id cfg)) as W.
    destruct (@wire_read _ _ _ _ W e Hshare) as (bytes & HS & _ & HD). by exists bytes.
Qed.
End factories.

(** ** A run *)

#[local] Existing Instances sample_order any_signature sample_channels no_sort.

Definition sample_factory_config : FactoryConfig := {|
  f_thread_count := 2; f_genesis_timestamp := 0; f_t0 := 100; initial_delay := 50; f_max_operations_per_block := 3; endorsement_count := 2;
  f_last_start_period := 0; stop_production_when_zero_connections := true; f_chain_id := 77; block_opt_channel_timeout := 10 |}.
Definition sample_keypair : KeyPair := MkKeyPair sample_key (λ h, SignatureV0 (h mod 256 ^ 64)).
Definition sample_keys : WalletKeys := {[sample_creator := sample_keypair]}.
Definition sample_inputs : BlockInputs := MkBlockInputs [(BlockIdV0 12, 0); (BlockIdV0 11, 0)] (Some 3) true true true.

Lemma sample_factory_ok : factory_ok sample_pool_config sample_wallet sample_factory_config sample_keys.
Proof.
  split; [exact sample_conf| |reflexivity|reflexivity|vm_compute; discriminate|vm_compute; repeat split; discriminate|reflexivity|constructor|].
  - split_and!; vm_compute; repeat split; discriminate.
  - intros addr kp Hkp. unfold sample_keys in Hkp. apply lookup_singleton_Some in Hkp as [<- <-]. split; [reflexivity|]. split; [vm_compute; split; reflexivity|].
    intros h. apply N.mod_lt. discriminate.
Qed.
Lemma sample_endorsements_stored : ei_endorsements (p_index (sh_endorsements (p_shared sample_pools))) = {[EndorsementIdV0 12 := sample_vote]}.
Proof. vm_compute. reflexivity. Qed.
Lemma sample_operations_stored : oi_operations (p_index (sh_operations (p_shared sample_pools))) = {[OperationIdV0 21 := sample_transfer]}.
Proof. vm_compute. reflexivity. Qed.
Lemma sample_stored_good : stored_ok sample_factory_config (p_shared sample_pools).
Proof.
  split; intros k x Hx.
  - assert (({[EndorsementIdV0 12 := sample_vote]} : gmap EndorsementId SecureShareEndorsement) !! k = Some x) as Hk by (rewrite <-sample_endorsements_stored; exact Hx).
    apply lookup_singleton_Some in Hk as [<- <-]. split; [|vm_compute; reflexivity].
    split_and!; vm_compute; repeat split; reflexivity.
  - assert (({[OperationIdV0 21 := sample_transfer]} : gmap OperationId SecureShareOperation) !! k = Some x) as Hk by (rewrite <-sample_operations_stored; exact Hx).
    apply lookup_singleton_Some in Hk as [<- _]. vm_compute. reflexivity.
Qed.
Lemma sample_inputs_ok : inputs_ok sample_factory_config sample_inputs.
Proof. split; [reflexivity|]. repeat constructor; vm_compute; reflexivity. Qed.
Lemma sample_slot_fits : slot_fits sample_factory_config (MkSlot 1 0).
Proof. split_and!; vm_compute; first [reflexivity|discriminate]. Qed.
Lemma sample_slack : slack sample_pool_config sample_wallet 6 sample_pools [].
Proof. vm_compute. reflexivity. Qed.
Lemma sample_to_produce : to_produce sample_factory_config sample_keys sample_inputs (MkSlot 1 0) sample_pools sample_keypair.
Proof. exists sample_creator. split; [reflexivity|]. split; [vm_compute; reflexivity|]. split; vm_compute; reflexivity. Qed.

Definition sample_round : outcome ModelsError (Slot * option (SecureShareBlock * Storage) * Pools) :=
  block_round sample_pool_config sample_factory_config sample_keys sample_inputs 40 None sample_pools.
(** The block holds the operation, the endorsement and the denunciation of the pools. *)
Lemma produced_block_accepted_witness :
  ∃ b st ps', sample_round = Ok (MkSlot 1 0, Some (b, st), ps') ∧ operations (content b) = [OperationIdV0 21]
    ∧ block_endorsement_ids b = [EndorsementIdV0 12]
    ∧ SecureShareBlockDeserializer (MkHeaderLimits 2 2 2 (Some 0) 77) 3 (serialized_data b ++ [7]) = Some (b, [7]).
Proof.
  destruct (produced_block_accepted sample_pool_config sample_wallet sample_sizes sample_factory_config sample_keys sample_inputs 40 None (MkSlot 1 0)
    sample_pools [] sample_keypair sample_factory_ok sample_pools_reached sample_slack sample_stored_good sample_inputs_ok ltac:(vm_compute; reflexivity)
    sample_slot_fits sample_to_produce) as (b & ps' & Hx & _ & _ & _ & _ & _ & Hread & _).
  exists b. do 2 eexists. split; [exact Hx|].
  apply (f_equal (λ r, match r with Ok (_, Some (b, _), _) => Some (operations (content b), block_endorsement_ids b) | _ => None end)) in Hx.
  vm_compute in Hx. injection Hx as Ho He. split; [symmetry; exact Ho|]. split; [symmetry; exact He|apply (Hread [7])].
Defined.

(** The clock goes back after the first round. *)
Definition sample_clock : list MassaTime := [40; 10; 10].
Definition sample_blocks_env : list (BlockInputs * MassaTime * Pools) := (λ now, (sample_inputs, now, sample_pools)) <$> sample_clock.
Definition sample_blocks_out : list (Slot * option (SecureShareBlock * Storage)) :=
  match block_run sample_pool_config sample_factory_config sample_keys sample_blocks_env None with Ok out => out | _ => [] end.
Lemma sample_blocks_run : block_run sample_pool_config sample_factory_config sample_keys sample_blocks_env None = Ok sample_blocks_out.
Proof. vm_compute. reflexivity. Qed.
Lemma sample_factory_clock : clock_ok 2 100 0.
Proof. apply (fo_clock _ _ _ _ sample_factory_ok). Qed.
Lemma no_double_block_witness :
  fst <$> sample_blocks_out = [MkSlot 1 0; MkSlot 1 1; MkSlot 2 0] ∧ length (produced_blocks sample_blocks_out) = 3%nat
  ∧ NoDup (block_slot <$> produced_blocks sample_blocks_out).
Proof.
  split; [vm_compute; reflexivity|]. split; [vm_compute; reflexivity|].
  exact (proj2 (proj2 (no_double_block sample_pool_config sample_factory_config sample_keys sample_blocks_env sample_blocks_out
    sample_factory_clock sample_blocks_run))).
Defined.

Definition sample_endorsements_env : list (option N * BlockId * MassaTime * Pools) :=
  (λ now, (Some 3, BlockIdV0 12, now, sample_pools)) <$> sample_clock.
Definition sample_endorsements_out : list (Slot * option (list SecureShareEndorsement * Storage)) :=
  match endorsement_run sample_sizes sample_factory_config sample_keys sample_endorsements_env None with Ok out => out | _ => [] end.
Lemma sample_endorsements_run :
  endorsement_run sample_sizes sample_factory_config sample_keys sample_endorsements_env None = Ok sample_endorsements_out.
Proof. vm_compute. reflexivity. Qed.
Lemma no_double_endorsement_witness :
  endorsement_place <$> made_endorsements sample_endorsements_out
    = [(MkSlot 1 1, 0); (MkSlot 1 1, 1); (MkSlot 2 0, 0); (MkSlot 2 0, 1); (MkSlot 2 1, 0); (MkSlot 2 1, 1)]
  ∧ NoDup (endorsement_place <$> made_endorsements sample_endorsements_out).
Proof.
  split; [vm_compute; reflexivity|].
  exact (proj2 (proj2 (no_double_endorsement sample_sizes sample_factory_config sample_keys sample_endorsements_env sample_endorsements_out
    sample_factory_clock sample_endorsements_run))).
Defined.

Lemma next_slot_exists_witness :
  ∃ s, compute_next_block_slot sample_factory_config None 40 = Ok s ∧ 90 ≤ slot_start 2 100 0 s.
Proof.
  destruct (next_slot_exists sample_factory_config None 40 (fo_clock _ _ _ _ sample_factory_ok)) as (s & s' & Hs & _ & _ & _ & Hd).
  - intros p Hp. discriminate Hp.
  - split; [vm_compute; discriminate|]. intros p Hp. discriminate Hp.
  - exists s. split; [exact Hs|exact (proj1 (Hd eq_refl))].
Defined.

Lemma sample_endorsements_good st : endorsements_ok sample_pool_config (p_shared sample_pools) st.
Proof.
  intros k e _ He.
  assert (({[EndorsementIdV0 12 := sample_vote]} : gmap EndorsementId SecureShareEndorsement) !! k = Some e) as Hk by (rewrite <-sample_endorsements_stored; exact He).
  apply lookup_singleton_Some in Hk as [_ <-]. split; [vm_compute; reflexivity|apply sample_vote_ok].
Qed.
Lemma drawn_endorsements_made_witness :
  ∃ es st ps', endorsement_round sample_sizes sample_factory_config sample_keys (Some 3) (BlockIdV0 12) 0 None sample_pools
      = Ok (MkSlot 1 0, Some (es, st), ps')
    ∧ ∃ e, e ∈ es ∧ content e = MkEndorsement (MkSlot 1 0) 1 (BlockIdV0 12).
Proof.
  destruct (drawn_endorsements_made sample_pool_config sample_wallet sample_sizes sample_factory_config sample_keys (Some 3) (BlockIdV0 12) 0 None (MkSlot 1 0)
    sample_pools [] (MkSelection [sample_creator; sample_creator] sample_creator) sample_factory_ok sample_pools_reached sample_slack
    sample_endorsements_good ltac:(vm_compute; reflexivity) ltac:(vm_compute; reflexivity) sample_slot_fits ltac:(reflexivity)
    ltac:(vm_compute; discriminate) ltac:(vm_compute; discriminate) ltac:(reflexivity)) as (es & ps' & Hx & _ & _ & _ & Hall & _).
  exists es. do 2 eexists. split; [exact Hx|].
  destruct (Hall 1 sample_creator ltac:(reflexivity) ltac:(eexists; vm_compute; reflexivity)) as (e & He & Hc & _).
  exists e. split; [exact He|exact Hc].
Defined.
