(* ===== verification/Database.v ===== *)
(** * The database

    [massa-db-worker/src/massa_db.rs] and [massa-db-exports]: a key-value database that
    keeps a hash of its content, the identifier of the last change and the last
    changes, and that can be streamed to another node while it is written to.

    The database of the crate [rocksdb] is the class [RocksDB]: a value with column
    families that are read, iterated in key order and written in batches; a failed
    write is [None], and reads do not fail.  The hash of an entry is the class [EntryHash].
    Lengths in memory are below [2^64], so sums of lengths do not wrap.  A [WriteBatch] is
    the list of its operations.  Backups and flushes of the files are not modelled. *)

From S2P Require Import Prelude Slots OrdMap Keys Models Wire Formats.

Open Scope N_scope.

(** ** RocksDB *)

Inductive ColumnFamily : Type := STATE_CF | METADATA_CF | VERSIONING_CF.

#[export] Instance ColumnFamily_eq_dec : EqDecision ColumnFamily.
Proof. solve_decision. Defined.

Inductive WriteOp : Type :=
  | PutCf (cf : ColumnFamily) (k v : Bytes)
  | DeleteCf (cf : ColumnFamily) (k : Bytes).

Class RocksDB : Type := {
  DB : Type;
  rocks_get : DB → ColumnFamily → Bytes → option Bytes;
  (** iteration from the first key, and from a key on, in key order *)
  rocks_start : DB → ColumnFamily → list (Bytes * Bytes);
  rocks_from : DB → ColumnFamily → Bytes → list (Bytes * Bytes);
  (** iteration for a prefix *)
  rocks_prefix : DB → ColumnFamily → Bytes → list (Bytes * Bytes);
  rocks_write : DB → list WriteOp → option DB;
  (** [size_in_bytes] of a batch *)
  rocks_batch_size : list WriteOp → N }.

(** [HashXof::compute_from_tuple] of a key and a value: [HASH_XOF_SIZE_BYTES] bytes *)
Class EntryHash : Type := entry_hash : Bytes → Bytes → Bytes.

(** ** Types *)

Notation DBBatch := (gmap Bytes (option Bytes)) (only parsing).

Record StreamBatch : Type := MkStreamBatch {
  new_elements : gmap Bytes Bytes;
  updates_on_previous_elements : DBBatch;
  batch_change_id : Slot }.

Definition batch_is_empty (b : StreamBatch) : bool :=
  bool_decide (updates_on_previous_elements b = ∅) && bool_decide (new_elements b = ∅).

Inductive MassaDBError : Type :=
  | InvalidChangeID (what : string)
  | DBTimeError (what : string)
  | CacheMissError (what : string)
  | RocksDBError (what : string)
  | DBHashError (what : string)
  | DBSerializeError (what : string).

Record MassaDBConfig : Type := MkMassaDBConfig {
  max_history_length : N;
  max_versioning_elements_size : N;
  max_final_state_elements_size : N;
  db_thread_count : N;
  enable_metrics : bool }.

Definition BOOTSTRAP_BATCH_ENTRY_OVERHEAD : N := 96.
Definition MIN_EXPECTED_BOOTSTRAP_ELEMENT_WIRE_SIZE : N := 16.
Definition bootstrap_batch_allocation_budget (section_wire_size : N) : N :=
  saturating_add u64_max section_wire_size
    (saturating_mul u64_max (section_wire_size / MIN_EXPECTED_BOOTSTRAP_ELEMENT_WIRE_SIZE)
       BOOTSTRAP_BATCH_ENTRY_OVERHEAD).

Definition STATE_HASH_BYTES_LEN : nat := 512.
Definition STATE_HASH_KEY : Bytes := [104].
Definition CHANGE_ID_KEY : Bytes := [99].
Definition STATE_HASH_INITIAL_BYTES : Bytes := replicate STATE_HASH_BYTES_LEN 0.
Definition CHANGE_ID_DESER_ERROR : string := "critical: change_id deserialization failed".
Definition CHANGE_ID_SER_ERROR : string := "critical: change_id serialization failed".
Definition CRUD_ERROR : string := "critical: rocksdb crud operation failed".
Definition STATE_HASH_ERROR : string := "critical: saved state hash is corrupted".
Definition CHANGES_TOO_RECENT : string :=
  "all our changes are strictly after last_change_id, we can't be sure we did not miss any".

(** [HashXof ^ HashXof] *)
Definition xor_bytes (a b : Bytes) : Bytes := zip_with N.lxor a b.

Section database.
Context `{!RocksDB} `{!EntryHash} `{!Varint}.

Record MassaDB : Type := MkMassaDB {
  db : DB;
  db_config : MassaDBConfig;
  change_history : list (Slot * DBBatch);
  change_history_versioning : list (Slot * DBBatch);
  change_history_sizes : list (Slot * (N * N)) }.
Implicit Types (d : MassaDB).

(** ** Metadata *)

Definition get_change_id d : outcome ModelsError Slot :=
  match rocks_get (db d) METADATA_CF CHANGE_ID_KEY with
  | None => Err (BufferError "Could not recover change_id in database")
  | Some bytes => expect CHANGE_ID_DESER_ERROR (fst <$> SlotDeserializer any_u64 (below (db_thread_count (db_config d))) bytes)
  end.
(** [get_change_id().expect(CHANGE_ID_DESER_ERROR)] *)
Definition current_change_id {E} d : outcome E Slot := expect_ok CHANGE_ID_DESER_ERROR (get_change_id d).

Definition get_xof_db_hash {E} d : outcome E Bytes :=
  match rocks_get (db d) METADATA_CF STATE_HASH_KEY with
  | None => Ok STATE_HASH_INITIAL_BYTES
  | Some bytes => if decide (length bytes = STATE_HASH_BYTES_LEN) then Ok bytes else Panic STATE_HASH_ERROR
  end.

Definition set_change_id_to_batch {E} (batch : list WriteOp) (change_id : Slot) : outcome E (list WriteOp) :=
  change_id_bytes ← expect_ok CHANGE_ID_SER_ERROR (SlotSerializer change_id);
  Ok (batch ++ [PutCf METADATA_CF CHANGE_ID_KEY change_id_bytes]).

Definition set_initial_change_id d (change_id : Slot) : outcome MassaDBError MassaDB :=
  batch ← set_change_id_to_batch [] change_id;
  db' ← expect CRUD_ERROR (rocks_write (db d) batch);
  Ok (MkMassaDB db' (db_config d) (change_history d) (change_history_versioning d) (change_history_sizes d)).

(** Opening a database: the change identifier is set if there is none. *)
Definition new_with_options (db : DB) (config : MassaDBConfig) : outcome MassaDBError MassaDB :=
  let d := MkMassaDB db config [] [] [] in
  match get_change_id d with
  | Ok _ => Ok d
  | Err _ => set_initial_change_id d (MkSlot 0 0)
  | Panic w => Panic w
  | OutOfFuel => OutOfFuel
  end.

(** ** Batches *)

Definition put_or_update_entry_value (batch : DBBatch) (k v : Bytes) : DBBatch := <[k := Some v]> batch.
Definition delete_key (batch : DBBatch) (k : Bytes) : DBBatch := <[k := None]> batch.

(** The operations of a batch on a column family. *)
Definition batch_op (cf : ColumnFamily) (e : Bytes * option Bytes) : WriteOp :=
  match e.2 with Some v => PutCf cf e.1 v | None => DeleteCf cf e.1 end.

(** The hash after one change of the state. *)
Definition hash_change (db : DB) (hash : Bytes) (e : Bytes * option Bytes) : Bytes :=
  let hash := match rocks_get db STATE_CF e.1 with
              | Some prev => xor_bytes hash (entry_hash e.1 prev)
              | None => hash
              end in
  match e.2 with Some v => xor_bytes hash (entry_hash e.1 v) | None => hash end.

(** [entry(id)] with [insert] or [extend] *)
Definition extend_history (h : list (Slot * DBBatch)) (id : Slot) (changes : DBBatch) : list (Slot * DBBatch) :=
  bt_insert id (match bt_get id h with Some old => changes ∪ old | None => changes end) h.
(** [entry(id)] with [insert] or [+=] *)
Definition extend_sizes (h : list (Slot * (N * N))) (id : Slot) (a b : N) : list (Slot * (N * N)) :=
  bt_insert id (match bt_get id h with Some (x, y) => (x + a, y + b) | None => (a, b) end) h.

(** How many of the oldest changes are dropped by [pop_first] until at most [max] are
    left. *)
Definition excess {A} (max : N) (h : list A) : nat := length h - N.to_nat max.

Definition write_changes d (changes versioning_changes : DBBatch) (change_id : option Slot) (reset_history : bool)
    : outcome MassaDBError MassaDB :=
  stale ← match change_id with
          | Some id => current ← current_change_id d; Ok (bool_decide (cmp_lt id current))
          | None => Ok false
          end;
  if (stale : bool) then Err (InvalidChangeID "change_id should monotonically increase after every write")
  else
    hash ← get_xof_db_hash d;
    let state_ops := batch_op STATE_CF <$> sorted_entries changes in
    let hash := foldl (hash_change (db d)) hash (sorted_entries changes) in
    let batch := state_ops ++ (batch_op VERSIONING_CF <$> sorted_entries versioning_changes) in
    sizes ← (if enable_metrics (db_config d) then
               current ← current_change_id d;
               Ok (extend_sizes (change_history_sizes d) current (rocks_batch_size state_ops)
                     (saturating_sub (rocks_batch_size batch) (rocks_batch_size state_ops)))
             else Ok (change_history_sizes d));
    batch ← match change_id with Some id => set_change_id_to_batch batch id | None => Ok batch end;
    let batch := batch ++ [PutCf METADATA_CF STATE_HASH_KEY hash] in
    db' ← ok_or (RocksDBError "Can't write batch to disk") (rocks_write (db d) batch);
    let d := MkMassaDB db' (db_config d) (change_history d) (change_history_versioning d) sizes in
    id ← current_change_id d;
    let h := extend_history (change_history d) id changes in
    let hv := extend_history (change_history_versioning d) id versioning_changes in
    let '(h, hv, sizes) := if (reset_history : bool) then ([], [], []) else (h, hv, sizes) in
    let max := max_history_length (db_config d) in
    Ok (MkMassaDB db' (db_config d) (drop (excess max h) h) (drop (excess max hv) hv) (drop (excess max h) sizes)).

Definition write_batch d (batch versioning_batch : DBBatch) (change_id : option Slot) : outcome MassaDBError MassaDB :=
  expect_ok CRUD_ERROR (write_changes d batch versioning_batch change_id false).

Fixpoint starts_with (prefix k : Bytes) : bool :=
  match prefix, k with
  | [], _ => true
  | x :: prefix, y :: k => (x =? y) && starts_with prefix k
  | _ :: _, [] => false
  end.

(** [take_while] the keys have the prefix *)
Fixpoint take_prefixed (prefix : Bytes) (l : list (Bytes * Bytes)) : list (Bytes * Bytes) :=
  match l with
  | [] => []
  | e :: l => if starts_with prefix e.1 then e :: take_prefixed prefix l else []
  end.

Definition delete_prefix d (prefix : Bytes) (cf : ColumnFamily) (change_id : option Slot)
    : outcome MassaDBError MassaDB :=
  let batch := foldl (λ b e, delete_key b e.1) ∅ (take_prefixed prefix (rocks_prefix (db d) cf prefix)) in
  match cf with
  | STATE_CF => write_batch d batch ∅ change_id
  | VERSIONING_CF => write_batch d ∅ batch change_id
  | METADATA_CF => Ok d
  end.

Definition reset_slot_and_history d (slot : Slot) : outcome MassaDBError MassaDB :=
  d ← set_initial_change_id d slot;
  Ok (MkMassaDB (db d) (db_config d) [] [] (change_history_sizes d)).

Definition get_cf d (cf : ColumnFamily) (k : Bytes) : option Bytes := rocks_get (db d) cf k.

Definition get_change_history_sizes d : N * N :=
  foldl (λ acc e, (acc.1 + e.2.1, acc.2 + e.2.2)) (0, 0) (change_history_sizes d).

(** ** Streaming *)

(** What changed since [last_change_id], for the keys already streamed. *)
Definition updates_since d (history : list (Slot * DBBatch)) (step : StreamingStep Bytes)
    (last_change_id : option Slot) : outcome MassaDBError DBBatch :=
  let bound := match step with Ongoing max_key => Included max_key | _ => Unbounded end in
  match step, last_change_id with
  | Started, _ => Ok ∅
  | _, Some last =>
      current ← current_change_id d;
      match cmp last current with
      | Gt => Err (CacheMissError "we don't have this change yet on this node (it's in the future for us)")
      | Eq => Ok ∅
      | Lt =>
          match history with
          | (first, _) :: _ =>
              if decide (cmp_le first last)
              then Ok (foldl (λ updates e, filter (λ x, in_range (Unbounded, bound) x.1 = true) e.2 ∪ updates) ∅
                         (filter (λ e, cmp_le last e.1) history))
              else Err (CacheMissError CHANGES_TOO_RECENT)
          | [] => Err (CacheMissError CHANGES_TOO_RECENT)
          end
      end
  | _, None =>
      Err (DBTimeError "State streaming was ongoing or finished, but no last_change_id was provided")
  end.

(** The size of an entry in a message. *)
Definition wire_size (k v : Bytes) : N :=
  N.of_nat (length k) + N.of_nat (length v)
  + N.of_nat (length (varint_encode U64 (N.of_nat (length k)) ++ varint_encode U64 (N.of_nat (length v)))).

(** Takes entries while they fit. *)
Fixpoint take_elements (skip_key : option Bytes) (max_size budget : N) (entries : list (Bytes * Bytes))
    (acc : gmap Bytes Bytes) (size footprint : N) : gmap Bytes Bytes :=
  match entries with
  | [] => acc
  | (k, v) :: entries =>
      if decide (skip_key = Some k) then take_elements skip_key max_size budget entries acc size footprint
      else
        let size := size + wire_size k v in
        let footprint := footprint + (wire_size k v + BOOTSTRAP_BATCH_ENTRY_OVERHEAD) in
        if (size <=? max_size) && ((footprint <=? budget) || bool_decide (acc = ∅))
        then take_elements skip_key max_size budget entries (<[k := v]> acc) size footprint
        else acc
  end.

Definition batch_of d (cf : ColumnFamily) (history : list (Slot * DBBatch)) (max_size : N)
    (step : StreamingStep Bytes) (last_change_id : option Slot) : outcome MassaDBError StreamBatch :=
  updates ← updates_since d history step last_change_id;
  let elements :=
    if finished step then ∅
    else
      let '(entries, skip_key) :=
        match step with
        | Ongoing max_key => (rocks_from (db d) cf max_key, Some max_key)
        | _ => (rocks_start (db d) cf, None)
        end in
      take_elements skip_key max_size (bootstrap_batch_allocation_budget max_size) entries ∅ 0 0 in
  id ← current_change_id d;
  Ok (MkStreamBatch elements updates id).

Definition get_batch_to_stream d (last_state_step : StreamingStep Bytes) (last_change_id : option Slot)
    : outcome MassaDBError StreamBatch :=
  batch_of d STATE_CF (change_history d) (max_final_state_elements_size (db_config d)) last_state_step last_change_id.
Definition get_versioning_batch_to_stream d (last_versioning_step : StreamingStep Bytes)
    (last_change_id : option Slot) : outcome MassaDBError StreamBatch :=
  batch_of d VERSIONING_CF (change_history_versioning d) (max_versioning_elements_size (db_config d))
    last_versioning_step last_change_id.

(** [last_key_value] *)
Definition last_key {A} (m : gmap Bytes A) : option Bytes := last (sorted_keys (dom m)).

(** The changes that a received batch makes. *)
Definition stream_changes_of (b : StreamBatch) : DBBatch := (Some <$> new_elements b) ∪ updates_on_previous_elements b.
Definition stream_cursor_of (b : StreamBatch) : StreamingStep Bytes :=
  match last_key (new_elements b) with Some k => Ongoing k | None => Finished None end.

Definition write_batch_bootstrap_client d (stream_changes stream_changes_versioning : StreamBatch)
    : outcome MassaDBError (StreamingStep Bytes * StreamingStep Bytes * MassaDB) :=
  d ← write_changes d (stream_changes_of stream_changes) (stream_changes_of stream_changes_versioning)
        (Some (batch_change_id stream_changes)) true;
  Ok (stream_cursor_of stream_changes, stream_cursor_of stream_changes_versioning, d).
End database.
