(* ===== verification/DatabaseFacts.v ===== *)
(** * The content of the database

    A write makes the changes it is given and nothing else; the hash that is kept is the
    one of the content, whatever the writes that led to it; and the history holds
    what changed since its first entry.  Then what each call does, and runs of them. *)

From S2P Require Import Prelude Slots OrdMap Keys KeyFacts Wire WireFacts Models Formats FormatFacts Database.

Open Scope N_scope.

(** ** What is known of RocksDB *)

Definition apply_op (cf : ColumnFamily) (m : gmap Bytes Bytes) (op : WriteOp) : gmap Bytes Bytes :=
  match op with
  | PutCf cf' k v => if decide (cf' = cf) then <[k := v]> m else m
  | DeleteCf cf' k => if decide (cf' = cf) then delete k m else m
  end.

(** A database stands for the content of its column families.  A batch is written as a whole,
    and writing it succeeds: the node stops when the disk fails. *)
Class RocksLaws `{!RocksDB} : Type := {
  contents : DB → ColumnFamily → gmap Bytes Bytes;
  rocks_get_spec : ∀ x cf k, rocks_get x cf k = contents x cf !! k;
  rocks_start_spec : ∀ x cf, rocks_start x cf = sorted_entries (contents x cf);
  rocks_from_spec : ∀ x cf k,
    rocks_from x cf k = filter (λ e, cmp_le k e.1) (sorted_entries (contents x cf));
  rocks_prefix_spec : ∀ x cf p, ∃ rest,
    rocks_prefix x cf p = filter (λ e, starts_with p e.1 = true) (sorted_entries (contents x cf)) ++ rest
    ∧ ∀ e, head rest = Some e → starts_with p e.1 = false;
  rocks_write_succeeds : ∀ x ops, is_Some (rocks_write x ops);
  rocks_write_contents : ∀ x ops x', rocks_write x ops = Some x' →
    ∀ cf, contents x' cf = foldl (apply_op cf) (contents x cf) ops }.
Lemma rocks_write_spec `{!RocksDB} `{!RocksLaws} (x : DB) ops :
  ∃ x', rocks_write x ops = Some x' ∧ ∀ cf, contents x' cf = foldl (apply_op cf) (contents x cf) ops.
Proof. destruct (rocks_write_succeeds x ops) as [x' Hx']. exists x'. split; [done|]. by apply rocks_write_contents. Qed.

Class EntryHashLaws `{!EntryHash} : Prop :=
  length_entry_hash : ∀ k v, length (entry_hash k v) = STATE_HASH_BYTES_LEN.

(** ** Batches *)

(** The content after a batch. *)
Definition apply_batch (m : gmap Bytes Bytes) (b : DBBatch) : gmap Bytes Bytes :=
  merge (λ v c, match c with Some c => c | None => v end) m b.

Lemma lookup_apply_batch (m : gmap Bytes Bytes) (b : DBBatch) (k : Bytes) :
  apply_batch m b !! k = match b !! k with Some c => c | None => m !! k end.
Proof. unfold apply_batch. rewrite lookup_merge. by destruct (m !! k), (b !! k). Qed.
Lemma apply_batch_empty (m : gmap Bytes Bytes) : apply_batch m ∅ = m.
Proof. apply map_eq. intros k. by rewrite lookup_apply_batch, lookup_empty. Qed.
(** Batches one after the other are their union, the later one first. *)
Lemma apply_batch_app (m : gmap Bytes Bytes) (b b' : DBBatch) : apply_batch (apply_batch m b) b' = apply_batch m (b' ∪ b).
Proof.
  apply map_eq. intros k. rewrite !lookup_apply_batch, lookup_union. by destruct (b' !! k), (b !! k).
Qed.
(** A batch that was applied changes nothing. *)
Lemma apply_batch_agrees (m : gmap Bytes Bytes) (b : DBBatch) : (∀ k c, b !! k = Some c → m !! k = c) → apply_batch m b = m.
Proof.
  intros Hb. apply map_eq. intros k. rewrite lookup_apply_batch. destruct (b !! k) eqn:Hk; [|done]. by rewrite (Hb k _ Hk).
Qed.

Lemma NoDup_sorted_entries {A} (m : gmap Bytes A) : NoDup (sorted_entries m).*1.
Proof. apply sorted_NoDup, sorted_entries_sorted. Qed.

Lemma lookup_batch_op (cf : ColumnFamily) (m : gmap Bytes Bytes) (k k' : Bytes) (c : option Bytes) :
  apply_op cf m (batch_op cf (k', c)) !! k = if decide (k = k') then c else m !! k.
Proof.
  destruct c as [v|]; unfold batch_op, apply_op; cbn [fst snd]; rewrite (decide_True (P := cf = cf)) by done;
    case_decide as Hk; subst; by rewrite ?lookup_insert_eq, ?lookup_insert_ne, ?lookup_delete_eq, ?lookup_delete_ne by done.
Qed.

Lemma foldl_batch_op (cf : ColumnFamily) (m : gmap Bytes Bytes) (l : list (Bytes * option Bytes)) (k : Bytes) :
  NoDup l.*1 →
  (∀ c, (k, c) ∈ l → foldl (apply_op cf) m (batch_op cf <$> l) !! k = c)
  ∧ (k ∉ l.*1 → foldl (apply_op cf) m (batch_op cf <$> l) !! k = m !! k).
Proof.
  intros Hnd. rewrite (foldl_fmap (apply_op cf) m l (batch_op cf)).
  apply (foldl_reads_list (λ m e, apply_op cf m (batch_op cf e)) (.!! k) (λ _ c, c) k); [|done].
  intros m' [k' c]. apply lookup_batch_op.
Qed.

Lemma foldl_batch_ops (cf : ColumnFamily) (m : gmap Bytes Bytes) (b : DBBatch) :
  foldl (apply_op cf) m (batch_op cf <$> sorted_entries b) = apply_batch m b.
Proof.
  apply map_eq. intros k. rewrite lookup_apply_batch.
  destruct (foldl_batch_op cf m (sorted_entries b) k (NoDup_sorted_entries b)) as [H1 H2].
  destruct (b !! k) as [c|] eqn:Hk; [apply H1; by apply elem_of_sorted_entries|].
  apply H2. rewrite fst_sorted_entries, elem_of_sorted_keys. by apply not_elem_of_dom.
Qed.

(** The operations on another column family. *)
Lemma foldl_batch_other (cf cf' : ColumnFamily) (m : gmap Bytes Bytes) (l : list (Bytes * option Bytes)) :
  cf ≠ cf' → foldl (apply_op cf) m (batch_op cf' <$> l) = m.
Proof.
  intros Hne. induction l as [|[k [v|]] l IH]; [done|..]; cbn; by rewrite decide_False by done.
Qed.

(** ** The hash of the content *)

Section hash.
Context `{!EntryHash} `{!EntryHashLaws}.
Implicit Types (m : gmap Bytes Bytes) (h a b : Bytes).

Lemma xor_bytes_swap h a b : xor_bytes (xor_bytes h a) b = xor_bytes (xor_bytes h b) a.
Proof using.
  unfold xor_bytes. revert a b. induction h as [|x h IH]; intros [|y a] [|z b]; cbn; try done.
  f_equal; [|apply IH]. rewrite !N.lxor_assoc. f_equal. apply N.lxor_comm.
Qed.
Lemma xor_bytes_cancel h a : length h = length a → xor_bytes (xor_bytes h a) a = h.
Proof using.
  unfold xor_bytes. revert a. induction h as [|x h IH]; intros [|y a] Hl; try done. cbn in *.
  f_equal; [|apply IH; lia]. by rewrite N.lxor_assoc, N.lxor_nilpotent, N.lxor_0_r.
Qed.
Lemma length_xor_bytes h a : length h = length a → length (xor_bytes h a) = length h.
Proof using. intros Hl. unfold xor_bytes. rewrite length_zip_with. lia. Qed.

(** All the entries combined, in any order. *)
Definition content_hash m : Bytes :=
  map_fold (λ k v h, xor_bytes h (entry_hash k v)) STATE_HASH_INITIAL_BYTES m.

Lemma content_hash_insert m k v :
  m !! k = None → content_hash (<[k := v]> m) = xor_bytes (content_hash m) (entry_hash k v).
Proof using.
  intros Hk. unfold content_hash. rewrite map_fold_insert_L; [done| |done].
  intros. apply xor_bytes_swap.
Qed.
Lemma length_content_hash m : length (content_hash m) = STATE_HASH_BYTES_LEN.
Proof using All.
  induction m as [|k v m Hk IH] using map_ind; [apply length_replicate|].
  rewrite content_hash_insert by done. rewrite length_xor_bytes; [done|]. by rewrite length_entry_hash.
Qed.
Lemma content_hash_delete m k v :
  m !! k = Some v → xor_bytes (content_hash m) (entry_hash k v) = content_hash (delete k m).
Proof using All.
  intros Hk. rewrite <-(insert_delete_id m k v Hk) at 1. rewrite content_hash_insert by apply lookup_delete_eq.
  apply xor_bytes_cancel. by rewrite length_content_hash, length_entry_hash.
Qed.

Context `{!RocksDB} `{!RocksLaws}.

Lemma hash_change_spec (x : DB) m k c :
  m !! k = contents x STATE_CF !! k →
  hash_change x (content_hash m) (k, c) = content_hash (apply_op STATE_CF m (batch_op STATE_CF (k, c))).
Proof using All.
  intros Hk. unfold hash_change. cbn [fst snd]. rewrite rocks_get_spec, <- Hk.
  assert (match m !! k with Some prev => xor_bytes (content_hash m) (entry_hash k prev) | None => content_hash m end
          = content_hash (delete k m)) as ->.
  { destruct (m !! k) eqn:Hm; [by apply content_hash_delete|by rewrite delete_id]. }
  destruct c as [v|]; cbn; [|done]. rewrite <-(content_hash_insert (delete k m) k v), insert_delete_eq; [done|apply lookup_delete_eq].
Qed.

Lemma foldl_hash_change (x : DB) m (l : list (Bytes * option Bytes)) :
  NoDup l.*1 → (∀ k, k ∈ l.*1 → m !! k = contents x STATE_CF !! k) →
  foldl (hash_change x) (content_hash m) l = content_hash (foldl (apply_op STATE_CF) m (batch_op STATE_CF <$> l)).
Proof using All.
  revert m. induction l as [|[k c] l IH]; intros m Hnd Hm; [done|]. cbn [foldl fmap list_fmap].
  apply NoDup_cons in Hnd as [Hni Hnd]. rewrite hash_change_spec by (apply Hm; by left).
  apply IH; [done|]. intros k' Hk'. rewrite <-(Hm k') by (by right).
  rewrite lookup_batch_op, decide_False; [done|]. by intros ->.
Qed.

Lemma hash_of_changes (x : DB) (b : DBBatch) :
  foldl (hash_change x) (content_hash (contents x STATE_CF)) (sorted_entries b)
  = content_hash (apply_batch (contents x STATE_CF) b).
Proof using All. rewrite foldl_hash_change, foldl_batch_ops; [done|apply NoDup_sorted_entries|done]. Qed.
End hash.

(** ** The history *)

(** A history of changes up to the one of [id], the last of which was made. *)
Record history_ok (m : gmap Bytes Bytes) (id : Slot) (h : list (Slot * DBBatch)) : Prop := {
  ho_sorted : bt_sorted h;
  ho_below : ∀ s b, (s, b) ∈ h → cmp_le s id;
  ho_last : ∀ b, (id, b) ∈ h → ∀ k c, b !! k = Some c → m !! k = c }.

Lemma history_ok_nil m id : history_ok m id [].
Proof. split; [apply bt_sorted_nil|by intros s b ?%elem_of_nil|by intros b ?%elem_of_nil]. Qed.

Lemma bt_sorted_drop {V} (h : list (Slot * V)) n : bt_sorted h → bt_sorted (drop n h).
Proof.
  unfold bt_sorted. rewrite fmap_drop. intros Hs. rewrite <-(take_drop n h.*1) in Hs.
  by apply StronglySorted_app in Hs as (_ & _ & ?).
Qed.

Lemma history_ok_drop m id h n : history_ok m id h → history_ok m id (drop n h).
Proof.
  intros [Hs Hb Hl]. assert (∀ e, e ∈ drop n h → e ∈ h) as Hsub.
  { intros e He. rewrite <-(take_drop n h). apply elem_of_app. by right. }
  split; [by apply bt_sorted_drop|naive_solver..].
Qed.

Lemma history_ok_extend m id id' h ch :
  history_ok m id h → cmp_le id id' → history_ok (apply_batch m ch) id' (extend_history h id' ch).
Proof.
  intros [Hs Hb Hl] Hle. unfold extend_history. split.
  - by apply bt_sorted_insert.
  - intros s b [[= -> ->]|Hin]%elem_of_bt_insert; [by apply cmp_le_refl|]. etrans; [by eapply Hb|done].
  - intros b Hin%elem_of_bt; [|by apply bt_sorted_insert]. rewrite bt_get_insert_eq in Hin. injection Hin as <-.
    intros k c Hk. rewrite lookup_apply_batch. destruct (bt_get id' h) as [old|] eqn:Hold; [|by rewrite Hk].
    apply elem_of_bt in Hold; [|done].
    assert (id' = id) as -> by (apply cmp_le_antisym; [by eapply Hb|done]).
    rewrite lookup_union in Hk. destruct (ch !! k) as [c'|]; [by rewrite union_Some_l in Hk; simplify_eq|].
    rewrite (left_id_L None (∪)) in Hk. by eapply Hl.
Qed.

(** ** Writing *)

Section writing.
Context `{!RocksDB} `{!RocksLaws} `{!EntryHash} `{!EntryHashLaws} `{!Varint} `{VL : !VarintLaws}.
Implicit Types (d : MassaDB) (id : Slot).

Notation content d cf := (contents (db d) cf).

(** Change identifiers that the format covers are read back. *)
Definition change_id_ok d id : Prop := FormatFacts.slot_ok any_u64 (below (db_thread_count (db_config d))) id.
(** A database whose last change is the one of [id]. *)
Record db_at d id : Prop := {
  at_id : ∃ bytes, SlotSerializer id = Ok bytes ∧ content d METADATA_CF !! CHANGE_ID_KEY = Some bytes;
  at_id_ok : change_id_ok d id;
  at_hash : default STATE_HASH_INITIAL_BYTES (content d METADATA_CF !! STATE_HASH_KEY)
            = content_hash (content d STATE_CF);
  at_history : history_ok (content d STATE_CF) id (change_history d);
  at_versioning : history_ok (content d VERSIONING_CF) id (change_history_versioning d) }.

Lemma change_id_read d id b :
  change_id_ok d id → SlotSerializer id = Ok b → SlotDeserializer any_u64 (below (db_thread_count (db_config d))) b = Some (id, []).
Proof using VL.
  intros Hok Hb. destruct (wire_read _ _ _ id Hok) as (b' & Hb' & _ & HD). rewrite Hb in Hb'. injection Hb' as <-.
  specialize (HD []). by rewrite app_nil_r in HD.
Qed.
Lemma change_id_written {E} d id batch :
  change_id_ok d id → ∃ b, SlotSerializer id = Ok b
    ∧ set_change_id_to_batch (E := E) batch id = Ok (batch ++ [PutCf METADATA_CF CHANGE_ID_KEY b]).
Proof using VL.
  intros Hok. destruct (wire_read _ _ _ id Hok) as (b & Hb & _). exists b. split; [done|]. unfold set_change_id_to_batch. by rewrite Hb.
Qed.
Lemma get_change_id_spec d id : db_at d id → get_change_id d = Ok id.
Proof using VL.
  intros Hd. unfold get_change_id. destruct (at_id d id Hd) as (b & Hb & Hx). rewrite rocks_get_spec, Hx.
  by rewrite (change_id_read d id b (at_id_ok d id Hd) Hb).
Qed.
Lemma current_change_id_spec {E} d id : db_at d id → current_change_id (E := E) d = Ok id.
Proof using VL. intros Hd. unfold current_change_id. by rewrite (get_change_id_spec d id Hd). Qed.

Lemma get_xof_db_hash_spec {E} d id : db_at d id → get_xof_db_hash (E := E) d = Ok (content_hash (content d STATE_CF)).
Proof using All.
  intros Hd. unfold get_xof_db_hash. rewrite rocks_get_spec. pose proof (at_hash d id Hd) as Hh.
  destruct (content d METADATA_CF !! STATE_HASH_KEY) as [b|]; cbn [default from_option Datatypes.id] in Hh; [|by rewrite <- Hh].
  rewrite decide_True; [by rewrite Hh|]. by rewrite Hh, length_content_hash.
Qed.

(** What a batch of the form written by [write_changes] does. *)
Lemma apply_full_batch (x x' : DB) (ch vch : DBBatch) (id_bytes : option Bytes) (hash : Bytes) :
  (∀ cf, contents x' cf = foldl (apply_op cf) (contents x cf)
     (match id_bytes with
      | Some b => ((batch_op STATE_CF <$> sorted_entries ch) ++ (batch_op VERSIONING_CF <$> sorted_entries vch))
                    ++ [PutCf METADATA_CF CHANGE_ID_KEY b]
      | None => (batch_op STATE_CF <$> sorted_entries ch) ++ (batch_op VERSIONING_CF <$> sorted_entries vch)
      end ++ [PutCf METADATA_CF STATE_HASH_KEY hash])) →
  contents x' STATE_CF = apply_batch (contents x STATE_CF) ch
  ∧ contents x' VERSIONING_CF = apply_batch (contents x VERSIONING_CF) vch
  ∧ contents x' METADATA_CF !! STATE_HASH_KEY = Some hash
  ∧ contents x' METADATA_CF !! CHANGE_ID_KEY
    = match id_bytes with Some b => Some b | None => contents x METADATA_CF !! CHANGE_ID_KEY end.
Proof using.
  intros Hx. rewrite !Hx.
  destruct id_bytes as [b|]; rewrite !foldl_app; rewrite (foldl_batch_ops STATE_CF), (foldl_batch_ops VERSIONING_CF);
    rewrite !foldl_batch_other by done; repeat split; cbn [foldl apply_op];
    repeat (case_decide; try done); by rewrite ?lookup_insert_eq, ?lookup_insert_ne, ?lookup_insert_eq by done.
Qed.

Lemma write_changes_spec d id (ch vch : DBBatch) (oid : option Slot) (reset : bool) :
  db_at d id → cmp_le id (default id oid) → change_id_ok d (default id oid) →
  ∃ d', write_changes d ch vch oid reset = Ok d'
        ∧ db_at d' (default id oid) ∧ db_config d' = db_config d
        ∧ content d' STATE_CF = apply_batch (content d STATE_CF) ch
        ∧ content d' VERSIONING_CF = apply_batch (content d VERSIONING_CF) vch
        ∧ (let max := max_history_length (db_config d) in
           let h := if reset then [] else extend_history (change_history d) (default id oid) ch in
           let hv := if reset then [] else extend_history (change_history_versioning d) (default id oid) vch in
           change_history d' = drop (excess max h) h ∧ change_history_versioning d' = drop (excess max hv) hv).
Proof using All.
  intros Hd Hle Hok. unfold write_changes.
  assert (match oid with
          | Some i => current ← current_change_id d; Ok (bool_decide (cmp_lt i current))
          | None => Ok false
          end = Ok (E := MassaDBError) false) as ->.
  { destruct oid as [i|]; [|done]. rewrite (current_change_id_spec d id Hd). cbn [mbind outcome_bind].
    f_equal. apply bool_decide_eq_false. intros Hlt%cmp_lt_not_le. done. }
  rewrite (get_xof_db_hash_spec d id Hd). cbn [mbind outcome_bind]. rewrite hash_of_changes.
  match goal with |- context [if enable_metrics _ then ?a else ?b] =>
    assert (∃ sizes, (if enable_metrics (db_config d) then a else b) = Ok sizes) as [sizes ->] end.
  { rewrite (current_change_id_spec d id Hd). case_match; by eexists. }
  cbn [mbind outcome_bind].
  assert (∃ id_bytes, (match id_bytes with Some b => SlotSerializer (default id oid) = Ok b | None => oid = None end)
    ∧ ∀ batch, match oid with Some i => set_change_id_to_batch batch i | None => Ok (E := MassaDBError) batch end
        = Ok (match id_bytes with Some b => batch ++ [PutCf METADATA_CF CHANGE_ID_KEY b] | None => batch end)) as (id_bytes & Hib & Hset).
  { destruct oid as [i|]; [|by exists None]. destruct (change_id_written (E := MassaDBError) d i [] Hok) as (b & Hb & _). exists (Some b). split; [done|].
    intros batch. unfold set_change_id_to_batch. cbn in Hb. by rewrite Hb. }
  rewrite Hset. cbn [mbind outcome_bind].
  match goal with |- context [rocks_write ?x ?ops] => destruct (rocks_write_spec x ops) as (x' & -> & Hx') end.
  cbn [ok_or mbind outcome_bind]. apply apply_full_batch in Hx' as (Hs & Hv & Hh & Hi).
  set (d1 := MkMassaDB x' _ _ _ sizes).
  assert (∃ bytes, SlotSerializer (default id oid) = Ok bytes ∧ contents x' METADATA_CF !! CHANGE_ID_KEY = Some bytes) as Hi'.
  { rewrite Hi. destruct id_bytes as [b|]; [by exists b|]. rewrite Hib. apply (at_id d id Hd). }
  assert (current_change_id (E := MassaDBError) d1 = Ok (default id oid)) as ->.
  { destruct Hi' as (b & Hb & Hx). unfold current_change_id, get_change_id. rewrite rocks_get_spec. cbn [db d1]. rewrite Hx.
    by rewrite (change_id_read d1 _ b Hok Hb). }
  cbn [mbind outcome_bind]. destruct Hd as [_ _ _ Hhist Hver].
  pose proof (history_ok_extend _ _ _ _ ch Hhist Hle) as Hext. pose proof (history_ok_extend _ _ _ _ vch Hver Hle) as Hextv.
  destruct reset; eexists; (split; [done|]); (split; [split; cbn; rewrite ?Hs, ?Hv|]); try done;
    try (by rewrite Hh); by auto using history_ok_nil, history_ok_drop.
Qed.
End writing.

(** ** Runs of the database

    What each call on the database does to its content, and the invariant that all of them
    keep: the hash is the one of the content, and the history ends at the last change. *)

Section prefixes.
Context `{!RocksDB} `{!RocksLaws}.

Lemma take_prefixed_filter (p : Bytes) (l rest : list (Bytes * Bytes)) :
  Forall (λ e, starts_with p e.1 = true) l → (∀ e, head rest = Some e → starts_with p e.1 = false) →
  take_prefixed p (l ++ rest) = l.
Proof using.
  intros Hl Hrest. induction Hl as [|e l He _ IH]; cbn; [|by rewrite He, IH].
  destruct rest as [|e rest]; [done|]. cbn. by rewrite (Hrest e eq_refl).
Qed.
Lemma prefixed_entries (x : DB) (cf : ColumnFamily) (p : Bytes) :
  take_prefixed p (rocks_prefix x cf p) = filter (λ e, starts_with p e.1 = true) (sorted_entries (contents x cf)).
Proof using All.
  destruct (rocks_prefix_spec x cf p) as (rest & -> & Hrest). apply take_prefixed_filter; [|done].
  apply Forall_forall. intros e He. by apply list_elem_of_filter in He as [? _].
Qed.
(** The batch that deletes the keys of a list. *)
Lemma lookup_deletions (l : list (Bytes * Bytes)) (b : DBBatch) k :
  foldl (λ b e, delete_key b e.1) b l !! k = if decide (k ∈ l.*1) then Some None else b !! k.
Proof using.
  revert b. induction l as [|[k' v] l IH]; intros b; cbn [foldl]; [by rewrite decide_False by apply not_elem_of_nil|].
  rewrite IH. unfold delete_key. cbn [fmap list_fmap fst]. destruct (decide (k ∈ l.*1)) as [Hin|Hni].
  - by rewrite decide_True by (by right).
  - destruct (decide (k = k')) as [->|Hne]; [by rewrite lookup_insert_eq, decide_True by (by left)|].
    rewrite lookup_insert_ne by done. rewrite decide_False; [done|]. by intros [?|?]%elem_of_cons.
Qed.
Lemma apply_deletions (x : DB) (cf : ColumnFamily) (p : Bytes) :
  apply_batch (contents x cf) (foldl (λ b e, delete_key b e.1) ∅ (take_prefixed p (rocks_prefix x cf p)))
  = filter (λ e, starts_with p e.1 = false) (contents x cf).
Proof using All.
  apply map_eq. intros k. rewrite lookup_apply_batch, lookup_deletions, prefixed_entries.
  destruct (starts_with p k) eqn:Hp.
  - rewrite map_lookup_filter_None_2 by (right; intros v _; cbn; congruence).
    destruct (decide _) as [_|Hni]; [done|]. rewrite lookup_empty. destruct (contents x cf !! k) as [v|] eqn:Hv; [|done].
    destruct Hni. apply (list_elem_of_fmap_2' fst _ (k, v)); [|done]. apply list_elem_of_filter. split; [done|]. by apply elem_of_sorted_entries.
  - rewrite decide_False, lookup_empty.
    + symmetry. destruct (contents x cf !! k) as [v|] eqn:Hv; [by apply map_lookup_filter_Some_2|by apply map_lookup_filter_None_2; left].
    + intros ([k' v] & Heq & [Hs _]%list_elem_of_filter)%list_elem_of_fmap. cbn in *. subst. congruence.
Qed.
End prefixes.

Section runs.
Context `{!RocksDB} `{!RocksLaws} `{!EntryHash} `{!EntryHashLaws} `{!Varint} `{VL : !VarintLaws}.
Implicit Types (d : MassaDB) (id : Slot).
Notation content d cf := (contents (db d) cf).

(** A new database. *)
Lemma new_with_options_spec (x : DB) (config : MassaDBConfig) :
  (∀ cf, contents x cf = ∅) → 0 < db_thread_count config →
  ∃ d, new_with_options x config = Ok d ∧ db_at d (MkSlot 0 0) ∧ db_config d = config
    ∧ content d STATE_CF = ∅ ∧ content d VERSIONING_CF = ∅ ∧ change_history d = [] ∧ change_history_versioning d = [].
Proof using All.
  intros Hx Htc. unfold new_with_options, get_change_id. cbn [db]. rewrite rocks_get_spec, Hx, lookup_empty. unfold set_initial_change_id.
  set (d := MkMassaDB x config [] [] []).
  assert (change_id_ok d (MkSlot 0 0)) as Hok by (split_and!; [done|done|done|by apply in_range_below]).
  destruct (change_id_written (E := MassaDBError) d (MkSlot 0 0) [] Hok) as (b & Hb & ->). cbn [mbind outcome_bind app].
  destruct (rocks_write_spec (db d) [PutCf METADATA_CF CHANGE_ID_KEY b]) as (x' & -> & Hx'). cbn [expect mbind outcome_bind].
  eexists. split; [done|]. assert (contents x' STATE_CF = ∅ ∧ contents x' VERSIONING_CF = ∅) as [Hs Hv] by (by rewrite !Hx', !Hx).
  split; [|by split_and!]. split; cbn [db change_history change_history_versioning]; [|done| |apply history_ok_nil..].
  - exists b. split; [done|]. rewrite Hx', Hx. cbn [foldl apply_op]. by rewrite decide_True, lookup_insert_eq by done.
  - rewrite Hs, Hx', Hx. cbn [foldl apply_op]. by rewrite decide_True, lookup_insert_ne, lookup_empty by done.
Qed.

(** The identifier is set, whatever it was. *)
Lemma set_initial_spec d id slot :
  db_at d id → change_id_ok d slot →
  ∃ x', set_initial_change_id d slot = Ok (MkMassaDB x' (db_config d) (change_history d) (change_history_versioning d) (change_history_sizes d))
    ∧ contents x' STATE_CF = content d STATE_CF ∧ contents x' VERSIONING_CF = content d VERSIONING_CF
    ∧ ∀ sizes, db_at (MkMassaDB x' (db_config d) [] [] sizes) slot.
Proof using All.
  intros Hd Hok. unfold set_initial_change_id.
  destruct (change_id_written (E := MassaDBError) d slot [] Hok) as (b & Hb & ->). cbn [mbind outcome_bind app].
  destruct (rocks_write_spec (db d) [PutCf METADATA_CF CHANGE_ID_KEY b]) as (x' & -> & Hx'). cbn [expect mbind outcome_bind].
  exists x'. split; [done|]. assert (contents x' STATE_CF = content d STATE_CF ∧ contents x' VERSIONING_CF = content d VERSIONING_CF) as [Hs Hv] by (by rewrite !Hx').
  split; [done|]. split; [done|]. intros sizes. split; cbn [db change_history change_history_versioning]; [|done| |apply history_ok_nil..].
  - exists b. split; [done|]. rewrite Hx'. cbn [foldl apply_op]. by rewrite decide_True, lookup_insert_eq by done.
  - rewrite Hs, Hx'. cbn [foldl apply_op]. rewrite decide_True, lookup_insert_ne by done. apply (at_hash d id Hd).
Qed.
Lemma reset_slot_spec d id slot :
  db_at d id → change_id_ok d slot →
  ∃ d', reset_slot_and_history d slot = Ok d' ∧ db_at d' slot ∧ db_config d' = db_config d
    ∧ content d' STATE_CF = content d STATE_CF ∧ content d' VERSIONING_CF = content d VERSIONING_CF.
Proof using All.
  intros Hd Hok. unfold reset_slot_and_history. destruct (set_initial_spec d id slot Hd Hok) as (x' & -> & Hs & Hv & Hd').
  cbn [mbind outcome_bind]. eexists. split; [done|]. split; [apply Hd'|done].
Qed.

Lemma write_batch_spec d id (ch vch : DBBatch) (oid : option Slot) :
  db_at d id → cmp_le id (default id oid) → change_id_ok d (default id oid) →
  ∃ d', write_batch d ch vch oid = Ok d' ∧ db_at d' (default id oid) ∧ db_config d' = db_config d
    ∧ content d' STATE_CF = apply_batch (content d STATE_CF) ch ∧ content d' VERSIONING_CF = apply_batch (content d VERSIONING_CF) vch
    ∧ (let max := max_history_length (db_config d) in
       let h := extend_history (change_history d) (default id oid) ch in
       let hv := extend_history (change_history_versioning d) (default id oid) vch in
       change_history d' = drop (excess max h) h ∧ change_history_versioning d' = drop (excess max hv) hv).
Proof using All.
  intros Hd Hle Hok. unfold write_batch. destruct (write_changes_spec d id ch vch oid false Hd Hle Hok) as (d' & -> & Hd' & Hc & Hs & Hv & Hh).
  by exists d'.
Qed.
(** A write with an older identifier does not pass. *)
Lemma stale_write d id (ch vch : DBBatch) slot (reset : bool) :
  db_at d id → cmp_lt slot id →
  write_changes d ch vch (Some slot) reset = Err (InvalidChangeID "change_id should monotonically increase after every write").
Proof using All.
  intros Hd Hlt. unfold write_changes. rewrite (current_change_id_spec d id Hd). cbn [mbind outcome_bind]. by rewrite bool_decide_true by done.
Qed.

Lemma delete_prefix_spec d id (p : Bytes) (oid : option Slot) :
  db_at d id → cmp_le id (default id oid) → change_id_ok d (default id oid) →
  ∃ d', delete_prefix d p STATE_CF oid = Ok d' ∧ db_at d' (default id oid) ∧ db_config d' = db_config d
    ∧ content d' STATE_CF = filter (λ e, starts_with p e.1 = false) (content d STATE_CF)
    ∧ content d' VERSIONING_CF = content d VERSIONING_CF.
Proof using All.
  intros Hd Hle Hok. unfold delete_prefix. destruct (write_batch_spec d id
    (foldl (λ b e, delete_key b e.1) ∅ (take_prefixed p (rocks_prefix (db d) STATE_CF p))) ∅ oid Hd Hle Hok) as (d' & -> & Hd' & Hc & Hs & Hv & _).
  exists d'. split_and!; [done|done|done| |by rewrite Hv, apply_batch_empty]. by rewrite Hs, apply_deletions.
Qed.
Lemma delete_versioning_spec d id (p : Bytes) (oid : option Slot) :
  db_at d id → cmp_le id (default id oid) → change_id_ok d (default id oid) →
  ∃ d', delete_prefix d p VERSIONING_CF oid = Ok d' ∧ db_at d' (default id oid) ∧ db_config d' = db_config d
    ∧ content d' STATE_CF = content d STATE_CF
    ∧ content d' VERSIONING_CF = filter (λ e, starts_with p e.1 = false) (content d VERSIONING_CF).
Proof using All.
  intros Hd Hle Hok. unfold delete_prefix. destruct (write_batch_spec d id ∅
    (foldl (λ b e, delete_key b e.1) ∅ (take_prefixed p (rocks_prefix (db d) VERSIONING_CF p))) oid Hd Hle Hok) as (d' & -> & Hd' & Hc & Hs & Hv & _).
  exists d'. split_and!; [done|done|done|by rewrite Hs, apply_batch_empty|]. by rewrite Hv, apply_deletions.
Qed.

(** A database that is opened again has its content and no history. *)
Lemma reopen_spec d id :
  db_at d id → ∃ d', new_with_options (db d) (db_config d) = Ok d' ∧ db_at d' id ∧ db_config d' = db_config d ∧ db d' = db d.
Proof using All.
  intros Hd. unfold new_with_options. set (d' := MkMassaDB _ _ _ _ _).
  assert (db_at d' id) as Hd' by (destruct Hd; split; cbn; [done..|apply history_ok_nil|apply history_ok_nil]).
  rewrite (get_change_id_spec d' id Hd'). by exists d'.
Qed.

(** ** Runs *)

Inductive DbEvent : Type :=
  | DbWrite (batch versioning_batch : DBBatch) (change_id : option Slot)
  | DbDeletePrefix (prefix : Bytes) (cf : ColumnFamily) (change_id : option Slot)
  | DbResetSlot (slot : Slot)
  | DbReopen
  (** a part of a stream, written by a client *)
  | DbStreamPart (part versioning_part : StreamBatch).
Implicit Types (ev : DbEvent).

Definition db_event d ev : outcome MassaDBError MassaDB :=
  match ev with
  | DbWrite b vb oid => write_batch d b vb oid
  | DbDeletePrefix p cf oid => delete_prefix d p cf oid
  | DbResetSlot slot => reset_slot_and_history d slot
  | DbReopen => new_with_options (db d) (db_config d)
  | DbStreamPart part vpart => '(_, _, d) ← write_batch_bootstrap_client d part vpart; Ok d
  end.

(** The identifier of the last change after an event. *)
Definition next_id id ev : Slot :=
  match ev with
  | DbWrite _ _ oid => default id oid
  | DbDeletePrefix _ METADATA_CF _ => id
  | DbDeletePrefix _ _ oid => default id oid
  | DbResetSlot slot => slot
  | DbReopen => id
  | DbStreamPart part _ => batch_change_id part
  end.
(** Identifiers do not go back, except for a reset. *)
Definition id_ok (thread_count : N) id ev : Prop :=
  FormatFacts.slot_ok any_u64 (below thread_count) (next_id id ev)
  ∧ match ev with DbResetSlot _ => True | _ => cmp_le id (next_id id ev) end.
Fixpoint ids_ok (thread_count : N) id (evs : list DbEvent) : Prop :=
  match evs with
  | [] => True
  | ev :: evs => id_ok thread_count id ev ∧ ids_ok thread_count (next_id id ev) evs
  end.

(** What an event does to a column family. *)
Definition event_content (cf : ColumnFamily) (m : gmap Bytes Bytes) ev : gmap Bytes Bytes :=
  match ev, cf with
  | DbWrite b _ _, STATE_CF => apply_batch m b
  | DbWrite _ b _, VERSIONING_CF => apply_batch m b
  | DbDeletePrefix p STATE_CF _, STATE_CF => filter (λ e, starts_with p e.1 = false) m
  | DbDeletePrefix p VERSIONING_CF _, VERSIONING_CF => filter (λ e, starts_with p e.1 = false) m
  | DbStreamPart part _, STATE_CF => apply_batch m (stream_changes_of part)
  | DbStreamPart _ part, VERSIONING_CF => apply_batch m (stream_changes_of part)
  | _, _ => m
  end.

Lemma db_event_spec d id ev :
  db_at d id → id_ok (db_thread_count (db_config d)) id ev →
  ∃ d', db_event d ev = Ok d' ∧ db_at d' (next_id id ev) ∧ db_config d' = db_config d
    ∧ content d' STATE_CF = event_content STATE_CF (content d STATE_CF) ev
    ∧ content d' VERSIONING_CF = event_content VERSIONING_CF (content d VERSIONING_CF) ev.
Proof using All.
  intros Hd [Hok Hle]. destruct ev as [b vb oid|p [] oid|slot| |part vpart]; cbn [db_event next_id event_content] in *.
  - destruct (write_batch_spec d id b vb oid Hd Hle Hok) as (d' & -> & Hd' & Hc & Hs & Hv & _). by exists d'.
  - by apply delete_prefix_spec.
  - by exists d.
  - by apply delete_versioning_spec.
  - by apply reset_slot_spec with id.
  - destruct (reopen_spec d id Hd) as (d' & -> & Hd' & Hc & Hdb). exists d'. by rewrite Hdb.
  - unfold write_batch_bootstrap_client.
    destruct (write_changes_spec d id (stream_changes_of part) (stream_changes_of vpart) (Some (batch_change_id part)) true Hd Hle Hok)
      as (d' & -> & Hd' & Hc & Hs & Hv & _). by exists d'.
Qed.
Lemma db_run_spec d id (evs : list DbEvent) :
  db_at d id → ids_ok (db_thread_count (db_config d)) id evs →
  ∃ d', foldM db_event evs d = Ok d' ∧ db_at d' (foldl next_id id evs) ∧ db_config d' = db_config d
    ∧ content d' STATE_CF = foldl (event_content STATE_CF) (content d STATE_CF) evs
    ∧ content d' VERSIONING_CF = foldl (event_content VERSIONING_CF) (content d VERSIONING_CF) evs.
Proof using All.
  revert d id. induction evs as [|ev evs IH]; intros d id Hd Hids; [by exists d|]. destruct Hids as [Hok Hids]. cbn [foldM foldl].
  destruct (db_event_spec d id ev Hd Hok) as (d1 & -> & Hd1 & Hc1 & Hs1 & Hv1). cbn [mbind outcome_bind].
  rewrite <-Hc1 in Hids. destruct (IH d1 _ Hd1 Hids) as (d' & -> & Hd' & Hc' & Hs' & Hv'). exists d'. rewrite <-Hs1, <-Hv1, <-Hc1. by split_and!.
Qed.
End runs.
