(* ===== verification/Streaming.v ===== *)
(** * Streaming the database

    The part of the bootstrap that streams the database ([stream_bootstrap_information] of
    [massa-bootstrap/src/server.rs] and the client that writes what it receives,
    [client.rs]): the server sends the entries in the order of their keys, a batch at a time,
    with what changed meanwhile among those that it sent, and goes on writing.

    The messages, their deadlines and the part about consensus blocks are not modelled. *)

From S2P Require Import Prelude Slots OrdMap Keys Models Wire Formats Database.

Open Scope N_scope.

Inductive BootstrapError : Type :=
  | GeneralError (what : string)
  (** [GeneralError] with the error of the database *)
  | StreamError (e : MassaDBError).

(** The cursors of the server. *)
Record Cursors : Type := MkCursors {
  last_slot : option Slot;
  last_state_step : StreamingStep (list N);
  last_versioning_step : StreamingStep (list N) }.

Section streaming.
Context `{!RocksDB} `{!EntryHash} `{!Varint}.
Implicit Types (d : MassaDB).

(** The step after a batch; [nothing] is the error of a first batch with updates only. *)
Definition next_step (step : StreamingStep (list N)) (part : StreamBatch) (nothing : string)
    : outcome BootstrapError (StreamingStep (list N)) :=
  match step, batch_is_empty part with
  | Finished _, _ => Ok (Finished None)
  | Ongoing _, true => Ok (Finished None)
  | Started, true => Ok (Finished None)
  | Ongoing key, false => Ok (Ongoing (default key (last_key (new_elements part))))
  | Started, false =>
      match last_key (new_elements part) with
      | Some new_last_key => Ok (Ongoing new_last_key)
      | None => Err (GeneralError nothing)
      end
  end.

(** A batch, or [None] if the server has forgotten changes, and answers [SlotTooOld]. *)
Definition part_or_too_old (r : outcome MassaDBError StreamBatch) : outcome BootstrapError (option StreamBatch) :=
  match r with
  | Ok part => Ok (Some part)
  | Err (CacheMissError s) => if decide (s = CHANGES_TOO_RECENT) then Ok None else Err (StreamError (CacheMissError s))
  | Err e => Err (StreamError e)
  | Panic w => Panic w
  | OutOfFuel => OutOfFuel
  end.

(** One turn of the loop: the two batches and the slot of the message, or [SlotTooOld]. *)
Definition server_part d (c : Cursors) : outcome BootstrapError (option (StreamBatch * StreamBatch * Slot) * Cursors) :=
  state_part ← part_or_too_old (get_batch_to_stream d (last_state_step c) (last_slot c));
  match state_part with
  | None => Ok (None, c)
  | Some state_part =>
      new_state_step ← next_step (last_state_step c) state_part "State bootstrap started but we have no new elements to stream";
      versioning_part ← part_or_too_old (get_versioning_batch_to_stream d (last_versioning_step c) (last_slot c));
      match versioning_part with
      | None => Ok (None, c)
      | Some versioning_part =>
          new_versioning_step ←
            next_step (last_versioning_step c) versioning_part "Versioning bootstrap started but we have no new elements to stream";
          db_slot ← current_change_id d;
          if match last_slot c with Some slot => bool_decide (cmp_lt db_slot slot) | None => false end
          then Err (GeneralError "Bootstrap cursor set to future slot")
          else Ok (Some (state_part, versioning_part, db_slot), MkCursors (Some db_slot) new_state_step new_versioning_step)
      end
  end.

(** The state is streamed: the loop ends here, once the blocks of consensus are sent too. *)
Definition state_streamed (part : StreamBatch * StreamBatch * Slot) (c : Cursors) : bool :=
  finished (last_state_step c) && finished (last_versioning_step c) && batch_is_empty part.1.1 && batch_is_empty part.1.2.

(** A message is written by the client, which keeps where it would ask to resume after a disconnection. *)
Definition client_part (part : StreamBatch * StreamBatch * Slot) d : outcome BootstrapError (Cursors * MassaDB) :=
  let '(state_part, versioning_part, slot) := part in
  '(last_state_step, last_versioning_step, d) ← map_err StreamError (write_batch_bootstrap_client d state_part versioning_part);
  Ok (MkCursors (Some slot) last_state_step last_versioning_step, d).

(** The loop of the server, with the client, when the server writes nothing meanwhile; [None] is [SlotTooOld]. *)
Fixpoint stream_loop (fuel : nat) d (cl : MassaDB) (c : Cursors) : outcome BootstrapError (option MassaDB) :=
  match fuel with
  | O => OutOfFuel
  | S fuel =>
      '(part, c) ← server_part d c;
      match part with
      | None => Ok None
      | Some part =>
          if state_streamed part c then Ok (Some cl)
          else '(_, cl) ← client_part part cl; stream_loop fuel d cl c
      end
  end.
End streaming.
