(* ===== verification/StreamingFacts.v ===== *)
(** * What a stream has sent

    Batches of a stream, the cursors that stand for what a client already has, the invariant of a
    stream between two databases, whatever slots the server finalizes meanwhile and wherever the client
    resumes, and the number of turns that a stream takes. *)

From S2P Require Import Prelude Slots OrdMap Keys KeyFacts Wire WireFacts Models Formats FormatFacts Database DatabaseFacts Streaming.

Open Scope N_scope.

(** ** Entries that fit in a batch *)

Section take.
Context `{!Varint}.
Implicit Types (l p : list (Bytes * Bytes)).

Definition without (skip : option Bytes) l : list (Bytes * Bytes) := filter (λ e, skip ≠ Some e.1) l.

Lemma take_elements_prefix skip max budget l acc size fp :
  ∃ p rest, without skip l = p ++ rest
    ∧ take_elements skip max budget l acc size fp = foldl (λ m e, <[e.1 := e.2]> m) acc p
    ∧ ∀ e l', without skip l = e :: l' → acc = ∅ → size + wire_size e.1 e.2 ≤ max → p ≠ [].
Proof using.
  revert acc size fp. induction l as [|[k v] l IH]; intros acc size fp; cbn [take_elements].
  { exists [], []. by split_and!. }
  unfold without. rewrite filter_cons. cbn [fst snd]. destruct (decide (skip = Some k)) as [Hs|Hs].
  - rewrite decide_False by auto. apply IH.
  - rewrite decide_True by done. destruct (_ && _) eqn:Hc.
    + destruct (IH (<[k := v]> acc) (size + wire_size k v) (fp + (wire_size k v + BOOTSTRAP_BATCH_ENTRY_OVERHEAD))) as (p & rest & Hp & -> & _).
      exists ((k, v) :: p), rest. unfold without in Hp. rewrite Hp. by split_and!.
    + exists [], ((k, v) :: filter (λ e, skip ≠ Some e.1) l). split_and!; [done|done|]. intros e l' [= <- _] -> Hle. cbn in Hle.
      apply andb_false_iff in Hc as [Hc|Hc]; [apply N.leb_gt in Hc; lia|]. rewrite bool_decide_true, orb_true_r in Hc by done. done.
Qed.
Lemma lookup_inserted (l : list (Bytes * Bytes)) (m : gmap Bytes Bytes) k :
  NoDup l.*1 →
  (∀ v, (k, v) ∈ l → foldl (λ m e, <[e.1 := e.2]> m) m l !! k = Some v)
  ∧ (k ∉ l.*1 → foldl (λ m e, <[e.1 := e.2]> m) m l !! k = m !! k).
Proof using.
  apply (foldl_reads_list (λ m e, <[e.1 := e.2]> m) (.!! k) (λ _ v, Some v) k). intros m' [k' v']. cbn.
  destruct (decide (k = k')) as [->|?]; [by rewrite lookup_insert_eq|by rewrite lookup_insert_ne].
Qed.
End take.

(** ** The new elements of a batch *)

(** The keys up to the cursor. *)
Definition covered (step : StreamingStep (list N)) (k : Bytes) : bool :=
  match step with
  | Started => false
  | Ongoing key => bool_decide (cmp_le k key)
  | Finished _ => true
  end.

Section elements.
Context `{!RocksDB} `{!RocksLaws} `{!Varint}.
Implicit Types (x : DB) (cf : ColumnFamily) (step : StreamingStep (list N)).

Definition todo x cf step : list (Bytes * Bytes) := filter (λ e, covered step e.1 = false) (sorted_entries (contents x cf)).
Definition fits_in (max : N) (m : gmap Bytes Bytes) : Prop := ∀ k v, m !! k = Some v → wire_size k v ≤ max.

(** What [batch_of] takes. *)
Definition skip_of step : option Bytes := match step with Ongoing max_key => Some max_key | _ => None end.
Definition entries_from x cf step : list (Bytes * Bytes) :=
  match step with Ongoing max_key => rocks_from x cf max_key | _ => rocks_start x cf end.
Definition elements_of x cf (max : N) step : gmap Bytes Bytes :=
  take_elements (skip_of step) max (bootstrap_batch_allocation_budget max) (entries_from x cf step) ∅ 0 0.

Lemma todo_entries x cf step :
  finished step = false →
  without (skip_of step) (entries_from x cf step) = todo x cf step.
Proof using All.
  intros Hf. unfold without, todo, skip_of, entries_from. destruct step as [|key|]; [| |done].
  - rewrite rocks_start_spec. apply list_filter_iff. intros e. cbn. split; [done|by intros _].
  - rewrite rocks_from_spec, list_filter_filter. apply list_filter_iff. intros [k v]. cbn. rewrite bool_decide_eq_false. split.
    + intros [Hne Hle] Hle'. apply Hne. f_equal. by apply cmp_le_antisym.
    + intros Hnle. split; [intros [= ->]; apply Hnle, cmp_le_refl|]. destruct (cmp_le_total key k); done.
Qed.
Lemma todo_sorted x cf step : StronglySorted cmp_lt (todo x cf step).*1.
Proof using.
  unfold todo. pose proof (sorted_entries_sorted (contents x cf)) as Hs. induction (sorted_entries (contents x cf)) as [|e l IH]; [constructor|].
  cbn in Hs. apply StronglySorted_inv in Hs as [Hs Hall]. rewrite filter_cons. case_decide; [|by apply IH].
  cbn. constructor; [by apply IH|]. apply Forall_forall. intros k (e' & -> & [_ He']%list_elem_of_filter)%list_elem_of_fmap.
  eapply Forall_forall; [exact Hall|]. by apply list_elem_of_fmap_2.
Qed.
Lemma elem_of_todo x cf step k v : (k, v) ∈ todo x cf step ↔ contents x cf !! k = Some v ∧ covered step k = false.
Proof using. unfold todo. rewrite list_elem_of_filter, elem_of_sorted_entries. cbn. tauto. Qed.

Lemma elements_spec x cf max step :
  finished step = false → fits_in max (contents x cf) →
  let new := elements_of x cf max step in
  (∀ k v, new !! k = Some v → contents x cf !! k = Some v ∧ covered step k = false)
  ∧ match last_key new with
    | None => new = ∅ ∧ ∀ k v, contents x cf !! k = Some v → covered step k = true
    | Some m => covered step m = false ∧ (∀ k v, new !! k = Some v → cmp_le k m)
                ∧ ∀ k v, contents x cf !! k = Some v → covered step k = false → cmp_le k m → new !! k = Some v
    end.
Proof using All.
  intros Hf Hfit. cbn zeta.
  assert (∃ p rest, todo x cf step = p ++ rest ∧ elements_of x cf max step = foldl (λ m e, <[e.1 := e.2]> m) ∅ p ∧ (p = [] → rest = [])) as (p & rest & Htodo & -> & Hp).
  { destruct (take_elements_prefix (skip_of step) max (bootstrap_batch_allocation_budget max) (entries_from x cf step) ∅ 0 0)
      as (p & rest & Hpr & Hx & Hne). rewrite todo_entries in Hpr, Hne by done.
    exists p, rest. split_and!; [done|done|]. intros ->. destruct rest as [|[k v] rest]; [done|]. cbn [app] in Hpr.
    destruct (Hne _ _ Hpr eq_refl); [|done]. cbn. apply Hfit. eapply (elem_of_todo x cf step). rewrite Hpr. by left. }
  pose proof (todo_sorted x cf step) as Hs. rewrite Htodo, fmap_app in Hs. apply StronglySorted_app in Hs as (Hlt & Hs & _).
  pose proof (sorted_NoDup _ Hs) as Hnd. set (new := foldl _ ∅ p).
  assert (∀ k v, new !! k = Some v ↔ (k, v) ∈ p) as Hnew.
  { intros k v. unfold new. destruct (lookup_inserted p ∅ k Hnd) as [H1' H2']. split; [|apply H1'].
    intros Hk. destruct (decide (k ∈ p.*1)) as [Hin|Hni]; [|by rewrite (H2' Hni), lookup_empty in Hk].
    apply list_elem_of_fmap in Hin as ([k' v'] & -> & Hin). cbn in *. rewrite (H1' _ Hin) in Hk. by simplify_eq. }
  assert (last_key new = last p.*1) as ->.
  { unfold last_key. f_equal. symmetry. apply sorted_keys_unique; [done|]. intros k. rewrite elem_of_dom. split.
    - intros ([k' v] & -> & Hin)%list_elem_of_fmap. exists v. by apply Hnew.
    - intros [v Hv%Hnew]. by apply (list_elem_of_fmap_2' fst _ (k, v)). }
  split; [intros k v Hk%Hnew; apply elem_of_todo; rewrite Htodo; apply elem_of_app; by left|].
  destruct (last p.*1) as [m|] eqn:Hm.
  - apply last_Some in Hm as (p' & Hp'). assert (m ∈ p.*1) as Hin by (rewrite Hp'; set_solver).
    apply list_elem_of_fmap in Hin as ([m' v] & -> & Hin). cbn [fst] in *. split_and!.
    + assert ((m', v) ∈ todo x cf step) as Ht by (rewrite Htodo; apply elem_of_app; by left). by apply elem_of_todo in Ht as [_ ?].
    + intros k w Hk%Hnew. assert (k ∈ p.*1) as Hk' by (by apply (list_elem_of_fmap_2' fst _ (k, w))). rewrite Hp' in Hk', Hs.
      apply elem_of_app in Hk' as [Hk'|Hk']; [|apply list_elem_of_singleton in Hk' as ->; apply cmp_le_refl]. apply StronglySorted_app in Hs as (Hlt' & _).
      apply cmp_lt_le, Hlt'; [done|by apply list_elem_of_singleton].
    + intros k w Hk Hcov Hle. apply Hnew. assert ((k, w) ∈ todo x cf step) as Ht by (by apply elem_of_todo). rewrite Htodo in Ht.
      apply elem_of_app in Ht as [?|Hr]; [done|]. exfalso. assert (cmp_lt m' k) as Hlt' by (apply Hlt; [by apply (list_elem_of_fmap_2' fst _ (m', v))|by apply (list_elem_of_fmap_2' fst _ (k, w))]).
      by apply cmp_lt_not_le in Hlt'.
  - apply last_None, fmap_nil_inv in Hm. subst p. rewrite (Hp eq_refl) in Htodo. cbn in Htodo. split; [done|]. intros k v Hk.
    apply not_false_iff_true. intros Hc. assert ((k, v) ∈ todo x cf step) as Ht by (by apply elem_of_todo). rewrite Htodo in Ht. by apply elem_of_nil in Ht.
Qed.
End elements.

(** ** The updates of a batch *)

Definition since (last : Slot) (h : list (Slot * DBBatch)) : DBBatch :=
  foldl (λ u e, e.2 ∪ u) ∅ (filter (λ e, cmp_le last e.1) h).

Lemma lookup_bounded (P : Bytes → bool) (l : list (Slot * DBBatch)) k :
  foldl (λ u e, filter (λ x, P x.1 = true) e.2 ∪ u) ∅ l !! k = if P k then foldl (λ u e, e.2 ∪ u) ∅ l !! k else None.
Proof.
  assert (∀ u u' : DBBatch, u !! k = (if P k then u' !! k else None) →
    foldl (λ u e, filter (λ x, P x.1 = true) e.2 ∪ u) u l !! k = if P k then foldl (λ u e, e.2 ∪ u) u' l !! k else None) as Hgen.
  { induction l as [|[s b] l IH]; intros u u' Hu; [done|]. cbn [foldl snd]. apply IH. rewrite !lookup_union, Hu.
    destruct (P k) eqn:Hp.
    - f_equal. destruct (b !! k) eqn:Hb; [by apply map_lookup_filter_Some_2|by apply map_lookup_filter_None_2; left].
    - rewrite map_lookup_filter_None_2; [done|]. right. intros v _. cbn. congruence. }
  apply Hgen. rewrite !lookup_empty. by destruct (P k).
Qed.

(** The content [m] of the change [id] is [m0], the content of the change [last], with the changes of the history [h]
    since then, unless the history has lost some. *)
Definition tracked (m0 : gmap Bytes Bytes) (last : Slot) (m : gmap Bytes Bytes) (id : Slot) (h : list (Slot * DBBatch)) : Prop :=
  cmp_le last id ∧ (id = last → m = m0) ∧ ∀ f b h', h = (f, b) :: h' → cmp_le f last → m = apply_batch m0 (since last h).

Lemma fold_agrees (m : gmap Bytes Bytes) (l : list (Slot * DBBatch)) (u : DBBatch) :
  (∀ k c, u !! k = Some c → m !! k = c) → Forall (λ e, ∀ k c, e.2 !! k = Some c → m !! k = c) l →
  ∀ k c, foldl (λ u e, e.2 ∪ u) u l !! k = Some c → m !! k = c.
Proof.
  intros Hu Hl. revert u Hu. induction Hl as [|[s b] l Hb _ IH]; intros u Hu; [done|]. cbn [foldl snd]. apply IH.
  intros k c Hk. apply lookup_union_Some_raw in Hk as [Hk|[_ Hk]]; [by apply Hb|by apply Hu].
Qed.
Lemma tracked_start m id h : history_ok m id h → tracked m id m id h.
Proof.
  intros [Hs Hb Hl]. split_and!; [apply cmp_le_refl|done|]. intros f b h' _ _. symmetry. apply apply_batch_agrees.
  apply fold_agrees; [by intros k c ?%lookup_empty_Some|]. apply Forall_forall. intros [s b'] [Hle Hin]%list_elem_of_filter. cbn in *.
  assert (s = id) as -> by (apply cmp_le_antisym; [by eapply Hb|done]). by eapply Hl.
Qed.

Lemma bt_insert_last {V} (h : list (Slot * V)) k v :
  (∀ s b, (s, b) ∈ h → cmp_lt s k) → bt_get k h = None ∧ bt_insert k v h = h ++ [(k, v)].
Proof.
  induction h as [|[s b] h IH]; intros Hh; [done|]. cbn [bt_get bt_insert app].
  assert (cmp_lt s k) as Hlt by (eapply Hh; by left). destruct IH as [IH1 IH2]; [intros s' b' Hin; eapply Hh; by right|].
  rewrite (proj2 (cmp_gt_lt k s) Hlt), IH1, IH2. done.
Qed.
Lemma since_snoc last h id' ch : cmp_le last id' → since last (h ++ [(id', ch)]) = ch ∪ since last h.
Proof. intros Hle. unfold since. rewrite filter_app, foldl_app, filter_cons. by destruct (decide (cmp_le last (id', ch).1)). Qed.

Lemma nothing_since (last : Slot) (h : list (Slot * DBBatch)) :
  Forall (λ e, cmp_lt e.1 last) h → filter (λ e : Slot * DBBatch, cmp_le last e.1) h = [].
Proof. induction 1 as [|e l He _ IH]; [done|]. rewrite filter_cons, decide_False; [done|]. by apply cmp_lt_not_le. Qed.
(** A history that has lost some changes, but none since [last]. *)
Lemma since_drop (last : Slot) (h : list (Slot * DBBatch)) n f b h' :
  bt_sorted h → drop n h = (f, b) :: h' → cmp_le f last →
  since last (drop n h) = since last h ∧ ∃ f0 b0 h0, h = (f0, b0) :: h0 ∧ cmp_le f0 last.
Proof.
  intros Hs Hd Hf. rewrite <-(take_drop n h), Hd in Hs. unfold bt_sorted in Hs. rewrite fmap_app in Hs.
  apply StronglySorted_app in Hs as (Hlt & _ & _).
  assert (Forall (λ e, cmp_lt e.1 last) (take n h)) as Hbefore.
  { apply Forall_forall. intros e He. eapply cmp_lt_le_trans; [|exact Hf]. apply Hlt; [by apply list_elem_of_fmap_2|by left]. }
  split.
  - unfold since. rewrite <-(take_drop n h) at 2. by rewrite filter_app, (nothing_since last (take n h) Hbefore).
  - rewrite <-(take_drop n h), Hd. destruct (take n h) as [|[f0 b0] l]; [by exists f, b, h'|].
    apply Forall_cons in Hbefore as [He _]. exists f0, b0, (l ++ (f, b) :: h'). split; [done|]. by apply cmp_lt_le.
Qed.

Lemma bt_insert_again {V} (h : list (Slot * V)) k b :
  bt_sorted h → (∀ s b, (s, b) ∈ h → cmp_le s k) → bt_get k h = Some b →
  ∃ h0, h = h0 ++ [(k, b)] ∧ ∀ v, bt_insert k v h = h0 ++ [(k, v)].
Proof.
  induction h as [|[s b0] h IH]; intros Hs Hh Hget; [done|]. cbn [bt_get] in Hget. apply bt_sorted_cons in Hs as [Hs Hlt].
  destruct (cmp k s) eqn:Hc; [|done|].
  - apply cmp_eq in Hc as ->. injection Hget as ->. destruct h as [|[s' b'] h].
    + exists []. split; [done|]. intros v. cbn [bt_insert]. by rewrite (proj2 (cmp_eq s s) eq_refl).
    + exfalso. assert (cmp_lt s s') as Hlt' by (eapply Hlt; by left). apply cmp_lt_not_le in Hlt'. apply Hlt'. eapply Hh. right. by left.
  - destruct (IH Hs) as (h0 & -> & Hins); [intros s' b' Hin; eapply Hh; by right|done|].
    exists ((s, b0) :: h0). split; [done|]. intros v. cbn [bt_insert]. by rewrite Hc, Hins.
Qed.

(** A write with the identifier [id'], new or not, after [last]. *)
Lemma since_extend (last id id' : Slot) (h : list (Slot * DBBatch)) (ch : DBBatch) :
  bt_sorted h → (∀ s b, (s, b) ∈ h → cmp_le s id) → cmp_le id id' → cmp_lt last id' →
  since last (extend_history h id' ch) = ch ∪ since last h
  ∧ ∀ f b h', extend_history h id' ch = (f, b) :: h' → cmp_le f last → ∃ b' h0, h = (f, b') :: h0.
Proof.
  intros Hs Hb Hle Hlt. unfold extend_history.
  assert (∀ (v : DBBatch) (h0 : list (Slot * DBBatch)) f b h', h0 ++ [(id', v)] = (f, b) :: h' → cmp_le f last → ∃ h1, h0 = (f, b) :: h1) as Hhead.
  { intros v [|[f0 b0] h0] f b h' Hh Hf; cbn in Hh; simplify_eq/=; [by apply cmp_lt_not_le in Hlt|by eexists]. }
  destruct (bt_get id' h) as [old|] eqn:Hget.
  - destruct (bt_insert_again h id' old Hs) as (h0 & -> & Hins); [|done|].
    { intros s b Hin. etrans; [by eapply Hb|done]. }
    rewrite Hins, !since_snoc by (by apply cmp_lt_le). split; [by rewrite (assoc_L (∪))|].
    intros f b h' Hh Hf. destruct (Hhead _ _ _ _ _ Hh Hf) as [h1 ->]. by do 2 eexists.
  - assert (∀ s b, (s, b) ∈ h → cmp_lt s id') as Hbelow.
    { intros s b Hin. destruct (cmp_lt_or_le s id') as [?|Hge]; [done|]. exfalso.
      assert (s = id') as -> by (apply cmp_le_antisym; [etrans; [by eapply Hb|done]|done]).
      apply elem_of_bt in Hin; [|done]. congruence. }
    destruct (bt_insert_last h id' ch Hbelow) as [_ ->]. rewrite since_snoc by (by apply cmp_lt_le). split; [done|].
    intros f b h' Hh Hf. destruct (Hhead _ _ _ _ _ Hh Hf) as [h1 ->]. by do 2 eexists.
Qed.
Lemma tracked_write m0 last m id h ch id' n :
  history_ok m id h → tracked m0 last m id h → cmp_le id id' → cmp_lt last id' →
  tracked m0 last (apply_batch m ch) id' (drop n (extend_history h id' ch)).
Proof.
  intros [Hs Hb Hl] (_ & _ & Htr) Hle Hlt. destruct (since_extend last id id' h ch Hs Hb Hle Hlt) as [Hsince Hhead].
  split_and!; [by apply cmp_lt_le|intros ->; by apply cmp_lt_irrefl in Hlt|]. intros f b h' Hh Hf.
  destruct (since_drop last (extend_history h id' ch) n f b h') as [-> (f0 & b0 & h0 & Hext & Hf0)];
    [by apply bt_sorted_insert|done|done|].
  destruct (Hhead f0 b0 h0 Hext Hf0) as (b' & h1 & ->). rewrite (Htr _ _ _ eq_refl Hf0), Hsince. by rewrite apply_batch_app.
Qed.

(** ** A batch *)

(** The client holds [mc]: the entries of [m] up to the cursor. *)
Definition synced (step : StreamingStep (list N)) (mc m : gmap Bytes Bytes) : Prop := mc = filter (λ e, covered step e.1 = true) m.

Lemma lookup_synced step mc m k : synced step mc m → mc !! k = if covered step k then m !! k else None.
Proof.
  intros ->. destruct (covered step k) eqn:Hc.
  - destruct (m !! k) eqn:Hk; [by apply map_lookup_filter_Some_2|by apply map_lookup_filter_None_2; left].
  - apply map_lookup_filter_None_2. right. intros v _. cbn. congruence.
Qed.
Lemma synced_lookup step mc m : (∀ k, mc !! k = if covered step k then m !! k else None) → synced step mc m.
Proof. intros Hk. apply map_eq. intros k. rewrite Hk. symmetry. by apply lookup_synced. Qed.

Lemma synced_part (step step' : StreamingStep (list N)) (mc m0 m new : gmap Bytes Bytes) (updates : DBBatch) :
  synced step mc m0 →
  (∀ k, covered step k = true → m !! k = match updates !! k with Some c => c | None => m0 !! k end) →
  (∀ k c, updates !! k = Some c → covered step k = true) →
  (∀ k v, new !! k = Some v → m !! k = Some v ∧ covered step k = false) →
  (∀ k, covered step k = true → covered step' k = true) → (∀ k v, new !! k = Some v → covered step' k = true) →
  (∀ k v, m !! k = Some v → covered step k = false → covered step' k = true → new !! k = Some v) →
  synced step' (apply_batch mc ((Some <$> new) ∪ updates)) m.
Proof.
  intros Hs Hup Hcov Hnew Hmono Hnew' Hall. apply synced_lookup. intros k.
  rewrite lookup_apply_batch, lookup_union, lookup_fmap, (lookup_synced _ _ _ k Hs). destruct (new !! k) as [v|] eqn:Hk; cbn [fmap option_fmap option_map].
  - rewrite union_Some_l, (Hnew' k v Hk). by destruct (Hnew k v Hk) as [-> _].
  - rewrite (left_id_L None (∪)). destruct (updates !! k) as [c|] eqn:Hu.
    + pose proof (Hcov k c Hu) as Hc. rewrite (Hmono k Hc), (Hup k Hc), Hu. done.
    + destruct (covered step k) eqn:Hc; [by rewrite (Hmono k Hc), (Hup k Hc), Hu|].
      destruct (covered step' k) eqn:Hc'; [|done]. destruct (m !! k) as [v|] eqn:Hm; [|done]. rewrite (Hall k v) in Hk; done.
Qed.

Section batches.
Context `{!RocksDB} `{!RocksLaws} `{!EntryHash} `{!EntryHashLaws} `{!Varint} `{VL : !VarintLaws}.
Implicit Types (d : MassaDB) (id : Slot) (step : StreamingStep (list N)) (h : list (Slot * DBBatch)) (olast : option Slot) (cf : ColumnFamily) (max : N) (msg : string).
Notation content d cf := (contents (db d) cf).

(** Either the changes since [last] up to the cursor, or the history is too short. *)
Lemma updates_spec d id (h : list (Slot * DBBatch)) step (last : Slot) (m0 m : gmap Bytes Bytes) :
  db_at d id → tracked m0 last m id h → step ≠ Started →
  updates_since d h step (Some last) = Err (CacheMissError CHANGES_TOO_RECENT)
  ∨ ∃ updates, updates_since d h step (Some last) = Ok updates
    ∧ (∀ k, covered step k = true → m !! k = match updates !! k with Some c => c | None => m0 !! k end)
    ∧ ∀ k c, updates !! k = Some c → covered step k = true.
Proof using All.
  intros Hd (Hle & Heq & Htr) Hst. unfold updates_since.
  set (bound := match step with Ongoing max_key => Included max_key | _ => Unbounded end).
  assert (∀ k, in_range (Unbounded, bound) k = covered step k) as Hbound by (intros k; destruct step; done).
  assert (cmp last id ≠ Gt) as Hgt by done.
  destruct step as [|key|fin]; [done| |]; rewrite (current_change_id_spec d id Hd); cbn [mbind outcome_bind];
    (destruct (cmp last id) eqn:Hcmp; [|destruct h as [|[f b] h'] eqn:Hh; [by left|]; destruct (decide (cmp_le f last)) as [Hf|Hf]; [|by left]|done]);
    right; (eexists; split; [reflexivity|]); try (apply cmp_eq in Hcmp as ->; rewrite (Heq eq_refl); split; [intros k _; by rewrite lookup_empty|by intros k c ?%lookup_empty_Some]);
    split; intros k; rewrite lookup_bounded, Hbound; fold (since last ((f, b) :: h')).
  1,3: intros ->; rewrite (Htr _ _ _ eq_refl Hf); by rewrite lookup_apply_batch.
  all: intros c Hc; by destruct (covered _ k).
Qed.

(** Where a cursor of a stream to a client that holds [mc] may be. *)
Definition cursor_ok (olast : option Slot) step (mc m : gmap Bytes Bytes) id (h : list (Slot * DBBatch)) : Prop :=
  (step = Started ∧ mc = ∅)
  ∨ ∃ last m0, olast = Some last ∧ step ≠ Started ∧ tracked m0 last m id h ∧ synced step mc m0.

Lemma cursor_updates d id h step olast (mc m : gmap Bytes Bytes) :
  db_at d id → cursor_ok olast step mc m id h →
  updates_since d h step olast = Err (CacheMissError CHANGES_TOO_RECENT)
  ∨ ∃ updates m0, updates_since d h step olast = Ok updates ∧ synced step mc m0 ∧ (step = Started → updates = ∅)
    ∧ (∀ k, covered step k = true → m !! k = match updates !! k with Some c => c | None => m0 !! k end)
    ∧ ∀ k c, updates !! k = Some c → covered step k = true.
Proof using All.
  intros Hd [[-> ->]|(last & m0 & -> & Hst & Htr & Hs)].
  - right. exists ∅, m. split_and!; [done| |done|done|by intros k c ?%lookup_empty_Some]. apply synced_lookup. intros k. by rewrite lookup_empty.
  - destruct (updates_spec d id h step last m0 m Hd Htr Hst) as [?|(u & Hu & H1' & H2')]; [by left|]. right. by exists u, m0.
Qed.

Lemma batch_of_eq d cf h max step olast :
  batch_of d cf h max step olast
  = (updates ← updates_since d h step olast; id ← current_change_id d;
     Ok (MkStreamBatch (if finished step then ∅ else elements_of (db d) cf max step) updates id)).
Proof using. unfold batch_of, elements_of. by destruct step. Qed.
Lemma covered_before step m k : covered step m = false → covered step k = true → cmp_le k m.
Proof using.
  destruct step as [|key|]; [done| |done]. cbn. intros Hm%bool_decide_eq_false Hk%bool_decide_eq_true.
  destruct (cmp_lt_or_le key m) as [Hlt|?]; [|done]. etrans; [exact Hk|by apply cmp_lt_le].
Qed.

Lemma batch_sync d id cf h max olast step (mc : gmap Bytes Bytes) msg :
  db_at d id → fits_in max (content d cf) → cursor_ok olast step mc (content d cf) id h →
  batch_of d cf h max step olast = Err (CacheMissError CHANGES_TOO_RECENT)
  ∨ ∃ batch step', batch_of d cf h max step olast = Ok batch ∧ batch_change_id batch = id ∧ next_step step batch msg = Ok step'
    ∧ let mc' := apply_batch mc (stream_changes_of batch) in
      (step' ≠ Started ∧ synced step' mc' (content d cf))
      ∧ (stream_cursor_of batch ≠ Started ∧ synced (stream_cursor_of batch) mc' (content d cf)).
Proof using All.
  intros Hd Hfit Hcur. rewrite batch_of_eq. destruct (cursor_updates d id h step olast mc (content d cf) Hd Hcur)
    as [->|(updates & m0 & -> & Hs & Hstart & Hup & Hcov)]; [by left|]. right. cbn [mbind outcome_bind].
  rewrite (current_change_id_spec d id Hd). cbn [mbind outcome_bind]. set (new := if finished step then ∅ else _). set (batch := MkStreamBatch new updates id).
  assert (∀ step', (∀ k v, new !! k = Some v → content d cf !! k = Some v ∧ covered step k = false) → (∀ k, covered step k = true → covered step' k = true) →
    (∀ k v, new !! k = Some v → covered step' k = true) →
    (∀ k v, content d cf !! k = Some v → covered step k = false → covered step' k = true → new !! k = Some v) →
    synced step' (apply_batch mc (stream_changes_of batch)) (content d cf)) as Hpart.
  { intros step' H1' H2' H3' H4'. by apply (synced_part step step' mc m0 (content d cf) new updates). }
  exists batch. unfold next_step, stream_cursor_of, batch_is_empty. cbn [batch new_elements updates_on_previous_elements]. cbn zeta.
  destruct (finished step) eqn:Hfin.
  { destruct step as [| |fin]; [done..|]. exists (Finished None). subst new.
    assert (last_key (∅ : gmap Bytes Bytes) = None) as -> by done.
    assert (synced (Finished None) (apply_batch mc (stream_changes_of batch)) (content d cf)) as Hsync
      by (apply Hpart; [by intros k v ?%lookup_empty_Some|done|done|done]).
    by split_and!. }
  destruct (elements_spec (db d) cf max step Hfin Hfit) as [Hnew Hlast]. fold new in Hnew, Hlast.
  destruct (last_key new) as [m|] eqn:Hlk.
  - destruct Hlast as (Hm & Hle & Hall).
    assert (synced (Ongoing m) (apply_batch mc (stream_changes_of batch)) (content d cf)) as Hsync.
    { apply Hpart; [exact Hnew| | |]; cbn.
      - intros k Hk. apply bool_decide_eq_true. by eapply covered_before.
      - intros k v Hk. apply bool_decide_eq_true. by eapply Hle.
      - intros k v Hk Hc Hk'%bool_decide_eq_true. by apply Hall. }
    exists (Ongoing m). assert (bool_decide (new = ∅) = false) as ->.
    { apply bool_decide_eq_false. intros Hemp. by rewrite Hemp in Hlk. }
    rewrite andb_false_r. split_and!; try done. by destruct step.
  - destruct Hlast as [Hemp Hall].
    assert (synced (Finished None) (apply_batch mc (stream_changes_of batch)) (content d cf)) as Hsync.
    { apply Hpart; [exact Hnew|done|done|]. intros k v Hk Hc _. rewrite (Hall k v Hk) in Hc. done. }
    assert (bool_decide (new = ∅) = true) as -> by (by apply bool_decide_eq_true). rewrite andb_true_r.
    case_bool_decide as Hu; [exists (Finished None); split_and!; try done; by destruct step|].
    destruct step as [|key|]; [by destruct (Hu (Hstart eq_refl))| |done]. exists (Ongoing key). split_and!; try done.
    apply Hpart; [exact Hnew|done| |congruence]. intros k v Hk. by rewrite Hemp, lookup_empty in Hk.
Qed.
End batches.

(** ** The stream and its client

    The invariant of a stream between two databases, whatever slots the server finalizes meanwhile and
    wherever the client resumes, and the number of turns that a stream takes. *)

Section system.
Context `{!RocksDB} `{!RocksLaws} `{!EntryHash} `{!EntryHashLaws} `{!Varint} `{VL : !VarintLaws}.
Implicit Types (d : MassaDB) (id : Slot) (c : Cursors) (step : StreamingStep (list N)) (h : list (Slot * DBBatch)) (olast : option Slot) (n : nat).
Notation content d cf := (contents (db d) cf).

(** The server, with its cursors, and the client, with those that it would resume from. *)
Record Stream : Type := MkStream {
  server : MassaDB;
  client : MassaDB;
  cursors : Cursors;
  resume : Cursors }.
Implicit Types (s : Stream).

(** Every entry of the server is smaller than a batch. *)
Definition entries_fit d : Prop :=
  fits_in (max_final_state_elements_size (db_config d)) (content d STATE_CF)
  ∧ fits_in (max_versioning_elements_size (db_config d)) (content d VERSIONING_CF).

(** Writes that keep the identifier. *)
Definition more_writes d (more : list (DBBatch * DBBatch)) : outcome MassaDBError MassaDB :=
  foldM (λ d b, write_batch d b.1 b.2 None) more d.

(** The server writes a change with a new identifier, and any number of others with the same one
    ([change_id] is [None]), before it sends anything: a finalization holds the lock of the final
    state, which the server takes to read the next part. Or it sends a part that the client writes, or
    the client resumes after a disconnection. *)
Inductive stream_step : Stream → Stream → Prop :=
  | server_writes s ch vch id id' d1 more d :
      get_change_id (server s) = Ok id → cmp_lt id id' → change_id_ok (server s) id' →
      write_batch (server s) ch vch (Some id') = Ok d1 → more_writes d1 more = Ok d → entries_fit d →
      stream_step s (MkStream d (client s) (cursors s) (resume s))
  | part_sent s part c r d :
      server_part (server s) (cursors s) = Ok (Some part, c) → client_part part (client s) = Ok (r, d) →
      stream_step s (MkStream (server s) d c r)
  | client_resumes s : stream_step s (MkStream (server s) (client s) (resume s) (resume s)).

Definition cursors_ok c (cl : MassaDB) d id : Prop :=
  cursor_ok (last_slot c) (last_state_step c) (content cl STATE_CF) (content d STATE_CF) id (change_history d)
  ∧ cursor_ok (last_slot c) (last_versioning_step c) (content cl VERSIONING_CF) (content d VERSIONING_CF) id (change_history_versioning d)
  ∧ ∀ last, last_slot c = Some last → cmp_le last id.
Record stream_ok s : Prop := {
  sm_ids : ∃ ids idc, db_at (server s) ids ∧ db_at (client s) idc ∧ cmp_le idc ids
    ∧ cursors_ok (cursors s) (client s) (server s) ids ∧ cursors_ok (resume s) (client s) (server s) ids;
  sm_fit : entries_fit (server s);
  sm_threads : db_thread_count (db_config (client s)) = db_thread_count (db_config (server s)) }.

Definition fresh : Cursors := MkCursors None Started Started.
Lemma stream_start d cl ids idc :
  db_at d ids → db_at cl idc → cmp_le idc ids → content cl STATE_CF = ∅ → content cl VERSIONING_CF = ∅ → entries_fit d →
  db_thread_count (db_config cl) = db_thread_count (db_config d) → stream_ok (MkStream d cl fresh fresh).
Proof using.
  intros Hd Hc Hle Hs Hv Hfit Htc. assert (cursors_ok fresh cl d ids) as Hok by (split_and!; [by left|by left|done]).
  split; [|done|done]. by exists ids, idc.
Qed.

(** ** Writes of the server *)

Lemma cursor_write olast step (mc m : gmap (list N) (list N)) id id' h (ch : gmap (list N) (option (list N))) n :
  history_ok m id h → cmp_le id id' → (∀ last, olast = Some last → cmp_lt last id') → cursor_ok olast step mc m id h →
  cursor_ok olast step mc (apply_batch m ch) id' (drop n (extend_history h id' ch)).
Proof using.
  intros Hh Hle Hlast [?|(last & m0 & -> & Hst & Htr & Hs)]; [by left|]. right. exists last, m0. split_and!; [done|done| |done].
  apply (tracked_write m0 last m id); auto.
Qed.
(** Cursors from before the identifier [id']. *)
Definition cursors_before c (id' : Slot) : Prop := ∀ last, last_slot c = Some last → cmp_lt last id'.
Lemma one_write d id id' ch vch oid cl :
  db_at d id → cmp_le id id' → id' = default id oid → change_id_ok d id' →
  ∃ d', write_batch d ch vch oid = Ok d' ∧ db_at d' id' ∧ db_config d' = db_config d
    ∧ ∀ c, cursors_before c id' → cursors_ok c cl d id → cursors_ok c cl d' id'.
Proof using All.
  intros Hd Hle -> Hok.
  destruct (write_batch_spec d id ch vch oid Hd Hle Hok) as (d' & Hw & Hd' & Hconf & Hs & Hv & Hh & Hhv).
  exists d'. split_and!; [done..|]. intros c Hbefore (H1' & H2' & H3'). split_and!.
  - rewrite Hs, Hh. apply cursor_write with id; [apply Hd|done|exact Hbefore|done].
  - rewrite Hv, Hhv. apply cursor_write with id; [apply Hd|done|exact Hbefore|done].
  - intros last Hl. by apply cmp_lt_le, Hbefore.
Qed.
Lemma more_writes_spec more : ∀ d id cl,
  db_at d id →
  ∃ d', more_writes d more = Ok d' ∧ db_at d' id ∧ db_config d' = db_config d
    ∧ ∀ c, cursors_before c id → cursors_ok c cl d id → cursors_ok c cl d' id.
Proof using All.
  induction more as [|[ch vch] more IH]; intros d id cl Hd; [by exists d|].
  destruct (one_write d id id ch vch None cl Hd (cmp_le_refl id) eq_refl (at_id_ok _ _ Hd)) as (d1 & Hw & Hd1 & Hc1 & Hk1).
  destruct (IH d1 id cl Hd1) as (d' & Hm & Hd' & Hc' & Hk'). exists d'. split_and!; [|done|congruence|auto].
  unfold more_writes in *. cbn [foldM fst snd]. by rewrite Hw.
Qed.
Lemma stream_writes s ch vch id id' d1 more d :
  stream_ok s → get_change_id (server s) = Ok id → cmp_lt id id' → change_id_ok (server s) id' →
  write_batch (server s) ch vch (Some id') = Ok d1 → more_writes d1 more = Ok d → entries_fit d →
  stream_ok (MkStream d (client s) (cursors s) (resume s)).
Proof using All.
  intros [(ids & idc & Hd & Hc & Hle & Hcur & Hres) _ Htc] Hid Hlt Hok Hw Hm Hfit.
  rewrite (get_change_id_spec _ _ Hd) in Hid. injection Hid as <-.
  destruct (one_write (server s) ids id' ch vch (Some id') (client s) Hd (cmp_lt_le _ _ Hlt) eq_refl Hok) as (d1' & Hw' & Hd1 & Hc1 & Hk1).
  rewrite Hw in Hw'. injection Hw' as <-.
  destruct (more_writes_spec more d1 id' (client s) Hd1) as (d' & Hm' & Hd' & Hc' & Hk'). rewrite Hm in Hm'. injection Hm' as <-.
  assert (∀ c, cursors_ok c (client s) (server s) ids → cursors_ok c (client s) d id') as Hkeep.
  { intros c Hcc. assert (cursors_before c id') as Hb; [|by apply Hk', Hk1]. intros last Hl.
    eapply cmp_le_lt_trans; [by apply Hcc|done]. }
  split; cbn [server client cursors resume]; [|done|by rewrite Hc', Hc1].
  exists id', idc. split_and!; [done|done| |by apply Hkeep|by apply Hkeep]. apply cmp_lt_le. by eapply cmp_le_lt_trans.
Qed.

(** ** Parts *)

Lemma cursor_synced step (mc m : gmap (list N) (list N)) id h :
  history_ok m id h → step ≠ Started → synced step mc m → cursor_ok (Some id) step mc m id h.
Proof using. intros Hh Hst Hs. right. exists id, m. split_and!; [done|done|by apply tracked_start|done]. Qed.

(** Either the history is too short, or a part is sent and written. *)
Lemma part_total s :
  stream_ok s →
  (∃ c, server_part (server s) (cursors s) = Ok (None, c))
  ∨ ∃ part c r d, server_part (server s) (cursors s) = Ok (Some part, c) ∧ client_part part (client s) = Ok (r, d)
    ∧ stream_ok (MkStream (server s) d c r)
    ∧ content d STATE_CF = apply_batch (content (client s) STATE_CF) (stream_changes_of part.1.1)
    ∧ content d VERSIONING_CF = apply_batch (content (client s) VERSIONING_CF) (stream_changes_of part.1.2)
    ∧ synced (last_state_step c) (content d STATE_CF) (content (server s) STATE_CF)
    ∧ synced (last_versioning_step c) (content d VERSIONING_CF) (content (server s) VERSIONING_CF).
Proof using All.
  intros [(ids & idc & Hd & Hc & Hle & (Hcs & Hcv & Hlast) & _) [Hfs Hfv] Htc]. unfold server_part, get_batch_to_stream, get_versioning_batch_to_stream.
  destruct (batch_sync (server s) ids STATE_CF (change_history (server s)) (max_final_state_elements_size (db_config (server s))) _ _ _
    "State bootstrap started but we have no new elements to stream" Hd Hfs Hcs) as [->|(sp & step1 & -> & Hsid & Hn1 & [Hst1 Hsy1] & [Hst1' Hsy1'])].
  { left. by eexists. }
  cbn [part_or_too_old mbind outcome_bind]. rewrite Hn1. cbn [mbind outcome_bind].
  destruct (batch_sync (server s) ids VERSIONING_CF (change_history_versioning (server s)) (max_versioning_elements_size (db_config (server s))) _ _ _
    "Versioning bootstrap started but we have no new elements to stream" Hd Hfv Hcv) as [->|(vp & step2 & -> & Hvid & Hn2 & [Hst2 Hsy2] & [Hst2' Hsy2'])].
  { left. by eexists. }
  cbn [part_or_too_old mbind outcome_bind]. rewrite Hn2. cbn [mbind outcome_bind]. rewrite (current_change_id_spec _ _ Hd). cbn [mbind outcome_bind].
  assert (match last_slot (cursors s) with Some slot => bool_decide (cmp_lt ids slot) | None => false end = false) as ->.
  { destruct (last_slot (cursors s)) as [last|] eqn:Hl; [|done]. apply bool_decide_eq_false. rewrite cmp_lt_not_le. intros Hn. by apply Hn, Hlast. }
  right. exists (sp, vp, ids), (MkCursors (Some ids) step1 step2). unfold client_part, write_batch_bootstrap_client. rewrite Hsid.
  destruct (write_changes_spec (client s) idc (stream_changes_of sp) (stream_changes_of vp) (Some ids) true Hc Hle) as (d & -> & Hd' & Hconf & Hs & Hv & _).
  { unfold change_id_ok. rewrite Htc. apply (at_id_ok _ _ Hd). }
  cbn [mbind outcome_bind map_err default from_option Datatypes.id] in *. do 2 eexists. split; [done|]. split; [done|].
  rewrite <-Hs in Hsy1, Hsy1'. rewrite <-Hv in Hsy2, Hsy2'. split; [|by split_and!].
  split; cbn [server client cursors resume last_slot last_state_step last_versioning_step]; [|done|by rewrite Hconf]. exists ids, ids. pose proof Hd as [_ _ _ Hh Hhv].
  assert (∀ last, Some ids = Some last → cmp_le last ids) as Hrefl by (intros ? [= <-]; apply cmp_le_refl).
  split_and!; try done; try (by apply cursor_synced); try apply cmp_le_refl;
    (split_and!; [by apply cursor_synced|by apply cursor_synced|exact Hrefl]).
Qed.

Lemma stream_step_ok s s' : stream_ok s → stream_step s s' → stream_ok s'.
Proof using All.
  intros Hok Hx. destruct Hx as [s ch vch id id' d1 more d Hid Hlt Hid' Hw Hm Hfit|s part c r d Hp Hc|s].
  - by eapply stream_writes.
  - destruct (part_total s Hok) as [(c' & Hp')|(part' & c' & r' & d' & Hp' & Hc' & Hok' & _)]; rewrite Hp in Hp'; simplify_eq.
    rewrite Hc in Hc'. by simplify_eq.
  - destruct Hok as [(ids & idc & Hd & Hcl & Hle & _ & Hres) Hfit Htc]. split; [|done|done]. by exists ids, idc.
Qed.
Lemma stream_run_ok s s' : stream_ok s → rtc stream_step s s' → stream_ok s'.
Proof using All. intros Hok. induction 1 as [|s s1 s' Hx _ IH]; [done|]. apply IH. by eapply stream_step_ok. Qed.

Lemma synced_all step (mc m : gmap (list N) (list N)) : finished step = true → synced step mc m → mc = m.
Proof using. intros Hf Hs. apply map_eq. intros k. rewrite (lookup_synced _ _ _ k Hs). by destruct step. Qed.
Lemma empty_part (part : StreamBatch) : batch_is_empty part = true → stream_changes_of part = ∅.
Proof using.
  unfold batch_is_empty, stream_changes_of. intros [Hu%bool_decide_eq_true Hn%bool_decide_eq_true]%andb_true_iff.
  by rewrite Hu, Hn, fmap_empty, (left_id_L ∅ (∪)).
Qed.

(** What a client holds when the stream ends. *)
Definition same_state d d' : Prop :=
  content d STATE_CF = content d' STATE_CF ∧ content d VERSIONING_CF = content d' VERSIONING_CF
  ∧ ∃ hash, get_xof_db_hash (E := MassaDBError) d = Ok hash ∧ get_xof_db_hash (E := MassaDBError) d' = Ok hash.
Lemma stream_end s part c :
  stream_ok s → server_part (server s) (cursors s) = Ok (Some part, c) → state_streamed part c = true → same_state (client s) (server s).
Proof using All.
  intros Hok Hp Hend. destruct (part_total s Hok) as [(c' & Hp')|(part' & c' & r & d & Hp' & _ & _ & Hs & Hv & Hss & Hsv)]; rewrite Hp in Hp'; simplify_eq.
  unfold state_streamed in Hend. apply andb_true_iff in Hend as [Hend He2%empty_part]. apply andb_true_iff in Hend as [Hend He1%empty_part].
  apply andb_true_iff in Hend as [Hf1 Hf2]. rewrite He1, apply_batch_empty in Hs. rewrite He2, apply_batch_empty in Hv.
  apply synced_all in Hss, Hsv; [|done..]. destruct Hok as [(ids & idc & Hd & Hc & _) _ _].
  assert (content (client s) STATE_CF = content (server s) STATE_CF) as Heq by congruence.
  split_and!; [done|congruence|]. exists (content_hash (content (server s) STATE_CF)).
  rewrite (get_xof_db_hash_spec _ _ Hd), (get_xof_db_hash_spec _ _ Hc). by rewrite Heq.
Qed.

(** ** How many turns a stream takes *)

(** What is left to send. *)
Definition rank d cf step : nat := if finished step then 0 else S (length (todo (db d) cf step)).

Lemma quiet_updates d id h step olast :
  db_at d id → (step = Started ∨ olast = Some id) → updates_since d h step olast = Ok ∅.
Proof using All.
  intros Hd Hq. unfold updates_since. destruct step as [|key|fin]; [done| |]; destruct Hq as [?| ->]; try done;
    rewrite (current_change_id_spec d id Hd); cbn [mbind outcome_bind]; by rewrite (proj2 (cmp_eq id id) eq_refl).
Qed.
Lemma last_key_in (m : gmap (list N) (list N)) k : last_key m = Some k → ∃ v, m !! k = Some v.
Proof using.
  intros Hk%last_Some_elem_of. by apply elem_of_sorted_keys, elem_of_dom in Hk.
Qed.
Lemma quiet_batch d id cf h max step olast msg :
  db_at d id → fits_in max (content d cf) → (step = Started ∨ olast = Some id) →
  ∃ batch step', batch_of d cf h max step olast = Ok batch ∧ next_step step batch msg = Ok step' ∧ step' ≠ Started
    ∧ if finished step then batch_is_empty batch = true ∧ finished step' = true
      else (rank d cf step' < rank d cf step)%nat ∧ (finished step' = true → batch_is_empty batch = true).
Proof using All.
  intros Hd Hfit Hq. rewrite batch_of_eq, (quiet_updates d id h step olast Hd Hq), (current_change_id_spec d id Hd). cbn [mbind outcome_bind].
  exists (MkStreamBatch (if finished step then ∅ else elements_of (db d) cf max step) ∅ id).
  unfold next_step, batch_is_empty. cbn [new_elements updates_on_previous_elements]. destruct (finished step) eqn:Hfin; [destruct step; [done..|]; by exists (Finished None)|].
  destruct (elements_spec (db d) cf max step Hfin Hfit) as [Hnew Hlast]. set (new := elements_of (db d) cf max step) in *.
  destruct (last_key new) as [m|] eqn:Hlk.
  - destruct Hlast as (Hm & _ & Hall). exists (Ongoing m). assert (bool_decide (new = ∅) = false) as ->.
    { apply bool_decide_eq_false. intros Hemp. by rewrite Hemp in Hlk. }
    rewrite andb_false_r. split_and!; [done|by destruct step|done| |done].
    unfold rank. rewrite Hfin. cbn [finished]. apply le_n_S. apply last_key_in in Hlk as [v Hv]. destruct (Hnew m v Hv) as [Hmv _].
    assert (todo (db d) cf (Ongoing m) = filter (λ e, covered (Ongoing m) e.1 = false) (todo (db d) cf step)) as ->.
    { unfold todo. rewrite list_filter_filter. apply list_filter_iff. intros [k w]. cbn [fst covered]. split; [|by intros [? _]].
      intros Hk. split; [done|]. apply not_true_iff_false. intros Hc. apply bool_decide_eq_false in Hk. apply Hk. by eapply covered_before. }
    apply (length_filter_lt _ _ (m, v)); [by apply elem_of_todo|]. cbn. rewrite bool_decide_true by apply cmp_le_refl. done.
  - destruct Hlast as [Hemp _]. exists (Finished None). rewrite !bool_decide_true by done. split_and!; [done|by destruct step|done| |done].
    unfold rank. rewrite Hfin. cbn [finished]. lia.
Qed.

(** No change since the last part. *)
Definition quiet c id : Prop :=
  (last_state_step c = Started ∨ last_slot c = Some id) ∧ (last_versioning_step c = Started ∨ last_slot c = Some id).
Definition ranks d c : nat := rank d STATE_CF (last_state_step c) + rank d VERSIONING_CF (last_versioning_step c).
Lemma quiet_part d id c :
  db_at d id → entries_fit d → (∀ last, last_slot c = Some last → cmp_le last id) → quiet c id →
  ∃ part c', server_part d c = Ok (Some part, c') ∧ quiet c' id ∧ (state_streamed part c' = true ∨ (ranks d c' < ranks d c)%nat).
Proof using All.
  intros Hd [Hfs Hfv] Hlast [Hqs Hqv]. unfold server_part, get_batch_to_stream, get_versioning_batch_to_stream.
  destruct (quiet_batch d id STATE_CF (change_history d) _ _ _ "State bootstrap started but we have no new elements to stream" Hd Hfs Hqs)
    as (sp & step1 & -> & Hn1 & _ & Hr1). cbn [part_or_too_old mbind outcome_bind]. rewrite Hn1. cbn [mbind outcome_bind].
  destruct (quiet_batch d id VERSIONING_CF (change_history_versioning d) _ _ _ "Versioning bootstrap started but we have no new elements to stream" Hd Hfv Hqv)
    as (vp & step2 & -> & Hn2 & _ & Hr2). cbn [part_or_too_old mbind outcome_bind]. rewrite Hn2. cbn [mbind outcome_bind].
  rewrite (current_change_id_spec _ _ Hd). cbn [mbind outcome_bind].
  assert (match last_slot c with Some slot => bool_decide (cmp_lt id slot) | None => false end = false) as ->.
  { destruct (last_slot c) as [last|] eqn:Hl; [|done]. apply bool_decide_eq_false. rewrite cmp_lt_not_le. intros Hn. by apply Hn, Hlast. }
  do 2 eexists. split; [done|]. split; [by split; right|]. unfold state_streamed, ranks. cbn [last_state_step last_versioning_step fst snd].
  assert (∀ cf step, finished step = true → rank d cf step = 0%nat) as Hz by (intros cf step Hf; unfold rank; by rewrite Hf).
  destruct (finished (last_state_step c)) eqn:H1', (finished (last_versioning_step c)) eqn:H2'.
  - left. destruct Hr1 as [-> ->], Hr2 as [-> ->]. done.
  - right. rewrite (Hz _ _ H1'), (Hz _ step1) by apply Hr1. lia.
  - right. rewrite (Hz _ _ H2'), (Hz _ step2) by apply Hr2. lia.
  - right. lia.
Qed.
Lemma stream_loop_spec fuel s id :
  stream_ok s → get_change_id (server s) = Ok id → quiet (cursors s) id → (ranks (server s) (cursors s) < fuel)%nat →
  ∃ cl, stream_loop fuel (server s) (client s) (cursors s) = Ok (Some cl) ∧ same_state cl (server s).
Proof using All.
  revert s. induction fuel as [|fuel IH]; intros s Hok Hid Hq Hr; [lia|]. cbn [stream_loop].
  pose proof Hok as [(ids & idc & Hd & _ & _ & (_ & _ & Hlast) & _) Hfit _]. rewrite (get_change_id_spec _ _ Hd) in Hid. injection Hid as <-.
  destruct (quiet_part (server s) ids (cursors s) Hd Hfit Hlast Hq) as (part & c & Hp & Hq' & Hend). rewrite Hp. cbn [mbind outcome_bind].
  destruct (state_streamed part c) eqn:Hst; [exists (client s); split; [done|by eapply stream_end]|].
  destruct Hend as [?|Hlt]; [done|].
  destruct (part_total s Hok) as [(c' & Hp')|(part' & c' & r & d & Hp' & Hc & Hok' & _)]; rewrite Hp in Hp'; simplify_eq.
  rewrite Hc. cbn [mbind outcome_bind]. apply (IH (MkStream (server s) d c' r) Hok'); cbn [server client cursors]; [by apply get_change_id_spec|done|lia].
Qed.
End system.
