(* ===== verification/Executed.v ===== *)
(** * Executed operations and denunciations

    [massa-executed-ops]: the lists of the operations and denunciations that are executed, kept
    in the database and in memory, so that none is executed twice ([executed_ops.rs] and
    [executed_denunciations.rs]).

    The database is shared: the calls that read it take it as an argument, and those that change
    it fill a batch. *)

From S2P Require Import Prelude Slots OrdMap Keys Models Wire Formats Denunciations Database.

Open Scope N_scope.


(** ["executed_ops/"] and ["executed_denunciations/"] *)
Definition EXECUTED_OPS_PREFIX : Bytes := [101; 120; 101; 99; 117; 116; 101; 100; 95; 111; 112; 115; 47].
Definition EXECUTED_DENUNCIATIONS_PREFIX : Bytes :=
  [101; 120; 101; 99; 117; 116; 101; 100; 95; 100; 101; 110; 117; 110; 99; 105; 97; 116; 105; 111; 110; 115; 47].
Definition EXECUTED_OPS_ID_SER_ERROR : string := "critical: executed_ops_id serialization failed".
Definition EXECUTED_OPS_ID_DESER_ERROR : string := "critical: executed_ops_id deserialization failed".
Definition EXECUTED_DENUNCIATIONS_INDEX_SER_ERROR : string := "critical: executed_denunciations_index serialization failed".
Definition EXECUTED_DENUNCIATIONS_INDEX_DESER_ERROR : string := "critical: executed_denunciations_index deserialization failed".

(** [entry(slot)] with [insert] *)
Definition enter {K} `{Countable K} (slot : Slot) (k : K) (sorted : list (Slot * gset K)) : list (Slot * gset K) :=
  bt_insert slot (match bt_get slot sorted with Some ids => {[k]} ∪ ids | None => {[k]} end) sorted.

(** ** Operations *)

Record ExecutedOpsConfig : Type := MkExecutedOpsConfig {
  eo_thread_count : N;
  eo_keep_executed_history_extra_periods : N }.
Record ExecutedOps : Type := MkExecutedOps {
  eo_config : ExecutedOpsConfig;
  eo_sorted_ops : list (Slot * gset OperationId);
  op_exec_status : gmap OperationId bool }.
(** The success and the expiry of each. *)
Definition ExecutedOpsChanges : Type := gmap OperationId (bool * Slot).

Section executed.
Context `{!RocksDB} `{!EntryHash} `{!Varint} `{!SetIter OperationId} `{!SetIter DenunciationIndex}.
Implicit Types (d : MassaDB) (eo : ExecutedOps) (batch : gmap Bytes (option Bytes)).

Definition executed_ops_new (config : ExecutedOpsConfig) : ExecutedOps := MkExecutedOps config [] ∅.

Definition get_ops_exec_status eo (batch : list OperationId) : list (option bool) := (λ op_id, op_exec_status eo !! op_id) <$> batch.

Definition op_id_key {E : Type} (op_id : OperationId) : outcome E Bytes :=
  serialized_op_id ← expect_ok EXECUTED_OPS_ID_SER_ERROR (OperationIdSerializer op_id); Ok (EXECUTED_OPS_PREFIX ++ serialized_op_id).
Definition put_op_entry {E : Type} (op_id : OperationId) (value : bool * Slot) batch : outcome E (gmap Bytes (option Bytes)) :=
  key ← op_id_key op_id;
  success ← expect_ok EXECUTED_OPS_ID_SER_ERROR (BoolSerializer value.1);
  slot ← expect_ok EXECUTED_OPS_ID_SER_ERROR (SlotSerializer value.2);
  Ok (put_or_update_entry_value batch key (success ++ slot)).
Definition delete_op_entry {E : Type} (op_id : OperationId) batch : outcome E (gmap Bytes (option Bytes)) :=
  key ← op_id_key op_id; Ok (delete_key batch key).

(** The operations of the slots before [cutoff] leave. *)
Definition remove_ops {E : Type} (ids : gset OperationId) (acc : gmap OperationId bool * gmap Bytes (option Bytes))
    : outcome E (gmap OperationId bool * gmap Bytes (option Bytes)) :=
  foldM (λ '(status, batch) op_id, batch ← delete_op_entry op_id batch; Ok (delete op_id status, batch)) (set_iter ids) acc.
Definition prune_ops_to_batch {E : Type} (slot : Slot) eo batch : outcome E (ExecutedOps * gmap Bytes (option Bytes)) :=
  match checked_sub (period slot) (eo_keep_executed_history_extra_periods (eo_config eo)) with
  | None => Ok (eo, batch)
  | Some cutoff_period =>
      let cutoff_slot := MkSlot cutoff_period (thread slot) in
      let kept := filter (λ e, cmp_le cutoff_slot e.1) (eo_sorted_ops eo) in
      let removed := filter (λ e, cmp_lt e.1 cutoff_slot) (eo_sorted_ops eo) in
      '(status, batch) ← foldM (λ acc e, remove_ops e.2 acc) removed (op_exec_status eo, batch);
      Ok (MkExecutedOps (eo_config eo) kept status, batch)
  end.

Definition apply_ops_changes_to_batch {E : Type} (changes : ExecutedOpsChanges) (slot : Slot) eo batch
    : outcome E (ExecutedOps * gmap Bytes (option Bytes)) :=
  batch ← foldM (λ batch '(id, value), put_op_entry id value batch) (map_iter changes) batch;
  let '(sorted, status) :=
    foldl (λ '(sorted, status) '(op_id, (success, slot)), (enter slot op_id sorted, <[op_id := success]> status))
      (eo_sorted_ops eo, op_exec_status eo) (map_iter changes) in
  prune_ops_to_batch slot (MkExecutedOps (eo_config eo) sorted status) batch.

Definition contains_op {E : Type} d (op_id : OperationId) : outcome E bool :=
  key ← op_id_key op_id; Ok (bool_decide (is_Some (get_cf d STATE_CF key))).

(** One entry of the database, read. *)
Definition load_op {E : Type} eo (e : Bytes * Bytes) : outcome E ExecutedOps :=
  '(op_id, _) ← expect EXECUTED_OPS_ID_DESER_ERROR (OperationIdDeserializer (drop (length EXECUTED_OPS_PREFIX) e.1));
  '(status, rest) ← expect EXECUTED_OPS_ID_DESER_ERROR (BoolDeserializer e.2);
  '(slot, _) ← expect EXECUTED_OPS_ID_DESER_ERROR (SlotDeserializer any_u64 (below (eo_thread_count (eo_config eo))) rest);
  Ok (MkExecutedOps (eo_config eo) (enter slot op_id (eo_sorted_ops eo)) (<[op_id := status]> (op_exec_status eo))).
Definition recompute_sorted_ops_and_op_exec_status {E : Type} d eo : outcome E ExecutedOps :=
  foldM load_op (take_prefixed EXECUTED_OPS_PREFIX (rocks_prefix (db d) STATE_CF EXECUTED_OPS_PREFIX)) (executed_ops_new (eo_config eo)).
Definition reset_ops d eo : outcome MassaDBError (MassaDB * ExecutedOps) :=
  d ← delete_prefix d EXECUTED_OPS_PREFIX STATE_CF None;
  eo ← recompute_sorted_ops_and_op_exec_status d eo;
  Ok (d, eo).

Definition is_op_key_value_valid eo (serialized_key serialized_value : Bytes) : bool :=
  starts_with EXECUTED_OPS_PREFIX serialized_key
  && match OperationIdDeserializer (drop (length EXECUTED_OPS_PREFIX) serialized_key) with Some (_, []) => true | _ => false end
  && match BoolDeserializer serialized_value with
     | Some (_, rest) =>
         match SlotDeserializer any_u64 (below (eo_thread_count (eo_config eo))) rest with Some (_, []) => true | _ => false end
     | None => false
     end.

(** ** Denunciations *)

Record ExecutedDenunciationsConfig : Type := MkExecutedDenunciationsConfig {
  ed_denunciation_expire_periods : N;
  ed_thread_count : N;
  ed_endorsement_count : N;
  ed_keep_executed_history_extra_periods : N }.
Record ExecutedDenunciations : Type := MkExecutedDenunciations {
  ed_config : ExecutedDenunciationsConfig;
  sorted_denunciations : list (Slot * gset DenunciationIndex) }.
Implicit Types (ed : ExecutedDenunciations).

Definition executed_denunciations_new (config : ExecutedDenunciationsConfig) : ExecutedDenunciations := MkExecutedDenunciations config [].

Definition denunciation_index_key {E : Type} (de_idx : DenunciationIndex) : outcome E Bytes :=
  serialized_de_idx ← expect_ok EXECUTED_DENUNCIATIONS_INDEX_SER_ERROR (DenunciationIndexSerializer de_idx);
  Ok (EXECUTED_DENUNCIATIONS_PREFIX ++ serialized_de_idx).
Definition put_denunciation_entry {E : Type} (de_idx : DenunciationIndex) batch : outcome E (gmap Bytes (option Bytes)) :=
  key ← denunciation_index_key de_idx; Ok (put_or_update_entry_value batch key []).
Definition delete_denunciation_entry {E : Type} (de_idx : DenunciationIndex) batch : outcome E (gmap Bytes (option Bytes)) :=
  key ← denunciation_index_key de_idx; Ok (delete_key batch key).

(** Those that are expired leave. *)
Definition prune_denunciations_to_batch {E : Type} (slot : Slot) ed batch : outcome E (ExecutedDenunciations * gmap Bytes (option Bytes)) :=
  let effective_expiry_periods :=
    saturating_add u64_max (ed_denunciation_expire_periods (ed_config ed)) (ed_keep_executed_history_extra_periods (ed_config ed)) in
  let expired (e : Slot * gset DenunciationIndex) := is_expired (period e.1) (period slot) effective_expiry_periods in
  let drained := foldl (λ acc e, acc ∪ e.2) ∅ (filter (λ e, expired e = true) (sorted_denunciations ed)) in
  batch ← foldM (λ batch de_idx, delete_denunciation_entry de_idx batch) (set_iter drained) batch;
  Ok (MkExecutedDenunciations (ed_config ed) (filter (λ e, expired e = false) (sorted_denunciations ed)), batch).

Definition apply_denunciations_changes_to_batch {E : Type} (changes : gset DenunciationIndex) (slot : Slot) ed batch
    : outcome E (ExecutedDenunciations * gmap Bytes (option Bytes)) :=
  '(ed, batch) ← foldM (λ '(ed, batch) de_idx,
      batch ← put_denunciation_entry de_idx batch;
      Ok (MkExecutedDenunciations (ed_config ed) (enter (di_get_slot de_idx) de_idx (sorted_denunciations ed)), batch))
    (set_iter changes) (ed, batch);
  prune_denunciations_to_batch slot ed batch.

Definition contains_denunciation {E : Type} d (de_idx : DenunciationIndex) : outcome E bool :=
  key ← denunciation_index_key de_idx; Ok (bool_decide (is_Some (get_cf d STATE_CF key))).

Definition load_denunciation {E : Type} ed (e : Bytes * Bytes) : outcome E ExecutedDenunciations :=
  '(de_idx, _) ← expect EXECUTED_DENUNCIATIONS_INDEX_DESER_ERROR
    (DenunciationIndexDeserializer (ed_thread_count (ed_config ed)) (ed_endorsement_count (ed_config ed))
       (drop (length EXECUTED_DENUNCIATIONS_PREFIX) e.1));
  Ok (MkExecutedDenunciations (ed_config ed) (enter (di_get_slot de_idx) de_idx (sorted_denunciations ed))).
Definition recompute_sorted_denunciations {E : Type} d ed : outcome E ExecutedDenunciations :=
  foldM load_denunciation
    (take_prefixed EXECUTED_DENUNCIATIONS_PREFIX (rocks_prefix (db d) STATE_CF EXECUTED_DENUNCIATIONS_PREFIX))
    (executed_denunciations_new (ed_config ed)).
Definition reset_denunciations d ed : outcome MassaDBError (MassaDB * ExecutedDenunciations) :=
  d ← delete_prefix d EXECUTED_DENUNCIATIONS_PREFIX STATE_CF None;
  ed ← recompute_sorted_denunciations d ed;
  Ok (d, ed).

Definition is_denunciation_key_value_valid ed (serialized_key serialized_value : Bytes) : bool :=
  starts_with EXECUTED_DENUNCIATIONS_PREFIX serialized_key
  && match DenunciationIndexDeserializer (ed_thread_count (ed_config ed)) (ed_endorsement_count (ed_config ed))
             (drop (length EXECUTED_DENUNCIATIONS_PREFIX) serialized_key) with
     | Some (_, []) => true
     | _ => false
     end
  && match serialized_value with [] => true | _ => false end.
End executed.
