(* ===== verification/ExecutedFacts.v ===== *)
(** * The lists of what is executed

    The lists in memory are those of the database, before and after each change; what is
    executed leaves them only when it is expired; and they are recomputed from the database. *)

From S2P Require Import Prelude Slots OrdMap Keys KeyFacts Wire WireFacts Models Formats FormatFacts Denunciations DenunciationFacts LedgerView Database DatabaseFacts Executed.

Open Scope N_scope.

(** ** Lists by slot *)

Section index.
Context {K : Type} `{Countable K}.
Implicit Types (sorted : list (Slot * gset K)) (s : Slot) (k : K).

Definition listed sorted s k : Prop := k ∈ default ∅ (bt_get s sorted).

Lemma enter_sorted sorted s k : bt_sorted sorted → bt_sorted (enter s k sorted).
Proof using. apply bt_sorted_insert. Qed.
Lemma listed_enter sorted s k s' k' :
  bt_sorted sorted → listed (enter s k sorted) s' k' ↔ (s' = s ∧ k' = k) ∨ listed sorted s' k'.
Proof using.
  intros Hs. unfold listed, enter. destruct (decide (s' = s)) as [->|Hne].
  - rewrite bt_get_insert_eq. cbn. destruct (bt_get s sorted); cbn; set_solver.
  - rewrite bt_get_insert_ne by done. naive_solver.
Qed.
Lemma listed_enter_all {A} (slot : A → Slot) (key : A → K) (l : list A) sorted :
  bt_sorted sorted → let sorted' := foldl (λ so x, enter (slot x) (key x) so) sorted l in
  bt_sorted sorted' ∧ ∀ s k, listed sorted' s k ↔ (∃ x, x ∈ l ∧ slot x = s ∧ key x = k) ∨ listed sorted s k.
Proof using.
  revert sorted. induction l as [|x l IH]; intros sorted Hs; cbn [foldl].
  { split; [done|]. intros s k. split; [by right|]. intros [(x & Hx & _)|?]; [by apply elem_of_nil in Hx|done]. }
  destruct (IH (enter (slot x) (key x) sorted) (enter_sorted _ _ _ Hs)) as [Hs' Hl]. split; [done|]. intros s k. rewrite Hl, listed_enter by done.
  split.
  - intros [(y & Hy & Hyy)|[[-> ->]|?]]; [left; exists y; split; [by right|done]|left; exists x; split; [by left|done]|by right].
  - intros [(y & [->|Hy]%elem_of_cons & Hyy)|?]; [right; left; naive_solver|left; by exists y|by right; right].
Qed.

Lemma listed_elem sorted s k : bt_sorted sorted → listed sorted s k ↔ ∃ ids, (s, ids) ∈ sorted ∧ k ∈ ids.
Proof using.
  intros Hs. unfold listed. split.
  - destruct (bt_get s sorted) as [ids|] eqn:Hg; cbn; [|set_solver]. intros Hk. exists ids. by apply elem_of_bt in Hg.
  - intros (ids & Hin%elem_of_bt & Hk); [by rewrite Hin|done].
Qed.
(** What is left of a list. *)
Lemma filter_sorted (P : Slot → Prop) `{!∀ s, Decision (P s)} sorted : bt_sorted sorted → bt_sorted (filter (λ e, P e.1) sorted).
Proof using.
  induction sorted as [|[s ids] sorted IH]; intros Hs; [done|]. apply bt_sorted_cons in Hs as [Hs Hk]. rewrite filter_cons. case_decide; [|by apply IH].
  apply bt_sorted_cons. split; [by apply IH|]. intros s' ids' [_ Hin]%list_elem_of_filter. by eapply Hk.
Qed.
Lemma listed_filter (P : Slot → Prop) `{!∀ s, Decision (P s)} sorted s k :
  bt_sorted sorted → listed (filter (λ e, P e.1) sorted) s k ↔ P s ∧ listed sorted s k.
Proof using.
  intros Hs. rewrite !listed_elem by (try apply filter_sorted; done). split.
  - intros (ids & [HP Hin]%list_elem_of_filter & Hk). split; [done|]. by exists ids.
  - intros [HP (ids & Hin & Hk)]. exists ids. split; [|done]. by apply list_elem_of_filter.
Qed.
End index.

(** ** Tables in a column family *)

Lemma starts_with_app (p k : Bytes) : starts_with p (p ++ k) = true.
Proof. induction p as [|x p IH]; [done|]. cbn. by rewrite N.eqb_refl, IH. Qed.
Lemma starts_with_inv (p k : Bytes) : starts_with p k = true → k = p ++ drop (length p) k.
Proof.
  revert k. induction p as [|x p IH]; intros [|y k] Hk; try done. cbn in *. apply andb_true_iff in Hk as [->%N.eqb_eq Hk]. f_equal. by apply IH.
Qed.

Lemma foldM_foldl {E A B} (f : B → A → outcome E B) (g : B → A → B) (l : list A) b :
  (∀ b x, x ∈ l → f b x = Ok (g b x)) → foldM f l b = Ok (foldl g b l).
Proof.
  revert b. induction l as [|x l IH]; intros b Hf; [done|]. cbn [foldM foldl]. rewrite Hf by (by left). cbn [mbind outcome_bind].
  apply IH. intros b' y Hy. apply Hf. by right.
Qed.

(** The changes [c], made in a table. *)
Definition apply_table {K V} `{Countable K} (t : gmap K V) (c : gmap K (option V)) : gmap K V :=
  merge (λ v c, match c with Some c => c | None => v end) t c.
Lemma lookup_apply_table {K V} `{Countable K} (t : gmap K V) (c : gmap K (option V)) (k : K) :
  apply_table t c !! k = match c !! k with Some c => c | None => t !! k end.
Proof. unfold apply_table. rewrite lookup_merge. by destruct (t !! k), (c !! k). Qed.

Section table.
Context {K : Type} `{Countable K} (p : Bytes) (key : K → Bytes) (ok : K → Prop).
Hypothesis key_prefix : ∀ k, starts_with p (key k) = true.
Hypothesis key_inj : ∀ k k', ok k → ok k' → key k = key k' → k = k'.

(** The part of [m] under the prefix is the table [t], its keys and values as bytes. *)
Record coded {A B : Type} (f : B → A) (m : gmap Bytes A) (t : gmap K B) : Prop := {
  coded_ok : ∀ k x, t !! k = Some x → ok k;
  coded_entries : ∀ b v, starts_with p b = true → m !! b = Some v ↔ ∃ k x, t !! k = Some x ∧ b = key k ∧ v = f x }.

Lemma coded_empty {A B} (f : B → A) m : (∀ b, starts_with p b = true → m !! b = None) → coded f m ∅.
Proof using.
  intros Hm. split; [by intros k x; rewrite lookup_empty|]. intros b v Hb. rewrite (Hm b Hb). split; [done|].
  intros (k & x & Hk & _). by rewrite lookup_empty in Hk.
Qed.
Lemma coded_lookup {A B} (f : B → A) m t k : coded f m t → ok k → m !! key k = f <$> t !! k.
Proof using key_prefix key_inj.
  intros [Hok Hm] Hk. specialize (Hm (key k)). destruct (t !! k) as [x|] eqn:Ht; cbn.
  - apply Hm; [done|]. by exists k, x.
  - destruct (m !! key k) as [v|] eqn:Hv; [|done]. destruct (proj1 (Hm v (key_prefix k)) eq_refl) as (k' & x & Hk' & Heq & ->).
    apply key_inj in Heq as ->; [congruence|done|by eapply Hok].
Qed.
Lemma coded_insert {A B} (f : B → A) m t k x : coded f m t → ok k → coded f (<[key k := f x]> m) (<[k := x]> t).
Proof using key_inj.
  intros [Hok Hm] Hk. split.
  - intros k' y [[<- <-]|[_ Hy]]%lookup_insert_Some; [done|by eapply Hok].
  - intros b v Hb. rewrite lookup_insert_Some, (Hm b v Hb). split.
    + intros [[<- <-]|[Hne (k' & y & Hy & -> & ->)]]; [exists k, x; by rewrite lookup_insert_eq|]. exists k', y.
      rewrite lookup_insert_ne; [done|]. by intros ->.
    + intros (k' & y & [[<- <-]|[Hne Hy]]%lookup_insert_Some & -> & ->); [by left|]. right.
      split; [|by exists k', y]. intros ->%key_inj; [done|done|by eapply Hok].
Qed.
Lemma coded_foldl {A B X} (f : B → A) (kx : X → K) (vx : X → B) (l : list X) m t :
  coded f m t → (∀ x, x ∈ l → ok (kx x)) →
  coded f (foldl (λ m x, <[key (kx x) := f (vx x)]> m) m l) (foldl (λ t x, <[kx x := vx x]> t) t l).
Proof using key_inj.
  revert m t. induction l as [|x l IH]; intros m t Hc Hl; [done|]. cbn [foldl]. apply IH; [|intros y Hy; apply Hl; by right].
  apply coded_insert; [done|]. apply Hl. by left.
Qed.

(** A batch that codes changes of a table makes them. *)
Lemma coded_apply {V} (f : V → Bytes) (m : gmap Bytes Bytes) (b : DBBatch) (t : gmap K V) (c : gmap K (option V)) :
  coded f m t → coded (fmap f) b c → coded f (apply_batch m b) (apply_table t c).
Proof using key_inj key_prefix.
  intros Hm Hb. split.
  - intros k x. rewrite lookup_apply_table. destruct (c !! k) as [o|] eqn:Hc; [intros _; by eapply (coded_ok _ _ _ Hb)|apply (coded_ok _ _ _ Hm)].
  - intros y v Hy. rewrite lookup_apply_batch. destruct (b !! y) as [o|] eqn:Hby.
    + apply (coded_entries _ _ _ Hb) in Hby as (k & o' & Hc & -> & ->); [|done]. split.
      * intros Ho. destruct o' as [x|]; [|done]. injection Ho as <-. exists k, x. by rewrite lookup_apply_table, Hc.
      * intros (k' & x & Hx & Heq & ->). rewrite lookup_apply_table in Hx.
        assert (ok k') as Hk' by (destruct (c !! k') eqn:Hc'; [by eapply (coded_ok _ _ _ Hb)|by eapply (coded_ok _ _ _ Hm)]).
        apply key_inj in Heq as ->; [|by eapply (coded_ok _ _ _ Hb)|done]. rewrite Hc in Hx. by subst.
    + rewrite (coded_entries _ _ _ Hm) by done. split; intros (k & x & Hx & -> & ->); exists k, x; (split; [|done]); rewrite lookup_apply_table in *.
      * assert (ok k) as Hk by by eapply (coded_ok _ _ _ Hm). rewrite (coded_lookup _ _ _ k Hb Hk) in Hby. by destruct (c !! k).
      * destruct (c !! k) as [o|] eqn:Hc; [|done]. assert (ok k) as Hk by by eapply (coded_ok _ _ _ Hb).
        by rewrite (coded_lookup _ _ _ k Hb Hk), Hc in Hby.
Qed.

(** Nothing else than the keys changes. *)
Lemma foldl_insert_other {A X} (kx : X → K) (vx : X → A) (l : list X) (m : gmap Bytes A) y :
  starts_with p y = false → foldl (λ m x, <[key (kx x) := vx x]> m) m l !! y = m !! y.
Proof using key_prefix.
  revert m. induction l as [|x l IH]; intros m Hy; [done|]. cbn [foldl]. rewrite IH by done. apply lookup_insert_ne. intros <-.
  by rewrite key_prefix in Hy.
Qed.

(** The entries under the prefix, in the order of the keys. *)
Lemma coded_list {V} (f : V → Bytes) (m : gmap Bytes Bytes) (t : gmap K V) :
  coded f m t → ∃ l : list (K * V),
    filter (λ e, starts_with p e.1 = true) (sorted_entries m) = (λ '(k, x), (key k, f x)) <$> l
    ∧ NoDup l.*1 ∧ ∀ k x, (k, x) ∈ l ↔ t !! k = Some x.
Proof using key_prefix key_inj.
  intros Hm. set (es := filter _ _).
  assert (∀ e, e ∈ es ↔ ∃ k x, t !! k = Some x ∧ e = (key k, f x)) as Hes.
  { intros [b v]. unfold es. rewrite list_elem_of_filter, elem_of_sorted_entries. cbn [fst]. split.
    - intros [Hb (k & x & Hx & -> & ->)%(coded_entries _ _ _ Hm)]; [by exists k, x|done].
    - intros (k & x & Hx & [= -> ->]). split; [done|]. apply (coded_entries _ _ _ Hm); [done|by exists k, x]. }
  assert (NoDup es.*1) as Hnd.
  { eapply sublist_NoDup; [apply (NoDup_sorted_entries m)|]. apply fmap_sublist, sublist_filter. }
  assert (∃ l : list (K * V), es = (λ '(k, x), (key k, f x)) <$> l ∧ ∀ k x, (k, x) ∈ l → t !! k = Some x) as (l & Hl & Hlt).
  { assert (∀ e, e ∈ es → ∃ k x, t !! k = Some x ∧ e = (key k, f x)) as Hin by (intros; by apply Hes). clear Hes Hnd.
    induction es as [|e es IH]; [exists []; split; [done|by intros k x ?%elem_of_nil]|].
    destruct IH as (l & Hl & Hlt); [intros; apply Hin; by right|]. destruct (Hin e) as (k & x & Hx & He); [by left|].
    exists ((k, x) :: l). split; [by rewrite Hl, He|]. intros k' x' [[= -> ->]|?]%elem_of_cons; auto. }
  exists l. split; [done|]. split.
  - rewrite Hl in Hnd. rewrite <- list_fmap_compose in Hnd. apply (NoDup_fmap_1 key).
    rewrite <- list_fmap_compose. erewrite (list_fmap_ext _ _ l); [exact Hnd|]. by intros ? [? ?].
  - intros k x. split; [apply Hlt|]. intros Hx. assert ((key k, f x) ∈ es) as Hin by (apply Hes; by exists k, x).
    rewrite Hl in Hin. apply list_elem_of_fmap in Hin as ([k' x'] & [= Heq _] & Hin).
    apply Hlt in Hin as Hx'. apply key_inj in Heq as <-; [|by eapply (coded_ok _ _ _ Hm)..]. by simplify_eq.
Qed.
End table.
Arguments coded_ok {K _ _ p key ok A B f m t}.
Arguments coded_entries {K _ _ p key ok A B f m t}.

(** ** Loops *)

Lemma foldl_pair {A B C} (h : B * C → A → B * C) (f : B → A → B) (g : C → A → C) (l : list A) b c :
  (∀ b c x, h (b, c) x = (f b x, g c x)) → foldl h (b, c) l = (foldl f b l, foldl g c l).
Proof. intros Hh. revert b c. induction l as [|x l IH]; intros b c; [done|]. cbn [foldl]. rewrite Hh. apply IH. Qed.
Lemma foldM_concat {E A B C} (f : B → A → outcome E B) (h : C → list A) (l : list C) b :
  foldM (λ b e, foldM f (h e) b) l b = foldM f (l ≫= h) b.
Proof.
  revert b. induction l as [|x l IH]; intros b; [done|]. cbn [foldM]. change ((x :: l) ≫= h) with (h x ++ (l ≫= h)). rewrite foldM_app.
  destruct (foldM f (h x) b); cbn [mbind outcome_bind]; [apply IH|done..].
Qed.
Lemma lookup_foldl_const {K V} `{Countable K} (v : V) (l : list K) (m : gmap K V) k :
  foldl (λ m x, <[x := v]> m) m l !! k = if decide (k ∈ l) then Some v else m !! k.
Proof.
  revert m. induction l as [|x l IH]; intros m; cbn [foldl]; [by rewrite decide_False by apply not_elem_of_nil|]. rewrite IH.
  destruct (decide (k ∈ l)) as [Hl|Hl]; [by rewrite decide_True by (by right)|].
  destruct (decide (k = x)) as [->|Hne]; [by rewrite lookup_insert_eq, decide_True by (by left)|].
  rewrite lookup_insert_ne by done. by rewrite decide_False by (by intros [?|?]%elem_of_cons).
Qed.
Lemma lookup_foldl_delete {K V} `{Countable K} (l : list K) (m : gmap K V) k :
  foldl (λ m x, delete x m) m l !! k = if decide (k ∈ l) then None else m !! k.
Proof.
  revert m. induction l as [|x l IH]; intros m; cbn [foldl]; [by rewrite decide_False by apply not_elem_of_nil|]. rewrite IH.
  destruct (decide (k ∈ l)) as [Hl|Hl]; [by rewrite decide_True by (by right)|].
  destruct (decide (k = x)) as [->|Hne]; [by rewrite lookup_delete_eq, decide_True by (by left)|].
  rewrite lookup_delete_ne by done. by rewrite decide_False by (by intros [?|?]%elem_of_cons).
Qed.
Lemma lookup_foldl_iter {K V W} `{Countable K} `{!SetIter K} (g : W → V) (m : gmap K V) (u : gmap K W) k :
  foldl (λ m e, <[e.1 := g e.2]> m) m (map_iter u) !! k = match u !! k with Some w => Some (g w) | None => m !! k end.
Proof.
  apply (foldl_pointwise _ (λ _ w, Some (g w))). intros m' [k' w] k''. cbn. destruct (decide (k'' = k')) as [->|Hne]; [by rewrite lookup_insert_eq|].
  by rewrite lookup_insert_ne.
Qed.

(** The bytes of a serialization. *)
Definition written {E : Type} (m : outcome E Bytes) : Bytes := match m with Ok b => b | _ => [] end.

Lemma written_read {A} (S : Serializer A) (D : Parser A) (P : A → Prop) `{!Wire S D P} x :
  P x → S x = Ok (written (S x)) ∧ is_bytes (written (S x)) ∧ ∀ rest, D (written (S x) ++ rest) = Some (x, rest).
Proof. intros Hx. destruct (wire_read S D P x Hx) as (b & Hb & Hbb & HD). by rewrite Hb. Qed.
Lemma written_inj {A} (S : Serializer A) (D : Parser A) (P : A → Prop) `{!Wire S D P} x y :
  P x → P y → written (S x) = written (S y) → x = y.
Proof.
  intros Hx Hy Heq. destruct (written_read S D P x Hx) as (_ & _ & HDx). destruct (written_read S D P y Hy) as (_ & _ & HDy).
  specialize (HDx []). rewrite Heq, HDy in HDx. congruence.
Qed.

(** ** Executed operations: the list in memory and the one of the database

    Both are one table, from the operation to its success and its expiry ([executed_ops_ok]);
    [apply_ops_changes_to_batch] enters the changes and removes what expired ([ops_after]), and
    the list in memory can be recomputed from the database. *)

Section ops.
Context `{!RocksDB} `{!RocksLaws} `{!EntryHash} `{!EntryHashLaws} `{!Varint} `{VL : !VarintLaws} `{!SetIter OperationId}.
Implicit Types (d : MassaDB) (eo : ExecutedOps) (t : gmap OperationId (bool * Slot)) (m : gmap Bytes Bytes) (op : OperationId) (slot : Slot) (ch : gmap OperationId (bool * Slot)).
Notation content d cf := (contents (db d) cf).

(** ** The table *)

Definition op_ok op : Prop := hash_ok (operation_hash op).
Definition op_key op : Bytes := EXECUTED_OPS_PREFIX ++ written (OperationIdSerializer op).
Definition op_value (x : bool * Slot) : Bytes := written (BoolSerializer x.1) ++ written (SlotSerializer x.2).
Definition expiry_ok (config : ExecutedOpsConfig) (s : Slot) : Prop := FormatFacts.slot_ok any_u64 (below (eo_thread_count config)) s.

Record executed_ops_ok eo m t : Prop := {
  eo_coded : coded EXECUTED_OPS_PREFIX op_key op_ok op_value m t;
  eo_values : ∀ op b s, t !! op = Some (b, s) → expiry_ok (eo_config eo) s;
  eo_status : op_exec_status eo = fst <$> t;
  eo_sorted : bt_sorted (eo_sorted_ops eo);
  eo_listed : ∀ s op, listed (eo_sorted_ops eo) s op ↔ ∃ b, t !! op = Some (b, s) }.

Lemma op_key_prefix op : starts_with EXECUTED_OPS_PREFIX (op_key op) = true.
Proof using. apply starts_with_app. Qed.
Lemma op_key_inj op op' : op_ok op → op_ok op' → op_key op = op_key op' → op = op'.
Proof using VL. intros Ho Ho' Heq%app_inv_head. exact (written_inj OperationIdSerializer OperationIdDeserializer _ op op' Ho Ho' Heq). Qed.
Lemma op_id_key_ok {E : Type} op : op_ok op → op_id_key (E := E) op = Ok (op_key op).
Proof using VL.
  intros Ho. unfold op_id_key. destruct (written_read OperationIdSerializer _ _ op Ho) as (HS & _). by rewrite HS at 1.
Qed.
Lemma put_op_entry_ok {E : Type} op (x : bool * Slot) (config : ExecutedOpsConfig) (batch : DBBatch) :
  op_ok op → expiry_ok config x.2 → put_op_entry (E := E) op x batch = Ok (<[op_key op := Some (op_value x)]> batch).
Proof using VL.
  intros Ho Hx. unfold put_op_entry. rewrite op_id_key_ok by done. cbn [mbind outcome_bind].
  destruct (written_read BoolSerializer _ _ x.1 I) as (HS & _). rewrite HS at 1. cbn [expect_ok mbind outcome_bind].
  destruct (written_read SlotSerializer _ _ x.2 Hx) as (HS' & _). by rewrite HS' at 1.
Qed.
Lemma delete_op_entry_ok {E : Type} op (batch : DBBatch) :
  op_ok op → delete_op_entry (E := E) op batch = Ok (<[op_key op := None]> batch).
Proof using VL. intros Ho. unfold delete_op_entry. by rewrite op_id_key_ok. Qed.

Lemma contains_op_spec {E : Type} d eo t op :
  executed_ops_ok eo (content d STATE_CF) t → op_ok op → contains_op (E := E) d op = Ok (bool_decide (is_Some (t !! op))).
Proof using All.
  intros Heo Ho. unfold contains_op. rewrite op_id_key_ok by done. cbn [mbind outcome_bind]. unfold get_cf. rewrite rocks_get_spec.
  rewrite (coded_lookup _ _ _ op_key_prefix op_key_inj _ _ _ op (eo_coded _ _ _ Heo) Ho). f_equal. apply bool_decide_ext. by rewrite fmap_is_Some.
Qed.

(** ** Changes *)

(** The slot before which operations are expired, once [slot] is final. *)
Definition ops_cutoff (config : ExecutedOpsConfig) (slot : Slot) : option Slot :=
  (λ p, MkSlot p (thread slot)) <$> checked_sub (period slot) (eo_keep_executed_history_extra_periods config).
Definition kept_op (config : ExecutedOpsConfig) (slot expiry : Slot) : Prop :=
  match ops_cutoff config slot with Some c => cmp_le c expiry | None => True end.
#[export] Instance kept_op_dec (config : ExecutedOpsConfig) (slot expiry : Slot) : Decision (kept_op config slot expiry).
Proof using. unfold kept_op. destruct (ops_cutoff config slot); apply _. Defined.
Definition ops_after (config : ExecutedOpsConfig) (slot : Slot) ch t : gmap OperationId (bool * Slot) :=
  filter (λ e, kept_op config slot e.2.2) (ch ∪ t).

Lemma lookup_ops_after (config : ExecutedOpsConfig) (slot : Slot) ch t op x :
  ops_after config slot ch t !! op = Some x ↔ kept_op config slot x.2 ∧ (ch !! op = Some x ∨ ch !! op = None ∧ t !! op = Some x).
Proof using. unfold ops_after. rewrite map_lookup_filter_Some, lookup_union_Some_raw. cbn. naive_solver. Qed.

(** The operations that are listed before [c]. *)
Definition expired_ops (sorted : list (Slot * gset OperationId)) (c : Slot) : list OperationId :=
  filter (λ e, cmp_lt e.1 c) sorted ≫= (λ e, set_iter e.2).
Lemma elem_of_expired_ops sorted c op : bt_sorted sorted → op ∈ expired_ops sorted c ↔ ∃ s, cmp_lt s c ∧ listed sorted s op.
Proof using.
  intros Hs. unfold expired_ops. rewrite list_elem_of_bind. split.
  - intros ([s ids] & Hop & [Hlt Hin]%list_elem_of_filter). rewrite elem_of_set_iter in Hop. exists s. split; [done|].
    apply listed_elem; [done|]. by exists ids.
  - intros (s & Hlt & (ids & Hin & Hop)%listed_elem); [|done]. exists (s, ids). rewrite elem_of_set_iter. split; [done|].
    by apply list_elem_of_filter.
Qed.

Lemma prune_ops_spec {E : Type} slot eo (batch : DBBatch) :
  (∀ s op, listed (eo_sorted_ops eo) s op → op_ok op) → bt_sorted (eo_sorted_ops eo) →
  ∃ sorted removed, prune_ops_to_batch (E := E) slot eo batch = Ok
    (MkExecutedOps (eo_config eo) sorted (foldl (λ s op, delete op s) (op_exec_status eo) removed),
     foldl (λ b op, <[op_key op := None]> b) batch removed)
  ∧ bt_sorted sorted ∧ (∀ s op, listed sorted s op ↔ kept_op (eo_config eo) slot s ∧ listed (eo_sorted_ops eo) s op)
  ∧ ∀ op, op ∈ removed ↔ ∃ s, ¬ kept_op (eo_config eo) slot s ∧ listed (eo_sorted_ops eo) s op.
Proof using VL.
  intros Hok Hs. unfold prune_ops_to_batch, kept_op, ops_cutoff. destruct (checked_sub _ _) as [p|]; cbn [fmap option_fmap option_map].
  2:{ exists (eo_sorted_ops eo), []. split_and!; [by destruct eo|done|naive_solver|]. intros op. rewrite elem_of_nil. naive_solver. }
  set (c := MkSlot p (thread slot)). exists (filter (λ e, cmp_le c e.1) (eo_sorted_ops eo)), (expired_ops (eo_sorted_ops eo) c). split_and!.
  - unfold remove_ops. rewrite foldM_concat. fold (expired_ops (eo_sorted_ops eo) c).
    rewrite (foldM_foldl _ (λ '(s, b) op, (delete op s, <[op_key op := None]> b))).
    + by rewrite (foldl_pair _ (λ s op, delete op s) (λ b op, <[op_key op := None]> b)).
    + intros [s b] op (s' & _ & Hl)%elem_of_expired_ops; [|done]. by rewrite (delete_op_entry_ok (E := E) op b (Hok s' op Hl)).
  - by apply filter_sorted.
  - intros s op. by apply (listed_filter (cmp_le c)).
  - intros op. rewrite elem_of_expired_ops by done. by setoid_rewrite cmp_lt_not_le.
Qed.

(** What is entered: the list, the statuses and the batch. *)
Lemma enter_ops_spec ch sorted (status : gmap OperationId bool) :
  bt_sorted sorted → ∃ sorted' status',
  foldl (λ '(sorted, status) '(op_id, (success, slot)), (enter slot op_id sorted, <[op_id := success]> status)) (sorted, status) (map_iter ch)
    = (sorted', status')
  ∧ bt_sorted sorted' ∧ (∀ s op, listed sorted' s op ↔ (∃ b, ch !! op = Some (b, s)) ∨ listed sorted s op)
  ∧ status' = (fst <$> ch) ∪ status.
Proof using.
  intros Hs. exists (foldl (λ so e, enter e.2.2 e.1 so) sorted (map_iter ch)), (foldl (λ st e, <[e.1 := e.2.1]> st) status (map_iter ch)). split_and!.
  - apply foldl_pair. by intros so st [op [b s]].
  - by apply (listed_enter_all (λ e : OperationId * (bool * Slot), e.2.2) fst).
  - intros s op. destruct (listed_enter_all (λ e : OperationId * (bool * Slot), e.2.2) fst (map_iter ch) sorted Hs) as [_ ->]. f_equiv. split.
    + intros ([op' [b s']] & Hin%elem_of_map_iter & <- & <-). by exists b.
    + intros [b Hb]. exists (op, (b, s)). by rewrite elem_of_map_iter.
  - apply map_eq. intros op. rewrite (lookup_foldl_iter fst), lookup_union, lookup_fmap. by destruct (ch !! op) as [[b s]|], (status !! op).
Qed.
Lemma put_ops_spec {E : Type} eo ch (batch : DBBatch) :
  (∀ op b s, ch !! op = Some (b, s) → op_ok op ∧ expiry_ok (eo_config eo) s) →
  foldM (λ batch '(id, value), put_op_entry (E := E) id value batch) (map_iter ch) batch
    = Ok (foldl (λ b e, <[op_key e.1 := Some (op_value e.2)]> b) batch (map_iter ch)).
Proof using VL.
  intros Hch. apply foldM_foldl. intros b [op [bo s]] Hin%elem_of_map_iter. apply Hch in Hin as [Ho Hs]. exact (put_op_entry_ok op (bo, s) (eo_config eo) b Ho Hs).
Qed.

(** The batch of the changes [ch], from which the operations [removed] are deleted. *)
Lemma coded_ops_batch ch (removed : list OperationId) (batch : DBBatch) :
  (∀ op x, ch !! op = Some x → op_ok op) → (∀ op, op ∈ removed → op_ok op) →
  (∀ y, starts_with EXECUTED_OPS_PREFIX y = true → batch !! y = None) →
  let batch' := foldl (λ b op, <[op_key op := None]> b) (foldl (λ b e, <[op_key e.1 := Some (op_value e.2)]> b) batch (map_iter ch)) removed in
  (∃ c, coded EXECUTED_OPS_PREFIX op_key op_ok (fmap op_value) batch' c
     ∧ ∀ op, c !! op = if decide (op ∈ removed) then Some None else Some <$> ch !! op)
  ∧ ∀ y, starts_with EXECUTED_OPS_PREFIX y = false → batch' !! y = batch !! y.
Proof using VL.
  intros Hch Hrem Hb batch'. split.
  - exists (foldl (λ c op, <[op := None]> c) (foldl (λ c e, <[e.1 := Some e.2]> c) ∅ (map_iter ch)) removed). split.
    + refine (coded_foldl _ _ _ op_key_inj (fmap op_value) (λ op, op) (λ _, None) removed _ _ _ Hrem).
      refine (coded_foldl _ _ _ op_key_inj (fmap op_value) fst (λ e, Some e.2) (map_iter ch) batch ∅ _ _); [by apply coded_empty|].
      intros [op x] Hin%elem_of_map_iter. by eapply Hch.
    + intros op. rewrite lookup_foldl_const, (lookup_foldl_iter Some), lookup_empty. by destruct (ch !! op).
  - intros y Hy. unfold batch'. rewrite (foldl_insert_other _ _ op_key_prefix (λ op, op) (λ _, None)) by done.
    by rewrite (foldl_insert_other _ _ op_key_prefix fst (λ e, Some (op_value e.2))) by done.
Qed.

(** An operation keeps its expiry, which is part of its content. *)
Definition same_expiry ch t : Prop :=
  ∀ op b s b' s', ch !! op = Some (b, s) → t !! op = Some (b', s') → s = s'.

(** The table after the changes. *)
Lemma ops_after_table (config : ExecutedOpsConfig) slot ch t (c : gmap OperationId (option (bool * Slot))) (removed : list OperationId) :
  (∀ op, op ∈ removed ↔ ∃ b s, ¬ kept_op config slot s ∧ (ch ∪ t) !! op = Some (b, s)) →
  (∀ op, c !! op = if decide (op ∈ removed) then Some None else Some <$> ch !! op) →
  apply_table t c = ops_after config slot ch t
  ∧ foldl (λ s op, delete op s) ((fst <$> ch) ∪ (fst <$> t)) removed = fst <$> ops_after config slot ch t.
Proof using.
  intros Hr Hc.
  assert (∀ op, ops_after config slot ch t !! op = if decide (op ∈ removed) then None else (ch ∪ t) !! op) as Ha.
  { intros op. unfold ops_after. destruct ((ch ∪ t) !! op) as [[b s]|] eqn:Hop.
    - destruct (decide (op ∈ removed)) as [(b' & s' & Hk & Hop')%Hr|Hn].
      + apply map_lookup_filter_None_2. right. intros x Hx. rewrite Hop in *. by simplify_eq.
      + apply map_lookup_filter_Some_2; [done|]. cbn. destruct (decide (kept_op config slot s)) as [|Hk]; [done|]. destruct Hn. apply Hr. by exists b, s.
    - rewrite map_lookup_filter_None_2 by (by left). by case_decide. }
  rewrite <- map_fmap_union. split; apply map_eq; intros op.
  - rewrite lookup_apply_table, Ha, Hc. case_decide; [done|]. rewrite lookup_union. by destruct (ch !! op), (t !! op).
  - rewrite lookup_foldl_delete, !lookup_fmap, Ha. by case_decide.
Qed.

Lemma apply_ops_spec {E : Type} eo m t ch slot (batch : DBBatch) :
  executed_ops_ok eo m t → (∀ op b s, ch !! op = Some (b, s) → op_ok op ∧ expiry_ok (eo_config eo) s) → same_expiry ch t →
  (∀ y, starts_with EXECUTED_OPS_PREFIX y = true → batch !! y = None) →
  ∃ eo' batch', apply_ops_changes_to_batch (E := E) ch slot eo batch = Ok (eo', batch') ∧ eo_config eo' = eo_config eo
    ∧ executed_ops_ok eo' (apply_batch m batch') (ops_after (eo_config eo) slot ch t)
    ∧ ∀ y, starts_with EXECUTED_OPS_PREFIX y = false → batch' !! y = batch !! y.
Proof using VL.
  intros Heo Hch Hsame Hb. unfold apply_ops_changes_to_batch. rewrite (put_ops_spec eo) by done. cbn [mbind outcome_bind].
  destruct (enter_ops_spec ch _ (op_exec_status eo) (eo_sorted _ _ _ Heo)) as (sorted & status & -> & Hs & Hl & ->).
  assert (∀ s op, listed sorted s op ↔ ∃ b, (ch ∪ t) !! op = Some (b, s)) as Hl'.
  { intros s op. rewrite Hl, (eo_listed _ _ _ Heo). setoid_rewrite lookup_union_Some_raw. split.
    - intros [[b ?]|[b ?]]; [naive_solver|]. destruct (ch !! op) as [[b' s']|] eqn:Hc; [|naive_solver].
      assert (s' = s) as -> by (by eapply Hsame). naive_solver.
    - naive_solver. }
  assert (∀ op x, (ch ∪ t) !! op = Some x → op_ok op) as Hok.
  { intros op [b s] [?|[_ ?]]%lookup_union_Some_raw; [by eapply Hch|by eapply (coded_ok (eo_coded _ _ _ Heo))]. }
  match goal with |- context [prune_ops_to_batch slot ?eo1 ?b1] => destruct (prune_ops_spec (E := E) slot eo1 b1) as (sorted' & removed & -> & Hs' & Hk & Hr) end;
    cbn [eo_sorted_ops eo_config op_exec_status] in *; [intros s op [b Hop]%Hl'; by eapply Hok|done|].
  assert (∀ op, op ∈ removed ↔ ∃ b s, ¬ kept_op (eo_config eo) slot s ∧ (ch ∪ t) !! op = Some (b, s)) as Hr'.
  { intros op. rewrite Hr. setoid_rewrite Hl'. naive_solver. }
  destruct (coded_ops_batch ch removed batch) as [(c & Hc & Hlc) Hother];
    [by intros op [b s] Hop; eapply Hch|by intros op (b & s & _ & Hop)%Hr'; eapply Hok|done|].
  do 2 eexists. split; [done|]. split; [done|]. split; [|done].
  destruct (ops_after_table (eo_config eo) slot ch t c removed Hr' Hlc) as [Ht Hst]. split; cbn [eo_config eo_sorted_ops op_exec_status]; [|..|done|].
  - rewrite <- Ht. apply coded_apply; [apply op_key_prefix|apply op_key_inj|apply (eo_coded _ _ _ Heo)|done].
  - intros op b s [_ [?|[_ ?]]]%lookup_ops_after; [by eapply Hch|by eapply (eo_values _ _ _ Heo)].
  - by rewrite (eo_status _ _ _ Heo).
  - intros s op. rewrite Hk, Hl'. unfold ops_after. setoid_rewrite map_lookup_filter_Some. naive_solver.
Qed.

(** ** From the database *)

Lemma op_key_read op : op_ok op → OperationIdDeserializer (drop (length EXECUTED_OPS_PREFIX) (op_key op)) = Some (op, []).
Proof using VL.
  intros Ho. unfold op_key. rewrite drop_app_length. destruct (written_read OperationIdSerializer _ _ op Ho) as (_ & _ & HD).
  specialize (HD []). by rewrite app_nil_r in HD.
Qed.
Lemma op_value_read (config : ExecutedOpsConfig) (b : bool) (s : Slot) :
  expiry_ok config s → ∃ rest, BoolDeserializer (op_value (b, s)) = Some (b, rest)
    ∧ SlotDeserializer any_u64 (below (eo_thread_count config)) rest = Some (s, []).
Proof using VL.
  intros Hs. exists (written (SlotSerializer s)). unfold op_value. cbn [fst snd].
  destruct (written_read BoolSerializer BoolDeserializer _ b I) as (_ & _ & HDb). split; [apply HDb|].
  destruct (written_read SlotSerializer (SlotDeserializer any_u64 (below (eo_thread_count config))) _ s Hs) as (_ & _ & HD).
  specialize (HD []). by rewrite app_nil_r in HD.
Qed.
Lemma load_op_spec {E : Type} eo op (b : bool) (s : Slot) :
  op_ok op → expiry_ok (eo_config eo) s →
  load_op (E := E) eo (op_key op, op_value (b, s))
    = Ok (MkExecutedOps (eo_config eo) (enter s op (eo_sorted_ops eo)) (<[op := b]> (op_exec_status eo))).
Proof using VL.
  intros Ho Hs. unfold load_op. cbn [fst snd]. rewrite op_key_read by done. cbn [expect mbind outcome_bind].
  destruct (op_value_read (eo_config eo) b s Hs) as (rest & -> & HD). cbn [expect mbind outcome_bind]. by rewrite HD.
Qed.

Lemma load_ops_spec {E : Type} (l : list (OperationId * (bool * Slot))) eo :
  (∀ op b s, (op, (b, s)) ∈ l → op_ok op ∧ expiry_ok (eo_config eo) s) →
  foldM (load_op (E := E)) ((λ '(op, x), (op_key op, op_value x)) <$> l) eo
    = Ok (MkExecutedOps (eo_config eo) (foldl (λ so e, enter e.2.2 e.1 so) (eo_sorted_ops eo) l)
            (foldl (λ st e, <[e.1 := e.2.1]> st) (op_exec_status eo) l)).
Proof using VL.
  revert eo. induction l as [|[op [b s]] l IH]; intros eo Hl; [by destruct eo|]. cbn [fmap list_fmap foldM].
  destruct (Hl op b s) as [Ho Hs]; [by left|]. rewrite load_op_spec by done. cbn [mbind outcome_bind]. rewrite IH; [done|].
  intros op' b' s' Hin. apply (Hl op' b' s'). by right.
Qed.

(** What is recomputed from the database. *)
Lemma recompute_ops_spec {E : Type} d eo t :
  coded EXECUTED_OPS_PREFIX op_key op_ok op_value (content d STATE_CF) t →
  (∀ op b s, t !! op = Some (b, s) → expiry_ok (eo_config eo) s) →
  ∃ eo', recompute_sorted_ops_and_op_exec_status (E := E) d eo = Ok eo' ∧ eo_config eo' = eo_config eo
    ∧ executed_ops_ok eo' (content d STATE_CF) t.
Proof using All.
  intros Hc Hv. unfold recompute_sorted_ops_and_op_exec_status. rewrite prefixed_entries.
  destruct (coded_list _ _ _ op_key_prefix op_key_inj op_value _ _ Hc) as (l & -> & Hnd & Hl).
  rewrite load_ops_spec by (intros op b s Hin%Hl; split; [by eapply (coded_ok Hc)|by eapply Hv]).
  eexists. split; [done|]. split; [done|]. cbn [executed_ops_new eo_config eo_sorted_ops op_exec_status].
  pose proof (listed_enter_all (λ e : OperationId * (bool * Slot), e.2.2) fst l [] bt_sorted_nil) as [Hs Hli].
  split; cbn [eo_config eo_sorted_ops op_exec_status]; [done|done| |done|].
  - apply map_eq. intros op. rewrite lookup_fmap.
    destruct (foldl_reads_list (λ (st : gmap OperationId bool) (e : OperationId * (bool * Slot)), <[e.1 := e.2.1]> st) (.!! op)
                (λ _ x, Some x.1) op) with (l := l) (s := (∅ : gmap OperationId bool)) as [H1' H2']; [|done|].
    { intros st [op' x]. cbn. destruct (decide (op = op')) as [->|]; [by rewrite lookup_insert_eq|by rewrite lookup_insert_ne]. }
    destruct (t !! op) as [x|] eqn:Hx; [apply H1'; by apply Hl|]. rewrite H2', lookup_empty; [done|].
    intros ([op' x] & Heq & Hin%Hl)%list_elem_of_fmap. cbn in Heq. congruence.
  - intros s op. rewrite Hli. split.
    + intros [([op' [b s']] & Hin%Hl & <- & <-)|Hn]; [by exists b|]. cbn in Hn. set_solver.
    + intros [b Hb]. left. exists (op, (b, s)). by rewrite Hl.
Qed.

(** After a reset there is none. *)
Lemma reset_ops_spec d id eo :
  db_at d id → ∃ d' eo', reset_ops d eo = Ok (d', eo') ∧ db_at d' id ∧ db_config d' = db_config d ∧ eo_config eo' = eo_config eo
    ∧ content d' STATE_CF = filter (λ e, starts_with EXECUTED_OPS_PREFIX e.1 = false) (content d STATE_CF)
    ∧ executed_ops_ok eo' (content d' STATE_CF) ∅.
Proof using All.
  intros Hd. unfold reset_ops.
  destruct (delete_prefix_spec d id EXECUTED_OPS_PREFIX None Hd (cmp_le_refl id) (at_id_ok _ _ Hd)) as (d' & -> & Hd' & Hcd & Hs & _).
  cbn [mbind outcome_bind]. destruct (recompute_ops_spec (E := MassaDBError) d' eo ∅) as (eo' & -> & Hc & Heo).
  - rewrite Hs. apply coded_empty. intros y Hy. apply map_lookup_filter_None_2. right. intros v _. cbn [fst]. congruence.
  - intros op b s. by rewrite lookup_empty.
  - by exists d', eo'.
Qed.

(** ** Entries of other nodes *)

(** What is accepted is an entry of the table, and all of them are. *)
Lemma op_entry_valid eo (k v : Bytes) :
  is_bytes k → is_bytes v →
  is_op_key_value_valid eo k v = true ↔
    ∃ op b s, op_ok op ∧ expiry_ok (eo_config eo) s ∧ k = op_key op ∧ v = op_value (b, s).
Proof using VL.
  intros Hk Hv. unfold is_op_key_value_valid. rewrite !andb_true_iff. split.
  - intros [[Hp Hop] Hval]. apply starts_with_inv in Hp.
    destruct (OperationIdDeserializer _) as [[op [|]]|] eqn:HDo; try done.
    destruct (BoolDeserializer v) as [[b rest]|] eqn:HDb; try done. destruct (SlotDeserializer _ _ rest) as [[s [|]]|] eqn:HDs; try done.
    assert (is_bytes (drop (length EXECUTED_OPS_PREFIX) k)) as Hk' by (by apply Forall_drop).
    destruct (canonical (S := OperationIdSerializer) _ _ _ Hk' HDo) as (ko & HSo & Hko).
    destruct (canonical (S := BoolSerializer) _ _ _ Hv HDb) as (vb & HSb & ->). apply is_bytes_app in Hv as [_ Hr].
    destruct (canonical (S := SlotSerializer) _ _ _ Hr HDs) as (vs & HSs & ->).
    exists op, b, s. split_and!.
    + exact (proj1 (wire_valid OperationIdSerializer OperationIdDeserializer _ _ _ _ Hk' HDo)).
    + exact (proj1 (wire_valid SlotSerializer _ _ _ _ _ Hr HDs)).
    + rewrite Hp, Hko. unfold op_key. by rewrite HSo, app_nil_r.
    + unfold op_value. cbn [fst snd]. by rewrite HSb, HSs, app_nil_r.
  - intros (op & b & s & Ho & Hs & -> & ->). rewrite op_key_prefix, op_key_read by done.
    by destruct (op_value_read (eo_config eo) b s Hs) as (rest & -> & ->).
Qed.
End ops.

(** ** Executed denunciations: the list in memory and the one of the database

    Both are one set of indexes ([executed_denunciations_ok]); the changes are entered and
    what expired is removed ([denunciations_after]), and the list in memory can be recomputed
    from the database. *)

Lemma elem_of_union_sets {A K : Type} `{Countable K} (l : list (A * gset K)) (acc : gset K) i :
  i ∈ foldl (λ acc e, acc ∪ e.2) acc l ↔ i ∈ acc ∨ ∃ e, e ∈ l ∧ i ∈ e.2.
Proof.
  revert acc. induction l as [|e l IH]; intros acc; cbn [foldl].
  - split; [by left|]. intros [?|(e & He & _)]; [done|]. by apply elem_of_nil in He.
  - rewrite IH. setoid_rewrite elem_of_cons. set_solver.
Qed.

Section denunciations.
Context `{!RocksDB} `{!RocksLaws} `{!EntryHash} `{!EntryHashLaws} `{!Varint} `{VL : !VarintLaws} `{!SetIter DenunciationIndex}.
Implicit Types (d : MassaDB) (ed : ExecutedDenunciations) (t ch : gset DenunciationIndex) (m : gmap Bytes Bytes) (i : DenunciationIndex)
  (slot : Slot) (config : ExecutedDenunciationsConfig).
Notation content d cf := (contents (db d) cf).

(** ** The set *)

Definition index_ok config i : Prop := denunciation_index_ok (ed_thread_count config) (ed_endorsement_count config) i.
Definition index_key i : Bytes := EXECUTED_DENUNCIATIONS_PREFIX ++ written (DenunciationIndexSerializer i).
(** Their entries have no value. *)
Definition no_value (x : unit) : Bytes := [].

Record executed_denunciations_ok ed m t : Prop := {
  ed_coded : coded EXECUTED_DENUNCIATIONS_PREFIX index_key (index_ok (ed_config ed)) no_value m (gset_to_gmap () t);
  ed_sorted : bt_sorted (sorted_denunciations ed);
  ed_listed : ∀ s i, listed (sorted_denunciations ed) s i ↔ i ∈ t ∧ di_get_slot i = s }.

Lemma index_key_prefix i : starts_with EXECUTED_DENUNCIATIONS_PREFIX (index_key i) = true.
Proof using. apply starts_with_app. Qed.
Lemma index_key_inj config i i' : index_ok config i → index_ok config i' → index_key i = index_key i' → i = i'.
Proof using VL.
  intros Hi Hi' Heq%app_inv_head.
  by apply (written_inj DenunciationIndexSerializer (DenunciationIndexDeserializer (ed_thread_count config) (ed_endorsement_count config))
              (denunciation_index_ok (ed_thread_count config) (ed_endorsement_count config))).
Qed.
Lemma index_key_ok {E : Type} config i : index_ok config i → denunciation_index_key (E := E) i = Ok (index_key i).
Proof using VL.
  intros Hi. unfold denunciation_index_key. destruct (written_read DenunciationIndexSerializer _ _ i Hi) as (HS & _). by rewrite HS at 1.
Qed.
Lemma put_denunciation_ok {E : Type} config i (batch : DBBatch) :
  index_ok config i → put_denunciation_entry (E := E) i batch = Ok (<[index_key i := Some []]> batch).
Proof using VL. intros Hi. unfold put_denunciation_entry. by rewrite (index_key_ok config). Qed.
Lemma delete_denunciation_ok {E : Type} config i (batch : DBBatch) :
  index_ok config i → delete_denunciation_entry (E := E) i batch = Ok (<[index_key i := None]> batch).
Proof using VL. intros Hi. unfold delete_denunciation_entry. by rewrite (index_key_ok config). Qed.

Lemma contains_denunciation_spec {E : Type} d ed t i :
  executed_denunciations_ok ed (content d STATE_CF) t → index_ok (ed_config ed) i →
  contains_denunciation (E := E) d i = Ok (bool_decide (i ∈ t)).
Proof using All.
  intros Hed Hi. unfold contains_denunciation. rewrite (index_key_ok (ed_config ed)) by done. cbn [mbind outcome_bind]. unfold get_cf. rewrite rocks_get_spec.
  rewrite (coded_lookup _ _ _ index_key_prefix (index_key_inj (ed_config ed)) _ _ _ i (ed_coded _ _ _ Hed) Hi). f_equal. apply bool_decide_ext.
  rewrite fmap_is_Some, lookup_gset_to_gmap. destruct (decide (i ∈ t)); [rewrite option_guard_True by done|rewrite option_guard_False by done]; naive_solver.
Qed.

(** ** Changes *)

Definition kept_denunciation config slot i : Prop :=
  is_expired (period (di_get_slot i)) (period slot)
    (saturating_add u64_max (ed_denunciation_expire_periods config) (ed_keep_executed_history_extra_periods config)) = false.
#[export] Instance kept_denunciation_dec config slot i : Decision (kept_denunciation config slot i).
Proof using. unfold kept_denunciation. apply _. Defined.
Definition denunciations_after config slot ch t : gset DenunciationIndex := filter (kept_denunciation config slot) (ch ∪ t).

Lemma prune_denunciations_spec {E : Type} slot ed (batch : DBBatch) :
  (∀ s i, listed (sorted_denunciations ed) s i → index_ok (ed_config ed) i ∧ di_get_slot i = s) → bt_sorted (sorted_denunciations ed) →
  ∃ sorted removed, prune_denunciations_to_batch (E := E) slot ed batch
    = Ok (MkExecutedDenunciations (ed_config ed) sorted, foldl (λ b i, <[index_key i := None]> b) batch removed)
  ∧ bt_sorted sorted
  ∧ (∀ s i, listed sorted s i ↔ kept_denunciation (ed_config ed) slot i ∧ listed (sorted_denunciations ed) s i)
  ∧ ∀ i, i ∈ removed ↔ ¬ kept_denunciation (ed_config ed) slot i ∧ ∃ s, listed (sorted_denunciations ed) s i.
Proof using VL.
  intros Hok Hs. unfold prune_denunciations_to_batch.
  set (eff := saturating_add _ _ _). set (drained := foldl _ _ _).
  assert (∀ i, i ∈ drained ↔ ¬ kept_denunciation (ed_config ed) slot i ∧ ∃ s, listed (sorted_denunciations ed) s i) as Hd.
  { intros i. unfold drained. rewrite elem_of_union_sets. setoid_rewrite listed_elem; [|done]. setoid_rewrite list_elem_of_filter. split.
    - intros [Hn|([s ids] & [Hx Hin] & Hi)]; [by apply not_elem_of_empty in Hn|]. cbn [fst snd] in *.
      destruct (Hok s i) as [_ <-]; [apply listed_elem; [done|by exists ids]|].
      split; [|by exists (di_get_slot i), ids]. unfold kept_denunciation. fold eff. congruence.
    - intros [Hx (s & ids & Hin & Hi)]. right. exists (s, ids). cbn [fst snd]. split_and!; [|done..].
      destruct (Hok s i) as [_ <-]; [apply listed_elem; [done|by exists ids]|].
      unfold kept_denunciation in Hx. fold eff in Hx. by destruct (is_expired _ _ eff). }
  exists (filter (λ e, is_expired (period e.1) (period slot) eff = false) (sorted_denunciations ed)), (set_iter drained). split_and!.
  - rewrite (foldM_foldl _ (λ b i, <[index_key i := None]> b)); [done|].
    intros b i Hi. rewrite elem_of_set_iter in Hi. apply Hd in Hi as [_ [s Hl]]. by apply (delete_denunciation_ok (ed_config ed)), (Hok s i).
  - refine (filter_sorted (λ s, is_expired (period s) (period slot) eff = false) _ Hs).
  - intros s i. pose proof (listed_filter (λ s, is_expired (period s) (period slot) eff = false) (sorted_denunciations ed) s i Hs) as Hf.
    etrans; [exact Hf|]. split; intros [Hx Hl]; (split; [|done]); destruct (Hok s i Hl) as [_ <-]; done.
  - intros i. by rewrite elem_of_set_iter, Hd.
Qed.

(** The loop that enters the changes. *)
Lemma enter_denunciations_spec {E : Type} ed ch (batch : DBBatch) :
  (∀ i, i ∈ ch → index_ok (ed_config ed) i) → bt_sorted (sorted_denunciations ed) →
  ∃ sorted, foldM (λ '(ed, batch) de_idx,
      batch ← put_denunciation_entry (E := E) de_idx batch;
      Ok (MkExecutedDenunciations (ed_config ed) (enter (di_get_slot de_idx) de_idx (sorted_denunciations ed)), batch)) (set_iter ch) (ed, batch)
    = Ok (MkExecutedDenunciations (ed_config ed) sorted, foldl (λ b i, <[index_key i := Some []]> b) batch (set_iter ch))
  ∧ bt_sorted sorted ∧ ∀ s i, listed sorted s i ↔ (i ∈ ch ∧ di_get_slot i = s) ∨ listed (sorted_denunciations ed) s i.
Proof using VL.
  intros Hch Hs. exists (foldl (λ so i, enter (di_get_slot i) i so) (sorted_denunciations ed) (set_iter ch)).
  destruct (listed_enter_all di_get_slot (λ i, i) (set_iter ch) _ Hs) as [Hs' Hl]. split_and!; [|done|].
  - assert (∀ i, i ∈ set_iter ch → index_ok (ed_config ed) i) as Hok by (intros i Hi; rewrite elem_of_set_iter in Hi; auto).
    clear Hs' Hl Hch Hs. revert ed batch Hok. induction (set_iter ch) as [|i l IH]; intros ed batch Hok; [by destruct ed|].
    cbn [foldM foldl]. rewrite (put_denunciation_ok (ed_config ed)) by (apply Hok; by left). cbn [mbind outcome_bind]. rewrite IH; [done|].
    intros j Hj. apply Hok. by right.
  - intros s i. rewrite Hl. f_equiv. setoid_rewrite elem_of_set_iter. naive_solver.
Qed.

(** The batch of the changes [ch], from which the denunciations [removed] are deleted. *)
Lemma coded_denunciations_batch config ch (removed : list DenunciationIndex) (batch : DBBatch) :
  (∀ i, i ∈ ch → index_ok config i) → (∀ i, i ∈ removed → index_ok config i) →
  (∀ y, starts_with EXECUTED_DENUNCIATIONS_PREFIX y = true → batch !! y = None) →
  let batch' := foldl (λ b i, <[index_key i := None]> b) (foldl (λ b i, <[index_key i := Some []]> b) batch (set_iter ch)) removed in
  (∃ c, coded EXECUTED_DENUNCIATIONS_PREFIX index_key (index_ok config) (fmap no_value) batch' c
     ∧ ∀ i, c !! i = if decide (i ∈ removed) then Some None else if decide (i ∈ ch) then Some (Some tt) else None)
  ∧ ∀ y, starts_with EXECUTED_DENUNCIATIONS_PREFIX y = false → batch' !! y = batch !! y.
Proof using VL.
  intros Hch Hrem Hb batch'. split.
  - exists (foldl (λ c i, <[i := None]> c) (foldl (λ c i, <[i := Some tt]> c) ∅ (set_iter ch)) removed). split.
    + refine (coded_foldl _ _ _ (index_key_inj config) (fmap no_value) (λ i, i) (λ _, None) removed _ _ _ Hrem).
      refine (coded_foldl _ _ _ (index_key_inj config) (fmap no_value) (λ i, i) (λ _, Some tt) (set_iter ch) batch ∅ _ _); [by apply coded_empty|].
      intros i Hi. rewrite elem_of_set_iter in Hi. auto.
    + intros i. rewrite !lookup_foldl_const, lookup_empty. case_decide; [done|]. apply decide_ext. apply elem_of_set_iter.
  - intros y Hy. unfold batch'. rewrite (foldl_insert_other _ _ index_key_prefix (λ i, i) (λ _, None)) by done.
    by rewrite (foldl_insert_other _ _ index_key_prefix (λ i, i) (λ _, Some [])) by done.
Qed.

Lemma apply_denunciations_spec {E : Type} ed m t ch slot (batch : DBBatch) :
  executed_denunciations_ok ed m t → (∀ i, i ∈ ch → index_ok (ed_config ed) i) →
  (∀ y, starts_with EXECUTED_DENUNCIATIONS_PREFIX y = true → batch !! y = None) →
  ∃ ed' batch', apply_denunciations_changes_to_batch (E := E) ch slot ed batch = Ok (ed', batch') ∧ ed_config ed' = ed_config ed
    ∧ executed_denunciations_ok ed' (apply_batch m batch') (denunciations_after (ed_config ed) slot ch t)
    ∧ ∀ y, starts_with EXECUTED_DENUNCIATIONS_PREFIX y = false → batch' !! y = batch !! y.
Proof using All.
  intros Hed Hch Hb. unfold apply_denunciations_changes_to_batch.
  destruct (enter_denunciations_spec (E := E) ed ch batch Hch (ed_sorted _ _ _ Hed)) as (sorted & -> & Hs & Hl). cbn [mbind outcome_bind].
  assert (∀ i, i ∈ t → index_ok (ed_config ed) i) as Ht.
  { intros i Hi. apply (coded_ok (ed_coded _ _ _ Hed) i tt). by rewrite lookup_gset_to_gmap_Some. }
  assert (∀ s i, listed sorted s i ↔ i ∈ ch ∪ t ∧ di_get_slot i = s) as Hl' by (intros s i; rewrite Hl, (ed_listed _ _ _ Hed); set_solver).
  match goal with |- context [prune_denunciations_to_batch slot ?ed1 ?b1] =>
    destruct (prune_denunciations_spec (E := E) slot ed1 b1) as (sorted' & removed & -> & Hs' & Hk & Hr) end;
    cbn [sorted_denunciations ed_config] in *; [intros s i [Hi <-]%Hl'; set_solver|done|].
  assert (∀ i, i ∈ removed ↔ ¬ kept_denunciation (ed_config ed) slot i ∧ i ∈ ch ∪ t) as Hr'.
  { intros i. rewrite Hr. setoid_rewrite Hl'. naive_solver. }
  destruct (coded_denunciations_batch (ed_config ed) ch removed batch) as [(c & Hc & Hlc) Hother]; [done|set_solver|done|].
  do 2 eexists. split; [done|]. split; [done|]. split; [|done]. split; cbn [ed_config sorted_denunciations]; [|done|].
  - assert (gset_to_gmap () (denunciations_after (ed_config ed) slot ch t) = apply_table (gset_to_gmap () t) c) as ->.
    + apply map_eq. intros i. rewrite lookup_apply_table, Hlc. apply option_eq. intros []. rewrite lookup_gset_to_gmap_Some. unfold denunciations_after.
      rewrite elem_of_filter. destruct (decide (i ∈ removed)) as [Hi|Hi]; rewrite Hr' in Hi; [naive_solver|].
      destruct (decide (kept_denunciation (ed_config ed) slot i)); case_decide; rewrite ?lookup_gset_to_gmap_Some; set_solver.
    + apply coded_apply; [apply index_key_prefix|apply index_key_inj|apply (ed_coded _ _ _ Hed)|done].
  - intros s i. rewrite Hk, Hl'. unfold denunciations_after. rewrite elem_of_filter. naive_solver.
Qed.

(** ** From the database *)

Lemma index_key_read config i : index_ok config i →
  DenunciationIndexDeserializer (ed_thread_count config) (ed_endorsement_count config) (drop (length EXECUTED_DENUNCIATIONS_PREFIX) (index_key i)) = Some (i, []).
Proof using VL.
  intros Hi. unfold index_key. rewrite drop_app_length.
  destruct (written_read DenunciationIndexSerializer (DenunciationIndexDeserializer (ed_thread_count config) (ed_endorsement_count config)) _ i Hi) as (_ & _ & HD).
  specialize (HD []). by rewrite app_nil_r in HD.
Qed.
Lemma load_denunciations_spec {E : Type} (l : list (DenunciationIndex * unit)) ed :
  (∀ i x, (i, x) ∈ l → index_ok (ed_config ed) i) →
  foldM (load_denunciation (E := E)) ((λ '(i, x), (index_key i, no_value x)) <$> l) ed
    = Ok (MkExecutedDenunciations (ed_config ed) (foldl (λ so e, enter (di_get_slot e.1) e.1 so) (sorted_denunciations ed) l)).
Proof using VL.
  revert ed. induction l as [|[i x] l IH]; intros ed Hl; [by destruct ed|]. cbn [fmap list_fmap foldM]. unfold load_denunciation at 2. cbn [fst].
  rewrite index_key_read by (apply (Hl i x); by left). cbn [expect mbind outcome_bind]. rewrite IH; [done|].
  intros i' x' Hin. apply (Hl i' x'). by right.
Qed.
Lemma recompute_denunciations_spec {E : Type} d ed t :
  coded EXECUTED_DENUNCIATIONS_PREFIX index_key (index_ok (ed_config ed)) no_value (content d STATE_CF) (gset_to_gmap () t) →
  ∃ ed', recompute_sorted_denunciations (E := E) d ed = Ok ed' ∧ ed_config ed' = ed_config ed
    ∧ executed_denunciations_ok ed' (content d STATE_CF) t.
Proof using All.
  intros Hc. unfold recompute_sorted_denunciations. rewrite prefixed_entries.
  destruct (coded_list _ _ _ index_key_prefix (index_key_inj (ed_config ed)) no_value _ _ Hc) as (l & -> & Hnd & Hl).
  rewrite load_denunciations_spec by (intros i x Hin%Hl; by eapply (coded_ok Hc)).
  eexists. split; [done|]. split; [done|]. cbn [executed_denunciations_new ed_config sorted_denunciations].
  pose proof (listed_enter_all (λ e : DenunciationIndex * unit, di_get_slot e.1) fst l [] bt_sorted_nil) as [Hs Hli].
  split; cbn [ed_config sorted_denunciations]; [done|done|].
  intros s i. rewrite Hli. split.
  - intros [([i' x] & Hin%Hl & <- & <-)|Hn]; [|cbn in Hn; set_solver]. by apply lookup_gset_to_gmap_Some in Hin as [? _].
  - intros [Hi <-]. left. exists (i, tt). split_and!; [|done..]. apply Hl. by apply lookup_gset_to_gmap_Some.
Qed.
Lemma reset_denunciations_spec d id ed :
  db_at d id → ∃ d' ed', reset_denunciations d ed = Ok (d', ed') ∧ db_at d' id ∧ db_config d' = db_config d ∧ ed_config ed' = ed_config ed
    ∧ content d' STATE_CF = filter (λ e, starts_with EXECUTED_DENUNCIATIONS_PREFIX e.1 = false) (content d STATE_CF)
    ∧ executed_denunciations_ok ed' (content d' STATE_CF) ∅.
Proof using All.
  intros Hd. unfold reset_denunciations.
  destruct (delete_prefix_spec d id EXECUTED_DENUNCIATIONS_PREFIX None Hd (cmp_le_refl id) (at_id_ok _ _ Hd)) as (d' & -> & Hd' & Hcd & Hs & _).
  cbn [mbind outcome_bind]. destruct (recompute_denunciations_spec (E := MassaDBError) d' ed ∅) as (ed' & -> & Hc & Hed).
  - rewrite Hs, gset_to_gmap_empty. apply coded_empty. intros y Hy. apply map_lookup_filter_None_2. right. intros v _. cbn [fst]. congruence.
  - by exists d', ed'.
Qed.

(** What is accepted of another node is an entry of the set, and all of them are. *)
Lemma denunciation_entry_valid ed (k v : Bytes) :
  is_bytes k → is_denunciation_key_value_valid ed k v = true ↔ ∃ i, index_ok (ed_config ed) i ∧ k = index_key i ∧ v = [].
Proof using VL.
  intros Hk. unfold is_denunciation_key_value_valid. rewrite !andb_true_iff. split.
  - intros [[Hp Hop] Hval]. apply starts_with_inv in Hp. destruct (DenunciationIndexDeserializer _ _ _) as [[i [|]]|] eqn:HD; try done.
    assert (is_bytes (drop (length EXECUTED_DENUNCIATIONS_PREFIX) k)) as Hk' by (by apply Forall_drop).
    destruct (canonical (S := DenunciationIndexSerializer) _ _ _ Hk' HD) as (ki & HS & Hki). exists i. split_and!.
    + exact (proj1 (wire_valid DenunciationIndexSerializer _ _ _ _ _ Hk' HD)).
    + rewrite Hp, Hki. unfold index_key. by rewrite HS, app_nil_r.
    + by destruct v.
  - intros (i & Hi & -> & ->). by rewrite index_key_prefix, index_key_read.
Qed.
End denunciations.
