(* ===== verification/Finalization.v ===== *)
(** * Finalization of a slot

    The parts of [massa-final-state/src/final_state.rs] that hold the database and the lists of
    what is executed: a final state is created ([new]), a slot is finalized ([_finalize]) and the lists
    are loaded after a bootstrap or a restart ([recompute_caches]).

    The ledger, the pool of messages, proof of stake, the registry of deferred calls and the store of
    improvements put their own changes in the batch of a slot, which are arguments here
    ([SlotChanges]); their caches are not part of the state, and their errors, which end the call, are not
    modelled.  The cycles that proof of stake keeps are an argument too: the hash of the state is written to
    the last of them at the end of the slot.  Backups are not modelled.

    Then what a final state remembers, in runs of finalizations, restarts and recomputations. *)

From S2P Require Import Prelude Slots Times OrdMap Keys KeyFacts Wire WireFacts Models Formats FormatFacts Denunciations DenunciationFacts Database DatabaseFacts Executed ExecutedFacts.

Open Scope N_scope.

(** ["execution_trail_hash/"], ["async_pool/"], ["cycle_history/"] and ["deferred_credits/"] *)
Definition EXECUTION_TRAIL_HASH_PREFIX : Bytes :=
  [101; 120; 101; 99; 117; 116; 105; 111; 110; 95; 116; 114; 97; 105; 108; 95; 104; 97; 115; 104; 47].
Definition ASYNC_POOL_PREFIX : Bytes := [97; 115; 121; 110; 99; 95; 112; 111; 111; 108; 47].
Definition CYCLE_HISTORY_PREFIX : Bytes := [99; 121; 99; 108; 101; 95; 104; 105; 115; 116; 111; 114; 121; 47].
Definition DEFERRED_CREDITS_PREFIX : Bytes :=
  [100; 101; 102; 101; 114; 114; 101; 100; 95; 99; 114; 101; 100; 105; 116; 115; 47].

Inductive FinalStateError : Type := InvalidSlot (what : string).
(** The errors of [_finalize] *)
Inductive FinalizeError : Type :=
  | FinalizeModelsError (e : ModelsError)
  (** "attempting to apply execution state changes at slot {} while the current slot is {}" *)
  | NotTheNextSlot (slot cur_slot : Slot).

Record FinalStateConfig : Type := MkFinalStateConfig {
  fs_thread_count : N;
  fs_periods_per_cycle : N;
  fs_t0 : MassaTime;
  fs_genesis_timestamp : MassaTime;
  executed_ops_config : ExecutedOpsConfig;
  executed_denunciations_config : ExecutedDenunciationsConfig }.

(** The changes of a slot: those of the lists, and what the other components put in the batch, in the
    order in which they do. *)
Record SlotChanges : Type := MkSlotChanges {
  (** [async_pool], [pos_state] and [ledger] *)
  first_changes : DBBatch;
  executed_ops_changes : ExecutedOpsChanges;
  deferred_call_changes : DBBatch;
  executed_denunciations_changes : gset DenunciationIndex;
  (** [update_batches] of the store of improvements, and [execution_trail_hash_change] *)
  last_changes : DBBatch;
  versioning_changes : DBBatch;
  (** [cycle_history_cache] of [pos_state] once its changes are in the batch: cycles, and whether they are
      complete *)
  cycle_history_cache : list (N * bool) }.

(** ** The hash of a cycle

    From [massa-pos-exports/src/pos_final_state.rs]. *)

Definition FINAL_STATE_HASH_SNAPSHOT_IDENT : N := 2.
Definition CYCLE_HISTORY_SER_ERROR : string := "critical: cycle_history serialization failed".

Definition get_cycle_index (cache : list (N * bool)) (cycle : N) : option nat :=
  match cache with
  | [] => None
  | (first_cycle, _) :: _ =>
      if cycle <? first_cycle then None
      else
        let index := N.to_nat (cycle - first_cycle) in
        if decide (length cache ≤ index)%nat then None else Some index
  end.

Definition cycle_history_cycle_prefix (cycle : N) : Bytes := CYCLE_HISTORY_PREFIX ++ to_be_bytes 8 cycle.
Definition final_state_hash_snapshot_key (cycle_prefix : Bytes) : Bytes := cycle_prefix ++ [FINAL_STATE_HASH_SNAPSHOT_IDENT].

(** [HashXofSerializer] writes the bytes of the hash. *)
Definition put_cycle_history_final_state_hash_snapshot {E : Type} (cycle : N) (value : option Bytes) (batch : DBBatch)
    : outcome E DBBatch :=
  serialized_value ← expect_ok CYCLE_HISTORY_SER_ERROR (OptionSerializer (λ hash, Ok hash) value);
  Ok (put_or_update_entry_value batch (final_state_hash_snapshot_key (cycle_history_cycle_prefix cycle)) serialized_value).

Section finalization.
Context `{!RocksDB} `{!EntryHash} `{!Varint} `{!SetIter OperationId} `{!SetIter DenunciationIndex}.

Record FinalState : Type := MkFinalState {
  fs_db : MassaDB;
  fs_config : FinalStateConfig;
  executed_ops : ExecutedOps;
  executed_denunciations : ExecutedDenunciations }.
Implicit Types (fs : FinalState) (d : MassaDB).

(** The calls on the database do not return errors: they panic. *)
Definition deletes {E : Type} d (prefix : Bytes) : outcome E MassaDB := expect_ok CRUD_ERROR (delete_prefix d prefix STATE_CF None).

Definition feed_cycle_state_hash {E : Type} d (cache : list (N * bool)) (cycle : N) (final_state_hash : Bytes) : outcome E MassaDB :=
  match get_cycle_index cache cycle with
  | Some _ =>
      batch ← put_cycle_history_final_state_hash_snapshot cycle (Some final_state_hash) ∅;
      expect_ok CRUD_ERROR (write_batch d batch ∅ None)
  | None => Panic "cycle should be contained here"
  end.

(** [FinalState::new] *)
Definition final_state_new d (config : FinalStateConfig) (reset_final_state : bool) : outcome FinalStateError FinalState :=
  _ ← map_err (λ _, InvalidSlot "Could not get slot in db") (get_change_id d);
  let ops := executed_ops_new (executed_ops_config config) in
  let denunciations := executed_denunciations_new (executed_denunciations_config config) in
  if reset_final_state then
    let slot := MkSlot 0 (saturating_sub (fs_thread_count config) 1) in
    d ← expect_ok CRUD_ERROR (set_initial_change_id d slot);
    d ← deletes d EXECUTION_TRAIL_HASH_PREFIX;
    d ← deletes d ASYNC_POOL_PREFIX;
    d ← deletes d CYCLE_HISTORY_PREFIX;
    d ← deletes d DEFERRED_CREDITS_PREFIX;
    '(d, ops) ← expect_ok CRUD_ERROR (reset_ops d ops);
    '(d, denunciations) ← expect_ok CRUD_ERROR (reset_denunciations d denunciations);
    Ok (MkFinalState d config ops denunciations)
  else Ok (MkFinalState d config ops denunciations).

(** The batch of a slot, with the lists once it is filled. *)
Definition slot_batch {E : Type} fs (slot : Slot) (changes : SlotChanges)
    : outcome E (ExecutedOps * ExecutedDenunciations * gmap Bytes (option Bytes)) :=
  '(ops, batch) ← apply_ops_changes_to_batch (executed_ops_changes changes) slot (executed_ops fs) (first_changes changes);
  '(denunciations, batch) ← apply_denunciations_changes_to_batch (executed_denunciations_changes changes) slot
    (executed_denunciations fs) (deferred_call_changes changes ∪ batch);
  Ok (ops, denunciations, last_changes changes ∪ batch).

(** [_finalize], with the hash that it logs and gives to the cycle of the slot *)
Definition finalize fs (slot : Slot) (changes : SlotChanges) : outcome FinalizeError (FinalState * Bytes) :=
  let config := fs_config fs in
  cur_slot ← map_err FinalizeModelsError (get_change_id (fs_db fs));
  next_slot ← map_err FinalizeModelsError (get_next_slot cur_slot (fs_thread_count config));
  if decide (slot = next_slot) then
    '(ops, denunciations, batch) ← slot_batch fs slot changes;
    _ ← map_err FinalizeModelsError
      (get_block_slot_timestamp (fs_thread_count config) (fs_t0 config) (fs_genesis_timestamp config) slot);
    prev_slot ← map_err FinalizeModelsError (get_prev_slot slot (fs_thread_count config));
    _ ← map_err FinalizeModelsError
      (get_block_slot_timestamp (fs_thread_count config) (fs_t0 config) (fs_genesis_timestamp config) prev_slot);
    d ← expect_ok CRUD_ERROR (write_batch (fs_db fs) batch (versioning_changes changes) (Some slot));
    final_state_hash ← get_xof_db_hash d;
    cycle ← map_err FinalizeModelsError (get_cycle slot (fs_periods_per_cycle config));
    d ← feed_cycle_state_hash d (cycle_history_cache changes) cycle final_state_hash;
    Ok (MkFinalState d config ops denunciations, final_state_hash)
  else Err (NotTheNextSlot slot cur_slot).

Definition recompute_caches {E : Type} fs : outcome E FinalState :=
  ops ← recompute_sorted_ops_and_op_exec_status (fs_db fs) (executed_ops fs);
  denunciations ← recompute_sorted_denunciations (fs_db fs) (executed_denunciations fs);
  Ok (MkFinalState (fs_db fs) (fs_config fs) ops denunciations).

Definition executed_ops_contains {E : Type} fs (op_id : OperationId) : outcome E bool := contains_op (fs_db fs) op_id.
Definition final_ops_exec_status fs (batch : list OperationId) : list (option bool) := get_ops_exec_status (executed_ops fs) batch.
Definition fs_get_slot {E : Type} fs : outcome E Slot :=
  expect_ok "Critical error: Final state has no slot attached" (get_change_id (fs_db fs)).
End finalization.

(** ** What a final state remembers

    The lists of a final state and of its database are those of an abstract run, in which each
    slot enters what it executes and drops what expired: through finalizations, restarts and
    recomputations of the caches. *)

(** ** The two lists do not meet *)

Lemma ops_not_denunciations y : starts_with EXECUTED_OPS_PREFIX y = true → starts_with EXECUTED_DENUNCIATIONS_PREFIX y = false.
Proof. intros ->%starts_with_inv. reflexivity. Qed.
Lemma denunciations_not_ops y : starts_with EXECUTED_DENUNCIATIONS_PREFIX y = true → starts_with EXECUTED_OPS_PREFIX y = false.
Proof. intros ->%starts_with_inv. reflexivity. Qed.

(** The part under a prefix is what matters. *)
Lemma coded_agree {K A B} `{Countable K} (p : Bytes) (key : K → Bytes) (ok : K → Prop) (f : B → A) (m m' : gmap Bytes A) (t : gmap K B) :
  (∀ y, starts_with p y = true → m' !! y = m !! y) → coded p key ok f m t → coded p key ok f m' t.
Proof. intros Hm [Hok He]. split; [done|]. intros b v Hb. by rewrite (Hm b Hb), He. Qed.

(** ** The next slot *)

Lemma next_slot_ok (tc : N) (s s' : Slot) :
  threads_ok tc → FormatFacts.slot_ok any_u64 (below tc) s → get_next_slot s tc = Ok s' →
  FormatFacts.slot_ok any_u64 (below tc) s' ∧ cmp_lt s s'.
Proof.
  intros Htc ((Hp & _) & _ & Ht%in_range_below) Hn. destruct (get_next_slot_index tc s s' Htc Ht Hn) as (Hi & Ht' & Hp').
  split.
  - split_and!; [lia|apply in_range_included; lia|destruct Htc; unfold u8_max in *; lia|by apply in_range_below].
  - unfold cmp_lt, cmp. cbn. rewrite (slot_cmp_index tc) by done. apply N.compare_lt_iff. lia.
Qed.

Section final.
Context `{!RocksDB} `{!RocksLaws} `{!EntryHash} `{!EntryHashLaws} `{!Varint} `{VL : !VarintLaws} `{!SetIter OperationId} `{!SetIter DenunciationIndex}.
(** The expiry of an operation is part of its content. *)
Context (expiry : OperationId → Slot).
Implicit Types (fs : FinalState) (d : MassaDB) (slot id : Slot) (ch : SlotChanges) (config : FinalStateConfig)
  (ops : gmap OperationId (bool * Slot)) (dens : gset DenunciationIndex) (m : gmap Bytes Bytes).
Notation content d cf := (contents (db d) cf).

Record final_ok fs id ops dens : Prop := {
  fo_db : db_at (fs_db fs) id;
  fo_ops : executed_ops_ok (executed_ops fs) (content (fs_db fs) STATE_CF) ops;
  fo_dens : executed_denunciations_ok (executed_denunciations fs) (content (fs_db fs) STATE_CF) dens;
  fo_expiry : ∀ op b s, ops !! op = Some (b, s) → s = expiry op;
  fo_ops_config : eo_config (executed_ops fs) = executed_ops_config (fs_config fs);
  fo_dens_config : ed_config (executed_denunciations fs) = executed_denunciations_config (fs_config fs);
  fo_threads : db_thread_count (db_config (fs_db fs)) = fs_thread_count (fs_config fs) }.

(** The formats cover what a slot executes, the other components have their own prefixes, and proof of stake
    has the cycle of the slot. *)
Record changes_ok config slot ch : Prop := {
  co_ops : ∀ op b s, executed_ops_changes ch !! op = Some (b, s) → op_ok op ∧ expiry_ok (executed_ops_config config) s ∧ s = expiry op;
  co_dens : ∀ i, i ∈ executed_denunciations_changes ch → index_ok (executed_denunciations_config config) i;
  co_others : ∀ y, starts_with EXECUTED_OPS_PREFIX y = true ∨ starts_with EXECUTED_DENUNCIATIONS_PREFIX y = true →
    first_changes ch !! y = None ∧ deferred_call_changes ch !! y = None ∧ last_changes ch !! y = None;
  co_cycle : fs_periods_per_cycle config ≠ 0
    ∧ is_Some (get_cycle_index (cycle_history_cache ch) (period slot / fs_periods_per_cycle config)) }.

Lemma executed_ops_ok_agree eo m m' ops :
  (∀ y, starts_with EXECUTED_OPS_PREFIX y = true → m' !! y = m !! y) → executed_ops_ok eo m ops → executed_ops_ok eo m' ops.
Proof using. intros Hm []. split; [by eapply coded_agree|done..]. Qed.
Lemma executed_denunciations_ok_agree ed m m' dens :
  (∀ y, starts_with EXECUTED_DENUNCIATIONS_PREFIX y = true → m' !! y = m !! y) →
  executed_denunciations_ok ed m dens → executed_denunciations_ok ed m' dens.
Proof using. intros Hm []. split; [by eapply coded_agree|done..]. Qed.

Lemma slot_batch_spec {E : Type} fs id ops dens slot ch :
  final_ok fs id ops dens → changes_ok (fs_config fs) slot ch →
  ∃ eo ed batch, slot_batch (E := E) fs slot ch = Ok (eo, ed, batch)
    ∧ eo_config eo = executed_ops_config (fs_config fs) ∧ ed_config ed = executed_denunciations_config (fs_config fs)
    ∧ executed_ops_ok eo (apply_batch (content (fs_db fs) STATE_CF) batch)
        (ops_after (executed_ops_config (fs_config fs)) slot (executed_ops_changes ch) ops)
    ∧ executed_denunciations_ok ed (apply_batch (content (fs_db fs) STATE_CF) batch)
        (denunciations_after (executed_denunciations_config (fs_config fs)) slot (executed_denunciations_changes ch) dens).
Proof using All.
  intros Hfs [Hops Hdens Hoth _]. unfold slot_batch. destruct Hfs as [Hd Ho Hde Hex Hoc Hdc Htc].
  destruct (apply_ops_spec (E := E) (executed_ops fs) _ ops (executed_ops_changes ch) slot (first_changes ch) Ho) as (eo & b1 & -> & Hc1 & Ho1 & Hx1).
  { intros op b s Hop. rewrite Hoc. destruct (Hops op b s Hop) as (? & ? & _). done. }
  { intros op b s b' s' Hop Hop'. rewrite (Hex op b' s' Hop'). by apply (Hops op b s). }
  { intros y Hy. by apply Hoth; left. }
  cbn [mbind outcome_bind].
  destruct (apply_denunciations_spec (E := E) (executed_denunciations fs) _ dens (executed_denunciations_changes ch) slot
    (deferred_call_changes ch ∪ b1) Hde) as (ed & b2 & -> & Hc2 & Hd2 & Hx2).
  { intros i Hi. rewrite Hdc. auto. }
  { intros y Hy. destruct (Hoth y) as (Hf & Hdf & _); [by right|]. rewrite lookup_union_None, Hx1; [done|]. by apply denunciations_not_ops. }
  cbn [mbind outcome_bind]. rewrite <-Hoc, <-Hdc. do 3 eexists. split; [done|]. split; [done|]. split; [done|]. split.
  - eapply executed_ops_ok_agree; [|done]. intros y Hy. destruct (Hoth y) as (_ & Hdf & Hl); [by left|].
    rewrite !lookup_apply_batch, (lookup_union_r _ _ _ Hl), Hx2 by (by apply ops_not_denunciations). by rewrite (lookup_union_r _ _ _ Hdf).
  - eapply executed_denunciations_ok_agree; [|done]. intros y Hy. destruct (Hoth y) as (_ & _ & Hl); [by right|].
    by rewrite !lookup_apply_batch, (lookup_union_r _ _ _ Hl).
Qed.

(** A slot that can be finalized. *)
Definition slot_follows config id slot : Prop :=
  get_next_slot id (fs_thread_count config) = Ok slot
  ∧ ∀ s, s = slot ∨ get_prev_slot slot (fs_thread_count config) = Ok s →
      ∃ t, get_block_slot_timestamp (fs_thread_count config) (fs_t0 config) (fs_genesis_timestamp config) s = Ok t.

Lemma prev_of_next (tc : N) id slot :
  threads_ok tc → thread id < tc → get_next_slot id tc = Ok slot → ∃ s, get_prev_slot slot tc = Ok s.
Proof using.
  intros Htc Ht Hn. destruct (get_next_slot_index tc id slot Htc Ht Hn) as (Hi & _). unfold get_prev_slot.
  destruct (checked_sub (thread slot) 1) eqn:H1'; [by eexists|]. destruct (checked_sub (period slot) 1) eqn:H2'; [by eexists|].
  unfold checked_sub in *. destruct (N.leb_spec 1 (thread slot)), (N.leb_spec 1 (period slot)); try done. unfold slot_index in Hi. nia.
Qed.

(** The hash of a cycle has its own prefix. *)
Lemma feed_cycle_spec {E : Type} d id cache (cycle : N) (hash : Bytes) :
  db_at d id → is_Some (get_cycle_index cache cycle) →
  let ch := {[ final_state_hash_snapshot_key (cycle_history_cycle_prefix cycle) := Some (49 :: hash) ]} in
  ∃ d', feed_cycle_state_hash (E := E) d cache cycle hash = Ok d' ∧ write_batch d ch ∅ None = Ok d'
    ∧ db_at d' id ∧ db_config d' = db_config d
    ∧ ∀ y, starts_with EXECUTED_OPS_PREFIX y = true ∨ starts_with EXECUTED_DENUNCIATIONS_PREFIX y = true →
        content d' STATE_CF !! y = content d STATE_CF !! y.
Proof using All.
  intros Hd [i Hi] ch. unfold feed_cycle_state_hash. rewrite Hi.
  destruct (write_batch_spec d id ch ∅ None Hd (cmp_le_refl id) (at_id_ok _ _ Hd)) as (d' & Hw & Hd' & Hc & Hs & _).
  exists d'. split_and!; [|done|done|done|].
  - assert (put_cycle_history_final_state_hash_snapshot (E := E) cycle (Some hash) ∅ = Ok ch) as ->; [|by cbn [mbind outcome_bind]; rewrite Hw].
    unfold put_cycle_history_final_state_hash_snapshot, OptionSerializer, write_seq. cbn [foldr mbind outcome_bind expect_ok]. by rewrite app_nil_r.
  - intros y Hy. rewrite Hs, lookup_apply_batch. unfold ch. rewrite lookup_singleton_ne; [done|]. intros <-. by destruct Hy.
Qed.

Lemma finalize_spec fs id ops dens slot ch :
  threads_ok (fs_thread_count (fs_config fs)) → final_ok fs id ops dens → changes_ok (fs_config fs) slot ch → slot_follows (fs_config fs) id slot →
  ∃ fs' hash, finalize fs slot ch = Ok (fs', hash) ∧ fs_config fs' = fs_config fs
    ∧ final_ok fs' slot (ops_after (executed_ops_config (fs_config fs)) slot (executed_ops_changes ch) ops)
        (denunciations_after (executed_denunciations_config (fs_config fs)) slot (executed_denunciations_changes ch) dens)
    ∧ ∃ d d' cycle, get_change_id (fs_db fs) = Ok id ∧ cmp_lt id slot ∧ change_id_ok (fs_db fs) slot
        ∧ (∃ batch, write_batch (fs_db fs) batch (versioning_changes ch) (Some slot) = Ok d) ∧ hash = content_hash (content d STATE_CF)
        ∧ d' = fs_db fs' ∧ write_batch d {[ final_state_hash_snapshot_key (cycle_history_cycle_prefix cycle) := Some (49 :: hash) ]} ∅ None = Ok d'.
Proof using All.
  intros Htc Hfs Hch [Hnext Hts]. unfold finalize. pose proof Hfs as [Hd _ _ Hex _ _ Hth]. rewrite (get_change_id_spec _ _ Hd). cbn [map_err mbind outcome_bind].
  rewrite Hnext. cbn [map_err mbind outcome_bind]. rewrite decide_True by done.
  destruct (slot_batch_spec (E := FinalizeError) fs id ops dens slot ch Hfs Hch) as (eo & ed & batch & -> & Hc1 & Hc2 & Ho & Hde).
  pose proof (at_id_ok _ _ Hd) as Hid. unfold change_id_ok in Hid. rewrite Hth in Hid.
  destruct (next_slot_ok _ _ _ Htc Hid Hnext) as [Hok Hlt]. destruct (Hts slot (or_introl eq_refl)) as [t1 Ht1].
  destruct (prev_of_next (fs_thread_count (fs_config fs)) id slot Htc) as [prev Hprev]; [by apply in_range_below, Hid|done|].
  destruct (Hts prev (or_intror Hprev)) as [t2 Ht2]. cbn [mbind outcome_bind]. rewrite Ht1. cbn [map_err mbind outcome_bind].
  rewrite Hprev. cbn [map_err mbind outcome_bind]. rewrite Ht2. cbn [map_err mbind outcome_bind].
  assert (change_id_ok (fs_db fs) slot) as Hokd by (unfold change_id_ok; by rewrite Hth).
  destruct (write_batch_spec (fs_db fs) id batch (versioning_changes ch) (Some slot) Hd (cmp_lt_le _ _ Hlt) Hokd) as (d & Hw & Hd' & Hconf & Hs & _ & _).
  rewrite Hw. cbn [expect_ok mbind outcome_bind default from_option Datatypes.id] in *. rewrite (get_xof_db_hash_spec d slot Hd'). cbn [mbind outcome_bind].
  destruct (co_cycle _ _ _ Hch) as [Hp Hc]. unfold get_cycle. rewrite (proj2 (checked_div_Some _ _ _) (conj Hp eq_refl)). cbn [expect map_err mbind outcome_bind].
  destruct (feed_cycle_spec (E := FinalizeError) d slot (cycle_history_cache ch) (period slot / fs_periods_per_cycle (fs_config fs))
    (content_hash (content d STATE_CF)) Hd' Hc) as (d' & -> & Hw' & Hd'' & Hconf' & Hagree). cbn [mbind outcome_bind].
  do 2 eexists. split; [done|]. split; [done|]. split; [|by exists d, d'; eauto 10].
  split; cbn [fs_db fs_config executed_ops executed_denunciations]; rewrite ?Hconf', ?Hconf; try done.
  - eapply executed_ops_ok_agree; [|rewrite <-Hs in Ho; exact Ho]. intros y Hy. apply Hagree. by left.
  - eapply executed_denunciations_ok_agree; [|rewrite <-Hs in Hde; exact Hde]. intros y Hy. apply Hagree. by right.
  - intros op b s [_ [Hop|[_ Hop]]]%lookup_ops_after; [by apply (co_ops _ _ _ Hch op b s)|by eapply Hex].
Qed.

Lemma recompute_caches_spec {E : Type} fs id ops dens :
  db_at (fs_db fs) id →
  coded EXECUTED_OPS_PREFIX op_key op_ok op_value (content (fs_db fs) STATE_CF) ops →
  coded EXECUTED_DENUNCIATIONS_PREFIX index_key (index_ok (ed_config (executed_denunciations fs))) no_value (content (fs_db fs) STATE_CF) (gset_to_gmap () dens) →
  (∀ op b s, ops !! op = Some (b, s) → expiry_ok (eo_config (executed_ops fs)) s ∧ s = expiry op) →
  eo_config (executed_ops fs) = executed_ops_config (fs_config fs) →
  ed_config (executed_denunciations fs) = executed_denunciations_config (fs_config fs) →
  db_thread_count (db_config (fs_db fs)) = fs_thread_count (fs_config fs) →
  ∃ fs', recompute_caches (E := E) fs = Ok fs' ∧ final_ok fs' id ops dens ∧ fs_config fs' = fs_config fs ∧ fs_db fs' = fs_db fs.
Proof using All.
  intros Hd Ho Hde Hops Hoc Hdc Htc. unfold recompute_caches.
  destruct (recompute_ops_spec (E := E) (fs_db fs) (executed_ops fs) ops Ho) as (eo & -> & Hc1 & Ho'); [by intros op b s [? _]%Hops|].
  cbn [mbind outcome_bind]. destruct (recompute_denunciations_spec (E := E) (fs_db fs) (executed_denunciations fs) dens Hde) as (ed & -> & Hc2 & Hde').
  cbn [mbind outcome_bind]. eexists. split; [done|]. split; [|done]. split; cbn [fs_db fs_config executed_ops executed_denunciations]; try congruence.
  by intros op b s [_ ?]%Hops.
Qed.

(** ** A new final state *)

Lemma deletes_spec {E : Type} d id (p : Bytes) :
  db_at d id → ∃ d', deletes (E := E) d p = Ok d' ∧ db_at d' id ∧ db_config d' = db_config d.
Proof using All.
  intros Hd. unfold deletes. destruct (delete_prefix_spec d id p None Hd (cmp_le_refl id) (at_id_ok _ _ Hd)) as (d' & -> & Hd' & Hc & _).
  by exists d'.
Qed.

Lemma final_new_spec d id config :
  db_at d id → change_history d = [] → change_history_versioning d = [] → threads_ok (fs_thread_count config) →
  db_thread_count (db_config d) = fs_thread_count config →
  ∃ fs, final_state_new d config true = Ok fs ∧ fs_config fs = config ∧ final_ok fs (MkSlot 0 (fs_thread_count config - 1)) ∅ ∅.
Proof using All.
  intros Hd Hh Hhv [H0' H1'] Htc. unfold final_state_new. rewrite (get_change_id_spec d id Hd). cbn [map_err mbind outcome_bind].
  unfold saturating_sub. set (slot := MkSlot 0 (fs_thread_count config - 1)).
  assert (change_id_ok d slot) as Hok.
  { unfold change_id_ok. rewrite Htc. split_and!; [done|done|cbn; unfold u8_max in *; lia|apply in_range_below; cbn; lia]. }
  destruct (set_initial_spec d id slot Hd Hok) as (x & -> & _ & _ & Hat). rewrite Hh, Hhv. specialize (Hat (change_history_sizes d)).
  cbn [expect_ok mbind outcome_bind]. set (d0 := MkMassaDB x _ _ _ _) in *. assert (db_config d0 = db_config d) as Hc0 by done. clearbody d0.
  destruct (deletes_spec (E := FinalStateError) d0 slot EXECUTION_TRAIL_HASH_PREFIX Hat) as (d1 & -> & Hd1 & Hc1). cbn [mbind outcome_bind].
  destruct (deletes_spec (E := FinalStateError) d1 slot ASYNC_POOL_PREFIX Hd1) as (d2 & -> & Hd2 & Hc2). cbn [mbind outcome_bind].
  destruct (deletes_spec (E := FinalStateError) d2 slot CYCLE_HISTORY_PREFIX Hd2) as (d3 & -> & Hd3 & Hc3). cbn [mbind outcome_bind].
  destruct (deletes_spec (E := FinalStateError) d3 slot DEFERRED_CREDITS_PREFIX Hd3) as (d4 & -> & Hd4 & Hc4). cbn [mbind outcome_bind].
  destruct (reset_ops_spec d4 slot (executed_ops_new (executed_ops_config config)) Hd4) as (d5 & eo & -> & Hd5 & Hc5 & Heoc & Hm5 & Heo).
  cbn [expect_ok mbind outcome_bind].
  destruct (reset_denunciations_spec d5 slot (executed_denunciations_new (executed_denunciations_config config)) Hd5) as (d6 & ed & -> & Hd6 & Hc6 & Hedc & Hm6 & Hed).
  cbn [expect_ok mbind outcome_bind]. eexists. split; [done|]. split; [done|].
  split; cbn [fs_db fs_config executed_ops executed_denunciations]; [done| |done|by intros op b s; rewrite lookup_empty|done|done|congruence].
  eapply executed_ops_ok_agree; [|done]. intros y Hy. rewrite Hm6.
  destruct (content d5 STATE_CF !! y) as [v|] eqn:Hv; [apply map_lookup_filter_Some_2|by apply map_lookup_filter_None_2; left].
  - done.
  - cbn [fst]. by apply ops_not_denunciations.
Qed.

(** ** Runs *)

Inductive FinalEvent : Type :=
  | SlotFinalized (slot : Slot) (changes : SlotChanges)
  | CachesRecomputed
  (** the database is opened again and the final state created from it, as when a node restarts *)
  | NodeRestarted.
Implicit Types (ev : FinalEvent) (evs : list FinalEvent).

Definition final_event fs ev : outcome FinalizeError FinalState :=
  match ev with
  | SlotFinalized slot ch => '(fs, _) ← finalize fs slot ch; Ok fs
  | CachesRecomputed => recompute_caches fs
  | NodeRestarted =>
      d ← expect_ok "critical: rocksdb open operation failed" (new_with_options (db (fs_db fs)) (db_config (fs_db fs)));
      fs ← expect_ok "could not init final state" (final_state_new d (fs_config fs) false);
      recompute_caches fs
  end.

(** What is to be remembered: the operations, with their success and expiry, and the denunciations. *)
Definition remember config (st : gmap OperationId (bool * Slot) * gset DenunciationIndex) ev : gmap OperationId (bool * Slot) * gset DenunciationIndex :=
  match ev with
  | SlotFinalized slot ch =>
      (ops_after (executed_ops_config config) slot (executed_ops_changes ch) st.1,
       denunciations_after (executed_denunciations_config config) slot (executed_denunciations_changes ch) st.2)
  | _ => st
  end.
Definition final_slot id ev : Slot := match ev with SlotFinalized slot _ => slot | _ => id end.
Fixpoint events_ok config id evs : Prop :=
  match evs with
  | [] => True
  | ev :: evs =>
      match ev with SlotFinalized slot ch => changes_ok config slot ch ∧ slot_follows config id slot | _ => True end
      ∧ events_ok config (final_slot id ev) evs
  end.

Lemma final_event_spec fs id st ev :
  threads_ok (fs_thread_count (fs_config fs)) → final_ok fs id st.1 st.2 →
  match ev with SlotFinalized slot ch => changes_ok (fs_config fs) slot ch ∧ slot_follows (fs_config fs) id slot | _ => True end →
  ∃ fs', final_event fs ev = Ok fs' ∧ fs_config fs' = fs_config fs
    ∧ final_ok fs' (final_slot id ev) (remember (fs_config fs) st ev).1 (remember (fs_config fs) st ev).2.
Proof using All.
  intros Htc Hfs Hev. destruct ev as [slot ch| |]; cbn [final_event final_slot remember fst snd].
  - destruct Hev as [Hch Hsl]. destruct (finalize_spec fs id st.1 st.2 slot ch Htc Hfs Hch Hsl) as (fs' & hash & -> & Hc & Hok & _). by exists fs'.
  - destruct Hfs as [Hd Ho Hde Hex Hoc Hdc Hth].
    destruct (recompute_caches_spec (E := FinalizeError) fs id st.1 st.2 Hd (eo_coded _ _ _ Ho) (ed_coded _ _ _ Hde)) as (fs' & -> & Hok & Hc & _); try done; [|by exists fs'].
    intros op b s Hop. split; [by eapply (eo_values _ _ _ Ho)|by eapply Hex].
  - destruct Hfs as [Hd Ho Hde Hex Hoc Hdc Hth]. destruct (reopen_spec (fs_db fs) id Hd) as (d & -> & Hd' & Hc & Hdb). cbn [expect_ok mbind outcome_bind].
    unfold final_state_new. rewrite (get_change_id_spec d id Hd'). cbn [map_err expect_ok mbind outcome_bind].
    set (fs0 := MkFinalState d _ _ _). rewrite <-Hdb in Ho, Hde.
    destruct (recompute_caches_spec (E := FinalizeError) fs0 id st.1 st.2 Hd' (eo_coded _ _ _ Ho)) as (fs' & -> & Hok & Hc' & _); cbn; try done; try congruence;
      [|..|by exists fs'].
    + rewrite <-Hdc. apply (ed_coded _ _ _ Hde).
    + intros op b s Hop. rewrite <-Hoc. split; [by eapply (eo_values _ _ _ Ho)|by eapply Hex].
Qed.
Lemma final_run_spec fs id st evs :
  threads_ok (fs_thread_count (fs_config fs)) → final_ok fs id st.1 st.2 → events_ok (fs_config fs) id evs →
  ∃ fs', foldM final_event evs fs = Ok fs' ∧ fs_config fs' = fs_config fs
    ∧ final_ok fs' (foldl final_slot id evs) (foldl (remember (fs_config fs)) st evs).1 (foldl (remember (fs_config fs)) st evs).2.
Proof using All.
  revert fs id st. induction evs as [|ev evs IH]; intros fs id st Htc Hfs Hevs; [by exists fs|]. destruct Hevs as [Hev Hevs]. cbn [foldM foldl].
  destruct (final_event_spec fs id st ev Htc Hfs Hev) as (fs1 & -> & Hc1 & Hok1). cbn [mbind outcome_bind].
  rewrite <-Hc1 in *. by apply IH.
Qed.

(** A run from a new database. *)
Lemma final_start_spec (x : DB) (db_cfg : MassaDBConfig) config evs :
  (∀ cf, contents x cf = ∅) → threads_ok (fs_thread_count config) → db_thread_count db_cfg = fs_thread_count config →
  events_ok config (MkSlot 0 (fs_thread_count config - 1)) evs →
  ∃ fs, (d ← expect_ok CRUD_ERROR (new_with_options x db_cfg); fs0 ← expect_ok CRUD_ERROR (final_state_new d config true); foldM final_event evs fs0) = Ok fs
    ∧ fs_config fs = config
    ∧ final_ok fs (foldl final_slot (MkSlot 0 (fs_thread_count config - 1)) evs) (foldl (remember config) (∅, ∅) evs).1 (foldl (remember config) (∅, ∅) evs).2.
Proof using All.
  intros Hx Htc Hth Hevs. destruct (new_with_options_spec x db_cfg Hx) as (d & -> & Hd & Hc & _ & _ & Hh & Hhv); [rewrite Hth; apply Htc|].
  cbn [expect_ok mbind outcome_bind]. destruct (final_new_spec d _ config Hd Hh Hhv Htc) as (fs0 & -> & Hc0 & Hok0); [congruence|].
  cbn [expect_ok mbind outcome_bind]. rewrite <-Hc0 in *. by apply final_run_spec.
Qed.

(** An operation that is entered stays while its expiry is kept. *)
Lemma remembered_op config id evs st op b :
  events_ok config id evs → st.1 !! op = Some (b, expiry op) →
  (∀ slot ch, SlotFinalized slot ch ∈ evs → kept_op (executed_ops_config config) slot (expiry op)) →
  ∃ b', (foldl (remember config) st evs).1 !! op = Some (b', expiry op).
Proof using.
  revert id st b. induction evs as [|ev evs IH]; intros id st b Hevs Hop Hk; [by exists b|]. destruct Hevs as [Hev Hevs]. cbn [foldl].
  assert (∃ b', (remember config st ev).1 !! op = Some (b', expiry op)) as [b' Hop'].
  { destruct ev as [slot ch| |]; cbn [remember fst]; [|by exists b..]. destruct Hev as [Hch _].
    destruct (executed_ops_changes ch !! op) as [[b' s]|] eqn:Hc.
    - destruct (co_ops _ _ _ Hch op b' s Hc) as (_ & _ & ->). exists b'. apply lookup_ops_after. split; [|by left]. cbn. eapply Hk. by left.
    - exists b. apply lookup_ops_after. split; [|by right]. cbn. eapply Hk. by left. }
  apply (IH (final_slot id ev) _ b'); [done|done|]. intros slot ch Hin. eapply Hk. by right.
Qed.
Lemma events_ok_app config id evs1 evs2 : events_ok config id (evs1 ++ evs2) → events_ok config (foldl final_slot id evs1) evs2.
Proof using. revert id. induction evs1 as [|ev evs1 IH]; intros id; [done|]. cbn. intros [_ Hevs]. by apply IH. Qed.
(** An operation is kept at least until it expires. *)
Lemma kept_before (config : ExecutedOpsConfig) slot (s : Slot) : cmp_le slot s → kept_op config slot s.
Proof using.
  intros Hle. unfold kept_op, ops_cutoff, checked_sub. case_match eqn:Hc; [|done]. destruct (N.leb_spec (eo_keep_executed_history_extra_periods config) (period slot)); [|done].
  injection Hc as <-. revert Hle. unfold cmp_le, cmp, slot_ord, slot_cmp. cbn.
  destruct (N.compare_spec (period slot) (period s)), (N.compare_spec (period slot - eo_keep_executed_history_extra_periods config) (period s));
    intros Hle; first [done|by destruct Hle|lia].
Qed.
End final.
