(* ===== verification/StateDb.v ===== *)
(** * The state on disk

    The main theorems about the database, its stream to another node and what a final
    state remembers, with samples in which their hypotheses hold. *)

From S2P Require Import Prelude Slots Times OrdMap Keys KeyFacts Models Wire WireFacts WireSamples Formats FormatFacts Denunciations DenunciationFacts Database DatabaseFacts Streaming StreamingFacts Executed ExecutedFacts Finalization.

Open Scope N_scope.

Section theorems.
Context `{!RocksDB} `{!RocksLaws} `{!EntryHash} `{!EntryHashLaws} `{!Varint} `{VL : !VarintLaws}.
Notation content d cf := (contents (db d) cf).

(** ** The database *)

(** C11. From an empty database, writes, deletions of prefixes, resets of the slot, restarts and parts of a
    stream, whose identifiers do not go back, all succeed: each column family holds what they wrote,
    one after the other, and the hash of the state, which is only ever updated by the entries that
    change, is the one of the whole content, so it does not depend on the way that led to it. *)
Theorem state_hash_exact (x : DB) (config : MassaDBConfig) (evs : list DbEvent) :
  (∀ cf, contents x cf = ∅) → 0 < db_thread_count config → ids_ok (db_thread_count config) (MkSlot 0 0) evs →
  ∃ d, (d0 ← new_with_options x config; foldM db_event evs d0) = Ok d
    ∧ content d STATE_CF = foldl (event_content STATE_CF) ∅ evs
    ∧ content d VERSIONING_CF = foldl (event_content VERSIONING_CF) ∅ evs
    ∧ get_xof_db_hash (E := MassaDBError) d = Ok (content_hash (foldl (event_content STATE_CF) ∅ evs))
    ∧ get_change_id d = Ok (foldl next_id (MkSlot 0 0) evs).
Proof using All.
  intros Hx Htc Hids. destruct (new_with_options_spec x config Hx Htc) as (d0 & -> & Hd0 & Hc0 & Hs0 & Hv0 & _). cbn [mbind outcome_bind].
  rewrite <-Hc0 in Hids. destruct (db_run_spec d0 _ evs Hd0 Hids) as (d & -> & Hd & _ & Hs & Hv). exists d. rewrite Hs0 in Hs. rewrite Hv0 in Hv.
  split_and!; [done|done|done|by rewrite (get_xof_db_hash_spec d _ Hd), Hs|by apply get_change_id_spec].
Qed.

(** ** The stream *)

Lemma first_slot (s : Slot) : cmp_le (MkSlot 0 0) s.
Proof using. destruct s as [[|p] [|t]]; done. Qed.
Lemma length_todo (d : MassaDB) (cf : ColumnFamily) : (length (todo (db d) cf Started) ≤ size (content d cf))%nat.
Proof using.
  unfold todo. etrans; [apply length_filter|]. rewrite <-(length_fmap fst), fst_sorted_entries, <-size_dom.
  unfold sorted_keys. by rewrite (sort_unstable_perm (elements _)).
Qed.
(** A server after a run, and a client whose database is new. *)
Lemma stream_begins (x y : DB) (config config' : MassaDBConfig) (evs : list DbEvent) (d cl : MassaDB) :
  (∀ cf, contents x cf = ∅) → (∀ cf, contents y cf = ∅) → 0 < db_thread_count config → db_thread_count config' = db_thread_count config →
  ids_ok (db_thread_count config) (MkSlot 0 0) evs →
  (d0 ← new_with_options x config; foldM db_event evs d0) = Ok d → new_with_options y config' = Ok cl → entries_fit d →
  stream_ok (MkStream d cl fresh fresh) ∧ ∃ id, db_at d id.
Proof using All.
  intros Hx Hy Htc Htc' Hids Hd Hcl Hfit. destruct (new_with_options_spec x config Hx Htc) as (d0 & Hn & Hd0 & Hc0 & _). rewrite Hn in Hd. cbn [mbind outcome_bind] in Hd.
  rewrite <-Hc0 in Hids. destruct (db_run_spec d0 _ evs Hd0 Hids) as (d' & Hr & Hd' & Hcd & _). rewrite Hr in Hd. injection Hd as <-.
  destruct (new_with_options_spec y config' Hy) as (cl' & Hn' & Hcl' & Hc' & Hs & Hv & _); [by rewrite Htc'|]. rewrite Hn' in Hcl. injection Hcl as <-.
  split; [|by eexists]. eapply stream_start; [done|done|apply first_slot|done|done|done|congruence].
Qed.

(** C10. While a server streams its database to a client that starts with an empty one, it may write
    between any two parts, as it does when it finalizes a slot: a change with a new identifier, then any number of
    changes that keep it; and the client may resume from its own cursors after a disconnection.  Whatever the
    interleaving, when the server ends the stream, the client holds the entries of the server at that time,
    deletions and updates included, and their hashes are equal.  Every entry of the server is smaller than
    a part: a larger one would end the stream before the entries that follow. *)
Theorem bootstrap_stream_exact (x y : DB) (config config' : MassaDBConfig) (evs : list DbEvent) (d cl : MassaDB) (s : Stream)
    (part : StreamBatch * StreamBatch * Slot) (c : Cursors) :
  (∀ cf, contents x cf = ∅) → (∀ cf, contents y cf = ∅) → 0 < db_thread_count config → db_thread_count config' = db_thread_count config →
  ids_ok (db_thread_count config) (MkSlot 0 0) evs →
  (d0 ← new_with_options x config; foldM db_event evs d0) = Ok d → new_with_options y config' = Ok cl → entries_fit d →
  rtc stream_step (MkStream d cl fresh fresh) s →
  server_part (server s) (cursors s) = Ok (Some part, c) → state_streamed part c = true →
  same_state (client s) (server s).
Proof using All.
  intros Hx Hy Htc Htc' Hids Hd Hcl Hfit Hrun. destruct (stream_begins x y config config' evs d cl) as [Hok _]; [done..|].
  apply stream_end. by apply (stream_run_ok _ _ Hok).
Qed.

(** C27. If the server writes nothing meanwhile, and its entries fit in a part, the stream ends, after at most as many parts as there are
    entries, and two more: the client then holds the entries of the server and the same hash. *)
Theorem bootstrap_stream_ends (x y : DB) (config config' : MassaDBConfig) (evs : list DbEvent) (d cl : MassaDB) :
  (∀ cf, contents x cf = ∅) → (∀ cf, contents y cf = ∅) → 0 < db_thread_count config → db_thread_count config' = db_thread_count config →
  ids_ok (db_thread_count config) (MkSlot 0 0) evs →
  (d0 ← new_with_options x config; foldM db_event evs d0) = Ok d → new_with_options y config' = Ok cl → entries_fit d →
  ∃ cl', stream_loop (size (content d STATE_CF) + size (content d VERSIONING_CF) + 3) d cl fresh = Ok (Some cl') ∧ same_state cl' d.
Proof using All.
  intros Hx Hy Htc Htc' Hids Hd Hcl Hfit. destruct (stream_begins x y config config' evs d cl) as [Hok [id Hid]]; [done..|].
  apply (stream_loop_spec _ (MkStream d cl fresh fresh) id Hok); cbn [server client cursors]; [by apply get_change_id_spec|by split; left|].
  unfold ranks, rank. cbn [fresh last_state_step last_versioning_step finished].
  pose proof (length_todo d STATE_CF). pose proof (length_todo d VERSIONING_CF). lia.
Qed.

(** ** What a final state remembers *)

Context `{!SetIter OperationId} `{!SetIter DenunciationIndex}.

(** A finalization is one write of a server, in the sense of the stream. *)
Lemma finalize_stream_step (expiry : OperationId → Slot) (fs fs' : FinalState) (hash : Bytes) (id slot : Slot)
    (ops : gmap OperationId (bool * Slot)) (dens : gset DenunciationIndex) (ch : SlotChanges) (cl : MassaDB) (c r : Cursors) :
  threads_ok (fs_thread_count (fs_config fs)) → final_ok expiry fs id ops dens → changes_ok expiry (fs_config fs) slot ch →
  slot_follows (fs_config fs) id slot → finalize fs slot ch = Ok (fs', hash) → entries_fit (fs_db fs') →
  stream_step (MkStream (fs_db fs) cl c r) (MkStream (fs_db fs') cl c r).
Proof using All.
  intros Htc Hfs Hch Hslot Hf Hfit.
  destruct (finalize_spec expiry fs id ops dens slot ch Htc Hfs Hch Hslot)
    as (fs1 & hash1 & Hf1 & _ & _ & d & d' & cycle & Hid & Hlt & Hok & (batch & Hw) & _ & -> & Hw').
  rewrite Hf in Hf1. injection Hf1 as <- <-.
  eapply (server_writes (MkStream (fs_db fs) cl c r) batch (versioning_changes ch) id slot d [(_, ∅)]); [done..| |done].
  unfold more_writes. cbn [foldM fst snd]. by rewrite Hw'.
Qed.

(** C12. A final state is created on a new database and goes through finalized slots, recomputations of its
    caches and restarts of the node, none of which fails.  Afterwards the database holds an operation exactly
    if it is in the table of an abstract run, in which a slot enters what it executes and drops the
    operations whose expiry is before the periods that are kept, and the status that is
    reported is the one of the execution; a denunciation exactly if it was executed and has not expired; and
    the lists in memory are those of the database.  At each slot proof of stake has the cycle of the slot, in which
    the hash of the state is written. *)
Theorem executed_lists_exact (expiry : OperationId → Slot) (x : DB) (db_cfg : MassaDBConfig) (config : FinalStateConfig) (evs : list FinalEvent) :
  (∀ cf, contents x cf = ∅) → threads_ok (fs_thread_count config) → db_thread_count db_cfg = fs_thread_count config →
  events_ok expiry config (MkSlot 0 (fs_thread_count config - 1)) evs →
  let ops := (foldl (remember config) (∅, ∅) evs).1 in
  let dens := (foldl (remember config) (∅, ∅) evs).2 in
  ∃ fs, (d ← expect_ok CRUD_ERROR (new_with_options x db_cfg); fs0 ← expect_ok CRUD_ERROR (final_state_new d config true); foldM final_event evs fs0) = Ok fs
    ∧ (∀ op, op_ok op → executed_ops_contains (E := MassaDBError) fs op = Ok (bool_decide (is_Some (ops !! op))))
    ∧ (∀ l, final_ops_exec_status fs l = (λ op, fst <$> ops !! op) <$> l)
    ∧ (∀ i, index_ok (executed_denunciations_config config) i → contains_denunciation (E := MassaDBError) (fs_db fs) i = Ok (bool_decide (i ∈ dens)))
    ∧ (∀ s op, listed (eo_sorted_ops (executed_ops fs)) s op ↔ ∃ b, ops !! op = Some (b, s))
    ∧ (∀ s i, listed (sorted_denunciations (executed_denunciations fs)) s i ↔ i ∈ dens ∧ di_get_slot i = s).
Proof using All.
  intros Hx Htc Hth Hevs ops dens. destruct (final_start_spec expiry x db_cfg config evs Hx Htc Hth Hevs) as (fs & -> & Hc & [_ Ho Hde _ _ Hdc _]).
  exists fs. split_and!; [done|..].
  - intros op Hop. by apply (contains_op_spec _ _ _ op Ho).
  - intros l. apply list_fmap_ext. intros _ op _. by rewrite (eo_status _ _ _ Ho), lookup_fmap.
  - intros i Hi. apply (contains_denunciation_spec _ _ _ i Hde). by rewrite Hdc, Hc.
  - apply (eo_listed _ _ _ Ho).
  - apply (ed_listed _ _ _ Hde).
Qed.

(** C28. Once a slot that executes an operation is final, the operation is found to be executed, whatever is
    finalized next and however often the node restarts, for as long as no final slot is past the
    expiry of the operation: so it cannot be executed again while it is valid. *)
Theorem executed_op_remembered (expiry : OperationId → Slot) (x : DB) (db_cfg : MassaDBConfig) (config : FinalStateConfig)
    (evs1 evs2 : list FinalEvent) (slot : Slot) (ch : SlotChanges) (op : OperationId) :
  (∀ cf, contents x cf = ∅) → threads_ok (fs_thread_count config) → db_thread_count db_cfg = fs_thread_count config →
  events_ok expiry config (MkSlot 0 (fs_thread_count config - 1)) (evs1 ++ SlotFinalized slot ch :: evs2) →
  is_Some (executed_ops_changes ch !! op) →
  (∀ slot' ch', SlotFinalized slot' ch' ∈ SlotFinalized slot ch :: evs2 → cmp_le slot' (expiry op)) →
  ∃ fs, (d ← expect_ok CRUD_ERROR (new_with_options x db_cfg); fs0 ← expect_ok CRUD_ERROR (final_state_new d config true);
         foldM final_event (evs1 ++ SlotFinalized slot ch :: evs2) fs0) = Ok fs
    ∧ executed_ops_contains (E := MassaDBError) fs op = Ok true.
Proof using All.
  intros Hx Htc Hth Hevs [[b s] Hop] Hexp. destruct (final_start_spec expiry x db_cfg config _ Hx Htc Hth Hevs) as (fs & -> & Hc & [_ Ho _ _ _ _ _]).
  exists fs. split; [done|].
  assert (∀ slot' ch', SlotFinalized slot' ch' ∈ SlotFinalized slot ch :: evs2 → kept_op (executed_ops_config config) slot' (expiry op)) as Hk
    by (intros slot' ch' Hin; by eapply kept_before, Hexp).
  pose proof (events_ok_app expiry config _ evs1 _ Hevs) as [[Hch _] Hevs2]. destruct (co_ops _ _ _ _ Hch op b s Hop) as (Hok & _ & ->).
  rewrite foldl_app in Ho. cbn [foldl] in Ho.
  destruct (remembered_op expiry config slot evs2 (remember config (foldl (remember config) (∅, ∅) evs1) (SlotFinalized slot ch)) op b) as [b' Hb'].
  - done.
  - cbn [remember fst]. apply lookup_ops_after. split; [|by left]. cbn. eapply Hk. by left.
  - intros slot' ch' Hin. eapply Hk. by right.
  - unfold executed_ops_contains. rewrite (contains_op_spec _ _ _ op Ho Hok), bool_decide_true; [done|]. by eexists.
Qed.
End theorems.

(** ** Samples *)

(** A database in memory. *)
Record SampleDB : Type := MkSampleDB {
  sample_state : gmap Bytes Bytes;
  sample_metadata : gmap Bytes Bytes;
  sample_versioning : gmap Bytes Bytes }.
Definition sample_contents (x : SampleDB) (cf : ColumnFamily) : gmap Bytes Bytes :=
  match cf with STATE_CF => sample_state x | METADATA_CF => sample_metadata x | VERSIONING_CF => sample_versioning x end.
Definition sample_write (x : SampleDB) (ops : list WriteOp) : SampleDB :=
  MkSampleDB (foldl (apply_op STATE_CF) (sample_state x) ops) (foldl (apply_op METADATA_CF) (sample_metadata x) ops)
    (foldl (apply_op VERSIONING_CF) (sample_versioning x) ops).
#[local] Instance memory_db : RocksDB := {|
  DB := SampleDB;
  rocks_get x cf k := sample_contents x cf !! k;
  rocks_start x cf := sorted_entries (sample_contents x cf);
  rocks_from x cf k := filter (λ e, cmp_le k e.1) (sorted_entries (sample_contents x cf));
  rocks_prefix x cf p := filter (λ e, starts_with p e.1 = true) (sorted_entries (sample_contents x cf));
  rocks_write x ops := Some (sample_write x ops);
  rocks_batch_size ops := N.of_nat (length ops) |}.
#[local] Instance memory_db_laws : RocksLaws.
Proof.
  refine {| contents := sample_contents |}; try done.
  - intros x cf p. exists []. by rewrite app_nil_r.
  - intros x ops x' [= <-] cf. by destruct cf.
Defined.
(** A hash of an entry, on as many bytes. *)
#[local] Instance sample_entry_hash : EntryHash := λ k v, replicate STATE_HASH_BYTES_LEN (N.of_nat (length k + 3 * length v)).
#[local] Instance sample_entry_hash_laws : EntryHashLaws.
Proof. intros k v. apply length_replicate. Defined.

Definition empty_db : DB := MkSampleDB ∅ ∅ ∅.
Definition sample_db_config : MassaDBConfig := MkMassaDBConfig 10 100 100 2 true.
(** Two entries, of which one is deleted and one changed, then a restart. *)
Definition sample_db_events : list DbEvent :=
  [DbWrite {[ [97; 1] := Some [1]; [98; 2] := Some [2; 2] ]} {[ [118] := Some [0] ]} (Some (MkSlot 0 1));
   DbDeletePrefix [97] STATE_CF None;
   DbReopen;
   DbWrite {[ [98; 2] := Some [7] ; [99] := Some [5] ]} ∅ (Some (MkSlot 3 0))].
Lemma sample_ids_ok : ids_ok 2 (MkSlot 0 0) sample_db_events.
Proof. repeat split; try done; vm_compute; discriminate. Qed.
Lemma empty_contents cf : contents empty_db cf = ∅.
Proof. by destruct cf. Qed.

Lemma state_hash_exact_witness : ∃ d,
  (d0 ← new_with_options empty_db sample_db_config; foldM db_event sample_db_events d0) = Ok d
  ∧ contents (db d) STATE_CF = {[ [98; 2] := [7]; [99] := [5] ]} ∧ get_change_id d = Ok (MkSlot 3 0).
Proof.
  destruct (state_hash_exact empty_db sample_db_config sample_db_events) as (d & Hd & Hs & _ & _ & Hid);
    [exact empty_contents|done|exact sample_ids_ok|]. exists d. split; [exact Hd|]. rewrite Hs, Hid. split; [|reflexivity].
  apply (bool_decide_unpack _). vm_compute. exact I.
Defined.

(** A server whose parts hold one entry. *)
Definition sample_server_config : MassaDBConfig := MkMassaDBConfig 10 8 8 2 true.
Definition value_of {E} (default : MassaDB) (m : outcome E MassaDB) : MassaDB := match m with Ok d => d | _ => default end.
Lemma value_of_ok {E} default (m : outcome E MassaDB) : is_ok m = true → m = Ok (value_of default m).
Proof. by destruct m. Qed.
Definition blank : MassaDB := MkMassaDB empty_db sample_server_config [] [] [].
Definition sample_server : MassaDB := value_of blank (d0 ← new_with_options empty_db sample_server_config; foldM db_event sample_db_events d0).
Definition sample_client : MassaDB := value_of blank (new_with_options empty_db sample_db_config).
Lemma sample_server_ok : (d0 ← new_with_options empty_db sample_server_config; foldM db_event sample_db_events d0) = Ok sample_server.
Proof. apply value_of_ok. vm_compute. reflexivity. Qed.
Lemma sample_client_ok : new_with_options empty_db sample_db_config = Ok sample_client.
Proof. apply value_of_ok. vm_compute. reflexivity. Qed.

Definition fitting (d : MassaDB) : bool :=
  bool_decide (map_Forall (λ k v, wire_size k v ≤ max_final_state_elements_size (db_config d)) (contents (db d) STATE_CF)
               ∧ map_Forall (λ k v, wire_size k v ≤ max_versioning_elements_size (db_config d)) (contents (db d) VERSIONING_CF)).
Lemma fitting_fits d : fitting d = true → entries_fit d.
Proof. intros [H1 H2]%bool_decide_eq_true. by split. Qed.

(** The next part, and a write of the server. *)
Definition after_part (s : Stream) : option Stream :=
  match server_part (server s) (cursors s) with
  | Ok (Some part, c) => match client_part part (client s) with Ok (r, d) => Some (MkStream (server s) d c r) | _ => None end
  | _ => None
  end.
Lemma after_part_step s : (if after_part s then true else false) = true → stream_step s (default s (after_part s)).
Proof.
  unfold after_part. intros Hs. destruct (server_part (server s) (cursors s)) as [[[part|] c]|e|w|] eqn:Hp; try done.
  destruct (client_part part (client s)) as [[r d]|e|w|] eqn:Hc; try done. cbn. by eapply part_sent.
Qed.
(** The first entry is deleted once it is streamed, and another one is added; then one more, with the same identifier. *)
Definition one_more : list (DBBatch * DBBatch) := [({[ [97] := Some [8] ]}, ∅)].
Definition first_write (d : MassaDB) : MassaDB := value_of blank (write_batch d {[ [98; 2] := None; [100] := Some [9] ]} ∅ (Some (MkSlot 4 0))).
Definition after_write (s : Stream) : Stream :=
  MkStream (value_of blank (more_writes (first_write (server s)) one_more)) (client s) (cursors s) (resume s).
Definition stream1 : Stream := MkStream sample_server sample_client fresh fresh.
Definition stream2 : Stream := default stream1 (after_part stream1).
Definition stream3 : Stream := after_write stream2.
Definition stream4 : Stream := default stream3 (after_part stream3).
Definition stream5 : Stream := MkStream (server stream4) (client stream4) (resume stream4) (resume stream4).
Definition stream6 : Stream := default stream5 (after_part stream5).
Lemma sample_stream_run : rtc stream_step stream1 stream6.
Proof.
  eapply rtc_l; [apply after_part_step; vm_compute; reflexivity|]. change (rtc stream_step stream2 stream6).
  eapply (rtc_l _ _ stream3).
  { eapply (server_writes _ {[ [98; 2] := None; [100] := Some [9] ]} ∅ (MkSlot 3 0) (MkSlot 4 0) (first_write (server stream2)) one_more);
      [vm_compute; reflexivity|done|repeat split; done|apply value_of_ok; vm_compute; reflexivity|apply value_of_ok; vm_compute; reflexivity
      |apply fitting_fits; vm_compute; reflexivity]. }
  eapply (rtc_l _ _ stream4); [apply after_part_step; vm_compute; reflexivity|].
  eapply (rtc_l _ _ stream5); [exact (client_resumes stream4)|].
  apply rtc_once. apply after_part_step. vm_compute. reflexivity.
Qed.
Definition last_part : StreamBatch * StreamBatch * Slot := (MkStreamBatch ∅ ∅ (MkSlot 4 0), MkStreamBatch ∅ ∅ (MkSlot 4 0), MkSlot 4 0).
Lemma bootstrap_stream_exact_witness :
  same_state (client stream6) (server stream6)
  ∧ contents (db (client stream6)) STATE_CF = {[ [97] := [8]; [99] := [5]; [100] := [9] ]}.
Proof.
  split; [|apply (bool_decide_unpack _); vm_compute; exact I].
  apply (bootstrap_stream_exact empty_db empty_db sample_server_config sample_db_config sample_db_events sample_server sample_client stream6
           last_part (MkCursors (Some (MkSlot 4 0)) (Finished None) (Finished None)));
    [exact empty_contents|exact empty_contents|done|done|exact sample_ids_ok|exact sample_server_ok|exact sample_client_ok
    |apply fitting_fits; vm_compute; reflexivity|exact sample_stream_run|vm_compute; reflexivity|vm_compute; reflexivity].
Defined.
Lemma bootstrap_stream_ends_witness : ∃ cl',
  stream_loop (size (contents (db sample_server) STATE_CF) + size (contents (db sample_server) VERSIONING_CF) + 3) sample_server sample_client fresh
    = Ok (Some cl') ∧ same_state cl' sample_server.
Proof.
  apply (bootstrap_stream_ends empty_db empty_db sample_server_config sample_db_config sample_db_events sample_server sample_client);
    [exact empty_contents|exact empty_contents|done|done|exact sample_ids_ok|exact sample_server_ok|exact sample_client_ok
    |apply fitting_fits; vm_compute; reflexivity].
Defined.

(** A chain with two threads: an operation is executed, then the node restarts, and another one expires. *)
Definition sample_final_config : FinalStateConfig :=
  MkFinalStateConfig 2 128 1000 0 (MkExecutedOpsConfig 2 1) (MkExecutedDenunciationsConfig 3 2 4 1).
Definition sample_expiry (op : OperationId) : Slot := match op with OperationIdV0 h => MkSlot h 1 end.
Definition ops_of (ops : ExecutedOpsChanges) (dens : gset DenunciationIndex) : SlotChanges :=
  MkSlotChanges {[ [97; 0] := Some [1] ]} ops ∅ dens ∅ ∅ [(0, false)].
Definition sample_slot1 : SlotChanges :=
  ops_of {[ OperationIdV0 9 := (true, MkSlot 9 1) ]} {[ DI_Endorsement (MkSlot 1 0) 2 ]}.
Definition sample_slot2 : SlotChanges := ops_of {[ OperationIdV0 1 := (false, MkSlot 1 1) ]} ∅.
Definition sample_final_events : list FinalEvent :=
  [NodeRestarted; SlotFinalized (MkSlot 1 1) sample_slot2; CachesRecomputed; SlotFinalized (MkSlot 2 0) (ops_of ∅ ∅);
   SlotFinalized (MkSlot 2 1) (ops_of ∅ ∅); NodeRestarted; SlotFinalized (MkSlot 3 0) (ops_of ∅ ∅)].

Lemma sample_changes_ok slot ops dens :
  period slot < 128 →
  map_Forall (λ op x, op_ok op ∧ expiry_ok (executed_ops_config sample_final_config) x.2 ∧ x.2 = sample_expiry op) ops →
  set_Forall (index_ok (executed_denunciations_config sample_final_config)) dens →
  changes_ok sample_expiry sample_final_config slot (ops_of ops dens).
Proof.
  intros Hp Hops Hdens. split; cbn [ops_of executed_ops_changes executed_denunciations_changes first_changes deferred_call_changes last_changes].
  - intros op b s Hop. by apply (Hops op (b, s)).
  - exact Hdens.
  - intros y Hy. rewrite !lookup_empty. split; [|done]. apply lookup_singleton_ne. intros <-. by destruct Hy.
  - split; [done|]. cbn [fs_periods_per_cycle sample_final_config]. rewrite N.div_small by done. by eexists.
Qed.

Ltac solve_follows :=
  split; [reflexivity|intros ? [->|Hs]; [|vm_compute in Hs; injection Hs as <-]; eexists; reflexivity].
Lemma sample_index_ok : index_ok (executed_denunciations_config sample_final_config) (DI_Endorsement (MkSlot 1 0) 2).
Proof. split; [repeat split; vm_compute; (done || discriminate)|]. intros index [= <-]. split; vm_compute; discriminate. Qed.
Lemma sample_events_ok : events_ok sample_expiry sample_final_config (MkSlot 0 1) (SlotFinalized (MkSlot 1 0) sample_slot1 :: sample_final_events).
Proof.
  assert (∀ op b, op_ok op → expiry_ok (executed_ops_config sample_final_config) (sample_expiry op) →
    map_Forall (λ op x, op_ok op ∧ expiry_ok (executed_ops_config sample_final_config) x.2 ∧ x.2 = sample_expiry op)
      ({[ op := (b, sample_expiry op) ]} : gmap OperationId (bool * Slot))) as Hone by (intros; by apply map_Forall_singleton).
  assert (∀ slot, period slot < 128 → changes_ok sample_expiry sample_final_config slot (ops_of ∅ ∅)) as Hnone
    by (intros; by apply sample_changes_ok; [|apply map_Forall_empty|apply set_Forall_empty]).
  cbn [events_ok sample_final_events final_slot]. split_and!; try exact I; try (by apply Hnone); try solve_follows; apply sample_changes_ok; try done.
  - apply (Hone (OperationIdV0 9) true); repeat split; vm_compute; (done || discriminate).
  - apply set_Forall_singleton, sample_index_ok.
  - apply (Hone (OperationIdV0 1) false); repeat split; vm_compute; (done || discriminate).
Qed.

#[local] Instance listed_order {K} `{Countable K} : SetIter K := elements_iter.
Definition sample_run : outcome FinalizeError FinalState :=
  d ← expect_ok CRUD_ERROR (new_with_options empty_db sample_db_config);
  fs0 ← expect_ok CRUD_ERROR (final_state_new d sample_final_config true);
  foldM final_event (SlotFinalized (MkSlot 1 0) sample_slot1 :: sample_final_events) fs0.
Lemma executed_lists_exact_witness : ∃ fs, sample_run = Ok fs
  ∧ executed_ops_contains (E := MassaDBError) fs (OperationIdV0 9) = Ok true
  ∧ executed_ops_contains (E := MassaDBError) fs (OperationIdV0 1) = Ok false
  ∧ final_ops_exec_status fs [OperationIdV0 1; OperationIdV0 9] = [None; Some true]
  ∧ contains_denunciation (E := MassaDBError) (fs_db fs) (DI_Endorsement (MkSlot 1 0) 2) = Ok true.
Proof.
  destruct (executed_lists_exact sample_expiry empty_db sample_db_config sample_final_config (SlotFinalized (MkSlot 1 0) sample_slot1 :: sample_final_events))
    as (fs & Hrun & Hops & Hst & Hdens & _); [exact empty_contents|by split|done|exact sample_events_ok|].
  exists fs. split; [exact Hrun|]. rewrite (Hops (OperationIdV0 9)), (Hops (OperationIdV0 1)), Hst, Hdens by (exact sample_index_ok || (vm_compute; reflexivity)).
  vm_compute. repeat split.
Defined.
Lemma executed_op_remembered_witness : ∃ fs, sample_run = Ok fs ∧ executed_ops_contains (E := MassaDBError) fs (OperationIdV0 9) = Ok true.
Proof.
  apply (executed_op_remembered sample_expiry empty_db sample_db_config sample_final_config [] sample_final_events (MkSlot 1 0) sample_slot1 (OperationIdV0 9));
    [exact empty_contents|by split|done|exact sample_events_ok|by eexists|].
  intros slot' ch' Hin. unfold sample_final_events in Hin. rewrite !elem_of_cons, elem_of_nil in Hin.
  destruct_or! Hin; try done; try discriminate Hin; injection Hin as -> _; vm_compute; discriminate.
Defined.
